(* ===== verification/_CoqProject ===== *)
-Q . S2P
Prelude.v
Machine.v
Carith.v
Chars.v
Strs.v
Num.v
Ir.v
IrInv.v
Fold.v
FoldMono.v
FoldSem.v
FoldInv.v
FoldConst.v
FoldArith.v
FoldConv.v
FoldSound.v
FoldProps.v
Tab.v
TabKey.v
TabHash.v
TabInv.v
TabPut.v
TabSize.v
TabResize.v
TabRehash.v
TabMap.v
TabWalk.v
TabProps.v
Buf.v
Strfmt.v
StrfmtNum.v
StrfmtBuf.v
StrfmtParse.v
Strscan.v
StrscanInt.v
StrscanEnds.v
StrscanType.v
Lex.v
LexInv.v
LexPieces.v
LexString.v
TextProps.v
Patt.v
PattSafe.v
PattSem.v
PattMatch.v
PattProps.v
PattGsub.v
Tsort.v
TsortProps.v
TsortTab.v
Bcdump.v
Bcread.v
BcdumpNum.v
BcdumpWrite.v
BcdumpTab.v
BcdumpIn.v
BcdumpText.v
BcdumpFlush.v
BcdumpProto.v
BcdumpLoop.v
BcdumpPatch.v
BcdumpProps.v
Gc.v
GcFunc.v
GcInv.v
GcMark.v
GcTrav.v
GcProp.v
GcAtomic.v
GcWeak.v
GcSafe.v
GcMut.v
GcFuncInv.v
GcLists.v
GcCycle.v
GcUpv.v
GcSweep.v
GcFull.v
GcProps.v
