(* ===== verification/Prelude.v ===== *)
(** * A Rocq model of the LuaJIT core

    The repository packs LuaJIT ([src/luajit/src/src]) and a collection of
    Lua modules for Android.  This development models the parts of LuaJIT
    that carry its own logic and can be separated from the interpreter: the
    strings and tables of the VM, the intermediate representation of the JIT
    compiler with its fold engine, the text side (buffers, formatting,
    number scanning, lexer, pattern matching), the bytecode dumps, and the
    garbage collector.  File names below are relative to [src/luajit/src/src].

    ** Parts and files

    - [Prelude]: the error monad [res], machine integers ([u32 x] is [x]
      reduced to [uint32_t], [i32] to [int32_t], and so on), bit lemmas and
      the tactics and hint databases the files share.
    - [Machine] ([lj_def.h]): rotations, byte swaps, bit scans, unaligned
      loads.  [Carith] ([lj_carith.c], [lj_vmmath.c]): 64-bit helpers and the
      32-bit modulo.  [Chars] ([lj_char.c]): character classes.  [Num]:
      doubles as bit patterns, with the arithmetic of [SpecFloat].
    - [Strs] ([lj_str.c], the string sweep of [lj_gc.c]): comparison,
      search, and the interning table.  The global state is a heap of string
      objects and the hash chains; addresses matter only for the page check
      of the fast comparison.
    - [Ir], [IrInv] ([lj_ir.c], [lj_ir.h]): the instruction buffer, constant
      interning, CSE and rollback.  [Fold] ([lj_opt_fold.c]) has the fold
      rules, the table of rules and the engine; [FoldSem] is a semantics of
      the integer instructions that does not know the rules; [FoldMono],
      [FoldInv], [FoldConst], [FoldArith], [FoldConv], [FoldSound] show rule
      by rule that a result refines the instruction it replaces; [FoldProps]
      states it for the engine.
    - [Tab] ([lj_tab.c], [lj_tab.h]): tables; [TabKey] (keys), [TabHash]
      (the invariant of collision chains), [TabInv] and [TabPut] (lookup and
      insertion), [TabSize], [TabResize], [TabRehash] (sizes), [TabMap] and
      [TabWalk] (tables as maps, traversal, length), [TabProps].  The class
      [TabEnv] holds what a table needs from its surroundings: the target,
      the hashes of strings, and the contents of fresh memory.
    - [Buf] ([lj_buf.c]), [Strfmt] ([lj_strfmt.c]), [Strscan]
      ([lj_strscan.c]), [Lex] ([lj_lex.c]); [StrfmtNum], [StrfmtBuf],
      [StrfmtParse], [StrscanInt], [StrscanEnds], [StrscanType], [LexInv],
      [LexPieces], [LexString] have their lemmas and [TextProps] the
      statements.
    - [Patt] ([lib_string.c]): the matcher of Lua patterns, the search, the
      iterator and the substitution over it.  [PattSafe] shows that the matcher
      ends, stays in its strings and undoes what it tried; [PattSem] is a
      parser of patterns and a meaning of the parsed pattern, the list of all
      its matches, that does not know the matcher; [PattMatch] shows that the
      matcher gives the first match of that list;
      [PattProps] and [PattGsub] have the statements on [string.find],
      [string.match], [string.gmatch] and [string.gsub].
    - [Tsort] ([lib_table.c]): the quicksort of [table.sort], over an interface
      to the elements (the class [SortEnv]) whose laws are [SortLaws] of
      [TsortProps], which shows that it rearranges and sorts; [TsortTab] shows
      that tables obey the laws ([lj_api.c]), and has the statements.
    - [Bcdump] ([lj_bcdump.h], [lj_bcwrite.c]): prototypes, the dump format
      and the writer; [Bcread] ([lj_bcread.c]): the reader, over a monad for
      the functions that only move the read pointer.  [BcdumpNum] (numbers),
      [BcdumpWrite] and [BcdumpTab] (constants, template tables),
      [BcdumpText] and [BcdumpFlush] (the text of a dump, what the writer
      delivers), [BcdumpIn] (the input buffer), [BcdumpProto] and
      [BcdumpLoop] (prototypes, the whole dump), [BcdumpPatch] (instructions
      patched by [lj_trace.c]) and [BcdumpProps] (the statements).  The class
      [StrTab] holds what dumps need from the string table; [BcdumpProps]
      shows that a consistent table of [Strs] provides it.

    - [Gc] ([lj_gc.c], [lj_gc.h], parts of [lj_meta.c] and [lj_state.c]): the
      heap of all objects, the mark and atomic phases, the write barriers;
      [GcFunc] ([lj_func.c], [lj_udata.c]): functions and upvalues; [GcSweep]:
      the sweep.  [GcInv] has the tri-color invariant; [GcMark], [GcTrav],
      [GcProp], [GcAtomic] and [GcWeak] show that marking, traversal,
      propagation, the atomic phase and the clearing of weak tables keep it,
      [GcSafe] what that means for the sweep; [GcMut] and [GcFuncInv] do the
      same for what the program does between the steps, [GcLists] for the lists
      of all objects, [GcUpv] for the lists of open upvalues; [GcCycle] has the
      step relation, [GcSweep] and [GcFull] the sweep of the lists and the whole
      cycle, [GcProps] the statements.

    The components interact as in the code: the lexer stores characters
    through the buffer, calls the number scanner and formats its errors with
    the string formatter; the formatter stores through the buffer;
    [string.find] uses the search of [Strs] for plain patterns; the fold engine
    emits through the IR; table keys are compared by [lj_obj_equal]; the sort
    reads and stores through the tables; the dump writer stores through the buffer and walks tables, the reader
    builds tables with [lj_tab_new] and [lj_tab_set] and interns strings; the
    collector traverses the tables of [Tab], looks up metamethods with
    [lj_tab_getstr] and shrinks a string buffer.

    ** How code becomes definitions

    A function of the code is a function with the same name where Rocq allows
    it; a loop is a [Fixpoint], named after the function or its purpose.  State
    is passed explicitly ([global_State], [jit_State], [GCtab], [SBuf],
    [LexState]); errors are values of a [res] type.  Pointers into an array
    are indices, pointers to objects are identifiers or addresses.  Unsigned
    arithmetic is reduced where the code's type does; signed overflow, which
    is undefined in C, is reduced as the targets do it where it can occur.

    Loops whose rounds are not counted by their data take fuel and leave with
    an error value of their own when it runs out; the theorems on termination
    show that this error does not occur: [lj_str_cmp] and [lj_str_find] get
    the length of the strings, the table functions the number of nodes (and
    a store needs at most one rehash, which its fuel of one allows), [lj_strfmt_parse]
    and [lj_strfmt_pushvf] the length of the format string, and the lexer the
    number of unread characters.  The sort of [lib_table.c] gets fuel for 32
    levels of recursion, which serve for [2 ^ 32] elements, and for its loops
    the length of the range.  The matcher calls itself, or jumps back, with
    less of the pattern left, and gets the length of the pattern; its loops over
    the subject get the length of the subject.  The loops that scale a decimal number get
    fuel for 400 rounds; each two rounds change the number of digits before
    the point, which the code bounds by [-163] and [155].  [bcread_fill] gets the
    number of bytes it is asked for, since every piece of input has at least
    one; the loop of [lj_bcread] runs once for each prototype, of which a
    dump has fewer than bytes.  [gc_propagate_gray] gets twice the number of
    objects, since an object is turned black once and is gray in one list;
    [gc_mark] calls itself to a depth of three (an upvalue, a userdata in it,
    the tables of that); a full sweep has a round for every object and every
    upvalue of a thread.  The retry loop of
    the fold engine is not shown to end: its soundness is stated for the
    results it gives.

    ** What the theorems show

    - The fold engine is sound: the result of [lj_opt_fold] for an integer
      instruction refines the instruction in every run of the trace; a
      failed guard means that no run passes.  Left out are 64-bit arithmetic
      other than bit operations (there one pass through the rules is covered)
      and two kinds of instructions on constants; the index of a numeric for
      loop has a constant bound and does not overflow.  Four rules are shown
      wrong: signed 64-bit comparisons, negated 64-bit divisions, the reuse of
      instructions of another type, and the widening of the index of a loop
      whose bound is not constant.
    - A table is a map under equality of keys: every sequence of stores,
      clears, copies and rehashes; stores end; traversals are complete; sizes
      and lengths are right; one case in which a pair becomes unreachable.
    - Sorting: for every order function the sort ends, with a recursion of
      logarithmic depth, and rearranges the elements of the table; it sorts
      them if the order is valid.
    - Interning: equal strings are the same object, through resizing and
      sweeping; comparison, search and pattern detection are what they say.
    - The IR: constants are interned, rollback undoes emission.
    - Buffers and formatting never leave the memory they reserve, and fail
      only where that would exceed the largest buffer; numbers are
      written in plain notation; ULEB128, integers and quoted strings read
      back; the format parser, the number scanner and the lexer end on every
      input; the tokens do not depend on how the input is delivered; two kinds
      of decimal numbers that are converted wrongly.
    - Pattern matching: the matcher ends on every pattern and stays inside its
      strings; for well-formed patterns it finds the leftmost match that the
      repetitions prefer, and none only if there is none; a fixed-string search
      gives the same; loops over matches and substitutions end, and a
      substitution replaces matches and nothing else.
    - Bytecode dumps: the writer delivers a reference text chunk by chunk,
      stays within its buffer, and fails only for chunks that nearly fill the
      largest one; a dump is read back, in either byte order and
      in any pieces; a dump that is cut anywhere is never accepted, but is read
      beyond its end where the cut is in the header or in a size; patched loops are restored, a patched return is not.
    - The garbage collector: with the steps of the collector and of the program
      in any order, the tri-color invariant holds, a cycle keeps every object
      that can be reached and frees what is dead; propagation ends; upvalues are
      shared and closed as the language demands; a [__mode] with [K] breaks the
      guarantee.
    - Arithmetic helpers compute division, modulo and powers exactly.

    ** What is not modelled

    Assembly (the interpreter and the code the assembler backends emit), the
    trace recorder and the passes that need snapshots, the parser, the
    allocator, the FFI, the C API and the libraries other than pattern matching
    and sorting, of which the checks of arguments are left out.  Of the
    garbage collector: the calls of finalizers, which run Lua code, and the memory accounting that
    paces its steps; [Strs] sweeps the strings over a heap of its own, so the
    heap of [Gc] keeps the objects of dead strings.  They
    depend on the Lua stack, on machine code, or on the operating system.  [sprintf] and the callbacks of the lexer
    and of the dumps are parameters.  Of [sprintf] only the size of a finite number is
    assumed, as the C standard has it, for formats with at most two digits for the
    width and the precision.  Memory allocation is a supply of identifiers or of memory with
    arbitrary contents; running out of memory is not modelled, except for the
    limits the code itself checks.  The other modules of the repository bind
    Lua to system libraries and are left aside. *)

From Stdlib Require Export ZArith Lia Bool List.
From Stdlib Require Export btauto.Btauto.
From stdpp Require Export base numbers list gmap option.

#[global] Set Default Goal Selector "!".
Open Scope Z_scope.

(** ** Notations *)

Declare Scope lj_scope.
Delimit Scope lj_scope with lj.
Infix ".&" := Z.land (at level 40, left associativity) : lj_scope.
Infix ".|" := Z.lor (at level 45, left associativity) : lj_scope.
Infix ".^" := Z.lxor (at level 44, left associativity) : lj_scope.
Infix "<<" := Z.shiftl (at level 39, left associativity) : lj_scope.
Infix ">>" := Z.shiftr (at level 39, left associativity) : lj_scope.
Open Scope lj_scope.

(** ** Results of fallible code *)

Inductive res (E A : Type) : Type :=
| Ok (a : A)
| Err (e : E).
Arguments Ok {E A} a.
Arguments Err {E A} e.

#[export] Instance res_ret E : MRet (res E) := fun A a => Ok a.
#[export] Instance res_bind E : MBind (res E) := fun A B f m =>
  match m with Ok a => f a | Err e => Err e end.
#[export] Instance res_fmap E : FMap (res E) := fun A B f m =>
  match m with Ok a => Ok (f a) | Err e => Err e end.

Lemma bind_Ok {E A B} (m : res E A) (f : A -> res E B) b :
  mbind f m = Ok b <-> exists a, m = Ok a /\ f a = Ok b.
Proof.
  destruct m; split.
  - intros H. eauto.
  - intros (a' & [= <-] & H). exact H.
  - intros [=].
  - intros (a' & [=] & _).
Qed.

(** ** Fixed-width integers

    A C integer is a [Z] in the range of its type; the functions below are
    the conversions the C code performs on assignment. *)

Definition u8 (x : Z) : Z := x mod 2 ^ 8.
Definition u16 (x : Z) : Z := x mod 2 ^ 16.
Definition u32 (x : Z) : Z := x mod 2 ^ 32.
Definition u64 (x : Z) : Z := x mod 2 ^ 64.
Definition i8 (x : Z) : Z := (x + 2 ^ 7) mod 2 ^ 8 - 2 ^ 7.
Definition i16 (x : Z) : Z := (x + 2 ^ 15) mod 2 ^ 16 - 2 ^ 15.
Definition i32 (x : Z) : Z := (x + 2 ^ 31) mod 2 ^ 32 - 2 ^ 31.
Definition i64 (x : Z) : Z := (x + 2 ^ 63) mod 2 ^ 64 - 2 ^ 63.

Definition is_u8 (x : Z) : Prop := 0 <= x < 2 ^ 8.
Definition is_u16 (x : Z) : Prop := 0 <= x < 2 ^ 16.
Definition is_u32 (x : Z) : Prop := 0 <= x < 2 ^ 32.
Definition is_u64 (x : Z) : Prop := 0 <= x < 2 ^ 64.
Definition is_i32 (x : Z) : Prop := - 2 ^ 31 <= x < 2 ^ 31.
Definition is_i64 (x : Z) : Prop := - 2 ^ 63 <= x < 2 ^ 63.

(** [widths] opens the conversions and ranges for [lia]. *)
Ltac widths :=
  unfold is_u8, is_u16, is_u32, is_u64, is_i32, is_i64 in *;
  unfold u8, u16, u32, u64, i8, i16, i32, i64 in *.
Ltac wsolve := widths; Z.div_mod_to_equations; lia.

Lemma u8_range x : is_u8 (u8 x).
Proof. wsolve. Qed.
Lemma u16_range x : is_u16 (u16 x).
Proof. wsolve. Qed.
Lemma u32_range x : is_u32 (u32 x).
Proof. wsolve. Qed.
Lemma u64_range x : is_u64 (u64 x).
Proof. wsolve. Qed.
Lemma i32_range x : is_i32 (i32 x).
Proof. wsolve. Qed.
Lemma i64_range x : is_i64 (i64 x).
Proof. wsolve. Qed.

Lemma u8_id x : is_u8 x -> u8 x = x.
Proof. wsolve. Qed.
Lemma u16_id x : is_u16 x -> u16 x = x.
Proof. wsolve. Qed.
Lemma u32_id x : is_u32 x -> u32 x = x.
Proof. wsolve. Qed.
Lemma u64_id x : is_u64 x -> u64 x = x.
Proof. wsolve. Qed.
Lemma i32_id x : is_i32 x -> i32 x = x.
Proof. wsolve. Qed.
Lemma i64_id x : is_i64 x -> i64 x = x.
Proof. wsolve. Qed.

Lemma u32_i32 x : u32 (i32 x) = u32 x.
Proof. wsolve. Qed.
Lemma i32_u32 x : i32 (u32 x) = i32 x.
Proof. wsolve. Qed.
Lemma u64_i64 x : u64 (i64 x) = u64 x.
Proof. wsolve. Qed.
Lemma i64_u64 x : i64 (u64 x) = i64 x.
Proof. wsolve. Qed.
Lemma u32_u64 x : u32 (u64 x) = u32 x.
Proof. wsolve. Qed.
Lemma u32_u32 x : u32 (u32 x) = u32 x.
Proof. wsolve. Qed.
Lemma i32_i32 x : i32 (i32 x) = i32 x.
Proof. wsolve. Qed.

(** Two [int32_t] values with the same unsigned image are equal. *)
Lemma i32_inj x y : is_i32 x -> is_i32 y -> u32 x = u32 y -> x = y.
Proof. wsolve. Qed.
Lemma i64_inj x y : is_i64 x -> is_i64 y -> u64 x = u64 y -> x = y.
Proof. wsolve. Qed.
Lemma i32_cong x y : u32 x = u32 y -> i32 x = i32 y.
Proof. wsolve. Qed.

Create HintDb width discriminated.
Create Rewrite HintDb width.
#[export] Hint Resolve u8_range u16_range u32_range u64_range i32_range i64_range : width.
#[export] Hint Rewrite u32_i32 i32_u32 u64_i64 i64_u64 u32_u64 u32_u32 i32_i32 : width.

(** *** Bits of wrapped values *)

Lemma u32_ones x : u32 x = x .& Z.ones 32.
Proof. unfold u32. by rewrite Z.land_ones. Qed.
Lemma u64_ones x : u64 x = x .& Z.ones 64.
Proof. unfold u64. by rewrite Z.land_ones. Qed.

Lemma mod_pow2_testbit x w n :
  0 <= w -> 0 <= n -> Z.testbit (x mod 2 ^ w) n = (n <? w) && Z.testbit x n.
Proof.
  intros Hw Hn. destruct (Z.ltb_spec n w); simpl.
  - by apply Z.mod_pow2_bits_low.
  - by apply Z.mod_pow2_bits_high.
Qed.

Lemma testbit_high x w n : 0 <= x < 2 ^ w -> 0 <= w <= n -> Z.testbit x n = false.
Proof.
  intros Hx Hn. rewrite <- (Z.mod_small x (2 ^ w)) by done.
  by apply Z.mod_pow2_bits_high.
Qed.

(** Equality modulo [2^w] is equality of the low [w] bits. *)
Lemma mod_pow2_eq x y w :
  0 <= w ->
  (forall n, 0 <= n < w -> Z.testbit x n = Z.testbit y n) -> x mod 2 ^ w = y mod 2 ^ w.
Proof.
  intros Hw H. apply Z.bits_inj'. intros n Hn.
  rewrite !mod_pow2_testbit by lia.
  destruct (Z.ltb_spec n w); simpl; [apply H; lia | done].
Qed.

Lemma mod_pow2_eq_bit x y w n :
  x mod 2 ^ w = y mod 2 ^ w -> 0 <= n < w -> Z.testbit x n = Z.testbit y n.
Proof.
  intros H Hn. rewrite <- (Z.mod_pow2_bits_low x w n), <- (Z.mod_pow2_bits_low y w n) by lia.
  by rewrite H.
Qed.

Lemma u32_testbit x n : 0 <= n -> Z.testbit (u32 x) n = (n <? 32) && Z.testbit x n.
Proof. intros. unfold u32. by apply mod_pow2_testbit. Qed.
Lemma u64_testbit x n : 0 <= n -> Z.testbit (u64 x) n = (n <? 64) && Z.testbit x n.
Proof. intros. unfold u64. by apply mod_pow2_testbit. Qed.
Lemma i32_testbit x n : 0 <= n < 32 -> Z.testbit (i32 x) n = Z.testbit x n.
Proof.
  intros Hn. apply (mod_pow2_eq_bit _ _ 32); [apply u32_i32 | done].
Qed.
Lemma i64_testbit x n : 0 <= n < 64 -> Z.testbit (i64 x) n = Z.testbit x n.
Proof.
  intros Hn. apply (mod_pow2_eq_bit _ _ 64); [apply u64_i64 | done].
Qed.

(** [bits n] turns an equality of integers into one of bit [n], and pushes
    [Z.testbit] to the leaves. *)
Create Rewrite HintDb tbit.
#[export] Hint Rewrite Z.land_spec Z.lor_spec Z.lxor_spec Z.bits_0 : tbit.
#[export] Hint Rewrite Z.lnot_spec Z.shiftl_spec Z.shiftr_spec u32_testbit u64_testbit
  using lia : tbit.
Ltac tbits := autorewrite with tbit.

Lemma u32_land x y : u32 (x .& y) = u32 x .& u32 y.
Proof. apply Z.bits_inj'. intros n Hn. tbits. btauto. Qed.
Lemma u32_lor x y : u32 (x .| y) = u32 x .| u32 y.
Proof. apply Z.bits_inj'. intros n Hn. tbits. btauto. Qed.
Lemma u32_lxor x y : u32 (x .^ y) = u32 x .^ u32 y.
Proof. apply Z.bits_inj'. intros n Hn. tbits. by destruct (n <? 32), (Z.testbit x n), (Z.testbit y n). Qed.
Lemma u64_land x y : u64 (x .& y) = u64 x .& u64 y.
Proof. apply Z.bits_inj'. intros n Hn. tbits. btauto. Qed.
Lemma u64_lor x y : u64 (x .| y) = u64 x .| u64 y.
Proof. apply Z.bits_inj'. intros n Hn. tbits. btauto. Qed.
Lemma u64_lxor x y : u64 (x .^ y) = u64 x .^ u64 y.
Proof. apply Z.bits_inj'. intros n Hn. tbits. by destruct (n <? 64), (Z.testbit x n), (Z.testbit y n). Qed.

Lemma u32_add x y : u32 (u32 x + u32 y) = u32 (x + y).
Proof. unfold u32. by rewrite <- Z.add_mod. Qed.
Lemma u32_mul x y : u32 (u32 x * u32 y) = u32 (x * y).
Proof. unfold u32. by rewrite <- Z.mul_mod. Qed.
Lemma u64_add x y : u64 (u64 x + u64 y) = u64 (x + y).
Proof. unfold u64. by rewrite <- Z.add_mod. Qed.
Lemma u64_mul x y : u64 (u64 x * u64 y) = u64 (x * y).
Proof. unfold u64. by rewrite <- Z.mul_mod. Qed.

(** *** Signs *)

Lemma i32_sign x : (i32 x <? 0) = Z.testbit x 31.
Proof.
  destruct (Z.testbit x 31) eqn:E.
  - apply Z.testbit_true in E; [|lia]. apply Z.ltb_lt. wsolve.
  - apply Z.testbit_false in E; [|lia]. apply Z.ltb_ge. wsolve.
Qed.

Lemma i32_sign_id x : is_i32 x -> Z.testbit x 31 = (x <? 0).
Proof. intros. by rewrite <- i32_sign, i32_id. Qed.

Lemma i32_lxor_sign a b :
  is_i32 a -> is_i32 b -> (i32 (a .^ b) <? 0) = xorb (a <? 0) (b <? 0).
Proof. intros. by rewrite i32_sign, Z.lxor_spec, !i32_sign_id. Qed.

(** A decidable property of the numbers below a bound, checked by computation. *)
Lemma forall_below n (p : Z -> bool) :
  forallb (fun k => p (Z.of_nat k)) (seq 0 n) = true -> forall y, 0 <= y < Z.of_nat n -> p y = true.
Proof.
  intros H y Hy. rewrite forallb_forall in H. specialize (H (Z.to_nat y)).
  rewrite Z2Nat.id in H by lia. apply H. apply in_seq. lia.
Qed.
