(* ===== verification/Machine.v ===== *)
(** * Machine-level helpers of [lj_def.h]

    Rotations, byte swaps, bit scans and unaligned little-endian loads, as
    the macros and inline functions of [src/luajit/src/src/lj_def.h] define
    them, with the laws the other components use.  Bytes are integers in
    [0, 256) and a memory block is a list of bytes. *)

From S2P Require Import Prelude.

(** ** Rotations *)

(** [lj_rol(x, n)]: [((x)<<(n)) | ((x)>>(-(int)(n)&(8*sizeof(x)-1)))] for an
    unsigned type of [w] bits. *)
Definition lj_rol (w x n : Z) : Z :=
  ((x << n) mod 2 ^ w) .| (x >> (- n .& (w - 1))).

(** [lj_ror(x, n)]. *)
Definition lj_ror (w x n : Z) : Z :=
  ((x << (- n .& (w - 1))) mod 2 ^ w) .| (x >> n).

(** ** Bit scans *)

(** [lj_ffs]: [__builtin_ctz], defined for a non-zero argument. *)
Fixpoint ctz_pos (p : positive) : Z :=
  match p with xO p => 1 + ctz_pos p | _ => 0 end.
Definition lj_ffs (x : Z) : Z := match x with Zpos p => ctz_pos p | _ => 0 end.

(** [lj_fls]: [__builtin_clz(x)^31], the index of the highest set bit. *)
Definition lj_fls (x : Z) : Z := Z.log2 x.

(** ** Byte swaps *)

Definition lj_bswap (x : Z) : Z :=
  u32 (x << 24) .| ((x .& 0xff00) << 8) .| ((x >> 8) .& 0xff00) .| (x >> 24).
Definition lj_bswap64 (x : Z) : Z :=
  lj_bswap (u32 (x >> 32)) .| (lj_bswap (u32 x) << 32).

(** ** Loads *)

(** Byte [i] of a block; reading outside the block is not modelled (0). *)
Definition byte_at (s : list Z) (i : Z) : Z := default 0 (s !! Z.to_nat i).

Definition lj_getu16 (s : list Z) (i : Z) : Z :=
  byte_at s i .| (byte_at s (i + 1) << 8).
Definition lj_getu32 (s : list Z) (i : Z) : Z :=
  byte_at s i .| (byte_at s (i + 1) << 8) .| (byte_at s (i + 2) << 16)
  .| (byte_at s (i + 3) << 24).

(** ** Laws *)

Lemma land_ones_mod x w : 0 <= w -> x .& (2 ^ w - 1) = x mod 2 ^ w.
Proof. intros Hw. rewrite <- Z.land_ones by done. by rewrite Z.ones_equiv, Z.sub_1_r. Qed.

(** The shift count of the right half of a rotation. *)
Lemma rot_count w k n :
  0 <= k -> w = 2 ^ k -> 0 <= n < w -> - n .& (w - 1) = if n =? 0 then 0 else w - n.
Proof.
  intros Hk -> Hn. rewrite land_ones_mod by done.
  destruct (Z.eqb_spec n 0) as [->|Hne].
  - by rewrite Z.mod_0_l by lia.
  - rewrite Z.mod_opp_l_nz; rewrite ?Z.mod_small; lia.
Qed.

Lemma shiftr_range x w n : 0 <= x < 2 ^ w -> 0 <= n -> 0 <= x >> n < 2 ^ w.
Proof.
  intros Hx Hn. rewrite Z.shiftr_div_pow2 by done.
  assert (0 < 2 ^ n) by lia. split; [apply Z.div_pos; lia|].
  apply Z.le_lt_trans with x; [|lia]. apply Z.div_le_upper_bound; nia.
Qed.

Lemma lor_range a b w : 0 <= w -> 0 <= a < 2 ^ w -> 0 <= b < 2 ^ w -> 0 <= a .| b < 2 ^ w.
Proof.
  intros Hw Ha Hb.
  assert (E : a .| b = (a .| b) mod 2 ^ w).
  { apply Z.bits_inj'. intros n Hn. rewrite mod_pow2_testbit by lia.
    destruct (Z.ltb_spec n w); simpl; [done|].
    by rewrite Z.lor_spec, !(testbit_high _ w) by lia. }
  rewrite E. apply Z.mod_pos_bound. lia.
Qed.

(** Bit [i] of a rotation is bit [i - n] (modulo the width) of the operand. *)
Section Rotation.
Variables (w k : Z).
Hypothesis (Hk : 0 <= k) (Hw : w = 2 ^ k).

Lemma rol_testbit x n i :
  0 <= x < 2 ^ w -> 0 <= n < w -> 0 <= i < w ->
  Z.testbit (lj_rol w x n) i = Z.testbit x ((i - n) mod w).
Proof using Hk Hw.
  intros Hx Hn Hi. unfold lj_rol.
  rewrite Z.lor_spec, Z.mod_pow2_bits_low by lia.
  rewrite (rot_count w k) by done.
  rewrite Z.shiftl_spec, Z.shiftr_spec by lia.
  destruct (Z.ltb_spec i n) as [Hlt|Hge].
  - rewrite (Z.testbit_neg_r x (i - n)) by lia.
    replace (n =? 0) with false by (symmetry; apply Z.eqb_neq; lia).
    simpl. f_equal. apply Z.mod_unique with (-1); lia.
  - rewrite (Z.mod_small (i - n)) by lia.
    destruct (Z.eqb_spec n 0) as [->|Hn0].
    + rewrite Z.sub_0_r, Z.add_0_r. apply orb_diag.
    + rewrite (testbit_high x w (i + (w - n))) by lia. apply orb_false_r.
Qed.

Lemma ror_testbit x n i :
  0 <= x < 2 ^ w -> 0 <= n < w -> 0 <= i < w ->
  Z.testbit (lj_ror w x n) i = Z.testbit x ((i + n) mod w).
Proof using Hk Hw.
  intros Hx Hn Hi. unfold lj_ror.
  rewrite Z.lor_spec, Z.mod_pow2_bits_low by lia.
  rewrite (rot_count w k) by done.
  rewrite Z.shiftl_spec, Z.shiftr_spec by lia.
  destruct (Z.eqb_spec n 0) as [->|Hn0].
  - rewrite Z.sub_0_r, Z.add_0_r, Z.mod_small by lia. apply orb_diag.
  - destruct (Z.ltb_spec (i + n) w).
    + rewrite (Z.testbit_neg_r x (i - _)), Z.mod_small by lia. done.
    + rewrite (testbit_high x w (i + n)), orb_false_r by lia.
      f_equal. apply Z.mod_unique with 1; lia.
Qed.

Lemma rol_range x n : 0 <= x < 2 ^ w -> 0 <= n < w -> 0 <= lj_rol w x n < 2 ^ w.
Proof using Hk Hw.
  intros Hx Hn. unfold lj_rol. rewrite (rot_count w k) by done.
  apply lor_range; [lia| |].
  - apply Z.mod_pos_bound. lia.
  - apply shiftr_range; [done|case_match; lia].
Qed.

Lemma ror_range x n : 0 <= x < 2 ^ w -> 0 <= n < w -> 0 <= lj_ror w x n < 2 ^ w.
Proof using Hk Hw.
  intros Hx Hn. unfold lj_ror. rewrite (rot_count w k) by done.
  apply lor_range; [lia| |].
  - apply Z.mod_pos_bound. lia.
  - apply shiftr_range; lia.
Qed.

(** Equality of [w]-bit values, bit by bit. *)
Lemma bits_eq_w x y :
  0 <= x < 2 ^ w -> 0 <= y < 2 ^ w ->
  (forall i, 0 <= i < w -> Z.testbit x i = Z.testbit y i) -> x = y.
Proof using Hk Hw.
  intros Hx Hy H. rewrite <- (Z.mod_small x (2 ^ w)), <- (Z.mod_small y (2 ^ w)) by lia.
  apply mod_pow2_eq; [lia|done].
Qed.

(** Rotating left and back right gives the operand. *)
Lemma ror_rol x n :
  0 <= x < 2 ^ w -> 0 <= n < w -> lj_ror w (lj_rol w x n) n = x.
Proof using Hk Hw.
  intros Hx Hn. apply bits_eq_w; [by apply ror_range, Hn; apply rol_range|done|].
  intros i Hi. rewrite ror_testbit, rol_testbit; try done.
  - rewrite Zminus_mod_idemp_l. f_equal.
    replace (i + n - n) with i by lia. by apply Z.mod_small.
  - apply Z.mod_pos_bound. lia.
  - by apply rol_range.
Qed.

(** A right rotation is the complementary left rotation. *)
Lemma ror_as_rol x n :
  0 <= x < 2 ^ w -> 0 <= n < w -> lj_ror w x n = lj_rol w x (- n .& (w - 1)).
Proof using Hk Hw.
  intros Hx Hn. rewrite (rot_count w k) by done.
  assert (Hc : 0 <= (if n =? 0 then 0 else w - n) < w) by (case_match; lia).
  apply bits_eq_w; [by apply ror_range|by apply rol_range|].
  intros i Hi. rewrite ror_testbit, rol_testbit by done. f_equal.
  destruct (Z.eqb_spec n 0) as [->|]; [f_equal; lia|].
  replace (i - (w - n)) with (i + n + (-1) * w) by lia. by rewrite Z_mod_plus_full.
Qed.

(** Two left rotations add up. *)
Lemma rol_rol x m n :
  0 <= x < 2 ^ w -> 0 <= m < w -> 0 <= n < w ->
  lj_rol w (lj_rol w x m) n = lj_rol w x ((m + n) mod w).
Proof using Hk Hw.
  intros Hx Hm Hn. assert (0 <= (m + n) mod w < w) by (apply Z.mod_pos_bound; lia).
  apply bits_eq_w; [by apply rol_range, Hn; apply rol_range|by apply rol_range|].
  intros i Hi. rewrite !rol_testbit; try done.
  - f_equal. rewrite Zminus_mod_idemp_l, Zminus_mod_idemp_r. f_equal. lia.
  - apply Z.mod_pos_bound. lia.
  - by apply rol_range.
Qed.

(** Rotating right and back left gives the operand. *)
Lemma rol_ror x n :
  0 <= x < 2 ^ w -> 0 <= n < w -> lj_rol w (lj_ror w x n) n = x.
Proof using Hk Hw.
  intros Hx Hn. apply bits_eq_w; [by apply rol_range, Hn; apply ror_range|done|].
  intros i Hi. rewrite rol_testbit, ror_testbit; try done.
  - rewrite Zplus_mod_idemp_l. f_equal.
    replace (i - n + n) with i by lia. by apply Z.mod_small.
  - apply Z.mod_pos_bound. lia.
  - by apply ror_range.
Qed.
End Rotation.


(** *** Bytes of a word *)

Lemma lor_shiftl_add a b n : 0 <= a < 2 ^ n -> 0 <= n -> a .| (b << n) = a + b * 2 ^ n.
Proof.
  intros Ha Hn. rewrite <- Z.shiftl_mul_pow2 by done.
  assert (H0 : a .& (b << n) = 0).
  { apply Z.bits_inj'. intros i Hi. tbits.
    destruct (Z.ltb_spec i n).
    - by rewrite (Z.testbit_neg_r b), andb_false_r by lia.
    - by rewrite (testbit_high a n) by lia. }
  by rewrite Z.add_nocarry_lxor, Z.lxor_lor.
Qed.

(** The 32-bit word with bytes [b0] (lowest) to [b3]. *)
Definition word4 (b0 b1 b2 b3 : Z) : Z := b0 + b1 * 2 ^ 8 + b2 * 2 ^ 16 + b3 * 2 ^ 24.

Lemma word4_lor b0 b1 b2 b3 :
  is_u8 b0 -> is_u8 b1 -> is_u8 b2 -> is_u8 b3 ->
  b0 .| (b1 << 8) .| (b2 << 16) .| (b3 << 24) = word4 b0 b1 b2 b3.
Proof.
  intros. unfold word4. widths.
  rewrite (lor_shiftl_add b0 b1), (lor_shiftl_add _ b2), (lor_shiftl_add _ b3); lia.
Qed.

Lemma word4_range b0 b1 b2 b3 :
  is_u8 b0 -> is_u8 b1 -> is_u8 b2 -> is_u8 b3 -> is_u32 (word4 b0 b1 b2 b3).
Proof. unfold word4. widths. lia. Qed.

Lemma word4_inj a0 a1 a2 a3 b0 b1 b2 b3 :
  is_u8 a0 -> is_u8 a1 -> is_u8 a2 -> is_u8 a3 ->
  is_u8 b0 -> is_u8 b1 -> is_u8 b2 -> is_u8 b3 ->
  word4 a0 a1 a2 a3 = word4 b0 b1 b2 b3 -> a0 = b0 /\ a1 = b1 /\ a2 = b2 /\ a3 = b3.
Proof. unfold word4. widths. lia. Qed.

Lemma word4_split x :
  is_u32 x -> exists b0 b1 b2 b3,
    is_u8 b0 /\ is_u8 b1 /\ is_u8 b2 /\ is_u8 b3 /\ x = word4 b0 b1 b2 b3.
Proof.
  intros Hx. exists (x mod 2 ^ 8), (x / 2 ^ 8 mod 2 ^ 8), (x / 2 ^ 16 mod 2 ^ 8), (x / 2 ^ 24).
  unfold word4. wsolve.
Qed.

Lemma land_byte_mask x : x .& 0xff00 = (x / 2 ^ 8 mod 2 ^ 8) * 2 ^ 8.
Proof.
  rewrite <- Z.shiftl_mul_pow2 by done. apply Z.bits_inj'. intros i Hi.
  change 0xff00 with (Z.ones 8 << 8). rewrite <- Z.shiftr_div_pow2, Z.land_spec by lia.
  rewrite !Z.shiftl_spec by done.
  destruct (Z.ltb_spec i 8); [by rewrite !(Z.testbit_neg_r _ (i - 8)), andb_false_r by lia|].
  rewrite mod_pow2_testbit, Z.shiftr_spec by lia. replace (i - 8 + 8) with i by lia.
  rewrite andb_comm. f_equal.
  destruct (Z.ltb_spec (i - 8) 8); [by apply Z.ones_spec_low; lia|by apply Z.ones_spec_high; lia].
Qed.

(** Swapping reverses the bytes. *)
Lemma lj_bswap_word4 b0 b1 b2 b3 :
  is_u8 b0 -> is_u8 b1 -> is_u8 b2 -> is_u8 b3 ->
  lj_bswap (word4 b0 b1 b2 b3) = word4 b3 b2 b1 b0.
Proof.
  intros H0 H1 H2 H3. unfold lj_bswap. rewrite !land_byte_mask.
  rewrite !Z.shiftr_div_pow2, !Z.shiftl_mul_pow2 by done.
  rewrite <- (word4_lor b3 b2 b1 b0), !Z.shiftl_mul_pow2 by done.
  replace (u32 (word4 b0 b1 b2 b3 * 2 ^ 24)) with (b0 * 2 ^ 24)
    by (unfold word4; wsolve).
  replace (word4 b0 b1 b2 b3 / 2 ^ 8 mod 2 ^ 8 * 2 ^ 8 * 2 ^ 8) with (b1 * 2 ^ 16)
    by (unfold word4; wsolve).
  replace (word4 b0 b1 b2 b3 / 2 ^ 8 / 2 ^ 8 mod 2 ^ 8 * 2 ^ 8) with (b2 * 2 ^ 8)
    by (unfold word4; wsolve).
  replace (word4 b0 b1 b2 b3 / 2 ^ 24) with b3 by (unfold word4; wsolve).
  rewrite (Z.lor_comm (b0 * 2 ^ 24 .| b1 * 2 ^ 16 .| b2 * 2 ^ 8) b3), <- !Z.lor_assoc.
  f_equal. rewrite (Z.lor_comm (b1 * 2 ^ 16)), !Z.lor_assoc, (Z.lor_comm (b0 * 2 ^ 24)).
  rewrite <- !Z.lor_assoc. f_equal. apply Z.lor_comm.
Qed.

Lemma lj_bswap_range x : is_u32 x -> is_u32 (lj_bswap x).
Proof.
  intros (b0 & b1 & b2 & b3 & H0 & H1 & H2 & H3 & ->)%word4_split.
  rewrite lj_bswap_word4 by done. by apply word4_range.
Qed.

Lemma lj_bswap_invol x : is_u32 x -> lj_bswap (lj_bswap x) = x.
Proof.
  intros (b0 & b1 & b2 & b3 & H0 & H1 & H2 & H3 & ->)%word4_split.
  by rewrite !lj_bswap_word4.
Qed.

Lemma word_halves lo hi :
  is_u32 lo -> is_u32 hi -> u32 (lo + hi * 2 ^ 32) = lo /\ u32 ((lo + hi * 2 ^ 32) >> 32) = hi.
Proof. rewrite Z.shiftr_div_pow2 by done. intros. split; wsolve. Qed.

Lemma lj_bswap64_halves lo hi :
  is_u32 lo -> is_u32 hi ->
  lj_bswap64 (lo + hi * 2 ^ 32) = lj_bswap hi + lj_bswap lo * 2 ^ 32.
Proof.
  intros Hl Hh. unfold lj_bswap64. destruct (word_halves lo hi) as [-> ->]; [done..|].
  apply lor_shiftl_add; [|done]. by apply lj_bswap_range.
Qed.

Lemma lj_bswap64_invol x : is_u64 x -> lj_bswap64 (lj_bswap64 x) = x.
Proof.
  intros Hx. assert (Hl : is_u32 (u32 x)) by apply u32_range.
  assert (Hh : is_u32 (x / 2 ^ 32)) by wsolve.
  assert (E : x = u32 x + x / 2 ^ 32 * 2 ^ 32) by wsolve.
  rewrite E, !lj_bswap64_halves, !lj_bswap_invol; auto using lj_bswap_range.
Qed.

Lemma lj_bswap64_range x : is_u64 x -> is_u64 (lj_bswap64 x).
Proof.
  intros Hx. assert (Hl : is_u32 (u32 x)) by apply u32_range.
  assert (Hh : is_u32 (x / 2 ^ 32)) by wsolve.
  assert (E : x = u32 x + x / 2 ^ 32 * 2 ^ 32) by wsolve.
  rewrite E, lj_bswap64_halves by done.
  pose proof (lj_bswap_range _ Hl). pose proof (lj_bswap_range _ Hh). widths. lia.
Qed.

(** *** Bit scans *)

Lemma lj_fls_spec x : 0 < x -> 2 ^ lj_fls x <= x < 2 ^ (lj_fls x + 1).
Proof. intros. unfold lj_fls. rewrite Z.add_1_r. by apply Z.log2_spec. Qed.

Lemma lj_ffs_spec x :
  0 < x -> 0 <= lj_ffs x /\ Z.testbit x (lj_ffs x) = true /\ x mod 2 ^ lj_ffs x = 0.
Proof.
  destruct x as [|p|p]; try lia. intros _. simpl.
  induction p as [p IH|p IH|]; simpl ctz_pos; rewrite ?Z.mod_1_r; try done.
  destruct IH as (H1 & H2 & H3). split; [lia|].
  change (Z.pos p~0) with (2 * Z.pos p). rewrite Z.add_comm, Z.add_1_r, Z.double_bits_succ.
  split; [done|]. rewrite Z.pow_succ_r by done.
  rewrite Z.mul_mod_distr_l by lia. lia.
Qed.

(** *** Loads from a block of bytes *)

Definition bytes (s : list Z) : Prop := Forall is_u8 s.

Lemma byte_at_u8 s i : bytes s -> is_u8 (byte_at s i).
Proof.
  intros Hs. unfold byte_at. destruct (s !! Z.to_nat i) as [b|] eqn:E; simpl; [|done].
  by eapply Forall_lookup_1 in E.
Qed.
#[export] Hint Resolve byte_at_u8 : width.

Lemma byte_at_lookup s i :
  0 <= i < Z.of_nat (length s) -> s !! Z.to_nat i = Some (byte_at s i).
Proof.
  intros Hi. unfold byte_at.
  destruct (lookup_lt_is_Some_2 s (Z.to_nat i)) as [b Hb]; [lia|]. by rewrite Hb.
Qed.

Lemma lj_getu32_word4 s i :
  bytes s ->
  lj_getu32 s i = word4 (byte_at s i) (byte_at s (i + 1)) (byte_at s (i + 2)) (byte_at s (i + 3)).
Proof. intros. apply word4_lor; auto with width. Qed.

Lemma bytes_take n s : bytes s -> bytes (take n s).
Proof. apply Forall_take. Qed.
Lemma bytes_drop n s : bytes s -> bytes (drop n s).
Proof. apply Forall_drop. Qed.
#[export] Hint Resolve bytes_take bytes_drop : width.

Lemma byte_at_app_l s t i :
  0 <= i < Z.of_nat (length s) -> byte_at (s ++ t) i = byte_at s i.
Proof. intros. unfold byte_at. by rewrite lookup_app_l by lia. Qed.

(** The first [n] bytes of a block determine the loads inside them. *)
Lemma byte_at_take s n i :
  0 <= i < n -> byte_at (take (Z.to_nat n) s) i = byte_at s i.
Proof. intros. unfold byte_at. by rewrite lookup_take_lt by lia. Qed.

Lemma take_S_byte_at s i :
  0 <= i < Z.of_nat (length s) ->
  take (Z.to_nat (i + 1)) s = take (Z.to_nat i) s ++ [byte_at s i].
Proof.
  intros. replace (Z.to_nat (i + 1)) with (S (Z.to_nat i)) by lia.
  apply take_S_r, byte_at_lookup. lia.
Qed.

Lemma drop_byte_at s i :
  0 <= i < Z.of_nat (length s) ->
  drop (Z.to_nat i) s = byte_at s i :: drop (Z.to_nat (i + 1)) s.
Proof.
  intros. replace (Z.to_nat (i + 1)) with (S (Z.to_nat i)) by lia.
  apply drop_S, byte_at_lookup. lia.
Qed.
