(* ===== verification/Carith.v ===== *)
(** * Integer arithmetic helpers

    The 64-bit helpers of [lj_carith.c] (division, modulo, power, shifts) and
    the 32-bit modulo [lj_vm_modi] of [lj_vmmath.c].  A [uint64_t] is a [Z] in
    [0, 2^64), an [int64_t] or [int32_t] a [Z] in the signed range. *)

From S2P Require Import Prelude Machine.

Definition U64x (hi lo : Z) : Z := (hi << 32) + lo.

(** ** Division and modulo *)

Definition lj_carith_divu64 (a b : Z) : Z :=
  if b =? 0 then U64x 0x80000000 0 else a / b.

Definition lj_carith_divi64 (a b : Z) : Z :=
  if (b =? 0) || ((a =? i64 (U64x 0x80000000 0)) && (b =? -1))
  then i64 (U64x 0x80000000 0) else Z.quot a b.

Definition lj_carith_modu64 (a b : Z) : Z :=
  if b =? 0 then U64x 0x80000000 0 else a mod b.

Definition lj_carith_modi64 (a b : Z) : Z :=
  if b =? 0 then i64 (U64x 0x80000000 0)
  else if (a =? i64 (U64x 0x80000000 0)) && (b =? -1) then 0
  else Z.rem a b.

(** [lj_vm_modi]: Lua's floored modulo on [int32_t]. *)
Definition lj_vm_modi (a b : Z) : Z :=
  let ua := if a <? 0 then u32 (- a) else a in
  let ub := if b <? 0 then u32 (- b) else b in
  let y := ua mod ub in
  let y := if negb (y =? 0) && (i32 (a .^ b) <? 0) then u32 (y - ub) else y in
  let y := if i32 (i32 y .^ b) <? 0 then u32 (- i32 y) else y in
  i32 y.

(** ** Power *)

(** [for (; (k & 1) == 0; k >>= 1) x *= x;] *)
Fixpoint powu64_strip (fuel : nat) (x k : Z) : option (Z * Z) :=
  match fuel with
  | O => None
  | S fuel => if k .& 1 =? 0 then powu64_strip fuel (u64 (x * x)) (k >> 1) else Some (x, k)
  end.

(** [for (;;) { x *= x; if (k == 1) break; if (k & 1) y *= x; k >>= 1; }
    y *= x;] *)
Fixpoint powu64_loop (fuel : nat) (x y k : Z) : option Z :=
  match fuel with
  | O => None
  | S fuel =>
      let x := u64 (x * x) in
      if k =? 1 then Some (u64 (y * x))
      else powu64_loop fuel x (if k .& 1 =? 0 then y else u64 (y * x)) (k >> 1)
  end.

(** A 64-bit exponent is consumed in at most 64 rounds. *)
Definition powu64_fuel : nat := 65.

Definition lj_carith_powu64_opt (x k : Z) : option Z :=
  if k =? 0 then Some 1
  else
    '(x, k) ← powu64_strip powu64_fuel x k;
    let y := x in
    let k := k >> 1 in
    if k =? 0 then Some y else powu64_loop powu64_fuel x y k.

Definition lj_carith_powu64 (x k : Z) : Z := default 0 (lj_carith_powu64_opt x k).

Definition lj_carith_powi64 (x k : Z) : Z :=
  if k =? 0 then 1
  else if k <? 0 then
    if x =? 0 then U64x 0x7fffffff 0xffffffff
    else if x =? 1 then 1
    else if x =? -1 then (if k .& 1 =? 0 then 1 else -1)
    else 0
  else i64 (lj_carith_powu64 (u64 x) (u64 k)).

(** ** Shifts *)

Definition lj_carith_shl64 (x sh : Z) : Z := u64 (x << (sh .& 63)).
Definition lj_carith_shr64 (x sh : Z) : Z := x >> (sh .& 63).
Definition lj_carith_sar64 (x sh : Z) : Z := u64 (i64 x >> (sh .& 63)).
Definition lj_carith_rol64 (x sh : Z) : Z := lj_rol 64 x (sh .& 63).
Definition lj_carith_ror64 (x sh : Z) : Z := lj_ror 64 x (sh .& 63).

(** The operation is given by its distance from [IR_BSHL]. *)
Definition lj_carith_shift64 (x sh op : Z) : Z :=
  match op with
  | 0 => lj_carith_shl64 x sh
  | 1 => lj_carith_shr64 x sh
  | 2 => lj_carith_sar64 x sh
  | 3 => lj_carith_rol64 x sh
  | 4 => lj_carith_ror64 x sh
  | _ => x
  end.

(** ** Correctness of the power loops *)

Lemma land_1 k : k .& 1 = k mod 2.
Proof. exact (land_ones_mod k 1 Z.le_0_1). Qed.

Lemma shiftr_1 k : k >> 1 = k / 2.
Proof. by rewrite Z.shiftr_div_pow2. Qed.

Lemma even_split k : k mod 2 = 0 -> k = 2 * (k / 2).
Proof. intros. wsolve. Qed.

Lemma odd_split k : k mod 2 <> 0 -> k = 1 + 2 * (k / 2).
Proof. intros. wsolve. Qed.

(** Exponentiation only depends on the base modulo [2^64]. *)
Lemma u64_pow_u64 x k : 0 <= k -> u64 (u64 x ^ k) = u64 (x ^ k).
Proof.
  revert k. apply natlike_ind; [done|]. intros k Hk IH.
  rewrite !Z.pow_succ_r, <- u64_mul, IH by done.
  rewrite <- (u64_mul x (x ^ k)). by rewrite (u64_id (u64 x)) by apply u64_range.
Qed.

Lemma u64_mul_pow y x k : 0 <= k -> u64 (y * u64 x ^ k) = u64 (y * x ^ k).
Proof. intros. by rewrite <- u64_mul, u64_pow_u64, u64_mul. Qed.

Lemma u64_mul_l y x : u64 (u64 y * x) = u64 (y * x).
Proof. by rewrite <- u64_mul, (u64_id (u64 y)), u64_mul by apply u64_range. Qed.

Lemma pow_square x k : 0 <= k -> (x * x) ^ k = x ^ (2 * k).
Proof. intros. by rewrite Z.pow_mul_r, Z.pow_2_r by lia. Qed.

Lemma powu64_strip_spec fuel : forall x k,
  is_u64 x -> 0 < k < 2 ^ (Z.of_nat fuel - 1) ->
  exists x' k', powu64_strip fuel x k = Some (x', k') /\ is_u64 x' /\
    0 < k' <= k /\ k' mod 2 <> 0 /\ u64 (x' ^ k') = u64 (x ^ k).
Proof.
  induction fuel as [|fuel IH]; intros x k Hx Hk; [lia|].
  cbn [powu64_strip]. rewrite land_1, shiftr_1. destruct (Z.eqb_spec (k mod 2) 0) as [E|E].
  - pose proof (even_split k E) as Ek.
    replace (Z.of_nat (S fuel) - 1) with (Z.succ (Z.of_nat fuel - 1)) in Hk by lia.
    assert (0 <= Z.of_nat fuel - 1) by (destruct fuel; [simpl in Hk|]; lia).
    rewrite Z.pow_succ_r in Hk by done.
    destruct (IH (u64 (x * x)) (k / 2)) as (x' & k' & H1 & H2 & H3 & H4 & H5);
      [apply u64_range|lia|].
    exists x', k'. split_and!; try done; try lia.
    rewrite H5, u64_pow_u64, pow_square, <- Ek by lia. done.
  - exists x, k. split_and!; done || lia.
Qed.

Lemma powu64_loop_spec fuel : forall x y k,
  is_u64 x -> 0 < k < 2 ^ Z.of_nat fuel ->
  powu64_loop fuel x y k = Some (u64 (y * x ^ (2 * k))).
Proof.
  induction fuel as [|fuel IH]; intros x y k Hx Hk; [simpl in Hk; lia|].
  cbn [powu64_loop]. rewrite land_1, shiftr_1. destruct (Z.eqb_spec k 1) as [->|Hk1].
  - f_equal. rewrite <- (Z.pow_1_r (u64 (x * x))), u64_mul_pow, pow_square by lia. done.
  - rewrite Nat2Z.inj_succ, Z.pow_succ_r in Hk by lia.
    rewrite IH; [|apply u64_range|wsolve]. f_equal.
    destruct (Z.eqb_spec (k mod 2) 0) as [E|E].
    + rewrite u64_mul_pow, pow_square, <- even_split by wsolve. done.
    + rewrite u64_mul_l, <- Z.mul_assoc, <- Z.pow_succ_r by wsolve.
      rewrite u64_mul_pow, pow_square by wsolve. do 3 f_equal.
      pose proof (odd_split k E). lia.
Qed.

Lemma powu64_opt_spec x k :
  is_u64 x -> is_u64 k -> lj_carith_powu64_opt x k = Some (u64 (x ^ k)).
Proof.
  intros Hx Hk. unfold lj_carith_powu64_opt.
  destruct (Z.eqb_spec k 0) as [->|Hk0]; [done|].
  destruct (powu64_strip_spec powu64_fuel x k) as (x' & k' & -> & Hx' & Hk' & Hodd & E);
    [done|change (Z.of_nat powu64_fuel) with 65; widths; lia|]. cbn [mbind option_bind].
  rewrite shiftr_1. rewrite <- E. destruct (Z.eqb_spec (k' / 2) 0) as [E0|E0].
  - rewrite (odd_split k'), E0 by done. by rewrite Z.pow_1_r, u64_id.
  - rewrite powu64_loop_spec; [|done|change (Z.of_nat powu64_fuel) with 65; wsolve].
    do 2 f_equal.
    rewrite <- Z.pow_succ_r by wsolve. f_equal. pose proof (odd_split k' Hodd). lia.
Qed.

(** ** Theorems *)

(** The square-and-multiply loops of [lj_carith_powu64] terminate within
    their bound and compute [x^k] modulo [2^64]. *)
Theorem powu64_exact x k :
  is_u64 x -> is_u64 k -> lj_carith_powu64_opt x k = Some (u64 (x ^ k)).
Proof. apply powu64_opt_spec. Qed.

Lemma powu64_exact_witness : lj_carith_powu64_opt 3 41 = Some (u64 (3 ^ 41)).
Proof. apply (powu64_exact 3 41); widths; lia. Defined.

(** [lj_carith_powi64] is the power truncated to 64 bits; a negative
    exponent gives the quotient [1 / x^-k] rounded towards zero, and
    [INT64_MAX] for a zero base. *)
Theorem powi64_exact x k :
  is_i64 x -> is_i64 k ->
  lj_carith_powi64 x k =
    if 0 <=? k then i64 (x ^ k)
    else if x =? 0 then 2 ^ 63 - 1 else Z.quot 1 (x ^ (- k)).
Proof.
  intros Hx Hk. unfold lj_carith_powi64.
  destruct (Z.eqb_spec k 0) as [->|Hk0]; [done|].
  destruct (Z.ltb_spec k 0) as [Hneg|Hpos].
  - rewrite (proj2 (Z.leb_gt 0 k)) by done.
    destruct (Z.eqb_spec x 0) as [->|Hx0]; [done|].
    destruct (Z.eqb_spec x 1) as [->|Hx1]; [by rewrite Z.pow_1_l by lia|].
    destruct (Z.eqb_spec x (-1)) as [->|Hxm].
    + rewrite land_1. destruct (Z.eqb_spec (k mod 2) 0) as [E|E].
      * replace (- k) with (2 * (- (k / 2))) by wsolve.
        by rewrite <- pow_square, Z.pow_1_l by wsolve.
      * replace (- k) with (Z.succ (2 * (- (k / 2) - 1))) by wsolve.
        by rewrite Z.pow_succ_r, <- pow_square, Z.pow_1_l by wsolve.
    + symmetry. apply Z.quot_small_iff; [apply Z.pow_nonzero; lia|].
      rewrite Z.abs_pow. change (Z.abs 1) with 1.
      apply Z.pow_gt_1; lia.
  - rewrite (proj2 (Z.leb_le 0 k)) by done.
    unfold lj_carith_powu64. rewrite powu64_opt_spec; auto with width. cbn [from_option id].
    rewrite (u64_id k) by wsolve. by rewrite u64_pow_u64, i64_u64 by done.
Qed.

Lemma powi64_exact_witness : lj_carith_powi64 (-3) 5 = -243 /\ lj_carith_powi64 (-1) (-7) = -1.
Proof.
  split.
  - rewrite (powi64_exact (-3) 5); [reflexivity|widths; lia|widths; lia].
  - rewrite (powi64_exact (-1) (-7)); [reflexivity|widths; lia|widths; lia].
Defined.

Lemma quot_i64 a b :
  is_i64 a -> b <> 0 -> ~ (a = - 2 ^ 63 /\ b = -1) -> is_i64 (Z.quot a b).
Proof.
  intros Ha Hb Hov. pose proof (Z.quot_rem a b Hb) as E.
  assert (Hq : Z.abs (Z.quot a b) <= Z.abs a).
  { rewrite <- Z.quot_abs by done. apply Z.quot_le_upper_bound; nia. }
  destruct (Z.eq_dec b (-1)) as [->|]; [change (-1) with (- (1)) in *; rewrite Z.quot_opp_r, Z.quot_1_r by lia; widths; lia|].
  destruct (Z.eq_dec b 1) as [->|]; [by rewrite Z.quot_1_r|].
  pose proof (Z.rem_bound_abs a b Hb). widths. nia.
Qed.

(** Signed 64-bit division and modulo are the C quotient and remainder for
    every non-zero divisor; the one overflowing quotient, [INT64_MIN / -1],
    wraps, with remainder 0. *)
Theorem divmodi64_correct a b :
  is_i64 a -> is_i64 b -> b <> 0 ->
  lj_carith_divi64 a b = i64 (Z.quot a b) /\
  lj_carith_modi64 a b = Z.rem a b /\
  is_i64 (lj_carith_divi64 a b) /\ is_i64 (lj_carith_modi64 a b).
Proof.
  intros Ha Hb Hb0. unfold lj_carith_divi64, lj_carith_modi64.
  change (i64 (U64x 0x80000000 0)) with (- 2 ^ 63).
  rewrite (proj2 (Z.eqb_neq b 0)) by done. cbn [orb].
  destruct ((a =? - 2 ^ 63) && (b =? -1)) eqn:E.
  - apply andb_true_iff in E as [->%Z.eqb_eq ->%Z.eqb_eq]. done.
  - assert (Hq : is_i64 (Z.quot a b)).
    { apply quot_i64; [done..|]. intros [-> ->]. done. }
    rewrite i64_id by done. split_and!; [done..|].
    pose proof (Z.rem_bound_abs a b Hb0). widths. lia.
Qed.

Lemma divmodi64_correct_witness :
  lj_carith_divi64 (- 2 ^ 63) (-1) = - 2 ^ 63 /\ lj_carith_modi64 (-7) 3 = -1.
Proof.
  split.
  - destruct (divmodi64_correct (- 2 ^ 63) (-1)) as [-> _]; [widths; lia..|]. reflexivity.
  - destruct (divmodi64_correct (-7) 3) as (_ & -> & _); [widths; lia..|]. reflexivity.
Defined.

Lemma lj_vm_modi_mod a b :
  is_i32 a -> is_i32 b -> b <> 0 -> lj_vm_modi a b = a mod b.
Proof.
  intros Ha Hb Hb0. unfold lj_vm_modi. rewrite (i32_lxor_sign a b) by done.
  set (ua := if a <? 0 then u32 (- a) else a). set (ub := if b <? 0 then u32 (- b) else b).
  assert (Eua : ua = Z.abs a) by (unfold ua; destruct (Z.ltb_spec a 0); wsolve).
  assert (Eub : ub = Z.abs b) by (unfold ub; destruct (Z.ltb_spec b 0); wsolve).
  rewrite Eua, Eub. set (y := Z.abs a mod Z.abs b).
  assert (Hy : 0 <= y < Z.abs b) by (apply Z.mod_pos_bound; lia).
  pose proof (Z.div_mod (Z.abs a) (Z.abs b)) as E. fold y in E.
  set (q := Z.abs a / Z.abs b) in E. specialize (E ltac:(lia)). clearbody y q. clear ua ub Eua Eub.
  assert (Hyi : is_i32 y) by (widths; lia).
  destruct (Z.eqb_spec y 0) as [->|Hy0]; cbn [negb andb].
  - replace (a mod b) with 0; [by destruct (i32 _ <? 0)|].
    apply Z.mod_unique with (if Bool.eqb (a <? 0) (b <? 0) then q else - q); [lia|].
    destruct (Z.ltb_spec a 0), (Z.ltb_spec b 0); simpl; lia.
  - assert (Hyb : is_i32 (y - Z.abs b)) by (widths; lia).
    destruct (xorb (a <? 0) (b <? 0)) eqn:Es.
    + rewrite i32_lxor_sign, !i32_u32, (i32_id (y - _)) by auto with width.
      replace (y - Z.abs b <? 0) with true by (symmetry; apply Z.ltb_lt; lia).
      destruct (Z.ltb_spec b 0); cbn [xorb negb].
      * rewrite ?i32_u32, ?i32_id by done. apply Z.mod_unique with (- q - 1); [lia|].
        destruct (Z.ltb_spec a 0); [discriminate Es|]. lia.
      * rewrite i32_u32, i32_id by (widths; lia).
        apply Z.mod_unique with (- q - 1); [lia|].
        destruct (Z.ltb_spec a 0); [|discriminate Es]. lia.
    + rewrite i32_lxor_sign, (i32_id y) by auto with width.
      replace (y <? 0) with false by (symmetry; apply Z.ltb_ge; lia).
      destruct (Z.ltb_spec b 0); cbn [xorb negb].
      * rewrite i32_u32, i32_id by (widths; lia).
        apply Z.mod_unique with q; [lia|]. destruct (Z.ltb_spec a 0); [|discriminate Es]. lia.
      * rewrite ?i32_u32, ?i32_id by done. apply Z.mod_unique with q; [lia|]. destruct (Z.ltb_spec a 0); [discriminate Es|]. lia.
Qed.

(** [lj_vm_modi] is the floored modulo, for every pair of [int32_t]
    operands with a non-zero divisor: the remainder of the division that
    rounds down, with the sign of the divisor, again an [int32_t]. *)
Theorem modi_floored a b :
  is_i32 a -> is_i32 b -> b <> 0 ->
  lj_vm_modi a b = a mod b /\ a = b * (a / b) + lj_vm_modi a b /\
  (0 < b -> 0 <= lj_vm_modi a b < b) /\ (b < 0 -> b < lj_vm_modi a b <= 0).
Proof.
  intros Ha Hb Hb0. rewrite lj_vm_modi_mod by done.
  split_and!; [done|by apply Z.div_mod|apply Z.mod_pos_bound|apply Z.mod_neg_bound].
Qed.

Lemma modi_floored_witness : lj_vm_modi (- 2 ^ 31) (-1) = 0 /\ lj_vm_modi (-7) 3 = 2.
Proof.
  split.
  - destruct (modi_floored (- 2 ^ 31) (-1)) as (-> & _); [widths; lia..|lia|reflexivity].
  - destruct (modi_floored (-7) 3) as (-> & _); [widths; lia..|lia|reflexivity].
Defined.

(** The five 64-bit shifts and rotates: left and right shifts multiply and
    divide by [2^(sh mod 64)] (the arithmetic shift on the signed value), and
    the rotates are mutually inverse; every result fits 64 bits. *)
Theorem shift64_correct x sh :
  is_u64 x ->
  let n := sh mod 64 in
  lj_carith_shift64 x sh 0 = u64 (x * 2 ^ n) /\
  lj_carith_shift64 x sh 1 = x / 2 ^ n /\
  i64 (lj_carith_shift64 x sh 2) = i64 x / 2 ^ n /\
  lj_carith_shift64 (lj_carith_shift64 x sh 3) sh 4 = x /\
  lj_carith_shift64 (lj_carith_shift64 x sh 4) sh 3 = x /\
  (forall op, is_u64 (lj_carith_shift64 x sh op)).
Proof.
  intros Hx n. assert (En : sh .& 63 = n) by exact (land_ones_mod sh 6 ltac:(lia)).
  assert (Hn : 0 <= n < 64) by (apply Z.mod_pos_bound; lia).
  unfold lj_carith_shift64, lj_carith_shl64, lj_carith_shr64, lj_carith_sar64,
    lj_carith_rol64, lj_carith_ror64. rewrite En. clearbody n. clear En.
  assert (Hrol : forall y k, is_u64 y -> 0 <= k < 64 -> is_u64 (lj_rol 64 y k)).
  { intros. by apply (rol_range 64 6). }
  assert (Hror : forall y k, is_u64 y -> 0 <= k < 64 -> is_u64 (lj_ror 64 y k)).
  { intros. by apply (ror_range 64 6). }
  split_and!.
  - by rewrite Z.shiftl_mul_pow2 by lia.
  - by rewrite Z.shiftr_div_pow2 by lia.
  - rewrite i64_u64, Z.shiftr_div_pow2 by lia. apply i64_id.
    pose proof (i64_range x) as Hi. assert (1 <= 2 ^ n) by lia.
    widths. split; [apply Z.div_le_lower_bound|apply Z.div_lt_upper_bound]; nia.
  - by apply (ror_rol 64 6).
  - by apply (rol_ror 64 6).
  - intros op. assert (is_u64 (x >> n)) by (apply (shiftr_range x 64); [done|lia]).
    repeat case_match; auto with width.
Qed.

Lemma shift64_correct_witness :
  lj_carith_shift64 5 65 0 = 10 /\ lj_carith_shift64 (lj_carith_shift64 5 7 3) 7 4 = 5.
Proof.
  split.
  - destruct (shift64_correct 5 65) as (-> & _); [widths; lia|]. reflexivity.
  - destruct (shift64_correct 5 7) as (_ & _ & _ & -> & _); [widths; lia|]. reflexivity.
Defined.
