(* ===== verification/Chars.v ===== *)
(** * Character types

    The hard-coded ASCII classification of [lj_char.c] and [lj_char.h].  A
    character is -1 or a byte 0..255. *)

From S2P Require Import Prelude.

Definition LJ_CHAR_CNTRL : Z := 0x01.
Definition LJ_CHAR_SPACE : Z := 0x02.
Definition LJ_CHAR_PUNCT : Z := 0x04.
Definition LJ_CHAR_DIGIT : Z := 0x08.
Definition LJ_CHAR_XDIGIT : Z := 0x10.
Definition LJ_CHAR_UPPER : Z := 0x20.
Definition LJ_CHAR_LOWER : Z := 0x40.
Definition LJ_CHAR_IDENT : Z := 0x80.
Definition LJ_CHAR_ALPHA : Z := LJ_CHAR_LOWER .| LJ_CHAR_UPPER.
Definition LJ_CHAR_ALNUM : Z := LJ_CHAR_ALPHA .| LJ_CHAR_DIGIT.
Definition LJ_CHAR_GRAPH : Z := LJ_CHAR_ALNUM .| LJ_CHAR_PUNCT.

Definition lj_char_bits : list Z :=
  [
    0;
    1; 1; 1; 1; 1; 1; 1; 1; 1; 3; 3; 3; 3; 3; 1; 1;
    1; 1; 1; 1; 1; 1; 1; 1; 1; 1; 1; 1; 1; 1; 1; 1;
    2; 4; 4; 4; 4; 4; 4; 4; 4; 4; 4; 4; 4; 4; 4; 4;
    152; 152; 152; 152; 152; 152; 152; 152; 152; 152; 4; 4; 4; 4; 4; 4;
    4; 176; 176; 176; 176; 176; 176; 160; 160; 160; 160; 160; 160; 160; 160; 160;
    160; 160; 160; 160; 160; 160; 160; 160; 160; 160; 160; 4; 4; 4; 4; 132;
    4; 208; 208; 208; 208; 208; 208; 192; 192; 192; 192; 192; 192; 192; 192; 192;
    192; 192; 192; 192; 192; 192; 192; 192; 192; 192; 192; 4; 4; 4; 4; 1;
    128; 128; 128; 128; 128; 128; 128; 128; 128; 128; 128; 128; 128; 128; 128; 128;
    128; 128; 128; 128; 128; 128; 128; 128; 128; 128; 128; 128; 128; 128; 128; 128;
    128; 128; 128; 128; 128; 128; 128; 128; 128; 128; 128; 128; 128; 128; 128; 128;
    128; 128; 128; 128; 128; 128; 128; 128; 128; 128; 128; 128; 128; 128; 128; 128;
    128; 128; 128; 128; 128; 128; 128; 128; 128; 128; 128; 128; 128; 128; 128; 128;
    128; 128; 128; 128; 128; 128; 128; 128; 128; 128; 128; 128; 128; 128; 128; 128;
    128; 128; 128; 128; 128; 128; 128; 128; 128; 128; 128; 128; 128; 128; 128; 128;
    128; 128; 128; 128; 128; 128; 128; 128; 128; 128; 128; 128; 128; 128; 128; 128
  ].

(** [(lj_char_bits+1)[c] & t]: index -1 is the first entry of the table. *)
Definition lj_char_isa (c t : Z) : Z := default 0 (lj_char_bits !! Z.to_nat (c + 1)) .& t.

Definition lj_char_iscntrl (c : Z) : Z := lj_char_isa c LJ_CHAR_CNTRL.
Definition lj_char_isspace (c : Z) : Z := lj_char_isa c LJ_CHAR_SPACE.
Definition lj_char_ispunct (c : Z) : Z := lj_char_isa c LJ_CHAR_PUNCT.
Definition lj_char_isdigit (c : Z) : Z := lj_char_isa c LJ_CHAR_DIGIT.
Definition lj_char_isxdigit (c : Z) : Z := lj_char_isa c LJ_CHAR_XDIGIT.
Definition lj_char_isupper (c : Z) : Z := lj_char_isa c LJ_CHAR_UPPER.
Definition lj_char_islower (c : Z) : Z := lj_char_isa c LJ_CHAR_LOWER.
Definition lj_char_isident (c : Z) : Z := lj_char_isa c LJ_CHAR_IDENT.
Definition lj_char_isalpha (c : Z) : Z := lj_char_isa c LJ_CHAR_ALPHA.
Definition lj_char_isalnum (c : Z) : Z := lj_char_isa c LJ_CHAR_ALNUM.
Definition lj_char_isgraph (c : Z) : Z := lj_char_isa c LJ_CHAR_GRAPH.

Definition lj_char_toupper (c : Z) : Z := c - (lj_char_islower c >> 1).
Definition lj_char_tolower (c : Z) : Z := c + lj_char_isupper c.

(** ** The C locale *)

(** [nz x] is the truth value of a C integer. *)
Definition nz (x : Z) : bool := negb (x =? 0).

Definition between (lo c hi : Z) : bool := (lo <=? c) && (c <=? hi).

Definition c_isupper (c : Z) : bool := between 65 c 90.
Definition c_islower (c : Z) : bool := between 97 c 122.
Definition c_isdigit (c : Z) : bool := between 48 c 57.
Definition c_isalpha (c : Z) : bool := c_isupper c || c_islower c.
Definition c_isalnum (c : Z) : bool := c_isalpha c || c_isdigit c.
Definition c_isgraph (c : Z) : bool := between 33 c 126.
Definition c_ispunct (c : Z) : bool := c_isgraph c && negb (c_isalnum c).
Definition c_isspace (c : Z) : bool := between 9 c 13 || (c =? 32).
Definition c_iscntrl (c : Z) : bool := between 0 c 31 || (c =? 127).
Definition c_isxdigit (c : Z) : bool := c_isdigit c || between 65 c 70 || between 97 c 102.

(** The characters of a Lua identifier: alphanumerics, the underscore and
    every byte above ASCII. *)
Definition lua_isident (c : Z) : bool := c_isalnum c || (c =? 95) || (128 <=? c).

Definition char_spec (c : Z) : bool :=
  eqb (nz (lj_char_iscntrl c)) (c_iscntrl c) &&
  eqb (nz (lj_char_isspace c)) (c_isspace c) &&
  eqb (nz (lj_char_ispunct c)) (c_ispunct c) &&
  eqb (nz (lj_char_isdigit c)) (c_isdigit c) &&
  eqb (nz (lj_char_isxdigit c)) (c_isxdigit c) &&
  eqb (nz (lj_char_isupper c)) (c_isupper c) &&
  eqb (nz (lj_char_islower c)) (c_islower c) &&
  eqb (nz (lj_char_isident c)) (lua_isident c) &&
  eqb (nz (lj_char_isalpha c)) (c_isalpha c) &&
  eqb (nz (lj_char_isalnum c)) (c_isalnum c) &&
  eqb (nz (lj_char_isgraph c)) (c_isgraph c) &&
  (lj_char_toupper c =? (if c_islower c then c - 32 else c)) &&
  (lj_char_tolower c =? (if c_isupper c then c + 32 else c)).

Lemma char_spec_all : forallb (fun n => char_spec (Z.of_nat n - 1)) (seq 0 257) = true.
Proof. by vm_compute. Qed.

(** A boolean property of characters, checked on the whole table, holds of
    every character. *)
Lemma forall_chars (P : Z -> bool) c :
  forallb (fun n => P (Z.of_nat n - 1)) (seq 0 257) = true -> -1 <= c <= 255 -> P c = true.
Proof.
  intros H Hc. rewrite forallb_forall in H. specialize (H (Z.to_nat (c + 1))).
  rewrite Z2Nat.id in H by lia. replace (c + 1 - 1) with c in H by lia.
  apply H. apply in_seq. lia.
Qed.

(** The table agrees with the C locale on every byte and on -1 (end of
    input, which is in no class), identifiers being the alphanumerics, the
    underscore and the bytes above 127; the case conversions built on it move
    letters by 32 and leave everything else alone. *)
Theorem lj_char_correct c :
  -1 <= c <= 255 ->
  nz (lj_char_iscntrl c) = c_iscntrl c /\ nz (lj_char_isspace c) = c_isspace c /\
  nz (lj_char_ispunct c) = c_ispunct c /\ nz (lj_char_isdigit c) = c_isdigit c /\
  nz (lj_char_isxdigit c) = c_isxdigit c /\ nz (lj_char_isupper c) = c_isupper c /\
  nz (lj_char_islower c) = c_islower c /\ nz (lj_char_isident c) = lua_isident c /\
  nz (lj_char_isalpha c) = c_isalpha c /\ nz (lj_char_isalnum c) = c_isalnum c /\
  nz (lj_char_isgraph c) = c_isgraph c /\
  lj_char_toupper c = (if c_islower c then c - 32 else c) /\
  lj_char_tolower c = (if c_isupper c then c + 32 else c).
Proof.
  intros Hc. pose proof (forall_chars char_spec c char_spec_all Hc) as H.
  unfold char_spec in H. rewrite !andb_true_iff, !eqb_true_iff, !Z.eqb_eq in H. tauto.
Qed.

Lemma lj_char_correct_witness :
  nz (lj_char_isident 95) = true /\ lj_char_toupper 122 = 90 /\ nz (lj_char_isspace (-1)) = false.
Proof.
  split_and!.
  - destruct (lj_char_correct 95) as (_ & _ & _ & _ & _ & _ & _ & -> & _); [lia|]. reflexivity.
  - destruct (lj_char_correct 122) as (_ & _ & _ & _ & _ & _ & _ & _ & _ & _ & _ & -> & _); [lia|].
    reflexivity.
  - destruct (lj_char_correct (-1)) as (_ & -> & _); [lia|]. reflexivity.
Defined.
