(* ===== verification/Strs.v ===== *)
(** * Strings: comparison, search and interning

    [lj_str.c] and the sweep of the string table in [lj_gc.c].  A string
    object holds its payload as a block of bytes: the [str_len] bytes of the
    string, then the terminator and whatever memory follows, which the word
    loads of the comparison functions may touch.  References are object
    identifiers into the heap of the global state; a hash chain is the list of
    the objects linked by their [nextgc] field, anchor first. *)

From S2P Require Import Prelude Machine Chars.

Definition LJ_MAX_STR : Z := 0x7fffff00.
Definition LJ_MAX_STRTAB : Z := 1 << 26.
Definition LJ_MIN_STRTAB : Z := 256.
Definition LJ_PAGESIZE : Z := 4096.

(** ** Objects and the global state *)

Record GCstr := mkGCstr {
  str_marked : Z;
  str_reserved : Z;
  str_hash : Z;
  str_len : Z;
  str_data : list Z;
}.

(** The contents of a string, without terminator and padding. *)
Definition content (s : GCstr) : list Z := take (Z.to_nat (str_len s)) (str_data s).

Inductive gcstate := GCSpause | GCSpropagate | GCSatomic | GCSsweepstring | GCSsweep | GCSfinalize.
#[export] Instance gcstate_eq_dec : EqDecision gcstate.
Proof. solve_decision. Defined.

(** The part of [global_State] that the string table uses; [next_id] stands
    for the allocator, which hands out identifiers not in use. *)
Record global_State := mkG {
  strhash : list (list positive);
  strmask : Z;
  strnum : Z;
  gc_state : gcstate;
  gc_sweepstr : Z;
  currentwhite : Z;
  heap : gmap positive GCstr;
  next_id : positive;
}.

Definition set_strhash g h m := mkG h m (strnum g) (gc_state g) (gc_sweepstr g) (currentwhite g) (heap g) (next_id g).
Definition set_chain g i c := mkG (<[Z.to_nat i := c]> (strhash g)) (strmask g) (strnum g)
  (gc_state g) (gc_sweepstr g) (currentwhite g) (heap g) (next_id g).
Definition set_heap g h := mkG (strhash g) (strmask g) (strnum g) (gc_state g) (gc_sweepstr g) (currentwhite g) h (next_id g).
Definition set_strnum g n := mkG (strhash g) (strmask g) n (gc_state g) (gc_sweepstr g) (currentwhite g) (heap g) (next_id g).
Definition set_sweep g st n := mkG (strhash g) (strmask g) (strnum g) st n (currentwhite g) (heap g) (next_id g).

(** ** Comparison *)

(** The loop of [lj_str_cmp]; [Some None] when it ends without [return]. *)
Fixpoint str_cmp_loop (fuel : nat) (a b : list Z) (n i : Z) : option (option Z) :=
  match fuel with
  | O => None
  | S fuel =>
      if i <? n then
        let va := lj_getu32 a i in
        let vb := lj_getu32 b i in
        if negb (va =? vb) then
          let va := lj_bswap va in
          let vb := lj_bswap vb in
          let i := u32 (i - n) in
          if -3 <=? i32 i then
            let sh := u32 (32 + (i << 3)) in
            let va := va >> sh in
            let vb := vb >> sh in
            if va =? vb then Some None else Some (Some (if va <? vb then -1 else 1))
          else Some (Some (if va <? vb then -1 else 1))
        else str_cmp_loop fuel a b n (u32 (i + 4))
      else Some None
  end.

Definition lj_str_cmp (a b : GCstr) : option Z :=
  let n := if str_len b <? str_len a then str_len b else str_len a in
  r ← str_cmp_loop (S (Z.to_nat n)) (str_data a) (str_data b) n 0;
  match r with
  | Some v => Some v
  | None => Some (i32 (u32 (str_len a - str_len b)))
  end.

(** [do { ... } while (i < len)], for [len > 0]. *)
Fixpoint str_fastcmp_loop (fuel : nat) (a b : list Z) (len i : Z) : option Z :=
  match fuel with
  | O => None
  | S fuel =>
      let v := lj_getu32 a i .^ lj_getu32 b i in
      if negb (v =? 0) then
        let i := u32 (i - len) in
        Some (if -3 <=? i32 i then i32 (u32 (v << u32 (32 + (i << 3)))) else 1)
      else
        let i := u32 (i + 4) in
        if i <? len then str_fastcmp_loop fuel a b len i else Some 0
  end.

Definition str_fastcmp (a b : list Z) (len : Z) : option Z :=
  str_fastcmp_loop (S (Z.to_nat len)) a b len 0.

(** ** Search *)

(** C library: index of the first [c] among [s[i..i+n)]. *)
Fixpoint memchr (s : list Z) (i c : Z) (n : nat) : option Z :=
  match n with
  | O => None
  | S n => if byte_at s i =? c then Some i else memchr s (i + 1) c n
  end.

(** C library: [memcmp(s+i, p+j, n) == 0]. *)
Fixpoint memeq (s : list Z) (i : Z) (p : list Z) (j : Z) (n : nat) : bool :=
  match n with
  | O => true
  | S n => (byte_at s i =? byte_at p j) && memeq s (i + 1) p (j + 1) n
  end.

(** [while (slen) ...]; [c] is the first character of [p], [plen] the number
    of characters after it. *)
Fixpoint str_find_loop (fuel : nat) (s p : list Z) (c i slen plen : Z) : option (option Z) :=
  match fuel with
  | O => None
  | S fuel =>
      if slen =? 0 then Some None
      else match memchr s i c (Z.to_nat slen) with
      | None => Some None
      | Some q =>
          if memeq s (q + 1) p 1 (Z.to_nat plen) then Some (Some q)
          else
            let q := q + 1 in
            str_find_loop fuel s p c q (u32 (slen - u32 (q - i))) plen
      end
  end.

(** The offset of the match, [Some None] for [NULL]. *)
Definition lj_str_find (s p : list Z) (slen plen : Z) : option (option Z) :=
  if plen <=? slen then
    if plen =? 0 then Some (Some 0)
    else
      let c := byte_at p 0 in
      let plen := plen - 1 in
      let slen := slen - plen in
      str_find_loop (S (Z.to_nat slen)) s p c 0 slen plen
  else Some None.

(** The characters of the C string "^$*+?.([%-" and its terminator. *)
Definition pattern_chars : list Z := [94; 36; 42; 43; 63; 46; 40; 91; 37; 45].
Definition strchr_pattern (c : Z) : bool := existsb (Z.eqb c) (pattern_chars ++ [0]).

Fixpoint haspattern_loop (n : nat) (s : list Z) (p : Z) : Z :=
  match n with
  | O => 0
  | S n =>
      let c := byte_at s p in
      if nz (lj_char_ispunct c) && strchr_pattern c then 1 else haspattern_loop n s (p + 1)
  end.

Definition lj_str_haspattern (s : GCstr) : Z :=
  haspattern_loop (Z.to_nat (str_len s)) (str_data s) 0.

(** ** Interning *)

(** The hash of [lj_str_new], for [0 < len]. *)
Definition str_hash_of (str : list Z) (len : Z) : Z :=
  let h := len in
  let '(a, b, h) :=
    if 4 <=? len then
      let a := lj_getu32 str 0 in
      let h := h .^ lj_getu32 str (len - 4) in
      let b := lj_getu32 str ((len >> 1) - 2) in
      let h := h .^ b in
      let h := u32 (h - lj_rol 32 b 14) in
      (a, u32 (b + lj_getu32 str ((len >> 2) - 1)), h)
    else
      let a := byte_at str 0 in
      let h := h .^ byte_at str (len - 1) in
      let b := byte_at str (len >> 1) in
      let h := h .^ b in
      (a, b, u32 (h - lj_rol 32 b 14)) in
  let a := a .^ h in
  let a := u32 (a - lj_rol 32 h 11) in
  let b := b .^ a in
  let b := u32 (b - lj_rol 32 a 25) in
  let h := h .^ b in
  u32 (h - lj_rol 32 b 16).

(** Bucket of an object under a mask. *)
Definition hash_of (g : global_State) (o : positive) : Z :=
  match heap g !! o with Some s => str_hash s | None => 0 end.

(** [setgcrefr(p->gch.nextgc, newhash[h]); setgcref(newhash[h], p)]. *)
Definition str_reinsert (g : global_State) (newmask : Z) (newhash : list (list positive)) (p : positive) :=
  let h := hash_of g p .& newmask in
  <[Z.to_nat h := p :: default [] (newhash !! Z.to_nat h)]> newhash.

(** The old table is walked from its last bucket to its first. *)
Definition str_rehash (g : global_State) (newmask : Z) : list (list positive) :=
  fold_left (fun nh chain => fold_left (str_reinsert g newmask) chain nh)
    (rev (strhash g)) (replicate (Z.to_nat (newmask + 1)) []).

Definition lj_str_resize (g : global_State) (newmask : Z) : global_State :=
  if bool_decide (gc_state g = GCSsweepstring) || (LJ_MAX_STRTAB - 1 <=? newmask) then g
  else set_strhash g (str_rehash g newmask) newmask.

Definition LJ_GC_WHITES : Z := 3.
Definition LJ_GC_COLORS : Z := 7.
Definition otherwhite (g : global_State) : Z := currentwhite g .^ LJ_GC_WHITES.
Definition curwhite (g : global_State) : Z := currentwhite g .& LJ_GC_WHITES.
Definition isdead (g : global_State) (s : GCstr) : bool :=
  nz (str_marked s .& otherwhite g .& LJ_GC_WHITES).
Definition set_marked (s : GCstr) (m : Z) : GCstr :=
  mkGCstr m (str_reserved s) (str_hash s) (str_len s) (str_data s).
Definition flipwhite (s : GCstr) : GCstr := set_marked s (str_marked s .^ LJ_GC_WHITES).
Definition makewhite (g : global_State) (s : GCstr) : GCstr :=
  set_marked s ((str_marked s .& (255 - LJ_GC_COLORS)) .| curwhite g).

(** A string reference: the preallocated empty string or an object. *)
Inductive strref := strempty | strobj (o : positive).

Inductive LJErr := LJ_ERR_STROV.

(** The two walks along a hash chain. *)
Fixpoint str_lookup (g : global_State) (eq : list Z -> list Z -> Z -> bool)
    (str : list Z) (len : Z) (chain : list positive) : option (positive * GCstr) :=
  match chain with
  | [] => None
  | o :: chain =>
      match heap g !! o with
      | Some sx =>
          if (str_len sx =? len) && eq str (str_data sx) len then Some (o, sx)
          else str_lookup g eq str len chain
      | None => None
      end
  end.

Definition str_eq_fast (a b : list Z) (len : Z) : bool :=
  match str_fastcmp a b len with Some v => v =? 0 | None => false end.
Definition str_eq_slow (a b : list Z) (len : Z) : bool := memeq a 0 b 0 (Z.to_nat len).

(** [lj_str_new(L, str, lenx)] for a [str] at address [addr]; [str] is the
    memory found there. *)
Definition lj_str_new (g : global_State) (addr : Z) (str : list Z) (lenx : Z)
    : res LJErr (strref * global_State) :=
  let len := u32 lenx in
  if LJ_MAX_STR <=? lenx then Err LJ_ERR_STROV
  else if len =? 0 then Ok (strempty, g)
  else
    let h := str_hash_of str len in
    let chain := default [] (strhash g !! Z.to_nat (h .& strmask g)) in
    let eq := if (addr + len - 1) .& (LJ_PAGESIZE - 1) <=? LJ_PAGESIZE - 4
              then str_eq_fast else str_eq_slow in
    match str_lookup g eq str len chain with
    | Some (o, sx) =>
        Ok (strobj o, if isdead g sx then set_heap g (<[o := flipwhite sx]> (heap g)) else g)
    | None =>
        let s := mkGCstr (curwhite g) 0 h len (take (Z.to_nat len) str ++ [0]) in
        let o := next_id g in
        let h := h .& strmask g in
        let num := strnum g in
        let g := mkG (<[Z.to_nat h := o :: default [] (strhash g !! Z.to_nat h)]> (strhash g))
                   (strmask g) (u32 (num + 1)) (gc_state g) (gc_sweepstr g) (currentwhite g)
                   (<[o := s]> (heap g)) (Pos.succ o) in
        Ok (strobj o,
            if strmask g <? num then lj_str_resize g (u32 (u32 (strmask g << 1) + 1)) else g)
    end.

(** ** Sweeping a chain of the string table *)

Definition lj_str_free (g : global_State) (o : positive) : global_State :=
  set_heap (set_strnum g (u32 (strnum g - 1))) (delete o (heap g)).

(** [gc_fullsweep] of one chain: the surviving chain and the new state. *)
Fixpoint gc_sweep (g : global_State) (chain : list positive) : list positive * global_State :=
  match chain with
  | [] => ([], g)
  | o :: chain =>
      match heap g !! o with
      | None => (o :: chain, g)
      | Some s =>
          if nz ((str_marked s .^ LJ_GC_WHITES) .& otherwhite g) then
            let '(rest, g) := gc_sweep (set_heap g (<[o := makewhite g s]> (heap g))) chain in
            (o :: rest, g)
          else gc_sweep (lj_str_free g o) chain
      end
  end.

(** The [GCSsweepstring] step of [gc_onestep]: sweep one chain. *)
Definition gc_sweepstring_step (g : global_State) : global_State :=
  let i := gc_sweepstr g in
  let '(chain, g) := gc_sweep g (default [] (strhash g !! Z.to_nat i)) in
  let g := set_chain g i chain in
  let i := i + 1 in
  set_sweep g (if strmask g <? i then GCSsweep else gc_state g) i.

(** ** Lexicographic order *)

Fixpoint lex_cmp (a b : list Z) : comparison :=
  match a, b with
  | [], [] => Eq
  | [], _ :: _ => Lt
  | _ :: _, [] => Gt
  | x :: a, y :: b => match x ?= y with Eq => lex_cmp a b | c => c end
  end.

Definition cmp_sign (c : comparison) : Z := match c with Eq => 0 | Lt => -1 | Gt => 1 end.

Lemma sgn_cmp_sign c : Z.sgn (cmp_sign c) = cmp_sign c.
Proof. by destruct c. Qed.

Lemma sgn_sub x y : Z.sgn (x - y) = cmp_sign (x ?= y).
Proof. destruct (Z.compare_spec x y); simpl; lia. Qed.

Lemma lex_cmp_app_eq p a b : lex_cmp (p ++ a) (p ++ b) = lex_cmp a b.
Proof. induction p as [|x p IH]; simpl; [done|]. by rewrite Z.compare_refl. Qed.

Lemma lex_cmp_eq a : forall b, lex_cmp a b = Eq <-> a = b.
Proof.
  induction a as [|x a IH]; intros [|y b]; simpl; try done.
  destruct (Z.compare_spec x y) as [->|H|H].
  - rewrite IH. split; congruence.
  - split; [done|]. intros [= -> _]. lia.
  - split; [done|]. intros [= -> _]. lia.
Qed.

Lemma lex_cmp_app_neq s1 : forall s2 r1 r2,
  length s1 = length s2 -> lex_cmp s1 s2 <> Eq ->
  lex_cmp (s1 ++ r1) (s2 ++ r2) = lex_cmp s1 s2.
Proof.
  induction s1 as [|x s1 IH]; intros [|y s2] r1 r2; simpl; try done.
  intros [= Hl] Hne. destruct (x ?= y); [by apply IH|done..].
Qed.

Lemma lex_cmp_prefix b : forall a,
  take (length b) a = b -> lex_cmp a b = (Z.of_nat (length a) ?= Z.of_nat (length b)).
Proof.
  induction b as [|y b IH]; intros [|x a] E; try done.
  injection E as -> E. cbn [lex_cmp length]. rewrite Z.compare_refl, IH by done.
  rewrite !Nat2Z.inj_succ, <- !Z.add_1_l. by rewrite Z.add_compare_mono_l.
Qed.

Lemma lex_cmp_antisym a : forall b, lex_cmp b a = CompOpp (lex_cmp a b).
Proof.
  induction a as [|x a IH]; intros [|y b]; simpl; try done.
  rewrite (Z.compare_antisym x y). destruct (x ?= y); simpl; auto.
Qed.

(** ** Words and bytes *)

(** The bytes of [s] in [i, i + k). *)
Definition slice (s : list Z) (i k : Z) : list Z := take (Z.to_nat k) (drop (Z.to_nat i) s).

Lemma slice_app s i k :
  0 <= i -> 0 <= k -> take (Z.to_nat i) s ++ slice s i k = take (Z.to_nat (i + k)) s.
Proof.
  intros. unfold slice. rewrite Z2Nat.inj_add by done. by rewrite take_take_drop.
Qed.

Lemma length_slice s i k :
  0 <= i -> 0 <= k -> i + k <= Z.of_nat (length s) -> length (slice s i k) = Z.to_nat k.
Proof. intros. unfold slice. rewrite length_take, length_drop. lia. Qed.

(** Big-endian value of a byte list. *)
Definition be (l : list Z) : Z := fold_left (fun acc b => acc * 2 ^ 8 + b) l 0.

Lemma be_from l acc : fold_left (fun acc b => acc * 2 ^ 8 + b) l acc
  = acc * 2 ^ (8 * Z.of_nat (length l)) + be l.
Proof.
  unfold be. revert acc. induction l as [|x l IH]; intros acc; cbn [fold_left].
  - simpl. lia.
  - rewrite IH, (IH (0 * _ + x)). cbn [length]. rewrite Nat2Z.inj_succ, Z.mul_succ_r.
    rewrite Z.pow_add_r by lia. ring.
Qed.

Lemma be_cons x l : be (x :: l) = x * 2 ^ (8 * Z.of_nat (length l)) + be l.
Proof. unfold be at 1. cbn [fold_left]. rewrite be_from. lia. Qed.

Lemma be_range l : bytes l -> 0 <= be l < 2 ^ (8 * Z.of_nat (length l)).
Proof.
  induction 1 as [|x l Hx Hl IH]; [done|].
  rewrite be_cons. cbn [length]. rewrite Nat2Z.inj_succ, Z.mul_succ_r, Z.pow_add_r by lia.
  widths. nia.
Qed.

Lemma be_cmp l1 : forall l2,
  bytes l1 -> bytes l2 -> length l1 = length l2 -> (be l1 ?= be l2) = lex_cmp l1 l2.
Proof.
  induction l1 as [|x l1 IH]; intros [|y l2] H1 H2 Hl; try done.
  injection Hl as Hl. rewrite !be_cons. rewrite <- Hl. cbn [lex_cmp].
  inversion_clear H1 as [|? ? Hx H1']. inversion_clear H2 as [|? ? Hy H2'].
  pose proof (be_range _ H1') as R1. pose proof (be_range _ H2') as R2. rewrite <- Hl in R2.
  rewrite <- (IH l2 H1' H2' Hl). set (p := 2 ^ _) in *.
  destruct (Z.compare_spec x y) as [->|H|H].
  - apply Z.add_compare_mono_l.
  - apply Z.compare_lt_iff. nia.
  - apply Z.compare_gt_iff. nia.
Qed.

Lemma slice_S s i k :
  0 <= i < Z.of_nat (length s) -> 0 < k -> slice s i k = byte_at s i :: slice s (i + 1) (k - 1).
Proof.
  intros Hi Hk. unfold slice. rewrite drop_byte_at by done.
  replace (Z.to_nat k) with (S (Z.to_nat (k - 1))) by lia. done.
Qed.

Lemma slice_bytes s i k :
  0 <= i -> 1 <= k <= 4 -> i + k <= Z.of_nat (length s) ->
  slice s i k = take (Z.to_nat k)
    [byte_at s i; byte_at s (i + 1); byte_at s (i + 2); byte_at s (i + 3)].
Proof.
  intros Hi Hk Hl. assert (Hc : k = 1 \/ k = 2 \/ k = 3 \/ k = 4) by lia.
  replace (i + 2) with (i + 1 + 1) by lia. replace (i + 3) with (i + 1 + 1 + 1) by lia.
  destruct Hc as [->|[->|[->| ->]]]; repeat rewrite slice_S by lia; done.
Qed.

(** Powers of two with a closed exponent. *)
Ltac eval_exponents :=
  repeat match goal with
  | |- context [2 ^ ?e] =>
      lazymatch e with Z.pos _ => fail | Z0 => fail | _ => idtac end;
      let v := eval compute in e in
      let p := eval compute in (2 ^ v) in change (2 ^ e) with p
  end.

(** The top [k] bytes of the swapped word at [i] are the next [k] bytes. *)
Lemma word_slice s i k :
  bytes s -> 0 <= i -> 1 <= k <= 4 -> i + k <= Z.of_nat (length s) ->
  lj_bswap (lj_getu32 s i) >> (32 - 8 * k) = be (slice s i k).
Proof.
  intros Hs Hi Hk Hl. rewrite lj_getu32_word4 by done.
  rewrite lj_bswap_word4 by auto with width. unfold word4. rewrite Z.shiftr_div_pow2 by lia.
  pose proof (byte_at_u8 s i Hs) as H0. pose proof (byte_at_u8 s (i + 1) Hs) as H1.
  pose proof (byte_at_u8 s (i + 2) Hs) as H2. pose proof (byte_at_u8 s (i + 3) Hs) as H3.
  assert (Hc : k = 1 \/ k = 2 \/ k = 3 \/ k = 4) by lia.
  rewrite slice_bytes by done.
  destruct Hc as [->|[->|[->| ->]]]; simpl take; unfold be; cbn [fold_left]; eval_exponents; wsolve.
Qed.

(** The low [k] bytes of the word at [i] determine the next [k] bytes. *)
Lemma word_low_slice a b i k :
  bytes a -> bytes b -> 0 <= i -> 1 <= k <= 4 ->
  i + k <= Z.of_nat (length a) -> i + k <= Z.of_nat (length b) ->
  lj_getu32 a i mod 2 ^ (8 * k) = lj_getu32 b i mod 2 ^ (8 * k) <-> slice a i k = slice b i k.
Proof.
  intros Ha Hb Hi Hk Hla Hlb. rewrite !lj_getu32_word4 by done. unfold word4.
  pose proof (byte_at_u8 a i Ha). pose proof (byte_at_u8 a (i + 1) Ha).
  pose proof (byte_at_u8 a (i + 2) Ha). pose proof (byte_at_u8 a (i + 3) Ha).
  pose proof (byte_at_u8 b i Hb). pose proof (byte_at_u8 b (i + 1) Hb).
  pose proof (byte_at_u8 b (i + 2) Hb). pose proof (byte_at_u8 b (i + 3) Hb).
  assert (Hc : k = 1 \/ k = 2 \/ k = 3 \/ k = 4) by lia.
  rewrite !slice_bytes by done.
  destruct Hc as [->|[->|[->| ->]]]; simpl take;
    eval_exponents; (split; [intros E; repeat apply (f_equal2 cons); (wsolve || done) | intros E; injection E; wsolve]).
Qed.

Lemma slice_lex a b n i k :
  0 <= i -> 0 <= k -> i + k <= n -> n <= Z.of_nat (length a) -> n <= Z.of_nat (length b) ->
  take (Z.to_nat i) a = take (Z.to_nat i) b -> lex_cmp (slice a i k) (slice b i k) <> Eq ->
  lex_cmp (take (Z.to_nat n) a) (take (Z.to_nat n) b) = lex_cmp (slice a i k) (slice b i k).
Proof.
  intros Hi Hk Hn Ha Hb E Hne.
  replace n with (i + k + (n - (i + k))) by lia.
  rewrite <- !(slice_app _ (i + k)), <- !(slice_app _ i k), E, <- !app_assoc by lia.
  rewrite lex_cmp_app_eq. apply lex_cmp_app_neq; [|done].
  by rewrite !length_slice by lia.
Qed.

Lemma slice_extend (a b : list Z) i k :
  0 <= i -> 0 <= k -> take (Z.to_nat i) a = take (Z.to_nat i) b -> slice a i k = slice b i k ->
  take (Z.to_nat (i + k)) a = take (Z.to_nat (i + k)) b.
Proof. intros Hi Hk E Es. by rewrite <- !slice_app, E, Es. Qed.

(** The shift count [32 + ((i - n) << 3)] for [n - i] remaining bytes. *)
Lemma tail_shift i n :
  0 <= n - i <= 4 -> u32 (32 + (u32 (i - n) << 3)) = u32 (32 - 8 * (n - i)).
Proof. intros. rewrite Z.shiftl_mul_pow2 by lia. wsolve. Qed.

Lemma tail_test i n : 0 <= i < n -> n < 2 ^ 31 -> (-3 <=? i32 (u32 (i - n))) = (n - i <=? 3).
Proof.
  intros. rewrite i32_u32, i32_id by (widths; lia). 
  destruct (Z.leb_spec (-3) (i - n)), (Z.leb_spec (n - i) 3); lia || done.
Qed.

Lemma bytes_slice s i k : bytes s -> bytes (slice s i k).
Proof. intros. unfold slice. auto with width. Qed.
#[export] Hint Resolve bytes_slice : width.

(** Comparing the (shifted) swapped words compares the next bytes. *)
Lemma word_cmp a b i k :
  bytes a -> bytes b -> 0 <= i -> 1 <= k <= 4 ->
  i + k <= Z.of_nat (length a) -> i + k <= Z.of_nat (length b) ->
  (lj_bswap (lj_getu32 a i) >> (32 - 8 * k) ?= lj_bswap (lj_getu32 b i) >> (32 - 8 * k))
  = lex_cmp (slice a i k) (slice b i k).
Proof.
  intros. rewrite !word_slice by done. apply be_cmp; auto with width.
  by rewrite !length_slice by lia.
Qed.

Lemma cmp_sign_ltb x y : x <> y -> (if x <? y then -1 else 1) = cmp_sign (x ?= y).
Proof. intros. destruct (Z.compare_spec x y), (Z.ltb_spec x y); lia || done. Qed.

Lemma str_cmp_loop_spec a b n :
  bytes a -> bytes b -> n <= Z.of_nat (length a) -> n <= Z.of_nat (length b) -> n < 2 ^ 31 ->
  forall fuel i, 0 <= i -> i < n + 4 -> Z.max 0 (n - i) < Z.of_nat fuel ->
  take (Z.to_nat (Z.min i n)) a = take (Z.to_nat (Z.min i n)) b ->
  exists r, str_cmp_loop fuel a b n i = Some r /\
    match r with
    | None => take (Z.to_nat n) a = take (Z.to_nat n) b
    | Some v =>
        lex_cmp (take (Z.to_nat n) a) (take (Z.to_nat n) b) <> Eq /\
        v = cmp_sign (lex_cmp (take (Z.to_nat n) a) (take (Z.to_nat n) b))
    end.
Proof.
  intros Ha Hb Hla Hlb Hn. induction fuel as [|fuel IH]; intros i Hi Hi4 Hf E.
  { lia. }
  cbn [str_cmp_loop]. destruct (Z.ltb_spec i n) as [Hin|Hin].
  2:{ exists None. split; [done|]. by rewrite Z.min_r in E by lia. }
  rewrite Z.min_l in E by lia.
  destruct (Z.eqb_spec (lj_getu32 a i) (lj_getu32 b i)) as [Ev|Ev]; cbn [negb].
  - rewrite u32_id by (widths; lia). apply IH; try lia.
    replace (Z.min (i + 4) n) with (i + Z.min 4 (n - i)) by lia.
    apply slice_extend; [lia..|done|]. apply word_low_slice; lia || done || by rewrite Ev.
  - rewrite tail_test by lia. destruct (Z.leb_spec (n - i) 3) as [Hk|Hk].
    + rewrite tail_shift, u32_id by (widths; lia).
      pose proof (word_cmp a b i (n - i) Ha Hb Hi ltac:(lia) ltac:(lia) ltac:(lia)) as W.
      set (va := lj_bswap (lj_getu32 a i) >> _) in *. set (vb := lj_bswap (lj_getu32 b i) >> _) in *.
      destruct (Z.eqb_spec va vb) as [Es|Es].
      * exists None. split; [done|]. rewrite Es, Z.compare_refl in W. symmetry in W.
        apply lex_cmp_eq in W. replace n with (i + (n - i)) by lia.
        apply slice_extend; lia || done.
      * eexists. split; [done|]. rewrite cmp_sign_ltb, W by done.
        assert (lex_cmp (slice a i (n - i)) (slice b i (n - i)) <> Eq).
        { rewrite <- W. intros X%Z.compare_eq_iff. done. }
        by rewrite (slice_lex a b n i (n - i)) by (lia || done).
    + eexists. split; [done|].
      pose proof (word_cmp a b i 4 Ha Hb Hi ltac:(lia) ltac:(lia) ltac:(lia)) as W.
      change (32 - 8 * 4) with 0 in W. rewrite !Z.shiftr_0_r in W.
      assert (Hne : lj_bswap (lj_getu32 a i) <> lj_bswap (lj_getu32 b i)).
      { intros X%(f_equal lj_bswap). apply Ev.
        rewrite !lj_bswap_invol in X; [done| |]; rewrite lj_getu32_word4 by done;
        apply word4_range; auto with width. }
      rewrite cmp_sign_ltb, W by done.
      assert (lex_cmp (slice a i 4) (slice b i 4) <> Eq).
      { rewrite <- W. intros X%Z.compare_eq_iff. done. }
      by rewrite (slice_lex a b n i 4) by (lia || done).
Qed.

(** A well-formed string object: the block holds the string, whatever follows. *)
Definition str_wf (s : GCstr) : Prop :=
  bytes (str_data s) /\ 0 <= str_len s < LJ_MAX_STR /\ str_len s <= Z.of_nat (length (str_data s)).

Lemma length_content s : str_wf s -> Z.of_nat (length (content s)) = str_len s.
Proof. intros (_ & Hl & Hd). unfold content. rewrite length_take. lia. Qed.

(** [lj_str_cmp] terminates, and the sign of its result is the
    lexicographic order of the two byte strings (a proper prefix is smaller),
    whatever the bytes after the end of the strings that its word loads read. *)
Theorem lj_str_cmp_lexicographic a b :
  str_wf a -> str_wf b ->
  exists v, lj_str_cmp a b = Some v /\ Z.sgn v = cmp_sign (lex_cmp (content a) (content b)).
Proof.
  intros (Ha & Hla & Hda) (Hb & Hlb & Hdb). unfold lj_str_cmp. unfold LJ_MAX_STR in *.
  set (n := if str_len b <? str_len a then str_len b else str_len a).
  assert (Hn : n = Z.min (str_len a) (str_len b)).
  { unfold n. destruct (Z.ltb_spec (str_len b) (str_len a)); lia. }
  clearbody n.
  destruct (str_cmp_loop_spec (str_data a) (str_data b) n Ha Hb) with
    (fuel := S (Z.to_nat n)) (i := 0) as (r & -> & Hr); try lia.
  { by rewrite Z.min_l by lia. }
  cbn [mbind option_bind].
  assert (Ec : forall s, n <= str_len s -> take (Z.to_nat n) (str_data s) = take (Z.to_nat n) (content s)).
  { intros s Hs. unfold content. rewrite take_take. f_equal. lia. }
  rewrite !Ec in Hr by lia.
  pose proof (length_content a) as La. pose proof (length_content b) as Lb.
  specialize (La ltac:(done)). specialize (Lb ltac:(done)).
  destruct r as [v|].
  - exists v. split; [done|]. destruct Hr as [Hne ->].
    rewrite sgn_cmp_sign. symmetry. f_equal.
    rewrite <- (take_drop (Z.to_nat n) (content a)) at 1.
    rewrite <- (take_drop (Z.to_nat n) (content b)) at 1.
    apply lex_cmp_app_neq; [rewrite !length_take; lia|done].
  - eexists. split; [done|]. rewrite i32_u32, i32_id, sgn_sub by (widths; lia).
    destruct (Z.le_ge_cases (str_len b) (str_len a)) as [Hle|Hle].
    + rewrite (take_ge (content b)) in Hr by lia.
      rewrite lex_cmp_prefix, La, Lb; [done|]. by rewrite <- Hr at 2; f_equal; lia.
    + rewrite (take_ge (content a)) in Hr by lia. rewrite lex_cmp_antisym.
      rewrite lex_cmp_prefix, La, Lb, <- Z.compare_antisym; [done|].
      by rewrite Hr at 2; f_equal; lia.
Qed.

Lemma lj_str_cmp_lexicographic_witness :
  exists v, lj_str_cmp (mkGCstr 0 0 0 5 [97; 98; 99; 100; 101; 0; 7; 7])
                       (mkGCstr 0 0 0 6 [97; 98; 99; 100; 101; 65; 0; 9]) = Some v /\ Z.sgn v = -1.
Proof.
  apply (lj_str_cmp_lexicographic (mkGCstr 0 0 0 5 [97; 98; 99; 100; 101; 0; 7; 7])
           (mkGCstr 0 0 0 6 [97; 98; 99; 100; 101; 65; 0; 9])).
  - split_and!; simpl; try lia; try done. repeat (constructor; [widths; lia|]). constructor.
  - split_and!; simpl; try lia; try done. repeat (constructor; [widths; lia|]). constructor.
Defined.

(** ** Equality tests *)

Lemma lxor_mod a b w : 0 <= w -> (a .^ b) mod 2 ^ w = (a mod 2 ^ w) .^ (b mod 2 ^ w).
Proof.
  intros Hw. apply Z.bits_inj'. intros n Hn.
  rewrite Z.lxor_spec, !mod_pow2_testbit, Z.lxor_spec by lia.
  by destruct (n <? w), (Z.testbit a n), (Z.testbit b n).
Qed.

Lemma lxor_mod_0 a b w : 0 <= w -> (a .^ b) mod 2 ^ w = 0 <-> a mod 2 ^ w = b mod 2 ^ w.
Proof. intros. rewrite lxor_mod by done. apply Z.lxor_eq_0_iff. Qed.

(** Shifting the [k]-byte tail of a word to the top keeps its low bytes. *)
Lemma shl_tail_0 v k : 1 <= k <= 3 -> u32 (v << (32 - 8 * k)) = 0 <-> v mod 2 ^ (8 * k) = 0.
Proof.
  intros Hk. rewrite Z.shiftl_mul_pow2 by lia.
  assert (Hc : k = 1 \/ k = 2 \/ k = 3) by lia.
  destruct Hc as [->|[->| ->]]; eval_exponents; wsolve.
Qed.

Lemma slice_take s n i k : 0 <= i -> 0 <= k -> i + k <= n -> slice (take (Z.to_nat n) s) i k = slice s i k.
Proof.
  intros. unfold slice. rewrite !take_drop_commute, take_take. do 2 f_equal. lia.
Qed.

Lemma str_fastcmp_loop_spec a b n :
  bytes a -> bytes b -> n <= Z.of_nat (length a) -> n <= Z.of_nat (length b) -> n < 2 ^ 31 ->
  forall fuel i, 0 <= i < n -> n - i < Z.of_nat fuel ->
  take (Z.to_nat i) a = take (Z.to_nat i) b ->
  exists v, str_fastcmp_loop fuel a b n i = Some v /\
    (v = 0 <-> take (Z.to_nat n) a = take (Z.to_nat n) b).
Proof.
  intros Ha Hb Hla Hlb Hn. induction fuel as [|fuel IH]; intros i Hi Hf E; [lia|].
  cbn [str_fastcmp_loop].
  assert (Hs : forall k, 1 <= k <= 4 -> i + k <= n ->
    (lj_getu32 a i .^ lj_getu32 b i) mod 2 ^ (8 * k) = 0 <-> slice a i k = slice b i k).
  { intros k Hk Hkn. rewrite lxor_mod_0 by lia. apply word_low_slice; lia || done. }
  assert (Hd : forall k, 1 <= k <= 4 -> i + k <= n -> slice a i k <> slice b i k ->
    take (Z.to_nat n) a <> take (Z.to_nat n) b).
  { intros k Hk Hkn Hne Et. apply Hne. by rewrite <- (slice_take _ n), Et, slice_take by lia. }
  assert (Hx : forall k, 1 <= k <= 4 -> i + k <= n -> slice a i k = slice b i k ->
    take (Z.to_nat (i + k)) a = take (Z.to_nat (i + k)) b).
  { intros k Hk Hkn Es. by apply slice_extend; [lia..| |]. }
  destruct (Z.eqb_spec (lj_getu32 a i .^ lj_getu32 b i) 0) as [Ev|Ev]; cbn [negb].
  - rewrite u32_id by (widths; lia). rewrite Ev in Hs.
    destruct (Z.ltb_spec (i + 4) n).
    + apply IH; [lia..|]. apply Hx; [lia..|]. apply Hs; [lia..|done].
    + exists 0. split; [done|]. split; [|done]. intros _.
      replace n with (i + (n - i)) by lia. apply Hx; [lia..|]. apply Hs; [lia..|].
      by apply Z.mod_0_l, Z.pow_nonzero; lia.
  - rewrite tail_test by lia. eexists. split; [done|]. destruct (Z.leb_spec (n - i) 3).
    + rewrite tail_shift, (u32_id (32 - _)) by (widths; lia).
      transitivity (u32 ((lj_getu32 a i .^ lj_getu32 b i) << (32 - 8 * (n - i))) = 0).
      { split; [|by intros ->]. intros X%(f_equal u32). by autorewrite with width in X. }
      rewrite shl_tail_0, Hs by lia. split.
      * intros Es. pose proof (Hx (n - i) ltac:(lia) ltac:(lia) Es) as X.
        by replace (i + (n - i)) with n in X by lia.
      * intros Et. destruct (decide (slice a i (n - i) = slice b i (n - i))) as [|Hne]; [done|].
        by destruct (Hd (n - i) ltac:(lia) ltac:(lia) Hne).
    + split; [done|]. intros Et. exfalso. apply Ev.
      assert (Hr : forall s, bytes s -> is_u32 (lj_getu32 s i)).
      { intros. rewrite lj_getu32_word4 by done. apply word4_range; auto with width. }
      assert (E4 : (lj_getu32 a i .^ lj_getu32 b i) mod 2 ^ (8 * 4) = 0).
      { apply Hs; [lia..|]. destruct (decide (slice a i 4 = slice b i 4)) as [|Hne]; [done|].
        by destruct (Hd 4 ltac:(lia) ltac:(lia) Hne). }
      apply lxor_mod_0 in E4; [|lia]. apply Z.lxor_eq_0_iff.
      by rewrite !Z.mod_small in E4 by (apply Hr; done).
Qed.

Lemma str_fastcmp_spec a b n :
  bytes a -> bytes b -> n <= Z.of_nat (length a) -> n <= Z.of_nat (length b) -> 0 < n < 2 ^ 31 ->
  exists v, str_fastcmp a b n = Some v /\
    (v = 0 <-> take (Z.to_nat n) a = take (Z.to_nat n) b).
Proof. intros. apply str_fastcmp_loop_spec; try done; lia. Qed.

Lemma memeq_spec n : forall s i p j,
  0 <= i -> 0 <= j -> i + Z.of_nat n <= Z.of_nat (length s) -> j + Z.of_nat n <= Z.of_nat (length p) ->
  memeq s i p j n = true <-> slice s i (Z.of_nat n) = slice p j (Z.of_nat n).
Proof.
  induction n as [|n IH]; intros s i p j Hi Hj Hs Hp; [done|].
  cbn [memeq]. rewrite andb_true_iff, Z.eqb_eq, IH, (slice_S s i (Z.of_nat (S n))), (slice_S p j (Z.of_nat (S n))) by lia.
  replace (Z.of_nat (S n) - 1) with (Z.of_nat n) by lia.
  split; [intros [-> ->]; done|by intros [= -> ->]].
Qed.

Lemma str_eq_fast_slow a b n :
  bytes a -> bytes b -> n <= Z.of_nat (length a) -> n <= Z.of_nat (length b) -> 0 < n < 2 ^ 31 ->
  str_eq_fast a b n = bool_decide (take (Z.to_nat n) a = take (Z.to_nat n) b) /\
  str_eq_slow a b n = bool_decide (take (Z.to_nat n) a = take (Z.to_nat n) b).
Proof.
  intros Ha Hb Hla Hlb Hn. split.
  - unfold str_eq_fast. destruct (str_fastcmp_spec a b n) as (v & -> & Hv); try done.
    rewrite <- Z.eqb_eq in Hv. apply eq_true_iff_eq. by rewrite bool_decide_eq_true.
  - unfold str_eq_slow. apply eq_true_iff_eq. rewrite bool_decide_eq_true, memeq_spec by lia.
    rewrite !Z2Nat.id by lia. done.
Qed.

(** [str_fastcmp], which loads words across the end of both strings,
    terminates and returns 0 exactly when the [len] bytes agree. *)
Theorem str_fastcmp_correct a b len :
  bytes a -> bytes b -> len <= Z.of_nat (length a) -> len <= Z.of_nat (length b) ->
  0 < len < 2 ^ 31 ->
  exists v, str_fastcmp a b len = Some v /\
    (v = 0 <-> take (Z.to_nat len) a = take (Z.to_nat len) b).
Proof. apply str_fastcmp_spec. Qed.

Lemma str_fastcmp_correct_witness :
  exists v, str_fastcmp [1; 2; 3; 4; 5; 77] [1; 2; 3; 4; 5; 88; 99] 5 = Some v /\
    (v = 0 <-> [1; 2; 3; 4; 5] = [1; 2; 3; 4; 5]).
Proof.
  apply (str_fastcmp_correct [1; 2; 3; 4; 5; 77] [1; 2; 3; 4; 5; 88; 99] 5);
    try (simpl; lia); repeat (constructor; [widths; lia|]); constructor.
Defined.

(** ** Search *)

(** [p] (of [plen] bytes) occurs in [s] (of [slen] bytes) at offset [q]. *)
Definition occurs (s p : list Z) (slen plen q : Z) : Prop :=
  0 <= q /\ q + plen <= slen /\ slice s q plen = slice p 0 plen.

Lemma memchr_Some n : forall s i c q,
  memchr s i c n = Some q ->
  i <= q < i + Z.of_nat n /\ byte_at s q = c /\ (forall j, i <= j < q -> byte_at s j <> c).
Proof.
  induction n as [|n IH]; intros s i c q; [done|]. cbn [memchr].
  destruct (Z.eqb_spec (byte_at s i) c) as [E|E].
  - intros [= <-]. split_and!; try done; lia.
  - intros (Hq & Hc & Hlt)%IH. split_and!; [lia..|done|]. intros j Hj.
    destruct (Z.eq_dec j i) as [->|]; [done|]. apply Hlt. lia.
Qed.

Lemma memchr_None n : forall s i c,
  memchr s i c n = None -> forall j, i <= j < i + Z.of_nat n -> byte_at s j <> c.
Proof.
  induction n as [|n IH]; intros s i c; [lia|]. cbn [memchr].
  destruct (Z.eqb_spec (byte_at s i) c) as [E|E]; [done|].
  intros HN. specialize (IH _ _ _ HN). intros j Hj. destruct (Z.eq_dec j i) as [->|]; [done|]. apply IH. lia.
Qed.

Section Find.
Variables (s p : list Z) (slen plen : Z).
Hypothesis (Hs : slen <= Z.of_nat (length s)) (Hp : plen <= Z.of_nat (length p)).
Hypothesis (Hlen : 0 < plen <= slen) (Hmax : slen < 2 ^ 32).

Lemma occurs_head q : occurs s p slen plen q -> byte_at s q = byte_at p 0.
Proof using Hs Hp Hlen.
  intros (H1 & H2 & H3). rewrite (slice_S s), (slice_S p) in H3 by lia.
  by injection H3.
Qed.

Lemma occurs_intro q :
  0 <= q -> q + plen <= slen -> byte_at s q = byte_at p 0 ->
  (memeq s (q + 1) p 1 (Z.to_nat (plen - 1)) = true <-> occurs s p slen plen q).
Proof using Hs Hp Hlen.
  intros H1 H2 H3. rewrite memeq_spec by lia. unfold occurs.
  rewrite (slice_S s q), (slice_S p 0), H3, !Z2Nat.id by lia.
  change (0 + 1) with 1. split; [by intros ->|]. by intros (_ & _ & [= ->]).
Qed.

Lemma str_find_loop_spec fuel : forall i n,
  0 <= i -> 0 <= n -> i + n = slen - (plen - 1) -> n < Z.of_nat fuel ->
  (forall j, 0 <= j < i -> ~ occurs s p slen plen j) ->
  exists r, str_find_loop fuel s p (byte_at p 0) i n (plen - 1) = Some r /\
    match r with
    | Some q => occurs s p slen plen q /\ forall j, j < q -> ~ occurs s p slen plen j
    | None => forall j, ~ occurs s p slen plen j
    end.
Proof using Hs Hp Hlen Hmax.
  induction fuel as [|fuel IH]; intros i n Hi Hn E Hf Hno; [lia|].
  cbn [str_find_loop]. destruct (Z.eqb_spec n 0) as [->|Hn0].
  { exists None. split; [done|]. intros j Ho. apply (Hno j); [|done].
    destruct Ho as (? & ? & _). lia. }
  destruct (memchr s i (byte_at p 0) (Z.to_nat n)) as [q|] eqn:M.
  - apply memchr_Some in M as (Hq & Hc & Hlt).
    assert (Hno' : forall j, 0 <= j < q -> ~ occurs s p slen plen j).
    { intros j Hj Ho. destruct (Z.lt_ge_cases j i) as [|Hge]; [apply (Hno j); [lia|done]|].
      apply (Hlt j); [lia|]. by apply occurs_head. }
    pose proof (occurs_intro q ltac:(lia) ltac:(lia) Hc) as Hm.
    destruct (memeq s (q + 1) p 1 (Z.to_nat (plen - 1))).
    + exists (Some q). split; [done|]. split; [by apply Hm|].
      intros j Hj Ho. apply (Hno' j); [|done]. destruct Ho. lia.
    + rewrite (u32_id (q + 1 - i)), u32_id by (widths; lia).
      apply IH; try lia. intros j Hj Ho.
      destruct (Z.eq_dec j q) as [->|]; [by apply Hm in Ho|]. apply (Hno' j); [lia|done].
  - exists None. split; [done|]. intros j Ho. pose proof Ho as (H1 & H2 & _).
    destruct (Z.lt_ge_cases j i) as [|Hge]; [apply (Hno j); [lia|done]|].
    apply (memchr_None _ _ _ _ M j); [lia|]. by apply occurs_head.
Qed.
End Find.

(** [lj_str_find] terminates and finds the first occurrence of [p] in [s],
    the empty string at offset 0, and [NULL] exactly when there is none. *)
Theorem lj_str_find_first s p slen plen :
  0 <= slen <= Z.of_nat (length s) -> 0 <= plen <= Z.of_nat (length p) -> slen < 2 ^ 32 ->
  exists r, lj_str_find s p slen plen = Some r /\
    match r with
    | Some q => occurs s p slen plen q /\ forall j, j < q -> ~ occurs s p slen plen j
    | None => forall j, ~ occurs s p slen plen j
    end.
Proof.
  intros Hs Hp Hmax. unfold lj_str_find. destruct (Z.leb_spec plen slen).
  - destruct (Z.eqb_spec plen 0) as [->|].
    + exists (Some 0). split; [done|]. split; [split_and!; done || lia|].
      intros j Hj (? & _). lia.
    + apply str_find_loop_spec; lia.
  - exists None. split; [done|]. intros j (? & ? & _). lia.
Qed.

Lemma lj_str_find_first_witness :
  exists r, lj_str_find [97; 98; 97; 98; 99] [97; 98; 99] 5 3 = Some r /\
    match r with
    | Some q => occurs [97; 98; 97; 98; 99] [97; 98; 99] 5 3 q /\
                forall j, j < q -> ~ occurs [97; 98; 97; 98; 99] [97; 98; 99] 5 3 j
    | None => forall j, ~ occurs [97; 98; 97; 98; 99] [97; 98; 99] 5 3 j
    end.
Proof. apply (lj_str_find_first [97; 98; 97; 98; 99] [97; 98; 99] 5 3); simpl; lia. Defined.

(** ** Pattern characters *)

Lemma pattern_char_punct c :
  is_u8 c -> nz (lj_char_ispunct c) && strchr_pattern c = bool_decide (c ∈ pattern_chars).
Proof.
  intros Hc. apply eqb_prop.
  set (P := fun c => eqb (nz (lj_char_ispunct c) && strchr_pattern c)
                         (bool_decide (c ∈ pattern_chars))).
  change (P c = true). apply forall_chars; [by vm_compute|]. widths. lia.
Qed.

Lemma haspattern_loop_spec s : bytes s -> forall n i,
  0 <= i -> i + Z.of_nat n <= Z.of_nat (length s) ->
  haspattern_loop n s i = 1 /\ (exists c, c ∈ slice s i (Z.of_nat n) /\ c ∈ pattern_chars) \/
  haspattern_loop n s i = 0 /\ (forall c, c ∈ slice s i (Z.of_nat n) -> c ∉ pattern_chars).
Proof.
  intros Hs. induction n as [|n IH]; intros i Hi Hl.
  - right. split; [done|]. intros c Hc. by apply elem_of_nil in Hc.
  - cbn [haspattern_loop]. rewrite slice_S, pattern_char_punct by (auto with width || lia).
    replace (Z.of_nat (S n) - 1) with (Z.of_nat n) by lia.
    case_bool_decide as Hc.
    + left. split; [done|]. exists (byte_at s i). split; [by left|done].
    + destruct (IH (i + 1)) as [[-> (c & H1 & H2)]|[-> H]]; [lia..| |].
      * left. split; [done|]. exists c. split; [by right|done].
      * right. split; [done|]. intros c [->|Hin]%elem_of_cons; [done|]. by apply H.
Qed.

(** [lj_str_haspattern] returns 1 exactly when the string contains one of
    the ten characters with a meaning in Lua patterns. *)
Theorem lj_str_haspattern_correct s :
  str_wf s ->
  lj_str_haspattern s = 1 /\ (exists c, c ∈ content s /\ c ∈ pattern_chars) \/
  lj_str_haspattern s = 0 /\ (forall c, c ∈ content s -> c ∉ pattern_chars).
Proof.
  intros (Hb & Hl & Hd). unfold lj_str_haspattern, content.
  pose proof (haspattern_loop_spec (str_data s) Hb (Z.to_nat (str_len s)) 0) as H.
  unfold slice in H. rewrite Z2Nat.id in H by lia. apply H; lia.
Qed.

Lemma lj_str_haspattern_correct_witness :
  let s := mkGCstr 0 0 0 3 [97; 46; 98; 0] in
  lj_str_haspattern s = 1 /\ (exists c, c ∈ content s /\ c ∈ pattern_chars) \/
  lj_str_haspattern s = 0 /\ (forall c, c ∈ content s -> c ∉ pattern_chars).
Proof.
  intros s. apply (lj_str_haspattern_correct s). split_and!; simpl; try lia; try done.
  repeat (constructor; [widths; lia|]). constructor.
Defined.

(** ** The string table *)

Lemma lj_getu32_take s n i :
  0 <= i -> i + 4 <= n -> lj_getu32 (take (Z.to_nat n) s) i = lj_getu32 s i.
Proof. intros. unfold lj_getu32. by rewrite !byte_at_take by lia. Qed.

(** The hash only depends on the bytes of the string. *)
Lemma str_hash_of_take s len :
  0 < len -> str_hash_of (take (Z.to_nat len) s) len = str_hash_of s len.
Proof.
  intros Hl. unfold str_hash_of. rewrite !Z.shiftr_div_pow2 by done.
  destruct (Z.leb_spec 4 len).
  - by rewrite !lj_getu32_take by wsolve.
  - by rewrite !byte_at_take by wsolve.
Qed.

(** A string object as the table holds it. *)
Definition str_ok (s : GCstr) : Prop :=
  str_wf s /\ 0 < str_len s /\ str_hash s = str_hash_of (content s) (str_len s).

Lemma str_hash_range s : str_ok s -> 0 <= str_hash s.
Proof.
  intros (_ & _ & ->). unfold str_hash_of. destruct (if _ <=? _ then _ else _) as [[a b] h].
  apply u32_range.
Qed.

Lemma content_eq_hash s1 s2 :
  str_ok s1 -> str_ok s2 -> content s1 = content s2 ->
  str_len s1 = str_len s2 /\ str_hash s1 = str_hash s2.
Proof.
  intros (W1 & _ & H1) (W2 & _ & H2) E.
  assert (str_len s1 = str_len s2) by (rewrite <- !length_content by done; by rewrite E).
  split; [done|]. by rewrite H1, H2, E, H.
Qed.

Definition interned (g : global_State) (o : positive) : Prop := o ∈ concat (strhash g).

Definition bucket_ok (g : global_State) (mask : Z) (h : list (list positive)) : Prop :=
  forall i c o, h !! i = Some c -> o ∈ c -> hash_of g o .& mask = Z.of_nat i.

Record str_inv (g : global_State) : Prop := {
  inv_mask : exists k, 0 <= k <= 32 /\ strmask g = 2 ^ k - 1;
  inv_len : Z.of_nat (length (strhash g)) = strmask g + 1;
  inv_nodup : NoDup (concat (strhash g));
  inv_ok : forall o, interned g o -> exists s, heap g !! o = Some s /\ str_ok s;
  inv_bucket : bucket_ok g (strmask g) (strhash g);
  inv_uniq : forall o1 o2 s1 s2, interned g o1 -> interned g o2 ->
    heap g !! o1 = Some s1 -> heap g !! o2 = Some s2 -> content s1 = content s2 -> o1 = o2;
  inv_num : strnum g = u32 (Z.of_nat (length (concat (strhash g))));
  inv_next : forall o, is_Some (heap g !! o) -> (o < next_id g)%positive;
}.

Lemma mask_range x k : 0 <= x -> 0 <= k -> 0 <= x .& (2 ^ k - 1) <= 2 ^ k - 1.
Proof. intros. rewrite land_ones_mod by done. pose proof (Z.mod_pos_bound x (2 ^ k)). lia. Qed.

(** *** Chains as buckets *)

Lemma elem_of_concat (h : list (list positive)) o :
  o ∈ concat h <-> exists i c, h !! i = Some c /\ o ∈ c.
Proof.
  rewrite list_elem_of_In, in_concat. split.
  - intros (c & Hc%list_elem_of_In & Ho%list_elem_of_In).
    apply list_elem_of_lookup in Hc as [i Hi]. eauto.
  - intros (i & c & Hi & Ho). exists c. rewrite <- !list_elem_of_In. split; [|done].
    by eapply list_elem_of_lookup_2.
Qed.

Lemma concat_insert (h : list (list positive)) i c c' :
  h !! i = Some c -> exists pre post, concat h = pre ++ c ++ post /\
    concat (<[i := c']> h) = pre ++ c' ++ post.
Proof.
  intros Hi. exists (concat (take i h)), (concat (drop (S i) h)). split.
  - rewrite <- (take_drop_middle h i c Hi) at 1. by rewrite concat_app.
  - rewrite insert_take_drop by (by eapply lookup_lt_Some). by rewrite concat_app.
Qed.

Lemma concat_push (h : list (list positive)) i c p :
  h !! i = Some c -> concat (<[i := p :: c]> h) ≡ₚ p :: concat h.
Proof.
  intros Hi. destruct (concat_insert h i c (p :: c) Hi) as (pre & post & -> & ->).
  simpl. symmetry. apply Permutation_middle.
Qed.

Lemma concat_perm (l1 l2 : list (list positive)) : l1 ≡ₚ l2 -> concat l1 ≡ₚ concat l2.
Proof.
  induction 1 as [|x l1 l2 _ IH|x y l|l1 l2 l3 _ IH1 _ IH2]; simpl; [done|by rewrite IH| |by rewrite IH1].
  rewrite !app_assoc. f_equiv. apply Permutation_app_comm.
Qed.

Lemma concat_replicate_nil n : concat (replicate n (@nil positive)) = [].
Proof. induction n; simpl; auto. Qed.

(** *** Resizing *)

Section Rehash.
Variables (g : global_State) (k : Z).
Hypothesis Hk : 0 <= k.
Let m := 2 ^ k - 1.

Definition rehash_ok (h : list (list positive)) (done : list positive) : Prop :=
  Z.of_nat (length h) = m + 1 /\ bucket_ok g m h /\ concat h ≡ₚ done.

Lemma str_reinsert_ok h seen p :
  0 <= hash_of g p -> rehash_ok h seen -> rehash_ok (str_reinsert g m h p) (p :: seen).
Proof using Hk.
  intros Hp (Hl & Hb & Hc). unfold str_reinsert.
  pose proof (mask_range (hash_of g p) k Hp Hk) as Hr. fold m in Hr.
  destruct (lookup_lt_is_Some_2 h (Z.to_nat (hash_of g p .& m))) as [c Ec]; [lia|].
  rewrite Ec. cbn [from_option id]. split_and!.
  - by rewrite length_insert.
  - intros i c' o Hi Ho. destruct (decide (i = Z.to_nat (hash_of g p .& m))) as [->|Hne].
    + rewrite list_lookup_insert_eq in Hi by (by eapply lookup_lt_Some). injection Hi as <-.
      apply elem_of_cons in Ho as [->|Ho]; [lia|]. by eapply Hb.
    + rewrite list_lookup_insert_ne in Hi by done. by eapply Hb.
  - by rewrite concat_push, Hc.
Qed.

Lemma str_rechain_ok c : forall h seen,
  Forall (fun p => 0 <= hash_of g p) c -> rehash_ok h seen ->
  rehash_ok (fold_left (str_reinsert g m) c h) (rev c ++ seen).
Proof using Hk.
  induction c as [|p c IH]; intros h seen Hc Hh; [done|].
  inversion_clear Hc. cbn [fold_left rev]. rewrite <- app_assoc.
  apply IH; [done|]. by apply str_reinsert_ok.
Qed.

Lemma str_retable_ok t : forall h seen,
  Forall (fun p => 0 <= hash_of g p) (concat t) -> rehash_ok h seen ->
  exists seen', seen' ≡ₚ concat t ++ seen /\
  rehash_ok (fold_left (fun nh c => fold_left (str_reinsert g m) c nh) t h) seen'.
Proof using Hk.
  induction t as [|c t IH]; intros h seen Ht Hh; [by exists seen|].
  cbn [concat fold_left] in *. apply Forall_app in Ht as [H1 H2].
  destruct (IH _ _ H2 (str_rechain_ok c h seen H1 Hh)) as (seen' & E & H).
  exists seen'. split; [|done]. rewrite E, <- app_assoc, <- (Permutation_rev c).
  rewrite !app_assoc. f_equiv. apply Permutation_app_comm.
Qed.

Lemma str_rehash_ok :
  Forall (fun p => 0 <= hash_of g p) (concat (strhash g)) ->
  rehash_ok (str_rehash g m) (concat (strhash g)).
Proof using Hk.
  intros Hh.
  assert (Hr : concat (rev (strhash g)) ≡ₚ concat (strhash g)) by (apply concat_perm; symmetry; apply Permutation_rev).
  destruct (str_retable_ok (rev (strhash g)) (replicate (Z.to_nat (m + 1)) []) [])
    as (seen & E & Ho).
  - by rewrite Hr.
  - split_and!.
    + rewrite length_replicate. subst m. lia.
    + intros i c o (-> & _)%lookup_replicate Ho. by apply elem_of_nil in Ho.
    + by rewrite concat_replicate_nil.
  - destruct Ho as (H1 & H2 & H3). split_and!; [done..|].
    by rewrite H3, E, Hr, app_nil_r.
Qed.
End Rehash.

Lemma interned_hash g : str_inv g -> Forall (fun p => 0 <= hash_of g p) (concat (strhash g)).
Proof.
  intros I. apply Forall_forall. intros o Ho. destruct (inv_ok g I o (proj2 (list_elem_of_In _ _) Ho)) as (s & E & Hs).
  unfold hash_of. rewrite E. by apply str_hash_range.
Qed.

Lemma lj_str_resize_inv g k :
  str_inv g -> 0 <= k <= 32 ->
  str_inv (lj_str_resize g (2 ^ k - 1)) /\
  heap (lj_str_resize g (2 ^ k - 1)) = heap g /\
  concat (strhash (lj_str_resize g (2 ^ k - 1))) ≡ₚ concat (strhash g).
Proof.
  intros I Hk. unfold lj_str_resize. destruct (_ || _); [done|].
  destruct (str_rehash_ok g k ltac:(lia) (interned_hash g I)) as (Hl & Hb & Hc).
  split_and!; [|done..].
  assert (Hi : forall o, interned (set_strhash g (str_rehash g (2 ^ k - 1)) (2 ^ k - 1)) o <-> interned g o).
  { intros o. unfold interned. simpl. by rewrite Hc. }
  constructor; simpl; try setoid_rewrite Hi.
  - eauto.
  - done.
  - rewrite Hc. apply I.
  - apply I.
  - apply Hb.
  - apply I.
  - rewrite Hc. apply I.
  - apply I.
Qed.

(** *** Interning *)

Definition content_of (g : global_State) (o : positive) : option (list Z) := content <$> heap g !! o.

Definition eq_correct (eq : list Z -> list Z -> Z -> bool) (str : list Z) (len : Z) : Prop :=
  forall b, bytes b -> len <= Z.of_nat (length b) ->
  eq str b len = bool_decide (take (Z.to_nat len) str = take (Z.to_nat len) b).

Lemma str_eq_content str len s eq :
  eq_correct eq str len -> len <= Z.of_nat (length str) -> 0 <= len -> str_wf s ->
  (str_len s =? len) && eq str (str_data s) len = true <-> content s = take (Z.to_nat len) str.
Proof.
  intros Heq Hl H0 W. rewrite andb_true_iff, Z.eqb_eq. pose proof (length_content s W) as Lc.
  destruct W as (Hb & Hr & Hd). split.
  - intros [<- E]. rewrite Heq, bool_decide_eq_true in E by done. by rewrite E.
  - intros E. assert (El : str_len s = len).
    { rewrite <- Lc, E, length_take. lia. }
    split; [done|]. subst len. rewrite Heq, bool_decide_eq_true by done. by rewrite <- E.
Qed.

Lemma str_lookup_spec g str len eq :
  eq_correct eq str len -> len <= Z.of_nat (length str) -> 0 <= len ->
  forall c, (forall o, o ∈ c -> exists s, heap g !! o = Some s /\ str_ok s) ->
  match str_lookup g eq str len c with
  | Some (o, s) => o ∈ c /\ heap g !! o = Some s /\ content s = take (Z.to_nat len) str
  | None => forall o, o ∈ c -> content_of g o <> Some (take (Z.to_nat len) str)
  end.
Proof.
  intros Heq Hl H0. induction c as [|o c IH]; intros Hc.
  - intros o Ho. by apply elem_of_nil in Ho.
  - cbn [str_lookup]. destruct (Hc o) as (s & E & Hs); [by left|]. rewrite E.
    pose proof (str_eq_content str len s eq Heq Hl H0 (proj1 Hs)) as Hcont.
    destruct (_ && _).
    + split_and!; [by left|done|by apply Hcont].
    + specialize (IH ltac:(intros; apply Hc; by right)).
      destruct (str_lookup g eq str len c) as [[o' s']|].
      * destruct IH as (H1 & H2 & H3). split_and!; [by right|done..].
      * intros o' [->|Ho']%elem_of_cons; [|by apply IH].
        unfold content_of. rewrite E. simpl. intros [= X]. by apply Hcont in X.
Qed.

Lemma hash_mask g o s : heap g !! o = Some s -> hash_of g o = str_hash s.
Proof. unfold hash_of. by intros ->. Qed.

(** Changing the mark of a string does not concern the table. *)
Lemma str_inv_marked g o s m :
  str_inv g -> heap g !! o = Some s ->
  str_inv (set_heap g (<[o := set_marked s m]> (heap g))).
Proof.
  intros I E. set (g' := set_heap _ _).
  assert (Hh : forall o', hash_of g' o' = hash_of g o').
  { intros o'. unfold hash_of. simpl. destruct (decide (o = o')) as [<-|Hne].
    - by rewrite lookup_insert_eq, E.
    - by rewrite lookup_insert_ne. }
  assert (Hs : forall o' s', heap g' !! o' = Some s' ->
     exists s'', heap g !! o' = Some s'' /\ content s'' = content s').
  { intros o' s'. simpl. destruct (decide (o = o')) as [<-|Hne].
    - rewrite lookup_insert_eq. intros [= <-]. by exists s.
    - rewrite lookup_insert_ne by done. eauto. }
  constructor; try apply I.
  - intros o' Ho'. destruct (inv_ok g I o' Ho') as (s' & E' & Hok).
    simpl. destruct (decide (o = o')) as [<-|Hne].
    + rewrite lookup_insert_eq. eexists. split; [done|]. rewrite E in E'. by injection E' as ->.
    + rewrite lookup_insert_ne by done. eauto.
  - intros i c o' Hi Ho'. rewrite Hh. by apply (inv_bucket g I i c).
  - intros o1 o2 s1 s2 I1 I2 (s1' & E1 & C1)%Hs (s2' & E2 & C2)%Hs Ec.
    apply (inv_uniq g I o1 o2 s1' s2'); [done..|congruence].
  - intros o' [s' (s'' & E' & _)%Hs]. apply (inv_next g I). eauto.
Qed.

Lemma content_of_marked g o s m o' :
  heap g !! o = Some s ->
  content_of (set_heap g (<[o := set_marked s m]> (heap g))) o' = content_of g o'.
Proof.
  intros E. unfold content_of. simpl. destruct (decide (o = o')) as [<-|Hne].
  - by rewrite lookup_insert_eq, E.
  - by rewrite lookup_insert_ne.
Qed.

(** Linking a new object into its chain. *)
Definition str_link (g : global_State) (s : GCstr) : global_State :=
  let h := Z.to_nat (str_hash s .& strmask g) in
  mkG (<[h := next_id g :: default [] (strhash g !! h)]> (strhash g)) (strmask g)
    (u32 (strnum g + 1)) (gc_state g) (gc_sweepstr g) (currentwhite g)
    (<[next_id g := s]> (heap g)) (Pos.succ (next_id g)).

Lemma str_link_inv g s :
  str_inv g -> str_ok s -> (forall o, interned g o -> content_of g o <> Some (content s)) ->
  str_inv (str_link g s) /\
  (forall o, interned (str_link g s) o <-> o = next_id g \/ interned g o) /\
  (forall o, interned g o -> heap (str_link g s) !! o = heap g !! o).
Proof.
  intros I Hs Hnew. destruct (inv_mask g I) as (k & Hk & Em).
  pose proof (mask_range (str_hash s) k (str_hash_range s Hs) ltac:(lia)) as Hr.
  rewrite <- Em in Hr. pose proof (inv_len g I) as Hlen.
  set (h := Z.to_nat (str_hash s .& strmask g)).
  destruct (lookup_lt_is_Some_2 (strhash g) h) as [c Ec]; [lia|].
  assert (Hc : concat (strhash (str_link g s)) ≡ₚ next_id g :: concat (strhash g)).
  { unfold str_link. fold h. rewrite Ec. by apply concat_push. }
  assert (Hfresh : forall o, interned g o -> o <> next_id g).
  { intros o Ho ->. destruct (inv_ok g I _ Ho) as (s' & E & _).
    destruct (Pos.lt_irrefl (next_id g)). apply (inv_next g I). eauto. }
  assert (Hi : forall o, interned (str_link g s) o <-> o = next_id g \/ interned g o).
  { intros o. unfold interned at 1. by rewrite Hc, elem_of_cons. }
  assert (Hh : forall o, interned g o -> heap (str_link g s) !! o = heap g !! o).
  { intros o Ho. simpl. rewrite lookup_insert_ne; [done|]. intros <-. by apply (Hfresh _ Ho). }
  split_and!; [|done..]. constructor.
  - by exists k.
  - simpl. by rewrite length_insert.
  - rewrite Hc. apply list.NoDup_cons. split; [|apply I]. intros X. by apply (Hfresh _ X).
  - intros o [->|Ho]%Hi.
    + exists s. simpl. by rewrite lookup_insert_eq.
    + rewrite Hh by done. by apply I.
  - intros i c' o Hi' Ho. cbn [strhash strmask str_link] in *. fold h in Hi'. rewrite Ec in Hi'.
    destruct (decide (o = next_id g)) as [->|Hne].
    + rewrite (hash_mask _ _ s) by (simpl; by rewrite lookup_insert_eq).
      destruct (decide (i = h)) as [->|Hih]; [lia|]. rewrite list_lookup_insert_ne in Hi' by done.
      destruct (Hfresh (next_id g)); [|done]. apply elem_of_concat. eauto.
    + assert (Hin : exists c0, strhash g !! i = Some c0 /\ o ∈ c0).
      { destruct (decide (i = h)) as [->|Hih].
        - rewrite list_lookup_insert_eq in Hi' by (by eapply lookup_lt_Some).
          injection Hi' as <-. exists c. apply elem_of_cons in Ho as [->|Ho]; done.
        - rewrite list_lookup_insert_ne in Hi' by done. eauto. }
      destruct Hin as (c0 & H1 & H2). assert (Ho' : interned g o) by (apply elem_of_concat; eauto).
      pose proof (inv_bucket g I i c0 o H1 H2) as Hb. unfold hash_of in *. by rewrite Hh.
  - intros o1 o2 s1 s2 [->|H1]%Hi [->|H2]%Hi E1 E2 Ec'; [done| | |].
    + rewrite Hh in E2 by done. simpl in E1. rewrite lookup_insert_eq in E1. injection E1 as <-.
      destruct (Hnew _ H2). unfold content_of. rewrite E2. simpl. by rewrite Ec'.
    + rewrite Hh in E1 by done. simpl in E2. rewrite lookup_insert_eq in E2. injection E2 as <-.
      destruct (Hnew _ H1). unfold content_of. rewrite E1. simpl. by rewrite Ec'.
    + rewrite Hh in E1, E2 by done. by apply (inv_uniq g I o1 o2 s1 s2).
  - rewrite Hc. simpl. rewrite (inv_num g I). wsolve.
  - intros o. simpl. destruct (decide (o = next_id g)) as [->|Hne]; [lia|].
    rewrite lookup_insert_ne by done. intros Ho. pose proof (inv_next g I o Ho). lia.
Qed.

Lemma grow_mask k :
  0 <= k <= 32 -> exists k', 0 <= k' <= 32 /\ u32 (u32 ((2 ^ k - 1) << 1) + 1) = 2 ^ k' - 1.
Proof.
  intros Hk. rewrite Z.shiftl_mul_pow2 by lia. destruct (Z.eq_dec k 32) as [->|].
  - exists 32. split; [lia|done].
  - exists (k + 1). split; [lia|]. rewrite Z.pow_add_r by lia.
    assert (1 <= 2 ^ k <= 2 ^ 31).
    { split; [lia|]. apply Z.pow_le_mono_r; lia. }
    wsolve.
Qed.

Lemma eq_correct_of str len addr :
  bytes str -> len <= Z.of_nat (length str) -> 0 < len < 2 ^ 31 ->
  eq_correct (if (addr + len - 1) .& (LJ_PAGESIZE - 1) <=? LJ_PAGESIZE - 4
              then str_eq_fast else str_eq_slow) str len.
Proof.
  intros Hs Hl Hr b Hb Hlb. destruct (str_eq_fast_slow str b len) as [E1 E2]; try done.
  by destruct (_ <=? _).
Qed.

Lemma new_str_ok g str len :
  bytes str -> len <= Z.of_nat (length str) -> 0 < len < LJ_MAX_STR ->
  let s := mkGCstr (curwhite g) 0 (str_hash_of str len) len (take (Z.to_nat len) str ++ [0]) in
  str_ok s /\ content s = take (Z.to_nat len) str.
Proof.
  intros Hs Hl Hr s. assert (Hc : content s = take (Z.to_nat len) str).
  { unfold content. simpl. rewrite take_app_le by (rewrite length_take; lia).
    by rewrite take_take, Nat.min_id. }
  split; [|done]. split_and!; simpl; try lia.
  - split_and!; simpl; try lia.
    + apply Forall_app. split; [by apply bytes_take|]. constructor; [done|constructor].
    + rewrite length_app, length_take. simpl. lia.
  - by rewrite Hc, str_hash_of_take by lia.
Qed.

(** The strings in the table, by their contents. *)
Definition has_string (g : global_State) (o : positive) (s : list Z) : Prop :=
  interned g o /\ content_of g o = Some s.

(** What a call that returns object [o] for the bytes [cont] guarantees: the
    table stays consistent, [o] holds [cont], no string moves, only [o] can be
    new, and it is new only when no object held [cont]. *)
Definition intern_post (g : global_State) (cont : list Z) (o : positive) (g' : global_State) : Prop :=
  str_inv g' /\ has_string g' o cont /\
  (forall o' s, has_string g o' s -> has_string g' o' s) /\
  (forall o' s, has_string g' o' s -> o' <> o -> has_string g o' s) /\
  ((exists o', has_string g o' cont) -> interned g o).

Lemma intern_found g cont o sx :
  str_inv g -> has_string g o cont -> heap g !! o = Some sx ->
  intern_post g cont o (if isdead g sx then set_heap g (<[o := flipwhite sx]> (heap g)) else g).
Proof.
  intros I Hhas E. pose proof Hhas as [Hi _]. destruct (isdead g sx); [|by split_and!].
  unfold flipwhite. assert (Hiff : forall o' s', has_string (set_heap g
    (<[o:=set_marked sx (str_marked sx .^ LJ_GC_WHITES)]> (heap g))) o' s' <-> has_string g o' s').
  { intros o' s'. unfold has_string. by rewrite content_of_marked. }
  unfold intern_post. setoid_rewrite Hiff. split_and!; [by apply str_inv_marked|done..].
Qed.

Lemma intern_linked g cont s :
  str_inv g -> str_ok s -> content s = cont ->
  (forall o, interned g o -> content_of g o <> Some cont) ->
  intern_post g cont (next_id g) (str_link g s).
Proof.
  intros I Hok Hcont Hnone. destruct (str_link_inv g s I Hok) as (I' & Hi & Hh).
  { intros o Ho. rewrite Hcont. by apply Hnone. }
  split_and!; [done| | | |].
  - split; [apply Hi; by left|]. unfold content_of. simpl. rewrite lookup_insert_eq. simpl.
    by rewrite Hcont.
  - intros o' s' [H1 H2]. split; [apply Hi; by right|]. unfold content_of. by rewrite Hh.
  - intros o' s' [[->|H1]%Hi H2] Hne'; [done|]. split; [done|].
    unfold content_of in *. by rewrite <- Hh.
  - intros (o' & H1 & H2). by destruct (Hnone o' H1).
Qed.

Lemma intern_resize g cont o g' k :
  0 <= k <= 32 -> intern_post g cont o g' -> intern_post g cont o (lj_str_resize g' (2 ^ k - 1)).
Proof.
  intros Hk (I & H1 & H2 & H3 & H4). destruct (lj_str_resize_inv g' k I Hk) as (R1 & R2 & R3).
  assert (Hiff : forall o' s', has_string (lj_str_resize g' (2 ^ k - 1)) o' s' <-> has_string g' o' s').
  { intros o' s'. unfold has_string, interned, content_of. by rewrite R2, R3. }
  unfold intern_post. setoid_rewrite Hiff. by split_and!.
Qed.

(** When the chain of its bucket does not hold a string, the table does not. *)
Lemma not_in_chain g s c :
  str_inv g -> str_ok s -> strhash g !! Z.to_nat (str_hash s .& strmask g) = Some c ->
  (forall o, o ∈ c -> content_of g o <> Some (content s)) ->
  forall o, interned g o -> content_of g o <> Some (content s).
Proof.
  intros I Hok Ec L o Ho Econt. unfold content_of in Econt.
  destruct (inv_ok g I o Ho) as (s' & E' & Hok'). rewrite E' in Econt. injection Econt as Econt.
  apply (L o); [|unfold content_of; rewrite E'; simpl; by rewrite Econt].
  apply elem_of_concat in Ho as (i & c' & Hi & Hoc).
  pose proof (inv_bucket g I i c' o Hi Hoc) as B. rewrite (hash_mask g o s' E') in B.
  destruct (content_eq_hash s' s Hok' Hok Econt) as [_ Eh].
  rewrite <- Eh, B, Nat2Z.id, Hi in Ec. by injection Ec as ->.
Qed.

Lemma lj_str_new_ok g addr str lenx :
  str_inv g -> bytes str -> 0 <= lenx <= Z.of_nat (length str) ->
  match lj_str_new g addr str lenx with
  | Err e => e = LJ_ERR_STROV /\ LJ_MAX_STR <= lenx
  | Ok (strempty, g') => lenx = 0 /\ g' = g
  | Ok (strobj o, g') =>
      0 < lenx < LJ_MAX_STR /\ intern_post g (take (Z.to_nat lenx) str) o g'
  end.
Proof.
  intros I Hs Hl. unfold lj_str_new. destruct (Z.leb_spec LJ_MAX_STR lenx) as [|Hmax]; [done|].
  assert (u32 lenx = lenx) as -> by (apply u32_id; unfold LJ_MAX_STR in *; widths; lia).
  destruct (Z.eqb_spec lenx 0) as [|Hne]; [done|].
  set (eq := if _ <=? _ then str_eq_fast else str_eq_slow).
  assert (Heq : eq_correct eq str lenx).
  { apply eq_correct_of; try done; unfold LJ_MAX_STR in *; lia. }
  set (h := str_hash_of str lenx). set (cont := take (Z.to_nat lenx) str) in *.
  destruct (inv_mask g I) as (k & Hk & Em).
  destruct (new_str_ok g str lenx Hs) as [Hok Hcont]; [lia..|]. fold h in Hok, Hcont. fold cont in Hcont.
  set (s := mkGCstr _ _ h lenx _) in *.
  pose proof (mask_range h k (str_hash_range s Hok) ltac:(lia)) as Hr. rewrite <- Em in Hr.
  pose proof (inv_len g I) as Hlen.
  destruct (lookup_lt_is_Some_2 (strhash g) (Z.to_nat (h .& strmask g))) as [c Ec]; [lia|].
  rewrite Ec. cbn [from_option id].
  assert (Hin : forall o, o ∈ c -> interned g o) by (intros; apply elem_of_concat; eauto).
  pose proof (str_lookup_spec g str lenx eq Heq ltac:(lia) ltac:(lia) c
    ltac:(intros; by apply (inv_ok g I), Hin)) as L.
  destruct (str_lookup g eq str lenx c) as [[o sx]|]; (split; [lia|]).
  - destruct L as (Ho & E & Ecx). apply intern_found; try done.
    split; [by apply Hin|]. unfold content_of. rewrite E. simpl. by rewrite Ecx.
  - assert (P : intern_post g cont (next_id g) (str_link g s)).
    { apply intern_linked; try done. rewrite <- Hcont. apply (not_in_chain g s c); try done.
      by rewrite Hcont. }
    unfold str_link in P. cbn [str_hash s] in P. rewrite Ec in P. cbn [from_option id] in P.
    cbn [strmask]. destruct (strmask g <? strnum g); [|done].
    destruct (grow_mask k Hk) as (k' & Hk' & Eg). rewrite Em, Eg, <- Em. by apply intern_resize.
Qed.

(** C4: interning.  From a consistent table, [lj_str_new] fails exactly for a
    too long string, gives the preallocated object for the empty one, and
    otherwise an object holding the requested bytes, whichever of its two
    comparison loops the address selects.  The table stays consistent (in
    particular no two objects hold the same string), all strings stay where
    they were, and a new object appears only when no object held the string. *)
Theorem lj_str_new_interns g addr str lenx :
  str_inv g -> bytes str -> 0 <= lenx <= Z.of_nat (length str) ->
  match lj_str_new g addr str lenx with
  | Err e => e = LJ_ERR_STROV /\ LJ_MAX_STR <= lenx
  | Ok (strempty, g') => lenx = 0 /\ g' = g
  | Ok (strobj o, g') =>
      0 < lenx < LJ_MAX_STR /\ intern_post g (take (Z.to_nat lenx) str) o g'
  end.
Proof. apply lj_str_new_ok. Qed.

(** The table [lua_newstate] starts with: [strmask] is [~0] before the first
    [lj_str_resize(L, LJ_MIN_STRTAB-1)], which finds nothing to rehash. *)
Definition str_table_init : global_State :=
  lj_str_resize (mkG [] (2 ^ 32 - 1) 0 GCSpause 0 (1 .| 32) ∅ 1) (LJ_MIN_STRTAB - 1).

Lemma str_table_init_inv : str_inv str_table_init.
Proof.
  assert (Hn : forall o, ~ interned str_table_init o).
  { intros o Ho. by apply elem_of_nil in Ho. }
  constructor; simpl.
  - exists 8. split; [lia|done].
  - done.
  - constructor.
  - intros o Ho. by destruct (Hn o).
  - intros i c o Hi Ho. destruct (Hn o). apply elem_of_concat. eauto.
  - intros o1 o2 s1 s2 Ho. by destruct (Hn o1).
  - done.
  - intros o [s Hs]. by rewrite lookup_empty in Hs.
Qed.

Lemma lj_str_new_interns_witness :
  exists g o, lj_str_new str_table_init 4096 [104; 105] 2 = Ok (strobj o, g) /\
    has_string g o [104; 105] /\ str_inv g.
Proof.
  pose proof (lj_str_new_interns str_table_init 4096 [104; 105] 2 str_table_init_inv
    ltac:(repeat (constructor; [widths; lia|]); constructor) ltac:(simpl; lia)) as H.
  destruct (lj_str_new str_table_init 4096 [104; 105] 2) as [[[|o] g]|e].
  - destruct H as [H _]. discriminate H.
  - exists g, o. destruct H as (_ & H1 & H2 & _). by split_and!.
  - destruct H as [_ H]. unfold LJ_MAX_STR in H. lia.
Defined.

(** Resizing the string table (growing or shrinking) to any power of two
    keeps exactly the same strings and leaves the table consistent; during
    the string sweep, and beyond the size limit, it does nothing. *)
Theorem lj_str_resize_keeps g k :
  str_inv g -> 0 <= k <= 32 ->
  let g' := lj_str_resize g (2 ^ k - 1) in
  str_inv g' /\ (forall o s, has_string g' o s <-> has_string g o s) /\
  strmask g' = (if bool_decide (gc_state g = GCSsweepstring) || (26 <=? k) then strmask g else 2 ^ k - 1).
Proof.
  intros I Hk g'. destruct (lj_str_resize_inv g k I Hk) as (H1 & H2 & H3). fold g' in H1, H2, H3.
  split_and!; [done| |].
  - intros o s. unfold has_string, interned, content_of. by rewrite H2, H3.
  - subst g'. unfold lj_str_resize.
    replace (LJ_MAX_STRTAB - 1 <=? 2 ^ k - 1) with (26 <=? k); [by destruct (_ || _)|].
    change LJ_MAX_STRTAB with (2 ^ 26). destruct (Z.leb_spec 26 k) as [H|H].
    + symmetry. apply Z.leb_le. pose proof (Z.pow_le_mono_r 2 26 k). lia.
    + symmetry. apply Z.leb_gt. pose proof (Z.pow_lt_mono_r 2 k 26). lia.
Qed.

Lemma lj_str_resize_keeps_witness : str_inv (lj_str_resize str_table_init (2 ^ 3 - 1)).
Proof. apply (lj_str_resize_keeps str_table_init 3 str_table_init_inv). lia. Defined.

(** *** Sweeping *)

Definition is_live (g : global_State) (s : GCstr) : bool :=
  nz ((str_marked s .^ LJ_GC_WHITES) .& otherwhite g).

(** The survivors of a chain. *)
Definition liveb (g : global_State) (o : positive) : bool :=
  match heap g !! o with Some s => is_live g s | None => true end.
Definition live_chain (g : global_State) (c : list positive) : list positive :=
  filter (fun o => liveb g o = true) c.

Lemma live_chain_ext g1 g2 c :
  currentwhite g1 = currentwhite g2 -> (forall o, o ∈ c -> heap g1 !! o = heap g2 !! o) ->
  live_chain g1 c = live_chain g2 c.
Proof.
  intros Hw. unfold live_chain. induction c as [|o c IH]; intros Hc; [done|].
  assert (E : liveb g1 o = liveb g2 o).
  { unfold liveb, is_live, otherwhite. by rewrite Hw, Hc by (by left). }
  rewrite !filter_cons, E, IH; [done|]. intros o' Ho'. apply Hc. by right.
Qed.

Definition same_table (g g' : global_State) : Prop :=
  strhash g' = strhash g /\ strmask g' = strmask g /\ gc_state g' = gc_state g /\
  gc_sweepstr g' = gc_sweepstr g /\ currentwhite g' = currentwhite g /\ next_id g' = next_id g.

Lemma gc_sweep_spec c : forall g,
  NoDup c -> (forall o, o ∈ c -> is_Some (heap g !! o)) ->
  exists g', gc_sweep g c = (live_chain g c, g') /\ same_table g g' /\
  (is_u32 (strnum g) ->
   strnum g' = u32 (strnum g - Z.of_nat (length c) + Z.of_nat (length (live_chain g c)))) /\
  (forall o, o ∉ c -> heap g' !! o = heap g !! o) /\
  (forall o, o ∈ c -> heap g' !! o = if liveb g o then makewhite g <$> heap g !! o else None).
Proof.
  induction c as [|o c IH]; intros g Hnd Hc.
  - exists g. split_and!; try done.
    + intros Hu. simpl. by rewrite Z.sub_0_r, Z.add_0_r, u32_id.
    + intros o Ho. by apply elem_of_nil in Ho.
  - apply list.NoDup_cons in Hnd as [Hnin Hnd].
    destruct (Hc o) as [s E]; [by left|]. cbn [gc_sweep]. rewrite E. fold (is_live g s).
    assert (El : liveb g o = is_live g s) by (unfold liveb; by rewrite E).
    set (g1 := if is_live g s then set_heap g (<[o := makewhite g s]> (heap g)) else lj_str_free g o).
    assert (H1 : forall o', o' <> o -> heap g1 !! o' = heap g !! o').
    { intros o' Ho'. unfold g1. destruct (is_live g s); simpl.
      - by rewrite lookup_insert_ne.
      - by rewrite lookup_delete_ne. }
    assert (Ht : same_table g g1) by (unfold g1; by destruct (is_live g s)).
    assert (Hne : forall o', o' ∈ c -> o' <> o) by (intros o' Ho' ->; done).
    destruct (IH g1 Hnd) as (g' & R & T & N & O & I).
    { intros o' Ho'. rewrite H1 by auto. apply Hc. by right. }
    assert (Ew : currentwhite g1 = currentwhite g) by apply Ht.
    assert (Elc : live_chain g1 c = live_chain g c).
    { apply live_chain_ext; [done|]. intros o' Ho'. by rewrite H1 by auto. }
    rewrite Elc in R, N.
    exists g'. split_and!.
    + unfold live_chain at 1. rewrite filter_cons. fold (live_chain g c). rewrite El.
      subst g1. destruct (is_live g s); by rewrite R.
    + destruct T as (?&?&?&?&?&?), Ht as (?&?&?&?&?&?). split_and!; congruence.
    + intros Hu. assert (Hu1 : is_u32 (strnum g1)).
      { unfold g1. destruct (is_live g s); [done|]. apply u32_range. }
      unfold live_chain. rewrite filter_cons. fold (live_chain g c). rewrite El, N by done.
      unfold g1. destruct (is_live g s); simpl; wsolve.
    + intros o' Ho'. apply not_elem_of_cons in Ho' as [Hn Hn']. rewrite O by done. by apply H1.
    + intros o' [->|Ho']%elem_of_cons.
      * rewrite O by done. rewrite El, E. unfold g1. destruct (is_live g s); simpl.
        -- by rewrite lookup_insert_eq.
        -- by rewrite lookup_delete_eq.
      * rewrite I by done. unfold liveb, is_live, makewhite, otherwhite, curwhite.
        by rewrite Ew, H1 by auto.
Qed.

Lemma live_chain_sub g c : live_chain g c `sublist_of` c.
Proof. apply sublist_filter. Qed.

Lemma elem_of_live_chain g c o : o ∈ live_chain g c <-> liveb g o = true /\ o ∈ c.
Proof. unfold live_chain. by rewrite list_elem_of_filter. Qed.

(** A string survives when it is not dead or carries the fixed bit (which
    [currentwhite] has, too). *)
Lemma is_live_spec g s w :
  currentwhite g = w .| 32 -> w = 1 \/ w = 2 -> is_u8 (str_marked s) ->
  is_live g s = negb (isdead g s) || Z.testbit (str_marked s) 5.
Proof.
  intros Hw Hc Hm. unfold is_live, isdead, otherwhite. rewrite Hw. clear Hw.
  assert (H : forallb (fun m => let m := Z.of_nat m in
    eqb (nz ((m .^ LJ_GC_WHITES) .& ((1 .| 32) .^ LJ_GC_WHITES)))
        (negb (nz (m .& ((1 .| 32) .^ LJ_GC_WHITES) .& LJ_GC_WHITES)) || Z.testbit m 5) &&
    eqb (nz ((m .^ LJ_GC_WHITES) .& ((2 .| 32) .^ LJ_GC_WHITES)))
        (negb (nz (m .& ((2 .| 32) .^ LJ_GC_WHITES) .& LJ_GC_WHITES)) || Z.testbit m 5))
    (seq 0 256) = true) by by vm_compute.
  rewrite forallb_forall in H. specialize (H (Z.to_nat (str_marked s))).
  cbv zeta in H. rewrite Z2Nat.id in H by (widths; lia).
  rewrite andb_true_iff, !eqb_true_iff in H.
  assert (Hin : In (Z.to_nat (str_marked s)) (seq 0 256)) by (apply in_seq; widths; lia).
  by destruct (H Hin), Hc as [-> | ->].
Qed.

(** What one step does, field by field. *)
Lemma sweep_step_fields g c :
  str_inv g -> 0 <= gc_sweepstr g -> strhash g !! Z.to_nat (gc_sweepstr g) = Some c ->
  let g' := gc_sweepstring_step g in
  strhash g' = <[Z.to_nat (gc_sweepstr g) := live_chain g c]> (strhash g) /\
  strmask g' = strmask g /\ next_id g' = next_id g /\
  strnum g' = u32 (strnum g - Z.of_nat (length c) + Z.of_nat (length (live_chain g c))) /\
  gc_sweepstr g' = gc_sweepstr g + 1 /\
  gc_state g' = (if strmask g <=? gc_sweepstr g then GCSsweep else gc_state g) /\
  (forall o, heap g' !! o = if bool_decide (o ∈ c)
    then if liveb g o then makewhite g <$> heap g !! o else None else heap g !! o).
Proof.
  intros I Hi Ec. unfold gc_sweepstring_step. rewrite Ec. cbn [from_option id].
  destruct (concat_insert _ _ c c Ec) as (pre & post & Epp & _).
  pose proof (inv_nodup g I) as Hnd. rewrite Epp in Hnd.
  apply list.NoDup_app in Hnd as (_ & _ & [Hndc _]%list.NoDup_app).
  destruct (gc_sweep_spec c g Hndc) as (g1 & R & T & N & O & L).
  { intros o Ho. destruct (inv_ok g I o) as (s & E & _); [apply elem_of_concat|]; eauto. }
  rewrite R. destruct T as (T1 & T2 & T3 & T4 & T5 & T6).
  rewrite (inv_num g I) in *. specialize (N (u32_range _)). simpl. rewrite T1, T2, T3.
  split_and!; try done.
  - destruct (Z.leb_spec (strmask g) (gc_sweepstr g)), (Z.ltb_spec (strmask g) (gc_sweepstr g + 1));
      lia || done.
  - intros o. case_bool_decide; auto.
Qed.

Section SweepStep.
Variables (g : global_State) (c : list positive).
Hypothesis (I : str_inv g) (Hi : 0 <= gc_sweepstr g).
Hypothesis Ec : strhash g !! Z.to_nat (gc_sweepstr g) = Some c.
Let g' := gc_sweepstring_step g.

Lemma sweep_interned o : interned g' o <-> interned g o /\ (o ∈ c -> liveb g o = true).
Proof using I Hi Ec.
  destruct (sweep_step_fields g c I Hi Ec) as (Eh & _). unfold interned, g'. rewrite Eh.
  destruct (concat_insert _ _ c (live_chain g c) Ec) as (pre & post & Epp & Epp').
  pose proof (inv_nodup g I) as Hnd. rewrite Epp in Hnd.
  apply list.NoDup_app in Hnd as (_ & Hpre & [_ [Hpost _]]%list.NoDup_app).
  rewrite Epp, Epp', !elem_of_app, elem_of_live_chain.
  specialize (Hpre o). specialize (Hpost o). rewrite elem_of_app in Hpre.
  destruct (decide (o ∈ c)); tauto.
Qed.

Lemma sweep_bucket o : interned g o -> (hash_of g o .& strmask g = gc_sweepstr g <-> o ∈ c).
Proof using I Hi Ec.
  intros Ho. split; [|intros Hoc; pose proof (inv_bucket g I _ _ _ Ec Hoc); lia].
  intros Hb. apply elem_of_concat in Ho as (j & c' & Hj & Hoc').
  pose proof (inv_bucket g I _ _ _ Hj Hoc') as B. pose proof Ec as Ec'.
  rewrite Hb in B. rewrite B, Nat2Z.id, Hj in Ec'. by injection Ec' as <-.
Qed.

Lemma sweep_heap_back o s' :
  heap g' !! o = Some s' -> exists s, heap g !! o = Some s /\
    content s' = content s /\ str_hash s' = str_hash s.
Proof using I Hi Ec.
  destruct (sweep_step_fields g c I Hi Ec) as (_ & _ & _ & _ & _ & _ & Hh). unfold g'. rewrite Hh.
  case_bool_decide; [|eauto]. destruct (liveb g o); [|done].
  destruct (heap g !! o); [|done]. intros [= <-]. eauto.
Qed.

Lemma sweep_heap o s :
  interned g' o -> heap g !! o = Some s -> exists m, heap g' !! o = Some (set_marked s m).
Proof using I Hi Ec.
  destruct (sweep_step_fields g c I Hi Ec) as (_ & _ & _ & _ & _ & _ & Hh).
  intros [_ Ho]%sweep_interned E. unfold g'. rewrite Hh, E. case_bool_decide as Hoc.
  - rewrite Ho by done. eexists. done.
  - exists (str_marked s). by destruct s.
Qed.

Lemma sweep_inv : str_inv g'.
Proof using I Hi Ec.
  destruct (sweep_step_fields g c I Hi Ec) as (Eh & Em & En & Ecnt & _). fold g' in Eh, Em, En, Ecnt.
  destruct (concat_insert _ _ c (live_chain g c) Ec) as (pre & post & Epp & Epp').
  constructor.
  - rewrite Em. apply I.
  - rewrite Eh, length_insert, Em. apply I.
  - eapply sublist_NoDup; [apply (inv_nodup g I)|]. rewrite Eh, Epp, Epp'.
    apply sublist_app; [done|]. apply sublist_app; [apply live_chain_sub|done].
  - intros o Ho. destruct (inv_ok g I o) as (s & E & Hok); [by apply sweep_interned|].
    destruct (sweep_heap o s Ho E) as [m Em']. exists (set_marked s m). done.
  - intros j c' o Hj Ho. assert (Hio : interned g' o) by (apply elem_of_concat; eauto).
    destruct (inv_ok g I o) as (s & E & _); [by apply sweep_interned|].
    destruct (sweep_heap o s Hio E) as [m Em']. rewrite (hash_mask _ _ _ Em'), Em.
    change (str_hash (set_marked s m)) with (str_hash s). rewrite <- (hash_mask _ _ _ E).
    rewrite Eh in Hj. destruct (decide (j = Z.to_nat (gc_sweepstr g))) as [->|Hne].
    + rewrite list_lookup_insert_eq in Hj by (by eapply lookup_lt_Some). injection Hj as <-.
      apply elem_of_live_chain in Ho as [_ Ho]. by apply (inv_bucket g I _ _ _ Ec).
    + rewrite list_lookup_insert_ne in Hj by done. by apply (inv_bucket g I _ _ _ Hj).
  - intros o1 o2 s1 s2 [I1 _]%sweep_interned [I2 _]%sweep_interned
      (s1' & E1 & C1 & _)%sweep_heap_back (s2' & E2 & C2 & _)%sweep_heap_back Ecc.
    apply (inv_uniq g I o1 o2 s1' s2'); [done..|congruence].
  - rewrite Ecnt, Eh, Epp', (inv_num g I), Epp, !length_app. wsolve.
  - intros o [s' (s & E & _)%sweep_heap_back]. rewrite En. apply (inv_next g I). eauto.
Qed.
End SweepStep.

(** A [GCSsweepstring] step removes from the table, and frees, exactly the
    strings of the swept chain that are not live, keeps every other string,
    and leaves the table consistent; the phase ends with the last chain. *)
Theorem gc_sweepstring_step_frees g :
  str_inv g -> 0 <= gc_sweepstr g <= strmask g ->
  let g' := gc_sweepstring_step g in
  str_inv g' /\
  (forall o s, has_string g' o s <->
     has_string g o s /\ (hash_of g o .& strmask g = gc_sweepstr g -> liveb g o = true)) /\
  (forall o, interned g o -> ~ interned g' o -> heap g' !! o = None) /\
  gc_sweepstr g' = gc_sweepstr g + 1 /\
  gc_state g' = (if strmask g <=? gc_sweepstr g then GCSsweep else gc_state g).
Proof.
  intros I [Hi Hm] g'. pose proof (inv_len g I) as Hlen.
  destruct (lookup_lt_is_Some_2 (strhash g) (Z.to_nat (gc_sweepstr g))) as [c Ec]; [lia|].
  destruct (sweep_step_fields g c I Hi Ec) as (_ & _ & _ & _ & Hsw & Hst & Hh).
  split_and!; [by apply (sweep_inv g c)| | |done..].
  - intros o s. unfold has_string. unfold g'. rewrite (sweep_interned g c I Hi Ec). split.
    + intros [[Ho Hl] Hcont]. split_and!; [done| |].
      * unfold content_of in *. destruct (heap (gc_sweepstring_step g) !! o) as [s'|] eqn:E'; [|done].
        destruct (sweep_heap_back g c I Hi Ec o s' E') as (s0 & -> & Es & _).
        injection Hcont as <-. simpl. by rewrite Es.
      * intros Hb. by apply Hl, (sweep_bucket g c I Hi Ec).
    + intros [[Ho Hcont] Hb].
      assert (Hl : o ∈ c -> liveb g o = true) by (intros; by apply Hb, (sweep_bucket g c I Hi Ec)).
      split; [done|]. unfold content_of in *. destruct (heap g !! o) as [s0|] eqn:E; [|done].
      destruct (sweep_heap g c I Hi Ec o s0) as [m ->]; [by apply (sweep_interned g c I Hi Ec)|done|].
      done.
  - intros o Ho Hno. unfold g' in Hno. rewrite (sweep_interned g c I Hi Ec) in Hno.
    unfold g'. rewrite Hh. case_bool_decide; [|tauto]. destruct (liveb g o); [tauto|done].
Qed.

Lemma gc_sweepstring_step_frees_witness : str_inv (gc_sweepstring_step str_table_init).
Proof.
  apply (gc_sweepstring_step_frees str_table_init str_table_init_inv).
  split; [done|]. vm_compute. discriminate.
Defined.
