(* ===== verification/Num.v ===== *)
(** * Lua numbers

    [lua_Number] is an IEEE 754 double.  A double is its 64-bit pattern (a [Z]
    in the range of [uint64_t]), as the [n]/[u64] union of [TValue] gives it,
    and the arithmetic of the C code is the one of the Standard Library's
    [SpecFloat] on the decoded pattern.  A NaN result is the default quiet
    NaN; payloads are not followed through arithmetic. *)

From Stdlib Require Import Floats.SpecFloat.
From S2P Require Import Prelude Machine.

Definition prec : Z := 53.
Definition emax : Z := 1024.

(** ** Bit patterns *)

Definition sign_bit (u : Z) : bool := Z.testbit u 63.
Definition exp_field (u : Z) : Z := (u >> 52) .& 0x7ff.
Definition frac_field (u : Z) : Z := u .& 0xfffffffffffff.

Definition num_of_bits (u : Z) : spec_float :=
  let s := sign_bit u in
  let e := exp_field u in
  let f := frac_field u in
  if e =? 0x7ff then (if f =? 0 then S754_infinity s else S754_nan)
  else if e =? 0 then
    match f with Zpos p => S754_finite s p (-1074) | _ => S754_zero s end
  else match f + 2 ^ 52 with Zpos p => S754_finite s p (e - 1075) | _ => S754_zero s end.

Definition NAN : Z := 0xfff8000000000000.
Definition with_sign (s : bool) (u : Z) : Z := if s then 2 ^ 63 + u else u.

Definition bits_of_num (x : spec_float) : Z :=
  match x with
  | S754_zero s => with_sign s 0
  | S754_infinity s => with_sign s 0x7ff0000000000000
  | S754_nan => NAN
  | S754_finite s m e =>
      with_sign s
        (if Zpos m <? 2 ^ 52 then Zpos m else ((e + 1075) << 52) + (Zpos m - 2 ^ 52))
  end.

(** ** Arithmetic and comparison *)

Definition dadd (a b : Z) : Z := bits_of_num (SFadd prec emax (num_of_bits a) (num_of_bits b)).
Definition dsub (a b : Z) : Z := bits_of_num (SFsub prec emax (num_of_bits a) (num_of_bits b)).
Definition dmul (a b : Z) : Z := bits_of_num (SFmul prec emax (num_of_bits a) (num_of_bits b)).
Definition ddiv (a b : Z) : Z := bits_of_num (SFdiv prec emax (num_of_bits a) (num_of_bits b)).
Definition dsqrt (a : Z) : Z := bits_of_num (SFsqrt prec emax (num_of_bits a)).
(** Negation and absolute value act on the sign bit only. *)
Definition dneg (a : Z) : Z := a .^ 0x8000000000000000.
Definition dabs (a : Z) : Z := a .& 0x7fffffffffffffff.

Definition deq (a b : Z) : bool := SFeqb (num_of_bits a) (num_of_bits b).
Definition dlt (a b : Z) : bool := SFltb (num_of_bits a) (num_of_bits b).
Definition dle (a b : Z) : bool := SFleb (num_of_bits a) (num_of_bits b).

(** ** Conversions *)

(** The exact value truncated towards zero; [None] for NaN and infinities. *)
Definition trunc_num (x : spec_float) : option Z :=
  match x with
  | S754_zero _ => Some 0
  | S754_finite s m e =>
      let q := if 0 <=? e then Zpos m * 2 ^ e else Zpos m / 2 ^ (- e) in
      Some (if s then - q else q)
  | _ => None
  end.

(** [(lua_Number)k] *)
Definition int2num (k : Z) : Z := bits_of_num (binary_normalize prec emax k 0 false).

(** [lj_num2int]: [(int32_t)n].  Out of range the C conversion is undefined;
    the value of the x86 instruction is used, every caller compares it back. *)
Definition lj_num2int (n : Z) : Z :=
  match trunc_num (num_of_bits n) with
  | Some k => if (- 2 ^ 31 <=? k) && (k <? 2 ^ 31) then k else - 2 ^ 31
  | None => - 2 ^ 31
  end.

(** [(int64_t)n], likewise. *)
Definition num2i64 (n : Z) : Z :=
  match trunc_num (num_of_bits n) with
  | Some k => if (- 2 ^ 63 <=? k) && (k <? 2 ^ 63) then k else - 2 ^ 63
  | None => - 2 ^ 63
  end.

(** [lj_num2u64]: [(uint64_t)n]. *)
Definition lj_num2u64 (n : Z) : Z :=
  match trunc_num (num_of_bits n) with
  | Some k => if (0 <=? k) && (k <? 2 ^ 64) then k else 2 ^ 63
  | None => 2 ^ 63
  end.

(** [lj_num2bit]: add [2^52 + 2^51] and take the low word. *)
Definition lj_num2bit (n : Z) : Z := i32 (u32 (dadd n 0x4338000000000000)).

Example dadd_1_2 : dadd (int2num 1) (int2num 2) = int2num 3.
Proof. vm_compute. reflexivity. Qed.
Example ddiv_1_3 : ddiv (int2num 1) (int2num 3) = 0x3fd5555555555555.
Proof. vm_compute. reflexivity. Qed.
Example num2bit_neg : lj_num2bit (int2num (-5)) = -5.
Proof. vm_compute. reflexivity. Qed.
Example num2int_1_5 : lj_num2int 0xbff8000000000000 = -1.
Proof. vm_compute. reflexivity. Qed.

(** ** Comparisons *)

Lemma SFcompare_swap x y :
  SFcompare y x = option_map CompOpp (SFcompare x y).
Proof.
  destruct x as [sx|sx| |sx mx ex], y as [sy|sy| |sy my ey]; try destruct sx; try destruct sy;
    try reflexivity.
  all: simpl; rewrite (Z.compare_antisym ex ey); destruct (ex ?= ey); simpl; try reflexivity.
  all: try rewrite (Pos.compare_cont_antisym mx my); simpl;
       try (destruct (Pos.compare_cont Eq mx my); reflexivity).
Qed.

Lemma deq_sym a b : deq a b = deq b a.
Proof.
  unfold deq, SFeqb. rewrite (SFcompare_swap (num_of_bits b)).
  by destruct (SFcompare (num_of_bits b) (num_of_bits a)) as [[]|].
Qed.

(** ** Integers as numbers *)

Lemma digits2_log2 p : Zpos (digits2_pos p) = Z.log2 (Zpos p) + 1.
Proof.
  induction p as [p IH|p IH|]; cbn [digits2_pos]; [| |done]; rewrite Pos2Z.inj_succ, IH.
  - rewrite (Pos2Z.inj_xI p), Z.log2_succ_double by lia. lia.
  - rewrite (Pos2Z.inj_xO p), Z.log2_double by lia. lia.
Qed.

Lemma iter_xO_mul p d : Zpos (Pos.iter xO p d) = Zpos p * 2 ^ Zpos d.
Proof.
  induction d as [|d IH] using Pos.peano_ind; [change (Zpos p~0 = Zpos p * 2); lia|].
  rewrite Pos.iter_succ, Pos2Z.inj_xO, IH, Pos2Z.inj_succ, Z.pow_succ_r by lia. lia.
Qed.

(** A 53-bit mantissa needs no rounding. *)
Lemma round_exact s m e :
  Z.log2 (Zpos m) = 52 -> -1074 <= e <= 971 ->
  binary_round_aux prec emax s (Zpos m) e loc_Exact = S754_finite s m e.
Proof.
  intros Hm He. unfold binary_round_aux, shr_fexp.
  assert (Hd : Zdigits2 (Zpos m) = 53) by (cbn [Zdigits2]; rewrite digits2_log2; lia).
  assert (Hf : fexp prec emax (Zdigits2 (Zpos m) + e) - e = 0).
  { rewrite Hd. unfold fexp, SpecFloat.emin, prec, emax. lia. }
  rewrite Hf. cbn [shr shr_record_of_loc shr_m loc_of_shr_record round_nearest_even].
  rewrite Hf. cbn [shr shr_m shr_record_of_loc]. unfold emax, prec. by rewrite (proj2 (Z.leb_le e _)) by lia.
Qed.

Lemma log2_shift k : 0 < k < 2 ^ 53 -> Z.log2 (k * 2 ^ (52 - Z.log2 k)) = 52.
Proof.
  intros Hk. assert (Z.log2 k < 53) by (apply Z.log2_lt_pow2; lia). pose proof (Z.log2_nonneg k).
  rewrite Z.log2_mul_pow2 by lia. lia.
Qed.

Lemma binary_round_int s p : Zpos p < 2 ^ 53 ->
  exists m, binary_round prec emax s p 0 = S754_finite s m (Z.log2 (Zpos p) - 52) /\
    Zpos m = Zpos p * 2 ^ (52 - Z.log2 (Zpos p)).
Proof.
  intros Hp. assert (Hl : Z.log2 (Zpos p) < 53) by (apply Z.log2_lt_pow2; lia). pose proof (Z.log2_nonneg (Zpos p)).
  unfold binary_round. rewrite digits2_log2.
  assert (Hf : fexp prec emax (Z.log2 (Zpos p) + 1 + 0) = Z.log2 (Zpos p) - 52).
  { unfold fexp, SpecFloat.emin, prec, emax. lia. }
  rewrite Hf. unfold shl_align. rewrite Z.sub_0_r.
  destruct (Z.log2 (Zpos p) - 52) as [|q|q] eqn:Eq; [|lia|].
  - exists p. replace (52 - Z.log2 (Zpos p)) with 0 by lia. split; [|lia]. apply round_exact; lia.
  - exists (Pos.iter xO p q). replace (52 - Z.log2 (Zpos p)) with (Zpos q) by lia.
    split; [apply round_exact; [rewrite iter_xO_mul|lia]|apply iter_xO_mul].
    replace (Zpos q) with (52 - Z.log2 (Zpos p)) by lia. apply log2_shift. lia.
Qed.

Lemma bits_decode s m e : Z.log2 (Zpos m) = 52 -> -1074 <= e <= 971 ->
  num_of_bits (bits_of_num (S754_finite s m e)) = S754_finite s m e.
Proof.
  intros Hm He. assert (Hr : 2 ^ 52 <= Zpos m < 2 ^ 53).
  { destruct (Z.log2_spec (Zpos m)) as [H1 H2]; [done|]. rewrite Hm in H1, H2. done. }
  cbn [bits_of_num]. rewrite (proj2 (Z.ltb_ge _ _)) by lia.
  set (f := Zpos m - 2 ^ 52). set (x := e + 1075). assert (Hf : 0 <= f < 2 ^ 52) by lia.
  assert (Hx : 1 <= x < 2047) by lia.
  rewrite Z.shiftl_mul_pow2 by lia. set (u := x * 2 ^ 52 + f).
  assert (Hs : with_sign s u = (if s then 1 else 0) * 2 ^ 63 + u) by (destruct s; unfold with_sign; lia).
  assert (Hu : 0 <= u < 2 ^ 63) by (unfold u; lia).
  unfold num_of_bits.
  assert (E1 : sign_bit (with_sign s u) = s).
  { unfold sign_bit. rewrite Hs, Z.testbit_eqb by lia. destruct s.
    - apply Z.eqb_eq. rewrite Z.div_add_l by lia. rewrite (Z.div_small u) by lia. done.
    - apply Z.eqb_neq. rewrite Z.mul_0_l, Z.add_0_l, (Z.div_small u) by lia. done. }
  assert (E2 : exp_field (with_sign s u) = x).
  { unfold exp_field. change 0x7ff with (2 ^ 11 - 1). rewrite land_ones_mod, Z.shiftr_div_pow2 by lia.
    rewrite Hs. unfold u. rewrite Z.add_assoc. replace ((if s then 1 else 0) * 2 ^ 63 + x * 2 ^ 52)
      with (((if s then 1 else 0) * 2 ^ 11 + x) * 2 ^ 52) by (destruct s; lia).
    rewrite Z.div_add_l, (Z.div_small f) by lia. rewrite Z.add_0_r, Z.add_comm, Z.mod_add by lia.
    apply Z.mod_small. lia. }
  assert (E3 : frac_field (with_sign s u) = f).
  { unfold frac_field. change 0xfffffffffffff with (2 ^ 52 - 1). rewrite land_ones_mod by lia.
    rewrite Hs. unfold u. rewrite Z.add_assoc. replace ((if s then 1 else 0) * 2 ^ 63 + x * 2 ^ 52)
      with (((if s then 1 else 0) * 2 ^ 11 + x) * 2 ^ 52) by (destruct s; lia).
    rewrite Z.add_comm, Z.mod_add by lia. apply Z.mod_small. lia. }
  rewrite E1, E2, E3. rewrite (proj2 (Z.eqb_neq x 0x7ff)), (proj2 (Z.eqb_neq x 0)) by lia.
  replace (f + 2 ^ 52) with (Zpos m) by (unfold f; lia). f_equal. unfold x. lia.
Qed.

(** The decoded value of an integer. *)
Lemma num_of_int2num k : k <> 0 -> Z.abs k < 2 ^ 53 ->
  exists m, num_of_bits (int2num k) = S754_finite (k <? 0) m (Z.log2 (Z.abs k) - 52) /\
    Zpos m = Z.abs k * 2 ^ (52 - Z.log2 (Z.abs k)).
Proof.
  intros Hz Hk. assert (E : exists p, Z.abs k = Zpos p /\
    int2num k = bits_of_num (binary_round prec emax (k <? 0) p 0)) by (destruct k as [|p|p]; [done|eauto..]).
  destruct E as (p & Ep & E). rewrite Ep in *. destruct (binary_round_int (k <? 0) p Hk) as (m & Em & Hm).
  exists m. split; [|done]. rewrite E, Em. pose proof (Z.log2_nonneg (Zpos p)).
  assert (Z.log2 (Zpos p) < 53) by (apply Z.log2_lt_pow2; lia).
  apply bits_decode; [|lia]. rewrite Hm. apply log2_shift. lia.
Qed.

Lemma trunc_int2num k : Z.abs k < 2 ^ 53 -> trunc_num (num_of_bits (int2num k)) = Some k.
Proof.
  intros Hk. destruct (Z.eq_dec k 0) as [->|Hz]; [done|].
  destruct (num_of_int2num k Hz Hk) as (m & -> & Hm). cbn [trunc_num].
  assert (Z.log2 (Z.abs k) < 53) by (apply Z.log2_lt_pow2; lia). pose proof (Z.log2_nonneg (Z.abs k)).
  set (l := Z.log2 (Z.abs k)) in *. rewrite Hm.
  assert (Hq : (if 0 <=? l - 52 then Z.abs k * 2 ^ (52 - l) * 2 ^ (l - 52)
                else Z.abs k * 2 ^ (52 - l) / 2 ^ (- (l - 52))) = Z.abs k).
  { destruct (Z.leb_spec 0 (l - 52)).
    - replace (l - 52) with 0 by lia. replace (52 - l) with 0 by lia. lia.
    - replace (- (l - 52)) with (52 - l) by lia. rewrite Z.div_mul; [done|]. apply Z.pow_nonzero; lia. }
  rewrite Hq. f_equal. destruct (Z.ltb_spec k 0); lia.
Qed.

Lemma num2int_int2num k : is_i32 k -> lj_num2int (int2num k) = k.
Proof.
  intros Hk. widths. unfold lj_num2int. rewrite trunc_int2num by lia.
  by replace (_ && _) with true by lia.
Qed.

(** ** Equality *)

Lemma SFcompare_eq x y : SFcompare x y = Some Eq ->
  x = y \/ (exists s s', x = S754_zero s /\ y = S754_zero s').
Proof.
  destruct x as [sx|sx| |sx mx ex], y as [sy|sy| |sy my ey]; try destruct sx; try destruct sy; cbn; try done;
    try (intros; right; by eauto); try (intros; by left).
  all: destruct (Z.compare_spec ex ey); cbn; try done; subst; intros H; left; f_equal.
  all: destruct (Pos.compare_cont Eq mx my) eqn:E; try done; by apply Pos.compare_eq.
Qed.

Lemma num_of_bits_inj a b : is_u64 a -> is_u64 b -> num_of_bits a = num_of_bits b ->
  num_of_bits a <> S754_nan -> a = b.
Proof.
  assert (D : forall u, is_u64 u -> u = (if sign_bit u then 2 ^ 63 else 0) + exp_field u * 2 ^ 52 + frac_field u /\
    0 <= exp_field u < 2 ^ 11 /\ 0 <= frac_field u < 2 ^ 52).
  { intros u Hu. widths. unfold sign_bit, exp_field, frac_field.
    change 0x7ff with (2 ^ 11 - 1). change 0xfffffffffffff with (2 ^ 52 - 1).
    rewrite !land_ones_mod, Z.shiftr_div_pow2 by lia. rewrite Z.testbit_eqb by lia.
    assert (E : u / 2 ^ 63 = u / 2 ^ 52 / 2 ^ 11) by (rewrite Z.div_div by lia; done).
    assert (0 <= u / 2 ^ 63 < 2) by (split; [apply Z.div_pos|apply Z.div_lt_upper_bound]; lia).
    pose proof (Z.div_mod u (2 ^ 52) ltac:(lia)). pose proof (Z.div_mod (u / 2 ^ 52) (2 ^ 11) ltac:(lia)).
    pose proof (Z.mod_pos_bound u (2 ^ 52) ltac:(lia)). pose proof (Z.mod_pos_bound (u / 2 ^ 52) (2 ^ 11) ltac:(lia)).
    split; [|lia]. destruct (Z.eqb_spec (u / 2 ^ 63 mod 2) 1) as [E1|E1]; rewrite (Z.mod_small (u / 2 ^ 63)) in E1 by lia; lia. }
  intros Ha Hb. destruct (D a Ha) as (Ea & Xa & Fa), (D b Hb) as (Eb & Xb & Fb). clear D.
  unfold num_of_bits. generalize dependent (sign_bit a). generalize dependent (sign_bit b).
  generalize dependent (exp_field a). generalize dependent (exp_field b).
  generalize dependent (frac_field a). generalize dependent (frac_field b). intros fb Fb fa Fa xb Xb xa Xa sb Eb sa Ea.
  intros H Hn.
  assert (G : sa = sb /\ xa = xb /\ fa = fb); [|by destruct G as (-> & -> & ->); lia].
  revert H Hn.
  destruct (Z.eqb_spec xa 0x7ff); [destruct (Z.eqb_spec fa 0); [|done]|destruct (Z.eqb_spec xa 0); [destruct fa eqn:Efa|]];
  (destruct (Z.eqb_spec xb 0x7ff); [destruct (Z.eqb_spec fb 0)|destruct (Z.eqb_spec xb 0); [destruct fb eqn:Efb|]]);
  try (destruct (fa + 2 ^ 52) eqn:Ga; try lia); try (destruct (fb + 2 ^ 52) eqn:Gb; try lia);
  intros H _; try discriminate H; try (injection H; intros; subst; split_and!; try done; lia).
Qed.

Lemma num_zero u s : is_u64 u -> num_of_bits u = S754_zero s <-> u = with_sign s 0.
Proof.
  intros Hu. assert (E : num_of_bits (with_sign s 0) = S754_zero s) by by destruct s.
  split; [|by intros ->]. intros H. apply num_of_bits_inj; [done|by destruct s|congruence|by rewrite H].
Qed.

(** Two numbers are equal when they have the same bits or are both zero. *)
Definition is_zero (u : Z) : Prop := u = 0 \/ u = 2 ^ 63.

Lemma deq_bits a b : is_u64 a -> is_u64 b ->
  deq a b = true <-> num_of_bits a <> S754_nan /\ (a = b \/ is_zero a /\ is_zero b).
Proof.
  intros Ha Hb. unfold deq, SFeqb. split.
  - destruct (SFcompare _ _) as [[]|] eqn:E; try done. intros _.
    assert (Hn : num_of_bits a <> S754_nan) by (intros X; rewrite X in E; discriminate E). split; [done|].
    apply SFcompare_eq in E as [E|(s & s' & E1 & E2)]; [left; by apply num_of_bits_inj|right].
    apply num_zero in E1, E2; try done. by split; [destruct s|destruct s']; subst; [right|left|right|left].
  - intros [Hn [<-|[Hz1 Hz2]]].
    + destruct (num_of_bits a) as [[]|[]| |[] m e]; try done; cbn; rewrite Z.compare_refl;
        replace (Pos.compare_cont Eq m m) with Eq by (symmetry; by apply Pos.compare_refl); done.
    + by destruct Hz1 as [-> | ->], Hz2 as [-> | ->].
Qed.

Lemma deq_refl_iff a : is_u64 a -> deq a a = true <-> num_of_bits a <> S754_nan.
Proof. intros Ha. rewrite deq_bits by done. intuition. Qed.

Lemma bits_of_num_range s m e : Z.log2 (Zpos m) = 52 -> -1074 <= e <= 971 ->
  is_u64 (bits_of_num (S754_finite s m e)).
Proof.
  intros Hm He. destruct (Z.log2_spec (Zpos m)) as [H1 H2]; [done|]. rewrite Hm in H1, H2.
  cbn [bits_of_num]. rewrite (proj2 (Z.ltb_ge _ _)) by lia. rewrite Z.shiftl_mul_pow2 by lia.
  unfold with_sign. widths. destruct s; lia.
Qed.

(** [(lua_Number)k] is never the negative zero and determines [k]. *)
Lemma int2num_props k : is_i32 k ->
  is_u64 (int2num k) /\ num_of_bits (int2num k) <> S754_nan /\ int2num k <> 2 ^ 63.
Proof.
  intros Hk. destruct (Z.eq_dec k 0) as [->|Hz]; [done|]. widths.
  assert (Hb : Z.abs k < 2 ^ 53) by lia. destruct (num_of_int2num k Hz Hb) as (m & E & Hm).
  split; [|split; [by rewrite E|intros X; by rewrite X in E]].
  assert (Ep : exists p, Z.abs k = Zpos p /\
    int2num k = bits_of_num (binary_round prec emax (k <? 0) p 0)) by (destruct k as [|p|p]; [done|eauto..]).
  destruct Ep as (p & Ep & ->). rewrite Ep in Hb. destruct (binary_round_int (k <? 0) p Hb) as (m' & -> & Hm').
  pose proof (Z.log2_nonneg (Zpos p)). assert (Z.log2 (Zpos p) < 53) by (apply Z.log2_lt_pow2; lia).
  apply bits_of_num_range; [|lia]. rewrite Hm'. apply log2_shift. lia.
Qed.

Lemma int2num_inj a b : is_i32 a -> is_i32 b -> int2num a = int2num b -> a = b.
Proof. intros Ha Hb H. rewrite <- (num2int_int2num a), <- (num2int_int2num b), H by done. done. Qed.

Lemma deq_int2num a b : is_i32 a -> is_i32 b -> deq (int2num a) (int2num b) = (a =? b).
Proof.
  intros Ha Hb. destruct (int2num_props a Ha) as (Ua & Na & Za), (int2num_props b Hb) as (Ub & Nb & Zb).
  apply eq_true_iff_eq. rewrite deq_bits, Z.eqb_eq by done. split; [|intros ->; by split; [|left]].
  intros [_ [H|[[H1|H1] [H2|H2]]]]; try done; apply int2num_inj; congruence.
Qed.

Lemma num2int_i32 n : is_i32 (lj_num2int n).
Proof.
  unfold lj_num2int. destruct (trunc_num _) as [k|]; [|by split].
  destruct (_ && _) eqn:E; [|by split]. widths. lia.
Qed.
