(* ===== verification/Ir.v ===== *)
(** * The SSA IR of the JIT compiler

    [lj_ir.h] and [lj_ir.c]: opcodes, types, instructions, the emitter, the
    interning of constants, and the CSE search of [lj_opt_fold.c].

    The instruction buffer is a map from references to instructions; its
    growth is memory management and not modelled.  References stay within 16
    bits because the trace recorder limits the number of instructions and
    constants, so the [IRRef1] casts are dropped.  The type tag of a [TRef]
    repeats the type of the instruction it refers to; functions return the
    bare reference.  The fields [op1]/[op2] and their overlay [op12]/[i] are
    kept as two 16-bit halves. *)

From S2P Require Import Prelude Machine Num.

(** ** Opcodes *)

Inductive IROp : Type :=
 | IR_LT | IR_GE | IR_LE | IR_GT | IR_ULT | IR_UGE | IR_ULE | IR_UGT
 | IR_EQ | IR_NE | IR_ABC | IR_RETF | IR_NOP | IR_BASE | IR_PVAL | IR_GCSTEP
 | IR_HIOP | IR_LOOP | IR_USE | IR_PHI | IR_RENAME | IR_PROF | IR_KPRI | IR_KINT
 | IR_KGC | IR_KPTR | IR_KKPTR | IR_KNULL | IR_KNUM | IR_KINT64 | IR_KSLOT | IR_BNOT
 | IR_BSWAP | IR_BAND | IR_BOR | IR_BXOR | IR_BSHL | IR_BSHR | IR_BSAR | IR_BROL
 | IR_BROR | IR_ADD | IR_SUB | IR_MUL | IR_DIV | IR_MOD | IR_POW | IR_NEG
 | IR_ABS | IR_ATAN2 | IR_LDEXP | IR_MIN | IR_MAX | IR_FPMATH | IR_ADDOV | IR_SUBOV
 | IR_MULOV | IR_AREF | IR_HREFK | IR_HREF | IR_NEWREF | IR_UREFO | IR_UREFC | IR_FREF
 | IR_STRREF | IR_LREF | IR_ALOAD | IR_HLOAD | IR_ULOAD | IR_FLOAD | IR_XLOAD | IR_SLOAD
 | IR_VLOAD | IR_ASTORE | IR_HSTORE | IR_USTORE | IR_FSTORE | IR_XSTORE | IR_SNEW | IR_XSNEW
 | IR_TNEW | IR_TDUP | IR_CNEW | IR_CNEWI | IR_BUFHDR | IR_BUFPUT | IR_BUFSTR | IR_TBAR
 | IR_OBAR | IR_XBAR | IR_CONV | IR_TOBIT | IR_TOSTR | IR_STRTO | IR_CALLN | IR_CALLA
 | IR_CALLL | IR_CALLS | IR_CALLXS | IR_CARG.

Definition all_irops : list IROp :=
  [IR_LT; IR_GE; IR_LE; IR_GT; IR_ULT; IR_UGE; IR_ULE; IR_UGT;
   IR_EQ; IR_NE; IR_ABC; IR_RETF; IR_NOP; IR_BASE; IR_PVAL; IR_GCSTEP;
   IR_HIOP; IR_LOOP; IR_USE; IR_PHI; IR_RENAME; IR_PROF; IR_KPRI; IR_KINT;
   IR_KGC; IR_KPTR; IR_KKPTR; IR_KNULL; IR_KNUM; IR_KINT64; IR_KSLOT; IR_BNOT;
   IR_BSWAP; IR_BAND; IR_BOR; IR_BXOR; IR_BSHL; IR_BSHR; IR_BSAR; IR_BROL;
   IR_BROR; IR_ADD; IR_SUB; IR_MUL; IR_DIV; IR_MOD; IR_POW; IR_NEG;
   IR_ABS; IR_ATAN2; IR_LDEXP; IR_MIN; IR_MAX; IR_FPMATH; IR_ADDOV; IR_SUBOV;
   IR_MULOV; IR_AREF; IR_HREFK; IR_HREF; IR_NEWREF; IR_UREFO; IR_UREFC; IR_FREF;
   IR_STRREF; IR_LREF; IR_ALOAD; IR_HLOAD; IR_ULOAD; IR_FLOAD; IR_XLOAD; IR_SLOAD;
   IR_VLOAD; IR_ASTORE; IR_HSTORE; IR_USTORE; IR_FSTORE; IR_XSTORE; IR_SNEW; IR_XSNEW;
   IR_TNEW; IR_TDUP; IR_CNEW; IR_CNEWI; IR_BUFHDR; IR_BUFPUT; IR_BUFSTR; IR_TBAR;
   IR_OBAR; IR_XBAR; IR_CONV; IR_TOBIT; IR_TOSTR; IR_STRTO; IR_CALLN; IR_CALLA;
   IR_CALLL; IR_CALLS; IR_CALLXS; IR_CARG].

Definition irop_num (o : IROp) : Z :=
  match o with
  | IR_LT => 0 | IR_GE => 1 | IR_LE => 2 | IR_GT => 3 | IR_ULT => 4 | IR_UGE => 5
  | IR_ULE => 6 | IR_UGT => 7 | IR_EQ => 8 | IR_NE => 9 | IR_ABC => 10 | IR_RETF => 11
  | IR_NOP => 12 | IR_BASE => 13 | IR_PVAL => 14 | IR_GCSTEP => 15 | IR_HIOP => 16 | IR_LOOP => 17
  | IR_USE => 18 | IR_PHI => 19 | IR_RENAME => 20 | IR_PROF => 21 | IR_KPRI => 22 | IR_KINT => 23
  | IR_KGC => 24 | IR_KPTR => 25 | IR_KKPTR => 26 | IR_KNULL => 27 | IR_KNUM => 28 | IR_KINT64 => 29
  | IR_KSLOT => 30 | IR_BNOT => 31 | IR_BSWAP => 32 | IR_BAND => 33 | IR_BOR => 34 | IR_BXOR => 35
  | IR_BSHL => 36 | IR_BSHR => 37 | IR_BSAR => 38 | IR_BROL => 39 | IR_BROR => 40 | IR_ADD => 41
  | IR_SUB => 42 | IR_MUL => 43 | IR_DIV => 44 | IR_MOD => 45 | IR_POW => 46 | IR_NEG => 47
  | IR_ABS => 48 | IR_ATAN2 => 49 | IR_LDEXP => 50 | IR_MIN => 51 | IR_MAX => 52 | IR_FPMATH => 53
  | IR_ADDOV => 54 | IR_SUBOV => 55 | IR_MULOV => 56 | IR_AREF => 57 | IR_HREFK => 58 | IR_HREF => 59
  | IR_NEWREF => 60 | IR_UREFO => 61 | IR_UREFC => 62 | IR_FREF => 63 | IR_STRREF => 64 | IR_LREF => 65
  | IR_ALOAD => 66 | IR_HLOAD => 67 | IR_ULOAD => 68 | IR_FLOAD => 69 | IR_XLOAD => 70 | IR_SLOAD => 71
  | IR_VLOAD => 72 | IR_ASTORE => 73 | IR_HSTORE => 74 | IR_USTORE => 75 | IR_FSTORE => 76 | IR_XSTORE => 77
  | IR_SNEW => 78 | IR_XSNEW => 79 | IR_TNEW => 80 | IR_TDUP => 81 | IR_CNEW => 82 | IR_CNEWI => 83
  | IR_BUFHDR => 84 | IR_BUFPUT => 85 | IR_BUFSTR => 86 | IR_TBAR => 87 | IR_OBAR => 88 | IR_XBAR => 89
  | IR_CONV => 90 | IR_TOBIT => 91 | IR_TOSTR => 92 | IR_STRTO => 93 | IR_CALLN => 94 | IR_CALLA => 95
  | IR_CALLL => 96 | IR_CALLS => 97 | IR_CALLXS => 98 | IR_CARG => 99
  end.

Lemma irop_num_inj o1 o2 : irop_num o1 = irop_num o2 -> o1 = o2.
Proof.
  intros H.
  assert (E : forall o, default IR_NOP (all_irops !! Z.to_nat (irop_num o)) = o)
    by by intros [].
  by rewrite <- (E o1), <- (E o2), H.
Qed.

#[export] Instance irop_eq_dec : EqDecision IROp := fun o1 o2 =>
  match Z.eq_dec (irop_num o1) (irop_num o2) with
  | left e => left (irop_num_inj o1 o2 e)
  | right n => right (fun e => n (f_equal irop_num e))
  end.

Definition op_eqb (o1 o2 : IROp) : bool := irop_num o1 =? irop_num o2.

Lemma op_eqb_eq o1 o2 : op_eqb o1 o2 = true <-> o1 = o2.
Proof.
  unfold op_eqb. rewrite Z.eqb_eq. split; [apply irop_num_inj|congruence].
Qed.

(** [(IROp)n], for the arithmetic the code does on opcodes. *)
Definition irop_of_num (n : Z) : IROp := default IR_NOP (all_irops !! Z.to_nat n).

(** Operand modes. *)
Inductive IRMode := IRMref | IRMlit | IRMcst | IRMnone.
Definition irmode_num (m : IRMode) : Z :=
  match m with IRMref => 0 | IRMlit => 1 | IRMcst => 2 | IRMnone => 3 end.

Definition IRM_C : Z := 0x10.
Definition IRM_N : Z := 0x00.
Definition IRM_R : Z := IRM_N.
Definition IRM_A : Z := 0x20.
Definition IRM_L : Z := 0x40.
Definition IRM_S : Z := 0x60.
Definition IRM_W : Z := 0x80.
Definition IRM_NW : Z := IRM_N .| IRM_W.
Definition IRM_CW : Z := IRM_C .| IRM_W.
Definition IRM_AW : Z := IRM_A .| IRM_W.
Definition IRM_LW : Z := IRM_L .| IRM_W.

Definition IRMODE (m : Z) (m1 m2 : IRMode) : Z :=
  (irmode_num m1 .| (irmode_num m2 << 2) .| m) .^ IRM_W.

Definition lj_ir_mode (o : IROp) : Z :=
  match o with
  | IR_LT => IRMODE IRM_N IRMref IRMref
  | IR_GE => IRMODE IRM_N IRMref IRMref
  | IR_LE => IRMODE IRM_N IRMref IRMref
  | IR_GT => IRMODE IRM_N IRMref IRMref
  | IR_ULT => IRMODE IRM_N IRMref IRMref
  | IR_UGE => IRMODE IRM_N IRMref IRMref
  | IR_ULE => IRMODE IRM_N IRMref IRMref
  | IR_UGT => IRMODE IRM_N IRMref IRMref
  | IR_EQ => IRMODE IRM_C IRMref IRMref
  | IR_NE => IRMODE IRM_C IRMref IRMref
  | IR_ABC => IRMODE IRM_N IRMref IRMref
  | IR_RETF => IRMODE IRM_S IRMref IRMref
  | IR_NOP => IRMODE IRM_N IRMnone IRMnone
  | IR_BASE => IRMODE IRM_N IRMlit IRMlit
  | IR_PVAL => IRMODE IRM_N IRMlit IRMnone
  | IR_GCSTEP => IRMODE IRM_S IRMnone IRMnone
  | IR_HIOP => IRMODE IRM_S IRMref IRMref
  | IR_LOOP => IRMODE IRM_S IRMnone IRMnone
  | IR_USE => IRMODE IRM_S IRMref IRMnone
  | IR_PHI => IRMODE IRM_S IRMref IRMref
  | IR_RENAME => IRMODE IRM_S IRMref IRMlit
  | IR_PROF => IRMODE IRM_S IRMnone IRMnone
  | IR_KPRI => IRMODE IRM_N IRMnone IRMnone
  | IR_KINT => IRMODE IRM_N IRMcst IRMnone
  | IR_KGC => IRMODE IRM_N IRMcst IRMnone
  | IR_KPTR => IRMODE IRM_N IRMcst IRMnone
  | IR_KKPTR => IRMODE IRM_N IRMcst IRMnone
  | IR_KNULL => IRMODE IRM_N IRMcst IRMnone
  | IR_KNUM => IRMODE IRM_N IRMcst IRMnone
  | IR_KINT64 => IRMODE IRM_N IRMcst IRMnone
  | IR_KSLOT => IRMODE IRM_N IRMref IRMlit
  | IR_BNOT => IRMODE IRM_N IRMref IRMnone
  | IR_BSWAP => IRMODE IRM_N IRMref IRMnone
  | IR_BAND => IRMODE IRM_C IRMref IRMref
  | IR_BOR => IRMODE IRM_C IRMref IRMref
  | IR_BXOR => IRMODE IRM_C IRMref IRMref
  | IR_BSHL => IRMODE IRM_N IRMref IRMref
  | IR_BSHR => IRMODE IRM_N IRMref IRMref
  | IR_BSAR => IRMODE IRM_N IRMref IRMref
  | IR_BROL => IRMODE IRM_N IRMref IRMref
  | IR_BROR => IRMODE IRM_N IRMref IRMref
  | IR_ADD => IRMODE IRM_C IRMref IRMref
  | IR_SUB => IRMODE IRM_N IRMref IRMref
  | IR_MUL => IRMODE IRM_C IRMref IRMref
  | IR_DIV => IRMODE IRM_N IRMref IRMref
  | IR_MOD => IRMODE IRM_N IRMref IRMref
  | IR_POW => IRMODE IRM_N IRMref IRMref
  | IR_NEG => IRMODE IRM_N IRMref IRMref
  | IR_ABS => IRMODE IRM_N IRMref IRMref
  | IR_ATAN2 => IRMODE IRM_N IRMref IRMref
  | IR_LDEXP => IRMODE IRM_N IRMref IRMref
  | IR_MIN => IRMODE IRM_C IRMref IRMref
  | IR_MAX => IRMODE IRM_C IRMref IRMref
  | IR_FPMATH => IRMODE IRM_N IRMref IRMlit
  | IR_ADDOV => IRMODE IRM_CW IRMref IRMref
  | IR_SUBOV => IRMODE IRM_NW IRMref IRMref
  | IR_MULOV => IRMODE IRM_CW IRMref IRMref
  | IR_AREF => IRMODE IRM_R IRMref IRMref
  | IR_HREFK => IRMODE IRM_R IRMref IRMref
  | IR_HREF => IRMODE IRM_L IRMref IRMref
  | IR_NEWREF => IRMODE IRM_S IRMref IRMref
  | IR_UREFO => IRMODE IRM_LW IRMref IRMlit
  | IR_UREFC => IRMODE IRM_LW IRMref IRMlit
  | IR_FREF => IRMODE IRM_R IRMref IRMlit
  | IR_STRREF => IRMODE IRM_N IRMref IRMref
  | IR_LREF => IRMODE IRM_L IRMnone IRMnone
  | IR_ALOAD => IRMODE IRM_L IRMref IRMnone
  | IR_HLOAD => IRMODE IRM_L IRMref IRMnone
  | IR_ULOAD => IRMODE IRM_L IRMref IRMnone
  | IR_FLOAD => IRMODE IRM_L IRMref IRMlit
  | IR_XLOAD => IRMODE IRM_L IRMref IRMlit
  | IR_SLOAD => IRMODE IRM_L IRMlit IRMlit
  | IR_VLOAD => IRMODE IRM_L IRMref IRMnone
  | IR_ASTORE => IRMODE IRM_S IRMref IRMref
  | IR_HSTORE => IRMODE IRM_S IRMref IRMref
  | IR_USTORE => IRMODE IRM_S IRMref IRMref
  | IR_FSTORE => IRMODE IRM_S IRMref IRMref
  | IR_XSTORE => IRMODE IRM_S IRMref IRMref
  | IR_SNEW => IRMODE IRM_N IRMref IRMref
  | IR_XSNEW => IRMODE IRM_A IRMref IRMref
  | IR_TNEW => IRMODE IRM_AW IRMlit IRMlit
  | IR_TDUP => IRMODE IRM_AW IRMref IRMnone
  | IR_CNEW => IRMODE IRM_AW IRMref IRMref
  | IR_CNEWI => IRMODE IRM_NW IRMref IRMref
  | IR_BUFHDR => IRMODE IRM_L IRMref IRMlit
  | IR_BUFPUT => IRMODE IRM_L IRMref IRMref
  | IR_BUFSTR => IRMODE IRM_A IRMref IRMref
  | IR_TBAR => IRMODE IRM_S IRMref IRMnone
  | IR_OBAR => IRMODE IRM_S IRMref IRMref
  | IR_XBAR => IRMODE IRM_S IRMnone IRMnone
  | IR_CONV => IRMODE IRM_NW IRMref IRMlit
  | IR_TOBIT => IRMODE IRM_N IRMref IRMref
  | IR_TOSTR => IRMODE IRM_N IRMref IRMlit
  | IR_STRTO => IRMODE IRM_N IRMref IRMnone
  | IR_CALLN => IRMODE IRM_N IRMref IRMlit
  | IR_CALLA => IRMODE IRM_A IRMref IRMlit
  | IR_CALLL => IRMODE IRM_L IRMref IRMlit
  | IR_CALLS => IRMODE IRM_S IRMref IRMlit
  | IR_CALLXS => IRMODE IRM_S IRMref IRMref
  | IR_CARG => IRMODE IRM_N IRMref IRMref
  end.

(** ** Types *)

Definition IRT_NIL : Z := 0.
Definition IRT_FALSE : Z := 1.
Definition IRT_TRUE : Z := 2.
Definition IRT_LIGHTUD : Z := 3.
Definition IRT_STR : Z := 4.
Definition IRT_P32 : Z := 5.
Definition IRT_THREAD : Z := 6.
Definition IRT_PROTO : Z := 7.
Definition IRT_FUNC : Z := 8.
Definition IRT_P64 : Z := 9.
Definition IRT_CDATA : Z := 10.
Definition IRT_TAB : Z := 11.
Definition IRT_UDATA : Z := 12.
Definition IRT_FLOAT : Z := 13.
Definition IRT_NUM : Z := 14.
Definition IRT_I8 : Z := 15.
Definition IRT_U8 : Z := 16.
Definition IRT_I16 : Z := 17.
Definition IRT_U16 : Z := 18.
Definition IRT_INT : Z := 19.
Definition IRT_U32 : Z := 20.
Definition IRT_I64 : Z := 21.
Definition IRT_U64 : Z := 22.
Definition IRT_SOFTFP : Z := 23.
Definition IRT_MARK : Z := 0x20.
Definition IRT_ISPHI : Z := 0x40.
Definition IRT_GUARD : Z := 0x80.
Definition IRT_TYPE : Z := 0x1f.

Definition lj_ir_type_size : list Z :=
  [4; 4; 4; 4; 4; 4; 4; 4; 4; 8; 4; 4; 4; 4; 8; 1; 1; 2; 2; 4; 4; 8; 8; 4; 0].

Definition irt_type (t : Z) : Z := t .& IRT_TYPE.
Definition irt_typerange (t first last : Z) : bool :=
  u32 (irt_type t - first) <=? last - first.
Definition irt_isnum (t : Z) : bool := irt_type t =? IRT_NUM.
Definition irt_isint (t : Z) : bool := irt_type t =? IRT_INT.
Definition irt_isu8 (t : Z) : bool := irt_type t =? IRT_U8.
Definition irt_isu16 (t : Z) : bool := irt_type t =? IRT_U16.
Definition irt_isi64 (t : Z) : bool := irt_type t =? IRT_I64.
Definition irt_isguard (t : Z) : Z := t .& IRT_GUARD.
Definition irt_isphi (t : Z) : bool := negb (t .& IRT_ISPHI =? 0).
(** 32-bit targets. *)
Definition IRT_IS64 : Z := (1 << IRT_NUM) .| (1 << IRT_I64) .| (1 << IRT_U64).
Definition irt_is64 (t : Z) : bool := Z.testbit IRT_IS64 (irt_type t).
Definition IRTG (t : Z) : Z := IRT_GUARD .| t.

(** ** References and instructions *)

Definition REF_BIAS : Z := 0x8000.
Definition REF_TRUE : Z := REF_BIAS - 3.
Definition REF_FALSE : Z := REF_BIAS - 2.
Definition REF_NIL : Z := REF_BIAS - 1.
Definition REF_BASE : Z := REF_BIAS.
Definition REF_FIRST : Z := REF_BIAS + 1.
Definition REF_DROP : Z := 0xffff.

Definition irref_isk (ref : Z) : bool := ref <? REF_BIAS.

Record IRIns := mkIns {
  ins_o : IROp;
  ins_t : Z;
  op1 : Z;
  op2 : Z;
  prev : Z;
}.
#[export] Instance IRIns_eq_dec : EqDecision IRIns.
Proof. solve_decision. Defined.

(** The overlays of the operand fields. *)
Definition op12 (ir : IRIns) : Z := op1 ir + (op2 ir << 16).
Definition ins_i (ir : IRIns) : Z := i32 (op12 ir).
Definition set_op12 (ir : IRIns) (x : Z) : IRIns :=
  mkIns (ins_o ir) (ins_t ir) (u32 x .& 0xffff) (u32 x >> 16) (prev ir).

Definition set_op1 (ir : IRIns) (x : Z) : IRIns := mkIns (ins_o ir) (ins_t ir) x (op2 ir) (prev ir).
Definition set_op2 (ir : IRIns) (x : Z) : IRIns := mkIns (ins_o ir) (ins_t ir) (op1 ir) x (prev ir).
Definition set_o (ir : IRIns) (o : IROp) : IRIns := mkIns o (ins_t ir) (op1 ir) (op2 ir) (prev ir).
Definition set_ot (ir : IRIns) (o : IROp) (t : Z) : IRIns := mkIns o t (op1 ir) (op2 ir) (prev ir).

Definition nil_ins : IRIns := mkIns IR_NOP 0 0 0 0.

(** Scalar evolution analysis slot, as far as FOLD reads it. *)
Record ScEvEntry := mkScev { scev_idx : Z; scev_start : Z; scev_stop : Z; scev_dir : Z }.

(** The part of [jit_State] the IR emitter and FOLD use. [k64] is the chained
    array of 64-bit constants; an address in it is the index. *)
Record jit_State := mkJ {
  ir : gmap Z IRIns;
  nk : Z;
  nins : Z;
  chain : IROp -> Z;
  k64 : list Z;
  guardemit : Z;
  fins : IRIns;
  fleft : IRIns;
  fright : IRIns;
  flags : Z;
  scev : ScEvEntry;
}.

Definition IR (J : jit_State) (ref : Z) : IRIns := default nil_ins (ir J !! ref).

Definition set_fins (J : jit_State) (f : IRIns) : jit_State :=
  mkJ (ir J) (nk J) (nins J) (chain J) (k64 J) (guardemit J) f (fleft J) (fright J) (flags J) (scev J).
Definition set_lr (J : jit_State) (l r : IRIns) : jit_State :=
  mkJ (ir J) (nk J) (nins J) (chain J) (k64 J) (guardemit J) (fins J) l r (flags J) (scev J).
Definition set_ir (J : jit_State) (m : gmap Z IRIns) : jit_State :=
  mkJ m (nk J) (nins J) (chain J) (k64 J) (guardemit J) (fins J) (fleft J) (fright J) (flags J) (scev J).
Definition set_k64 (J : jit_State) (k : list Z) : jit_State :=
  mkJ (ir J) (nk J) (nins J) (chain J) k (guardemit J) (fins J) (fleft J) (fright J) (flags J) (scev J).

Definition upd_chain (c : IROp -> Z) (o : IROp) (ref : Z) : IROp -> Z :=
  fun o' => if op_eqb o' o then ref else c o'.

(** Optimization flags. *)
Definition JIT_F_OPT_FOLD : Z := 0x00010000.
Definition JIT_F_OPT_CSE : Z := 0x00020000.
Definition JIT_F_OPT_FWD : Z := 0x00080000.
Definition JIT_F_OPT_DSE : Z := 0x00100000.
Definition JIT_F_OPT_ABC : Z := 0x00800000.
Definition has_flag (J : jit_State) (f : Z) : bool := negb (flags J .& f =? 0).

(** ** The emitter *)

(** [lj_ir_set] *)
Definition lj_ir_set (J : jit_State) (o : IROp) (t a b : Z) : jit_State :=
  set_fins J (mkIns o t a b (prev (fins J))).

(** Append [ins] to its chain ([lj_ir_nextins] and the field stores). *)
Definition ir_append (J : jit_State) (o : IROp) (t a b : Z) : Z * jit_State :=
  let ref := nins J in
  let ins := mkIns o t a b (chain J o) in
  (ref, mkJ (<[ref := ins]> (ir J)) (nk J) (ref + 1) (upd_chain (chain J) o ref) (k64 J)
          (guardemit J .| t) (fins J) (fleft J) (fright J) (flags J) (scev J)).

Definition lj_ir_emit (J : jit_State) : Z * jit_State :=
  let f := fins J in ir_append J (ins_o f) (ins_t f) (op1 f) (op2 f).

(** Walk a chain while [ref > lim] for an instruction that satisfies [p]; 0 if
    there is none. *)
Fixpoint chain_find (fuel : nat) (p : IRIns -> bool) (m : gmap Z IRIns) (lim ref : Z) : Z :=
  match fuel with
  | O => 0
  | S fuel =>
      if lim <? ref then
        let ins := default nil_ins (m !! ref) in
        if p ins then ref else chain_find fuel p m lim (prev ins)
      else 0
  end.

(** A chain is no longer than the number of instructions. *)
Definition chain_search (J : jit_State) (o : IROp) (p : IRIns -> bool) (lim : Z) : Z :=
  chain_find (S (size (ir J))) p (ir J) lim (chain J o).

(** ** Interning of constants *)

(** The common body of the interning functions: search the chain of [o],
    otherwise add the constant below the others ([ir_nextk]). *)
Definition ir_intern (J : jit_State) (o : IROp) (t a b : Z) (same : IRIns -> bool) : Z * jit_State :=
  let ref := chain_search J o same 0 in
  if negb (ref =? 0) then (ref, J)
  else
    let ref := nk J - 1 in
    let ins := mkIns o t a b (chain J o) in
    (ref, mkJ (<[ref := ins]> (ir J)) ref (nins J) (upd_chain (chain J) o ref) (k64 J)
            (guardemit J) (fins J) (fleft J) (fright J) (flags J) (scev J)).

Definition lo16 (x : Z) : Z := u32 x .& 0xffff.
Definition hi16 (x : Z) : Z := u32 x >> 16.

Definition lj_ir_kint (J : jit_State) (k : Z) : Z * jit_State :=
  ir_intern J IR_KINT IRT_INT (lo16 k) (hi16 k) (fun ins => ins_i ins =? k).

(** Addresses of the SIMD constants, outside of the chained array. *)
Definition LJ_KSIMD_ABS : Z := 0xfffffff0.
Definition LJ_KSIMD_NEG : Z := 0xffffffe0.

Definition k64_at (J : jit_State) (a : Z) : Z :=
  if a =? LJ_KSIMD_ABS then 0x7fffffffffffffff
  else if a =? LJ_KSIMD_NEG then 0x8000000000000000
  else default 0 (k64 J !! Z.to_nat a).

(** The 64-bit value of a [KNUM] or [KINT64]. *)
Definition ir_k64 (J : jit_State) (ins : IRIns) : Z := k64_at J (op12 ins).
Definition ir_knum := ir_k64.
Definition ir_kint64 := ir_k64.

Fixpoint k64_index (l : list Z) (u : Z) (i : Z) : option Z :=
  match l with
  | [] => None
  | x :: l => if x =? u then Some i else k64_index l u (i + 1)
  end.

Definition lj_ir_k64_find (J : jit_State) (u : Z) : Z * jit_State :=
  match k64_index (k64 J) u 0 with
  | Some a => (a, J)
  | None => (Z.of_nat (length (k64 J)), set_k64 J (k64 J ++ [u]))
  end.

Definition lj_ir_k64 (J : jit_State) (o : IROp) (a : Z) : Z * jit_State :=
  let t := if op_eqb o IR_KNUM then IRT_NUM else IRT_I64 in
  ir_intern J o t (lo16 a) (hi16 a) (fun ins => op12 ins =? a).

Definition lj_ir_knum_u64 (J : jit_State) (u : Z) : Z * jit_State :=
  let '(a, J) := lj_ir_k64_find J u in lj_ir_k64 J IR_KNUM a.
Definition lj_ir_knum := lj_ir_knum_u64.
Definition lj_ir_kint64 (J : jit_State) (u : Z) : Z * jit_State :=
  let '(a, J) := lj_ir_k64_find J u in lj_ir_k64 J IR_KINT64 a.
Definition lj_ir_knum_one (J : jit_State) : Z * jit_State := lj_ir_knum_u64 J 0x3ff0000000000000.
Definition lj_ir_knum_neg (J : jit_State) : Z * jit_State := lj_ir_k64 J IR_KNUM LJ_KSIMD_NEG.

Definition numistrueint (n : Z) : option Z :=
  let k := lj_num2int n in
  if deq n (int2num k) then
    if k =? 0 then (if n >> 32 =? 0 then Some k else None) else Some k
  else None.

Definition lj_ir_knumint (J : jit_State) (n : Z) : Z * jit_State :=
  match numistrueint n with Some k => lj_ir_kint J k | None => lj_ir_knum J n end.

Definition lj_ir_kgc (J : jit_State) (o t : Z) : Z * jit_State :=
  ir_intern J IR_KGC t (lo16 o) (hi16 o) (fun ins => op12 ins =? o).
Definition lj_ir_kptr_ (J : jit_State) (op : IROp) (p : Z) : Z * jit_State :=
  ir_intern J op IRT_P32 (lo16 p) (hi16 p) (fun ins => op12 ins =? p).
Definition lj_ir_knull (J : jit_State) (t : Z) : Z * jit_State :=
  ir_intern J IR_KNULL t 0 0 (fun ins => ins_t ins =? t).
Definition lj_ir_kslot (J : jit_State) (key slot : Z) : Z * jit_State :=
  ir_intern J IR_KSLOT IRT_P32 key slot (fun ins => (op1 ins =? key) && (op2 ins =? slot)).

(** ** Miscellaneous *)

Definition lj_ir_numcmp (a b : Z) (op : IROp) : bool :=
  match op with
  | IR_EQ => deq a b
  | IR_NE => negb (deq a b)
  | IR_LT => dlt a b
  | IR_GE => dle b a
  | IR_LE => dle a b
  | IR_GT => dlt b a
  | IR_ULT => negb (dle b a)
  | IR_UGE => negb (dlt a b)
  | IR_ULE => negb (dlt b a)
  | IR_UGT => negb (dle a b)
  | _ => false
  end.

(** [lj_ir_rollback]: drop the instructions from [ref] on.  The source lowers
    [nins] and leaves the dropped instructions in memory, where nothing reads
    them before the next ones overwrite them: an index is below [nins]
    everywhere.  The map of the model holds the instructions below [nins]
    only, so they are deleted. *)
Fixpoint ir_rollback (n : nat) (J : jit_State) : jit_State :=
  match n with
  | O => J
  | S n =>
      let i := nins J - 1 in
      let ins := IR J i in
      ir_rollback n (mkJ (delete i (ir J)) (nk J) i (upd_chain (chain J) (ins_o ins) (prev ins))
                       (k64 J) (guardemit J) (fins J) (fleft J) (fright J) (flags J) (scev J))
  end.
Definition lj_ir_rollback (J : jit_State) (ref : Z) : jit_State :=
  ir_rollback (Z.to_nat (nins J - ref)) J.

(** ** Common-subexpression elimination *)

Definition lj_opt_cse (J : jit_State) : Z * jit_State :=
  let f := fins J in
  let ref :=
    if has_flag J JIT_F_OPT_CSE then
      let lim := if op1 f <? op2 f then op2 f else op1 f in
      chain_search J (ins_o f) (fun ins => (op1 ins =? op1 f) && (op2 ins =? op2 f)) lim
    else 0 in
  if negb (ref =? 0) then (ref, J)
  else ir_append J (ins_o f) (ins_t f) (op1 f) (op2 f).

Definition lj_opt_cselim (J : jit_State) (lim : Z) : Z * jit_State :=
  let f := fins J in
  let ref := chain_search J (ins_o f) (fun ins => (op1 ins =? op1 f) && (op2 ins =? op2 f)) lim in
  if negb (ref =? 0) then (ref, J) else lj_ir_emit J.

(** The IR a recording starts with ([lj_record_setup]): [BASE] and the three
    primitive constants.  There are no results of the scalar evolution
    analysis: its index is [REF_NIL], and the other slots are those of a
    state that is new. *)
Definition ir_setup (parent exitno : Z) (fl : Z) : jit_State :=
  let pri i := (REF_NIL - i, mkIns IR_KPRI (IRT_NIL + i) 0 0 0) in
  mkJ (list_to_map [(REF_BASE, mkIns IR_BASE IRT_P32 parent exitno 0); pri 0; pri 1; pri 2])
    REF_TRUE (REF_BASE + 1) (fun o => if op_eqb o IR_BASE then REF_BASE else 0) [] 0
    nil_ins nil_ins nil_ins fl (mkScev REF_NIL 0 0 0).
