(* ===== verification/IrInv.v ===== *)
(** * Well-formed IR

    The invariants of the IR buffer of [Ir.v]: instructions fill the range
    between [nk] and [nins], constants are below [REF_BIAS], every opcode's
    chain lists exactly the instructions with that opcode, and interned
    constants are unique.  The primitives that add instructions keep them. *)

From S2P Require Import Prelude Machine Num Ir.

(** ** Chains *)

Inductive chained (m : gmap Z IRIns) : Z -> list Z -> Prop :=
| chained_nil : chained m 0 []
| chained_cons ref ins l :
    0 < ref -> m !! ref = Some ins -> chained m (prev ins) l -> chained m ref (ref :: l).

Lemma chained_mono m m' ref l : m ⊆ m' -> chained m ref l -> chained m' ref l.
Proof.
  intros Hm. induction 1; [constructor|]. econstructor; [done| |done].
  by eapply lookup_weaken.
Qed.

Lemma chain_find_spec m p lim l : forall ref fuel,
  0 <= lim -> chained m ref l -> (length l < fuel)%nat ->
  let r := chain_find fuel p m lim ref in
  (r = 0 /\ (lim = 0 -> forall r' ins, r' ∈ l -> m !! r' = Some ins -> p ins = false)) \/
  (r ∈ l /\ lim < r /\ exists ins, m !! r = Some ins /\ p ins = true).
Proof.
  cbv zeta. induction l as [|x l IH]; intros ref fuel Hlim Hc Hf; inversion Hc as [|? ins ? Hpos Hm Hc']; subst.
  - left. destruct fuel as [|fuel]; [simpl in Hf; lia|]. cbn [chain_find].
    destruct (Z.ltb_spec lim 0); [lia|]. split; [done|].
    intros _ r' i Hr'. by apply elem_of_nil in Hr'.
  - destruct fuel as [|fuel]; [simpl in Hf; lia|]. cbn [chain_find]. rewrite Hm. cbn [from_option id].
    destruct (Z.ltb_spec lim x).
    + destruct (p ins) eqn:Ep.
      * right. split_and!; [by left|done|eauto].
      * destruct (IH (prev ins) fuel Hlim Hc') as [[-> H1]|(H1 & H2 & H3)]; [simpl in Hf; lia| |].
        -- left. split; [done|]. intros E r' i [->|Hr']%elem_of_cons Hi; [congruence|by apply (H1 E r')].
        -- right. split_and!; [by right|done..].
    + left. split; [done|]. intros ->. lia.
Qed.

(** ** The invariant *)

Definition is_kop (o : IROp) : bool :=
  match o with
  | IR_KPRI | IR_KINT | IR_KGC | IR_KPTR | IR_KKPTR | IR_KNULL | IR_KNUM | IR_KINT64 | IR_KSLOT => true
  | _ => false
  end.

(** Constants whose payload identifies them. *)
Definition is_uniq (o : IROp) : bool :=
  match o with IR_KINT | IR_KGC | IR_KNUM | IR_KINT64 => true | _ => false end.

Definition half (x : Z) : Prop := 0 <= x < 2 ^ 16.

Definition k64_valid (J : jit_State) (a : Z) : Prop := 0 <= a < Z.of_nat (length (k64 J)).

Definition kins_ok (J : jit_State) (ins : IRIns) : Prop :=
  match ins_o ins with
  | IR_KINT => ins_t ins = IRT_INT /\ half (op1 ins) /\ half (op2 ins)
  | IR_KNUM => ins_t ins = IRT_NUM /\ half (op1 ins) /\ half (op2 ins) /\
      (k64_valid J (op12 ins) \/ op12 ins = LJ_KSIMD_NEG \/ op12 ins = LJ_KSIMD_ABS)
  | IR_KINT64 => ins_t ins = IRT_I64 /\ half (op1 ins) /\ half (op2 ins) /\ k64_valid J (op12 ins)
  | IR_KGC => (IRT_STR <= ins_t ins <= IRT_UDATA /\ ins_t ins <> IRT_P64) /\ half (op1 ins) /\ half (op2 ins)
  | IR_KPTR | IR_KKPTR => ins_t ins = IRT_P32 /\ half (op1 ins) /\ half (op2 ins)
  | _ => True
  end.

Record ir_wf (J : jit_State) : Prop := {
  wf_dom : forall ref, is_Some (ir J !! ref) <-> nk J <= ref < nins J;
  wf_nk : 0x4000 <= nk J < REF_BIAS;
  wf_nins : REF_BIAS < nins J;
  wf_k : forall ref ins, ir J !! ref = Some ins -> (ref < REF_BIAS <-> is_kop (ins_o ins) = true);
  wf_chain : forall o, o <> IR_KPRI -> exists l, chained (ir J) (chain J o) l /\ NoDup l /\
    forall ref, ref ∈ l <-> exists ins, ir J !! ref = Some ins /\ ins_o ins = o;
  wf_kins : forall ref ins, ir J !! ref = Some ins -> kins_ok J ins;
  wf_uniq : forall r1 r2 i1 i2, ir J !! r1 = Some i1 -> ir J !! r2 = Some i2 ->
    ins_o i1 = ins_o i2 -> is_uniq (ins_o i1) = true -> op12 i1 = op12 i2 -> r1 = r2;
  wf_k64 : NoDup (k64 J) /\ Forall is_u64 (k64 J);
}.

(** Room for the constants that were added: references and addresses have not
    run out (the recorder limits both). *)
Definition room (J : jit_State) : Prop := 0x4000 <= nk J /\ Z.of_nat (length (k64 J)) < 2 ^ 31.

(** What adding instructions does to the state. *)
Record grows (J J' : jit_State) : Prop := {
  gr_ir : ir J ⊆ ir J';
  gr_nk : nk J' <= nk J;
  gr_nins : nins J <= nins J';
  gr_k64 : exists l, k64 J' = k64 J ++ l;
  gr_flags : flags J' = flags J;
  gr_scev : scev J' = scev J;
}.

Lemma grows_refl J : grows J J.
Proof. constructor; try done. exists []. by rewrite app_nil_r. Qed.

Lemma grows_trans J1 J2 J3 : grows J1 J2 -> grows J2 J3 -> grows J1 J3.
Proof.
  intros [A1 A2 A3 [l1 A4] A5 A6] [B1 B2 B3 [l2 B4] B5 B6]. constructor; try lia; try congruence.
  - by etrans.
  - exists (l1 ++ l2). by rewrite app_assoc, <- A4.
Qed.

Lemma room_grows J J' : grows J J' -> room J' -> room J.
Proof.
  intros [_ Hnk _ [l Hk] _ _] [H1 H2]. rewrite Hk, length_app in H2. split; lia.
Qed.

(** Only the fold state differs. *)
Definition same_ir (J J' : jit_State) : Prop :=
  ir J' = ir J /\ nk J' = nk J /\ nins J' = nins J /\ chain J' = chain J /\ k64 J' = k64 J /\
  flags J' = flags J /\ scev J' = scev J.

Lemma same_ir_grows J J' : same_ir J J' -> grows J J'.
Proof.
  intros (H1 & H2 & H3 & H4 & H5 & H6 & H7). constructor; rewrite ?H1, ?H2, ?H3, ?H5; try done.
  exists []. by rewrite app_nil_r.
Qed.

Lemma same_ir_wf J J' : same_ir J J' -> ir_wf J -> ir_wf J'.
Proof.
  intros (H1 & H2 & H3 & H4 & H5 & H6 & H7) [W1 W2 W3 W4 W5 W6 W7 W8].
  constructor; rewrite ?H1, ?H2, ?H3, ?H4, ?H5; try done.
  intros ref ins Hi. pose proof (W6 ref ins Hi) as K. unfold kins_ok, k64_valid in *.
  by rewrite H5.
Qed.

Lemma set_fins_same J f : same_ir J (set_fins J f).
Proof. done. Qed.

(** ** Chains of a well-formed IR *)

Lemma chain_length J (l : list Z) :
  NoDup l -> (forall ref, ref ∈ l -> is_Some (ir J !! ref)) -> (length l < S (size (ir J)))%nat.
Proof.
  intros Hnd Hl. apply Nat.lt_succ_r. rewrite <- size_dom, <- (size_list_to_set (C:=gset Z) l Hnd).
  apply subseteq_size. intros ref. rewrite elem_of_list_to_set, elem_of_dom. apply Hl.
Qed.

Lemma chain_search_spec J o p lim :
  ir_wf J -> o <> IR_KPRI -> 0 <= lim ->
  let r := chain_search J o p lim in
  (r = 0 /\ (lim = 0 -> forall ref ins, ir J !! ref = Some ins -> ins_o ins = o -> p ins = false)) \/
  (lim < r /\ exists ins, ir J !! r = Some ins /\ ins_o ins = o /\ p ins = true).
Proof.
  intros W Ho Hlim. destruct (wf_chain J W o Ho) as (l & Hc & Hnd & Hl).
  assert (Hlen : (length l < S (size (ir J)))%nat).
  { apply chain_length; [done|]. intros ref (ins & Hi & _)%Hl. eauto. }
  unfold chain_search.
  destruct (chain_find_spec (ir J) p lim l (chain J o) _ Hlim Hc Hlen) as [[-> H]|(H1 & H2 & H3)].
  - left. split; [done|]. intros E ref ins Hi Hio. apply (H E ref); [|done]. apply Hl. eauto.
  - right. split; [done|]. destruct H3 as (ins & Hi & Hp). apply Hl in H1 as (ins' & Hi' & Ho').
    exists ins. split_and!; [done| |done]. congruence.
Qed.

(** ** Adding an instruction *)

(** A new instruction [ins] at a fresh reference becomes the head of its chain. *)
Lemma wf_chain_insert J ref ins :
  ir_wf J -> ir J !! ref = None -> 0 < ref -> ins_o ins <> IR_KPRI -> prev ins = chain J (ins_o ins) ->
  forall o, o <> IR_KPRI -> exists l,
    chained (<[ref := ins]> (ir J)) (upd_chain (chain J) (ins_o ins) ref o) l /\ NoDup l /\
    forall r, r ∈ l <-> exists i, <[ref := ins]> (ir J) !! r = Some i /\ ins_o i = o.
Proof.
  intros W Hn Hpos Ho Hprev o Hk. destruct (wf_chain J W o Hk) as (l & Hc & Hnd & Hl).
  assert (Hsub : ir J ⊆ <[ref := ins]> (ir J)) by by apply insert_subseteq.
  assert (Hout : ref ∉ l) by (intros (i & Hi & _)%Hl; congruence).
  unfold upd_chain. destruct (op_eqb o (ins_o ins)) eqn:E.
  - apply op_eqb_eq in E as ->. exists (ref :: l). split_and!.
    + econstructor; [done|by rewrite lookup_insert_eq|]. rewrite Hprev. by eapply chained_mono.
    + by apply NoDup_cons_2.
    + intros r. rewrite elem_of_cons, Hl. split.
      * intros [->|(i & Hi & Hio)].
        -- exists ins. by rewrite lookup_insert_eq.
        -- exists i. split; [|done]. rewrite lookup_insert_ne; [done|]. intros ->. congruence.
      * intros (i & Hi & Hio). destruct (decide (r = ref)) as [->|Hne]; [by left|right].
        rewrite lookup_insert_ne in Hi by done. eauto.
  - exists l. split_and!; [by eapply chained_mono|done|]. intros r. rewrite Hl. split.
    + intros (i & Hi & Hio). exists i. split; [|done]. rewrite lookup_insert_ne; [done|].
      intros ->. congruence.
    + intros (i & Hi & Hio). destruct (decide (r = ref)) as [->|Hne].
      * rewrite lookup_insert_eq in Hi. injection Hi as <-.
        rewrite Hio in E. by rewrite (proj2 (op_eqb_eq o o) eq_refl) in E.
      * rewrite lookup_insert_ne in Hi by done. eauto.
Qed.

Definition ir_add (J : jit_State) (ref : Z) (ins : IRIns) (nk' nins' g : Z) : jit_State :=
  mkJ (<[ref := ins]> (ir J)) nk' nins' (upd_chain (chain J) (ins_o ins) ref) (k64 J) g
    (fins J) (fleft J) (fright J) (flags J) (scev J).

Lemma ir_add_wf J ref ins nk' nins' g :
  ir_wf J -> ins_o ins <> IR_KPRI -> prev ins = chain J (ins_o ins) ->
  kins_ok J ins -> 0x4000 <= nk' ->
  (ref = nins J /\ nk' = nk J /\ nins' = nins J + 1 /\ is_kop (ins_o ins) = false) \/
  (ref = nk J - 1 /\ nk' = nk J - 1 /\ nins' = nins J /\ is_kop (ins_o ins) = true /\
   (is_uniq (ins_o ins) = true -> forall r i, ir J !! r = Some i -> ins_o i = ins_o ins -> op12 i <> op12 ins)) ->
  ir_wf (ir_add J ref ins nk' nins' g) /\ grows J (ir_add J ref ins nk' nins' g).
Proof.
  intros W Ho Hprev Hkins Hpos Hcase.
  pose proof (wf_nk J W) as Hnk. pose proof (wf_nins J W) as Hni.
  assert (Hfresh : ir J !! ref = None).
  { apply eq_None_not_Some. rewrite (wf_dom J W). lia. }
  assert (Hp : 0 < ref) by lia.
  split; [|constructor; simpl; try lia; try done; [by apply insert_subseteq|exists []; by rewrite app_nil_r]].
  assert (Hlk : forall r i, <[ref:=ins]> (ir J) !! r = Some i -> r = ref /\ i = ins \/ r <> ref /\ ir J !! r = Some i).
  { intros r i Hi. destruct (decide (r = ref)) as [->|Hne].
    - rewrite lookup_insert_eq in Hi. left. split; congruence.
    - rewrite lookup_insert_ne in Hi by done. by right. }
  constructor; simpl.
  - intros r. destruct (decide (r = ref)) as [->|Hne].
    + rewrite lookup_insert_eq. split; [lia|eauto].
    + rewrite lookup_insert_ne, (wf_dom J W) by done. lia.
  - lia.
  - lia.
  - intros r i [[-> ->]|[_ Hi]]%Hlk; [|by apply (wf_k J W)].
    destruct Hcase as [(-> & _ & _ & ->)|(-> & _ & _ & -> & _)]; split; try done; lia.
  - apply wf_chain_insert; done.
  - intros r i [[-> ->]|[_ Hi]]%Hlk; [done|]. by apply (wf_kins J W r).
  - intros r1 r2 i1 i2 [[-> ->]|[H1 Hi1]]%Hlk [[-> ->]|[H2 Hi2]]%Hlk Heo Hu E; [done| | |].
    + destruct Hcase as [(_ & _ & _ & Hc)|(_ & _ & _ & _ & Hc)]; [by destruct (ins_o ins)|].
      by destruct (Hc Hu r2 i2 Hi2 (eq_sym Heo)).
    + rewrite Heo in Hu. destruct Hcase as [(_ & _ & _ & Hc)|(_ & _ & _ & _ & Hc)]; [by destruct (ins_o ins)|].
      by destruct (Hc Hu r1 i1 Hi1 Heo).
    + by apply (wf_uniq J W r1 r2 i1 i2).
  - apply W.
Qed.

(** ** Interned constants *)

Lemma lo_hi x : lo16 x + (hi16 x << 16) = u32 x.
Proof.
  unfold lo16, hi16. change 0xffff with (2 ^ 16 - 1). rewrite land_ones_mod by lia.
  rewrite Z.shiftr_div_pow2, Z.shiftl_mul_pow2 by lia. wsolve.
Qed.

Lemma half_lo x : half (lo16 x).
Proof. unfold half, lo16. change 0xffff with (2 ^ 16 - 1). rewrite land_ones_mod by lia. wsolve. Qed.
Lemma half_hi x : half (hi16 x).
Proof. unfold half, hi16. rewrite Z.shiftr_div_pow2 by lia. wsolve. Qed.
#[export] Hint Resolve half_lo half_hi : width.

Lemma op12_halves o t x p : op12 (mkIns o t (lo16 x) (hi16 x) p) = u32 x.
Proof. apply lo_hi. Qed.

Lemma ins_i_halves o t x p : is_i32 x -> ins_i (mkIns o t (lo16 x) (hi16 x) p) = x.
Proof. intros. unfold ins_i. by rewrite op12_halves, i32_u32, i32_id. Qed.

(** The fold state is left alone. *)
Definition same_fold (J J' : jit_State) : Prop :=
  fins J' = fins J /\ fleft J' = fleft J /\ fright J' = fright J.

(** What an interning function gives: a constant [ins] of opcode [o]. *)
Definition const_post (J : jit_State) (o : IROp) (P : jit_State -> IRIns -> Prop) (ref : Z) (J' : jit_State) : Prop :=
  ir_wf J' /\ grows J J' /\ same_fold J J' /\
  exists ins, ir J' !! ref = Some ins /\ ins_o ins = o /\ P J' ins.

Lemma ir_intern_spec J o t a b same ref J' :
  ir_wf J -> is_kop o = true -> o <> IR_KPRI ->
  ir_intern J o t a b same = (ref, J') -> room J' ->
  (forall p, kins_ok J (mkIns o t a b p) /\ same (mkIns o t a b p) = true) ->
  (is_uniq o = true -> forall ins, ins_o ins = o -> op12 ins = a + (b << 16) -> same ins = true) ->
  const_post J o (fun _ ins => same ins = true) ref J'.
Proof.
  intros W Hk Ho Hi [Hpos _] Hnew Huniq. unfold ir_intern in Hi.
  destruct (chain_search_spec J o same 0 W Ho ltac:(lia)) as [[E H]|(Hr & ins & Hins & Hio & Hs)].
  - rewrite E in Hi. cbn [negb Z.eqb] in Hi. injection Hi as <- <-.
    set (ins := mkIns o t a b (chain J o)).
    destruct (ir_add_wf J (nk J - 1) ins (nk J - 1) (nins J) (guardemit J)) as [W' G]; try done.
    + apply Hnew.
    + right. split_and!; try done. intros Hu r i Hir Hio Eop. simpl in *.
      pose proof (H eq_refl r i Hir Hio) as Hf. rewrite (Huniq Hu i) in Hf; [done|done|].
      by rewrite Eop.
    + split_and!; try done. exists ins. simpl. rewrite lookup_insert_eq. split_and!; try done.
      apply Hnew.
  - replace (chain_search J o same 0 =? 0) with false in Hi by (symmetry; apply Z.eqb_neq; lia).
    injection Hi as <- <-. split_and!; try done; [apply grows_refl|]. eauto.
Qed.

Lemma const_post_mono J o (P Q : jit_State -> IRIns -> Prop) ref J' :
  const_post J o P ref J' -> (forall ins, P J' ins -> Q J' ins) -> const_post J o Q ref J'.
Proof.
  intros (H1 & H2 & H3 & ins & H4 & H5 & H6) HPQ. split_and!; try done. exists ins. auto.
Qed.

Lemma lj_ir_kint_spec J k ref J' :
  ir_wf J -> is_i32 k -> lj_ir_kint J k = (ref, J') -> room J' ->
  const_post J IR_KINT (fun _ ins => ins_i ins = k) ref J'.
Proof.
  intros W Hk E R. eapply const_post_mono; [eapply ir_intern_spec; try done|].
  - intros p. split; [split_and!; auto with width; apply half_lo || apply half_hi|].
    by rewrite ins_i_halves, Z.eqb_refl.
  - intros _ ins _ Eo. rewrite lo_hi in Eo. unfold ins_i. rewrite Eo, i32_u32, i32_id by done.
    apply Z.eqb_refl.
  - intros ins Hs. by apply Z.eqb_eq in Hs.
Qed.

Lemma lj_ir_kptr_spec J op p ref J' :
  ir_wf J -> op = IR_KPTR \/ op = IR_KKPTR -> is_u32 p -> lj_ir_kptr_ J op p = (ref, J') -> room J' ->
  const_post J op (fun _ ins => op12 ins = p) ref J'.
Proof.
  intros W Ho Hp E R. eapply const_post_mono; [eapply ir_intern_spec; try done|].
  - by destruct Ho as [-> | ->].
  - by destruct Ho as [-> | ->].
  - intros q. split; [|by rewrite op12_halves, u32_id, Z.eqb_refl].
    unfold kins_ok. destruct Ho as [-> | ->]; simpl; split_and!; auto with width.
  - by destruct Ho as [-> | ->].
  - intros ins Hs. by apply Z.eqb_eq in Hs.
Qed.

(** *** 64-bit constants *)

Lemma k64_index_spec l u : forall i,
  match k64_index l u i with
  | Some a => i <= a < i + Z.of_nat (length l) /\ l !! Z.to_nat (a - i) = Some u
  | None => u ∉ l
  end.
Proof.
  induction l as [|x l IH]; intros i; simpl; [by intros H%elem_of_nil|].
  destruct (Z.eqb_spec x u) as [->|Hne].
  - split; [lia|]. by rewrite Z.sub_diag.
  - specialize (IH (i + 1)). destruct (k64_index l u (i + 1)) as [a|].
    + destruct IH as [H1 H2]. split; [lia|].
      replace (Z.to_nat (a - i)) with (S (Z.to_nat (a - (i + 1)))) by lia. done.
    + intros [->|H]%elem_of_cons; done.
Qed.

Lemma k64_at_index J a : k64_valid J a -> Z.of_nat (length (k64 J)) < 2 ^ 31 ->
  k64_at J a = default 0 (k64 J !! Z.to_nat a).
Proof.
  intros [H1 H2] Hl. unfold k64_at, LJ_KSIMD_ABS, LJ_KSIMD_NEG.
  rewrite !(proj2 (Z.eqb_neq a _)) by lia. done.
Qed.

Lemma k64_at_grows J J' a :
  grows J J' -> k64_valid J a -> k64_at J' a = k64_at J a.
Proof.
  intros [_ _ _ [l Hl] _ _] [H1 H2]. unfold k64_at. rewrite Hl.
  destruct (a =? LJ_KSIMD_ABS); [done|]. destruct (a =? LJ_KSIMD_NEG); [done|].
  by rewrite lookup_app_l by lia.
Qed.

Lemma set_k64_wf J u :
  ir_wf J -> is_u64 u -> u ∉ k64 J -> ir_wf (set_k64 J (k64 J ++ [u])).
Proof.
  intros [W1 W2 W3 W4 W5 W6 W7 [W8 W9]] Hu Hn. constructor; simpl; try done.
  - intros ref ins Hi. pose proof (W6 ref ins Hi) as K. unfold kins_ok, k64_valid in *. simpl.
    rewrite length_app. simpl. destruct (ins_o ins); try done; intuition lia.
  - split.
    + apply list.NoDup_app. split_and!; [done| |by apply list.NoDup_singleton].
      by intros x Hx ->%list_elem_of_singleton.
    + apply Forall_app. split; [done|]. by constructor.
Qed.

Lemma lj_ir_k64_find_spec J u a J1 :
  ir_wf J -> is_u64 u -> lj_ir_k64_find J u = (a, J1) -> room J1 ->
  ir_wf J1 /\ grows J J1 /\ same_fold J J1 /\ k64_valid J1 a /\ k64_at J1 a = u.
Proof.
  intros W Hu E [R1 R2]. unfold lj_ir_k64_find in E. pose proof (k64_index_spec (k64 J) u 0) as S.
  destruct (k64_index (k64 J) u 0) as [a'|].
  - injection E as <- <-. destruct S as [H1 H2]. rewrite Z.sub_0_r in H2.
    assert (V : k64_valid J a') by (unfold k64_valid; lia).
    split_and!; try done; [apply grows_refl|]. rewrite k64_at_index by done. by rewrite H2.
  - injection E as <- <-. set (J1 := set_k64 _ _) in *.
    assert (V : k64_valid J1 (Z.of_nat (length (k64 J)))).
    { unfold k64_valid. simpl. rewrite length_app. simpl. lia. }
    split_and!; try done; [by apply set_k64_wf|constructor; try done; by exists [u]|].
    rewrite k64_at_index by done. simpl. rewrite Nat2Z.id.
    by rewrite lookup_app_r, Nat.sub_diag.
Qed.

Lemma lj_ir_k64_spec J o a ref J' :
  ir_wf J -> (o = IR_KNUM \/ o = IR_KINT64) ->
  k64_valid J a \/ (o = IR_KNUM /\ (a = LJ_KSIMD_NEG \/ a = LJ_KSIMD_ABS)) ->
  lj_ir_k64 J o a = (ref, J') -> room J' ->
  const_post J o (fun _ ins => op12 ins = a) ref J'.
Proof.
  intros W Ho Ha E R.
  assert (Hu : u32 a = a).
  { apply u32_id. destruct Ha as [[H1 H2]|[_ [-> | ->]]]; [|done..].
    assert (Z.of_nat (length (k64 J)) < 2 ^ 31).
    { unfold lj_ir_k64, ir_intern in E. destruct (negb _); injection E as <- <-; apply R. }
    widths. lia. }
  eapply const_post_mono; [eapply ir_intern_spec; try done|].
  - by destruct Ho as [-> | ->].
  - by destruct Ho as [-> | ->].
  - intros p. split; [|by rewrite op12_halves, Hu, Z.eqb_refl].
    unfold kins_ok. cbn [ins_o ins_t op1 op2]. rewrite op12_halves, Hu.
    destruct Ho as [-> | ->]; simpl; split_and!; auto with width;
      destruct Ha as [?|[? ?]]; (discriminate || tauto).
  - intros _ ins _ Eo. rewrite lo_hi, Hu in Eo. by apply Z.eqb_eq.
  - intros ins Hs. by apply Z.eqb_eq in Hs.
Qed.

Lemma lj_ir_k64_u64_spec J o u a J1 ref J' :
  ir_wf J -> (o = IR_KNUM \/ o = IR_KINT64) -> is_u64 u ->
  lj_ir_k64_find J u = (a, J1) -> lj_ir_k64 J1 o a = (ref, J') -> room J' ->
  const_post J o (fun J' ins => ir_k64 J' ins = u) ref J'.
Proof.
  intros W Ho Hu E1 E2 R.
  assert (G2 : k64 J' = k64 J1 /\ nk J' <= nk J1).
  { unfold lj_ir_k64, ir_intern in E2. destruct (negb _); injection E2 as <- <-; simpl; split; done || lia. }
  assert (R1 : room J1) by (destruct R, G2 as [Ek ?]; split; [lia|by rewrite <- Ek]).
  destruct (lj_ir_k64_find_spec J u a J1 W Hu E1 R1) as (W1 & G1 & F1 & V & Ea).
  destruct (lj_ir_k64_spec J1 o a ref J' W1 Ho (or_introl V) E2 R) as (W' & G' & F' & ins & H1 & H2 & H3).
  split_and!; [done|by eapply grows_trans| |].
  { destruct F1 as (?&?&?), F' as (?&?&?). split_and!; congruence. }
  exists ins. split_and!; [done..|]. unfold ir_k64. rewrite H3, (k64_at_grows J1 J') by done. done.
Qed.

Lemma lj_ir_kint64_spec J u ref J' :
  ir_wf J -> is_u64 u -> lj_ir_kint64 J u = (ref, J') -> room J' ->
  const_post J IR_KINT64 (fun J' ins => ir_k64 J' ins = u) ref J'.
Proof.
  intros W Hu E R. unfold lj_ir_kint64 in E. destruct (lj_ir_k64_find J u) as [a J1] eqn:E1.
  eapply lj_ir_k64_u64_spec; eauto.
Qed.

Lemma lj_ir_knum_spec J u ref J' :
  ir_wf J -> is_u64 u -> lj_ir_knum_u64 J u = (ref, J') -> room J' ->
  const_post J IR_KNUM (fun J' ins => ir_k64 J' ins = u) ref J'.
Proof.
  intros W Hu E R. unfold lj_ir_knum_u64 in E. destruct (lj_ir_k64_find J u) as [a J1] eqn:E1.
  eapply lj_ir_k64_u64_spec; eauto.
Qed.

(** ** Emission, CSE and rollback *)

Lemma ir_append_spec J o t a b ref J' :
  ir_wf J -> is_kop o = false -> ir_append J o t a b = (ref, J') ->
  ir_wf J' /\ grows J J' /\ same_fold J J' /\ ref = nins J /\
  ir J' = <[ref := mkIns o t a b (chain J o)]> (ir J) /\ ir J !! ref = None.
Proof.
  intros W Hk [= <- <-]. set (ins := mkIns o t a b (chain J o)).
  destruct (ir_add_wf J (nins J) ins (nk J) (nins J + 1) (guardemit J .| t)) as [W' G]; try done.
  - cbn. intros ->. done.
  - unfold kins_ok. simpl. by destruct o.
  - apply (wf_nk J W).
  - left. by split_and!.
  - split_and!; try done. apply eq_None_not_Some. rewrite (wf_dom J W). lia.
Qed.

(** Replacing the right operand of an instruction that is not a constant. *)
Definition patch_op2 (J : jit_State) (ref : Z) (ins : IRIns) (b : Z) : jit_State :=
  set_ir J (<[ref := set_op2 ins b]> (ir J)).

Lemma chained_patch m ref ins b r l :
  m !! ref = Some ins -> chained m r l -> chained (<[ref := set_op2 ins b]> m) r l.
Proof.
  intros H. induction 1 as [|r i l Hp Hi Hc IH]; [constructor|].
  destruct (decide (r = ref)) as [->|Hne].
  - rewrite Hi in H. injection H as ->. econstructor; [done|apply lookup_insert_eq|done].
  - econstructor; [done|by rewrite lookup_insert_ne|done].
Qed.

Lemma patch_lookup J ref ins b r i :
  ir (patch_op2 J ref ins b) !! r = Some i ->
  (r = ref /\ i = set_op2 ins b) \/ (r <> ref /\ ir J !! r = Some i).
Proof.
  simpl. destruct (decide (r = ref)) as [->|Hne].
  - rewrite lookup_insert_eq. intros [= <-]. by left.
  - rewrite lookup_insert_ne by done. by right.
Qed.

Lemma patch_wf J ref ins b :
  ir_wf J -> ir J !! ref = Some ins -> is_kop (ins_o ins) = false -> ir_wf (patch_op2 J ref ins b).
Proof.
  intros [W1 W2 W3 W4 W5 W6 W7 W8] H Hk.
  assert (Hu : is_uniq (ins_o ins) = false) by by destruct (ins_o ins).
  constructor; try done.
  - intros r. simpl. destruct (decide (r = ref)) as [->|Hne].
    + rewrite lookup_insert_eq, <- W1, H. done.
    + by rewrite lookup_insert_ne.
  - intros r i [[-> ->]|[_ Hi]]%patch_lookup; [exact (W4 ref ins H)|by apply (W4 r)].
  - intros o Ho. destruct (W5 o Ho) as (l & Hc & Hn & Hl). exists l. split_and!; [by apply chained_patch|done|].
    intros r. rewrite Hl. simpl. destruct (decide (r = ref)) as [->|Hne].
    + rewrite lookup_insert_eq. split; intros (i & Hi & Hio).
      * exists (set_op2 ins b). split; [done|]. simpl. congruence.
      * injection Hi as <-. exists ins. done.
    + by rewrite lookup_insert_ne.
  - intros r i [[-> ->]|[_ Hi]]%patch_lookup; [|by apply (W6 r)]. unfold kins_ok. cbn [ins_o set_op2].
    by destruct (ins_o ins).
  - intros r1 r2 i1 i2 [[-> ->]|[H1 Hi1]]%patch_lookup [[-> ->]|[H2 Hi2]]%patch_lookup Ho Hq; try done.
    + simpl in Hq. congruence.
    + simpl in Ho. congruence.
    + by apply (W7 r1 r2 i1 i2).
Qed.

(** An instruction that computes what [f] does, according to CSE. *)
Definition same_expr (f ins : IRIns) : Prop :=
  ins_o ins = ins_o f /\ op1 ins = op1 f /\ op2 ins = op2 f.

Lemma lj_opt_cse_spec J ref J' :
  ir_wf J -> is_kop (ins_o (fins J)) = false -> 0 <= op1 (fins J) ->
  lj_opt_cse J = (ref, J') ->
  (J' = J /\ exists ins, ir J !! ref = Some ins /\ same_expr (fins J) ins) \/
  ir_append J (ins_o (fins J)) (ins_t (fins J)) (op1 (fins J)) (op2 (fins J)) = (ref, J').
Proof.
  intros W Hk H1 E. unfold lj_opt_cse in E. set (f := fins J) in *.
  destruct (has_flag J JIT_F_OPT_CSE); [|by right].
  set (lim := if op1 f <? op2 f then op2 f else op1 f) in *.
  assert (Hlim : 0 <= lim) by (subst lim; destruct (Z.ltb_spec (op1 f) (op2 f)); lia).
  destruct (chain_search_spec J (ins_o f) (fun ins => (op1 ins =? op1 f) && (op2 ins =? op2 f)) lim W)
    as [[E0 _]|(Hr & ins & Hi & Hio & Hp)]; [by intros X; rewrite X in Hk|done| |].
  - rewrite E0 in E. by right.
  - replace (chain_search _ _ _ _ =? 0) with false in E by (symmetry; apply Z.eqb_neq; lia).
    injection E as <- <-. left. split; [done|]. exists ins. split; [done|].
    apply andb_true_iff in Hp as [H2%Z.eqb_eq H3%Z.eqb_eq]. by split_and!.
Qed.

(** Two states with the same instructions and chains. *)
Definition ir_equiv (J J' : jit_State) : Prop :=
  ir J' = ir J /\ nk J' = nk J /\ nins J' = nins J /\ (forall o, chain J' o = chain J o).

Lemma rollback_append J o t a b ref J' :
  ir_wf J -> ir_append J o t a b = (ref, J') -> ir_equiv J (ir_rollback 1 J').
Proof.
  intros W [= <- <-]. unfold ir_equiv. simpl. replace (nins J + 1 - 1) with (nins J) by lia.
  assert (Hn : ir J !! nins J = None) by (apply eq_None_not_Some; rewrite (wf_dom J W); lia).
  unfold IR. simpl. rewrite lookup_insert_eq. simpl. split_and!; try done.
  - by rewrite delete_insert_id.
  - intros o'. unfold upd_chain. destruct (op_eqb o' o) eqn:E; [|done].
    by apply op_eqb_eq in E as ->.
Qed.

Lemma ir_rollback_equiv n : forall J1 J2, ir_equiv J1 J2 -> ir_equiv (ir_rollback n J1) (ir_rollback n J2).
Proof.
  induction n as [|n IH]; intros J1 J2 H; [done|]. simpl. apply IH.
  destruct H as (H1 & H2 & H3 & H4). unfold ir_equiv, IR. simpl. rewrite H1, H2, H3.
  split_and!; try done. intros o. unfold upd_chain. by rewrite H4.
Qed.

Lemma ir_equiv_trans J1 J2 J3 : ir_equiv J1 J2 -> ir_equiv J2 J3 -> ir_equiv J1 J3.
Proof.
  intros (A1 & A2 & A3 & A4) (B1 & B2 & B3 & B4). split_and!; congruence || (intros; by rewrite B4).
Qed.

(** A sequence of emitted instructions. *)
Fixpoint emit_all (J : jit_State) (l : list IRIns) : jit_State :=
  match l with
  | [] => J
  | i :: l => emit_all (snd (ir_append J (ins_o i) (ins_t i) (op1 i) (op2 i))) l
  end.

Lemma emit_all_wf l : forall J, ir_wf J -> Forall (fun i => is_kop (ins_o i) = false) l ->
  ir_wf (emit_all J l) /\ nins (emit_all J l) = nins J + Z.of_nat (length l) /\ nins J <= nins (emit_all J l).
Proof.
  induction l as [|i l IH]; intros J W Hl; cbn [emit_all length]; [split_and!; done || lia|].
  inversion_clear Hl as [|? ? Hi Hl'].
  destruct (ir_append J (ins_o i) (ins_t i) (op1 i) (op2 i)) as [ref J1] eqn:E.
  destruct (ir_append_spec _ _ _ _ _ _ _ W Hi E) as (W1 & _).
  destruct (IH J1 W1 Hl') as (W' & Hn & Hle). cbn [snd].
  assert (nins J1 = nins J + 1) by (by injection E as <- <-).
  split_and!; [done|lia|lia].
Qed.

Lemma ir_rollback_add n m J : ir_rollback (n + m) J = ir_rollback m (ir_rollback n J).
Proof. revert J. induction n as [|n IH]; intros J; simpl; [done|]. apply IH. Qed.

(** C22: rolling back to the reference reached before a sequence of instructions
    was emitted restores the instruction buffer and every opcode chain, and
    the emitted state was well-formed. *)
Theorem lj_ir_rollback_undoes J l :
  ir_wf J -> Forall (fun i => is_kop (ins_o i) = false) l ->
  ir_wf (emit_all J l) /\ ir_equiv J (lj_ir_rollback (emit_all J l) (nins J)).
Proof.
  intros W Hl. destruct (emit_all_wf l J W Hl) as (W' & Hn & _). split; [done|].
  unfold lj_ir_rollback. rewrite Hn. replace (Z.to_nat _) with (length l) by lia.
  clear W' Hn. revert J W Hl. induction l as [|i l IH]; intros J W Hl; [done|].
  inversion_clear Hl as [|? ? Hi Hl']. cbn [emit_all length].
  destruct (ir_append J (ins_o i) (ins_t i) (op1 i) (op2 i)) as [ref J1] eqn:E.
  destruct (ir_append_spec _ _ _ _ _ _ _ W Hi E) as (W1 & _). cbn [snd].
  replace (S (length l)) with (length l + 1)%nat by lia. rewrite ir_rollback_add.
  eapply ir_equiv_trans; [by eapply rollback_append|]. apply ir_rollback_equiv. by apply IH.
Qed.

(** The IR a recording starts with. *)
Lemma ir_setup_wf parent exitno fl : ir_wf (ir_setup parent exitno fl).
Proof.
  assert (Hlk : forall ref ins, ir (ir_setup parent exitno fl) !! ref = Some ins ->
    (ref = REF_BASE /\ ins = mkIns IR_BASE IRT_P32 parent exitno 0) \/
    (REF_TRUE <= ref < REF_BASE /\ ins_o ins = IR_KPRI)).
  { intros ref ins. unfold ir_setup. simpl. rewrite !lookup_insert_Some, lookup_empty.
    unfold REF_NIL, REF_TRUE, REF_BASE, REF_BIAS. intros H.
    repeat destruct H as [[<- <-]|[_ H]]; [by left|right..|done]; split; done || lia. }
  constructor; try done.
  - intros ref. split.
    + intros [ins H]. apply Hlk in H. simpl. unfold REF_TRUE, REF_BASE, REF_BIAS in *. lia.
    + unfold ir_setup. simpl. unfold REF_TRUE, REF_BASE, REF_NIL, REF_BIAS. intros H.
      assert (Hc : ref = 0x8000 \/ ref = 0x7fff \/ ref = 0x7ffe \/ ref = 0x7ffd) by lia.
      destruct Hc as [->|[->|[->| ->]]]; eexists; reflexivity.
  - intros ref ins [[-> ->]|[H ->]]%Hlk; simpl; [|split; [done|unfold REF_BASE in *; lia]].
    split; done.
  - intros o Ho. destruct (decide (o = IR_BASE)) as [->|Hne].
    + exists [REF_BASE]. split_and!; [|apply list.NoDup_singleton|].
      * econstructor; [done|reflexivity|constructor].
      * intros ref. rewrite list_elem_of_singleton. split.
        -- intros ->. eexists. split; reflexivity.
        -- intros (ins & [[-> _]|[_ Hp]]%Hlk & Hi); [done|congruence].
    + exists []. split_and!; [|constructor|].
      * simpl. destruct (op_eqb o IR_BASE) eqn:E; [by apply op_eqb_eq in E|constructor].
      * intros ref. split; [by intros H%elem_of_nil|].
        intros (ins & [[_ ->]|[_ Hp]]%Hlk & Hi); [by rewrite <- Hi in Hne|congruence].
  - intros ref ins [[-> ->]|[H Hp]]%Hlk; [done|]. unfold kins_ok. by rewrite Hp.
  - intros r1 r2 i1 i2 [[-> ->]|[H1 Hp]]%Hlk _ _ Hu; [done|]. by rewrite Hp in Hu.
  - split; constructor.
Qed.

Lemma lj_ir_rollback_undoes_witness :
  let J := ir_setup 0 0 0 in
  ir_equiv J (lj_ir_rollback (emit_all J [mkIns IR_SLOAD IRT_INT 1 0 0; mkIns IR_ADD IRT_INT 0x8001 0x8001 0]) (nins J)).
Proof.
  intros J. apply (lj_ir_rollback_undoes J _ (ir_setup_wf 0 0 0)). repeat constructor.
Defined.

(** Interning of 32-bit constants: the reference that [lj_ir_kint] returns
    denotes the constant, asking again gives the same reference and changes
    nothing, and different constants have different references. *)
Theorem lj_ir_kint_interns J k1 k2 r1 J1 r2 J2 :
  ir_wf J -> is_i32 k1 -> is_i32 k2 ->
  lj_ir_kint J k1 = (r1, J1) -> lj_ir_kint J1 k2 = (r2, J2) -> room J2 ->
  ir_wf J2 /\ ins_i (IR J2 r1) = k1 /\ ins_i (IR J2 r2) = k2 /\
  ins_o (IR J2 r1) = IR_KINT /\ (r1 = r2 <-> k1 = k2) /\ (k1 = k2 -> J2 = J1).
Proof.
  intros W Hk1 Hk2 E1 E2 R.
  assert (R1 : room J1).
  { unfold lj_ir_kint, ir_intern in E2. destruct (negb _); injection E2 as <- <-; [done|].
    destruct R. simpl in *. split; lia || done. }
  destruct (lj_ir_kint_spec J k1 r1 J1 W Hk1 E1 R1) as (W1 & G1 & _ & i1 & L1 & O1 & V1).
  destruct (lj_ir_kint_spec J1 k2 r2 J2 W1 Hk2 E2 R) as (W2 & G2 & _ & i2 & L2 & O2 & V2).
  assert (L1' : ir J2 !! r1 = Some i1) by (eapply lookup_weaken; [done|apply G2]).
  assert (Heq : k1 = k2 -> r2 = r1 /\ J2 = J1).
  { intros <-. unfold lj_ir_kint, ir_intern in E2.
    destruct (chain_search_spec J1 IR_KINT (fun ins => ins_i ins =? k1) 0 W1 ltac:(done) ltac:(lia))
      as [[_ H]|(Hr & i & Hi & Ho & Hp)].
    - pose proof (H eq_refl r1 i1 L1 O1) as X. rewrite V1 in X. by rewrite Z.eqb_refl in X.
    - replace (chain_search _ _ _ _ =? 0) with false in E2 by (symmetry; apply Z.eqb_neq; lia).
      injection E2 as <- <-. split; [|done]. apply (wf_uniq J1 W1 _ r1 i i1); try done.
      + congruence.
      + by rewrite Ho.
      + pose proof (wf_kins J1 W1 _ i Hi) as K. pose proof (wf_kins J1 W1 _ i1 L1) as K1.
        unfold kins_ok in K, K1. rewrite Ho in K. rewrite O1 in K1.
        apply Z.eqb_eq in Hp. rewrite <- V1 in Hp. unfold ins_i, op12, half in *.
        rewrite !Z.shiftl_mul_pow2 in * by lia. wsolve. }
  unfold IR. rewrite L1', L2. cbn [from_option id]. split_and!; try done.
  - split; [|intros E; symmetry; by apply Heq]. intros ->. congruence.
  - intros E. by apply Heq.
Qed.

Lemma lj_ir_kint_interns_witness :
  let '(r1, J1) := lj_ir_kint (ir_setup 0 0 0) 7 in
  let '(r2, J2) := lj_ir_kint J1 (-7) in
  ins_i (IR J2 r1) = 7 /\ ins_i (IR J2 r2) = -7.
Proof.
  destruct (lj_ir_kint (ir_setup 0 0 0) 7) as [r1 J1] eqn:E1.
  destruct (lj_ir_kint J1 (-7)) as [r2 J2] eqn:E2.
  destruct (lj_ir_kint_interns (ir_setup 0 0 0) 7 (-7) r1 J1 r2 J2) as (_ & H1 & H2 & _); try done.
  - apply ir_setup_wf.
  - revert E2. injection E1 as <- <-. intros E2. injection E2 as <- <-. split; done.
Defined.
