(* ===== verification/Fold.v ===== *)
(** * FOLD: the fold rules and the fold engine

    [lj_opt_fold.c] for constants, arithmetic, bit operations, comparisons,
    array bounds checks and conversions.  Every fold function is a function
    on the JIT state ([fins], [fleft], [fright] are fields of it) that returns
    one of the special values of [lj_iropt.h] or a reference.  The table of
    rules below lists the [LJFOLD] lines the build turns into the semi-perfect
    hash table.  The rules for strings, buffers, loads, stores, upvalues and
    pointers to GC objects depend on other parts of the VM; they are a
    parameter. *)

From S2P Require Import Prelude Machine Carith Num Ir.

(** ** Fold functions *)

Inductive FR := NEXTFOLD | RETRYFOLD | KINTFOLD | FAILFOLD | DROPFOLD | FREF (ref : Z).

Definition CONDFOLD (c : bool) : FR := if c then DROPFOLD else FAILFOLD.

(** A trace is aborted by a guard that always fails; [FOLD_FUEL] is the
    model's bound on retries. *)
Inductive fold_err := LJ_TRERR_GFAIL | FOLD_FUEL.

Definition frule : Type := jit_State -> res fold_err (FR * jit_State).
Definition ret (x : FR) (J : jit_State) : res fold_err (FR * jit_State) := Ok (x, J).

(** Target properties and the C library functions constant folding calls. *)
Class Target := {
  LJ_TARGET_X86ORX64 : bool;
  LJ_TARGET_MASKSHIFT : bool;
  LJ_TARGET_MASKROT : bool;
  LJ_TARGET_UNIFYROT : bool;
  lj_vm_foldfpm : Z -> Z -> Z;
  libm_pow : Z -> Z -> Z;
  libm_atan2 : Z -> Z -> Z;
  libm_ldexp : Z -> Z -> Z;
}.

Section FoldFunctions.
Context `{T : Target}.
(** The recursive call of rules that emit instructions. *)
Variable lj_opt_fold_rec : jit_State -> res fold_err (Z * jit_State).

Definition knumleft (J : jit_State) : Z := ir_knum J (fleft J).
Definition knumright (J : jit_State) : Z := ir_knum J (fright J).
Definition fins_o (J : jit_State) (o : IROp) : jit_State := set_fins J (set_o (fins J) o).
Definition fins_op1 (J : jit_State) (r : Z) : jit_State := set_fins J (set_op1 (fins J) r).
Definition fins_op2 (J : jit_State) (r : Z) : jit_State := set_fins J (set_op2 (fins J) r).
Definition fins_ot (J : jit_State) (o : IROp) (t : Z) : jit_State := set_fins J (set_ot (fins J) o t).
Definition INTFOLD (J : jit_State) (k : Z) : res fold_err (FR * jit_State) :=
  ret KINTFOLD (set_fins J (set_op12 (fins J) k)).
Definition INT64FOLD (J : jit_State) (k : Z) : res fold_err (FR * jit_State) :=
  let '(ref, J) := lj_ir_kint64 J k in ret (FREF ref) J.
Definition KNUMFOLD (J : jit_State) (n : Z) : res fold_err (FR * jit_State) :=
  let '(ref, J) := lj_ir_knum J n in ret (FREF ref) J.
Definition LEFTFOLD (J : jit_State) : res fold_err (FR * jit_State) := ret (FREF (op1 (fins J))) J.
Definition RIGHTFOLD (J : jit_State) : res fold_err (FR * jit_State) := ret (FREF (op2 (fins J))) J.
Definition emitir (J : jit_State) (o : IROp) (t a b : Z) : res fold_err (Z * jit_State) :=
  lj_opt_fold_rec (lj_ir_set J o t a b).
Definition EMITFOLD (J : jit_State) : res fold_err (FR * jit_State) :=
  let '(ref, J) := lj_ir_emit J in ret (FREF ref) J.

(** Apply [f] unless [i] is a PHI. *)
Definition PHIBARRIER (i : IRIns) (J : jit_State) (f : res fold_err (FR * jit_State)) :=
  if irt_isphi (ins_t i) then ret NEXTFOLD J else f.

(** *** Constant folding for FP numbers *)

Definition lj_vm_foldarith (x y : Z) (op : IROp) : Z :=
  match op with
  | IR_ADD => dadd x y
  | IR_SUB => dsub x y
  | IR_MUL => dmul x y
  | IR_DIV => ddiv x y
  | IR_MOD => dsub x (dmul (lj_vm_foldfpm (ddiv x y) 0) y)
  | IR_POW => libm_pow x y
  | IR_NEG => dneg x
  | IR_ABS => dabs x
  | IR_ATAN2 => libm_atan2 x y
  | IR_LDEXP => libm_ldexp x (lj_num2int y)
  | IR_MIN => if dlt y x then y else x
  | IR_MAX => if dlt x y then y else x
  | _ => x
  end.

Definition kfold_numarith : frule := fun J =>
  KNUMFOLD J (lj_vm_foldarith (knumleft J) (knumright J) (ins_o (fins J))).

Definition kfold_ldexp : frule := fun J =>
  if LJ_TARGET_X86ORX64 then ret NEXTFOLD J
  else KNUMFOLD J (libm_ldexp (knumleft J) (ins_i (fright J))).

Definition kfold_fpmath : frule := fun J =>
  KNUMFOLD J (lj_vm_foldfpm (knumleft J) (op2 (fins J))).

Definition kfold_numpow : frule := fun J =>
  KNUMFOLD J (lj_vm_foldarith (knumleft J) (int2num (ins_i (fright J))) IR_POW).

Definition kfold_numcomp : frule := fun J =>
  ret (CONDFOLD (lj_ir_numcmp (knumleft J) (knumright J) (ins_o (fins J)))) J.

(** *** Constant folding for 32-bit integers *)

Definition kfold_intop (k1 k2 : Z) (op : IROp) : Z :=
  match op with
  | IR_ADD => i32 (k1 + k2)
  | IR_SUB => i32 (k1 - k2)
  | IR_MUL => i32 (k1 * k2)
  | IR_MOD => lj_vm_modi k1 k2
  | IR_NEG => i32 (- k1)
  | IR_BAND => k1 .& k2
  | IR_BOR => k1 .| k2
  | IR_BXOR => k1 .^ k2
  | IR_BSHL => i32 (k1 << (k2 .& 31))
  | IR_BSHR => i32 (u32 k1 >> (k2 .& 31))
  | IR_BSAR => k1 >> (k2 .& 31)
  | IR_BROL => i32 (lj_rol 32 (u32 k1) (k2 .& 31))
  | IR_BROR => i32 (lj_ror 32 (u32 k1) (k2 .& 31))
  | IR_MIN => if k1 <? k2 then k1 else k2
  | IR_MAX => if k2 <? k1 then k1 else k2
  | _ => k1
  end.

Definition kfold_intarith : frule := fun J =>
  INTFOLD J (kfold_intop (ins_i (fleft J)) (ins_i (fright J)) (ins_o (fins J))).

Definition kfold_intovarith : frule := fun J =>
  let op := irop_of_num (irop_num (ins_o (fins J)) - irop_num IR_ADDOV + irop_num IR_ADD) in
  let n := lj_vm_foldarith (int2num (ins_i (fleft J))) (int2num (ins_i (fright J))) op in
  let k := lj_num2int n in
  if negb (deq n (int2num k)) then ret FAILFOLD J else INTFOLD J k.

Definition kfold_bnot : frule := fun J => INTFOLD J (Z.lnot (ins_i (fleft J))).

Definition kfold_bswap : frule := fun J => INTFOLD J (i32 (lj_bswap (u32 (ins_i (fleft J))))).

Definition kfold_intcomp : frule := fun J =>
  let a := ins_i (fleft J) in
  let b := ins_i (fright J) in
  ret match ins_o (fins J) with
      | IR_LT => CONDFOLD (a <? b)
      | IR_GE => CONDFOLD (b <=? a)
      | IR_LE => CONDFOLD (a <=? b)
      | IR_GT => CONDFOLD (b <? a)
      | IR_ULT => CONDFOLD (u32 a <? u32 b)
      | IR_UGE => CONDFOLD (u32 b <=? u32 a)
      | IR_ULE => CONDFOLD (u32 a <=? u32 b)
      | IR_ABC | IR_UGT => CONDFOLD (u32 b <? u32 a)
      | _ => FAILFOLD
      end J.

Definition kfold_intcomp0 : frule := fun J =>
  ret (if ins_i (fright J) =? 0 then DROPFOLD else NEXTFOLD) J.

(** *** Constant folding for 64-bit integers *)

Definition kfold_int64arith_ (k1 k2 : Z) (op : IROp) : Z :=
  match op with
  | IR_ADD => u64 (k1 + k2)
  | IR_SUB => u64 (k1 - k2)
  | IR_MUL => u64 (k1 * k2)
  | IR_BAND => k1 .& k2
  | IR_BOR => k1 .| k2
  | IR_BXOR => k1 .^ k2
  | _ => k1
  end.

Definition kfold_int64arith : frule := fun J =>
  INT64FOLD J (kfold_int64arith_ (ir_k64 J (fleft J)) (ir_k64 J (fright J)) (ins_o (fins J))).

Definition kfold_int64arith2 : frule := fun J =>
  let k1 := ir_k64 J (fleft J) in
  let k2 := ir_k64 J (fright J) in
  let o := ins_o (fins J) in
  INT64FOLD J
    (if irt_isi64 (ins_t (fins J)) then
       u64 (if op_eqb o IR_DIV then lj_carith_divi64 (i64 k1) (i64 k2)
            else if op_eqb o IR_MOD then lj_carith_modi64 (i64 k1) (i64 k2)
            else lj_carith_powi64 (i64 k1) (i64 k2))
     else if op_eqb o IR_DIV then lj_carith_divu64 k1 k2
     else if op_eqb o IR_MOD then lj_carith_modu64 k1 k2
     else lj_carith_powu64 k1 k2).

Definition kfold_int64shift : frule := fun J =>
  let sh := ins_i (fright J) .& 63 in
  INT64FOLD J (lj_carith_shift64 (ir_k64 J (fleft J)) sh (irop_num (ins_o (fins J)) - irop_num IR_BSHL)).

Definition kfold_bnot64 : frule := fun J => INT64FOLD J (u64 (Z.lnot (ir_k64 J (fleft J)))).

Definition kfold_bswap64 : frule := fun J => INT64FOLD J (lj_bswap64 (ir_k64 J (fleft J))).

(** Both operands are [uint64_t], for the signed comparisons, too. *)
Definition kfold_int64comp : frule := fun J =>
  let a := ir_k64 J (fleft J) in
  let b := ir_k64 J (fright J) in
  ret match ins_o (fins J) with
      | IR_LT => CONDFOLD (a <? b)
      | IR_GE => CONDFOLD (b <=? a)
      | IR_LE => CONDFOLD (a <=? b)
      | IR_GT => CONDFOLD (b <? a)
      | IR_ULT => CONDFOLD (a <? b)
      | IR_UGE => CONDFOLD (b <=? a)
      | IR_ULE => CONDFOLD (a <=? b)
      | IR_UGT => CONDFOLD (b <? a)
      | _ => FAILFOLD
      end J.

Definition kfold_int64comp0 : frule := fun J =>
  ret (if ir_k64 J (fright J) =? 0 then DROPFOLD else NEXTFOLD) J.

(** *** Constant folding of pointer arithmetic *)

Definition kfold_add_kptr : frule := fun J =>
  let ofs := ins_i (fright J) in
  let '(ref, J) := lj_ir_kptr_ J (ins_o (fleft J)) (u32 (op12 (fleft J) + ofs)) in ret (FREF ref) J.

Definition kfold_add_kright : frule := fun J =>
  let o := ins_o (fleft J) in
  if op_eqb o IR_KINT || op_eqb o IR_KINT64 then
    let f := fins J in ret RETRYFOLD (set_fins J (set_op2 (set_op1 f (op2 f)) (op1 f)))
  else ret NEXTFOLD J.

(** *** Constant folding of conversions *)

Definition IRCONV_SRCMASK : Z := 0x001f.
Definition IRCONV_DSTMASK : Z := 0x03e0.
Definition IRCONV_DSH : Z := 5.
Definition IRCONV_SEXT : Z := 0x0800.
Definition IRCONV_MODEMASK : Z := 0x0fff.
Definition IRCONV_NUM_INT : Z := (IRT_NUM << IRCONV_DSH) .| IRT_INT.
Definition conv_src (lit : Z) : Z := lit .& IRCONV_SRCMASK.
Definition conv_dst (lit : Z) : Z := (lit .& IRCONV_DSTMASK) >> IRCONV_DSH.

Definition kfold_tobit : frule := fun J => INTFOLD J (lj_num2bit (knumleft J)).

Definition kfold_conv_kint_num : frule := fun J => KNUMFOLD J (int2num (ins_i (fleft J))).

Definition kfold_conv_kintu32_num : frule := fun J => KNUMFOLD J (int2num (u32 (ins_i (fleft J)))).

Definition kfold_conv_kint_ext : frule := fun J =>
  let k := ins_i (fleft J) in
  let src := conv_src (op2 (fins J)) in
  INTFOLD J (if src =? IRT_I8 then i8 k
             else if src =? IRT_U8 then u8 k
             else if src =? IRT_I16 then i16 k
             else u16 k).

Definition kfold_conv_kint_i64 : frule := fun J =>
  if negb (op2 (fins J) .& IRCONV_SEXT =? 0) then INT64FOLD J (u64 (ins_i (fleft J)))
  else INT64FOLD J (u64 (u32 (ins_i (fleft J)))).

Definition kfold_conv_kint64_num_i64 : frule := fun J =>
  KNUMFOLD J (int2num (i64 (ir_kint64 J (fleft J)))).

Definition kfold_conv_kint64_num_u64 : frule := fun J =>
  KNUMFOLD J (int2num (ir_kint64 J (fleft J))).

Definition kfold_conv_kint64_int_i64 : frule := fun J =>
  INTFOLD J (i32 (ir_kint64 J (fleft J))).

Definition kfold_conv_knum_int_num : frule := fun J =>
  let n := knumleft J in
  let k := lj_num2int n in
  if negb (irt_isguard (ins_t (fins J)) =? 0) && negb (deq n (int2num k)) then ret FAILFOLD J
  else INTFOLD J k.

Definition kfold_conv_knum_u32_num : frule := fun J =>
  INTFOLD J (i32 (u32 (lj_num2u64 (knumleft J)))).

Definition kfold_conv_knum_i64_num : frule := fun J => INT64FOLD J (u64 (num2i64 (knumleft J))).

Definition kfold_conv_knum_u64_num : frule := fun J => INT64FOLD J (lj_num2u64 (knumleft J)).

(** *** Constant folding of equality checks *)

(** Constants are unique: same references mean same values. *)
Definition kfold_kref : frule := fun J =>
  let f := fins J in
  ret (CONDFOLD (xorb (op1 f =? op2 f) (op_eqb (ins_o f) IR_NE))) J.

(** *** Algebraic shortcuts *)

Definition is_round (m : Z) : bool := (m =? 0) || (m =? 1) || (m =? 2).

Definition shortcut_round : frule := fun J =>
  if is_round (op2 (fleft J)) then LEFTFOLD J else ret NEXTFOLD J.

Definition shortcut_left : frule := fun J => LEFTFOLD J.

Definition shortcut_dropleft : frule := fun J =>
  PHIBARRIER (fleft J) J (ret RETRYFOLD (fins_op1 J (op1 (fleft J)))).

Definition shortcut_leftleft : frule := fun J =>
  PHIBARRIER (fleft J) J (ret (FREF (op1 (fleft J))) J).

(** *** FP algebraic simplifications *)

Definition simplify_numadd_negx : frule := fun J =>
  PHIBARRIER (fleft J) J
    (ret RETRYFOLD (set_fins J (set_op2 (set_op1 (set_o (fins J) IR_SUB) (op2 (fins J))) (op1 (fleft J))))).

Definition simplify_numadd_xneg : frule := fun J =>
  PHIBARRIER (fright J) J (ret RETRYFOLD (set_fins J (set_op2 (set_o (fins J) IR_SUB) (op1 (fright J))))).

Definition num_is_zero (n : Z) : bool := deq n 0.

Definition simplify_numsub_k : frule := fun J =>
  if num_is_zero (knumright J) then LEFTFOLD J else ret NEXTFOLD J.

Definition simplify_numsub_negk : frule := fun J =>
  PHIBARRIER (fleft J) J
    (let J' := fins_op2 J (op1 (fleft J)) in
     let '(k, J') := lj_ir_knum J' (dneg (knumright J)) in
     ret RETRYFOLD (fins_op1 J' k)).

Definition simplify_numsub_xneg : frule := fun J =>
  PHIBARRIER (fright J) J (ret RETRYFOLD (set_fins J (set_op2 (set_o (fins J) IR_ADD) (op1 (fright J))))).

Definition simplify_nummuldiv_k : frule := fun J =>
  let n := knumright J in
  let o := ins_o (fins J) in
  if deq n 0x3ff0000000000000 then LEFTFOLD J
  else if deq n 0xbff0000000000000 then
    let '(k, J) := lj_ir_knum_neg (fins_o J IR_NEG) in ret RETRYFOLD (fins_op2 J k)
  else if op_eqb o IR_MUL && deq n 0x4000000000000000 then
    ret RETRYFOLD (set_fins J (set_op2 (set_o (fins J) IR_ADD) (op1 (fins J))))
  else if op_eqb o IR_DIV then
    let u := n in
    let ex := (u >> 52) .& 0x7ff in
    if (u .& 0xfffffffffffff =? 0) && (u32 (ex - 1) <? 0x7fd) then
      let u := (u .& (1 << 63)) .| (u32 (0x7fe - ex) << 52) in
      let '(k, J) := lj_ir_knum_u64 (fins_o J IR_MUL) u in
      ret RETRYFOLD (fins_op2 J k)
    else ret NEXTFOLD J
  else ret NEXTFOLD J.

Definition simplify_nummuldiv_negk : frule := fun J =>
  PHIBARRIER (fleft J) J
    (let J' := fins_op1 J (op1 (fleft J)) in
     let '(k, J') := lj_ir_knum J' (dneg (knumright J)) in
     ret RETRYFOLD (fins_op2 J' k)).

Definition simplify_nummuldiv_negneg : frule := fun J =>
  PHIBARRIER (fleft J) J
    (PHIBARRIER (fright J) J
      (ret RETRYFOLD (set_fins J (set_op2 (set_op1 (fins J) (op1 (fleft J))) (op1 (fright J)))))).

(** [for (; k != 1; k >>= 1)] of [simplify_numpow_xk]. *)
Fixpoint numpow_bits (n : nat) (J : jit_State) (ref tmp k : Z) : res fold_err (Z * Z * jit_State) :=
  match n with
  | O => Err FOLD_FUEL
  | S n =>
      if k =? 1 then Ok (ref, tmp, J)
      else
        '(ref, J) ← (if k .& 1 =? 0 then Ok (ref, J) else emitir J IR_MUL IRT_NUM ref tmp);
        '(tmp, J) ← emitir J IR_MUL IRT_NUM tmp tmp;
        numpow_bits n J ref tmp (k >> 1)
  end.

(** [for (; (k & 1) == 0; k >>= 1)] *)
Fixpoint numpow_zeros (n : nat) (J : jit_State) (ref k : Z) : res fold_err (Z * Z * jit_State) :=
  match n with
  | O => Err FOLD_FUEL
  | S n =>
      if k .& 1 =? 0 then '(ref, J) ← emitir J IR_MUL IRT_NUM ref ref; numpow_zeros n J ref (k >> 1)
      else Ok (ref, k, J)
  end.

Definition simplify_numpow_xk : frule := fun J =>
  let k := ins_i (fright J) in
  let ref := op1 (fins J) in
  if k =? 0 then let '(r, J) := lj_ir_knum_one J in ret (FREF r) J
  else if k =? 1 then LEFTFOLD J
  else if 2 * 65536 <? u32 (k + 65536) then ret NEXTFOLD J
  else
    '(ref, J) ← (if k <? 0 then let '(one, J) := lj_ir_knum_one J in emitir J IR_DIV IRT_NUM one ref
                 else Ok (ref, J));
    let k := Z.abs k in
    '(ref, k, J) ← numpow_zeros 18 J ref k;
    let k := k >> 1 in
    if k =? 0 then ret (FREF ref) J
    else
      '(tmp, J) ← emitir J IR_MUL IRT_NUM ref ref;
      '(ref, tmp, J) ← numpow_bits 18 J ref tmp k;
      '(ref, J) ← emitir J IR_MUL IRT_NUM ref tmp;
      ret (FREF ref) J.

Definition simplify_numpow_kx : frule := fun J =>
  if deq (knumleft J) 0x4000000000000000 then
    '(J) ← (if LJ_TARGET_X86ORX64 then
              '(r, J) ← lj_opt_fold_rec
                 (set_fins J (set_op2 (set_op1 (set_o (fins J) IR_CONV) (op2 (fins J))) IRCONV_NUM_INT));
              Ok (fins_op2 J r)
            else Ok J);
    let '(one, J) := lj_ir_knum_one J in
    ret RETRYFOLD (set_fins J (set_o (set_op1 (fins J) one) IR_LDEXP))
  else ret NEXTFOLD J.

(** *** Simplify conversions *)

Definition shortcut_conv_num_int : frule := fun J =>
  PHIBARRIER (fleft J) J
    (if (conv_src (op2 (fleft J)) =? IRT_NUM) && negb (irt_isguard (ins_t (fleft J)) =? 0)
     then ret (FREF (op1 (fleft J))) J else ret NEXTFOLD J).

Definition simplify_conv_int_num : frule := fun J =>
  if conv_src (op2 (fleft J)) =? conv_dst (op2 (fins J)) then ret (FREF (op1 (fleft J))) J
  else ret NEXTFOLD J.

Definition simplify_conv_i64_num : frule := fun J =>
  PHIBARRIER (fleft J) J
    (let src := conv_src (op2 (fleft J)) in
     if src =? IRT_INT then
       ret RETRYFOLD (set_fins J (set_op2 (set_op1 (fins J) (op1 (fleft J)))
                                    ((IRT_I64 << 5) .| IRT_INT .| IRCONV_SEXT)))
     else if src =? IRT_U32 then
       ret RETRYFOLD (set_fins J (set_op2 (set_op1 (fins J) (op1 (fleft J))) ((IRT_I64 << 5) .| IRT_U32)))
     else ret NEXTFOLD J).

Definition simplify_conv_int_i64 : frule := fun J =>
  PHIBARRIER (fleft J) J
    (let src := conv_src (op2 (fleft J)) in
     if (src =? IRT_INT) || (src =? IRT_U32) then
       if src =? conv_dst (op2 (fins J)) then ret (FREF (op1 (fleft J))) J
       else ret RETRYFOLD (set_fins J (set_op1 (set_op2 (fins J) ((op2 (fins J) .& IRCONV_DSTMASK) .| src))
                                         (op1 (fleft J))))
     else ret NEXTFOLD J).

Definition simplify_conv_flt_num : frule := fun J =>
  PHIBARRIER (fleft J) J
    (if conv_src (op2 (fleft J)) =? IRT_FLOAT then ret (FREF (op1 (fleft J))) J else ret NEXTFOLD J).

Definition simplify_tobit_conv : frule := fun J =>
  let src := conv_src (op2 (fleft J)) in
  if src =? IRT_INT then ret (FREF (op1 (fleft J))) J
  else if src =? IRT_U32 then
    ret RETRYFOLD (set_fins J (set_op2 (set_op1 (set_o (fins J) IR_CONV) (op1 (fleft J)))
                                 ((IRT_INT << 5) .| IRT_U32)))
  else ret NEXTFOLD J.

Definition simplify_floor_conv : frule := fun J =>
  let src := conv_src (op2 (fleft J)) in
  if (src =? IRT_INT) || (src =? IRT_U32) then LEFTFOLD J else ret NEXTFOLD J.

(** As it is compiled for targets other than x64, where the conversion itself
    is dropped. *)
Definition simplify_conv_sext : frule := fun J =>
  let l := fleft J in
  if op2 (fins J) .& IRCONV_SEXT =? 0 then ret NEXTFOLD J
  else PHIBARRIER l J
    (let ok_reduce := ret RETRYFOLD (fins_op2 J (Z.ldiff (op2 (fins J)) IRCONV_SEXT)) in
     if op_eqb (ins_o l) IR_XLOAD && (irt_isu8 (ins_t l) || irt_isu16 (ins_t l)) then ok_reduce
     else
       let '(ref, ofs) :=
         if op_eqb (ins_o l) IR_ADD && irref_isk (op2 l) then (op1 l, ins_i (IR J (op2 l)))
         else (op1 (fins J), 0) in
       let sc := scev J in
       let lo := if scev_dir sc =? 0 then scev_stop sc else scev_start sc in
       if (ref =? scev_idx sc) && negb (lo =? 0) && (0 <=? ins_i (IR J lo) + ofs) then ok_reduce
       else ret NEXTFOLD J).

Definition simplify_conv_narrow : frule := fun J =>
  let op := ins_o (fleft J) in
  let t := irt_type (ins_t (fins J)) in
  let o1 := op1 (fleft J) in
  let o2 := op2 (fleft J) in
  let mode := op2 (fins J) in
  PHIBARRIER (fleft J) J
    ('(o1, J) ← emitir J IR_CONV IRT_INT o1 mode;
     '(o2, J) ← emitir J IR_CONV IRT_INT o2 mode;
     ret RETRYFOLD (set_fins J (mkIns op t o1 o2 (prev (fins J))))).

Definition cse_conv : frule := fun J =>
  let f := fins J in
  let o1 := op1 f in
  let o2 := op2 f .& IRCONV_MODEMASK in
  let guard := irt_isguard (ins_t f) in
  let ref :=
    if has_flag J JIT_F_OPT_CSE then
      chain_search J IR_CONV
        (fun ins => (op1 ins =? o1) && (op2 ins .& IRCONV_MODEMASK =? o2) &&
                    (guard <=? irt_isguard (ins_t ins))) o1
    else 0 in
  if negb (ref =? 0) then ret (FREF ref) J else EMITFOLD J.

(** *** Integer algebraic simplifications *)

Definition simplify_intadd_k : frule := fun J =>
  if ins_i (fright J) =? 0 then LEFTFOLD J else ret NEXTFOLD J.

Definition simplify_intmul_k : frule := fun J =>
  let k := ins_i (fright J) in
  if k =? 0 then RIGHTFOLD J
  else if k =? 1 then LEFTFOLD J
  else if k =? 2 then
    ret RETRYFOLD (set_fins J (set_op2 (set_o (fins J) IR_ADDOV) (op1 (fins J))))
  else ret NEXTFOLD J.

Definition simplify_intsub_k : frule := fun J =>
  let k := ins_i (fright J) in
  if k =? 0 then LEFTFOLD J
  else
    let '(r, J) := lj_ir_kint (fins_o J IR_ADD) (i32 (- k)) in ret RETRYFOLD (fins_op2 J r).

Definition simplify_intsub_kleft : frule := fun J =>
  let l := fleft J in
  if (if op_eqb (ins_o l) IR_KINT then ins_i l =? 0 else ir_kint64 J l =? 0) then
    ret RETRYFOLD (set_fins J (set_op1 (set_o (fins J) IR_NEG) (op2 (fins J))))
  else ret NEXTFOLD J.

Definition simplify_intadd_k64 : frule := fun J =>
  if ir_kint64 J (fright J) =? 0 then LEFTFOLD J else ret NEXTFOLD J.

Definition simplify_intsub_k64 : frule := fun J =>
  let k := ir_kint64 J (fright J) in
  if k =? 0 then LEFTFOLD J
  else
    let '(r, J) := lj_ir_kint64 (fins_o J IR_ADD) (u64 (- k)) in ret RETRYFOLD (fins_op2 J r).

(** [simplify_intmul_k(J, k)], shared by the two rules below. *)
Definition simplify_intmul_k_ (J : jit_State) (k : Z) : res fold_err (FR * jit_State) :=
  if k =? 0 then RIGHTFOLD J
  else if k =? 1 then LEFTFOLD J
  else if k .& (k - 1) =? 0 then
    let '(r, J) := lj_ir_kint (fins_o J IR_BSHL) (lj_fls (u32 k)) in ret RETRYFOLD (fins_op2 J r)
  else ret NEXTFOLD J.

Definition simplify_intmul_k32 : frule := fun J =>
  let k := ins_i (fright J) in
  if 0 <=? k then simplify_intmul_k_ J k else ret NEXTFOLD J.

Definition simplify_intmul_k64 : frule := fun J =>
  let k := ir_kint64 J (fright J) in
  if k <? 0x80000000 then simplify_intmul_k_ J (i32 k) else ret NEXTFOLD J.

Definition simplify_intmod_k : frule := fun J =>
  let k := ins_i (fright J) in
  if (0 <? k) && (k .& (k - 1) =? 0) then
    let '(r, J) := lj_ir_kint (fins_o J IR_BAND) (k - 1) in ret RETRYFOLD (fins_op2 J r)
  else ret NEXTFOLD J.

Definition simplify_intmod_kleft : frule := fun J =>
  if ins_i (fleft J) =? 0 then INTFOLD J 0 else ret NEXTFOLD J.

Definition simplify_intsub : frule := fun J =>
  let f := fins J in
  if (op1 f =? op2 f) && negb (irt_isnum (ins_t f)) then
    if irt_is64 (ins_t f) then INT64FOLD J 0 else INTFOLD J 0
  else ret NEXTFOLD J.

Definition simplify_intsubadd_leftcancel : frule := fun J =>
  if negb (irt_isnum (ins_t (fins J))) then
    PHIBARRIER (fleft J) J
      (if op2 (fins J) =? op1 (fleft J) then ret (FREF (op2 (fleft J))) J
       else if op2 (fins J) =? op2 (fleft J) then ret (FREF (op1 (fleft J))) J
       else ret NEXTFOLD J)
  else ret NEXTFOLD J.

Definition simplify_intsubsub_leftcancel : frule := fun J =>
  if negb (irt_isnum (ins_t (fins J))) then
    PHIBARRIER (fleft J) J
      (if op2 (fins J) =? op1 (fleft J) then
         let l2 := op2 (fleft J) in
         let '(r, J) := lj_ir_kint J 0 in
         ret RETRYFOLD (set_fins J (set_op2 (set_op1 (fins J) r) l2))
       else ret NEXTFOLD J)
  else ret NEXTFOLD J.

Definition simplify_intsubsub_rightcancel : frule := fun J =>
  if negb (irt_isnum (ins_t (fins J))) then
    PHIBARRIER (fright J) J
      (if op1 (fins J) =? op1 (fright J) then ret (FREF (op2 (fright J))) J else ret NEXTFOLD J)
  else ret NEXTFOLD J.

Definition simplify_intsubadd_rightcancel : frule := fun J =>
  if negb (irt_isnum (ins_t (fins J))) then
    PHIBARRIER (fright J) J
      (if op1 (fins J) =? op1 (fright J) then
         let '(r, J) := lj_ir_kint (fins_op2 J (op2 (fright J))) 0 in ret RETRYFOLD (fins_op1 J r)
       else if op1 (fins J) =? op2 (fright J) then
         let '(r, J) := lj_ir_kint (fins_op2 J (op1 (fright J))) 0 in ret RETRYFOLD (fins_op1 J r)
       else ret NEXTFOLD J)
  else ret NEXTFOLD J.

Definition fins_ops (J : jit_State) (a b : Z) : jit_State :=
  set_fins J (set_op2 (set_op1 (fins J) a) b).

Definition simplify_intsubaddadd_cancel : frule := fun J =>
  let l := fleft J in
  let r := fright J in
  if negb (irt_isnum (ins_t (fins J))) then
    PHIBARRIER l J (PHIBARRIER r J
      (if op1 l =? op1 r then ret RETRYFOLD (fins_ops J (op2 l) (op2 r))
       else if op1 l =? op2 r then ret RETRYFOLD (fins_ops J (op2 l) (op1 r))
       else if op2 l =? op1 r then ret RETRYFOLD (fins_ops J (op1 l) (op2 r))
       else if op2 l =? op2 r then ret RETRYFOLD (fins_ops J (op1 l) (op1 r))
       else ret NEXTFOLD J))
  else ret NEXTFOLD J.

(** [fright->o == IR_KINT ? (int64_t)fright->i : (int64_t)ir_k64(fright)->u64] *)
Definition kval64 (J : jit_State) (i : IRIns) : Z :=
  if op_eqb (ins_o i) IR_KINT then ins_i i else i64 (ir_k64 J i).

Definition simplify_band_k : frule := fun J =>
  let k := kval64 J (fright J) in
  if k =? 0 then RIGHTFOLD J else if k =? -1 then LEFTFOLD J else ret NEXTFOLD J.

Definition simplify_bor_k : frule := fun J =>
  let k := kval64 J (fright J) in
  if k =? 0 then LEFTFOLD J else if k =? -1 then RIGHTFOLD J else ret NEXTFOLD J.

Definition simplify_bxor_k : frule := fun J =>
  let k := kval64 J (fright J) in
  if k =? 0 then LEFTFOLD J
  else if k =? -1 then ret RETRYFOLD (set_fins J (set_op2 (set_o (fins J) IR_BNOT) 0))
  else ret NEXTFOLD J.

Definition shift_mask (t : Z) : Z := if irt_is64 t then 63 else 31.

Definition simplify_shift_ik : frule := fun J =>
  let mask := shift_mask (ins_t (fins J)) in
  let k := ins_i (fright J) .& mask in
  let o := ins_o (fins J) in
  if k =? 0 then LEFTFOLD J
  else if (k =? 1) && op_eqb o IR_BSHL then
    ret RETRYFOLD (set_fins J (set_op2 (set_o (fins J) IR_ADD) (op1 (fins J))))
  else if negb (k =? ins_i (fright J)) then
    let '(r, J) := lj_ir_kint J k in ret RETRYFOLD (fins_op2 J r)
  else if negb LJ_TARGET_UNIFYROT && op_eqb o IR_BROR then
    let '(r, J) := lj_ir_kint (fins_o J IR_BROL) (- k .& mask) in ret RETRYFOLD (fins_op2 J r)
  else ret NEXTFOLD J.

Definition simplify_shift_andk : frule := fun J =>
  let irk := IR J (op2 (fright J)) in
  PHIBARRIER (fright J) J
    (if (if irop_num (ins_o (fins J)) <? irop_num IR_BROL then LJ_TARGET_MASKSHIFT else LJ_TARGET_MASKROT)
        && op_eqb (ins_o irk) IR_KINT then
       let mask := shift_mask (ins_t (fins J)) in
       let k := ins_i irk .& mask in
       if k =? mask then ret RETRYFOLD (fins_op2 J (op1 (fright J))) else ret NEXTFOLD J
     else ret NEXTFOLD J).

Definition simplify_shift1_ki : frule := fun J =>
  if kval64 J (fleft J) =? 0 then LEFTFOLD J else ret NEXTFOLD J.

Definition simplify_shift2_ki : frule := fun J =>
  let k := kval64 J (fleft J) in
  if (k =? 0) || (k =? -1) then LEFTFOLD J else ret NEXTFOLD J.

Definition simplify_shiftk_andk : frule := fun J =>
  let irk := IR J (op2 (fleft J)) in
  PHIBARRIER (fleft J) J
    (if op_eqb (ins_o irk) IR_KINT then
       let k := kfold_intop (ins_i irk) (ins_i (fright J)) (ins_o (fins J)) in
       '(r1, J) ← lj_opt_fold_rec (fins_op1 J (op1 (fleft J)));
       let '(r2, J) := lj_ir_kint J k in
       ret RETRYFOLD (set_fins J (mkIns IR_BAND IRT_INT r1 r2 (prev (fins J))))
     else ret NEXTFOLD J).

Definition simplify_andk_shiftk : frule := fun J =>
  let irk := IR J (op2 (fleft J)) in
  if op_eqb (ins_o irk) IR_KINT &&
     (kfold_intop (-1) (ins_i irk) (ins_o (fleft J)) =? ins_i (fright J))
  then LEFTFOLD J else ret NEXTFOLD J.

(** *** Reassociation *)

Definition reassoc_intarith_k : frule := fun J =>
  let irk := IR J (op2 (fleft J)) in
  if op_eqb (ins_o irk) IR_KINT then
    let k := kfold_intop (ins_i irk) (ins_i (fright J)) (ins_o (fins J)) in
    if k =? ins_i irk then LEFTFOLD J
    else PHIBARRIER (fleft J) J
      (let '(r, J') := lj_ir_kint (fins_op1 J (op1 (fleft J))) k in ret RETRYFOLD (fins_op2 J' r))
  else ret NEXTFOLD J.

Definition reassoc_intarith_k64 : frule := fun J =>
  let irk := IR J (op2 (fleft J)) in
  if op_eqb (ins_o irk) IR_KINT64 then
    let k := kfold_int64arith_ (ir_k64 J irk) (ir_k64 J (fright J)) (ins_o (fins J)) in
    PHIBARRIER (fleft J) J
      (let '(r, J') := lj_ir_kint64 (fins_op1 J (op1 (fleft J))) k in ret RETRYFOLD (fins_op2 J' r))
  else ret NEXTFOLD J.

Definition reassoc_dup : frule := fun J =>
  if (op2 (fins J) =? op1 (fleft J)) || (op2 (fins J) =? op2 (fleft J)) then LEFTFOLD J
  else ret NEXTFOLD J.

Definition reassoc_bxor : frule := fun J =>
  PHIBARRIER (fleft J) J
    (if op2 (fins J) =? op1 (fleft J) then ret (FREF (op2 (fleft J))) J
     else if op2 (fins J) =? op2 (fleft J) then ret (FREF (op1 (fleft J))) J
     else ret NEXTFOLD J).

Definition reassoc_shift : frule := fun J =>
  let irk := IR J (op2 (fleft J)) in
  let o := ins_o (fins J) in
  PHIBARRIER (fleft J) J
    (if op_eqb (ins_o irk) IR_KINT then
       let mask := shift_mask (ins_t (fins J)) in
       let k := (ins_i irk .& mask) + (ins_i (fright J) .& mask) in
       if (mask <? k) && (op_eqb o IR_BSHL || op_eqb o IR_BSHR) then
         if mask =? 31 then INTFOLD J 0 else INT64FOLD J 0
       else
         let k := if mask <? k then (if op_eqb o IR_BSAR then mask else k .& mask) else k in
         let '(r, J') := lj_ir_kint (fins_op1 J (op1 (fleft J))) k in
         ret RETRYFOLD (fins_op2 J' r)
     else ret NEXTFOLD J).

Definition reassoc_minmax_k : frule := fun J =>
  let irk := IR J (op2 (fleft J)) in
  if op_eqb (ins_o irk) IR_KNUM then
    let a := ir_knum J irk in
    let y := lj_vm_foldarith a (knumright J) (ins_o (fins J)) in
    if deq a y then LEFTFOLD J
    else PHIBARRIER (fleft J) J
      (let '(r, J') := lj_ir_knum (fins_op1 J (op1 (fleft J))) y in ret RETRYFOLD (fins_op2 J' r))
  else if op_eqb (ins_o irk) IR_KINT then
    let a := ins_i irk in
    let y := kfold_intop a (ins_i (fright J)) (ins_o (fins J)) in
    if a =? y then LEFTFOLD J
    else PHIBARRIER (fleft J) J
      (let '(r, J') := lj_ir_kint (fins_op1 J (op1 (fleft J))) y in ret RETRYFOLD (fins_op2 J' r))
  else ret NEXTFOLD J.

Definition reassoc_minmax_left : frule := fun J =>
  if (op2 (fins J) =? op1 (fleft J)) || (op2 (fins J) =? op2 (fleft J)) then RIGHTFOLD J
  else ret NEXTFOLD J.

Definition reassoc_minmax_right : frule := fun J =>
  if (op1 (fins J) =? op1 (fright J)) || (op1 (fins J) =? op2 (fright J)) then LEFTFOLD J
  else ret NEXTFOLD J.

(** *** Array bounds check elimination *)

Definition abc_fwd : frule := fun J =>
  let f := fins J in
  let r := fright J in
  if has_flag J JIT_F_OPT_ABC && irref_isk (op2 r) then
    let add2 := IR J (op1 r) in
    if op_eqb (ins_o add2) IR_ADD && irref_isk (op2 add2) &&
       (ins_i (IR J (op2 r)) =? i32 (- ins_i (IR J (op2 add2)))) then
      let lim := if op1 add2 <? op1 f then op1 f else op1 add2 in
      let ref := chain_search J IR_ABC (fun ins => (op1 ins =? op1 f) && (op2 ins =? op1 add2)) lim in
      if negb (ref =? 0) then ret DROPFOLD J else ret NEXTFOLD J
    else ret NEXTFOLD J
  else ret NEXTFOLD J.

Definition abc_k : frule := fun J =>
  let f := fins J in
  if has_flag J JIT_F_OPT_ABC then
    let ref := chain_search J IR_ABC (fun ins => (op1 ins =? op1 f) && irref_isk (op2 ins)) (op1 f) in
    if negb (ref =? 0) then
      let ins := IR J ref in
      let k := ins_i (IR J (op2 ins)) in
      let J' := if k <? ins_i (fright J) then set_ir J (<[ref := set_op2 ins (op2 f)]> (ir J)) else J in
      ret DROPFOLD J'
    else EMITFOLD J
  else ret NEXTFOLD J.

Definition abc_invar : frule := fun J =>
  let f := fins J in
  if negb (irt_isint (ins_t f)) && (op1 f <? chain J IR_LOOP) && negb (irt_isphi (ins_t (IR J (op1 f))))
  then ret DROPFOLD J else ret NEXTFOLD J.

(** *** Commutativity *)

Definition swap_ops (i : IRIns) : IRIns := set_op2 (set_op1 i (op2 i)) (op1 i).

Definition comm_swap : frule := fun J =>
  let f := fins J in
  if op1 f <? op2 f then ret RETRYFOLD (set_fins J (swap_ops f)) else ret NEXTFOLD J.

Definition comm_equal : frule := fun J =>
  let f := fins J in
  if (op1 f =? op2 f) && negb (irt_isnum (ins_t f)) then ret (CONDFOLD (op_eqb (ins_o f) IR_EQ)) J
  else comm_swap J.

Definition comm_comp : frule := fun J =>
  let f := fins J in
  let o := irop_num (ins_o f) in
  if (op1 f =? op2 f) && negb (irt_isnum (ins_t f)) then
    ret (CONDFOLD (negb ((o .^ (o >> 1)) .& 1 =? 0))) J
  else if op1 f <? op2 f then
    ret RETRYFOLD (set_fins J (set_o (swap_ops f) (irop_of_num (o .^ 3))))
  else ret NEXTFOLD J.

Definition comm_dup : frule := fun J =>
  if op1 (fins J) =? op2 (fins J) then LEFTFOLD J else comm_swap J.

Definition comm_bxor : frule := fun J =>
  let f := fins J in
  if op1 f =? op2 f then
    if irt_is64 (ins_t f) then INT64FOLD J 0 else INTFOLD J 0
  else comm_swap J.

(** [LJFOLDX(lj_opt_cse)] and [LJFOLDX(lj_ir_emit)]. *)
Definition CSEFOLD : frule := fun J => let '(ref, J) := lj_opt_cse J in ret (FREF ref) J.

(** ** The table of rules *)

(** A rule applies to an opcode, a left opcode and a right opcode or literal;
    [any] operands have the all-ones key. *)
Record fold_entry := FE { fe_op : IROp; fe_left : Z; fe_right : Z; fe_fn : frule }.
Definition ANYL : Z := 0x7f.
Definition ANYR : Z := 0x3ff.
Definition K (o : IROp) : Z := irop_num o.
Definition conv_lit (dst src : Z) : Z := (dst << IRCONV_DSH) .| src.

Definition fold_table : list fold_entry :=
  [FE IR_ADD (K IR_KNUM) (K IR_KNUM) kfold_numarith;
   FE IR_SUB (K IR_KNUM) (K IR_KNUM) kfold_numarith;
   FE IR_MUL (K IR_KNUM) (K IR_KNUM) kfold_numarith;
   FE IR_DIV (K IR_KNUM) (K IR_KNUM) kfold_numarith;
   FE IR_NEG (K IR_KNUM) (K IR_KNUM) kfold_numarith;
   FE IR_ABS (K IR_KNUM) (K IR_KNUM) kfold_numarith;
   FE IR_ATAN2 (K IR_KNUM) (K IR_KNUM) kfold_numarith;
   FE IR_LDEXP (K IR_KNUM) (K IR_KNUM) kfold_numarith;
   FE IR_MIN (K IR_KNUM) (K IR_KNUM) kfold_numarith;
   FE IR_MAX (K IR_KNUM) (K IR_KNUM) kfold_numarith;
   FE IR_LDEXP (K IR_KNUM) (K IR_KINT) kfold_ldexp;
   FE IR_FPMATH (K IR_KNUM) ANYR kfold_fpmath;
   FE IR_POW (K IR_KNUM) (K IR_KINT) kfold_numpow;
   FE IR_EQ (K IR_KNUM) (K IR_KNUM) kfold_numcomp;
   FE IR_NE (K IR_KNUM) (K IR_KNUM) kfold_numcomp;
   FE IR_LT (K IR_KNUM) (K IR_KNUM) kfold_numcomp;
   FE IR_GE (K IR_KNUM) (K IR_KNUM) kfold_numcomp;
   FE IR_LE (K IR_KNUM) (K IR_KNUM) kfold_numcomp;
   FE IR_GT (K IR_KNUM) (K IR_KNUM) kfold_numcomp;
   FE IR_ULT (K IR_KNUM) (K IR_KNUM) kfold_numcomp;
   FE IR_UGE (K IR_KNUM) (K IR_KNUM) kfold_numcomp;
   FE IR_ULE (K IR_KNUM) (K IR_KNUM) kfold_numcomp;
   FE IR_UGT (K IR_KNUM) (K IR_KNUM) kfold_numcomp;
   FE IR_ADD (K IR_KINT) (K IR_KINT) kfold_intarith;
   FE IR_SUB (K IR_KINT) (K IR_KINT) kfold_intarith;
   FE IR_MUL (K IR_KINT) (K IR_KINT) kfold_intarith;
   FE IR_MOD (K IR_KINT) (K IR_KINT) kfold_intarith;
   FE IR_NEG (K IR_KINT) (K IR_KINT) kfold_intarith;
   FE IR_BAND (K IR_KINT) (K IR_KINT) kfold_intarith;
   FE IR_BOR (K IR_KINT) (K IR_KINT) kfold_intarith;
   FE IR_BXOR (K IR_KINT) (K IR_KINT) kfold_intarith;
   FE IR_BSHL (K IR_KINT) (K IR_KINT) kfold_intarith;
   FE IR_BSHR (K IR_KINT) (K IR_KINT) kfold_intarith;
   FE IR_BSAR (K IR_KINT) (K IR_KINT) kfold_intarith;
   FE IR_BROL (K IR_KINT) (K IR_KINT) kfold_intarith;
   FE IR_BROR (K IR_KINT) (K IR_KINT) kfold_intarith;
   FE IR_MIN (K IR_KINT) (K IR_KINT) kfold_intarith;
   FE IR_MAX (K IR_KINT) (K IR_KINT) kfold_intarith;
   FE IR_ADDOV (K IR_KINT) (K IR_KINT) kfold_intovarith;
   FE IR_SUBOV (K IR_KINT) (K IR_KINT) kfold_intovarith;
   FE IR_MULOV (K IR_KINT) (K IR_KINT) kfold_intovarith;
   FE IR_BNOT (K IR_KINT) 0 kfold_bnot;
   FE IR_BSWAP (K IR_KINT) 0 kfold_bswap;
   FE IR_LT (K IR_KINT) (K IR_KINT) kfold_intcomp;
   FE IR_GE (K IR_KINT) (K IR_KINT) kfold_intcomp;
   FE IR_LE (K IR_KINT) (K IR_KINT) kfold_intcomp;
   FE IR_GT (K IR_KINT) (K IR_KINT) kfold_intcomp;
   FE IR_ULT (K IR_KINT) (K IR_KINT) kfold_intcomp;
   FE IR_UGE (K IR_KINT) (K IR_KINT) kfold_intcomp;
   FE IR_ULE (K IR_KINT) (K IR_KINT) kfold_intcomp;
   FE IR_UGT (K IR_KINT) (K IR_KINT) kfold_intcomp;
   FE IR_ABC (K IR_KINT) (K IR_KINT) kfold_intcomp;
   FE IR_UGE ANYL (K IR_KINT) kfold_intcomp0;
   FE IR_ADD (K IR_KINT64) (K IR_KINT64) kfold_int64arith;
   FE IR_SUB (K IR_KINT64) (K IR_KINT64) kfold_int64arith;
   FE IR_MUL (K IR_KINT64) (K IR_KINT64) kfold_int64arith;
   FE IR_BAND (K IR_KINT64) (K IR_KINT64) kfold_int64arith;
   FE IR_BOR (K IR_KINT64) (K IR_KINT64) kfold_int64arith;
   FE IR_BXOR (K IR_KINT64) (K IR_KINT64) kfold_int64arith;
   FE IR_DIV (K IR_KINT64) (K IR_KINT64) kfold_int64arith2;
   FE IR_MOD (K IR_KINT64) (K IR_KINT64) kfold_int64arith2;
   FE IR_POW (K IR_KINT64) (K IR_KINT64) kfold_int64arith2;
   FE IR_BSHL (K IR_KINT64) (K IR_KINT) kfold_int64shift;
   FE IR_BSHR (K IR_KINT64) (K IR_KINT) kfold_int64shift;
   FE IR_BSAR (K IR_KINT64) (K IR_KINT) kfold_int64shift;
   FE IR_BROL (K IR_KINT64) (K IR_KINT) kfold_int64shift;
   FE IR_BROR (K IR_KINT64) (K IR_KINT) kfold_int64shift;
   FE IR_BNOT (K IR_KINT64) 0 kfold_bnot64;
   FE IR_BSWAP (K IR_KINT64) 0 kfold_bswap64;
   FE IR_LT (K IR_KINT64) (K IR_KINT64) kfold_int64comp;
   FE IR_GE (K IR_KINT64) (K IR_KINT64) kfold_int64comp;
   FE IR_LE (K IR_KINT64) (K IR_KINT64) kfold_int64comp;
   FE IR_GT (K IR_KINT64) (K IR_KINT64) kfold_int64comp;
   FE IR_ULT (K IR_KINT64) (K IR_KINT64) kfold_int64comp;
   FE IR_UGE (K IR_KINT64) (K IR_KINT64) kfold_int64comp;
   FE IR_ULE (K IR_KINT64) (K IR_KINT64) kfold_int64comp;
   FE IR_UGT (K IR_KINT64) (K IR_KINT64) kfold_int64comp;
   FE IR_UGE ANYL (K IR_KINT64) kfold_int64comp0;
   FE IR_ADD (K IR_KPTR) (K IR_KINT) kfold_add_kptr;
   FE IR_ADD (K IR_KPTR) (K IR_KINT64) kfold_add_kptr;
   FE IR_ADD (K IR_KKPTR) (K IR_KINT) kfold_add_kptr;
   FE IR_ADD (K IR_KKPTR) (K IR_KINT64) kfold_add_kptr;
   FE IR_ADD ANYL (K IR_KGC) kfold_add_kright;
   FE IR_ADD ANYL (K IR_KPTR) kfold_add_kright;
   FE IR_ADD ANYL (K IR_KKPTR) kfold_add_kright;
   FE IR_TOBIT (K IR_KNUM) (K IR_KNUM) kfold_tobit;
   FE IR_CONV (K IR_KINT) (conv_lit IRT_NUM IRT_INT) kfold_conv_kint_num;
   FE IR_CONV (K IR_KINT) (conv_lit IRT_NUM IRT_U32) kfold_conv_kintu32_num;
   FE IR_CONV (K IR_KINT) (conv_lit IRT_INT IRT_I8) kfold_conv_kint_ext;
   FE IR_CONV (K IR_KINT) (conv_lit IRT_INT IRT_U8) kfold_conv_kint_ext;
   FE IR_CONV (K IR_KINT) (conv_lit IRT_INT IRT_I16) kfold_conv_kint_ext;
   FE IR_CONV (K IR_KINT) (conv_lit IRT_INT IRT_U16) kfold_conv_kint_ext;
   FE IR_CONV (K IR_KINT) (conv_lit IRT_I64 IRT_INT) kfold_conv_kint_i64;
   FE IR_CONV (K IR_KINT) (conv_lit IRT_U64 IRT_INT) kfold_conv_kint_i64;
   FE IR_CONV (K IR_KINT) (conv_lit IRT_I64 IRT_U32) kfold_conv_kint_i64;
   FE IR_CONV (K IR_KINT) (conv_lit IRT_U64 IRT_U32) kfold_conv_kint_i64;
   FE IR_CONV (K IR_KINT64) (conv_lit IRT_NUM IRT_I64) kfold_conv_kint64_num_i64;
   FE IR_CONV (K IR_KINT64) (conv_lit IRT_NUM IRT_U64) kfold_conv_kint64_num_u64;
   FE IR_CONV (K IR_KINT64) (conv_lit IRT_INT IRT_I64) kfold_conv_kint64_int_i64;
   FE IR_CONV (K IR_KINT64) (conv_lit IRT_U32 IRT_I64) kfold_conv_kint64_int_i64;
   FE IR_CONV (K IR_KNUM) (conv_lit IRT_INT IRT_NUM) kfold_conv_knum_int_num;
   FE IR_CONV (K IR_KNUM) (conv_lit IRT_U32 IRT_NUM) kfold_conv_knum_u32_num;
   FE IR_CONV (K IR_KNUM) (conv_lit IRT_I64 IRT_NUM) kfold_conv_knum_i64_num;
   FE IR_CONV (K IR_KNUM) (conv_lit IRT_U64 IRT_NUM) kfold_conv_knum_u64_num;
   FE IR_EQ (K IR_FLOAD) (K IR_KNULL) CSEFOLD;
   FE IR_NE (K IR_FLOAD) (K IR_KNULL) CSEFOLD;
   FE IR_EQ ANYL (K IR_KNULL) kfold_kref;
   FE IR_NE ANYL (K IR_KNULL) kfold_kref;
   FE IR_EQ (K IR_KNULL) ANYR kfold_kref;
   FE IR_NE (K IR_KNULL) ANYR kfold_kref;
   FE IR_EQ (K IR_KINT) (K IR_KINT) kfold_kref;
   FE IR_NE (K IR_KINT) (K IR_KINT) kfold_kref;
   FE IR_EQ (K IR_KINT64) (K IR_KINT64) kfold_kref;
   FE IR_NE (K IR_KINT64) (K IR_KINT64) kfold_kref;
   FE IR_EQ (K IR_KGC) (K IR_KGC) kfold_kref;
   FE IR_NE (K IR_KGC) (K IR_KGC) kfold_kref;
   FE IR_FPMATH (K IR_FPMATH) 0 shortcut_round;
   FE IR_FPMATH (K IR_FPMATH) 1 shortcut_round;
   FE IR_FPMATH (K IR_FPMATH) 2 shortcut_round;
   FE IR_ABS (K IR_ABS) (K IR_KNUM) shortcut_left;
   FE IR_ABS (K IR_NEG) (K IR_KNUM) shortcut_dropleft;
   FE IR_NEG (K IR_NEG) ANYR shortcut_leftleft;
   FE IR_BNOT (K IR_BNOT) 0 shortcut_leftleft;
   FE IR_BSWAP (K IR_BSWAP) 0 shortcut_leftleft;
   FE IR_ADD (K IR_NEG) ANYR simplify_numadd_negx;
   FE IR_ADD ANYL (K IR_NEG) simplify_numadd_xneg;
   FE IR_SUB ANYL (K IR_KNUM) simplify_numsub_k;
   FE IR_SUB (K IR_NEG) (K IR_KNUM) simplify_numsub_negk;
   FE IR_SUB ANYL (K IR_NEG) simplify_numsub_xneg;
   FE IR_MUL ANYL (K IR_KNUM) simplify_nummuldiv_k;
   FE IR_DIV ANYL (K IR_KNUM) simplify_nummuldiv_k;
   FE IR_MUL (K IR_NEG) (K IR_KNUM) simplify_nummuldiv_negk;
   FE IR_DIV (K IR_NEG) (K IR_KNUM) simplify_nummuldiv_negk;
   FE IR_MUL (K IR_NEG) (K IR_NEG) simplify_nummuldiv_negneg;
   FE IR_DIV (K IR_NEG) (K IR_NEG) simplify_nummuldiv_negneg;
   FE IR_POW ANYL (K IR_KINT) simplify_numpow_xk;
   FE IR_POW (K IR_KNUM) ANYR simplify_numpow_kx;
   FE IR_CONV (K IR_CONV) (conv_lit IRT_NUM IRT_INT) shortcut_conv_num_int;
   FE IR_CONV (K IR_CONV) (conv_lit IRT_INT IRT_NUM) simplify_conv_int_num;
   FE IR_CONV (K IR_CONV) (conv_lit IRT_U32 IRT_NUM) simplify_conv_int_num;
   FE IR_CONV (K IR_CONV) (conv_lit IRT_I64 IRT_NUM) simplify_conv_i64_num;
   FE IR_CONV (K IR_CONV) (conv_lit IRT_U64 IRT_NUM) simplify_conv_i64_num;
   FE IR_CONV (K IR_CONV) (conv_lit IRT_INT IRT_I64) simplify_conv_int_i64;
   FE IR_CONV (K IR_CONV) (conv_lit IRT_INT IRT_U64) simplify_conv_int_i64;
   FE IR_CONV (K IR_CONV) (conv_lit IRT_U32 IRT_I64) simplify_conv_int_i64;
   FE IR_CONV (K IR_CONV) (conv_lit IRT_U32 IRT_U64) simplify_conv_int_i64;
   FE IR_CONV (K IR_CONV) (conv_lit IRT_FLOAT IRT_NUM) simplify_conv_flt_num;
   FE IR_TOBIT (K IR_CONV) (K IR_KNUM) simplify_tobit_conv;
   FE IR_FPMATH (K IR_CONV) 0 simplify_floor_conv;
   FE IR_FPMATH (K IR_CONV) 1 simplify_floor_conv;
   FE IR_FPMATH (K IR_CONV) 2 simplify_floor_conv;
   FE IR_CONV ANYL (conv_lit IRT_I64 IRT_INT) simplify_conv_sext;
   FE IR_CONV ANYL (conv_lit IRT_U64 IRT_INT) simplify_conv_sext;
   FE IR_CONV (K IR_ADD) (conv_lit IRT_INT IRT_I64) simplify_conv_narrow;
   FE IR_CONV (K IR_SUB) (conv_lit IRT_INT IRT_I64) simplify_conv_narrow;
   FE IR_CONV (K IR_MUL) (conv_lit IRT_INT IRT_I64) simplify_conv_narrow;
   FE IR_CONV (K IR_ADD) (conv_lit IRT_INT IRT_U64) simplify_conv_narrow;
   FE IR_CONV (K IR_SUB) (conv_lit IRT_INT IRT_U64) simplify_conv_narrow;
   FE IR_CONV (K IR_MUL) (conv_lit IRT_INT IRT_U64) simplify_conv_narrow;
   FE IR_CONV (K IR_ADD) (conv_lit IRT_U32 IRT_I64) simplify_conv_narrow;
   FE IR_CONV (K IR_SUB) (conv_lit IRT_U32 IRT_I64) simplify_conv_narrow;
   FE IR_CONV (K IR_MUL) (conv_lit IRT_U32 IRT_I64) simplify_conv_narrow;
   FE IR_CONV (K IR_ADD) (conv_lit IRT_U32 IRT_U64) simplify_conv_narrow;
   FE IR_CONV (K IR_SUB) (conv_lit IRT_U32 IRT_U64) simplify_conv_narrow;
   FE IR_CONV (K IR_MUL) (conv_lit IRT_U32 IRT_U64) simplify_conv_narrow;
   FE IR_CONV ANYL ANYR cse_conv;
   FE IR_ADD ANYL (K IR_KINT) simplify_intadd_k;
   FE IR_ADDOV ANYL (K IR_KINT) simplify_intadd_k;
   FE IR_SUBOV ANYL (K IR_KINT) simplify_intadd_k;
   FE IR_MULOV ANYL (K IR_KINT) simplify_intmul_k;
   FE IR_SUB ANYL (K IR_KINT) simplify_intsub_k;
   FE IR_SUB (K IR_KINT) ANYR simplify_intsub_kleft;
   FE IR_SUB (K IR_KINT64) ANYR simplify_intsub_kleft;
   FE IR_ADD ANYL (K IR_KINT64) simplify_intadd_k64;
   FE IR_SUB ANYL (K IR_KINT64) simplify_intsub_k64;
   FE IR_MUL ANYL (K IR_KINT) simplify_intmul_k32;
   FE IR_MUL ANYL (K IR_KINT64) simplify_intmul_k64;
   FE IR_MOD ANYL (K IR_KINT) simplify_intmod_k;
   FE IR_MOD (K IR_KINT) ANYR simplify_intmod_kleft;
   FE IR_SUB ANYL ANYR simplify_intsub;
   FE IR_SUBOV ANYL ANYR simplify_intsub;
   FE IR_SUB (K IR_ADD) ANYR simplify_intsubadd_leftcancel;
   FE IR_SUB (K IR_SUB) ANYR simplify_intsubsub_leftcancel;
   FE IR_SUB ANYL (K IR_SUB) simplify_intsubsub_rightcancel;
   FE IR_SUB ANYL (K IR_ADD) simplify_intsubadd_rightcancel;
   FE IR_SUB (K IR_ADD) (K IR_ADD) simplify_intsubaddadd_cancel;
   FE IR_BAND ANYL (K IR_KINT) simplify_band_k;
   FE IR_BAND ANYL (K IR_KINT64) simplify_band_k;
   FE IR_BOR ANYL (K IR_KINT) simplify_bor_k;
   FE IR_BOR ANYL (K IR_KINT64) simplify_bor_k;
   FE IR_BXOR ANYL (K IR_KINT) simplify_bxor_k;
   FE IR_BXOR ANYL (K IR_KINT64) simplify_bxor_k;
   FE IR_BSHL ANYL (K IR_KINT) simplify_shift_ik;
   FE IR_BSHR ANYL (K IR_KINT) simplify_shift_ik;
   FE IR_BSAR ANYL (K IR_KINT) simplify_shift_ik;
   FE IR_BROL ANYL (K IR_KINT) simplify_shift_ik;
   FE IR_BROR ANYL (K IR_KINT) simplify_shift_ik;
   FE IR_BSHL ANYL (K IR_BAND) simplify_shift_andk;
   FE IR_BSHR ANYL (K IR_BAND) simplify_shift_andk;
   FE IR_BSAR ANYL (K IR_BAND) simplify_shift_andk;
   FE IR_BROL ANYL (K IR_BAND) simplify_shift_andk;
   FE IR_BROR ANYL (K IR_BAND) simplify_shift_andk;
   FE IR_BSHL (K IR_KINT) ANYR simplify_shift1_ki;
   FE IR_BSHR (K IR_KINT) ANYR simplify_shift1_ki;
   FE IR_BSHL (K IR_KINT64) ANYR simplify_shift1_ki;
   FE IR_BSHR (K IR_KINT64) ANYR simplify_shift1_ki;
   FE IR_BSAR (K IR_KINT) ANYR simplify_shift2_ki;
   FE IR_BROL (K IR_KINT) ANYR simplify_shift2_ki;
   FE IR_BROR (K IR_KINT) ANYR simplify_shift2_ki;
   FE IR_BSAR (K IR_KINT64) ANYR simplify_shift2_ki;
   FE IR_BROL (K IR_KINT64) ANYR simplify_shift2_ki;
   FE IR_BROR (K IR_KINT64) ANYR simplify_shift2_ki;
   FE IR_BSHL (K IR_BAND) (K IR_KINT) simplify_shiftk_andk;
   FE IR_BSHR (K IR_BAND) (K IR_KINT) simplify_shiftk_andk;
   FE IR_BROL (K IR_BAND) (K IR_KINT) simplify_shiftk_andk;
   FE IR_BROR (K IR_BAND) (K IR_KINT) simplify_shiftk_andk;
   FE IR_BAND (K IR_BSHL) (K IR_KINT) simplify_andk_shiftk;
   FE IR_BAND (K IR_BSHR) (K IR_KINT) simplify_andk_shiftk;
   FE IR_ADD (K IR_ADD) (K IR_KINT) reassoc_intarith_k;
   FE IR_MUL (K IR_MUL) (K IR_KINT) reassoc_intarith_k;
   FE IR_BAND (K IR_BAND) (K IR_KINT) reassoc_intarith_k;
   FE IR_BOR (K IR_BOR) (K IR_KINT) reassoc_intarith_k;
   FE IR_BXOR (K IR_BXOR) (K IR_KINT) reassoc_intarith_k;
   FE IR_ADD (K IR_ADD) (K IR_KINT64) reassoc_intarith_k64;
   FE IR_MUL (K IR_MUL) (K IR_KINT64) reassoc_intarith_k64;
   FE IR_BAND (K IR_BAND) (K IR_KINT64) reassoc_intarith_k64;
   FE IR_BOR (K IR_BOR) (K IR_KINT64) reassoc_intarith_k64;
   FE IR_BXOR (K IR_BXOR) (K IR_KINT64) reassoc_intarith_k64;
   FE IR_MIN (K IR_MIN) ANYR reassoc_dup;
   FE IR_MAX (K IR_MAX) ANYR reassoc_dup;
   FE IR_BAND (K IR_BAND) ANYR reassoc_dup;
   FE IR_BOR (K IR_BOR) ANYR reassoc_dup;
   FE IR_BXOR (K IR_BXOR) ANYR reassoc_bxor;
   FE IR_BSHL (K IR_BSHL) (K IR_KINT) reassoc_shift;
   FE IR_BSHR (K IR_BSHR) (K IR_KINT) reassoc_shift;
   FE IR_BSAR (K IR_BSAR) (K IR_KINT) reassoc_shift;
   FE IR_BROL (K IR_BROL) (K IR_KINT) reassoc_shift;
   FE IR_BROR (K IR_BROR) (K IR_KINT) reassoc_shift;
   FE IR_MIN (K IR_MIN) (K IR_KNUM) reassoc_minmax_k;
   FE IR_MAX (K IR_MAX) (K IR_KNUM) reassoc_minmax_k;
   FE IR_MIN (K IR_MIN) (K IR_KINT) reassoc_minmax_k;
   FE IR_MAX (K IR_MAX) (K IR_KINT) reassoc_minmax_k;
   FE IR_MIN (K IR_MAX) ANYR reassoc_minmax_left;
   FE IR_MAX (K IR_MIN) ANYR reassoc_minmax_left;
   FE IR_MIN ANYL (K IR_MAX) reassoc_minmax_right;
   FE IR_MAX ANYL (K IR_MIN) reassoc_minmax_right;
   FE IR_ABC ANYL (K IR_ADD) abc_fwd;
   FE IR_ABC ANYL (K IR_KINT) abc_k;
   FE IR_ABC ANYL ANYR abc_invar;
   FE IR_ADD ANYL ANYR comm_swap;
   FE IR_MUL ANYL ANYR comm_swap;
   FE IR_ADDOV ANYL ANYR comm_swap;
   FE IR_MULOV ANYL ANYR comm_swap;
   FE IR_EQ ANYL ANYR comm_equal;
   FE IR_NE ANYL ANYR comm_equal;
   FE IR_LT ANYL ANYR comm_comp;
   FE IR_GE ANYL ANYR comm_comp;
   FE IR_LE ANYL ANYR comm_comp;
   FE IR_GT ANYL ANYR comm_comp;
   FE IR_ULT ANYL ANYR comm_comp;
   FE IR_UGE ANYL ANYR comm_comp;
   FE IR_ULE ANYL ANYR comm_comp;
   FE IR_UGT ANYL ANYR comm_comp;
   FE IR_BAND ANYL ANYR comm_dup;
   FE IR_BOR ANYL ANYR comm_dup;
   FE IR_MIN ANYL ANYR comm_dup;
   FE IR_MAX ANYL ANYR comm_dup;
   FE IR_BXOR ANYL ANYR comm_bxor].

(** ** The engine *)

(** The rules of the other parts of the VM. *)
Variable ext_table : list fold_entry.

(** The lookup in the generated hash table. *)
Fixpoint fold_lookup (tab : list fold_entry) (o : IROp) (l r : Z) : option frule :=
  match tab with
  | [] => None
  | e :: tab =>
      if op_eqb (fe_op e) o && (fe_left e =? l) && (fe_right e =? r) then Some (fe_fn e)
      else fold_lookup tab o l r
  end.

(** From most specific to least specific. *)
Definition fold_keys (l r : Z) : list (Z * Z) := [(l, r); (ANYL, r); (l, ANYR); (ANYL, ANYR)].

Fixpoint fold_try (o : IROp) (keys : list (Z * Z)) (J : jit_State) : res fold_err (FR * jit_State) :=
  match keys with
  | [] => ret NEXTFOLD J
  | (l, r) :: keys =>
      match fold_lookup (fold_table ++ ext_table) o l r with
      | None => fold_try o keys J
      | Some f =>
          '(x, J') ← f J;
          match x with NEXTFOLD => fold_try o keys J' | _ => Ok (x, J') end
      end
  end.

(** Load the operands and build the key. *)
Definition fold_load (J : jit_State) : jit_State :=
  let f := fins J in
  set_lr J (if nk J <=? op1 f then IR J (op1 f) else fleft J)
           (if nk J <=? op2 f then IR J (op2 f) else fright J).
Definition fold_left (J : jit_State) : Z :=
  if nk J <=? op1 (fins J) then irop_num (ins_o (IR J (op1 (fins J)))) else 0.
Definition fold_right (J : jit_State) : Z :=
  if nk J <=? op2 (fins J) then irop_num (ins_o (IR J (op2 (fins J)))) else op2 (fins J) .& 0x3ff.

(** One pass through the rules, from the retry point on. *)
Definition fold_round (J : jit_State) : res fold_err (FR * jit_State) :=
  fold_try (ins_o (fins J)) (fold_keys (fold_left J) (fold_right J)) (fold_load J).

(** Processing of the special return values. *)
Definition fold_result (retry : jit_State -> res fold_err (Z * jit_State)) (x : FR) (J : jit_State)
  : res fold_err (Z * jit_State) :=
  match x with
  | NEXTFOLD => Ok (lj_opt_cse J)
  | FREF ref => Ok (ref, J)
  | RETRYFOLD => retry J
  | KINTFOLD => Ok (lj_ir_kint J (ins_i (fins J)))
  | FAILFOLD => Err LJ_TRERR_GFAIL
  | DROPFOLD => Ok (REF_DROP, J)
  end.

End FoldFunctions.

Definition irm_kind (m : Z) : Z := m .& IRM_S.
Definition JIT_F_OPT_MASK : Z := 0x0fff0000.
Definition JIT_F_OPT_DEFAULT : Z := 0x03ff0000.
Definition all_flags (J : jit_State) (m : Z) : bool := flags J .& m =? m.

(** Which instructions bypass FOLD when optimizations are turned off:
    [Some true] to CSE, [Some false] to the emitter. *)
Definition fold_bypass (J : jit_State) : option bool :=
  let o := ins_o (fins J) in
  let kind := irm_kind (lj_ir_mode o) in
  if flags J .& JIT_F_OPT_MASK =? JIT_F_OPT_DEFAULT then None
  else if negb (has_flag J JIT_F_OPT_FOLD) && (kind =? IRM_N) then Some true
  else if negb (all_flags J (JIT_F_OPT_FOLD .| JIT_F_OPT_FWD .| JIT_F_OPT_CSE)) &&
          (kind =? IRM_L) && negb (op_eqb o IR_SLOAD) then Some false
  else if negb (all_flags J (JIT_F_OPT_FOLD .| JIT_F_OPT_DSE)) && (kind =? IRM_S) then Some false
  else None.

(** [lj_opt_fold]. The fuel bounds the retries plus the depth of the calls that
    rules make to emit instructions. [start] is false at the retry point. *)
Fixpoint opt_fold `{Target} (ext : (jit_State -> res fold_err (Z * jit_State)) -> list fold_entry)
    (fuel : nat) (start : bool) (J : jit_State) : res fold_err (Z * jit_State) :=
  match fuel with
  | O => Err FOLD_FUEL
  | S fuel =>
      match (if start then fold_bypass J else None) with
      | Some true => Ok (lj_opt_cse J)
      | Some false => Ok (lj_ir_emit J)
      | None =>
          let rec := opt_fold ext fuel true in
          '(x, J) ← fold_round rec (ext rec) J;
          fold_result (opt_fold ext fuel false) x J
      end
  end.
Definition lj_opt_fold `{Target} ext fuel J := opt_fold ext fuel true J.
