(* ===== verification/FoldMono.v ===== *)
(** * Fold rules only consume constant space

    Every fold rule, and the engine, leaves at most as much space for constants
    as it found: the bound of the constant area only decreases and the table of
    64-bit constants only grows. *)

From S2P Require Import Prelude Machine Carith Num Ir IrInv Fold.

Definition shrinks (J J' : jit_State) : Prop :=
  nk J' <= nk J /\ (length (k64 J) <= length (k64 J'))%nat.

Lemma shrinks_refl J : shrinks J J.
Proof. by split. Qed.
Lemma shrinks_trans J1 J2 J3 : shrinks J1 J2 -> shrinks J2 J3 -> shrinks J1 J3.
Proof. intros [] []. split; lia. Qed.
#[export] Instance shrinks_po : PreOrder shrinks.
Proof. split; [exact shrinks_refl|exact shrinks_trans]. Qed.

Lemma shrinks_room J J' : shrinks J J' -> room J' -> room J.
Proof. unfold room. intros [] []. split; lia. Qed.

(** ** Interning and emission *)

Create HintDb shrinks.

Lemma intern_shrinks J o t a b same r J' : ir_intern J o t a b same = (r, J') -> shrinks J J'.
Proof. unfold ir_intern. destruct (negb _); intros [= <- <-]; split; simpl; lia. Qed.
Lemma kint_shrinks J k r J' : lj_ir_kint J k = (r, J') -> shrinks J J'.
Proof. apply intern_shrinks. Qed.
Lemma find_shrinks J u a J' : lj_ir_k64_find J u = (a, J') -> shrinks J J'.
Proof.
  unfold lj_ir_k64_find. destruct (k64_index _ _ _); intros [= <- <-]; split; simpl; rewrite ?length_app; lia.
Qed.
Lemma k64_shrinks J o a r J' : lj_ir_k64 J o a = (r, J') -> shrinks J J'.
Proof. apply intern_shrinks. Qed.
Lemma knum_u64_shrinks J u r J' : lj_ir_knum_u64 J u = (r, J') -> shrinks J J'.
Proof.
  unfold lj_ir_knum_u64. destruct (lj_ir_k64_find J u) as [a J1] eqn:E. intros H.
  etransitivity; [by eapply find_shrinks|by eapply k64_shrinks].
Qed.
Lemma knum_shrinks J u r J' : lj_ir_knum J u = (r, J') -> shrinks J J'.
Proof. apply knum_u64_shrinks. Qed.
Lemma kint64_shrinks J u r J' : lj_ir_kint64 J u = (r, J') -> shrinks J J'.
Proof.
  unfold lj_ir_kint64. destruct (lj_ir_k64_find J u) as [a J1] eqn:E. intros H.
  etransitivity; [by eapply find_shrinks|by eapply k64_shrinks].
Qed.
Lemma knum_one_shrinks J r J' : lj_ir_knum_one J = (r, J') -> shrinks J J'.
Proof. apply knum_u64_shrinks. Qed.
Lemma knum_neg_shrinks J r J' : lj_ir_knum_neg J = (r, J') -> shrinks J J'.
Proof. apply k64_shrinks. Qed.
Lemma kptr_shrinks J o p r J' : lj_ir_kptr_ J o p = (r, J') -> shrinks J J'.
Proof. apply intern_shrinks. Qed.
Lemma append_shrinks J o t a b r J' : ir_append J o t a b = (r, J') -> shrinks J J'.
Proof. unfold ir_append. intros [= <- <-]. split; simpl; lia. Qed.
Lemma emit_shrinks J r J' : lj_ir_emit J = (r, J') -> shrinks J J'.
Proof. apply append_shrinks. Qed.
Lemma cse_shrinks J r J' : lj_opt_cse J = (r, J') -> shrinks J J'.
Proof. unfold lj_opt_cse. destruct (negb _); [intros [= <- <-]; reflexivity|apply append_shrinks]. Qed.

#[export] Hint Resolve kint_shrinks knum_shrinks knum_u64_shrinks kint64_shrinks knum_one_shrinks
  knum_neg_shrinks kptr_shrinks emit_shrinks cse_shrinks : shrinks.

(** ** Rules *)

(** Closes [shrinks J J'] from the steps in the context. *)
Ltac shrinks_chain :=
  lazymatch goal with
  | |- shrinks ?J ?J => reflexivity
  | |- shrinks ?J (set_fins ?K ?f) => change (shrinks J K); shrinks_chain
  | |- shrinks ?J (if ?b then _ else _) => destruct b; shrinks_chain
  | |- shrinks ?J (lj_ir_set ?K _ _ _ _) => change (shrinks J K); shrinks_chain
  | |- shrinks ?J (set_ir ?K ?f) => change (shrinks J K); shrinks_chain
  | |- shrinks ?J ?K =>
      match goal with
      | E : _ = (_, K) |- _ => eapply shrinks_trans; [|solve [eauto with shrinks]]; shrinks_chain
      | E : _ = Ok (_, K) |- _ => eapply shrinks_trans; [|solve [eauto with shrinks]]; shrinks_chain
      | E : _ = Ok K |- _ => eapply shrinks_trans; [|solve [eauto with shrinks]]; shrinks_chain
      end
  end.

Ltac shrinks_step :=
  match goal with
  | H : Ok _ = Ok _ |- _ => injection H as ?; subst
  | H : Ok _ = Ok (_, _, _) |- _ => injection H as ? ? ?; subst
  | H : Ok _ = Ok (_, _) |- _ => injection H as ? ?; subst
  | H : Err _ = Ok _ |- _ => discriminate H
  | H : mbind _ _ = Ok _ |- _ => apply bind_Ok in H as (? & ? & H)
  | p : _ * _ |- _ => destruct p
  | H : (if ?b then _ else _) = Ok _ |- _ => destruct b eqn:?
  | H : (let '(_, _) := ?p in _) = Ok _ |- _ => destruct p eqn:?
  end.

Ltac head t := lazymatch t with ?f _ => head f | _ => t end.
Ltac shrinks_rule :=
  intros J0 x0 J0' H0;
  lazymatch type of H0 with ?t = _ => let h := head t in unfold h in H0 end;
  unfold CSEFOLD, comm_swap, simplify_intmul_k_, PHIBARRIER, LEFTFOLD, RIGHTFOLD, INTFOLD, INT64FOLD, KNUMFOLD, EMITFOLD, emitir, fins_o, fins_op1,
    fins_op2, fins_ot, fins_ops, ret in H0;
  cbv beta zeta in H0; repeat (shrinks_step; cbv beta zeta in *); try solve [shrinks_chain].

Definition rule_shrinks (f : frule) : Prop := forall J x J', f J = Ok (x, J') -> shrinks J J'.

Section Rules.
Context `{T : Target}.
Variable rec : jit_State -> res fold_err (Z * jit_State).
Hypothesis (Rsh : forall J r J', rec J = Ok (r, J') -> shrinks J J').
#[local] Hint Resolve Rsh : shrinks.

(** The loops of [simplify_numpow_xk]. *)
Lemma numpow_bits_shrinks n J ref tmp k r J' :
  numpow_bits rec n J ref tmp k = Ok (r, J') -> shrinks J J'.
Proof using Rsh.
  revert J ref tmp k. induction n as [|n IH]; [done|]. intros J ref tmp k. cbn [numpow_bits]. unfold emitir.
  intros H. repeat (shrinks_step; cbv beta in *); try reflexivity; apply IH in H;
    (etransitivity; [|exact H]); shrinks_chain.
Qed.

Lemma numpow_zeros_shrinks n J ref k r J' : numpow_zeros rec n J ref k = Ok (r, J') -> shrinks J J'.
Proof using Rsh.
  revert J ref k. induction n as [|n IH]; [done|]. intros J ref k. cbn [numpow_zeros]. unfold emitir.
  intros H. repeat (shrinks_step; cbv beta in *); try reflexivity; apply IH in H;
    (etransitivity; [|exact H]); shrinks_chain.
Qed.
#[local] Hint Resolve numpow_bits_shrinks numpow_zeros_shrinks : shrinks.

Lemma fold_table_shrinks : Forall (fun e => rule_shrinks (fe_fn e)) (fold_table rec).
Proof using Rsh.
  unfold fold_table, rule_shrinks. repeat (apply Forall_cons_2; [cbn [fe_fn]; shrinks_rule|]).
  apply Forall_nil_2.
Qed.

(** ** The engine *)

Variable ext : list fold_entry.
Hypothesis (Esh : Forall (fun e => rule_shrinks (fe_fn e)) ext).

Lemma fold_lookup_in tab o l r f : fold_lookup tab o l r = Some f ->
  exists e, In e tab /\ fe_op e = o /\ fe_left e = l /\ fe_right e = r /\ fe_fn e = f.
Proof using.
  induction tab as [|e tab IH]; [done|]. cbn [fold_lookup]. destruct (_ && _) eqn:E.
  - intros [= <-]. apply andb_true_iff in E as [[E1%op_eqb_eq E2%Z.eqb_eq]%andb_true_iff E3%Z.eqb_eq].
    exists e. split_and!; try done. by left.
  - intros H. destruct (IH H) as (e' & Hin & H'). exists e'. split; [by right|done].
Qed.

Lemma fold_try_shrinks o keys J x J' : fold_try rec ext o keys J = Ok (x, J') -> shrinks J J'.
Proof using Rsh Esh.
  revert J. induction keys as [|[l r] keys IH]; intros J; cbn [fold_try]; [intros [= _ <-]; reflexivity|].
  destruct (fold_lookup _ o l r) as [f|] eqn:E; [|apply IH].
  apply fold_lookup_in in E as (e & Hin & _ & _ & _ & <-). intros ([y J1] & E1 & H)%bind_Ok.
  assert (S1 : shrinks J J1).
  { apply in_app_iff in Hin as [Hin|Hin].
    - by apply (proj1 (List.Forall_forall _ _) fold_table_shrinks e Hin J y).
    - by apply (proj1 (List.Forall_forall _ _) Esh e Hin J y). }
  cbn beta iota in H. destruct y; try (injection H as _ <-; done). etransitivity; [exact S1|by apply IH].
Qed.

Lemma fold_round_shrinks J x J' : fold_round rec ext J = Ok (x, J') -> shrinks J J'.
Proof using Rsh Esh. intros H%fold_try_shrinks. exact H. Qed.
End Rules.

Lemma opt_fold_shrinks `{Target} ext fuel start :
  (forall rec, (forall J r J', rec J = Ok (r, J') -> shrinks J J') ->
    Forall (fun e => rule_shrinks (fe_fn e)) (ext rec)) ->
  forall J r J', opt_fold ext fuel start J = Ok (r, J') -> shrinks J J'.
Proof.
  intros Hext. revert start. induction fuel as [|fuel IH]; [done|]. intros start J r J'. cbn [opt_fold].
  destruct (if start then fold_bypass J else None) as [[]|]; [intros Hx..|].
  - apply (cse_shrinks J r). congruence.
  - apply (emit_shrinks J r). congruence.
  - intros ([x J1] & E1 & E)%bind_Ok. apply fold_round_shrinks in E1; [|apply IH|apply Hext, IH].
    etransitivity; [exact E1|]. destruct x; cbn [fold_result] in E.
    + apply (cse_shrinks J1 r). congruence.
    + by eapply IH.
    + apply (kint_shrinks J1 (ins_i (fins J1)) r). congruence.
    + done.
    + by injection E as _ <-.
    + by injection E as _ <-.
Qed.
