(* ===== verification/FoldSem.v ===== *)
(** * The meaning of integer IR instructions

    A semantics of the IR that is independent of the fold rules: operations of
    the two integer classes are arithmetic modulo [2^32] and [2^64].  A run of a
    trace assigns a value to every reference; it is consistent with an IR when
    every instruction has the value its operands determine and no guard
    exits.  This covers the instructions of one pass through a trace; that PHI
    references change their value between iterations is not part of it.
    Floating-point arithmetic, loads and calls have any value. *)

From S2P Require Import Prelude Machine Carith Num Ir IrInv Fold.

(** ** Arithmetic of the two classes *)

(** 32-bit values (in 32-bit targets pointers, too), 64-bit integers, numbers,
    and everything else. *)
Inductive cls := C32 | C64 | CN | CX.

#[export] Instance cls_eq_dec : EqDecision cls.
Proof. solve_decision. Defined.

Definition type_cls (t : Z) : cls :=
  if (t =? IRT_I64) || (t =? IRT_U64) then C64
  else if t =? IRT_NUM then CN
  else if ((IRT_LIGHTUD <=? t) && (t <=? IRT_UDATA) && negb (t =? IRT_P64)) ||
          ((IRT_I8 <=? t) && (t <=? IRT_U32)) then C32
  else CX.
Definition cls_of (t : Z) : cls := type_cls (irt_type t).

Definition bits (c : cls) : Z := match c with C64 => 64 | _ => 32 end.

(** The value a class uses for a residue: [int32_t] and [uint64_t]. *)
Definition wr (c : cls) (v : Z) : Z := match c with C64 => u64 v | _ => i32 v end.
Definition in_cls (c : cls) (v : Z) : Prop := match c with C64 => is_u64 v | _ => is_i32 v end.
Definition un (c : cls) (v : Z) : Z := v mod 2 ^ bits c.
Definition sg (c : cls) (v : Z) : Z := match c with C64 => i64 v | _ => i32 v end.

Lemma bits_pos c : 0 < bits c. Proof. by destruct c. Qed.
Lemma pow_bits_pos c : 0 < 2 ^ bits c. Proof. by destruct c. Qed.
#[export] Hint Resolve bits_pos pow_bits_pos : width.

Lemma wr_in c v : in_cls c (wr c v).
Proof. destruct c; simpl; auto with width. Qed.
Lemma wr_id c v : in_cls c v -> wr c v = v.
Proof. destruct c; simpl; first [apply i32_id|apply u64_id]. Qed.
Lemma un_range c v : 0 <= un c v < 2 ^ bits c.
Proof. apply Z.mod_pos_bound, pow_bits_pos. Qed.
#[export] Hint Resolve wr_in un_range : width.

(** *** Congruence modulo the width *)

Definition eqm (c : cls) (a b : Z) : Prop := a mod 2 ^ bits c = b mod 2 ^ bits c.

#[export] Instance eqm_equiv c : Equivalence (eqm c).
Proof. unfold eqm. split; repeat intro; congruence. Qed.

#[export] Instance eqm_add c : Proper (eqm c ==> eqm c ==> eqm c) Z.add.
Proof. unfold eqm. intros a a' H b b' H'. by rewrite Z.add_mod, H, H', <- Z.add_mod by (by destruct c). Qed.
#[export] Instance eqm_mul c : Proper (eqm c ==> eqm c ==> eqm c) Z.mul.
Proof. unfold eqm. intros a a' H b b' H'. by rewrite Z.mul_mod, H, H', <- Z.mul_mod by (by destruct c). Qed.
#[export] Instance eqm_sub c : Proper (eqm c ==> eqm c ==> eqm c) Z.sub.
Proof. unfold eqm. intros a a' H b b' H'. by rewrite Zminus_mod, H, H', <- Zminus_mod. Qed.
#[export] Instance eqm_opp c : Proper (eqm c ==> eqm c) Z.opp.
Proof. intros a a' H. rewrite <- !Z.sub_0_l. by rewrite H. Qed.

(** Congruence is agreement of the low bits. *)
Lemma eqm_bits c a b :
  eqm c a b <-> (forall n, 0 <= n < bits c -> Z.testbit a n = Z.testbit b n).
Proof.
  split; intros H.
  - intros n Hn. by apply (mod_pow2_eq_bit _ _ (bits c)).
  - apply mod_pow2_eq; [pose proof (bits_pos c); lia|done].
Qed.

#[export] Instance eqm_land c : Proper (eqm c ==> eqm c ==> eqm c) Z.land.
Proof. intros a a' H b b' H'. rewrite eqm_bits in *. intros n Hn. tbits. by rewrite H, H'. Qed.
#[export] Instance eqm_lor c : Proper (eqm c ==> eqm c ==> eqm c) Z.lor.
Proof. intros a a' H b b' H'. rewrite eqm_bits in *. intros n Hn. tbits. by rewrite H, H'. Qed.
#[export] Instance eqm_lxor c : Proper (eqm c ==> eqm c ==> eqm c) Z.lxor.
Proof. intros a a' H b b' H'. rewrite eqm_bits in *. intros n Hn. tbits. by rewrite H, H'. Qed.
#[export] Instance eqm_lnot c : Proper (eqm c ==> eqm c) Z.lnot.
Proof. intros a a' H. unfold Z.lnot. rewrite <- !Z.sub_1_r. by rewrite H. Qed.

Lemma eqm_shiftl c a b n : 0 <= n -> eqm c a b -> eqm c (a << n) (b << n).
Proof. intros Hn H. rewrite !Z.shiftl_mul_pow2 by done. by rewrite H. Qed.

Lemma wr_eqm c v : eqm c (wr c v) v.
Proof. destruct c; unfold eqm; simpl; first [apply u32_i32|by apply Z.mod_mod]. Qed.
Lemma wr_cong c a b : eqm c a b -> wr c a = wr c b.
Proof. destruct c; unfold eqm; simpl; intros H; first [by apply i32_cong|done]. Qed.
Lemma wr_eq c a b : wr c a = wr c b <-> eqm c a b.
Proof. split; [|apply wr_cong]. intros H. by rewrite <- (wr_eqm c a), H, wr_eqm. Qed.
Lemma in_cls_inj c a b : in_cls c a -> in_cls c b -> eqm c a b -> a = b.
Proof. intros Ha Hb H%wr_cong. by rewrite !wr_id in H. Qed.
Lemma un_eqm c v : eqm c (un c v) v.
Proof. apply Z.mod_mod. by destruct c. Qed.
Lemma sg_eqm c v : eqm c (sg c v) v.
Proof. destruct c; unfold eqm; simpl; first [apply u32_i32|apply u64_i64]. Qed.
Lemma un_cong c a b : eqm c a b -> un c a = un c b.
Proof. done. Qed.
Lemma sg_cong c a b : eqm c a b -> sg c a = sg c b.
Proof.
  destruct c; unfold eqm; simpl; intros H; [by apply i32_cong| |by apply i32_cong..].
  change (2 ^ 64) with (2 ^ 64) in H. rewrite <- (i64_u64 a), <- (i64_u64 b). unfold u64. by rewrite H.
Qed.

(** [weq] proves [wr c a = wr c b] for polynomials [a], [b] with inner wraps. *)
Ltac weq := apply wr_cong; rewrite ?wr_eqm;
  match goal with |- eqm ?c ?a ?b => replace a with b by ring; reflexivity end.

(** ** Typing *)

Inductive opkind := Kbin | Kun | Kshift | K32 | K64 | Kcmp | Kconv | Knone.

Definition kind (o : IROp) : opkind :=
  match o with
  | IR_ADD | IR_SUB | IR_MUL | IR_BAND | IR_BOR | IR_BXOR | IR_MOD => Kbin
  | IR_NEG | IR_BNOT | IR_BSWAP => Kun
  | IR_BSHL | IR_BSHR | IR_BSAR | IR_BROL | IR_BROR => Kshift
  | IR_MIN | IR_MAX | IR_ADDOV | IR_SUBOV | IR_MULOV | IR_ABC => K32
  | IR_DIV | IR_POW => K64
  | IR_LT | IR_GE | IR_LE | IR_GT | IR_ULT | IR_UGE | IR_ULE | IR_UGT | IR_EQ | IR_NE => Kcmp
  | IR_CONV => Kconv
  | _ => Knone
  end.

(** Primitive and null constants and slot constants have no value here. *)
Definition ins_cls (ins : IRIns) : cls :=
  match ins_o ins with IR_KPRI | IR_KNULL | IR_KSLOT => CX | _ => cls_of (ins_t ins) end.

Definition opcls (J : jit_State) (ref : Z) : cls :=
  match ir J !! ref with Some ins => ins_cls ins | None => CX end.

Definition both (c1 c2 : cls) : option cls :=
  match c1, c2 with C32, C32 => Some C32 | C64, C64 => Some C64 | _, _ => None end.

(** Conversions between integers: to 32 bits from anything, to 64 bits from
    32 or 64 bits. *)
Definition conv_ok (lit : Z) : bool :=
  let src := conv_src lit in
  let dst := conv_dst lit in
  let wide x := (x =? IRT_INT) || (x =? IRT_U32) || (x =? IRT_I64) || (x =? IRT_U64) in
  let narrow x := (x =? IRT_I8) || (x =? IRT_U8) || (x =? IRT_I16) || (x =? IRT_U16) in
  (wide src && wide dst) || (narrow src && ((dst =? IRT_INT) || (dst =? IRT_U32))).

(** The class of the result of an integer instruction. *)
Definition rescls (J : jit_State) (ins : IRIns) : option cls :=
  let c1 := opcls J (op1 ins) in
  let c2 := opcls J (op2 ins) in
  match kind (ins_o ins) with
  | Kbin => both c1 c2
  | Kun => match c1 with C32 | C64 => Some c1 | _ => None end
  | Kshift => match c1, c2 with C32, C32 | C64, C32 => Some c1 | _, _ => None end
  | K32 => match c1, c2 with C32, C32 => Some C32 | _, _ => None end
  | K64 => match c1, c2 with C64, C64 => Some C64 | _, _ => None end
  | Kcmp => match c1, c2 with CN, CN => Some CN | _, _ => both c1 c2 end
  | Kconv => if conv_ok (op2 ins) && bool_decide (c1 = cls_of (conv_src (op2 ins)))
             then Some (cls_of (conv_dst (op2 ins))) else None
  | Knone => None
  end.

(** ** Evaluation *)

Inductive outcome := Unk | Exit | Pass | Val (v : Z).

Definition guard (b : bool) : outcome := if b then Pass else Exit.

Definition eval_conv (lit a : Z) : Z :=
  let src := conv_src lit in
  match cls_of (conv_dst lit) with
  | C64 => if (src =? IRT_INT) || (src =? IRT_U32) then
             (if lit .& IRCONV_SEXT =? 0 then u64 (u32 a) else u64 a)
           else u64 a
  | _ => if src =? IRT_I8 then i8 a
         else if src =? IRT_U8 then u8 a
         else if src =? IRT_I16 then i16 a
         else if src =? IRT_U16 then u16 a
         else i32 a
  end.

Definition eval_op (c : cls) (ins : IRIns) (a b : Z) : outcome :=
  let sh := b mod bits c in
  let num := match c with CN => true | _ => false end in
  let signed64 := irt_isi64 (ins_t ins) in
  let ov v := if (- 2 ^ 31 <=? v) && (v <? 2 ^ 31) then Val v else Exit in
  match ins_o ins with
  | IR_ADD => Val (wr c (a + b))
  | IR_SUB => Val (wr c (a - b))
  | IR_MUL => Val (wr c (a * b))
  | IR_NEG => Val (wr c (- a))
  | IR_BNOT => Val (wr c (Z.lnot a))
  | IR_BAND => Val (wr c (a .& b))
  | IR_BOR => Val (wr c (a .| b))
  | IR_BXOR => Val (wr c (a .^ b))
  | IR_BSWAP => Val (match c with C64 => lj_bswap64 a | _ => i32 (lj_bswap (u32 a)) end)
  | IR_BSHL => Val (wr c (a << sh))
  | IR_BSHR => Val (wr c (un c a >> sh))
  | IR_BSAR => Val (wr c (sg c a >> sh))
  | IR_BROL => Val (wr c (lj_rol (bits c) (un c a) sh))
  | IR_BROR => Val (wr c (lj_ror (bits c) (un c a) sh))
  | IR_MIN => Val (Z.min a b)
  | IR_MAX => Val (Z.max a b)
  | IR_ADDOV => ov (a + b)
  | IR_SUBOV => ov (a - b)
  | IR_MULOV => ov (a * b)
  | IR_DIV => Val (if signed64 then u64 (lj_carith_divi64 (i64 a) (i64 b)) else lj_carith_divu64 a b)
  | IR_POW => Val (if signed64 then u64 (lj_carith_powi64 (i64 a) (i64 b)) else lj_carith_powu64 a b)
  | IR_MOD =>
      match c with
      | C64 => Val (if signed64 then u64 (lj_carith_modi64 (i64 a) (i64 b)) else lj_carith_modu64 a b)
      | _ => if b =? 0 then Unk else Val (a mod b)
      end
  | IR_CONV => Val (eval_conv (op2 ins) a)
  | IR_ABC => guard (u32 b <? u32 a)
  | IR_EQ => guard (if num then lj_ir_numcmp a b IR_EQ else a =? b)
  | IR_NE => guard (if num then lj_ir_numcmp a b IR_NE else negb (a =? b))
  | IR_LT => guard (if num then lj_ir_numcmp a b IR_LT else sg c a <? sg c b)
  | IR_GE => guard (if num then lj_ir_numcmp a b IR_GE else sg c b <=? sg c a)
  | IR_LE => guard (if num then lj_ir_numcmp a b IR_LE else sg c a <=? sg c b)
  | IR_GT => guard (if num then lj_ir_numcmp a b IR_GT else sg c b <? sg c a)
  | IR_ULT => guard (if num then lj_ir_numcmp a b IR_ULT else un c a <? un c b)
  | IR_UGE => guard (if num then lj_ir_numcmp a b IR_UGE else un c b <=? un c a)
  | IR_ULE => guard (if num then lj_ir_numcmp a b IR_ULE else un c a <=? un c b)
  | IR_UGT => guard (if num then lj_ir_numcmp a b IR_UGT else un c b <? un c a)
  | _ => Unk
  end.

Definition eval (J : jit_State) (rho : Z -> Z) (ins : IRIns) : outcome :=
  match rescls J ins with
  | Some c => eval_op c ins (rho (op1 ins)) (rho (op2 ins))
  | None =>
      match ins_o ins with
      | IR_KINT => Val (ins_i ins)
      | IR_KGC | IR_KPTR | IR_KKPTR => Val (i32 (op12 ins))
      | IR_KINT64 | IR_KNUM => Val (ir_k64 J ins)
      | _ => Unk
      end
  end.

Definition passes (rho : Z -> Z) (out : outcome) (ref : Z) : Prop :=
  match out with Val v => rho ref = v | Exit => False | Unk | Pass => True end.

(** The values a type allows. *)
Definition in_type (t v : Z) : Prop :=
  match cls_of t with
  | C32 => if irt_isu8 t then is_u8 v else if irt_isu16 t then is_u16 v else is_i32 v
  | C64 => is_u64 v
  | _ => True
  end.

(** *** The index of a numeric for loop

    When the recorder knows such a loop, the analysis slot holds the reference
    of the loop index and, for a loop that counts up, of its first value, for
    one that counts down, of its last one ([rec_for_loop]): a lower bound. *)
Definition scev_lo (J : jit_State) : Z :=
  let sc := scev J in if scev_dir sc =? 0 then scev_stop sc else scev_start sc.

(** What holds of the index in a run: it is not below the bound if that is a
    constant (the interpreter checks the loop condition before the loop is
    entered, and the trace before it goes on), and adding a constant to it
    does not overflow (the semantics of index expressions is undefined
    otherwise, as [narrow_stripov] of [lj_opt_narrow.c] says). *)
Definition scev_run (J : jit_State) (rho : Z -> Z) : Prop :=
  let idx := scev_idx (scev J) in
  opcls J idx = C32 -> forall lo, ir J !! scev_lo J = Some lo -> ins_o lo = IR_KINT ->
  ins_i lo <= rho idx /\
  forall ref ins k, ir J !! ref = Some ins -> ins_o ins = IR_ADD -> op1 ins = idx ->
    ir J !! op2 ins = Some k -> is_kop (ins_o k) = true -> rho idx + ins_i k < 2 ^ 31.

(** [rho] is a run of the trace in which no guard exits. *)
Record consistent (J : jit_State) (rho : Z -> Z) : Prop := {
  co_ins :> forall ref ins, ir J !! ref = Some ins ->
    in_type (ins_t ins) (rho ref) /\ passes rho (eval J rho ins) ref;
  co_scev : scev_run J rho
}.
