(* ===== verification/FoldInv.v ===== *)
(** * Soundness of fold rules: the relation

    What it means for a fold rule to be sound: the instruction it is given
    refines to the result it returns, in every run of the new IR.  Lemmas that
    establish the relation for each way a rule can return. *)

From S2P Require Import Prelude Machine Carith Num Ir IrInv Fold FoldSem.

(** ** Typed IR *)

Definition int_cls (c : cls) : bool := match c with C32 | C64 => true | _ => false end.
Definition iop (o : IROp) : bool := match kind o with Knone => false | _ => true end.
Definition unary (o : IROp) : bool := match kind o with Kun | Kconv => true | _ => false end.

(** Operands exist, the type is the one the operands determine, and constant
    indexes of bounds checks are not negative. *)
Record ins_ok (J : jit_State) (ins : IRIns) : Prop := {
  io_op1 : is_Some (ir J !! op1 ins);
  io_op2 : unary (ins_o ins) = false -> is_Some (ir J !! op2 ins);
  io_cls : ins_o ins <> IR_ABC -> forall c, rescls J ins = Some c -> cls_of (ins_t ins) = c;
  io_res : ins_o ins <> IR_CONV -> kind (ins_o ins) <> Kcmp -> int_cls (cls_of (ins_t ins)) = true ->
    rescls J ins = Some (cls_of (ins_t ins));
  io_abc : ins_o ins = IR_ABC -> rescls J ins = Some C32 /\
    forall k, irref_isk (op2 ins) = true -> ir J !! op2 ins = Some k -> ins_o k = IR_KINT /\ 0 <= ins_i k;
  io_conv : ins_o ins = IR_CONV -> cls_of (ins_t ins) = cls_of (conv_dst (op2 ins)) /\
    (int_cls (cls_of (conv_src (op2 ins))) = true -> opcls J (op1 ins) = cls_of (conv_src (op2 ins))) /\
    op2 ins < 0x4000;
}.

Record sem_wf (J : jit_State) : Prop := {
  sw_wf : ir_wf J;
  sw_ins : forall ref ins, ir J !! ref = Some ins -> iop (ins_o ins) = true -> ins_ok J ins;
}.

(** Instructions are added and the constant of a bounds check may be replaced. *)
Record extends (J J' : jit_State) : Prop := {
  ex_ir : forall ref ins, ir J !! ref = Some ins -> exists ins', ir J' !! ref = Some ins' /\
    ins_o ins' = ins_o ins /\ ins_t ins' = ins_t ins /\ (ins_o ins <> IR_ABC -> ins' = ins);
  ex_nk : nk J' <= nk J;
  ex_nins : nins J <= nins J';
  ex_k64 : exists l, k64 J' = k64 J ++ l;
  ex_flags : flags J' = flags J;
  ex_scev : scev J' = scev J;
}.

Lemma grows_extends J J' : grows J J' -> extends J J'.
Proof.
  intros [H1 H2 H3 H4 H5 H6]. constructor; try done. intros ref ins H.
  exists ins. split_and!; try done. by eapply lookup_weaken.
Qed.

Lemma extends_refl J : extends J J.
Proof. apply grows_extends, grows_refl. Qed.

Lemma extends_trans J1 J2 J3 : extends J1 J2 -> extends J2 J3 -> extends J1 J3.
Proof.
  intros [A1 A2 A3 [l1 A4] A5 A6] [B1 B2 B3 [l2 B4] B5 B6]. constructor; try lia; try congruence.
  - intros ref ins H. destruct (A1 ref ins H) as (i2 & H2 & Ho2 & Ht2 & He2).
    destruct (B1 ref i2 H2) as (i3 & H3 & Ho3 & Ht3 & He3).
    exists i3. split_and!; try congruence. intros Hn. rewrite He3, He2 by congruence. done.
  - exists (l1 ++ l2). by rewrite app_assoc, <- A4.
Qed.

Lemma room_extends J J' : extends J J' -> room J' -> room J.
Proof.
  intros [_ Hnk _ [l Hk] _ _] [H1 H2]. rewrite Hk, length_app in H2. split; lia.
Qed.

Lemma opcls_ext J J' ref : extends J J' -> is_Some (ir J !! ref) -> opcls J' ref = opcls J ref.
Proof.
  intros X [ins H]. destruct (ex_ir J J' X ref ins H) as (i & Hi & Ho & Ht & _).
  unfold opcls, ins_cls. by rewrite H, Hi, Ho, Ht.
Qed.

Lemma rescls_ext J J' ins :
  extends J J' -> is_Some (ir J !! op1 ins) ->
  (unary (ins_o ins) = false -> is_Some (ir J !! op2 ins)) -> rescls J' ins = rescls J ins.
Proof.
  intros X H1 H2. unfold rescls, unary in *. rewrite (opcls_ext J J') by done.
  destruct (kind (ins_o ins)); try done; by rewrite (opcls_ext J J' (op2 ins)) by auto.
Qed.

Lemma is_some_ext J J' ref : extends J J' -> is_Some (ir J !! ref) -> is_Some (ir J' !! ref).
Proof. intros X [ins H]. destruct (ex_ir J J' X ref ins H) as (i & Hi & _). eauto. Qed.

Lemma rescls_none J ins : iop (ins_o ins) = false -> rescls J ins = None.
Proof. unfold iop, rescls. by destruct (kind (ins_o ins)). Qed.

Lemma kop_iop o : is_kop o = true -> iop o = false.
Proof. by destruct o. Qed.

Lemma ir_k64_ext J J' ins :
  extends J J' -> kins_ok J ins -> ins_o ins = IR_KNUM \/ ins_o ins = IR_KINT64 ->
  ir_k64 J' ins = ir_k64 J ins.
Proof.
  intros [_ _ _ [l Hl] _ _] K Ho. unfold ir_k64, k64_at.
  assert (V : k64_valid J (op12 ins) \/ op12 ins = LJ_KSIMD_NEG \/ op12 ins = LJ_KSIMD_ABS).
  { unfold kins_ok in K. destruct Ho as [Ho|Ho]; rewrite Ho in K; tauto. }
  destruct V as [[V1 V2]|[-> | ->]]; [|done..].
  rewrite Hl, lookup_app_l by lia. done.
Qed.

Lemma eval_ext J J' rho ins :
  extends J J' -> kins_ok J ins -> (iop (ins_o ins) = true -> ins_ok J ins) ->
  eval J' rho ins = eval J rho ins.
Proof.
  intros X K Hok. unfold eval. destruct (iop (ins_o ins)) eqn:E.
  - destruct (Hok eq_refl) as [H1 H2 _ _ _ _]. rewrite (rescls_ext J J' ins) by done.
    destruct (rescls J ins); [done|]. by destruct (ins_o ins).
  - rewrite !rescls_none by done. destruct (ins_o ins) eqn:Eo; try done;
      f_equal; apply ir_k64_ext; auto.
Qed.

(** A bound that is a constant remains one. *)
Definition op_at (J : jit_State) (ref : Z) (o : IROp) : bool :=
  match ir J !! ref with Some i => op_eqb (ins_o i) o | None => false end.

Lemma op_at_some J ref o : op_at J ref o = true -> exists i, ir J !! ref = Some i /\ ins_o i = o.
Proof. unfold op_at. destruct (ir J !! ref) as [i|]; [|done]. intros H%op_eqb_eq. by exists i. Qed.

Lemma op_at_ext J J' ref o : extends J J' -> op_at J ref o = true -> op_at J' ref o = true.
Proof.
  intros X (i & Hi & <-)%op_at_some. destruct (ex_ir J J' X ref i Hi) as (i' & Hi' & Ho & _). unfold op_at. rewrite Hi', Ho. by apply op_eqb_eq.
Qed.

(** The analysis slot names an instruction, and the bound of an integer index
    is missing or a constant. *)
Definition scev_ok (J : jit_State) : Prop :=
  is_Some (ir J !! scev_idx (scev J)) /\
  (opcls J (scev_idx (scev J)) = C32 -> scev_lo J = 0 \/ op_at J (scev_lo J) IR_KINT = true).

Lemma scev_lo_ext J J' : extends J J' -> scev_lo J' = scev_lo J.
Proof. intros X. unfold scev_lo. by rewrite (ex_scev J J' X). Qed.

Lemma scev_ok_ext J J' : extends J J' -> scev_ok J -> scev_ok J'.
Proof.
  intros X [S L]. unfold scev_ok. rewrite (scev_lo_ext J J' X), (ex_scev J J' X), (opcls_ext J J') by done. split; [by eapply is_some_ext|].
  intros Hc. destruct (L Hc) as [E|E]; [by left|right]. by eapply op_at_ext.
Qed.

Lemma scev_run_ext J J' rho : extends J J' -> scev_run J' rho -> scev_run J rho.
Proof.
  intros X R Hc lo Hlo Ho. assert (S : is_Some (ir J !! scev_idx (scev J))) by (unfold opcls in Hc; destruct (ir J !! _); [eauto|done]).
  assert (U : forall r i, ir J !! r = Some i -> ins_o i <> IR_ABC -> ir J' !! r = Some i).
  { intros r i Hi Hn. destruct (ex_ir J J' X r i Hi) as (i' & Hi' & _ & _ & E). by rewrite Hi', E. }
  unfold scev_run in R. rewrite (scev_lo_ext J J' X), (ex_scev J J' X), (opcls_ext J J') in R by done.
  destruct (R Hc lo) as [R1 R2]; [apply U; [done|by rewrite Ho]|done|]. split; [done|]. intros ref ins k Hi Hio H1 Hki Hk.
  eapply R2; [apply U; [exact Hi|by rewrite Hio]|done|done|apply U; [done|by intros E; rewrite E in Hk]|done].
Qed.

Lemma ins_ok_ext J J' ins : extends J J' -> ins_ok J ins -> ins_ok J' ins.
Proof.
  intros X [H1 H2 H3 H4 H5 H6].
  constructor; rewrite ?(rescls_ext J J') by done; try done.
  - by eapply is_some_ext.
  - intros E. eapply is_some_ext; [done|auto].
  - intros E. destruct (H5 E) as [Hr Hk]. split; [done|]. intros k Hisk Hi.
    destruct (H2 ltac:(by rewrite E)) as [k0 Hi0]. destruct (Hk k0 Hisk Hi0) as [Ho Hle].
    destruct (ex_ir J J' X _ _ Hi0) as (k1 & Hi1 & Ho1 & _ & He). rewrite Hi in Hi1. injection Hi1 as <-.
    rewrite He; [done|]. congruence.
  - rewrite (opcls_ext J J') by done. done.
Qed.

(** ** Adding constants *)

Record kgrow (J J' : jit_State) : Prop := {
  kg_wf : ir_wf J';
  kg_grows : grows J J';
  kg_fold : same_fold J J';
  kg_nins : nins J' = nins J;
}.

Lemma kgrow_old J J' ref ins :
  ir_wf J -> kgrow J J' -> ir J' !! ref = Some ins -> iop (ins_o ins) = true -> ir J !! ref = Some ins.
Proof.
  intros W [W' G _ Hn] H Hio.
  assert (nk J' <= ref < nins J') by (apply (wf_dom J' W'); eauto).
  assert (REF_BIAS <= ref).
  { destruct (Z.lt_ge_cases ref REF_BIAS) as [Hlt|]; [|done].
    apply (wf_k J' W' ref ins H), kop_iop in Hlt. congruence. }
  assert (Hs : is_Some (ir J !! ref)) by (apply (wf_dom J W); pose proof (wf_nk J W); lia).
  destruct Hs as [i Hi]. rewrite Hi. rewrite <- H. symmetry. by eapply lookup_weaken, G.
Qed.

(** A run of a larger IR is a run of the smaller one. *)
Lemma grows_back J J' rho : sem_wf J -> grows J J' -> consistent J' rho -> consistent J rho.
Proof.
  intros [W S] G C. pose proof (grows_extends _ _ G) as X. split; [|by apply (scev_run_ext J J' rho X), C].
  intros ref ins H. rewrite <- (eval_ext J J' rho ins X).
  - apply C. by eapply lookup_weaken, G.
  - by eapply wf_kins.
  - intros. by eapply S.
Qed.

Lemma kgrow_sem J J' : sem_wf J -> kgrow J J' ->
  sem_wf J' /\ extends J J' /\ forall rho, consistent J' rho -> consistent J rho.
Proof.
  intros [W S] K. pose proof (grows_extends _ _ (kg_grows _ _ K)) as X. split_and!; [|done|].
  - split; [apply K|]. intros ref ins H Hio. apply (ins_ok_ext J J' _ X), (S ref); [|done].
    by eapply kgrow_old.
  - intros rho. by apply grows_back, K.
Qed.

(** A constant [k] of class [c] at [r]. *)
Record is_const (J : jit_State) (r : Z) (c : cls) (k : Z) : Prop := {
  ic_some : is_Some (ir J !! r);
  ic_cls : opcls J r = c;
  ic_val : forall rho, consistent J rho -> rho r = k;
}.

Lemma is_const_ext J J' r c k :
  extends J J' -> (forall rho, consistent J' rho -> consistent J rho) -> is_const J r c k -> is_const J' r c k.
Proof.
  intros X B [H1 H2 H3]. constructor.
  - by eapply is_some_ext.
  - by rewrite (opcls_ext J J').
  - auto.
Qed.

(** The state after interning the constant [k]. *)
Record kres (J J' : jit_State) (r : Z) (c : cls) (k : Z) : Prop := {
  kr_sem : sem_wf J';
  kr_ext : extends J J';
  kr_back : forall rho, consistent J' rho -> consistent J rho;
  kr_fold : same_fold J J';
  kr_const : is_const J' r c k;
  kr_room : room J';
}.

Lemma intern_nins J o t a b same r J' :
  ir_intern J o t a b same = (r, J') -> nins J' = nins J.
Proof. unfold ir_intern. by destruct (negb _); intros [= <- <-]. Qed.

Lemma kint_kres J k r J' :
  sem_wf J -> is_i32 k -> lj_ir_kint J k = (r, J') -> room J' -> kres J J' r C32 k.
Proof.
  intros S Hk E R. destruct (lj_ir_kint_spec J k r J' (sw_wf J S) Hk E R) as (W' & G & F & ins & Hi & Ho & Hv).
  destruct (kgrow_sem J J' S) as (S' & X & B); [constructor; try done; by eapply intern_nins|].
  pose proof (wf_kins J' W' _ _ Hi) as K. unfold kins_ok in K. rewrite Ho in K. destruct K as (Ht & _).
  constructor; try done. constructor; [eauto| |].
  - unfold opcls, ins_cls. by rewrite Hi, Ho, Ht.
  - intros rho C. destruct (C r ins Hi) as [_ P]. unfold eval in P.
    rewrite rescls_none, Ho in P by by rewrite Ho. simpl in P. congruence.
Qed.

Lemma kint64_kres J k r J' :
  sem_wf J -> is_u64 k -> lj_ir_kint64 J k = (r, J') -> room J' -> kres J J' r C64 k.
Proof.
  intros S Hk E R. destruct (lj_ir_kint64_spec J k r J' (sw_wf J S) Hk E R) as (W' & G & F & ins & Hi & Ho & Hv).
  assert (Hn : nins J' = nins J).
  { unfold lj_ir_kint64, lj_ir_k64_find in E. destruct (k64_index _ _ _); by eapply intern_nins in E. }
  destruct (kgrow_sem J J' S) as (S' & X & B); [by constructor|].
  pose proof (wf_kins J' W' _ _ Hi) as K. unfold kins_ok in K. rewrite Ho in K. destruct K as (Ht & _).
  constructor; try done. constructor; [eauto| |].
  - unfold opcls, ins_cls. by rewrite Hi, Ho, Ht.
  - intros rho C. destruct (C r ins Hi) as [_ P]. unfold eval in P.
    rewrite rescls_none, Ho in P by by rewrite Ho. simpl in P. congruence.
Qed.

(** ** The relation *)

Definition is_val (o : IROp) : bool :=
  match o with IR_ABC => false | _ => match kind o with Kcmp | Knone => false | _ => true end end.

(** Two cases are not covered: overflow checks of two constants are folded with
    floating-point arithmetic, and signed comparisons of two 64-bit constants
    are folded wrongly. *)
Definition hard (J : jit_State) (f : IRIns) : bool :=
  match ins_o f with
  | IR_ADDOV | IR_SUBOV | IR_MULOV => op_at J (op1 f) IR_KINT && op_at J (op2 f) IR_KINT
  | IR_LT | IR_GE | IR_LE | IR_GT => op_at J (op1 f) IR_KINT64 && op_at J (op2 f) IR_KINT64
  | _ => false
  end.

(** Instructions that the rules for 32-bit values and the 64-bit bit operations,
    negations and conversions lead to. *)
Definition safe64 (f : IRIns) : bool :=
  match ins_o f with
  | IR_BAND | IR_BOR | IR_BXOR | IR_BNOT | IR_BSWAP | IR_BSHR | IR_BSAR | IR_BROL | IR_BROR
  | IR_NEG | IR_CONV => true
  | _ => bool_decide (cls_of (ins_t f) = C32)
  end.

(** [f] may replace [g]. *)
Definition retry_ok (J1 : jit_State) (f : IRIns) (J : jit_State) (g : IRIns) : Prop :=
  is_val (ins_o f) = is_val (ins_o g) /\ (hard J g = false -> hard J1 f = false) /\
  (is_val (ins_o g) = true -> safe64 g = true -> safe64 f = true).

(** [f] is an integer instruction of class [c]. *)
Record fins_ok (J : jit_State) (f : IRIns) (c : cls) : Prop := {
  fo_res : rescls J f = Some c;
  fo_ok : ins_ok J f;
  fo_abc : ins_o f = IR_ABC -> irt_isint (ins_t f) = true;
}.

Record pre (J : jit_State) (c : cls) : Prop := {
  pr_sem : sem_wf J;
  pr_fins : fins_ok J (fins J) c;
  pr_left : ir J !! op1 (fins J) = Some (fleft J);
  pr_right : forall i, ir J !! op2 (fins J) = Some i -> fright J = i;
  pr_scev : scev_ok J;
}.

Definition result (J : jit_State) (c : cls) (x : FR) (J' : jit_State) : Prop :=
  match x with
  | NEXTFOLD => J' = J
  | RETRYFOLD =>
      fins_ok J' (fins J') c /\ retry_ok J' (fins J') J (fins J) /\
      (is_val (ins_o (fins J)) = false -> same_ir J J') /\
      forall rho, consistent J' rho -> eval J' rho (fins J') = eval J rho (fins J)
  | KINTFOLD =>
      c = C32 /\ is_val (ins_o (fins J)) = true /\ is_i32 (ins_i (fins J')) /\
      forall rho ref, consistent J' rho -> rho ref = ins_i (fins J') -> passes rho (eval J rho (fins J)) ref
  | FAILFOLD => is_val (ins_o (fins J)) = false /\ same_ir J J' /\
      forall rho, consistent J' rho -> eval J rho (fins J) = Exit
  | DROPFOLD => is_val (ins_o (fins J)) = false /\
      forall rho, consistent J' rho -> eval J rho (fins J) = Pass
  | FREF ref =>
      is_Some (ir J' !! ref) /\ (is_val (ins_o (fins J)) = true -> opcls J' ref = c) /\
      forall rho, consistent J' rho -> passes rho (eval J rho (fins J)) ref
  end.

(** The outcome [x], [J'] of a rule on [J] is right. *)
Record post (J : jit_State) (c : cls) (x : FR) (J' : jit_State) : Prop := {
  po_sem : sem_wf J';
  po_ext : extends J J';
  po_back : forall rho, consistent J' rho -> consistent J rho;
  po_res : result J c x J';
}.


(** *** Whole runs of the fold engine *)

(** What the engine starts from: an instruction that does not compute 64-bit
    arithmetic, whose case is covered, with a known bound of the loop index. *)
Record pre0 (J : jit_State) (c : cls) : Prop := {
  p0_sem : sem_wf J;
  p0_fins : fins_ok J (fins J) c;
  p0_scev : scev_ok J;
  p0_hard : hard J (fins J) = false;
  p0_cls : is_val (ins_o (fins J)) = true -> safe64 (fins J) = true;
}.

(** [ref] is right as the result. *)
Record fpost (J : jit_State) (c : cls) (ref : Z) (J' : jit_State) : Prop := {
  fp_sem : sem_wf J';
  fp_ext : extends J J';
  fp_back : forall rho, consistent J' rho -> consistent J rho;
  fp_cls : is_val (ins_o (fins J)) = true -> opcls J' ref = c;
  fp_val : forall rho, consistent J' rho -> passes rho (eval J rho (fins J)) ref;
}.

(** The engine, as rules that emit instructions use it. *)
Definition rec_ok (rec : jit_State -> res fold_err (Z * jit_State)) : Prop := forall J c,
  pre0 J c ->
  (forall ref J', rec J = Ok (ref, J') -> room J' -> fpost J c ref J') /\
  (is_val (ins_o (fins J)) = false -> room J -> rec J = Err LJ_TRERR_GFAIL ->
     forall rho, consistent J rho -> eval J rho (fins J) = Exit).

(** ** Classes of operands *)

Lemma opcls_some J ref c : opcls J ref = c -> c <> CX -> is_Some (ir J !! ref).
Proof. unfold opcls. destruct (ir J !! ref); [eauto|congruence]. Qed.

Lemma both_some c1 c2 c : both c1 c2 = Some c -> c1 = c /\ c2 = c /\ int_cls c = true.
Proof. destruct c1, c2; intros [=<-]; done. Qed.

Lemma conv_src_cls lit : conv_ok lit = true -> int_cls (cls_of (conv_src lit)) = true.
Proof.
  unfold conv_ok. intros H. assert (E : irt_type (conv_src lit) = conv_src lit).
  { unfold irt_type, conv_src. change IRT_TYPE with IRCONV_SRCMASK. by rewrite <- Z.land_assoc, Z.land_diag. }
  repeat match type of H with
  | (_ && _ = true) => apply andb_true_iff in H as [H _]
  | (_ || _ = true) => apply orb_true_iff in H as [H|H]
  end; apply Z.eqb_eq in H; rewrite H; done.
Qed.

(** What the typing of [ins] says about its operands. *)
Lemma rescls_inv J ins c : rescls J ins = Some c ->
  match kind (ins_o ins) with
  | Kbin => opcls J (op1 ins) = c /\ opcls J (op2 ins) = c /\ int_cls c = true
  | Kun => opcls J (op1 ins) = c /\ int_cls c = true
  | Kshift => opcls J (op1 ins) = c /\ opcls J (op2 ins) = C32 /\ int_cls c = true
  | K32 => opcls J (op1 ins) = C32 /\ opcls J (op2 ins) = C32 /\ c = C32
  | K64 => opcls J (op1 ins) = C64 /\ opcls J (op2 ins) = C64 /\ c = C64
  | Kcmp => opcls J (op1 ins) = c /\ opcls J (op2 ins) = c /\ c <> CX
  | Kconv => conv_ok (op2 ins) = true /\ opcls J (op1 ins) = cls_of (conv_src (op2 ins)) /\
      int_cls (opcls J (op1 ins)) = true /\ c = cls_of (conv_dst (op2 ins))
  | Knone => False
  end.
Proof.
  unfold rescls. destruct (kind (ins_o ins)); try done.
  - apply both_some.
  - by destruct (opcls J (op1 ins)); intros [=<-].
  - by destruct (opcls J (op1 ins)), (opcls J (op2 ins)); intros [=<-].
  - by destruct (opcls J (op1 ins)), (opcls J (op2 ins)); intros [=<-].
  - by destruct (opcls J (op1 ins)), (opcls J (op2 ins)); intros [=<-].
  - by destruct (opcls J (op1 ins)), (opcls J (op2 ins)); intros [=<-].
  - destruct (conv_ok (op2 ins)) eqn:Ec; [|done]. simpl. case_bool_decide as Eb; [|done].
    intros [=<-]. split_and!; try done. rewrite Eb. by apply conv_src_cls.
Qed.

Lemma int_cls_ncx c : int_cls c = true -> c <> CX.
Proof. by destruct c. Qed.

Lemma rescls_refs J ins c : rescls J ins = Some c ->
  is_Some (ir J !! op1 ins) /\ (unary (ins_o ins) = false -> is_Some (ir J !! op2 ins)).
Proof.
  intros H%rescls_inv. unfold unary.
  assert (X : forall r d, opcls J r = d -> int_cls d = true -> is_Some (ir J !! r)).
  { intros r d E Hd. eapply opcls_some; [done|]. by apply int_cls_ncx. }
  destruct (kind (ins_o ins)); intuition (subst; eauto; try congruence);
    try (eapply opcls_some; [reflexivity|congruence]).
Qed.

Lemma fins_ok_intro J f c :
  rescls J f = Some c -> cls_of (ins_t f) = c -> ins_o f <> IR_ABC ->
  (ins_o f = IR_CONV -> op2 f < 0x4000) -> fins_ok J f c.
Proof.
  intros H Ht Hn Hl. destruct (rescls_refs J f c H) as [H1 H2].
  constructor; [done| |done]. constructor; try done; try (intros; congruence).
  intros E. pose proof (rescls_inv J f c H) as F. rewrite E in F. destruct F as (F1 & F2 & F3 & F4).
  split_and!; [congruence|done|auto].
Qed.

Lemma pre_cls J c : pre J c -> ins_o (fins J) <> IR_ABC -> cls_of (ins_t (fins J)) = c.
Proof. intros [_ [H1 H2 _] _ _ _] Hn. by apply (io_cls _ _ H2). Qed.

(** ** Values of operands *)

Lemma opval_in J rho ref c :
  consistent J rho -> opcls J ref = c -> int_cls c = true -> in_cls c (rho ref).
Proof.
  intros C E Hc. destruct (opcls_some J ref c E ltac:(by destruct c)) as [ins Hi].
  destruct (C ref ins Hi) as [Ht _]. unfold opcls in E. rewrite Hi in E. unfold in_type in Ht.
  assert (E' : cls_of (ins_t ins) = c) by (unfold ins_cls in E; destruct (ins_o ins); by subst).
  rewrite E' in Ht. destruct c; simpl; try done. destruct (irt_isu8 _); [widths; lia|]. destruct (irt_isu16 _); [widths; lia|done].
Qed.

Lemma ref_const J ref ins : sem_wf J -> ir J !! ref = Some ins -> is_kop (ins_o ins) = true ->
  forall rho, consistent J rho -> passes rho (eval J rho ins) ref.
Proof. intros S H Hk rho C. by apply C. Qed.

Lemma ref_kint J ref ins : sem_wf J -> ir J !! ref = Some ins -> ins_o ins = IR_KINT ->
  opcls J ref = C32 /\ is_i32 (ins_i ins) /\
  forall rho, consistent J rho -> rho ref = ins_i ins.
Proof.
  intros S H Ho. pose proof (wf_kins J (sw_wf J S) _ _ H) as K. unfold kins_ok in K. rewrite Ho in K.
  split_and!.
  - unfold opcls, ins_cls. rewrite H, Ho. by destruct K as [-> _].
  - apply i32_range.
  - intros rho C. destruct (C ref ins H) as [_ P]. unfold eval in P.
    rewrite rescls_none, Ho in P by by rewrite Ho. done.
Qed.

Lemma ir_k64_range J ref ins : sem_wf J -> ir J !! ref = Some ins ->
  ins_o ins = IR_KINT64 \/ ins_o ins = IR_KNUM -> is_u64 (ir_k64 J ins).
Proof.
  intros S H Ho. pose proof (wf_kins J (sw_wf J S) _ _ H) as K. unfold kins_ok in K.
  destruct (wf_k64 J (sw_wf J S)) as [_ F].
  assert (V : k64_valid J (op12 ins) \/ op12 ins = LJ_KSIMD_NEG \/ op12 ins = LJ_KSIMD_ABS).
  { destruct Ho as [Ho|Ho]; rewrite Ho in K; tauto. }
  unfold ir_k64, k64_at. destruct V as [[V1 V2]|[-> | ->]]; [|done..].
  destruct (_ =? LJ_KSIMD_ABS); [done|]. destruct (_ =? LJ_KSIMD_NEG); [done|].
  destruct (k64 J !! Z.to_nat (op12 ins)) as [u|] eqn:E; [|apply lookup_ge_None in E; lia].
  simpl. by apply (Forall_lookup_1 _ _ _ _ F E).
Qed.

Lemma ref_kint64 J ref ins : sem_wf J -> ir J !! ref = Some ins -> ins_o ins = IR_KINT64 ->
  opcls J ref = C64 /\ is_u64 (ir_k64 J ins) /\ forall rho, consistent J rho -> rho ref = ir_k64 J ins.
Proof.
  intros S H Ho. pose proof (wf_kins J (sw_wf J S) _ _ H) as K. unfold kins_ok in K. rewrite Ho in K.
  split_and!.
  - unfold opcls, ins_cls. rewrite H, Ho. by destruct K as [-> _].
  - eapply ir_k64_range; eauto.
  - intros rho C. destruct (C ref ins H) as [_ P]. unfold eval in P.
    rewrite rescls_none, Ho in P by by rewrite Ho. done.
Qed.

(** An integer instruction that is an operand. *)
Lemma ref_op J ref ins c : sem_wf J -> ir J !! ref = Some ins -> iop (ins_o ins) = true ->
  ins_o ins <> IR_CONV -> kind (ins_o ins) <> Kcmp -> opcls J ref = c -> int_cls c = true ->
  rescls J ins = Some c /\ cls_of (ins_t ins) = c /\ ins_ok J ins /\
  forall rho, consistent J rho -> passes rho (eval_op c ins (rho (op1 ins)) (rho (op2 ins))) ref.
Proof.
  intros S H Hio Hn Hk Hc Hi. pose proof (sw_ins J S _ _ H Hio) as K.
  unfold opcls, ins_cls in Hc. rewrite H in Hc.
  replace (match ins_o ins with IR_KPRI | IR_KNULL | IR_KSLOT => CX | _ => cls_of (ins_t ins) end) with (cls_of (ins_t ins)) in Hc
    by (destruct (ins_o ins); done).
  assert (Hr : rescls J ins = Some c) by (rewrite <- Hc in *; by apply (io_res _ _ K)).
  split_and!; try done. intros rho C. destruct (C ref ins H) as [_ P]. unfold eval in P. by rewrite Hr in P.
Qed.

Lemma eval_fins J c rho : pre J c ->
  eval J rho (fins J) = eval_op c (fins J) (rho (op1 (fins J))) (rho (op2 (fins J))).
Proof. intros P. unfold eval. by rewrite (fo_res _ _ _ (pr_fins _ _ P)). Qed.

Lemma eval_ok J f c rho : fins_ok J f c -> eval J rho f = eval_op c f (rho (op1 f)) (rho (op2 f)).
Proof. intros P. unfold eval. by rewrite (fo_res _ _ _ P). Qed.

(** ** Ways to return *)

Lemma same_ir_eval J J' rho ins : same_ir J J' -> eval J' rho ins = eval J rho ins.
Proof.
  intros (E1 & _ & _ & _ & E5 & _). unfold eval, rescls, opcls, ir_k64, k64_at. by rewrite E1, E5.
Qed.

Lemma same_ir_rescls J J' ins : same_ir J J' -> rescls J' ins = rescls J ins.
Proof. intros (E1 & _). unfold rescls, opcls. by rewrite E1. Qed.

Lemma same_ir_sym J J' : same_ir J J' -> same_ir J' J.
Proof. intros (?&?&?&?&?&?&?). by split_and!. Qed.

Lemma same_ir_consistent J J' rho : same_ir J J' -> consistent J rho -> consistent J' rho.
Proof.
  intros E C. split; [|by apply (scev_run_ext J' J rho (grows_extends _ _ (same_ir_grows _ _ (same_ir_sym _ _ E)))), C].
  intros ref ins H. rewrite (same_ir_eval J J') by done. apply C. by rewrite <- (proj1 E).
Qed.

Lemma same_ir_sem J J' : same_ir J J' -> sem_wf J ->
  sem_wf J' /\ extends J J' /\ forall rho, consistent J' rho -> consistent J rho.
Proof.
  intros E [W S]. pose proof (grows_extends _ _ (same_ir_grows _ _ E)) as X. split_and!; [split|done|].
  - by eapply same_ir_wf.
  - intros ref ins H Hio. rewrite (proj1 E) in H. apply (ins_ok_ext J J' _ X). by eapply S.
  - intros rho. apply same_ir_consistent. by apply same_ir_sym.
Qed.

Lemma fins_ok_same J J' f c : same_ir J J' -> fins_ok J f c -> fins_ok J' f c.
Proof.
  intros E [H1 H2 H3]. pose proof (grows_extends _ _ (same_ir_grows _ _ E)) as X.
  constructor; [by rewrite (same_ir_rescls J J')|by eapply ins_ok_ext|done].
Qed.

Lemma post_next J c : pre J c -> post J c NEXTFOLD J.
Proof. intros P. constructor; try done; [apply P|apply extends_refl]. Qed.

Lemma post_fref J c r : pre J c -> is_Some (ir J !! r) ->
  (is_val (ins_o (fins J)) = true -> opcls J r = c) ->
  (forall rho, consistent J rho ->
    passes rho (eval_op c (fins J) (rho (op1 (fins J))) (rho (op2 (fins J)))) r) ->
  post J c (FREF r) J.
Proof.
  intros P H1 H2 H3. constructor; try done; [apply P|apply extends_refl|].
  split_and!; try done. intros rho C. rewrite (eval_fins J c) by done. auto.
Qed.

Lemma post_fref_val J c r : pre J c -> opcls J r = c -> int_cls c = true ->
  (forall rho, consistent J rho ->
    passes rho (eval_op c (fins J) (rho (op1 (fins J))) (rho (op2 (fins J)))) r) ->
  post J c (FREF r) J.
Proof.
  intros P H1 H2 H3. apply post_fref; try done. eapply opcls_some; [done|by apply int_cls_ncx].
Qed.

Lemma ins_i_set_op12 f k : is_i32 k -> ins_i (set_op12 f k) = k.
Proof. intros H. unfold set_op12. by apply ins_i_halves. Qed.

Lemma post_kint J c k : pre J c -> c = C32 -> is_val (ins_o (fins J)) = true -> is_i32 k ->
  (forall rho ref, consistent J rho -> rho ref = k ->
    passes rho (eval_op c (fins J) (rho (op1 (fins J))) (rho (op2 (fins J)))) ref) ->
  post J c KINTFOLD (set_fins J (set_op12 (fins J) k)).
Proof.
  intros P Hc Hv Hk H. pose proof (set_fins_same J (set_op12 (fins J) k)) as E.
  destruct (same_ir_sem _ _ E (pr_sem _ _ P)) as (S' & X & B). constructor; try done.
  cbn [result fins set_fins]. rewrite ins_i_set_op12 by done. split_and!; try done.
  intros rho ref C Hr. rewrite (eval_fins J c) by done. apply H; [|done]. auto.
Qed.

Lemma post_const J c r k J' : pre J c -> kres J J' r c k -> is_val (ins_o (fins J)) = true ->
  (forall rho ref, consistent J rho -> rho ref = k ->
    passes rho (eval_op c (fins J) (rho (op1 (fins J))) (rho (op2 (fins J)))) ref) ->
  post J c (FREF r) J'.
Proof.
  intros P [S' X B F K _] Hv H. constructor; try done. cbn [result]. split_and!.
  - apply K.
  - intros _. apply K.
  - intros rho C. rewrite (eval_fins J c) by done. apply H; [auto|]. by apply K.
Qed.

Lemma post_cond J c b : pre J c -> is_val (ins_o (fins J)) = false ->
  (forall rho, consistent J rho ->
    eval_op c (fins J) (rho (op1 (fins J))) (rho (op2 (fins J))) = guard b) ->
  post J c (CONDFOLD b) J.
Proof.
  intros P Hv H. constructor; try done; [apply P|apply extends_refl|].
  destruct b; cbn [result CONDFOLD]; split_and!; try done; intros rho C; rewrite (eval_fins J c) by done;
    by rewrite H.
Qed.

(** [RETRYFOLD] with the instruction [f], in an IR to which a constant may have
    been added. *)
Lemma post_retry_ext J c J1 f : pre J c -> sem_wf J1 -> extends J J1 ->
  (forall rho, consistent J1 rho -> consistent J rho) ->
  fins_ok J1 f c -> retry_ok J1 f J (fins J) ->
  (is_val (ins_o (fins J)) = false -> same_ir J J1) ->
  (forall rho, consistent J1 rho ->
    eval_op c f (rho (op1 f)) (rho (op2 f)) =
    eval_op c (fins J) (rho (op1 (fins J))) (rho (op2 (fins J)))) ->
  post J c RETRYFOLD (set_fins J1 f).
Proof.
  intros P S1 X1 B1 F Hv Hs H. pose proof (set_fins_same J1 f) as E.
  destruct (same_ir_sem _ _ E S1) as (S' & X & B).
  constructor; [done|by eapply extends_trans|auto|]. cbn [result fins set_fins].
  pose proof (fins_ok_same _ _ _ _ E F) as F'.
  split_and!; [done|done|done|]. intros rho C.
  rewrite (eval_ok _ f c) by done. rewrite (eval_fins J c) by done. auto.
Qed.

Lemma post_retry J c f : pre J c -> fins_ok J f c -> retry_ok J f J (fins J) ->
  (forall rho, consistent J rho ->
    eval_op c f (rho (op1 f)) (rho (op2 f)) =
    eval_op c (fins J) (rho (op1 (fins J))) (rho (op2 (fins J)))) ->
  post J c RETRYFOLD (set_fins J f).
Proof.
  intros P F Hv H. apply post_retry_ext; try done; [apply P|apply extends_refl].
Qed.

(** The rules set [fins] before they intern a constant. *)
Lemma kres_set_fins J f J' r c k : kres (set_fins J f) J' r c k -> sem_wf J ->
  kres J (set_fins J' (fins J)) r c k /\ fins J' = f.
Proof.
  intros [S' X B F K R] S. split; [|apply F].
  pose proof (set_fins_same J f) as E0. pose proof (set_fins_same J' (fins J)) as E1.
  destruct (same_ir_sem _ _ E0 S) as (_ & X0 & B0).
  destruct (same_ir_sem _ _ E1 S') as (S1 & X1 & B1).
  constructor; try done.
  - apply (extends_trans _ _ _ X0), (extends_trans _ _ _ X), X1.
  - intros rho C. by apply B0, B, B1.
  - destruct F as (F1 & F2 & F3). unfold same_fold. simpl in *. by split_and!.
  - apply (is_const_ext J'); [exact X1|exact B1|exact K].
Qed.

(** ** Automation

    [ev] evaluates operations of known instructions, [fr] unfolds the body of a
    rule, [next] finishes a branch that passes the instruction on. *)

Ltac ev := unfold eval_op; cbn [fins set_fins ins_o ins_t set_o set_op1 set_op2 set_ot op1 op2 swap_ops].
Ltac fr H := unfold PHIBARRIER, LEFTFOLD, RIGHTFOLD, fins_o, fins_op1, fins_op2, fins_ops in H;
  unfold ret in H;
  cbn [fins set_fins] in H.
Ltac next := match goal with
  | E : Ok _ = Ok _ |- _ => injection E as <- <-; by apply post_next
  end.

(** [rok]: the new instruction may replace the one given. *)
Ltac rok := unfold retry_ok, hard, safe64;
  cbn [fins set_fins ins_o set_o set_op1 set_op2 set_ot swap_ops];
  repeat match goal with H : ins_o (fins _) = _ |- _ => rewrite H end;
  first [done | match goal with J : jit_State |- _ => by destruct (ins_o (fins J)) end].
