(* ===== verification/FoldConst.v ===== *)
(** * Soundness of constant folding

    The rules that evaluate integer instructions with constant operands, and
    the comparisons of numbers. *)

From S2P Require Import Prelude Machine Carith Num Ir IrInv Fold FoldSem FoldInv.

(** ** The folding helpers compute the operations *)

Definition intop (o : IROp) : bool :=
  match o with
  | IR_ADD | IR_SUB | IR_MUL | IR_MOD | IR_NEG | IR_BAND | IR_BOR | IR_BXOR
  | IR_BSHL | IR_BSHR | IR_BSAR | IR_BROL | IR_BROR | IR_MIN | IR_MAX => true
  | _ => false
  end.

Lemma land_31 n : n .& 31 = n mod 32.
Proof. exact (land_ones_mod n 5 ltac:(lia)). Qed.
Lemma land_63 n : n .& 63 = n mod 64.
Proof. exact (land_ones_mod n 6 ltac:(lia)). Qed.

Lemma shiftr_i32 a n : is_i32 a -> 0 <= n -> is_i32 (a >> n).
Proof.
  intros Ha Hn. rewrite Z.shiftr_div_pow2 by done. assert (1 <= 2 ^ n) by lia.
  widths. split; [apply Z.div_le_lower_bound|apply Z.div_lt_upper_bound]; nia.
Qed.

Lemma bitop_i32 (f : Z -> Z -> Z) (g : bool -> bool -> bool) a b :
  (forall x y n, 0 <= n -> Z.testbit (f x y) n = g (Z.testbit x n) (Z.testbit y n)) ->
  is_i32 a -> is_i32 b -> i32 (f a b) = f a b.
Proof.
  intros Hf Ha Hb. apply Z.bits_inj'. intros n Hn. rewrite Hf by done.
  destruct (Z.lt_ge_cases n 32).
  - rewrite i32_testbit by lia. by rewrite Hf.
  - assert (Hs : forall x, is_i32 x -> Z.testbit x n = Z.testbit x 31).
    { intros x Hx. rewrite (i32_sign_id x Hx). destruct (Z.ltb_spec x 0).
      - apply Z.testbit_true; [lia|]. replace (x / 2 ^ n) with (-1); [done|].
        apply Z.div_unique with (x + 2 ^ n); [|lia].
        assert (2 ^ 31 <= 2 ^ n) by (apply Z.pow_le_mono_r; lia). widths. lia.
      - apply (testbit_high x 31); widths; lia. }
    rewrite (Hs (i32 _)), (Hs a), (Hs b) by auto with width.
    rewrite i32_testbit by lia. by apply Hf.
Qed.

Lemma land_i32 a b : is_i32 a -> is_i32 b -> i32 (a .& b) = a .& b.
Proof. apply (bitop_i32 Z.land andb). intros. apply Z.land_spec. Qed.
Lemma lor_i32 a b : is_i32 a -> is_i32 b -> i32 (a .| b) = a .| b.
Proof. apply (bitop_i32 Z.lor orb). intros. apply Z.lor_spec. Qed.
Lemma lxor_i32 a b : is_i32 a -> is_i32 b -> i32 (a .^ b) = a .^ b.
Proof. apply (bitop_i32 Z.lxor xorb). intros. apply Z.lxor_spec. Qed.

Lemma intop_eval ins a b :
  intop (ins_o ins) = true -> is_i32 a -> is_i32 b -> (ins_o ins = IR_MOD -> b <> 0) ->
  eval_op C32 ins a b = Val (kfold_intop a b (ins_o ins)).
Proof.
  intros Ho Ha Hb Hm. assert (Hn : 0 <= b mod 32) by wsolve.
  unfold eval_op. destruct (ins_o ins); try done; simpl; rewrite ?land_31; try done.
  - by rewrite land_i32.
  - by rewrite lor_i32.
  - by rewrite lxor_i32.
  - rewrite (i32_id a), i32_id by auto using shiftr_i32. done.
  - rewrite (proj2 (Z.eqb_neq b 0)) by auto. by rewrite lj_vm_modi_mod by auto.
  - f_equal. destruct (Z.ltb_spec a b); lia.
  - f_equal. destruct (Z.ltb_spec b a); lia.
Qed.

Lemma modi_zero_i32 a : is_i32 (lj_vm_modi a 0).
Proof. unfold lj_vm_modi. auto with width. Qed.

Lemma intop_range a b o : is_i32 a -> is_i32 b -> is_i32 (kfold_intop a b o).
Proof.
  intros Ha Hb. assert (Hn : 0 <= b mod 32) by wsolve.
  destruct o; simpl; rewrite ?land_31; auto with width; auto using shiftr_i32.
  - rewrite <- land_i32; auto with width.
  - rewrite <- lor_i32; auto with width.
  - rewrite <- lxor_i32; auto with width.
  - destruct (Z.eqb_spec b 0) as [->|Hb0]; [apply modi_zero_i32|].
    rewrite lj_vm_modi_mod by done.
    destruct (Z.lt_ge_cases 0 b); [pose proof (Z.mod_pos_bound a b)|pose proof (Z.mod_neg_bound a b)]; widths; lia.
  - by destruct (a <? b).
  - by destruct (b <? a).
Qed.

Definition intop64 (o : IROp) : bool :=
  match o with IR_ADD | IR_SUB | IR_MUL | IR_BAND | IR_BOR | IR_BXOR => true | _ => false end.

Lemma land_u64 a b : is_u64 a -> is_u64 b -> u64 (a .& b) = a .& b.
Proof. intros. by rewrite u64_land, !u64_id. Qed.
Lemma lor_u64 a b : is_u64 a -> is_u64 b -> u64 (a .| b) = a .| b.
Proof. intros. by rewrite u64_lor, !u64_id. Qed.
Lemma lxor_u64 a b : is_u64 a -> is_u64 b -> u64 (a .^ b) = a .^ b.
Proof. intros. by rewrite u64_lxor, !u64_id. Qed.

Lemma intop64_eval ins a b :
  intop64 (ins_o ins) = true -> is_u64 a -> is_u64 b ->
  eval_op C64 ins a b = Val (kfold_int64arith_ a b (ins_o ins)) /\ is_u64 (kfold_int64arith_ a b (ins_o ins)).
Proof.
  intros Ho Ha Hb. unfold eval_op. destruct (ins_o ins); try done; simpl.
  - rewrite land_u64 by done. split; [done|]. rewrite <- land_u64; auto with width.
  - rewrite lor_u64 by done. split; [done|]. rewrite <- lor_u64; auto with width.
  - rewrite lxor_u64 by done. split; [done|]. rewrite <- lxor_u64; auto with width.
  - auto with width.
  - auto with width.
  - auto with width.
Qed.

Lemma shift64_eval ins a b :
  kind (ins_o ins) = Kshift -> is_u64 a ->
  let k := lj_carith_shift64 a (b .& 63) (irop_num (ins_o ins) - irop_num IR_BSHL) in
  eval_op C64 ins a b = Val k /\ is_u64 k.
Proof.
  intros Ho Ha. cbv zeta. assert (Hn : 0 <= b mod 64 < 64) by (apply Z.mod_pos_bound; lia).
  assert (Hu : un C64 a = a) by by apply u64_id.
  assert (E : (b .& 63) .& 63 = b mod 64) by (rewrite <- land_63, <- Z.land_assoc; done).
  unfold eval_op. destruct (ins_o ins); try done; cbn -[u64 Z.modulo Z.shiftl Z.shiftr Z.land lj_rol lj_ror un];
    change (36 - 36) with 0; change (37 - 36) with 1; change (38 - 36) with 2; change (39 - 36) with 3;
    change (40 - 36) with 4; cbn [lj_carith_shift64];
    unfold lj_carith_shl64, lj_carith_shr64, lj_carith_sar64, lj_carith_rol64, lj_carith_ror64;
    rewrite E, ?Hu; cbn [sg].
  - auto with width.
  - assert (is_u64 (a >> (b mod 64))) by (apply (shiftr_range a 64); [done|lia]). by rewrite u64_id.
  - auto with width.
  - assert (is_u64 (lj_rol 64 a (b mod 64))) by by apply (rol_range 64 6). by rewrite u64_id.
  - assert (is_u64 (lj_ror 64 a (b mod 64))) by by apply (ror_range 64 6). by rewrite u64_id.
Qed.

(** ** Operands known to the rule *)

Definition left_is (J : jit_State) (o : IROp) : Prop := ins_o (fleft J) = o.
Definition right_is (J : jit_State) (o : IROp) : Prop :=
  ir J !! op2 (fins J) = Some (fright J) /\ ins_o (fright J) = o.

Section Rules.
Variables (J : jit_State) (c : cls) (x : FR) (J' : jit_State).
Hypothesis (P : pre J c).

Lemma left_kint : left_is J IR_KINT ->
  opcls J (op1 (fins J)) = C32 /\ is_i32 (ins_i (fleft J)) /\
  forall rho, consistent J rho -> rho (op1 (fins J)) = ins_i (fleft J).
Proof. intros H. apply ref_kint; [apply P|apply P|done]. Qed.

Lemma right_kint : right_is J IR_KINT ->
  opcls J (op2 (fins J)) = C32 /\ is_i32 (ins_i (fright J)) /\
  forall rho, consistent J rho -> rho (op2 (fins J)) = ins_i (fright J).
Proof. intros [H1 H2]. apply ref_kint; [apply P|done|done]. Qed.

Lemma left_kint64 : left_is J IR_KINT64 ->
  opcls J (op1 (fins J)) = C64 /\ is_u64 (ir_k64 J (fleft J)) /\
  forall rho, consistent J rho -> rho (op1 (fins J)) = ir_k64 J (fleft J).
Proof. intros H. apply ref_kint64; [apply P|apply P|done]. Qed.

Lemma right_kint64 : right_is J IR_KINT64 ->
  opcls J (op2 (fins J)) = C64 /\ is_u64 (ir_k64 J (fright J)) /\
  forall rho, consistent J rho -> rho (op2 (fins J)) = ir_k64 J (fright J).
Proof. intros [H1 H2]. apply ref_kint64; [apply P|done|done]. Qed.

Lemma fins_inv : match kind (ins_o (fins J)) with
  | Kbin => opcls J (op1 (fins J)) = c /\ opcls J (op2 (fins J)) = c /\ int_cls c = true
  | Kun => opcls J (op1 (fins J)) = c /\ int_cls c = true
  | Kshift => opcls J (op1 (fins J)) = c /\ opcls J (op2 (fins J)) = C32 /\ int_cls c = true
  | K32 => opcls J (op1 (fins J)) = C32 /\ opcls J (op2 (fins J)) = C32 /\ c = C32
  | K64 => opcls J (op1 (fins J)) = C64 /\ opcls J (op2 (fins J)) = C64 /\ c = C64
  | Kcmp => opcls J (op1 (fins J)) = c /\ opcls J (op2 (fins J)) = c /\ c <> CX
  | Kconv => conv_ok (op2 (fins J)) = true /\
      opcls J (op1 (fins J)) = cls_of (conv_src (op2 (fins J))) /\
      int_cls (opcls J (op1 (fins J))) = true /\ c = cls_of (conv_dst (op2 (fins J)))
  | Knone => False
  end.
Proof. apply rescls_inv. apply P. Qed.

(** The class of an instruction whose operands are 32-bit. *)
Lemma fins_c32 : opcls J (op1 (fins J)) = C32 ->
  (unary (ins_o (fins J)) = false -> opcls J (op2 (fins J)) = C32) ->
  ins_o (fins J) <> IR_CONV -> c = C32.
Proof.
  intros H1 H2 Hn. pose proof fins_inv as F. unfold unary in H2.
  destruct (ins_o (fins J)); try done; simpl in F, H2; intuition congruence.
Qed.

Lemma fins_c64 : opcls J (op1 (fins J)) = C64 -> ins_o (fins J) <> IR_CONV -> c = C64.
Proof.
  intros H1 Hn. pose proof fins_inv as F.
  destruct (ins_o (fins J)); try done; simpl in F; intuition congruence.
Qed.

Lemma passes_val rho out ref k : out = Val k -> rho ref = k -> passes rho out ref.
Proof. by intros -> H. Qed.

(** ** 32-bit constants *)

Lemma kfold_intarith_sound :
  intop (ins_o (fins J)) = true -> left_is J IR_KINT -> right_is J IR_KINT ->
  kfold_intarith J = Ok (x, J') -> post J c x J'.
Proof using P.
  intros Ho (H1 & R1 & V1)%left_kint (H2 & R2 & V2)%right_kint [= <- <-].
  assert (Hc : c = C32) by (apply fins_c32; auto; try (intros E; by rewrite E in Ho)).
  apply post_kint; try done; [by destruct (ins_o (fins J))|by apply intop_range|].
  intros rho ref C Hr. rewrite (V1 rho C), (V2 rho C), Hc.
  destruct (decide (ins_o (fins J) = IR_MOD /\ ins_i (fright J) = 0)) as [[E E0]|Hm].
  - unfold eval_op. by rewrite E, E0.
  - eapply passes_val; [apply intop_eval; auto|done].
Qed.

(** [NEG] ignores its right operand. *)
Lemma kfold_intneg_sound :
  ins_o (fins J) = IR_NEG -> left_is J IR_KINT -> kfold_intarith J = Ok (x, J') -> post J c x J'.
Proof using P.
  intros Ho (H1 & R1 & V1)%left_kint [= <- <-].
  assert (Hc : c = C32) by (apply fins_c32; [done|by rewrite Ho..]).
  apply post_kint; try done; [by rewrite Ho|rewrite Ho; simpl; auto with width|].
  intros rho ref C Hr. rewrite (V1 rho C), Hc. unfold eval_op. by rewrite Ho in *.
Qed.

Lemma kfold_bnot_sound :
  ins_o (fins J) = IR_BNOT -> left_is J IR_KINT -> kfold_bnot J = Ok (x, J') -> post J c x J'.
Proof using P.
  intros Ho (H1 & R1 & V1)%left_kint [= <- <-].
  assert (Hc : c = C32) by (apply fins_c32; rewrite ?Ho; done).
  assert (Hk : is_i32 (Z.lnot (ins_i (fleft J)))) by (unfold Z.lnot; widths; lia).
  apply post_kint; rewrite ?Ho; try done. intros rho ref C Hr. rewrite (V1 rho C), Hc.
  unfold eval_op. rewrite Ho. simpl. by rewrite i32_id.
Qed.

Lemma kfold_bswap_sound :
  ins_o (fins J) = IR_BSWAP -> left_is J IR_KINT -> kfold_bswap J = Ok (x, J') -> post J c x J'.
Proof using P.
  intros Ho (H1 & R1 & V1)%left_kint [= <- <-].
  assert (Hc : c = C32) by (apply fins_c32; rewrite ?Ho; done).
  apply post_kint; rewrite ?Ho; auto with width. intros rho ref C Hr. rewrite (V1 rho C), Hc.
  unfold eval_op. by rewrite Ho.
Qed.

Definition cmpop (o : IROp) : bool :=
  match o with
  | IR_LT | IR_GE | IR_LE | IR_GT | IR_ULT | IR_UGE | IR_ULE | IR_UGT => true
  | _ => false
  end.

Lemma kfold_intcomp_sound :
  cmpop (ins_o (fins J)) = true \/ ins_o (fins J) = IR_ABC ->
  left_is J IR_KINT -> right_is J IR_KINT ->
  kfold_intcomp J = Ok (x, J') -> post J c x J'.
Proof using P.
  intros Ho (H1 & R1 & V1)%left_kint (H2 & R2 & V2)%right_kint E.
  assert (Hc : c = C32) by (apply fins_c32; auto; try (intros E'; rewrite E' in Ho; by destruct Ho)).
  assert (Hs : forall v, is_i32 v -> sg C32 v = v) by (intros; by apply i32_id).
  unfold kfold_intcomp, ret in E.
  destruct Ho as [Ho|Ho]; destruct (ins_o (fins J)) eqn:Eo; try done; injection E as <- <-;
    apply post_cond; rewrite ?Eo; try done; intros rho C; rewrite (V1 rho C), (V2 rho C), Hc;
    unfold eval_op; rewrite Eo, ?Hs by done; done.
Qed.

Lemma kfold_intcomp0_sound :
  ins_o (fins J) = IR_UGE -> right_is J IR_KINT -> kfold_intcomp0 J = Ok (x, J') -> post J c x J'.
Proof using P.
  intros Ho (H2 & R2 & V2)%right_kint E. unfold kfold_intcomp0, ret in E.
  destruct (Z.eqb_spec (ins_i (fright J)) 0) as [E0|]; injection E as <- <-; [|by apply post_next].
  apply (post_cond J c true); rewrite ?Ho; try done. intros rho C. rewrite (V2 rho C), E0.
  pose proof fins_inv as F. rewrite Ho in F. simpl in F. destruct F as (F1 & F2 & _).
  assert (c = C32) as -> by congruence. unfold eval_op. rewrite Ho. f_equal. apply Z.leb_le.
  apply un_range.
Qed.

(** ** 64-bit constants *)

Lemma post_int64 k : c = C64 -> is_val (ins_o (fins J)) = true -> is_u64 k ->
  (forall rho, consistent J rho ->
    eval_op c (fins J) (rho (op1 (fins J))) (rho (op2 (fins J))) = Val k) ->
  INT64FOLD J k = Ok (x, J') -> room J' -> post J c x J'.
Proof using P.
  intros Hc Hv Hk H E R. unfold INT64FOLD in E. destruct (lj_ir_kint64 J k) as [r J1] eqn:Ek.
  injection E as <- <-. eapply post_const; [done| |done|].
  - rewrite Hc. eapply kint64_kres; eauto. apply P.
  - intros rho ref C Hr. by rewrite (H rho C).
Qed.

Lemma kfold_int64arith_sound :
  intop64 (ins_o (fins J)) = true -> left_is J IR_KINT64 -> right_is J IR_KINT64 ->
  kfold_int64arith J = Ok (x, J') -> room J' -> post J c x J'.
Proof using P.
  intros Ho (H1 & R1 & V1)%left_kint64 (H2 & R2 & V2)%right_kint64.
  assert (Hc : c = C64) by (apply fins_c64; auto; try (intros E; by rewrite E in Ho)).
  destruct (intop64_eval (fins J) _ _ Ho R1 R2) as [Ev Er].
  apply post_int64; try done; [by destruct (ins_o (fins J))|].
  intros rho C. by rewrite (V1 rho C), (V2 rho C), Hc.
Qed.

Lemma kfold_int64shift_sound :
  kind (ins_o (fins J)) = Kshift -> left_is J IR_KINT64 -> right_is J IR_KINT ->
  kfold_int64shift J = Ok (x, J') -> room J' -> post J c x J'.
Proof using P.
  intros Ho (H1 & R1 & V1)%left_kint64 (H2 & R2 & V2)%right_kint.
  assert (Hc : c = C64) by (apply fins_c64; auto; try (intros E; by rewrite E in Ho)).
  destruct (shift64_eval (fins J) _ (ins_i (fright J)) Ho R1) as [Ev Er].
  apply post_int64; try done; [by destruct (ins_o (fins J))|].
  intros rho C. by rewrite (V1 rho C), (V2 rho C), Hc.
Qed.

Lemma kfold_bnot64_sound :
  ins_o (fins J) = IR_BNOT -> left_is J IR_KINT64 ->
  kfold_bnot64 J = Ok (x, J') -> room J' -> post J c x J'.
Proof using P.
  intros Ho (H1 & R1 & V1)%left_kint64.
  assert (Hc : c = C64) by (apply fins_c64; rewrite ?Ho; done).
  apply post_int64; rewrite ?Ho; auto with width.
  intros rho C. rewrite (V1 rho C), Hc. unfold eval_op. by rewrite Ho.
Qed.

Lemma kfold_bswap64_sound :
  ins_o (fins J) = IR_BSWAP -> left_is J IR_KINT64 ->
  kfold_bswap64 J = Ok (x, J') -> room J' -> post J c x J'.
Proof using P.
  intros Ho (H1 & R1 & V1)%left_kint64.
  assert (Hc : c = C64) by (apply fins_c64; rewrite ?Ho; done).
  apply post_int64; rewrite ?Ho; auto using lj_bswap64_range.
  intros rho C. rewrite (V1 rho C), Hc. unfold eval_op. by rewrite Ho.
Qed.

Lemma divu64_range a b : is_u64 a -> is_u64 b -> is_u64 (lj_carith_divu64 a b).
Proof.
  intros Ha Hb. unfold lj_carith_divu64. destruct (Z.eqb_spec b 0); [done|].
  widths. split; [apply Z.div_pos; lia|]. apply Z.div_lt_upper_bound; nia.
Qed.
Lemma modu64_range a b : is_u64 a -> is_u64 b -> is_u64 (lj_carith_modu64 a b).
Proof.
  intros Ha Hb. unfold lj_carith_modu64. destruct (Z.eqb_spec b 0); [done|].
  pose proof (Z.mod_pos_bound a b). widths. lia.
Qed.
Lemma powu64_range a b : is_u64 a -> is_u64 b -> is_u64 (lj_carith_powu64 a b).
Proof. intros Ha Hb. unfold lj_carith_powu64. rewrite powu64_opt_spec by done. apply u64_range. Qed.

Lemma kfold_int64arith2_sound :
  ins_o (fins J) = IR_DIV \/ ins_o (fins J) = IR_MOD \/ ins_o (fins J) = IR_POW ->
  left_is J IR_KINT64 -> right_is J IR_KINT64 ->
  kfold_int64arith2 J = Ok (x, J') -> room J' -> post J c x J'.
Proof using P.
  intros Ho (H1 & R1 & V1)%left_kint64 (H2 & R2 & V2)%right_kint64.
  assert (Hc : c = C64) by (apply fins_c64; [done|intros E; rewrite E in Ho; intuition done]).
  apply post_int64; try done.
  - by destruct Ho as [-> |[-> | ->]].
  - destruct (irt_isi64 _); [auto with width|].
    destruct Ho as [-> |[-> | ->]]; simpl; auto using divu64_range, modu64_range, powu64_range.
  - intros rho C. rewrite (V1 rho C), (V2 rho C), Hc. unfold eval_op.
    destruct Ho as [-> |[-> | ->]]; done.
Qed.

Lemma kfold_int64comp_sound :
  (ins_o (fins J) = IR_ULT \/ ins_o (fins J) = IR_UGE \/ ins_o (fins J) = IR_ULE \/ ins_o (fins J) = IR_UGT) ->
  left_is J IR_KINT64 -> right_is J IR_KINT64 ->
  kfold_int64comp J = Ok (x, J') -> post J c x J'.
Proof using P.
  intros Ho (H1 & R1 & V1)%left_kint64 (H2 & R2 & V2)%right_kint64 E.
  assert (Hc : c = C64) by (apply fins_c64; [done|intros E'; rewrite E' in Ho; intuition done]).
  assert (Hs : forall v, is_u64 v -> un C64 v = v) by (intros; by apply u64_id).
  unfold kfold_int64comp, ret in E.
  destruct Ho as [Ho|[Ho|[Ho|Ho]]]; rewrite Ho in E; injection E as <- <-;
    apply post_cond; rewrite ?Ho; try done; intros rho C; rewrite (V1 rho C), (V2 rho C), Hc;
    unfold eval_op; rewrite Ho, ?Hs by done; done.
Qed.

Lemma kfold_int64comp0_sound :
  ins_o (fins J) = IR_UGE -> right_is J IR_KINT64 -> kfold_int64comp0 J = Ok (x, J') -> post J c x J'.
Proof using P.
  intros Ho (H2 & R2 & V2)%right_kint64 E. unfold kfold_int64comp0, ret in E.
  destruct (Z.eqb_spec (ir_k64 J (fright J)) 0) as [E0|]; injection E as <- <-; [|by apply post_next].
  apply (post_cond J c true); rewrite ?Ho; try done. intros rho C. rewrite (V2 rho C), E0.
  pose proof fins_inv as F. rewrite Ho in F. simpl in F. destruct F as (F1 & F2 & _).
  assert (c = C64) as -> by congruence. unfold eval_op. rewrite Ho. f_equal. apply Z.leb_le.
  apply un_range.
Qed.

(** ** Comparisons of numbers and of references *)

Lemma ref_knum ref ins : ir J !! ref = Some ins -> ins_o ins = IR_KNUM ->
  opcls J ref = CN /\ forall rho, consistent J rho -> rho ref = ir_k64 J ins.
Proof using P.
  intros H Ho. pose proof (wf_kins J (sw_wf J (pr_sem _ _ P)) _ _ H) as K. unfold kins_ok in K.
  rewrite Ho in K. split.
  - unfold opcls, ins_cls. rewrite H, Ho. by destruct K as [-> _].
  - intros rho C. destruct (C ref ins H) as [_ Q]. unfold eval in Q.
    rewrite rescls_none, Ho in Q by by rewrite Ho. done.
Qed.

Definition eqop (o : IROp) : bool := match o with IR_EQ | IR_NE => true | _ => false end.

Lemma kfold_numcomp_sound :
  cmpop (ins_o (fins J)) = true \/ eqop (ins_o (fins J)) = true ->
  left_is J IR_KNUM -> right_is J IR_KNUM -> kfold_numcomp J = Ok (x, J') -> post J c x J'.
Proof using P.
  intros Ho Hl [Hr1 Hr2] [= <- <-].
  destruct (ref_knum _ _ (pr_left _ _ P) Hl) as [H1 V1]. destruct (ref_knum _ _ Hr1 Hr2) as [H2 V2].
  pose proof fins_inv as F. assert (Hk : kind (ins_o (fins J)) = Kcmp).
  { destruct Ho as [Ho|Ho]; by destruct (ins_o (fins J)). }
  rewrite Hk in F. destruct F as (F1 & _ & _). assert (c = CN) as -> by congruence.
  apply post_cond; [done|by destruct Ho as [Ho|Ho]; destruct (ins_o (fins J))|].
  intros rho C. rewrite (V1 rho C), (V2 rho C). unfold eval_op, knumleft, knumright, ir_knum.
  destruct Ho as [Ho|Ho]; by destruct (ins_o (fins J)).
Qed.

(** Constants with the same opcode are equal exactly when the references are. *)
Definition ref_unique (o : IROp) : bool := match o with IR_KINT | IR_KINT64 | IR_KGC => true | _ => false end.

Lemma op12_range ins : half (op1 ins) -> half (op2 ins) -> is_u32 (op12 ins).
Proof. unfold half, op12. rewrite Z.shiftl_mul_pow2 by lia. widths. lia. Qed.

Lemma kval_eq r1 r2 i1 i2 rho : ir J !! r1 = Some i1 -> ir J !! r2 = Some i2 ->
  ref_unique (ins_o i1) = true -> ins_o i2 = ins_o i1 -> consistent J rho -> room J ->
  (r1 =? r2) = (rho r1 =? rho r2).
Proof using P.
  intros H1 H2 Hu Ho C [_ Hroom]. pose proof (sw_wf _ (pr_sem _ _ P)) as W.
  destruct (Z.eqb_spec r1 r2) as [->|Hne]; [by rewrite Z.eqb_refl|]. symmetry. apply Z.eqb_neq. intros E.
  apply Hne, (wf_uniq J W r1 r2 i1 i2); try done; [by destruct (ins_o i1)|].
  destruct (C _ _ H1) as [_ Q1], (C _ _ H2) as [_ Q2]. unfold eval in Q1, Q2.
  rewrite rescls_none in Q1, Q2 by (apply kop_iop; rewrite ?Ho; by destruct (ins_o i1)). rewrite Ho in Q2.
  pose proof (wf_kins J W _ _ H1) as K1. pose proof (wf_kins J W _ _ H2) as K2. unfold kins_ok in K1, K2.
  rewrite Ho in K2. destruct (ins_o i1) eqn:Eo; try done; simpl in Q1, Q2; rewrite Q1, Q2 in E.
  - pose proof (op12_range i1 ltac:(tauto) ltac:(tauto)). pose proof (op12_range i2 ltac:(tauto) ltac:(tauto)).
    unfold ins_i in E. wsolve.
  - pose proof (op12_range i1 ltac:(tauto) ltac:(tauto)). pose proof (op12_range i2 ltac:(tauto) ltac:(tauto)).
    wsolve.
  - destruct K1 as (_ & _ & _ & B1), K2 as (_ & _ & _ & B2). unfold ir_k64 in E.
    rewrite !k64_at_index in E by done. unfold k64_valid in *.
    destruct (k64 J !! Z.to_nat (op12 i1)) as [u1|] eqn:E1; [|apply lookup_ge_None in E1; lia].
    destruct (k64 J !! Z.to_nat (op12 i2)) as [u2|] eqn:E2; [|apply lookup_ge_None in E2; lia].
    simpl in E. subst u2. pose proof (NoDup_lookup _ _ _ _ (proj1 (wf_k64 J W)) E1 E2). lia.
Qed.

Lemma cls_gcv t : IRT_STR <= t <= IRT_UDATA -> t <> IRT_P64 -> cls_of t = C32.
Proof.
  unfold IRT_STR, IRT_UDATA, IRT_P64. intros H1 H2.
  assert (H : t = 4 \/ t = 5 \/ t = 6 \/ t = 7 \/ t = 8 \/ t = 10 \/ t = 11 \/ t = 12) by lia.
  by repeat destruct H as [->|H]; [..|subst].
Qed.

Lemma ref_unique_cls ref ins : ir J !! ref = Some ins -> ref_unique (ins_o ins) = true -> opcls J ref <> CN.
Proof using P.
  intros H Hu. unfold opcls, ins_cls. rewrite H. pose proof (wf_kins J (sw_wf J (pr_sem _ _ P)) _ _ H) as K.
  unfold kins_ok in K. destruct (ins_o ins); try done.
  - by destruct K as [-> _].
  - destruct K as [[K1 K2] _]. by rewrite cls_gcv.
  - by destruct K as [-> _].
Qed.

Lemma kfold_kref_sound o :
  eqop (ins_o (fins J)) = true -> ref_unique o = true -> left_is J o -> right_is J o ->
  kfold_kref J = Ok (x, J') -> room J' -> post J c x J'.
Proof using P.
  intros Ho Hu Hl [Hr1 Hr2] [= <- <-] R. pose proof fins_inv as F.
  apply post_cond; [done|by destruct (ins_o (fins J))|]. intros rho C.
  rewrite (kval_eq _ _ _ _ rho (pr_left _ _ P) Hr1); [|by rewrite Hl|by rewrite Hl, Hr2|done|done].
  assert (Hc : c <> CN).
  { pose proof (ref_unique_cls _ _ (pr_left _ _ P) ltac:(by rewrite Hl)).
    destruct (ins_o (fins J)); try done; simpl in F; destruct F as (F1 & _); congruence. }
  unfold eval_op. destruct (ins_o (fins J)); try done; destruct c; try done; by destruct (_ =? _).
Qed.

(** ** Pointers *)

Lemma ref_kptr ref ins : ir J !! ref = Some ins -> ins_o ins = IR_KPTR \/ ins_o ins = IR_KKPTR ->
  opcls J ref = C32 /\ is_u32 (op12 ins) /\ forall rho, consistent J rho -> rho ref = i32 (op12 ins).
Proof using P.
  intros H Ho. pose proof (wf_kins J (sw_wf J (pr_sem _ _ P)) _ _ H) as K. unfold kins_ok in K.
  assert (K' : ins_t ins = IRT_P32 /\ half (op1 ins) /\ half (op2 ins)) by (by destruct Ho as [Ho|Ho]; rewrite Ho in K).
  destruct K' as (Ht & Hh1 & Hh2). split_and!.
  - unfold opcls, ins_cls. rewrite H, Ht. by destruct Ho as [-> | ->].
  - by apply op12_range.
  - intros rho C. destruct (C ref ins H) as [_ Q]. unfold eval in Q.
    rewrite rescls_none in Q by (by destruct Ho as [-> | ->]). by destruct Ho as [Ho|Ho]; rewrite Ho in Q.
Qed.

Lemma kfold_add_kptr_sound :
  ins_o (fins J) = IR_ADD -> left_is J IR_KPTR \/ left_is J IR_KKPTR ->
  right_is J IR_KINT \/ right_is J IR_KINT64 ->
  kfold_add_kptr J = Ok (x, J') -> room J' -> post J c x J'.
Proof using P.
  intros Ho Hl Hr E R. destruct (ref_kptr _ _ (pr_left _ _ P) Hl) as (H1 & R1 & V1).
  pose proof fins_inv as F. rewrite Ho in F. destruct F as (F1 & F2 & _).
  assert (Hc : c = C32) by congruence.
  destruct Hr as [Hr|Hr]; [|destruct (right_kint64 Hr) as [H2 _]; congruence].
  destruct (right_kint Hr) as (H2 & R2 & V2).
  unfold kfold_add_kptr in E. destruct (lj_ir_kptr_ _ _ _) as [r J1] eqn:Ek. injection E as <- <-.
  set (k := u32 (op12 (fleft J) + ins_i (fright J))) in *.
  destruct (lj_ir_kptr_spec J (ins_o (fleft J)) k r J1) as (W' & G & Fo & ins & Hi & Hio & Hv); auto with width;
    [apply P|apply u32_range|].
  destruct (kgrow_sem J J1 (pr_sem _ _ P)) as (S' & X & B); [constructor; try done; by eapply intern_nins|].
  assert (Ht : opcls J1 r = C32).
  { pose proof (wf_kins J1 W' _ _ Hi) as K. unfold kins_ok in K. unfold opcls, ins_cls. rewrite Hi.
    rewrite Hio in *. destruct Hl as [Hl|Hl]; rewrite Hl in *; by destruct K as [-> _]. }
  constructor; try done. cbn [result]. split_and!; [eauto|congruence|].
  intros rho C. rewrite (eval_fins J c) by done. rewrite (V1 rho), (V2 rho), Hc by auto.
  unfold eval_op. rewrite Ho. cbn [passes wr].
  destruct (C r ins Hi) as [_ Q]. unfold eval in Q.
  rewrite rescls_none in Q by (rewrite Hio; by destruct Hl as [-> | ->]).
  assert (Q' : rho r = i32 (op12 ins)) by (rewrite Hio in Q; by destruct Hl as [Hl|Hl]; rewrite Hl in Q).
  rewrite Q', Hv. unfold k. wsolve.
Qed.

(** ** Conversions of constants *)

Lemma kfold_conv_kint_ext_sound :
  ins_o (fins J) = IR_CONV -> left_is J IR_KINT -> conv_dst (op2 (fins J)) = IRT_INT ->
  (let s := conv_src (op2 (fins J)) in s = IRT_I8 \/ s = IRT_U8 \/ s = IRT_I16 \/ s = IRT_U16) ->
  kfold_conv_kint_ext J = Ok (x, J') -> post J c x J'.
Proof using P.
  intros Ho (H1 & R1 & V1)%left_kint Hd Hs E. cbv zeta in Hs.
  pose proof fins_inv as F. rewrite Ho in F. destruct F as (_ & _ & _ & Hc). rewrite Hd in Hc.
  injection E as <- <-. apply post_kint; rewrite ?Ho; try done.
  - destruct Hs as [-> |[-> |[-> | ->]]]; simpl; wsolve.
  - intros rho ref C Hr. rewrite (V1 rho C). unfold eval_op. rewrite Ho. cbn [passes].
    rewrite Hr. unfold eval_conv. rewrite Hd. destruct Hs as [-> |[-> |[-> | ->]]]; done.
Qed.

Lemma kfold_conv_kint_i64_sound :
  ins_o (fins J) = IR_CONV -> left_is J IR_KINT ->
  conv_dst (op2 (fins J)) = IRT_I64 \/ conv_dst (op2 (fins J)) = IRT_U64 ->
  conv_src (op2 (fins J)) = IRT_INT \/ conv_src (op2 (fins J)) = IRT_U32 ->
  kfold_conv_kint_i64 J = Ok (x, J') -> room J' -> post J c x J'.
Proof using P.
  intros Ho (H1 & R1 & V1)%left_kint Hd Hs E R.
  pose proof fins_inv as F. rewrite Ho in F. destruct F as (_ & _ & _ & Hc).
  assert (Hc' : cls_of (conv_dst (op2 (fins J))) = C64) by (by destruct Hd as [-> | ->]).
  unfold kfold_conv_kint_i64 in E.
  destruct (_ =? 0) eqn:Es; cbn [negb] in E; (eapply post_int64; [congruence|by rewrite Ho|..|exact E|done];
    [auto with width|]); intros rho C; rewrite (V1 rho C); unfold eval_op; rewrite Ho;
    unfold eval_conv; rewrite Hc', Es; by destruct Hs as [-> | ->].
Qed.

Lemma kfold_conv_kint64_int_i64_sound :
  ins_o (fins J) = IR_CONV -> left_is J IR_KINT64 ->
  conv_dst (op2 (fins J)) = IRT_INT \/ conv_dst (op2 (fins J)) = IRT_U32 ->
  conv_src (op2 (fins J)) = IRT_I64 ->
  kfold_conv_kint64_int_i64 J = Ok (x, J') -> post J c x J'.
Proof using P.
  intros Ho (H1 & R1 & V1)%left_kint64 Hd Hs E.
  pose proof fins_inv as F. rewrite Ho in F. destruct F as (_ & _ & _ & Hc).
  assert (Hc' : cls_of (conv_dst (op2 (fins J))) = C32) by (by destruct Hd as [-> | ->]).
  injection E as <- <-. apply post_kint; rewrite ?Ho; auto with width; [congruence|].
  intros rho ref C Hr. rewrite (V1 rho C). unfold eval_op. rewrite Ho. cbn [passes].
  unfold eval_conv. by rewrite Hr, Hc', Hs.
Qed.
End Rules.
