(* ===== verification/FoldArith.v ===== *)
(** * Soundness of integer simplifications

    The algebraic simplification, reassociation and commutation rules of
    [lj_opt_fold.c] for integer instructions. *)

From S2P Require Import Prelude Machine Carith Num Ir IrInv Fold FoldSem FoldInv FoldConst.

Lemma set_fins_id J : set_fins J (fins J) = J.
Proof. by destruct J. Qed.

(** ** New instructions *)

Lemma ok_bin K f c : kind (ins_o f) = Kbin -> opcls K (op1 f) = c -> opcls K (op2 f) = c ->
  int_cls c = true -> cls_of (ins_t f) = c -> fins_ok K f c.
Proof.
  intros Hk H1 H2 Hi Ht. apply fins_ok_intro; [|done|intros E; by rewrite E in Hk..].
  unfold rescls. rewrite Hk, H1, H2. by destruct c.
Qed.

Lemma ok_un K f c : kind (ins_o f) = Kun -> opcls K (op1 f) = c ->
  int_cls c = true -> cls_of (ins_t f) = c -> fins_ok K f c.
Proof.
  intros Hk H1 Hi Ht. apply fins_ok_intro; [|done|intros E; by rewrite E in Hk..].
  unfold rescls. rewrite Hk, H1. by destruct c.
Qed.

Lemma ok_shift K f c : kind (ins_o f) = Kshift -> opcls K (op1 f) = c -> opcls K (op2 f) = C32 ->
  int_cls c = true -> cls_of (ins_t f) = c -> fins_ok K f c.
Proof.
  intros Hk H1 H2 Hi Ht. apply fins_ok_intro; [|done|intros E; by rewrite E in Hk..].
  unfold rescls. rewrite Hk, H1, H2. by destruct c.
Qed.

Lemma opcls_int K r d : opcls K r = d -> int_cls d = true -> is_Some (ir K !! r).
Proof. intros H Hi. eapply opcls_some; [done|by apply int_cls_ncx]. Qed.

(** A constant does not change the fold state. *)
Lemma kint_fins K k r J1 : lj_ir_kint K k = (r, J1) -> fins J1 = fins K.
Proof. unfold lj_ir_kint, ir_intern. by destruct (negb _); intros [= <- <-]. Qed.
Lemma kint64_fins K k r J1 : lj_ir_kint64 K k = (r, J1) -> fins J1 = fins K.
Proof.
  unfold lj_ir_kint64, lj_ir_k64_find, lj_ir_k64, ir_intern.
  destruct (k64_index _ _ _); by destruct (negb _); intros [= <- <-].
Qed.

Section Arith.
Variables (J : jit_State) (c : cls) (x : FR) (J' : jit_State).
Hypothesis (P : pre J c).

(** ** Operands that are instructions *)

Lemma left_bin o :
  left_is J o -> kind o = Kbin -> opcls J (op1 (fins J)) = c -> int_cls c = true ->
  opcls J (op1 (fleft J)) = c /\ opcls J (op2 (fleft J)) = c /\
  forall rho, consistent J rho ->
    in_cls c (rho (op1 (fleft J))) /\ in_cls c (rho (op2 (fleft J))) /\
    passes rho (eval_op c (fleft J) (rho (op1 (fleft J))) (rho (op2 (fleft J)))) (op1 (fins J)).
Proof using P.
  intros Hl Hk Hc Hi.
  destruct (ref_op J _ _ c (pr_sem _ _ P) (pr_left _ _ P)) as (Hr & _ & _ & V); try done.
  { unfold iop. by rewrite Hl, Hk. } { intros E. rewrite Hl in E. by rewrite E in Hk. } { by rewrite Hl, Hk. }
  pose proof (rescls_inv _ _ _ Hr) as F. rewrite Hl, Hk in F. destruct F as (F1 & F2 & _).
  split_and!; try done. intros rho C.
  split_and!; [by apply (opval_in J)|by apply (opval_in J)|by apply V].
Qed.

Lemma right_bin o :
  right_is J o -> kind o = Kbin -> opcls J (op2 (fins J)) = c -> int_cls c = true ->
  opcls J (op1 (fright J)) = c /\ opcls J (op2 (fright J)) = c /\
  forall rho, consistent J rho ->
    in_cls c (rho (op1 (fright J))) /\ in_cls c (rho (op2 (fright J))) /\
    passes rho (eval_op c (fright J) (rho (op1 (fright J))) (rho (op2 (fright J)))) (op2 (fins J)).
Proof using P.
  intros [Hr Ho] Hk Hc Hi.
  destruct (ref_op J _ _ c (pr_sem _ _ P) Hr) as (Hres & _ & _ & V); try done.
  { unfold iop. by rewrite Ho, Hk. } { intros E. rewrite Ho in E. by rewrite E in Hk. } { by rewrite Ho, Hk. }
  pose proof (rescls_inv _ _ _ Hres) as F. rewrite Ho, Hk in F. destruct F as (F1 & F2 & _).
  split_and!; try done. intros rho C.
  split_and!; [by apply (opval_in J)|by apply (opval_in J)|by apply V].
Qed.

Lemma left_un o :
  left_is J o -> kind o = Kun -> opcls J (op1 (fins J)) = c -> int_cls c = true ->
  opcls J (op1 (fleft J)) = c /\
  forall rho, consistent J rho -> in_cls c (rho (op1 (fleft J))) /\
    passes rho (eval_op c (fleft J) (rho (op1 (fleft J))) (rho (op2 (fleft J)))) (op1 (fins J)).
Proof using P.
  intros Hl Hk Hc Hi.
  destruct (ref_op J _ _ c (pr_sem _ _ P) (pr_left _ _ P)) as (Hr & _ & _ & V); try done.
  { unfold iop. by rewrite Hl, Hk. } { intros E. rewrite Hl in E. by rewrite E in Hk. } { by rewrite Hl, Hk. }
  pose proof (rescls_inv _ _ _ Hr) as F. rewrite Hl, Hk in F. destruct F as (F1 & _).
  split_and!; try done. intros rho C. split; [by apply (opval_in J)|by apply V].
Qed.

Lemma right_un o :
  right_is J o -> kind o = Kun -> opcls J (op2 (fins J)) = c -> int_cls c = true ->
  opcls J (op1 (fright J)) = c /\
  forall rho, consistent J rho -> in_cls c (rho (op1 (fright J))) /\
    passes rho (eval_op c (fright J) (rho (op1 (fright J))) (rho (op2 (fright J)))) (op2 (fins J)).
Proof using P.
  intros [Hr Ho] Hk Hc Hi.
  destruct (ref_op J _ _ c (pr_sem _ _ P) Hr) as (Hres & _ & _ & V); try done.
  { unfold iop. by rewrite Ho, Hk. } { intros E. rewrite Ho in E. by rewrite E in Hk. } { by rewrite Ho, Hk. }
  pose proof (rescls_inv _ _ _ Hres) as F. rewrite Ho, Hk in F. destruct F as (F1 & _).
  split_and!; try done. intros rho C. split; [by apply (opval_in J)|by apply V].
Qed.

Lemma left_shift o :
  left_is J o -> kind o = Kshift -> opcls J (op1 (fins J)) = c -> int_cls c = true ->
  opcls J (op1 (fleft J)) = c /\ opcls J (op2 (fleft J)) = C32 /\
  forall rho, consistent J rho -> in_cls c (rho (op1 (fleft J))) /\
    passes rho (eval_op c (fleft J) (rho (op1 (fleft J))) (rho (op2 (fleft J)))) (op1 (fins J)).
Proof using P.
  intros Hl Hk Hc Hi.
  destruct (ref_op J _ _ c (pr_sem _ _ P) (pr_left _ _ P)) as (Hr & _ & _ & V); try done.
  { unfold iop. by rewrite Hl, Hk. } { intros E. rewrite Hl in E. by rewrite E in Hk. } { by rewrite Hl, Hk. }
  pose proof (rescls_inv _ _ _ Hr) as F. rewrite Hl, Hk in F. destruct F as (F1 & F2 & _).
  split_and!; try done. intros rho C. split; [by apply (opval_in J)|by apply V].
Qed.

(** The instruction itself. *)
Lemma fins_bin : kind (ins_o (fins J)) = Kbin ->
  opcls J (op1 (fins J)) = c /\ opcls J (op2 (fins J)) = c /\ int_cls c = true /\
  cls_of (ins_t (fins J)) = c /\
  forall rho, consistent J rho -> in_cls c (rho (op1 (fins J))) /\ in_cls c (rho (op2 (fins J))).
Proof using P.
  intros Hk. pose proof (fins_inv J c P) as F. rewrite Hk in F. destruct F as (F1 & F2 & F3).
  split_and!; try done.
  - apply (pre_cls J c P). intros E. by rewrite E in Hk.
  - intros rho C. split; by apply (opval_in J).
Qed.

Lemma fins_un : kind (ins_o (fins J)) = Kun ->
  opcls J (op1 (fins J)) = c /\ int_cls c = true /\ cls_of (ins_t (fins J)) = c /\
  forall rho, consistent J rho -> in_cls c (rho (op1 (fins J))).
Proof using P.
  intros Hk. pose proof (fins_inv J c P) as F. rewrite Hk in F. destruct F as (F1 & F2).
  split_and!; try done.
  - apply (pre_cls J c P). intros E. by rewrite E in Hk.
  - intros rho C. by apply (opval_in J).
Qed.

Lemma fins_shift : kind (ins_o (fins J)) = Kshift ->
  opcls J (op1 (fins J)) = c /\ opcls J (op2 (fins J)) = C32 /\ int_cls c = true /\
  cls_of (ins_t (fins J)) = c /\
  forall rho, consistent J rho -> in_cls c (rho (op1 (fins J))) /\ is_i32 (rho (op2 (fins J))).
Proof using P.
  intros Hk. pose proof (fins_inv J c P) as F. rewrite Hk in F. destruct F as (F1 & F2 & F3).
  split_and!; try done.
  - apply (pre_cls J c P). intros E. by rewrite E in Hk.
  - intros rho C. split; [by apply (opval_in J)|by apply (opval_in J _ _ C32)].
Qed.

(** ** Retrying with a constant *)

Lemma opcls_grow K r d : extends J K -> opcls J r = d -> int_cls d = true -> opcls K r = d.
Proof.
  intros X H Hi. rewrite <- H. apply (opcls_ext J K _ X). by apply (opcls_int J r d).
Qed.

(** [RETRYFOLD] with a new constant. *)
Lemma retry_kint f0 f k r J1 :
  lj_ir_kint (set_fins J f0) k = (r, J1) -> room J1 -> is_i32 k ->
  (forall K, extends J K -> opcls K r = C32 -> fins_ok K f c) ->
  retry_ok J1 f J (fins J) /\ is_val (ins_o (fins J)) = true ->
  (forall rho, consistent J rho -> rho r = k ->
    eval_op c f (rho (op1 f)) (rho (op2 f)) =
    eval_op c (fins J) (rho (op1 (fins J))) (rho (op2 (fins J)))) ->
  post J c RETRYFOLD (set_fins J1 f).
Proof using P.
  intros E R Hk Hf [Hv1 Hv2] H.
  assert (S0 : sem_wf (set_fins J f0)) by by apply (same_ir_sem J _ (set_fins_same J f0)), P.
  destruct (kres_set_fins J f0 J1 r C32 k) as [[S1 X B F K _] _]; [by apply kint_kres|apply P|].
  change (set_fins J1 f) with (set_fins (set_fins J1 (fins J)) f).
  apply post_retry_ext; try done; [|congruence|].
  - apply Hf; [done|]. apply K.
  - intros rho C. apply H; [auto|]. by apply K.
Qed.

Lemma retry_kint64 f0 f k r J1 :
  lj_ir_kint64 (set_fins J f0) k = (r, J1) -> room J1 -> is_u64 k ->
  (forall K, extends J K -> opcls K r = C64 -> fins_ok K f c) ->
  retry_ok J1 f J (fins J) /\ is_val (ins_o (fins J)) = true ->
  (forall rho, consistent J rho -> rho r = k ->
    eval_op c f (rho (op1 f)) (rho (op2 f)) =
    eval_op c (fins J) (rho (op1 (fins J))) (rho (op2 (fins J)))) ->
  post J c RETRYFOLD (set_fins J1 f).
Proof using P.
  intros E R Hk Hf [Hv1 Hv2] H.
  assert (S0 : sem_wf (set_fins J f0)) by by apply (same_ir_sem J _ (set_fins_same J f0)), P.
  destruct (kres_set_fins J f0 J1 r C64 k) as [[S1 X B F K _] _]; [by apply kint64_kres|apply P|].
  change (set_fins J1 f) with (set_fins (set_fins J1 (fins J)) f).
  apply post_retry_ext; try done; [|congruence|].
  - apply Hf; [done|]. apply K.
  - intros rho C. apply H; [auto|]. by apply K.
Qed.


(** ** Algebraic shortcuts *)

Lemma bswap32_invol v : is_i32 v -> i32 (lj_bswap (u32 (i32 (lj_bswap (u32 v))))) = v.
Proof.
  intros Hv. rewrite u32_i32, (u32_id (lj_bswap _)) by apply lj_bswap_range, u32_range.
  rewrite lj_bswap_invol by apply u32_range. by rewrite i32_u32, i32_id.
Qed.

Lemma shortcut_leftleft_sound :
  kind (ins_o (fins J)) = Kun -> left_is J (ins_o (fins J)) ->
  shortcut_leftleft J = Ok (x, J') -> post J c x J'.
Proof using P.
  intros Hk Hl E. destruct fins_un as (F1 & Hi & Ht & V); [done|].
  destruct (left_un _ Hl Hk F1 Hi) as (L1 & W). unfold shortcut_leftleft in E. fr E.
  destruct (irt_isphi _); [next|]. injection E as <- <-.
  apply post_fref_val; try done. intros rho C. destruct (W rho C) as [R1 Q]. revert Q.
  unfold left_is in Hl. unfold eval_op. rewrite Hl.
  destruct (ins_o (fins J)) eqn:Ho; try done; cbn [passes]; intros ->; symmetry.
  - rewrite <- (wr_id c (rho (op1 (fleft J)))) at 2 by done. apply wr_cong. rewrite wr_eqm.
    by rewrite Z.lnot_involutive.
  - destruct c; try done; simpl in R1; [by apply bswap32_invol|by apply lj_bswap64_invol].
  - rewrite <- (wr_id c (rho (op1 (fleft J)))) at 2 by done. apply wr_cong. rewrite wr_eqm.
    by rewrite Z.opp_involutive.
Qed.

Lemma simplify_numadd_negx_sound :
  ins_o (fins J) = IR_ADD -> left_is J IR_NEG -> simplify_numadd_negx J = Ok (x, J') -> post J c x J'.
Proof using P.
  intros Ho Hl E. destruct fins_bin as (F1 & F2 & Hi & Ht & V); [by rewrite Ho|].
  destruct (left_un _ Hl eq_refl F1 Hi) as (L1 & W). unfold simplify_numadd_negx in E. fr E.
  destruct (irt_isphi _); [next|]. injection E as <- <-.
  apply post_retry; [done|by apply ok_bin|rok|]. intros rho C. destruct (W rho C) as [_ Q].
  revert Q. ev. rewrite Ho, Hl. cbn [passes]. intros ->. f_equal. weq.
Qed.

Lemma simplify_numadd_xneg_sound :
  ins_o (fins J) = IR_ADD -> right_is J IR_NEG -> simplify_numadd_xneg J = Ok (x, J') -> post J c x J'.
Proof using P.
  intros Ho Hl E. destruct fins_bin as (F1 & F2 & Hi & Ht & V); [by rewrite Ho|].
  destruct (right_un _ Hl eq_refl F2 Hi) as (L1 & W). unfold simplify_numadd_xneg in E. fr E.
  destruct (irt_isphi _); [next|]. injection E as <- <-.
  apply post_retry; [done|by apply ok_bin|rok|]. intros rho C. destruct (W rho C) as [_ Q].
  revert Q. ev. rewrite Ho, (proj2 Hl). cbn [passes]. intros ->. f_equal. weq.
Qed.

Lemma simplify_numsub_xneg_sound :
  ins_o (fins J) = IR_SUB -> right_is J IR_NEG -> simplify_numsub_xneg J = Ok (x, J') -> post J c x J'.
Proof using P.
  intros Ho Hl E. destruct fins_bin as (F1 & F2 & Hi & Ht & V); [by rewrite Ho|].
  destruct (right_un _ Hl eq_refl F2 Hi) as (L1 & W). unfold simplify_numsub_xneg in E. fr E.
  destruct (irt_isphi _); [next|]. injection E as <- <-.
  apply post_retry; [done|by apply ok_bin|rok|]. intros rho C. destruct (W rho C) as [_ Q].
  revert Q. ev. rewrite Ho, (proj2 Hl). cbn [passes]. intros ->. f_equal. weq.
Qed.

Lemma simplify_mul_negneg_sound :
  ins_o (fins J) = IR_MUL -> left_is J IR_NEG -> right_is J IR_NEG ->
  simplify_nummuldiv_negneg J = Ok (x, J') -> post J c x J'.
Proof using P.
  intros Ho Hl Hr E. destruct fins_bin as (F1 & F2 & Hi & Ht & V); [by rewrite Ho|].
  destruct (left_un _ Hl eq_refl F1 Hi) as (L1 & W1). destruct (right_un _ Hr eq_refl F2 Hi) as (L2 & W2).
  unfold simplify_nummuldiv_negneg in E. fr E.
  destruct (irt_isphi _); [next|]. destruct (irt_isphi _); [next|]. injection E as <- <-.
  apply post_retry; [done|apply ok_bin; [simpl; by rewrite Ho|done..]|rok|].
  intros rho C. destruct (W1 rho C) as [_ Q1], (W2 rho C) as [_ Q2].
  revert Q1 Q2. ev. rewrite Ho, Hl, (proj2 Hr). cbn [passes]. intros -> ->. f_equal. weq.
Qed.

(** ** Constant right operands *)

Lemma simplify_intadd_k_sound :
  ins_o (fins J) = IR_ADD \/ ins_o (fins J) = IR_ADDOV \/ ins_o (fins J) = IR_SUBOV ->
  right_is J IR_KINT -> simplify_intadd_k J = Ok (x, J') -> post J c x J'.
Proof using P.
  intros Ho Hr E. destruct (right_kint J c P Hr) as (H2 & R2 & V2). unfold simplify_intadd_k in E. fr E.
  destruct (Z.eqb_spec (ins_i (fright J)) 0) as [E0|]; [|next]. injection E as <- <-.
  pose proof (fins_inv J c P) as F.
  assert (H1 : opcls J (op1 (fins J)) = C32 /\ c = C32).
  { destruct Ho as [Ho|[Ho|Ho]]; rewrite Ho in F; simpl in F; intuition congruence. }
  destruct H1 as [H1 Hc]. apply post_fref_val; [done|congruence|by rewrite Hc|]. intros rho C.
  pose proof (opval_in J rho _ C32 C H1 eq_refl) as V1. simpl in V1. rewrite (V2 rho C), E0, Hc. ev.
  destruct Ho as [Ho|[Ho|Ho]]; rewrite Ho; rewrite ?Z.add_0_r, ?Z.sub_0_r; cbn [passes wr].
  - by rewrite i32_id.
  - replace (_ && _) with true by (widths; lia). done.
  - replace (_ && _) with true by (widths; lia). done.
Qed.

Lemma simplify_intmul_k_sound :
  ins_o (fins J) = IR_MULOV -> right_is J IR_KINT -> simplify_intmul_k J = Ok (x, J') -> post J c x J'.
Proof using P.
  intros Ho Hr E. destruct (right_kint J c P Hr) as (H2 & R2 & V2). unfold simplify_intmul_k in E. fr E.
  pose proof (fins_inv J c P) as F. rewrite Ho in F. destruct F as (H1 & _ & Hc).
  assert (Ht : cls_of (ins_t (fins J)) = c) by (apply (pre_cls J c P); by rewrite Ho).
  assert (V1 : forall rho, consistent J rho -> is_i32 (rho (op1 (fins J)))).
  { intros rho C. by apply (opval_in J rho _ C32). }
  destruct (Z.eqb_spec (ins_i (fright J)) 0) as [E0|].
  { injection E as <- <-. apply post_fref_val; [done|congruence|by rewrite Hc|]. intros rho C.
    rewrite (V2 rho C), E0. ev. rewrite Ho, Z.mul_0_r. simpl. by rewrite V2. }
  destruct (Z.eqb_spec (ins_i (fright J)) 1) as [E0|].
  { injection E as <- <-. apply post_fref_val; [done|congruence|by rewrite Hc|]. intros rho C.
    specialize (V1 rho C). rewrite (V2 rho C), E0. ev. rewrite Ho, Z.mul_1_r.
    replace (_ && _) with true by (widths; lia). done. }
  destruct (Z.eqb_spec (ins_i (fright J)) 2) as [E0|]; [|next]. injection E as <- <-.
  apply post_retry; [done| | |].
  - apply fins_ok_intro; [|done..]. unfold rescls. cbn [kind ins_o set_o set_op2 op1 op2].
    by rewrite H1, Hc.
  - split; [by cbn; rewrite Ho|]. split; [|by intros _ _; apply bool_decide_true; rewrite <- Hc].
    unfold hard. cbn [ins_o op1 op2 set_o set_op2]. rewrite Ho.
    unfold op_at at 2. destruct Hr as [-> ->]. rewrite andb_true_r. intros ->. done.
  - intros rho C. rewrite (V2 rho C), E0. ev. rewrite Ho. by rewrite Z.add_diag, Z.mul_comm.
Qed.

Lemma pow2_test k : 0 < k -> k .& (k - 1) = 0 -> k = 2 ^ Z.log2 k.
Proof.
  intros Hk H. pose proof (Z.log2_spec k Hk) as S. destruct (Z.eq_dec k (2 ^ Z.log2 k)) as [|Hne]; [done|].
  pose proof (Z.log2_nonneg k) as Hn.
  assert (E : Z.log2 (k - 1) = Z.log2 k) by (apply Z.log2_unique; lia).
  assert (B : Z.testbit (k .& (k - 1)) (Z.log2 k) = true).
  { rewrite Z.land_spec, Z.bit_log2 by done. rewrite <- E. apply Z.bit_log2. lia. }
  rewrite H, Z.bits_0 in B. done.
Qed.

Lemma simplify_intsub_k_sound :
  ins_o (fins J) = IR_SUB -> right_is J IR_KINT ->
  simplify_intsub_k J = Ok (x, J') -> room J' -> post J c x J'.
Proof using P.
  intros Ho Hr E R. destruct (right_kint J c P Hr) as (H2 & R2 & V2). unfold simplify_intsub_k in E. fr E.
  destruct fins_bin as (F1 & F2 & Hi & Ht & V); [by rewrite Ho|]. assert (Hc : c = C32) by congruence.
  destruct (Z.eqb_spec (ins_i (fright J)) 0) as [E0|].
  - injection E as <- <-. apply post_fref_val; try done. intros rho C.
    rewrite (V2 rho C), E0. ev. rewrite Ho, Z.sub_0_r. cbn [passes]. rewrite wr_id; [done|]. by apply V.
  - destruct (lj_ir_kint _ _) as [r J1] eqn:Ek. injection E as <- <-.
    rewrite (kint_fins _ _ _ _ Ek). eapply retry_kint; [exact Ek|done|auto with width|..|].
    + intros K X Hr'. apply ok_bin; try done; [by apply opcls_grow|by rewrite Hc].
    + rok.
    + intros rho C Hv. rewrite (V2 rho C). ev. rewrite Ho, Hv. f_equal.
      apply wr_cong. assert (Q : eqm c (i32 (- ins_i (fright J))) (- ins_i (fright J))) by (rewrite Hc; apply (wr_eqm C32)).
      by rewrite Q, Z.add_opp_r.
Qed.

Lemma simplify_intadd_k64_sound :
  ins_o (fins J) = IR_ADD -> right_is J IR_KINT64 ->
  simplify_intadd_k64 J = Ok (x, J') -> post J c x J'.
Proof using P.
  intros Ho Hr E. destruct (right_kint64 J c P Hr) as (H2 & R2 & V2). unfold simplify_intadd_k64, ir_kint64 in E.
  fr E. destruct fins_bin as (F1 & F2 & Hi & Ht & V); [by rewrite Ho|].
  destruct (Z.eqb_spec (ir_k64 J (fright J)) 0) as [E0|]; [|next].
  injection E as <- <-. apply post_fref_val; try done. intros rho C.
  rewrite (V2 rho C), E0. ev. rewrite Ho, Z.add_0_r. cbn [passes]. rewrite wr_id; [done|]. by apply V.
Qed.

Lemma simplify_intsub_k64_sound :
  ins_o (fins J) = IR_SUB -> right_is J IR_KINT64 ->
  simplify_intsub_k64 J = Ok (x, J') -> room J' -> post J c x J'.
Proof using P.
  intros Ho Hr E R. destruct (right_kint64 J c P Hr) as (H2 & R2 & V2). unfold simplify_intsub_k64, ir_kint64 in E.
  fr E. destruct fins_bin as (F1 & F2 & Hi & Ht & V); [by rewrite Ho|]. assert (Hc : c = C64) by congruence.
  destruct (Z.eqb_spec (ir_k64 J (fright J)) 0) as [E0|].
  - injection E as <- <-. apply post_fref_val; try done. intros rho C.
    rewrite (V2 rho C), E0. ev. rewrite Ho, Z.sub_0_r. cbn [passes]. rewrite wr_id; [done|]. by apply V.
  - destruct (lj_ir_kint64 _ _) as [r J1] eqn:Ek. injection E as <- <-.
    rewrite (kint64_fins _ _ _ _ Ek). eapply retry_kint64; [exact Ek|done|auto with width|..|].
    + intros K X Hr'. apply ok_bin; try done; [by apply opcls_grow|by rewrite Hc].
    + rok.
    + intros rho C Hv. rewrite (V2 rho C). ev. rewrite Ho, Hv. f_equal.
      apply wr_cong. assert (Q : eqm c (u64 (- ir_k64 J (fright J))) (- ir_k64 J (fright J))) by (rewrite Hc; apply (wr_eqm C64)).
      by rewrite Q, Z.add_opp_r.
Qed.

(** Multiplication by a constant that is a power of two becomes a shift. *)
Lemma simplify_intmul_k__sound k :
  ins_o (fins J) = IR_MUL -> 0 <= k < 2 ^ 31 ->
  (forall rho, consistent J rho -> rho (op2 (fins J)) = k) ->
  simplify_intmul_k_ J k = Ok (x, J') -> room J' -> post J c x J'.
Proof using P.
  intros Ho Hk V2 E R. unfold simplify_intmul_k_ in E. fr E.
  destruct fins_bin as (F1 & F2 & Hi & Ht & V); [by rewrite Ho|].
  destruct (Z.eqb_spec k 0) as [E0|].
  { injection E as <- <-. apply post_fref_val; try done. intros rho C.
    ev. rewrite Ho, (V2 rho C), E0, Z.mul_0_r. cbn [passes]. rewrite (V2 rho C), E0. by destruct c. }
  destruct (Z.eqb_spec k 1) as [E1|].
  { injection E as <- <-. apply post_fref_val; try done. intros rho C.
    ev. rewrite Ho, (V2 rho C), E1, Z.mul_1_r. cbn [passes]. rewrite wr_id; [done|]. by apply V. }
  destruct (Z.eqb_spec (k .& (k - 1)) 0) as [E2|]; [|next].
  destruct (lj_ir_kint _ _) as [r J1] eqn:Ek. injection E as <- <-.
  rewrite (kint_fins _ _ _ _ Ek). rewrite u32_id in Ek by (widths; lia).
  apply pow2_test in E2; [|lia]. unfold lj_fls in Ek.
  assert (Hl : 0 <= Z.log2 k < 31).
  { split; [apply Z.log2_nonneg|]. apply Z.log2_lt_pow2; lia. }
  eapply retry_kint; [exact Ek|done|widths; lia|..|].
  - intros K X Hr'. apply ok_shift; try done. by apply opcls_grow.
  - rok.
  - intros rho C Hv. ev. rewrite Ho, Hv, (V2 rho C). f_equal. f_equal.
    rewrite Z.mod_small by (destruct c; simpl; lia). rewrite Z.shiftl_mul_pow2 by lia. by rewrite <- E2.
Qed.

Lemma simplify_intmul_k32_sound :
  ins_o (fins J) = IR_MUL -> right_is J IR_KINT ->
  simplify_intmul_k32 J = Ok (x, J') -> room J' -> post J c x J'.
Proof using P.
  intros Ho Hr E R. destruct (right_kint J c P Hr) as (H2 & R2 & V2). unfold simplify_intmul_k32 in E. fr E.
  destruct (Z.leb_spec 0 (ins_i (fright J))); [|next].
  eapply simplify_intmul_k__sound; eauto. widths. lia.
Qed.

Lemma simplify_intmul_k64_sound :
  ins_o (fins J) = IR_MUL -> right_is J IR_KINT64 ->
  simplify_intmul_k64 J = Ok (x, J') -> room J' -> post J c x J'.
Proof using P.
  intros Ho Hr E R. destruct (right_kint64 J c P Hr) as (H2 & R2 & V2).
  unfold simplify_intmul_k64, ir_kint64 in E. fr E.
  destruct (Z.ltb_spec (ir_k64 J (fright J)) 0x80000000); [|next].
  rewrite i32_id in E by (widths; lia).
  eapply simplify_intmul_k__sound; eauto. widths. lia.
Qed.

Lemma simplify_intmod_k_sound :
  ins_o (fins J) = IR_MOD -> right_is J IR_KINT ->
  simplify_intmod_k J = Ok (x, J') -> room J' -> post J c x J'.
Proof using P.
  intros Ho Hr E R. destruct (right_kint J c P Hr) as (H2 & R2 & V2). unfold simplify_intmod_k in E. fr E.
  destruct fins_bin as (F1 & F2 & Hi & Ht & V); [by rewrite Ho|]. assert (Hc : c = C32) by congruence.
  set (k := ins_i (fright J)) in *.
  destruct (Z.ltb_spec 0 k) as [Hk|]; cbn [andb] in E; [|next]. destruct (Z.eqb_spec (k .& (k - 1)) 0) as [E2|]; [|next].
  apply pow2_test in E2; [|done]. pose proof (Z.log2_nonneg k) as Hl.
  destruct (lj_ir_kint _ _) as [r J1] eqn:Ek. injection E as <- <-.
  rewrite (kint_fins _ _ _ _ Ek). eapply retry_kint; [exact Ek|done|widths; lia|..|].
  - intros K X Hr'. apply ok_bin; try done; [by apply opcls_grow|by rewrite Hc].
  - rok.
  - intros rho C Hv. rewrite (V2 rho C). ev. rewrite Ho, Hv, Hc. rewrite (proj2 (Z.eqb_neq k 0)) by lia.
    f_equal. rewrite E2, land_ones_mod by done. rewrite <- E2. apply i32_id.
    pose proof (Z.mod_pos_bound (rho (op1 (fins J))) k). widths. lia.
Qed.

Lemma simplify_intmod_kleft_sound :
  ins_o (fins J) = IR_MOD -> left_is J IR_KINT ->
  simplify_intmod_kleft J = Ok (x, J') -> post J c x J'.
Proof using P.
  intros Ho Hr E. destruct (left_kint J c P Hr) as (H2 & R2 & V2). unfold simplify_intmod_kleft in E. fr E.
  destruct fins_bin as (F1 & F2 & Hi & Ht & V); [by rewrite Ho|]. assert (Hc : c = C32) by congruence.
  destruct (Z.eqb_spec (ins_i (fleft J)) 0) as [E0|]; [|next].
  injection E as <- <-. apply post_kint; rewrite ?Ho; try done.
  intros rho ref C Hv. rewrite (V2 rho C), E0, Hc. ev. rewrite Ho.
  destruct (_ =? 0); [done|]. by rewrite Zmod_0_l.
Qed.

Lemma simplify_intsub_kleft_sound :
  ins_o (fins J) = IR_SUB -> left_is J IR_KINT \/ left_is J IR_KINT64 ->
  simplify_intsub_kleft J = Ok (x, J') -> post J c x J'.
Proof using P.
  intros Ho Hl E. destruct fins_bin as (F1 & F2 & Hi & Ht & V); [by rewrite Ho|].
  unfold simplify_intsub_kleft in E. fr E.
  assert (V1 : (if op_eqb (ins_o (fleft J)) IR_KINT then ins_i (fleft J) =? 0 else ir_kint64 J (fleft J) =? 0) = true ->
    forall rho, consistent J rho -> rho (op1 (fins J)) = 0).
  { intros H rho C. destruct Hl as [Hl|Hl].
    - rewrite Hl in H. apply Z.eqb_eq in H. by rewrite (proj2 (proj2 (left_kint J c P Hl)) rho C).
    - rewrite Hl in H. apply Z.eqb_eq in H. by rewrite (proj2 (proj2 (left_kint64 J c P Hl)) rho C). }
  destruct (if op_eqb _ _ then _ else _); [|next]. injection E as <- <-.
  apply post_retry; [done|by apply ok_un|rok|]. intros rho C. ev. rewrite Ho, V1 by done. f_equal.
Qed.

(** ** Cancellation *)

Lemma is64_cls t : int_cls (cls_of t) = true ->
  irt_is64 t = bool_decide (cls_of t = C64) /\ irt_isnum t = false.
Proof.
  unfold cls_of, irt_is64, irt_isnum. assert (Hy : 0 <= irt_type t < 32).
  { unfold irt_type. change IRT_TYPE with (2 ^ 5 - 1). rewrite land_ones_mod by done. by apply Z.mod_pos_bound. }
  pose proof (forall_below 32 (fun y => implb (int_cls (type_cls y))
    (Bool.eqb (Z.testbit IRT_IS64 y) (bool_decide (type_cls y = C64)) && negb (y =? IRT_NUM))) eq_refl _ Hy) as H.
  cbv beta in H. intros Hi. rewrite Hi in H. cbn [implb] in H.
  apply andb_true_iff in H as [H1%eqb_prop H2%negb_true_iff]. done.
Qed.

(** The zero constant of the class of the instruction. *)
Lemma post_zero : is_val (ins_o (fins J)) = true -> int_cls c = true -> cls_of (ins_t (fins J)) = c ->
  (forall rho, consistent J rho ->
    eval_op c (fins J) (rho (op1 (fins J))) (rho (op2 (fins J))) = Val 0) ->
  (if irt_is64 (ins_t (fins J)) then INT64FOLD J 0 else INTFOLD J 0) = Ok (x, J') -> room J' -> post J c x J'.
Proof using P.
  intros Hv Hi Ht H E R. destruct (is64_cls (ins_t (fins J))) as [Hw _]; [by rewrite Ht|].
  rewrite Hw in E. case_bool_decide as Hc; rewrite Ht in Hc.
  - eapply post_int64; eauto. done.
  - injection E as <- <-. apply post_kint; try done; [by destruct c|]. intros rho ref C Hr. by rewrite (H rho C).
Qed.

Lemma simplify_intsub_sound :
  ins_o (fins J) = IR_SUB \/ ins_o (fins J) = IR_SUBOV ->
  simplify_intsub J = Ok (x, J') -> room J' -> post J c x J'.
Proof using P.
  intros Ho E R. unfold simplify_intsub in E. fr E. pose proof (fins_inv J c P) as F.
  destruct (Z.eqb_spec (op1 (fins J)) (op2 (fins J))) as [E0|]; cbn [andb] in E; [|next].
  assert (Ht : cls_of (ins_t (fins J)) = c) by (apply (pre_cls J c P); by destruct Ho as [-> | ->]).
  assert (Hi : int_cls c = true).
  { destruct Ho as [Ho|Ho]; rewrite Ho in F; simpl in F; [tauto|by destruct F as (_ & _ & ->)]. }
  destruct (is64_cls (ins_t (fins J))) as [_ Hn]; [by rewrite Ht|]. rewrite Hn in E. cbn [negb] in E.
  apply post_zero; try done; [by destruct Ho as [-> | ->]|].
  intros rho C. rewrite E0. ev. destruct Ho as [-> | ->]; rewrite Z.sub_diag; [by destruct c|done].
Qed.

Lemma notnum : int_cls c = true -> cls_of (ins_t (fins J)) = c -> irt_isnum (ins_t (fins J)) = false.
Proof using. intros Hi Ht. by destruct (is64_cls (ins_t (fins J))); [rewrite Ht|]. Qed.

Lemma simplify_intsubadd_leftcancel_sound :
  ins_o (fins J) = IR_SUB -> left_is J IR_ADD ->
  simplify_intsubadd_leftcancel J = Ok (x, J') -> post J c x J'.
Proof using P.
  intros Ho Hl E. destruct fins_bin as (F1 & F2 & Hi & Ht & V); [by rewrite Ho|].
  destruct (left_bin _ Hl eq_refl F1 Hi) as (L1 & L2 & W). unfold simplify_intsubadd_leftcancel in E. fr E.
  rewrite notnum in E by done. cbn [negb] in E. destruct (irt_isphi _); [next|].
  destruct (Z.eqb_spec (op2 (fins J)) (op1 (fleft J))) as [E1|];
    [|destruct (Z.eqb_spec (op2 (fins J)) (op2 (fleft J))) as [E1|]; [|next]];
    injection E as <- <-; (apply post_fref_val; [done..|]); intros rho C; destruct (W rho C) as (R1 & R2 & Q);
    revert Q; ev; rewrite Ho, Hl, E1; cbn [passes]; intros ->; symmetry.
  - rewrite <- (wr_id c (rho (op2 (fleft J)))) at 2 by done. weq.
  - rewrite <- (wr_id c (rho (op1 (fleft J)))) at 2 by done. weq.
Qed.

Lemma simplify_intsubsub_leftcancel_sound :
  ins_o (fins J) = IR_SUB -> left_is J IR_SUB -> c = C32 ->
  simplify_intsubsub_leftcancel J = Ok (x, J') -> room J' -> post J c x J'.
Proof using P.
  intros Ho Hl Hc E R. destruct fins_bin as (F1 & F2 & Hi & Ht & V); [by rewrite Ho|].
  destruct (left_bin _ Hl eq_refl F1 Hi) as (L1 & L2 & W). unfold simplify_intsubsub_leftcancel in E. fr E.
  rewrite notnum in E by done. cbn [negb] in E. destruct (irt_isphi _); [next|].
  destruct (Z.eqb_spec (op2 (fins J)) (op1 (fleft J))) as [E1|]; [|next].
  destruct (lj_ir_kint J 0) as [r J1] eqn:Ek. injection E as <- <-. rewrite (kint_fins _ _ _ _ Ek).
  rewrite <- (set_fins_id J) in Ek. eapply retry_kint; [exact Ek|done|done|..|].
  - intros K X Hr. apply ok_bin; try done; [by simpl; rewrite Ho|by rewrite Hc|by apply opcls_grow].
  - rok.
  - intros rho C Hv. destruct (W rho C) as (_ & _ & Q). revert Q. ev. rewrite Ho, Hl, Hv, E1.
    cbn [passes]. intros ->. f_equal. weq.
Qed.

Lemma simplify_intsubsub_rightcancel_sound :
  ins_o (fins J) = IR_SUB -> right_is J IR_SUB ->
  simplify_intsubsub_rightcancel J = Ok (x, J') -> post J c x J'.
Proof using P.
  intros Ho Hr E. destruct fins_bin as (F1 & F2 & Hi & Ht & V); [by rewrite Ho|].
  destruct (right_bin _ Hr eq_refl F2 Hi) as (L1 & L2 & W). unfold simplify_intsubsub_rightcancel in E. fr E.
  rewrite notnum in E by done. cbn [negb] in E. destruct (irt_isphi _); [next|].
  destruct (Z.eqb_spec (op1 (fins J)) (op1 (fright J))) as [E1|]; [|next].
  injection E as <- <-. apply post_fref_val; [done..|]. intros rho C. destruct (W rho C) as (R1 & R2 & Q).
  revert Q. ev. rewrite Ho, (proj2 Hr), E1. cbn [passes]. intros ->. symmetry.
  rewrite <- (wr_id c (rho (op2 (fright J)))) at 2 by done. weq.
Qed.

Lemma simplify_intsubadd_rightcancel_sound :
  ins_o (fins J) = IR_SUB -> right_is J IR_ADD -> c = C32 ->
  simplify_intsubadd_rightcancel J = Ok (x, J') -> room J' -> post J c x J'.
Proof using P.
  intros Ho Hr Hc E R. destruct fins_bin as (F1 & F2 & Hi & Ht & V); [by rewrite Ho|].
  destruct (right_bin _ Hr eq_refl F2 Hi) as (L1 & L2 & W). unfold simplify_intsubadd_rightcancel in E. fr E.
  rewrite notnum in E by done. cbn [negb] in E. destruct (irt_isphi _); [next|].
  destruct (Z.eqb_spec (op1 (fins J)) (op1 (fright J))) as [E1|];
    [|destruct (Z.eqb_spec (op1 (fins J)) (op2 (fright J))) as [E1|]; [|next]];
    (destruct (lj_ir_kint _ 0) as [r J1] eqn:Ek; injection E as <- <-; rewrite (kint_fins _ _ _ _ Ek);
     eapply retry_kint; [exact Ek|done|done|..|];
     [intros K X Hr'; apply ok_bin; try done; [by simpl; rewrite Ho|by rewrite Hc|by apply opcls_grow]|rok|]);
    intros rho C Hv; destruct (W rho C) as (_ & _ & Q); revert Q; ev; rewrite Ho, (proj2 Hr), Hv, E1;
    cbn [passes]; intros ->; f_equal; weq.
Qed.

Lemma simplify_intsubaddadd_cancel_sound :
  ins_o (fins J) = IR_SUB -> left_is J IR_ADD -> right_is J IR_ADD ->
  simplify_intsubaddadd_cancel J = Ok (x, J') -> post J c x J'.
Proof using P.
  intros Ho Hl Hr E. destruct fins_bin as (F1 & F2 & Hi & Ht & V); [by rewrite Ho|].
  destruct (left_bin _ Hl eq_refl F1 Hi) as (L1 & L2 & W1).
  destruct (right_bin _ Hr eq_refl F2 Hi) as (L3 & L4 & W2). unfold simplify_intsubaddadd_cancel in E. fr E.
  rewrite notnum in E by done. cbn [negb] in E. destruct (irt_isphi _); [next|]. destruct (irt_isphi _); [next|].
  assert (G : forall a b, opcls J a = c -> opcls J b = c ->
    (forall rho, consistent J rho -> wr c (rho a - rho b) = wr c (rho (op1 (fins J)) - rho (op2 (fins J)))) ->
    post J c RETRYFOLD (set_fins J (set_op2 (set_op1 (fins J) a) b))).
  { intros a b Ha Hb H. apply post_retry; [done|apply ok_bin; [simpl; by rewrite Ho|done..]|rok|].
    intros rho C. ev. rewrite Ho. by rewrite (H rho C). }
  assert (W : forall rho, consistent J rho ->
    rho (op1 (fins J)) = wr c (rho (op1 (fleft J)) + rho (op2 (fleft J))) /\
    rho (op2 (fins J)) = wr c (rho (op1 (fright J)) + rho (op2 (fright J)))).
  { intros rho C. destruct (W1 rho C) as (_ & _ & Q1), (W2 rho C) as (_ & _ & Q2). revert Q1 Q2. ev.
    by rewrite Hl, (proj2 Hr). }
  destruct (Z.eqb_spec (op1 (fleft J)) (op1 (fright J))) as [E1|]; [|destruct (Z.eqb_spec (op1 (fleft J)) (op2 (fright J))) as [E1|];
    [|destruct (Z.eqb_spec (op2 (fleft J)) (op1 (fright J))) as [E1|];
    [|destruct (Z.eqb_spec (op2 (fleft J)) (op2 (fright J))) as [E1|]; [|next]]]];
    injection E as <- <-; (apply G; [done..|]); intros rho C; destruct (W rho C) as [-> ->]; rewrite E1; weq.
Qed.

(** ** Bit operations with a constant *)

Lemma right_kval : right_is J IR_KINT \/ right_is J IR_KINT64 -> opcls J (op2 (fins J)) = c ->
  forall rho, consistent J rho -> eqm c (rho (op2 (fins J))) (kval64 J (fright J)).
Proof using P.
  intros [Hr|Hr] Hc rho C; unfold kval64; rewrite (proj2 Hr); cbn [op_eqb].
  - destruct (right_kint J c P Hr) as (H2 & R2 & V2). by rewrite (V2 rho C).
  - destruct (right_kint64 J c P Hr) as (H2 & R2 & V2). rewrite (V2 rho C).
    assert (c = C64) as -> by congruence. symmetry. apply (sg_eqm C64).
Qed.

Lemma left_kval : left_is J IR_KINT \/ left_is J IR_KINT64 -> opcls J (op1 (fins J)) = c ->
  forall rho, consistent J rho -> eqm c (rho (op1 (fins J))) (kval64 J (fleft J)).
Proof using P.
  intros [Hr|Hr] Hc rho C; unfold kval64; rewrite Hr; cbn [op_eqb].
  - destruct (left_kint J c P Hr) as (H2 & R2 & V2). by rewrite (V2 rho C).
  - destruct (left_kint64 J c P Hr) as (H2 & R2 & V2). rewrite (V2 rho C).
    assert (c = C64) as -> by congruence. symmetry. apply (sg_eqm C64).
Qed.

(** [wr c a] is the operand [v] it is congruent to. *)
Lemma wr_is a v : in_cls c v -> eqm c a v -> v = wr c a.
Proof using. intros Hv H. rewrite <- (wr_id c v) by done. apply wr_cong. by symmetry. Qed.

Lemma simplify_band_k_sound :
  ins_o (fins J) = IR_BAND -> right_is J IR_KINT \/ right_is J IR_KINT64 ->
  simplify_band_k J = Ok (x, J') -> post J c x J'.
Proof using P.
  intros Ho Hr E. destruct fins_bin as (F1 & F2 & Hi & Ht & V); [by rewrite Ho|].
  pose proof (right_kval Hr F2) as K. unfold simplify_band_k in E. fr E.
  destruct (Z.eqb_spec (kval64 J (fright J)) 0) as [E0|];
    [|destruct (Z.eqb_spec (kval64 J (fright J)) (-1)) as [E0|]; [|next]];
    injection E as <- <-; (apply post_fref_val; [done..|]); intros rho C; ev; rewrite Ho; cbn [passes];
    apply wr_is; try apply (V rho C); rewrite (K rho C), E0.
  - by rewrite Z.land_0_r.
  - by rewrite Z.land_m1_r.
Qed.

Lemma simplify_bor_k_sound :
  ins_o (fins J) = IR_BOR -> right_is J IR_KINT \/ right_is J IR_KINT64 ->
  simplify_bor_k J = Ok (x, J') -> post J c x J'.
Proof using P.
  intros Ho Hr E. destruct fins_bin as (F1 & F2 & Hi & Ht & V); [by rewrite Ho|].
  pose proof (right_kval Hr F2) as K. unfold simplify_bor_k in E. fr E.
  destruct (Z.eqb_spec (kval64 J (fright J)) 0) as [E0|];
    [|destruct (Z.eqb_spec (kval64 J (fright J)) (-1)) as [E0|]; [|next]];
    injection E as <- <-; (apply post_fref_val; [done..|]); intros rho C; ev; rewrite Ho; cbn [passes];
    apply wr_is; try apply (V rho C); rewrite (K rho C), E0.
  - by rewrite Z.lor_0_r.
  - by rewrite Z.lor_m1_r.
Qed.

Lemma simplify_bxor_k_sound :
  ins_o (fins J) = IR_BXOR -> right_is J IR_KINT \/ right_is J IR_KINT64 ->
  simplify_bxor_k J = Ok (x, J') -> post J c x J'.
Proof using P.
  intros Ho Hr E. destruct fins_bin as (F1 & F2 & Hi & Ht & V); [by rewrite Ho|].
  pose proof (right_kval Hr F2) as K. unfold simplify_bxor_k in E. fr E.
  destruct (Z.eqb_spec (kval64 J (fright J)) 0) as [E0|];
    [|destruct (Z.eqb_spec (kval64 J (fright J)) (-1)) as [E0|]; [|next]]; injection E as <- <-.
  - apply post_fref_val; [done..|]. intros rho C. ev. rewrite Ho. cbn [passes].
    apply wr_is; [apply (V rho C)|]. by rewrite (K rho C), E0, Z.lxor_0_r.
  - apply post_retry; [done|by apply ok_un|rok|]. intros rho C. ev. rewrite Ho. f_equal.
    apply wr_cong. by rewrite (K rho C), E0, Z.lxor_m1_r.
Qed.

(** ** Shifts *)

Definition shop (o : IROp) (a sh : Z) : Z :=
  match o with
  | IR_BSHL => a << sh
  | IR_BSHR => un c a >> sh
  | IR_BSAR => sg c a >> sh
  | IR_BROL => lj_rol (bits c) (un c a) sh
  | _ => lj_ror (bits c) (un c a) sh
  end.

Lemma eval_shift ins a b : kind (ins_o ins) = Kshift ->
  eval_op c ins a b = Val (wr c (shop (ins_o ins) a (b mod bits c))).
Proof using. clear P. intros Hk. unfold eval_op. by destruct (ins_o ins). Qed.

Lemma land_mask k : int_cls c = true -> cls_of (ins_t (fins J)) = c -> k .& shift_mask (ins_t (fins J)) = k mod bits c.
Proof using.
  clear P. intros Hi Ht. unfold shift_mask. destruct (is64_cls (ins_t (fins J))) as [-> _]; [by rewrite Ht|].
  rewrite Ht. destruct c; try done; case_bool_decide; try done; [apply land_31|apply land_63].
Qed.

Lemma bits_pow : exists k, 0 <= k /\ bits c = 2 ^ k.
Proof using. clear P. destruct c; [by exists 5|by exists 6|by exists 5|by exists 5]. Qed.

Lemma rot_0 w a : 0 <= a < 2 ^ w -> lj_rol w a 0 = a /\ lj_ror w a 0 = a.
Proof using.
  intros Ha. unfold lj_rol, lj_ror. change (- 0) with 0. rewrite Z.land_0_l, Z.shiftl_0_r, Z.shiftr_0_r.
  rewrite Z.mod_small by done. by rewrite Z.lor_diag.
Qed.

Lemma shop_0 o a : eqm c (shop o a 0) a.
Proof using.
  clear P. destruct (rot_0 (bits c) (un c a)) as [H1 H2]; [apply un_range|].
  destruct o; simpl; rewrite ?H1, ?H2, ?Z.shiftr_0_r, ?Z.shiftl_0_r; try apply un_eqm; try apply sg_eqm; done.
Qed.

Lemma shop_cong o a a' b : 0 <= b -> eqm c a a' -> eqm c (shop o a b) (shop o a' b).
Proof using.
  clear P. intros Hb H. pose proof (un_cong c a a' H) as Hu. pose proof (sg_cong c a a' H) as Hs.
  destruct o; cbn [shop]; rewrite ?Hu, ?Hs; try done. by apply eqm_shiftl.
Qed.

Context `{T : Target}.

Lemma simplify_shift_ik_sound :
  kind (ins_o (fins J)) = Kshift -> right_is J IR_KINT ->
  simplify_shift_ik J = Ok (x, J') -> room J' -> post J c x J'.
Proof using P.
  intros Ho Hr E R. destruct fins_shift as (F1 & F2 & Hi & Ht & V); [done|].
  destruct (right_kint J c P Hr) as (H2 & R2 & V2). unfold simplify_shift_ik in E. fr E.
  rewrite !land_mask in E by done. set (i := ins_i (fright J)) in *.
  assert (Hb : 0 <= i mod bits c < bits c) by apply Z.mod_pos_bound, bits_pos.
  assert (Hlt : forall k, 0 <= k < bits c -> is_i32 k) by (clear; intros; destruct c; simpl in *; widths; lia).
  destruct (Z.eqb_spec (i mod bits c) 0) as [E0|].
  { injection E as <- <-. apply post_fref_val; try done. intros rho C. rewrite (V2 rho C), eval_shift by done.
    cbn [passes]. apply wr_is; [apply (V rho C)|]. fold i. rewrite E0. apply shop_0. }
  destruct ((i mod bits c =? 1) && op_eqb (ins_o (fins J)) IR_BSHL) eqn:E1.
  { apply andb_true_iff in E1 as [E1%Z.eqb_eq Eo%op_eqb_eq]. injection E as <- <-.
    apply post_retry; [done|by apply ok_bin|rok|].
    intros rho C. rewrite (V2 rho C), (eval_shift (fins J)) by done. ev. rewrite Eo. fold i. rewrite E1. cbn [shop].
    rewrite Z.shiftl_mul_pow2 by done. f_equal. weq. }
  destruct (Z.eqb_spec (i mod bits c) i) as [E2|]; cbn [negb] in E.
  - destruct (negb LJ_TARGET_UNIFYROT && op_eqb (ins_o (fins J)) IR_BROR) eqn:E3; [|next].
    apply andb_true_iff in E3 as [_ Eo%op_eqb_eq].
    destruct (lj_ir_kint _ _) as [r J1] eqn:Ek. injection E as <- <-. rewrite (kint_fins _ _ _ _ Ek).
    assert (Hm : 0 <= (- (i mod bits c)) mod bits c < bits c) by apply Z.mod_pos_bound, bits_pos.
    eapply retry_kint; [exact Ek|done|by apply Hlt|..|].
    + intros K X Hr'. apply ok_shift; try done. by apply opcls_grow.
    + rok.
    + intros rho C Hv. rewrite (V2 rho C), !eval_shift by done. cbn [ins_o set_o set_op2 op1 op2].
      rewrite Eo, Hv. cbn [shop]. fold i. rewrite (Z.mod_small ((- _) mod _)) by done.
      destruct bits_pow as (w & Hw & Ew). rewrite (ror_as_rol (bits c) w) by (done || apply un_range).
      f_equal. f_equal. f_equal. rewrite Ew. by rewrite land_ones_mod.
  - destruct (lj_ir_kint J _) as [r J1] eqn:Ek. injection E as <- <-. rewrite (kint_fins _ _ _ _ Ek).
    rewrite <- (set_fins_id J) in Ek. eapply retry_kint; [exact Ek|done|by apply Hlt|..|].
    + intros K X Hr'. apply ok_shift; try done. by apply opcls_grow.
    + rok.
    + intros rho C Hv. rewrite (V2 rho C), !eval_shift by done. cbn [ins_o set_o set_op2 op1 op2].
      rewrite Hv. fold i. by rewrite Z.mod_mod by (clear; by destruct c).
Qed.

(** An operand of an operand that is a 32-bit constant. *)
Lemma kint_at ref : op_eqb (ins_o (IR J ref)) IR_KINT = true ->
  opcls J ref = C32 /\ is_i32 (ins_i (IR J ref)) /\ forall rho, consistent J rho -> rho ref = ins_i (IR J ref).
Proof using P.
  unfold IR. intros H%op_eqb_eq. destruct (ir J !! ref) as [ins|] eqn:E; [|done].
  simpl in *. apply ref_kint; try done. apply P.
Qed.

Lemma kint64_at ref : op_eqb (ins_o (IR J ref)) IR_KINT64 = true ->
  opcls J ref = C64 /\ is_u64 (ir_k64 J (IR J ref)) /\
  forall rho, consistent J rho -> rho ref = ir_k64 J (IR J ref).
Proof using P.
  unfold IR. intros H%op_eqb_eq. destruct (ir J !! ref) as [ins|] eqn:E; [|done].
  simpl in *. apply ref_kint64; try done. apply P.
Qed.

Lemma simplify_shift_andk_sound :
  kind (ins_o (fins J)) = Kshift -> right_is J IR_BAND ->
  simplify_shift_andk J = Ok (x, J') -> post J c x J'.
Proof using P.
  intros Ho Hr E. destruct fins_shift as (F1 & F2 & Hi & Ht & V); [done|].
  unfold simplify_shift_andk in E. fr E. destruct (irt_isphi _); [next|].
  destruct (if irop_num _ <? _ then _ else _); cbn [andb] in E; [|next].
  destruct (op_eqb (ins_o (IR J (op2 (fright J)))) IR_KINT) eqn:Ek; [|next].
  destruct (kint_at _ Ek) as (K1 & K2 & K3).
  destruct (Z.eqb_spec (ins_i (IR J (op2 (fright J))) .& shift_mask (ins_t (fins J))) (shift_mask (ins_t (fins J)))) as [Em|]; [|next].
  injection E as <- <-. destruct Hr as [Hr1 Hr2].
  destruct (ref_op J _ _ C32 (pr_sem _ _ P) Hr1) as (Hres & _ & _ & W); try done; [by rewrite Hr2..|].
  pose proof (rescls_inv _ _ _ Hres) as F. rewrite Hr2 in F. destruct F as (L1 & L2 & _).
  apply post_retry; [done|by apply ok_shift|rok|]. intros rho C. rewrite !eval_shift by done.
  cbn [ins_o set_op2 op1 op2]. f_equal. f_equal. f_equal.
  specialize (W rho C). unfold eval_op in W. rewrite Hr2 in W. cbn [passes] in W.
  rewrite W, <- !land_mask by done.
  assert (Hy : is_i32 (rho (op1 (fright J)))) by by apply (opval_in J rho _ C32).
  rewrite (K3 rho C). cbn [wr]. rewrite land_i32, <- Z.land_assoc by done. by rewrite Em.
Qed.

Lemma simplify_shift1_ki_sound :
  ins_o (fins J) = IR_BSHL \/ ins_o (fins J) = IR_BSHR -> left_is J IR_KINT \/ left_is J IR_KINT64 ->
  simplify_shift1_ki J = Ok (x, J') -> post J c x J'.
Proof using P.
  intros Ho Hl E. assert (Hk : kind (ins_o (fins J)) = Kshift) by (by destruct Ho as [-> | ->]).
  destruct fins_shift as (F1 & F2 & Hi & Ht & V); [done|]. pose proof (left_kval Hl F1) as K.
  unfold simplify_shift1_ki in E. fr E. destruct (Z.eqb_spec (kval64 J (fleft J)) 0) as [E0|]; [|next].
  injection E as <- <-. apply post_fref_val; try done. intros rho C. rewrite eval_shift by done. cbn [passes].
  apply wr_is; [apply (V rho C)|]. specialize (K rho C). rewrite E0 in K.
  pose proof (Z.mod_pos_bound (rho (op2 (fins J))) (bits c) (bits_pos c)).
  rewrite (shop_cong (ins_o (fins J)) _ _ (rho (op2 (fins J)) mod bits c) ltac:(lia) K), K.
  destruct Ho as [-> | ->]; cbn [shop]; [by rewrite Z.shiftl_0_l|].
  assert (un c 0 = 0) as -> by by destruct c. by rewrite Z.shiftr_0_l.
Qed.

(** Shifting in copies of the sign and rotating keep 0 and -1. *)
Lemma shop_const o b v : o = IR_BSAR \/ o = IR_BROL \/ o = IR_BROR -> v = 0 \/ v = -1 ->
  int_cls c = true -> 0 <= b < bits c -> eqm c (shop o v b) v.
Proof using.
  clear P. intros Ho Hv Hi Hb. destruct bits_pow as (w & Hw & Ew).
  assert (Hall : forall n, 0 <= n < bits c -> Z.testbit (un c v) n = Z.testbit v 0).
  { intros n Hn. unfold un. rewrite mod_pow2_testbit by lia. rewrite (proj2 (Z.ltb_lt n _)) by lia.
    destruct Hv as [-> | ->]; [by rewrite !Z.bits_0|by rewrite !Z.bits_m1 by lia]. }
  assert (Hv0 : forall n, 0 <= n -> Z.testbit v n = Z.testbit v 0).
  { intros n Hn. destruct Hv as [-> | ->]; [by rewrite !Z.bits_0|by rewrite !Z.bits_m1 by lia]. }
  assert (Hm : forall n, 0 <= n mod bits c < bits c) by (intros; apply Z.mod_pos_bound, bits_pos).
  apply eqm_bits. intros n Hn. rewrite (Hv0 n) by lia. destruct Ho as [-> |[-> | ->]]; cbn [shop].
  - assert (sg c v = v) as -> by (destruct Hv as [-> | ->]; by destruct c).
    rewrite Z.shiftr_spec by lia. apply Hv0. lia.
  - rewrite (rol_testbit (bits c) w) by (done || apply un_range). by apply Hall.
  - rewrite (ror_testbit (bits c) w) by (done || apply un_range). by apply Hall.
Qed.

Lemma simplify_shift2_ki_sound :
  ins_o (fins J) = IR_BSAR \/ ins_o (fins J) = IR_BROL \/ ins_o (fins J) = IR_BROR ->
  left_is J IR_KINT \/ left_is J IR_KINT64 ->
  simplify_shift2_ki J = Ok (x, J') -> post J c x J'.
Proof using P.
  intros Ho Hl E. assert (Hk : kind (ins_o (fins J)) = Kshift) by (by destruct Ho as [-> |[-> | ->]]).
  destruct fins_shift as (F1 & F2 & Hi & Ht & V); [done|]. pose proof (left_kval Hl F1) as K.
  unfold simplify_shift2_ki in E. fr E. destruct (_ || _) eqn:E0; [|next].
  assert (Hv : kval64 J (fleft J) = 0 \/ kval64 J (fleft J) = -1) by lia.
  injection E as <- <-. apply post_fref_val; try done. intros rho C. rewrite eval_shift by done. cbn [passes].
  apply wr_is; [apply (V rho C)|]. specialize (K rho C).
  pose proof (Z.mod_pos_bound (rho (op2 (fins J))) (bits c) (bits_pos c)) as Hb.
  rewrite (shop_cong (ins_o (fins J)) _ _ (rho (op2 (fins J)) mod bits c) ltac:(lia) K), K.
  by apply shop_const.
Qed.

Lemma intop_shift a b o : kind o = Kshift -> c = C32 -> is_i32 a ->
  kfold_intop a b o = wr c (shop o a (b mod bits c)).
Proof using.
  clear P. intros Hk Hc Ha. unfold shop. rewrite Hc. destruct o; try done; simpl; rewrite land_31; try done.
  assert (0 <= b mod 32) by (clear; wsolve). rewrite (i32_id a) by done. by rewrite i32_id by by apply shiftr_i32.
Qed.

Lemma simplify_andk_shiftk_sound :
  ins_o (fins J) = IR_BAND -> left_is J IR_BSHL \/ left_is J IR_BSHR -> right_is J IR_KINT ->
  simplify_andk_shiftk J = Ok (x, J') -> post J c x J'.
Proof using P.
  intros Ho Hl Hr E. destruct fins_bin as (F1 & F2 & Hi & Ht & V); [by rewrite Ho|].
  destruct (right_kint J c P Hr) as (H2 & R2 & V2). assert (Hc : c = C32) by congruence.
  unfold simplify_andk_shiftk in E. fr E.
  destruct (op_eqb (ins_o (IR J (op2 (fleft J)))) IR_KINT) eqn:Ek; cbn [andb] in E; [|next].
  destruct (kint_at _ Ek) as (K1 & K2 & K3). set (n := ins_i (IR J (op2 (fleft J)))) in *.
  destruct (Z.eqb_spec (kfold_intop (-1) n (ins_o (fleft J))) (ins_i (fright J))) as [E0|]; [|next].
  injection E as <- <-.
  assert (Hk : kind (ins_o (fleft J)) = Kshift) by (by destruct Hl as [-> | ->]).
  destruct (left_shift (ins_o (fleft J)) eq_refl Hk F1 Hi) as (L1 & L2 & W).
  apply post_fref_val; try done. intros rho C. destruct (W rho C) as [R1 Q].
  rewrite eval_shift, (K3 rho C) in Q by done. cbn [passes] in Q. fold n in Q.
  rewrite intop_shift in E0 by done. ev. rewrite Ho. cbn [passes].
  apply wr_is; [apply (V rho C)|]. rewrite (V2 rho C), <- E0, Q, !wr_eqm.
  assert (Hb : 0 <= n mod bits c < bits c) by apply Z.mod_pos_bound, bits_pos.
  apply eqm_bits. intros i Hin. unfold un. destruct Hl as [-> | ->]; cbn [shop]; tbits.
  - destruct (Z.lt_ge_cases i (n mod bits c)); [by rewrite !Z.testbit_neg_r by lia|].
    by rewrite Z.bits_m1, andb_true_r by lia.
  - unfold un. rewrite !mod_pow2_testbit by lia. rewrite Z.bits_m1 by lia.
    by destruct (_ <? _), (Z.testbit _ _).
Qed.

(** ** Reassociation *)

Definition assoc_op (o : IROp) (a b : Z) : Z :=
  match o with
  | IR_ADD => a + b | IR_MUL => a * b | IR_BAND => a .& b | IR_BOR => a .| b | _ => a .^ b
  end.
Definition is_assoc (o : IROp) : bool :=
  match o with IR_ADD | IR_MUL | IR_BAND | IR_BOR | IR_BXOR => true | _ => false end.

#[export] Instance assoc_op_eqm o : Proper (eqm c ==> eqm c ==> eqm c) (assoc_op o).
Proof using. clear P. intros a a' Ha b b' Hb. destruct o; cbn [assoc_op]; by rewrite Ha, Hb. Qed.

Lemma assoc_op_assoc o a b k : assoc_op o (assoc_op o a b) k = assoc_op o a (assoc_op o b k).
Proof using.
  destruct o; cbn [assoc_op]; rewrite ?Z.lxor_assoc; try done;
    [by rewrite Z.land_assoc|by rewrite Z.lor_assoc|by rewrite Z.add_assoc|by rewrite Z.mul_assoc].
Qed.

Lemma eval_assoc ins a b : is_assoc (ins_o ins) = true ->
  eval_op c ins a b = Val (wr c (assoc_op (ins_o ins) a b)).
Proof using. clear P. intros Ho. unfold eval_op. by destruct (ins_o ins). Qed.

Lemma intop_assoc a b o : is_assoc o = true -> is_i32 a -> is_i32 b ->
  kfold_intop a b o = i32 (assoc_op o a b).
Proof using.
  intros Ho Ha Hb. destruct o; try done; cbn [kfold_intop assoc_op];
    [by rewrite land_i32|by rewrite lor_i32|by rewrite lxor_i32].
Qed.

Lemma int64_assoc a b o : is_assoc o = true -> is_u64 a -> is_u64 b ->
  kfold_int64arith_ a b o = u64 (assoc_op o a b).
Proof using.
  intros Ho Ha Hb. destruct o; try done; cbn [kfold_int64arith_ assoc_op];
    [by rewrite land_u64|by rewrite lor_u64|by rewrite lxor_u64].
Qed.

Lemma assoc_bin o : is_assoc o = true -> kind o = Kbin.
Proof using. by destruct o. Qed.

(** [(i o k1) o k2 ==> i o (k1 o k2)] *)
Lemma reassoc_val k rho :
  is_assoc (ins_o (fins J)) = true -> consistent J rho ->
  rho (op1 (fins J)) = wr c (assoc_op (ins_o (fins J)) (rho (op1 (fleft J))) (rho (op2 (fleft J)))) ->
  eqm c k (assoc_op (ins_o (fins J)) (rho (op2 (fleft J))) (rho (op2 (fins J)))) ->
  eval_op c (fins J) (rho (op1 (fins J))) (rho (op2 (fins J))) =
  Val (wr c (assoc_op (ins_o (fins J)) (rho (op1 (fleft J))) k)).
Proof using.
  clear P. intros Ho C Q Hk. rewrite eval_assoc by done. f_equal. apply wr_cong.
  by rewrite Q, wr_eqm, assoc_op_assoc, Hk.
Qed.

Lemma reassoc_intarith_k_sound :
  is_assoc (ins_o (fins J)) = true -> left_is J (ins_o (fins J)) -> right_is J IR_KINT ->
  reassoc_intarith_k J = Ok (x, J') -> room J' -> post J c x J'.
Proof using P.
  intros Ho Hl Hr E R. pose proof (assoc_bin _ Ho) as Hb.
  destruct fins_bin as (F1 & F2 & Hi & Ht & V); [done|].
  destruct (right_kint J c P Hr) as (H2 & R2 & V2). assert (Hc : c = C32) by congruence.
  destruct (left_bin _ Hl Hb F1 Hi) as (L1 & L2 & W). unfold reassoc_intarith_k in E. fr E.
  destruct (op_eqb (ins_o (IR J (op2 (fleft J)))) IR_KINT) eqn:Ek; [|next].
  destruct (kint_at _ Ek) as (K1 & K2 & K3). set (k1 := ins_i (IR J (op2 (fleft J)))) in *.
  set (k := kfold_intop k1 (ins_i (fright J)) (ins_o (fins J))) in *.
  assert (Hk : k = wr c (assoc_op (ins_o (fins J)) k1 (ins_i (fright J)))) by (rewrite Hc; by apply intop_assoc).
  assert (Q : forall rho, consistent J rho ->
    eval_op c (fins J) (rho (op1 (fins J))) (rho (op2 (fins J))) =
    Val (wr c (assoc_op (ins_o (fins J)) (rho (op1 (fleft J))) k)) /\
    rho (op1 (fins J)) = wr c (assoc_op (ins_o (fins J)) (rho (op1 (fleft J))) k1)).
  { intros rho C. destruct (W rho C) as (_ & _ & Q). rewrite eval_assoc, Hl in Q by (by rewrite Hl).
    split; [|by rewrite <- (K3 rho C)].
    apply reassoc_val; try done. by rewrite (K3 rho C), (V2 rho C), Hk, wr_eqm. }
  destruct (Z.eqb_spec k k1) as [E0|].
  { injection E as <- <-. apply post_fref_val; try done. intros rho C.
    destruct (Q rho C) as [-> Q2]. cbn [passes]. by rewrite Q2, E0. }
  destruct (irt_isphi _); [next|]. destruct (lj_ir_kint _ _) as [r J1] eqn:Er.
  injection E as <- <-. rewrite (kint_fins _ _ _ _ Er).
  eapply retry_kint; [exact Er|done|by apply intop_range|..|].
  - intros K X Hr'. apply ok_bin; try done; [by apply opcls_grow|by rewrite Hc].
  - rok.
  - intros rho C Hv. destruct (Q rho C) as [-> _]. by rewrite eval_assoc, <- Hv by done.
Qed.

Lemma reassoc_intarith_k64_sound :
  is_assoc (ins_o (fins J)) = true -> left_is J (ins_o (fins J)) -> right_is J IR_KINT64 ->
  reassoc_intarith_k64 J = Ok (x, J') -> room J' -> post J c x J'.
Proof using P.
  intros Ho Hl Hr E R. pose proof (assoc_bin _ Ho) as Hb.
  destruct fins_bin as (F1 & F2 & Hi & Ht & V); [done|].
  destruct (right_kint64 J c P Hr) as (H2 & R2 & V2). assert (Hc : c = C64) by congruence.
  destruct (left_bin _ Hl Hb F1 Hi) as (L1 & L2 & W). unfold reassoc_intarith_k64 in E. fr E.
  destruct (op_eqb (ins_o (IR J (op2 (fleft J)))) IR_KINT64) eqn:Ek; [|next].
  destruct (kint64_at _ Ek) as (K1 & K2 & K3). set (k1 := ir_k64 J (IR J (op2 (fleft J)))) in *.
  set (k := kfold_int64arith_ k1 (ir_k64 J (fright J)) (ins_o (fins J))) in *.
  assert (Hk : k = wr c (assoc_op (ins_o (fins J)) k1 (ir_k64 J (fright J)))) by (rewrite Hc; by apply int64_assoc).
  destruct (irt_isphi _); [next|]. destruct (lj_ir_kint64 _ _) as [r J1] eqn:Er.
  injection E as <- <-. rewrite (kint64_fins _ _ _ _ Er).
  eapply retry_kint64; [exact Er|done|rewrite Hk, Hc; auto with width|..|].
  - intros K X Hr'. apply ok_bin; try done; [by apply opcls_grow|by rewrite Hc].
  - rok.
  - intros rho C Hv. destruct (W rho C) as (_ & _ & Q). rewrite eval_assoc, Hl in Q by (by rewrite Hl).
    rewrite (reassoc_val k) by (done || by rewrite (K3 rho C), (V2 rho C), Hk, wr_eqm).
    by rewrite eval_assoc, <- Hv by done.
Qed.

Lemma ref_k32 ref ins : ir J !! ref = Some ins -> kind (ins_o ins) = K32 -> ins_o ins <> IR_ABC ->
  opcls J ref = C32 ->
  opcls J (op1 ins) = C32 /\ opcls J (op2 ins) = C32 /\
  forall rho, consistent J rho -> is_i32 (rho (op1 ins)) /\ is_i32 (rho (op2 ins)) /\
    passes rho (eval_op C32 ins (rho (op1 ins)) (rho (op2 ins))) ref.
Proof using P.
  intros H Hk Hn Hc. destruct (ref_op J _ _ C32 (pr_sem _ _ P) H) as (Hr & _ & _ & V); try done.
  { unfold iop. by rewrite Hk. } { intros E. by rewrite E in Hk. } { by rewrite Hk. }
  pose proof (rescls_inv _ _ _ Hr) as F. rewrite Hk in F. destruct F as (F1 & F2 & _).
  split_and!; try done. intros rho C.
  split_and!; [by apply (opval_in J _ _ C32)|by apply (opval_in J _ _ C32)|by apply V].
Qed.

Definition minmax (o : IROp) : bool := match o with IR_MIN | IR_MAX => true | _ => false end.

Lemma fins_minmax : minmax (ins_o (fins J)) = true ->
  opcls J (op1 (fins J)) = C32 /\ opcls J (op2 (fins J)) = C32 /\ c = C32 /\
  cls_of (ins_t (fins J)) = c /\
  forall rho, consistent J rho -> is_i32 (rho (op1 (fins J))) /\ is_i32 (rho (op2 (fins J))).
Proof using P.
  intros Ho. pose proof (fins_inv J c P) as F.
  assert (Hk : kind (ins_o (fins J)) = K32) by by destruct (ins_o (fins J)).
  rewrite Hk in F. destruct F as (F1 & F2 & Hc). split_and!; try done.
  - apply (pre_cls J c P). intros E. by rewrite E in Ho.
  - intros rho C. split; by apply (opval_in J _ _ C32).
Qed.

Lemma reassoc_dup_sound :
  ins_o (fins J) = IR_MIN \/ ins_o (fins J) = IR_MAX \/ ins_o (fins J) = IR_BAND \/ ins_o (fins J) = IR_BOR ->
  left_is J (ins_o (fins J)) -> reassoc_dup J = Ok (x, J') -> post J c x J'.
Proof using P.
  intros Ho Hl E. unfold reassoc_dup in E. fr E. destruct (_ || _) eqn:E0; [|next].
  assert (D : op2 (fins J) = op1 (fleft J) \/ op2 (fins J) = op2 (fleft J)) by lia. clear E0.
  injection E as <- <-. destruct (minmax (ins_o (fins J))) eqn:Em.
  - destruct fins_minmax as (F1 & F2 & Hc & _ & _); [done|].
    destruct (ref_k32 _ _ (pr_left _ _ P)) as (L1 & L2 & W); rewrite ?Hl; try done;
      [by destruct (ins_o (fins J))|by intros E; rewrite E in Em|].
    apply post_fref_val; [done|congruence|by rewrite Hc|]. intros rho C. destruct (W rho C) as (_ & _ & Q).
    revert Q. unfold left_is in Hl. unfold eval_op. rewrite Hl.
    destruct (ins_o (fins J)); try done; cbn [passes]; intros Q; destruct D as [-> | ->]; lia.
  - assert (Ha : is_assoc (ins_o (fins J)) = true) by by destruct Ho as [Ho|[Ho|[Ho|Ho]]]; rewrite Ho in *.
    destruct fins_bin as (F1 & F2 & Hi & Ht & V); [by apply assoc_bin|].
    destruct (left_bin _ Hl (assoc_bin _ Ha) F1 Hi) as (L1 & L2 & W).
    apply post_fref_val; try done. intros rho C. destruct (W rho C) as (_ & _ & Q).
    rewrite eval_assoc, Hl in Q by by rewrite Hl. rewrite eval_assoc by done. cbn [passes] in *.
    apply wr_is; [apply (V rho C)|]. rewrite Q, wr_eqm.
    destruct Ho as [Ho|[Ho|[Ho|Ho]]]; rewrite Ho in *; try done; cbn [assoc_op]; destruct D as [-> | ->].
    + by rewrite (Z.land_comm (rho (op1 (fleft J)))), <- Z.land_assoc, Z.land_diag.
    + by rewrite <- Z.land_assoc, Z.land_diag.
    + by rewrite (Z.lor_comm (rho (op1 (fleft J)))), <- Z.lor_assoc, Z.lor_diag.
    + by rewrite <- Z.lor_assoc, Z.lor_diag.
Qed.

Lemma reassoc_bxor_sound :
  ins_o (fins J) = IR_BXOR -> left_is J IR_BXOR -> reassoc_bxor J = Ok (x, J') -> post J c x J'.
Proof using P.
  intros Ho Hl E. destruct fins_bin as (F1 & F2 & Hi & Ht & V); [by rewrite Ho|].
  destruct (left_bin _ Hl eq_refl F1 Hi) as (L1 & L2 & W). unfold reassoc_bxor in E. fr E.
  destruct (irt_isphi _); [next|].
  destruct (Z.eqb_spec (op2 (fins J)) (op1 (fleft J))) as [E1|];
    [|destruct (Z.eqb_spec (op2 (fins J)) (op2 (fleft J))) as [E1|]; [|next]];
    injection E as <- <-; (apply post_fref_val; [done..|]); intros rho C; destruct (W rho C) as (R1 & R2 & Q);
    revert Q; ev; rewrite Ho, Hl, E1; cbn [passes]; intros ->; apply wr_is; try done; rewrite wr_eqm.
  - rewrite (Z.lxor_comm (rho (op1 (fleft J)))), Z.lxor_assoc, Z.lxor_nilpotent. by rewrite Z.lxor_0_r.
  - rewrite Z.lxor_assoc, Z.lxor_nilpotent. by rewrite Z.lxor_0_r.
Qed.

(** *** Minimum and maximum *)

Lemma eval_minmax ins a b : minmax (ins_o ins) = true -> is_i32 a -> is_i32 b ->
  eval_op C32 ins a b = Val (kfold_intop a b (ins_o ins)).
Proof using. intros Ho Ha Hb. apply intop_eval; try done; by destruct (ins_o ins). Qed.

Lemma minmax_assoc o a b k : minmax o = true ->
  kfold_intop (kfold_intop a b o) k o = kfold_intop a (kfold_intop b k o) o.
Proof using.
  assert (Hmin : forall u v, kfold_intop u v IR_MIN = Z.min u v) by (intros; cbn; destruct (Z.ltb_spec u v); lia).
  assert (Hmax : forall u v, kfold_intop u v IR_MAX = Z.max u v) by (intros; cbn; destruct (Z.ltb_spec v u); lia).
  intros Ho. destruct o; try done; rewrite ?Hmin, ?Hmax; lia.
Qed.

Lemma reassoc_minmax_k_sound :
  minmax (ins_o (fins J)) = true -> left_is J (ins_o (fins J)) -> right_is J IR_KINT \/ right_is J IR_KNUM ->
  reassoc_minmax_k J = Ok (x, J') -> room J' -> post J c x J'.
Proof using P.
  intros Ho Hl Hr E R. destruct fins_minmax as (F1 & F2 & Hc & Ht & V); [done|].
  assert (Hr' : right_is J IR_KINT).
  { destruct Hr as [Hr|[Hr1 Hr2]]; [done|]. destruct (ref_knum J c P _ _ Hr1 Hr2); congruence. }
  destruct (right_kint J c P Hr') as (H2 & R2 & V2).
  assert (Hk : kind (ins_o (fins J)) = K32) by by destruct (ins_o (fins J)).
  destruct (ref_k32 _ _ (pr_left _ _ P)) as (L1 & L2 & W); rewrite ?Hl; try done.
  { intros E'. by rewrite E' in Ho. }
  unfold reassoc_minmax_k in E. fr E.
  destruct (op_eqb (ins_o (IR J (op2 (fleft J)))) IR_KNUM) eqn:En.
  { apply op_eqb_eq in En. unfold IR in En. destruct (ir J !! op2 (fleft J)) as [i|] eqn:Ei; [|done].
    destruct (ref_knum J c P _ _ Ei En); congruence. }
  destruct (op_eqb (ins_o (IR J (op2 (fleft J)))) IR_KINT) eqn:Ek; [|next].
  destruct (kint_at _ Ek) as (K1 & K2 & K3). set (k1 := ins_i (IR J (op2 (fleft J)))) in *.
  set (y := kfold_intop k1 (ins_i (fright J)) (ins_o (fins J))) in *.
  assert (Q : forall rho, consistent J rho ->
    eval_op c (fins J) (rho (op1 (fins J))) (rho (op2 (fins J))) = Val (kfold_intop (rho (op1 (fleft J))) y (ins_o (fins J))) /\
    rho (op1 (fins J)) = kfold_intop (rho (op1 (fleft J))) k1 (ins_o (fins J)) /\ is_i32 (rho (op1 (fleft J)))).
  { intros rho C. destruct (W rho C) as (R3 & R4 & Q), (V rho C) as [V3 V4]. rewrite Hc, !eval_minmax by done.
    rewrite eval_minmax, Hl, (K3 rho C) in Q by (done || by rewrite Hl). cbn [passes] in Q. fold k1 in Q.
    by rewrite (V2 rho C), Q, minmax_assoc. }
  destruct (Z.eqb_spec k1 y) as [E0|].
  - injection E as <- <-. apply post_fref_val; [done|congruence|by rewrite Hc|]. intros rho C.
    destruct (Q rho C) as (-> & Q2 & _). cbn [passes]. by rewrite Q2, <- E0.
  - destruct (irt_isphi _); [next|]. destruct (lj_ir_kint _ _) as [r J1] eqn:Er.
    injection E as <- <-. rewrite (kint_fins _ _ _ _ Er).
    eapply retry_kint; [exact Er|done|by apply intop_range|..|].
    + intros K X Hk'. apply fins_ok_intro; [|done|intros E; cbn in E; rewrite E in Ho; done..].
      unfold rescls. cbn [fins set_fins ins_o set_op1 set_op2 op1 op2]. rewrite Hk, Hk', (opcls_grow K _ C32 X L1 eq_refl). by rewrite Hc.
    + rok.
    + intros rho C Hv. destruct (Q rho C) as (-> & _ & Q3). rewrite Hc, eval_minmax; try done.
      * cbn [fins set_fins ins_o op1 op2 set_op1 set_op2]. by rewrite Hv.
      * cbn [op2 set_op2]. rewrite Hv. by apply intop_range.
Qed.

(** [min(max(i, j), j) ==> j] *)
Lemma reassoc_minmax_left_sound :
  ins_o (fins J) = IR_MIN /\ left_is J IR_MAX \/ ins_o (fins J) = IR_MAX /\ left_is J IR_MIN ->
  reassoc_minmax_left J = Ok (x, J') -> post J c x J'.
Proof using P.
  intros Ho E. unfold reassoc_minmax_left in E. fr E. destruct (_ || _) eqn:E0; [|next].
  assert (D : op2 (fins J) = op1 (fleft J) \/ op2 (fins J) = op2 (fleft J)) by lia. clear E0.
  injection E as <- <-.
  destruct fins_minmax as (F1 & F2 & Hc & Ht & V); [by destruct Ho as [[-> _]|[-> _]]|].
  destruct (ref_k32 _ _ (pr_left _ _ P)) as (L1 & L2 & W); try done; try (by destruct Ho as [[_ ->]|[_ ->]]).
  apply post_fref_val; [done|congruence|by rewrite Hc|]. intros rho C. destruct (W rho C) as (_ & _ & Q).
  revert Q. unfold eval_op. destruct Ho as [[-> ->]|[-> ->]]; cbn [passes]; destruct D as [-> | ->]; lia.
Qed.

Lemma reassoc_minmax_right_sound :
  ins_o (fins J) = IR_MIN /\ right_is J IR_MAX \/ ins_o (fins J) = IR_MAX /\ right_is J IR_MIN ->
  reassoc_minmax_right J = Ok (x, J') -> post J c x J'.
Proof using P.
  intros Ho E. unfold reassoc_minmax_right in E. fr E. destruct (_ || _) eqn:E0; [|next].
  assert (D : op1 (fins J) = op1 (fright J) \/ op1 (fins J) = op2 (fright J)) by lia. clear E0.
  injection E as <- <-.
  destruct fins_minmax as (F1 & F2 & Hc & Ht & V); [by destruct Ho as [[-> _]|[-> _]]|].
  assert (Hr : ir J !! op2 (fins J) = Some (fright J)) by by destruct Ho as [[_ [? _]]|[_ [? _]]].
  destruct (ref_k32 _ _ Hr) as (L1 & L2 & W); try done; try (by destruct Ho as [[_ [_ ->]]|[_ [_ ->]]]).
  apply post_fref_val; [done|congruence|by rewrite Hc|]. intros rho C. destruct (W rho C) as (_ & _ & Q).
  revert Q. unfold eval_op. destruct Ho as [[-> [_ ->]]|[-> [_ ->]]]; cbn [passes]; destruct D as [-> | ->]; lia.
Qed.

(** *** Composition of shifts *)

Lemma ror_ror w k a m n : 0 <= k -> w = 2 ^ k -> 0 <= a < 2 ^ w -> 0 <= m < w -> 0 <= n < w ->
  lj_ror w (lj_ror w a m) n = lj_ror w a ((m + n) mod w).
Proof using.
  intros Hk Hw Ha Hm Hn. assert (0 <= (m + n) mod w < w) by (apply Z.mod_pos_bound; lia).
  apply (bits_eq_w w k); try done; [by apply (ror_range w k), Hn; try done; apply (ror_range w k)|by apply (ror_range w k)|].
  intros i Hi. rewrite !(ror_testbit w k); try done.
  - f_equal. rewrite Zplus_mod_idemp_l, Zplus_mod_idemp_r. f_equal. lia.
  - apply Z.mod_pos_bound. lia.
  - by apply (ror_range w k).
Qed.

Definition shift_comp (o : IROp) (a s : Z) : Z :=
  match o with
  | IR_BSHL | IR_BSHR => if s <? bits c then shop o a s else 0
  | IR_BSAR => shop o a (Z.min s (bits c - 1))
  | _ => shop o a (s mod bits c)
  end.

Lemma un_wr v : 0 <= v < 2 ^ bits c -> un c (wr c v) = v.
Proof using.
  clear P. intros Hv. rewrite (un_cong c (wr c v) v) by apply wr_eqm. by apply Z.mod_small.
Qed.

Lemma sg_small v n : int_cls c = true -> 0 <= n -> sg c (wr c (sg c v >> n)) = sg c v >> n.
Proof using.
  clear P. intros Hi Hn. rewrite (sg_cong c _ (sg c v >> n)) by apply wr_eqm.
  destruct c; try done; simpl.
  - apply i32_id, shiftr_i32; auto with width.
  - apply i64_id. rewrite Z.shiftr_div_pow2 by done. pose proof (i64_range v). assert (1 <= 2 ^ n) by lia.
    widths. split; [apply Z.div_le_lower_bound|apply Z.div_lt_upper_bound]; nia.
Qed.

Lemma sar_all a s : int_cls c = true -> bits c - 1 <= s -> sg c a >> s = sg c a >> (bits c - 1).
Proof using.
  clear P. intros Hi Hs. assert (Hp : forall s, bits c - 1 <= s -> sg c a >> s = if sg c a <? 0 then -1 else 0).
  { clear s Hs. intros s Hs. assert (0 <= s) by (pose proof (bits_pos c); lia).
    assert (Hr : - 2 ^ (bits c - 1) <= sg c a < 2 ^ (bits c - 1)) by (destruct c; try done; apply i32_range || apply i64_range).
    assert (2 ^ (bits c - 1) <= 2 ^ s) by (apply Z.pow_le_mono_r; lia).
    rewrite Z.shiftr_div_pow2 by done. destruct (Z.ltb_spec (sg c a) 0).
    - symmetry. apply Z.div_unique with (sg c a + 2 ^ s); lia.
    - apply Z.div_small. lia. }
  rewrite !Hp by lia. done.
Qed.

Lemma shop_shop o a m n : kind o = Kshift -> int_cls c = true -> 0 <= m < bits c -> 0 <= n < bits c ->
  eqm c (shop o (wr c (shop o a m)) n) (shift_comp o a (m + n)).
Proof using.
  clear P. intros Ho Hi Hm Hn. pose proof (un_range c a) as Hu. destruct bits_pow as (w & Hw & Ew).
  destruct o; try done; cbn [shop shift_comp].
  - rewrite (eqm_shiftl c _ _ n ltac:(lia) (wr_eqm c _)), Z.shiftl_shiftl by lia.
    destruct (Z.ltb_spec (m + n) (bits c)) as [|Hge]; [done|]. apply eqm_bits. intros i Hi'.
    rewrite Z.shiftl_spec, Z.bits_0 by lia. apply Z.testbit_neg_r. lia.
  - rewrite un_wr by (apply shiftr_range; [done|lia]). rewrite Z.shiftr_shiftr by lia.
    destruct (Z.ltb_spec (m + n) (bits c)) as [|Hge]; [done|].
    rewrite Z.shiftr_div_pow2 by lia. rewrite Z.div_small; [done|].
    assert (2 ^ bits c <= 2 ^ (m + n)) by (apply Z.pow_le_mono_r; lia). lia.
  - rewrite sg_small, Z.shiftr_shiftr by (done || lia).
    destruct (Z.lt_ge_cases (m + n) (bits c)); [by rewrite Z.min_l by lia|].
    rewrite Z.min_r by lia. by rewrite sar_all by (done || lia).
  - rewrite un_wr by by apply (rol_range (bits c) w). by rewrite (rol_rol (bits c) w).
  - rewrite un_wr by by apply (ror_range (bits c) w). by rewrite (ror_ror (bits c) w).
Qed.

(** The shift count the rule uses for the sum [s] of the two counts. *)
Lemma shift_comp_count o a s : kind o = Kshift -> 0 <= s -> negb ((bits c <=? s) && (op_eqb o IR_BSHL || op_eqb o IR_BSHR)) = true ->
  s < 2 * bits c ->
  let k := if bits c <=? s then (if op_eqb o IR_BSAR then bits c - 1 else s mod bits c) else s in
  shift_comp o a s = shop o a k /\ 0 <= k < bits c.
Proof using.
  clear P. intros Ho Hs Hn H2. cbv zeta. pose proof (Z.mod_pos_bound s (bits c) (bits_pos c)) as Hm.
  pose proof (bits_pos c) as Hb.
  destruct (Z.leb_spec (bits c) s) as [Hge|Hlt]; cbn [andb] in Hn.
  - destruct o; try done; cbn [shift_comp]; unfold op_eqb; cbn [irop_num Z.eqb Pos.eqb]; (split; [|lia]); try done.
    rewrite Z.min_r by lia. done.
  - split; [|lia]. destruct o; try done; cbn [shift_comp]; rewrite ?(proj2 (Z.ltb_lt s _)) by done; try done.
    + by rewrite Z.min_l by lia.
    + by rewrite Z.mod_small by lia.
    + by rewrite Z.mod_small by lia.
Qed.

Lemma mask_eq : int_cls c = true -> cls_of (ins_t (fins J)) = c -> shift_mask (ins_t (fins J)) = bits c - 1.
Proof using.
  clear P. intros Hi Ht. unfold shift_mask. destruct (is64_cls (ins_t (fins J))) as [-> _]; [by rewrite Ht|].
  rewrite Ht. by destruct c.
Qed.

Lemma reassoc_shift_sound :
  kind (ins_o (fins J)) = Kshift -> left_is J (ins_o (fins J)) -> right_is J IR_KINT ->
  reassoc_shift J = Ok (x, J') -> room J' -> post J c x J'.
Proof using P.
  intros Ho Hl Hr E R. destruct fins_shift as (F1 & F2 & Hi & Ht & V); [done|].
  destruct (right_kint J c P Hr) as (H2 & R2 & V2).
  destruct (left_shift _ Hl Ho F1 Hi) as (L1 & L2 & W). unfold reassoc_shift in E. fr E.
  destruct (irt_isphi _); [next|].
  destruct (op_eqb (ins_o (IR J (op2 (fleft J)))) IR_KINT) eqn:Ek; [|next].
  destruct (kint_at _ Ek) as (K1 & K2 & K3). rewrite !land_mask, mask_eq in E by done.
  set (i1 := ins_i (IR J (op2 (fleft J)))) in *. set (i2 := ins_i (fright J)) in *.
  pose proof (Z.mod_pos_bound i1 (bits c) (bits_pos c)) as B1.
  pose proof (Z.mod_pos_bound i2 (bits c) (bits_pos c)) as B2.
  set (s := i1 mod bits c + i2 mod bits c) in *.
  assert (Q : forall rho, consistent J rho -> eval_op c (fins J) (rho (op1 (fins J))) (rho (op2 (fins J))) =
    Val (wr c (shift_comp (ins_o (fins J)) (rho (op1 (fleft J))) s))).
  { intros rho C. destruct (W rho C) as (_ & Q). rewrite eval_shift, Hl, (K3 rho C) in Q by by rewrite Hl.
    rewrite eval_shift, (V2 rho C), Q by done. f_equal. apply wr_cong. by apply shop_shop. }
  assert (Em : (bits c - 1 <? s) = (bits c <=? s)) by lia. rewrite !Em in E.
  destruct ((bits c <=? s) && _) eqn:Ez.
  - apply andb_true_iff in Ez as [Ez1 Ez2]. apply post_zero; try done; [by destruct (ins_o (fins J))| |].
    + intros rho C. rewrite (Q rho C). f_equal.
      destruct (ins_o (fins J)); try done; cbn [shift_comp]; rewrite (proj2 (Z.ltb_ge _ _)) by lia; by destruct c.
    + destruct (is64_cls (ins_t (fins J))) as [-> _]; [by rewrite Ht|]. rewrite Ht.
      destruct c; try done; exact E.
  - assert (Hs : 0 <= s < 2 * bits c) by lia.
    destruct (lj_ir_kint _ _) as [r J1] eqn:Er. injection E as <- <-. rewrite (kint_fins _ _ _ _ Er).
    assert (Hz : negb ((bits c <=? s) && (op_eqb (ins_o (fins J)) IR_BSHL || op_eqb (ins_o (fins J)) IR_BSHR)) = true)
      by by rewrite Ez.
    set (k := if bits c <=? s then _ else s) in Er.
    assert (Hc : forall a, shift_comp (ins_o (fins J)) a s = shop (ins_o (fins J)) a k /\ 0 <= k < bits c)
      by (intros a; apply shift_comp_count; done || lia).
    eapply retry_kint; [exact Er|done|destruct (Hc 0); clear P; destruct c; simpl in *; widths; lia|..|].
    + intros K X Hk. apply ok_shift; try done. by apply opcls_grow.
    + rok.
    + intros rho C Hv. rewrite (Q rho C), eval_shift by done. cbn [fins set_fins ins_o op1 op2 set_op1 set_op2].
      destruct (Hc (rho (op1 (fleft J)))) as [-> Hk]. by rewrite Hv, Z.mod_small.
Qed.

(** ** Commutation *)

Definition comm_op (o : IROp) : bool :=
  match o with
  | IR_ADD | IR_MUL | IR_ADDOV | IR_MULOV | IR_BAND | IR_BOR | IR_BXOR | IR_MIN | IR_MAX | IR_EQ | IR_NE => true
  | _ => false
  end.

Lemma rescls_swap K f : match kind (ins_o f) with Kbin | K32 | Kcmp => true | _ => false end = true ->
  rescls K (swap_ops f) = rescls K f.
Proof using.
  unfold rescls, both. cbn [ins_o op1 op2 swap_ops set_op1 set_op2].
  destruct (kind (ins_o f)); try done; destruct (opcls K (op1 f)), (opcls K (op2 f)); done.
Qed.

Lemma eval_comm ins a b : comm_op (ins_o ins) = true -> eval_op c (swap_ops ins) b a = eval_op c ins a b.
Proof using.
  clear P. intros Ho. unfold eval_op. cbn [ins_o swap_ops set_op1 set_op2].
  destruct (ins_o ins); try done; cbn [lj_ir_numcmp];
    rewrite ?(deq_sym b a), ?(Z.eqb_sym b a), ?(Z.land_comm b a), ?(Z.lor_comm b a), ?(Z.lxor_comm b a),
      ?(Z.add_comm b a), ?(Z.mul_comm b a), ?(Z.min_comm b a), ?(Z.max_comm b a); done.
Qed.

Lemma comm_swap_sound :
  comm_op (ins_o (fins J)) = true -> comm_swap J = Ok (x, J') -> post J c x J'.
Proof using P.
  intros Ho E. unfold comm_swap in E. fr E. destruct (_ <? _); [|next]. injection E as <- <-.
  assert (Hn : ins_o (fins J) <> IR_ABC) by (intros E; by rewrite E in Ho).
  apply post_retry; [done| | |].
  - apply fins_ok_intro; [|by apply (pre_cls J c P)|done|by intros E; cbn in E; rewrite E in Ho].
    rewrite rescls_swap; [apply P|]. by destruct (ins_o (fins J)).
  - split_and!; [done| |done]. unfold hard. cbn [ins_o op1 op2 swap_ops set_op1 set_op2].
    destruct (ins_o (fins J)); try done; by rewrite andb_comm.
  - intros rho C. by apply eval_comm.
Qed.

Lemma isnum_cls t : irt_isnum t = bool_decide (cls_of t = CN).
Proof using.
  unfold cls_of, irt_isnum. assert (Hy : 0 <= irt_type t < 32).
  { unfold irt_type. change IRT_TYPE with (2 ^ 5 - 1). rewrite land_ones_mod by done. by apply Z.mod_pos_bound. }
  pose proof (forall_below 32 (fun y => Bool.eqb (y =? IRT_NUM) (bool_decide (type_cls y = CN))) eq_refl _ Hy) as H.
  by apply eqb_prop in H.
Qed.

Lemma comm_equal_sound :
  eqop (ins_o (fins J)) = true -> comm_equal J = Ok (x, J') -> post J c x J'.
Proof using P.
  intros Ho E. unfold comm_equal in E. destruct (_ && _) eqn:E0.
  - fr E. injection E as <- <-. apply andb_true_iff in E0 as [E1%Z.eqb_eq E2%negb_true_iff].
    rewrite isnum_cls, (pre_cls J c P) in E2 by (intros X; by rewrite X in Ho). apply bool_decide_eq_false in E2.
    apply post_cond; [done|by destruct (ins_o (fins J))|]. intros rho C. rewrite E1. unfold eval_op.
    destruct (ins_o (fins J)); try done; destruct c; try done; by rewrite Z.eqb_refl.
  - apply comm_swap_sound; [|done]. by destruct (ins_o (fins J)).
Qed.

Lemma comm_comp_sound :
  cmpop (ins_o (fins J)) = true -> comm_comp J = Ok (x, J') -> post J c x J'.
Proof using P.
  intros Ho E. unfold comm_comp in E. fr E.
  assert (Ht : cls_of (ins_t (fins J)) = c) by (apply (pre_cls J c P); intros X; by rewrite X in Ho).
  destruct (_ && _) eqn:E0; [|destruct (_ <? _); [|next]]; injection E as <- <-.
  - apply andb_true_iff in E0 as [E1%Z.eqb_eq E2%negb_true_iff].
    rewrite isnum_cls, Ht in E2. apply bool_decide_eq_false in E2.
    apply post_cond; [done|by destruct (ins_o (fins J))|]. intros rho C. rewrite E1. unfold eval_op.
    destruct (ins_o (fins J)); try done; destruct c; try done; cbn -[Z.ltb Z.leb sg un guard];
      by rewrite ?Z.ltb_irrefl, ?Z.leb_refl.
  - set (o := ins_o (fins J)) in *. set (o' := irop_of_num _).
    assert (Ho' : cmpop o' = true) by (subst o'; by destruct o).
    apply post_retry; [done| | |].
    + apply fins_ok_intro; [|done|cbn; intros X; by rewrite X in Ho'..].
      transitivity (rescls J (fins J)); [|apply P].
      rewrite <- (rescls_swap J (fins J)) by (fold o; by destruct o).
      unfold rescls. cbn [ins_o set_o op1 op2 swap_ops set_op1 set_op2]. fold o.
      assert (kind o' = Kcmp) as -> by by destruct o'. assert (kind o = Kcmp) as -> by by destruct o. done.
    + split_and!; [cbn; fold o; by destruct o, o'| |fold o; by destruct o]. unfold hard.
      cbn [ins_o op1 op2 set_o swap_ops set_op1 set_op2]. fold o. subst o'.
      destruct o; try done; cbn -[op_at]; by rewrite andb_comm.
    + intros rho C. unfold eval_op. cbn [ins_o set_o op1 op2 swap_ops set_op1 set_op2]. fold o. subst o'.
      destruct o; try done; cbn -[Z.ltb Z.leb sg un guard lj_ir_numcmp]; by destruct c.
Qed.

Lemma comm_dup_sound :
  ins_o (fins J) = IR_MIN \/ ins_o (fins J) = IR_MAX \/ ins_o (fins J) = IR_BAND \/ ins_o (fins J) = IR_BOR ->
  comm_dup J = Ok (x, J') -> post J c x J'.
Proof using P.
  intros Ho E. unfold comm_dup in E. destruct (Z.eqb_spec (op1 (fins J)) (op2 (fins J))) as [E0|];
    [|apply comm_swap_sound; [by destruct Ho as [-> |[-> |[-> | ->]]]|done]].
  fr E. injection E as <- <-. destruct (minmax (ins_o (fins J))) eqn:Em.
  - destruct fins_minmax as (F1 & F2 & Hc & _ & _); [done|].
    apply post_fref_val; [done|congruence|by rewrite Hc|]. intros rho C. rewrite <- E0. unfold eval_op.
    destruct (ins_o (fins J)); try done; cbn [passes]; lia.
  - assert (Ha : is_assoc (ins_o (fins J)) = true) by by destruct Ho as [Ho|[Ho|[Ho|Ho]]]; rewrite Ho in *.
    destruct fins_bin as (F1 & F2 & Hi & Ht & V); [by apply assoc_bin|].
    apply post_fref_val; try done. intros rho C. rewrite eval_assoc by done. cbn [passes].
    apply wr_is; [apply (V rho C)|]. rewrite <- E0.
    destruct Ho as [Ho|[Ho|[Ho|Ho]]]; rewrite Ho in *; try done; cbn [assoc_op];
      by rewrite ?Z.land_diag, ?Z.lor_diag.
Qed.

Lemma comm_bxor_sound :
  ins_o (fins J) = IR_BXOR -> comm_bxor J = Ok (x, J') -> room J' -> post J c x J'.
Proof using P.
  intros Ho E R. destruct fins_bin as (F1 & F2 & Hi & Ht & V); [by rewrite Ho|]. unfold comm_bxor in E.
  destruct (Z.eqb_spec (op1 (fins J)) (op2 (fins J))) as [E0|];
    [|apply comm_swap_sound; [by rewrite Ho|done]].
  apply post_zero; try done; [by rewrite Ho|]. intros rho C. rewrite <- E0. ev. rewrite Ho, Z.lxor_nilpotent.
  by destruct c.
Qed.
End Arith.
