(* ===== verification/FoldConv.v ===== *)
(** * Soundness of conversions, bounds checks, CSE and emission

    The remaining integer rules of [lj_opt_fold.c]: simplification of
    conversions, array bounds check elimination, the search for common
    subexpressions, and the rules that emit instructions of their own. *)

From S2P Require Import Prelude Machine Carith Num Ir IrInv Fold FoldMono FoldSem FoldInv FoldConst FoldArith.

(** ** Literals of conversions *)

Lemma conv_lit_bits lit lit' : (forall n, 0 <= n < 10 -> Z.testbit lit n = Z.testbit lit' n) ->
  conv_src lit = conv_src lit' /\ conv_dst lit = conv_dst lit'.
Proof.
  intros H. unfold conv_src, conv_dst.
  assert (G : forall m, 0 <= m < 2 ^ 10 -> lit .& m = lit' .& m).
  { intros m Hm. apply Z.bits_inj'. intros n Hn. tbits. destruct (Z.lt_ge_cases n 10).
    - by rewrite H by lia.
    - by rewrite (testbit_high m 10), !andb_false_r by lia. }
  by rewrite !G by done.
Qed.

Lemma conv_ok_eq lit lit' : conv_src lit = conv_src lit' -> conv_dst lit = conv_dst lit' ->
  conv_ok lit = conv_ok lit'.
Proof. intros H1 H2. unfold conv_ok. by rewrite H1, H2. Qed.

Lemma conv_modemask lit : conv_src (lit .& IRCONV_MODEMASK) = conv_src lit /\
  conv_dst (lit .& IRCONV_MODEMASK) = conv_dst lit /\
  (lit .& IRCONV_MODEMASK) .& IRCONV_SEXT = lit .& IRCONV_SEXT.
Proof.
  unfold conv_src, conv_dst. rewrite <- !Z.land_assoc. done.
Qed.

(** The value depends on the masked mode only. *)
Lemma eval_conv_mask lit lit' a : lit .& IRCONV_MODEMASK = lit' .& IRCONV_MODEMASK ->
  eval_conv lit a = eval_conv lit' a /\ conv_ok lit = conv_ok lit' /\
  conv_src lit = conv_src lit' /\ conv_dst lit = conv_dst lit'.
Proof.
  intros H. destruct (conv_modemask lit) as (H1 & H2 & H3), (conv_modemask lit') as (H4 & H5 & H6).
  rewrite H in H1, H2, H3. assert (E1 : conv_src lit = conv_src lit') by congruence.
  assert (E2 : conv_dst lit = conv_dst lit') by congruence.
  split_and!; try done; [|by apply conv_ok_eq]. unfold eval_conv. rewrite E1, E2. rewrite <- H3, <- H6. done.
Qed.

Lemma ldiff_le a b : 0 <= b -> Z.ldiff a b <= a.
Proof.
  intros Hb. assert (E : Z.ldiff (a .& b) a = 0).
  { apply Z.bits_inj'. intros n Hn. rewrite Z.ldiff_spec, Z.land_spec, Z.bits_0. btauto. }
  pose proof (Z.sub_nocarry_ldiff _ _ E) as S. assert (0 <= a .& b) by (apply Z.land_nonneg; lia).
  assert (Z.ldiff a (a .& b) = Z.ldiff a b); [|lia].
  apply Z.bits_inj'. intros n Hn. rewrite !Z.ldiff_spec, Z.land_spec. btauto.
Qed.

Section Conv.
Variables (J : jit_State) (c : cls) (x : FR) (J' : jit_State).
Hypothesis (P : pre J c).

Lemma fins_conv : ins_o (fins J) = IR_CONV ->
  conv_ok (op2 (fins J)) = true /\ opcls J (op1 (fins J)) = cls_of (conv_src (op2 (fins J))) /\
  int_cls (opcls J (op1 (fins J))) = true /\ c = cls_of (conv_dst (op2 (fins J))) /\
  cls_of (ins_t (fins J)) = c /\ op2 (fins J) < 0x4000 /\
  forall rho, consistent J rho -> in_cls (opcls J (op1 (fins J))) (rho (op1 (fins J))).
Proof using P.
  intros Ho. pose proof (fins_inv J c P) as F. rewrite Ho in F. destruct F as (F1 & F2 & F3 & F4).
  split_and!; try done.
  - apply (pre_cls J c P). by rewrite Ho.
  - by apply (io_conv _ _ (fo_ok _ _ _ (pr_fins _ _ P))).
  - intros rho C. by apply (opval_in J).
Qed.

Lemma ok_conv K f : ins_o f = IR_CONV -> conv_ok (op2 f) = true -> op2 f < 0x4000 ->
  opcls K (op1 f) = cls_of (conv_src (op2 f)) -> c = cls_of (conv_dst (op2 f)) -> cls_of (ins_t f) = c ->
  fins_ok K f c.
Proof using.
  clear P. intros Ho Hk Hl H1 Hc Ht. apply fins_ok_intro; [|done|by rewrite Ho|done].
  unfold rescls. rewrite Ho. cbn [kind]. rewrite Hk, H1, bool_decide_true by done. by rewrite Hc.
Qed.

Lemma op1_pos : 0 < op1 (fins J).
Proof using P.
  assert (H : is_Some (ir J !! op1 (fins J))) by (eexists; apply (pr_left _ _ P)).
  pose proof (sw_wf _ (pr_sem _ _ P)) as W. apply (wf_dom J W) in H. pose proof (wf_nk J W). lia.
Qed.

(** A 64-bit left operand that is a [CONV] from 32 bits. *)
Lemma left_widened :
  left_is J IR_CONV -> opcls J (op1 (fins J)) = C64 ->
  conv_src (op2 (fleft J)) = IRT_INT \/ conv_src (op2 (fleft J)) = IRT_U32 ->
  opcls J (op1 (fleft J)) = C32 /\
  forall rho, consistent J rho -> is_i32 (rho (op1 (fleft J))) /\
    i32 (rho (op1 (fins J))) = rho (op1 (fleft J)).
Proof using P.
  intros Hl Hc64 Hsrc. assert (Hio : iop (ins_o (fleft J)) = true) by by rewrite Hl.
  pose proof (sw_ins _ (pr_sem _ _ P) _ _ (pr_left _ _ P) Hio) as K.
  destruct (io_conv _ _ K Hl) as (Kt & Ks & _).
  assert (Hs32 : cls_of (conv_src (op2 (fleft J))) = C32) by (by destruct Hsrc as [-> | ->]).
  assert (L1 : opcls J (op1 (fleft J)) = C32) by (rewrite <- Hs32; apply Ks; by rewrite Hs32).
  assert (Hld : cls_of (conv_dst (op2 (fleft J))) = C64).
  { rewrite <- Kt. unfold opcls, ins_cls in Hc64. by rewrite (pr_left _ _ P), Hl in Hc64. }
  assert (Hlo : conv_ok (op2 (fleft J)) = true).
  { unfold conv_ok. assert (Hy : 0 <= conv_dst (op2 (fleft J)) < 32).
    { unfold conv_dst. rewrite Z.shiftr_land. change (IRCONV_DSTMASK >> IRCONV_DSH) with (2 ^ 5 - 1).
      rewrite land_ones_mod by done. by apply Z.mod_pos_bound. }
    pose proof (forall_below 32 (fun y => implb (bool_decide (cls_of y = C64)) ((y =? IRT_I64) || (y =? IRT_U64))) eq_refl _ Hy) as H.
    cbv beta in H. rewrite bool_decide_true in H by done. cbn [implb] in H. lia. }
  split; [done|]. intros rho C. assert (R1 : is_i32 (rho (op1 (fleft J)))) by by apply (opval_in J rho _ C32).
  split; [done|]. destruct (C _ _ (pr_left _ _ P)) as [_ Q]. unfold eval in Q.
  assert (Hr : rescls J (fleft J) = Some C64).
  { unfold rescls. rewrite Hl. cbn [kind]. by rewrite Hlo, L1, bool_decide_true, Hld by done. }
  rewrite Hr in Q. unfold eval_op in Q. rewrite Hl in Q. cbn [passes] in Q. rewrite Q. unfold eval_conv.
  rewrite Hld. replace (_ || _) with true by lia. destruct (_ =? 0); wsolve.
Qed.

(** The literal of the new [CONV]. *)
Lemma conv_lit_join a b : let lit := (a .& IRCONV_DSTMASK) .| conv_src b in
  conv_src lit = conv_src b /\ conv_dst lit = conv_dst a /\ lit < 0x4000.
Proof using.
  intros lit. unfold lit. split_and!.
  - unfold conv_src. rewrite !Z.land_lor_distr_l, <- !Z.land_assoc. change (IRCONV_DSTMASK .& IRCONV_SRCMASK) with 0.
    by rewrite Z.land_diag, Z.land_0_r.
  - unfold conv_dst, conv_src. rewrite !Z.land_lor_distr_l, <- !Z.land_assoc.
    change (IRCONV_SRCMASK .& IRCONV_DSTMASK) with 0. by rewrite Z.land_diag, Z.land_0_r, Z.lor_0_r.
  - set (l := (a .& IRCONV_DSTMASK) .| conv_src b). assert (E : l = l mod 2 ^ 10).
    { apply Z.bits_inj'. intros n Hn. rewrite mod_pow2_testbit by lia. destruct (Z.ltb_spec n 10); [done|].
      subst l. unfold conv_src. tbits.
      by rewrite (testbit_high IRCONV_DSTMASK 10), (testbit_high IRCONV_SRCMASK 10), !andb_false_r by (done || lia). }
    rewrite E. pose proof (Z.mod_pos_bound l (2 ^ 10)). lia.
Qed.

(** [CONV] of a [CONV] from 32 bits. *)
Lemma simplify_conv_int_i64_sound :
  ins_o (fins J) = IR_CONV -> left_is J IR_CONV ->
  conv_dst (op2 (fins J)) = IRT_INT \/ conv_dst (op2 (fins J)) = IRT_U32 ->
  conv_src (op2 (fins J)) = IRT_I64 \/ conv_src (op2 (fins J)) = IRT_U64 ->
  simplify_conv_int_i64 J = Ok (x, J') -> post J c x J'.
Proof using P.
  intros Ho Hl Hd Hs E. destruct (fins_conv Ho) as (F1 & F2 & F3 & F4 & Ht & Hlit & V).
  unfold simplify_conv_int_i64 in E. fr E. destruct (irt_isphi _); [next|].
  destruct (_ || _) eqn:Es; [|next].
  assert (Hsrc : conv_src (op2 (fleft J)) = IRT_INT \/ conv_src (op2 (fleft J)) = IRT_U32) by lia. clear Es.
  assert (Hc : c = C32) by (rewrite F4; by destruct Hd as [-> | ->]).
  assert (Hc64 : opcls J (op1 (fins J)) = C64) by (rewrite F2; by destruct Hs as [-> | ->]).
  destruct (left_widened Hl Hc64 Hsrc) as [L1 W].
  assert (Q : forall rho, consistent J rho ->
    eval_op c (fins J) (rho (op1 (fins J))) (rho (op2 (fins J))) = Val (rho (op1 (fleft J)))).
  { intros rho C. destruct (W rho C) as [_ <-]. ev. rewrite Ho. f_equal. unfold eval_conv. rewrite <- F4, Hc.
    by destruct Hs as [-> | ->]. }
  destruct (Z.eqb_spec (conv_src (op2 (fleft J))) (conv_dst (op2 (fins J)))) as [E0|].
  - injection E as <- <-. apply post_fref_val; try done; [congruence|by rewrite Hc|]. intros rho C. by rewrite (Q rho C).
  - injection E as <- <-. destruct (conv_lit_join (op2 (fins J)) (op2 (fleft J))) as (HL1 & HL2 & HL3).
    set (lit := (op2 (fins J) .& IRCONV_DSTMASK) .| conv_src (op2 (fleft J))) in *.
    apply post_retry; [done| |rok|].
    + apply ok_conv; cbn [ins_o ins_t op1 op2 set_op1 set_op2]; fold lit; rewrite ?HL1, ?HL2; try done.
      * unfold conv_ok. rewrite HL1, HL2. lia.
      * rewrite L1. by destruct Hsrc as [-> | ->].
    + intros rho C. rewrite (Q rho C). destruct (W rho C) as [R1 _]. ev. rewrite Ho. f_equal. fold lit.
      unfold eval_conv. rewrite HL1, HL2, <- F4, Hc. destruct Hsrc as [-> | ->]; cbn; by apply i32_id.
Qed.

(** The value of a constant operand, of whatever 32-bit kind. *)
Lemma kref_val ref rho : irref_isk ref = true -> opcls J ref = C32 -> consistent J rho ->
  rho ref = ins_i (IR J ref).
Proof using P.
  intros Hk Hc C. destruct (opcls_some J ref C32 Hc ltac:(done)) as [i Hi]. unfold IR. rewrite Hi. cbn [from_option id].
  pose proof (sw_wf _ (pr_sem _ _ P)) as W. apply Z.ltb_lt in Hk. pose proof (proj1 (wf_k J W ref i Hi) Hk) as Hkop.
  destruct (C _ _ Hi) as [_ Q]. unfold eval in Q. rewrite rescls_none in Q by by apply kop_iop.
  unfold opcls, ins_cls in Hc. rewrite Hi in Hc. pose proof (wf_kins J W _ _ Hi) as K. unfold kins_ok in K.
  destruct (ins_o i); try done; destruct K as [K _]; by rewrite K in Hc.
Qed.

(** Dropping the sign extension of a value that is not negative. *)
Lemma drop_sext :
  ins_o (fins J) = IR_CONV -> conv_src (op2 (fins J)) = IRT_INT ->
  conv_dst (op2 (fins J)) = IRT_I64 \/ conv_dst (op2 (fins J)) = IRT_U64 ->
  (op2 (fins J) .& IRCONV_SEXT =? 0) = false -> (forall rho, consistent J rho -> 0 <= rho (op1 (fins J))) ->
  post J c RETRYFOLD (set_fins J (set_op2 (fins J) (Z.ldiff (op2 (fins J)) IRCONV_SEXT))).
Proof using P.
  intros Ho Hs Hd Esx H0. destruct (fins_conv Ho) as (F1 & F2 & F3 & F4 & Ht & Hlit & V).
  assert (Hc : c = C64) by (rewrite F4; by destruct Hd as [-> | ->]).
  set (lit := Z.ldiff (op2 (fins J)) IRCONV_SEXT).
  assert (HL : conv_src lit = conv_src (op2 (fins J)) /\ conv_dst lit = conv_dst (op2 (fins J))).
  { apply conv_lit_bits. intros n Hn. unfold lit. rewrite Z.ldiff_spec.
    change IRCONV_SEXT with (2 ^ 11). rewrite Z.pow2_bits_false by lia. apply andb_true_r. }
  assert (HX : lit .& IRCONV_SEXT = 0).
  { unfold lit. apply Z.bits_inj'. intros n Hn. rewrite Z.land_spec, Z.ldiff_spec, Z.bits_0. btauto. }
  destruct HL as [HL1 HL2]. apply post_retry; [done| |rok|].
  - apply ok_conv; cbn [ins_o ins_t op1 op2 set_op1 set_op2]; fold lit; rewrite ?HL1, ?HL2; try done.
    + by rewrite (conv_ok_eq lit (op2 (fins J))).
    + pose proof (ldiff_le (op2 (fins J)) IRCONV_SEXT ltac:(done)). unfold lit. lia.
  - intros rho C. ev. rewrite Ho. f_equal. fold lit. unfold eval_conv. rewrite HL1, HL2, <- F4, Hc, Hs.
    cbn [orb]. change (IRT_INT =? IRT_INT) with true. cbn [orb]. rewrite HX, Esx. cbn [Z.eqb].
    pose proof (V rho C) as Hr. rewrite F2, Hs in Hr. change (in_cls _ ?v) with (is_i32 v) in Hr. specialize (H0 rho C). widths. wsolve.
Qed.

(** The bound of the loop index. *)
Lemma scev_bound rho : consistent J rho -> opcls J (scev_idx (scev J)) = C32 -> (scev_lo J =? 0) = false ->
  ins_i (IR J (scev_lo J)) <= rho (scev_idx (scev J)) /\
  forall ref ins k, ir J !! ref = Some ins -> ins_o ins = IR_ADD -> op1 ins = scev_idx (scev J) ->
    ir J !! op2 ins = Some k -> is_kop (ins_o k) = true -> rho (scev_idx (scev J)) + ins_i k < 2 ^ 31.
Proof using P.
  intros C Hx Hz%Z.eqb_neq. pose proof (pr_scev _ _ P) as [_ SL]. destruct (SL Hx) as [|(lo & Hlo & Hk)%op_at_some]; [done|].
  destruct (co_scev _ _ C Hx lo Hlo Hk) as [L1 L2]. split; [|exact L2]. unfold IR. by rewrite Hlo.
Qed.

(** The index plus a constant that the bound makes up for. *)
Lemma scev_add rho : consistent J rho -> opcls J (op1 (fins J)) = C32 -> left_is J IR_ADD -> irref_isk (op2 (fleft J)) = true ->
  op1 (fleft J) = scev_idx (scev J) -> (scev_lo J =? 0) = false ->
  0 <= ins_i (IR J (scev_lo J)) + ins_i (IR J (op2 (fleft J))) -> 0 <= rho (op1 (fins J)).
Proof using P.
  intros C Hc1 Ea Ek Ei Ez Eo. unfold left_is in Ea.
  destruct (ref_op J _ (fleft J) C32 (pr_sem _ _ P) (pr_left _ _ P)) as (Hr & _ & _ & Q); [by rewrite Ea..|done|done|].
  apply rescls_inv in Hr. rewrite Ea in Hr. cbn [kind] in Hr. destruct Hr as (A1 & A2 & _). rewrite Ei in A1.
  destruct (scev_bound rho C A1 Ez) as [L1 L2]. specialize (Q rho C). unfold eval_op in Q. rewrite Ea in Q. cbn [passes wr] in Q. rewrite Q, Ei.
  rewrite (kref_val (op2 (fleft J)) rho Ek A2 C). destruct (opcls_some J _ _ A2 ltac:(done)) as [k Hk].
  assert (Hkop : is_kop (ins_o k) = true) by (apply (wf_k J (sw_wf _ (pr_sem _ _ P)) _ _ Hk); by apply Z.ltb_lt).
  specialize (L2 _ _ _ (pr_left _ _ P) Ea Ei Hk Hkop).
  assert (EI : IR J (op2 (fleft J)) = k) by (unfold IR; by rewrite Hk). rewrite EI in *.
  rewrite i32_id; [lia|]. widths. lia.
Qed.

(** Sign extension of a byte or a half word, or of the index of a loop. *)
Lemma simplify_conv_sext_sound :
  ins_o (fins J) = IR_CONV -> conv_src (op2 (fins J)) = IRT_INT ->
  conv_dst (op2 (fins J)) = IRT_I64 \/ conv_dst (op2 (fins J)) = IRT_U64 ->
  simplify_conv_sext J = Ok (x, J') -> post J c x J'.
Proof using P.
  intros Ho Hs Hd E. unfold simplify_conv_sext in E. fr E.
  destruct (op2 (fins J) .& IRCONV_SEXT =? 0) eqn:Esx; [next|]. destruct (irt_isphi _); [next|].
  assert (Hc1 : opcls J (op1 (fins J)) = C32) by (destruct (fins_conv Ho) as (_ & -> & _); by rewrite Hs).
  destruct (op_eqb (ins_o (fleft J)) IR_XLOAD && _) eqn:Ex.
  { injection E as <- <-. apply drop_sext; try done. intros rho C. apply andb_true_iff in Ex as [Ex%op_eqb_eq Ey%orb_true_iff].
    destruct (C _ _ (pr_left _ _ P)) as [Ht' _]. unfold in_type in Ht'.
    unfold opcls, ins_cls in Hc1. rewrite (pr_left _ _ P), Ex in Hc1. rewrite Hc1 in Ht'.
    destruct (irt_isu8 _); [widths; lia|]. destruct (irt_isu16 _); [widths; lia|by destruct Ey]. }
  fold (scev_lo J) in E.
  destruct (op_eqb (ins_o (fleft J)) IR_ADD && irref_isk (op2 (fleft J))) eqn:Ea; cbn beta iota in E;
    destruct (_ && _) eqn:Eg in E; try next; injection E as <- <-; apply drop_sext; try done; intros rho C;
    apply andb_true_iff in Eg as [[Ei%Z.eqb_eq Ez%negb_true_iff]%andb_true_iff Eo%Z.leb_le].
  - apply andb_true_iff in Ea as [Ea%op_eqb_eq Ek]. by apply scev_add.
  - rewrite Ei in Hc1 |- *. destruct (scev_bound rho C Hc1 Ez) as [L1 _]. lia.
Qed.

(** ** Emission and common subexpressions *)

(** The same operation on the same operands. *)
Lemma same_eval i f d rho : ins_o i = ins_o f -> op1 i = op1 f -> op2 i = op2 f ->
  ins_o f <> IR_DIV -> ins_o f <> IR_MOD -> ins_o f <> IR_POW ->
  eval_op d i (rho (op1 i)) (rho (op2 i)) = eval_op d f (rho (op1 f)) (rho (op2 f)).
Proof using. intros H1 H2 H3 N1 N2 N3. unfold eval_op. rewrite H1, H2, H3. by destruct (ins_o f). Qed.

Lemma same_rescls K i f : ins_o i = ins_o f -> op1 i = op1 f -> op2 i = op2 f -> rescls K i = rescls K f.
Proof using. intros H1 H2 H3. unfold rescls. by rewrite H1, H2, H3. Qed.

Lemma pre_iop : iop (ins_o (fins J)) = true.
Proof using P. pose proof (fins_inv J c P) as F. unfold iop. by destruct (kind (ins_o (fins J))). Qed.

Lemma pre_kop : is_kop (ins_o (fins J)) = false.
Proof using P. pose proof pre_iop as H. by destruct (ins_o (fins J)). Qed.

Lemma iop_cls i : iop (ins_o i) = true -> ins_cls i = cls_of (ins_t i).
Proof using. intros H. unfold ins_cls. by destruct (ins_o i). Qed.

Lemma val_abc o : is_val o = true -> o <> IR_ABC.
Proof using. by intros H ->. Qed.

Lemma append_post ref :
  ir_append J (ins_o (fins J)) (ins_t (fins J)) (op1 (fins J)) (op2 (fins J)) = (ref, J') ->
  post J c (FREF ref) J'.
Proof using P.
  intros E. destruct (ir_append_spec _ _ _ _ _ _ _ (sw_wf _ (pr_sem _ _ P)) pre_kop E)
    as (W' & G & F & -> & Hir & Hn).
  set (ins := mkIns _ _ _ _ _) in Hir. pose proof (grows_extends _ _ G) as X.
  assert (Hi : ir J' !! nins J = Some ins) by (rewrite Hir; apply lookup_insert_eq).
  assert (Hr : rescls J ins = Some c) by (rewrite (same_rescls J ins (fins J)); [apply P|done..]).
  assert (Hok : ins_ok J ins).
  { destruct (fo_ok _ _ _ (pr_fins _ _ P)) as [O1 O2 O3 O4 O5 O6].
    constructor; rewrite ?(same_rescls J ins (fins J)) by done; done. }
  assert (Hok' : ins_ok J' ins) by by eapply ins_ok_ext.
  assert (S' : sem_wf J').
  { split; [done|]. intros r i H Hio. rewrite Hir in H. destruct (decide (r = nins J)) as [->|Hne].
    - rewrite lookup_insert_eq in H. by injection H as <-.
    - rewrite lookup_insert_ne in H by done. apply (ins_ok_ext J J' _ X). by eapply sw_ins; [apply P| |]. }
  constructor; [done|done| |].
  - intros rho. apply grows_back; [apply P|exact G].
  - cbn [result]. split_and!; [eauto| |].
    + intros Hv. unfold opcls. rewrite Hi, iop_cls by apply pre_iop.
      apply (io_cls _ _ Hok); [by apply val_abc|done].
    + intros rho C. destruct (C _ _ Hi) as [_ Q]. rewrite (eval_fins J c) by done.
      rewrite (eval_ext J J' rho ins X) in Q; [|unfold kins_ok; pose proof pre_kop; cbn [ins_o ins]; by destruct (ins_o (fins J))|done].
      unfold eval in Q. rewrite Hr in Q. exact Q.
Qed.

(** Division, modulo and exponentiation depend on the signedness of the type. *)
Definition cse_ok (o : IROp) : bool := match o with IR_DIV | IR_MOD | IR_POW => false | _ => true end.

Lemma found_post ref i : ir J !! ref = Some i -> ins_o i = ins_o (fins J) -> iop (ins_o i) = true ->
  rescls J i = Some c ->
  (forall rho, consistent J rho -> eval_op c i (rho (op1 i)) (rho (op2 i)) =
     eval_op c (fins J) (rho (op1 (fins J))) (rho (op2 (fins J)))) ->
  post J c (FREF ref) J.
Proof using P.
  intros Hi Ho Hio Hr He. apply post_fref; [done|eauto| |].
  - intros Hv. unfold opcls. rewrite Hi, iop_cls by done.
    eapply io_cls; [by eapply sw_ins; [apply P| |]|rewrite Ho; by apply val_abc|done].
  - intros rho C. destruct (C _ _ Hi) as [_ Q]. unfold eval in Q. rewrite Hr in Q. by rewrite <- (He rho C).
Qed.

Lemma lj_opt_cse_sound ref :
  cse_ok (ins_o (fins J)) = true \/ c = C32 -> lj_opt_cse J = (ref, J') -> post J c (FREF ref) J'.
Proof using P.
  intros Ho E. pose proof op1_pos.
  destruct (lj_opt_cse_spec J ref J' (sw_wf _ (pr_sem _ _ P)) pre_kop ltac:(lia) E) as [(EJ & i & Hi & E1 & E2 & E3)|E'];
    [|by apply append_post].
  rewrite EJ. apply (found_post ref i); try done; [by rewrite E1; apply pre_iop|by rewrite (same_rescls J i (fins J)); [apply P|..]|].
  intros rho C. destruct Ho as [Ho|Ho].
  - apply same_eval; try done; intros X; by rewrite X in Ho.
  - unfold eval_op. rewrite E1, E2, E3, Ho. pose proof (fins_inv J c P) as F. rewrite Ho in F.
    destruct (ins_o (fins J)); try done; simpl in F; by destruct F as (_ & _ & ?).
Qed.

Lemma EMITFOLD_sound : EMITFOLD J = Ok (x, J') -> post J c x J'.
Proof using P.
  unfold EMITFOLD. destruct (lj_ir_emit J) as [ref J1] eqn:E. intros [= <- EJ]. subst J1. by apply append_post.
Qed.

Lemma cse_conv_sound : ins_o (fins J) = IR_CONV -> cse_conv J = Ok (x, J') -> post J c x J'.
Proof using P.
  intros Ho E. unfold cse_conv in E.
  destruct (has_flag J JIT_F_OPT_CSE); cbn [Z.eqb negb] in E; [|by apply EMITFOLD_sound].
  pose proof op1_pos. pose proof (fins_inv J c P) as F. rewrite Ho in F. destruct F as (F1 & F2 & F3 & F4).
  match type of E with context [chain_search J IR_CONV ?p ?l] =>
    destruct (chain_search_spec J IR_CONV p l (sw_wf _ (pr_sem _ _ P)) ltac:(done) ltac:(lia))
      as [[E0 _]|(Hr & i & Hi & Hio & Hp)] end.
  - rewrite E0 in E. by apply EMITFOLD_sound.
  - replace (chain_search _ _ _ _ =? 0) with false in E by (symmetry; apply Z.eqb_neq; lia).
    injection E as <- <-. apply andb_true_iff in Hp as [Hp _]. apply andb_true_iff in Hp as [Hp1%Z.eqb_eq Hp2%Z.eqb_eq].
    apply (found_post _ i); try done; [by rewrite Hio|by rewrite Hio| |].
    + unfold rescls. rewrite Hio. cbn [kind]. destruct (eval_conv_mask _ _ 0 Hp2) as (_ & K1 & K2 & K3).
      by rewrite Hp1, K1, K2, K3, F1, F2, bool_decide_true, <- F4 by done.
    + intros rho C. unfold eval_op. rewrite Hio, Ho, Hp1. f_equal. by apply eval_conv_mask.
Qed.

(** ** Array bounds checks *)

Lemma fins_abc : ins_o (fins J) = IR_ABC ->
  c = C32 /\ opcls J (op1 (fins J)) = C32 /\ opcls J (op2 (fins J)) = C32 /\ irt_isint (ins_t (fins J)) = true.
Proof using P.
  intros Ho. pose proof (fins_inv J c P) as F. rewrite Ho in F. destruct F as (F1 & F2 & F3).
  split_and!; try done. by apply (fo_abc _ _ _ (pr_fins _ _ P)).
Qed.

(** A bounds check in the IR passes. *)
Lemma abc_passes ref i rho : ir J !! ref = Some i -> ins_o i = IR_ABC -> consistent J rho ->
  u32 (rho (op2 i)) < u32 (rho (op1 i)).
Proof using P.
  intros Hi Ho C. assert (K : ins_ok J i) by (eapply sw_ins; [apply P|done|by rewrite Ho]).
  destruct (C _ _ Hi) as [_ Q]. unfold eval in Q. rewrite (proj1 (io_abc _ _ K Ho)) in Q.
  unfold eval_op in Q. rewrite Ho in Q. destruct (Z.ltb_spec (u32 (rho (op2 i))) (u32 (rho (op1 i)))); done.
Qed.

Lemma abc_fwd_sound :
  ins_o (fins J) = IR_ABC -> right_is J IR_ADD -> abc_fwd J = Ok (x, J') -> post J c x J'.
Proof using P.
  intros Ho Hr E. destruct (fins_abc Ho) as (Hc & F1 & F2 & _). unfold abc_fwd in E. fr E.
  destruct (has_flag _ _ && _) eqn:E1; [|next]. apply andb_true_iff in E1 as [_ Hk].
  destruct (op_eqb _ _ && _ && _) eqn:E1; [|next].
  apply andb_true_iff in E1 as [[Ea%op_eqb_eq Hk2]%andb_true_iff Ek%Z.eqb_eq].
  destruct Hr as [Hr1 Hr2].
  destruct (ref_op J _ _ C32 (pr_sem _ _ P) Hr1) as (Hres & _ & _ & W); try done; [by rewrite Hr2..|].
  pose proof (rescls_inv _ _ _ Hres) as F. rewrite Hr2 in F. destruct F as (L1 & L2 & _).
  set (add2 := IR J (op1 (fright J))) in *.
  assert (Ha : ir J !! op1 (fright J) = Some add2).
  { destruct (opcls_some J _ C32 L1 ltac:(done)) as [i Hi]. unfold add2, IR. by rewrite Hi. }
  destruct (ref_op J _ _ C32 (pr_sem _ _ P) Ha) as (Hres2 & _ & _ & W2); try done; [by rewrite Ea..|].
  pose proof (rescls_inv _ _ _ Hres2) as F. rewrite Ea in F. destruct F as (M1 & M2 & _).
  pose proof op1_pos as Hp.
  set (lim := if _ <? _ then _ else _) in E.
  assert (Hlim : 0 < lim) by (subst lim; destruct (Z.ltb_spec (op1 add2) (op1 (fins J))); lia).
  match type of E with context [chain_search J IR_ABC ?p lim] =>
    destruct (chain_search_spec J IR_ABC p lim (sw_wf _ (pr_sem _ _ P)) ltac:(done) ltac:(lia))
      as [[E0 _]|(Hr & i & Hi & Hio & Hp')] end.
  { rewrite E0 in E. cbn [Z.eqb negb] in E. next. }
  replace (chain_search _ _ _ _ =? 0) with false in E by (symmetry; apply Z.eqb_neq; lia).
  injection E as <- <-. apply andb_true_iff in Hp' as [Hp1%Z.eqb_eq Hp2%Z.eqb_eq].
  apply (post_cond J c true); [done|by rewrite Ho|]. intros rho C. unfold eval_op. rewrite Ho. f_equal.
  apply Z.ltb_lt. pose proof (abc_passes _ _ _ Hi Hio C) as A. rewrite Hp1, Hp2 in A.
  specialize (W rho C). specialize (W2 rho C). unfold eval_op in W, W2. rewrite Hr2 in W. rewrite Ea in W2.
  cbn [passes wr] in W, W2. rewrite (kref_val _ _ Hk L2 C) in W. rewrite (kref_val _ _ Hk2 M2 C) in W2.
  assert (Hx : u32 (rho (op2 (fins J))) = u32 (rho (op1 add2))) by (rewrite W, W2, Ek; wsolve).
  by rewrite Hx.
Qed.

Lemma abc_invar_sound : ins_o (fins J) = IR_ABC -> abc_invar J = Ok (x, J') -> post J c x J'.
Proof using P.
  intros Ho E. destruct (fins_abc Ho) as (_ & _ & _ & Hi). unfold abc_invar in E. fr E. rewrite Hi in E.
  cbn [negb andb] in E. next.
Qed.

(** *** A bounds check against a larger constant replaces the one in the IR *)

Section Patch.
Variables (ref : Z) (i : IRIns).
Hypotheses (Ho : ins_o (fins J) = IR_ABC) (Hr : right_is J IR_KINT).
Hypotheses (Hi : ir J !! ref = Some i) (Hio : ins_o i = IR_ABC).
Hypotheses (H1 : op1 i = op1 (fins J)) (Hk2 : irref_isk (op2 i) = true) (Hkf : irref_isk (op2 (fins J)) = true).
Hypothesis (Hlt : ins_i (IR J (op2 i)) < ins_i (fright J)).
Local Abbreviation J1 := (patch_op2 J ref i (op2 (fins J))).

Lemma patch_new : ir J1 !! ref = Some (set_op2 i (op2 (fins J))).
Proof using. apply lookup_insert_eq. Qed.

Lemma patch_old r j : r <> ref -> ir J !! r = Some j -> ir J1 !! r = Some j.
Proof using. intros Hne Hj. simpl. by rewrite lookup_insert_ne. Qed.

Lemma patch_extends : extends J J1.
Proof using Hi Hio.
  constructor; try done; [|by exists []; rewrite app_nil_r]. intros r j Hj.
  destruct (decide (r = ref)) as [->|Hne].
  - rewrite Hi in Hj. injection Hj as <-. eexists. split_and!; [exact patch_new|done..|by rewrite Hio].
  - exists j. split_and!; try done. by apply patch_old.
Qed.

Lemma patch_abc_ok : ins_ok J i.
Proof using P Hi Hio. eapply sw_ins; [apply P|done|by rewrite Hio]. Qed.

Lemma patch_new_ok : ins_ok J1 (set_op2 i (op2 (fins J))).
Proof using P Ho Hi Hio H1.
  destruct (fins_abc Ho) as (Hc & F1 & F2 & _). pose proof patch_abc_ok as K.
  apply (ins_ok_ext J J1 _ patch_extends). destruct K as [O1 O2 O3 O4 O5 O6].
  destruct (fo_ok _ _ _ (pr_fins _ _ P)) as [Q1 Q2 _ _ Q5 _].
  assert (Hres : rescls J (set_op2 i (op2 (fins J))) = Some C32).
  { unfold rescls. cbn [ins_o op1 op2 set_op2]. rewrite Hio. cbn [kind]. by rewrite H1, F1, F2. }
  constructor; cbn [ins_o ins_t op1 op2 set_op2]; try done.
  - intros _. apply Q2. by rewrite Ho.
  - intros _ N. rewrite Hres. rewrite (proj1 (O5 Hio)) in O4. apply O4; by rewrite Hio.
  - intros _. split; [done|]. by apply Q5.
  - by rewrite Hio.
Qed.

Lemma patch_sem : sem_wf J1.
Proof using P Ho Hi Hio H1.
  split.
  - apply patch_wf; [apply (pr_sem _ _ P)|done|by rewrite Hio].
  - intros r j [[-> ->]|[_ Hj]]%patch_lookup Hjo; [apply patch_new_ok|].
    apply (ins_ok_ext J J1 _ patch_extends). by eapply sw_ins; [apply P| |].
Qed.

Lemma patch_kint rho r j : consistent J1 rho -> ir J !! r = Some j -> ins_o j = IR_KINT -> rho r = ins_i j.
Proof using Ho Hi Hio.
  intros C Hj Hjo. assert (Hne : r <> ref) by congruence.
  destruct (C _ _ (patch_old _ _ Hne Hj)) as [_ Q]. unfold eval in Q.
  rewrite rescls_none, Hjo in Q by by rewrite Hjo. done.
Qed.

(** The constants involved, and the check that the new IR makes. *)
Lemma patch_val rho : consistent J1 rho ->
  rho (op2 (fins J)) = ins_i (fright J) /\ rho (op2 i) = ins_i (IR J (op2 i)) /\
  0 <= ins_i (IR J (op2 i)) /\ is_i32 (ins_i (IR J (op2 i))) /\
  u32 (rho (op2 (fins J))) < u32 (rho (op1 (fins J))).
Proof using P Ho Hr Hi Hio H1 Hk2.
  intros C. pose proof patch_abc_ok as K.
  destruct (io_op2 _ _ K ltac:(by rewrite Hio)) as [kj Hkj].
  destruct (proj2 (io_abc _ _ K Hio) kj Hk2 Hkj) as [Hko Hkp].
  destruct (ref_kint J _ kj (pr_sem _ _ P) Hkj Hko) as (_ & Rk & _).
  unfold IR. rewrite Hkj. cbn [from_option id].
  destruct Hr as [Hr1 Hr2]. split_and!; [by eapply patch_kint|by eapply patch_kint|done..|].
  destruct (C _ _ patch_new) as [_ Q]. unfold eval in Q. rewrite (proj1 (io_abc _ _ patch_new_ok Hio)) in Q.
  unfold eval_op in Q. cbn [ins_o op1 op2 set_op2] in Q. rewrite Hio, H1 in Q.
  destruct (Z.ltb_spec (u32 (rho (op2 (fins J)))) (u32 (rho (op1 (fins J))))); done.
Qed.

Lemma patch_back rho : consistent J1 rho -> consistent J rho.
Proof using P Ho Hr Hi Hio H1 Hk2 Hlt.
  intros C. split; [|apply (scev_run_ext J J1 rho patch_extends), C]. intros r j Hj. destruct (decide (r = ref)) as [->|Hne].
  - rewrite Hi in Hj. injection Hj as <-. destruct (C _ _ patch_new) as [Ht _]. split; [done|].
    unfold eval. rewrite (proj1 (io_abc _ _ patch_abc_ok Hio)). unfold eval_op. rewrite Hio, H1.
    destruct (patch_val rho C) as (E1 & E2 & E3 & E4 & E5). rewrite E1 in E5. rewrite E2.
    destruct (right_kint J c P Hr) as (_ & R2 & _). rewrite (proj2 (Z.ltb_lt _ _)); [done|]. widths. wsolve.
  - destruct (C _ _ (patch_old _ _ Hne Hj)) as [Ht Q]. split; [done|].
    rewrite <- (eval_ext J J1 rho j patch_extends); [done| |].
    + eapply wf_kins; [apply (pr_sem _ _ P)|done].
    + intros. by eapply sw_ins; [apply P| |].
Qed.

Lemma patch_abc_post : post J c DROPFOLD J1.
Proof using P Ho Hr Hi Hio H1 Hk2 Hlt.
  destruct (fins_abc Ho) as (Hc & _). constructor; [apply patch_sem|apply patch_extends|apply patch_back|].
  split; [by rewrite Ho|]. intros rho C. rewrite (eval_fins J c), Hc by done.
  unfold eval_op. rewrite Ho. destruct (patch_val rho C) as (_ & _ & _ & _ & E5).
  by rewrite (proj2 (Z.ltb_lt _ _) E5).
Qed.
End Patch.

Lemma abc_k_sound : ins_o (fins J) = IR_ABC -> right_is J IR_KINT -> abc_k J = Ok (x, J') -> post J c x J'.
Proof using P.
  intros Ho Hr E. destruct (fins_abc Ho) as (Hc & F1 & F2 & _). unfold abc_k in E.
  destruct (has_flag _ _); [|fr E; next]. pose proof op1_pos as Hp.
  match type of E with context [chain_search J IR_ABC ?p ?l] =>
    destruct (chain_search_spec J IR_ABC p l (sw_wf _ (pr_sem _ _ P)) ltac:(done) ltac:(lia))
      as [[E0 _]|(Hlim & i & Hi & Hio & Hp')] end.
  { rewrite E0 in E. cbn [Z.eqb negb] in E. by apply EMITFOLD_sound. }
  replace (chain_search _ _ _ _ =? 0) with false in E by (symmetry; apply Z.eqb_neq; lia).
  set (ref := chain_search _ _ _ _) in *. apply andb_true_iff in Hp' as [Hp1%Z.eqb_eq Hp2].
  assert (EI : IR J ref = i) by (unfold IR; by rewrite Hi).
  fr E. cbn [negb] in E. rewrite !EI in E.
  destruct (right_kint J c P Hr) as (_ & R2 & V2).
  assert (K : ins_ok J i) by (eapply sw_ins; [apply P|done|by rewrite Hio]).
  assert (Hkf : irref_isk (op2 (fins J)) = true).
  { apply Z.ltb_lt, (wf_k J (sw_wf _ (pr_sem _ _ P)) _ _ (proj1 Hr)). by rewrite (proj2 Hr). }
  destruct (Z.ltb_spec (ins_i (IR J (op2 i))) (ins_i (fright J))) as [Hlt|Hge]; injection E as <- <-.
  - by apply patch_abc_post.
  - apply (post_cond J c true); [done|by rewrite Ho|]. intros rho C. unfold eval_op. rewrite Ho. f_equal.
    apply Z.ltb_lt. pose proof (abc_passes _ _ _ Hi Hio C) as A. rewrite Hp1 in A.
    destruct (io_op2 _ _ K ltac:(by rewrite Hio)) as [kj Hkj].
    destruct (proj2 (io_abc _ _ K Hio) kj Hp2 Hkj) as [Hko Hkp].
    destruct (ref_kint J _ kj (pr_sem _ _ P) Hkj Hko) as (_ & Rk & Vk). rewrite (Vk rho C) in A.
    unfold IR in Hge. rewrite Hkj in Hge. cbn [from_option id] in Hge. rewrite (V2 rho C).
    destruct (proj2 (io_abc _ _ (fo_ok _ _ _ (pr_fins _ _ P)) Ho) _ Hkf (proj1 Hr)) as [_ Hp0].
    widths. wsolve.
Qed.

(** ** Rules that emit instructions *)

Context `{T : Target}.
Variable rec : jit_State -> res fold_err (Z * jit_State).
Hypothesis (Rok : rec_ok rec) (Rsh : forall J r J', rec J = Ok (r, J') -> shrinks J J').

Lemma safe32 f : cls_of (ins_t f) = C32 -> safe64 f = true.
Proof using. unfold safe64. intros ->. by destruct (ins_o f). Qed.

Lemma rec_pre K f d : sem_wf K -> extends J K -> fins_ok K f d -> hard K f = false ->
  is_val (ins_o f) = true -> d = C32 -> pre0 (set_fins K f) d.
Proof using P.
  intros S X Hf Hh Hv Hd. pose proof (set_fins_same K f) as Es.
  destruct (same_ir_sem _ _ Es S) as (S0 & X0 & B0). constructor; try done.
  - by apply (fins_ok_same K).
  - apply (scev_ok_ext J); [by eapply extends_trans|apply P].
  - intros _. apply safe32. rewrite <- Hd. apply (io_cls _ _ (fo_ok _ _ _ Hf)); [by apply val_abc|apply Hf].
Qed.

(** Emit [f] first. *)
Lemma rec_emit K f d r J1 : sem_wf K -> extends J K -> fins_ok K f d -> hard K f = false ->
  is_val (ins_o f) = true -> d = C32 -> rec (set_fins K f) = Ok (r, J1) -> room J1 ->
  sem_wf J1 /\ extends K J1 /\ (forall rho, consistent J1 rho -> consistent K rho) /\ opcls J1 r = C32 /\
  forall rho v, consistent J1 rho -> eval_op d f (rho (op1 f)) (rho (op2 f)) = Val v -> rho r = v.
Proof using P Rok.
  intros S X Hf Hh Hv Hd E R. pose proof (rec_pre K f d S X Hf Hh Hv Hd) as Q.
  pose proof (set_fins_same K f) as Es. destruct (same_ir_sem _ _ Es S) as (S0 & X0 & B0).
  destruct (proj1 (Rok _ _ Q) r J1 E R) as [S1 X1 B1 C1 V1]. split_and!; try done.
  - by eapply extends_trans.
  - intros rho C. by apply B0, B1.
  - rewrite <- Hd. by apply C1.
  - intros rho v C He. specialize (V1 rho C). rewrite (same_ir_eval K) in V1 by done.
    cbn [fins set_fins] in V1. rewrite (eval_ok K f d), He in V1 by done. done.
Qed.

(** [(x & k1) shift k2 ==> (x shift k2) & (k1 shift k2)] *)
Lemma shiftk_andk_val o a k1 n : c = C32 -> o = IR_BSHL \/ o = IR_BSHR \/ o = IR_BROL \/ o = IR_BROR ->
  0 <= n < bits c ->
  eqm c (shop c o (wr c (a .& k1)) n) (wr c (shop c o a n) .& wr c (shop c o k1 n)).
Proof using.
  clear P. intros Hc Ho Hn.
  transitivity (shop c o (a .& k1) n); [apply shop_cong; [lia|apply wr_eqm]|].
  transitivity (shop c o a n .& shop c o k1 n); [|symmetry; apply eqm_land; apply wr_eqm].
  destruct (bits_pow c) as (w & Hw & Ew).
  assert (Hm : forall i, 0 <= i mod bits c < bits c) by (intros; apply Z.mod_pos_bound, bits_pos).
  apply eqm_bits. intros i Hi. destruct Ho as [-> |[-> |[-> | ->]]]; cbn [shop].
  - by tbits.
  - unfold un. tbits. rewrite !mod_pow2_testbit by lia. tbits. btauto.
  - rewrite Z.land_spec, !(rol_testbit (bits c) w) by (done || apply un_range).
    unfold un. rewrite !mod_pow2_testbit by (apply Hm || pose proof (bits_pos c); lia). tbits. btauto.
  - rewrite Z.land_spec, !(ror_testbit (bits c) w) by (done || apply un_range).
    unfold un. rewrite !mod_pow2_testbit by (apply Hm || pose proof (bits_pos c); lia). tbits. btauto.
Qed.

Lemma emitted_retry f1 r1 J1 k r2 J2 f p : sem_wf J1 -> extends J J1 ->
  (forall rho, consistent J1 rho -> consistent J rho) -> opcls J1 r1 = C32 -> is_i32 k ->
  lj_ir_kint J1 k = (r2, J2) -> room J2 -> c = C32 ->
  kind (ins_o (fins J)) = Kshift -> f = mkIns IR_BAND IRT_INT r1 r2 p ->
  (forall rho v, consistent J1 rho -> eval_op c f1 (rho (op1 f1)) (rho (op2 f1)) = Val v -> rho r1 = v) ->
  (forall rho, consistent J rho -> exists v, eval_op c f1 (rho (op1 f1)) (rho (op2 f1)) = Val v /\
     eval_op c (fins J) (rho (op1 (fins J))) (rho (op2 (fins J))) = Val (wr c (v .& k))) ->
  post J c RETRYFOLD (set_fins J2 f).
Proof using P.
  intros S1 X1 B1 C1 Hk Ek R Hc Ho -> V1 Q. destruct (kint_kres J1 k r2 J2 S1 Hk Ek R) as [S2 X2 B2 F2 K2 _].
  apply post_retry_ext; try done; auto.
  - by eapply extends_trans.
  - rewrite Hc. apply ok_bin; try done; [|apply K2]. cbn [op1]. rewrite (opcls_ext J1 J2); [done|done|].
    by eapply opcls_some.
  - unfold retry_ok, hard, safe64. cbn [ins_o]. by destruct (ins_o (fins J)).
  - intros Hv. by destruct (ins_o (fins J)).
  - intros rho C. destruct (Q rho) as (v & H1 & ->); [auto|]. ev.
    by rewrite (V1 rho v), (ic_val _ _ _ _ K2 rho C) by auto.
Qed.

Lemma simplify_shiftk_andk_sound :
  (ins_o (fins J) = IR_BSHL \/ ins_o (fins J) = IR_BSHR \/ ins_o (fins J) = IR_BROL \/ ins_o (fins J) = IR_BROR) ->
  left_is J IR_BAND -> right_is J IR_KINT ->
  simplify_shiftk_andk rec J = Ok (x, J') -> room J' -> post J c x J'.
Proof using P Rok.
  intros Ho Hl Hr E R. assert (Hk : kind (ins_o (fins J)) = Kshift) by (by destruct Ho as [-> |[-> |[-> | ->]]]).
  destruct (fins_shift J c P Hk) as (F1 & F2 & Hi & Ht & V).
  destruct (left_bin J c P _ Hl eq_refl F1 Hi) as (L1 & L2 & W).
  destruct (right_kint J c P Hr) as (H2 & R2 & V2).
  unfold simplify_shiftk_andk in E. fr E. destruct (irt_isphi _); [next|].
  destruct (op_eqb (ins_o (IR J (op2 (fleft J)))) IR_KINT) eqn:Ek; [|next].
  destruct (kint_at J c P _ Ek) as (K1 & K2 & K3). set (k1 := ins_i (IR J (op2 (fleft J)))) in *.
  assert (Hc : c = C32) by congruence. set (n := ins_i (fright J)) in *.
  set (k := kfold_intop k1 n (ins_o (fins J))) in *.
  set (f1 := set_op1 (fins J) (op1 (fleft J))) in *.
  apply bind_Ok in E as ([r1 J1] & Er & E). destruct (lj_ir_kint J1 k) as [r2 J2] eqn:E2. injection E as <- <-.
  assert (Hok : fins_ok J f1 c) by (apply ok_shift; done).
  assert (Hkk : is_i32 k) by by apply intop_range.
  assert (R1 : room J1) by (eapply shrinks_room; [by eapply kint_shrinks|done]).
  destruct (rec_emit J f1 c r1 J1) as (S1 & X1 & B1 & C1 & V1); try done; [apply P|apply extends_refl|..|].
  { by destruct Ho as [Ho|[Ho|[Ho|Ho]]]; unfold hard; cbn; rewrite Ho. }
  { by destruct Ho as [Ho|[Ho|[Ho|Ho]]]; cbn; rewrite Ho. }
  eapply (emitted_retry f1 r1 J1 k r2 J2); try done.
   intros rho C. destruct (W rho C) as (_ & _ & Q).
  eexists. split; [by apply eval_shift|]. cbn [ins_o op1 op2 f1 set_op1]. rewrite eval_shift by done.
  f_equal. apply wr_cong. unfold eval_op in Q. rewrite Hl in Q. cbn [passes] in Q.
  rewrite Q, (K3 rho C). unfold k. rewrite (intop_shift c), (V2 rho C) by done.
  apply shiftk_andk_val; try done. apply Z.mod_pos_bound, bits_pos.
Qed.

Definition narrow_op (o : IROp) (a b : Z) : Z :=
  match o with IR_ADD => a + b | IR_SUB => a - b | _ => a * b end.

Lemma eval_narrow d f a b : ins_o f = IR_ADD \/ ins_o f = IR_SUB \/ ins_o f = IR_MUL ->
  eval_op d f a b = Val (wr d (narrow_op (ins_o f) a b)).
Proof using. unfold eval_op. by intros [-> |[-> | ->]]. Qed.

Lemma narrow_val o a b :
  i32 (narrow_op o (i32 a) (i32 b)) = i32 (wr C64 (narrow_op o a b)).
Proof using.
  transitivity (i32 (narrow_op o a b)); [|simpl; wsolve].
  apply (wr_cong C32). destruct o; cbn [narrow_op]; by rewrite !(wr_eqm C32).
Qed.

Lemma cls_of_type t : cls_of (irt_type t) = cls_of t.
Proof using. unfold cls_of, irt_type. by rewrite <- Z.land_assoc. Qed.

Lemma emit_conv_ok K o : conv_ok (op2 (fins J)) = true -> op2 (fins J) < 0x4000 -> c = C32 -> c = cls_of (conv_dst (op2 (fins J))) ->
  extends J K -> opcls J o = C64 -> cls_of (conv_src (op2 (fins J))) = C64 ->
  fins_ok K (mkIns IR_CONV IRT_INT o (op2 (fins J)) (prev (fins K))) c.
Proof using.
  clear P. intros Hk Hl Hc Hd X Ho Hs. apply ok_conv; cbn [ins_o ins_t op1 op2]; try done.
  rewrite Hs. by apply (opcls_grow J).
Qed.

(** Both operands are narrowed before the operation. *)
Lemma simplify_conv_narrow_sound :
  ins_o (fins J) = IR_CONV -> ins_o (fleft J) = IR_ADD \/ ins_o (fleft J) = IR_SUB \/ ins_o (fleft J) = IR_MUL ->
  conv_dst (op2 (fins J)) = IRT_INT \/ conv_dst (op2 (fins J)) = IRT_U32 ->
  conv_src (op2 (fins J)) = IRT_I64 \/ conv_src (op2 (fins J)) = IRT_U64 ->
  simplify_conv_narrow rec J = Ok (x, J') -> room J' -> post J c x J'.
Proof using P Rok Rsh.
  intros Ho Hl Hd Hs E R. destruct (fins_conv Ho) as (F1 & F2 & F3 & F4 & Ht & Hlit & V).
  unfold simplify_conv_narrow in E. fr E. destruct (irt_isphi _); [next|].
  assert (Hc : c = C32) by (rewrite F4; by destruct Hd as [-> | ->]).
  assert (Hsc : cls_of (conv_src (op2 (fins J))) = C64) by (by destruct Hs as [-> | ->]).
  assert (Hc64 : opcls J (op1 (fins J)) = C64) by congruence.
  assert (Hkl : kind (ins_o (fleft J)) = Kbin) by (by destruct Hl as [-> |[-> | ->]]).
  destruct (ref_op J _ _ C64 (pr_sem _ _ P) (pr_left _ _ P)) as (Hr & _ & _ & W); try done;
    [by unfold iop; rewrite Hkl|by intros E0; rewrite E0 in Hkl|by rewrite Hkl|].
  pose proof (rescls_inv _ _ _ Hr) as G. rewrite Hkl in G. destruct G as (G1 & G2 & _).
  apply bind_Ok in E as ([r1 J1] & E1 & E). apply bind_Ok in E as ([r2 J2] & E2 & E). injection E as <- <-.
  assert (R1 : room J1) by (eapply shrinks_room; [by apply Rsh in E2|exact R]).
  destruct (rec_emit J _ c r1 J1 (pr_sem _ _ P) (extends_refl J)
    (emit_conv_ok J _ F1 Hlit Hc F4 (extends_refl J) G1 Hsc)) as (S1 & X1 & B1 & C1 & V1); try done.
  destruct (rec_emit J1 _ c r2 J2 S1 X1 (emit_conv_ok J1 _ F1 Hlit Hc F4 X1 G2 Hsc))
    as (S2 & X2 & B2 & C2 & V2); try done.
  apply post_retry_ext; [done|done|by eapply extends_trans|auto|..].
  - apply ok_bin; cbn [ins_o ins_t op1 op2]; rewrite ?cls_of_type, ?Hc; try done; [|congruence].
    by eapply opcls_grow.
  - assert (Hsf : bool_decide (cls_of (irt_type (ins_t (fins J))) = C32) = true).
    { apply bool_decide_true. by rewrite cls_of_type, Ht. }
    unfold retry_ok, hard, safe64. cbn [ins_o ins_t]. rewrite Ho. destruct Hl as [-> |[-> | ->]]; by split_and!.
  - by rewrite Ho.
  - intros rho C. specialize (W rho ltac:(auto)). rewrite eval_narrow in W by done. cbn [passes] in W.
    rewrite (eval_narrow c) by done. cbn [ins_o op1 op2].
    rewrite (V2 rho _ C eq_refl). rewrite (V1 rho _ ltac:(auto) eq_refl). cbn [op1 op2].
    unfold eval_op. rewrite Ho, W. unfold eval_conv. rewrite <- F4, Hc.
    destruct Hs as [-> | ->]; cbn [Z.eqb Pos.eqb]; f_equal; apply narrow_val.
Qed.

Lemma kfold_add_kright_sound :
  ins_o (fins J) = IR_ADD -> kfold_add_kright J = Ok (x, J') -> post J c x J'.
Proof using P.
  intros Ho E. unfold kfold_add_kright in E. fr E. destruct (_ || _); [|next]. injection E as <- <-.
  destruct (fins_bin J c P) as (F1 & F2 & Hi & Ht & V); [by rewrite Ho|].
  apply post_retry; [done|by apply ok_bin; cbn; rewrite ?Ho|rok|].
  intros rho C. ev. rewrite Ho. f_equal. weq.
Qed.
End Conv.
