(* ===== verification/FoldSound.v ===== *)
(** * Soundness of the fold engine

    Every rule of the table, where its key matches, is sound; so is a pass
    through the rules, and so is the engine. *)

From S2P Require Import Prelude Machine Carith Num Ir IrInv Fold FoldMono FoldSem FoldInv FoldConst FoldArith FoldConv.

(** ** Keys *)

Lemma K_any o : K o < ANYL.
Proof. by destruct o. Qed.

Section Keys.
Variables (J : jit_State) (c : cls).
Hypothesis (P : pre J c).

Lemma IR_at ref i : ir J !! ref = Some i -> nk J <= ref /\ IR J ref = i.
Proof using P.
  intros H. split; [|unfold IR; by rewrite H]. apply (wf_dom J (sw_wf _ (pr_sem _ _ P))). eauto.
Qed.

Lemma key_left o : K o = ANYL \/ K o = fold_left J -> left_is J o.
Proof using P.
  intros [H|H]; [pose proof (K_any o); lia|]. destruct (IR_at _ _ (pr_left _ _ P)) as [Hn E].
  unfold fold_left in H. rewrite (proj2 (Z.leb_le _ _) Hn), E in H. symmetry. by apply irop_num_inj.
Qed.

Lemma key_right o : unary (ins_o (fins J)) = false -> K o = ANYR \/ K o = fold_right J -> right_is J o.
Proof using P.
  intros Hu [H|H]; [pose proof (K_any o); unfold ANYL, ANYR in *; lia|].
  destruct (io_op2 _ _ (fo_ok _ _ _ (pr_fins _ _ P)) Hu) as [i Hi]. destruct (IR_at _ _ Hi) as [Hn E].
  unfold fold_right in H. rewrite (proj2 (Z.leb_le _ _) Hn), E in H. apply irop_num_inj in H.
  pose proof (pr_right _ _ P i Hi) as Hf. rewrite <- Hf in *. done.
Qed.

Lemma key_conv d s : ins_o (fins J) = IR_CONV -> conv_lit d s <> ANYR ->
  conv_dst (conv_lit d s) = d -> conv_src (conv_lit d s) = s ->
  conv_lit d s = ANYR \/ conv_lit d s = fold_right J ->
  conv_dst (op2 (fins J)) = d /\ conv_src (op2 (fins J)) = s.
Proof using P.
  intros Ho Hn Ed Es [H|H]; [done|]. rewrite <- Ed at 1. rewrite <- Es at 2. clear Ed Es. set (lit := conv_lit d s) in *. pose proof (wf_nk J (sw_wf _ (pr_sem _ _ P))).
  destruct (io_conv _ _ (fo_ok _ _ _ (pr_fins _ _ P)) Ho) as (_ & _ & Hlt).
  unfold fold_right in H. replace (nk J <=? op2 (fins J)) with false in H by lia. rewrite H.
  apply and_comm, conv_lit_bits. intros n Hb. rewrite Z.land_spec. change 0x3ff with (Z.ones 10).
  by rewrite Z.ones_spec_low, andb_true_r by lia.
Qed.

(** ** Keys that do not occur with integer instructions *)

Lemma num_cls ref i : ir J !! ref = Some i -> ins_o i = IR_KNUM -> opcls J ref = CN.
Proof using P.
  intros H Ho. pose proof (wf_kins J (sw_wf _ (pr_sem _ _ P)) _ _ H) as Hk. unfold kins_ok in Hk. rewrite Ho in Hk.
  unfold opcls, ins_cls. rewrite H, Ho. by destruct Hk as [-> _].
Qed.

Lemma no_kind : kind (ins_o (fins J)) = Knone -> False.
Proof using P. intros H. pose proof (fins_inv J c P) as F. by rewrite H in F. Qed.

Lemma no_left_num : left_is J IR_KNUM -> kind (ins_o (fins J)) <> Kcmp -> False.
Proof using P.
  intros Hl Hk. pose proof (num_cls _ _ (pr_left _ _ P) Hl) as H. pose proof (fins_inv J c P) as F.
  destruct (kind (ins_o (fins J))); try done; rewrite H in F; destruct c; intuition (simplify_eq/=; congruence).
Qed.

Lemma no_right_num : right_is J IR_KNUM -> match kind (ins_o (fins J)) with Kcmp | Kun | Kconv => False | _ => True end ->
  False.
Proof using P.
  intros [Hr Ho] Hk. pose proof (num_cls _ _ Hr Ho) as H. pose proof (fins_inv J c P) as F.
  destruct (kind (ins_o (fins J))); try done; rewrite H in F; destruct c; intuition (simplify_eq/=; congruence).
Qed.

Lemma no_null : kind (ins_o (fins J)) = Kcmp -> left_is J IR_KNULL \/ right_is J IR_KNULL -> False.
Proof using P.
  intros Hk Hn. pose proof (fins_inv J c P) as F. rewrite Hk in F. destruct F as (F1 & F2 & F3). apply F3.
  unfold opcls, ins_cls in *. destruct Hn as [Hn|[Hr Hn]].
  - by rewrite (pr_left _ _ P), Hn in F1.
  - by rewrite Hr, Hn in F2.
Qed.

Lemma op_at_left o : left_is J o -> op_at J (op1 (fins J)) o = true.
Proof using P. intros H. unfold op_at. rewrite (pr_left _ _ P). by apply op_eqb_eq. Qed.
Lemma op_at_right o : right_is J o -> op_at J (op2 (fins J)) o = true.
Proof using. intros [Hr H]. unfold op_at. rewrite Hr. by apply op_eqb_eq. Qed.

Lemma no_right_int : right_is J IR_KINT -> kind (ins_o (fins J)) = K64 -> False.
Proof using P.
  intros Hr Hk. destruct (right_kint J c P Hr) as (H & _). pose proof (fins_inv J c P) as F.
  rewrite Hk in F. destruct F as (_ & F & _). congruence.
Qed.

Lemma no_conv : ins_o (fins J) = IR_CONV -> conv_ok (op2 (fins J)) = false -> False.
Proof using P.
  intros Ho H. pose proof (fins_inv J c P) as F. rewrite Ho in F. destruct F as (F & _). congruence.
Qed.

Lemma safe_c32 : is_val (ins_o (fins J)) = true -> safe64 (fins J) = true ->
  match ins_o (fins J) with
  | IR_BAND | IR_BOR | IR_BXOR | IR_BNOT | IR_BSWAP | IR_BSHR | IR_BSAR | IR_BROL | IR_BROR | IR_NEG | IR_CONV => True
  | _ => c = C32
  end.
Proof using P.
  intros Hv Hs. pose proof (pre_cls J c P (val_abc _ Hv)) as Hc. unfold safe64 in Hs.
  destruct (ins_o (fins J)); try done; apply bool_decide_eq_true in Hs; congruence.
Qed.

End Keys.

(** ** The rules of the table *)

Section Entries.
Context `{T : Target}.
Variable rec : jit_State -> res fold_err (Z * jit_State).
Hypothesis (Rok : rec_ok rec) (Rsh : forall J r J', rec J = Ok (r, J') -> shrinks J J').

(** Rules for 64-bit subtraction and division are wrong. *)
Definition covered (o : IROp) (c : cls) : Prop := o <> IR_DIV /\ (o = IR_SUB -> c = C32).

(** The rule of [e] is applied to [J]. *)
Record applies (e : fold_entry) (J : jit_State) (c : cls) : Prop := {
  ap_pre : pre J c;
  ap_hard : hard J (fins J) = false;
  ap_cover : covered (ins_o (fins J)) c;
  ap_op : ins_o (fins J) = fe_op e;
  ap_left : fe_left e = ANYL \/ fe_left e = fold_left J;
  ap_right : fe_right e = ANYR \/ fe_right e = fold_right J;
}.

Definition entry_sound (e : fold_entry) : Prop := forall J c, applies e J c ->
  (forall x J', fe_fn e J = Ok (x, J') -> room J' -> post J c x J') /\
  (is_val (ins_o (fins J)) = false -> fe_fn e J <> Err LJ_TRERR_GFAIL /\
     forall x J', fe_fn e J = Ok (x, J') -> room J -> room J').


(** The rule that [e] names is sound. *)
Ltac side := first
  [ assumption
  | match goal with H : ins_o (fins ?J) = _ |- context [ins_o (fins ?J)] => rewrite H end;
    first [reflexivity | assumption | tauto]
  | cbv zeta; tauto ].

Ltac rule_by L := eapply L; solve [eassumption | side].

Ltac rule_sound :=
  lazymatch goal with
  | E : ?f _ = Ok _ |- post _ _ _ _ =>
    lazymatch f with
    | kfold_intarith => first [rule_by kfold_intarith_sound | rule_by kfold_intneg_sound]
    | kfold_bnot => rule_by kfold_bnot_sound
    | kfold_bswap => rule_by kfold_bswap_sound
    | kfold_intcomp => rule_by kfold_intcomp_sound
    | kfold_intcomp0 => rule_by kfold_intcomp0_sound
    | kfold_int64arith => rule_by kfold_int64arith_sound
    | kfold_int64shift => rule_by kfold_int64shift_sound
    | kfold_bnot64 => rule_by kfold_bnot64_sound
    | kfold_bswap64 => rule_by kfold_bswap64_sound
    | kfold_int64arith2 => rule_by kfold_int64arith2_sound
    | kfold_int64comp => rule_by kfold_int64comp_sound
    | kfold_int64comp0 => rule_by kfold_int64comp0_sound
    | kfold_numcomp => rule_by kfold_numcomp_sound
    | kfold_kref => first [rule_by (fun J c x J' P => kfold_kref_sound J c x J' P IR_KINT)
        | rule_by (fun J c x J' P => kfold_kref_sound J c x J' P IR_KINT64)
        | rule_by (fun J c x J' P => kfold_kref_sound J c x J' P IR_KGC)]
    | kfold_add_kptr => rule_by kfold_add_kptr_sound
    | kfold_add_kright => rule_by kfold_add_kright_sound
    | kfold_conv_kint_ext => rule_by kfold_conv_kint_ext_sound
    | kfold_conv_kint_i64 => rule_by kfold_conv_kint_i64_sound
    | kfold_conv_kint64_int_i64 => rule_by kfold_conv_kint64_int_i64_sound
    | shortcut_leftleft => rule_by shortcut_leftleft_sound
    | simplify_numadd_negx => rule_by simplify_numadd_negx_sound
    | simplify_numadd_xneg => rule_by simplify_numadd_xneg_sound
    | simplify_numsub_xneg => rule_by simplify_numsub_xneg_sound
    | simplify_nummuldiv_negneg => rule_by simplify_mul_negneg_sound
    | simplify_intadd_k => rule_by simplify_intadd_k_sound
    | simplify_intmul_k => rule_by simplify_intmul_k_sound
    | simplify_intsub_k => rule_by simplify_intsub_k_sound
    | simplify_intadd_k64 => rule_by simplify_intadd_k64_sound
    | simplify_intsub_k64 => rule_by simplify_intsub_k64_sound
    | simplify_intmul_k32 => rule_by simplify_intmul_k32_sound
    | simplify_intmul_k64 => rule_by simplify_intmul_k64_sound
    | simplify_intmod_k => rule_by simplify_intmod_k_sound
    | simplify_intmod_kleft => rule_by simplify_intmod_kleft_sound
    | simplify_intsub_kleft => rule_by simplify_intsub_kleft_sound
    | simplify_intsub => rule_by simplify_intsub_sound
    | simplify_intsubadd_leftcancel => rule_by simplify_intsubadd_leftcancel_sound
    | simplify_intsubsub_leftcancel => rule_by simplify_intsubsub_leftcancel_sound
    | simplify_intsubsub_rightcancel => rule_by simplify_intsubsub_rightcancel_sound
    | simplify_intsubadd_rightcancel => rule_by simplify_intsubadd_rightcancel_sound
    | simplify_intsubaddadd_cancel => rule_by simplify_intsubaddadd_cancel_sound
    | simplify_band_k => rule_by simplify_band_k_sound
    | simplify_bor_k => rule_by simplify_bor_k_sound
    | simplify_bxor_k => rule_by simplify_bxor_k_sound
    | simplify_shift_ik => rule_by simplify_shift_ik_sound
    | simplify_shift_andk => rule_by simplify_shift_andk_sound
    | simplify_shift1_ki => rule_by simplify_shift1_ki_sound
    | simplify_shift2_ki => rule_by simplify_shift2_ki_sound
    | simplify_shiftk_andk _ => rule_by simplify_shiftk_andk_sound
    | simplify_andk_shiftk => rule_by simplify_andk_shiftk_sound
    | reassoc_intarith_k => rule_by reassoc_intarith_k_sound
    | reassoc_intarith_k64 => rule_by reassoc_intarith_k64_sound
    | reassoc_dup => rule_by reassoc_dup_sound
    | reassoc_bxor => rule_by reassoc_bxor_sound
    | reassoc_minmax_k => rule_by reassoc_minmax_k_sound
    | reassoc_minmax_left => rule_by reassoc_minmax_left_sound
    | reassoc_minmax_right => rule_by reassoc_minmax_right_sound
    | reassoc_shift => rule_by reassoc_shift_sound
    | comm_swap => rule_by comm_swap_sound
    | comm_equal => rule_by comm_equal_sound
    | comm_comp => rule_by comm_comp_sound
    | comm_dup => rule_by comm_dup_sound
    | comm_bxor => rule_by comm_bxor_sound
    | simplify_conv_int_i64 => rule_by simplify_conv_int_i64_sound
    | simplify_conv_sext => rule_by simplify_conv_sext_sound
    | simplify_conv_narrow _ => rule_by simplify_conv_narrow_sound
    | cse_conv => rule_by cse_conv_sound
    | abc_fwd => rule_by abc_fwd_sound
    | abc_k => rule_by abc_k_sound
    | abc_invar => rule_by abc_invar_sound
    end
  end.

(** What the key of an entry says. *)
Ltac use_keys P Ho Hl Hr :=
  first [apply (key_left _ _ P) in Hl | clear Hl];
  first [apply (key_right _ _ P) in Hr; [|by rewrite Ho]
        | apply (key_conv _ _ P) in Hr; [|exact Ho|done|reflexivity|reflexivity]; destruct Hr as [Hd Hs]
        | clear Hr].

(** The entry does not apply to integer instructions. *)
Ltac no_entry P Ho Hsafe := first
  [ apply (no_kind _ _ P); by rewrite Ho
  | apply (no_left_num _ _ P); [assumption|by rewrite Ho]
  | apply (no_right_num _ _ P); [assumption|by rewrite Ho]
  | apply (no_null _ _ P); [by rewrite Ho|tauto]
  | apply (no_right_int _ _ P); [assumption|by rewrite Ho]
  | apply (proj1 Hsafe); exact Ho
  | match goal with H : hard _ _ = false |- _ => unfold hard in H; rewrite Ho in H;
      rewrite (op_at_left _ _ P), op_at_right in H by eassumption; discriminate H end
  | apply (no_conv _ _ P Ho); unfold conv_ok; cbv zeta;
    repeat match goal with H : conv_dst _ = _ |- _ => rewrite H; clear H | H : conv_src _ = _ |- _ => rewrite H; clear H end;
    reflexivity ].

(** Rules for comparisons do not abort the recording. *)
Ltac no_fail Ho :=
  let Hv := fresh in intros Hv; first
  [ rewrite Ho in Hv; discriminate Hv
  | match goal with |- ?t <> _ /\ _ => let h := head t in unfold h end;
    unfold CSEFOLD, comm_swap, PHIBARRIER, EMITFOLD, ret; cbv zeta;
    repeat match goal with
    | |- context [if ?b then Ok _ else _] => destruct b
    | |- context [if ?b then _ else Ok _] => destruct b
    | |- context [if ?b then (if _ then _ else _) else _] => destruct b
    end; (split; [discriminate|intros ? ? [= <- <-] Hroom; exact Hroom]) ].

Lemma fold_table_sound : Forall entry_sound (fold_table rec).
Proof using Rok Rsh.
  unfold fold_table.
  repeat (apply Forall_cons_2; [
    intros J c [P Hh Hsafe Ho Hl Hr]; cbn [fe_op fe_left fe_right fe_fn] in *; use_keys P Ho Hl Hr;
    first [solve [exfalso; no_entry P Ho Hsafe]
          | split; [intros x J' E R; try solve [rule_sound]|try solve [no_fail Ho]]]|]).
  - eapply simplify_intsubsub_leftcancel_sound; try eassumption. by apply (proj2 Hsafe).
  - eapply simplify_intsubadd_rightcancel_sound; try eassumption. by apply (proj2 Hsafe).
  - intros _. unfold abc_k. destruct (has_flag _ _); [|split; [done|by intros ? ? [= <- <-]]].
    destruct (negb _); split; try done; intros x J' [= <- <-] Hroom; [by destruct (_ <? _)|exact Hroom].
  - apply Forall_nil_2.
Qed.

(** ** A pass through the rules *)

Variable ext : list fold_entry.
Hypothesis (Esound : Forall entry_sound ext).
Hypothesis (Esh : Forall (fun e => rule_shrinks (fe_fn e)) ext).

Lemma fold_lookup_sound o l r f : fold_lookup (fold_table rec ++ ext) o l r = Some f ->
  exists e, fe_op e = o /\ fe_left e = l /\ fe_right e = r /\ fe_fn e = f /\ entry_sound e /\ rule_shrinks f.
Proof using Rok Rsh Esound Esh.
  intros (e & Hin & H1 & H2 & H3 & H4)%fold_lookup_in. exists e. rewrite <- H4. split_and!; try done;
    apply in_app_iff in Hin as [Hin|Hin].
  - exact (proj1 (List.Forall_forall _ _) fold_table_sound e Hin).
  - exact (proj1 (List.Forall_forall _ _) Esound e Hin).
  - exact (proj1 (List.Forall_forall _ _) (fold_table_shrinks rec Rsh) e Hin).
  - exact (proj1 (List.Forall_forall _ _) Esh e Hin).
Qed.

Lemma fold_try_sound J c keys : pre J c -> hard J (fins J) = false -> covered (ins_o (fins J)) c ->
  Forall (fun k => (fst k = ANYL \/ fst k = fold_left J) /\ (snd k = ANYR \/ snd k = fold_right J)) keys ->
  (forall x J', fold_try rec ext (ins_o (fins J)) keys J = Ok (x, J') -> room J' -> post J c x J') /\
  (is_val (ins_o (fins J)) = false -> room J ->
     fold_try rec ext (ins_o (fins J)) keys J <> Err LJ_TRERR_GFAIL /\
     forall x J', fold_try rec ext (ins_o (fins J)) keys J = Ok (x, J') -> room J').
Proof using Rok Rsh Esound Esh.
  intros P Hh Hsafe. induction keys as [|[l r] keys IH]; intros Hk; cbn [fold_try].
  { split; [intros x J' [= <- <-] _; by apply post_next|]. intros _ R. split; [done|by intros x J' [= <- <-]]. }
  apply Forall_cons_1 in Hk as [[Hl Hr] Hk]. specialize (IH Hk). cbn [fst snd] in Hl, Hr.
  destruct (fold_lookup _ _ l r) as [f|] eqn:E; [|exact IH].
  apply fold_lookup_sound in E as (e & E1 & E2 & E3 & E4 & Es & Ef).
  destruct (Es J c) as [S1 S2]; [by constructor; rewrite ?E2, ?E3|]. rewrite E4 in S1, S2.
  assert (N : forall J', f J = Ok (NEXTFOLD, J') -> room J' -> J' = J).
  { intros J' E R. by destruct (S1 _ _ E R) as [_ _ _ H]. }
  split.
  - intros x J' ([y J1] & Ey & H)%bind_Ok R.
    destruct y; try (injection H as <- <-; by apply S1).
    assert (R1 : room J1) by (eapply shrinks_room; [by eapply fold_try_shrinks|done]).
    rewrite (N J1) in H by done. by apply (proj1 IH).
  - intros Hv R. destruct (S2 Hv) as [S3 S4], (proj2 IH Hv R) as [I1 I2].
    destruct (f J) as [[y J1]|e'] eqn:Ey; cbn; [|split; [congruence|done]].
    pose proof (S4 y J1 eq_refl R) as R1.
    destruct y; try (split; [done|by intros x J' [= <- <-]]). rewrite (N J1) by done. done.
Qed.

(** ** The engine *)

(** Loading the operands. *)
Lemma fold_load_same J : same_ir J (fold_load J).
Proof using. by split_and!. Qed.

Lemma fold_load_pre J c : sem_wf J -> fins_ok J (fins J) c -> scev_ok J -> pre (fold_load J) c.
Proof using.
  intros S F V. destruct (same_ir_sem _ _ (fold_load_same J) S) as (S1 & _ & _). constructor; try done.
  - by apply (fins_ok_same J _ _ _ (fold_load_same J)).
  - destruct (io_op1 _ _ (fo_ok _ _ _ F)) as [i Hi]. cbn. unfold IR. rewrite Hi.
    assert (nk J <= op1 (fins J)) by (apply (wf_dom J (sw_wf _ S)); eauto).
    by rewrite (proj2 (Z.leb_le _ _)).
  - intros i Hi. cbn in *. unfold IR. rewrite Hi.
    assert (nk J <= op2 (fins J)) by (apply (wf_dom J (sw_wf _ S)); eauto).
    by rewrite (proj2 (Z.leb_le _ _)).
Qed.

Lemma fold_round_ok J c : sem_wf J -> fins_ok J (fins J) c -> scev_ok J ->
  hard J (fins J) = false -> covered (ins_o (fins J)) c ->
  (forall x J', fold_round rec ext J = Ok (x, J') -> room J' -> post (fold_load J) c x J') /\
  (is_val (ins_o (fins J)) = false -> room J -> fold_round rec ext J <> Err LJ_TRERR_GFAIL /\
     forall x J', fold_round rec ext J = Ok (x, J') -> room J').
Proof using Rok Rsh Esound Esh.
  intros S F V Hh Hc. pose proof (fold_load_pre J c S F V) as P.
  apply (fold_try_sound (fold_load J) c (fold_keys (fold_left J) (fold_right J)) P Hh Hc).
  unfold fold_keys. repeat (apply Forall_cons_2; [by split; [first [by left|by right]|first [by left|by right]]|]).
  by apply Forall_nil_2.
Qed.
End Entries.

(** The rules of the other parts of the VM are sound for integer instructions. *)
Record ext_ok `{Target} (ext : (jit_State -> res fold_err (Z * jit_State)) -> list fold_entry) : Prop := {
  xo_shrinks : forall rec, (forall J r J', rec J = Ok (r, J') -> shrinks J J') ->
    Forall (fun e => rule_shrinks (fe_fn e)) (ext rec);
  xo_sound : forall rec, rec_ok rec -> (forall J r J', rec J = Ok (r, J') -> shrinks J J') ->
    Forall entry_sound (ext rec);
}.

Lemma pre0_pre J c : pre0 J c -> pre (fold_load J) c.
Proof. intros [S F V _ _]. by apply fold_load_pre. Qed.

Lemma pre0_covered J c : pre0 J c -> covered (ins_o (fins J)) c.
Proof.
  intros Q. pose proof (pre0_pre J c Q) as P. pose proof (safe_c32 _ _ P) as H. pose proof (p0_cls _ _ Q) as Hs.
  pose proof (fins_inv _ _ P) as F. change (fins (fold_load J)) with (fins J) in *. split.
  - intros Ho. rewrite Ho in *. specialize (H eq_refl (Hs eq_refl)). cbn in F. destruct F as (_ & _ & F). congruence.
  - intros Ho. rewrite Ho in *. exact (H eq_refl (Hs eq_refl)).
Qed.

(** *** From rules to whole runs *)

Lemma post_fpost J c ref J' : post J c (FREF ref) J' -> fpost J c ref J'.
Proof. intros [S X B (_ & R2 & R3)]. by constructor. Qed.

Lemma fpost_load J c ref J' : sem_wf J -> fpost (fold_load J) c ref J' -> fpost J c ref J'.
Proof.
  intros S [S' X B Hc Hv]. pose proof (fold_load_same J) as E.
  destruct (same_ir_sem _ _ E S) as (_ & X0 & B0).
  constructor; [done|by eapply extends_trans|by auto|done|done].
Qed.

Lemma fpost_next J c ref J' : pre J c -> (is_val (ins_o (fins J)) = true -> safe64 (fins J) = true) ->
  lj_opt_cse J = (ref, J') -> fpost J c ref J'.
Proof.
  intros P Hs E. apply post_fpost. eapply lj_opt_cse_sound; [done| |done].
  destruct (is_val (ins_o (fins J))) eqn:Hv.
  - pose proof (safe_c32 J c P Hv (Hs eq_refl)). destruct (ins_o (fins J)); auto.
  - left. by destruct (ins_o (fins J)).
Qed.

Lemma fpost_kint J c ref J1 J' : post J c KINTFOLD J1 -> lj_ir_kint J1 (ins_i (fins J1)) = (ref, J') -> room J' ->
  fpost J c ref J'.
Proof.
  intros [S X B (Hc & Hv & Hk & H)] E R. destruct (kint_kres J1 _ ref J' S Hk E R) as [S' X' B' F K _].
  constructor; try done.
  - by eapply extends_trans.
  - auto.
  - intros _. rewrite Hc. apply K.
  - intros rho C. apply H; [auto|]. by apply K.
Qed.

Lemma retry_pre J c J1 : pre0 J c -> post (fold_load J) c RETRYFOLD J1 -> pre0 J1 c.
Proof.
  intros [S F V H Hs] [S1 X B (F1 & (R1 & R2 & R3) & _ & _)]. constructor; try done.
  - exact (scev_ok_ext _ _ X V).
  - by apply R2.
  - intros Hv. cbn in R1. rewrite R1 in Hv. by apply R3, Hs.
Qed.

Lemma fpost_retry J c J1 ref J' : post J c RETRYFOLD J1 -> fpost J1 c ref J' -> fpost J c ref J'.
Proof.
  intros [S X B (F1 & (R1 & _) & _ & Hev)] [S' X' B' Hc Hv]. constructor; try done.
  - by eapply extends_trans.
  - auto.
  - rewrite <- R1. exact Hc.
  - intros rho C. rewrite <- Hev by auto. auto.
Qed.

(** *** When optimizations are off *)

Lemma cse_load J l r ref J' : lj_opt_cse J = (ref, J') ->
  lj_opt_cse (set_lr J l r) = (ref, set_lr J' l r).
Proof.
  unfold lj_opt_cse. intros H. change (chain_search (set_lr J l r)) with (chain_search J).
  change (fins (set_lr J l r)) with (fins J). change (has_flag (set_lr J l r)) with (has_flag J).
  destruct (negb _); by injection H as <- <-.
Qed.

Lemma fpost_set_lr J c ref J' l r : fpost J c ref (set_lr J' l r) -> fpost J c ref J'.
Proof.
  intros [S X B Hc Hv]. assert (E : same_ir (set_lr J' l r) J') by by split_and!.
  destruct (same_ir_sem _ _ E S) as (S1 & X1 & B1).
  constructor; [done|by eapply extends_trans|by auto|done|by auto].
Qed.

Lemma cse_bypass J c ref J' : pre0 J c -> lj_opt_cse J = (ref, J') -> fpost J c ref J'.
Proof.
  intros Q E. pose proof (pre0_pre J c Q) as P. apply fpost_load; [apply Q|].
  eapply fpost_set_lr, (fpost_next _ c ref _ P); [apply Q|]. by apply cse_load.
Qed.

Lemma emit_bypass J c ref J' : pre0 J c -> lj_ir_emit J = (ref, J') -> fpost J c ref J'.
Proof.
  intros Q E. pose proof (pre0_pre J c Q) as P. apply fpost_load; [apply Q|].
  eapply (fpost_set_lr _ c ref J' (fleft (fold_load J)) (fright (fold_load J))), post_fpost, (append_post _ c _ P).
  injection E as <- <-. reflexivity.
Qed.

Lemma opt_fold_ok `{Target} ext fuel start : ext_ok ext -> rec_ok (opt_fold ext fuel start).
Proof.
  intros X. revert start. induction fuel as [|fuel IH]; intros start J c Q; [by split|]. cbn [opt_fold].
  destruct (if start then fold_bypass J else None) as [[]|].
  { split; [|done]. intros ref J' E _. apply cse_bypass; [done|congruence]. }
  { split; [|done]. intros ref J' E _. apply emit_bypass; [done|congruence]. }
  set (rec := opt_fold ext fuel true).
  assert (Rsh : forall start J r J', opt_fold ext fuel start J = Ok (r, J') -> shrinks J J').
  { intros s. apply opt_fold_shrinks, X. }
  destruct (fold_round_ok rec (IH true) (Rsh true) (ext rec) (xo_sound ext X rec (IH true) (Rsh true))
    (xo_shrinks ext X rec (Rsh true)) J c) as [S1 S2]; [apply Q..|by apply pre0_covered|].
  pose proof (pre0_pre J c Q) as P. split.
  - intros ref J' ([x J1] & E1 & E)%bind_Ok R. specialize (S1 x J1 E1). apply fpost_load; [apply Q|].
    destruct x; cbn [fold_result] in E.
    + destruct (lj_opt_cse J1) as [r1 J2] eqn:Ec. injection E as <- <-.
      assert (R1 : room J1) by (eapply shrinks_room; [by eapply cse_shrinks|done]).
      destruct (S1 R1) as [_ _ _ EJ]. cbn in EJ. subst J1. by apply fpost_next; [|apply Q|].
    + assert (R1 : room J1) by (eapply shrinks_room; [by eapply (Rsh false)|done]).
      apply (fpost_retry _ c J1); [by apply S1|]. apply (IH false J1 c); [by apply (retry_pre J), S1|done..].
    + destruct (lj_ir_kint J1 _) as [r1 J2] eqn:Ek. injection E as <- <-.
      assert (R1 : room J1) by (eapply shrinks_room; [by eapply kint_shrinks|done]).
      by eapply fpost_kint; [apply S1|..].
    + done.
    + injection E as <- <-. destruct (S1 R) as [S' X' B' (Hv & Hp)]. constructor; try done.
      * cbn in *. congruence.
      * intros rho C. by rewrite Hp.
    + injection E as <- <-. by apply post_fpost, S1.
  - intros Hv R E rho C. destruct (S2 Hv R) as [N R1].
    destruct (fold_round rec (ext rec) J) as [[x J1]|e]; cbn in E; [|congruence].
    specialize (S1 x J1 eq_refl (R1 x J1 eq_refl)). specialize (R1 x J1 eq_refl).
    change (eval (fold_load J) rho (fins J) = Exit).
    pose proof (same_ir_consistent J (fold_load J) rho (fold_load_same J) C) as C0.
    destruct x; cbn [fold_result] in E; try done.
    + pose proof (retry_pre J c J1 Q S1) as Q1. destruct S1 as [_ _ _ (F1 & (V1 & _) & Es & Hev)].
      specialize (Es Hv). cbn in V1, Hev. rewrite <- Hev.
      * apply (IH false J1 c Q1); try done; [by rewrite V1|]. by apply (same_ir_consistent (fold_load J)).
      * by apply (same_ir_consistent (fold_load J)).
    + destruct S1 as [_ _ _ (_ & Es & Hx)]. rewrite <- (Hx rho); [done|].
      by apply (same_ir_consistent (fold_load J)).
Qed.
