(* ===== verification/FoldProps.v ===== *)
(** * What the fold engine guarantees

    The statements about [lj_opt_fold] and its rules that the previous files
    establish, on whole runs and on examples, and the cases in which the rules
    are wrong. *)

From S2P Require Import Prelude Machine Carith Num Ir IrInv Fold FoldMono FoldSem FoldInv FoldConst FoldArith FoldConv FoldSound.

(** ** Building an IR *)

Lemma sem_setup parent exitno fl : sem_wf (ir_setup parent exitno fl).
Proof.
  split; [apply ir_setup_wf|]. intros ref ins H Hio. unfold ir_setup in H. cbn [ir] in H.
  apply elem_of_list_to_map_2 in H. repeat (apply elem_of_cons in H as [[= -> ->]|H]; [done|]). by apply elem_of_nil in H.
Qed.

(** A recording starts without results of the scalar evolution analysis, and
    what it appends keeps [scev_ok] ([scev_ok_ext]). *)
Lemma scev_setup parent exitno fl : scev_ok (ir_setup parent exitno fl).
Proof. split; [by eexists|]. by vm_compute. Qed.

(** Instructions without integer semantics can be added freely. *)
Lemma sem_other J o t a b ref J' : sem_wf J -> iop o = false -> is_kop o = false ->
  ir_append J o t a b = (ref, J') -> sem_wf J'.
Proof.
  intros [W S] Hio Hk E. destruct (ir_append_spec J o t a b ref J' W Hk E) as (W' & G & F & -> & Hir & Hn).
  pose proof (grows_extends _ _ G) as X. split; [done|]. intros r i H Hi. rewrite Hir in H.
  destruct (decide (r = nins J)) as [->|Hne].
  - rewrite lookup_insert_eq in H. injection H as <-. cbn in Hi. congruence.
  - rewrite lookup_insert_ne in H by done. apply (ins_ok_ext J J' _ X). by apply (S r).
Qed.

(** An integer instruction of class [c] is added. *)
Lemma sem_emit J f c ref J' : sem_wf J -> fins_ok J f c -> scev_ok J ->
  lj_ir_emit (set_fins J f) = (ref, J') -> sem_wf J'.
Proof.
  intros S F V E. destruct (same_ir_sem _ _ (set_fins_same J f) S) as (S1 & _ & _).
  pose proof (fold_load_pre (set_fins J f) c S1 (fins_ok_same J _ f c (set_fins_same J f) F) V) as P.
  assert (E' : exists K, ir_append (fold_load (set_fins J f)) (ins_o f) (ins_t f) (op1 f) (op2 f) = (ref, K) /\ same_ir K J').
  { injection E as <- <-. eexists. by split. }
  destruct E' as (K & E' & Es). apply (same_ir_sem _ _ Es). eapply po_sem, (append_post _ c K P), E'.
Qed.

(** ** Claims *)

(** C1: the fold engine is sound.  Given an instruction of integer type in a
    well-typed IR, the reference [lj_opt_fold] returns refines it: the new
    IR extends the old one and is well-typed, and in every run of the new IR in
    which no guard exits, the old IR runs without exit, too, and the reference
    has the value the instruction has (its guard passes).

    The instructions are 32-bit arithmetic, 64-bit bit operations, negations
    and conversions, comparisons and bounds checks.  Not covered: 64-bit
    addition, subtraction, multiplication, division, modulo, power and shifts
    to the left ([safe64]; a single pass through the rules is [fold_round_sound]), and, as
    [hard] says, signed comparisons of two 64-bit constants (they are folded
    wrongly, see [int64comp_signed_wrong]) and overflow checks of two
    constants.  The scalar evolution slot is as a recording starts it
    ([scev_setup]) or describes a numeric for loop whose bound is missing or
    constant ([scev_ok]; for others see [conv_sext_stop_wrong]); then a run is
    one in which the recorder's bound on the loop index holds and additions of
    constants to the index do not overflow ([scev_run]).  The rules for other
    parts of the VM are assumed sound for integer instructions. *)
Theorem lj_opt_fold_sound `{Target} ext fuel J c ref J' :
  ext_ok ext -> sem_wf J -> fins_ok J (fins J) c -> scev_ok J -> hard J (fins J) = false ->
  (is_val (ins_o (fins J)) = true -> safe64 (fins J) = true) ->
  lj_opt_fold ext fuel J = Ok (ref, J') -> room J' ->
  sem_wf J' /\ extends J J' /\ (is_val (ins_o (fins J)) = true -> opcls J' ref = c) /\
  forall rho, consistent J' rho -> consistent J rho /\ passes rho (eval J rho (fins J)) ref.
Proof.
  intros X S F V Hh Hs E R. destruct (proj1 (opt_fold_ok ext fuel true X J c ltac:(by constructor)) ref J' E R)
    as [S' X' B Hc Hv]. split_and!; try done. intros rho C. auto.
Qed.

(** C30: aborting the recording is justified: when [lj_opt_fold] fails with
    [LJ_TRERR_GFAIL] for a comparison or a bounds check, the guard exits in
    every run of the trace recorded so far, in the sense of C1.  Signed
    comparisons of two 64-bit constants are not covered: there it is false,
    see [int64comp_signed_wrong]. *)
Theorem lj_opt_fold_gfail `{Target} ext fuel J c :
  ext_ok ext -> sem_wf J -> fins_ok J (fins J) c -> scev_ok J -> hard J (fins J) = false ->
  is_val (ins_o (fins J)) = false -> room J ->
  lj_opt_fold ext fuel J = Err LJ_TRERR_GFAIL ->
  forall rho, consistent J rho -> eval J rho (fins J) = Exit.
Proof.
  intros X S F V Hh Hv R E. apply (proj2 (opt_fold_ok ext fuel true X J c ltac:(constructor; try done; congruence)) Hv R E).
Qed.

(** One pass through the rules is sound for 64-bit arithmetic, too, except
    for subtraction and division: a rule that applies, whatever its key, is
    right about the value, the type and the guard of the instruction, about
    the constants it interns and about the instruction it asks to retry. *)
Theorem fold_round_sound `{Target} ext fuel J c x J' :
  ext_ok ext -> sem_wf J -> fins_ok J (fins J) c -> scev_ok J -> hard J (fins J) = false ->
  ins_o (fins J) <> IR_DIV -> (ins_o (fins J) = IR_SUB -> c = C32) ->
  fold_round (opt_fold ext fuel true) (ext (opt_fold ext fuel true)) J = Ok (x, J') -> room J' ->
  sem_wf J' /\ extends J J' /\ (forall rho, consistent J' rho -> consistent J rho) /\
  result (fold_load J) c x J'.
Proof.
  intros X S F V Hh Hd Hs E R. set (rec := opt_fold ext fuel true) in *.
  assert (Rsh : forall J r J', rec J = Ok (r, J') -> shrinks J J') by apply opt_fold_shrinks, X.
  pose proof (opt_fold_ok ext fuel true X) as Rok.
  destruct (proj1 (fold_round_ok rec Rok Rsh (ext rec) (xo_sound ext X rec Rok Rsh)
    (xo_shrinks ext X rec Rsh) J c S F V Hh (conj Hd Hs)) x J' E R) as [S' X' B Hr].
  destruct (same_ir_sem _ _ (fold_load_same J) S) as (_ & X0 & B0).
  split_and!; [done|by eapply extends_trans|by auto|done].
Qed.

(** ** Examples *)

#[local] Instance ex_target : Target := {|
  LJ_TARGET_X86ORX64 := true; LJ_TARGET_MASKSHIFT := true; LJ_TARGET_MASKROT := true; LJ_TARGET_UNIFYROT := false;
  lj_vm_foldfpm := fun x _ => x; libm_pow := fun x _ => x; libm_atan2 := fun x _ => x; libm_ldexp := fun x _ => x |}.

Lemma no_ext_ok : ext_ok (fun _ => []).
Proof. constructor; intros; apply Forall_nil_2. Qed.

(** The analysis slot holds nothing. *)
Ltac no_scev := split; [eexists; vm_compute; reflexivity|vm_compute; discriminate].

(** A recording that loaded an integer [x] and computed [x + 5]. *)
Definition ex_x := snd (ir_append (ir_setup 0 0 JIT_F_OPT_DEFAULT) IR_SLOAD IRT_INT 1 0).
Definition ex_5 := snd (lj_ir_kint ex_x 5).
Definition ex_x5 := snd (lj_ir_emit (set_fins ex_5 (mkIns IR_ADD IRT_INT 0x8001 0x7ffc 0))).
Definition ex_7 := snd (lj_ir_kint ex_x5 7).
(** [(x + 5) + 7] and [x + 5 <u 0]. *)
Definition ex_add := set_fins ex_7 (mkIns IR_ADD IRT_INT 0x8002 0x7ffb 0).

Lemma ex_5_sem : sem_wf ex_5.
Proof.
  eapply kr_sem, (kint_kres ex_x 5 0x7ffc ex_5); [|done|vm_compute; reflexivity|by split].
  by apply (sem_other (ir_setup 0 0 JIT_F_OPT_DEFAULT) IR_SLOAD IRT_INT 1 0 0x8001 ex_x); [apply sem_setup|..].
Qed.

Lemma ex_7_sem : sem_wf ex_7.
Proof.
  eapply kr_sem, (kint_kres ex_x5 7 0x7ffb ex_7); [|done|vm_compute; reflexivity|by split].
  apply (sem_emit ex_5 (mkIns IR_ADD IRT_INT 0x8001 0x7ffc 0) C32 0x8002 ex_x5); [apply ex_5_sem| |no_scev|done].
  by apply ok_bin.
Qed.

(** The index [i] of the loop [for i = 1, ...], and its conversion to 64 bits. *)
Definition with_scev (J : jit_State) (sc : ScEvEntry) : jit_State :=
  mkJ (ir J) (nk J) (nins J) (chain J) (k64 J) (guardemit J) (fins J) (fleft J) (fright J) (flags J) sc.
Definition I64_INT : Z := (IRT_I64 << 5) .| IRT_INT.
Definition ex_1 := snd (lj_ir_kint (ir_setup 0 0 JIT_F_OPT_DEFAULT) 1).
Definition ex_i := snd (ir_append ex_1 IR_SLOAD IRT_INT 1 0).
Definition ex_loop := set_fins (with_scev ex_i (mkScev 0x8001 0x7ffc 0 1)) (mkIns IR_CONV IRT_I64 0x8001 (I64_INT .| IRCONV_SEXT) 0).

Lemma sem_scev J sc : sem_wf J -> sem_wf (with_scev J sc).
Proof.
  intros [W S]. split; [by destruct W; constructor|]. intros ref ins H Hi. by destruct (S ref ins H Hi); constructor.
Qed.

Lemma ex_i_sem : sem_wf ex_i.
Proof.
  apply (sem_other ex_1 IR_SLOAD IRT_INT 1 0 0x8001 ex_i); [|done..].
  eapply kr_sem, (kint_kres _ 1 0x7ffc ex_1); [apply sem_setup|done|vm_compute; reflexivity|by split].
Qed.

(** Testing the result of the engine. *)
Definition fold_test (J : jit_State) (p : Z -> jit_State -> bool) : bool :=
  match lj_opt_fold (fun _ => []) 9 J with
  | Ok (r, J') => (0x4000 <=? nk J') && (Z.of_nat (length (k64 J')) <? 2 ^ 31) && p r J'
  | Err _ => false
  end.

Lemma fold_test_ok J p : fold_test J p = true ->
  exists r J', lj_opt_fold (fun _ => []) 9 J = Ok (r, J') /\ room J' /\ p r J' = true.
Proof.
  unfold fold_test. destruct (lj_opt_fold _ _ J) as [[r J']|e]; [|done].
  intros [[H1%Z.leb_le H2%Z.ltb_lt]%andb_true_iff H3]%andb_true_iff. exists r, J'. by split_and!.
Qed.

(** [x + 5 + 7] becomes [x + 12]; the loop index loses its sign extension. *)
Lemma lj_opt_fold_sound_witness :
  (exists J', lj_opt_fold (fun _ => []) 9 ex_add = Ok (0x8003, J') /\
     ir J' !! 0x8003 = Some (mkIns IR_ADD IRT_INT 0x8001 0x7ffa 0x8002) /\
     forall rho, consistent J' rho -> rho 0x8003 = i32 (rho 0x8002 + rho 0x7ffb)) /\
  exists J', lj_opt_fold (fun _ => []) 9 ex_loop = Ok (0x8002, J') /\
     ir J' !! 0x8002 = Some (mkIns IR_CONV IRT_I64 0x8001 I64_INT 0) /\
     forall rho, consistent J' rho -> rho 0x8002 = u64 (rho 0x8001).
Proof.
  assert (T : forall J r i, fold_test J (fun r' J' => (r' =? r) && bool_decide (ir J' !! r = Some i)) = true ->
    exists J', lj_opt_fold (fun _ => []) 9 J = Ok (r, J') /\ room J' /\ ir J' !! r = Some i).
  { intros J r i H. apply fold_test_ok in H as (ref & J' & E & R & [Hr%Z.eqb_eq Hi%bool_decide_eq_true]%andb_true_iff). subst ref. by exists J'. }
  split.
  - destruct (T ex_add 0x8003 (mkIns IR_ADD IRT_INT 0x8001 0x7ffa 0x8002)) as (J' & E & R & Hi); [by vm_compute|].
    exists J'. split; [exact E|]. split; [exact Hi|].
    destruct (lj_opt_fold_sound (fun _ => []) 9 ex_add C32 0x8003 J' no_ext_ok) as (_ & _ & _ & V); [|..|exact E|exact R|].
    + apply (same_ir_sem _ _ (set_fins_same ex_7 _)), ex_7_sem.
    + apply ok_bin; vm_compute; reflexivity.
    + no_scev.
    + vm_compute. reflexivity.
    + intros _. vm_compute. reflexivity.
    + intros rho C. apply (V rho C).
  - destruct (T ex_loop 0x8002 (mkIns IR_CONV IRT_I64 0x8001 I64_INT 0)) as (J' & E & R & Hi); [by vm_compute|].
    exists J'. split; [exact E|]. split; [exact Hi|].
    destruct (lj_opt_fold_sound (fun _ => []) 9 ex_loop C64 0x8002 J' no_ext_ok) as (_ & _ & _ & V); [|..|exact E|exact R|].
    + apply (same_ir_sem _ _ (set_fins_same (with_scev ex_i _) _)), sem_scev, ex_i_sem.
    + by apply fins_ok_intro; [vm_compute; reflexivity|vm_compute; reflexivity|..].
    + split; [eexists; vm_compute; reflexivity|]. intros _. right. vm_compute. reflexivity.
    + vm_compute. reflexivity.
    + intros _. vm_compute. reflexivity.
    + intros rho C. apply (V rho C).
Defined.

(** [7 < 5] *)
Definition ex_lt := set_fins ex_7 (mkIns IR_LT (IRT_INT .| IRT_GUARD) 0x7ffb 0x7ffc 0).

Lemma lj_opt_fold_gfail_witness : lj_opt_fold (fun _ => []) 1 ex_lt = Err LJ_TRERR_GFAIL /\
  forall rho, consistent ex_lt rho -> eval ex_lt rho (fins ex_lt) = Exit.
Proof.
  assert (E : lj_opt_fold (fun _ => []) 1 ex_lt = Err LJ_TRERR_GFAIL) by (vm_compute; reflexivity).
  split; [exact E|]. apply (lj_opt_fold_gfail (fun _ => []) 1 ex_lt C32 no_ext_ok).
  - apply (same_ir_sem _ _ (set_fins_same ex_7 _)), ex_7_sem.
  - apply fins_ok_intro; [vm_compute; reflexivity|vm_compute; reflexivity|done|done].
  - no_scev.
  - vm_compute. reflexivity.
  - reflexivity.
  - by split.
  - exact E.
Defined.

(** A 64-bit integer times one. *)
Definition ex_y := snd (ir_append (ir_setup 0 0 JIT_F_OPT_DEFAULT) IR_SLOAD IRT_I64 1 0).
Definition ex_y1 := snd (lj_ir_kint64 ex_y 1).
Definition ex_mul := set_fins ex_y1 (mkIns IR_MUL IRT_I64 0x8001 0x7ffc 0).

Lemma ex_y1_sem : sem_wf ex_y1.
Proof.
  eapply kr_sem, (kint64_kres ex_y 1 0x7ffc ex_y1); [|done|vm_compute; reflexivity|by split].
  by apply (sem_other (ir_setup 0 0 JIT_F_OPT_DEFAULT) IR_SLOAD IRT_I64 1 0 0x8001 ex_y); [apply sem_setup|..].
Qed.

Lemma fold_round_sound_witness :
  fold_round (opt_fold (fun _ => []) 1 true) [] ex_mul = Ok (FREF 0x8001, fold_load ex_mul) /\
  forall rho, consistent (fold_load ex_mul) rho -> rho 0x8001 = u64 (rho 0x8001 * rho 0x7ffc).
Proof.
  assert (E : fold_round (opt_fold (fun _ => []) 1 true) [] ex_mul = Ok (FREF 0x8001, fold_load ex_mul)) by reflexivity.
  split; [exact E|].
  destruct (fold_round_sound (fun _ => []) 1 ex_mul C64 (FREF 0x8001) (fold_load ex_mul) no_ext_ok)
    as (_ & _ & _ & _ & _ & V).
  - apply (same_ir_sem _ _ (set_fins_same ex_y1 _)), ex_y1_sem.
  - apply ok_bin; vm_compute; reflexivity.
  - no_scev.
  - vm_compute. reflexivity.
  - discriminate.
  - discriminate.
  - exact E.
  - by split.
  - intros rho C. apply (V rho C).
Defined.

(** ** Cases in which the rules are wrong *)

(** A test for [consistent]. *)
Definition passesb (rho : Z -> Z) (out : outcome) (ref : Z) : bool :=
  match out with Val v => rho ref =? v | Exit => false | Unk | Pass => true end.
Definition in_typeb (t v : Z) : bool :=
  match cls_of t with
  | C32 => if irt_isu8 t then (0 <=? v) && (v <? 2 ^ 8) else if irt_isu16 t then (0 <=? v) && (v <? 2 ^ 16)
           else (- 2 ^ 31 <=? v) && (v <? 2 ^ 31)
  | C64 => (0 <=? v) && (v <? 2 ^ 64)
  | _ => true
  end.
Definition consistentb (J : jit_State) (rho : Z -> Z) : bool :=
  (negb (bool_decide (opcls J (scev_idx (scev J)) = C32)) || negb (op_at J (scev_lo J) IR_KINT)) &&
  forallb (fun p => in_typeb (ins_t (snd p)) (rho (fst p)) && passesb rho (eval J rho (snd p)) (fst p))
    (map_to_list (ir J)).

Lemma consistentb_ok J rho : consistentb J rho = true -> consistent J rho.
Proof.
  intros [V H]%andb_true_iff. split.
  2:{ intros Hc lo Hlo Ho. exfalso. rewrite bool_decide_true in V by done. unfold op_at in V. by rewrite Hlo, (proj2 (op_eqb_eq _ _) Ho) in V. }
  intros ref ins Hi. rewrite forallb_forall in H.
  specialize (H (ref, ins)). cbn [fst snd] in H.
  assert (Hin : In (ref, ins) (map_to_list (ir J))) by by apply list_elem_of_In, elem_of_map_to_list.
  apply H, andb_true_iff in Hin as [H1 H2]. split.
  - unfold in_type, in_typeb in *. destruct (cls_of _); try done; [|widths; lia].
    destruct (irt_isu8 _); [widths; lia|]. destruct (irt_isu16 _); widths; lia.
  - unfold passes, passesb in *. destruct (eval _ _ _); try done. by apply Z.eqb_eq.
Qed.

Definition ex_k := snd (lj_ir_kint64 (snd (lj_ir_kint64 (ir_setup 0 0 JIT_F_OPT_DEFAULT) (2 ^ 64 - 1))) 1).
Definition ex_lt64 := set_fins ex_k (mkIns IR_LT (IRT_I64 .| IRT_GUARD) 0x7ffc 0x7ffb 0).

(** C40: signed 64-bit comparisons of constants are folded as unsigned ones: for
    [-1LL < 1LL] the engine aborts although the guard passes. *)
Theorem int64comp_signed_wrong : lj_opt_fold (fun _ => []) 1 ex_lt64 = Err LJ_TRERR_GFAIL /\
  exists rho, consistent ex_lt64 rho /\ eval ex_lt64 rho (fins ex_lt64) = Pass.
Proof.
  split; [vm_compute; reflexivity|]. exists (fun r => if r =? 0x7ffc then 2 ^ 64 - 1 else 1).
  split; [apply consistentb_ok; vm_compute; reflexivity|vm_compute; reflexivity].
Qed.

(** The index of a loop that counts down to [stop], which is no constant. *)
Definition ex_stop := snd (ir_append (snd (ir_append (ir_setup 0 0 JIT_F_OPT_DEFAULT) IR_SLOAD IRT_INT 1 0)) IR_SLOAD IRT_INT 2 0).
Definition ex_down := set_fins (with_scev ex_stop (mkScev 0x8001 0 0x8002 0)) (mkIns IR_CONV IRT_I64 0x8001 (I64_INT .| IRCONV_SEXT) 0).

(** The lower bound of a loop that counts down is read as a constant although
    it may be any instruction: the fields of its operands are taken for a
    number that is not negative, and the sign extension of the index is
    dropped.  For the index -1 the 64-bit value changes. *)
Theorem conv_sext_stop_wrong : exists rho, consistent ex_down rho /\
  match simplify_conv_sext (fold_load ex_down) with
  | Ok (RETRYFOLD, J') => (eval ex_down rho (fins ex_down), eval J' rho (fins J'))
  | _ => (Unk, Unk)
  end = (Val (2 ^ 64 - 1), Val (2 ^ 32 - 1)).
Proof.
  exists (fun r => if r =? 0x8001 then -1 else if r =? 0x8002 then -5 else 0).
  split; [apply consistentb_ok; vm_compute; reflexivity|vm_compute; reflexivity].
Qed.

Definition emit1 (J : jit_State) (o : IROp) (t a b : Z) : jit_State := snd (lj_ir_emit (lj_ir_set J o t a b)).
Definition ex_xy := emit1 (emit1 (ir_setup 0 0 JIT_F_OPT_DEFAULT) IR_SLOAD IRT_U64 1 0) IR_SLOAD IRT_U64 2 0.
Definition ex_nxny := emit1 (emit1 ex_xy IR_NEG IRT_U64 0x8001 0x8001) IR_NEG IRT_U64 0x8002 0x8002.
Definition ex_div := lj_ir_set ex_nxny IR_DIV IRT_U64 0x8003 0x8004.

(** C39: [(-x) / (-y) ==> x / y] is applied to 64-bit integers, for which it is
    wrong: with [x = 1], [y = 2] the division is 1 and its replacement is 0. *)
Theorem div_negneg_wrong : exists rho, consistent ex_div rho /\
  match simplify_nummuldiv_negneg (fold_load ex_div) with
  | Ok (RETRYFOLD, J') => (eval ex_div rho (fins ex_div), eval J' rho (fins J'))
  | _ => (Unk, Unk)
  end = (Val 1, Val 0).
Proof.
  exists (fun r => if r =? 0x8001 then 1 else if r =? 0x8002 then 2 else if r =? 0x8003 then 2 ^ 64 - 1
    else if r =? 0x8004 then 2 ^ 64 - 2 else 0).
  split; [apply consistentb_ok; vm_compute; reflexivity|vm_compute; reflexivity].
Qed.

Definition ex_udiv := emit1 ex_xy IR_DIV IRT_U64 0x8001 0x8002.
Definition ex_sdiv := lj_ir_set ex_udiv IR_DIV IRT_I64 0x8001 0x8002.

(** C38: common-subexpression elimination ignores the type: a signed division is
    replaced by an unsigned division of the same operands, whose value differs. *)
Theorem cse_ignores_type : fst (lj_opt_cse ex_sdiv) = 0x8003 /\
  exists rho, consistent ex_sdiv rho /\ eval ex_sdiv rho (fins ex_sdiv) = Val (2 ^ 64 - 1) /\ rho 0x8003 = 2 ^ 63 - 1.
Proof.
  split; [vm_compute; reflexivity|].
  exists (fun r => if r =? 0x8001 then 2 ^ 64 - 2 else if r =? 0x8002 then 2
    else if r =? 0x8003 then 2 ^ 63 - 1 else 0).
  split_and!; [apply consistentb_ok; vm_compute; reflexivity|vm_compute; reflexivity|reflexivity].
Qed.
