(* ===== verification/Tab.v ===== *)
(** * Lua tables ([lj_tab.c], [lj_tab.h])

    The table object with its array part and its hash part: hashing, creation,
    resizing, lookup, insertion with Brent's variation, traversal and length.

    A [TValue] is tagged as its [itype] tells; an object reference is its
    32-bit address ([LJ_GC64] = 0, [LJ_64] = 1).  A node pointer is the index of the
    node in the node vector, and [niltv]/[nilnode] is the one-element vector
    [[nil_node]] of a table without hash part.  [slot] is the [TValue *] a
    setter returns.  The model keeps the calls [newkey] makes to [rehashtab]
    and back to [lj_tab_set] as a parameter [retry] of the setters, tied by
    [tab_retry] with a fuel that counts rehashes. *)

From S2P Require Import Prelude Machine Num.

(** ** Tagged values ([lj_obj.h]) *)

Inductive TValue :=
| Tnil | Tfalse | Ttrue
| Tlightud (p : Z)         (* 47-bit pointer *)
| Tstr (s : Z)             (* address of the GCstr *)
| Tgc (it p : Z)           (* any other collectable object *)
| Tint (k : Z)             (* int32_t, LJ_DUALNUM only *)
| Tnum (u : Z).            (* the bits of a double *)

#[export] Instance TValue_eq_dec : EqDecision TValue.
Proof. solve_decision. Defined.

Definition LJ_TNIL : Z := 0xffffffff.
Definition LJ_TFALSE : Z := 0xfffffffe.
Definition LJ_TTRUE : Z := 0xfffffffd.
Definition LJ_TLIGHTUD : Z := 0xfffffffc.
Definition LJ_TSTR : Z := 0xfffffffb.
Definition LJ_TNUMX : Z := 0xfffffff2.
Definition LJ_TISNUM : Z := 0xfffeffff.
Definition LJ_TISPRI : Z := LJ_TTRUE.

(** The upper 32 bits of the value; a light userdata has the upper 15 bits of
    its pointer there. *)
Definition itype (o : TValue) : Z :=
  match o with
  | Tnil => LJ_TNIL | Tfalse => LJ_TFALSE | Ttrue => LJ_TTRUE
  | Tlightud p => 0xffff0000 + (p >> 32)
  | Tstr _ => LJ_TSTR
  | Tgc it _ => it
  | Tint _ => LJ_TISNUM
  | Tnum u => u >> 32
  end.

(** The lower 32 bits ([o->gcr]); those of a nil or boolean value are not
    defined by the code, and never looked at. *)
Definition gcr (o : TValue) : Z :=
  match o with
  | Tlightud p => u32 p | Tstr s => s | Tgc _ p => p
  | Tint k => u32 k | Tnum u => u32 u | _ => 0
  end.

Definition tvisnil (o : TValue) : bool := itype o =? LJ_TNIL.
Definition tvisbool (o : TValue) : bool := (itype o =? LJ_TFALSE) || (itype o =? LJ_TTRUE).
Definition tvisstr (o : TValue) : bool := itype o =? LJ_TSTR.
Definition tvisnumber (o : TValue) : bool := itype o <=? LJ_TISNUM.
Definition tvisint (o : TValue) : bool := itype o =? LJ_TISNUM.
Definition tvisnum (o : TValue) : bool := itype o <? LJ_TISNUM.
Definition tvispri (o : TValue) : bool := LJ_TISPRI <=? itype o.

(** [numberVnum]: an integer is converted to a double. *)
Definition numberVnum (o : TValue) : Z :=
  match o with Tint k => int2num k | Tnum u => u | _ => 0 end.

(** [lj_obj_equal]: raw equality. *)
Definition lj_obj_equal (o1 o2 : TValue) : bool :=
  if itype o1 =? itype o2 then
    if tvispri o1 then true
    else if negb (tvisnum o1) then gcr o1 =? gcr o2
    else deq (numberVnum o1) (numberVnum o2)
  else if negb (tvisnumber o1) || negb (tvisnumber o2) then false
  else deq (numberVnum o1) (numberVnum o2).

(** ** The table object *)

Record Node := mkNode { val : TValue; key : TValue; next : option nat }.
Definition nil_node : Node := mkNode Tnil Tnil None.

Record GCtab := mkTab {
  nomm : Z;              (* negative metamethod cache *)
  colo : Z;              (* int8_t: size of a colocated array, < 0 if separated *)
  array : list TValue;   (* the allocated array *)
  asize : Z;             (* its size in use *)
  node : list Node;
  hmask : Z;
  freetop : nat
}.

Definition set_nomm (t : GCtab) x := mkTab x (colo t) (array t) (asize t) (node t) (hmask t) (freetop t).
Definition set_node (t : GCtab) x := mkTab (nomm t) (colo t) (array t) (asize t) x (hmask t) (freetop t).
Definition set_freetop (t : GCtab) x := mkTab (nomm t) (colo t) (array t) (asize t) (node t) (hmask t) x.
Definition set_array (t : GCtab) x := mkTab (nomm t) (colo t) x (asize t) (node t) (hmask t) (freetop t).
Definition set_asize (t : GCtab) x := mkTab (nomm t) (colo t) (array t) x (node t) (hmask t) (freetop t).
Definition set_next (x : option nat) (n : Node) := mkNode (val n) (key n) x.
Definition set_val (x : TValue) (n : Node) := mkNode x (key n) (next n).
Definition set_key (x : TValue) (n : Node) := mkNode (val n) x (next n).

Inductive TabErr := TABOV | NANIDX | NILIDX | NEXTIDX | TAB_FUEL | TAB_UB.
#[export] Instance TabErr_eq_dec : EqDecision TabErr.
Proof. solve_decision. Defined.
Abbreviation tres := (res TabErr).

Definition LJ_MAX_HBITS : Z := 26.
Definition LJ_MAX_ABITS : Z := 28.
Definition LJ_MAX_ASIZE : Z := (1 << (LJ_MAX_ABITS - 1)) + 1.
Definition LJ_MAX_COLOSIZE : Z := 16.

(** A [TValue *] into the table. *)
Inductive slot := ArrSlot (i : nat) | HashSlot (n : nat).

Definition arrayslot (t : GCtab) (i : Z) : TValue := default Tnil (array t !! Z.to_nat i).
Definition inarray (t : GCtab) (k : Z) : bool := u32 k <? asize t.

(** Writing through a slot. *)
Definition slot_put (t : GCtab) (s : slot) (v : TValue) : GCtab :=
  match s with
  | ArrSlot i => set_array t (<[i := v]> (array t))
  | HashSlot n => set_node t (alter (set_val v) n (node t))
  end.

(** What the tables rely on: the build configuration, the hash stored in a
    string object and the contents of freshly allocated memory. *)
Class TabEnv := {
  LJ_TARGET_X86ORX64 : bool;
  LJ_DUALNUM : bool;
  strhash : Z -> Z;
  raw_node : nat -> Node;
  raw_tv : nat -> TValue
}.

Section Tab.
Context `{TE : TabEnv}.

(** ** Hashing *)

Definition HASH_BIAS : Z := u32 (- 0x04c11db7).
Definition HASH_ROT1 : Z := 14.
Definition HASH_ROT2 : Z := 5.
Definition HASH_ROT3 : Z := 13.

Definition hashrot (lo hi : Z) : Z :=
  if LJ_TARGET_X86ORX64 then
    let lo := lo .^ hi in let hi := lj_rol 32 hi HASH_ROT1 in
    let lo := u32 (lo - hi) in let hi := lj_rol 32 hi HASH_ROT2 in
    let hi := hi .^ lo in u32 (hi - lj_rol 32 lo HASH_ROT3)
  else
    let lo := lo .^ hi in
    let lo := u32 (lo - lj_rol 32 hi HASH_ROT1) in
    let hi := lo .^ lj_rol 32 hi (HASH_ROT1 + HASH_ROT2) in
    u32 (hi - lj_rol 32 lo HASH_ROT3).

Definition hashmask (t : GCtab) (hash : Z) : nat := Z.to_nat (hash .& hmask t).
Definition hashstr (t : GCtab) (s : Z) : nat := hashmask t (strhash s).
Definition hashnum (t : GCtab) (u : Z) : nat := hashmask t (hashrot (u32 u) (u32 ((u >> 32) << 1))).
Definition hashgcref (t : GCtab) (r : Z) : nat := hashmask t (hashrot r (u32 (r + HASH_BIAS))).

Definition hashkey (t : GCtab) (k : TValue) : nat :=
  if tvisstr k then hashstr t (gcr k)
  else if tvisnum k then hashnum t (numberVnum k)
  else if tvisbool k then hashmask t (LJ_TFALSE - itype k)
  else hashgcref t (gcr k).

(** ** Creation *)

Definition newhpart (t : GCtab) (hbits : Z) : tres GCtab :=
  if LJ_MAX_HBITS <? hbits then Err TABOV
  else
    let hsize := 1 << hbits in
    Ok (mkTab (nomm t) (colo t) (array t) (asize t)
          (raw_node <$> seq 0 (Z.to_nat hsize)) (hsize - 1) (Z.to_nat hsize)).

Definition clearhpart (t : GCtab) : GCtab := set_node t ((fun _ => nil_node) <$> node t).

Definition clearapart (t : GCtab) : GCtab :=
  set_array t (replicate (Z.to_nat (asize t)) Tnil ++ drop (Z.to_nat (asize t)) (array t)).

Definition newtab (asize hbits : Z) : tres GCtab :=
  t ← (if (0 <? asize) && (asize <=? LJ_MAX_COLOSIZE) then
         Ok (mkTab 0xff (i8 asize) (raw_tv <$> seq 0 (Z.to_nat asize)) asize [nil_node] 0 0)
       else if 0 <? asize then
         if LJ_MAX_ASIZE <? asize then Err TABOV
         else Ok (mkTab 0xff 0 (raw_tv <$> seq 0 (Z.to_nat asize)) asize [nil_node] 0 0)
       else Ok (mkTab 0xff 0 [] 0 [nil_node] 0 0));
  if negb (hbits =? 0) then newhpart t hbits else Ok t.

Definition lj_tab_new (asize hbits : Z) : tres GCtab :=
  t ← newtab asize hbits;
  let t := clearapart t in
  Ok (if 0 <? hmask t then clearhpart t else t).

Definition hsize2hbits (s : Z) : Z :=
  if negb (s =? 0) then (if s =? 1 then 1 else 1 + lj_fls (u32 (s - 1))) else 0.

Definition lj_tab_new_ah (a h : Z) : tres GCtab :=
  lj_tab_new (u32 (if 0 <? a then a + 1 else 0)) (hsize2hbits h).

Definition lj_tab_new1 (ahsize : Z) : tres GCtab :=
  t ← newtab (ahsize .& 0xffffff) (ahsize >> 24);
  let t := clearapart t in
  Ok (if 0 <? hmask t then clearhpart t else t).

Definition lj_tab_dup (kt : GCtab) : tres GCtab :=
  t ← newtab (asize kt) (if 0 <? hmask kt then lj_fls (hmask kt) + 1 else 0);
  let n := Z.to_nat (asize kt) in
  let t := set_array (set_nomm t 0) (take n (array kt) ++ drop n (array t)) in
  Ok (if 0 <? hmask kt then set_freetop (set_node t (node kt)) (freetop kt) else t).

Definition lj_tab_clear (t : GCtab) : GCtab :=
  let t := clearapart t in
  if 0 <? hmask t then clearhpart (set_freetop t (Z.to_nat (hmask t + 1))) else t.

(** The sizes (in elements) of the node vector and of the separate array
    [lj_tab_free] gives back, and the size of the colocated array in the
    object. *)
Definition lj_tab_free (t : GCtab) : Z * Z * Z :=
  (if 0 <? hmask t then hmask t + 1 else 0,
   if (0 <? asize t) && (colo t <=? 0) then asize t else 0,
   if negb (colo t =? 0) then u32 (colo t) .& 0x7f else 0).

(** ** Getters *)

(** Walk a collision chain from node [i] to the first node with [p]. *)
Fixpoint nchain_find (nodes : list Node) (p : Node -> bool) (fuel : nat) (i : nat) : tres (option nat) :=
  match fuel with
  | O => Err TAB_FUEL
  | S f =>
      match nodes !! i with
      | None => Err TAB_UB
      | Some n => if p n then Ok (Some i)
                  else match next n with None => Ok None | Some j => nchain_find nodes p f j end
      end
  end.

Definition nchain_search (t : GCtab) (p : Node -> bool) (i : nat) : tres (option nat) :=
  nchain_find (node t) p (length (node t)) i.

Definition is_numkey (u : Z) (n : Node) : bool := tvisnum (key n) && deq (numberVnum (key n)) u.
Definition is_strkey (s : Z) (n : Node) : bool := tvisstr (key n) && (gcr (key n) =? s).
Definition is_key (k : TValue) (n : Node) : bool := lj_obj_equal (key n) k.

Definition node_val (t : GCtab) (r : option nat) : option TValue :=
  n ← r; val <$> node t !! n.

Definition lj_tab_getinth (t : GCtab) (k : Z) : tres (option TValue) :=
  let u := int2num k in
  r ← nchain_search t (is_numkey u) (hashnum t u); Ok (node_val t r).

Definition lj_tab_getstr (t : GCtab) (s : Z) : tres (option TValue) :=
  r ← nchain_search t (is_strkey s) (hashstr t s); Ok (node_val t r).

Definition lj_tab_getint (t : GCtab) (k : Z) : tres (option TValue) :=
  if inarray t k then Ok (Some (arrayslot t (u32 k))) else lj_tab_getinth t k.

Definition get_generic (t : GCtab) (k : TValue) : tres (option TValue) :=
  r ← nchain_search t (is_key k) (hashkey t k); Ok (node_val t r).

Definition lj_tab_get (t : GCtab) (k : TValue) : tres TValue :=
  default Tnil <$>
  (if tvisstr k then lj_tab_getstr t (gcr k)
   else match k with
   | Tint i => lj_tab_getint t i
   | Tnum nk =>
       let i := lj_num2int nk in
       if deq nk (int2num i) then lj_tab_getint t i else get_generic t k
   | _ => if negb (tvisnil k) then get_generic t k else Ok None
   end).

(** ** Insertion *)

(** [do { if (freenode == nodebase) ... } while (!tvisnil(&(--freenode)->key))] *)
Fixpoint find_free (nodes : list Node) (freenode : nat) : option nat :=
  match freenode with
  | O => None
  | S f => match nodes !! f with
           | Some n => if negb (tvisnil (key n)) then find_free nodes f else Some f
           | None => find_free nodes f
           end
  end.

(** [while (noderef(collide->next) != n) collide = nextnode(collide)] *)
Fixpoint find_pred (nodes : list Node) (fuel : nat) (collide n : nat) : tres nat :=
  match fuel with
  | O => Err TAB_FUEL
  | S f =>
      match nodes !! collide with
      | None => Err TAB_UB
      | Some c => match next c with
                  | None => Err TAB_UB
                  | Some j => if decide (j = n) then Ok collide else find_pred nodes f j n
                  end
      end
  end.

(** Rechain string keys whose hash leads to [n], behind the moved node. *)
Fixpoint rechain (t : GCtab) (fuel : nat) (nodes : list Node) (n freenode : nat) : tres (list Node) :=
  match fuel with
  | O => Err TAB_FUEL
  | S f =>
      match nodes !! freenode ≫= next with
      | None => Ok nodes
      | Some nn =>
          match nodes !! nn, nodes !! n with
          | Some nnd, Some nd =>
              if tvisstr (key nnd) && negb (tvisnil (val nnd)) && bool_decide (hashstr t (gcr (key nnd)) = n)
              then
                let nodes := alter (set_next (next nnd)) freenode nodes in
                let nodes := alter (set_next (next nd)) nn nodes in
                let nodes := alter (set_next (Some nn)) n nodes in
                rechain t f nodes n freenode
              else rechain t f nodes n nn
          | _, _ => Err TAB_UB
          end
      end
  end.

(** The colliding node [n] is moved from its chain (whose main node is [c]) to
    the free node [f], and freed. *)
Definition move_node (t : GCtab) (c n f : nat) : tres (list Node) :=
  p ← find_pred (node t) (length (node t)) c n;
  let nodes := alter (set_next (Some f)) p (node t) in
  match nodes !! n with
  | None => Err TAB_UB
  | Some nd =>
      let nodes := <[f := nd]> nodes in
      let nodes := alter (set_val Tnil) n (alter (set_next None) n nodes) in
      rechain t (length nodes) nodes n f
  end.

(** [n->key = key; if (tvismzero(&n->key)) n->key.u64 = 0;] *)
Definition finish_key (t : GCtab) (n : nat) (k : TValue) : GCtab * slot :=
  let k := if bool_decide (k = Tnum 0x8000000000000000) then Tnum 0 else k in
  (set_node t (alter (set_key k) n (node t)), HashSlot n).

Section Setters.
Variable retry : GCtab -> TValue -> tres (GCtab * slot).

Definition newkey_ (t : GCtab) (k : TValue) : tres (GCtab * slot) :=
  let n := hashkey t k in
  match node t !! n with
  | None => Err TAB_UB
  | Some nd =>
      if negb (tvisnil (val nd)) || (hmask t =? 0) then
        match find_free (node t) (freetop t) with
        | None => retry t k
        | Some f =>
            let t := set_freetop t f in
            let collide := hashkey t (key nd) in
            if negb (bool_decide (collide = n)) then
              nodes ← move_node t collide n f;
              Ok (finish_key (set_node t nodes) n k)
            else
              let nodes := alter (set_next (next nd)) f (node t) in
              let nodes := alter (set_next (Some f)) n nodes in
              Ok (finish_key (set_node t nodes) f k)
        end
      else Ok (finish_key t n k)
  end.

Definition tab_set_chain (t : GCtab) (p : Node -> bool) (i : nat) (k : TValue) : tres (GCtab * slot) :=
  r ← nchain_search t p i;
  match r with Some n => Ok (t, HashSlot n) | None => newkey_ t k end.

Definition setinth_ (t : GCtab) (k : Z) : tres (GCtab * slot) :=
  let u := int2num k in tab_set_chain t (is_numkey u) (hashnum t u) (Tnum u).

Definition setstr_ (t : GCtab) (s : Z) : tres (GCtab * slot) :=
  tab_set_chain t (is_strkey s) (hashstr t s) (Tstr s).

Definition setint_ (t : GCtab) (k : Z) : tres (GCtab * slot) :=
  if inarray t k then Ok (t, ArrSlot (Z.to_nat (u32 k))) else setinth_ t k.

Definition set_ (t : GCtab) (k : TValue) : tres (GCtab * slot) :=
  let t := set_nomm t 0 in
  let generic := tab_set_chain t (is_key k) (hashkey t k) k in
  if tvisstr k then setstr_ t (gcr k)
  else match k with
  | Tint i => setint_ t i
  | Tnum nk =>
      let i := lj_num2int nk in
      if deq nk (int2num i) then setint_ t i
      else if negb (deq nk nk) then Err NANIDX
      else generic
  | _ => if tvisnil k then Err NILIDX else generic
  end.

(** ** Resizing *)

Definition grow_array (t : GCtab) (asize' : Z) : tres GCtab :=
  if LJ_MAX_ASIZE <? asize' then Err TABOV
  else
    let old := Z.to_nat (asize t) in
    Ok (mkTab (nomm t) (if 0 <? colo t then i8 (colo t .| 0x80) else colo t)
          (take old (array t) ++ replicate (Z.to_nat asize' - old) Tnil)
          asize' (node t) (hmask t) (freetop t)).

Definition nil_hpart (t : GCtab) : GCtab :=
  mkTab (nomm t) (colo t) (array t) (asize t) [nil_node] 0 0.

(** Reinsert the values [vs] of the old array from index [i] on.  A nested
    rehash that reallocates the array leaves the loop with a stale pointer. *)
Fixpoint reinsert_array (t : GCtab) (i : Z) (vs : list TValue) : tres GCtab :=
  match vs with
  | [] => Ok t
  | v :: vs =>
      if negb (tvisnil v) then
        '(t', s) ← setinth_ t (i32 i);
        if (0 <? colo t') || (asize t' =? asize t)
        then reinsert_array (slot_put t' s v) (i + 1) vs
        else Err TAB_UB
      else reinsert_array t (i + 1) vs
  end.

Fixpoint reinsert_hash (t : GCtab) (ns : list Node) : tres GCtab :=
  match ns with
  | [] => Ok t
  | n :: ns =>
      if negb (tvisnil (val n)) then
        '(t', s) ← set_ t (key n);
        reinsert_hash (slot_put t' s (val n)) ns
      else reinsert_hash t ns
  end.

Definition resize_ (t : GCtab) (asize' hbits : Z) : tres GCtab :=
  let oldnode := node t in
  let oldasize := asize t in
  let oldhmask := hmask t in
  t ← (if oldasize <? asize' then grow_array t asize' else Ok t);
  t ← (if negb (hbits =? 0) then clearhpart <$> newhpart t hbits else Ok (nil_hpart t));
  t ← (if asize' <? oldasize then
         let old := array t in
         let t := set_asize t asize' in
         t ← reinsert_array t asize'
               (take (Z.to_nat (oldasize - asize')) (drop (Z.to_nat asize') old));
         Ok (if colo t <=? 0 then set_array t (take (Z.to_nat asize') old) else t)
       else Ok t);
  if 0 <? oldhmask then reinsert_hash t oldnode else Ok t.

(** ** Counting *)

Definition bump (b : Z) (n : Z) (bins : list Z) : list Z := alter (Z.add n) (Z.to_nat b) bins.

Definition int_bin (k : Z) : Z := if 2 <? k then lj_fls (u32 (k - 1)) else 0.

Definition countint (k : TValue) (bins : list Z) : Z * list Z :=
  match k with
  | Tnum nk =>
      let i := lj_num2int nk in
      if (u32 i <? LJ_MAX_ASIZE) && deq nk (int2num i)
      then (1, bump (int_bin i) 1 bins) else (0, bins)
  | _ => (0, bins)
  end.

(** [for (n = 0; i <= top; i++) if (!tvisnil(&array[i])) n++], [k] rounds. *)
Fixpoint count_slots (t : GCtab) (i : Z) (k : nat) : Z :=
  match k with
  | O => 0
  | S k => (if negb (tvisnil (arrayslot t i)) then 1 else 0) + count_slots t (i + 1) k
  end.

Fixpoint countarray_loop (t : GCtab) (fuel : nat) (b i na : Z) (bins : list Z) : Z * list Z :=
  match fuel with
  | O => (na, bins)
  | S f =>
      let top := 2 << b in
      let last := asize t <=? top in
      let top := if last then asize t - 1 else top in
      if last && (top <? i) then (na, bins)
      else
        let n := count_slots t i (Z.to_nat (top + 1 - i)) in
        countarray_loop t f (b + 1) (Z.max i (top + 1)) (na + n) (bump b n bins)
  end.

Definition countarray (t : GCtab) (bins : list Z) : Z * list Z :=
  if asize t =? 0 then (0, bins) else countarray_loop t (Z.to_nat LJ_MAX_ABITS) 0 0 0 bins.

Fixpoint counthash_loop (ns : list Node) (total na : Z) (bins : list Z) : Z * Z * list Z :=
  match ns with
  | [] => (total, na, bins)
  | n :: ns =>
      if negb (tvisnil (val n)) then
        let '(c, bins) := countint (key n) bins in
        counthash_loop ns (total + 1) (na + c) bins
      else counthash_loop ns total na bins
  end.

(** The number of pairs, the new [*narray] and the bins. *)
Definition counthash (t : GCtab) (bins : list Z) (narray : Z) : Z * Z * list Z :=
  let '(total, na, bins) := counthash_loop (node t) 0 0 bins in
  (total, narray + na, bins).

(** The loop reads [bins[b]] at the head of [bins]: past the end is a read
    outside the array. *)
Fixpoint bestasize_loop (bins : list Z) (nn b sum na sz : Z) : tres (Z * Z) :=
  if ((1 << b) <? 2 * nn) && negb (sum =? nn) then
    match bins with
    | [] => Err TAB_UB
    | x :: bins =>
        if 0 <? x then
          let sum := sum + x in
          if (1 << b) <? 2 * sum then bestasize_loop bins nn (b + 1) sum sum ((2 << b) + 1)
          else bestasize_loop bins nn (b + 1) sum na sz
        else bestasize_loop bins nn (b + 1) sum na sz
    end
  else Ok (na, sz).

(** The number of keys that go to the array part, and its size [*narray]. *)
Definition bestasize (bins : list Z) (narray : Z) : tres (Z * Z) :=
  bestasize_loop bins narray 0 0 0 0.

Definition rehashtab_ (t : GCtab) (ek : TValue) : tres GCtab :=
  let bins := replicate (Z.to_nat LJ_MAX_ABITS) 0 in
  let '(asize, bins) := countarray t bins in
  let total := 1 + asize in
  let '(n, asize, bins) := counthash t bins asize in
  let total := total + n in
  let '(c, bins) := countint ek bins in
  let asize := asize + c in
  '(na, asize) ← bestasize bins asize;
  let total := total - na in
  resize_ t asize (hsize2hbits total).
End Setters.

(** Rehash, then retry the insertion. *)
Fixpoint tab_retry (fuel : nat) (t : GCtab) (k : TValue) : tres (GCtab * slot) :=
  match fuel with
  | O => Err TAB_FUEL
  | S f => t' ← rehashtab_ (tab_retry f) t k; set_ (tab_retry f) t' k
  end.

(** A single rehash: a second one, nested in it or behind it, would be the
    error [TAB_FUEL]. *)
Definition rehash_fuel : nat := 1.
Definition lj_tab_newkey := newkey_ (tab_retry rehash_fuel).
Definition lj_tab_setinth := setinth_ (tab_retry rehash_fuel).
Definition lj_tab_setstr := setstr_ (tab_retry rehash_fuel).
Definition lj_tab_setint := setint_ (tab_retry rehash_fuel).
Definition lj_tab_set := set_ (tab_retry rehash_fuel).
Definition lj_tab_resize := resize_ (tab_retry rehash_fuel).
Definition rehashtab := rehashtab_ (tab_retry rehash_fuel).
Definition lj_tab_rehash (t : GCtab) : tres GCtab := rehashtab t Tnil.
Definition lj_tab_reasize (t : GCtab) (nasize : Z) : tres GCtab :=
  lj_tab_resize t (u32 (nasize + 1)) (if 0 <? hmask t then lj_fls (hmask t) + 1 else 0).

(** ** Traversal *)

Definition setintV (k : Z) : TValue := if LJ_DUALNUM then Tint k else Tnum (int2num k).

Definition keyindex_hash (t : GCtab) (k : TValue) : tres Z :=
  if negb (tvisnil k) then
    r ← nchain_search t (is_key k) (hashkey t k);
    match r with
    | Some n => Ok (u32 (asize t + Z.of_nat n))
    | None => if itype k =? 0xfffe7fff then Ok (u32 (gcr k - 1)) else Err NEXTIDX
    end
  else Ok 0xffffffff.

Definition keyindex (t : GCtab) (k : TValue) : tres Z :=
  match k with
  | Tint i => if u32 i <? asize t then Ok (u32 i) else keyindex_hash t (Tnum (int2num i))
  | Tnum nk =>
      let i := lj_num2int nk in
      if (u32 i <? asize t) && deq nk (int2num i) then Ok (u32 i) else keyindex_hash t k
  | _ => keyindex_hash t k
  end.

(** The first live array slot from index [i] on, in [k] rounds. *)
Fixpoint next_array (t : GCtab) (i : Z) (k : nat) : option (TValue * TValue) :=
  match k with
  | O => None
  | S k => if negb (tvisnil (arrayslot t i)) then Some (setintV (i32 i), arrayslot t i)
           else next_array t (i + 1) k
  end.

Fixpoint next_hash (ns : list Node) : option (TValue * TValue) :=
  match ns with
  | [] => None
  | n :: ns => if negb (tvisnil (val n)) then Some (key n, val n) else next_hash ns
  end.

(** The next pair, or [None] at the end of the traversal. *)
Definition lj_tab_next (t : GCtab) (k : TValue) : tres (option (TValue * TValue)) :=
  i ← keyindex t k;
  let i := u32 (i + 1) in
  match next_array t i (Z.to_nat (asize t - i)) with
  | Some kv => Ok (Some kv)
  | None => Ok (next_hash (drop (Z.to_nat (Z.max i (asize t) - asize t)) (node t)))
  end.

(** ** Length *)

Definition INT_MAX : Z := 0x7fffffff.

(** [(tv = lj_tab_getint(t, (int32_t)j)) && !tvisnil(tv)] *)
Definition present (t : GCtab) (j : Z) : tres bool :=
  tv ← lj_tab_getint t (i32 j);
  Ok (match tv with Some v => negb (tvisnil v) | None => false end).

Fixpoint linear_search (t : GCtab) (fuel : nat) (i : Z) : tres Z :=
  match fuel with
  | O => Err TAB_FUEL
  | S f => p ← present t i; if (p : bool) then linear_search t f (u32 (i + 1)) else Ok (u32 (i - 1))
  end.

Fixpoint binary_search (t : GCtab) (fuel : nat) (i j : Z) : tres Z :=
  match fuel with
  | O => Err TAB_FUEL
  | S f =>
      if 1 <? j - i then
        let m := u32 (i + j) / 2 in
        p ← present t m;
        if (p : bool) then binary_search t f m j else binary_search t f i m
      else Ok i
  end.

Fixpoint unbound_loop (t : GCtab) (fuel : nat) (i j : Z) : tres Z :=
  match fuel with
  | O => Err TAB_FUEL
  | S f =>
      p ← present t j;
      if (p : bool) then
        let i := j in
        let j := u32 (j * 2) in
        if INT_MAX - 2 <? j
        then linear_search t (Z.to_nat (asize t) + length (node t) + 1) 1
        else unbound_loop t f i j
      else binary_search t 32 i j
  end.

Definition unbound_search (t : GCtab) (j : Z) : tres Z := unbound_loop t 32 j (u32 (j + 1)).

Fixpoint array_search (t : GCtab) (fuel : nat) (i j : Z) : tres Z :=
  match fuel with
  | O => Err TAB_FUEL
  | S f =>
      if 1 <? j - i then
        let m := u32 (i + j) / 2 in
        if tvisnil (arrayslot t (m - 1)) then array_search t f i m else array_search t f m j
      else Ok (i - 1)
  end.

Definition lj_tab_len (t : GCtab) : tres Z :=
  let j := asize t in
  if (1 <? j) && tvisnil (arrayslot t (j - 1)) then array_search t 32 1 j
  else
    let j := if negb (j =? 0) then j - 1 else j in
    if hmask t <=? 0 then Ok j else unbound_search t j.
End Tab.
