(* ===== verification/TabKey.v ===== *)
(** * Keys of a table

    Which values are well formed, the canonical form under which
    [lj_tab_set] stores a key, and the fact that on canonical keys
    [lj_obj_equal] and the special comparisons of the integer and string
    lookups are all plain equality. *)

From Stdlib Require Import Floats.SpecFloat.
From S2P Require Import Prelude Machine Num Tab.

#[local] Arguments deq : simpl never.
#[local] Arguments int2num : simpl never.
#[local] Arguments lj_num2int : simpl never.

(** A value the VM can produce: every payload in the range of its field. *)
Definition wf_tv (o : TValue) : Prop :=
  match o with
  | Tlightud p => 0 <= p < 2 ^ 47
  | Tstr s => is_u32 s
  | Tgc it p => LJ_TNUMX <= it < LJ_TSTR /\ is_u32 p
  | Tint k => is_i32 k
  | Tnum u => is_u64 u /\ u >> 32 < LJ_TISNUM
  | _ => True
  end.

(** A key as it is stored: not nil, no integer, neither NaN nor the negative zero. *)
Definition canon (o : TValue) : Prop :=
  wf_tv o /\
  match o with
  | Tnil | Tint _ => False
  | Tnum u => num_of_bits u <> S754_nan /\ u <> 2 ^ 63
  | _ => True
  end.

Definition norm_num (u : Z) : Z := let i := int2num (lj_num2int u) in if deq u i then i else u.

(** The stored form of a key; [None] for nil and NaN. *)
Definition norm (k : TValue) : option TValue :=
  match k with
  | Tnil => None
  | Tint i => Some (Tnum (int2num i))
  | Tnum u => if deq u u then Some (Tnum (norm_num u)) else None
  | _ => Some k
  end.

(** The canonical key of an array index. *)
Definition int_key (i : Z) : TValue := Tnum (int2num i).

Lemma nonnan_hi u : is_u64 u -> num_of_bits u <> S754_nan -> u >> 32 <= 0xfff00000.
Proof.
  intros Hu Hn. apply Z.nlt_ge. intros Hlt. apply Hn. clear Hn.
  rewrite Z.shiftr_div_pow2 in Hlt by lia. widths.
  assert (Hd : u = 0xfff0000000000000 + (u - 0xfff0000000000000) /\ 0 < u - 0xfff0000000000000 < 2 ^ 52).
  { split; [lia|]. pose proof (Z.div_mod u (2 ^ 32) ltac:(lia)). pose proof (Z.mod_pos_bound u (2 ^ 32)). lia. }
  destruct Hd as [E Hf]. set (f := u - 0xfff0000000000000) in *. clearbody f.
  unfold num_of_bits, exp_field, frac_field.
  change 0x7ff with (2 ^ 11 - 1). change 0xfffffffffffff with (2 ^ 52 - 1).
  rewrite !land_ones_mod, Z.shiftr_div_pow2 by lia.
  assert (X : u / 2 ^ 52 = 0xfff) by (subst u; symmetry; apply Z.div_unique with f; lia).
  rewrite X. assert (Y : u mod 2 ^ 52 = f) by (subst u; symmetry; apply Z.mod_unique with 0xfff; lia).
  rewrite Y. change (0xfff mod 2 ^ 11 =? 2047) with true. by rewrite (proj2 (Z.eqb_neq f 0)) by lia.
Qed.

Lemma canon_num u : is_u64 u -> num_of_bits u <> S754_nan -> u <> 2 ^ 63 -> canon (Tnum u).
Proof.
  intros Hu Hn Hz. split; [split; [done|]|done]. pose proof (nonnan_hi u Hu Hn). unfold LJ_TISNUM. lia.
Qed.

Lemma canon_int i : is_i32 i -> canon (int_key i).
Proof. intros Hi. destruct (int2num_props i Hi) as (?&?&?). by apply canon_num. Qed.

Lemma norm_Tnum u c : norm (Tnum u) = Some c -> deq u u = true /\ c = Tnum (norm_num u).
Proof. unfold norm. destruct (deq u u); [|discriminate]. by intros [= <-]. Qed.

Lemma norm_num_canon u : is_u64 u -> deq u u = true -> canon (Tnum (norm_num u)).
Proof.
  intros Hu E. apply deq_refl_iff in E; [|done]. unfold norm_num.
  destruct (deq u (int2num _)) eqn:D; [apply canon_int, num2int_i32|].
  apply canon_num; [done..|]. intros ->. vm_compute in D. discriminate D.
Qed.

Lemma canon_norm k c : wf_tv k -> norm k = Some c -> canon c.
Proof.
  intros Hw H. destruct k as [| | |p|s|it p|i|u].
  8: { apply norm_Tnum in H as [E ->]. apply norm_num_canon; [apply Hw|done]. }
  7: { injection H as <-. by apply canon_int. }
  1: discriminate H.
  all: injection H as <-; by split.
Qed.

Lemma deq_int_canon u : is_u64 u -> u <> 2 ^ 63 -> deq u (int2num (lj_num2int u)) = true ->
  u = int2num (lj_num2int u).
Proof.
  intros Hu Hz H. destruct (int2num_props _ (num2int_i32 u)) as (Ui & Ni & Zi).
  apply deq_bits in H as [_ [H|[[H1|H1] [H2|H2]]]]; try done. congruence.
Qed.

Lemma norm_canon c : canon c -> norm c = Some c.
Proof.
  destruct c as [| | |p|s|it p|i|u]; intros [Hw Hc]; try done. cbn. destruct Hw as [Hu _], Hc as [Hn Hz].
  rewrite (proj2 (deq_refl_iff u Hu) Hn). unfold norm_num. destruct (deq u _) eqn:D; [|done].
  by rewrite <- deq_int_canon.
Qed.

Lemma norm_nonnil k : norm k <> Some Tnil.
Proof. destruct k; cbn; try done. by destruct (deq _ _). Qed.

(** ** Tags *)

Lemma lightud_hi p : 0 <= p < 2 ^ 47 -> 0 <= p >> 32 < 2 ^ 15.
Proof.
  intros Hp. rewrite Z.shiftr_div_pow2 by lia. split; [apply Z.div_pos; lia|].
  apply Z.div_lt_upper_bound; lia.
Qed.

Ltac tags H :=
  unfold tvisnil, tvisstr, tvisnum, tvisbool, tvisnumber, tvisint, itype,
    LJ_TNIL, LJ_TFALSE, LJ_TTRUE, LJ_TSTR, LJ_TISNUM, LJ_TNUMX in *;
  match type of H with
  | 0 <= ?p < 2 ^ 47 => pose proof (lightud_hi p H)
  | _ => idtac
  end.

Lemma tvisnil_spec o : wf_tv o -> tvisnil o = bool_decide (o = Tnil).
Proof.
  intros H. destruct o; cbn in H; tags H; try done; rewrite bool_decide_eq_false_2 by done; apply Z.eqb_neq; lia.
Qed.

Lemma tvisstr_spec o : wf_tv o -> tvisstr o = match o with Tstr _ => true | _ => false end.
Proof. intros H. destruct o; cbn in H; tags H; try done; apply Z.eqb_neq; lia. Qed.

Lemma tvisnum_spec o : wf_tv o -> tvisnum o = match o with Tnum _ => true | _ => false end.
Proof.
  intros H. destruct o; cbn in H; tags H; try done; try (apply Z.ltb_ge; lia). apply Z.ltb_lt. lia.
Qed.

Lemma tvisbool_spec o : wf_tv o -> tvisbool o = match o with Tfalse | Ttrue => true | _ => false end.
Proof. intros H. destruct o; cbn in H; tags H; try done; apply orb_false_intro; apply Z.eqb_neq; lia. Qed.

Lemma canon_nonnil c : canon c -> tvisnil c = false.
Proof. intros [Hw Hc]. rewrite tvisnil_spec by done. apply bool_decide_eq_false_2. by intros ->. Qed.

Lemma wf_nil : wf_tv Tnil.
Proof. done. Qed.

(** ** Equality *)

(** [tvpayload] determines a value from its two halves. *)
Lemma itype_gcr_inj a b : wf_tv a -> wf_tv b -> itype a = itype b ->
  tvispri a = false -> tvisnum a = false -> gcr a = gcr b -> a = b.
Proof.
  intros Ha Hb. destruct a, b; cbn in Ha, Hb; unfold tvispri, tvisnum, itype, gcr, LJ_TISPRI, LJ_TNIL, LJ_TFALSE, LJ_TTRUE,
    LJ_TSTR, LJ_TISNUM, LJ_TNUMX in *; intros Hi Hp Hn Hg;
    try (pose proof (lightud_hi _ Ha)); try (pose proof (lightud_hi _ Hb)); try discriminate; try lia.
  - f_equal. rewrite !Z.shiftr_div_pow2 in * by lia. widths.
    pose proof (Z.div_mod p (2 ^ 32)). pose proof (Z.div_mod p0 (2 ^ 32)). lia.
  - by subst.
  - by subst.
  - f_equal. by apply i32_inj.
Qed.

Lemma canon_number o : canon o -> tvisnumber o = tvisnum o.
Proof.
  intros [Ho Hi]. unfold tvisnumber, tvisnum. destruct (Z.leb_spec (itype o) LJ_TISNUM), (Z.ltb_spec (itype o) LJ_TISNUM);
    try reflexivity; exfalso; [|lia].
  assert (E : itype o = LJ_TISNUM) by lia. destruct o; cbn in Ho, Hi, E; tags Ho; try discriminate E; try contradiction; lia.
Qed.

Lemma canon_pri a b : canon a -> canon b -> itype a = itype b -> tvispri a = true -> a = b.
Proof.
  intros [Wa Ca] [Wb Cb] E P. unfold tvispri, LJ_TISPRI in P. apply Z.leb_le in P.
  destruct a, b; cbn in Wa, Wb, E, P; tags Wa; tags Wb; try reflexivity; try discriminate E; exfalso; lia.
Qed.

Lemma canon_num_eq a b : canon a -> canon b -> tvisnum a = true -> tvisnum b = true ->
  deq (numberVnum a) (numberVnum b) = true <-> a = b.
Proof.
  intros [Wa Ca] [Wb Cb]. rewrite !tvisnum_spec by assumption.
  destruct a as [| | | | | | |u], b as [| | | | | | |v]; try discriminate. intros _ _. cbn [numberVnum].
  destruct Wa as [Ua _], Wb as [Ub _], Ca as [Na Za], Cb as [Nb Zb]. rewrite deq_bits by assumption. split.
  - intros [_ [->|[[->| ->] [->| ->]]]]; congruence.
  - intros [= ->]. split; [assumption|by left].
Qed.

Lemma obj_equal_canon a b : canon a -> canon b -> lj_obj_equal a b = bool_decide (a = b).
Proof.
  intros Ha Hb. unfold lj_obj_equal. apply eq_true_iff_eq. rewrite bool_decide_eq_true.
  rewrite !canon_number by assumption. pose proof (canon_num_eq a b Ha Hb) as N.
  destruct (Z.eqb_spec (itype a) (itype b)) as [E|E].
  - assert (Nab : tvisnum a = tvisnum b) by (unfold tvisnum; by rewrite E).
    destruct (tvispri a) eqn:P; [split; [intros _; by apply canon_pri|reflexivity]|].
    destruct (tvisnum a) eqn:T; cbn [negb]; [apply N; congruence|].
    rewrite Z.eqb_eq. split; [|by intros ->]. intros G. destruct Ha, Hb. by apply itype_gcr_inj.
  - destruct (tvisnum a) eqn:Ta, (tvisnum b) eqn:Tb; cbn [negb orb]; [by apply N|..];
      (split; [discriminate|intros ->; congruence]).
Qed.

Section Keys.
Context `{TE : TabEnv}.

(** The three key tests of the lookups agree with equality of the key; an
    unused node matches none of them. *)
Definition key_ok (o : TValue) : Prop := o = Tnil \/ canon o.

Lemma is_key_spec c nd : canon c -> key_ok (key nd) -> is_key c nd = bool_decide (key nd = c).
Proof.
  intros Hc [E|H]; unfold is_key; [|by apply obj_equal_canon].
  rewrite E, bool_decide_eq_false_2 by (intros <-; by destruct Hc). destruct Hc as [Wc Hc].
  unfold lj_obj_equal. replace (itype Tnil =? itype c) with (tvisnil c).
  { rewrite tvisnil_spec, bool_decide_eq_false_2 by (try done; by intros ->). done. }
  unfold tvisnil. by rewrite Z.eqb_sym.
Qed.

Lemma is_numkey_spec u nd : canon (Tnum u) -> key_ok (key nd) -> is_numkey u nd = bool_decide (key nd = Tnum u).
Proof.
  intros Hc [E|H]; unfold is_numkey; [by rewrite E|].
  assert (Tu : tvisnum (Tnum u) = true) by (rewrite tvisnum_spec by apply Hc; done).
  apply eq_true_iff_eq. rewrite bool_decide_eq_true, andb_true_iff.
  change u with (numberVnum (Tnum u)) at 1. split.
  - intros [Tk D]. by apply canon_num_eq in D.
  - intros ->. split; [done|]. by apply canon_num_eq.
Qed.

Lemma is_strkey_spec s nd : is_u32 s -> key_ok (key nd) -> is_strkey s nd = bool_decide (key nd = Tstr s).
Proof.
  intros Hs Hk. unfold is_strkey. assert (Hw : wf_tv (key nd)) by (destruct Hk as [-> |[]]; done).
  rewrite tvisstr_spec by done. destruct (key nd); try done. cbn. apply eq_true_iff_eq.
  rewrite bool_decide_eq_true, Z.eqb_eq. split; congruence.
Qed.

(** Where a key lives: the hash of the special lookups is that of [hashkey]. *)
Lemma hashkey_str t s : hashkey t (Tstr s) = hashstr t s.
Proof. done. Qed.

Lemma hashkey_num t u : canon (Tnum u) -> hashkey t (Tnum u) = hashnum t u.
Proof.
  intros [Hw _]. unfold hashkey. rewrite tvisstr_spec, tvisnum_spec by done. done.
Qed.

Lemma hashkey_eq t t' k : hmask t = hmask t' -> hashkey t k = hashkey t' k.
Proof. intros H. unfold hashkey, hashstr, hashnum, hashgcref, hashmask. by rewrite H. Qed.

(** The main position is a node of a hash part of [2 ^ h] nodes. *)
Lemma hashkey_bound t k h : 0 <= h -> hmask t = 2 ^ h - 1 -> (hashkey t k < Z.to_nat (hmask t + 1))%nat.
Proof.
  intros Hh Hm.
  assert (B : forall x, (hashmask t x < Z.to_nat (hmask t + 1))%nat).
  { intros x. unfold hashmask. rewrite Hm, land_ones_mod by done.
    pose proof (Z.mod_pos_bound x (2 ^ h) ltac:(lia)). lia. }
  unfold hashkey, hashstr, hashnum, hashgcref. repeat case_match; apply B.
Qed.

End Keys.
