(* ===== verification/TabHash.v ===== *)
(** * The hash part of a table: collision chains

    [hash_ok mp nodes] is the invariant of the node vector for a fixed main
    position function [mp]: every key is reachable from its main position,
    chains are acyclic and never merge, unused nodes are isolated and keys are
    unique.  The three ways [lj_tab_newkey] places a key (in a free main
    node, behind an occupied main node, after moving a node of another chain)
    preserve it and change the pairs only at the new key. *)

From S2P Require Import Prelude Machine Num Tab TabKey.

(** [list_alter] at any position. *)
Lemma lookup_alter_dec {A} (f : A -> A) (l : list A) i j :
  alter f i l !! j = if decide (i = j) then f <$> l !! j else l !! j.
Proof.
  rewrite list_lookup_alter. by destruct (decide (i = j)) as [->|].
Qed.

Lemma lookup_insert_dec {A} (x : A) (l : list A) i j : (i < length l)%nat ->
  <[i := x]> l !! j = if decide (i = j) then Some x else l !! j.
Proof.
  intros Hi. destruct (decide (i = j)) as [->|Hne]; [by apply list_lookup_insert_eq|by apply list_lookup_insert_ne].
Qed.

(** Distinct positions of a list are at most its length. *)
Lemma nodup_bound (l : list nat) n : NoDup l -> (forall x, x ∈ l -> (x < n)%nat) -> (length l <= n)%nat.
Proof.
  intros Hn Hb. rewrite <- (length_seq n 0). apply submseteq_length, NoDup_submseteq; [done|].
  intros x Hx. apply elem_of_seq. split; [lia|]. apply Hb in Hx. lia.
Qed.

(** ** Chains *)

Definition nxt (nodes : list Node) (i j : nat) : Prop := nodes !! i ≫= next = Some j.

Record hash_ok (mp : TValue -> nat) (nodes : list Node) : Prop := {
  h_reach i nd : nodes !! i = Some nd -> key nd <> Tnil -> rtc (nxt nodes) (mp (key nd)) i;
  h_head i nd : nodes !! i = Some nd -> key nd <> Tnil ->
    exists md, nodes !! mp (key nd) = Some md /\ key md <> Tnil /\ mp (key md) = mp (key nd);
  h_free i nd : nodes !! i = Some nd -> key nd = Tnil -> val nd = Tnil /\ next nd = None;
  h_pred i j : nxt nodes i j -> exists nd, nodes !! j = Some nd /\ key nd <> Tnil;
  h_inj i j k : nxt nodes i k -> nxt nodes j k -> i = j;
  h_rank : exists r : nat -> nat, forall i j, nxt nodes i j -> (r j < r i)%nat;
  h_uniq i j nd md : nodes !! i = Some nd -> nodes !! j = Some md ->
    key nd <> Tnil -> key nd = key md -> i = j;
  h_canon i nd : nodes !! i = Some nd -> key nd <> Tnil -> canon (key nd)
}.

Definition absent (nodes : list Node) (c : TValue) : Prop :=
  forall i nd, nodes !! i = Some nd -> key nd <> c.

(** The live pairs. *)
Definition has (nodes : list Node) (c v : TValue) : Prop :=
  exists i nd, nodes !! i = Some nd /\ key nd = c /\ val nd = v /\ v <> Tnil.

(** The reference lookup: a scan of all nodes. *)
Fixpoint scan (nodes : list Node) (c : TValue) : TValue :=
  match nodes with
  | [] => Tnil
  | n :: ns => if decide (key n = c) then val n else scan ns c
  end.

Lemma nxt_some nodes i j : nxt nodes i j -> exists nd, nodes !! i = Some nd /\ next nd = Some j.
Proof. unfold nxt. destruct (nodes !! i) as [nd|]; [|done]. by exists nd. Qed.

(** A path of distinct nodes: the walk of [k] steps from [i]. *)
Inductive walk (nodes : list Node) : nat -> list nat -> Prop :=
| walk_nil i : walk nodes i [i]
| walk_cons i j l : nxt nodes i j -> walk nodes j l -> walk nodes i (i :: l).

Section Chains.
Variables (mp : TValue -> nat) (nodes : list Node).
Hypothesis (H : hash_ok mp nodes).

Lemma nxt_range i j : nxt nodes i j -> (i < length nodes)%nat /\ (j < length nodes)%nat.
Proof using H.
  intros N. destruct (h_pred _ _ H _ _ N) as (nd & E & _). apply nxt_some in N as (? & E' & _).
  split; by eapply lookup_lt_Some.
Qed.

Lemma node_key_ok i nd : nodes !! i = Some nd -> key_ok (key nd).
Proof using H.
  intros E. destruct (decide (key nd = Tnil)); [by left|right]. by eapply h_canon.
Qed.

Lemma walk_bound i l : (i < length nodes)%nat -> walk nodes i l -> (length l <= length nodes)%nat.
Proof using H.
  intros Hi W. destruct (h_rank _ _ H) as [r Hr].
  assert (D : NoDup l /\ forall x, x ∈ l -> (r x <= r i)%nat /\ (x < length nodes)%nat).
  { induction W as [i|i j l N W IH].
    - split; [apply NoDup_singleton|]. intros x ->%list_elem_of_singleton. done.
    - pose proof (Hr _ _ N) as Hlt. destruct IH as [Hn Hb]; [apply (nxt_range _ _ N)|]. split.
      + constructor; [|done]. intros Hin%Hb. lia.
      + intros x [->|Hx]%elem_of_cons; [lia|]. apply Hb in Hx. lia. }
  apply nodup_bound; [apply D|]. intros x Hx. apply (proj2 D _ Hx).
Qed.

(** The result of a chain search. *)
Definition found (p : Node -> bool) (i : nat) (r : option nat) : Prop :=
  match r with
  | Some j => rtc (nxt nodes) i j /\ exists nd, nodes !! j = Some nd /\ p nd = true
  | None => forall j nd, rtc (nxt nodes) i j -> nodes !! j = Some nd -> p nd = false
  end.

Lemma nchain_find_ok p fuel : forall i, (i < length nodes)%nat ->
  (forall l, walk nodes i l -> (length l <= fuel)%nat) ->
  exists r, nchain_find nodes p fuel i = Ok r /\ found p i r.
Proof using H.
  induction fuel as [|f IH]; intros i Hi Hw.
  { specialize (Hw [i] (walk_nil _ _)). cbn in Hw. lia. }
  cbn [nchain_find]. destruct (lookup_lt_is_Some_2 _ _ Hi) as [nd E]. rewrite E.
  destruct (p nd) eqn:P; [exists (Some i); split; [done|split; [done|by exists nd]]|].
  destruct (next nd) as [j|] eqn:X.
  - assert (N : nxt nodes i j) by (unfold nxt; by rewrite E).
    destruct (IH j) as (r & -> & F); [apply (nxt_range _ _ N)| |].
    { intros l W. specialize (Hw _ (walk_cons _ _ _ _ N W)). cbn in Hw. lia. }
    exists r. split; [done|]. destruct r as [k|]; cbn in *.
    + destruct F as [R F]. split; [by apply rtc_l with j|done].
    + intros k md R Ek. inversion R as [|? j' ? N' R']; subst; [congruence|].
      apply F with k; [|done]. unfold nxt in N, N'. congruence.
  - exists None. split; [done|]. intros k md R Ek. inversion R as [|? j' ? N' R']; subst; [congruence|].
    unfold nxt in N'. rewrite E in N'. cbn in N'. congruence.
Qed.

Lemma find_pred_ok n fuel : forall i, (i < length nodes)%nat -> i <> n -> rtc (nxt nodes) i n ->
  (forall l, walk nodes i l -> (length l <= fuel)%nat) ->
  exists p, find_pred nodes fuel i n = Ok p /\ nxt nodes p n.
Proof using H.
  induction fuel as [|f IH]; intros i Hi Hne R Hw.
  { specialize (Hw [i] (walk_nil _ _)). cbn in Hw. lia. }
  inversion R as [|? j ? N R']; subst; [done|]. cbn [find_pred].
  destruct (nxt_some _ _ _ N) as (nd & E & X). rewrite E, X.
  destruct (decide (j = n)) as [->|Hj]; [by exists i|].
  apply IH; [apply (nxt_range _ _ N)|done|done|].
  intros l W. specialize (Hw _ (walk_cons _ _ _ _ N W)). cbn in Hw. lia.
Qed.

Lemma find_free_ok ft : match find_free nodes ft with
  | Some f => (f < ft)%nat /\ (exists nd, nodes !! f = Some nd /\ key nd = Tnil) /\
              forall i nd, (f < i < ft)%nat -> nodes !! i = Some nd -> key nd <> Tnil
  | None => forall i nd, (i < ft)%nat -> nodes !! i = Some nd -> key nd <> Tnil
  end.
Proof using H.
  induction ft as [|f IH]; cbn; [lia|].
  destruct (nodes !! f) as [nd|] eqn:E.
  - assert (Wn : wf_tv (key nd)) by (destruct (node_key_ok _ _ E) as [-> |[]]; done).
    rewrite tvisnil_spec by done. destruct (decide (key nd = Tnil)) as [K|K].
    + rewrite bool_decide_eq_true_2 by done. cbn. split; [lia|]. split; [by exists nd|]. lia.
    + rewrite bool_decide_eq_false_2 by done. cbn.
      destruct (find_free nodes f) as [g|].
      * destruct IH as (Hlt & Hex & Hbet). split; [lia|]. split; [done|]. intros i md Hi Ei.
        destruct (decide (i = f)) as [->|]; [congruence|]. apply (Hbet i); [lia|done].
      * intros i md Hi Ei. destruct (decide (i = f)) as [->|]; [congruence|]. apply (IH i); [lia|done].
  - destruct (find_free nodes f) as [g|].
    + destruct IH as (Hlt & Hex & Hbet). split; [lia|]. split; [done|]. intros i md Hi Ei.
      destruct (decide (i = f)) as [->|]; [congruence|]. apply (Hbet i); [lia|done].
    + intros i md Hi Ei. destruct (decide (i = f)) as [->|]; [congruence|]. apply (IH i); [lia|done].
Qed.

(** ** Scanning *)

Lemma scan_has c v : v <> Tnil -> c <> Tnil -> scan nodes c = v <-> has nodes c v.
Proof using H.
  intros Hv Hc. assert (U : forall i j nd md, nodes !! i = Some nd -> nodes !! j = Some md ->
    key nd = c -> key md = c -> i = j).
  { intros i j nd md Ei Ej <- Ek. by eapply (h_uniq _ _ H). }
  clear H. induction nodes as [|n ns IH]; cbn.
  - split; [by intros <-|]. by intros (i & nd & E & _).
  - destruct (decide (key n = c)) as [K|K].
    + split; [intros <-; by exists 0%nat, n|]. intros (i & nd & E & K' & V & _).
      assert (i = 0%nat) as -> by (by apply (U i 0%nat nd n)). cbn in E. by injection E as <-.
    + rewrite IH; [|intros i j nd md Ei Ej K1 K2; apply (U (S i) (S j) nd md) in Ej; [lia|done..]].
      split; intros (i & nd & E & K' & V & V').
      * by exists (S i), nd.
      * destruct i as [|i]; [cbn in E; congruence|]. by exists i, nd.
Qed.
End Chains.

Lemma scan_eq mp mp' nodes nodes' c c' : hash_ok mp nodes -> hash_ok mp' nodes' -> c <> Tnil -> c' <> Tnil ->
  (forall v, has nodes c v <-> has nodes' c' v) -> scan nodes c = scan nodes' c'.
Proof.
  intros H H' Hc Hc' E. destruct (decide (scan nodes c = Tnil)) as [N|N].
  - destruct (decide (scan nodes' c' = Tnil)) as [N'|N']; [congruence|].
    pose proof (scan_has mp' nodes' H' c' _ N' Hc') as S'. destruct S' as [S' _].
    specialize (S' eq_refl). apply E in S'. apply (scan_has mp nodes H) in S'; done.
  - pose proof (scan_has mp nodes H c _ N Hc) as [S' _]. specialize (S' eq_refl). apply E in S'.
    by apply (scan_has mp' nodes' H') in S'.
Qed.

Lemma scan_nil mp nodes c : hash_ok mp nodes -> c <> Tnil -> (forall v, ~ has nodes c v) -> scan nodes c = Tnil.
Proof.
  intros H Hc N. destruct (decide (scan nodes c = Tnil)) as [E|E]; [done|].
  exfalso. eapply N, (scan_has mp nodes H c _ E Hc). done.
Qed.

(** ** Placing a key

    Each section describes the new vector by its lookups. *)

Lemma has_fresh nodes nodes' k : absent nodes k ->
  (forall i nd, nodes' !! i = Some nd -> key nd = k -> val nd = Tnil) ->
  (forall c v, c <> k -> v <> Tnil ->
     ((exists i nd, nodes !! i = Some nd /\ key nd = c /\ val nd = v) <->
      (exists i nd, nodes' !! i = Some nd /\ key nd = c /\ val nd = v))) ->
  forall c v, has nodes c v <-> has nodes' c v.
Proof.
  intros Ha Hk Hc c v. unfold has. destruct (decide (c = k)) as [->|Hne].
  - split; intros (i & nd & E & K & V & N); exfalso.
    + by apply (Ha i nd).
    + apply N. rewrite <- V. by apply (Hk i nd).
  - split; intros (i & nd & E & K & V & N).
    + destruct (proj1 (Hc c v Hne N)) as (j & md & ? & ? & ?); [by exists i, nd|]. by exists j, md.
    + destruct (proj2 (Hc c v Hne N)) as (j & md & ? & ? & ?); [by exists i, nd|]. by exists j, md.
Qed.

(** The new key goes into its main node [n], which holds no live value. *)
Section Fill.
Variables (mp : TValue -> nat) (nodes nodes' : list Node) (k : TValue) (n : nat) (nd : Node).
Hypothesis (H : hash_ok mp nodes) (Hk : canon k) (Ha : absent nodes k) (Hm : mp k = n)
  (Hn : nodes !! n = Some nd) (Hv : val nd = Tnil)
  (L : forall i, nodes' !! i = if decide (i = n) then Some (mkNode Tnil k (next nd)) else nodes !! i).

Lemma nxt_fill i j : nxt nodes' i j <-> nxt nodes i j.
Proof using All.
  unfold nxt. rewrite L. destruct (decide (i = n)) as [->|]; [by rewrite Hn|done].
Qed.

Lemma fill_ok : hash_ok mp nodes'.
Proof using All.
  assert (K : k <> Tnil) by by (intros ->; destruct Hk).
  assert (R : forall i j, rtc (nxt nodes) i j -> rtc (nxt nodes') i j).
  { intros i j Hr. induction Hr as [|a b c N Hr IH]; [done|]. apply rtc_l with b; [by apply nxt_fill|done]. }
  split.
  - intros i md. rewrite L. destruct (decide (i = n)) as [->|Hi].
    + intros [= <-] _. cbn. by rewrite Hm.
    + intros E Kn. by apply R, (h_reach _ _ H).
  - assert (Hd : exists md, nodes' !! n = Some md /\ key md <> Tnil /\ mp (key md) = n).
    { exists (mkNode Tnil k (next nd)). rewrite L, decide_True by done. done. }
    intros i md. rewrite L. destruct (decide (i = n)) as [->|Hi].
    + intros [= <-] _. cbn. by rewrite Hm.
    + intros E Kn. destruct (decide (mp (key md) = n)) as [->|Hne]; [done|].
      rewrite L, decide_False by done. by apply (h_head _ _ H _ _ E).
  - intros i md. rewrite L. destruct (decide (i = n)) as [->|Hi]; [by intros [= <-] ?|].
    apply (h_free _ _ H).
  - intros i j N. apply nxt_fill, (h_pred _ _ H) in N as (md & E & Kn). rewrite L.
    destruct (decide (j = n)); [by eexists|by exists md].
  - intros i j l N1%nxt_fill N2%nxt_fill. by eapply (h_inj _ _ H).
  - destruct (h_rank _ _ H) as [r Hr]. exists r. intros i j N%nxt_fill. by apply Hr.
  - intros i j a b. rewrite !L. destruct (decide (i = n)) as [->|Hi], (decide (j = n)) as [->|Hj]; try done.
    + intros [= <-] E _ ?. exfalso. by apply (Ha j b).
    + intros E [= <-] _ ?. exfalso. by apply (Ha i a).
    + apply (h_uniq _ _ H).
  - intros i md. rewrite L. destruct (decide (i = n)); [by intros [= <-]|]. apply (h_canon _ _ H).
Qed.

Lemma fill_has c v : has nodes c v <-> has nodes' c v.
Proof using Ha Hn Hv L.
  revert c v. apply has_fresh with k; [done|..].
  - intros i md. rewrite L. destruct (decide (i = n)); [by intros [= <-]|]. intros E ?. by destruct (Ha i md).
  - intros c v Hne Nv. split; intros (i & md & E & K & V).
    + exists i, md. split; [|done]. rewrite L. destruct (decide (i = n)) as [->|]; [congruence|done].
    + rewrite L in E. destruct (decide (i = n)); [|by exists i, md]. injection E as <-. done.
Qed.
End Fill.

(** The main node [n] is occupied by a key of its own: the new key goes into
    the free node [f], linked behind [n]. *)
Section Link.
Variables (mp : TValue -> nat) (nodes nodes' : list Node) (k : TValue) (n f : nat) (nd fd : Node).
Hypothesis (H : hash_ok mp nodes) (Hk : canon k) (Ha : absent nodes k) (Hm : mp k = n)
  (Hn : nodes !! n = Some nd) (Kn : key nd <> Tnil) (Mn : mp (key nd) = n)
  (Hf : nodes !! f = Some fd) (Kf : key fd = Tnil)
  (L : forall i, nodes' !! i = if decide (i = f) then Some (mkNode Tnil k (next nd))
                               else if decide (i = n) then Some (set_next (Some f) nd) else nodes !! i).

Lemma link_fn : f <> n.
Proof using All. intros ->. congruence. Qed.

Lemma link_alone i j : nxt nodes i j -> i <> f /\ j <> f.
Proof using All.
  intros N. split; intros ->.
  - unfold nxt in N. rewrite Hf in N. cbn in N. by rewrite (proj2 (h_free _ _ H _ _ Hf Kf)) in N.
  - apply (h_pred _ _ H) in N as (? & ? & ?). congruence.
Qed.

Lemma nxt_link i j : nxt nodes' i j <-> (i = n /\ j = f) \/ (i = f /\ nxt nodes n j) \/ (i <> n /\ nxt nodes i j).
Proof using All.
  unfold nxt at 1. rewrite L. destruct (decide (i = f)) as [->|Hi]; cbn.
  - unfold nxt at 1. rewrite Hn. cbn. split; [intros N; right; by left|].
    intros [[E _]|[[_ N]|[_ N]]]; [by destruct link_fn|done|]. by apply link_alone in N as [? _].
  - destruct (decide (i = n)) as [->|Hi']; cbn.
    + split; [intros [= ->]; by left|]. intros [[_ ->]|[[-> _]|[? _]]]; done.
    + split; [intros N; right; by right|]. intros [[? _]|[[? _]|[_ N]]]; done.
Qed.

Lemma link_ok : hash_ok mp nodes'.
Proof using All.
  assert (K : k <> Tnil) by by (intros ->; destruct Hk).
  assert (S : forall i j, nxt nodes i j -> rtc (nxt nodes') i j).
  { intros i j N. destruct (decide (i = n)) as [->|Hi].
    - apply rtc_l with f; [apply nxt_link; by left|]. apply rtc_once, nxt_link. right; by left.
    - apply rtc_once, nxt_link. right; by right. }
  assert (R : forall i j, rtc (nxt nodes) i j -> rtc (nxt nodes') i j).
  { intros i j Hr. induction Hr as [|a b c N Hr IH]; [done|]. transitivity b; [by apply S|done]. }
  assert (Hd : exists md, nodes' !! n = Some md /\ key md <> Tnil /\ mp (key md) = n).
  { exists (set_next (Some f) nd). rewrite L, decide_False, decide_True by (try done; apply not_eq_sym, link_fn). done. }
  split.
  - intros i md. rewrite L. destruct (decide (i = f)) as [->|Hi]; [|destruct (decide (i = n)) as [->|Hi']].
    + intros [= <-] _. cbn. rewrite Hm. apply rtc_once, nxt_link. by left.
    + intros [= <-] _. cbn. by rewrite Mn.
    + intros E Kd. by apply R, (h_reach _ _ H).
  - intros i md. rewrite L. destruct (decide (i = f)) as [->|Hi]; [|destruct (decide (i = n)) as [->|Hi']].
    + intros [= <-] _. cbn. by rewrite Hm.
    + intros [= <-] _. cbn. by rewrite Mn.
    + intros E Kd. destruct (decide (mp (key md) = n)) as [->|Hne]; [done|].
      destruct (h_head _ _ H _ _ E Kd) as (hd & Eh & Kh & Mh).
      rewrite L, !decide_False; [by exists hd|done|]. intros X. rewrite X in Eh. congruence.
  - intros i md. rewrite L. destruct (decide (i = f)) as [->|Hi]; [by intros [= <-] ?|].
    destruct (decide (i = n)) as [->|Hi']; [by intros [= <-] ?|]. apply (h_free _ _ H).
  - intros i j N. rewrite L. destruct (decide (j = f)); [by eexists|]. destruct (decide (j = n)); [by eexists|].
    apply nxt_link in N as [[_ ->]|[[_ N]|[_ N]]]; [done|by apply (h_pred _ _ H) in N..].
  - assert (X : forall i, ~ nxt nodes i f) by (intros i N; by apply link_alone in N as [_ ?]).
    intros i j l N1 N2. apply nxt_link in N1, N2.
    destruct N1 as [[-> E1]|[[-> N1]|[N1' N1]]], N2 as [[-> E2]|[[-> N2]|[N2' N2]]]; subst; try done;
      try (by destruct (X _ N1)); try (by destruct (X _ N2)).
    + by destruct N2'; apply (h_inj _ _ H _ _ _ N2 N1).
    + by destruct N1'; apply (h_inj _ _ H _ _ _ N1 N2).
    + by apply (h_inj _ _ H _ _ _ N1 N2).
  - destruct (h_rank _ _ H) as [r Hr]. exists (fun i => if decide (i = f) then 2 * r n else 2 * r i + 1)%nat.
    intros i j N. apply nxt_link in N as [[-> ->]|[[-> N]|[Hi N]]].
    + pose proof link_fn. rewrite (decide_True (P := f = f)) by done. rewrite decide_False by done. lia.
    + destruct (link_alone _ _ N). rewrite (decide_True (P := f = f)) by done. rewrite decide_False by done. apply Hr in N. lia.
    + destruct (link_alone _ _ N). rewrite !decide_False by done. apply Hr in N. lia.
  - assert (O : forall i a, nodes' !! i = Some a -> (i = f /\ key a = k) \/
      exists a0, nodes !! i = Some a0 /\ key a0 = key a).
    { intros i a. rewrite L. destruct (decide (i = f)) as [->|]; [intros [= <-]; by left|right].
      destruct (decide (i = n)) as [->|]; [|by exists a]. exists nd. split; [done|]. by injection H0 as <-. }
    intros i j a b Ei Ej. destruct (O _ _ Ei) as [[-> Ka]|(a0 & Ea & Ka)], (O _ _ Ej) as [[-> Kb]|(b0 & Eb & Kb)];
      intros Na E; [done|exfalso; apply (Ha _ _ Eb); congruence|exfalso; apply (Ha _ _ Ea); congruence|].
    apply (h_uniq _ _ H _ _ _ _ Ea Eb); congruence.
  - intros i md. rewrite L. destruct (decide (i = f)); [by intros [= <-]|].
    destruct (decide (i = n)); [intros [= <-]; cbn; by apply (h_canon _ _ H n)|]. apply (h_canon _ _ H).
Qed.

Lemma link_has c v : has nodes c v <-> has nodes' c v.
Proof using All.
  revert c v. apply has_fresh with k; [done|..].
  - intros i md. rewrite L. destruct (decide (i = f)); [by intros [= <-]|].
    destruct (decide (i = n)); [intros [= <-] E; by destruct (Ha n nd)|]. intros E ?. by destruct (Ha i md).
  - intros c v Hne Nv. split; intros (i & md & E & K & V).
    + destruct (decide (i = n)) as [->|Hi].
      * exists n, (set_next (Some f) nd). rewrite L, decide_False, decide_True by (try done; apply not_eq_sym, link_fn).
        rewrite E in Hn. injection Hn as ->. done.
      * exists i, md. rewrite L. rewrite !decide_False; [done|done|]. intros ->.
        apply Nv. rewrite <- V. rewrite E in Hf. injection Hf as ->. by apply (h_free _ _ H f).
    + rewrite L in E. destruct (decide (i = f)); [injection E as <-; by cbn in V|].
      destruct (decide (i = n)) as [->|]; [injection E as <-; by exists n, nd|by exists i, md].
Qed.
End Link.

(** The main node [n] holds a key of another chain: that key moves to the free
    node [f], relinked behind its predecessor [p], and [n] takes the new key. *)
Section Move.
Variables (mp : TValue -> nat) (nodes nodes' : list Node) (k : TValue) (n f p : nat) (nd fd pd : Node).
Hypothesis (H : hash_ok mp nodes) (Hk : canon k) (Ha : absent nodes k) (Hm : mp k = n)
  (Hn : nodes !! n = Some nd) (Kn : key nd <> Tnil) (Mn : mp (key nd) <> n)
  (Hf : nodes !! f = Some fd) (Kf : key fd = Tnil) (Hp : nodes !! p = Some pd) (Np : nxt nodes p n)
  (L : forall i, nodes' !! i = if decide (i = n) then Some (mkNode Tnil k None)
                               else if decide (i = f) then Some nd
                               else if decide (i = p) then Some (set_next (Some f) pd) else nodes !! i).

Lemma move_alone i j : nxt nodes i j -> i <> f /\ j <> f.
Proof using All.
  intros N. split; intros ->.
  - unfold nxt in N. rewrite Hf in N. cbn in N. by rewrite (proj2 (h_free _ _ H _ _ Hf Kf)) in N.
  - apply (h_pred _ _ H) in N as (? & ? & ?). congruence.
Qed.

Lemma move_irr i : ~ nxt nodes i i.
Proof using All. intros N. destruct (h_rank _ _ H) as [r Hr]. apply Hr in N. lia. Qed.

Lemma move_distinct : n <> f /\ p <> n /\ p <> f.
Proof using All.
  split; [intros ->; congruence|]. split; [intros E; apply (move_irr n); by rewrite <- E at 1|].
  apply (move_alone _ _ Np).
Qed.

(** No key has the main node [n]. *)
Lemma move_nomain i a : nodes !! i = Some a -> key a <> Tnil -> mp (key a) <> n.
Proof using All.
  intros E K M. destruct (h_head _ _ H _ _ E K) as (md & Em & Km & Mm). rewrite M in *. congruence.
Qed.

Lemma nxt_move i j : nxt nodes' i j <->
  (i = p /\ j = f) \/ (i = f /\ nxt nodes n j) \/ (i <> p /\ i <> n /\ nxt nodes i j).
Proof using All.
  destruct move_distinct as (D1 & D2 & D3). unfold nxt at 1. rewrite L.
  destruct (decide (i = n)) as [->|Hi]; cbn.
  { split; [done|]. intros [[E _]|[[E _]|[_ [E _]]]]; congruence. }
  destruct (decide (i = f)) as [->|Hi']; cbn.
  { unfold nxt at 1. rewrite Hn. cbn. split; [intros N; right; by left|].
    intros [[E _]|[[_ N]|(_ & _ & N)]]; [congruence|done|]. by apply move_alone in N as [? _]. }
  destruct (decide (i = p)) as [->|Hi'']; cbn.
  - split; [intros [= ->]; by left|]. intros [[_ ->]|[[-> _]|[? _]]]; done.
  - split; [intros N; right; by right|]. intros [[? _]|[[? _]|(_ & _ & N)]]; done.
Qed.

Lemma move_reach a b : a <> n -> rtc (nxt nodes) a b -> rtc (nxt nodes') a (if decide (b = n) then f else b).
Proof using All.
  intros Na R.
  refine (rtc_ind_r (fun b => rtc (nxt nodes') a (if decide (b = n) then f else b)) a _ _ b R); [by rewrite decide_False|].
  clear b R. intros b c R N IH.
  eapply rtc_r; [exact IH|]. apply nxt_move.
  destruct (decide (c = n)) as [->|Hc].
  - assert (b = p) as -> by (by apply (h_inj _ _ H _ _ _ N Np)).
    destruct move_distinct as (_ & D2 & _). rewrite decide_False by done. by left.
  - destruct (decide (b = n)) as [->|Hb]; [right; by left|right; right].
    split; [|done]. intros ->. unfold nxt in N, Np. congruence.
Qed.

Lemma move_origin i a : nodes' !! i = Some a ->
  (i = n /\ key a = k) \/ (i = f /\ a = nd) \/ (i <> n /\ i <> f /\ exists a0, nodes !! i = Some a0 /\ key a0 = key a /\ val a0 = val a).
Proof using All.
  rewrite L. destruct (decide (i = n)) as [->|]; [intros [= <-]; by left|].
  destruct (decide (i = f)) as [->|]; [intros [= <-]; right; by left|]. intros E. right; right. split; [done|]. split; [done|].
  destruct (decide (i = p)) as [->|]; [injection E as <-; by exists pd|by exists a].
Qed.

Lemma move_keeps i a : nodes !! i = Some a -> i <> n -> i <> f ->
  exists a', nodes' !! i = Some a' /\ key a' = key a /\ val a' = val a.
Proof using All.
  intros E Hi Hi'. rewrite L, !decide_False by done. destruct (decide (i = p)) as [->|]; [|by exists a].
  exists (set_next (Some f) pd). rewrite E in Hp. by injection Hp as ->.
Qed.

Lemma move_reachable i a : nodes' !! i = Some a -> key a <> Tnil -> rtc (nxt nodes') (mp (key a)) i.
Proof using All.
  intros E K. destruct (move_origin _ _ E) as [[-> Ka]|[[-> ->]|(D & D' & a0 & E0 & K0 & _)]].
  - by rewrite Ka, Hm.
  - pose proof (move_reach _ _ Mn (h_reach _ _ H _ _ Hn K)) as R. by rewrite decide_True in R.
  - rewrite <- K0 in *. pose proof (move_reach _ _ (move_nomain _ _ E0 K) (h_reach _ _ H _ _ E0 K)) as R.
    by rewrite decide_False in R.
Qed.

Lemma move_headed i a : nodes' !! i = Some a -> key a <> Tnil ->
  exists md, nodes' !! mp (key a) = Some md /\ key md <> Tnil /\ mp (key md) = mp (key a).
Proof using All.
  assert (G : forall j b, nodes !! j = Some b -> key b <> Tnil ->
    exists md, nodes' !! mp (key b) = Some md /\ key md <> Tnil /\ mp (key md) = mp (key b)).
  { intros j b E K. destruct (h_head _ _ H _ _ E K) as (hd & Eh & Kh & Mh).
    destruct (move_keeps _ _ Eh) as (hd' & Eh' & Kh' & _); [by eapply move_nomain|intros X; rewrite X in *; congruence|].
    exists hd'. by rewrite Kh'. }
  intros E K. destruct (move_origin _ _ E) as [[-> Ka]|[[-> ->]|(D & D' & a0 & E0 & K0 & _)]].
  - rewrite Ka, Hm. exists a. rewrite Ka. split; [done|]. split; [by rewrite <- Ka|done].
  - by apply (G n).
  - rewrite <- K0 in *. by apply (G i).
Qed.

Lemma move_ok : hash_ok mp nodes'.
Proof using All.
  destruct move_distinct as (D1 & D2 & D3). assert (K : k <> Tnil) by by (intros ->; destruct Hk).
  split; [apply move_reachable|apply move_headed|..].
  - intros i a. rewrite L. destruct (decide (i = n)); [by intros [= <-] X|].
    destruct (decide (i = f)); [by intros [= <-] ?|].
    destruct (decide (i = p)) as [->|]; [|apply (h_free _ _ H)]. intros [= <-] X. cbn in X.
    apply (h_free _ _ H p pd) in X as [_ X]; [|done]. unfold nxt in Np. rewrite Hp in Np. cbn in Np. congruence.
  - intros i j N. apply nxt_move in N as [[-> ->]|[[-> N]|(_ & _ & N)]].
    + exists nd. by rewrite L, decide_False, decide_True by done.
    + pose proof (move_alone _ _ N) as [_ X]. destruct (h_pred _ _ H _ _ N) as (a & E & Ka).
      destruct (move_keeps _ _ E) as (a' & E' & K' & _); [intros ->; by apply move_irr in N|done|].
      exists a'. by rewrite K'.
    + destruct (decide (j = n)) as [->|]; [eexists; rewrite L, decide_True by done; split; done|].
      pose proof (move_alone _ _ N) as [_ X]. destruct (h_pred _ _ H _ _ N) as (a & E & Ka).
      destruct (move_keeps _ _ E) as (a' & E' & K' & _); [done..|]. exists a'. by rewrite K'.
  - assert (X : forall i, ~ nxt nodes i f) by (intros i N; by apply move_alone in N as [_ ?]).
    intros i j l N1 N2. apply nxt_move in N1, N2.
    destruct N1 as [[-> E1]|[[-> N1]|(N1' & N1'' & N1)]], N2 as [[-> E2]|[[-> N2]|(N2' & N2'' & N2)]]; subst; try done;
      try (by destruct (X _ N1)); try (by destruct (X _ N2)); pose proof (h_inj _ _ H _ _ _ N1 N2); done.
  - destruct (h_rank _ _ H) as [r Hr]. exists (fun i => if decide (i = f) then r n else r i).
    intros i j N. apply nxt_move in N as [[-> ->]|[[-> N]|(Hi & _ & N)]].
    + rewrite decide_True by done. rewrite decide_False by done. by apply Hr.
    + destruct (move_alone _ _ N). rewrite (decide_True (P := f = f)) by done. rewrite decide_False by done. by apply Hr.
    + destruct (move_alone _ _ N). rewrite !decide_False by done. by apply Hr.
  - intros i j a b Ea Eb Na E.
    destruct (move_origin _ _ Ea) as [[-> Ka]|[[-> ->]|(Di & Di' & a0 & Ea0 & Ka & _)]],
      (move_origin _ _ Eb) as [[-> Kb]|[[-> ->]|(Dj & Dj' & b0 & Eb0 & Kb & _)]]; try done;
      try (exfalso; apply (Ha _ _ Hn); congruence); try (exfalso; apply (Ha _ _ Eb0); congruence);
      try (exfalso; apply (Ha _ _ Ea0); congruence).
    + destruct Dj. by apply (h_uniq _ _ H _ _ _ _ Eb0 Hn); congruence.
    + destruct Di. by apply (h_uniq _ _ H _ _ _ _ Ea0 Hn); congruence.
    + apply (h_uniq _ _ H _ _ _ _ Ea0 Eb0); congruence.
  - intros i a Ea Na. destruct (move_origin _ _ Ea) as [[-> Ka]|[[-> ->]|(Di & Di' & a0 & Ea0 & Ka & _)]].
    + by rewrite Ka.
    + by apply (h_canon _ _ H n).
    + rewrite <- Ka in *. by apply (h_canon _ _ H i).
Qed.

Lemma move_has c v : has nodes c v <-> has nodes' c v.
Proof using All.
  destruct move_distinct as (D1 & D2 & D3). revert c v. apply has_fresh with k; [done|..].
  - intros i a Ea Ka. destruct (move_origin _ _ Ea) as [[-> _]|[[-> ->]|(Di & Di' & a0 & Ea0 & Ka' & _)]].
    + rewrite L, decide_True in Ea by done. by injection Ea as <-.
    + by destruct (Ha n nd).
    + destruct (Ha _ _ Ea0). congruence.
  - intros c v Hne Nv. split; intros (i & a & E & K & V).
    + destruct (decide (i = n)) as [->|Hi].
      { exists f, nd. rewrite L, decide_False, decide_True by done. rewrite E in Hn. by injection Hn as ->. }
      destruct (decide (i = f)) as [->|Hi'].
      { exfalso. apply Nv. rewrite <- V. rewrite E in Hf. injection Hf as ->. by apply (h_free _ _ H f). }
      destruct (move_keeps _ _ E Hi Hi') as (a' & E' & K' & V'). exists i, a'. split; [done|]. split; congruence.
    + destruct (move_origin _ _ E) as [[-> Ka]|[[-> ->]|(Di & Di' & a0 & Ea0 & Ka' & Va)]]; [congruence|by exists n, nd|].
      exists i, a0. split; [done|]. split; congruence.
Qed.
End Move.
