(* ===== verification/TabInv.v ===== *)
(** * Tables: the invariant, lookup and insertion

    [wf_tab] is the invariant of a table.  [ref_get] is the reference lookup
    (array slot or scan of all nodes); the hashed lookups agree with it, and
    the setters return a slot for the key without changing any pair, or hand
    over to [retry] when the hash part is full. *)

From S2P Require Import Prelude Machine Num Tab TabKey TabHash.

#[local] Arguments deq : simpl never.
#[local] Arguments int2num : simpl never.
#[local] Arguments lj_num2int : simpl never.

Section Inv.
Context `{TE : TabEnv}.

Definition all_keyed (nodes : list Node) (from : nat) : Prop :=
  forall i nd, (from <= i)%nat -> nodes !! i = Some nd -> key nd <> Tnil.

Definition hpart_ok (t : GCtab) : Prop :=
  (hmask t = 0 /\ node t = [nil_node] /\ freetop t = 0%nat) \/
  (exists h, 1 <= h <= LJ_MAX_HBITS /\ hmask t = 2 ^ h - 1 /\ length (node t) = Z.to_nat (2 ^ h) /\
     (freetop t <= length (node t))%nat /\ all_keyed (node t) (freetop t)).

Record wf_tab (t : GCtab) : Prop := {
  w_size : hpart_ok t;
  w_hash : hash_ok (hashkey t) (node t);
  w_asize : 0 <= asize t <= LJ_MAX_ASIZE;
  w_array : (Z.to_nat (asize t) <= length (array t))%nat;
  w_noint : forall i nd k, node t !! i = Some nd -> 0 <= k < asize t -> key nd <> int_key k;
  w_nvals : forall i nd, node t !! i = Some nd -> wf_tv (val nd);
  w_avals : forall i v, array t !! i = Some v -> wf_tv v
}.

Lemma asize_i32 t k : wf_tab t -> 0 <= k < asize t -> is_i32 k.
Proof. intros W Hk. pose proof (w_asize t W). change LJ_MAX_ASIZE with 134217729 in *. widths. lia. Qed.

Lemma asize_u32 t k : wf_tab t -> 0 <= k < asize t -> u32 k = k.
Proof. intros W Hk. pose proof (w_asize t W). change LJ_MAX_ASIZE with 134217729 in *. apply u32_id. widths. lia. Qed.

Lemma inarray_spec t i : wf_tab t -> is_i32 i -> inarray t i = true <-> 0 <= i < asize t.
Proof.
  intros W Hi. pose proof (w_asize t W). change LJ_MAX_ASIZE with 134217729 in *.
  unfold inarray. rewrite Z.ltb_lt. widths. destruct (Z.ltb_spec i 0).
  - rewrite <- (Z.mod_unique i (2 ^ 32) (-1) (i + 2 ^ 32)) by lia. lia.
  - rewrite Z.mod_small by lia. lia.
Qed.

Lemma hashkey_range t k : hpart_ok t -> (hashkey t k < length (node t))%nat.
Proof.
  intros [(Hm & -> & _)|(h & Hh & Hm & -> & _)].
  - pose proof (hashkey_bound t k 0 ltac:(lia)) as B. rewrite Hm in B. by apply B.
  - pose proof (hashkey_bound t k h ltac:(lia) Hm) as B. rewrite Hm in B. replace (2 ^ h) with (2 ^ h - 1 + 1) by lia. done.
Qed.

(** ** The reference lookup *)

Definition ref_get (t : GCtab) (c : TValue) : TValue :=
  match c with
  | Tnum u =>
      let i := lj_num2int u in
      if deq u (int2num i) && inarray t i then arrayslot t (u32 i) else scan (node t) c
  | _ => scan (node t) c
  end.

Definition in_arr (t : GCtab) (c : TValue) : Prop := exists i, 0 <= i < asize t /\ c = int_key i.

Lemma deq_int_refl i : is_i32 i -> deq (int2num i) (int2num i) = true.
Proof. intros Hi. rewrite deq_int2num by done. by apply Z.eqb_eq. Qed.

Lemma ref_get_arr t i : wf_tab t -> 0 <= i < asize t -> ref_get t (int_key i) = arrayslot t i.
Proof.
  intros W Hi. pose proof (asize_i32 t i W Hi) as Ri. unfold ref_get, int_key.
  rewrite num2int_int2num, deq_int_refl by done.
  rewrite (proj2 (inarray_spec t i W Ri) Hi). cbn. by rewrite (asize_u32 t i).
Qed.

Lemma ref_get_hash t c : wf_tab t -> canon c -> ~ in_arr t c -> ref_get t c = scan (node t) c.
Proof.
  intros W Hc Hn. destruct c as [| | | | | | |u]; try done. cbn.
  destruct (deq u (int2num _)) eqn:D; [|done]. destruct (inarray t _) eqn:I; [|done].
  exfalso. apply Hn. exists (lj_num2int u). apply inarray_spec in I; [|done|apply num2int_i32].
  split; [done|]. destruct Hc as [[Hu _] [_ Hz]]. unfold int_key. f_equal. by apply deq_int_canon.
Qed.

Lemma in_arr_cases t c : wf_tab t -> canon c -> in_arr t c \/ ~ in_arr t c.
Proof.
  intros W Hc. destruct c as [| | | | | | |u]; try (right; by intros (i & _ & E)).
  destruct (deq u (int2num (lj_num2int u))) eqn:D.
  - destruct Hc as [[Hu _] [_ Hz]]. apply deq_int_canon in D; try done.
    destruct (decide (0 <= lj_num2int u < asize t)) as [R|R]; [left; exists (lj_num2int u); split; [done|by rewrite D at 1]|].
    right. intros (i & Hi & E). injection E as E. rewrite E, num2int_int2num in R; [done|by eapply asize_i32].
  - right. intros (i & Hi & E). injection E as E. assert (Ri : is_i32 i) by by eapply asize_i32.
    rewrite E, num2int_int2num, deq_int_refl in D; done.
Qed.

(** ** Lookup *)

Definition slot_of (t : GCtab) (c : TValue) (r : option nat) : Prop :=
  match r with
  | Some n => exists nd, node t !! n = Some nd /\ key nd = c
  | None => absent (node t) c
  end.

Lemma absent_main mp nodes c : hash_ok mp nodes -> c <> Tnil ->
  (forall j nd, rtc (nxt nodes) (mp c) j -> nodes !! j = Some nd -> key nd <> c) -> absent nodes c.
Proof.
  intros H Hc A i nd E K. apply (A i nd); [|done..]. rewrite <- K. apply (h_reach _ _ H); [done|congruence].
Qed.

Lemma nchain_search_ok t p c : hpart_ok t -> hash_ok (hashkey t) (node t) -> canon c ->
  (forall nd, key_ok (key nd) -> p nd = bool_decide (key nd = c)) ->
  exists r, nchain_search t p (hashkey t c) = Ok r /\ slot_of t c r.
Proof.
  intros S H Hc Hp.
  destruct (nchain_find_ok _ _ H p (length (node t)) (hashkey t c)) as (r & E & F); [by apply hashkey_range| |].
  { intros l W. by eapply walk_bound; [..|apply W]; [|apply hashkey_range]. }
  exists r. split; [done|]. destruct r as [n|]; cbn in *.
  - destruct F as (R & nd & En & P). exists nd. split; [done|].
    rewrite Hp in P by (by eapply node_key_ok). by apply bool_decide_eq_true in P.
  - apply absent_main with (hashkey t); [done|by intros ->; destruct Hc|]. intros j nd R En K.
    specialize (F j nd R En). rewrite Hp in F by (by eapply node_key_ok). by apply bool_decide_eq_false in F.
Qed.

Lemma slot_of_val t c r : hash_ok (hashkey t) (node t) -> c <> Tnil -> slot_of t c r ->
  default Tnil (node_val t r) = scan (node t) c.
Proof.
  intros H Hc S. destruct r as [n|]; cbn in *.
  - destruct S as (nd & E & K). rewrite E. cbn. destruct (decide (val nd = Tnil)) as [V|V].
    + rewrite V. symmetry. apply (scan_nil _ _ _ H Hc). intros v (i & md & E' & K' & V' & N').
      assert (i = n) as -> by (apply (h_uniq _ _ H _ _ _ _ E' E); congruence). congruence.
    + symmetry. apply (scan_has _ _ H _ _ V Hc). by exists n, nd.
  - symmetry. apply (scan_nil _ _ _ H Hc). intros v (i & nd & E & K & _). by apply (S i nd).
Qed.

Lemma search_get t p c : wf_tab t -> canon c ->
  (forall nd, key_ok (key nd) -> p nd = bool_decide (key nd = c)) ->
  exists o, (r ← nchain_search t p (hashkey t c); Ok (node_val t r)) = (Ok o : tres _) /\ default Tnil o = scan (node t) c.
Proof.
  intros W Hc Hp. destruct (nchain_search_ok t p c (w_size t W) (w_hash t W) Hc Hp) as (r & E & S).
  exists (node_val t r). rewrite E. split; [done|]. apply slot_of_val; [apply W|by intros ->; destruct Hc|done].
Qed.

Lemma getint_ok t i : wf_tab t -> is_i32 i ->
  exists o, lj_tab_getint t i = Ok o /\ default Tnil o = ref_get t (int_key i).
Proof.
  intros W Hi. unfold lj_tab_getint. pose proof (inarray_spec t i W Hi) as S.
  pose proof (canon_int i Hi) as Hc. destruct (inarray t i).
  - exists (Some (arrayslot t (u32 i))). split; [done|]. change (arrayslot t (u32 i) = ref_get t (int_key i)).
    rewrite ref_get_arr by (try done; by apply S). by rewrite (asize_u32 t i W) by (by apply S).
  - rewrite ref_get_hash; [|done..|].
    + unfold lj_tab_getinth. rewrite <- hashkey_num by done. apply search_get; [done|done|].
      intros nd Hn. by apply is_numkey_spec.
    + intros (j & Hj & E). injection E as E. assert (Rj : is_i32 j) by by eapply asize_i32.
      apply int2num_inj in E; [|done..]. subst j. by apply S in Hj.
Qed.

Lemma norm_num_int u : is_u64 u -> deq u (int2num (lj_num2int u)) = true -> norm (Tnum u) = Some (int_key (lj_num2int u)).
Proof.
  intros Hu D. unfold norm, norm_num. rewrite D.
  assert (R : deq u u = true); [|by rewrite R].
  apply deq_refl_iff; [done|]. apply deq_bits in D; [by destruct D|done|by apply int2num_props, num2int_i32].
Qed.

Lemma norm_num_generic u : is_u64 u -> deq u (int2num (lj_num2int u)) = false ->
  norm (Tnum u) = if deq u u then Some (Tnum u) else None.
Proof. intros Hu D. unfold norm, norm_num. by rewrite D. Qed.

(** A NaN matches no node. *)
Lemma deq_nan x u : is_u64 x -> is_u64 u -> deq u u = false -> deq x u = false.
Proof.
  intros Hx Hu D. destruct (deq x u) eqn:E; [|done]. rewrite deq_sym in E. apply deq_bits in E as [E _]; [|done..].
  apply deq_refl_iff in E; [|done]. congruence.
Qed.

Lemma numberVnum_u64 o : wf_tv o -> is_u64 (numberVnum o).
Proof. destruct o; cbn; intros W; try (by split); [by apply int2num_props|apply W]. Qed.

Lemma is_key_nan u nd : wf_tv (Tnum u) -> deq u u = false -> key_ok (key nd) -> is_key (Tnum u) nd = false.
Proof.
  intros [Hu Hh] D K. assert (W : wf_tv (key nd)) by (destruct K as [-> |[]]; done).
  pose proof (deq_nan _ u (numberVnum_u64 _ W) Hu D) as X. unfold is_key, lj_obj_equal. cbn [itype numberVnum]. rewrite X.
  destruct (Z.eqb_spec (itype (key nd)) (u >> 32)) as [E|E]; [|by destruct (_ || _)].
  unfold tvispri, tvisnum. rewrite E, (proj2 (Z.leb_gt _ _)), (proj2 (Z.ltb_lt _ _)); [done|done|].
  unfold LJ_TISPRI, LJ_TTRUE, LJ_TISNUM in *. lia.
Qed.

Lemma search_nan t u : wf_tab t -> wf_tv (Tnum u) -> deq u u = false ->
  nchain_search t (is_key (Tnum u)) (hashkey t (Tnum u)) = Ok None.
Proof.
  intros W Hu D. pose proof (w_hash t W) as H.
  destruct (nchain_find_ok _ _ H (is_key (Tnum u)) (length (node t)) (hashkey t (Tnum u))) as (r & E & F);
    [apply hashkey_range, W| |].
  { intros l Wl. by eapply walk_bound; [..|apply Wl]; [|apply hashkey_range, W]. }
  destruct r as [n|]; [|done]. destruct F as (_ & nd & En & P).
  rewrite is_key_nan in P; [done|done|done|by eapply node_key_ok].
Qed.

Lemma get_generic_ok t c : wf_tab t -> canon c ->
  exists o, get_generic t c = Ok o /\ default Tnil o = scan (node t) c.
Proof. intros W Hc. apply search_get; [done|done|]. intros nd K. by apply is_key_spec. Qed.

Lemma getstr_ok t s : wf_tab t -> is_u32 s ->
  exists o, lj_tab_getstr t s = Ok o /\ default Tnil o = scan (node t) (Tstr s).
Proof.
  intros W Hs. unfold lj_tab_getstr. rewrite <- hashkey_str. apply search_get; [done|by split|].
  intros nd K. by apply is_strkey_spec.
Qed.

Lemma in_arr_generic t u : wf_tab t -> deq u (int2num (lj_num2int u)) = false -> ~ in_arr t (Tnum u).
Proof.
  intros W D (i & Hi & E). injection E as ->. assert (Ri : is_i32 i) by by eapply asize_i32.
  by rewrite num2int_int2num, deq_int_refl in D by done.
Qed.

(** Every lookup by key returns what the reference lookup of its stored form
    returns. *)
Lemma get_ref t k : wf_tab t -> wf_tv k ->
  lj_tab_get t k = Ok (match norm k with Some c => ref_get t c | None => Tnil end).
Proof.
  intros W Hk. unfold lj_tab_get. rewrite tvisstr_spec, tvisnil_spec by done.
  assert (G : forall c, canon c -> ~ in_arr t c -> default Tnil <$> get_generic t c = Ok (ref_get t c)).
  { intros c Hc Hn. destruct (get_generic_ok t c W Hc) as (o & -> & E). by rewrite ref_get_hash, <- E by done. }
  assert (I : forall i, is_i32 i -> default Tnil <$> lj_tab_getint t i = Ok (ref_get t (int_key i))).
  { intros i Hi. by destruct (getint_ok t i W Hi) as (o & -> & <-). }
  destruct k as [| | |p|s|it p|i|u]; try done.
  - apply G; [by split|by intros (? & _ & ?)].
  - apply G; [by split|by intros (? & _ & ?)].
  - apply G; [by split|by intros (? & _ & ?)].
  - change (gcr (Tstr s)) with s. destruct (getstr_ok t s W Hk) as (o & -> & E). cbn in E |- *. by rewrite E.
  - apply G; [by split|by intros (? & _ & ?)].
  - by apply I.
  - destruct Hk as [Hu Hh]. destruct (deq u (int2num _)) eqn:D.
    + rewrite norm_num_int by done. apply I, num2int_i32.
    + rewrite norm_num_generic by done. destruct (deq u u) eqn:R.
      * apply G; [|by apply in_arr_generic]. apply canon_num; [done|by apply deq_refl_iff|].
        intros ->. vm_compute in D. discriminate D.
      * unfold get_generic. by rewrite search_nan by done.
Qed.

End Inv.
