(* ===== verification/TabPut.v ===== *)
(** * Tables: insertion

    [lj_tab_newkey] and the setters: on a well-formed table they return a
    slot for the key and change no pair, or the hash part is full and they
    hand over to [retry]. *)

From S2P Require Import Prelude Machine Num Tab TabKey TabHash TabInv.

#[local] Arguments deq : simpl never.
#[local] Arguments int2num : simpl never.
#[local] Arguments lj_num2int : simpl never.

(** ** Counting used nodes *)

Definition nkeyed (l : list Node) : nat := length (filter (fun nd => key nd <> Tnil) l).

Lemma nkeyed_cons n l : nkeyed (n :: l) = ((if decide (key n = Tnil) then 0 else 1) + nkeyed l)%nat.
Proof.
  unfold nkeyed. destruct (decide (key n = Tnil)) as [K|K].
  - rewrite filter_cons_False; [done|]. by intros X.
  - by rewrite filter_cons_True.
Qed.

Lemma nkeyed_alter_same g i l : (forall x, key (g x) = key x) -> nkeyed (alter g i l) = nkeyed l.
Proof.
  intros Hg. revert i. induction l as [|x l IH]; intros [|i]; try done.
  - change (alter g 0%nat (x :: l)) with (g x :: l). by rewrite !nkeyed_cons, Hg.
  - change (alter g (S i) (x :: l)) with (x :: alter g i l). by rewrite !nkeyed_cons, IH.
Qed.

Lemma nkeyed_alter_le g i l : (nkeyed (alter g i l) <= nkeyed l + 1)%nat.
Proof.
  revert i. induction l as [|x l IH]; intros [|i].
  - cbn. lia.
  - cbn. lia.
  - change (alter g 0%nat (x :: l)) with (g x :: l). rewrite !nkeyed_cons. do 2 case_decide; lia.
  - change (alter g (S i) (x :: l)) with (x :: alter g i l). rewrite !nkeyed_cons. specialize (IH i). lia.
Qed.

Lemma nkeyed_insert_le x i l : (nkeyed (<[i := x]> l) <= nkeyed l + 1)%nat.
Proof.
  revert i. induction l as [|y l IH]; intros [|i].
  - cbn. lia.
  - cbn. lia.
  - change (<[0%nat := x]> (y :: l)) with (x :: l). rewrite !nkeyed_cons. do 2 case_decide; lia.
  - change (<[S i := x]> (y :: l)) with (y :: <[i := x]> l). rewrite !nkeyed_cons. specialize (IH i). lia.
Qed.

Lemma nkeyed_alter_keyed g i l nd : l !! i = Some nd -> key nd <> Tnil -> (nkeyed (alter g i l) <= nkeyed l)%nat.
Proof.
  revert i. induction l as [|x l IH]; intros [|i] E K; try done.
  - injection E as ->. change (alter g 0%nat (nd :: l)) with (g nd :: l). rewrite !nkeyed_cons. do 2 case_decide; done || lia.
  - change (alter g (S i) (x :: l)) with (x :: alter g i l). rewrite !nkeyed_cons. specialize (IH i E K). lia.
Qed.

Lemma nkeyed_full l : all_keyed l 0 -> nkeyed l = length l.
Proof.
  induction l as [|x l IH]; intros A; [done|]. rewrite nkeyed_cons. cbn. rewrite IH.
  - rewrite decide_False; [done|]. by apply (A 0%nat x); [lia|].
  - intros i nd _ E. by apply (A (S i) nd); [lia|].
Qed.

Lemma nkeyed_le l : (nkeyed l <= length l)%nat.
Proof. apply length_filter. Qed.

(** ** Chains that need no rechaining *)

Lemma walk_ext nodes nodes' i l : (forall i j, nxt nodes i j -> nxt nodes' i j) -> walk nodes i l -> walk nodes' i l.
Proof. intros E W. induction W as [|i j l N W IH]; [constructor|]. econstructor; [by apply E|done]. Qed.

Section Put.
Context `{TE : TabEnv}.

Lemma rechain_id t nodes n nd fuel : nodes !! n = Some nd ->
  (forall i j jd, nxt nodes i j -> nodes !! j = Some jd -> canon (key jd) /\ hashkey t (key jd) <> n) ->
  (forall i j, nxt nodes i j -> is_Some (nodes !! j)) ->
  forall f, (forall l, walk nodes f l -> (length l <= fuel)%nat) -> rechain t fuel nodes n f = Ok nodes.
Proof.
  intros En Hne Hr. induction fuel as [|fuel IH]; intros f Hw.
  { specialize (Hw [f] (walk_nil _ _)). cbn in Hw. lia. }
  cbn [rechain]. destruct (nodes !! f ≫= next) as [j|] eqn:N; [|done].
  destruct (Hr f j N) as [jd Ej]. rewrite Ej, En. destruct (Hne f j jd N Ej) as [[Wj Cj] Mj].
  assert (X : tvisstr (key jd) && negb (tvisnil (val jd)) && bool_decide (hashstr t (gcr (key jd)) = n) = false).
  { rewrite tvisstr_spec by done. destruct (key jd); try done. cbn [andb].
    apply andb_false_intro2. by apply bool_decide_eq_false. }
  rewrite X. apply IH. intros l W. specialize (Hw _ (walk_cons _ _ _ _ N W)). cbn in Hw. lia.
Qed.

Lemma rechain_freetop t x fuel nodes n : forall f, rechain (set_freetop t x) fuel nodes n f = rechain t fuel nodes n f.
Proof.
  revert nodes. induction fuel as [|fuel IH]; intros nodes f; [done|]. cbn [rechain].
  destruct (nodes !! f ≫= next) as [j|]; [|done]. destruct (nodes !! j), (nodes !! n); try done.
  change (hashstr (set_freetop t x)) with (hashstr t). destruct (_ && _); apply IH.
Qed.

Lemma move_node_freetop t x c n f : move_node (set_freetop t x) c n f = move_node t c n f.
Proof.
  unfold move_node. cbn [node set_freetop]. destruct (find_pred _ _ _ _); [|done]. cbn.
  destruct (_ !! n); [|done]. apply rechain_freetop.
Qed.

(** ** The result of an insertion *)

(** The hash part has no node left. *)
Definition full (t : GCtab) : Prop := hmask t = 0 \/ all_keyed (node t) 0.

Record placed (t : GCtab) (c : TValue) (t' : GCtab) (n : nat) : Prop := {
  pl_wf : wf_tab t';
  pl_frame : t' = mkTab (nomm t) (colo t) (array t) (asize t) (node t') (hmask t) (freetop t');
  pl_len : length (node t') = length (node t);
  pl_slot : exists nd, node t' !! n = Some nd /\ key nd = c;
  pl_has : forall c v, has (node t) c v <-> has (node t') c v;
  pl_count : (nkeyed (node t') <= nkeyed (node t) + 1)%nat
}.

Lemma placed_intro t k nodes' ft' n nd : wf_tab t -> hmask t <> 0 -> canon k -> ~ in_arr t k ->
  hash_ok (hashkey t) nodes' -> length nodes' = length (node t) ->
  (forall i a, nodes' !! i = Some a -> key a = k \/ exists j b, node t !! j = Some b /\ key b = key a) ->
  (forall i a, nodes' !! i = Some a -> val a = Tnil \/ exists j b, node t !! j = Some b /\ val b = val a) ->
  (ft' <= freetop t)%nat -> all_keyed nodes' ft' ->
  nodes' !! n = Some nd -> key nd = k ->
  (forall c v, has (node t) c v <-> has nodes' c v) -> (nkeyed nodes' <= nkeyed (node t) + 1)%nat ->
  placed t k (mkTab (nomm t) (colo t) (array t) (asize t) nodes' (hmask t) ft') n.
Proof.
  intros W Hm Hk Hi Ho Hlen Hkeys Hvals Hft Hall En Kn Hhas Hc.
  split; cbn; try done; [|by exists nd].
  destruct (w_size t W) as [(? & _)|(h & Hh & Em & El & Ef & _)]; [done|]. split; cbn; try apply W.
  - right. exists h. cbn. rewrite Hlen. split; [done|]. split; [done|]. split; [done|]. split; [lia|done].
  - done.
  - intros i a j Ea Hj K. destruct (Hkeys _ _ Ea) as [Ka|(i' & b & Eb & Kb)].
    + apply Hi. exists j. split; [done|congruence].
    + by apply (w_noint t W i' b j Eb Hj); congruence.
  - intros i a Ea. destruct (Hvals _ _ Ea) as [->|(j & b & Eb & <-)]; [done|]. by apply (w_nvals t W j).
Qed.

Lemma canon_mzero k : canon k -> bool_decide (k = Tnum 0x8000000000000000) = false.
Proof. intros [_ C]. apply bool_decide_eq_false_2. intros ->. by destruct C. Qed.

Lemma finish_eq t n k : canon k -> finish_key t n k = (set_node t (alter (set_key k) n (node t)), HashSlot n).
Proof. intros Hk. unfold finish_key. by rewrite canon_mzero by done. Qed.

Section Cases.
Variables (t : GCtab) (k : TValue) (nd : Node).
Hypothesis (W : wf_tab t) (Hk : canon k) (Ha : absent (node t) k) (Hi : ~ in_arr t k)
  (Hm : hmask t <> 0) (En : node t !! hashkey t k = Some nd).

Lemma ft_bounds : (freetop t <= length (node t))%nat /\ all_keyed (node t) (freetop t).
Proof using W Hm. by destruct (w_size t W) as [(? & _)|(h & _ & _ & _ & ? & ?)]. Qed.

(** The main node holds no live value. *)
Lemma newkey_fill : tvisnil (val nd) = true -> wf_tv (val nd) ->
  placed t k (set_node t (alter (set_key k) (hashkey t k) (node t))) (hashkey t k).
Proof using All.
  intros Hv Hw. rewrite tvisnil_spec in Hv by done. apply bool_decide_eq_true in Hv.
  set (n := hashkey t k) in *. set (nodes' := alter (set_key k) n (node t)).
  assert (L : forall i, nodes' !! i = if decide (i = n) then Some (mkNode Tnil k (next nd)) else node t !! i).
  { intros i. unfold nodes'. rewrite lookup_alter_dec. destruct (decide (n = i)) as [<-|].
    - rewrite decide_True, En by done. cbn. unfold set_key. by rewrite Hv.
    - by rewrite decide_False by done. }
  assert (K : k <> Tnil) by (clear -Hk; by intros ->; destruct Hk).
  apply placed_intro with (mkNode Tnil k (next nd)); try done.
  - by apply fill_ok with (node t) k n nd; [apply W|..].
  - apply length_alter.
  - intros i a. rewrite L. destruct (decide (i = n)); [intros [= <-]; by left|]. intros E. right. by exists i, a.
  - intros i a. rewrite L. destruct (decide (i = n)); [intros [= <-]; by left|]. intros E. right. by exists i, a.
  - intros i a Hft. rewrite L. destruct (decide (i = n)); [by intros [= <-]|].
    by apply ft_bounds.
  - by rewrite L, decide_True.
  - by apply fill_has with k n nd.
  - apply nkeyed_alter_le.
Qed.

Variables (f : nat).
Hypothesis (Kn : key nd <> Tnil) (F : find_free (node t) (freetop t) = Some f).

Lemma free_props : (f < freetop t)%nat /\ (exists fd, node t !! f = Some fd /\ key fd = Tnil) /\
  (forall i a, (f < i)%nat -> node t !! i = Some a -> key a <> Tnil).
Proof using W Hm F.
  pose proof (find_free_ok _ _ (w_hash t W) (freetop t)) as P. rewrite F in P. destruct P as (P1 & P2 & P3).
  split; [done|]. split; [done|]. intros i a Hlt E. destruct (decide (i < freetop t)%nat); [by apply (P3 i a)|].
  apply (proj2 ft_bounds i a); [lia|done].
Qed.

(** The main node holds a key of the same chain. *)
Lemma newkey_link : hashkey t (key nd) = hashkey t k ->
  let nodes := alter (set_next (next nd)) f (node t) in
  let nodes := alter (set_next (Some f)) (hashkey t k) nodes in
  placed t k (mkTab (nomm t) (colo t) (array t) (asize t) (alter (set_key k) f nodes) (hmask t) f) f.
Proof using All.
  intros Mn. cbn zeta. destruct free_props as (Hf & (fd & Ef & Kf) & Hab). set (n := hashkey t k) in *.
  assert (fn : n <> f) by (intros X; rewrite X in *; congruence).
  destruct (h_free _ _ (w_hash t W) _ _ Ef Kf) as [Vf _].
  set (nodes' := alter (set_key k) f _).
  assert (L : forall i, nodes' !! i = if decide (i = f) then Some (mkNode Tnil k (next nd))
                                      else if decide (i = n) then Some (set_next (Some f) nd) else node t !! i).
  { intros i. unfold nodes'. rewrite !lookup_alter_dec. destruct (decide (f = i)) as [<-|].
    - rewrite decide_False, decide_True, Ef by done. cbn. unfold set_key, set_next. cbn. by rewrite Vf.
    - rewrite (decide_False (P := i = f)) by done. destruct (decide (n = i)) as [<-|].
      + by rewrite decide_True, En by done.
      + by rewrite decide_False by done. }
  assert (K : k <> Tnil) by (clear -Hk; by intros ->; destruct Hk).
  apply placed_intro with (mkNode Tnil k (next nd)); try done.
  - by apply link_ok with (node t) k n f nd fd; [apply W|..].
  - unfold nodes'. by rewrite !length_alter.
  - intros i a. rewrite L. destruct (decide (i = f)); [intros [= <-]; by left|].
    destruct (decide (i = n)); [intros [= <-]; right; by exists n, nd|]. intros E. right. by exists i, a.
  - intros i a. rewrite L. destruct (decide (i = f)); [intros [= <-]; by left|].
    destruct (decide (i = n)); [intros [= <-]; right; by exists n, nd|]. intros E. right. by exists i, a.
  - lia.
  - intros i a Hft. rewrite L. destruct (decide (i = f)); [by intros [= <-]|].
    destruct (decide (i = n)); [by intros [= <-]|]. apply Hab. lia.
  - by rewrite L, decide_True.
  - apply link_has with (hashkey t) k n f nd fd; try done. apply W.
  - unfold nodes'. etransitivity; [apply nkeyed_alter_le|]. by rewrite !nkeyed_alter_same.
Qed.

(** The main node holds a key of another chain, which moves to the free node. *)
Section Moved.
Variables (p : nat) (pd fd : Node).
Hypothesis (Mn : hashkey t (key nd) <> hashkey t k) (Np : nxt (node t) p (hashkey t k))
  (Ep : node t !! p = Some pd) (Ef : node t !! f = Some fd) (Kf : key fd = Tnil).

Definition moved : list Node :=
  alter (set_val Tnil) (hashkey t k) (alter (set_next None) (hashkey t k)
    (<[f := nd]> (alter (set_next (Some f)) p (node t)))).

Lemma moved_ne : hashkey t k <> f /\ p <> hashkey t k /\ p <> f.
Proof using All.
  pose proof (w_hash t W) as H. split; [intros X; rewrite X in *; congruence|]. split.
  - intros X. destruct (h_rank _ _ H) as [r Hr]. pose proof (Hr _ _ Np). rewrite X in *. lia.
  - intros X. assert (E : pd = fd) by (rewrite X in Ep; congruence).
    pose proof Np as N. unfold nxt in N. rewrite Ep, E in N. cbn in N.
    by rewrite (proj2 (h_free _ _ H _ _ Ef Kf)) in N.
Qed.

Lemma moved_lookup i : moved !! i =
  if decide (i = hashkey t k) then Some (mkNode Tnil (key nd) None)
  else if decide (i = f) then Some nd
  else if decide (i = p) then Some (set_next (Some f) pd) else node t !! i.
Proof using All.
  destruct moved_ne as (fn & pn & pf). unfold moved. rewrite !lookup_alter_dec.
  rewrite lookup_insert_dec by (rewrite length_alter; by eapply lookup_lt_Some).
  rewrite lookup_alter_dec. destruct (decide (hashkey t k = i)) as [<-|].
  - rewrite (decide_False (P := f = hashkey t k)), (decide_False (P := p = hashkey t k)) by done.
    by rewrite En, decide_True by done.
  - rewrite (decide_False (P := i = hashkey t k)) by done.
    destruct (decide (f = i)) as [<-|]; [by rewrite decide_True|].
    rewrite (decide_False (P := i = f)) by done.
    destruct (decide (p = i)) as [<-|]; [by rewrite Ep, decide_True|]. by rewrite decide_False.
Qed.

Lemma moved_key_lookup i : alter (set_key k) (hashkey t k) moved !! i =
  if decide (i = hashkey t k) then Some (mkNode Tnil k None)
  else if decide (i = f) then Some nd
  else if decide (i = p) then Some (set_next (Some f) pd) else node t !! i.
Proof using All.
  rewrite lookup_alter_dec, moved_lookup. destruct (decide (hashkey t k = i)) as [<-|].
  - by rewrite !decide_True.
  - by rewrite !(decide_False (P := i = hashkey t k)).
Qed.

Lemma moved_length : length moved = length (node t).
Proof using All. unfold moved. by rewrite !length_alter, length_insert, length_alter. Qed.

Lemma moved_ok : hash_ok (hashkey t) (alter (set_key k) (hashkey t k) moved).
Proof using All.
  apply (move_ok (hashkey t) (node t) _ k (hashkey t k) f p nd fd pd); try done; [apply W|apply moved_key_lookup].
Qed.

Lemma moved_nxt i j : nxt moved i j -> nxt (alter (set_key k) (hashkey t k) moved) i j.
Proof using All.
  unfold nxt. rewrite moved_key_lookup, moved_lookup. by destruct (decide (i = hashkey t k)).
Qed.

(** The moved chain has no string that belongs to the freed main node. *)
Lemma moved_rechain : rechain t (length moved) moved (hashkey t k) f = Ok moved.
Proof using All.
  pose proof (w_hash t W) as H.
  assert (X : forall i j, nxt moved i j -> exists jd, moved !! j = Some jd /\ canon (key jd) /\ hashkey t (key jd) <> hashkey t k).
  { intros i j N%moved_nxt. destruct (h_pred _ _ moved_ok _ _ N) as (jd & Ej & Kj).
    apply (nxt_move (hashkey t) (node t) _ k (hashkey t k) f p nd fd pd) in N; try done; [|apply moved_key_lookup].
    assert (jn : j <> hashkey t k).
    { destruct N as [[_ ->]|[[_ N]|(Hip & _ & N)]]; intros X.
      - by destruct moved_ne.
      - rewrite X in N. destruct (h_rank _ _ H) as [r Hr]. apply Hr in N. lia.
      - rewrite X in N. apply Hip. by apply (h_inj _ _ H _ _ _ N Np). }
    rewrite moved_key_lookup in Ej. exists jd. rewrite moved_lookup. rewrite decide_False in Ej |- * by done.
    split; [done|]. destruct (decide (j = f)) as [->|]; [injection Ej as <-|].
    - split; [by apply (h_canon _ _ H _ _ En)|done].
    - assert (Y : exists b, node t !! j = Some b /\ key b = key jd).
      { destruct (decide (j = p)) as [->|]; [injection Ej as <-; by exists pd|by exists jd]. }
      destruct Y as (b & Eb & Kb). rewrite <- Kb in *. split; [by apply (h_canon _ _ H _ _ Eb)|].
      intros X. destruct (h_head _ _ H _ _ Eb Kj) as (md & Em & _ & Mm). rewrite X, En in Em. injection Em as <-. congruence. }
  apply rechain_id with (mkNode Tnil (key nd) None).
  - by rewrite moved_lookup, decide_True.
  - intros i j jd N Ej. destruct (X i j N) as (jd' & Ej' & ? & ?). rewrite Ej in Ej'. by injection Ej' as <-.
  - intros i j N. destruct (X i j N) as (jd & Ej & _). by exists jd.
  - intros l Wl. rewrite <- (length_alter (set_key k) moved (hashkey t k)). apply (walk_bound _ _ moved_ok f).
    + rewrite length_alter, moved_length. by eapply lookup_lt_Some.
    + apply walk_ext with moved; [apply moved_nxt|done].
Qed.

Lemma moved_count : (nkeyed (alter (set_key k) (hashkey t k) moved) <= nkeyed (node t) + 1)%nat.
Proof using All.
  etransitivity.
  { apply (nkeyed_alter_keyed _ _ _ (mkNode Tnil (key nd) None)); [by rewrite moved_lookup, decide_True|done]. }
  unfold moved. rewrite !(nkeyed_alter_same _ (hashkey t k)) by done.
  etransitivity; [apply nkeyed_insert_le|]. by rewrite nkeyed_alter_same.
Qed.

Lemma moved_placed :
  placed t k (mkTab (nomm t) (colo t) (array t) (asize t) (alter (set_key k) (hashkey t k) moved) (hmask t) f) (hashkey t k).
Proof using All.
  destruct free_props as (Hf & _ & Hab). assert (K : k <> Tnil) by (clear -Hk; by intros ->; destruct Hk).
  apply placed_intro with (mkNode Tnil k None); try done.
  - apply moved_ok.
  - by rewrite length_alter, moved_length.
  - intros i a E.
    destruct (move_origin (hashkey t) (node t) _ k (hashkey t k) f p nd fd pd (w_hash t W) Hk Ha eq_refl En Kn Mn Ef Kf Ep Np moved_key_lookup _ _ E)
      as [[_ ?]|[[-> ->]|(_ & _ & a0 & E0 & K0 & _)]]; [by left|right; by exists (hashkey t k), nd|right; by exists i, a0].
  - intros i a. rewrite moved_key_lookup. destruct (decide (i = hashkey t k)); [intros [= <-]; by left|right].
    destruct (decide (i = f)); [injection H as <-; by exists (hashkey t k), nd|].
    destruct (decide (i = p)); [injection H as <-; by exists p, pd|by exists i, a].
  - lia.
  - intros i a Hft. rewrite moved_key_lookup. destruct (decide (i = hashkey t k)); [by intros [= <-]|].
    destruct (decide (i = f)); [by intros [= <-]|]. destruct (decide (i = p)) as [->|].
    + intros [= <-]. cbn. apply (Hab p pd); [lia|done].
    + apply Hab. lia.
  - by rewrite moved_key_lookup, decide_True.
  - apply (move_has (hashkey t) (node t) _ k (hashkey t k) f p nd fd pd); try done; [apply W|apply moved_key_lookup].
  - apply moved_count.
Qed.
End Moved.

Lemma newkey_move : hashkey t (key nd) <> hashkey t k ->
  exists nodes, move_node t (hashkey t (key nd)) (hashkey t k) f = Ok nodes /\
  placed t k (mkTab (nomm t) (colo t) (array t) (asize t) (alter (set_key k) (hashkey t k) nodes) (hmask t) f) (hashkey t k).
Proof using All.
  intros Mn. destruct free_props as (Hf & (fd & Ef & Kf) & _). pose proof (w_hash t W) as H.
  assert (Hc : (hashkey t (key nd) < length (node t))%nat) by apply hashkey_range, W.
  destruct (find_pred_ok _ _ H (hashkey t k) (length (node t)) _ Hc Mn (h_reach _ _ H _ _ En Kn)) as (p & Ep & Np).
  { intros l Wl. by eapply walk_bound. }
  destruct (nxt_some _ _ _ Np) as (pd & Epd & _). exists (moved p). split; [|by apply moved_placed with pd fd].
  unfold move_node. rewrite Ep. cbn [mbind res_bind].
  destruct (moved_ne p pd fd) as (_ & pn & _); try done.
  rewrite lookup_alter_dec, decide_False, En by done. by apply moved_rechain with pd fd.
Qed.
End Cases.

(** ** The setters *)

Lemma live_keyed t i nd : wf_tab t -> node t !! i = Some nd -> tvisnil (val nd) = false -> key nd <> Tnil.
Proof.
  intros W E V K. destruct (h_free _ _ (w_hash t W) _ _ E K) as [X _]. by rewrite X in V.
Qed.

Lemma newkey_ok retry t k : wf_tab t -> canon k -> absent (node t) k -> ~ in_arr t k ->
  (newkey_ retry t k = retry t k /\ full t) \/
  (exists t' n, newkey_ retry t k = Ok (t', HashSlot n) /\ placed t k t' n).
Proof.
  intros W Hk Ha Hi. unfold newkey_.
  destruct (lookup_lt_is_Some_2 _ _ (hashkey_range t k (w_size t W))) as [nd En]. rewrite En.
  destruct (w_size t W) as [(Hm & En' & Ef)|(h & Hh & Hm & _ & _ & Hall)].
  { left. rewrite Hm, orb_true_r, Ef. cbn. split; [done|by left]. }
  assert (Hm0 : hmask t <> 0) by (pose proof (Z.pow_le_mono_r 2 1 h ltac:(lia)); lia).
  rewrite (proj2 (Z.eqb_neq _ _) Hm0), orb_false_r. pose proof (w_nvals t W _ _ En) as Wv.
  destruct (tvisnil (val nd)) eqn:V; cbn [negb].
  { right. eexists _, _. rewrite finish_eq by done. split; [done|]. by apply newkey_fill with nd. }
  pose proof (find_free_ok _ _ (w_hash t W) (freetop t)) as P.
  destruct (find_free (node t) (freetop t)) as [f|] eqn:F.
  2: { left. split; [done|]. right. intros i a _ Ea. destruct (decide (i < freetop t)%nat); [by apply (P i a)|].
       apply (Hall i a); [lia|done]. }
  right. pose proof (live_keyed t _ _ W En V) as Kn. cbn zeta.
  destruct (decide (hashkey (set_freetop t f) (key nd) = hashkey t k)) as [E|E].
  - rewrite bool_decide_eq_true_2 by done. cbn [negb]. rewrite finish_eq by done. eexists _, _.
    split; [done|]. exact (newkey_link t k nd W Hk Ha Hi Hm0 En f Kn F E).
  - rewrite bool_decide_eq_false_2 by done. cbn [negb].
    destruct (newkey_move t k nd W Hk Ha Hi Hm0 En f Kn F E) as (nodes & Em & Pl).
    assert (Em' : move_node (set_freetop t f) (hashkey (set_freetop t f) (key nd)) (hashkey t k) f = Ok nodes) by (rewrite move_node_freetop; exact Em).
    rewrite Em'. cbn [mbind res_bind]. rewrite finish_eq by done. by eexists _, _.
Qed.

Lemma placed_refl t c n nd : wf_tab t -> node t !! n = Some nd -> key nd = c -> placed t c t n.
Proof. intros W E K. split; try done; [by destruct t|by exists nd|lia]. Qed.

Lemma tab_set_chain_ok retry t p c : wf_tab t -> canon c -> ~ in_arr t c ->
  (forall nd, key_ok (key nd) -> p nd = bool_decide (key nd = c)) ->
  (tab_set_chain retry t p (hashkey t c) c = retry t c /\ full t /\ absent (node t) c) \/
  (exists t' n, tab_set_chain retry t p (hashkey t c) c = Ok (t', HashSlot n) /\ placed t c t' n).
Proof.
  intros W Hc Hi Hp. unfold tab_set_chain.
  destruct (nchain_search_ok t p c (w_size t W) (w_hash t W) Hc Hp) as (r & E & S). rewrite E. cbn [mbind res_bind].
  destruct r as [n|]; cbn in S.
  - right. destruct S as (nd & En & K). exists t, n. split; [done|]. by apply placed_refl with nd.
  - destruct (newkey_ok retry t c W Hc S Hi) as [[? ?]|?]; [by left|by right].
Qed.

(** The slot a setter returns, in the table it leaves. *)
Definition slot_ok (t : GCtab) (c : TValue) (t' : GCtab) (s : slot) : Prop :=
  match s with
  | ArrSlot i => t' = t /\ exists j, 0 <= j < asize t /\ c = int_key j /\ i = Z.to_nat j
  | HashSlot n => ~ in_arr t c /\ placed t c t' n
  end.

(** The outcome of a setter for the stored key [c]. *)
Definition set_outcome (retry : GCtab -> TValue -> tres (GCtab * slot)) (t : GCtab) (c : TValue)
  (r : tres (GCtab * slot)) : Prop :=
  (r = retry t c /\ full t /\ absent (node t) c /\ ~ in_arr t c) \/ (exists t' s, r = Ok (t', s) /\ slot_ok t c t' s).

Lemma chain_outcome retry t p c : wf_tab t -> canon c -> ~ in_arr t c ->
  (forall nd, key_ok (key nd) -> p nd = bool_decide (key nd = c)) ->
  set_outcome retry t c (tab_set_chain retry t p (hashkey t c) c).
Proof.
  intros W Hc Hi Hp. destruct (tab_set_chain_ok retry t p c W Hc Hi Hp) as [(E & F & A)|(t' & n & E & Pl)].
  - left. by rewrite E.
  - right. exists t', (HashSlot n). by rewrite E.
Qed.

Lemma setinth_ok retry t i : wf_tab t -> is_i32 i -> ~ in_arr t (int_key i) ->
  set_outcome retry t (int_key i) (setinth_ retry t i).
Proof.
  intros W Hi N. pose proof (canon_int i Hi) as Hc. unfold setinth_. cbn zeta. rewrite <- hashkey_num by done.
  apply chain_outcome; [done..|]. intros nd K. by apply is_numkey_spec.
Qed.

Lemma setint_ok retry t i : wf_tab t -> is_i32 i -> set_outcome retry t (int_key i) (setint_ retry t i).
Proof.
  intros W Hi. unfold setint_. pose proof (inarray_spec t i W Hi) as S. pose proof (canon_int i Hi) as Hc.
  destruct (inarray t i).
  - assert (R : 0 <= i < asize t) by by apply S. right. eexists _, _. split; [done|]. cbn. split; [done|].
    exists i. rewrite (asize_u32 t i) by done. done.
  - apply setinth_ok; [done..|]. intros (j & Hj & E). injection E as E. assert (Rj : is_i32 j) by by eapply asize_i32.
    apply int2num_inj in E; [|done..]. subst j. by apply S in Hj.
Qed.

Lemma wf_nomm t x : wf_tab t -> wf_tab (set_nomm t x).
Proof. intros [H1 H2 H3 H4 H5 H6 H7]. by split. Qed.

Lemma generic_ok retry t c : wf_tab t -> canon c -> ~ in_arr t c ->
  set_outcome retry t c (tab_set_chain retry t (is_key c) (hashkey t c) c).
Proof. intros W Hc Hi. apply chain_outcome; [done..|]. intros nd K. by apply is_key_spec. Qed.

Lemma set_ok retry t k c : wf_tab t -> wf_tv k -> norm k = Some c ->
  set_outcome retry (set_nomm t 0) c (set_ retry t k).
Proof.
  intros W%(wf_nomm t 0) Hk N. unfold set_. rewrite tvisstr_spec, tvisnil_spec by done.
  assert (G : forall c, canon c -> ~ in_arr (set_nomm t 0) c ->
    set_outcome retry (set_nomm t 0) c (tab_set_chain retry (set_nomm t 0) (is_key c) (hashkey (set_nomm t 0) c) c))
    by (intros; by apply generic_ok).
  destruct k as [| | |p|s|it p|i|u].
  1: done.
  7: { apply norm_Tnum in N as [R ->]. destruct Hk as [Hu Hh]. unfold norm_num. destruct (deq u (int2num _)) eqn:D.
       - apply setint_ok; [done|apply num2int_i32].
       - rewrite R. cbn [negb]. apply G; [|by apply in_arr_generic].
         apply canon_num; [done|by apply deq_refl_iff|]. intros ->. vm_compute in D. discriminate D. }
  6: { injection N as <-. by apply setint_ok. }
  4: { injection N as <-. unfold setstr_. rewrite <- hashkey_str. apply chain_outcome; [done|by split|by intros (? & _ & ?)|].
       intros nd K. by apply is_strkey_spec. }
  all: injection N as <-; rewrite bool_decide_eq_false_2 by done; apply G; [by split|by intros (? & _ & ?)].
Qed.

(** A key that cannot be stored is an error. *)
Lemma set_err retry t k : wf_tv k -> norm k = None ->
  set_ retry t k = Err (if decide (k = Tnil) then NILIDX else NANIDX).
Proof.
  intros Hk N. unfold set_. rewrite tvisstr_spec by done. destruct k as [| | |p|s|it p|i|u]; try done.
  rewrite decide_False by done. unfold norm in N. destruct (deq u u) eqn:R; [done|].
  destruct (deq u (int2num (lj_num2int u))) eqn:D; [|done]. exfalso.
  apply deq_bits in D as [D _]; [|apply Hk|by apply int2num_props, num2int_i32].
  apply deq_refl_iff in D; [congruence|apply Hk].
Qed.

(** ** Storing through a slot *)

Lemma put_has t n nd v : wf_tab t -> node t !! n = Some nd -> key nd <> Tnil -> forall c w,
  has (alter (set_val v) n (node t)) c w <->
  (c = key nd /\ w = v /\ v <> Tnil) \/ (c <> key nd /\ has (node t) c w).
Proof.
  intros W En Kn c w. split.
  - intros (i & a & E & K & V & N). rewrite lookup_alter_dec in E. destruct (decide (n = i)) as [<-|Hne].
    + rewrite En in E. injection E as <-. left. cbn in *. by subst.
    + right. split; [|by exists i, a]. intros ->. apply Hne. by apply (h_uniq _ _ (w_hash t W) _ _ _ _ En E).
  - intros [(-> & -> & N)|[Hne (i & a & E & K & V & N)]].
    + exists n, (set_val v nd). by rewrite lookup_alter_dec, decide_True, En by done.
    + exists i, a. rewrite lookup_alter_dec, decide_False; [done|]. intros <-. congruence.
Qed.

Lemma hash_ok_put mp nodes n v : hash_ok mp nodes -> (forall nd, nodes !! n = Some nd -> key nd <> Tnil) ->
  hash_ok mp (alter (set_val v) n nodes).
Proof.
  intros H Hn.
  assert (B : forall i a, alter (set_val v) n nodes !! i = Some a ->
    exists a0, nodes !! i = Some a0 /\ key a0 = key a /\ next a0 = next a /\ (i <> n -> a0 = a)).
  { intros i a. rewrite lookup_alter_dec. destruct (decide (n = i)) as [<-|]; [|intros E; by exists a].
    destruct (nodes !! n) as [a0|]; [|done]. intros [= <-]. by exists a0. }
  assert (X : forall i j, nxt (alter (set_val v) n nodes) i j <-> nxt nodes i j).
  { intros i j. unfold nxt. rewrite lookup_alter_dec. destruct (decide (n = i)) as [<-|]; [|done]. by destruct (nodes !! n). }
  assert (G : forall i a, nodes !! i = Some a -> exists a', alter (set_val v) n nodes !! i = Some a' /\ key a' = key a).
  { intros i a E. rewrite lookup_alter_dec. destruct (decide (n = i)) as [<-|]; [|by exists a]. rewrite E. by eexists. }
  assert (R : forall i j, rtc (nxt nodes) i j -> rtc (nxt (alter (set_val v) n nodes)) i j).
  { intros i j Hr. induction Hr as [|a b c N Hr IH]; [done|]. apply rtc_l with b; [by apply X|done]. }
  split.
  - intros i a E K. destruct (B _ _ E) as (a0 & E0 & K0 & _). rewrite <- K0 in *.
    by apply R, (h_reach _ _ H _ _ E0).
  - intros i a E K. destruct (B _ _ E) as (a0 & E0 & K0 & _). rewrite <- K0 in *.
    destruct (h_head _ _ H _ _ E0 K) as (md & Em & Km & Mm). destruct (G _ _ Em) as (md' & Em' & Km').
    exists md'. by rewrite Km'.
  - intros i a E K. destruct (B _ _ E) as (a0 & E0 & K0 & N0 & D0). rewrite <- K0 in K.
    destruct (h_free _ _ H _ _ E0 K) as [Va Na]. rewrite <- N0. split; [|done].
    rewrite <- D0; [done|]. intros ->. by apply (Hn a0).
  - intros i j N%X. destruct (h_pred _ _ H _ _ N) as (a & E & K). destruct (G _ _ E) as (a' & E' & K'). exists a'. by rewrite K'.
  - intros i j l N1%X N2%X. by eapply (h_inj _ _ H).
  - destruct (h_rank _ _ H) as [r Hr]. exists r. intros i j N%X. by apply Hr.
  - intros i j a b Ea Eb. destruct (B _ _ Ea) as (a0 & Ea0 & <- & _), (B _ _ Eb) as (b0 & Eb0 & <- & _). by apply (h_uniq _ _ H).
  - intros i a E. destruct (B _ _ E) as (a0 & E0 & <- & _). by apply (h_canon _ _ H i).
Qed.

End Put.
