(* ===== verification/TabSize.v ===== *)
(** * Tables: storing, resizing

    [put_step]: storing a value under a key that fits changes the reference
    lookup at that key only.  [resize_ok]: [lj_tab_resize] to sizes that hold
    all pairs keeps them all, without a nested rehash. *)

From S2P Require Import Prelude Machine Num Tab TabKey TabHash TabInv TabPut.

#[local] Arguments deq : simpl never.
#[local] Arguments int2num : simpl never.
#[local] Arguments lj_num2int : simpl never.
#[local] Arguments nkeyed : simpl never.

Section Size.
Context `{TE : TabEnv}.

(** ** Storing through a slot *)

Lemma in_arr_asize t t' c : asize t = asize t' -> in_arr t c <-> in_arr t' c.
Proof. intros E. unfold in_arr. by rewrite E. Qed.

Lemma scan_ext t t' c : wf_tab t -> wf_tab t' -> canon c -> (forall v, has (node t) c v <-> has (node t') c v) ->
  scan (node t) c = scan (node t') c.
Proof.
  intros W W' Hc E. eapply scan_eq; [apply W|apply W'|..|done]; by intros ->; destruct Hc.
Qed.

Lemma ref_get_ext t t' c : wf_tab t -> wf_tab t' -> canon c -> asize t = asize t' ->
  (forall i, 0 <= i < asize t -> c = int_key i -> arrayslot t i = arrayslot t' i) ->
  (~ in_arr t c -> forall v, has (node t) c v <-> has (node t') c v) -> ref_get t c = ref_get t' c.
Proof.
  intros W W' Hc Ea Es En. destruct (in_arr_cases t c W Hc) as [(i & Hi & ->)|N].
  - rewrite !ref_get_arr by (try done; by rewrite <- Ea). by apply Es.
  - rewrite !ref_get_hash by (try done; by rewrite <- (in_arr_asize t t')). apply scan_ext; [done..|]. by apply En.
Qed.

(** The frame of an operation that stores pairs. *)
Record same_shape (t t' : GCtab) : Prop := {
  sh_asize : asize t' = asize t;
  sh_hmask : hmask t' = hmask t;
  sh_colo : colo t' = colo t;
  sh_alen : length (array t') = length (array t);
  sh_nlen : length (node t') = length (node t)
}.

#[export] Instance same_shape_refl : Reflexive same_shape.
Proof. intros t. by split. Qed.
#[export] Instance same_shape_trans : Transitive same_shape.
Proof. intros t1 t2 t3 [] []. split; congruence. Qed.

Lemma wf_put_array t i v : wf_tab t -> wf_tv v -> wf_tab (set_array t (<[i := v]> (array t))).
Proof.
  intros W Hv. split; cbn; try apply W.
  - rewrite length_insert. apply W.
  - intros j w. rewrite list_lookup_insert. case_decide; [by intros [= <-]|]. apply W.
Qed.

Lemma wf_put_node t n nd v : wf_tab t -> wf_tv v -> node t !! n = Some nd -> key nd <> Tnil ->
  wf_tab (set_node t (alter (set_val v) n (node t))).
Proof.
  intros W Hv En Kn.
  assert (B : forall i a, alter (set_val v) n (node t) !! i = Some a ->
    exists a0, node t !! i = Some a0 /\ key a0 = key a /\ (val a = val a0 \/ val a = v)).
  { intros i a. rewrite lookup_alter_dec. destruct (decide (n = i)) as [<-|]; [|intros E; exists a; auto].
    rewrite En. intros [= <-]. exists nd. cbn. auto. }
  split; cbn; try apply W.
  - destruct (w_size t W) as [(Hm & E & Hf)|(h & Hh & Hm & Hl & Hf & Ha)].
    + exfalso. rewrite E in En. apply Kn. destruct n as [|n]; [|done]. cbn in En. inversion En. done.
    + right. exists h. cbn. rewrite length_alter. do 4 (split; [done|]). intros i a Hi Ea.
      destruct (B _ _ Ea) as (a0 & E0 & <- & _). by apply (Ha i).
  - apply hash_ok_put; [apply W|]. intros a E. rewrite En in E. by injection E as <-.
  - intros i a j Ea Hj. destruct (B _ _ Ea) as (a0 & E0 & <- & _). by apply (w_noint t W i).
  - intros i a Ea. destruct (B _ _ Ea) as (a0 & E0 & _ & [->| ->]); [by apply (w_nvals t W i)|done].
Qed.

Lemma arrayslot_insert t i j v : 0 <= i -> 0 <= j -> (Z.to_nat i < length (array t))%nat ->
  arrayslot (set_array t (<[Z.to_nat i := v]> (array t))) j = if decide (i = j) then v else arrayslot t j.
Proof.
  intros Hi Hj Hl. unfold arrayslot. cbn. rewrite lookup_insert_dec by done.
  destruct (decide (i = j)) as [->|]; [by rewrite decide_True|]. rewrite decide_False; [done|lia].
Qed.

(** The effect of storing [v] through the slot of key [c]. *)
Record stored (t : GCtab) (c v : TValue) (t' : GCtab) : Prop := {
  st_wf : wf_tab t';
  st_shape : same_shape t t';
  st_get : forall c', canon c' -> ref_get t' c' = if decide (c' = c) then v else ref_get t c';
  st_count : (nkeyed (node t') <= nkeyed (node t) + 1)%nat;
  st_carr : in_arr t c -> node t' = node t
}.

Lemma int_key_inj t i j : wf_tab t -> 0 <= i < asize t -> 0 <= j < asize t -> int_key i = int_key j -> i = j.
Proof. intros W Hi Hj [= E]. by apply int2num_inj in E; [|eapply asize_i32..]. Qed.

Lemma arrayslot_len t i : wf_tab t -> 0 <= i < asize t -> (Z.to_nat i < length (array t))%nat.
Proof. intros W Hi. pose proof (w_array t W). lia. Qed.

Lemma put_array t i v : wf_tab t -> wf_tv v -> 0 <= i < asize t ->
  stored t (int_key i) v (slot_put t (ArrSlot (Z.to_nat i)) v).
Proof.
  intros W Hv Hi. pose proof (wf_put_array t (Z.to_nat i) v W Hv) as W'. cbn [slot_put].
  split; [done| | |cbn [node set_array]; lia|done].
  - split; try done. cbn. by rewrite length_insert.
  - intros c' Hc'. destruct (decide (c' = int_key i)) as [->|Hne].
    + rewrite ref_get_arr by done.
      rewrite arrayslot_insert by (try lia; by apply arrayslot_len). by rewrite decide_True.
    + symmetry. apply ref_get_ext; try done. intros j Hj ->.
      rewrite arrayslot_insert by (try lia; by apply arrayslot_len). rewrite decide_False; [done|]. congruence.
Qed.

Lemma put_hash t c t1 n v : wf_tab t -> canon c -> wf_tv v -> ~ in_arr t c -> placed t c t1 n ->
  stored t c v (slot_put t1 (HashSlot n) v).
Proof.
  intros W Hc Hv Hi [W1 Fr Len (nd & En & Kn) Hh Cnt]. cbn [slot_put].
  assert (Nn : key nd <> Tnil) by (rewrite Kn; by intros ->; destruct Hc).
  pose proof (wf_put_node t1 n nd v W1 Hv En Nn) as W'.
  assert (Ea : asize t1 = asize t) by by rewrite Fr.
  split; [done| | | |done].
  - rewrite Fr. split; try done. cbn. by rewrite length_alter.
  - intros c' Hc'. destruct (decide (c' = c)) as [->|Hne].
    + rewrite ref_get_hash by (try done; by rewrite (in_arr_asize _ t)). cbn.
      destruct (decide (v = Tnil)) as [->|Nv].
      * apply (scan_nil _ _ _ (w_hash _ W')); [by intros ->; destruct Hc|]. intros w Hw. cbn in Hw.
        apply (put_has t1 n nd) in Hw as [(_ & _ & X)|[X _]]; done.
      * apply (scan_has _ _ (w_hash _ W')); [done|by intros ->; destruct Hc|]. cbn.
        apply (put_has t1 n nd); [done..|]. by left.
    + symmetry. apply ref_get_ext; try done.
      * intros j _ _. unfold arrayslot. cbn. by rewrite Fr.
      * intros _ w. cbn. rewrite (put_has t1 n nd) by done. rewrite Kn. rewrite Hh. split; [by right|].
        intros [[? _]|[_ ?]]; done.
  - cbn. rewrite nkeyed_alter_same by done. done.
Qed.

Lemma ref_get_nomm t x c : ref_get (set_nomm t x) c = ref_get t c.
Proof. done. Qed.

Lemma stored_slot t c t1 s v : wf_tab t -> canon c -> wf_tv v -> slot_ok t c t1 s -> stored t c v (slot_put t1 s v).
Proof.
  intros W Hc Hv S. destruct s as [i|n]; cbn in S.
  - destruct S as (-> & j & Hj & -> & ->). by apply put_array.
  - destruct S as [Hi P]. by apply put_hash.
Qed.

(** ** Room *)

(** The number of nodes that can take keys. *)
Definition cap (t : GCtab) : nat := if decide (hmask t = 0) then 0 else length (node t).

Lemma full_cap t : wf_tab t -> full t -> (cap t <= nkeyed (node t))%nat.
Proof.
  intros W F. unfold cap. case_decide as E; [lia|]. destruct F as [|A]; [done|]. by rewrite nkeyed_full.
Qed.

Lemma cap_shape t t' : same_shape t t' -> cap t' = cap t.
Proof. intros []. unfold cap. by rewrite sh_hmask0, sh_nlen0. Qed.

(** Storing a pair for which there is room. *)
Lemma outcome_step retry t c r v : wf_tab t -> canon c -> wf_tv v ->
  (in_arr t c \/ (nkeyed (node t) < cap t)%nat) -> set_outcome retry t c r ->
  exists t1 s, r = Ok (t1, s) /\ slot_ok t c t1 s /\ stored t c v (slot_put t1 s v).
Proof.
  intros W Hc Hv R [(-> & F & _ & Ni)|(t1 & s & -> & S)].
  - exfalso. destruct R as [R|R]; [done|]. apply full_cap in F; [lia|done].
  - exists t1, s. split; [done|]. split; [done|]. by apply stored_slot.
Qed.

(** ** Reinsertion *)

(** The pairs of [ns] that need a node of a table with [n] array slots. *)
Definition in_arrn (n : Z) (c : TValue) : bool :=
  match c with
  | Tnum u => let i := lj_num2int u in deq u (int2num i) && (0 <=? i) && (i <? n)
  | _ => false
  end.

Lemma in_arrn_spec t c : wf_tab t -> canon c -> in_arrn (asize t) c = true <-> in_arr t c.
Proof.
  intros W Hc. split.
  - destruct c as [| | | | | | |u]; try done. unfold in_arrn. cbn zeta. rewrite !andb_true_iff. intros [[D R1] R2].
    destruct Hc as [[Hu _] [_ Hz]]. apply deq_int_canon in D; [|done..]. exists (lj_num2int u).
    split; [lia|]. unfold int_key. by rewrite <- D.
  - intros (i & Hi & ->). unfold in_arrn, int_key. cbn zeta. pose proof (asize_i32 t i W Hi).
    rewrite num2int_int2num, deq_int_refl by done. lia.
Qed.

Fixpoint hneed (n : Z) (ns : list Node) : nat :=
  match ns with
  | [] => 0
  | nd :: ns => (if decide (val nd = Tnil) then 0 else if in_arrn n (key nd) then 0 else 1) + hneed n ns
  end.

Fixpoint aneed (vs : list TValue) : nat :=
  match vs with [] => 0 | v :: vs => (if decide (v = Tnil) then 0 else 1) + aneed vs end.

(** The reinsertions keep the invariant and stay in the hash part. *)
Record reinserted (t t' : GCtab) (n : nat) : Prop := {
  re_wf : wf_tab t';
  re_shape : same_shape t t';
  re_count : (nkeyed (node t') <= nkeyed (node t) + n)%nat
}.

Lemma reinsert_hash_ok retry ns : forall t, wf_tab t ->
  (forall i nd, ns !! i = Some nd -> wf_tv (val nd) /\ (val nd <> Tnil -> canon (key nd))) ->
  (forall i j a b, ns !! i = Some a -> ns !! j = Some b -> val a <> Tnil -> val b <> Tnil -> key a = key b -> i = j) ->
  (nkeyed (node t) + hneed (asize t) ns <= cap t)%nat ->
  exists t', reinsert_hash retry t ns = Ok t' /\ reinserted t t' (hneed (asize t) ns) /\
    (forall c v, canon c -> has ns c v -> ref_get t' c = v) /\
    (forall c, canon c -> (forall v, ~ has ns c v) -> ref_get t' c = ref_get t c).
Proof.
  induction ns as [|nd ns IH]; intros t W Hv Hu Hc.
  { exists t. split; [done|]. split; [by split; [done|done|cbn; lia]|]. split; [|done]. by intros c v _ (i & a & E & _). }
  assert (Hv' : forall i a, ns !! i = Some a -> wf_tv (val a) /\ (val a <> Tnil -> canon (key a))) by (intros i; apply (Hv (S i))).
  assert (Hu' : forall i j a b, ns !! i = Some a -> ns !! j = Some b -> val a <> Tnil -> val b <> Tnil -> key a = key b -> i = j).
  { intros i j a b Ea Eb Na Nb E. by injection (Hu (S i) (S j) a b Ea Eb Na Nb E). }
  cbn [reinsert_hash]. destruct (Hv 0%nat nd eq_refl) as [Wv Ck]. rewrite tvisnil_spec by done. cbn [hneed] in Hc |- *.
  destruct (decide (val nd = Tnil)) as [V|V].
  - rewrite bool_decide_eq_true_2 by done. cbn [negb]. cbn [plus] in Hc |- *.
    destruct (IH t W Hv' Hu' Hc) as (t' & E & R & G1 & G2). exists t'. split; [done|]. split; [done|]. split.
    + intros c v Cc (i & a & Ea & Ka & Va & Na). destruct i as [|i]; [injection Ea as ->; congruence|]. apply G1; [done|by exists i, a].
    + intros c Cc N. apply G2; [done|]. intros v (i & a & Ea & X). apply (N v). by exists (S i), a.
  - rewrite bool_decide_eq_false_2 by done. cbn [negb]. specialize (Ck V). set (c := key nd) in *.
    assert (Room : in_arr t c \/ (nkeyed (node t) < cap t)%nat).
    { destruct (in_arrn (asize t) c) eqn:I; [left; by apply in_arrn_spec|right]. lia. }
    destruct (outcome_step retry (set_nomm t 0) c (set_ retry t c) (val nd) (wf_nomm t 0 W) Ck Wv Room) as (t1 & s & E & _ & St).
    { apply set_ok; [done|apply Ck|by apply norm_canon]. }
    rewrite E. cbn [mbind res_bind]. set (t2 := slot_put t1 s (val nd)) in *. destruct St as [W2 S2 G2 C2 A2].
    assert (S2' : same_shape t t2) by (destruct S2; by split).
    assert (C2' : (nkeyed (node t2) <= nkeyed (node t) + (if in_arrn (asize t) c then 0 else 1))%nat).
    { destruct (in_arrn (asize t) c) eqn:I; [|done]. rewrite A2 by (by apply (in_arrn_spec t)). cbn. lia. }
    destruct (IH t2 W2 Hv' Hu') as (t' & E' & [W' Sh' Cn'] & P1 & P2).
    { rewrite (cap_shape t t2), (sh_asize _ _ S2') by done. lia. }
    exists t'. split; [done|]. rewrite (sh_asize _ _ S2') in Cn'. split; [split; [done|by transitivity t2|lia]|].
    assert (N0 : forall w, ~ has ns c w).
    { intros w (i & a & Ea & Ka & Va & Na). assert (Va' : val a <> Tnil) by congruence.
      by pose proof (Hu 0%nat (S i) nd a eq_refl Ea V Va' (eq_sym Ka)). }
    split.
    + intros c' v Cc (i & a & Ea & Ka & Va & Na). destruct i as [|i].
      * injection Ea as <-. subst c' v. fold c. rewrite P2 by done. rewrite G2 by done. by rewrite decide_True.
      * apply P1; [done|by exists i, a].
    + intros c' Cc N. rewrite P2; [|done|intros v (i & a & Ea & X); apply (N v); by exists (S i), a].
      rewrite G2 by done. rewrite decide_False; [done|]. intros ->. apply (N (val nd)). by exists 0%nat, nd.
Qed.

Lemma reinsert_array_ok retry vs : forall t i, wf_tab t -> asize t <= i -> i + Z.of_nat (length vs) <= LJ_MAX_ASIZE ->
  (forall j v, vs !! j = Some v -> wf_tv v) -> (nkeyed (node t) + aneed vs <= cap t)%nat ->
  exists t', reinsert_array retry t i vs = Ok t' /\ reinserted t t' (aneed vs) /\ array t' = array t /\
    (forall j v, vs !! j = Some v -> v <> Tnil -> ref_get t' (int_key (i + Z.of_nat j)) = v) /\
    (forall c, canon c -> (forall j v, vs !! j = Some v -> v <> Tnil -> c <> int_key (i + Z.of_nat j)) ->
       ref_get t' c = ref_get t c).
Proof.
  induction vs as [|v vs IH]; intros t i W Ha Hl Hv Hc.
  { exists t. split; [done|]. split; [by split; [done|done|cbn; lia]|]. split; [done|]. by split. }
  pose proof (w_asize t W) as Wa. change LJ_MAX_ASIZE with 134217729 in *. cbn [length] in Hl. rewrite Nat2Z.inj_succ in Hl.
  assert (Ri : forall j v, vs !! j = Some v -> is_i32 (i + 1 + Z.of_nat j)).
  { intros j w E%lookup_lt_Some. widths. lia. }
  assert (Hi : is_i32 i) by (widths; lia).
  assert (Hv' : forall j w, vs !! j = Some w -> wf_tv w) by (intros j; apply (Hv (S j))).
  assert (Sh : forall j, i + Z.of_nat (S j) = i + 1 + Z.of_nat j) by lia.
  cbn [reinsert_array]. pose proof (Hv 0%nat v eq_refl) as Wv. rewrite tvisnil_spec by done. cbn [aneed] in Hc |- *.
  destruct (decide (v = Tnil)) as [->|V].
  - rewrite bool_decide_eq_true_2 by done. cbn [negb]. cbn [plus] in Hc |- *.
    destruct (IH t (i + 1) W ltac:(lia) ltac:(lia) Hv' Hc) as (t' & E & R & Ra & G1 & G2).
    exists t'. do 3 (split; [done|]). split.
    + intros [|j] w Ej Nw; [by injection Ej as <-|]. rewrite Sh. by apply G1.
    + intros c Cc N. apply G2; [done|]. intros j w Ej Nw. rewrite <- Sh. by apply (N (S j) w).
  - rewrite bool_decide_eq_false_2 by done. cbn [negb]. rewrite (i32_id i) by done.
    assert (Nin : ~ in_arr t (int_key i)).
    { intros (j & Hj & E). injection E as E. apply int2num_inj in E; [lia|done|by eapply asize_i32]. }
    destruct (outcome_step retry t (int_key i) (setinth_ retry t i) v W (canon_int i Hi) Wv) as (t1 & s & E & Sl & St);
      [right; lia|by apply setinth_ok|].
    rewrite E. cbn [mbind res_bind].
    assert (E1 : asize t1 = asize t) by (destruct s as [n|n]; [by destruct Sl as [-> _]|destruct Sl as [_ P]; by rewrite (pl_frame _ _ _ _ P)]).
    rewrite E1, Z.eqb_refl, orb_true_r. set (t2 := slot_put t1 s v) in *.
    assert (EA : array t2 = array t).
    { destruct s as [n|n]; [by destruct Sl as (_ & j & Hj & X & _), Nin; exists j|destruct Sl as [_ P]; unfold t2; cbn; by rewrite (pl_frame _ _ _ _ P)]. }
    destruct St as [W2 S2 G2 C2 A2].
    destruct (IH t2 (i + 1) W2) as (t' & E' & [W' Sh' Cn'] & Ra & P1 & P2); [rewrite (sh_asize _ _ S2); lia|lia|done| |].
    { rewrite (cap_shape t t2) by done. lia. }
    exists t'. split; [done|]. split; [split; [done|by transitivity t2|lia]|].
    split; [congruence|]. split.
    + intros [|j] w Ej Nw; [|rewrite Sh; by apply P1]. injection Ej as <-. rewrite Z.add_0_r.
      rewrite P2, G2, decide_True; [done..|by apply canon_int|by apply canon_int|].
      intros j w Ej _ X. injection X as X. apply int2num_inj in X; [lia|done|by eapply Ri].
    + intros c Cc N. rewrite P2; [|done|intros j w Ej Nw; rewrite <- Sh; by apply (N (S j) w)].
      rewrite G2 by done. rewrite decide_False; [done|]. rewrite <- (Z.add_0_r i). by apply (N 0%nat v).
Qed.
End Size.
