(* ===== verification/TabResize.v ===== *)
(** * Tables: creation and resizing *)

From S2P Require Import Prelude Machine Num Tab TabKey TabHash TabInv TabPut TabSize.

#[local] Arguments deq : simpl never.
#[local] Arguments int2num : simpl never.
#[local] Arguments lj_num2int : simpl never.
#[local] Arguments nkeyed : simpl never.

Section Resize.
Context `{TE : TabEnv}.

(** ** Empty hash parts *)

(** The number of nodes for [hbits]. *)
Definition hsize (hbits : Z) : nat := if decide (hbits = 0) then 0 else Z.to_nat (2 ^ hbits).

Definition empty_hash (t : GCtab) (hbits : Z) : Prop :=
  node t = replicate (Nat.max 1 (hsize hbits)) nil_node /\
  hmask t = (if decide (hbits = 0) then 0 else 2 ^ hbits - 1) /\ freetop t = hsize hbits.

Lemma hash_ok_empty mp n : hash_ok mp (replicate n nil_node).
Proof.
  assert (L : forall i nd, replicate n nil_node !! i = Some nd -> nd = nil_node) by (intros i nd E; by apply lookup_replicate in E as [-> _]).
  assert (X : forall i j, ~ nxt (replicate n nil_node) i j) by (intros i j (nd & E%L & N)%nxt_some; by subst).
  split.
  - intros i nd ->%L. done.
  - intros i nd ->%L. done.
  - intros i nd ->%L. done.
  - by intros i j N%X.
  - by intros i j k N%X.
  - exists (fun _ => 0%nat). by intros i j N%X.
  - intros i j nd md ->%L. done.
  - intros i nd ->%L. done.
Qed.

Lemma nkeyed_empty n : nkeyed (replicate n nil_node) = 0%nat.
Proof. induction n as [|n IH]; [done|]. cbn [replicate]. by rewrite nkeyed_cons. Qed.

Lemma scan_empty n c : scan (replicate n nil_node) c = Tnil.
Proof. induction n as [|n IH]; [done|]. cbn. by case_decide. Qed.

Lemma pow2_size h : 1 <= h -> 2 <= 2 ^ h /\ (Nat.max 1 (Z.to_nat (2 ^ h)) = Z.to_nat (2 ^ h))%nat.
Proof. intros Hh. pose proof (Z.pow_le_mono_r 2 1 h ltac:(lia) Hh). lia. Qed.

Definition array_ok (t : GCtab) : Prop :=
  0 <= asize t <= LJ_MAX_ASIZE /\ (Z.to_nat (asize t) <= length (array t))%nat /\
  (forall i v, array t !! i = Some v -> wf_tv v).

Lemma empty_wf t hbits : 0 <= hbits <= LJ_MAX_HBITS -> empty_hash t hbits -> array_ok t ->
  wf_tab t /\ cap t = hsize hbits /\ nkeyed (node t) = 0%nat /\ forall c, scan (node t) c = Tnil.
Proof.
  intros Hh (En & Em & Ef) (A1 & A2 & A3).
  assert (L : forall i nd, node t !! i = Some nd -> nd = nil_node) by (rewrite En; intros i nd E; by apply lookup_replicate in E as [-> _]).
  split; [|split; [|by rewrite En, nkeyed_empty; split; [|apply scan_empty]]].
  - split; try done.
    + unfold hsize in *. destruct (decide (hbits = 0)); [left; by rewrite En|right].
      destruct (pow2_size hbits ltac:(lia)) as [P1 P2]. exists hbits. rewrite En, length_replicate, P2, Ef.
      split; [lia|]. split; [done|]. split; [done|]. split; [lia|]. intros i nd Hi E. apply lookup_replicate in E. lia.
    + rewrite En. apply hash_ok_empty.
    + intros i nd k ->%L _ X. done.
    + by intros i nd ->%L.
  - unfold cap, hsize in *. rewrite Em. destruct (decide (hbits = 0)); [by rewrite decide_True|].
    destruct (pow2_size hbits ltac:(lia)) as [P1 P2]. rewrite decide_False by lia. by rewrite En, length_replicate, P2.
Qed.

(** The new hash part of [lj_tab_resize]. *)
Definition newpart (t : GCtab) (hbits : Z) : tres GCtab :=
  if negb (hbits =? 0) then clearhpart <$> newhpart t hbits else Ok (nil_hpart t).

Lemma clear_nodes (l : list Node) : (fun _ => nil_node) <$> l = replicate (length l) nil_node.
Proof. induction l as [|x l IH]; [done|]. cbn. by rewrite IH. Qed.

Lemma newhpart_ok t hbits : 1 <= hbits <= LJ_MAX_HBITS -> exists t', newhpart t hbits = Ok t' /\
  hmask t' = 2 ^ hbits - 1 /\ empty_hash (clearhpart t') hbits /\ asize t' = asize t /\ array t' = array t /\ colo t' = colo t.
Proof.
  intros Hh. unfold newhpart. rewrite (proj2 (Z.ltb_ge _ _)) by lia. rewrite Z.shiftl_1_l. eexists. split; [done|]. cbn.
  split; [done|]. split; [|done]. unfold empty_hash. cbn. unfold hsize.
  destruct (pow2_size hbits ltac:(lia)) as [P1 P2]. rewrite !decide_False by lia. rewrite P2.
  split; [|done]. by rewrite clear_nodes, length_fmap, length_seq.
Qed.

Lemma newpart_ok t hbits : 0 <= hbits <= LJ_MAX_HBITS -> exists t', newpart t hbits = Ok t' /\
  empty_hash t' hbits /\ asize t' = asize t /\ array t' = array t /\ colo t' = colo t.
Proof.
  intros Hh. unfold newpart. destruct (Z.eqb_spec hbits 0) as [->|Hne]; cbn [negb]; [by eexists|].
  destruct (newhpart_ok t hbits ltac:(lia)) as (t' & -> & _ & E & ? & ? & ?). by exists (clearhpart t').
Qed.

(** ** Growing the array *)

Lemma grow_ok t n : wf_tab t -> asize t < n <= LJ_MAX_ASIZE -> exists t', grow_array t n = Ok t' /\
  asize t' = n /\ array_ok t' /\
  forall i, 0 <= i < n -> arrayslot t' i = if decide (i < asize t) then arrayslot t i else Tnil.
Proof.
  intros W Hn. unfold grow_array. rewrite (proj2 (Z.ltb_ge _ _)) by lia. eexists. split; [done|].
  pose proof (w_asize t W). pose proof (w_array t W). cbn. split; [done|].
  assert (Lt : length (take (Z.to_nat (asize t)) (array t)) = Z.to_nat (asize t)) by (rewrite length_take; lia). split.
  - split; [cbn; lia|]. cbn. rewrite length_app, Lt, length_replicate. split; [lia|].
    intros i v E. apply lookup_app_Some in E as [E|[_ E]].
    + apply lookup_take_Some in E as [E _]. by eapply (w_avals t W).
    + by apply lookup_replicate in E as [-> _].
  - intros i Hi. unfold arrayslot. cbn. case_decide.
    + rewrite lookup_app_l by lia. rewrite lookup_take_lt by lia. done.
    + rewrite lookup_app_r by lia. by destruct (replicate _ _ !! _) eqn:E; [apply lookup_replicate in E as [-> _]|].
Qed.

(** ** Resizing *)

(** The array values that leave the array. *)
Definition leaving (t : GCtab) (asize' : Z) : list TValue :=
  take (Z.to_nat (asize t - asize')) (drop (Z.to_nat asize') (array t)).

Lemma leaving_lookup t n j v : wf_tab t -> 0 <= n -> leaving t n !! j = Some v ->
  n + Z.of_nat j < asize t /\ v = arrayslot t (n + Z.of_nat j) /\ wf_tv v.
Proof.
  intros W Hn E. unfold leaving in E. apply lookup_take_Some in E as [E Hj]. rewrite lookup_drop in E.
  split; [lia|]. split; [|by eapply (w_avals t W)]. unfold arrayslot.
  replace (Z.to_nat (n + Z.of_nat j)) with (Z.to_nat n + j)%nat by lia. by rewrite E.
Qed.

Lemma leaving_slot t n i : wf_tab t -> 0 <= n -> n <= i < asize t -> leaving t n !! Z.to_nat (i - n) = Some (arrayslot t i).
Proof.
  intros W Hn Hi. unfold leaving. rewrite lookup_take_lt by lia. rewrite lookup_drop.
  replace (Z.to_nat n + Z.to_nat (i - n))%nat with (Z.to_nat i) by lia. unfold arrayslot.
  destruct (lookup_lt_is_Some_2 (array t) (Z.to_nat i)) as [v E]; [pose proof (w_array t W); lia|]. by rewrite E.
Qed.

(** The pairs of the table: those of the array and those of the nodes. *)
Lemma ref_get_live t c v : wf_tab t -> canon c -> v <> Tnil ->
  ref_get t c = v <-> (exists i, 0 <= i < asize t /\ c = int_key i /\ arrayslot t i = v) \/ has (node t) c v.
Proof.
  intros W Hc Nv. assert (Nc : c <> Tnil) by by (intros ->; destruct Hc).
  destruct (in_arr_cases t c W Hc) as [(i & Hi & ->)|N].
  - rewrite ref_get_arr by done. split; [intros E; left; by exists i|]. intros [(j & Hj & E & S)|(j & nd & E & K & _)].
    + by apply int_key_inj with (t := t) in E as ->.
    + by destruct (w_noint t W j nd i E Hi).
  - rewrite ref_get_hash by done. rewrite (scan_has _ _ (w_hash t W)) by done.
    split; [by right|]. intros [(i & Hi & E & _)|?]; [|done]. destruct N. by exists i.
Qed.

(** A table is determined by its live pairs. *)
Lemma ref_get_same t t' c : (forall v, v <> Tnil -> ref_get t c = v -> ref_get t' c = v) ->
  (forall v, v <> Tnil -> ref_get t' c = v -> ref_get t c = v) -> ref_get t' c = ref_get t c.
Proof.
  intros H1 H2. destruct (decide (ref_get t c = Tnil)) as [E|N]; [|by apply H1].
  destruct (decide (ref_get t' c = Tnil)) as [E'|N']; [congruence|]. symmetry. by apply H2.
Qed.

(** The table after the array has its new size: the hash part holds only
    values that left the array. *)
Record resized_array (t : GCtab) (n hbits : Z) (t3 : GCtab) : Prop := {
  ra_wf : wf_tab t3;
  ra_asize : asize t3 = n;
  ra_cap : cap t3 = hsize hbits;
  ra_count : (nkeyed (node t3) <= aneed (leaving t n))%nat;
  ra_get : forall c v, canon c -> v <> Tnil ->
    ref_get t3 c = v <-> exists i, 0 <= i < asize t /\ c = int_key i /\ arrayslot t i = v
}.

Lemma empty_get t hbits c : 0 <= hbits <= LJ_MAX_HBITS -> empty_hash t hbits -> array_ok t -> canon c -> forall v, v <> Tnil ->
  ref_get t c = v <-> exists i, 0 <= i < asize t /\ c = int_key i /\ arrayslot t i = v.
Proof.
  intros Hh E A Hc v Nv. destruct (empty_wf t hbits Hh E A) as (W & _ & _ & S). rewrite ref_get_live by done.
  split; [|by left]. intros [?|(i & nd & Ei & _ & V & _)]; [done|]. rewrite (proj1 E) in Ei.
  apply lookup_replicate in Ei as [-> _]. done.
Qed.

Lemma phase_grow t n hbits : wf_tab t -> asize t < n <= LJ_MAX_ASIZE -> 0 <= hbits <= LJ_MAX_HBITS ->
  exists t1 t2, grow_array t n = Ok t1 /\ newpart t1 hbits = Ok t2 /\ resized_array t n hbits t2.
Proof.
  intros W Hn Hh. pose proof (w_asize t W) as Wa. destruct (grow_ok t n W Hn) as (t1 & E1 & A1 & (B1 & B2 & B3) & S1).
  destruct (newpart_ok t1 hbits Hh) as (t2 & E2 & F2 & A2 & R2 & _). exists t1, t2. split; [done|]. split; [done|].
  assert (A : array_ok t2) by (split; [lia|]; rewrite A2, R2; by split).
  destruct (empty_wf t2 hbits Hh F2 A) as (W2 & C2 & K2 & _). split; [done|congruence|done|lia|].
  assert (Sl : forall i, 0 <= i < n -> arrayslot t2 i = if decide (i < asize t) then arrayslot t i else Tnil).
  { intros i Hi. rewrite <- S1 by done. unfold arrayslot. by rewrite R2. }
  intros c v Hc Nv. rewrite (empty_get t2 hbits) by done. rewrite A2, A1. split; intros (i & Hi & Ec & Ev); exists i.
  - rewrite Sl in Ev by done. destruct (decide (i < asize t)); [|congruence]. split; [lia|done].
  - split; [lia|]. split; [done|]. rewrite Sl by lia. by rewrite decide_True by lia.
Qed.

Lemma phase_same t hbits : wf_tab t -> 0 <= hbits <= LJ_MAX_HBITS ->
  exists t2, newpart t hbits = Ok t2 /\ array t2 = array t /\ asize t2 = asize t /\ colo t2 = colo t /\
    empty_hash t2 hbits /\ resized_array t (asize t) hbits t2.
Proof.
  intros W Hh. destruct (newpart_ok t hbits Hh) as (t2 & E2 & F2 & A2 & R2 & C2). exists t2. do 5 (split; [done|]).
  assert (A : array_ok t2) by (split; [rewrite A2; apply W|]; rewrite A2, R2; split; apply W).
  destruct (empty_wf t2 hbits Hh F2 A) as (W2 & Cp & K2 & _). split; [done..|rewrite K2; lia|].
  intros c v Hc Nv. rewrite (empty_get t2 hbits) by done. rewrite A2. unfold arrayslot. by rewrite R2.
Qed.

(** Physically shrinking the array drops no slot in use. *)
Lemma wf_take_array t : wf_tab t -> wf_tab (set_array t (take (Z.to_nat (asize t)) (array t))).
Proof.
  intros W. pose proof (w_array t W). split; cbn; try apply W; [rewrite length_take; lia|].
  intros i v [E _]%lookup_take_Some. by apply (w_avals t W i).
Qed.

Lemma ref_get_take_array t c : wf_tab t -> canon c ->
  ref_get (set_array t (take (Z.to_nat (asize t)) (array t))) c = ref_get t c.
Proof.
  intros W Hc. symmetry. apply ref_get_ext; try done; [by apply wf_take_array|].
  intros i Hi _. unfold arrayslot. cbn. rewrite lookup_take_lt by lia. done.
Qed.

Lemma get_iff t t3 : wf_tab t -> (forall i, 0 <= i < asize t -> ref_get t3 (int_key i) = arrayslot t i) ->
  (forall c, canon c -> ~ in_arr t c -> ref_get t3 c = Tnil) ->
  forall c v, canon c -> v <> Tnil -> ref_get t3 c = v <-> exists i, 0 <= i < asize t /\ c = int_key i /\ arrayslot t i = v.
Proof.
  intros W H1 H2 c v Hc Nv. split.
  - intros E. destruct (in_arr_cases t c W Hc) as [(i & Hi & ->)|N]; [|by rewrite H2 in E].
    exists i. by rewrite <- E, H1.
  - intros (i & Hi & -> & E). by rewrite H1.
Qed.

Section Shrink.
Variables (t s2 t3 : GCtab) (n hbits : Z).
Hypothesis (W : wf_tab t) (Hn : 0 <= n < asize t) (Hh : 0 <= hbits <= LJ_MAX_HBITS)
  (F : empty_hash s2 hbits) (A : array_ok s2) (As : asize s2 = n) (Rs : array s2 = array t)
  (G1 : forall j v, leaving t n !! j = Some v -> v <> Tnil -> ref_get t3 (int_key (n + Z.of_nat j)) = v)
  (G2 : forall c, canon c -> (forall j v, leaving t n !! j = Some v -> v <> Tnil -> c <> int_key (n + Z.of_nat j)) ->
       ref_get t3 c = ref_get s2 c).

Lemma shrink_slot i : 0 <= i < asize t -> ref_get t3 (int_key i) = arrayslot t i.
Proof using All.
  intros Hi. destruct (empty_wf s2 hbits Hh F A) as (Ws & _ & _ & Sc).
  assert (Ri : is_i32 i) by exact (asize_i32 t i W Hi). pose proof (canon_int i Ri) as Ci.
  assert (Inj : forall j v, leaving t n !! j = Some v -> int_key i = int_key (n + Z.of_nat j) -> i = n + Z.of_nat j).
  { intros j v E X. apply leaving_lookup in E as (Hj & _ & _); [|done|lia].
    apply (int_key_inj t) in X; [done|done|lia|lia]. }
  destruct (Z.lt_ge_cases i n) as [Hlt|Hge].
  - rewrite G2; [|done|intros j v E _ X%(Inj _ _ E); lia]. rewrite ref_get_arr by (try done; lia).
    unfold arrayslot. by rewrite Rs.
  - pose proof (leaving_slot t n i W ltac:(lia) ltac:(lia)) as L.
    destruct (decide (arrayslot t i = Tnil)) as [E|N].
    + rewrite G2; [|done|].
      * rewrite ref_get_hash; [by rewrite Sc, E|done|done|]. intros (j & Hj & X). apply (int_key_inj t) in X; [lia|done|lia|lia].
      * intros j v Ej Nv X%(Inj _ _ Ej). apply leaving_lookup in Ej as (_ & Ev & _); [|done|lia]. by rewrite <- X in Ev; congruence.
    + replace i with (n + Z.of_nat (Z.to_nat (i - n))) at 1 by lia. by apply G1.
Qed.

Lemma shrink_none c : canon c -> ~ in_arr t c -> ref_get t3 c = Tnil.
Proof using All.
  intros Hc N. destruct (empty_wf s2 hbits Hh F A) as (Ws & _ & _ & Sc). rewrite G2; [|done|].
  - rewrite ref_get_hash; [by rewrite Sc|done..|]. intros (j & Hj & X). apply N. exists j. split; [lia|done].
  - intros j v Ej _ X. apply N. apply leaving_lookup in Ej as (Hj & _ & _); [|done|lia]. eexists; split; [|exact X]. lia.
Qed.
End Shrink.

Lemma phase_shrink retry t n hbits : wf_tab t -> 0 <= n < asize t -> 0 <= hbits <= LJ_MAX_HBITS ->
  (aneed (leaving t n) <= hsize hbits)%nat ->
  exists t2 t3, newpart t hbits = Ok t2 /\ array t2 = array t /\ reinsert_array retry (set_asize t2 n) n (leaving t n) = Ok t3 /\
    resized_array t n hbits (if colo t3 <=? 0 then set_array t3 (take (Z.to_nat n) (array t)) else t3).
Proof.
  intros W Hn Hh Hc. destruct (phase_same t hbits W Hh) as (t2 & E2 & R2 & A2 & C2 & F2 & _). pose proof (w_asize t W) as Wa.
  set (s2 := set_asize t2 n).
  assert (A : array_ok s2).
  { split; [cbn; lia|]. cbn. rewrite R2. split; [pose proof (w_array t W); lia|apply W]. }
  assert (F : empty_hash s2 hbits) by done.
  destruct (empty_wf s2 hbits Hh F A) as (Ws & Cp & K2 & _).
  destruct (reinsert_array_ok retry (leaving t n) s2 n Ws) as (t3 & E3 & [W3 Sh3 Cn3] & Ar & G1 & G2).
  { cbn. lia. }
  { unfold leaving. rewrite length_take, length_drop. lia. }
  { intros j v E. by eapply leaving_lookup in E as (_ & _ & ?); [|done|lia]. }
  { rewrite K2, Cp. lia. }
  exists t2, t3. do 3 (split; [done|]).
  cbn in Ar. rewrite R2 in Ar.
  assert (R : resized_array t n hbits t3).
  { split; [done|by rewrite (sh_asize _ _ Sh3)|by rewrite (cap_shape s2)|rewrite K2 in Cn3; lia|].
    apply get_iff; [done| |].
    - intros i Hi. by apply (shrink_slot t s2 t3 n hbits).
    - intros c Hc' Ni. by apply (shrink_none t s2 t3 n hbits). }
  destruct (colo t3 <=? 0); [|done].
  assert (X : take (Z.to_nat n) (array t) = take (Z.to_nat (asize t3)) (array t3)) by by rewrite (ra_asize _ _ _ _ R), Ar.
  rewrite X. destruct R as [X1 X2 X3 X4 X5].
  split; [by apply wf_take_array|done|done|done|]. intros c v Cc Nv. rewrite ref_get_take_array by done. by apply X5.
Qed.


(** ** The resized table *)

Record resized (t : GCtab) (n hbits : Z) (t' : GCtab) : Prop := {
  rz_wf : wf_tab t';
  rz_asize : asize t' = n;
  rz_cap : cap t' = hsize hbits;
  rz_count : (nkeyed (node t') <= aneed (leaving t n) + hneed n (node t))%nat;
  rz_get : forall c, canon c -> ref_get t' c = ref_get t c
}.

Lemma hash_pairs t i nd : wf_tab t -> node t !! i = Some nd -> wf_tv (val nd) /\ (val nd <> Tnil -> canon (key nd)).
Proof.
  intros W E. split; [by eapply w_nvals|]. intros Nv. apply (h_canon _ _ (w_hash t W) i); [done|].
  intros K. by destruct (h_free _ _ (w_hash t W) i nd E K).
Qed.

Lemma resize_finish retry t n hbits t3 : wf_tab t -> resized_array t n hbits t3 ->
  (aneed (leaving t n) + hneed n (node t) <= hsize hbits)%nat ->
  exists t', (if 0 <? hmask t then reinsert_hash retry t3 (node t) else Ok t3) = Ok t' /\ resized t n hbits t'.
Proof.
  intros W [W3 A3 C3 K3 G3] Hc.
  destruct (Z.ltb_spec 0 (hmask t)) as [Hm|Hm].
  - destruct (reinsert_hash_ok retry (node t) t3 W3) as (t' & E & [W' Sh Cn] & P1 & P2).
    { intros i nd. by apply hash_pairs. }
    { intros i j a b Ea Eb Na _ Ek. apply (h_uniq _ _ (w_hash t W) _ _ _ _ Ea Eb); [|done].
      intros K. by destruct (h_free _ _ (w_hash t W) i a Ea K). }
    { rewrite A3, C3. lia. }
    exists t'. split; [done|]. rewrite A3 in Cn. split; [done|by rewrite (sh_asize _ _ Sh)|by rewrite (cap_shape t3)|lia|].
    intros c Hc'. assert (Nc : c <> Tnil) by by (intros ->; destruct Hc').
    destruct (decide (scan (node t) c = Tnil)) as [S|S].
    + assert (Nh : forall v, ~ has (node t) c v).
      { intros v Hv. destruct (Hv) as (_ & _ & _ & _ & _ & Nv). apply (scan_has _ _ (w_hash t W)) in Hv; congruence. }
      rewrite P2 by done. apply ref_get_same; intros v Nv E'.
      * apply G3; [done..|]. apply (ref_get_live t) in E' as [?|Hv]; [done|by destruct (Nh v)|done..].
      * apply (ref_get_live t); [done..|]. left. by apply G3.
    + assert (Hv : has (node t) c (scan (node t) c)) by by apply (scan_has _ _ (w_hash t W)).
      rewrite (P1 c _ Hc' Hv). symmetry. apply ref_get_live; [done..|]. by right.
  - destruct (w_size t W) as [(Em & En & _)|(h & Hh & Em & _)]; [|pose proof (proj1 (pow2_size h ltac:(lia))); lia].
    exists t3. split; [done|]. split; [done..|lia|]. intros c Hc'. apply ref_get_same; intros v Nv E'.
    + apply G3; [done..|]. apply (ref_get_live t) in E' as [?|(i & nd & E & _ & V & N)]; [done| |done..].
      rewrite En in E. destruct i as [|i]; [|done]. cbn in E. injection E as <-. done.
    + apply (ref_get_live t); [done..|]. left. by apply G3.
Qed.

(** Resizing to sizes that hold all pairs succeeds, without a nested rehash,
    and keeps all pairs. *)
Lemma resize_ok retry t n hbits : wf_tab t -> 0 <= n <= LJ_MAX_ASIZE -> 0 <= hbits <= LJ_MAX_HBITS ->
  (aneed (leaving t n) + hneed n (node t) <= hsize hbits)%nat ->
  exists t', resize_ retry t n hbits = Ok t' /\ resized t n hbits t'.
Proof.
  intros W Hn Hh Hc. unfold resize_. fold (newpart t hbits). destruct (Z.ltb_spec (asize t) n) as [Hg|Hg].
  - destruct (phase_grow t n hbits W ltac:(lia) Hh) as (t1 & t2 & E1 & E2 & R).
    rewrite E1. cbn [mbind res_bind]. fold (newpart t1 hbits). rewrite E2. cbn [mbind res_bind].
    rewrite (proj2 (Z.ltb_ge n (asize t))) by lia. by apply resize_finish.
  - cbn [mbind res_bind]. fold (newpart t hbits). destruct (Z.ltb_spec n (asize t)) as [Hl|Hl].
    + destruct (phase_shrink retry t n hbits W ltac:(lia) Hh ltac:(lia)) as (t2 & t3 & E2 & Ra & E3 & R).
      rewrite E2. cbn [mbind res_bind]. rewrite Ra. fold (leaving t n). rewrite E3. cbn [mbind res_bind].
      by apply resize_finish.
    + assert (n = asize t) as -> by lia. destruct (phase_same t hbits W Hh) as (t2 & E2 & _ & _ & _ & _ & R).
      rewrite E2. cbn [mbind res_bind]. by apply resize_finish.
Qed.

(** Sizes beyond the limits are refused. *)
Lemma resize_ov retry t n hbits : (asize t < n /\ LJ_MAX_ASIZE < n) \/ (n <= LJ_MAX_ASIZE /\ LJ_MAX_HBITS < hbits) ->
  resize_ retry t n hbits = Err TABOV.
Proof.
  intros [[H1 H2]|[H1 H2]]; unfold resize_.
  - rewrite (proj2 (Z.ltb_lt (asize t) n)) by done. unfold grow_array. by rewrite (proj2 (Z.ltb_lt LJ_MAX_ASIZE n)).
  - assert (X : forall t, (if negb (hbits =? 0) then clearhpart <$> newhpart t hbits else Ok (nil_hpart t)) = Err TABOV).
    { intros t0. unfold newhpart. rewrite (proj2 (Z.ltb_lt LJ_MAX_HBITS hbits)) by done.
      by rewrite (proj2 (Z.eqb_neq hbits 0)) by (unfold LJ_MAX_HBITS in *; lia). }
    destruct (asize t <? n) eqn:E; [unfold grow_array; rewrite (proj2 (Z.ltb_ge LJ_MAX_ASIZE n)) by done|];
      cbn [mbind res_bind]; by rewrite X.
Qed.
End Resize.
