(* ===== verification/TabRehash.v ===== *)
(** * Tables: counting and rehashing

    [countarray], [counthash] and [countint] count the integer keys in bins
    by powers of two, [bestasize] picks the array size from the bins, and
    [rehashtab] resizes so that the pairs and the new key fit. *)

From S2P Require Import Prelude Machine Num Tab TabKey TabHash TabInv TabPut TabSize TabResize.

#[local] Arguments deq : simpl never.
#[local] Arguments int2num : simpl never.
#[local] Arguments lj_num2int : simpl never.
#[local] Arguments nkeyed : simpl never.

(** ** Bins *)

Definition sumz (l : list Z) : Z := foldr Z.add 0 l.

(** The count of the bins [0 .. b]. *)
Definition psum (bins : list Z) (b : Z) : Z := sumz (take (S (Z.to_nat b)) bins).

Lemma sumz_take_alter n i m (l : list Z) : (i < length l)%nat ->
  sumz (take m (alter (Z.add n) i l)) = sumz (take m l) + if decide (i < m)%nat then n else 0.
Proof.
  revert i m. induction l as [|x l IH]; intros i m Hi; [cbn in Hi; lia|].
  destruct m as [|m]; [by rewrite decide_False by lia|]. destruct i as [|i].
  - change (alter (Z.add n) 0%nat (x :: l)) with (n + x :: l). rewrite decide_True by lia. unfold sumz. cbn [take foldr]. lia.
  - change (alter (Z.add n) (S i) (x :: l)) with (x :: alter (Z.add n) i l). cbn in Hi. unfold sumz in *. cbn [take foldr].
    rewrite IH by lia. destruct (decide (i < m)%nat), (decide (S i < S m)%nat); lia.
Qed.

Lemma psum_bump j n bins b : 0 <= j < Z.of_nat (length bins) -> 0 <= b ->
  psum (bump j n bins) b = psum bins b + if decide (j <= b) then n else 0.
Proof.
  intros Hj Hb. unfold psum, bump. rewrite sumz_take_alter by lia.
  destruct (decide (Z.to_nat j < S (Z.to_nat b))%nat), (decide (j <= b)); lia.
Qed.

Lemma bump_length j n bins : length (bump j n bins) = length bins.
Proof. apply length_alter. Qed.

Lemma sumz_bump j n bins : 0 <= j < Z.of_nat (length bins) -> sumz (bump j n bins) = sumz bins + n.
Proof.
  intros Hj. pose proof (sumz_take_alter n (Z.to_nat j) (length bins) bins ltac:(lia)) as E.
  rewrite decide_True in E by lia. unfold bump. by rewrite !take_ge in E by (rewrite ?length_alter; lia).
Qed.

(** All counts are non-negative. *)
Definition bins_ok (bins : list Z) : Prop := length bins = 28%nat /\ Forall (fun x => 0 <= x) bins.

Lemma bump_ok j n bins : 0 <= n -> bins_ok bins -> bins_ok (bump j n bins).
Proof.
  intros Hn [Hl Hf]. split; [by rewrite bump_length|]. unfold bump. apply Forall_lookup. intros i x.
  rewrite Forall_lookup in Hf. rewrite lookup_alter_dec. case_decide; [|by apply Hf].
  intros (y & Ey & ->)%fmap_Some. apply Hf in Ey. lia.
Qed.

(** [lj_fls] as a bin: the key [k] is in a bin up to [b] when [k <= 2 ^ (b + 1)]. *)
Lemma int_bin_le k b : 0 <= k < LJ_MAX_ASIZE -> 0 <= b -> int_bin k <= b <-> k <= 2 ^ (b + 1).
Proof.
  intros Hk Hb. change LJ_MAX_ASIZE with 134217729 in Hk. unfold int_bin. pose proof (Z.pow_le_mono_r 2 1 (b + 1)) as P.
  destruct (Z.ltb_spec 2 k); [|lia]. rewrite u32_id by (widths; lia). unfold lj_fls.
  pose proof (Z.log2_lt_pow2 (k - 1) (b + 1) ltac:(lia)). lia.
Qed.

Lemma int_bin_range k : 0 <= k < LJ_MAX_ASIZE -> 0 <= int_bin k <= 26.
Proof.
  intros Hk. split; [|apply int_bin_le; [done|lia|]].
  - unfold int_bin. case_match; [apply Z.log2_nonneg|lia].
  - change LJ_MAX_ASIZE with 134217729 in Hk. change (2 ^ (26 + 1)) with 134217728. lia.
Qed.

Section Rehash.
Context `{TE : TabEnv}.

(** ** Counting *)

(** A countable key contributes to the bins up to [b] when it fits an array
    of [2 ^ (b + 1) + 1] slots. *)
Definition bfit (b : Z) (c : TValue) : Z := if in_arrn (2 ^ (b + 1) + 1) c then 1 else 0.
Definition is_countable (c : TValue) : Z := if in_arrn LJ_MAX_ASIZE c then 1 else 0.

Lemma countint_ok c bins : bins_ok bins -> bins_ok (countint c bins).2 /\ (countint c bins).1 = is_countable c /\
  sumz (countint c bins).2 = sumz bins + is_countable c /\
  forall b, 0 <= b <= 26 -> psum (countint c bins).2 b = psum bins b + bfit b c.
Proof.
  intros Hb. unfold bfit, is_countable. destruct c as [| | | | | | |u];
    try (split; [done|]; split; [done|]; split; [by cbn [in_arrn countint snd]; rewrite Z.add_0_r|]; intros b _; cbn [in_arrn countint snd]; by rewrite Z.add_0_r).
  cbn [countint in_arrn]. cbn zeta. pose proof (num2int_i32 u) as Ri. set (i := lj_num2int u) in *.
  assert (E : (u32 i <? LJ_MAX_ASIZE) && deq u (int2num i) = deq u (int2num i) && (0 <=? i) && (i <? LJ_MAX_ASIZE)).
  { change LJ_MAX_ASIZE with 134217729. destruct (deq u _); [|by rewrite andb_false_r]. rewrite andb_true_r. cbn [andb].
    destruct (Z.leb_spec 0 i); cbn [andb].
    - by rewrite u32_id by (widths; lia).
    - apply Z.ltb_ge. wsolve. }
  rewrite E. destruct (deq u (int2num i)) eqn:D; cbn [andb]; [|split; [done|]; split; [done|]; cbn [snd]; split; [lia|]; intros; lia].
  destruct (Z.leb_spec 0 i); cbn [andb]; [|split; [done|]; split; [done|]; cbn [snd]; split; [lia|]; intros; lia].
  destruct (Z.ltb_spec i LJ_MAX_ASIZE) as [Hm|Hm]; cbn [fst snd].
  - pose proof (int_bin_range i ltac:(lia)). split; [by apply bump_ok|]. split; [done|].
    destruct Hb as [Hl _]. split; [rewrite sumz_bump; lia|]. intros b Hb'. rewrite psum_bump by lia. f_equal.
    pose proof (int_bin_le i b ltac:(lia) ltac:(lia)). case_decide; destruct (Z.ltb_spec i (2 ^ (b + 1) + 1)); lia.
  - split; [done|]. split; [done|]. split; [lia|]. intros b Hb'. pose proof (Z.pow_le_mono_r 2 (b + 1) 27 ltac:(lia) ltac:(lia)).
    change LJ_MAX_ASIZE with (2 ^ 27 + 1) in *. destruct (Z.ltb_spec i (2 ^ (b + 1) + 1)); lia.
Qed.

(** Sums over the live nodes. *)
Fixpoint lsum (f : TValue -> Z) (ns : list Node) : Z :=
  match ns with [] => 0 | nd :: ns => (if decide (val nd = Tnil) then 0 else f (key nd)) + lsum f ns end.

Lemma counthash_ok ns : (forall i nd, ns !! i = Some nd -> wf_tv (val nd)) -> forall total na bins, bins_ok bins ->
  exists bins', counthash_loop ns total na bins = (total + lsum (fun _ => 1) ns, na + lsum is_countable ns, bins') /\
  bins_ok bins' /\ sumz bins' = sumz bins + lsum is_countable ns /\
  forall b, 0 <= b <= 26 -> psum bins' b = psum bins b + lsum (bfit b) ns.
Proof.
  induction ns as [|nd ns IH]; intros Hv total na bins Hb; cbn [counthash_loop lsum].
  - exists bins. rewrite !Z.add_0_r. do 3 (split; [done|]). intros; lia.
  - rewrite tvisnil_spec by (by apply (Hv 0%nat)). assert (Hv' : forall i a, ns !! i = Some a -> wf_tv (val a)) by (intros i; apply (Hv (S i))).
    destruct (decide (val nd = Tnil)) as [V|V].
    + rewrite bool_decide_eq_true_2 by done. cbn [negb]. destruct (IH Hv' total na bins Hb) as (bins' & -> & H1 & H3 & H2).
      exists bins'. split; [done|]. split; [done|]. split; [lia|]. intros b Hb'. rewrite H2 by done. lia.
    + rewrite bool_decide_eq_false_2 by done. cbn [negb]. destruct (countint_ok (key nd) bins Hb) as (B & C & Sm & P).
      destruct (countint (key nd) bins) as [c bins1]. cbn [fst snd] in B, C, Sm, P. subst c.
      destruct (IH Hv' (total + 1) (na + is_countable (key nd)) bins1 B) as (bins' & -> & H1 & H3 & H2).
      exists bins'. split; [by rewrite !Z.add_assoc|]. split; [done|]. split; [lia|]. intros b Hb'. rewrite H2, P by done. lia.
Qed.

Lemma lsum_need n ns : Z.of_nat (hneed n ns) + lsum (fun c => if in_arrn n c then 1 else 0) ns = lsum (fun _ => 1) ns.
Proof. induction ns as [|nd ns IH]; [done|]. cbn. case_decide; [lia|]. destruct (in_arrn n (key nd)); lia. Qed.

Lemma aneed_app l1 l2 : aneed (l1 ++ l2) = (aneed l1 + aneed l2)%nat.
Proof. induction l1 as [|x l1 IH]; [done|]. cbn. rewrite IH. lia. Qed.

(** The non-nil values below index [m]. *)
Definition acount (t : GCtab) (m : Z) : Z := Z.of_nat (aneed (take (Z.to_nat m) (array t))).

Lemma arrayslot_wf t i : wf_tab t -> wf_tv (arrayslot t i).
Proof. intros W. unfold arrayslot. destruct (_ !! _) as [v|] eqn:E; [by eapply w_avals|done]. Qed.

Lemma acount_succ t i : wf_tab t -> 0 <= i ->
  acount t (i + 1) = acount t i + if negb (tvisnil (arrayslot t i)) then 1 else 0.
Proof.
  intros W Hi. rewrite tvisnil_spec by by apply arrayslot_wf. unfold acount, arrayslot.
  replace (Z.to_nat (i + 1)) with (S (Z.to_nat i)) by lia.
  destruct (array t !! Z.to_nat i) as [v|] eqn:E.
  - rewrite (take_S_r _ _ v) by done. rewrite aneed_app. cbn. case_decide.
    + rewrite bool_decide_eq_true_2 by done. cbn. lia.
    + rewrite bool_decide_eq_false_2 by done. cbn. lia.
  - apply lookup_ge_None in E. rewrite !take_ge by lia. rewrite bool_decide_eq_true_2 by done. cbn. lia.
Qed.

Lemma count_slots_ok t k : wf_tab t -> forall i, 0 <= i -> count_slots t i k = acount t (i + Z.of_nat k) - acount t i.
Proof.
  intros W. induction k as [|k IH]; intros i Hi; cbn [count_slots]; [rewrite Z.add_0_r; lia|].
  rewrite IH by lia. rewrite acount_succ by done. replace (i + Z.of_nat (S k)) with (i + 1 + Z.of_nat k) by lia. lia.
Qed.

Lemma acount_leaving t n : wf_tab t -> 0 <= n ->
  Z.of_nat (aneed (leaving t n)) + acount t (Z.min (asize t) n) = acount t (asize t).
Proof.
  intros W Hn. unfold leaving, acount. pose proof (w_asize t W).
  destruct (Z.le_gt_cases (asize t) n).
  - rewrite Z.min_l by done. replace (Z.to_nat (asize t - n)) with 0%nat by lia. rewrite take_0. cbn [aneed]. lia.
  - rewrite Z.min_r by lia. rewrite <- Nat2Z.inj_add, Nat.add_comm, <- aneed_app. do 2 f_equal.
    rewrite <- (take_drop (Z.to_nat n) (take (Z.to_nat (asize t)) (array t))).
    rewrite take_take, Nat.min_l by lia. f_equal. rewrite skipn_firstn_comm. f_equal. lia.
Qed.

Lemma acount_mono t i j : wf_tab t -> 0 <= i <= j -> acount t i <= acount t j.
Proof.
  intros W Hi. pose proof (count_slots_ok t (Z.to_nat (j - i)) W i ltac:(lia)) as E.
  replace (i + Z.of_nat (Z.to_nat (j - i))) with j in E by lia.
  assert (P : forall k i, 0 <= count_slots t i k); [|specialize (P (Z.to_nat (j - i)) i); lia].
  intros k. induction k as [|k IH]; intros x; cbn; [lia|]. specialize (IH (x + 1)). case_match; lia.
Qed.

(** The index [countarray] has reached before round [b]. *)
Definition reached (t : GCtab) (b : Z) : Z := Z.min (asize t) (if decide (b = 0) then 0 else 2 ^ b + 1).

Lemma countarray_loop_ok t bins0 fuel : wf_tab t -> 0 < asize t -> forall b i na bins,
  0 <= b -> b + Z.of_nat fuel = 28 -> i = reached t b -> na = acount t i -> bins_ok bins ->
  sumz bins = sumz bins0 + acount t i ->
  (forall b', 0 <= b' <= 26 -> psum bins b' = psum bins0 b' + acount t (Z.min i (2 ^ (b' + 1) + 1))) ->
  exists bins', countarray_loop t fuel b i na bins = (acount t (asize t), bins') /\ bins_ok bins' /\
  sumz bins' = sumz bins0 + acount t (asize t) /\
  forall b', 0 <= b' <= 26 -> psum bins' b' = psum bins0 b' + acount t (Z.min (asize t) (2 ^ (b' + 1) + 1)).
Proof.
  intros W Ha. pose proof (w_asize t W) as Wa. change LJ_MAX_ASIZE with (2 ^ 27 + 1) in Wa.
  induction fuel as [|fuel IH]; intros b i na bins Hb Hf Hi Hna Hok Hs Hp; cbn [countarray_loop].
  { assert (i = asize t) as -> by (subst i; unfold reached; replace b with 28 by lia; rewrite decide_False by lia; lia).
    exists bins. by rewrite Hna. }
  rewrite Z.shiftl_mul_pow2, <- Z.pow_succ_r, <- Z.add_1_r by lia.
  assert (Hr : 0 <= i <= asize t) by (subst i; unfold reached; case_decide; lia).
  set (top := if asize t <=? 2 ^ (b + 1) then asize t - 1 else 2 ^ (b + 1)).
  assert (Ht : top + 1 = Z.min (asize t) (2 ^ (b + 1) + 1)) by (unfold top; destruct (Z.leb_spec (asize t) (2 ^ (b + 1))); lia).
  assert (Hpow : b = 0 \/ 2 ^ (b + 1) = 2 * 2 ^ b) by (right; rewrite Z.pow_add_r; lia).
  assert (Hle : i <= top + 1) by (rewrite Ht; subst i; unfold reached; case_decide; lia).
  destruct ((asize t <=? 2 ^ (b + 1)) && (top <? i)) eqn:E.
  - assert (i = asize t) as Ei by (unfold top in *; lia). exists bins. rewrite Ei in *. by rewrite Hna.
  - rewrite count_slots_ok by (try done; lia). replace (i + Z.of_nat (Z.to_nat (top + 1 - i))) with (top + 1) by lia.
    rewrite Z.max_r by lia. apply IH; [lia|lia|by rewrite Ht; unfold reached; rewrite decide_False by lia|lia| | |].
    + apply bump_ok; [|done]. pose proof (acount_mono t i (top + 1) W ltac:(lia)). lia.
    + destruct Hok as [Hl _]. rewrite sumz_bump; lia.
    + intros b' Hb'. destruct Hok as [Hl _]. rewrite psum_bump by lia. rewrite Hp by done.
      destruct (decide (b <= b')).
      * assert (i <= 2 ^ (b' + 1) + 1 /\ top + 1 <= 2 ^ (b' + 1) + 1).
        { pose proof (Z.pow_le_mono_r 2 (b + 1) (b' + 1) ltac:(lia) ltac:(lia)). lia. }
        rewrite !Z.min_l by lia. lia.
      * rewrite Z.add_0_r. do 2 f_equal. assert (b <> 0) by lia.
        pose proof (Z.pow_le_mono_r 2 (b' + 1) b ltac:(lia) ltac:(lia)).
        rewrite Ht. subst i. unfold reached. rewrite decide_False by done. lia.
Qed.

(** ** The best array size *)

(** Bin [j] of [bs] (which starts at bin [b], with [sum] keys before) justifies
    an array up to [2 ^ (b + j + 1)]: it has keys, and more than a quarter of
    the array would be used. *)
Definition good (bs : list Z) (b sum : Z) (j : nat) : Prop :=
  exists x, bs !! j = Some x /\ 0 < x /\ 2 ^ (b + Z.of_nat j) < 2 * (sum + sumz (take (S j) bs)).

Lemma sumz_nonneg l : Forall (fun x => 0 <= x) l -> 0 <= sumz l.
Proof. induction 1; unfold sumz in *; cbn [foldr]; lia. Qed.

Lemma sumz_take_le l j : Forall (fun x => 0 <= x) l -> sumz (take j l) <= sumz l.
Proof.
  intros H. rewrite <- (take_drop j l) at 2. unfold sumz. rewrite foldr_app. fold (sumz (drop j l)).
  pose proof (sumz_nonneg (drop j l) (Forall_drop _ _ _ H)). generalize (take j l) as l1. induction l1; cbn; lia.
Qed.

Lemma sumz_zero l j x : Forall (fun x => 0 <= x) l -> sumz l <= 0 -> l !! j = Some x -> x = 0.
Proof.
  intros H. revert j. induction H as [|y l Hy H IH]; intros [|j] Hs E; try done;
    pose proof (sumz_nonneg l H) as P; unfold sumz in *; cbn [foldr] in Hs.
  - injection E as ->. lia.
  - apply (IH j); [lia|done].
Qed.

Lemma good_cons x bs b sum j : good (x :: bs) b sum (S j) <-> good bs (b + 1) (sum + x) j.
Proof.
  unfold good. cbn [lookup list_lookup take sumz foldr]. fold (sumz (take (S j) bs)).
  replace (b + Z.of_nat (S j)) with (b + 1 + Z.of_nat j) by lia.
  replace (sum + x + sumz (take (S j) bs)) with (sum + (x + sumz (take (S j) bs))) by lia. done.
Qed.

Lemma bestasize_loop_ok bs : Forall (fun x => 0 <= x) bs -> forall nn b sum na sz, 0 <= b -> 0 <= sum -> nn = sum + sumz bs ->
  exists na' sz', bestasize_loop bs nn b sum na sz = Ok (na', sz') /\
  ((na' = na /\ sz' = sz /\ forall j, ~ good bs b sum j) \/
   (exists j, good bs b sum j /\ (forall j', (j < j')%nat -> ~ good bs b sum j') /\
      na' = sum + sumz (take (S j) bs) /\ sz' = 2 ^ (b + Z.of_nat j + 1) + 1)).
Proof.
  induction 1 as [|x bs Hx Hb IH]; intros nn b sum na sz Hb0 Hs Hn.
  { cbn in Hn. assert (sum = nn) as -> by lia. exists na, sz. cbn. rewrite Z.eqb_refl, andb_false_r.
    split; [done|]. left. split; [done|]. split; [done|]. intros j (y & E & _). done. }
  assert (Pb : Forall (fun x => 0 <= x) (x :: bs)) by by constructor.
  cbn [bestasize_loop]. rewrite !Z.shiftl_mul_pow2, Z.mul_1_l by lia.
  destruct ((2 ^ b <? 2 * nn) && negb (sum =? nn)) eqn:C.
  2: { exists na, sz. split; [done|]. left. split; [done|]. split; [done|]. intros j (y & E & Py & G).
       pose proof (sumz_take_le (x :: bs) (S j) Pb). pose proof (Z.pow_le_mono_r 2 b (b + Z.of_nat j) ltac:(lia) ltac:(lia)).
       destruct (Z.eqb_spec sum nn); [|lia]. pose proof (sumz_zero (x :: bs) j y Pb ltac:(lia) E). lia. }
  assert (Hn' : nn = sum + x + sumz bs) by (subst nn; cbn; unfold sumz; lia).
  set (upd := (0 <? x) && (2 ^ b <? 2 * (sum + x))).
  assert (E : (if 0 <? x then if 2 ^ b <? 2 * (sum + x)
                 then bestasize_loop bs nn (b + 1) (sum + x) (sum + x) (2 * 2 ^ b + 1)
                 else bestasize_loop bs nn (b + 1) (sum + x) na sz else bestasize_loop bs nn (b + 1) sum na sz)
              = bestasize_loop bs nn (b + 1) (sum + x) (if upd then sum + x else na) (if upd then 2 * 2 ^ b + 1 else sz)).
  { unfold upd. destruct (Z.ltb_spec 0 x); cbn [andb]; [destruct (2 ^ b <? 2 * (sum + x)); reflexivity|]. replace (sum + x) with sum by lia. done. }
  cbn zeta. rewrite E. destruct (IH nn (b + 1) (sum + x) (if upd then sum + x else na) (if upd then 2 * 2 ^ b + 1 else sz))
    as (na' & sz' & -> & R); [lia|lia|done|]. exists na', sz'. split; [done|].
  assert (U : good (x :: bs) b sum 0 <-> upd = true).
  { unfold upd, good. cbn [take sumz foldr]. rewrite !Z.add_0_r. split.
    - intros (y & [= <-] & H1 & H2). lia.
    - intros H. exists x. split; [done|]. lia. }
  destruct R as [(-> & -> & N)|(j & G & N & -> & ->)].
  - destruct upd eqn:Eu.
    + right. exists 0%nat. split; [by apply U|]. split; [|split; [unfold sumz; cbn [take foldr]; rewrite take_0; cbn [foldr]; lia|rewrite Z.add_0_r, Z.pow_add_r by lia; lia]].
      intros [|j'] Hj; [lia|]. by rewrite good_cons.
    + left. split; [done|]. split; [done|]. intros [|j']; [by intros X%U|]. by rewrite good_cons.
  - right. exists (S j). split; [by apply good_cons|]. split.
    + intros [|j'] Hj; [lia|]. rewrite good_cons. apply N. lia.
    + split; [cbn [take sumz foldr]; fold (sumz (take (S j) bs)); lia|]. do 2 f_equal. lia.
Qed.

(** [hsize2hbits] gives enough nodes. *)
Lemma hsize2hbits_ok s : 0 <= s < 2 ^ 32 -> 0 <= hsize2hbits s /\ s <= Z.of_nat (hsize (hsize2hbits s)).
Proof.
  intros Hs. unfold hsize2hbits, hsize. destruct (Z.eqb_spec s 0) as [->|H0]; cbn [negb]; [done|].
  destruct (Z.eqb_spec s 1) as [->|H1]; [done|]. rewrite u32_id by (widths; lia). unfold lj_fls.
  pose proof (Z.log2_nonneg (s - 1)). pose proof (Z.log2_spec (s - 1) ltac:(lia)).
  rewrite decide_False by lia. rewrite Z2Nat.id by lia. rewrite <- Z.add_1_l in *. lia.
Qed.

Lemma aneed_le l : (aneed l <= length l)%nat.
Proof. induction l as [|x l IH]; cbn; [lia|]. case_decide; lia. Qed.

Lemma lsum_le ns : 0 <= lsum (fun _ => 1) ns <= Z.of_nat (length ns).
Proof. induction ns as [|nd ns IH]; cbn [lsum length]; [lia|]. case_decide; lia. Qed.

Lemma acount_bounds t m : 0 <= m -> 0 <= acount t m <= m.
Proof. intros Hm. unfold acount. pose proof (aneed_le (take (Z.to_nat m) (array t))). rewrite length_take in H. lia. Qed.

Lemma node_bound t : wf_tab t -> Z.of_nat (length (node t)) <= 2 ^ 26.
Proof.
  intros W. destruct (w_size t W) as [(_ & -> & _)|(h & Hh & _ & -> & _)]; [by cbn|].
  pose proof (Z.pow_le_mono_r 2 h 26). unfold LJ_MAX_HBITS in *. lia.
Qed.

Definition bins0 : list Z := replicate 28 0.

Lemma bins0_ok : bins_ok bins0 /\ sumz bins0 = 0 /\ forall b, 0 <= b -> psum bins0 b = 0.
Proof.
  split; [split; [done|by apply Forall_replicate]|]. split; [done|]. intros b Hb. unfold psum, bins0.
  rewrite take_replicate. generalize (S (Z.to_nat b) `min` 28)%nat as m. induction m as [|m IH]; [done|].
  unfold sumz in *. cbn [replicate foldr]. lia.
Qed.

(** The outcome of the counting phase of [rehashtab]. *)
Lemma counted t ek : wf_tab t -> exists bins1 bins2 n asize2,
  countarray t bins0 = (acount t (asize t), bins1) /\
  counthash t bins1 (acount t (asize t)) = (n, asize2, bins2) /\ n = lsum (fun _ => 1) (node t) /\
  asize2 = acount t (asize t) + lsum is_countable (node t) /\
  bins_ok (countint ek bins2).2 /\ (countint ek bins2).1 = is_countable ek /\
  sumz (countint ek bins2).2 = asize2 + is_countable ek /\
  forall b, 0 <= b <= 26 -> psum (countint ek bins2).2 b =
    acount t (Z.min (asize t) (2 ^ (b + 1) + 1)) + lsum (bfit b) (node t) + bfit b ek.
Proof.
  intros W. destruct bins0_ok as (B0 & S0 & P0). pose proof (w_asize t W) as Wa.
  assert (A : exists bins1, countarray t bins0 = (acount t (asize t), bins1) /\ bins_ok bins1 /\
    sumz bins1 = acount t (asize t) /\
    forall b', 0 <= b' <= 26 -> psum bins1 b' = acount t (Z.min (asize t) (2 ^ (b' + 1) + 1))).
  { unfold countarray. destruct (Z.eqb_spec (asize t) 0) as [E|E].
    - exists bins0. assert (Z0 : acount t 0 = 0) by done. rewrite E, Z0. do 3 (split; [done|]).
      intros b Hb. rewrite Z.min_l by lia. rewrite P0 by lia. done.
    - destruct (countarray_loop_ok t bins0 (Z.to_nat LJ_MAX_ABITS) W ltac:(lia) 0 0 0 bins0) as (bins1 & -> & H1 & H2 & H3); try done.
      + unfold reached. rewrite decide_True by done. lia.
      + intros b Hb. rewrite Z.min_l by lia. assert (Z0 : acount t 0 = 0) by done. lia.
      + exists bins1. split; [done|]. split; [done|]. split; [lia|]. intros b Hb. rewrite H3, P0 by lia. lia. }
  destruct A as (bins1 & E1 & B1 & S1 & P1).
  destruct (counthash_ok (node t) (w_nvals t W) 0 0 bins1 B1) as (bins2 & E2 & B2 & S2 & P2).
  destruct (countint_ok ek bins2 B2) as (B3 & C3 & S3 & P3).
  exists bins1, bins2, (lsum (fun _ => 1) (node t)), (acount t (asize t) + lsum is_countable (node t)).
  split; [done|]. split; [unfold counthash; by rewrite E2|]. do 4 (split; [done|]). split; [lia|].
  intros b Hb. rewrite P3, P2, P1 by done. lia.
Qed.

Lemma lsum_zero f ns : (forall c, f c = 0) -> lsum f ns = 0.
Proof. intros H. induction ns as [|nd ns IH]; [done|]. cbn [lsum]. rewrite H, IH. by case_decide. Qed.

Lemma lsum_nonneg f ns : (forall c, 0 <= f c) -> 0 <= lsum f ns.
Proof. intros H. induction ns as [|nd ns IH]; cbn [lsum]; [lia|]. specialize (H (key nd)). case_decide; lia. Qed.

Lemma in_arrn0 c : in_arrn 0 c = false.
Proof. destruct c as [| | | | | | |u]; try done. cbn. destruct (deq _ _); [|done]. cbn [andb]. lia. Qed.

Lemma sumz_last l x : length l = 28%nat -> l !! 27%nat = Some x -> sumz l = psum l 26 + x.
Proof.
  intros Hl Ex. unfold psum. change (S (Z.to_nat 26)) with 27%nat. rewrite <- (take_ge l 28) at 1 by lia.
  rewrite (take_S_r _ _ x Ex). unfold sumz. rewrite foldr_app. cbn [foldr]. rewrite Z.add_0_r.
  generalize (take 27 l) as l'. induction l' as [|y l' IH]; cbn [foldr]; lia.
Qed.

(** The number of keys [bestasize] puts into the array are those that fit. *)
Lemma best_fit t ek bins : wf_tab t -> bins_ok bins ->
  sumz bins = acount t (asize t) + lsum is_countable (node t) + is_countable ek ->
  (forall b, 0 <= b <= 26 -> psum bins b =
    acount t (Z.min (asize t) (2 ^ (b + 1) + 1)) + lsum (bfit b) (node t) + bfit b ek) ->
  exists na sz, bestasize bins (acount t (asize t) + lsum is_countable (node t) + is_countable ek) = Ok (na, sz) /\
  0 <= sz <= LJ_MAX_ASIZE /\
  na = acount t (Z.min (asize t) sz) + lsum (fun c => if in_arrn sz c then 1 else 0) (node t) + (if in_arrn sz ek then 1 else 0).
Proof.
  intros W [Bl Bf] Sm P. pose proof (w_asize t W) as Wa. change LJ_MAX_ASIZE with (2 ^ 27 + 1) in *.
  destruct (bestasize_loop_ok bins Bf _ 0 0 0 0 ltac:(lia) ltac:(lia) (eq_sym Sm)) as (na & sz & Eb & R).
  exists na, sz. split; [exact Eb|]. destruct R as [(-> & -> & _)|(j & (x & Ex & Px & _) & _ & -> & ->)].
  - split; [lia|]. assert (Z0 : acount t 0 = 0) by done. rewrite Z.min_r, Z0 by lia.
    rewrite lsum_zero by (intros c; by rewrite in_arrn0). by rewrite in_arrn0.
  - assert (Hj : Z.of_nat j <= 26).
    { assert (j < 28)%nat by (rewrite <- Bl; by eapply lookup_lt_Some). destruct (decide (j = 27)%nat) as [->|]; [|lia]. exfalso.
      pose proof (P 26 ltac:(lia)) as P26. rewrite Z.min_l in P26 by (change (2 ^ (26 + 1)) with (2 ^ 27); lia).
      pose proof (sumz_last bins x Bl Ex).
      change (lsum (bfit 26) (node t)) with (lsum is_countable (node t)) in P26.
      change (bfit 26 ek) with (is_countable ek) in P26. lia. }
    pose proof (Z.pow_le_mono_r 2 (0 + Z.of_nat j + 1) 27 ltac:(lia) ltac:(lia)).
    pose proof (Z.pow_nonneg 2 (0 + Z.of_nat j + 1) ltac:(lia)).
    split; [lia|]. specialize (P (Z.of_nat j) ltac:(lia)). unfold psum in P. rewrite Nat2Z.id in P.
    rewrite P. cbn [Z.add]. done.
Qed.

(** The pairs that stay out of an array of the best size, and the new key,
    are what [total] counts. *)
Lemma best_total t ek : wf_tab t -> exists bins1 bins2 n asize1 na sz,
  countarray t (replicate (Z.to_nat LJ_MAX_ABITS) 0) = (acount t (asize t), bins1) /\
  counthash t bins1 (acount t (asize t)) = (n, asize1, bins2) /\
  bestasize (countint ek bins2).2 (asize1 + (countint ek bins2).1) = Ok (na, sz) /\
  0 <= sz <= LJ_MAX_ASIZE /\
  1 + acount t (asize t) + n - na =
    Z.of_nat (aneed (leaving t sz) + hneed sz (node t)) + (if in_arrn sz ek then 0 else 1) /\
  0 <= 1 + acount t (asize t) + n - na < 2 ^ 32.
Proof.
  intros W. destruct (counted t ek W) as (bins1 & bins2 & n & asize2 & E1 & E2 & -> & -> & B & C & Sm & P).
  destruct (best_fit t ek _ W B Sm P) as (na & sz & Eb & Hs & ->).
  exists bins1, bins2, (lsum (fun _ => 1) (node t)), (acount t (asize t) + lsum is_countable (node t)).
  do 2 eexists. split; [exact E1|]. split; [exact E2|]. rewrite C. split; [exact Eb|]. split; [done|].
  pose proof (w_asize t W) as Wa. pose proof (acount_bounds t (asize t) ltac:(lia)) as Ab. pose proof (lsum_le (node t)) as Lb.
  pose proof (node_bound t W) as Nb. change LJ_MAX_ASIZE with (2 ^ 27 + 1) in *.
  pose proof (acount_leaving t sz W ltac:(lia)) as AL. pose proof (lsum_need sz (node t)) as LN.
  pose proof (acount_bounds t (Z.min (asize t) sz) ltac:(lia)).
  assert (0 <= lsum (fun c => if in_arrn sz c then 1 else 0) (node t)) by (apply lsum_nonneg; intros c; destruct (in_arrn sz c); lia).
  destruct (in_arrn sz ek); lia.
Qed.

(** Rehashing keeps all pairs and makes room for the new key; only a table
    that would be too big is refused. *)
Lemma rehash_ok retry t ek : wf_tab t -> (ek = Tnil \/ canon ek) ->
  rehashtab_ retry t ek = Err TABOV \/
  (exists t' n hbits, rehashtab_ retry t ek = Ok t' /\ resized t n hbits t' /\
     (canon ek -> in_arr t' ek \/ (nkeyed (node t') < cap t')%nat)).
Proof.
  intros W Hek. destruct (best_total t ek W) as (bins1 & bins2 & n & asize1 & na & sz & E1 & E2 & E3 & Hsz & Ht & Hr).
  unfold rehashtab_. rewrite E1, E2. destruct (countint ek bins2) as [c bins3]. cbn [fst snd] in E3. rewrite E3. cbn [mbind res_bind].
  set (total := 1 + acount t (asize t) + n - na) in *. destruct (hsize2hbits_ok total Hr) as [Hh Hc].
  destruct (Z.lt_ge_cases LJ_MAX_HBITS (hsize2hbits total)) as [Hov|Hok].
  - left. apply resize_ov. right. lia.
  - right. destruct (resize_ok retry t sz (hsize2hbits total) W Hsz ltac:(lia)) as (t' & E & R).
    { destruct (in_arrn sz ek); lia. }
    exists t', sz, (hsize2hbits total). split; [done|]. split; [done|]. intros Ce. destruct R as [W' A' C' K' _].
    destruct (in_arrn sz ek) eqn:I.
    + left. rewrite <- A' in I. by apply in_arrn_spec.
    + right. rewrite C'. lia.
Qed.
End Rehash.
