(* ===== verification/TabMap.v ===== *)
(** * Tables as maps

    The operations of a table refine those of a map from stored keys to
    values: [reps t m] says that the lookups of [t] are those of [m]. *)

From S2P Require Import Prelude Machine Num Tab TabKey TabHash TabInv TabPut TabSize TabResize TabRehash.

#[local] Arguments deq : simpl never.
#[local] Arguments int2num : simpl never.
#[local] Arguments lj_num2int : simpl never.
#[local] Arguments nkeyed : simpl never.

Section Map.
Context `{TE : TabEnv}.

(** ** Setting *)

(** What a setter achieves: the slot it returns is the one of the key. *)
Definition set_done (t : GCtab) (c : TValue) (r : tres (GCtab * slot)) : Prop :=
  r = Err TABOV \/
  exists t' s, r = Ok (t', s) /\ forall v, wf_tv v ->
    wf_tab (slot_put t' s v) /\
    forall c', canon c' -> ref_get (slot_put t' s v) c' = if decide (c' = c) then v else ref_get t c'.

Lemma retry_done f t c : wf_tab t -> canon c -> set_done t c (tab_retry (S f) t c).
Proof.
  intros W Hc. cbn [tab_retry].
  destruct (rehash_ok (tab_retry f) t c W (or_intror Hc)) as [E|(t1 & n & hb & E & [W1 A1 C1 K1 G1] & Room)]; rewrite E.
  - by left.
  - right. cbn [mbind res_bind].
    assert (R0 : in_arr (set_nomm t1 0) c \/ (nkeyed (node (set_nomm t1 0)) < cap (set_nomm t1 0))%nat) by by apply Room.
    pose proof (set_ok (tab_retry f) t1 c c W1 (proj1 Hc) (norm_canon c Hc)) as O.
    destruct (outcome_step _ _ _ _ Tnil (wf_nomm t1 0 W1) Hc wf_nil R0 O) as (t2 & s & E2 & Sl & _).
    exists t2, s. split; [done|]. intros v Hv.
    destruct (stored_slot _ _ _ _ v (wf_nomm t1 0 W1) Hc Hv Sl) as [W2 _ G2 _ _]. split; [done|].
    intros c' Hc'. rewrite G2 by done. case_decide; [done|]. by apply G1.
Qed.

Lemma outcome_done f t c r : wf_tab t -> canon c -> set_outcome (tab_retry (S f)) t c r -> set_done t c r.
Proof.
  intros W Hc [(-> & _)|(t1 & s & -> & Sl)]; [by apply retry_done|]. right. exists t1, s. split; [done|].
  intros v Hv. by destruct (stored_slot _ _ _ _ v W Hc Hv Sl).
Qed.

(** A setter on any well-formed table: no fuel runs out and no undefined
    access happens. *)
Lemma set_total t k : wf_tab t -> wf_tv k ->
  match norm k with
  | Some c => set_done t c (lj_tab_set t k)
  | None => lj_tab_set t k = Err (if decide (k = Tnil) then NILIDX else NANIDX)
  end.
Proof.
  intros W Hk. destruct (norm k) as [c|] eqn:N; [|by apply set_err].
  pose proof (canon_norm k c Hk N) as Hc.
  exact (outcome_done 0 (set_nomm t 0) c _ (wf_nomm t 0 W) Hc (set_ok (tab_retry rehash_fuel) t k c W Hk N)).
Qed.

(** [copyTV(L, lj_tab_set(L, t, k), v)] *)
Definition tab_put (t : GCtab) (k v : TValue) : tres GCtab :=
  '(t', s) ← lj_tab_set t k; Ok (slot_put t' s v).

Lemma put_total t k v : wf_tab t -> wf_tv k -> wf_tv v ->
  match norm k with
  | Some c => tab_put t k v = Err TABOV \/ exists t', tab_put t k v = Ok t' /\ wf_tab t' /\
      forall c', canon c' -> ref_get t' c' = if decide (c' = c) then v else ref_get t c'
  | None => tab_put t k v = Err (if decide (k = Tnil) then NILIDX else NANIDX)
  end.
Proof.
  intros W Hk Hv. pose proof (set_total t k W Hk) as S. unfold tab_put. destruct (norm k) as [c|].
  - destruct S as [E|(t' & s & E & S)]; rewrite E; [by left|right]. exists (slot_put t' s v). split; [done|]. by apply S.
  - by rewrite S.
Qed.

(** ** New tables, clearing, copies *)

Lemma clearapart_ok t : (Z.to_nat (asize t) <= length (array t))%nat -> 0 <= asize t <= LJ_MAX_ASIZE ->
  (forall i v, (Z.to_nat (asize t) <= i)%nat -> array t !! i = Some v -> wf_tv v) ->
  array_ok (clearapart t) /\ asize (clearapart t) = asize t /\
  forall i, 0 <= i < asize t -> arrayslot (clearapart t) i = Tnil.
Proof.
  intros Hl Ha Hv. split; [|split; [done|]].
  - split; [done|]. cbn. rewrite length_app, length_replicate, length_drop. split; [lia|].
    intros i v E. apply lookup_app_Some in E as [E|[Hi E]]; [by apply lookup_replicate in E as [-> _]|].
    rewrite length_replicate in *. rewrite lookup_drop in E. eapply Hv; [|exact E]. lia.
  - intros i Hi. unfold arrayslot. cbn. rewrite lookup_app_l by (rewrite length_replicate; lia).
    by rewrite lookup_replicate_2 by lia.
Qed.

Lemma empty_lookup t hbits : 0 <= hbits <= LJ_MAX_HBITS -> empty_hash t hbits -> array_ok t ->
  (forall i, 0 <= i < asize t -> arrayslot t i = Tnil) -> wf_tab t /\ forall c, canon c -> ref_get t c = Tnil.
Proof.
  intros Hh E A N. destruct (empty_wf t hbits Hh E A) as (W & _). split; [done|]. intros c Hc.
  destruct (decide (ref_get t c = Tnil)) as [|X]; [done|]. exfalso.
  pose proof (proj1 (empty_get t hbits c Hh E A Hc _ X) eq_refl) as (i & Hi & _ & V). apply X. by rewrite <- V, N.
Qed.

Lemma newtab_array n : 0 <= n -> match newtab n 0 with
  | Ok t => n <= LJ_MAX_ASIZE /\ empty_hash t 0 /\ asize t = n /\ length (array t) = Z.to_nat n
  | Err e => e = TABOV /\ LJ_MAX_ASIZE < n
  end.
Proof.
  intros Hn. unfold newtab, LJ_MAX_COLOSIZE. change LJ_MAX_ASIZE with 134217729.
  destruct (Z.ltb_spec 0 n) as [Hp|Hp]; cbn [andb].
  - destruct (Z.leb_spec n 16); cbn [mbind res_bind].
    + change (negb (0 =? 0)) with false. cbn. rewrite length_fmap, length_seq. split; [lia|]. by split.
    + destruct (Z.ltb_spec 134217729 n); cbn [mbind res_bind]; [done|]. change (negb (0 =? 0)) with false.
      cbn. rewrite length_fmap, length_seq. split; [lia|]. by split.
  - cbn [mbind res_bind]. change (negb (0 =? 0)) with false. split; [lia|]. split; [done|]. cbn. split; lia.
Qed.

Lemma newtab_split n h : h <> 0 -> newtab n h = t ← newtab n 0; newhpart t h.
Proof.
  intros Hh. unfold newtab. rewrite (proj2 (Z.eqb_neq h 0)) by done. change (negb (0 =? 0)) with false.
  cbn [negb]. by repeat case_match.
Qed.

Lemma new_ok n h : 0 <= n -> 0 <= h -> match lj_tab_new n h with
  | Ok t => n <= LJ_MAX_ASIZE /\ h <= LJ_MAX_HBITS /\ wf_tab t /\ asize t = n /\ forall c, canon c -> ref_get t c = Tnil
  | Err e => e = TABOV /\ (LJ_MAX_ASIZE < n \/ LJ_MAX_HBITS < h)
  end.
Proof.
  intros Hn Hh. unfold lj_tab_new. pose proof (newtab_array n Hn) as N.
  destruct (Z.eq_dec h 0) as [->|Hz].
  - destruct (newtab n 0) as [t|e]; cbn [mbind res_bind]; [|destruct N; auto].
    destruct N as (Hm & E & A & L). rewrite (proj2 (Z.ltb_ge _ _)) by (cbn; rewrite (proj1 (proj2 E)); done).
    destruct (clearapart_ok t) as (A1 & A2 & A3); [lia|lia|intros i v Hi Ei%lookup_lt_Some; lia|].
    destruct (empty_lookup (clearapart t) 0) as (W & G); [done|done|done|by rewrite A2|].
    split; [done|]. split; [done|]. split; [done|]. by rewrite A2.
  - rewrite newtab_split by done. destruct (newtab n 0) as [t|e]; cbn [mbind res_bind]; [|destruct N; auto].
    destruct N as (Hm & E & A & L). destruct (Z.lt_ge_cases LJ_MAX_HBITS h) as [Ho|Ho].
    { unfold newhpart. rewrite (proj2 (Z.ltb_lt _ _)) by done. cbn. auto. }
    destruct (newhpart_ok t h ltac:(lia)) as (t1 & -> & M1 & E1 & A1 & R1 & _). cbn [mbind res_bind].
    pose proof (pow2_size h ltac:(lia)).
    rewrite (proj2 (Z.ltb_lt _ _)) by (cbn; lia).
    destruct (clearapart_ok t1) as (B1 & B2 & B3); [rewrite A1, R1; lia|lia|rewrite A1, R1; intros i v Hi Ei%lookup_lt_Some; lia|].
    destruct (empty_lookup (clearhpart (clearapart t1)) h) as (W & G); [lia|done|done|exact B3|].
    split; [done|]. split; [done|]. split; [done|]. split; [cbn; lia|done].
Qed.

Lemma clear_ok t : wf_tab t -> wf_tab (lj_tab_clear t) /\ asize (lj_tab_clear t) = asize t /\
  forall c, canon c -> ref_get (lj_tab_clear t) c = Tnil.
Proof.
  intros W. destruct (clearapart_ok t (w_array t W) (w_asize t W)) as (A1 & A2 & A3); [intros; by eapply w_avals|].
  unfold lj_tab_clear. cbn zeta.
  destruct (w_size t W) as [(Em & En & Ef)|(h & Hh & Em & El & _)].
  - rewrite (proj2 (Z.ltb_ge _ _)) by (cbn; lia).
    destruct (empty_lookup (clearapart t) 0) as (W' & G); [done|by split|done|by rewrite A2|]. done.
  - pose proof (pow2_size h ltac:(lia)) as [P1 P2]. rewrite (proj2 (Z.ltb_lt _ _)) by (cbn; lia).
    set (t' := clearhpart _). assert (E : empty_hash t' h).
    { unfold empty_hash, hsize, t'. cbn. rewrite !decide_False by lia. rewrite clear_nodes, P2, El, Em.
      split; [done|]. split; [done|]. f_equal. lia. }
    destruct (empty_lookup t' h) as (W' & G); [lia|done|done|exact A3|]. done.
Qed.

Lemma fls_hmask h : 1 <= h -> lj_fls (2 ^ h - 1) + 1 = h.
Proof.
  intros Hh. unfold lj_fls. replace (2 ^ h - 1) with (Z.pred (2 ^ h)) by lia.
  rewrite Z.log2_pred_pow2 by lia. lia.
Qed.

(** A copy has the contents of the original. *)
Lemma dup_ok t : wf_tab t -> exists t', lj_tab_dup t = Ok t' /\ wf_tab t' /\ asize t' = asize t /\
  forall c, canon c -> ref_get t' c = ref_get t c.
Proof.
  intros W. pose proof (newtab_array (asize t) (proj1 (w_asize t W))) as N.
  unfold lj_tab_dup. pose proof (w_asize t W) as Wa. pose proof (w_array t W) as Wl.
  assert (X : exists t1, newtab (asize t) (if 0 <? hmask t then lj_fls (hmask t) + 1 else 0) = Ok t1 /\
    asize t1 = asize t /\ length (array t1) = Z.to_nat (asize t) /\ hmask t1 = hmask t /\
    (hmask t = 0 -> node t1 = node t /\ freetop t1 = freetop t)).
  { destruct (newtab (asize t) 0) as [t0|e] eqn:E0; [|lia]. destruct N as (_ & F & A & L).
    destruct (w_size t W) as [(Em & En & Ef)|(h & Hh & Em & El & _)].
    - rewrite Em. change (0 <? 0) with false. exists t0. destruct F as (F1 & F2 & F3).
      do 3 (split; [done|]). split; [done|]. rewrite En, Ef. done.
    - pose proof (pow2_size h ltac:(lia)) as [P1 P2]. rewrite (proj2 (Z.ltb_lt _ _)) by lia. rewrite Em, fls_hmask by lia.
      rewrite newtab_split, E0 by lia. cbn [mbind res_bind].
      destruct (newhpart_ok t0 h ltac:(lia)) as (t1 & -> & M1 & _ & A1 & R1 & _). exists t1.
      split; [done|]. split; [congruence|]. rewrite R1. split; [done|]. split; [done|lia]. }
  destruct X as (t1 & -> & A1 & L1 & M1 & Z1). cbn [mbind res_bind]. eexists. split; [done|].
  set (t2 := if 0 <? hmask t then _ else _).
  assert (F : t2 = mkTab 0 (colo t2) (take (Z.to_nat (asize t)) (array t) ++ drop (Z.to_nat (asize t)) (array t1))
    (asize t) (node t) (hmask t) (freetop t)).
  { unfold t2. destruct (Z.ltb_spec 0 (hmask t)) as [Hm|Hm]; unfold set_freetop, set_node, set_array, set_nomm; cbn; [by rewrite A1, M1|].
    destruct (w_size t W) as [(Em & _)|(h & Hh & Em & _)]; [|pose proof (pow2_size h ltac:(lia)); lia].
    destruct (Z1 Em) as [-> ->]. by rewrite A1, M1. }
  clearbody t2. rewrite F. rewrite (drop_ge (array t1)) by lia. rewrite app_nil_r.
  assert (W' : wf_tab (mkTab 0 (colo t2) (take (Z.to_nat (asize t)) (array t)) (asize t) (node t) (hmask t) (freetop t))).
  { pose proof (wf_take_array t W) as [H1 H2 H3 H4 H5 H6 H7]. by split. }
  split; [done|]. split; [done|]. intros c Hc. symmetry. apply ref_get_ext; try done.
  intros i Hi _. unfold arrayslot. cbn. by rewrite lookup_take_lt by lia.
Qed.

(** ** Growing the array part *)

Lemma reasize_ok t nasize : wf_tab t -> asize t <= nasize + 1 <= LJ_MAX_ASIZE -> 0 <= nasize ->
  exists t', lj_tab_reasize t nasize = Ok t' /\ wf_tab t' /\ asize t' = nasize + 1 /\
  forall c, canon c -> ref_get t' c = ref_get t c.
Proof.
  intros W Hn H0. unfold lj_tab_reasize, lj_tab_resize. pose proof (w_asize t W).
  rewrite u32_id by (change LJ_MAX_ASIZE with 134217729 in *; widths; lia).
  set (hb := if 0 <? hmask t then lj_fls (hmask t) + 1 else 0).
  assert (Hb : 0 <= hb <= LJ_MAX_HBITS /\ (hneed (nasize + 1) (node t) <= hsize hb)%nat).
  { unfold hb. destruct (w_size t W) as [(Em & En & _)|(h & Hh & Em & El & _)].
    - rewrite Em, En. change (0 <? 0) with false. split; [done|]. cbn. rewrite decide_True by done. lia.
    - pose proof (pow2_size h ltac:(lia)). rewrite (proj2 (Z.ltb_lt _ _)) by lia. rewrite Em, fls_hmask by lia.
      split; [lia|]. unfold hsize. rewrite decide_False by lia. rewrite <- El.
      pose proof (lsum_need (nasize + 1) (node t)). pose proof (lsum_le (node t)).
      assert (0 <= lsum (fun c => if in_arrn (nasize + 1) c then 1 else 0) (node t)); [|lia].
      apply lsum_nonneg. intros c. destruct (in_arrn _ c); lia. }
  destruct Hb as [Hb1 Hb2].
  destruct (resize_ok (tab_retry rehash_fuel) t (nasize + 1) hb W ltac:(lia) Hb1) as (t' & E & [R1 R2 R3 R4 R5]).
  { unfold leaving. replace (Z.to_nat (asize t - (nasize + 1))) with 0%nat by lia. rewrite take_0. cbn [aneed]. lia. }
  by exists t'.
Qed.
End Map.
