(* ===== verification/TabWalk.v ===== *)
(** * Tables: traversal and length

    [entries] lists the live pairs in traversal order; a traversal with
    [lj_tab_next] from nil yields exactly them.  [lj_tab_len] returns a
    boundary. *)

From S2P Require Import Prelude Machine Num Tab TabKey TabHash TabInv TabPut TabSize TabResize TabRehash.

#[local] Arguments deq : simpl never.
#[local] Arguments int2num : simpl never.
#[local] Arguments lj_num2int : simpl never.

Section Walk.
Context `{TE : TabEnv}.

(** ** Traversal *)

Definition live (k v : TValue) : option (TValue * TValue) := if decide (v = Tnil) then None else Some (k, v).
Definition array_slots (t : GCtab) : list (option (TValue * TValue)) :=
  (fun i => live (setintV (Z.of_nat i)) (arrayslot t (Z.of_nat i))) <$> seq 0 (Z.to_nat (asize t)).
Definition node_slots (ns : list Node) : list (option (TValue * TValue)) := (fun nd => live (key nd) (val nd)) <$> ns.

(** All slots in traversal order, and the pairs in them. *)
Definition slots (t : GCtab) := array_slots t ++ node_slots (node t).
Definition somes (l : list (option (TValue * TValue))) : list (TValue * TValue) := omap id l.
Definition entries (t : GCtab) : list (TValue * TValue) := somes (slots t).

Lemma live_nil k v : wf_tv v -> live k v = if negb (tvisnil v) then Some (k, v) else None.
Proof. intros H. unfold live. rewrite tvisnil_spec by done. by case_decide; [rewrite bool_decide_eq_true_2|rewrite bool_decide_eq_false_2]. Qed.

Lemma next_hash_head ns : (forall i nd, ns !! i = Some nd -> wf_tv (val nd)) -> next_hash ns = head (somes (node_slots ns)).
Proof.
  induction ns as [|nd ns IH]; intros H; [done|]. cbn [next_hash node_slots fmap list_fmap].
  pose proof (H 0%nat nd eq_refl) as Hv. pose proof (live_nil (key nd) (val nd) Hv) as L.
  unfold somes in *. cbn [omap list_omap]. rewrite L. destruct (negb _); [done|]. apply IH. intros i. apply (H (S i)).
Qed.

Lemma next_array_head t k : wf_tab t -> forall i, 0 <= i -> i + Z.of_nat k = asize t \/ k = 0%nat /\ asize t <= i ->
  next_array t i k = head (somes (drop (Z.to_nat i) (array_slots t))).
Proof.
  intros W. pose proof (w_asize t W) as Wa. change LJ_MAX_ASIZE with 134217729 in Wa.
  assert (Hl : length (array_slots t) = Z.to_nat (asize t)) by (unfold array_slots; by rewrite length_fmap, length_seq).
  induction k as [|k IH]; intros i Hi Hk; cbn [next_array]; [rewrite drop_ge by lia; done|].
  assert (E : array_slots t !! Z.to_nat i = Some (live (setintV i) (arrayslot t i))).
  { unfold array_slots. rewrite list_lookup_fmap, lookup_seq_lt by lia. cbn. by rewrite Nat2Z.id || rewrite Z2Nat.id by lia. }
  rewrite (drop_S _ _ _ E). unfold somes. cbn [omap list_omap]. rewrite live_nil by by apply arrayslot_wf.
  rewrite i32_id by (widths; lia). destruct (negb _); [done|].
  rewrite IH by lia. unfold somes. by replace (Z.to_nat (i + 1)) with (S (Z.to_nat i)) by lia.
Qed.

Lemma slots_length t : length (slots t) = (Z.to_nat (asize t) + length (node t))%nat.
Proof. unfold slots, array_slots, node_slots. by rewrite length_app, !length_fmap, length_seq. Qed.

Lemma small_index t : wf_tab t -> Z.of_nat (length (slots t)) < 2 ^ 31.
Proof.
  intros W. rewrite slots_length. pose proof (w_asize t W). pose proof (node_bound t W).
  change LJ_MAX_ASIZE with 134217729 in *. lia.
Qed.

(** The next pair after the slot [i]. *)
Lemma next_at t k i : wf_tab t -> -1 <= i < Z.of_nat (length (slots t)) -> keyindex t k = Ok (u32 i) ->
  lj_tab_next t k = Ok (head (somes (drop (Z.to_nat (i + 1)) (slots t)))).
Proof.
  intros W Hi E. pose proof (small_index t W). pose proof (w_asize t W). unfold lj_tab_next. rewrite E. cbn [mbind res_bind].
  assert (Ei : u32 (u32 i + 1) = i + 1) by (clear -H Hi; wsolve). rewrite Ei.
  assert (Ha : length (array_slots t) = Z.to_nat (asize t)) by (unfold array_slots; by rewrite length_fmap, length_seq).
  rewrite (next_array_head t) by (try done; lia).
  unfold slots. rewrite drop_app, Ha. unfold somes. rewrite omap_app. fold (somes (drop (Z.to_nat (i + 1)) (array_slots t))).
  destruct (somes (drop (Z.to_nat (i + 1)) (array_slots t))) as [|x l]; [|done]. cbn [head app]. f_equal.
  replace (Z.to_nat (Z.max (i + 1) (asize t) - asize t)) with (Z.to_nat (i + 1) - Z.to_nat (asize t))%nat by lia.
  rewrite next_hash_head.
  - unfold node_slots. by rewrite fmap_drop.
  - intros j nd. rewrite lookup_drop. apply (w_nvals t W).
Qed.

(** The key of a pair leads back to its slot. *)
Lemma keyindex_hash_ok t c n nd : wf_tab t -> node t !! n = Some nd -> key nd = c -> canon c ->
  keyindex_hash t c = Ok (u32 (asize t + Z.of_nat n)).
Proof.
  intros W E K Hc. unfold keyindex_hash. rewrite canon_nonnil by done. cbn [negb].
  destruct (nchain_search_ok t (is_key c) c (w_size t W) (w_hash t W) Hc) as (r & -> & S).
  { intros a Ka. by apply is_key_spec. }
  cbn [mbind res_bind]. destruct r as [m|]; cbn in S; [|by destruct (S n nd)].
  destruct S as (md & Em & Km). rewrite (h_uniq _ _ (w_hash t W) _ _ _ _ Em E); [done| |congruence].
  rewrite Km. by intros ->; destruct Hc.
Qed.

Lemma keyindex_array t i : wf_tab t -> 0 <= i < asize t -> keyindex t (setintV i) = Ok (u32 i).
Proof.
  intros W Hi. pose proof (asize_i32 t i W Hi) as Ri. unfold setintV, keyindex.
  destruct LJ_DUALNUM.
  - rewrite (asize_u32 t i W Hi). by rewrite (proj2 (Z.ltb_lt i (asize t))) by lia.
  - rewrite num2int_int2num, deq_int_refl by done. rewrite (asize_u32 t i W Hi).
    by rewrite (proj2 (Z.ltb_lt i (asize t))) by lia.
Qed.

Lemma keyindex_node t n nd : wf_tab t -> node t !! n = Some nd -> val nd <> Tnil ->
  keyindex t (key nd) = Ok (u32 (asize t + Z.of_nat n)).
Proof.
  intros W E V. pose proof (proj2 (hash_pairs t n nd W E) V) as Hc.
  pose proof (keyindex_hash_ok t _ n nd W E eq_refl Hc) as K. unfold keyindex.
  destruct (key nd) as [| | | | | | |u] eqn:Ek; try done; [by destruct Hc|].
  destruct ((u32 (lj_num2int u) <? asize t) && deq u (int2num (lj_num2int u))) eqn:I; [|done]. exfalso.
  apply andb_true_iff in I as [I D]. destruct Hc as [[Hu _] [_ Hz]]. apply deq_int_canon in D; [|done..].
  apply (w_noint t W n nd (lj_num2int u) E); [|rewrite Ek; unfold int_key; by rewrite <- D].
  apply inarray_spec; [done|apply num2int_i32|done].
Qed.

Lemma slot_key t j k v : wf_tab t -> slots t !! j = Some (Some (k, v)) -> keyindex t k = Ok (u32 (Z.of_nat j)).
Proof.
  intros W E. pose proof (w_asize t W) as Wa. unfold slots in E. assert (Ha : length (array_slots t) = Z.to_nat (asize t)) by (unfold array_slots; by rewrite length_fmap, length_seq).
  apply lookup_app_Some in E as [E|[Hj E]].
  - pose proof (lookup_lt_Some _ _ _ E). unfold array_slots in E. rewrite list_lookup_fmap, lookup_seq_lt in E by lia. cbn in E.
    unfold live in E. case_decide; [done|]. injection E as <- <-. apply keyindex_array; [done|lia].
  - unfold node_slots in E. rewrite list_lookup_fmap, Ha in E. rewrite Ha in Hj. destruct (node t !! _) as [nd|] eqn:En; [|done]. cbn in E.
    unfold live in E. case_decide as V; [done|]. injection E as <- <-. rewrite (keyindex_node t _ nd W En V).
    f_equal. f_equal. lia.
Qed.

(** A complete traversal from key [k], as [pairs()] does it. *)
Fixpoint collect (fuel : nat) (t : GCtab) (k : TValue) : tres (list (TValue * TValue)) :=
  match fuel with
  | O => Err TAB_FUEL
  | S f =>
      r ← lj_tab_next t k;
      match r with
      | None => Ok []
      | Some (k', v) => l ← collect f t k'; Ok ((k', v) :: l)
      end
  end.

Lemma somes_head l x r : somes l = x :: r -> exists j, l !! j = Some (Some x) /\ somes (drop (S j) l) = r.
Proof.
  unfold somes. induction l as [|[y|] l IH]; cbn; [done|..].
  - intros [= -> <-]. by exists 0%nat.
  - intros E. destruct (IH E) as (j & Ej & Er). by exists (S j).
Qed.

Lemma collect_ok t fuel : wf_tab t -> forall k i, -1 <= i < Z.of_nat (length (slots t)) -> keyindex t k = Ok (u32 i) ->
  (length (somes (drop (Z.to_nat (i + 1)) (slots t))) < fuel)%nat ->
  collect fuel t k = Ok (somes (drop (Z.to_nat (i + 1)) (slots t))).
Proof.
  intros W. induction fuel as [|f IH]; intros k i Hi E Hf; [lia|]. cbn [collect].
  rewrite (next_at t k i W Hi E). cbn [mbind res_bind].
  destruct (somes (drop (Z.to_nat (i + 1)) (slots t))) as [|[k' v] r] eqn:Es; [done|]. cbn [head].
  destruct (somes_head _ _ _ Es) as (j & Ej & Er). rewrite lookup_drop in Ej. rewrite drop_drop in Er.
  set (m := (Z.to_nat (i + 1) + j)%nat) in *.
  assert (Hm : (Z.to_nat (Z.of_nat m + 1) = Z.to_nat (i + 1) + S j)%nat) by lia.
  cbn [length] in Hf. rewrite (IH k' (Z.of_nat m)).
  - cbn [mbind res_bind]. by rewrite Hm, Er.
  - apply lookup_lt_Some in Ej. lia.
  - by eapply slot_key.
  - rewrite Hm, Er. lia.
Qed.

Lemma collect_all t : wf_tab t -> collect (S (length (entries t))) t Tnil = Ok (entries t).
Proof.
  intros W. unfold entries. rewrite <- (drop_0 (slots t)) at 2. change 0%nat with (Z.to_nat (-1 + 1)).
  apply collect_ok; [done|lia|done|]. cbn [Z.add Z.to_nat Z.pos_sub]. rewrite drop_0. lia.
Qed.

(** ** The pairs of a traversal are those of the map *)

Lemma norm_setint i : is_i32 i -> norm (setintV i) = Some (int_key i).
Proof.
  intros Hi. unfold setintV. destruct LJ_DUALNUM; [done|]. apply (norm_canon (int_key i)). by apply canon_int.
Qed.

Lemma entries_lookup t k v : wf_tab t -> (k, v) ∈ entries t <->
  v <> Tnil /\ ((exists i, 0 <= i < asize t /\ k = setintV i /\ arrayslot t i = v) \/ has (node t) k v).
Proof.
  intros W. unfold entries, somes. rewrite list_elem_of_omap. unfold slots. split.
  - intros (x & Hx & Ex). cbn in Ex. subst x. apply elem_of_app in Hx as [Hx|Hx].
    + apply list_elem_of_fmap in Hx as (i & Ei & Hi). apply elem_of_seq in Hi. unfold live in Ei. case_decide; [done|].
      injection Ei as -> ->. split; [done|]. left. exists (Z.of_nat i). split; [lia|done].
    + apply list_elem_of_fmap in Hx as (nd & Ei & Hi). unfold live in Ei. case_decide; [done|]. injection Ei as -> ->.
      split; [done|]. right. apply list_elem_of_lookup in Hi as [i Hi]. by exists i, nd.
  - intros [V [(i & Hi & -> & E)|(i & nd & E & <- & <- & N)]].
    + exists (Some (setintV i, v)). split; [|done]. apply elem_of_app. left.
      apply list_elem_of_fmap. exists (Z.to_nat i). rewrite Z2Nat.id by lia. split; [|apply elem_of_seq; lia].
      unfold live. rewrite E. by rewrite decide_False.
    + exists (Some (key nd, val nd)). split; [|done]. apply elem_of_app. right.
      apply list_elem_of_fmap. exists nd. split; [|by apply list_elem_of_lookup; exists i].
      unfold live. by rewrite decide_False.
Qed.

Lemma entries_get t c v : wf_tab t -> canon c -> v <> Tnil ->
  ref_get t c = v <-> exists k, (k, v) ∈ entries t /\ norm k = Some c.
Proof.
  intros W Hc Nv. rewrite ref_get_live by done. split.
  - intros [(i & Hi & -> & E)|Hh].
    + exists (setintV i). split; [apply entries_lookup; [done|]; split; [done|]; left; by exists i|].
      by apply norm_setint, (asize_i32 t).
    + exists c. split; [apply entries_lookup; [done|]; split; [done|by right]|by apply norm_canon].
  - intros (k & Hk & N). apply entries_lookup in Hk as [_ [(i & Hi & -> & E)|Hh]]; [| |done].
    + left. exists i. split; [done|]. split; [|done]. rewrite norm_setint in N by by apply (asize_i32 t). by injection N as <-.
    + right. pose proof Hh as (i & nd & E & K & V & _). assert (Ck : canon k).
      { rewrite <- K. apply (hash_pairs t i nd W E). congruence. }
      rewrite norm_canon in N by done. by injection N as <-.
Qed.

(** No pair occurs twice: the stored keys of the traversal are distinct. *)
Lemma slot_norm t j k v : wf_tab t -> slots t !! j = Some (Some (k, v)) -> exists c, norm k = Some c /\ canon c /\
  (forall j' k' v', slots t !! j' = Some (Some (k', v')) -> norm k' = Some c -> j = j').
Proof.
  intros W E.
  assert (X : forall j k v, slots t !! j = Some (Some (k, v)) -> exists c, norm k = Some c /\ canon c /\
    ((exists i, 0 <= i < asize t /\ c = int_key i /\ j = Z.to_nat i) \/
     (exists nd, node t !! (j - Z.to_nat (asize t))%nat = Some nd /\ (Z.to_nat (asize t) <= j)%nat /\ key nd = c))).
  { clear j k v E. intros j k v E. unfold slots in E.
    assert (Ha : length (array_slots t) = Z.to_nat (asize t)) by (unfold array_slots; by rewrite length_fmap, length_seq).
    apply lookup_app_Some in E as [E|[Hj E]].
    - pose proof (lookup_lt_Some _ _ _ E). unfold array_slots in E. rewrite list_lookup_fmap, lookup_seq_lt in E by lia. cbn in E.
      unfold live in E. case_decide; [done|]. injection E as <- <-.
      assert (Ri : is_i32 (Z.of_nat j)) by (apply (asize_i32 t); [done|lia]).
      exists (int_key (Z.of_nat j)). split; [by apply norm_setint|]. split; [by apply canon_int|].
      left. exists (Z.of_nat j). split; [lia|]. split; [done|lia].
    - unfold node_slots in E. rewrite list_lookup_fmap in E. rewrite Ha in *. destruct (node t !! _) as [nd|] eqn:En; [|done]. cbn in E.
      unfold live in E. case_decide as V; [done|]. injection E as <- <-. pose proof (proj2 (hash_pairs t _ nd W En) V) as Ck.
      exists (key nd). split; [by apply norm_canon|]. split; [done|]. right. by exists nd. }
  destruct (X _ _ _ E) as (c & Nk & Cc & D). exists c. split; [done|]. split; [done|]. intros j' k' v' E' Nk'.
  destruct (X _ _ _ E') as (c' & Nk2 & _ & D'). rewrite Nk' in Nk2. injection Nk2 as <-.
  destruct D as [(i & Hi & Ei & ->)|(nd & En & Hj & Kn)], D' as [(i' & Hi' & Ei' & ->)|(nd' & En' & Hj' & Kn')].
  - rewrite Ei in Ei'. by apply (int_key_inj t) in Ei' as ->.
  - destruct (w_noint t W _ _ i En' Hi). congruence.
  - destruct (w_noint t W _ _ i' En Hi'). congruence.
  - assert (G : key nd <> Tnil) by (rewrite Kn; by intros ->; destruct Cc).
    pose proof (h_uniq _ _ (w_hash t W) _ _ _ _ En En' G). rewrite Kn, Kn' in H. specialize (H eq_refl). lia.
Qed.

Lemma somes_nodup l : (forall j k v, l !! j = Some (Some (k, v)) -> exists c, norm k = Some c /\
    forall j' k' v', l !! j' = Some (Some (k', v')) -> norm k' = Some c -> j = j') ->
  NoDup ((fun kv => norm kv.1) <$> somes l).
Proof.
  unfold somes. induction l as [|[[k v]|] l IH]; intros H; cbn.
  - constructor.
  - constructor.
    + intros Hin. apply list_elem_of_fmap in Hin as ([k' v'] & Ek & Hin). cbn in Ek.
      apply list_elem_of_omap in Hin as (x & Hx & Ex). cbn in Ex. subst x. apply list_elem_of_lookup in Hx as [j Hx].
      destruct (H 0%nat k v eq_refl) as (c & Nk & U). rewrite Nk in Ek. by pose proof (U (S j) k' v' Hx (eq_sym Ek)).
    + apply IH. intros j k1 v1 E. destruct (H (S j) k1 v1 E) as (c & Nk & U). exists c. split; [done|].
      intros j' k' v' E' N'. by injection (U (S j') k' v' E' N').
  - apply IH. intros j k1 v1 E. destruct (H (S j) k1 v1 E) as (c & Nk & U). exists c. split; [done|].
    intros j' k' v' E' N'. by injection (U (S j') k' v' E' N').
Qed.

Lemma entries_nodup t : wf_tab t -> NoDup ((fun kv => norm kv.1) <$> entries t).
Proof.
  intros W. apply somes_nodup. intros j k v E. destruct (slot_norm t j k v W E) as (c & Nk & _ & U). by exists c.
Qed.

(** ** Length *)

(** The integer key [j] has a value. *)
Definition has_int (t : GCtab) (j : Z) : Prop := ref_get t (int_key j) <> Tnil.

(** A boundary: [n] is zero or present and [n + 1] is absent. *)
Definition boundary (t : GCtab) (n : Z) : Prop := (n = 0 \/ has_int t n) /\ ~ has_int t (n + 1).

Lemma ref_get_wf t c : wf_tab t -> canon c -> wf_tv (ref_get t c).
Proof.
  intros W Hc. destruct (decide (ref_get t c = Tnil)) as [->|N]; [done|].
  pose proof (proj1 (ref_get_live t c _ W Hc N) eq_refl) as [(i & Hi & _ & E)|(i & nd & E & _ & V & _)].
  - rewrite <- E. by apply arrayslot_wf.
  - rewrite <- V. by eapply w_nvals.
Qed.

Lemma present_ok t j : wf_tab t -> 0 <= j < 2 ^ 31 -> exists b : bool, present t j = Ok b /\ if b then has_int t j else ~ has_int t j.
Proof.
  intros W Hj. assert (Hi : is_i32 j) by (widths; lia). unfold present. rewrite i32_id by done.
  destruct (getint_ok t j W Hi) as (o & -> & G). cbn [mbind res_bind].
  pose proof (ref_get_wf t (int_key j) W (canon_int j Hi)) as Wv. unfold has_int.
  generalize dependent (ref_get t (int_key j)). intros w G Wv.
  destruct o as [v|]; cbn in G; subst w.
  - rewrite tvisnil_spec by done. eexists. split; [done|]. case_bool_decide; cbn; [by intros X|done].
  - exists false. split; [done|]. by intros X.
Qed.

Lemma mid_bounds i j : 0 <= i -> 1 < j - i -> i + j < 2 ^ 32 -> i < u32 (i + j) / 2 < j /\
  2 * (u32 (i + j) / 2) <= i + j <= 2 * (u32 (i + j) / 2) + 1.
Proof. intros Hi Hj Hs. rewrite u32_id by (widths; lia). Z.div_mod_to_equations. lia. Qed.

Lemma binary_search_ok t fuel : wf_tab t -> forall i j, 0 <= i < j -> j < 2 ^ 31 -> j - i <= 2 ^ (Z.of_nat fuel - 1) ->
  (i = 0 \/ has_int t i) -> ~ has_int t j ->
  exists n, binary_search t fuel i j = Ok n /\ boundary t n /\ i <= n < j.
Proof.
  intros W. induction fuel as [|f IH]; intros i j Hi Hj Hd Pi Pj.
  { cbn in Hd. lia. }
  cbn [binary_search]. destruct (Z.ltb_spec 1 (j - i)) as [Hlt|Hge].
  - destruct (mid_bounds i j) as [Hm Hm']; [lia..|]. cbn zeta. set (m := u32 (i + j) / 2) in *.
    assert (Hf : 2 ^ (Z.of_nat (S f) - 1) = 2 * 2 ^ (Z.of_nat f - 1) /\ (1 <= f)%nat).
    { destruct f as [|f]; [cbn in Hd; lia|]. split; [|lia]. rewrite <- Z.pow_succ_r by lia. f_equal. lia. }
    destruct Hf as [Hf Hf1].
    destruct (present_ok t m W ltac:(lia)) as (b & -> & Pm). cbn [mbind res_bind]. destruct b.
    + destruct (IH m j) as (n & E & B & R); [lia|lia|lia|by right|done|]. exists n. split; [done|]. split; [done|lia].
    + destruct (IH i m) as (n & E & B & R); [lia|lia|lia|done|done|]. exists n. split; [done|]. split; [done|lia].
  - exists i. split; [done|]. split; [|lia]. split; [done|]. by replace (i + 1) with j by lia.
Qed.

Lemma present_bound t n : wf_tab t -> 0 <= n < 2 ^ 31 -> (forall i, 1 <= i <= n -> has_int t i) ->
  n <= asize t + Z.of_nat (length (node t)).
Proof.
  intros W Hn H. set (ks := (fun i => Some (int_key (Z.of_nat i))) <$> seq 1 (Z.to_nat n)).
  assert (S : ks ⊆+ ((fun kv => norm kv.1) <$> entries t)).
  { apply NoDup_submseteq.
    - apply NoDup_fmap_2_strong; [|apply NoDup_seq]. intros x y Hx Hy [= E].
      apply elem_of_seq in Hx, Hy. apply int2num_inj in E; [lia|widths; lia..].
    - intros o Ho. apply list_elem_of_fmap in Ho as (i & -> & Hi). apply elem_of_seq in Hi.
      specialize (H (Z.of_nat i) ltac:(lia)).
      assert (Ci : canon (int_key (Z.of_nat i))) by (apply canon_int; widths; lia).
      destruct (proj1 (entries_get t _ _ W Ci H) eq_refl) as (k & Hk & Nk).
      apply list_elem_of_fmap. exists (k, ref_get t (int_key (Z.of_nat i))). split; [by symmetry|exact Hk]. }
  apply submseteq_length in S. unfold ks in S. rewrite !length_fmap, length_seq in S.
  assert (L : (length (entries t) <= length (slots t))%nat).
  { unfold entries, somes. generalize (slots t) as l. induction l as [|[x|] l IH]; cbn; lia. }
  rewrite slots_length in L. pose proof (w_asize t W). lia.
Qed.

Lemma linear_search_ok t fuel : wf_tab t -> forall i, 1 <= i -> (forall j, 1 <= j < i -> has_int t j) ->
  i <= asize t + Z.of_nat (length (node t)) + 1 ->
  asize t + Z.of_nat (length (node t)) + 2 - i <= Z.of_nat fuel ->
  exists n, linear_search t fuel i = Ok n /\ boundary t n /\ 0 <= n.
Proof.
  intros W. pose proof (small_index t W) as Sm. rewrite slots_length in Sm. pose proof (w_asize t W) as Wa.
  change LJ_MAX_ASIZE with 134217729 in Wa. pose proof (node_bound t W) as Nb.
  induction fuel as [|f IH]; intros i Hi P Hs Hf; [lia|]. cbn [linear_search].
  destruct (present_ok t i W ltac:(lia)) as (b & -> & Pi). cbn [mbind res_bind]. destruct b.
  - rewrite u32_id by (widths; lia).
    assert (P' : forall j, 1 <= j < i + 1 -> has_int t j) by (intros j Hj; destruct (decide (j = i)) as [->|]; [done|apply P; lia]).
    apply IH; [lia|done| |lia]. pose proof (present_bound t i W ltac:(lia)) as B.
    enough (i <= asize t + Z.of_nat (length (node t))) by lia. apply B. intros j Hj. apply P'. lia.
  - rewrite u32_id by (widths; lia). exists (i - 1). split; [done|]. split; [|lia]. split; [|by replace (i - 1 + 1) with i by lia].
    destruct (decide (i = 1)) as [->|]; [by left|right]. apply P. lia.
Qed.

Lemma unbound_loop_ok t fuel : wf_tab t -> forall i j, 0 <= i < j -> j < 2 ^ 31 - 2 -> 2 ^ 32 <= j * 2 ^ Z.of_nat fuel ->
  (i = 0 \/ has_int t i) -> exists n, unbound_loop t fuel i j = Ok n /\ boundary t n /\ 0 <= n.
Proof.
  intros W. pose proof (w_asize t W) as Wa. induction fuel as [|f IH]; intros i j Hi Hj Hf Pi.
  { cbn [Z.of_nat] in Hf. change (2 ^ 0) with 1 in Hf. lia. }
  cbn [unbound_loop]. destruct (present_ok t j W ltac:(lia)) as (b & -> & Pj). cbn [mbind res_bind]. destruct b.
  - cbn zeta. rewrite u32_id by (widths; lia). unfold INT_MAX.
    destruct (Z.ltb_spec (0x7fffffff - 2) (j * 2)).
    + apply linear_search_ok; [done|lia|lia|lia|lia].
    + apply IH; [lia|lia| |by right]. rewrite Nat2Z.inj_succ, Z.pow_succ_r in Hf by lia. lia.
  - destruct (binary_search_ok t 32 W i j) as (n & E & B & R); try done; [lia|cbn; lia|]. exists n. split; [done|]. split; [done|lia].
Qed.

Lemma array_search_ok t fuel : wf_tab t -> forall i j, 1 <= i < j -> j <= asize t -> j - i <= 2 ^ (Z.of_nat fuel - 1) ->
  (i = 1 \/ arrayslot t (i - 1) <> Tnil) -> arrayslot t (j - 1) = Tnil ->
  exists n, array_search t fuel i j = Ok n /\ boundary t n /\ 0 <= n.
Proof.
  intros W. pose proof (w_asize t W) as Wa. change LJ_MAX_ASIZE with 134217729 in Wa.
  induction fuel as [|f IH]; intros i j Hi Hj Hd Pi Pj; [cbn in Hd; lia|].
  cbn [array_search]. destruct (Z.ltb_spec 1 (j - i)) as [Hlt|Hge].
  - destruct (mid_bounds i j) as [Hm Hm']; [lia..|]. cbn zeta. set (m := u32 (i + j) / 2) in *.
    assert (Hf : 2 ^ (Z.of_nat (S f) - 1) = 2 * 2 ^ (Z.of_nat f - 1) /\ (1 <= f)%nat).
    { destruct f as [|f]; [cbn in Hd; lia|]. split; [|lia]. rewrite <- Z.pow_succ_r by lia. f_equal. lia. }
    rewrite tvisnil_spec by by apply arrayslot_wf. case_bool_decide as E.
    + apply IH; [lia|lia|lia|done|done].
    + apply IH; [lia|lia|lia|by right|done].
  - exists (i - 1). split; [done|]. split; [|lia]. unfold boundary, has_int. split.
    + destruct Pi as [->|Pi]; [by left|right]. by rewrite ref_get_arr by (try done; lia).
    + replace (i - 1 + 1) with (j - 1) by lia. rewrite ref_get_arr by (try done; lia). by intros X.
Qed.

(** [lj_tab_len] returns a boundary, on every table. *)
Lemma len_ok t : wf_tab t -> exists n, lj_tab_len t = Ok n /\ boundary t n /\ 0 <= n.
Proof.
  intros W. pose proof (w_asize t W) as Wa. unfold lj_tab_len. cbn zeta.
  destruct ((1 <? asize t) && tvisnil (arrayslot t (asize t - 1))) eqn:E.
  - apply andb_true_iff in E as [E1 E2]. rewrite tvisnil_spec in E2 by by apply arrayslot_wf. apply bool_decide_eq_true in E2.
    change LJ_MAX_ASIZE with 134217729 in Wa. apply array_search_ok; [done|lia|lia|cbn; lia|by left|done].
  - set (j := if negb (asize t =? 0) then asize t - 1 else asize t).
    assert (Hj : 0 <= j /\ j = Z.max 0 (asize t - 1)) by (unfold j; destruct (Z.eqb_spec (asize t) 0); cbn [negb]; lia).
    assert (Pj : j = 0 \/ has_int t j).
    { destruct (decide (j = 0)); [by left|right]. unfold has_int. rewrite ref_get_arr by (try done; lia).
      rewrite tvisnil_spec in E by by apply arrayslot_wf. apply andb_false_iff in E as [E|E]; [lia|].
      apply bool_decide_eq_false in E. by replace j with (asize t - 1) by lia. }
    change LJ_MAX_ASIZE with 134217729 in Wa. destruct (Z.leb_spec (hmask t) 0) as [Hm|Hm].
    + exists j. split; [done|]. split; [|lia]. split; [done|]. unfold has_int. intros X. apply X.
      destruct (w_size t W) as [(_ & En & _)|(h & Hh & Em & _)]; [|pose proof (pow2_size h ltac:(lia)); lia].
      assert (Cj : canon (int_key (j + 1))) by (apply canon_int; widths; lia).
      rewrite ref_get_hash; [rewrite En; cbn; by case_decide|done..|].
      intros (i & Hi & Ei). injection Ei as Ei. apply int2num_inj in Ei; [lia|widths; lia..].
    + unfold unbound_search. rewrite u32_id by (widths; lia). apply unbound_loop_ok; [done|lia|lia|cbn; lia|done].
Qed.
End Walk.
