(* ===== verification/TabProps.v ===== *)
(** * Tables: the properties

    What [lj_tab.c] promises, over all well-formed tables, with concrete
    witnesses, and a run in which [lj_tab_newkey] loses a key. *)

From S2P Require Import Prelude Machine Num Tab TabKey TabHash TabInv TabPut TabSize TabResize TabRehash TabMap TabWalk.

(** ** Operations and the map they implement *)

Inductive tab_op :=
| OpSet (k v : TValue)
| OpClear
| OpDup
| OpRehash.

Definition op_wf (o : tab_op) : Prop := match o with OpSet k v => wf_tv k /\ wf_tv v | _ => True end.

Section Props.
Context `{TE : TabEnv}.

Definition tab_exec (t : GCtab) (o : tab_op) : tres GCtab :=
  match o with
  | OpSet k v => tab_put t k v
  | OpClear => Ok (lj_tab_clear t)
  | OpDup => lj_tab_dup t
  | OpRehash => lj_tab_rehash t
  end.

Fixpoint tab_run (t : GCtab) (os : list tab_op) : tres GCtab :=
  match os with [] => Ok t | o :: os => t' ← tab_exec t o; tab_run t' os end.

(** The abstract table: a function from stored keys to values. *)
Definition map_put (m : TValue -> TValue) (c v : TValue) : TValue -> TValue :=
  fun c' => if decide (c' = c) then v else m c'.
Definition map_get (m : TValue -> TValue) (k : TValue) : TValue :=
  match norm k with Some c => m c | None => Tnil end.
Definition map_exec (m : TValue -> TValue) (o : tab_op) : TValue -> TValue :=
  match o with
  | OpSet k v => match norm k with Some c => map_put m c v | None => m end
  | OpClear => fun _ => Tnil
  | OpDup | OpRehash => m
  end.
Definition map_run (os : list tab_op) : TValue -> TValue := fold_left map_exec os (fun _ => Tnil).

(** The only errors of a table operation. *)
Definition usage_error (e : TabErr) : Prop := e = TABOV \/ e = NILIDX \/ e = NANIDX.

(** The table represents the map. *)
Definition reps (t : GCtab) (m : TValue -> TValue) : Prop :=
  wf_tab t /\ forall c, canon c -> ref_get t c = m c.

Lemma reps_get t m k : reps t m -> wf_tv k -> lj_tab_get t k = Ok (map_get m k).
Proof.
  intros [W R] Hk. rewrite get_ref by done. unfold map_get. destruct (norm k) as [c|] eqn:N; [|done].
  by rewrite R by by eapply canon_norm.
Qed.

Lemma exec_reps t m o : reps t m -> op_wf o ->
  match tab_exec t o with Ok t' => reps t' (map_exec m o) | Err e => usage_error e end.
Proof.
  intros [W R] Ho. destruct o as [k v| | |]; cbn [tab_exec map_exec].
  - destruct Ho as [Hk Hv]. pose proof (put_total t k v W Hk Hv) as P. destruct (norm k) as [c|].
    + destruct P as [-> |(t' & -> & W' & G)]; [by left|]. split; [done|]. intros c' Hc'.
      rewrite G by done. unfold map_put. case_decide; [done|]. by apply R.
    + rewrite P. case_decide; [right; by left|right; by right].
  - destruct (clear_ok t W) as (W' & _ & G). by split.
  - destruct (dup_ok t W) as (t' & -> & W' & _ & G). split; [done|]. intros c Hc. rewrite G by done. by apply R.
  - unfold lj_tab_rehash, rehashtab.
    destruct (rehash_ok (tab_retry rehash_fuel) t Tnil W (or_introl eq_refl)) as [-> |(t' & n & h & -> & [W' _ _ _ G] & _)]; [by left|].
    split; [done|]. intros c Hc. rewrite G by done. by apply R.
Qed.

Lemma run_reps os : forall t m, reps t m -> Forall op_wf os ->
  match tab_run t os with Ok t' => reps t' (fold_left map_exec os m) | Err e => usage_error e end.
Proof.
  induction os as [|o os IH]; intros t m R H; [done|]. apply Forall_cons_1 in H as [Ho Hos].
  cbn [tab_run fold_left]. pose proof (exec_reps t m o R Ho) as E. destruct (tab_exec t o) as [t'|e]; [|done].
  by apply IH.
Qed.

(** C2: a table made by [lj_tab_new] and used by any sequence of stores
    ([lj_tab_set] and a copy through the slot), clears, copies and rehashes
    is a map: it keeps its invariant, [lj_tab_get] returns what was stored
    last under an equal key, and the only failures are a nil or NaN key and
    a table that grows too big - no loop runs out and no access is out of
    range. *)
Theorem lj_tab_refines_map asz hbits os : 0 <= asz -> 0 <= hbits -> Forall op_wf os ->
  match (t ← lj_tab_new asz hbits; tab_run t os) with
  | Ok t' => wf_tab t' /\ forall k, wf_tv k -> lj_tab_get t' k = Ok (map_get (map_run os) k)
  | Err e => usage_error e
  end.
Proof.
  intros Ha Hh Ho. pose proof (new_ok asz hbits Ha Hh) as N. destruct (lj_tab_new asz hbits) as [t|e]; cbn [mbind res_bind].
  - destruct N as (_ & _ & W & _ & G). pose proof (run_reps os t (fun _ => Tnil) (conj W G) Ho) as R.
    destruct (tab_run t os) as [t'|e]; [|done]. split; [apply R|]. intros k Hk. by apply reps_get.
  - left. by destruct N.
Qed.

(** [lj_tab_get] finds a key exactly when a scan of the array slot or of
    all nodes finds its stored form: hashing, chains and the special cases
    for strings and integers change nothing. *)
Theorem lj_tab_get_scan t k : wf_tab t -> wf_tv k ->
  lj_tab_get t k = Ok (match norm k with Some c => ref_get t c | None => Tnil end).
Proof. apply get_ref. Qed.

(** C29: storing under a key always ends, with the slot of that key or one
    of three errors: a nil key, a NaN key, a table that would be too big.
    One rehash is enough for a full table: the model allows no second one
    ([rehash_fuel]), neither for the pairs that are moved nor for the key,
    and would give [TAB_FUEL]. *)
Theorem lj_tab_set_ends t k : wf_tab t -> wf_tv k ->
  match lj_tab_set t k with
  | Ok (t', s) => exists c, norm k = Some c /\ ref_get (slot_put t' s Ttrue) c = Ttrue /\ wf_tab (slot_put t' s Ttrue)
  | Err TABOV => norm k <> None
  | Err NILIDX => k = Tnil
  | Err NANIDX => norm k = None /\ k <> Tnil
  | Err _ => False
  end.
Proof.
  intros W Hk. pose proof (set_total t k W Hk) as S. destruct (norm k) as [c|] eqn:N.
  - pose proof (canon_norm k c Hk N) as Hc. destruct S as [-> |(t' & s & -> & S)]; [done|].
    exists c. destruct (S Ttrue I) as [W' G]. split; [done|]. split; [|done]. rewrite G by done. by rewrite decide_True.
  - rewrite S. by case_decide.
Qed.

(** [lj_tab_resize] to sizes that hold all pairs (the values that leave
    the array and the hash pairs whose key stays out of it) succeeds and
    keeps every pair. *)
Theorem lj_tab_resize_keeps t n hbits : wf_tab t -> 0 <= n <= LJ_MAX_ASIZE -> 0 <= hbits <= LJ_MAX_HBITS ->
  (aneed (leaving t n) + hneed n (node t) <= hsize hbits)%nat ->
  exists t', lj_tab_resize t n hbits = Ok t' /\ wf_tab t' /\ asize t' = n /\
    forall k, wf_tv k -> lj_tab_get t' k = lj_tab_get t k.
Proof.
  intros W Hn Hh Hc. destruct (resize_ok (tab_retry rehash_fuel) t n hbits W Hn Hh Hc) as (t' & E & [W' A' _ _ G]).
  exists t'. split; [done|]. split; [done|]. split; [done|]. intros k Hk. rewrite !get_ref by done.
  destruct (norm k) as [c|] eqn:N; [|done]. by rewrite G by by eapply canon_norm.
Qed.

(** C21: a traversal with [lj_tab_next] from nil ends after one call per live
    pair and yields every live pair exactly once. *)
Theorem lj_tab_next_complete t : wf_tab t -> exists l, collect (S (length l)) t Tnil = Ok l /\
  NoDup ((fun kv => norm kv.1) <$> l) /\
  forall c v, canon c -> v <> Tnil -> ref_get t c = v <-> exists k, (k, v) ∈ l /\ norm k = Some c.
Proof.
  intros W. exists (entries t). split; [by apply collect_all|]. split; [by apply entries_nodup|].
  intros c v Hc Nv. by apply entries_get.
Qed.

(** C31: [lj_tab_len] ends on every table and returns a boundary: zero or an
    integer key with a value, whose successor has none. *)
Theorem lj_tab_len_boundary t : wf_tab t -> exists n, lj_tab_len t = Ok n /\ boundary t n /\ 0 <= n.
Proof. apply len_ok. Qed.

(** [bestasize] never reads outside the bins and picks the largest bin
    [j] that has keys and with which more than half of [2 ^ j] slots are
    used; the array gets [2 ^ (j + 1) + 1] slots, or none if no bin
    qualifies. *)
Theorem bestasize_best bins : bins_ok bins -> exists na sz, bestasize bins (sumz bins) = Ok (na, sz) /\
  ((na = 0 /\ sz = 0 /\ forall j, ~ good bins 0 0 j) \/
   (exists j, good bins 0 0 j /\ (forall j', (j < j')%nat -> ~ good bins 0 0 j') /\
      na = psum bins (Z.of_nat j) /\ sz = 2 ^ (Z.of_nat j + 1) + 1)).
Proof.
  intros [Hl Hf]. destruct (bestasize_loop_ok bins Hf (sumz bins) 0 0 0 0) as (na & sz & E & R); [done..|].
  exists na, sz. split; [exact E|]. destruct R as [R|(j & G & N & E1 & E2)]; [by left|right].
  exists j. split; [done|]. split; [done|]. split; [|done]. rewrite E1. unfold psum. by rewrite Nat2Z.id.
Qed.

(** Rehashing before an insertion always makes room for the new key,
    in the array or in the hash part, and keeps the pairs, or the table
    would be too big. *)
Theorem rehashtab_makes_room t ek : wf_tab t -> canon ek ->
  match rehashtab t ek with
  | Ok t' => wf_tab t' /\ (in_arr t' ek \/ (nkeyed (node t') < cap t')%nat) /\
             forall k, wf_tv k -> lj_tab_get t' k = lj_tab_get t k
  | Err e => e = TABOV
  end.
Proof.
  intros W Hc. unfold rehashtab.
  destruct (rehash_ok (tab_retry rehash_fuel) t ek W (or_intror Hc)) as [-> |(t' & n & h & -> & [W' _ _ _ G] & R)]; [done|].
  split; [done|]. split; [by apply R|]. intros k Hk. rewrite !get_ref by done.
  destruct (norm k) as [c|] eqn:N; [|done]. by rewrite G by by eapply canon_norm.
Qed.
End Props.

(** ** Concrete tables *)

(** An environment with a given string hash; fresh memory holds garbage. *)
Definition hash_env (h : Z -> Z) : TabEnv := {|
  LJ_TARGET_X86ORX64 := true; LJ_DUALNUM := false; strhash := h;
  raw_node := fun _ => mkNode Ttrue Ttrue (Some 7%nat); raw_tv := fun _ => Ttrue
|}.
Definition env1 : TabEnv := hash_env (fun s => if s =? 0x1020 then 3 else 0).
Definition env2 : TabEnv := hash_env (fun _ => 0).

(** The number [i + 0.5]. *)
Definition num_half (i : Z) : TValue := Tnum (dadd (int2num i) 0x3fe0000000000000).

Definition get_ok (r : tres GCtab) : GCtab := match r with Ok t => t | Err _ => mkTab 0 0 [] 0 [nil_node] 0 0 end.

(** [{true, true, [1.5] = true, x = false}], built by stores. *)
Definition demo_ops : list tab_op :=
  [OpSet (int_key 1) Ttrue; OpSet (Tint 2) Ttrue; OpSet (num_half 1) Ttrue; OpSet (Tstr 0x1000) Tfalse;
   OpSet (int_key 3) Ttrue; OpSet (int_key 3) Tnil].
Definition demo : GCtab := get_ok (t ← @lj_tab_new env1 0 1; @tab_run env1 t demo_ops).

Lemma demo_ops_wf : Forall op_wf demo_ops.
Proof.
  assert (H : forall i, is_i32 i -> wf_tv (int_key i)) by (intros i Hi; apply (canon_int i Hi)).
  assert (H1 : wf_tv (num_half 1)) by by vm_compute.
  repeat apply Forall_cons_2; try apply Forall_nil_2; split; try (apply H); by vm_compute.
Qed.

(** A table built by stores is well-formed. *)
Lemma built_wf {TE : TabEnv} asz hbits ops t : 0 <= asz -> 0 <= hbits -> Forall op_wf ops ->
  (t ← lj_tab_new asz hbits; tab_run t ops) = Ok t -> wf_tab t.
Proof.
  intros Ha Hh Ho E. pose proof (new_ok asz hbits Ha Hh) as N. apply bind_Ok in E as (t0 & E0 & E). rewrite E0 in N.
  destruct N as (_ & _ & W & _ & G). pose proof (run_reps ops t0 (fun _ => Tnil) (conj W G) Ho) as R. rewrite E in R. apply R.
Qed.

Lemma demo_wf : @wf_tab env1 demo.
Proof. apply (@built_wf env1 0 1 demo_ops); [done|done|apply demo_ops_wf|vm_compute; reflexivity]. Qed.

Lemma lj_tab_refines_map_witness :
  match (t ← @lj_tab_new env1 0 1; @tab_run env1 t demo_ops) with
  | Ok t' => @wf_tab env1 t' /\ forall k, wf_tv k -> @lj_tab_get env1 t' k = Ok (map_get (map_run demo_ops) k)
  | Err e => usage_error e
  end.
Proof. apply (@lj_tab_refines_map env1 0 1 demo_ops); [lia|lia|apply demo_ops_wf]. Defined.

Lemma lj_tab_get_scan_witness :
  @lj_tab_get env1 demo (Tint 2) = Ok Ttrue /\ @lj_tab_get env1 demo (Tint 3) = Ok Tnil.
Proof.
  split; rewrite (@lj_tab_get_scan env1 demo); try apply demo_wf; vm_compute; reflexivity || done.
Defined.

Lemma lj_tab_set_ends_witness :
  match @lj_tab_set env1 demo (num_half 2) with
  | Ok (t', s) => exists c, norm (num_half 2) = Some c /\ @ref_get (slot_put t' s Ttrue) c = Ttrue /\ @wf_tab env1 (slot_put t' s Ttrue)
  | Err TABOV => norm (num_half 2) <> None
  | Err NILIDX => num_half 2 = Tnil
  | Err NANIDX => norm (num_half 2) = None /\ num_half 2 <> Tnil
  | Err _ => False
  end.
Proof. apply (@lj_tab_set_ends env1 demo (num_half 2)); [apply demo_wf|by vm_compute]. Defined.

Lemma lj_tab_resize_keeps_witness :
  exists t', @lj_tab_resize env1 demo 2 3 = Ok t' /\ @wf_tab env1 t' /\ asize t' = 2 /\
    forall k, wf_tv k -> @lj_tab_get env1 t' k = @lj_tab_get env1 demo k.
Proof.
  apply (@lj_tab_resize_keeps env1 demo 2 3); [apply demo_wf|by vm_compute|by vm_compute|].
  apply Nat.leb_le. vm_compute. reflexivity.
Defined.

Lemma lj_tab_next_complete_witness :
  exists l, @collect env1 (S (length l)) demo Tnil = Ok l /\ NoDup ((fun kv => norm kv.1) <$> l) /\
  forall c v, canon c -> v <> Tnil -> ref_get demo c = v <-> exists k, (k, v) ∈ l /\ norm k = Some c.
Proof. apply (@lj_tab_next_complete env1 demo). apply demo_wf. Defined.

Lemma lj_tab_len_boundary_witness :
  exists n, @lj_tab_len env1 demo = Ok n /\ boundary demo n /\ 0 <= n.
Proof. apply (@lj_tab_len_boundary env1 demo). apply demo_wf. Defined.

Definition demo_bins : list Z := [2; 1; 1; 0; 9] ++ replicate 23 0.

Lemma bestasize_best_witness :
  exists na sz, bestasize demo_bins (sumz demo_bins) = Ok (na, sz) /\
  ((na = 0 /\ sz = 0 /\ forall j, ~ good demo_bins 0 0 j) \/
   (exists j, good demo_bins 0 0 j /\ (forall j', (j < j')%nat -> ~ good demo_bins 0 0 j') /\
      na = psum demo_bins (Z.of_nat j) /\ sz = 2 ^ (Z.of_nat j + 1) + 1)).
Proof.
  apply (bestasize_best demo_bins). split; [reflexivity|].
  repeat (apply Forall_cons_2; [lia|]). apply Forall_nil_2.
Defined.

Lemma rehashtab_makes_room_witness :
  match @rehashtab env1 demo (num_half 3) with
  | Ok t' => @wf_tab env1 t' /\ (in_arr t' (num_half 3) \/ (nkeyed (node t') < cap t')%nat) /\
             forall k, wf_tv k -> @lj_tab_get env1 t' k = @lj_tab_get env1 demo k
  | Err e => e = TABOV
  end.
Proof.
  apply (@rehashtab_makes_room env1 demo (num_half 3)); [apply demo_wf|].
  split; [by vm_compute|]. vm_compute. split; intros X; discriminate X.
Defined.

(** ** A lost key

    [rechain] puts back only string keys.  The string at 0x1020 hashes to
    node 3 when it is stored there, behind the chain of node 0; then 1.5,
    whose main node is 3, is chained behind it.  The string is collected, and
    a new string with another hash gets its address: its lookup finds the old
    node through the chain of node 0.  When 4.5 (main node 3) is inserted,
    the node is moved away with its chain, and 1.5 can no longer be found. *)
Definition lost_ops : list tab_op :=
  [OpSet (Tstr 0x1000) Ttrue; OpSet (Tstr 0x1010) Ttrue; OpSet (Tstr 0x1010) Tnil;
   OpSet (Tstr 0x1020) Ttrue; OpSet (num_half 1) Ttrue; OpSet (Tstr 0x1020) Tnil].

(** C32: after the move of a node with a pseudo-resurrected string key,
    [lj_tab_newkey] leaves a number key of that chain unreachable: the pair
    stored for 1.5 is there before the insertion of 4.5 and gone after it. *)
Theorem newkey_loses_number_key :
  (t ← @lj_tab_new env1 0 2; t ← @tab_run env1 t lost_ops;
   t ← @tab_put env2 t (Tstr 0x1020) Ttrue;
   before ← @lj_tab_get env2 t (num_half 1);
   t ← @tab_put env2 t (num_half 4) Ttrue;
   after ← @lj_tab_get env2 t (num_half 1);
   Ok (before, after)) = (Ok (Ttrue, Tnil) : tres _).
Proof. vm_compute. reflexivity. Qed.
