(* ===== verification/Buf.v ===== *)
(** * String buffers ([lj_buf.c], [lj_buf.h])

    A buffer is its memory [b .. e] and the write position [p - b].  Every
    function reserves space with [lj_buf_more] or [lj_buf_need] and then
    stores through the pointer it got; [sb_write] is such a run of stores,
    and fails with [BUF_OVERFLOW] when it would leave the reserved memory.
    The theorems show that no function of the component does.  A character
    is an integer in [0, 256). *)

From S2P Require Import Prelude Machine.

Definition LJ_MIN_SBUF : Z := 32.
Definition LJ_MAX_BUF : Z := 0x7fffff00.

Record SBuf := mkSBuf {
  sb_b : list Z;   (* the memory from [b] to [e] *)
  sb_p : Z         (* the write position [p - b] *)
}.

Inductive BufErr := BUF_MEM | BUF_OVERFLOW | BUF_FUEL.
Abbreviation bres := (res BufErr).

Definition sbufsz (sb : SBuf) : Z := Z.of_nat (length (sb_b sb)).
Definition sbuflen (sb : SBuf) : Z := sb_p sb.
Definition sbufleft (sb : SBuf) : Z := u32 (sbufsz sb - sb_p sb).

(** The string written so far. *)
Definition sb_str (sb : SBuf) : list Z := take (Z.to_nat (sb_p sb)) (sb_b sb).

Section Buf.
(** The contents of memory the allocator hands out. *)
Context (raw : nat -> Z).

Definition lj_buf_init : SBuf := mkSBuf [] 0.
Definition lj_buf_reset (sb : SBuf) : SBuf := mkSBuf (sb_b sb) 0.

(** ** Growing *)

(** [while (nsz < sz) nsz += nsz] *)
Fixpoint grow_loop (fuel : nat) (nsz sz : Z) : bres Z :=
  match fuel with
  | O => Err BUF_FUEL
  | S f => if nsz <? sz then grow_loop f (u32 (nsz + nsz)) sz else Ok nsz
  end.

Definition buf_grow (sb : SBuf) (sz : Z) : bres SBuf :=
  let osz := sbufsz sb in
  nsz ← grow_loop 32 (if osz <? LJ_MIN_SBUF then LJ_MIN_SBUF else osz) sz;
  Ok (mkSBuf (sb_b sb ++ (raw <$> seq (Z.to_nat osz) (Z.to_nat (nsz - osz)))) (sb_p sb)).

Definition lj_buf_need2 (sb : SBuf) (sz : Z) : bres SBuf :=
  if LJ_MAX_BUF <? sz then Err BUF_MEM else buf_grow sb sz.

Definition lj_buf_more2 (sb : SBuf) (sz : Z) : bres SBuf :=
  let len := sbuflen sb in
  if (LJ_MAX_BUF <? sz) || (LJ_MAX_BUF <? u32 (len + sz)) then Err BUF_MEM
  else buf_grow sb (u32 (len + sz)).

Definition lj_buf_need (sb : SBuf) (sz : Z) : bres SBuf :=
  if sbufsz sb <? sz then lj_buf_need2 sb sz else Ok sb.

Definition lj_buf_more (sb : SBuf) (sz : Z) : bres SBuf :=
  if sbufleft sb <? sz then lj_buf_more2 sb sz else Ok sb.

(** The position of a long string can lie behind the end afterwards: the
    callers reset the buffer before they use it again. *)
Definition lj_buf_shrink (sb : SBuf) : SBuf :=
  let osz := sbufsz sb in
  if 2 * LJ_MIN_SBUF <? osz then mkSBuf (take (Z.to_nat (osz >> 1)) (sb_b sb)) (sb_p sb) else sb.

(** ** Storing *)

(** A run of [*p++ = c] from the write position, with [setsbufP]. *)
Definition sb_write (sb : SBuf) (s : list Z) : bres SBuf :=
  let p := Z.to_nat (sb_p sb) in
  if sb_p sb + Z.of_nat (length s) <=? sbufsz sb
  then Ok (mkSBuf (take p (sb_b sb) ++ s ++ drop (p + length s) (sb_b sb)) (sb_p sb + Z.of_nat (length s)))
  else Err BUF_OVERFLOW.

(** Reserve [n] bytes, then store [s]. *)
Definition sb_put (sb : SBuf) (n : Z) (s : list Z) : bres SBuf :=
  sb ← lj_buf_more sb n; sb_write sb s.

Definition len (s : list Z) : Z := Z.of_nat (length s).

Definition lj_buf_putb (sb : SBuf) (c : Z) : bres SBuf := sb_put sb 1 [u8 c].
Definition lj_buf_putmem (sb : SBuf) (q : list Z) : bres SBuf := sb_put sb (len q) q.
Definition lj_buf_putchar (sb : SBuf) (c : Z) : bres SBuf := sb_put sb 1 [u8 c].
Definition lj_buf_putstr (sb : SBuf) (s : list Z) : bres SBuf := sb_put sb (len s) s.

(** [while (p < e) *p++ = *q--], [n] rounds from [q]. *)
Fixpoint copy_back (s : list Z) (q : Z) (n : nat) : list Z :=
  match n with O => [] | S n => byte_at s q :: copy_back s (q - 1) n end.

Definition lj_buf_putstr_reverse (sb : SBuf) (s : list Z) : bres SBuf :=
  sb_put sb (len s) (copy_back s (len s - 1) (length s)).

Definition lower_char (c : Z) : Z := u8 (if (65 <=? c) && (c <=? 90) then c + 0x20 else c).
Definition upper_char (c : Z) : Z := u8 (if (97 <=? c) && (c <=? 122) then c - 0x20 else c).

Definition lj_buf_putstr_lower (sb : SBuf) (s : list Z) : bres SBuf := sb_put sb (len s) (lower_char <$> s).
Definition lj_buf_putstr_upper (sb : SBuf) (s : list Z) : bres SBuf := sb_put sb (len s) (upper_char <$> s).

(** [do { copy s } while (--rep > 0)] *)
Fixpoint rep_loop (s : list Z) (rep : nat) : list Z :=
  match rep with O => [] | S n => s ++ rep_loop s n end.

Definition lj_buf_putstr_rep (sb : SBuf) (s : list Z) (rep : Z) : bres SBuf :=
  if (0 <? rep) && negb (len s =? 0) then
    let tlen := u64 (rep * len s) in
    if LJ_MAX_BUF (* = LJ_MAX_STR *) <? tlen then Err BUF_MEM
    else sb_put sb (u32 tlen) (rep_loop s (Z.to_nat rep))
  else Ok sb.

(** [lj_buf_cat2str]: both strings are copied to the start of the temporary
    buffer; the result is the string handed to [lj_str_new]. *)
Definition lj_buf_cat2str (tmp : SBuf) (s1 s2 : list Z) : bres (SBuf * list Z) :=
  tmp ← lj_buf_need tmp (u32 (len s1 + len s2));
  t1 ← sb_write (lj_buf_reset tmp) s1;
  t2 ← sb_write t1 s2;
  Ok (mkSBuf (sb_b t2) (sb_p tmp), sb_str t2).

(** ** Reading ULEB128 *)

(** The loop after the first byte; [None] when it reads past the end or
    shifts by the width of the type or more. *)
Fixpoint ruleb128_loop (p : list Z) (v sh : Z) : option (Z * list Z) :=
  match p with
  | [] => None
  | c :: p =>
      let sh := sh + 7 in
      if 32 <=? sh then None
      else
        let v := v .| u32 ((c .& 0x7f) << sh) in
        if 0x80 <=? c then ruleb128_loop p v sh else Some (v, p)
  end.

Definition lj_buf_ruleb128 (p : list Z) : option (Z * list Z) :=
  match p with
  | [] => None
  | v :: p => if 0x80 <=? v then ruleb128_loop p (v .& 0x7f) 0 else Some (v, p)
  end.

(** ** The invariant and the effect of a store *)

(** The size is zero or a power of two up to [2 ^ 31], so that the sum of the
    position and a length below [2 ^ 31] does not wrap around. *)
Definition size_ok (n : Z) : Prop := n = 0 \/ exists k, 5 <= k <= 31 /\ n = 2 ^ k.

Record buf_ok (sb : SBuf) : Prop := {
  b_pos : 0 <= sb_p sb <= sbufsz sb;
  b_size : size_ok (sbufsz sb)
}.

Lemma size_max n : size_ok n -> 0 <= n <= 2 ^ 31.
Proof. intros [->|(k & Hk & ->)]; [lia|]. pose proof (Z.pow_le_mono_r 2 k 31). pose proof (Z.pow_nonneg 2 k). lia. Qed.

Lemma sb_str_len sb : buf_ok sb -> len (sb_str sb) = sb_p sb.
Proof. intros [H _]. unfold len, sb_str, sbufsz in *. rewrite length_take. lia. Qed.

Lemma sb_write_ok sb s : buf_ok sb -> sb_p sb + len s <= sbufsz sb ->
  exists sb', sb_write sb s = Ok sb' /\ buf_ok sb' /\ sb_str sb' = sb_str sb ++ s /\
    sbufsz sb' = sbufsz sb /\ sb_p sb' = sb_p sb + len s.
Proof.
  intros [Hp Hm] Hs. unfold sb_write, len in *. rewrite (proj2 (Z.leb_le _ _)) by lia. eexists. split; [done|].
  assert (L : sbufsz (mkSBuf (take (Z.to_nat (sb_p sb)) (sb_b sb) ++ s ++ drop (Z.to_nat (sb_p sb) + length s) (sb_b sb))
    (sb_p sb + Z.of_nat (length s))) = sbufsz sb).
  { unfold sbufsz in *. cbn. rewrite !length_app, length_take, length_drop. lia. }
  split; [split; rewrite L; [cbn; lia|done]|]. split; [|done].
  unfold sb_str, sbufsz in *. cbn. rewrite app_assoc.
  rewrite take_app_length' by (rewrite length_app, length_take; lia). done.
Qed.

Lemma grow_loop_ok fuel : forall k sz, 5 <= k <= 31 -> sz <= LJ_MAX_BUF -> 31 - k < Z.of_nat fuel ->
  exists k', grow_loop fuel (2 ^ k) sz = Ok (2 ^ k') /\ sz <= 2 ^ k' /\ k <= k' <= 31.
Proof.
  unfold LJ_MAX_BUF. induction fuel as [|f IH]; intros k sz Hk Hs Hf; [lia|].
  cbn [grow_loop]. destruct (Z.ltb_spec (2 ^ k) sz) as [Hlt|Hge].
  - assert (k < 31) by (destruct (decide (k = 31)) as [->|]; lia).
    assert (E : 2 ^ k + 2 ^ k = 2 ^ (k + 1)) by (rewrite Z.pow_add_r by lia; lia).
    pose proof (Z.pow_le_mono_r 2 (k + 1) 31 ltac:(lia) ltac:(lia)). pose proof (Z.pow_nonneg 2 (k + 1)).
    rewrite E, u32_id by (widths; lia). destruct (IH (k + 1) sz) as (k' & R & Q1 & Q2); [lia|lia|lia|].
    exists k'. split; [done|]. split; [done|lia].
  - exists k. split; [done|]. split; [done|lia].
Qed.

Lemma buf_grow_ok sb sz : buf_ok sb -> sz <= LJ_MAX_BUF ->
  exists sb', buf_grow sb sz = Ok sb' /\ buf_ok sb' /\ sb_p sb' = sb_p sb /\ sb_str sb' = sb_str sb /\ sz <= sbufsz sb'.
Proof.
  intros [Hp Hm] Hs. unfold buf_grow.
  assert (H0 : exists k, (if sbufsz sb <? LJ_MIN_SBUF then LJ_MIN_SBUF else sbufsz sb) = 2 ^ k /\ 5 <= k <= 31 /\ sbufsz sb <= 2 ^ k).
  { unfold LJ_MIN_SBUF. destruct Hm as [E|(k & Hk & E)]; rewrite E.
    - exists 5. split; [done|lia].
    - pose proof (Z.pow_le_mono_r 2 5 k ltac:(lia) ltac:(lia)). rewrite (proj2 (Z.ltb_ge _ _)) by lia. exists k. split; [done|lia]. }
  destruct H0 as (k & -> & Hk & Hle). destruct (grow_loop_ok 32 k sz) as (k' & -> & H1 & H2); [lia|done|lia|].
  cbn [mbind res_bind]. eexists. split; [done|].
  pose proof (Z.pow_le_mono_r 2 k k' ltac:(lia) ltac:(lia)).
  assert (L : sbufsz (mkSBuf (sb_b sb ++ (raw <$> seq (Z.to_nat (sbufsz sb)) (Z.to_nat (2 ^ k' - sbufsz sb)))) (sb_p sb)) = 2 ^ k').
  { unfold sbufsz in *. cbn. rewrite length_app, length_fmap, length_seq. lia. }
  split; [split; rewrite L; [cbn; lia|right; exists k'; split; [lia|done]]|]. split; [done|]. split; [|lia].
  unfold sb_str. cbn. rewrite take_app_le; [done|unfold sbufsz in *; lia].
Qed.

(** The outcome of reserving space. *)
Definition reserved (sb : SBuf) (n : Z) (r : bres SBuf) : Prop :=
  (r = Err BUF_MEM /\ LJ_MAX_BUF < sb_p sb + n) \/
  exists sb', r = Ok sb' /\ buf_ok sb' /\ sb_p sb' = sb_p sb /\ sb_str sb' = sb_str sb /\ sb_p sb + n <= sbufsz sb'.

Lemma lj_buf_more_ok sb n : buf_ok sb -> 0 <= n < 2 ^ 31 -> reserved sb n (lj_buf_more sb n).
Proof.
  intros B Hn. pose proof B as [Hp' Hm]. apply size_max in Hm. unfold reserved, lj_buf_more, lj_buf_more2, sbufleft, sbuflen.
  unfold LJ_MAX_BUF in *. rewrite u32_id by (widths; lia). rewrite u32_id by (widths; lia).
  destruct (Z.ltb_spec (sbufsz sb - sb_p sb) n); [|right; exists sb; do 4 (split; [done|]); lia].
  destruct (Z.ltb_spec 0x7fffff00 n); [left; split; [done|lia]|]. cbn [orb].
  destruct (Z.ltb_spec 0x7fffff00 (sb_p sb + n)); [left; split; [done|lia]|]. right.
  destruct (buf_grow_ok sb (sb_p sb + n)) as (sb' & -> & B' & P & S & L); [done|unfold LJ_MAX_BUF; lia|].
  by exists sb'.
Qed.

(** The outcome of a store that reserves at most [c] bytes more than it needs:
    the bytes are appended, or they and the [c] bytes would exceed the largest
    buffer; nothing is ever written outside the buffer. *)
Definition appended (c : Z) (sb : SBuf) (s : list Z) (r : bres SBuf) : Prop :=
  (r = Err BUF_MEM /\ LJ_MAX_BUF < sb_p sb + len s + c) \/
  exists sb', r = Ok sb' /\ buf_ok sb' /\ sb_str sb' = sb_str sb ++ s /\ sb_p sb' = sb_p sb + len s.

Lemma sb_put_ok c sb n s : buf_ok sb -> 0 <= n < 2 ^ 31 -> len s <= n <= len s + c -> appended c sb s (sb_put sb n s).
Proof.
  intros B Hn Hs. unfold sb_put. destruct (lj_buf_more_ok sb n B Hn) as [[-> M]|(sb' & -> & B' & P & S & L)]; [left; split; [done|lia]|].
  cbn [mbind res_bind]. destruct (sb_write_ok sb' s B') as (sb2 & -> & B2 & S2 & _ & P2); [lia|].
  right. exists sb2. split; [done|]. split; [done|]. split; [by rewrite S2, S|lia].
Qed.

Lemma len_nonneg s : 0 <= len s.
Proof. unfold len. lia. Qed.

Lemma copy_back_rev s : copy_back s (len s - 1) (length s) = reverse s.
Proof.
  unfold len. assert (G : forall n, (n <= length s)%nat -> copy_back s (Z.of_nat n - 1) n = reverse (take n s)).
  { induction n as [|n IH]; intros Hn; [done|]. cbn [copy_back].
    destruct (lookup_lt_is_Some_2 s n ltac:(lia)) as [x E]. rewrite (take_S_r _ _ x E), reverse_app. cbn.
    replace (Z.of_nat (S n) - 1) with (Z.of_nat n) by lia. rewrite IH by lia.
    f_equal. unfold byte_at. by rewrite Nat2Z.id, E. }
  rewrite G by done. by rewrite take_ge.
Qed.

Lemma rep_loop_length s n : length (rep_loop s n) = (n * length s)%nat.
Proof. induction n as [|n IH]; [done|]. cbn. rewrite length_app, IH. done. Qed.

Lemma rep_loop_concat s n : rep_loop s n = concat (replicate n s).
Proof. induction n as [|n IH]; [done|]. cbn. by rewrite IH. Qed.

Lemma lj_buf_need_ok sb n : buf_ok sb -> 0 <= n ->
  (lj_buf_need sb n = Err BUF_MEM /\ LJ_MAX_BUF < n) \/
  exists sb', lj_buf_need sb n = Ok sb' /\ buf_ok sb' /\ n <= sbufsz sb' /\ sb_p sb' = sb_p sb /\ sb_str sb' = sb_str sb.
Proof.
  intros B Hn. unfold lj_buf_need, lj_buf_need2. destruct (Z.ltb_spec (sbufsz sb) n); [|right; by exists sb].
  destruct (Z.ltb_spec LJ_MAX_BUF n); [by left|]. right.
  destruct (buf_grow_ok sb n B) as (sb' & E & B' & P & S & L); [lia|]. by exists sb'.
Qed.

Lemma reset_ok sb : buf_ok sb -> buf_ok (lj_buf_reset sb) /\ sb_str (lj_buf_reset sb) = [].
Proof. intros [Bp Bs]. split; [|done]. split; cbn; [unfold sbufsz in *; cbn; lia|done]. Qed.
End Buf.

(** A reader callback over a list of pieces: none of them is empty. *)
Definition piece_reader (r : list (list Z)) : list Z * list (list Z) :=
  match r with [] => ([], []) | x :: r => (x, r) end.
Definition pieces_ok (r : list (list Z)) : Prop := Forall (fun x => x <> []) r.
