(* ===== verification/Strfmt.v ===== *)
(** * String formatting ([lj_strfmt.c], [lj_strfmt.h])

    The format parser, the raw conversions of integers, pointers and ULEB128
    numbers, the quoting of strings and the formatted conversions to a
    buffer.  A raw conversion is the list of characters it stores through its
    pointer argument.  [sprintf] (for finite floating-point numbers) is a
    parameter; its terminator counts in the space it needs. *)

From S2P Require Import Prelude Machine Num Chars Buf.

(** ** Format indicators *)

Definition STRFMT_EOF : Z := 0.
Definition STRFMT_ERR : Z := 1.
Definition STRFMT_LIT : Z := 2.
Definition STRFMT_INT : Z := 3.
Definition STRFMT_UINT : Z := 4.
Definition STRFMT_NUM : Z := 5.
Definition STRFMT_STR : Z := 6.
Definition STRFMT_CHAR : Z := 7.
Definition STRFMT_PTR : Z := 8.

Definition STRFMT_T_HEX : Z := 0x0010.
Definition STRFMT_T_OCT : Z := 0x0020.
Definition STRFMT_T_FP_A : Z := 0x0000.
Definition STRFMT_T_FP_E : Z := 0x0010.
Definition STRFMT_T_FP_F : Z := 0x0020.
Definition STRFMT_T_FP_G : Z := 0x0030.
Definition STRFMT_T_QUOTED : Z := 0x0010.

Definition STRFMT_F_LEFT : Z := 0x0100.
Definition STRFMT_F_PLUS : Z := 0x0200.
Definition STRFMT_F_ZERO : Z := 0x0400.
Definition STRFMT_F_SPACE : Z := 0x0800.
Definition STRFMT_F_ALT : Z := 0x1000.
Definition STRFMT_F_UPPER : Z := 0x2000.

Definition STRFMT_SH_WIDTH : Z := 16.
Definition STRFMT_SH_PREC : Z := 24.

Definition STRFMT_TYPE (sf : Z) : Z := sf .& 15.
Definition STRFMT_WIDTH (sf : Z) : Z := (sf >> STRFMT_SH_WIDTH) .& 255.
Definition STRFMT_PREC (sf : Z) : Z := u32 (((sf >> STRFMT_SH_PREC) .& 255) - 1).
Definition STRFMT_FP (sf : Z) : Z := (sf >> 4) .& 3.

Definition STRFMT_A := STRFMT_NUM .| STRFMT_T_FP_A.
Definition STRFMT_C := STRFMT_CHAR.
Definition STRFMT_D := STRFMT_INT.
Definition STRFMT_E := STRFMT_NUM .| STRFMT_T_FP_E.
Definition STRFMT_F := STRFMT_NUM .| STRFMT_T_FP_F.
Definition STRFMT_G := STRFMT_NUM .| STRFMT_T_FP_G.
Definition STRFMT_I := STRFMT_D.
Definition STRFMT_O := STRFMT_UINT .| STRFMT_T_OCT.
Definition STRFMT_P := STRFMT_PTR.
Definition STRFMT_Q := STRFMT_STR .| STRFMT_T_QUOTED.
Definition STRFMT_S := STRFMT_STR.
Definition STRFMT_U := STRFMT_UINT.
Definition STRFMT_X := STRFMT_UINT .| STRFMT_T_HEX.

Definition STRFMT_MAXBUF_XINT : Z := 1 + 22.
Definition STRFMT_MAXBUF_INT : Z := 1 + 10.
Definition STRFMT_MAXBUF_NUM : Z := 32.
Definition STRFMT_MAXBUF_PTR : Z := 2 + 2 * 8.

(** ** Format parser *)

Definition strfmt_map : list Z := [
  STRFMT_A;0;0;0;STRFMT_E;0;STRFMT_G;0;0;0;0;0;0;
  0;0;0;0;0;0;0;0;0;0;STRFMT_X;0;0;
  0;0;0;0;0;0;
  STRFMT_A;0;STRFMT_C;STRFMT_D;STRFMT_E;STRFMT_F;STRFMT_G;0;STRFMT_I;0;0;0;0;
  0;STRFMT_O;STRFMT_P;STRFMT_Q;0;STRFMT_S;0;STRFMT_U;0;0;STRFMT_X
].

(** The format string [fs_s] is NUL-terminated at [fs_e]; the pointers are
    offsets into it. *)
Record FormatState := mkFS {
  fs_s : list Z; fs_p : Z; fs_e : Z; fs_str : Z; fs_len : Z
}.

Definition lj_strfmt_init (s : list Z) : FormatState := mkFS s 0 (len s) 0 0.

(** [for (p++; *p - ' ' <= '0' - ' '; p++)]: the flags. *)
Fixpoint parse_flags (s : list Z) (fuel : nat) (p sf : Z) : option (Z * Z) :=
  match fuel with
  | O => None
  | S f =>
      let c := byte_at s p in
      if u32 (c - 32) <=? 48 - 32 then
        if c =? 45 then parse_flags s f (p + 1) (sf .| STRFMT_F_LEFT)
        else if c =? 43 then parse_flags s f (p + 1) (sf .| STRFMT_F_PLUS)
        else if c =? 48 then parse_flags s f (p + 1) (sf .| STRFMT_F_ZERO)
        else if c =? 32 then parse_flags s f (p + 1) (sf .| STRFMT_F_SPACE)
        else if c =? 35 then parse_flags s f (p + 1) (sf .| STRFMT_F_ALT)
        else Some (p, sf)
      else Some (p, sf)
  end.

Definition isdig (s : list Z) (p : Z) : bool := u32 (byte_at s p - 48) <? 10.

(** Up to two digits. *)
Definition parse_num2 (s : list Z) (p : Z) : Z * Z :=
  let n := byte_at s p - 48 in
  let p := p + 1 in
  if isdig s p then (p + 1, byte_at s p - 48 + n * 10) else (p, n).

(** A conversion specification at the [%] at [p]. *)
Definition parse_spec (fs : FormatState) (p : Z) : option (FormatState * Z) :=
  let s := fs_s fs in
  '(p, sf) ← parse_flags s (S (length s)) (p + 1) 0;
  let '(p, sf) :=
    if isdig s p then let '(p, width) := parse_num2 s p in (p, sf .| (width << STRFMT_SH_WIDTH)) else (p, sf) in
  let '(p, sf) :=
    if byte_at s p =? 46 then
      let p := p + 1 in
      let '(p, prec) := if isdig s p then parse_num2 s p else (p, 0) in
      (p, sf .| ((prec + 1) << STRFMT_SH_PREC))
    else (p, sf) in
  let c := u32 (byte_at s p - 65) in
  let sx := if c <=? 120 - 65 then default 0 (strfmt_map !! Z.to_nat c) else 0 in
  if negb (sx =? 0) then
    Some (mkFS s (p + 1) (fs_e fs) (fs_str fs) (fs_len fs),
          sf .| sx .| (if negb ((c .& 0x20) =? 0) then 0 else STRFMT_F_UPPER))
  else
    let p := if 32 <=? byte_at s p then p + 1 else p in
    Some (mkFS s (fs_e fs) (fs_e fs) (fs_str fs) (p - fs_str fs), STRFMT_ERR).

(** [retlit] *)
Definition retlit (fs : FormatState) (np p : Z) : FormatState * Z :=
  let l := p - fs_str fs in
  (mkFS (fs_s fs) np (fs_e fs) (fs_str fs) l, if negb (l =? 0) then STRFMT_LIT else STRFMT_EOF).

Fixpoint parse_loop (fuel : nat) (fs : FormatState) (p : Z) : option (FormatState * Z) :=
  match fuel with
  | O => None
  | S f =>
      if p <? fs_e fs then
        if byte_at (fs_s fs) p =? 37 then
          if byte_at (fs_s fs) (p + 1) =? 37 then Some (retlit fs (p + 2) (p + 1))
          else if negb (p =? fs_str fs) then Some (retlit fs p p)
          else parse_spec fs p
        else parse_loop f fs (p + 1)
      else Some (retlit fs p p)
  end.

Definition lj_strfmt_parse (fs : FormatState) : option (FormatState * Z) :=
  let fs := mkFS (fs_s fs) (fs_p fs) (fs_e fs) (fs_p fs) (fs_len fs) in
  parse_loop (S (Z.to_nat (fs_e fs - fs_p fs))) fs (fs_p fs).

(** ** Raw conversions *)

Definition chr (d : Z) : Z := u8 (48 + d).

(** [WINT_R]: one digit by multiplication with the rounded reciprocal; the
    digit and the rest. *)
Definition WINT_R (x sh sc : Z) : Z * Z :=
  let d := u32 (x * (((1 << sh) + sc - 1) / sc)) >> sh in (d, x - d * sc).

(** The code from the label [dig]i on, by falling through to [dig1]. *)
Definition wint_dig1 (u : Z) : list Z := [chr u].
Definition wint_dig2 (u : Z) : list Z := let '(d, u) := WINT_R u 10 10 in chr d :: wint_dig1 u.
Definition wint_dig3 (u : Z) : list Z := let '(d, u) := WINT_R u 12 100 in chr d :: wint_dig2 u.
Definition wint_dig4 (u : Z) : list Z := let '(d, u) := WINT_R u 23 1000 in chr d :: wint_dig3 u.
Definition wint_dig5 (v u : Z) : list Z := chr v :: wint_dig4 u.
Definition wint_dig6 (v u : Z) : list Z := let '(d, v) := WINT_R v 10 10 in chr d :: wint_dig5 v u.
Definition wint_dig7 (v u : Z) : list Z := let '(d, v) := WINT_R v 12 100 in chr d :: wint_dig6 v u.
Definition wint_dig8 (v u : Z) : list Z := let '(d, v) := WINT_R v 23 1000 in chr d :: wint_dig7 v u.

Definition lj_strfmt_wint (k : Z) : list Z :=
  let u := if k <? 0 then u32 (- k) else u32 k in
  (if k <? 0 then [45] else []) ++
  if u <? 10000 then
    if u <? 10 then wint_dig1 u else if u <? 100 then wint_dig2 u
    else if u <? 1000 then wint_dig3 u else wint_dig4 u
  else
    let v := u / 10000 in
    let u := u - v * 10000 in
    if v <? 10000 then
      if v <? 10 then wint_dig5 v u else if v <? 100 then wint_dig6 v u
      else if v <? 1000 then wint_dig7 v u else wint_dig8 v u
    else
      let w := v / 10000 in
      let v := v - w * 10000 in
      (if 10 <=? w then let '(d, w) := WINT_R w 10 10 in [chr d; chr w] else [chr w]) ++ wint_dig8 v u.

Definition hexdigits : list Z := [48;49;50;51;52;53;54;55;56;57;97;98;99;100;101;102].
Definition HEXDIGITS : list Z := [48;49;50;51;52;53;54;55;56;57;65;66;67;68;69;70].

(** [for (i = n-1; i >= 2; i--, x >>= 4) p[i] = hex digit]: the last [i] digits. *)
Fixpoint wptr_loop (i : nat) (x : Z) (acc : list Z) : list Z :=
  match i with O => acc | S i => wptr_loop i (x >> 4) (byte_at hexdigits (x .& 15) :: acc) end.

(** The pointer as a 64-bit [ptrdiff_t]. *)
Definition lj_strfmt_wptr (v : Z) : list Z :=
  let x := i64 v in
  if x =? 0 then [78; 85; 76; 76]
  else
    let hi := u32 (x >> 32) in
    let n := 2 + 2 * 4 + (if negb (x >> 32 =? 0) then 2 + 2 * (lj_fls hi >> 3) else 0) in
    [48; 120] ++ wptr_loop (Z.to_nat (n - 2)) x [].

(** [for (; v >= 0x80; v >>= 7)]; a 32-bit value has at most five groups. *)
Fixpoint wuleb128_loop (fuel : nat) (v : Z) : list Z :=
  match fuel with
  | O => []
  | S f => if 0x80 <=? v then ((v .& 0x7f) .| 0x80) :: wuleb128_loop f (v >> 7) else [v]
  end.
Definition lj_strfmt_wuleb128 (v : Z) : list Z := wuleb128_loop 5 v.

Section Strfmt.
Context (raw : nat -> Z).
(** [sprintf(p, fmt, n)] for a floating-point number; Bionic prints the
    negative zero as "0". *)
Context (sprintf : list Z -> Z -> list Z) (BIONIC : bool).

(** [lua_number2str]: the format [LUA_NUMBER_FMT] is "%.14g". *)
Definition lua_number2str (n : Z) : list Z := sprintf [37; 46; 49; 52; 103] n.

Definition hi32 (n : Z) : Z := n >> 32.

Definition lj_strfmt_wnum (n : Z) : list Z :=
  if u32 (hi32 n << 1) <? 0xffe00000 then
    if BIONIC && (n =? 0x8000000000000000) then [45; 48] else lua_number2str n
  else if negb (((hi32 n .& 0x000fffff) .| u32 n) =? 0) then [110; 97; 110]
  else if (hi32 n .& 0x80000000) =? 0 then [105; 110; 102]
  else [45; 105; 110; 102].

(** ** Unformatted conversions to a buffer *)

Definition lj_strfmt_putint (sb : SBuf) (k : Z) : bres SBuf := sb_put raw sb STRFMT_MAXBUF_INT (lj_strfmt_wint k).
Definition lj_strfmt_putnum (sb : SBuf) (n : Z) : bres SBuf := sb_put raw sb STRFMT_MAXBUF_NUM (lj_strfmt_wnum n).
Definition lj_strfmt_putptr (sb : SBuf) (v : Z) : bres SBuf := sb_put raw sb STRFMT_MAXBUF_PTR (lj_strfmt_wptr v).

(** The characters stored for [c], followed by [nc], in a quoted string. *)
Definition quote_char (c nc : Z) : list Z :=
  if (c =? 34) || (c =? 92) || (c =? 10) then [92; c]
  else if nz (lj_char_iscntrl c) then
    let hundred := (100 <=? c) || nz (lj_char_isdigit nc) in
    let '(pre, c) := if hundred then ([u8 (48 + if 100 <=? c then 1 else 0)], if 100 <=? c then c - 100 else c) else ([], c) in
    let '(ten, c) :=
      if hundred || (10 <=? c) then let d := (c * 205) >> 11 in ([u8 (48 + d)], c - d * 10) else ([], c) in
    92 :: pre ++ ten ++ [u8 (c + 48)]
  else [c].

Fixpoint putquoted_loop (sb : SBuf) (s : list Z) : bres SBuf :=
  match s with
  | [] => Ok sb
  | c :: s => sb ← sb_put raw sb 4 (quote_char c (byte_at s 0)); putquoted_loop sb s
  end.

Definition lj_strfmt_putquoted (sb : SBuf) (s : list Z) : bres SBuf :=
  sb ← lj_buf_putb raw sb 34;
  sb ← putquoted_loop sb s;
  lj_buf_putb raw sb 34.

(** ** Formatted conversions to a buffer *)

Definition flag (sf f : Z) : bool := negb ((sf .& f) =? 0).
(** [while (width-- > n) *p++ = c] *)
Definition pad (width n c : Z) : list Z := replicate (Z.to_nat (width - n)) c.

Definition lj_strfmt_putfchar (sb : SBuf) (sf c : Z) : bres SBuf :=
  let width := STRFMT_WIDTH sf in
  sb_put raw sb (if 1 <? width then width else 1)
    ((if flag sf STRFMT_F_LEFT then [u8 c] else []) ++ pad width 1 32 ++
     (if flag sf STRFMT_F_LEFT then [] else [u8 c])).

Definition lj_strfmt_putfstr (sb : SBuf) (sf : Z) (s : list Z) : bres SBuf :=
  let l := if len s <=? STRFMT_PREC sf then len s else STRFMT_PREC sf in
  let width := STRFMT_WIDTH sf in
  let str := take (Z.to_nat l) s in
  sb_put raw sb (if l <? width then width else l)
    ((if flag sf STRFMT_F_LEFT then str else []) ++ pad width l 32 ++
     (if flag sf STRFMT_F_LEFT then [] else str)).

(** The digits of [k], stored backwards: [do { *--q = digit; } while (k)].
    The decimal loop divides first in 64 and then in 32 bits. *)
Fixpoint digits_loop (fuel : nat) (dig : Z -> Z) (base k : Z) (q : list Z) : list Z :=
  match fuel with
  | O => q
  | S f =>
      let q := dig (k mod base) :: q in
      if k / base =? 0 then q else digits_loop f dig base (k / base) q
  end.

Definition xint_sign (sf k : Z) : Z * Z :=
  if STRFMT_TYPE sf =? STRFMT_INT then
    if i64 k <? 0 then (u64 (- i64 k), 256 + 45)
    else if flag sf STRFMT_F_PLUS then (k, 256 + 43)
    else if flag sf STRFMT_F_SPACE then (k, 256 + 32)
    else (k, 0)
  else (k, 0).

(** The digit string and the prefix. *)
Definition xint_digits (sf k prec prefix : Z) : list Z * Z :=
  if k =? 0 then
    (if negb (prec =? 0) || ((sf .& (STRFMT_T_OCT .| STRFMT_F_ALT)) =? (STRFMT_T_OCT .| STRFMT_F_ALT)) then [48] else [], prefix)
  else if negb (flag sf (STRFMT_T_HEX .| STRFMT_T_OCT)) then (digits_loop 20 chr 10 k [], prefix)
  else if flag sf STRFMT_T_HEX then
    let upper := flag sf STRFMT_F_UPPER in
    (digits_loop 16 (byte_at (if upper then HEXDIGITS else hexdigits)) 16 k [],
     if flag sf STRFMT_F_ALT then 512 + (if upper then 88 else 120) else prefix)
  else ((if flag sf STRFMT_F_ALT then [48] else []) ++ digits_loop 22 chr 8 k [], prefix).

Definition lj_strfmt_putfxint (sb : SBuf) (sf k : Z) : bres SBuf :=
  let '(k, prefix) := xint_sign sf k in
  let prec := STRFMT_PREC sf in
  let sf := if 0 <=? i32 prec then sf .& Z.lnot STRFMT_F_ZERO else sf in
  let '(q, prefix) := xint_digits sf k prec prefix in
  let l := len q in
  let prec := if i32 prec <=? l then l else prec in
  let width := STRFMT_WIDTH sf in
  let pprec := prec + (prefix >> 8) in
  let need := if pprec <? width then width else pprec in
  let lz := sf .& (STRFMT_F_LEFT .| STRFMT_F_ZERO) in
  (* [width] is counted down by whichever padding loop runs *)
  let left := if lz =? 0 then pad width pprec 32 else [] in
  let pre := if negb (prefix =? 0) then (if 88 <=? u8 prefix then [48] else []) ++ [u8 prefix] else [] in
  let zero := if lz =? STRFMT_F_ZERO then pad width pprec 48 else [] in
  let right := if flag sf STRFMT_F_LEFT then pad width pprec 32 else [] in
  sb_put raw sb need (left ++ pre ++ zero ++ pad prec l 48 ++ q ++ right).

Definition checki32 (x : Z) : bool := x =? i32 x.

Definition lj_strfmt_putfnum_int (sb : SBuf) (sf n : Z) : bres SBuf :=
  let k := num2i64 n in
  if checki32 k && (sf =? STRFMT_INT) then lj_strfmt_putint sb (i32 k)
  else lj_strfmt_putfxint sb sf (u64 k).

(** [n >= 9223372036854775808.0], and [n - 18446744073709551616.0] *)
Definition lj_strfmt_putfnum_uint (sb : SBuf) (sf n : Z) : bres SBuf :=
  let k := if dle 0x43e0000000000000 n then num2i64 (dsub n 0x43f0000000000000) else num2i64 n in
  lj_strfmt_putfxint sb sf (u64 k).

Definition STRFMT_FMTNUMBUF : Z := 512.

(** Two decimal digits without a leading zero. *)
Definition fmt_num2 (w : Z) : list Z :=
  (if negb (w / 10 =? 0) then [u8 (48 + w / 10)] else []) ++ [u8 (48 + w mod 10)].

(** The format string for [sprintf]. *)
Definition putfnum_fmt (sf : Z) : list Z :=
  let width := u8 (STRFMT_WIDTH sf) in
  let prec := u8 (STRFMT_PREC sf) in
  [37] ++ (if flag sf STRFMT_F_LEFT then [45] else []) ++ (if flag sf STRFMT_F_PLUS then [43] else [])
  ++ (if flag sf STRFMT_F_ZERO then [48] else []) ++ (if flag sf STRFMT_F_SPACE then [32] else [])
  ++ (if flag sf STRFMT_F_ALT then [35] else [])
  ++ (if negb (width =? 0) then fmt_num2 width else [])
  ++ (if negb (prec =? 255) then 46 :: fmt_num2 prec else [])
  ++ [u8 ((0x67666561 >> (STRFMT_FP sf << 3)) .^ (if flag sf STRFMT_F_UPPER then 0x20 else 0))].

Definition lj_strfmt_putfnum (sb : SBuf) (sf n : Z) : bres SBuf :=
  if 0xffe00000 <=? u32 (hi32 n << 1) then
    let width := STRFMT_WIDTH sf in
    let ch := if flag sf STRFMT_F_UPPER then 0x202020 else 0 in
    let nan := negb (((hi32 n .& 0x000fffff) .| u32 n) =? 0) in
    let ch := ch .^ (if nan then 0x6e616e else 0x696e66) in
    let prefix :=
      if nan then (if flag sf STRFMT_F_SPACE then 32 else 0)
      else if negb ((hi32 n .& 0x80000000) =? 0) then 45
      else if flag sf STRFMT_F_PLUS then 43
      else if flag sf STRFMT_F_SPACE then 32 else 0 in
    let l := if negb (prefix =? 0) then 4 else 3 in
    sb_put raw sb (if l <? width then width else l)
      ((if flag sf STRFMT_F_LEFT then [] else pad width l 32) ++
       (if negb (prefix =? 0) then [prefix] else []) ++ [u8 (ch >> 16); u8 (ch >> 8); u8 ch] ++
       (if flag sf STRFMT_F_LEFT then pad width l 32 else []))
  else sb_put raw sb STRFMT_FMTNUMBUF (sprintf (putfnum_fmt sf) n).

(** ** Internal string formatting *)

(** The arguments of [lj_strfmt_pushvf], by the type [va_arg] asks for. *)
Inductive fmt_arg :=
| ArgInt (k : Z) | ArgUint (k : Z) | ArgNum (n : Z) | ArgStr (s : option (list Z)) | ArgChar (c : Z) | ArgPtr (v : Z).

Inductive fmt_err := FMT_BUF (e : BufErr) | FMT_FUEL | FMT_ARG.

Definition lift_buf (r : bres SBuf) : res fmt_err SBuf :=
  match r with Ok sb => Ok sb | Err e => Err (FMT_BUF e) end.

(** The bytes of a literal. *)
Definition fs_literal (fs : FormatState) : list Z :=
  take (Z.to_nat (fs_len fs)) (drop (Z.to_nat (fs_str fs)) (fs_s fs)).

(** One conversion; taking an argument of another type, or none, is undefined. *)
Definition pushvf_step (sb : SBuf) (fs : FormatState) (sf : Z) (argp : list fmt_arg) : res fmt_err (SBuf * list fmt_arg) :=
  let ty := STRFMT_TYPE sf in
  if ty =? STRFMT_LIT then sb ← lift_buf (lj_buf_putmem raw sb (fs_literal fs)); Ok (sb, argp)
  else if ty =? STRFMT_INT then
    match argp with ArgInt k :: argp => sb ← lift_buf (lj_strfmt_putfxint sb sf (u64 k)); Ok (sb, argp) | _ => Err FMT_ARG end
  else if ty =? STRFMT_UINT then
    match argp with ArgUint k :: argp => sb ← lift_buf (lj_strfmt_putfxint sb sf k); Ok (sb, argp) | _ => Err FMT_ARG end
  else if ty =? STRFMT_NUM then
    match argp with ArgNum n :: argp => sb ← lift_buf (lj_strfmt_putnum sb n); Ok (sb, argp) | _ => Err FMT_ARG end
  else if ty =? STRFMT_STR then
    match argp with
    | ArgStr s :: argp => sb ← lift_buf (lj_buf_putmem raw sb (default [40; 110; 117; 108; 108; 41] s)); Ok (sb, argp)
    | _ => Err FMT_ARG end
  else if ty =? STRFMT_CHAR then
    match argp with ArgChar c :: argp => sb ← lift_buf (lj_buf_putb raw sb c); Ok (sb, argp) | _ => Err FMT_ARG end
  else if ty =? STRFMT_PTR then
    match argp with ArgPtr v :: argp => sb ← lift_buf (lj_strfmt_putptr sb v); Ok (sb, argp) | _ => Err FMT_ARG end
  else sb ← lift_buf (lj_buf_putb raw sb 63); Ok (sb, argp).

Fixpoint pushvf_loop (fuel : nat) (sb : SBuf) (fs : FormatState) (argp : list fmt_arg) : res fmt_err SBuf :=
  match fuel with
  | O => Err FMT_FUEL
  | S f =>
      match lj_strfmt_parse fs with
      | None => Err FMT_FUEL
      | Some (fs, sf) =>
          if sf =? STRFMT_EOF then Ok sb
          else '(sb, argp) ← pushvf_step sb fs sf argp; pushvf_loop f sb fs argp
      end
  end.

(** The string pushed on the stack. *)
Definition lj_strfmt_pushvf (tmpbuf : SBuf) (fmt : list Z) (argp : list fmt_arg) : res fmt_err (list Z) :=
  sb ← pushvf_loop (S (length fmt)) (lj_buf_reset tmpbuf) (lj_strfmt_init fmt) argp;
  Ok (sb_str sb).
End Strfmt.
