(* ===== verification/StrfmtNum.v ===== *)
(** * Raw number conversions: decimal integers and ULEB128

    [lj_strfmt_wint] divides by multiplying with rounded reciprocals and jumps
    into the middle of the digit sequence; it is the plain decimal notation.
    [lj_buf_ruleb128] reads back what [lj_strfmt_wuleb128] writes. *)

From S2P Require Import Prelude Machine Num Chars Buf Strfmt.

(** ** The decimal notation *)

Fixpoint dec_loop (fuel : nat) (n : Z) : list Z :=
  match fuel with
  | O => []
  | S f => (if n <? 10 then [] else dec_loop f (n / 10)) ++ [48 + n mod 10]
  end.
Definition dec_nat (n : Z) : list Z := dec_loop (S (Z.to_nat (Z.log2 n))) n.
Definition decimal (k : Z) : list Z := (if k <? 0 then [45] else []) ++ dec_nat (Z.abs k).

Lemma dec_loop_fuel f : forall g n, 0 <= n -> Z.log2 n < Z.of_nat f -> Z.log2 n < Z.of_nat g -> dec_loop f n = dec_loop g n.
Proof.
  induction f as [|f IH]; intros [|g] n Hn Hf Hg; [done|pose proof (Z.log2_nonneg n); lia..|].
  cbn [dec_loop]. f_equal. destruct (Z.ltb_spec n 10); [done|].
  pose proof (Z.log2_le_mono (2 * (n / 10)) n ltac:(Z.div_mod_to_equations; lia)) as L.
  rewrite Z.log2_double in L by (Z.div_mod_to_equations; lia).
  apply IH; [Z.div_mod_to_equations; lia|lia..].
Qed.

Lemma dec_nat_step n : 10 <= n -> dec_nat n = dec_nat (n / 10) ++ [48 + n mod 10].
Proof.
  intros Hn. unfold dec_nat at 1. cbn [dec_loop]. rewrite (proj2 (Z.ltb_ge n 10)) by done. f_equal.
  pose proof (Z.log2_le_mono (2 * (n / 10)) n ltac:(Z.div_mod_to_equations; lia)) as L.
  rewrite Z.log2_double in L by (Z.div_mod_to_equations; lia). pose proof (Z.log2_nonneg (n / 10)).
  apply dec_loop_fuel; [Z.div_mod_to_equations; lia|lia..].
Qed.

(** The last four digits of a longer number. *)
Definition four (u : Z) : list Z := [48 + u / 1000; 48 + u / 100 mod 10; 48 + u / 10 mod 10; 48 + u mod 10].

Lemma dec_nat_four v u : 1 <= v -> 0 <= u < 10000 -> dec_nat (v * 10000 + u) = dec_nat v ++ four u.
Proof.
  intros Hv Hu.
  set (n := v * 10000 + u). assert (Hn : 10000 <= n) by lia.
  rewrite (dec_nat_step n) by lia.
  rewrite (dec_nat_step (n / 10)) by (Z.div_mod_to_equations; lia). rewrite Z.div_div by lia.
  rewrite (dec_nat_step (n / (10 * 10))) by (Z.div_mod_to_equations; lia). rewrite Z.div_div by lia.
  rewrite (dec_nat_step (n / (10 * 10 * 10))) by (Z.div_mod_to_equations; lia). rewrite Z.div_div by lia.
  rewrite <- !app_assoc. cbn [app].
  assert (E1 : n / (10 * 10 * 10 * 10) = v) by (unfold n; Z.div_mod_to_equations; lia).
  assert (E2 : n / (10 * 10 * 10) mod 10 = u / 1000) by (unfold n; Z.div_mod_to_equations; lia).
  assert (E3 : n / (10 * 10) mod 10 = u / 100 mod 10) by (unfold n; Z.div_mod_to_equations; lia).
  assert (E4 : n / 10 mod 10 = u / 10 mod 10) by (unfold n; Z.div_mod_to_equations; lia).
  assert (E5 : n mod 10 = u mod 10) by (unfold n; Z.div_mod_to_equations; lia).
  unfold four. by rewrite E1, E2, E3, E4, E5.
Qed.

(** ** The digit cascade *)

(** The product with the rounded reciprocal [m] of [sc] is exact. *)
Lemma WINT_R_div x sh sc m : 0 <= sh -> 0 < sc -> ((1 << sh) + sc - 1) / sc = m -> 0 <= x -> 0 <= m -> x * m < 2 ^ 32 ->
  x / sc * (sc * m - 2 ^ sh) + x mod sc * m < 2 ^ sh -> 0 <= sc * m - 2 ^ sh -> WINT_R x sh sc = (x / sc, x mod sc).
Proof.
  intros Hsh Hsc Em Hx Hm H32 Hr Hd. unfold WINT_R. rewrite Em. assert (u32 (x * m) >> sh = x / sc) as ->.
  { rewrite u32_id by (widths; nia). rewrite Z.shiftr_div_pow2 by done. symmetry. pose proof (Z.mod_pos_bound x sc Hsc). pose proof (Z.div_pos x sc Hx Hsc).
    apply (Z.div_unique_pos _ _ _ (x / sc * (sc * m - 2 ^ sh) + x mod sc * m)); [nia|]. pose proof (Z.div_mod x sc). nia. }
  f_equal. pose proof (Z.div_mod x sc). lia.
Qed.

Lemma WINT_R_1000 x : 0 <= x < 10000 -> WINT_R x 23 1000 = (x / 1000, x mod 1000).
Proof. intros Hx. apply (WINT_R_div x 23 1000 8389); try done; Z.div_mod_to_equations; lia. Qed.
Lemma WINT_R_100 x : 0 <= x < 1000 -> WINT_R x 12 100 = (x / 100, x mod 100).
Proof. intros Hx. apply (WINT_R_div x 12 100 41); try done; Z.div_mod_to_equations; lia. Qed.
Lemma WINT_R_10 x : 0 <= x < 100 -> WINT_R x 10 10 = (x / 10, x mod 10).
Proof. intros Hx. apply (WINT_R_div x 10 10 103); try done; Z.div_mod_to_equations; lia. Qed.

Lemma chr_id d : 0 <= d < 10 -> chr d = 48 + d.
Proof. intros Hd. apply u8_id. widths. lia. Qed.

Definition wint_small (u : Z) : list Z :=
  if u <? 10 then wint_dig1 u else if u <? 100 then wint_dig2 u
  else if u <? 1000 then wint_dig3 u else wint_dig4 u.

Lemma wint_dig1_dec u : 0 <= u < 10 -> wint_dig1 u = [48 + u].
Proof. intros Hu. unfold wint_dig1. by rewrite chr_id. Qed.
Lemma wint_dig2_dec u : 0 <= u < 100 -> wint_dig2 u = [48 + u / 10; 48 + u mod 10].
Proof. intros Hu. unfold wint_dig2. rewrite WINT_R_10, wint_dig1_dec, chr_id by (done || (Z.div_mod_to_equations; lia)). done. Qed.
Lemma wint_dig3_dec u : 0 <= u < 1000 -> wint_dig3 u = [48 + u / 100; 48 + u / 10 mod 10; 48 + u mod 10].
Proof.
  intros Hu. unfold wint_dig3. rewrite WINT_R_100, wint_dig2_dec, chr_id by (done || (Z.div_mod_to_equations; lia)).
  repeat (apply (f_equal2 (@cons Z)); [Z.div_mod_to_equations; lia|]); done.
Qed.

Lemma wint_dig4_four u : 0 <= u < 10000 -> wint_dig4 u = four u.
Proof.
  intros Hu. unfold wint_dig4, four. rewrite WINT_R_1000, wint_dig3_dec, chr_id by (done || (Z.div_mod_to_equations; lia)).
  repeat (apply (f_equal2 (@cons Z)); [Z.div_mod_to_equations; lia|]); done.
Qed.

Lemma dec_nat_small u : 0 <= u < 10 -> dec_nat u = [48 + u].
Proof.
  intros Hu. unfold dec_nat. cbn [dec_loop]. rewrite (proj2 (Z.ltb_lt u 10)) by lia. cbn [app]. by rewrite Z.mod_small.
Qed.

Lemma wint_small_dec u : 0 <= u < 10000 -> wint_small u = dec_nat u.
Proof.
  intros Hu. unfold wint_small. destruct (Z.ltb_spec u 10); [by rewrite dec_nat_small, wint_dig1_dec by lia|]. rewrite dec_nat_step by done.
  destruct (Z.ltb_spec u 100); [rewrite dec_nat_small, wint_dig2_dec by (done || (Z.div_mod_to_equations; lia)); done|].
  rewrite dec_nat_step by (Z.div_mod_to_equations; lia). destruct (Z.ltb_spec u 1000).
  { rewrite dec_nat_small, wint_dig3_dec by (done || (Z.div_mod_to_equations; lia)). rewrite Z.div_div by lia. done. }
  rewrite dec_nat_step, dec_nat_small, wint_dig4_four by (done || (Z.div_mod_to_equations; lia)). unfold four. rewrite !Z.div_div by lia. done.
Qed.

Lemma wint_mid u v : 0 <= v ->
  (if v <? 10 then wint_dig5 v u else if v <? 100 then wint_dig6 v u
   else if v <? 1000 then wint_dig7 v u else wint_dig8 v u) = wint_small v ++ wint_dig4 u.
Proof. unfold wint_small. repeat case_match; reflexivity. Qed.

Lemma wint_top w : 0 <= w < 100 ->
  (if 10 <=? w then let '(d, w) := WINT_R w 10 10 in [chr d; chr w] else [chr w]) = dec_nat w.
Proof.
  intros Hw. destruct (Z.leb_spec 10 w).
  - rewrite WINT_R_10, dec_nat_step, dec_nat_small, !chr_id by (done || (Z.div_mod_to_equations; lia)). done.
  - rewrite dec_nat_small, chr_id by lia. done.
Qed.

Lemma dec_nat_split n : 10000 <= n -> dec_nat n = dec_nat (n / 10000) ++ four (n - n / 10000 * 10000).
Proof.
  intros Hn. rewrite <- dec_nat_four by (Z.div_mod_to_equations; lia). f_equal. lia.
Qed.

Lemma wint_decimal k : is_i32 k -> lj_strfmt_wint k = decimal k.
Proof.
  intros Hk. unfold lj_strfmt_wint, decimal. cbv zeta. f_equal.
  assert (E : (if k <? 0 then u32 (- k) else u32 k) = Z.abs k).
  { destruct (Z.ltb_spec k 0); [rewrite Z.abs_neq by lia|rewrite Z.abs_eq by lia]; apply u32_id; widths; lia. }
  rewrite E. assert (Hu : 0 <= Z.abs k <= 2 ^ 31) by (widths; lia). clear E Hk. revert Hu. generalize (Z.abs k) as n.
  intros n Hn. destruct (Z.ltb_spec n 10000) as [H|H]; [apply wint_small_dec; lia|].
  assert (Hv : 1 <= n / 10000 <= 2 ^ 31 / 10000) by (Z.div_mod_to_equations; lia).
  assert (Hr : 0 <= n - n / 10000 * 10000 < 10000) by (Z.div_mod_to_equations; lia).
  rewrite (dec_nat_split n) by done. set (u := n - n / 10000 * 10000) in *. set (v := n / 10000) in *. clearbody u v.
  destruct (Z.ltb_spec v 10000) as [H'|H']; [by rewrite wint_mid, wint_small_dec, wint_dig4_four by lia|].
  assert (Hr' : 0 <= v - v / 10000 * 10000 < 10000) by (Z.div_mod_to_equations; lia).
  rewrite wint_top by (Z.div_mod_to_equations; lia). rewrite (dec_nat_split v) by done. rewrite <- app_assoc. f_equal.
  rewrite <- !wint_dig4_four by done. reflexivity.
Qed.

Lemma decimal_pos k : 1 <= len (decimal k).
Proof.
  unfold decimal, len. rewrite length_app. enough (1 <= Z.of_nat (length (dec_nat (Z.abs k)))) by lia.
  destruct (decide (Z.abs k < 10)); [by rewrite dec_nat_small by lia|]. rewrite dec_nat_step, length_app by lia. cbn [length]. lia.
Qed.

Lemma dec_loop_length f : forall n d, 0 <= n < 10 ^ d -> 1 <= d -> Z.of_nat (length (dec_loop f n)) <= d.
Proof.
  induction f as [|f IH]; intros n d Hn Hd; [cbn; lia|]. cbn [dec_loop]. rewrite length_app.
  destruct (Z.ltb_spec n 10); [cbn; lia|].
  assert (1 < d) by (destruct (decide (d = 1)) as [->|]; lia).
  replace d with (Z.succ (d - 1)) in Hn by lia. rewrite Z.pow_succ_r in Hn by lia.
  specialize (IH (n / 10) (d - 1)). cbn [length].
  assert (0 <= n / 10 < 10 ^ (d - 1)) by (split; [apply Z.div_pos|apply Z.div_lt_upper_bound]; lia). lia.
Qed.

Lemma decimal_length k : is_i32 k -> len (decimal k) <= STRFMT_MAXBUF_INT.
Proof.
  intros Hk. unfold decimal, len, dec_nat, STRFMT_MAXBUF_INT. rewrite length_app.
  pose proof (dec_loop_length (S (Z.to_nat (Z.log2 (Z.abs k)))) (Z.abs k) 10 ltac:(widths; lia) ltac:(lia)).
  case_match; cbn [length]; lia.
Qed.

(** ** ULEB128 *)

Lemma shift_groups v sh : 0 <= sh -> (v .& 0x7f) << sh .| (v >> 7) << (sh + 7) = v << sh.
Proof.
  intros Hs. apply Z.bits_inj'. intros i Hi. change 0x7f with (Z.ones 7).
  rewrite !Z.lor_spec, !Z.shiftl_spec, Z.land_spec, Z.testbit_ones by lia.
  destruct (Z.ltb_spec i sh); [rewrite !Z.testbit_neg_r by lia; done|].
  rewrite (proj2 (Z.leb_le 0 (i - sh))) by lia. cbn [andb].
  destruct (Z.ltb_spec (i - sh) 7).
  - by rewrite (Z.testbit_neg_r (v >> 7)), andb_true_r, orb_false_r by lia.
  - rewrite andb_false_r, Z.shiftr_spec by lia. cbn. f_equal. lia.
Qed.

(** The continuation byte of [v]. *)
Lemma cont_byte v : 0x80 <= ((v .& 0x7f) .| 0x80) /\ ((v .& 0x7f) .| 0x80) .& 0x7f = v .& 0x7f.
Proof.
  split.
  - assert (0 <= v .& 0x7f) by (apply Z.land_nonneg; lia). pose proof (lor_shiftl_add (v .& 0x7f) 1 7) as L.
    change (1 << 7) with 128 in L. rewrite L; [lia| |lia]. change 127 with (2 ^ 7 - 1). rewrite land_ones_mod by lia. apply Z.mod_pos_bound. lia.
  - rewrite Z.land_lor_distr_l, <- Z.land_assoc. cbn. by rewrite Z.lor_0_r.
Qed.

Lemma u32_shift v sh : 0 <= v -> 0 <= sh -> v << sh < 2 ^ 32 -> u32 (v << sh) = v << sh.
Proof. intros Hv Hs H. apply u32_id. split; [by apply Z.shiftl_nonneg|done]. Qed.

Lemma ruleb_wuleb_loop fuel : forall v acc sh rest, (0 < fuel)%nat -> 0 <= v < 2 ^ (7 * Z.of_nat fuel) -> -7 <= sh ->
  v << (sh + 7) < 2 ^ 32 -> (v = 0 -> sh + 7 < 32) ->
  ruleb128_loop (wuleb128_loop fuel v ++ rest) acc sh = Some (acc .| (v << (sh + 7)), rest).
Proof.
  induction fuel as [|f IH]; intros v acc sh rest Hf Hv Hs Hw H0; [lia|].
  assert (Hsh : sh + 7 < 32).
  { destruct (decide (v = 0)); [auto|]. rewrite Z.shiftl_mul_pow2 in Hw by lia.
    destruct (decide (sh + 7 < 32)); [done|]. pose proof (Z.pow_le_mono_r 2 32 (sh + 7)). nia. }
  cbn [wuleb128_loop]. destruct (Z.leb_spec 0x80 v) as [Hl|Hl]; cbn [app ruleb128_loop];
    rewrite (proj2 (Z.leb_gt 32 (sh + 7))) by done.
  - destruct (cont_byte v) as [Hc ->]. rewrite (proj2 (Z.leb_le _ _) Hc).
    assert (Hlow : 0 <= v .& 0x7f <= v).
    { change 127 with (2 ^ 7 - 1). rewrite land_ones_mod by lia. split; [apply Z.mod_pos_bound; lia|apply Z.mod_le; lia]. }
    rewrite u32_shift; [|lia..|rewrite !Z.shiftl_mul_pow2 in * by lia; pose proof (Z.pow_nonneg 2 (sh + 7)); nia].
    rewrite IH; [by rewrite <- Z.lor_assoc, shift_groups by lia| | |lia| |].
    + destruct f; [|lia]. change (2 ^ (7 * Z.of_nat 1)) with 128 in Hv. lia.
    + rewrite Z.shiftr_div_pow2 by lia. split; [apply Z.div_pos; lia|]. apply Z.div_lt_upper_bound; [lia|].
      rewrite <- Z.pow_add_r by lia. replace (7 + 7 * Z.of_nat f) with (7 * Z.of_nat (S f)) by lia. apply Hv.
    + eapply Z.le_lt_trans; [|exact Hw]. rewrite (Z.add_comm (sh + 7) 7), <- Z.shiftl_shiftl by lia.
      rewrite !(Z.shiftl_mul_pow2 _ (sh + 7)) by lia. apply Z.mul_le_mono_nonneg_r; [lia|].
      rewrite Z.shiftr_div_pow2, Z.shiftl_mul_pow2 by lia. Z.div_mod_to_equations; lia.
    + rewrite Z.shiftr_div_pow2 by lia. Z.div_mod_to_equations; lia.
  - rewrite (proj2 (Z.leb_gt 0x80 v)) by done.
    assert (v .& 0x7f = v) as -> by (change 127 with (2 ^ 7 - 1); rewrite land_ones_mod by lia; apply Z.mod_small; lia).
    by rewrite u32_shift by lia.
Qed.

Lemma ruleb_wuleb v rest : is_u32 v -> lj_buf_ruleb128 (lj_strfmt_wuleb128 v ++ rest) = Some (v, rest).
Proof.
  intros Hv. unfold lj_strfmt_wuleb128. cbn [wuleb128_loop]. destruct (Z.leb_spec 0x80 v) as [Hl|Hl].
  - cbn [app lj_buf_ruleb128]. destruct (cont_byte v) as [Hc ->]. rewrite (proj2 (Z.leb_le _ _) Hc).
    change (wuleb128_loop 4 (v >> 7)) with (wuleb128_loop 4 (v >> 7)).
    assert (S0 : (v .& 0x7f) << 0 .| (v >> 7) << (0 + 7) = v << 0) by (by apply shift_groups).
    rewrite !Z.shiftl_0_r in S0. fold (wuleb128_loop 4 (v >> 7)).
    rewrite (ruleb_wuleb_loop 4); [by rewrite S0|lia| |lia| |].
    + rewrite Z.shiftr_div_pow2 by lia. wsolve.
    + rewrite Z.shiftr_div_pow2, Z.shiftl_mul_pow2 by lia. wsolve.
    + lia.
  - cbn. by rewrite (proj2 (Z.leb_gt 0x80 v)) by done.
Qed.
