(* ===== verification/StrfmtBuf.v ===== *)
(** * The conversions to a buffer stay inside the space they reserve

    Each conversion reserves a bound computed from its format and then stores
    its characters through the pointer.  The lemmas count the characters of
    every conversion and compare them with the bound. *)

From S2P Require Import Prelude Machine Num Chars Buf Strfmt StrfmtNum.

Lemma len_app s t : len (s ++ t) = len s + len t.
Proof. unfold len. rewrite length_app. lia. Qed.
Lemma len_cons c s : len (c :: s) = 1 + len s.
Proof. unfold len. cbn. lia. Qed.
Lemma len_nil : len [] = 0.
Proof. done. Qed.
Lemma len_pad w n c : len (pad w n c) = Z.max 0 (w - n).
Proof. unfold len, pad. rewrite length_replicate. lia. Qed.
Lemma len_take n s : 0 <= n -> len (take (Z.to_nat n) s) = Z.min n (len s).
Proof. intros. unfold len. rewrite length_take. lia. Qed.

Create Rewrite HintDb strlen.
#[export] Hint Rewrite len_app len_cons len_nil len_pad : strlen.

Ltac count := autorewrite with strlen; lia.

Lemma land_pow2 x k : 0 <= k -> x .& 2 ^ k = 0 \/ x .& 2 ^ k = 2 ^ k.
Proof.
  intros Hk. destruct (Z.testbit x k) eqn:E; [right|left]; apply Z.bits_inj'; intros i Hi;
    rewrite Z.land_spec, Z.pow2_bits_eqb by lia; destruct (Z.eqb_spec k i); subst; rewrite ?E, ?Z.bits_0, ?andb_false_r; done.
Qed.

Lemma flag_left sf : sf .& STRFMT_F_LEFT = 0 \/ sf .& STRFMT_F_LEFT = STRFMT_F_LEFT.
Proof. apply (land_pow2 sf 8). lia. Qed.
Lemma flag_zero sf : sf .& STRFMT_F_ZERO = 0 \/ sf .& STRFMT_F_ZERO = STRFMT_F_ZERO.
Proof. apply (land_pow2 sf 10). lia. Qed.

Lemma land_bound x m k : m = 2 ^ k - 1 -> 0 <= k -> 0 <= x .& m < 2 ^ k.
Proof. intros -> Hk. rewrite land_ones_mod by done. apply Z.mod_pos_bound. lia. Qed.

Lemma width_range sf : 0 <= STRFMT_WIDTH sf < 256.
Proof. by apply (land_bound _ 255 8). Qed.

Lemma prec_range sf : 0 <= STRFMT_PREC sf < 255 \/ STRFMT_PREC sf = 2 ^ 32 - 1.
Proof.
  unfold STRFMT_PREC. pose proof (land_bound (sf >> STRFMT_SH_PREC) 255 8 eq_refl ltac:(lia)) as H.
  destruct (decide ((sf >> STRFMT_SH_PREC) .& 255 = 0)) as [->|]; [by right|]. left.
  rewrite u32_id by (widths; lia). lia.
Qed.

(** ** Raw conversions *)

Lemma wptr_loop_len i : forall x acc, len (wptr_loop i x acc) = Z.of_nat i + len acc.
Proof. induction i as [|i IH]; intros x acc; [done|]. cbn [wptr_loop]. rewrite IH, len_cons. lia. Qed.

Lemma wptr_len v : len (lj_strfmt_wptr v) <= STRFMT_MAXBUF_PTR.
Proof.
  unfold lj_strfmt_wptr, STRFMT_MAXBUF_PTR. case_match; [by vm_compute|]. rewrite len_app, wptr_loop_len.
  assert (0 <= lj_fls (u32 (i64 v >> 32)) < 32) as Hf.
  { unfold lj_fls. split; [apply Z.log2_nonneg|]. pose proof (u32_range (i64 v >> 32)) as R.
    destruct (decide (u32 (i64 v >> 32) = 0)) as [->|]; [done|]. apply Z.log2_lt_pow2; widths; lia. }
  rewrite (Z.shiftr_div_pow2 (lj_fls _)) by lia. change (len [48; 120]) with 2. change (len []) with 0.
  case_match; Z.div_mod_to_equations; lia.
Qed.

Lemma wint_len k : is_i32 k -> len (lj_strfmt_wint k) <= STRFMT_MAXBUF_INT.
Proof. intros Hk. rewrite wint_decimal by done. by apply decimal_length. Qed.

Lemma quote_char_len c nc : 1 <= len (quote_char c nc) <= 4.
Proof. unfold quote_char. repeat case_match; simplify_eq; autorewrite with strlen; lia. Qed.

Lemma wuleb_len v : len (lj_strfmt_wuleb128 v) <= 5.
Proof.
  unfold lj_strfmt_wuleb128. assert (forall f v, len (wuleb128_loop f v) <= Z.of_nat f) as H; [|apply H].
  induction f as [|f IH]; intros w; [done|]. cbn [wuleb128_loop]. specialize (IH (w >> 7)).
  case_match; autorewrite with strlen; lia.
Qed.

(** ** Formatted integers *)

Lemma digits_loop_len f dig b : forall k q, len (digits_loop f dig b k q) <= Z.of_nat f + len q.
Proof.
  induction f as [|f IH]; intros k q; [cbn; lia|]. cbn [digits_loop].
  specialize (IH (k / b) (dig (k mod b) :: q)). rewrite len_cons in IH. case_match; autorewrite with strlen; lia.
Qed.

Lemma xint_digits_len sf k prec prefix : len (fst (xint_digits sf k prec prefix)) <= 23.
Proof.
  pose proof (digits_loop_len 20 chr 10 k []). pose proof (digits_loop_len 22 chr 8 k []).
  pose proof (fun u => digits_loop_len 16 (byte_at u) 16 k []) as H16. rewrite !len_nil in *.
  unfold xint_digits. repeat case_match; cbn [fst]; autorewrite with strlen; try lia;
    (eapply Z.le_trans; [apply H16|]); lia.
Qed.

(** The prefixes: a sign, or [0x]. *)
Definition prefix_ok (p : Z) : Prop := p ∈ [0; 256 + 45; 256 + 43; 256 + 32; 512 + 88; 512 + 120].

Lemma xint_prefix_ok sf k k' p0 sf2 prec : xint_sign sf k = (k', p0) -> prefix_ok (snd (xint_digits sf2 k' prec p0)).
Proof.
  intros H. assert (P : prefix_ok p0).
  { unfold xint_sign in H. unfold prefix_ok. rewrite !elem_of_cons. repeat case_match; injection H as _ <-; tauto. }
  unfold xint_digits. repeat case_match; cbn [snd]; try exact P; unfold prefix_ok; rewrite !elem_of_cons; tauto.
Qed.

(** The characters [lj_strfmt_putfxint] stores, as it computes them. *)
Definition fxint_text (sf l prec width prefix : Z) (q : list Z) : list Z :=
  let pprec := prec + (prefix >> 8) in
  let lz := sf .& (STRFMT_F_LEFT .| STRFMT_F_ZERO) in
  (if lz =? 0 then pad width pprec 32 else []) ++
  (if negb (prefix =? 0) then (if 88 <=? u8 prefix then [48] else []) ++ [u8 prefix] else []) ++
  (if lz =? STRFMT_F_ZERO then pad width pprec 48 else []) ++ pad prec l 48 ++ q ++
  (if flag sf STRFMT_F_LEFT then pad width pprec 32 else []).

Lemma prefix_len p : prefix_ok p ->
  len (if negb (p =? 0) then (if 88 <=? u8 p then [48] else []) ++ [u8 p] else []) = p >> 8.
Proof. unfold prefix_ok. rewrite !elem_of_cons, elem_of_nil. intros H. repeat destruct H as [->|H]; done. Qed.

Lemma one_padding sf w n :
  len (if sf .& (STRFMT_F_LEFT .| STRFMT_F_ZERO) =? 0 then pad w n 32 else []) +
  len (if sf .& (STRFMT_F_LEFT .| STRFMT_F_ZERO) =? STRFMT_F_ZERO then pad w n 48 else []) +
  len (if flag sf STRFMT_F_LEFT then pad w n 32 else []) = Z.max 0 (w - n).
Proof.
  unfold flag. rewrite Z.land_lor_distr_r.
  destruct (flag_left sf) as [-> | ->], (flag_zero sf) as [-> | ->];
    rewrite <- (len_pad w n 32);
    repeat match goal with |- context [if ?b then _ else _] => let v := eval vm_compute in b in change b with v; cbv iota end;
    rewrite ?len_nil, ?len_pad; lia.
Qed.

Lemma fxint_text_len sf l prec w prefix q : prefix_ok prefix -> len q = l -> l <= prec ->
  len (fxint_text sf l prec w prefix q) = Z.max w (prec + (prefix >> 8)).
Proof.
  intros Hp Hq Hl. unfold fxint_text. rewrite !len_app, len_pad. pose proof (one_padding sf w (prec + (prefix >> 8))).
  rewrite prefix_len by done. lia.
Qed.

(** Everything [lj_strfmt_putfxint] computes before it reserves space: the
    flags, the number of digits, the precision, the prefix and the digits. *)
Definition fxint_parts (sf k : Z) : Z * Z * Z * Z * list Z :=
  let '(k, prefix) := xint_sign sf k in
  let prec := STRFMT_PREC sf in
  let sf := if 0 <=? i32 prec then sf .& Z.lnot STRFMT_F_ZERO else sf in
  let '(q, prefix) := xint_digits sf k prec prefix in
  (sf, len q, if i32 prec <=? len q then len q else prec, prefix, q).

Lemma fxint_parts_ok sf k : forall sf' l prec prefix q, fxint_parts sf k = (sf', l, prec, prefix, q) ->
  prefix_ok prefix /\ len q = l /\ 0 <= l <= prec /\ prec < 256.
Proof.
  intros sf' l prec prefix q. unfold fxint_parts. destruct (xint_sign sf k) as [k' p0] eqn:E.
  set (sf2 := if 0 <=? _ then _ else _).
  pose proof (xint_prefix_ok sf k k' p0 sf2 (STRFMT_PREC sf) E) as P. pose proof (xint_digits_len sf2 k' (STRFMT_PREC sf) p0) as L.
  destruct (xint_digits _ _ _ _) as [q' p]; cbn [fst snd] in *. rewrite !pair_equal_spec.
  intros [[[[<- <-] <-] <-] <-].
  pose proof (len_nonneg q'). split; [done|]. split; [done|].
  destruct (prec_range sf) as [H'|H']; [|rewrite H'; change (i32 (2 ^ 32 - 1)) with (-1); rewrite (proj2 (Z.leb_le (-1) (len q'))) by lia; lia].
  rewrite i32_id by (widths; lia). destruct (Z.leb_spec (STRFMT_PREC sf) (len q')); lia.
Qed.

Section Put.
Context (raw : nat -> Z).

Lemma putfxint_parts sb sf k :
  lj_strfmt_putfxint raw sb sf k =
  let '(sf', l, prec, prefix, q) := fxint_parts sf k in
  let w := STRFMT_WIDTH sf' in
  sb_put raw sb (if prec + (prefix >> 8) <? w then w else prec + (prefix >> 8)) (fxint_text sf' l prec w prefix q).
Proof.
  unfold lj_strfmt_putfxint, fxint_parts. destruct (xint_sign sf k) as [k' p0]. cbv zeta.
  destruct (xint_digits _ _ _ _) as [q p]. reflexivity.
Qed.

(** The characters of a formatted integer. *)
Definition fxint_str (sf k : Z) : list Z :=
  let '(sf', l, prec, prefix, q) := fxint_parts sf k in fxint_text sf' l prec (STRFMT_WIDTH sf') prefix q.

Lemma putfxint_ok sb sf k : buf_ok sb -> appended 0 sb (fxint_str sf k) (lj_strfmt_putfxint raw sb sf k).
Proof.
  intros B. rewrite putfxint_parts. unfold fxint_str.
  destruct (fxint_parts sf k) as [[[[sf' l] prec] prefix] q] eqn:E.
  destruct (fxint_parts_ok _ _ _ _ _ _ _ E) as (P & L & Hl & Hp). cbv zeta.
  pose proof (width_range sf') as W.
  assert (0 <= prefix >> 8 <= 2).
  { unfold prefix_ok in P. rewrite !elem_of_cons, elem_of_nil in P. repeat destruct P as [->|P]; done. }
  apply sb_put_ok; [done| |rewrite fxint_text_len by (done || lia)]; destruct (Z.ltb_spec (prec + (prefix >> 8)) (STRFMT_WIDTH sf')); lia.
Qed.

(** ** Strings and characters *)

Definition fchar_str (sf c : Z) : list Z :=
  (if flag sf STRFMT_F_LEFT then [u8 c] else []) ++ pad (STRFMT_WIDTH sf) 1 32 ++
  (if flag sf STRFMT_F_LEFT then [] else [u8 c]).

Lemma putfchar_ok sb sf c : buf_ok sb -> appended 0 sb (fchar_str sf c) (lj_strfmt_putfchar raw sb sf c).
Proof.
  intros B. unfold lj_strfmt_putfchar, fchar_str. pose proof (width_range sf).
  apply sb_put_ok; [done| |]; destruct (Z.ltb_spec 1 (STRFMT_WIDTH sf)); [lia..| |]; destruct (flag sf STRFMT_F_LEFT); count.
Qed.

Definition fstr_str (sf : Z) (s : list Z) : list Z :=
  let l := Z.min (len s) (STRFMT_PREC sf) in
  let str := take (Z.to_nat l) s in
  (if flag sf STRFMT_F_LEFT then str else []) ++ pad (STRFMT_WIDTH sf) l 32 ++
  (if flag sf STRFMT_F_LEFT then [] else str).

Lemma putfstr_ok sb sf s : buf_ok sb -> len s < 2 ^ 31 -> appended 0 sb (fstr_str sf s) (lj_strfmt_putfstr raw sb sf s).
Proof.
  intros B Hs. unfold lj_strfmt_putfstr, fstr_str. pose proof (width_range sf). pose proof (len_nonneg s).
  assert (E : (if len s <=? STRFMT_PREC sf then len s else STRFMT_PREC sf) = Z.min (len s) (STRFMT_PREC sf))
    by (destruct (Z.leb_spec (len s) (STRFMT_PREC sf)); lia).
  rewrite E. set (l := Z.min _ _). assert (Hl : 0 <= l <= len s) by (destruct (prec_range sf); lia). clearbody l.
  apply sb_put_ok; [done| |]; destruct (Z.ltb_spec l (STRFMT_WIDTH sf)); [lia..| |];
    destruct (flag sf STRFMT_F_LEFT); autorewrite with strlen; rewrite len_take; lia.
Qed.

Fixpoint quoted_body (s : list Z) : list Z :=
  match s with [] => [] | c :: s => quote_char c (byte_at s 0) ++ quoted_body s end.
(** The quoted form of a string. *)
Definition quoted (s : list Z) : list Z := [34] ++ quoted_body s ++ [34].

Lemma appended_le c c' sb s r : appended c sb s r -> c <= c' -> appended c' sb s r.
Proof. intros [[E M]|H] Hc; [left; split; [done|lia]|by right]. Qed.

Lemma appended_bind c sb s t (r : bres SBuf) (f : SBuf -> bres SBuf) : appended c sb s r ->
  (forall sb', buf_ok sb' -> appended c sb' t (f sb')) -> appended c sb (s ++ t) (r ≫= f).
Proof.
  pose proof (len_nonneg t) as Lt.
  intros [[-> M]|(sb1 & -> & B1 & S1 & P1)] Hf; [left; split; [done|rewrite len_app; lia]|]. cbn [mbind res_bind].
  destruct (Hf sb1 B1) as [[-> M]|(sb2 & -> & B2 & S2 & P2)]; [left; split; [done|rewrite len_app; lia]|]. right. exists sb2.
  split; [done|]. split; [done|]. rewrite S2, S1, app_assoc. split; [done|]. rewrite len_app. lia.
Qed.

Lemma putb_ok k sb c : 0 <= k -> buf_ok sb -> is_u8 c -> appended k sb [c] (lj_buf_putb raw sb c).
Proof. intros Hk B Hc. unfold lj_buf_putb. rewrite u8_id by done. apply sb_put_ok; [done|done|]. unfold len; cbn; lia. Qed.

Lemma putquoted_loop_ok s : forall sb, buf_ok sb -> appended 3 sb (quoted_body s) (putquoted_loop raw sb s).
Proof.
  induction s as [|c s IH]; intros sb B.
  - right. exists sb. cbn. rewrite app_nil_r. split; [done|]. split; [done|]. split; [done|]. unfold len. cbn. lia.
  - cbn [putquoted_loop quoted_body]. apply appended_bind; [|done].
    apply sb_put_ok; [done|lia|]. pose proof (quote_char_len c (byte_at s 0)). lia.
Qed.

Lemma putquoted_ok sb s : buf_ok sb -> appended 3 sb (quoted s) (lj_strfmt_putquoted raw sb s).
Proof.
  intros B. unfold lj_strfmt_putquoted, quoted. apply appended_bind; [by apply putb_ok|].
  intros sb1 B1. apply appended_bind; [by apply putquoted_loop_ok|]. intros sb2 B2. by apply putb_ok.
Qed.
End Put.
