(* ===== verification/StrfmtParse.v ===== *)
(** * The format parser advances and the formatting loop ends

    The parser stays inside the format string, the words it returns have at
    most two digits for the width and the precision ([word_ok]), and the loop
    over the format string ends. *)

From S2P Require Import Prelude Machine Num Chars Buf Strfmt StrfmtNum StrfmtBuf.

(** A parser state: the position is inside the format string. *)
Record fs_ok (fs : FormatState) : Prop := {
  fo_e : fs_e fs = len (fs_s fs);
  fo_p : 0 <= fs_p fs <= fs_e fs;
  fo_bytes : bytes (fs_s fs)
}.

Section Scan.
Context (s : list Z) (Hs : bytes s).

Lemma at_char p : 0 <= p -> byte_at s p <> 0 -> p < len s.
Proof.
  intros Hp H. unfold byte_at, len in *. destruct (s !! Z.to_nat p) eqn:E; [|done].
  apply lookup_lt_Some in E. lia.
Qed.

Lemma u32_sub_small c k n : is_u8 c -> 0 <= k <= 255 -> u32 (c - k) <= n -> n < 2 ^ 31 -> k <= c <= n + k.
Proof using. intros Hc Hk. wsolve. Qed.

Lemma isdig_char p : 0 <= p -> isdig s p = true -> p < len s.
Proof.
  unfold isdig. intros Hp H%Z.ltb_lt. pose proof (byte_at_u8 s p Hs).
  pose proof (u32_sub_small (byte_at s p) 48 9 ltac:(done) ltac:(lia) ltac:(lia) ltac:(lia)). apply at_char; lia.
Qed.

(** The flags: the loop stops at a character that is not a flag. *)
Lemma parse_flags_ok fuel : forall p sf, 0 <= p <= len s -> len s - p < Z.of_nat fuel ->
  exists p' sf', parse_flags s fuel p sf = Some (p', sf') /\ p <= p' <= len s.
Proof.
  induction fuel as [|f IH]; intros p sf Hp Hf; [lia|]. cbn [parse_flags].
  assert (G : forall sf, byte_at s p <> 0 -> exists p' sf', parse_flags s f (p + 1) sf = Some (p', sf') /\ p <= p' <= len s).
  { intros sf0 H. pose proof (at_char p ltac:(lia) H).
    destruct (IH (p + 1) sf0) as (p' & sf' & E & B); [lia|lia|]. exists p', sf'. split; [done|lia]. }
  assert (R : exists p' sf', Some (p, sf) = Some (p', sf') /\ p <= p' <= len s) by (exists p, sf; split; [done|lia]).
  destruct (_ <=? _); [|exact R].
  repeat match goal with |- context [if ?a =? ?b then _ else _] => destruct (Z.eqb_spec a b) end; try exact R; apply G; lia.
Qed.

Lemma parse_num2_ok p : 0 <= p -> isdig s p = true -> p < fst (parse_num2 s p) <= len s.
Proof.
  intros Hp H. pose proof (isdig_char p Hp H). unfold parse_num2. destruct (isdig s (p + 1)) eqn:E; cbn [fst]; [|lia].
  apply isdig_char in E; lia.
Qed.

(** A conversion specification: the position moves past the percent sign and
    the specification is not a literal or the end. *)
Lemma parse_spec_ok fs p : fs_s fs = s -> fs_e fs = len s -> 0 <= p < len s -> fs_str fs = p ->
  exists fs' sf, parse_spec fs p = Some (fs', sf) /\ fs_s fs' = s /\ fs_e fs' = len s /\ p < fs_p fs' <= len s /\
    fs_str fs' = p.
Proof.
  intros Es Ee Hp Ep. unfold parse_spec. rewrite Es, Ee, Ep.
  destruct (parse_flags_ok (S (length s)) (p + 1) 0) as (p1 & sf1 & -> & H1); [lia|unfold len in *; lia|]. cbn [mbind option_bind].
  set (w := if isdig s p1 then _ else _).
  assert (Hw : p < fst w <= len s).
  { subst w. destruct (isdig s p1) eqn:E; [|cbn; lia]. pose proof (parse_num2_ok p1 ltac:(lia) E).
    destruct (parse_num2 s p1). cbn [fst] in *. lia. }
  destruct w as [p2 sf2]. cbn [fst] in Hw.
  set (q := if byte_at s p2 =? 46 then _ else _).
  assert (Hq : p < fst q <= len s).
  { subst q. destruct (Z.eqb_spec (byte_at s p2) 46) as [E|]; [|cbn; lia].
    pose proof (at_char p2 ltac:(lia) ltac:(lia)). destruct (isdig s (p2 + 1)) eqn:D; [|cbn; lia].
    pose proof (parse_num2_ok (p2 + 1) ltac:(lia) D). destruct (parse_num2 s (p2 + 1)). cbn [fst] in *. lia. }
  destruct q as [p3 sf3]. cbn [fst] in Hq. cbv zeta.
  set (c := u32 (byte_at s p3 - 65)).
  set (sx := if c <=? 120 - 65 then _ else _). destruct (negb (sx =? 0)) eqn:E.
  - eexists _, _. split; [reflexivity|]. cbn. split; [done|]. split; [done|]. split; [|done].
    assert (p3 < len s); [|lia]. apply at_char; [lia|].
    subst sx. destruct (Z.leb_spec c (120 - 65)); [|done]. pose proof (byte_at_u8 s p3 Hs).
    pose proof (u32_sub_small (byte_at s p3) 65 55 ltac:(done) ltac:(lia) ltac:(done) ltac:(lia)). lia.
  - eexists _, _. split; [reflexivity|]. cbn. split; [done|]. split; [done|]. split; [lia|done].
Qed.

(** The outcome of the parser from [fs], at [p]. *)
Definition parsed (fs : FormatState) (r : option (FormatState * Z)) : Prop :=
  exists fs' sf, r = Some (fs', sf) /\ fs_s fs' = s /\ fs_e fs' = len s /\
    (sf = STRFMT_EOF \/ fs_p fs < fs_p fs' <= len s).

Lemma retlit_ok fs np p : fs_s fs = s -> fs_e fs = len s -> fs_str fs = fs_p fs ->
  (p = fs_str fs -> np = p) -> (fs_str fs < p -> p <= np <= len s) -> fs_str fs <= p -> parsed fs (Some (retlit fs np p)).
Proof.
  intros Es Ee Ep H0 H1 Hp. unfold retlit, parsed. eexists _, _. split; [reflexivity|]. cbn.
  split; [done|]. split; [done|]. destruct (Z.eqb_spec (p - fs_str fs) 0); cbn; [by left|right; lia].
Qed.

Lemma parse_loop_ok fs fuel : fs_s fs = s -> fs_e fs = len s -> fs_str fs = fs_p fs ->
  forall p, 0 <= fs_p fs <= p -> p <= len s -> len s - p < Z.of_nat fuel -> parsed fs (parse_loop fuel fs p).
Proof.
  intros Es Ee Ep. induction fuel as [|f IH]; intros p H0 H1 Hf; [lia|]. cbn [parse_loop]. rewrite Es, Ee.
  destruct (Z.ltb_spec p (len s)); [|apply retlit_ok; (done || lia)].
  destruct (Z.eqb_spec (byte_at s p) 37); [|apply IH; lia].
  destruct (Z.eqb_spec (byte_at s (p + 1)) 37).
  - pose proof (at_char (p + 1) ltac:(lia) ltac:(lia)). apply retlit_ok; (done || lia).
  - destruct (Z.eqb_spec p (fs_str fs)); cbn [negb]; [|apply retlit_ok; (done || lia)].
    destruct (parse_spec_ok fs p Es Ee ltac:(lia) ltac:(done)) as (fs' & sf & -> & E1 & E2 & P & _).
    exists fs', sf. do 3 (split; [done|]). right. lia.
Qed.
End Scan.

Lemma lj_strfmt_parse_ok fs : fs_ok fs ->
  exists fs' sf, lj_strfmt_parse fs = Some (fs', sf) /\ (sf = STRFMT_EOF \/ (fs_ok fs' /\ fs_p fs < fs_p fs' /\ fs_e fs' = fs_e fs)).
Proof.
  intros [Ee Hp Hb]. unfold lj_strfmt_parse. set (fs0 := mkFS _ _ _ _ _).
  destruct (parse_loop_ok (fs_s fs) Hb fs0 (S (Z.to_nat (fs_e fs0 - fs_p fs0))) eq_refl Ee eq_refl (fs_p fs))
    as (fs' & sf & E & E1 & E2 & P); [cbn; lia|lia|cbn; lia|].
  exists fs', sf. split; [exact E|]. destruct P as [P|P]; [by left|]. right. cbn in P. split; [|lia].
  split; [by rewrite E1|lia|by rewrite E1].
Qed.

(** ** The format words

    The parser takes at most two digits for the width and for the precision. *)
Definition word_ok (sf : Z) : Prop := STRFMT_WIDTH sf <= 99 /\ (STRFMT_PREC sf <= 99 \/ STRFMT_PREC sf = 2 ^ 32 - 1).

Lemma shiftr_low a k n : 0 <= a < 2 ^ k -> 0 <= k <= n -> a >> n = 0.
Proof.
  intros Ha Hk. rewrite Z.shiftr_div_pow2 by lia. apply Z.div_small. pose proof (Z.pow_le_mono_r 2 k n ltac:(lia) ltac:(lia)). lia.
Qed.

Lemma word_fields fl w p1 sx up : 0 <= fl < 2 ^ 16 -> 0 <= w <= 99 -> 0 <= p1 <= 100 -> 0 <= sx < 2 ^ 16 -> 0 <= up < 2 ^ 16 ->
  word_ok (fl .| (w << STRFMT_SH_WIDTH) .| (p1 << STRFMT_SH_PREC) .| sx .| up).
Proof.
  intros Hf Hw Hp Hs Hu. unfold word_ok, STRFMT_WIDTH, STRFMT_PREC, STRFMT_SH_WIDTH, STRFMT_SH_PREC. change 255 with (2 ^ 8 - 1).
  rewrite !Z.shiftr_lor, !land_ones_mod by lia.
  rewrite !(shiftr_low _ 16 _ Hf), !(shiftr_low _ 16 _ Hs), !(shiftr_low _ 16 _ Hu) by lia. rewrite !Z.lor_0_r, !Z.lor_0_l.
  rewrite !Z.shiftr_shiftl_l by lia. change (16 - 16) with 0. change (24 - 16) with 8. change (24 - 24) with 0. rewrite !Z.shiftl_0_r.
  replace (w << (16 - 24)) with 0 by (symmetry; apply (shiftr_low w 7 8); lia). rewrite Z.lor_0_l. split.
  - rewrite <- land_ones_mod, Z.land_lor_distr_l, !land_ones_mod, Z.shiftl_mul_pow2, Z.mod_mul, Z.lor_0_r, Z.mod_small by lia. lia.
  - rewrite Z.mod_small by lia. destruct (decide (p1 = 0)) as [->|]; [by right|left]. rewrite u32_id by (widths; lia). lia.
Qed.

Section Words.
Context (s : list Z) (Hs : bytes s).

Lemma isdig_range p : isdig s p = true -> 0 <= byte_at s p - 48 <= 9.
Proof.
  unfold isdig. intros H%Z.ltb_lt. pose proof (byte_at_u8 s p Hs) as B.
  pose proof (u32_sub_small (byte_at s p) 48 9 B ltac:(lia) ltac:(lia) ltac:(lia)). lia.
Qed.

Lemma num2_range p : isdig s p = true -> 0 <= snd (parse_num2 s p) <= 99.
Proof.
  intros H. pose proof (isdig_range p H). unfold parse_num2. destruct (isdig s (p + 1)) eqn:E; cbn [snd]; [|lia].
  apply isdig_range in E. lia.
Qed.

Lemma parse_flags_range fuel : forall p sf p' sf', 0 <= sf < 2 ^ 16 -> parse_flags s fuel p sf = Some (p', sf') -> 0 <= sf' < 2 ^ 16.
Proof using.
  induction fuel as [|f IH]; intros p sf p' sf' H E; [done|]. cbn [parse_flags] in E.
  assert (R : forall k, 0 <= k < 2 ^ 16 -> 0 <= sf .| k < 2 ^ 16) by (intros; by apply lor_range).
  repeat case_match; try (by injection E as <- <-); (eapply IH; [|exact E]; by apply R).
Qed.

Lemma strfmt_map_range i : 0 <= default 0 (strfmt_map !! i) < 2 ^ 16.
Proof using.
  destruct (strfmt_map !! i) as [x|] eqn:E; [|done]. cbn. assert (F : Forall (fun x => 0 <= x < 2 ^ 16) strfmt_map) by (repeat constructor; done).
  exact (Forall_lookup_1 _ _ _ _ F E).
Qed.

Lemma parse_spec_word fs p fs' sf : fs_s fs = s -> parse_spec fs p = Some (fs', sf) -> word_ok sf.
Proof.
  intros Es E. unfold parse_spec in E. rewrite Es in E.
  destruct (parse_flags s _ _ 0) as [[p1 fl]|] eqn:Ef; cbn [mbind option_bind] in E; [|done].
  apply parse_flags_range in Ef; [|done].
  assert (W : exists w p2, (if isdig s p1 then let '(p, width) := parse_num2 s p1 in (p, fl .| (width << STRFMT_SH_WIDTH)) else (p1, fl)) =
    (p2, fl .| (w << STRFMT_SH_WIDTH)) /\ 0 <= w <= 99).
  { destruct (isdig s p1) eqn:D; [|exists 0, p1; by rewrite Z.shiftl_0_l, Z.lor_0_r].
    pose proof (num2_range p1 D). destruct (parse_num2 s p1) as [p2 w]. by exists w, p2. }
  destruct W as (w & p2 & Ew & Hw). rewrite Ew in E. clear Ew. cbv beta iota in E. set (sf2 := fl .| _) in E.
  set (q := if byte_at s p2 =? 46 then _ else _) in E.
  assert (P : exists k p3, q = (p3, sf2 .| (k << STRFMT_SH_PREC)) /\ 0 <= k <= 100).
  { subst q. destruct (_ =? 46); [|exists 0, p2; by rewrite Z.shiftl_0_l, Z.lor_0_r]. cbv zeta. destruct (isdig s (p2 + 1)) eqn:D; [|by exists 1, (p2 + 1)].
    pose proof (num2_range (p2 + 1) D). destruct (parse_num2 s (p2 + 1)) as [p3 n]. cbn [snd] in *. exists (n + 1), p3. split; [done|lia]. }
  destruct P as (k & p3 & -> & Hk). cbv beta iota zeta in E.
  destruct (negb _); [|injection E as _ <-; split; [done|by right]]. injection E as _ <-. subst sf2. apply word_fields; try done.
  - case_match; [apply strfmt_map_range|done].
  - by case_match.
Qed.

Lemma parse_loop_word fuel : forall fs p fs' sf, fs_s fs = s -> parse_loop fuel fs p = Some (fs', sf) -> word_ok sf.
Proof.
  induction fuel as [|f IH]; intros fs p fs' sf Es E; [done|]. cbn [parse_loop] in E.
  assert (R : forall np q, Some (retlit fs np q) = Some (fs', sf) -> word_ok sf).
  { intros np q H. assert (sf = STRFMT_LIT \/ sf = STRFMT_EOF) as [-> | ->].
    { clear E. unfold retlit in H. destruct (negb _); injection H as _ H; auto. }
    - split; [done|by right].
    - split; [done|by right]. }
  repeat case_match; eauto using parse_spec_word.
Qed.
End Words.

(** The words that the parser returns. *)
Lemma lj_strfmt_parse_word fs fs' sf : bytes (fs_s fs) -> lj_strfmt_parse fs = Some (fs', sf) -> word_ok sf.
Proof. intros B E. by eapply parse_loop_word; [exact B| |exact E]. Qed.

Section Pushvf.
Context (raw : nat -> Z) (sprintf : list Z -> Z -> list Z) (BIONIC : bool).

(** The formatting loop stops: it never runs out of fuel, whatever the format
    string and the arguments. *)
Lemma pushvf_step_fuel sb fs sf argp : pushvf_step raw sprintf BIONIC sb fs sf argp <> Err FMT_FUEL.
Proof.
  unfold pushvf_step. assert (G : forall (r : bres SBuf) a, (sb ← lift_buf r; Ok (sb, a)) <> Err (E := fmt_err) (A := SBuf * list fmt_arg) FMT_FUEL).
  { intros [b|e] a; cbn; done. }
  cbv zeta. repeat match goal with |- context [if ?b then _ else _] => destruct b end; try apply G;
    destruct argp as [|[] ?]; try apply G; done.
Qed.

Lemma pushvf_loop_fuel fuel : forall sb fs argp, fs_ok fs -> fs_e fs - fs_p fs < Z.of_nat fuel ->
  pushvf_loop raw sprintf BIONIC fuel sb fs argp <> Err FMT_FUEL.
Proof.
  induction fuel as [|f IH]; intros sb fs argp F Hf; [pose proof (fo_p _ F); lia|]. cbn [pushvf_loop].
  destruct (lj_strfmt_parse_ok fs F) as (fs' & sf & -> & [->|(F' & P & Ee)]); [done|].
  destruct (sf =? STRFMT_EOF); [done|]. pose proof (pushvf_step_fuel sb fs' sf argp) as S.
  destruct (pushvf_step _ _ _ _ _ _ _) as [[sb' argp']|e]; cbn [mbind res_bind]; [apply IH; [done|lia]|congruence].
Qed.

Lemma pushvf_ends tmpbuf fmt argp : bytes fmt -> lj_strfmt_pushvf raw sprintf BIONIC tmpbuf fmt argp <> Err FMT_FUEL.
Proof.
  intros Hb. unfold lj_strfmt_pushvf.
  pose proof (pushvf_loop_fuel (S (length fmt)) (lj_buf_reset tmpbuf) (lj_strfmt_init fmt) argp) as H.
  destruct (pushvf_loop _ _ _ _ _ _ _) as [sb|e]; cbn [mbind res_bind]; [done|].
  intros [= ->]. apply H; [|unfold lj_strfmt_init, len; cbn; lia|done].
  split; cbn; [done| |done]. pose proof (len_nonneg fmt). lia.
Qed.
End Pushvf.
