(* ===== verification/Strscan.v ===== *)
(** * String to number conversion ([lj_strscan.c], [lj_strscan.h])

    The scanner for numbers in strings and in source code, with its parsers
    for hexadecimal, octal, decimal and binary numbers and the conversion of
    decimal digits to a double in a circular buffer of base-100 digits.

    A string is a list of characters behind which a NUL follows; a pointer is
    an index.  Loops whose number of rounds is not a count of characters take
    fuel and leave with [SCAN_FUEL]. *)

From Stdlib Require Import Floats.SpecFloat.
From S2P Require Import Prelude Machine Num Chars.

Definition STRSCAN_OPT_TOINT : Z := 0x01.
Definition STRSCAN_OPT_TONUM : Z := 0x02.
Definition STRSCAN_OPT_IMAG : Z := 0x04.
Definition STRSCAN_OPT_LL : Z := 0x08.
Definition STRSCAN_OPT_C : Z := 0x10.

(** [StrScanFmt]; the code computes with the numbers. *)
Definition STRSCAN_ERROR : Z := 0.
Definition STRSCAN_NUM : Z := 1.
Definition STRSCAN_IMAG : Z := 2.
Definition STRSCAN_INT : Z := 3.
Definition STRSCAN_U32 : Z := 4.
Definition STRSCAN_I64 : Z := 5.
Definition STRSCAN_U64 : Z := 6.

(** The member of the union [*o] that was stored. *)
Inductive ScanVal := SVi (i : Z) | SVn (n : Z) | SVu64 (u : Z) | SVnone.

Inductive ScanExit := SCAN_ERROR | SCAN_FUEL.
Abbreviation sres := (res ScanExit).

Definition opt_has (opt o : Z) : bool := negb ((opt .& o) =? 0).
Definition casecmp (c k : Z) : bool := (c .| 0x20) =? k.
Definition is_digit (c : Z) : bool := nz (lj_char_isdigit c).
Definition is_space (c : Z) : bool := nz (lj_char_isspace c).

(** ** Conversion to double *)

(** [ldexp(n, e)] *)
Definition dldexp (n e : Z) : Z :=
  match num_of_bits n with
  | S754_finite s m x => bits_of_num (binary_round prec emax s m (x + e))
  | _ => n
  end.

Definition strscan_double (x ex2 : Z) (neg : bool) : Z :=
  let x :=
    if (ex2 <=? -1075) && negb (x =? 0) then
      let b := lj_fls x in
      if (b + ex2 <=? -1023) && (-1075 <=? b + ex2) then
        let rb := u64 (1 << (-1075 - ex2)) in
        let x := if negb ((x .& rb) =? 0) && negb ((x .& u64 (rb + rb + rb - 1)) =? 0) then u64 (x + (rb + rb)) else x in
        x .& Z.lnot (u64 (rb + rb - 1))
      else x
    else x in
  let n := int2num (i64 x) in
  let n := if neg then dneg n else n in
  if negb (ex2 =? 0) then dldexp n ex2 else n.

(** Bring [x] below [2 ^ 62] with a sticky bit, then convert. *)
Definition reduce_double (x ex2 : Z) (neg : bool) : Z :=
  if negb ((x .& 0xc000000000000000) =? 0) then strscan_double ((x >> 2) .| (x .& 3)) (ex2 + 2) neg
  else strscan_double x ex2 neg.

(** [neg ? -(int32_t)x : (int32_t)x], and for 64 bits. *)
Definition neg_i32 (neg : bool) (x : Z) : Z := if neg then i32 (- i32 x) else i32 x.
Definition neg_u64 (neg : bool) (x : Z) : Z := if neg then u64 (- x) else x.
Definition b2z (b : bool) : Z := if b then 1 else 0.

Section Scan.
(** The string; [sizeof(long) == 8]; and what the stack array of digits holds
    before it is written. *)
Context (s : list Z) (LONG8 : bool) (stk : list Z).

Definition chr_at (p : Z) : Z := byte_at s p.

(** The place of the next digit: behind a decimal point. *)
Definition skip_dot (p : Z) : Z := if chr_at p =? 46 then p + 1 else p.

(** The format-specific handling that hexadecimal and binary numbers share,
    up to the conversion to double. *)
Definition fmt_value (x fmt opt dig ex2 : Z) (neg : bool) (max32 max64 : Z) : Z * ScanVal :=
  let fin fmt := (fmt, SVn (reduce_double x ex2 neg)) in
  let u32case := if max32 <? dig then (STRSCAN_ERROR, SVnone) else (STRSCAN_U32, SVi (neg_i32 neg x)) in
  if fmt =? STRSCAN_INT then
    if negb (opt_has opt STRSCAN_OPT_TONUM) && (x <? 0x80000000 + b2z neg) then (STRSCAN_INT, SVi (neg_i32 neg x))
    else if negb (opt_has opt STRSCAN_OPT_C) then fin STRSCAN_NUM
    else u32case
  else if fmt =? STRSCAN_U32 then u32case
  else if (fmt =? STRSCAN_I64) || (fmt =? STRSCAN_U64) then
    if max64 <? dig then (STRSCAN_ERROR, SVnone) else (fmt, SVu64 (neg_u64 neg x))
  else fin fmt.

(** ** Hexadecimal *)

Fixpoint hex_digits (n : nat) (p x : Z) : Z * Z :=
  match n with
  | O => (p, x)
  | S n =>
      let p := skip_dot p in
      let d := chr_at p in
      let d := if 57 <? d then d + 9 else d in
      hex_digits n (p + 1) (u64 ((x << 4) + (d .& 15)))
  end.

Fixpoint hex_excess (n : nat) (p x ex2 : Z) : Z * Z :=
  match n with
  | O => (x, ex2)
  | S n => let p := skip_dot p in hex_excess n (p + 1) (x .| b2z (negb (chr_at p =? 48))) (ex2 + 4)
  end.

Definition strscan_hex (p fmt opt ex2 : Z) (neg : bool) (dig : Z) : Z * ScanVal :=
  let '(p, x) := hex_digits (Z.to_nat (if 16 <? dig then 16 else dig)) p 0 in
  let '(x, ex2) := hex_excess (Z.to_nat (dig - 16)) p x ex2 in
  fmt_value x fmt opt dig ex2 neg 8 16.

(** ** Octal *)

Fixpoint oct_digits (n : nat) (p x : Z) : option Z :=
  match n with
  | O => Some x
  | S n =>
      if (48 <=? chr_at p) && (chr_at p <=? 55) then oct_digits n (p + 1) (u64 ((x << 3) + (chr_at p .& 7)))
      else None
  end.

Definition strscan_oct (p fmt : Z) (neg : bool) (dig : Z) : Z * ScanVal :=
  if (22 <? dig) || ((dig =? 22) && (49 <? chr_at p)) then (STRSCAN_ERROR, SVnone)
  else
    match oct_digits (Z.to_nat dig) p 0 with
    | None => (STRSCAN_ERROR, SVnone)
    | Some x =>
        if (fmt =? STRSCAN_INT) || (fmt =? STRSCAN_U32) then
          let fmt := if (fmt =? STRSCAN_INT) && (0x80000000 + b2z neg <=? x) then STRSCAN_U32 else fmt in
          if negb (x >> 32 =? 0) then (STRSCAN_ERROR, SVnone) else (fmt, SVi (neg_i32 neg x))
        else (fmt, SVu64 (neg_u64 neg x))
    end.

(** ** Binary *)

Fixpoint bin_digits (n : nat) (p x : Z) : option Z :=
  match n with
  | O => Some x
  | S n =>
      if (chr_at p .& Z.lnot 1) =? 48 then bin_digits n (p + 1) (u64 ((x << 1) .| (chr_at p .& 1)))
      else None
  end.

Definition strscan_bin (p fmt opt ex2 : Z) (neg : bool) (dig : Z) : Z * ScanVal :=
  if negb (ex2 =? 0) || (64 <? dig) then (STRSCAN_ERROR, SVnone)
  else
    match bin_digits (Z.to_nat dig) p 0 with
    | None => (STRSCAN_ERROR, SVnone)
    (* the digits were bounded by 64 before *)
    | Some x => fmt_value x fmt opt dig ex2 neg 32 64
    end.

(** ** Decimal *)

Definition STRSCAN_DIG : Z := 1024.
Definition STRSCAN_MAXDIG : Z := 800.
Definition STRSCAN_DDIG : Z := STRSCAN_DIG / 2.
Definition STRSCAN_DMASK : Z := STRSCAN_DDIG - 1.
Definition DNEXT (a : Z) : Z := (a + 1) .& STRSCAN_DMASK.
Definition DPREV (a : Z) : Z := (a - 1) .& STRSCAN_DMASK.
Definition DLEN (lo hi : Z) : Z := (lo - hi) .& STRSCAN_DMASK.

(** The digit at [p], and the pairs of digits: the array up to [xip]. *)
Definition dec_digit (p : Z) : Z * Z := let p := skip_dot p in (chr_at p .& 15, p + 1).

Fixpoint dec_pairs (n : nat) (p : Z) (xi : list Z) : Z * list Z :=
  match n with
  | O => (p, xi)
  | S n =>
      let '(d1, p) := dec_digit p in
      let '(d0, p) := dec_digit p in
      dec_pairs n p (xi ++ [u8 (10 * d1 + d0)])
  end.

(** [xip[-1] |= 1] *)
Definition sticky (xi : list Z) : list Z := alter (fun d => d .| 1) (length xi - 1)%nat xi.

(** [do { if (digit != '0') ..; p++ } while (--dig > STRSCAN_MAXDIG)], [n] rounds. *)
Fixpoint dec_excess (n : nat) (p : Z) (xi : list Z) : list Z :=
  match n with
  | O => xi
  | S n => let p := skip_dot p in if negb (chr_at p =? 48) then sticky xi else dec_excess n (p + 1) xi
  end.

(** [while (ex10 > 0 && dig <= 18) *xip++ = 0, ex10 -= 2, dig += 2] *)
Fixpoint dec_simplify (fuel : nat) (xi : list Z) (ex10 dig : Z) : sres (list Z * Z * Z) :=
  if (0 <? ex10) && (dig <=? 18) then
    match fuel with
    | O => Err SCAN_FUEL
    | S f => dec_simplify f (xi ++ [0]) (ex10 - 2) (dig + 2)
    end
  else Ok (xi, ex10, dig).

(** The base-100 digits [xi .. xip], the exponent and the number of digits.
    When all digits are zeros only [xi[0]] is set and the fast path returns. *)
Definition dec_scan (p ex10 dig : Z) : sres (list Z * Z * Z) :=
  if negb (dig =? 0) then
    let '(i, ex10) := if STRSCAN_MAXDIG <? dig then (STRSCAN_MAXDIG, ex10 + (dig - STRSCAN_MAXDIG)) else (dig, ex10) in
    let '(xi, i, p) :=
      if negb (((ex10 .^ i) .& 1) =? 0) then let '(d, p) := dec_digit p in ([d], i - 1, p) else ([], i, p) in
    let '(p, xi) := dec_pairs (Z.to_nat (i / 2)) p xi in
    let '(xi, ex10, dig, p) :=
      if negb (i mod 2 =? 0) then
        let '(d, p) := dec_digit p in (xi ++ [u8 (10 * d)], ex10 - 1, dig + 1, p)
      else (xi, ex10, dig, p) in
    if STRSCAN_MAXDIG <? dig then Ok (dec_excess (Z.to_nat (dig - STRSCAN_MAXDIG)) p xi, ex10, STRSCAN_MAXDIG)
    else dec_simplify 10 xi ex10 dig
  else Ok ([0], 0, dig).

(** The value of the digits as [uint64_t]. *)
Definition dec_value (xi : list Z) : Z :=
  match xi with [] => 0 | d :: xi => fold_left (fun x d => u64 (x * 100 + d)) xi d end.

(** The fast path for integers; [None] continues with the slow path. *)
Definition dec_fast (xi : list Z) (ex10 dig fmt opt : Z) (neg : bool) : option (Z * ScanVal) :=
  if (dig <=? 20) && (ex10 =? 0) then
    let x := dec_value xi in
    if negb ((dig =? 20) && ((18 <? byte_at xi 0) || (0 <=? i64 x))) then
      let plainnumber fmt :=
        if i64 x <? 0 then None
        else let n := int2num (i64 x) in Some (fmt, SVn (if neg then dneg n else n)) in
      let u32case :=
        if negb (x >> 32 =? 0) then Some (STRSCAN_ERROR, SVnone) else Some (STRSCAN_U32, SVi (neg_i32 neg x)) in
      if fmt =? STRSCAN_INT then
        if negb (opt_has opt STRSCAN_OPT_TONUM) && (x <? 0x80000000 + b2z neg) then Some (STRSCAN_INT, SVi (neg_i32 neg x))
        else if negb (opt_has opt STRSCAN_OPT_C) then plainnumber STRSCAN_NUM
        else u32case
      else if fmt =? STRSCAN_U32 then u32case
      else if (fmt =? STRSCAN_I64) || (fmt =? STRSCAN_U64) then Some (fmt, SVu64 (neg_u64 neg x))
      else plainnumber fmt
    else None
  else None.

(** *** The slow path: a circular buffer *)

Record DecBuf := mkDB { db_xi : list Z; db_lo : Z; db_hi : Z; db_idig : Z; db_ex2 : Z }.

Definition xi_at (xi : list Z) (i : Z) : Z := byte_at xi i.
Definition xi_set (xi : list Z) (i v : Z) : list Z := <[Z.to_nat i := u8 v]> xi.

(** The inner loop of scaling up: multiply by 64 from the low digit; the
    digits, [lo] and the carry. *)
Fixpoint up_loop (fuel : nat) (xi : list Z) (lo hi i cy : Z) : sres (list Z * Z * Z) :=
  match fuel with
  | O => Err SCAN_FUEL
  | S f =>
      let d := (xi_at xi i << 6) + cy in
      let cy := ((d >> 2) * 5243) >> 17 in
      let d := d - cy * 100 in
      let xi := xi_set xi i d in
      if i =? hi then Ok (xi, lo, cy)
      else
        let lo := if (d =? 0) && (i =? DPREV lo) then i else lo in
        up_loop f xi lo hi (DPREV i) cy
  end.

(** Store the carry in front. *)
Definition up_carry (xi : list Z) (lo hi idig cy : Z) : list Z * Z * Z * Z :=
  if negb (cy =? 0) then
    let hi := DPREV hi in
    let '(xi, lo) :=
      if xi_at xi (DPREV lo) =? 0 then (xi, DPREV lo)
      else if hi =? lo then
        let lo := DPREV lo in (xi_set xi (DPREV lo) (xi_at xi (DPREV lo) .| xi_at xi lo), lo)
      else (xi, lo) in
    (xi_set xi hi cy, lo, hi, idig + 1)
  else (xi, lo, hi, idig).

Fixpoint scale_up (fuel : nat) (b : DecBuf) : sres DecBuf :=
  let '(mkDB xi lo hi idig ex2) := b in
  if (idig <? 9) && (idig <? DLEN lo hi) then
    match fuel with
    | O => Err SCAN_FUEL
    | S f =>
        '(xi, lo, cy) ← up_loop (Z.to_nat STRSCAN_DDIG) xi lo hi (DPREV lo) 0;
        let '(xi, lo, hi, idig) := up_carry xi lo hi idig cy in
        scale_up f (mkDB xi lo hi idig (ex2 - 6))
    end
  else Ok b.

(** The inner loop of scaling down: divide by 64 from the high digit. *)
Fixpoint down_loop (fuel : nat) (xi : list Z) (lo hi idig i cy : Z) : sres (list Z * Z * Z * Z) :=
  match fuel with
  | O => Err SCAN_FUEL
  | S f =>
      let cy := cy + xi_at xi i in
      let xi := xi_set xi i (cy >> 6) in
      let cy := 100 * (cy .& 0x3f) in
      let '(hi, idig) := if (xi_at xi i =? 0) && (i =? hi) then (DNEXT hi, idig - 1) else (hi, idig) in
      let i := DNEXT i in
      if negb (i =? lo) then down_loop f xi lo hi idig i cy else Ok (xi, hi, idig, cy)
  end.

(** [while (cy)]: append the digits of the remainder. *)
Fixpoint down_carry (fuel : nat) (xi : list Z) (lo hi cy : Z) : sres (list Z * Z) :=
  if negb (cy =? 0) then
    if hi =? lo then Ok (xi_set xi (DPREV lo) (xi_at xi (DPREV lo) .| 1), lo)
    else
      match fuel with
      | O => Err SCAN_FUEL
      | S f => down_carry f (xi_set xi lo (cy >> 6)) (DNEXT lo) hi (100 * (cy .& 0x3f))
      end
  else Ok (xi, lo).

Fixpoint scale_down (fuel : nat) (b : DecBuf) : sres DecBuf :=
  let '(mkDB xi lo hi idig ex2) := b in
  if 9 <? idig then
    match fuel with
    | O => Err SCAN_FUEL
    | S f =>
        '(xi, hi, idig, cy) ← down_loop (Z.to_nat STRSCAN_DDIG) xi lo hi idig hi 0;
        '(xi, lo) ← down_carry 8 xi lo hi cy;
        scale_down f (mkDB xi lo hi idig (ex2 + 6))
    end
  else Ok b.

(** [for (i = DNEXT(hi); --idig > 0 && i != lo; i = DNEXT(i))] *)
Fixpoint collect_digits (fuel : nat) (xi : list Z) (lo i idig x : Z) : sres (Z * Z * Z) :=
  match fuel with
  | O => Err SCAN_FUEL
  | S f =>
      let idig := idig - 1 in
      if (0 <? idig) && negb (i =? lo) then collect_digits f xi lo (DNEXT i) idig (u64 (x * 100 + xi_at xi i))
      else Ok (i, idig, x)
  end.

(** [do { if (xi[i]) { x |= 1; break; } i = DNEXT(i); } while (i != lo)] *)
Fixpoint round_bit (fuel : nat) (xi : list Z) (lo i x : Z) : sres Z :=
  match fuel with
  | O => Err SCAN_FUEL
  | S f =>
      if negb (xi_at xi i =? 0) then Ok (x .| 1)
      else let i := DNEXT i in if negb (i =? lo) then round_bit f xi lo i x else Ok x
  end.

(** [n] missing digits. *)
Fixpoint mul100 (n : nat) (x : Z) : Z := match n with O => x | S n => mul100 n (u64 (x * 100)) end.

Definition dec_collect (b : DecBuf) (neg : bool) : sres Z :=
  let '(mkDB xi lo hi idig ex2) := b in
  '(i, idig, x) ← collect_digits (S (Z.to_nat STRSCAN_DDIG)) xi lo (DNEXT hi) idig (xi_at xi hi);
  if i =? lo then Ok (strscan_double (mul100 (Z.to_nat idig) x) ex2 neg)
  else
    x ← round_bit (Z.to_nat STRSCAN_DDIG) xi lo i (u64 (x << 1));
    Ok (strscan_double x (ex2 - 1) neg).

Definition PINF : Z := 0x7ff0000000000000.
Definition MINF : Z := 0xfff0000000000000.

Definition dec_slow (xi : list Z) (ex10 fmt opt : Z) (neg : bool) : sres (Z * ScanVal) :=
  if (fmt =? STRSCAN_INT) && opt_has opt STRSCAN_OPT_C then Ok (STRSCAN_ERROR, SVnone)
  else if STRSCAN_INT <? fmt then Ok (STRSCAN_ERROR, SVnone)
  else
    let fmt := if fmt =? STRSCAN_INT then STRSCAN_NUM else fmt in
    let lo := Z.of_nat (length xi) in
    let idig := lo + (ex10 >> 1) in
    if 155 <? idig then Ok (fmt, SVn (if neg then MINF else PINF))
    else if idig <? -163 then Ok (fmt, SVn (if neg then 2 ^ 63 else 0))
    else
      b ← scale_up 400 (mkDB (xi ++ drop (length xi) stk) lo 0 idig 0);
      b ← scale_down 400 b;
      n ← dec_collect b neg;
      Ok (fmt, SVn n).

Definition strscan_dec (p fmt opt ex10 : Z) (neg : bool) (dig : Z) : sres (Z * ScanVal) :=
  '(xi, ex10, dig) ← dec_scan p ex10 dig;
  match dec_fast xi ex10 dig fmt opt neg with
  | Some r => Ok r
  | None => dec_slow xi ex10 fmt opt neg
  end.

(** ** The scanner *)

Definition str_fuel : nat := S (length s).

Fixpoint skip_space (fuel : nat) (p : Z) : sres Z :=
  if is_space (chr_at p) then
    match fuel with O => Err SCAN_FUEL | S f => skip_space f (p + 1) end
  else Ok p.

(** Trailing space and then the end of the string. *)
Definition scan_end (p : Z) : sres Z :=
  p ← skip_space str_fuel p;
  if negb (chr_at p =? 0) then Err SCAN_ERROR else Ok p.

(** A sign. *)
Definition scan_sign (p : Z) : Z * bool :=
  if (chr_at p =? 43) || (chr_at p =? 45) then (p + 1, chr_at p =? 45) else (p, false).

(** "inf", "infinity" or "nan". *)
Definition scan_infnan (p : Z) (neg : bool) : sres (Z * ScanVal) :=
  let '(p, v) :=
    if casecmp (chr_at p) 105 && casecmp (chr_at (p + 1)) 110 && casecmp (chr_at (p + 2)) 102 then
      let p := p + 3 in
      (if casecmp (chr_at p) 105 && casecmp (chr_at (p + 1)) 110 && casecmp (chr_at (p + 2)) 105 &&
          casecmp (chr_at (p + 3)) 116 && casecmp (chr_at (p + 4)) 121 then p + 5 else p,
       if neg then MINF else PINF)
    else if casecmp (chr_at p) 110 && casecmp (chr_at (p + 1)) 97 && casecmp (chr_at (p + 2)) 110 then (p + 3, NAN)
    else (p, NAN) in
  _ ← scan_end p;
  Ok (STRSCAN_NUM, SVn v).

(** The leading zeros and the decimal point among them. *)
Fixpoint scan_zeros (fuel : nat) (p : Z) (dp : option Z) (hasdig : bool) : sres (Z * option Z * bool) :=
  match fuel with
  | O => Err SCAN_FUEL
  | S f =>
      if chr_at p =? 48 then scan_zeros f (p + 1) dp true
      else if chr_at p =? 46 then
        match dp with Some _ => Err SCAN_ERROR | None => scan_zeros f (p + 1) (Some p) hasdig end
      else Ok (p, dp, hasdig)
  end.

Fixpoint scan_digits (fuel : nat) (cmask p : Z) (dp : option Z) (x dig : Z) : sres (Z * option Z * Z * Z) :=
  match fuel with
  | O => Err SCAN_FUEL
  | S f =>
      if nz (lj_char_isa (chr_at p) cmask) then scan_digits f cmask (p + 1) dp (u32 (x * 10 + (chr_at p .& 15))) (dig + 1)
      else if chr_at p =? 46 then
        match dp with Some _ => Err SCAN_ERROR | None => scan_digits f cmask (p + 1) (Some p) x dig end
      else Ok (p, dp, x, dig)
  end.

(** The base, the character class and the position behind the prefix. *)
Definition scan_base (p opt : Z) : Z * Z * Z :=
  let base := if opt_has opt STRSCAN_OPT_C && (chr_at p =? 48) then 0 else 10 in
  if (chr_at p <=? 48) && (chr_at p =? 48) then
    if casecmp (chr_at (p + 1)) 120 then (16, LJ_CHAR_XDIGIT, p + 2)
    else if casecmp (chr_at (p + 1)) 98 then (2, LJ_CHAR_DIGIT, p + 2)
    else (base, LJ_CHAR_DIGIT, p)
  else (base, LJ_CHAR_DIGIT, p).

(** [while (ex < 0 && *dp-- == '0') ex++, dig--] *)
Fixpoint trim_zeros (fuel : nat) (dp ex dig : Z) : Z * Z :=
  match fuel with
  | O => (ex, dig)
  | S f => if (ex <? 0) && (chr_at dp =? 48) then trim_zeros f (dp - 1) (ex + 1) (dig - 1) else (ex, dig)
  end.

(** The exponent that the decimal point stands for. *)
Definition scan_point (p : Z) (dp : option Z) (base dig : Z) : Z * Z * Z :=
  match dp with
  | None => (STRSCAN_INT, 0, dig)
  | Some dp =>
      if negb (dig =? 0) then
        let ex := dp - (p - 1) in
        let '(ex, dig) := trim_zeros (Z.to_nat (- ex)) (p - 1) ex dig in
        (STRSCAN_NUM, if base =? 16 then ex * 4 else ex, dig)
      else (STRSCAN_NUM, 0, dig)
  end.

Fixpoint exp_digits (fuel : nat) (p xx : Z) : sres (Z * Z) :=
  if is_digit (chr_at p) then
    match fuel with
    | O => Err SCAN_FUEL
    | S f => exp_digits f (p + 1) (if xx <? 65536 then xx * 10 + (chr_at p .& 15) else xx)
    end
  else Ok (p, xx).

Definition scan_exponent (p base fmt ex : Z) : sres (Z * Z * Z) :=
  if (10 <=? base) && casecmp (chr_at p) (if base =? 16 then 112 else 101) then
    let '(p, negx) := scan_sign (p + 1) in
    if negb (is_digit (chr_at p)) then Err SCAN_ERROR
    else
      '(p, xx) ← exp_digits str_fuel (p + 1) (chr_at p .& 15);
      Ok (p, STRSCAN_NUM, ex + if negx then - xx else xx)
  else Ok (p, fmt, ex).

(** The suffixes of an integer. *)
Definition int_suffix (p fmt opt : Z) : sres (Z * Z) :=
  let '(p, fmt) := if casecmp (chr_at p) 117 then (p + 1, STRSCAN_U32) else (p, fmt) in
  '(p, fmt) ←
    (if casecmp (chr_at p) 108 then
       let p := p + 1 in
       if casecmp (chr_at p) 108 then Ok (p + 1, fmt + (STRSCAN_I64 - STRSCAN_INT))
       else if negb (opt_has opt STRSCAN_OPT_C) then Err SCAN_ERROR
       else Ok (p, if LONG8 then fmt + (STRSCAN_I64 - STRSCAN_INT) else fmt)
     else Ok (p, fmt));
  let '(p, fmt) :=
    if casecmp (chr_at p) 117 && ((fmt =? STRSCAN_INT) || (fmt =? STRSCAN_I64)) then (p + 1, fmt + (STRSCAN_U32 - STRSCAN_INT))
    else (p, fmt) in
  if ((fmt =? STRSCAN_U32) && negb (opt_has opt STRSCAN_OPT_C)) ||
     ((STRSCAN_I64 <=? fmt) && negb (opt_has opt STRSCAN_OPT_LL)) then Err SCAN_ERROR
  else Ok (p, fmt).

Definition scan_suffix (p fmt opt : Z) : sres Z :=
  if negb (chr_at p =? 0) then
    '(p, fmt) ←
      (if casecmp (chr_at p) 105 then
         if negb (opt_has opt STRSCAN_OPT_IMAG) then Err SCAN_ERROR else Ok (p + 1, STRSCAN_IMAG)
       else if fmt =? STRSCAN_INT then int_suffix p fmt opt
       else Ok (p, fmt));
    _ ← scan_end p;
    Ok fmt
  else Ok fmt.

(** The fast path for decimal 32-bit integers and the dispatch by base. *)
Definition scan_dispatch (sp fmt opt base ex : Z) (neg : bool) (dig x : Z) : sres (Z * ScanVal) :=
  if (fmt =? STRSCAN_INT) && (base =? 10) &&
     ((dig <? 10) || ((dig =? 10) && (chr_at sp <=? 50) && (x <? 0x80000000 + b2z neg))) then
    let y := neg_i32 neg x in
    Ok (if opt_has opt STRSCAN_OPT_TONUM then (STRSCAN_NUM, SVn (int2num y)) else (STRSCAN_INT, SVi y))
  else if (base =? 0) && negb ((fmt =? STRSCAN_NUM) || (fmt =? STRSCAN_IMAG)) then Ok (strscan_oct sp fmt neg dig)
  else
    '(fmt, o) ←
      (if base =? 16 then Ok (strscan_hex sp fmt opt ex neg dig)
       else if base =? 2 then Ok (strscan_bin sp fmt opt ex neg dig)
       else strscan_dec sp fmt opt ex neg dig);
    Ok match o with
       | SVn n =>
           if (fmt =? STRSCAN_NUM) && opt_has opt STRSCAN_OPT_TOINT then
             let i := lj_num2int n in if deq n (int2num i) then (STRSCAN_INT, SVi i) else (fmt, o)
           else (fmt, o)
       | _ => (fmt, o)
       end.

(** A regular number. *)
Definition scan_number (p opt : Z) (neg : bool) : sres (Z * ScanVal) :=
  let '(base, cmask, q) := scan_base p opt in
  '(p, dp, hasdig) ← (if chr_at p <=? 48 then scan_zeros str_fuel q None false else Ok (p, None, false));
  let sp := p in
  '(p, dp, x, dig) ← scan_digits str_fuel cmask p dp 0 0;
  if negb (hasdig || negb (dig =? 0)) then Err SCAN_ERROR
  else
    let '(fmt, ex, dig) := scan_point p dp base dig in
    '(p, fmt, ex) ← scan_exponent p base fmt ex;
    fmt ← scan_suffix p fmt opt;
    scan_dispatch sp fmt opt base ex neg dig x.

Definition scan_all (opt : Z) : sres (Z * ScanVal) :=
  if negb (is_digit (chr_at 0)) then
    p ← skip_space str_fuel 0;
    let '(p, neg) := scan_sign p in
    if 65 <=? chr_at p then scan_infnan p neg else scan_number p opt neg
  else scan_number 0 opt false.

(** A failure is the format [STRSCAN_ERROR]; [None] is running out of fuel. *)
Definition lj_strscan_scan (opt : Z) : option (Z * ScanVal) :=
  match scan_all opt with
  | Ok r => Some r
  | Err SCAN_ERROR => Some (STRSCAN_ERROR, SVnone)
  | Err SCAN_FUEL => None
  end.

Definition lj_strscan_num : option (bool * ScanVal) :=
  '(fmt, o) ← lj_strscan_scan STRSCAN_OPT_TONUM; Some (negb (fmt =? STRSCAN_ERROR), o).

(** For the dual-number mode. *)
Definition lj_strscan_number : option (bool * ScanVal) :=
  '(fmt, o) ← lj_strscan_scan STRSCAN_OPT_TOINT; Some (negb (fmt =? STRSCAN_ERROR), o).
End Scan.
