(* ===== verification/StrscanInt.v ===== *)
(** * Scanning the decimal notation of an integer

    The scanner reads back every 32-bit integer from its decimal notation, on
    the fast path, with the sign, the leading digit and the bound checks. *)

From S2P Require Import Prelude Machine Num Chars Strscan Buf Strfmt StrfmtNum.

(** ** The digits of a number *)

Definition digit_char (c : Z) : Prop := 48 <= c <= 57.

Lemma dec_loop_digits f : forall n, 0 <= n -> Forall digit_char (dec_loop f n).
Proof.
  induction f as [|f IH]; intros n Hn; [constructor|]. cbn [dec_loop]. apply Forall_app. split.
  - destruct (n <? 10); [constructor|]. apply IH. Z.div_mod_to_equations; lia.
  - repeat constructor; Z.div_mod_to_equations; lia.
Qed.

Lemma digit_low c : digit_char c -> c .& 15 = c - 48.
Proof.
  intros H. assert (c ∈ [48; 49; 50; 51; 52; 53; 54; 55; 56; 57]) as E.
  { rewrite !elem_of_cons. unfold digit_char in H. lia. }
  rewrite !elem_of_cons, elem_of_nil in E. repeat destruct E as [->|E]; done.
Qed.

(** The value the scanner computes, modulo [2 ^ 32]. *)
Definition acc_dec (x : Z) (ds : list Z) : Z := fold_left (fun x c => u32 (x * 10 + (c .& 15))) ds x.

Lemma acc_dec_loop f : forall n, 0 <= n < 2 ^ 32 -> Z.log2 n < Z.of_nat f -> acc_dec 0 (dec_loop f n) = n.
Proof.
  induction f as [|f IH]; intros n Hn Hf; [pose proof (Z.log2_nonneg n); lia|]. cbn [dec_loop]. unfold acc_dec.
  rewrite fold_left_app. cbn [fold_left]. fold (acc_dec 0 (if n <? 10 then [] else dec_loop f (n / 10))).
  assert (E : acc_dec 0 (if n <? 10 then [] else dec_loop f (n / 10)) = n / 10).
  { destruct (Z.ltb_spec n 10); [cbn; Z.div_mod_to_equations; lia|].
    pose proof (Z.log2_le_mono (2 * (n / 10)) n ltac:(Z.div_mod_to_equations; lia)) as L.
    rewrite Z.log2_double in L by (Z.div_mod_to_equations; lia). apply IH; [Z.div_mod_to_equations; lia|lia]. }
  rewrite E, digit_low by (unfold digit_char; Z.div_mod_to_equations; lia).
  replace (n / 10 * 10 + (48 + n mod 10 - 48)) with n by (Z.div_mod_to_equations; lia). by apply u32_id.
Qed.

(** The first digit bounds the number from below, and is not a zero. *)
Lemma dec_loop_head f : forall n c ds, 0 <= n -> dec_loop f n = c :: ds -> (c - 48) * 10 ^ Z.of_nat (length ds) <= n.
Proof.
  induction f as [|f IH]; intros n c ds Hn E; [done|]. cbn [dec_loop] in E.
  destruct (Z.ltb_spec n 10) as [H|H].
  - cbn in E. injection E as <- <-. cbn. Z.div_mod_to_equations; lia.
  - destruct (dec_loop f (n / 10)) as [|c' ds'] eqn:E'.
    + cbn in E. injection E as <- <-. cbn. Z.div_mod_to_equations; lia.
    + cbn in E. injection E as <- <-. specialize (IH (n / 10) c' ds' ltac:(Z.div_mod_to_equations; lia) E').
      rewrite length_app. cbn [length]. replace (Z.of_nat (length ds' + 1)) with (Z.succ (Z.of_nat (length ds'))) by lia.
      rewrite Z.pow_succ_r by lia. Z.div_mod_to_equations; nia.
Qed.

Lemma dec_loop_lead f : forall n, 0 < n -> Z.log2 n < Z.of_nat f ->
  exists c ds, dec_loop f n = c :: ds /\ 49 <= c <= 57.
Proof.
  induction f as [|f IH]; intros n Hn Hf; [pose proof (Z.log2_nonneg n); lia|]. cbn [dec_loop].
  destruct (Z.ltb_spec n 10) as [H|H].
  - exists (48 + n mod 10), []. split; [done|]. rewrite Z.mod_small by lia. lia.
  - pose proof (Z.log2_le_mono (2 * (n / 10)) n ltac:(Z.div_mod_to_equations; lia)) as L.
    rewrite Z.log2_double in L by (Z.div_mod_to_equations; lia).
    destruct (IH (n / 10)) as (c & ds & -> & Hc); [Z.div_mod_to_equations; lia|lia|].
    exists c, (ds ++ [48 + n mod 10]). done.
Qed.

(** What the scanner needs to know about the notation of [n]. *)
Lemma dec_nat_facts n : 0 < n <= 2 ^ 31 -> exists c ds, dec_nat n = c :: ds /\ 49 <= c <= 57 /\
  Forall digit_char (c :: ds) /\ acc_dec 0 (c :: ds) = n /\
  (len (c :: ds) < 10 \/ (len (c :: ds) = 10 /\ c <= 50)).
Proof.
  intros Hn. unfold dec_nat. set (f := S (Z.to_nat (Z.log2 n))). pose proof (Z.log2_nonneg n).
  destruct (dec_loop_lead f n) as (c & ds & E & Hc); [lia|subst f; lia|]. exists c, ds. rewrite E.
  split; [done|]. split; [done|]. rewrite <- E. split; [apply dec_loop_digits; lia|].
  split; [apply acc_dec_loop; [widths; lia|subst f; lia]|].
  pose proof (dec_loop_length f n 10 ltac:(lia) ltac:(lia)) as L. fold (len (dec_loop f n)) in L.
  pose proof (dec_loop_head f n c ds ltac:(lia) E) as B. rewrite E in *. unfold len in *. cbn [length] in *.
  destruct (decide (Z.of_nat (S (length ds)) = 10)) as [E10|]; [|lia]. right. split; [done|].
  replace (Z.of_nat (length ds)) with 9 in B by lia. lia.
Qed.

(** ** The scanner on a string of digits *)

Lemma chr_at_app pre c rest p : p = len pre -> chr_at (pre ++ c :: rest) p = c.
Proof.
  intros ->. unfold chr_at, byte_at, len. rewrite Nat2Z.id, lookup_app_r by done. by rewrite Nat.sub_diag.
Qed.
Lemma chr_at_end s p : p = len s -> chr_at s p = 0.
Proof. intros ->. unfold chr_at, byte_at, len. rewrite Nat2Z.id, lookup_ge_None_2 by done. done. Qed.

Lemma digit_isa c : digit_char c -> nz (lj_char_isa c LJ_CHAR_DIGIT) = true.
Proof.
  intros H. assert (c ∈ [48; 49; 50; 51; 52; 53; 54; 55; 56; 57]) as E.
  { rewrite !elem_of_cons. unfold digit_char in H. lia. }
  rewrite !elem_of_cons, elem_of_nil in E. repeat destruct E as [->|E]; done.
Qed.

Lemma scan_digits_run dp ds : forall s pre fuel x dig, s = pre ++ ds -> Forall digit_char ds -> (length ds < fuel)%nat ->
  scan_digits s fuel LJ_CHAR_DIGIT (len pre) dp x dig = Ok (len s, dp, acc_dec x ds, dig + len ds).
Proof.
  induction ds as [|c ds IH]; intros s pre fuel x dig -> Hd Hf; (destruct fuel as [|f]; [cbn in Hf; lia|]); cbn [scan_digits].
  - rewrite app_nil_r, chr_at_end by done. change (nz (lj_char_isa 0 LJ_CHAR_DIGIT)) with false. change (0 =? 46) with false.
    cbv iota. do 2 f_equal. unfold len. cbn. lia.
  - apply Forall_cons_1 in Hd as [Hc Hd]. rewrite chr_at_app, digit_isa by done.
    replace (len pre + 1) with (len (pre ++ [c])) by (unfold len; rewrite length_app; cbn; lia).
    rewrite (IH _ (pre ++ [c]) f); [|by rewrite <- app_assoc|done|cbn in Hf; lia].
    do 2 f_equal. unfold len. cbn. lia.
Qed.

Section Int.
Context (LONG8 : bool) (stk : list Z) (opt : Z) (Hopt : opt_has opt STRSCAN_OPT_C = false).

(** The result for the integer [k]. *)
Definition int_result (k : Z) : Z * ScanVal :=
  if opt_has opt STRSCAN_OPT_TONUM then (STRSCAN_NUM, SVn (int2num k)) else (STRSCAN_INT, SVi k).

Lemma scan_number_dec pre neg n : 0 < n -> n < 2 ^ 31 + b2z neg -> len pre <= 1 ->
  scan_number (pre ++ dec_nat n) LONG8 stk (len pre) opt neg = Ok (int_result (neg_i32 neg n)).
Proof using All.
  intros Hn Hb Hpre. destruct (dec_nat_facts n) as (c & ds & E & Hc & Hd & Ha & Hl); [unfold b2z in Hb; destruct neg; lia|].
  rewrite E. set (s := pre ++ c :: ds). unfold scan_number, scan_base.
  rewrite (chr_at_app pre c ds) by done. rewrite (proj2 (Z.leb_gt c 48)) by lia. cbn [andb mbind res_bind].
  rewrite Hopt. cbn [andb].
  rewrite (scan_digits_run None (c :: ds) s pre); [|done|done|unfold str_fuel; subst s; rewrite length_app; lia].
  cbn [mbind res_bind]. rewrite Z.add_0_l. pose proof (len_nonneg ds).
  rewrite (proj2 (Z.eqb_neq (len (c :: ds)) 0)) by (unfold len; cbn; lia). cbn [orb negb scan_point].
  unfold scan_exponent, scan_suffix. rewrite (chr_at_end s) by done. cbn [andb orb negb Z.leb casecmp mbind res_bind].
  change (casecmp 0 (if 10 =? 16 then 112 else 101)) with false. change (10 <=? 10) with true. cbn [andb mbind res_bind].
  change (negb (0 =? 0)) with false. cbv iota. unfold scan_dispatch.
  rewrite (chr_at_app pre c ds), Ha by done. change (STRSCAN_INT =? STRSCAN_INT) with true. change (10 =? 10) with true. cbn [andb].
  assert (G : (len (c :: ds) <? 10) || (len (c :: ds) =? 10) && (c <=? 50) && (n <? 0x80000000 + b2z neg) = true).
  { destruct Hl as [Hl|[-> Hl]]; [by rewrite (proj2 (Z.ltb_lt _ _) Hl)|]. rewrite (proj2 (Z.leb_le c 50)) by done.
    by rewrite (proj2 (Z.ltb_lt n _)) by (change (2 ^ 31) with 0x80000000 in Hb; lia). }
  rewrite G, (chr_at_end s) by done. change (negb (0 =? 0)) with false. cbn [mbind res_bind].
  change (STRSCAN_INT =? STRSCAN_INT) with true. cbn [andb]. reflexivity.
Qed.

Lemma scan_decimal k : is_i32 k -> lj_strscan_scan (decimal k) LONG8 stk opt = Some (int_result k).
Proof using All.
  intros Hk. unfold lj_strscan_scan. assert (scan_all (decimal k) LONG8 stk opt = Ok (int_result k)) as ->; [|done].
  unfold decimal. destruct (Z.ltb_spec k 0) as [Hn|Hn]; unfold scan_all.
  - change (chr_at ([45] ++ dec_nat (Z.abs k)) 0) with 45. change (negb (is_digit 45)) with true. cbv iota.
    assert (skip_space ([45] ++ dec_nat (Z.abs k)) (str_fuel ([45] ++ dec_nat (Z.abs k))) 0 = Ok 0) as -> by done.
    cbn [mbind res_bind]. unfold scan_sign. change (chr_at ([45] ++ dec_nat (Z.abs k)) 0) with 45. cbn [orb Z.eqb Pos.eqb Z.add].
    change (0 + 1) with (len [45]).
    destruct (dec_nat_facts (Z.abs k)) as (c & ds & E & Hc & _); [widths; lia|].
    rewrite E at 1. rewrite (chr_at_app [45] c ds) by done. rewrite (proj2 (Z.leb_gt 65 c)) by lia.
    rewrite scan_number_dec; [|lia|cbn [b2z]; widths; lia|done]. do 2 f_equal. unfold neg_i32.
    rewrite Z.abs_neq by lia. apply i32_inj; [apply i32_range|done|]. rewrite u32_i32. unfold u32, i32. wsolve.
  - destruct (decide (k = 0)) as [->|Hz].
    + cbn [app Z.abs]. unfold scan_all. unfold scan_number, scan_base. rewrite Hopt. cbn. unfold int_result, scan_dispatch. cbn.
      by destruct (opt_has opt STRSCAN_OPT_TONUM).
    + destruct (dec_nat_facts (Z.abs k)) as (c & ds & E & Hc & Hd & _); [widths; lia|]. cbn [app].
      assert (is_digit (chr_at (dec_nat (Z.abs k)) 0) = true) as ->.
      { rewrite E. apply digit_isa. by apply Forall_cons_1 in Hd as [? _]. }
      cbn [negb]. pose proof (scan_number_dec [] false (Z.abs k)) as R. change (len []) with 0 in R. cbn [app] in R.
      rewrite R; [|lia|cbn [b2z]; widths; lia|lia]. unfold neg_i32. by rewrite Z.abs_eq, i32_id by (widths; lia).
Qed.
End Int.
