(* ===== verification/StrscanEnds.v ===== *)
(** * The number scanner ends

    Each loop of the scanner stops within its fuel, for every string: the
    loops over characters stop at the terminator, the inner loops of the
    circular buffer go around it once at most, and each round of scaling
    brings the number of integer digits, or the leading digit, closer to
    the exit. *)

From S2P Require Import Prelude Machine Num Chars Strscan Buf Strfmt StrfmtNum StrfmtParse StrscanInt.

(** ** The circular buffer *)

Definition in_buf (i : Z) : Prop := 0 <= i < 512.
Definition xi_ok (xi : list Z) : Prop := length xi = 512%nat /\ bytes xi.

Lemma DNEXT_mod a : DNEXT a = (a + 1) mod 512.
Proof. unfold DNEXT. change STRSCAN_DMASK with (2 ^ 9 - 1). by rewrite land_ones_mod by lia. Qed.
Lemma DPREV_mod a : DPREV a = (a - 1) mod 512.
Proof. unfold DPREV. change STRSCAN_DMASK with (2 ^ 9 - 1). by rewrite land_ones_mod by lia. Qed.
Lemma DNEXT_in a : in_buf (DNEXT a).
Proof. rewrite DNEXT_mod. apply Z.mod_pos_bound. lia. Qed.
Lemma DPREV_in a : in_buf (DPREV a).
Proof. rewrite DPREV_mod. apply Z.mod_pos_bound. lia. Qed.

Lemma xi_set_ok xi i v : xi_ok xi -> xi_ok (xi_set xi i v).
Proof.
  intros [L B]. unfold xi_set. split; [by rewrite length_insert|]. apply Forall_insert; [done|]. apply u8_range.
Qed.
Lemma xi_at_set xi i v : xi_ok xi -> in_buf i -> xi_at (xi_set xi i v) i = u8 v.
Proof.
  intros [L _] H. unfold xi_at, xi_set, byte_at. rewrite list_lookup_insert_eq; [done|]. unfold in_buf in H. lia.
Qed.
Lemma xi_at_set_ne xi i j v : in_buf i -> in_buf j -> i <> j -> xi_at (xi_set xi i v) j = xi_at xi j.
Proof.
  intros Hi Hj Hn. unfold xi_at, xi_set, byte_at. rewrite list_lookup_insert_ne; [done|]. unfold in_buf in *. lia.
Qed.
Lemma xi_at_u8 xi i : xi_ok xi -> is_u8 (xi_at xi i).
Proof. intros [_ B]. by apply byte_at_u8. Qed.

(** The division by 100 with a multiplication. *)
Lemma div100 d : 0 <= d < 16700 -> ((d >> 2) * 5243) >> 17 = d / 100.
Proof.
  intros Hd. apply Z.eqb_eq.
  apply (forall_below (Z.to_nat 16700) (fun d => ((d >> 2) * 5243) >> 17 =? d / 100)); [by vm_compute|lia].
Qed.

Lemma shl6 x : x << 6 = 64 * x.
Proof. rewrite Z.shiftl_mul_pow2 by lia. lia. Qed.

(** Multiplying by 64: the leading digit becomes [d mod 100] with carry
    [d / 100], where [d] is at least 64 times the digit. *)
Lemma up_loop_ok hi (Hhi : in_buf hi) fuel : forall xi lo i cy, xi_ok xi -> in_buf lo -> in_buf i -> 0 <= cy <= 166 ->
  (i - hi) mod 512 < Z.of_nat fuel ->
  exists xi' lo' d, up_loop fuel xi lo hi i cy = Ok (xi', lo', d / 100) /\ xi_ok xi' /\ in_buf lo' /\
    64 * xi_at xi hi <= d < 16700 /\ xi_at xi' hi = d mod 100.
Proof.
  induction fuel as [|f IH]; intros xi lo i cy X L I C F; [pose proof (Z.mod_pos_bound (i - hi) 512); lia|]. cbn [up_loop].
  pose proof (xi_at_u8 xi i X) as B. set (d := (xi_at xi i << 6) + cy).
  assert (D : 0 <= d < 16700) by (unfold d; rewrite shl6; widths; lia). rewrite div100 by done.
  destruct (Z.eqb_spec i hi) as [->|N].
  - exists (xi_set xi hi (d - d / 100 * 100)), lo, d. split; [done|]. split; [by apply xi_set_ok|]. split; [done|].
    split; [unfold d; rewrite shl6; widths; lia|]. rewrite xi_at_set by done.
    rewrite u8_id by (widths; Z.div_mod_to_equations; lia). Z.div_mod_to_equations; lia.
  - destruct (IH (xi_set xi i (d - d / 100 * 100)) (if (d - d / 100 * 100 =? 0) && (i =? DPREV lo) then i else lo)
      (DPREV i) (d / 100)) as (xi' & lo' & d' & E & X' & L' & D' & H'); [by apply xi_set_ok|by destruct (_ && _)|apply DPREV_in| | |].
    + Z.div_mod_to_equations; lia.
    + rewrite DPREV_mod. unfold in_buf in *. Z.div_mod_to_equations; lia.
    + exists xi', lo', d'. rewrite xi_at_set_ne in D' by done. done.
Qed.

(** The invariant of scaling up: the leading digit is not zero. *)
Record buf_inv (b : DecBuf) : Prop := {
  bi_xi : xi_ok (db_xi b);
  bi_lo : in_buf (db_lo b);
  bi_hi : in_buf (db_hi b)
}.
Definition lead (b : DecBuf) : Z := xi_at (db_xi b) (db_hi b).

Lemma scale_up_ok fuel : forall b, buf_inv b -> 1 <= lead b ->
  2 * (9 - db_idig b) + (if lead b <? 2 then 1 else 0) <= Z.of_nat fuel ->
  exists b', scale_up fuel b = Ok b' /\ buf_inv b' /\ db_idig b' <= Z.max (db_idig b) 9.
Proof.
  induction fuel as [|f IH]; intros b [X L H] Ld F; destruct b as [xi lo hi idig ex2]; unfold lead in *; cbn [db_xi db_lo db_hi db_idig] in *;
    cbn [scale_up]; (destruct (Z.ltb_spec idig 9) as [I|I]; cbn [andb]; [|exists (mkDB xi lo hi idig ex2); split; [done|]; split; [by split|cbn; lia]]);
    (destruct (idig <? DLEN lo hi); [|exists (mkDB xi lo hi idig ex2); split; [done|]; split; [by split|cbn; lia]]).
  - exfalso. destruct (_ <? 2); lia.
  - destruct (up_loop_ok hi H (Z.to_nat STRSCAN_DDIG) xi lo (DPREV lo) 0 X L (DPREV_in lo)) as (xi1 & lo1 & d & -> & X1 & L1 & D & E1);
      [lia|change (Z.of_nat (Z.to_nat STRSCAN_DDIG)) with 512; apply Z.mod_pos_bound; lia|].
    cbn [mbind res_bind]. unfold up_carry. destruct (Z.eqb_spec (d / 100) 0) as [Z0|N0]; cbn [negb].
    + destruct (IH (mkDB xi1 lo1 hi idig (ex2 - 6))) as (b' & -> & B' & I'); [by split| | |by exists b'].
      * unfold lead. cbn. rewrite E1. Z.div_mod_to_equations; lia.
      * unfold lead. cbn. rewrite E1. destruct (Z.ltb_spec (d mod 100) 2); [Z.div_mod_to_equations; lia|].
        destruct (Z.ltb_spec (xi_at xi hi) 2); [lia|]. exfalso. Z.div_mod_to_equations; lia.
    + assert (C : 1 <= d / 100 < 256) by (Z.div_mod_to_equations; lia).
      set (p := if xi_at xi1 (DPREV lo1) =? 0 then _ else _).
      assert (P : xi_ok (fst p) /\ in_buf (snd p)).
      { subst p. destruct (_ =? 0); [split; [done|apply DPREV_in]|]. destruct (_ =? _); cbn; [|done].
        split; [by apply xi_set_ok|apply DPREV_in]. }
      destruct p as [xi2 lo2]. destruct P as [X2 L2]. cbn [fst snd] in *.
      destruct (IH (mkDB (xi_set xi2 (DPREV hi) (d / 100)) lo2 (DPREV hi) (idig + 1) (ex2 - 6))) as (b' & -> & B' & I').
      * split; cbn; [by apply xi_set_ok|done|apply DPREV_in].
      * unfold lead. cbn. rewrite xi_at_set by (done || apply DPREV_in). rewrite u8_id by (widths; lia). lia.
      * cbn [db_idig]. destruct (_ <? 2), (_ <? 2); lia.
      * exists b'. split; [done|]. split; [done|]. cbn [db_idig] in *. lia.
Qed.

(** Dividing by 64: digits that are passed are not visited again. *)
Lemma down_loop_ok lo (Hlo : in_buf lo) fuel : forall xi hi idig i cy, xi_ok xi -> in_buf hi -> in_buf i -> 0 <= cy <= 6300 ->
  (lo - 1 - i) mod 512 < Z.of_nat fuel ->
  exists xi' hi' idig' r, down_loop fuel xi lo hi idig i cy = Ok (xi', hi', idig', 100 * r) /\ xi_ok xi' /\ in_buf hi' /\
    0 <= r < 64 /\ idig' <= idig /\
    ((lo - 1 - i) mod 512 < (hi - i) mod 512 -> idig' = idig /\ hi' = hi /\ xi_at xi' hi = xi_at xi hi).
Proof.
  induction fuel as [|f IH]; intros xi hi idig i cy X H I C F; [pose proof (Z.mod_pos_bound (lo - 1 - i) 512); lia|]. cbn [down_loop].
  pose proof (xi_at_u8 xi i X) as B. set (c := cy + xi_at xi i). set (xi1 := xi_set xi i (c >> 6)).
  assert (X1 : xi_ok xi1) by (by apply xi_set_ok).
  assert (R : 0 <= c .& 63 < 64) by (change 63 with (2 ^ 6 - 1); rewrite land_ones_mod by lia; apply Z.mod_pos_bound; lia).
  set (q := if (xi_at xi1 i =? 0) && (i =? hi) then _ else _).
  assert (Q : in_buf (fst q) /\ snd q <= idig /\ (i <> hi -> q = (hi, idig))).
  { subst q. destruct (xi_at xi1 i =? 0), (Z.eqb_spec i hi); cbn; (split; [done || apply DNEXT_in|]); (split; [lia|done]). }
  destruct q as [hi1 idig1]. cbn [fst snd] in Q. destruct Q as (Q1 & Q2 & Q3).
  destruct (Z.eqb_spec (DNEXT i) lo) as [E|N]; cbn [negb].
  - exists xi1, hi1, idig1, (c .& 63). split; [done|]. do 3 (split; [done|]). split; [done|]. intros G.
    assert (i <> hi) as Ni by (intros Ei; rewrite Ei, Z.sub_diag in G; Z.div_mod_to_equations; lia).
    specialize (Q3 Ni). injection Q3 as -> ->. do 2 (split; [done|]). by apply xi_at_set_ne.
  - destruct (IH xi1 hi1 idig1 (DNEXT i) (100 * (c .& 63))) as (xi' & hi' & idig' & r & E' & X' & H' & R' & I' & G'); [done|done|apply DNEXT_in|lia| |].
    { rewrite DNEXT_mod in *. unfold in_buf in *. Z.div_mod_to_equations; lia. }
    exists xi', hi', idig', r. split; [done|]. do 3 (split; [done|]). split; [lia|]. intros G.
    assert (i <> hi) as Ni by (intros Ei; rewrite Ei, Z.sub_diag in G; Z.div_mod_to_equations; lia).
    specialize (Q3 Ni). injection Q3 as -> ->. destruct G' as (A1 & A2 & A3).
    { rewrite DNEXT_mod in *. unfold in_buf in *. Z.div_mod_to_equations; lia. }
    do 2 (split; [done|]). rewrite A3. by apply xi_at_set_ne.
Qed.

(** A whole pass: a leading digit of 64 or more stays, a smaller one is
    dropped. *)
Lemma div64 l : 0 <= l < 256 -> 0 <= l / 64 < 4 /\ (l / 64 = 0 <-> l < 64).
Proof. intros. Z.div_mod_to_equations. lia. Qed.

(** [d(i) = (lo - 1 - i) mod 512] digits are left behind [i]. *)
Lemma dist_next lo i : in_buf lo -> in_buf i -> DNEXT i <> lo -> (lo - 1 - DNEXT i) mod 512 < 511.
Proof. rewrite DNEXT_mod. unfold in_buf. intros. Z.div_mod_to_equations. lia. Qed.
Lemma dist_hi lo hi : in_buf lo -> in_buf hi -> DNEXT hi <> lo -> (lo - 1 - DNEXT hi) mod 512 < (hi - DNEXT hi) mod 512.
Proof. rewrite DNEXT_mod. unfold in_buf. intros. Z.div_mod_to_equations. lia. Qed.

Lemma down_pass_ok xi lo hi idig : xi_ok xi -> in_buf lo -> in_buf hi ->
  exists xi' hi' idig' r, down_loop (Z.to_nat STRSCAN_DDIG) xi lo hi idig hi 0 = Ok (xi', hi', idig', 100 * r) /\
    xi_ok xi' /\ in_buf hi' /\ 0 <= r < 64 /\
    (64 <= xi_at xi hi -> idig' = idig /\ xi_at xi' hi' < 64) /\ (xi_at xi hi < 64 -> idig' < idig).
Proof.
  intros X L H. change (Z.to_nat STRSCAN_DDIG) with (S (Z.to_nat 511)). cbn [down_loop]. rewrite Z.add_0_l.
  pose proof (xi_at_u8 xi hi X) as B. set (l := xi_at xi hi) in *. set (xi1 := xi_set xi hi (l >> 6)).
  assert (X1 : xi_ok xi1) by (by apply xi_set_ok).
  assert (R : 0 <= l .& 63 < 64) by (change 63 with (2 ^ 6 - 1); rewrite land_ones_mod by lia; apply Z.mod_pos_bound; lia).
  assert (B' : 0 <= l < 256) by (clear -B; widths; lia). destruct (div64 l B') as [Q1 Q2].
  assert (E1 : xi_at xi1 hi = l / 64).
  { unfold xi1. rewrite xi_at_set by assumption. rewrite Z.shiftr_div_pow2 by lia. apply u8_id. clear -Q1. widths. change (2 ^ 6) with 64. lia. }
  rewrite E1, Z.eqb_refl, andb_true_r.
  set (q := if l / 64 =? 0 then _ else _).
  assert (Q : in_buf (fst q) /\ (64 <= l -> q = (hi, idig)) /\ (l < 64 -> snd q < idig)).
  { subst q. destruct (Z.eqb_spec (l / 64) 0); cbn [fst snd]; (split; [assumption || apply DNEXT_in|]); split; (lia || tauto). }
  destruct q as [hi1 idig1]. cbn [fst snd] in Q. destruct Q as (Q3 & Q4 & Q5).
  destruct (Z.eqb_spec (DNEXT hi) lo) as [E|N]; cbn [negb].
  - exists xi1, hi1, idig1, (l .& 63). split; [reflexivity|]. do 3 (split; [assumption|]). split; [|assumption].
    intros C. specialize (Q4 C). injection Q4 as -> ->. split; [reflexivity|]. lia.
  - destruct (down_loop_ok lo L (Z.to_nat 511) xi1 hi1 idig1 (DNEXT hi) (100 * (l .& 63))) as (xi' & hi' & idig' & r & E' & X' & H' & R' & I' & G');
      [assumption|assumption|apply DNEXT_in|lia|rewrite Z2Nat.id by lia; by apply dist_next|].
    exists xi', hi', idig', r. split; [exact E'|]. do 3 (split; [assumption|]). split.
    + intros C. specialize (Q4 C). injection Q4 as -> ->. destruct (G' (dist_hi _ _ L H N)) as (-> & -> & ->).
      split; [reflexivity|]. lia.
    + intros C. specialize (Q5 C). lia.
Qed.

(** The remainder is used up in a few digits. *)
Fixpoint drains (n : nat) (c : Z) : bool :=
  match n with O => c =? 0 | S n => (c =? 0) || drains n (100 * (c .& 0x3f)) end.

Lemma drains_all r : 0 <= r < 64 -> drains 8 (100 * r) = true.
Proof. apply (forall_below 64 (fun r => drains 8 (100 * r))). by vm_compute. Qed.

Lemma down_carry_ok hi (H : in_buf hi) n : forall xi lo cy, xi_ok xi -> in_buf lo -> drains n cy = true ->
  exists xi' lo', down_carry n xi lo hi cy = Ok (xi', lo') /\ xi_ok xi' /\ in_buf lo' /\ xi_at xi' hi = xi_at xi hi.
Proof.
  assert (S0 : forall xi lo v, xi_ok xi -> hi = lo -> xi_at (xi_set xi (DPREV lo) v) hi = xi_at xi hi).
  { intros xi lo v X ->. apply xi_at_set_ne; [apply DPREV_in|done|]. rewrite DPREV_mod. unfold in_buf in *.
    Z.div_mod_to_equations; lia. }
  induction n as [|n IH]; intros xi lo cy X L D; cbn [drains] in D; cbn [down_carry].
  - rewrite D. cbn [negb]. by exists xi, lo.
  - destruct (cy =? 0) eqn:E; cbn [negb orb] in *; [by exists xi, lo|].
    destruct (Z.eqb_spec hi lo) as [Eh|N].
    + exists (xi_set xi (DPREV lo) (xi_at xi (DPREV lo) .| 1)), lo. split; [done|]. split; [by apply xi_set_ok|]. split; [done|]. by apply S0.
    + destruct (IH (xi_set xi lo (cy >> 6)) (DNEXT lo) (100 * (cy .& 63))) as (xi' & lo' & E' & X' & L' & A'); [by apply xi_set_ok|apply DNEXT_in|done|].
      exists xi', lo'. split; [done|]. do 2 (split; [done|]). rewrite A'. apply xi_at_set_ne; [done|done|congruence].
Qed.

Lemma scale_down_ok fuel : forall b, buf_inv b ->
  2 * db_idig b + (if 64 <=? lead b then 1 else 0) - 19 <= Z.of_nat fuel ->
  exists b', scale_down fuel b = Ok b' /\ buf_inv b' /\ db_idig b' <= 9.
Proof.
  induction fuel as [|f IH]; intros b [X L H] F; destruct b as [xi lo hi idig ex2]; unfold lead in *; cbn [db_xi db_lo db_hi db_idig] in *;
    cbn [scale_down]; (destruct (Z.ltb_spec 9 idig) as [I|I]; [|exists (mkDB xi lo hi idig ex2); split; [done|]; split; [by split|cbn; lia]]).
  - exfalso. destruct (_ <=? _); lia.
  - destruct (down_pass_ok xi lo hi idig X L H) as (xi1 & hi1 & idig1 & r & -> & X1 & H1 & R & A & B). cbn [mbind res_bind].
    destruct (down_carry_ok hi1 H1 8 xi1 lo (100 * r) X1 L (drains_all r R)) as (xi2 & lo2 & -> & X2 & L2 & E2). cbn [mbind res_bind].
    apply IH; [by split|]. unfold lead. cbn. rewrite E2.
    destruct (Z.leb_spec 64 (xi_at xi hi)) as [C|C], (Z.leb_spec 64 (xi_at xi1 hi1)); try destruct (A C); try specialize (B C); lia.
Qed.

(** ** Collecting the digits *)

Lemma collect_digits_ok fuel : forall xi lo i idig x, in_buf i -> idig < Z.of_nat fuel -> (0 < fuel)%nat ->
  exists i' idig' x', collect_digits fuel xi lo i idig x = Ok (i', idig', x') /\ in_buf i'.
Proof.
  induction fuel as [|f IH]; intros xi lo i idig x I F F0; [lia|]. cbn [collect_digits].
  destruct (Z.ltb_spec 0 (idig - 1)); cbn [andb]; [|by eexists _, _, _]. destruct (i =? lo); cbn [negb]; [by eexists _, _, _|].
  apply IH; [apply DNEXT_in|lia|lia].
Qed.

Lemma round_bit_ok fuel : forall xi lo i x, in_buf lo -> in_buf i -> (lo - 1 - i) mod 512 < Z.of_nat fuel ->
  exists x', round_bit fuel xi lo i x = Ok x'.
Proof.
  induction fuel as [|f IH]; intros xi lo i x L I F; [pose proof (Z.mod_pos_bound (lo - 1 - i) 512); lia|]. cbn [round_bit].
  destruct (xi_at xi i =? 0); cbn [negb]; [|by eexists]. destruct (Z.eqb_spec (DNEXT i) lo) as [|N]; cbn [negb]; [by eexists|].
  apply IH; [done|apply DNEXT_in|]. rewrite DNEXT_mod in *. unfold in_buf in *. Z.div_mod_to_equations; lia.
Qed.

Lemma dec_collect_ok b neg : buf_inv b -> db_idig b <= 9 -> exists n, dec_collect b neg = Ok n.
Proof.
  intros [X L H] I. destruct b as [xi lo hi idig ex2]. cbn [db_xi db_lo db_hi db_idig] in *. unfold dec_collect.
  destruct (collect_digits_ok (S (Z.to_nat STRSCAN_DDIG)) xi lo (DNEXT hi) idig (xi_at xi hi)) as (i & k & x & -> & I'); [apply DNEXT_in|change (Z.of_nat _) with 513; lia|lia|].
  cbn [mbind res_bind]. destruct (i =? lo); [by eexists|].
  destruct (round_bit_ok (Z.to_nat STRSCAN_DDIG) xi lo i (u64 (x << 1))) as (x' & ->); [done|done|change (Z.of_nat _) with 512; apply Z.mod_pos_bound; lia|].
  by eexists.
Qed.

(** ** The decimal parser *)

Lemma bytes_app_drop xi stk : bytes xi -> xi_ok stk -> (length xi <= 512)%nat -> xi_ok (xi ++ drop (length xi) stk).
Proof.
  intros B [Ls Bs] L. split; [rewrite length_app, length_drop; lia|]. apply Forall_app. split; [done|by apply Forall_drop].
Qed.

Lemma dec_slow_ok stk xi ex10 fmt opt neg : xi_ok stk -> bytes xi -> (0 < length xi < 512)%nat -> 1 <= byte_at xi 0 ->
  exists r, dec_slow stk xi ex10 fmt opt neg = Ok r.
Proof.
  intros Hs B L Hd. unfold dec_slow. destruct (_ && _); [by eexists|]. destruct (_ <? fmt); [by eexists|].
  set (idig := Z.of_nat (length xi) + (ex10 >> 1)).
  destruct (Z.ltb_spec 155 idig); [by eexists|]. destruct (Z.ltb_spec idig (-163)); [by eexists|].
  set (b0 := mkDB _ _ _ _ _).
  assert (I0 : buf_inv b0) by (split; [by apply bytes_app_drop; [| |lia]| |]; unfold b0, in_buf; cbn; lia).
  destruct (scale_up_ok 400 b0 I0) as (b1 & -> & I1 & D1).
  { unfold lead, b0, xi_at, byte_at. cbn. rewrite lookup_app_l by lia. done. }
  { cbn [db_idig b0]. unfold b0. cbn [db_idig]. destruct (_ <? 2); lia. }
  cbn [mbind res_bind]. unfold b0 in D1. cbn [db_idig] in D1.
  destruct (scale_down_ok 400 b1 I1) as (b2 & -> & I2 & D2); [destruct (_ <=? _); lia|]. cbn [mbind res_bind].
  destruct (dec_collect_ok b2 neg I2 D2) as (n & ->). by eexists.
Qed.

(** The digits that [dec_scan] collects: at least one, not more than fit into
    the buffer, and the first is not zero. *)
Definition digits_ok (n : nat) (xi : list Z) : Prop := bytes xi /\ (length xi <= n)%nat /\ 1 <= byte_at xi 0.

Lemma digits_ok_len n xi : digits_ok n xi -> (0 < length xi)%nat.
Proof. intros (_ & _ & H). destruct xi; [|simpl; lia]. by destruct H. Qed.

Lemma digits_ok_app n k xi ys : digits_ok n xi -> bytes ys -> (length ys <= k)%nat -> digits_ok (n + k) (xi ++ ys).
Proof.
  intros D By Ly. pose proof (digits_ok_len _ _ D) as P. destruct D as (B & L & H).
  split; [by apply Forall_app|]. split; [rewrite length_app; lia|]. unfold byte_at in *. by rewrite lookup_app_l by (cbn; lia).
Qed.
Lemma digits_ok_mono n m xi : (n <= m)%nat -> digits_ok n xi -> digits_ok m xi.
Proof. intros L (B & L' & H). split; [done|]. split; [lia|done]. Qed.

Lemma digits_ok_sticky n xi : digits_ok n xi -> digits_ok n (sticky xi).
Proof.
  intros D. pose proof (digits_ok_len _ _ D) as P. destruct D as (B & L & H). unfold sticky.
  assert (O : forall d, is_u8 d -> 1 <= d .| 1 < 256).
  { intros d Hd. clear -Hd. assert (K : (1 <=? d .| 1) && (d .| 1 <? 256) = true); [|lia].
    apply (forall_below 256 (fun d => (1 <=? d .| 1) && (d .| 1 <? 256))); [by vm_compute|widths; lia]. }
  split; [|split; [rewrite length_alter; lia|]].
  - unfold bytes in *. apply Forall_lookup_2. intros i d. rewrite list_lookup_alter. case_decide.
    + intros (e & E & ->)%fmap_Some. pose proof (Forall_lookup_1 _ _ _ _ B E) as He.
      specialize (O e He). widths. lia.
    + intros E. by apply (Forall_lookup_1 _ _ _ _ B E).
  - unfold byte_at in *. rewrite list_lookup_alter. case_decide as C; [|done]. rewrite C.
    destruct (xi !! Z.to_nat 0) as [e|] eqn:E; [|by destruct H]. pose proof (Forall_lookup_1 _ _ _ _ B E) as He.
    destruct (O e He) as [O1 _]. exact O1.
Qed.

Section Scan.
Context (s : list Z).

Lemma dec_digit_range p : 0 <= fst (dec_digit s p) < 16.
Proof. unfold dec_digit. cbn. change 15 with (2 ^ 4 - 1). rewrite land_ones_mod by lia. apply Z.mod_pos_bound. lia. Qed.

Lemma dec_pairs_app n : forall p xi, exists p' ys, dec_pairs s n p xi = (p', xi ++ ys) /\ bytes ys /\ length ys = n.
Proof.
  induction n as [|n IH]; intros p xi; cbn [dec_pairs]; [exists p, []; rewrite app_nil_r; split; [done|]; by split; [apply Forall_nil_2|]|].
  destruct (dec_digit s p) as [d1 p1], (dec_digit s p1) as [d0 p0].
  destruct (IH p0 (xi ++ [u8 (10 * d1 + d0)])) as (p' & ys & -> & B & L).
  exists p', (u8 (10 * d1 + d0) :: ys). rewrite <- app_assoc. split; [done|]. split; [|simpl; lia].
  constructor; [apply u8_range|done].
Qed.

Lemma dec_excess_digits m n : forall p xi, digits_ok m xi -> digits_ok m (dec_excess s n p xi).
Proof.
  induction n as [|n IH]; intros p xi D; cbn [dec_excess]; [done|]. destruct (negb _); [by apply digits_ok_sticky|by apply IH].
Qed.

Lemma dec_simplify_ok m fuel : forall xi ex10 dig, digits_ok m xi -> 20 - dig <= 2 * Z.of_nat fuel ->
  exists xi' ex' dig', dec_simplify fuel xi ex10 dig = Ok (xi', ex', dig') /\ digits_ok (m + fuel) xi'.
Proof.
  induction fuel as [|f IH] in m |- *; intros xi ex10 dig D F; cbn [dec_simplify]; destruct (0 <? ex10); cbn [andb];
    try (exists xi, ex10, dig; split; [done|]; by apply (digits_ok_mono m); [lia|]);
    (destruct (Z.leb_spec dig 18); [|exists xi, ex10, dig; split; [done|]; by apply (digits_ok_mono m); [lia|]]).
  - lia.
  - destruct (IH (m + 1)%nat (xi ++ [0]) (ex10 - 2) (dig + 2)) as (xi' & ex' & dig' & -> & D').
    + apply digits_ok_app; [done| |simpl; lia]. repeat constructor; widths; lia.
    + lia.
    + exists xi', ex', dig'. split; [done|]. by replace (m + S f)%nat with (m + 1 + f)%nat by lia.
Qed.

Lemma dec_tail_ok i p xi ex dig : digits_ok 400 xi \/ xi = [] /\ i = 1 /\ 1 <= fst (dec_digit s p) -> 1 <= dig ->
  exists xi' ex' dig',
    (let '(xi, ex, dig, p) :=
       if negb (i mod 2 =? 0) then
         let '(d, p) := dec_digit s p in (xi ++ [u8 (10 * d)], ex - 1, dig + 1, p)
       else (xi, ex, dig, p) in
     if STRSCAN_MAXDIG <? dig then Ok (dec_excess s (Z.to_nat (dig - STRSCAN_MAXDIG)) p xi, ex, STRSCAN_MAXDIG)
     else dec_simplify 10 xi ex dig) = Ok (xi', ex', dig') /\ digits_ok 411 xi'.
Proof.
  intros D L. pose proof (dec_digit_range p) as R. destruct (dec_digit s p) as [d p1]. cbn [fst] in *.
  set (q := if negb (i mod 2 =? 0) then _ else _).
  assert (Q : digits_ok 401 (fst (fst (fst q))) /\ 1 <= snd (fst q)).
  { subst q. destruct (Z.eqb_spec (i mod 2) 0); cbn [negb fst snd].
    - split; [|done]. destruct D as [D|(_ & -> & _)]; [by apply (digits_ok_mono 400); [lia|]|done].
    - split; [|lia]. destruct D as [D|(-> & _ & D)].
      + apply (digits_ok_app 400 1); [done| |done]. repeat constructor; apply u8_range.
      + rewrite u8_id by (widths; lia). split; [repeat constructor; widths; lia|]. split; [simpl; lia|]. change (1 <= 10 * d). lia. }
  destruct q as [[[xi1 ex1] dig1] p2]. cbn [fst snd] in Q. destruct Q as [Q1 Q2].
  destruct (STRSCAN_MAXDIG <? dig1).
  - eexists _, _, _. split; [done|]. apply dec_excess_digits. by apply (digits_ok_mono 401); [lia|].
  - destruct (dec_simplify_ok 401 10 xi1 ex1 dig1) as (xi' & ex' & dig' & E & D'); [done|lia|]. by exists xi', ex', dig'.
Qed.

Lemma dec_scan_ok p ex10 dig : 1 <= dig -> 1 <= chr_at s p .& 15 -> chr_at s p <> 46 ->
  exists xi ex' dig', dec_scan s p ex10 dig = Ok (xi, ex', dig') /\ digits_ok 411 xi.
Proof.
  intros D C N. unfold dec_scan. destruct (Z.eqb_spec dig 0); [lia|]. cbn [negb].
  set (q := if STRSCAN_MAXDIG <? dig then _ else _).
  assert (Q : 1 <= fst q <= 800) by (subst q; unfold STRSCAN_MAXDIG; destruct (Z.ltb_spec 800 dig); cbn; lia).
  destruct q as [i ex]. cbn [fst] in Q. set (odd1 := negb (_ =? 0)).
  set (d1 := chr_at s p .& 15) in *.
  assert (D1 : dec_digit s p = (d1, p + 1)) by (unfold dec_digit, skip_dot; destruct (Z.eqb_spec (chr_at s p) 46); done).
  pose proof (dec_digit_range p) as R1. rewrite D1 in R1. cbn in R1.
  assert (P : exists xi p' i', (let '(xi, i, p) := if odd1 then let '(d, p) := dec_digit s p in ([d], i - 1, p) else ([], i, p) in
    let '(p, xi) := dec_pairs s (Z.to_nat (i / 2)) p xi in (i, p, xi)) = (i', p', xi) /\
    (digits_ok 400 xi \/ xi = [] /\ i' = 1 /\ p' = p)).
  { destruct odd1.
    - rewrite D1. destruct (dec_pairs_app (Z.to_nat ((i - 1) / 2)) (p + 1) [d1]) as (p' & ys & -> & B & L).
      exists ([d1] ++ ys), p', (i - 1). split; [done|left]. apply (digits_ok_mono (1 + Z.to_nat ((i - 1) / 2))); [Z.div_mod_to_equations; lia|].
      apply digits_ok_app; [|done|lia]. split; [repeat constructor; widths; lia|]. split; [done|]. exact C.
    - destruct (decide (i = 1)) as [->|Ni]; [cbn; exists [], p, 1; split; [done|by right]|].
      destruct (Z.to_nat (i / 2)) as [|k] eqn:K; [exfalso; Z.div_mod_to_equations; lia|]. cbn [dec_pairs]. rewrite D1.
      pose proof (dec_digit_range (p + 1)) as R0. destruct (dec_digit s (p + 1)) as [d0 p0]. cbn [fst] in R0. cbn [app].
      destruct (dec_pairs_app k p0 [u8 (10 * d1 + d0)]) as (p' & ys & -> & B & L).
      exists ([u8 (10 * d1 + d0)] ++ ys), p', i. split; [done|left]. apply (digits_ok_mono (1 + k)); [Z.div_mod_to_equations; lia|].
      apply digits_ok_app; [|done|lia]. rewrite u8_id by (widths; lia). split; [repeat constructor; widths; lia|]. split; [done|].
      change (1 <= 10 * d1 + d0). lia. }
  destruct P as (xi & p' & i' & E & P).
  assert (T := dec_tail_ok i' p' xi ex dig). destruct odd1; rewrite ?D1 in E |- *; destruct (dec_pairs _ _ _ _) as [p2 xi2] in E |- *;
    injection E as <- <- <-; (apply T; [|done]); (destruct P as [P|(P1 & P2 & ->)]; [by left|right]); by rewrite D1.
Qed.

(** Neither path of the conversion runs out of fuel. *)
Definition ends {A} (r : sres A) : Prop := r <> Err SCAN_FUEL.

Lemma ends_bind {A B} (m : sres A) (f : A -> sres B) : ends m -> (forall a, m = Ok a -> ends (f a)) -> ends (mbind f m).
Proof. unfold ends. destruct m as [a|e]; cbn; [by auto|]. congruence. Qed.
Lemma ends_ok {A} (a : A) : ends (Ok a).
Proof. done. Qed.
Lemma ends_error {A} : ends (Err SCAN_ERROR : sres A).
Proof. done. Qed.
#[local] Hint Resolve ends_ok ends_error : core.

Lemma dec_fast_zero fmt opt neg : dec_fast [0] 0 0 fmt opt neg <> None.
Proof.
  unfold dec_fast. change (dec_value [0]) with 0. change ((0 <=? 20) && (0 =? 0)) with true. cbv iota.
  change (negb ((0 =? 20) && _)) with true. cbv iota. change (i64 0 <? 0) with false. cbv iota.
  change (negb (0 >> 32 =? 0)) with false. cbv iota.
  repeat match goal with |- (if ?b then _ else _) <> None => destruct b end; done.
Qed.

(** The digits begin with one from 1 to 9, or there is none. *)
Definition starts (p dig : Z) : Prop := dig = 0 \/ 1 <= dig /\ 1 <= chr_at s p .& 15 /\ chr_at s p <> 46.

Lemma strscan_dec_ends stk p fmt opt ex10 neg dig : xi_ok stk -> starts p dig -> ends (strscan_dec s stk p fmt opt ex10 neg dig).
Proof.
  intros X [->|(D & C & N)]; unfold strscan_dec.
  - cbn [dec_scan Z.eqb negb mbind res_bind]. pose proof (dec_fast_zero fmt opt neg). by destruct (dec_fast _ _ _ _ _ _).
  - destruct (dec_scan_ok p ex10 dig D C N) as (xi & ex' & dig' & -> & O). cbn [mbind res_bind].
    destruct (dec_fast _ _ _ _ _ _); [done|]. pose proof (digits_ok_len _ _ O). destruct O as (B & L & H1).
    destruct (dec_slow_ok stk xi ex' fmt opt neg) as (r & ->); [done|done|lia|done|done].
Qed.

(** *** The loops over the characters *)

Lemma chr_nul p : len s <= p -> chr_at s p = 0.
Proof. unfold len, chr_at, byte_at. intros L. by rewrite lookup_ge_None_2 by lia. Qed.
Lemma chr_some p : chr_at s p <> 0 -> p < len s.
Proof. intros C. destruct (Z.ltb_spec p (len s)); [done|]. by destruct C; apply chr_nul. Qed.
Lemma chr_class p f : f 0 = false -> f (chr_at s p) = true -> p < len s.
Proof. intros F H. apply chr_some. intros E. rewrite E in H. congruence. Qed.

Lemma skip_space_ends fuel : forall p, len s - p <= Z.of_nat fuel -> ends (skip_space s fuel p).
Proof.
  induction fuel as [|f IH]; intros p F; cbn [skip_space]; destruct (is_space (chr_at s p)) eqn:E; try done.
  - apply (chr_class _ is_space) in E; [lia|done].
  - apply IH. lia.
Qed.
Lemma skip_space_ge fuel : forall p q, skip_space s fuel p = Ok q -> p <= q.
Proof.
  induction fuel as [|f IH]; intros p q; cbn [skip_space]; destruct (is_space _); try done; try (intros [= <-]; lia).
  intros H%IH. lia.
Qed.
Lemma str_fuel_enough p : 0 <= p -> len s - p < Z.of_nat (str_fuel s).
Proof. unfold str_fuel, len. lia. Qed.
#[local] Hint Resolve str_fuel_enough : core.

Lemma scan_end_ends p : 0 <= p -> ends (scan_end s p).
Proof.
  intros P. unfold scan_end. apply ends_bind.
  - apply skip_space_ends. pose proof (str_fuel_enough p P). lia.
  - intros q _. by destruct (negb _).
Qed.
Lemma exp_digits_ends fuel : forall p xx, len s - p <= Z.of_nat fuel -> ends (exp_digits s fuel p xx).
Proof.
  induction fuel as [|f IH]; intros p xx F; cbn [exp_digits]; destruct (is_digit (chr_at s p)) eqn:E; try done.
  - apply (chr_class _ is_digit) in E; [lia|done].
  - apply IH. lia.
Qed.
Lemma exp_digits_ge fuel : forall p xx q y, exp_digits s fuel p xx = Ok (q, y) -> p <= q.
Proof.
  induction fuel as [|f IH]; intros p xx q y; cbn [exp_digits]; destruct (is_digit _); try done; try (intros [= <- <-]; lia).
  intros H%IH. lia.
Qed.

Lemma scan_zeros_ends fuel : forall p dp h, (0 < fuel)%nat -> len s - p < Z.of_nat fuel -> ends (scan_zeros s fuel p dp h).
Proof.
  induction fuel as [|f IH]; intros p dp h F0 F; [lia|]. cbn [scan_zeros].
  destruct (chr_at s p =? 48) eqn:E1; [|destruct (chr_at s p =? 46) eqn:E2; [|done]; destruct dp; [done|]].
  - apply (chr_class _ (fun c => c =? 48)) in E1; [|done]. apply IH; lia.
  - apply (chr_class _ (fun c => c =? 46)) in E2; [|done]. apply IH; lia.
Qed.

(** Behind the leading zeros: no zero and no first decimal point. *)
Definition past_zeros (p : Z) (dp : option Z) : Prop :=
  0 <= p /\ chr_at s p <> 48 /\ match dp with Some d => d < p | None => chr_at s p <> 46 end.

Lemma scan_zeros_past fuel : forall p dp h q dp' h', 0 <= p -> (forall d, dp = Some d -> d < p) ->
  scan_zeros s fuel p dp h = Ok (q, dp', h') -> past_zeros q dp'.
Proof.
  induction fuel as [|f IH]; intros p dp h q dp' h' P D; [done|]. cbn [scan_zeros].
  destruct (Z.eqb_spec (chr_at s p) 48) as [E1|E1]; [intros H; apply IH in H; [done|lia|intros d Hd; specialize (D d Hd); lia]|].
  destruct (Z.eqb_spec (chr_at s p) 46) as [E2|E2]; [destruct dp; [done|]; intros H; apply IH in H; [done|lia|intros d [= <-]; lia]|].
  intros [= <- <- <-]. split; [done|]. split; [done|]. destruct dp; [by apply D|done].
Qed.

(** The number of digits is counted from the first, the point left out. *)
Record digits_post (cmask sp p : Z) (dp : option Z) (dig : Z) : Prop := {
  dp_le : sp <= p;
  dp_first : sp < p -> nz (lj_char_isa (chr_at s sp) cmask) = true;
  dp_dig : dig = p - sp - match dp with Some d => b2z (sp <=? d) | None => 0 end;
  dp_point : forall d, dp = Some d -> d < p /\ d <> sp
}.

Lemma scan_digits_post cmask sp fuel : forall p dp x dig q dp' x' dig', past_zeros sp (if p =? sp then dp else Some (sp - 1)) ->
  digits_post cmask sp p dp dig ->
  scan_digits s fuel cmask p dp x dig = Ok (q, dp', x', dig') -> digits_post cmask sp q dp' dig'.
Proof.
  induction fuel as [|f IH]; intros p dp x dig q dp' x' dig' P D; [done|]. cbn [scan_digits]. pose proof D as [D1 D2 D3 D4].
  assert (P1 : past_zeros sp (if p + 1 =? sp then dp else Some (sp - 1))).
  { rewrite (proj2 (Z.eqb_neq _ _)) by lia. destruct P as (A & B & _). split; [done|]. split; [done|lia]. }
  destruct (nz (lj_char_isa (chr_at s p) cmask)) eqn:E.
  - apply IH; [done|]. split; [lia| | |].
    + intros _. destruct (Z.eqb_spec p sp) as [<-|]; [done|apply D2; lia].
    + rewrite D3. lia.
    + intros d Hd. destruct (D4 d Hd). lia.
  - destruct (Z.eqb_spec (chr_at s p) 46) as [E2|E2]; [|by intros [= <- <- <- <-]]. destruct dp as [d|]; [done|].
    assert (p <> sp) by (intros ->; rewrite Z.eqb_refl in P; by destruct P as (_ & _ & P)).
    apply IH; [by rewrite (proj2 (Z.eqb_neq _ _)) in P1 |- * by lia|]. split; [lia|intros _; apply D2; lia| |].
    + rewrite D3, (proj2 (Z.leb_le _ _)) by lia. cbn. lia.
    + intros d [= <-]. lia.
Qed.

Lemma scan_digits_ends cmask fuel : forall p dp x dig, nz (lj_char_isa 0 cmask) = false -> (0 < fuel)%nat -> len s - p < Z.of_nat fuel ->
  ends (scan_digits s fuel cmask p dp x dig).
Proof.
  induction fuel as [|f IH]; intros p dp x dig M F0 F; [lia|]. cbn [scan_digits].
  destruct (nz (lj_char_isa (chr_at s p) cmask)) eqn:E1; [|destruct (chr_at s p =? 46) eqn:E2; [|done]; destruct dp; [done|]].
  - apply (chr_class _ (fun c => nz (lj_char_isa c cmask))) in E1; [|done]. apply IH; [done|lia|lia].
  - apply (chr_class _ (fun c => c =? 46)) in E2; [|done]. apply IH; [done|lia|lia].
Qed.

(** Cutting off the zeros of the fraction leaves the first digit. *)
Lemma trim_zeros_dig sp d fuel : chr_at s sp <> 48 -> d <> sp -> forall q ex dig, sp <= q -> ex = d - q ->
  dig = q + 1 - sp - b2z (sp <=? d) -> 1 <= dig -> 1 <= snd (trim_zeros s fuel q ex dig).
Proof.
  intros C N. induction fuel as [|f IH]; intros q ex dig Q E D L; cbn [trim_zeros]; [done|].
  destruct (Z.ltb_spec ex 0); cbn [andb]; [|done]. destruct (Z.eqb_spec (chr_at s q) 48) as [E1|E1]; [|done].
  assert (q <> sp) by congruence. apply IH; [lia|lia| |]; destruct (Z.leb_spec sp d); cbn [b2z] in *; lia.
Qed.

(** A digit is a byte: the table has no other. *)
Lemma digit_range c : nz (lj_char_isa c LJ_CHAR_DIGIT) = true -> 0 <= c < 256.
Proof.
  intros H. destruct (Z.ltb_spec c 0); [|destruct (Z.ltb_spec c 256); [lia|]]; exfalso; revert H; unfold lj_char_isa.
  - by replace (Z.to_nat (c + 1)) with O by lia.
  - rewrite lookup_ge_None_2 by (change (length lj_char_bits) with 257%nat; lia). done.
Qed.

Lemma digit_first c : nz (lj_char_isa c LJ_CHAR_DIGIT) = true -> c <> 48 -> 1 <= c .& 15 /\ c <> 46.
Proof.
  intros H N. pose proof (digit_range c H) as R.
  assert (K : negb (nz (lj_char_isa c LJ_CHAR_DIGIT)) || (c =? 48) || ((1 <=? c .& 15) && negb (c =? 46)) = true).
  { revert c R H N. intros c R _ _.
    apply (forall_below 256 (fun c => negb (nz (lj_char_isa c LJ_CHAR_DIGIT)) || (c =? 48) || ((1 <=? c .& 15) && negb (c =? 46)))); [by vm_compute|done]. }
  rewrite H, (proj2 (Z.eqb_neq _ _) N) in K. cbn [negb orb] in K. lia.
Qed.

Lemma scan_point_starts cmask sp p dp dig base fmt ex dig' : cmask = LJ_CHAR_DIGIT -> chr_at s sp <> 48 ->
  digits_post cmask sp p dp dig -> scan_point s p dp base dig = (fmt, ex, dig') -> starts sp dig'.
Proof.
  intros -> C [D1 D2 D3 D4] H.
  assert (First : 1 <= dig -> 1 <= chr_at s sp .& 15 /\ chr_at s sp <> 46).
  { intros L. assert (G : sp < p) by (destruct dp; [destruct (_ <=? _) in D3; cbn in D3|]; lia). specialize (D2 G).
    apply digit_first; [done|]. done. }
  unfold starts. unfold scan_point in H. destruct dp as [d|].
  - destruct (Z.eqb_spec dig 0) as [->|N]; cbn [negb] in H; [injection H as <- <- <-; by left|].
    destruct (D4 d eq_refl) as [D5 D6].
    assert (L : 1 <= dig) by (destruct (Z.leb_spec sp d); cbn [b2z] in D3; lia).
    assert (G : sp <= p - 1) by (destruct (Z.leb_spec sp d); cbn [b2z] in D3; lia).
    assert (T := trim_zeros_dig sp d (Z.to_nat (- (d - (p - 1)))) C D6 (p - 1) (d - (p - 1)) dig).
    destruct (trim_zeros _ _ _ _ _) as [ex1 dig1]. injection H as <- <- <-. right. split; [apply T; lia|by apply First].
  - injection H as <- <- <-. destruct (Z.eq_dec dig 0); [by left|right]. split; [lia|]. apply First. lia.
Qed.

Lemma scan_exponent_ends p base fmt ex : 0 <= p -> ends (scan_exponent s p base fmt ex).
Proof.
  intros P. unfold scan_exponent, scan_sign. destruct (_ && _); [|done].
  set (q := if _ || _ then _ else _). assert (Q : p + 1 <= fst q) by (subst q; destruct (_ || _); cbn; lia).
  destruct q as [q negx]. cbn [fst] in Q. destruct (negb _); [done|]. apply ends_bind; [|by intros [? ?]].
  apply exp_digits_ends. pose proof (str_fuel_enough (q + 1)). lia.
Qed.
Lemma scan_exponent_ge p base fmt ex q fmt' ex' : scan_exponent s p base fmt ex = Ok (q, fmt', ex') -> p <= q.
Proof.
  unfold scan_exponent, scan_sign. destruct (_ && _); [|by intros [= <- _ _]].
  set (w := if _ || _ then _ else _). assert (Q : p + 1 <= fst w) by (subst w; destruct (_ || _); cbn; lia).
  destruct w as [w negx]. cbn [fst] in Q. destruct (negb _); [done|].
  destruct (exp_digits _ _ _ _) as [[r xx]|e] eqn:E; cbn [mbind res_bind]; [|done]. apply exp_digits_ge in E.
  intros [= <- _ _]. lia.
Qed.

Lemma int_suffix_ends LONG8 p fmt opt : ends (int_suffix s LONG8 p fmt opt).
Proof.
  unfold int_suffix. destruct (if casecmp (chr_at s p) 117 then _ else _) as [q fmt1]. apply ends_bind.
  - destruct (casecmp _ _); [|done]. destruct (casecmp _ _); [done|]. by destruct (negb _).
  - intros [r fmt2] _. destruct (if _ && _ then _ else _) as [r' fmt3]. by destruct (_ || _).
Qed.
Lemma int_suffix_ge LONG8 p fmt opt q fmt' : int_suffix s LONG8 p fmt opt = Ok (q, fmt') -> p <= q.
Proof.
  unfold int_suffix. set (w := if casecmp (chr_at s p) 117 then _ else _).
  assert (W : p <= fst w) by (subst w; destruct (casecmp _ _); cbn; lia). destruct w as [w fmt1]. cbn [fst] in W.
  set (m := if casecmp _ 108 then _ else _). assert (M : match m with Ok r => p <= fst r | Err _ => True end).
  { subst m. destruct (casecmp _ 108); [|done]. destruct (casecmp _ 108); [cbn; lia|]. destruct (negb _); [done|cbn; lia]. }
  destruct m as [[r fmt2]|e]; cbn [mbind res_bind fst] in *; [|done].
  destruct (_ && _), (_ || _); try done; intros [= <- _]; lia.
Qed.

Lemma scan_suffix_ends LONG8 p fmt opt : 0 <= p -> ends (scan_suffix s LONG8 p fmt opt).
Proof.
  intros P. unfold scan_suffix. destruct (negb _); [|done].
  destruct (casecmp _ _); [destruct (negb _); [done|]|destruct (fmt =? STRSCAN_INT)]; (apply ends_bind; [try done|]).
  - intros [q f] [= <- <-]. apply ends_bind; [apply scan_end_ends; lia|done].
  - apply int_suffix_ends.
  - intros [q f] E%int_suffix_ge. apply ends_bind; [apply scan_end_ends; lia|done].
  - intros [q f] [= <- <-]. apply ends_bind; [by apply scan_end_ends|done].
Qed.

Lemma scan_dispatch_ends stk sp fmt opt base ex neg dig x : xi_ok stk -> (base <> 16 -> starts sp dig) ->
  ends (scan_dispatch s stk sp fmt opt base ex neg dig x).
Proof.
  intros X S. unfold scan_dispatch. destruct (_ && (_ || _)); [done|]. destruct (_ && _); [done|]. apply ends_bind; [|by intros [? ?]].
  destruct (Z.eqb_spec base 16); [done|]. destruct (base =? 2); [done|]. apply strscan_dec_ends; auto.
Qed.

Lemma scan_base_post p opt : let '(base, cmask, q) := scan_base s p opt in
  (base <> 16 -> cmask = LJ_CHAR_DIGIT) /\ nz (lj_char_isa 0 cmask) = false /\ p <= q.
Proof.
  unfold scan_base. destruct (_ && _); [destruct (casecmp _ _); [|destruct (casecmp _ _)]|];
    (split; [done|]); (split; [by vm_compute|lia]).
Qed.

Lemma scan_number_ends LONG8 stk p opt neg : xi_ok stk -> 0 <= p -> ends (scan_number s LONG8 stk p opt neg).
Proof.
  intros X P. unfold scan_number. pose proof (scan_base_post p opt) as SB.
  destruct (scan_base s p opt) as [[base cmask] q]. destruct SB as (M & M0 & Q). apply ends_bind.
  - destruct (Z.leb_spec (chr_at s p) 48); [|done]. apply scan_zeros_ends; [unfold str_fuel; lia|apply str_fuel_enough; lia].
  - intros [[sp dp] h] E. assert (Z : past_zeros sp dp).
    { destruct (Z.leb_spec (chr_at s p) 48) as [L|L]; [by apply scan_zeros_past in E; [|lia|]|].
      injection E as <- <- <-. split; [done|]. split; lia. }
    apply ends_bind; [apply scan_digits_ends; [done|unfold str_fuel; lia|apply str_fuel_enough; apply Z]|].
    intros [[[p1 dp1] x] dig] E1. destruct Z as (Z1 & Z2 & Z3).
    apply (scan_digits_post cmask sp) in E1; [|by rewrite Z.eqb_refl|].
    2: { split; [lia|lia| |]; destruct dp as [d|]; cbn.
         - rewrite (proj2 (Z.leb_gt _ _)) by lia. cbn. lia.
         - lia.
         - intros d' [= <-]. lia.
         - done. }
    destruct (negb _); [done|]. destruct (scan_point s p1 dp1 base dig) as [[fmt ex] dig1] eqn:E2.
    pose proof (dp_le _ _ _ _ _ E1) as L1.
    apply ends_bind; [apply scan_exponent_ends; lia|]. intros [[p2 fmt2] ex2] E3%scan_exponent_ge.
    apply ends_bind; [apply scan_suffix_ends; lia|]. intros fmt3 _.
    apply scan_dispatch_ends; [done|]. intros N. by apply (scan_point_starts cmask sp p1 dp1 dig base fmt ex); auto.
Qed.

Lemma scan_all_ends LONG8 stk opt : xi_ok stk -> ends (scan_all s LONG8 stk opt).
Proof.
  intros X. unfold scan_all. destruct (negb _); [|by apply scan_number_ends]. apply ends_bind.
  - apply skip_space_ends. pose proof (str_fuel_enough 0). lia.
  - intros p E%skip_space_ge. unfold scan_sign.
    set (w := if _ || _ then _ else _). assert (W : 0 <= fst w) by (subst w; destruct (_ || _); cbn; lia).
    destruct w as [w neg]. cbn [fst] in W. destruct (65 <=? _); [|by apply scan_number_ends].
    unfold scan_infnan. set (m := if _ && _ && _ then _ else _).
    assert (M : 0 <= fst m) by (subst m; repeat case_match; cbn [fst]; lia).
    destruct m as [r v]. cbn [fst] in M. apply ends_bind; [by apply scan_end_ends|done].
Qed.

Lemma scan_some LONG8 stk opt : xi_ok stk -> exists r, lj_strscan_scan s LONG8 stk opt = Some r.
Proof.
  intros X. pose proof (scan_all_ends LONG8 stk opt X) as E. unfold lj_strscan_scan, ends in *.
  destruct (scan_all s LONG8 stk opt) as [r|[]]; [by eexists|by eexists|done].
Qed.
End Scan.
