(* ===== verification/StrscanType.v ===== *)
(** * The format of a scanned number

    [lj_strscan_scan] returns a format and stores one member of a union: the
    format tells which, and the options tell which formats can occur. *)

From S2P Require Import Prelude Machine Num Chars Strscan StrscanEnds.

Lemma Ok_eq {A} (a b : A) : (Ok a : sres A) = Ok b -> a = b.
Proof. congruence. Qed.

Section Typed.
Context (opt : Z).

(** The formats before the conversion, by the suffixes of the options. *)
Definition fmt_in (fmt : Z) : Prop :=
  fmt = STRSCAN_NUM \/ fmt = STRSCAN_INT \/ (fmt = STRSCAN_IMAG /\ opt_has opt STRSCAN_OPT_IMAG = true) \/
  (fmt = STRSCAN_U32 /\ opt_has opt STRSCAN_OPT_C = true) \/
  ((fmt = STRSCAN_I64 \/ fmt = STRSCAN_U64) /\ opt_has opt STRSCAN_OPT_LL = true).

(** The formats that the options allow, and the stored member. *)
Definition fmt_out (fmt : Z) (o : ScanVal) : Prop :=
  match o with
  | SVn _ => fmt = STRSCAN_NUM \/ (fmt = STRSCAN_IMAG /\ opt_has opt STRSCAN_OPT_IMAG = true)
  | SVi _ => (fmt = STRSCAN_INT /\ opt_has opt STRSCAN_OPT_TONUM = false) \/ (fmt = STRSCAN_U32 /\ opt_has opt STRSCAN_OPT_C = true)
  | SVu64 _ => (fmt = STRSCAN_I64 \/ fmt = STRSCAN_U64) /\ opt_has opt STRSCAN_OPT_LL = true
  | SVnone => fmt = STRSCAN_ERROR
  end.

Definition typed (r : Z * ScanVal) : Prop := fmt_out (fst r) (snd r).

Ltac fmt_cases H := destruct H as [-> | [-> | [[-> ?] | [[-> ?] | [[-> | ->] ?]]]]].
(** Decide the comparisons of formats, split the other conditions. *)
Ltac fmt_simpl :=
  cbv [STRSCAN_ERROR STRSCAN_NUM STRSCAN_IMAG STRSCAN_INT STRSCAN_U32 STRSCAN_I64 STRSCAN_U64] in *;
  cbn [Z.eqb Z.leb Z.ltb Z.compare Pos.eqb Pos.compare Pos.compare_cont andb orb negb] in *.
Ltac fmt_steps :=
  fmt_simpl;
  repeat (match goal with
          | |- context [if negb ?b then _ else _] => let E := fresh "E" in destruct b eqn:E
          | |- context [if ?b && _ then _ else _] => let E := fresh "E" in destruct b eqn:E
          | |- context [if ?b then _ else _] => let E := fresh "E" in destruct b eqn:E
          end; fmt_simpl).
Ltac typed_done :=
  unfold typed; cbn [fst snd fmt_out]; fmt_simpl; rewrite ?negb_true_iff, ?negb_false_iff in *; auto 6.

Lemma fmt_value_typed x fmt dig ex2 neg m32 m64 : fmt_in fmt -> typed (fmt_value x fmt opt dig ex2 neg m32 m64).
Proof. intros H. unfold fmt_value. fmt_cases H; fmt_steps; typed_done. Qed.

Context (s : list Z) (LONG8 : bool) (stk : list Z).

Lemma hex_typed p fmt ex2 neg dig : fmt_in fmt -> typed (strscan_hex s p fmt opt ex2 neg dig).
Proof.
  intros H. unfold strscan_hex. destruct (hex_digits _ _ _ _) as [q x]. destruct (hex_excess _ _ _ _ _) as [x2 e2].
  by apply fmt_value_typed.
Qed.
Lemma bin_typed p fmt ex2 neg dig : fmt_in fmt -> typed (strscan_bin s p fmt opt ex2 neg dig).
Proof.
  intros H. unfold strscan_bin. destruct (_ || _); [done|]. destruct (bin_digits _ _ _ _); [by apply fmt_value_typed|done].
Qed.

(** An octal number needs [STRSCAN_OPT_C] and has no fraction. *)
Lemma oct_typed p fmt neg dig : fmt_in fmt -> fmt <> STRSCAN_NUM -> fmt <> STRSCAN_IMAG ->
  opt_has opt STRSCAN_OPT_C = true -> opt_has opt STRSCAN_OPT_TONUM = false -> typed (strscan_oct s p fmt neg dig).
Proof.
  intros H N1 N2 C T. unfold strscan_oct. destruct (_ || _); [done|]. destruct (oct_digits _ _ _ _) as [x|]; [|done].
  set (big := negb (x >> 32 =? 0)). clearbody big. set (ge := _ <=? x). clearbody ge.
  fmt_cases H; [by destruct N1| |by destruct N2| | |]; fmt_steps; typed_done.
Qed.

Lemma dec_fast_typed xi ex10 dig fmt neg r : fmt_in fmt -> dec_fast xi ex10 dig fmt opt neg = Some r -> typed r.
Proof.
  intros H. unfold dec_fast. destruct (_ && _); [|done]. destruct (negb _); [|done].
  fmt_cases H; fmt_steps; intros [= <-]; typed_done.
Qed.
Lemma dec_slow_typed xi ex10 fmt neg r : fmt_in fmt -> dec_slow stk xi ex10 fmt opt neg = Ok r -> typed r.
Proof.
  intros H. unfold dec_slow. destruct (_ && _); [by intros [= <-]|]. destruct (Z.ltb_spec STRSCAN_INT fmt) as [L|L]; [by intros [= <-]|].
  assert (F : fmt_out (if fmt =? STRSCAN_INT then STRSCAN_NUM else fmt) (SVn 0)).
  { fmt_cases H; cbn; auto; by destruct L. }
  set (fmt' := if fmt =? STRSCAN_INT then _ else _) in *. clearbody fmt'.
  destruct (155 <? _); [by intros [= <-]|]. destruct (_ <? -163); [by intros [= <-]|].
  destruct (scale_up _ _); cbn [mbind res_bind]; [|done]. destruct (scale_down _ _); cbn [mbind res_bind]; [|done].
  destruct (dec_collect _ _); cbn [mbind res_bind]; [|done]. by intros [= <-].
Qed.
Lemma dec_typed p fmt ex10 neg dig r : fmt_in fmt -> strscan_dec s stk p fmt opt ex10 neg dig = Ok r -> typed r.
Proof.
  intros H. unfold strscan_dec. destruct (dec_scan _ _ _ _) as [[[xi e] d]|]; cbn [mbind res_bind]; [|done].
  destruct (dec_fast _ _ _ _ _ _) eqn:E; [intros [= <-]; by apply dec_fast_typed in E|by apply dec_slow_typed].
Qed.

(** Not to be combined: [STRSCAN_OPT_TONUM] asks for doubles only. *)
Context (Hopt : opt_has opt STRSCAN_OPT_TONUM = true -> opt_has opt STRSCAN_OPT_C = false /\ opt_has opt STRSCAN_OPT_TOINT = false).

Lemma dispatch_typed sp fmt base ex neg dig x r : fmt_in fmt -> (base = 0 -> opt_has opt STRSCAN_OPT_C = true) ->
  scan_dispatch s stk sp fmt opt base ex neg dig x = Ok r -> typed r.
Proof.
  intros H B. unfold scan_dispatch. destruct (_ && (_ || _)).
  { destruct (opt_has opt STRSCAN_OPT_TONUM) eqn:T; intros [= <-]; [by left|by left]. }
  destruct ((base =? 0) && _) eqn:O.
  { apply andb_true_iff in O as [O1%Z.eqb_eq O2]. specialize (B O1). apply negb_true_iff, orb_false_iff in O2 as [O2 O3].
    apply Z.eqb_neq in O2, O3. intros [= <-]. apply oct_typed; try done.
    destruct (opt_has opt STRSCAN_OPT_TONUM); [|done]. destruct Hopt; congruence. }
  set (m := if base =? 16 then _ else _). assert (M : forall r, m = Ok r -> typed r).
  { subst m. intros r0. destruct (base =? 16); [intros [= <-]; by apply hex_typed|].
    destruct (base =? 2); [intros [= <-]; by apply bin_typed|by apply dec_typed]. }
  destruct m as [[fmt' o]|]; cbn [mbind res_bind]; [|done]. specialize (M _ eq_refl). intros R%Ok_eq. subst r.
  destruct o; try exact M.
  destruct ((fmt' =? STRSCAN_NUM) && opt_has opt STRSCAN_OPT_TOINT) eqn:T; [|exact M]. cbv zeta. destruct (deq _ _); [|exact M]. apply andb_true_iff in T as [_ T]. left.
  split; [done|]. destruct (opt_has opt STRSCAN_OPT_TONUM); [|done]. destruct Hopt; congruence.
Qed.

Lemma point_fmt p dp base dig fmt ex dig' : scan_point s p dp base dig = (fmt, ex, dig') -> fmt = STRSCAN_INT \/ fmt = STRSCAN_NUM.
Proof.
  unfold scan_point. destruct dp; [|intros [= <- _ _]; by left]. destruct (negb _); [|intros [= <- _ _]; by right].
  destruct (trim_zeros _ _ _ _ _). intros [= <- _ _]. by right.
Qed.
Lemma exponent_fmt p base fmt ex q fmt' ex' : scan_exponent s p base fmt ex = Ok (q, fmt', ex') -> fmt' = fmt \/ fmt' = STRSCAN_NUM.
Proof.
  unfold scan_exponent. destruct (_ && _); [|intros [= _ <- _]; by left]. destruct (scan_sign _ _) as [r negx].
  destruct (negb _); [done|]. destruct (exp_digits _ _ _ _) as [[? ?]|]; cbn [mbind res_bind]; [|done]. intros [= _ <- _]. by right.
Qed.

Lemma int_suffix_fmt p q fmt : int_suffix s LONG8 p STRSCAN_INT opt = Ok (q, fmt) -> fmt_in fmt.
Proof.
  unfold int_suffix.
  set (w := if casecmp (chr_at s p) 117 then _ else _). assert (W : snd w = STRSCAN_U32 \/ snd w = STRSCAN_INT) by (subst w; destruct (casecmp _ _); auto).
  destruct w as [r f]. cbn [snd] in W.
  set (m := if casecmp _ 108 then _ else _).
  assert (M : forall x, m = Ok x -> snd x = f \/ snd x = f + (STRSCAN_I64 - STRSCAN_INT)).
  { subst m. destruct (casecmp _ 108); [|intros ? [= <-]; by left]. destruct (casecmp _ 108); [intros ? [= <-]; by right|].
    destruct (negb _); [done|]. intros ? [= <-]. cbn. destruct LONG8; auto. }
  destruct m as [[r1 f1]|]; cbn [mbind res_bind]; [|done]. specialize (M _ eq_refl). cbn [snd] in M.
  set (g := if _ && _ then _ else _). assert (G : snd g = f1 \/ ((f1 = STRSCAN_INT \/ f1 = STRSCAN_I64) /\ snd g = f1 + (STRSCAN_U32 - STRSCAN_INT))).
  { subst g. destruct (casecmp _ 117); cbn [andb]; [|by left].
    destruct (Z.eqb_spec f1 STRSCAN_INT), (Z.eqb_spec f1 STRSCAN_I64); cbn [orb snd]; auto. }
  destruct g as [r2 f2]. cbn [snd] in G. destruct (_ || _) eqn:E; [done|]. intros [= _ <-]. apply orb_false_iff in E as [E1 E2].
  unfold fmt_in. cbv [STRSCAN_ERROR STRSCAN_NUM STRSCAN_IMAG STRSCAN_INT STRSCAN_U32 STRSCAN_I64 STRSCAN_U64] in *.
  destruct (opt_has opt STRSCAN_OPT_C), (opt_has opt STRSCAN_OPT_LL); cbn [negb] in *; rewrite ?andb_true_r, ?andb_false_r in *; lia.
Qed.

Lemma suffix_fmt p fmt fmt' : fmt = STRSCAN_INT \/ fmt = STRSCAN_NUM -> scan_suffix s LONG8 p fmt opt = Ok fmt' -> fmt_in fmt'.
Proof.
  intros H. assert (F : fmt_in fmt) by (destruct H as [-> | ->]; unfold fmt_in; auto).
  unfold scan_suffix. destruct (negb _); [|by intros [= <-]].
  set (m := if casecmp _ _ then _ else _). assert (M : forall x, m = Ok x -> fmt_in (snd x)).
  { subst m. destruct (casecmp _ _).
    - destruct (opt_has opt STRSCAN_OPT_IMAG) eqn:E; cbn [negb]; [|done]. intros ? [= <-]. right; right; left. done.
    - destruct (Z.eqb_spec fmt STRSCAN_INT) as [->|]; [intros [q f]; apply int_suffix_fmt|by intros ? [= <-]]. }
  destruct m as [[q f]|]; cbn [mbind res_bind]; [|done]. specialize (M _ eq_refl).
  destruct (scan_end _ _); cbn [mbind res_bind]; [|done]. by intros [= <-].
Qed.

Lemma base_c p : let '(base, _, _) := scan_base s p opt in base = 0 -> opt_has opt STRSCAN_OPT_C = true.
Proof.
  unfold scan_base. destruct (opt_has opt STRSCAN_OPT_C); cbn [andb]; [by repeat case_match|].
  repeat case_match; simplify_eq; done.
Qed.

Lemma number_typed p neg r : scan_number s LONG8 stk p opt neg = Ok r -> typed r.
Proof.
  unfold scan_number. pose proof (base_c p) as B. destruct (scan_base s p opt) as [[base cmask] q].
  destruct (if _ <=? 48 then _ else _) as [[[sp dp] h]|]; cbn [mbind res_bind]; [|done].
  destruct (scan_digits _ _ _ _ _ _ _) as [[[[p1 dp1] x] dig]|]; cbn [mbind res_bind]; [|done].
  destruct (negb _); [done|]. destruct (scan_point s p1 dp1 base dig) as [[f1 e1] d1] eqn:E1. apply point_fmt in E1.
  destruct (scan_exponent s p1 base f1 e1) as [[[p2 f2] e2]|] eqn:E2; cbn [mbind res_bind]; [|done]. apply exponent_fmt in E2.
  destruct (scan_suffix _ _ _ _ _) as [f3|] eqn:E3; cbn [mbind res_bind]; [|done].
  apply suffix_fmt in E3; [|destruct E2; [congruence|auto]]. by apply dispatch_typed.
Qed.

Lemma scan_typed fmt o : lj_strscan_scan s LONG8 stk opt = Some (fmt, o) -> fmt_out fmt o.
Proof.
  unfold lj_strscan_scan. destruct (scan_all s LONG8 stk opt) as [r|[]] eqn:E; intros [= H]; [|by subst].
  assert (T : typed r); [|rewrite H in T; exact T]. revert E. unfold scan_all. destruct (negb _); [|by apply number_typed].
  destruct (skip_space _ _ _) as [p|]; cbn [mbind res_bind]; [|done]. destruct (scan_sign _ _) as [q neg].
  destruct (65 <=? _); [|by apply number_typed]. unfold scan_infnan. destruct (if _ && _ && _ then _ else _) as [e v].
  destruct (scan_end _ _); cbn [mbind res_bind]; [|done]. intros [= <-]. by left.
Qed.
End Typed.
