(* ===== verification/Lex.v ===== *)
(** * The lexical analyzer ([lj_lex.c], [lj_lex.h])

    The scanner for the tokens of Lua source code, over an input that a reader
    callback delivers in pieces.  A function of the component is a
    computation on the lexer state that may raise an error; a loop takes fuel
    and raises [LexFuel] without it.

    The garbage collector's view of a token (anchoring a string or a cdata
    object in the constant table of the function) belongs to the parser; the
    value of a token is the string's contents, the number, or the payload of
    the cdata object. *)

From Stdlib Require Import Strings.String Strings.Ascii.
From S2P Require Import Prelude Machine Num Chars Buf Strfmt Strscan.

Definition zs (s : string) : list Z := (fun a => Z.of_nat (nat_of_ascii a)) <$> list_ascii_of_string s.

(** ** Tokens *)

Definition tokennames : list (list Z) := zs <$> [
  "and"; "break"; "do"; "else"; "elseif"; "end"; "false"; "for"; "function"; "goto"; "if"; "in";
  "local"; "nil"; "not"; "or"; "repeat"; "return"; "then"; "true"; "until"; "while";
  ".."; "..."; "=="; ">="; "<="; "~="; "::"; "<number>"; "<name>"; "<string>"; "<eof>"]%string.

Definition TK_OFS : Z := 256.
Definition TK_while : Z := 278.
Definition TK_concat : Z := 279.
Definition TK_dots : Z := 280.
Definition TK_eq : Z := 281.
Definition TK_ge : Z := 282.
Definition TK_le : Z := 283.
Definition TK_ne : Z := 284.
Definition TK_label : Z := 285.
Definition TK_number : Z := 286.
Definition TK_name : Z := 287.
Definition TK_string : Z := 288.
Definition TK_eof : Z := 289.
Definition TK_RESERVED : Z := TK_while - TK_OFS.

(** [s->reserved], as [lj_lex_init] sets it: the index of a reserved word plus
    one, zero for other strings. *)
Definition lj_lex_reserved (s : list Z) : Z :=
  match list_find (fun n => n = s) (take (Z.to_nat TK_RESERVED) tokennames) with
  | Some (i, _) => u8 (Z.of_nat i + 1)
  | None => 0
  end.

Inductive LexVal :=
| TvNil | TvStr (s : list Z) | TvInt (i : Z) | TvNum (n : Z)
| TvInt64 (u : Z) | TvUInt64 (u : Z) | TvComplex (im : Z).

Inductive ErrMsg := XLINES | XNUMBER | XLSTR | XLCOM | XSTR | XESC | XLDELIM | BCBAD.

Inductive LexErr :=
| LexError (tokstr : option (list Z)) (em : ErrMsg) (line : Z)
| LexBuf (e : BufErr)
| LexMsg              (* formatting the message failed *)
| LexScanFuel         (* the number scanner ran out of fuel *)
| LexFuel.

Definition LEX_EOF : Z := -1.
Definition LJ_MAX_LINE : Z := 0x7fffff00.

Section Lex.
(** The reader callback and its data: the next piece of input, [[]] for none. *)
Context {R : Type} (rfunc : R -> list Z * R).
(** Memory from the allocator, the stack array of the number scanner, the
    configuration, and the formatting of numbers. *)
Context (raw : nat -> Z) (stk : list Z) (LJ_DUALNUM LJ_HASFFI LONG8 : bool).
Context (sprintf : list Z -> Z -> list Z) (BIONIC : bool).

Record LexState := mkLS {
  ls_p : list Z;         (* the input buffer from [p] to [pe] *)
  ls_rdata : R;
  ls_c : Z;
  ls_tok : Z;
  ls_tokval : LexVal;
  ls_lookahead : Z;
  ls_lookaheadval : LexVal;
  ls_sb : SBuf;
  ls_linenumber : Z;
  ls_lastline : Z
}.

Definition LM (A : Type) : Type := LexState -> res LexErr (A * LexState).
#[export] Instance lm_ret : MRet LM := fun A a ls => Ok (a, ls).
#[export] Instance lm_bind : MBind LM := fun A B f m ls => '(a, ls) ← m ls; f a ls.

Definition throw {A} (e : LexErr) : LM A := fun _ => Err e.
Definition cur : LM Z := fun ls => Ok (ls_c ls, ls).
Definition buffer : LM SBuf := fun ls => Ok (ls_sb ls, ls).
Definition set_c (c : Z) (ls : LexState) : LexState :=
  mkLS (ls_p ls) (ls_rdata ls) c (ls_tok ls) (ls_tokval ls) (ls_lookahead ls) (ls_lookaheadval ls) (ls_sb ls)
    (ls_linenumber ls) (ls_lastline ls).
Definition set_input (p : list Z) (rd : R) (ls : LexState) : LexState :=
  mkLS p rd (ls_c ls) (ls_tok ls) (ls_tokval ls) (ls_lookahead ls) (ls_lookaheadval ls) (ls_sb ls)
    (ls_linenumber ls) (ls_lastline ls).
Definition set_sb (sb : SBuf) (ls : LexState) : LexState :=
  mkLS (ls_p ls) (ls_rdata ls) (ls_c ls) (ls_tok ls) (ls_tokval ls) (ls_lookahead ls) (ls_lookaheadval ls) sb
    (ls_linenumber ls) (ls_lastline ls).
Definition set_line (n : Z) (ls : LexState) : LexState :=
  mkLS (ls_p ls) (ls_rdata ls) (ls_c ls) (ls_tok ls) (ls_tokval ls) (ls_lookahead ls) (ls_lookaheadval ls) (ls_sb ls)
    n (ls_lastline ls).

(** ** Buffer handling *)

Definition iseol (c : Z) : bool := (c =? 10) || (c =? 13).

(** The character is stored as [ls->c] by [lex_next]. *)
Definition lex_more : LM Z := fun ls =>
  match rfunc (ls_rdata ls) with
  | ([], rd) => Ok (LEX_EOF, set_input (ls_p ls) rd ls)
  | (c :: p, rd) => Ok (c, set_input p rd ls)
  end.

Definition lex_next : LM Z := fun ls =>
  '(c, ls) ← match ls_p ls with
             | c :: p => Ok (c, set_input p (ls_rdata ls) ls)
             | [] => lex_more ls
             end;
  Ok (c, set_c c ls).

Definition lex_save (c : Z) : LM unit := fun ls =>
  match lj_buf_putb raw (ls_sb ls) c with
  | Ok sb => Ok (tt, set_sb sb ls)
  | Err e => Err (LexBuf e)
  end.

Definition lex_savenext : LM Z := c ← cur; _ ← lex_save c; lex_next.

Definition buf_reset : LM unit := fun ls => Ok (tt, set_sb (lj_buf_reset (ls_sb ls)) ls).

(** The string up to its first NUL. *)
Fixpoint cstr (s : list Z) : list Z :=
  match s with c :: s => if c =? 0 then [] else c :: cstr s | [] => [] end.

Definition lj_lex_token2str (tok : Z) : res LexErr (list Z) :=
  if TK_OFS <? tok then Ok (default [] (tokennames !! Z.to_nat (tok - TK_OFS - 1)))
  else
    match
      if negb (nz (lj_char_iscntrl tok)) then lj_strfmt_pushvf raw sprintf BIONIC lj_buf_init (zs "%c") [ArgChar tok]
      else lj_strfmt_pushvf raw sprintf BIONIC lj_buf_init (zs "char(%d)") [ArgInt tok]
    with Ok s => Ok s | Err _ => Err LexMsg end.

(** [lj_lex_error] never returns. *)
Definition lj_lex_error {A} (tok : Z) (em : ErrMsg) : LM A := fun ls =>
  if tok =? 0 then Err (LexError None em (ls_linenumber ls))
  else if (tok =? TK_name) || (tok =? TK_string) || (tok =? TK_number) then
    '(_, ls) ← lex_save 0 ls; Err (LexError (Some (cstr (sb_str (ls_sb ls)))) em (ls_linenumber ls))
  else s ← lj_lex_token2str tok; Err (LexError (Some s) em (ls_linenumber ls)).

(** [if (++ls->linenumber >= LJ_MAX_LINE)] *)
Definition count_line : LM unit := fun ls =>
  let ls := set_line (ls_linenumber ls + 1) ls in
  if LJ_MAX_LINE <=? ls_linenumber ls then lj_lex_error (ls_tok ls) XLINES ls else Ok (tt, ls).

Definition lex_newline : LM unit :=
  old ← cur;
  c ← lex_next;
  _ ← (if iseol c && negb (c =? old) then lex_next else mret c);
  count_line.

(** ** Scanner for terminals *)

Definition isident (c : Z) : bool := nz (lj_char_isident c).
Definition isxdigit (c : Z) : bool := nz (lj_char_isxdigit c).

Fixpoint number_loop (fuel : nat) (c xp : Z) : LM unit :=
  match fuel with
  | O => throw LexFuel
  | S f =>
      cc ← cur;
      if isident cc || (cc =? 46) || (((cc =? 45) || (cc =? 43)) && ((c .| 0x20) =? xp)) then
        _ ← lex_savenext; number_loop f cc xp
      else mret tt
  end.

Definition number_opt : Z :=
  (if LJ_DUALNUM then STRSCAN_OPT_TOINT else STRSCAN_OPT_TONUM) .|
  (if LJ_HASFFI then STRSCAN_OPT_LL .| STRSCAN_OPT_IMAG else 0).

(** The token value for a format; other combinations are excluded by the
    options. *)
Definition number_val (fmt : Z) (o : ScanVal) : option LexVal :=
  match o with
  | SVi i => if LJ_DUALNUM && (fmt =? STRSCAN_INT) then Some (TvInt i) else None
  | SVn n => if fmt =? STRSCAN_NUM then Some (TvNum n) else if LJ_HASFFI && (fmt =? STRSCAN_IMAG) then Some (TvComplex n) else None
  | SVu64 u =>
      if LJ_HASFFI && (fmt =? STRSCAN_I64) then Some (TvInt64 u)
      else if LJ_HASFFI && (fmt =? STRSCAN_U64) then Some (TvUInt64 u) else None
  | SVnone => None
  end.

(** Convert the characters of the literal. *)
Definition number_token : LM LexVal :=
  _ ← lex_save 0;
  sb ← buffer;
  match lj_strscan_scan (cstr (sb_str sb)) LONG8 stk number_opt with
  | None => throw LexScanFuel
  | Some (fmt, o) =>
      match number_val fmt o with Some v => mret v | None => lj_lex_error TK_number XNUMBER end
  end.

Definition lex_number (fuel : nat) : LM LexVal :=
  c ← cur;
  xp ← (if c =? 48 then c2 ← lex_savenext; mret (if (c2 .| 0x20) =? 120 then 112 else 101) else mret 101);
  _ ← number_loop fuel c xp;
  number_token.

(** [while (lex_savenext(ls) == '=') count++] *)
Fixpoint skipeq_loop (fuel : nat) (count : Z) : LM Z :=
  match fuel with
  | O => throw LexFuel
  | S f => c ← lex_savenext; if c =? 61 then skipeq_loop f (count + 1) else mret count
  end.

Definition lex_skipeq (fuel : nat) : LM Z :=
  s ← cur;
  count ← skipeq_loop fuel 0;
  c ← cur;
  mret (if c =? s then count else - count - 1).

Fixpoint longstring_loop (fuel : nat) (tv : bool) (sep : Z) : LM unit :=
  match fuel with
  | O => throw LexFuel
  | S f =>
      c ← cur;
      if c =? LEX_EOF then lj_lex_error TK_eof (if tv then XLSTR else XLCOM)
      else if c =? 93 then
        n ← lex_skipeq f;
        if n =? sep then _ ← lex_savenext; mret tt else longstring_loop f tv sep
      else if iseol c then
        _ ← lex_save 10;
        _ ← lex_newline;
        _ ← (if tv then mret tt else buf_reset);
        longstring_loop f tv sep
      else _ ← lex_savenext; longstring_loop f tv sep
  end.

(** The value is the buffer without the brackets. *)
Definition lex_longstring (fuel : nat) (tv : bool) (sep : Z) : LM LexVal :=
  c ← lex_savenext;
  _ ← (if iseol c then lex_newline else mret tt);
  _ ← longstring_loop fuel tv sep;
  sb ← buffer;
  mret (if tv then TvStr (take (Z.to_nat (u32 (sbuflen sb - 2 * (2 + sep)))) (drop (Z.to_nat (2 + sep)) (sb_str sb)))
        else TvNil).

(** ** Strings *)

(** The digit at [ls->c] added to [c] ([goto err_xesc] otherwise). *)
Definition add_xdigit (c sh : Z) : LM Z :=
  d ← cur;
  if is_digit d then mret c
  else if negb (isxdigit d) then lj_lex_error TK_string XESC
  else mret (c + (9 << sh)).

Definition esc_hex : LM unit :=
  d ← lex_next;
  c ← add_xdigit ((d .& 15) << 4) 4;
  d ← lex_next;
  c ← add_xdigit (c + (d .& 15)) 0;
  _ ← lex_save c;
  _ ← lex_next; mret tt.

Fixpoint unicode_loop (fuel : nat) (c : Z) : LM Z :=
  match fuel with
  | O => throw LexFuel
  | S f =>
      d ← cur;
      c ← add_xdigit ((c << 4) .| (d .& 15)) 0;
      if 0x110000 <=? c then lj_lex_error TK_string XESC
      else
        d ← lex_next;
        if negb (d =? 125) then unicode_loop f c else mret c
  end.

(** The bytes before the last one of the UTF-8 form, and the last one. *)
Definition save_utf8 (c : Z) : LM Z :=
  if c <? 0x800 then
    if c <? 0x80 then mret c
    else _ ← lex_save (0xc0 .| (c >> 6)); mret (0x80 .| (c .& 0x3f))
  else
    _ ← (if 0x10000 <=? c then
           _ ← lex_save (0xf0 .| (c >> 18)); lex_save (0x80 .| ((c >> 12) .& 0x3f))
         else if (0xd800 <=? c) && (c <? 0xe000) then lj_lex_error TK_string XESC
         else lex_save (0xe0 .| (c >> 12)));
    _ ← lex_save (0x80 .| ((c >> 6) .& 0x3f));
    mret (0x80 .| (c .& 0x3f)).

Definition esc_unicode (fuel : nat) : LM unit :=
  d ← lex_next;
  if negb (d =? 123) then lj_lex_error TK_string XESC
  else
    _ ← lex_next;
    c ← unicode_loop fuel 0;
    c ← save_utf8 c;
    _ ← lex_save c;
    _ ← lex_next; mret tt.

Fixpoint skip_ws (fuel : nat) : LM unit :=
  match fuel with
  | O => throw LexFuel
  | S f =>
      c ← cur;
      if is_space c then
        _ ← (if iseol c then lex_newline else _ ← lex_next; mret tt); skip_ws f
      else mret tt
  end.

Definition esc_decimal (c : Z) : LM unit :=
  if negb (is_digit c) then lj_lex_error TK_string XESC
  else
    let c := c - 48 in
    d ← lex_next;
    c ← (if is_digit d then
           let c := c * 10 + (d - 48) in
           d ← lex_next;
           if is_digit d then
             let c := c * 10 + (d - 48) in
             if 255 <? c then lj_lex_error TK_string XESC
             else _ ← lex_next; mret c
           else mret c
         else mret c);
    lex_save c.

(** The escapes for one character. *)
Definition simple_escape (c : Z) : option Z :=
  if c =? 97 then Some 7 else if c =? 98 then Some 8 else if c =? 102 then Some 12
  else if c =? 110 then Some 10 else if c =? 114 then Some 13 else if c =? 116 then Some 9
  else if c =? 118 then Some 11
  else if (c =? 92) || (c =? 34) || (c =? 39) then Some c else None.

Definition lex_escape (fuel : nat) : LM unit :=
  c ← lex_next;
  match simple_escape c with
  | Some c => _ ← lex_save c; _ ← lex_next; mret tt
  | None =>
      if c =? 120 then esc_hex
      else if c =? 117 then esc_unicode fuel
      else if c =? 122 then _ ← lex_next; skip_ws fuel
      else if iseol c then _ ← lex_save 10; lex_newline
      else if c =? LEX_EOF then mret tt
      else esc_decimal c
  end.

Fixpoint string_loop (fuel : nat) (delim : Z) : LM unit :=
  match fuel with
  | O => throw LexFuel
  | S f =>
      c ← cur;
      if negb (c =? delim) then
        _ ← (if c =? LEX_EOF then lj_lex_error TK_eof XSTR
             else if iseol c then lj_lex_error TK_string XSTR
             else if c =? 92 then lex_escape f
             else _ ← lex_savenext; mret tt);
        string_loop f delim
      else mret tt
  end.

Definition lex_string (fuel : nat) : LM LexVal :=
  delim ← cur;
  _ ← lex_savenext;
  _ ← string_loop fuel delim;
  _ ← lex_savenext;
  sb ← buffer;
  mret (TvStr (take (Z.to_nat (u32 (sbuflen sb - 2))) (drop 1 (sb_str sb)))).

(** ** Main lexical scanner *)

(** A token, with the value when it sets one. *)
Definition LexTok : Type := Z * option LexVal.

Fixpoint ident_loop (fuel : nat) : LM unit :=
  match fuel with
  | O => throw LexFuel
  | S f => c ← lex_savenext; if isident c then ident_loop f else mret tt
  end.

Definition lex_ident (fuel : nat) : LM LexTok :=
  _ ← ident_loop fuel;
  sb ← buffer;
  let s := sb_str sb in
  mret (if 0 <? lj_lex_reserved s then TK_OFS + lj_lex_reserved s else TK_name, Some (TvStr s)).

Fixpoint comment_loop (fuel : nat) : LM unit :=
  match fuel with
  | O => throw LexFuel
  | S f =>
      c ← cur;
      if negb (iseol c) && negb (c =? LEX_EOF) then _ ← lex_next; comment_loop f else mret tt
  end.

(** Behind "--": the comment. *)
Definition lex_comment (fuel : nat) : LM unit :=
  c ← cur;
  if c =? 91 then
    sep ← lex_skipeq fuel;
    _ ← buf_reset;
    if 0 <=? sep then _ ← lex_longstring fuel false sep; buf_reset
    else comment_loop fuel
  else comment_loop fuel.

(** One character, or a token of two when [c2] follows. *)
Definition lex_two (c1 c2 tok : Z) : LM (option LexTok) :=
  c ← lex_next;
  if negb (c =? c2) then mret (Some (c1, None)) else _ ← lex_next; mret (Some (tok, None)).

Definition lex_dot (fuel : nat) : LM LexTok :=
  c ← lex_savenext;
  if c =? 46 then
    c ← lex_next;
    if c =? 46 then _ ← lex_next; mret (TK_dots, None) else mret (TK_concat, None)
  else if negb (is_digit c) then mret (46, None)
  else v ← lex_number fuel; mret (TK_number, Some v).

(** One round of the scanner's loop; [None] is [continue]. *)
Definition lex_step (fuel : nat) : LM (option LexTok) :=
  c ← cur;
  if isident c then
    if is_digit c then v ← lex_number fuel; mret (Some (TK_number, Some v))
    else t ← lex_ident fuel; mret (Some t)
  else if iseol c then _ ← lex_newline; mret None
  else if (c =? 32) || (c =? 9) || (c =? 11) || (c =? 12) then _ ← lex_next; mret None
  else if c =? 45 then
    c ← lex_next;
    if negb (c =? 45) then mret (Some (45, None))
    else _ ← lex_next; _ ← lex_comment fuel; mret None
  else if c =? 91 then
    sep ← lex_skipeq fuel;
    if 0 <=? sep then v ← lex_longstring fuel true sep; mret (Some (TK_string, Some v))
    else if sep =? -1 then mret (Some (91, None))
    else lj_lex_error TK_string XLDELIM
  else if c =? 61 then lex_two 61 61 TK_eq
  else if c =? 60 then lex_two 60 61 TK_le
  else if c =? 62 then lex_two 62 61 TK_ge
  else if c =? 126 then lex_two 126 61 TK_ne
  else if c =? 58 then lex_two 58 58 TK_label
  else if (c =? 34) || (c =? 39) then v ← lex_string fuel; mret (Some (TK_string, Some v))
  else if c =? 46 then t ← lex_dot fuel; mret (Some t)
  else if c =? LEX_EOF then mret (Some (TK_eof, None))
  else _ ← lex_next; mret (Some (c, None)).

Fixpoint scan_loop (fuel : nat) : LM LexTok :=
  match fuel with
  | O => throw LexFuel
  | S f => t ← lex_step f; match t with Some t => mret t | None => scan_loop f end
  end.

Definition lex_scan (fuel : nat) : LM LexTok := _ ← buf_reset; scan_loop fuel.

(** ** Lexer API *)

Definition lj_lex_next (fuel : nat) : LM unit := fun ls =>
  let ls := mkLS (ls_p ls) (ls_rdata ls) (ls_c ls) (ls_tok ls) (ls_tokval ls) (ls_lookahead ls) (ls_lookaheadval ls)
    (ls_sb ls) (ls_linenumber ls) (ls_linenumber ls) in
  if ls_lookahead ls =? TK_eof then
    '((tok, v), ls) ← lex_scan fuel ls;
    Ok (tt, mkLS (ls_p ls) (ls_rdata ls) (ls_c ls) tok (default (ls_tokval ls) v) (ls_lookahead ls) (ls_lookaheadval ls)
      (ls_sb ls) (ls_linenumber ls) (ls_lastline ls))
  else
    Ok (tt, mkLS (ls_p ls) (ls_rdata ls) (ls_c ls) (ls_lookahead ls) (ls_lookaheadval ls) TK_eof (ls_lookaheadval ls)
      (ls_sb ls) (ls_linenumber ls) (ls_lastline ls)).

Definition lj_lex_lookahead (fuel : nat) : LM Z := fun ls =>
  '((tok, v), ls) ← lex_scan fuel ls;
  Ok (tok, mkLS (ls_p ls) (ls_rdata ls) (ls_c ls) (ls_tok ls) (ls_tokval ls) tok (default (ls_lookaheadval ls) v)
    (ls_sb ls) (ls_linenumber ls) (ls_lastline ls)).

(** [do { next; if EOF return 0 } while (!eol)] *)
Fixpoint header_loop (fuel : nat) : LM bool :=
  match fuel with
  | O => throw LexFuel
  | S f =>
      c ← lex_next;
      if c =? LEX_EOF then mret false
      else if negb (iseol c) then header_loop f else _ ← lex_newline; mret true
  end.

(** Skip the UTF-8 byte order mark, if it is buffered. *)
Definition skip_bom : LM bool := fun ls =>
  match ls_c ls =? 0xef, ls_p ls with
  | true, c1 :: c2 :: p =>
      if (c1 =? 0xbb) && (c2 =? 0xbf) then '(_, ls) ← lex_next (set_input p (ls_rdata ls) ls); Ok (true, ls)
      else Ok (false, ls)
  | _, _ => Ok (false, ls)
  end.

(** Skip a POSIX header line; whether there is more input, and a header. *)
Definition skip_header (fuel : nat) (header : bool) : LM (bool * bool) :=
  c ← cur;
  if c =? 35 then more ← header_loop fuel; mret (more, true) else mret (true, header).

(** Read ahead, skip the headers, and look for the signature of a bytecode
    dump.  A dump behind a header is refused. *)
Definition lex_begin (fuel : nat) : LM bool :=
  _ ← lex_next;
  header ← skip_bom;
  '(more, header) ← skip_header fuel header;
  c ← cur;
  if negb more then mret false
  else if negb (c =? 27) then mret false
  else if negb header then mret true
  else throw (LexError None BCBAD 0).

(** Whether the input is a bytecode dump; the state gets its first values. *)
Definition lj_lex_setup (fuel : nat) : LM bool := fun ls =>
  lex_begin fuel (mkLS [] (ls_rdata ls) (ls_c ls) 0 (ls_tokval ls) TK_eof (ls_lookaheadval ls) (ls_sb ls) 1 1).
End Lex.
