(* ===== verification/LexInv.v ===== *)
(** * The lexer's loops end, and pieces of input do not matter

    The input comes from a reader that delivers a list of non-empty pieces.
    [wp] is the weakest precondition of a lexer function for states whose
    input is intact: every loop of the lexer stops within the fuel its caller
    passes, because it consumes a character in each round.  [Respects] says
    that a function depends on the unread characters only, not on how they
    are split into pieces. *)

From S2P Require Import Prelude Machine Num Chars Buf Strfmt StrfmtBuf Strscan StrscanEnds Lex.

Abbreviation PState := (@LexState (list (list Z))).
Abbreviation PM := (@LM (list (list Z))).

(** The characters behind the current one. *)
Definition unread (ls : PState) : list Z := ls_p ls ++ concat (ls_rdata ls).

Section Lexer.
(** The token that was looked at ahead; the scanner leaves it alone. *)
Context (la : Z).

Record lex_inv (ls : PState) : Prop := {
  li_la : ls_lookahead ls = la;
  li_pieces : pieces_ok (ls_rdata ls);
  li_bytes : Forall (fun c => 0 <= c) (unread ls);
  li_eof : ls_c ls = LEX_EOF -> unread ls = []
}.

(** The number of characters to consume. *)
Definition size (ls : PState) : nat := if ls_c ls =? LEX_EOF then 0 else S (length (unread ls)).

Context (raw : nat -> Z) (stk : list Z) (LJ_DUALNUM LJ_HASFFI LONG8 : bool).
Context (sprintf : list Z -> Z -> list Z) (BIONIC : bool).

Abbreviation next := (lex_next piece_reader).
Abbreviation savenext := (lex_savenext piece_reader raw).
Abbreviation error := (lj_lex_error raw sprintf BIONIC).
Abbreviation newline := (lex_newline piece_reader raw sprintf BIONIC).

(** ** Weakest preconditions *)

Definition out_of_fuel (e : LexErr) : bool := match e with LexFuel | LexScanFuel => true | _ => false end.

Definition wp {A} (m : PM A) (Q : A -> PState -> Prop) (ls : PState) : Prop :=
  match m ls with Ok (a, ls') => lex_inv ls' /\ Q a ls' | Err e => out_of_fuel e = false end.

Lemma wp_bind {A B} (m : PM A) (f : A -> PM B) Q ls :
  wp m (fun a ls => wp (f a) Q ls) ls -> wp (m ≫= f) Q ls.
Proof. unfold wp, mbind, lm_bind, mbind, res_bind. destruct (m ls) as [[a ls']|e]; [by intros [_ H]|done]. Qed.

Lemma wp_ret {A} (a : A) Q ls : lex_inv ls -> Q a ls -> wp (mret a) Q ls.
Proof. done. Qed.

Lemma wp_mono {A} (m : PM A) (P Q : A -> PState -> Prop) ls :
  wp m P ls -> (forall a ls', lex_inv ls' -> P a ls' -> Q a ls') -> wp m Q ls.
Proof. unfold wp. destruct (m ls) as [[a ls']|e]; [|done]. intros [H1 H2] H. auto. Qed.

Lemma wp_cur Q ls : lex_inv ls -> Q (ls_c ls) ls -> wp cur Q ls.
Proof. done. Qed.
Lemma wp_buffer Q ls : lex_inv ls -> Q (ls_sb ls) ls -> wp buffer Q ls.
Proof. done. Qed.

Lemma token2str_fuel tok e : lj_lex_token2str raw sprintf BIONIC tok = Err e -> out_of_fuel e = false.
Proof. unfold lj_lex_token2str. repeat case_match; intros [= <-]; done. Qed.

Lemma wp_error {A} tok em (Q : A -> PState -> Prop) ls : wp (error tok em) Q ls.
Proof.
  unfold wp, lj_lex_error. destruct (tok =? 0); [done|]. destruct (_ || _).
  - unfold lex_save. destruct (lj_buf_putb _ _ _); done.
  - pose proof (token2str_fuel tok). destruct (lj_lex_token2str _ _ _ _); cbn; auto.
Qed.

(** Reading a character. *)
Lemma next_spec ls : lex_inv ls -> exists ls', next ls = Ok (ls_c ls', ls') /\ lex_inv ls' /\
  ls_sb ls' = ls_sb ls /\ ls_linenumber ls' = ls_linenumber ls /\ ls_tok ls' = ls_tok ls /\
  match unread ls with c :: u => ls_c ls' = c /\ unread ls' = u | [] => ls_c ls' = LEX_EOF end.
Proof.
  intros [A P B E]. unfold lex_next. destruct ls as [p rd c tok tv la' lav sb ln ll]. unfold unread in *. cbn in *.
  destruct p as [|c' p].
  - unfold lex_more. cbn. destruct rd as [|[|c' x] rd]; cbn.
    + eexists (set_c _ _). split; [reflexivity|]. cbn. split; [split; cbn; [done|constructor|constructor|done]|done].
    + by apply Forall_cons_1 in P as [? _].
    + eexists (set_c _ _). split; [reflexivity|]. cbn. apply Forall_cons_1 in P as [_ P]. apply Forall_cons_1 in B as [? B].
      split; [split; cbn; [done|done|done|unfold LEX_EOF; lia]|done].
  - eexists (set_c _ _). split; [reflexivity|]. cbn. apply Forall_cons_1 in B as [? B].
    split; [split; cbn; [done|done|done|unfold LEX_EOF; lia]|done].
Qed.

(** The input position moves on, unless the input is exhausted. *)
Definition advanced (ls ls' : PState) : Prop :=
  (size ls' <= size ls)%nat /\ (ls_c ls <> LEX_EOF -> (size ls' < size ls)%nat).

Lemma advanced_next ls ls' : lex_inv ls -> lex_inv ls' ->
  match unread ls with c :: u => ls_c ls' = c /\ unread ls' = u | [] => ls_c ls' = LEX_EOF end -> advanced ls ls'.
Proof.
  intros I I' H. unfold advanced, size. destruct (unread ls) as [|c u] eqn:U.
  - rewrite H. change (LEX_EOF =? LEX_EOF) with true. destruct (Z.eqb_spec (ls_c ls) LEX_EOF); lia.
  - destruct (Z.eqb_spec (ls_c ls) LEX_EOF) as [E|E]; [by rewrite (li_eof _ I E) in U|].
    destruct H as [_ ->]. cbn [length]. destruct (ls_c ls' =? LEX_EOF); lia.
Qed.

Lemma wp_next Q ls : lex_inv ls ->
  (forall ls', lex_inv ls' -> advanced ls ls' -> ls_linenumber ls' = ls_linenumber ls -> Q (ls_c ls') ls') -> wp next Q ls.
Proof.
  intros I H. destruct (next_spec ls I) as (ls' & E & I' & _ & L & _ & U). unfold wp. rewrite E. split; [done|].
  apply H; [done|by apply advanced_next|done].
Qed.

(** Storing a character leaves the input alone. *)
Definition same_input (ls ls' : PState) : Prop := ls_c ls' = ls_c ls /\ size ls' = size ls.

Lemma set_sb_inv sb ls : lex_inv ls -> lex_inv (set_sb sb ls) /\ same_input ls (set_sb sb ls).
Proof. intros [A P B E]. split; [by split|]. by split. Qed.

Lemma wp_save c Q ls : lex_inv ls -> (forall ls', lex_inv ls' -> same_input ls ls' -> Q tt ls') -> wp (lex_save raw c) Q ls.
Proof.
  intros I H. unfold wp, lex_save. destruct (lj_buf_putb raw (ls_sb ls) c) as [sb|e]; [|done].
  destruct (set_sb_inv sb ls I). auto.
Qed.

Lemma wp_reset Q ls : lex_inv ls -> (forall ls', lex_inv ls' -> same_input ls ls' -> Q tt ls') -> wp buf_reset Q ls.
Proof. intros I H. unfold wp, buf_reset. destruct (set_sb_inv (lj_buf_reset (ls_sb ls)) ls I). auto. Qed.

Lemma wp_savenext Q ls : lex_inv ls ->
  (forall ls', lex_inv ls' -> advanced ls ls' -> Q (ls_c ls') ls') -> wp savenext Q ls.
Proof.
  intros I H. unfold lex_savenext. apply wp_bind, wp_cur; [done|]. apply wp_bind, wp_save; [done|].
  intros ls1 I1 [C S]. apply wp_next; [done|]. intros ls2 I2 [A1 A2] _. apply H; [done|].
  unfold advanced. rewrite <- S, <- C. done.
Qed.

Lemma wp_count Q ls : lex_inv ls -> (forall ls', lex_inv ls' -> same_input ls ls' -> Q tt ls') ->
  wp (count_line raw sprintf BIONIC) Q ls.
Proof.
  intros I H. unfold wp, count_line. set (ls1 := set_line (ls_linenumber ls + 1) ls).
  assert (I1 : lex_inv ls1) by (destruct I; by split).
  cbv zeta. fold ls1. destruct (LJ_MAX_LINE <=? ls_linenumber ls1); [apply (wp_error (A := unit) _ _ Q)|]. split; [done|].
  apply H; [done|by split].
Qed.

Lemma wp_newline Q ls : lex_inv ls ->
  (forall ls', lex_inv ls' -> advanced ls ls' -> Q tt ls') -> wp newline Q ls.
Proof.
  intros I H. unfold lex_newline. apply wp_bind, wp_cur; [done|]. apply wp_bind, wp_next; [done|].
  intros ls1 I1 A1 _. apply wp_bind.
  assert (K : forall ls2, lex_inv ls2 -> (size ls2 <= size ls1)%nat -> wp (count_line raw sprintf BIONIC) Q ls2).
  { intros ls2 I2 A2. apply wp_count; [done|]. intros ls3 I3 [C3 S3]. apply H; [done|].
    destruct A1. split; [lia|]. intros. rewrite S3. enough (size ls1 < size ls)%nat by lia. auto. }
  destruct (_ && _).
  - apply wp_next; [done|]. intros ls2 I2 [A2 _] _. auto.
  - apply wp_ret; [done|]. auto.
Qed.

(** ** The loops *)

Definition shrinks (ls : PState) : forall A, A -> PState -> Prop := fun _ _ ls' => (size ls' <= size ls)%nat.
Definition strict (ls : PState) : forall A, A -> PState -> Prop := fun _ _ ls' => (size ls' < size ls)%nat.

Ltac wstep :=
  match goal with
  | |- wp (_ ≫= _) _ _ => apply wp_bind
  | |- wp (mret _) _ _ => apply wp_ret; [assumption|]
  | |- wp cur _ _ => apply wp_cur; [assumption|]
  | |- wp buffer _ _ => apply wp_buffer; [assumption|]
  | |- wp (lex_next _) _ _ => apply wp_next; [assumption|]; intros ? ? ? ?
  | |- wp (lex_savenext _ _) _ _ => apply wp_savenext; [assumption|]; intros ? ? ?
  | |- wp (lex_save _ _) _ _ => apply wp_save; [assumption|]; intros ? ? ?
  | |- wp buf_reset _ _ => apply wp_reset; [assumption|]; intros ? ? ?
  | |- wp (lex_newline _ _ _ _) _ _ => apply wp_newline; [assumption|]; intros ? ? ?
  | |- wp (lj_lex_error _ _ _ _ _) _ _ => apply wp_error
  | |- wp (if ?b then _ else _) _ _ => let E := fresh "E" in destruct b eqn:E
  end.
Ltac wsteps := repeat wstep.

(** Close a goal on sizes; a loop guard excludes the end of the input. *)
Ltac sizes :=
  unfold shrinks, strict, advanced, same_input, LEX_EOF in *; cbv beta in *;
  repeat match goal with H : _ /\ _ |- _ => destruct H end; try (split; [|split]); try split; lia.

Lemma not_eof c (p : Z -> bool) : p LEX_EOF = false -> p c = true -> c <> LEX_EOF.
Proof. intros H1 H2 ->. congruence. Qed.

Lemma ident_not_eof c : isident c = true -> c <> LEX_EOF.
Proof. by apply (not_eof c isident). Qed.
Lemma space_not_eof c : is_space c = true -> c <> LEX_EOF.
Proof. by apply (not_eof c is_space). Qed.
Lemma eol_not_eof c : iseol c = true -> c <> LEX_EOF.
Proof. by apply (not_eof c iseol). Qed.
Lemma is_digit_not_eof c : is_digit c = true -> c <> LEX_EOF.
Proof. by apply (not_eof c is_digit). Qed.
Lemma xdigit_not_eof c : isxdigit c = true -> c <> LEX_EOF.
Proof. by apply (not_eof c isxdigit). Qed.
Lemma size_pos ls : ls_c ls <> LEX_EOF -> (0 < size ls)%nat.
Proof. unfold size. destruct (Z.eqb_spec (ls_c ls) LEX_EOF); lia. Qed.

(** A number literal: it consumes its first character when that is a digit. *)
Definition number_post (ls : PState) : forall A, A -> PState -> Prop := fun _ _ ls' =>
  (size ls' <= size ls)%nat /\ (isident (ls_c ls) = true -> (size ls' < size ls)%nat).

Lemma wp_number_loop fuel : forall c xp ls, lex_inv ls -> (size ls < fuel)%nat ->
  wp (number_loop piece_reader raw fuel c xp) (number_post ls unit) ls.
Proof.
  induction fuel as [|f IH]; intros c xp ls I F; [lia|]. cbn [number_loop]. wstep. wstep.
  destruct (isident (ls_c ls)) eqn:D; cbn [orb].
  - apply ident_not_eof in D as C. wsteps. eapply wp_mono; [apply IH; [done|sizes]|]. intros [] ls2 I2 [S2 _].
    unfold number_post. sizes.
  - assert (K : ls_c ls <> LEX_EOF -> wp (_ ← savenext; number_loop piece_reader raw f (ls_c ls) xp) (number_post ls unit) ls).
    { intros C. wsteps. eapply wp_mono; [apply IH; [done|sizes]|]. intros [] ls2 I2 [S2 _].
      unfold number_post. rewrite D. split; [sizes|done]. }
    wstep; [apply K; intros Ec; rewrite Ec in E; done|]. wsteps. unfold number_post. rewrite D. split; [lia|done].
Qed.

Lemma wp_skipeq_loop fuel : forall n ls, lex_inv ls -> ls_c ls <> LEX_EOF -> (size ls <= fuel)%nat ->
  wp (skipeq_loop piece_reader raw fuel n) (strict ls Z) ls.
Proof.
  induction fuel as [|f IH]; intros n ls I C F; [pose proof (size_pos ls C); lia|]. cbn [skipeq_loop]. wsteps; [|sizes].
  eapply wp_mono; [apply IH; [done|sizes|sizes]|]. intros z ls2 I2 S2. sizes.
Qed.

Lemma wp_skipeq fuel ls : lex_inv ls -> ls_c ls <> LEX_EOF -> (size ls <= fuel)%nat ->
  wp (lex_skipeq piece_reader raw fuel) (strict ls Z) ls.
Proof.
  intros I C F. unfold lex_skipeq. wsteps. eapply wp_mono; [by apply wp_skipeq_loop|]. intros z ls1 I1 S1. wsteps. sizes.
Qed.

Lemma wp_longstring_loop fuel : forall tv sep ls, lex_inv ls -> (size ls < fuel)%nat ->
  wp (longstring_loop piece_reader raw sprintf BIONIC fuel tv sep) (shrinks ls unit) ls.
Proof.
  induction fuel as [|f IH]; intros tv sep ls I F; [lia|]. cbn [longstring_loop].
  assert (K : forall ls', lex_inv ls' -> (size ls' < size ls)%nat ->
    wp (longstring_loop piece_reader raw sprintf BIONIC f tv sep) (shrinks ls unit) ls').
  { intros ls' I' S'. eapply wp_mono; [apply IH; [done|lia]|]. intros [] ls2 I2 S2. sizes. }
  wstep. wstep. destruct (Z.eqb_spec (ls_c ls) LEX_EOF) as [|C]; [apply wp_error|].
  destruct (ls_c ls =? 93).
  - wstep. eapply wp_mono; [apply wp_skipeq; [done|done|lia]|]. intros n ls1 I1 S1. wsteps; [sizes|apply K; (done || sizes)].
  - destruct (iseol (ls_c ls)); wsteps; apply K; (done || sizes).
Qed.

Lemma wp_longstring fuel tv sep ls : lex_inv ls -> (size ls < fuel)%nat ->
  wp (lex_longstring piece_reader raw sprintf BIONIC fuel tv sep) (shrinks ls LexVal) ls.
Proof.
  intros I F. unfold lex_longstring. wsteps.
  all: eapply wp_mono; [apply wp_longstring_loop; [done|sizes]|]; intros [] ls2 I2 S2; wsteps; sizes.
Qed.

(** ** Strings *)

Lemma wp_add_xdigit c sh Q ls : lex_inv ls -> (forall a, ls_c ls <> LEX_EOF -> Q a ls) ->
  wp (add_xdigit raw sprintf BIONIC c sh) Q ls.
Proof.
  intros I H. unfold add_xdigit. wsteps.
  - apply H. by apply is_digit_not_eof.
  - apply H. apply xdigit_not_eof. by apply negb_false_iff in E0.
Qed.

Lemma wp_esc_hex ls : lex_inv ls -> wp (esc_hex piece_reader raw sprintf BIONIC) (shrinks ls unit) ls.
Proof.
  intros I. unfold esc_hex. wsteps. apply wp_add_xdigit; [done|]. intros a C. wsteps. apply wp_add_xdigit; [done|].
  intros b C2. wsteps. sizes.
Qed.

Lemma wp_unicode_loop fuel : forall c ls, lex_inv ls -> (size ls < fuel)%nat ->
  wp (unicode_loop piece_reader raw sprintf BIONIC fuel c) (shrinks ls Z) ls.
Proof.
  induction fuel as [|f IH]; intros c ls I F; [lia|]. cbn [unicode_loop]. wstep. wstep. wstep.
  apply wp_add_xdigit; [done|]. intros a C. wsteps; [|sizes].
  eapply wp_mono; [apply IH; [done|sizes]|]. intros z ls2 I2 S2. sizes.
Qed.

Lemma wp_save_utf8 c Q ls : lex_inv ls -> (forall a ls', lex_inv ls' -> size ls' = size ls -> Q a ls') ->
  wp (save_utf8 raw sprintf BIONIC c) Q ls.
Proof. intros I H. unfold save_utf8. wsteps; apply H; (done || sizes). Qed.

Lemma wp_esc_unicode fuel ls : lex_inv ls -> (size ls < fuel)%nat ->
  wp (esc_unicode piece_reader raw sprintf BIONIC fuel) (shrinks ls unit) ls.
Proof.
  intros I F. unfold esc_unicode. wsteps. eapply wp_mono; [apply wp_unicode_loop; [done|sizes]|]. intros z ls2 I2 S2. wsteps.
  apply wp_save_utf8; [done|]. intros b ls3 I3 S3. wsteps. sizes.
Qed.

Lemma wp_skip_ws fuel : forall ls, lex_inv ls -> (size ls < fuel)%nat ->
  wp (skip_ws piece_reader raw sprintf BIONIC fuel) (shrinks ls unit) ls.
Proof.
  induction fuel as [|f IH]; intros ls I F; [lia|]. cbn [skip_ws]. wstep. wstep.
  destruct (is_space (ls_c ls)) eqn:C; [apply space_not_eof in C|wsteps; sizes].
  wsteps; (eapply wp_mono; [apply IH; [done|sizes]|]; intros [] ls2 I2 S2; sizes).
Qed.

Lemma wp_esc_decimal c ls : lex_inv ls -> wp (esc_decimal piece_reader raw sprintf BIONIC c) (shrinks ls unit) ls.
Proof. intros I. unfold esc_decimal. wsteps; sizes. Qed.

(** An escape consumes the backslash at least. *)
Lemma wp_escape fuel ls : lex_inv ls -> ls_c ls <> LEX_EOF -> (size ls <= fuel)%nat ->
  wp (lex_escape piece_reader raw sprintf BIONIC fuel) (strict ls unit) ls.
Proof.
  intros I C F. unfold lex_escape. wsteps. destruct (simple_escape (ls_c ls')).
  - wsteps. sizes.
  - assert (M : forall m : PM unit, wp m (shrinks ls' unit) ls' -> wp m (strict ls unit) ls').
    { intros m H'. eapply wp_mono; [exact H'|]. intros [] ls2 I2 S2. sizes. }
    do 2 (wstep; [apply M; first [by apply wp_esc_hex|apply wp_esc_unicode; [done|sizes]]|]).
    wstep; [|wsteps; try sizes; apply M; by apply wp_esc_decimal].
    wstep. wstep. eapply wp_mono; [apply wp_skip_ws; [done|sizes]|]. intros [] ls2 I2 S2. sizes.
Qed.

Lemma wp_string_loop fuel : forall delim ls, lex_inv ls -> (size ls < fuel)%nat -> delim <> LEX_EOF ->
  wp (string_loop piece_reader raw sprintf BIONIC fuel delim) (fun _ ls' => ls_c ls' = delim /\ (size ls' <= size ls)%nat) ls.
Proof.
  induction fuel as [|f IH]; intros delim ls I F D; [lia|]. cbn [string_loop].
  assert (K : forall ls', lex_inv ls' -> (size ls' < size ls)%nat ->
    wp (string_loop piece_reader raw sprintf BIONIC f delim) (fun _ ls' => ls_c ls' = delim /\ (size ls' <= size ls)%nat) ls').
  { intros ls' I' S'. eapply wp_mono; [apply IH; [done|lia|done]|]. intros [] ls2 I2 [C2 S2]. sizes. }
  wstep. wstep. destruct (Z.eqb_spec (ls_c ls) delim) as [|Nd]; cbn [negb]; [by apply wp_ret|].
  wstep. destruct (Z.eqb_spec (ls_c ls) LEX_EOF) as [|C]; [apply wp_error|].
  destruct (iseol (ls_c ls)); [apply wp_error|]. destruct (ls_c ls =? 92).
  - eapply wp_mono; [apply wp_escape; [done|done|lia]|]. intros [] ls1 I1 S1. apply K; [done|exact S1].
  - wsteps. apply K; [done|sizes].
Qed.

Lemma wp_string fuel ls : lex_inv ls -> ls_c ls <> LEX_EOF -> (size ls <= fuel)%nat ->
  wp (lex_string piece_reader raw sprintf BIONIC fuel) (strict ls LexVal) ls.
Proof.
  intros I C F. unfold lex_string. wsteps.
  eapply wp_mono; [apply wp_string_loop; [done|sizes|done]|]. intros [] ls2 I2 [C2 S2]. wsteps. sizes.
Qed.

(** ** Tokens *)

Lemma digit_ident c : is_digit c = true -> isident c = true.
Proof.
  unfold is_digit, isident, lj_char_isdigit, lj_char_isident, lj_char_isa, nz. intros H.
  destruct (decide (0 <= c + 1 < 257)) as [B|B].
  - apply negb_true_iff, Z.eqb_neq in H. apply negb_true_iff, Z.eqb_neq.
    pose proof (forall_below 257 (fun i => implb (negb (default 0 (lj_char_bits !! Z.to_nat i) .& LJ_CHAR_DIGIT =? 0))
      (negb (default 0 (lj_char_bits !! Z.to_nat i) .& LJ_CHAR_IDENT =? 0))) ltac:(by vm_compute) (c + 1) ltac:(lia)) as G.
    cbv beta in G. rewrite (proj2 (Z.eqb_neq _ _) H) in G. cbn [negb implb] in G. by apply negb_true_iff, Z.eqb_neq in G.
  - exfalso. destruct (decide (c + 1 < 0)).
    + replace (Z.to_nat (c + 1)) with 0%nat in H by lia. done.
    + rewrite lookup_ge_None_2 in H; [done|]. change (length lj_char_bits) with 257%nat. lia.
Qed.

(** The number scanner works in an array of bytes. *)
Context (Hstk : xi_ok stk).

Lemma wp_number_token ls : lex_inv ls ->
  wp (number_token raw stk LJ_DUALNUM LJ_HASFFI LONG8 sprintf BIONIC) (shrinks ls LexVal) ls.
Proof.
  intros I. unfold number_token. wsteps.
  destruct (scan_some (cstr (sb_str (ls_sb ls'))) LONG8 stk (number_opt LJ_DUALNUM LJ_HASFFI) Hstk) as ([fmt o] & ->).
  destruct (number_val _ _ _ _); wsteps. sizes.
Qed.

Lemma wp_number fuel ls : lex_inv ls -> is_digit (ls_c ls) = true -> (size ls < fuel)%nat ->
  wp (lex_number piece_reader raw stk LJ_DUALNUM LJ_HASFFI LONG8 sprintf BIONIC fuel) (strict ls LexVal) ls.
Proof.
  intros I D F. apply digit_ident in D as D'. apply is_digit_not_eof in D as C. unfold lex_number. wstep. wstep. wstep.
  assert (T : forall ls2, lex_inv ls2 -> (size ls2 < size ls)%nat ->
    wp (number_token raw stk LJ_DUALNUM LJ_HASFFI LONG8 sprintf BIONIC) (strict ls LexVal) ls2).
  { intros ls2 I2 S2. eapply wp_mono; [by apply wp_number_token|]. intros v ls3 I3 S3. sizes. }
  destruct (ls_c ls =? 48); wsteps.
  all: eapply wp_mono; [apply wp_number_loop; [done|sizes]|]; intros [] ls2 I2 [S2 S2']; apply T; [done|].
  all: try specialize (S2' D'); sizes.
Qed.

(** *** The main loop *)

Lemma wp_ident_loop fuel : forall ls, lex_inv ls -> ls_c ls <> LEX_EOF -> (size ls <= fuel)%nat ->
  wp (ident_loop piece_reader raw fuel) (strict ls unit) ls.
Proof.
  induction fuel as [|f IH]; intros ls I C F; [pose proof (size_pos ls C); lia|]. cbn [ident_loop]. wsteps; [|sizes].
  apply ident_not_eof in E. eapply wp_mono; [apply IH; [done|done|sizes]|]. intros [] ls2 I2 S2. sizes.
Qed.

Lemma wp_comment_loop fuel : forall ls, lex_inv ls -> (size ls < fuel)%nat ->
  wp (comment_loop piece_reader fuel) (shrinks ls unit) ls.
Proof.
  induction fuel as [|f IH]; intros ls I F; [lia|]. cbn [comment_loop]. wsteps; [|sizes].
  apply andb_true_iff in E as [_ E]. apply negb_true_iff, Z.eqb_neq in E.
  eapply wp_mono; [apply IH; [done|sizes]|]. intros [] ls2 I2 S2. sizes.
Qed.

Lemma wp_comment fuel ls : lex_inv ls -> (size ls < fuel)%nat ->
  wp (lex_comment piece_reader raw sprintf BIONIC fuel) (shrinks ls unit) ls.
Proof.
  intros I F. unfold lex_comment. wstep. wstep. destruct (Z.eqb_spec (ls_c ls) 91) as [C|]; [|by apply wp_comment_loop].
  wstep. eapply wp_mono; [apply wp_skipeq; [done|rewrite C; done|lia]|]. intros sep ls1 I1 S1. wsteps.
  - eapply wp_mono; [apply wp_longstring; [done|sizes]|]. intros v ls2 I2 S2. wsteps. sizes.
  - eapply wp_mono; [apply wp_comment_loop; [done|sizes]|]. intros [] ls2 I2 S2. sizes.
Qed.

Lemma wp_two c1 c2 tok ls : lex_inv ls -> ls_c ls <> LEX_EOF -> wp (lex_two piece_reader c1 c2 tok) (strict ls (option LexTok)) ls.
Proof. intros I C. unfold lex_two. wsteps; sizes. Qed.

Lemma wp_dot fuel ls : lex_inv ls -> ls_c ls <> LEX_EOF -> (size ls <= fuel)%nat ->
  wp (lex_dot piece_reader raw stk LJ_DUALNUM LJ_HASFFI LONG8 sprintf BIONIC fuel) (strict ls LexTok) ls.
Proof.
  intros I C F. unfold lex_dot. wsteps; try sizes. apply negb_false_iff in E0.
  eapply wp_mono; [apply wp_number; [done|done|sizes]|]. intros v ls2 I2 S2. wsteps. sizes.
Qed.

(** A round of the scanner consumes a character or finds the end. *)
Definition step_post (ls : PState) : option LexTok -> PState -> Prop := fun t ls' =>
  (size ls' < size ls)%nat \/ (t = Some (TK_eof, None) /\ ls_c ls' = LEX_EOF).

Lemma wp_step_strict ls (m : PM (option LexTok)) : wp m (strict ls _) ls -> wp m (step_post ls) ls.
Proof. intros H. eapply wp_mono; [exact H|]. intros. by left. Qed.

Lemma wp_step fuel ls : lex_inv ls -> (size ls < fuel)%nat ->
  wp (lex_step piece_reader raw stk LJ_DUALNUM LJ_HASFFI LONG8 sprintf BIONIC fuel) (step_post ls) ls.
Proof.
  intros I F. unfold lex_step. wstep. wstep.
  destruct (decide (ls_c ls = LEX_EOF)) as [C|C].
  { rewrite C. apply wp_ret; [done|]. by right. }
  assert (E : forall (b : bool) (m1 m2 : PM (option LexTok)), wp m1 (step_post ls) ls -> wp m2 (step_post ls) ls ->
    wp (if b then m1 else m2) (step_post ls) ls) by (by intros []).
  destruct (isident (ls_c ls)) eqn:D.
  { destruct (is_digit (ls_c ls)) eqn:D'; apply wp_step_strict; wstep.
    - eapply wp_mono; [by apply wp_number|]. intros v ls1 I1 S1. wsteps. sizes.
    - unfold lex_ident. wstep. eapply wp_mono; [apply wp_ident_loop; [done|done|lia]|]. intros [] ls1 I1 S1.
      wsteps; sizes. }
  rewrite (proj2 (Z.eqb_neq (ls_c ls) LEX_EOF) C). repeat (apply E; [apply wp_step_strict|]).
  - wsteps. sizes.
  - wsteps. sizes.
  - wstep. wstep. wstep; [wsteps; sizes|]. wsteps.
    eapply wp_mono; [apply wp_comment; [done|sizes]|]. intros [] ls2 I2 S2. wsteps. sizes.
  - wstep. eapply wp_mono; [apply wp_skipeq; [done|done|lia]|]. intros sep ls1 I1 S1. wsteps; try sizes.
    eapply wp_mono; [apply wp_longstring; [done|sizes]|]. intros v ls2 I2 S2. wsteps. sizes.
  - by apply wp_two.
  - by apply wp_two.
  - by apply wp_two.
  - by apply wp_two.
  - by apply wp_two.
  - wstep. eapply wp_mono; [apply wp_string; [done|done|lia]|]. intros v ls1 I1 S1. wsteps. sizes.
  - wstep. eapply wp_mono; [apply wp_dot; [done|done|lia]|]. intros t ls1 I1 S1. wsteps. sizes.
  - apply wp_step_strict. wsteps. sizes.
Qed.

Lemma wp_scan_loop fuel : forall ls, lex_inv ls -> (size ls + 1 < fuel)%nat ->
  wp (scan_loop piece_reader raw stk LJ_DUALNUM LJ_HASFFI LONG8 sprintf BIONIC fuel) (fun t => step_post ls (Some t)) ls.
Proof.
  induction fuel as [|f IH]; intros ls I F; [lia|]. cbn [scan_loop]. wstep.
  eapply wp_mono; [apply wp_step; [done|lia]|]. intros [t|] ls1 I1 P1; [by apply wp_ret|].
  destruct P1 as [S1|[? _]]; [|done]. eapply wp_mono; [apply IH; [done|lia]|].
  intros t ls2 I2 [S2|S2]; [left; lia|by right].
Qed.

Lemma wp_scan fuel ls : lex_inv ls -> (size ls + 1 < fuel)%nat ->
  wp (lex_scan piece_reader raw stk LJ_DUALNUM LJ_HASFFI LONG8 sprintf BIONIC fuel) (fun t => step_post ls (Some t)) ls.
Proof.
  intros I F. unfold lex_scan. wsteps. destruct H0 as [C S]. eapply wp_mono; [apply wp_scan_loop; [done|lia]|].
  intros t ls2 I2 [S2|S2]; [left; lia|by right].
Qed.
End Lexer.

(** The tokens up to the end of the input, each with its value and line: what
    the parser sees when it takes token after token. *)
Section Tokens.
Context (raw : nat -> Z) (stk : list Z) (LJ_DUALNUM LJ_HASFFI LONG8 : bool).
Context (sprintf : list Z -> Z -> list Z) (BIONIC : bool).

Abbreviation take_token := (lj_lex_next piece_reader raw stk LJ_DUALNUM LJ_HASFFI LONG8 sprintf BIONIC).

Fixpoint lex_tokens (n fuel : nat) (ls : PState) : res LexErr (list (Z * LexVal * Z)) :=
  match n with
  | O => Err LexFuel
  | S n =>
      '(_, ls) ← take_token fuel ls;
      let t := (ls_tok ls, ls_tokval ls, ls_linenumber ls) in
      if ls_tok ls =? TK_eof then Ok [t] else ts ← lex_tokens n fuel ls; Ok (t :: ts)
  end.

(** The scanner's array is one of bytes. *)
Context (Hstk : xi_ok stk).

(** The input that is left, counting the token looked at ahead. *)
Definition left (ls : PState) : nat := size ls + if ls_lookahead ls =? TK_eof then 0 else 1.

Lemma next_ends fuel ls : lex_inv (ls_lookahead ls) ls -> (size ls + 1 < fuel)%nat ->
  match take_token fuel ls with
  | Ok (_, ls') => lex_inv TK_eof ls' /\ (ls_tok ls' = TK_eof \/ (left ls' < left ls)%nat)
  | Err e => out_of_fuel e = false
  end.
Proof.
  intros I F. unfold lj_lex_next. cbv zeta. cbn [ls_lookahead].
  destruct (Z.eqb_spec (ls_lookahead ls) TK_eof) as [E|E].
  - set (ls0 := mkLS _ _ _ _ _ _ _ _ _ _). assert (I0 : lex_inv TK_eof ls0) by (destruct I; split; by try congruence).
    pose proof (wp_scan TK_eof raw stk LJ_DUALNUM LJ_HASFFI LONG8 sprintf BIONIC Hstk fuel ls0 I0 F) as W. unfold wp in W.
    destruct (lex_scan _ _ _ _ _ _ _ _ _ ls0) as [[[tok v] ls1]|e]; cbn [mbind res_bind]; [|done].
    destruct W as [I1 P1]. split; [destruct I1; by split|]. cbn. destruct P1 as [S1|[[= ->] C]]; [right|by left].
    unfold left. cbn [ls_lookahead]. rewrite E, (li_la _ _ I1). change (size ls1 + 0 < size ls + 0)%nat.
    change (size ls0) with (size ls) in S1. lia.
  - split; [destruct I; by split|]. right. unfold left. cbn [ls_lookahead]. rewrite (proj2 (Z.eqb_neq _ _) E).
    change (size ls + 0 < size ls + 1)%nat. lia.
Qed.

(** A result, or an error of the source text. *)
Definition finished {A} (r : res LexErr A) : Prop := match r with Ok _ => True | Err e => out_of_fuel e = false end.

Lemma tokens_end n : forall fuel ls, lex_inv (ls_lookahead ls) ls -> (left ls < n)%nat -> (size ls + 1 < fuel)%nat ->
  finished (lex_tokens n fuel ls).
Proof.
  induction n as [|n IH]; intros fuel ls I L F; [lia|]. cbn [lex_tokens]. pose proof (next_ends fuel ls I F) as N.
  destruct (take_token fuel ls) as [[[] ls1]|e]; cbn [mbind res_bind]; [|done]. destruct N as [I1 N].
  destruct (Z.eqb_spec (ls_tok ls1) TK_eof) as [|E]; [done|]. destruct N as [N|N]; [done|].
  assert (A : finished (lex_tokens n fuel ls1)).
  { pose proof (li_la _ _ I1) as A1. apply IH; [by rewrite A1|lia|]. revert N. unfold left. rewrite A1.
    change (TK_eof =? TK_eof) with true. destruct (ls_lookahead ls =? TK_eof); lia. }
  destruct (lex_tokens n fuel ls1); done.
Qed.
End Tokens.
