(* ===== verification/LexPieces.v ===== *)
(** * The tokens do not depend on how the reader splits the input

    Two lexer states are equivalent when they agree but for the way the
    unread characters are split between the input buffer and the pieces the
    reader still has.  Every function of the scanner respects the
    equivalence. *)

From S2P Require Import Prelude Machine Num Chars Buf Strfmt StrfmtBuf Strscan Lex LexInv.

(** The state without its input. *)
Definition strip (ls : PState) : PState := set_input [] [] ls.

Record eqv (l1 l2 : PState) : Prop := {
  ev_pieces1 : pieces_ok (ls_rdata l1);
  ev_pieces2 : pieces_ok (ls_rdata l2);
  ev_unread : unread l1 = unread l2;
  ev_strip : strip l1 = strip l2
}.

Definition rel_res {A} (r1 r2 : res LexErr (A * PState)) : Prop :=
  match r1, r2 with
  | Ok (a1, l1), Ok (a2, l2) => a1 = a2 /\ eqv l1 l2
  | Err e1, Err e2 => e1 = e2
  | _, _ => False
  end.

Definition Respects {A} (m : PM A) : Prop := forall l1 l2, eqv l1 l2 -> rel_res (m l1) (m l2).

#[export] Instance eqv_sym : Symmetric eqv.
Proof. intros l1 l2 [A B C D]. by split. Qed.

Lemma resp_ret {A} (a : A) : Respects (mret a).
Proof. intros l1 l2 H. by split. Qed.

Lemma resp_throw {A} e : Respects (throw (A := A) e).
Proof. done. Qed.

Lemma resp_bind {A B} (m : PM A) (f : A -> PM B) : Respects m -> (forall a, Respects (f a)) -> Respects (m ≫= f).
Proof.
  intros Hm Hf l1 l2 H. specialize (Hm l1 l2 H). unfold mbind, lm_bind, mbind, res_bind, rel_res in *.
  destruct (m l1) as [[a1 k1]|], (m l2) as [[a2 k2]|]; try done. destruct Hm as [<- Hk]. by apply Hf.
Qed.

Lemma resp_if {A} (b : bool) (m1 m2 : PM A) : Respects m1 -> Respects m2 -> Respects (if b then m1 else m2).
Proof. by destruct b. Qed.

(** Functions that do not read look at the stripped state only. *)
Definition Oblivious {A} (m : PM A) : Prop := forall ls p r,
  m (set_input p r ls) = match m ls with Ok (a, l) => Ok (a, set_input p r l) | Err e => Err e end.

Lemma unstrip ls : ls = set_input (ls_p ls) (ls_rdata ls) (strip ls).
Proof. by destruct ls. Qed.

Lemma resp_oblivious {A} (m : PM A) : Oblivious m -> Respects m.
Proof.
  intros O l1 l2 [P1 P2 U E]. rewrite (unstrip l1), (unstrip l2), !O, <- E.
  destruct (m (strip l1)) as [[a l]|e]; [|done]. cbn. split; [done|]. by split.
Qed.

Create HintDb lexr.
#[export] Hint Resolve resp_ret resp_throw : lexr.

Ltac resp :=
  repeat first
    [ solve [auto with lexr]
    | apply resp_bind; [|intros ?]
    | apply resp_if
    | match goal with |- Respects (match ?x with _ => _ end) => destruct x end ].

Section Respects.
Context (raw : nat -> Z) (stk : list Z) (LJ_DUALNUM LJ_HASFFI LONG8 : bool).
Context (sprintf : list Z -> Z -> list Z) (BIONIC : bool).

Lemma resp_cur : Respects cur.
Proof using. apply resp_oblivious. by intros []. Qed.
Lemma resp_buffer : Respects buffer.
Proof using. apply resp_oblivious. by intros []. Qed.
Lemma resp_reset : Respects buf_reset.
Proof using. apply resp_oblivious. by intros []. Qed.
Lemma resp_save c : Respects (lex_save raw c).
Proof using. apply resp_oblivious. intros [] p r. unfold lex_save. cbn. by destruct (lj_buf_putb _ _ _). Qed.

Lemma obl_error {A} tok em : Oblivious (lj_lex_error (A := A) raw sprintf BIONIC tok em).
Proof using.
  intros [] p r. unfold lj_lex_error. destruct (tok =? 0); [done|]. destruct (_ || _).
  - unfold lex_save. cbn. by destruct (lj_buf_putb _ _ _).
  - by destruct (lj_lex_token2str _ _ _ _).
Qed.
Lemma resp_error {A} tok em : Respects (lj_lex_error (A := A) raw sprintf BIONIC tok em).
Proof using. apply resp_oblivious, obl_error. Qed.

Lemma resp_count : Respects (count_line raw sprintf BIONIC).
Proof using.
  apply resp_oblivious. intros ls p r. unfold count_line. cbv zeta.
  change (set_line (ls_linenumber (set_input p r ls) + 1) (set_input p r ls))
    with (set_input p r (set_line (ls_linenumber ls + 1) ls)).
  cbn [ls_linenumber set_input set_line ls_tok]. destruct (LJ_MAX_LINE <=? ls_linenumber ls + 1); [|done].
  apply (obl_error (A := unit)).
Qed.

Lemma strip_set_c c p r ls : strip (set_input p r (set_c c ls)) = set_c c (strip ls).
Proof using. by destruct ls. Qed.

(** Reading a character: the next one of the unread characters. *)
Lemma next_unread ls : pieces_ok (ls_rdata ls) -> exists p r, pieces_ok r /\
  let c := default LEX_EOF (head (unread ls)) in
  lex_next piece_reader ls = Ok (c, set_input p r (set_c c ls)) /\ p ++ concat r = tail (unread ls).
Proof using.
  intros P. unfold unread. destruct ls as [[|c' p] rd c tok tv la lav sb ln ll]; cbn in *.
  - destruct rd as [|[|c' x] rd].
    + by exists [], [].
    + by apply Forall_cons_1 in P as [? _].
    + apply Forall_cons_1 in P as [_ P]. by exists x, rd.
  - by exists p, rd.
Qed.

Lemma resp_next : Respects (lex_next piece_reader).
Proof using.
  intros l1 l2 [P1 P2 U E].
  destruct (next_unread l1 P1) as (p1 & r1 & Q1 & N1 & U1), (next_unread l2 P2) as (p2 & r2 & Q2 & N2 & U2).
  cbv zeta in *. rewrite N1, N2, U. cbn. split; [done|].
  split; [done|done|unfold unread; cbn; congruence|]. rewrite !strip_set_c. by rewrite E.
Qed.
Hint Resolve resp_cur resp_buffer resp_reset resp_save resp_error resp_count resp_next : lexr.

Lemma resp_savenext : Respects (lex_savenext piece_reader raw).
Proof using. unfold lex_savenext. resp. Qed.
Hint Resolve resp_savenext : lexr.
Lemma resp_newline : Respects (lex_newline piece_reader raw sprintf BIONIC).
Proof using. unfold lex_newline. resp. Qed.
Hint Resolve resp_newline : lexr.

Lemma resp_number_loop fuel : forall c xp, Respects (number_loop piece_reader raw fuel c xp).
Proof using. induction fuel as [|f IH]; intros c xp; cbn [number_loop]; resp. Qed.
Hint Resolve resp_number_loop : lexr.
Lemma resp_number fuel : Respects (lex_number piece_reader raw stk LJ_DUALNUM LJ_HASFFI LONG8 sprintf BIONIC fuel).
Proof using. unfold lex_number, number_token. resp. Qed.
Hint Resolve resp_number : lexr.

Lemma resp_skipeq_loop fuel : forall n, Respects (skipeq_loop piece_reader raw fuel n).
Proof using. induction fuel as [|f IH]; intros n; cbn [skipeq_loop]; resp. Qed.
Hint Resolve resp_skipeq_loop : lexr.
Lemma resp_skipeq fuel : Respects (lex_skipeq piece_reader raw fuel).
Proof using. unfold lex_skipeq. resp. Qed.
Hint Resolve resp_skipeq : lexr.
Lemma resp_longstring_loop fuel : forall tv sep, Respects (longstring_loop piece_reader raw sprintf BIONIC fuel tv sep).
Proof using. induction fuel as [|f IH]; intros tv sep; cbn [longstring_loop]; resp. Qed.
Hint Resolve resp_longstring_loop : lexr.
Lemma resp_longstring fuel tv sep : Respects (lex_longstring piece_reader raw sprintf BIONIC fuel tv sep).
Proof using. unfold lex_longstring. resp. Qed.
Hint Resolve resp_longstring : lexr.

Lemma resp_xdigit c sh : Respects (add_xdigit (R := list (list Z)) raw sprintf BIONIC c sh).
Proof using. unfold add_xdigit. resp. Qed.
Hint Resolve resp_xdigit : lexr.
Lemma resp_unicode_loop fuel : forall c, Respects (unicode_loop piece_reader raw sprintf BIONIC fuel c).
Proof using. induction fuel as [|f IH]; intros c; cbn [unicode_loop]; resp. Qed.
Hint Resolve resp_unicode_loop : lexr.
Lemma resp_utf8 c : Respects (save_utf8 (R := list (list Z)) raw sprintf BIONIC c).
Proof using. unfold save_utf8. resp. Qed.
Hint Resolve resp_utf8 : lexr.
Lemma resp_skip_ws fuel : Respects (skip_ws piece_reader raw sprintf BIONIC fuel).
Proof using. induction fuel as [|f IH]; cbn [skip_ws]; resp. Qed.
Hint Resolve resp_skip_ws : lexr.
Lemma resp_escape fuel : Respects (lex_escape piece_reader raw sprintf BIONIC fuel).
Proof using. unfold lex_escape, esc_hex, esc_unicode, esc_decimal. cbv zeta. resp. Qed.
Hint Resolve resp_escape : lexr.
Lemma resp_string_loop fuel : forall delim, Respects (string_loop piece_reader raw sprintf BIONIC fuel delim).
Proof using. induction fuel as [|f IH]; intros delim; cbn [string_loop]; resp. Qed.
Hint Resolve resp_string_loop : lexr.
Lemma resp_string fuel : Respects (lex_string piece_reader raw sprintf BIONIC fuel).
Proof using. unfold lex_string. resp. Qed.
Hint Resolve resp_string : lexr.

Lemma resp_ident_loop fuel : Respects (ident_loop piece_reader raw fuel).
Proof using. induction fuel as [|f IH]; cbn [ident_loop]; resp. Qed.
Lemma resp_comment_loop fuel : Respects (comment_loop piece_reader fuel).
Proof using. induction fuel as [|f IH]; cbn [comment_loop]; resp. Qed.
Hint Resolve resp_ident_loop resp_comment_loop : lexr.

Lemma resp_step fuel : Respects (lex_step piece_reader raw stk LJ_DUALNUM LJ_HASFFI LONG8 sprintf BIONIC fuel).
Proof using. unfold lex_step, lex_ident, lex_comment, lex_two, lex_dot. cbv zeta. resp. Qed.
Hint Resolve resp_step : lexr.
Lemma resp_scan_loop fuel : Respects (scan_loop piece_reader raw stk LJ_DUALNUM LJ_HASFFI LONG8 sprintf BIONIC fuel).
Proof using. induction fuel as [|f IH]; cbn [scan_loop]; resp. Qed.
Hint Resolve resp_scan_loop : lexr.
Lemma resp_scan fuel : Respects (lex_scan piece_reader raw stk LJ_DUALNUM LJ_HASFFI LONG8 sprintf BIONIC fuel).
Proof using. unfold lex_scan. resp. Qed.

(** The state updates of [lj_lex_next] leave the input alone. *)
Lemma eqv_map (F : PState -> PState) l1 l2 :
  (forall ls, ls_p (F ls) = ls_p ls /\ ls_rdata (F ls) = ls_rdata ls /\ strip (F ls) = F (strip ls)) ->
  eqv l1 l2 -> eqv (F l1) (F l2).
Proof using.
  intros HF [P1 P2 U E]. destruct (HF l1) as (A1 & B1 & C1), (HF l2) as (A2 & B2 & C2).
  split; [by rewrite B1|by rewrite B2| |by rewrite C1, C2, E].
  unfold unread in *. by rewrite A1, B1, A2, B2.
Qed.

Lemma resp_take fuel : Respects (lj_lex_next piece_reader raw stk LJ_DUALNUM LJ_HASFFI LONG8 sprintf BIONIC fuel).
Proof using.
  intros l1 l2 H. unfold lj_lex_next. cbv zeta.
  pose proof (eqv_map (fun ls => mkLS (ls_p ls) (ls_rdata ls) (ls_c ls) (ls_tok ls) (ls_tokval ls) (ls_lookahead ls)
    (ls_lookaheadval ls) (ls_sb ls) (ls_linenumber ls) (ls_linenumber ls)) l1 l2 ltac:(by intros []) H) as K. cbv beta in K.
  set (k1 := mkLS (ls_p l1) _ _ _ _ _ _ _ _ _) in *. set (k2 := mkLS (ls_p l2) _ _ _ _ _ _ _ _ _) in *. clearbody k1 k2.
  assert (L : ls_lookahead k1 = ls_lookahead k2) by exact (f_equal ls_lookahead (ev_strip _ _ K)).
  rewrite L. destruct (ls_lookahead k2 =? TK_eof).
  - pose proof (resp_scan fuel k1 k2 K) as S. unfold rel_res in S.
    destruct (lex_scan _ _ _ _ _ _ _ _ _ k1) as [[[t1 v1] s1]|], (lex_scan _ _ _ _ _ _ _ _ _ k2) as [[[t2 v2] s2]|]; try done.
    destruct S as [[= <- <-] S]. cbn [mbind res_bind rel_res]. split; [done|].
    apply (eqv_map (fun ls => mkLS (ls_p ls) (ls_rdata ls) (ls_c ls) t1 (default (ls_tokval ls) v1) (ls_lookahead ls)
      (ls_lookaheadval ls) (ls_sb ls) (ls_linenumber ls) (ls_lastline ls))); [by intros []|done].
  - cbn [rel_res]. split; [done|]. rewrite <- L at 1.
    apply (eqv_map (fun ls => mkLS (ls_p ls) (ls_rdata ls) (ls_c ls) (ls_lookahead ls) (ls_lookaheadval ls) TK_eof
      (ls_lookaheadval ls) (ls_sb ls) (ls_linenumber ls) (ls_lastline ls))); [by intros []|done].
Qed.

Lemma tokens_eqv n : forall fuel l1 l2, eqv l1 l2 ->
  lex_tokens raw stk LJ_DUALNUM LJ_HASFFI LONG8 sprintf BIONIC n fuel l1 =
  lex_tokens raw stk LJ_DUALNUM LJ_HASFFI LONG8 sprintf BIONIC n fuel l2.
Proof using.
  induction n as [|n IH]; intros fuel l1 l2 H; [done|]. cbn [lex_tokens]. pose proof (resp_take fuel l1 l2 H) as S.
  unfold rel_res in S. destruct (lj_lex_next _ _ _ _ _ _ _ _ _ l1) as [[[] k1]|], (lj_lex_next _ _ _ _ _ _ _ _ _ l2) as [[[] k2]|];
    cbn [mbind res_bind]; try done; [|by subst]. destruct S as [_ K]. pose proof (ev_strip _ _ K) as E.
  assert (E1 : ls_tok k1 = ls_tok k2) by (apply (f_equal ls_tok) in E; exact E).
  assert (E2 : ls_tokval k1 = ls_tokval k2) by (apply (f_equal ls_tokval) in E; exact E).
  assert (E3 : ls_linenumber k1 = ls_linenumber k2) by (apply (f_equal ls_linenumber) in E; exact E).
  rewrite E1, E2, E3. destruct (_ =? _); [done|]. by rewrite (IH fuel k1 k2 K).
Qed.
End Respects.
