(* ===== verification/LexString.v ===== *)
(** * A quoted string reads back

    [lj_strfmt_putquoted] writes a string as a Lua string literal; the lexer
    reads the literal as the string, whatever characters it has and whatever
    follows it. *)

From S2P Require Import Prelude Machine Num Chars Buf Strfmt StrfmtNum StrfmtBuf Strscan StrscanInt Lex LexInv LexPieces.

Section Read.
Context (raw : nat -> Z) (stk : list Z) (LJ_DUALNUM LJ_HASFFI LONG8 : bool).
Context (sprintf : list Z -> Z -> list Z) (BIONIC : bool).

(** What a state shows: the current character, the unread ones, the
    characters in the buffer and the line. *)
Record at_char (ls : PState) (c : Z) (u o : list Z) (n : Z) : Prop := {
  ac_pieces : pieces_ok (ls_rdata ls);
  ac_c : ls_c ls = c;
  ac_unread : unread ls = u;
  ac_buf : buf_ok (ls_sb ls);
  ac_str : sb_str (ls_sb ls) = o;
  ac_line : ls_linenumber ls = n
}.

(** [m] runs to a state that shows the given things. *)
Definition runs {A} (m : PM A) (ls : PState) (a : A) (c : Z) (u o : list Z) (n : Z) : Prop :=
  exists ls', m ls = Ok (a, ls') /\ at_char ls' c u o n.

Lemma runs_bind {A B} (m : PM A) (f : A -> PM B) ls a b c u o n c' u' o' n' :
  runs m ls a c u o n -> (forall ls', at_char ls' c u o n -> runs (f a) ls' b c' u' o' n') ->
  runs (m ≫= f) ls b c' u' o' n'.
Proof. intros (ls' & E & H) K. unfold runs, mbind, lm_bind, mbind, res_bind. rewrite E. by apply K. Qed.

Lemma runs_ret {A} (a : A) ls c u o n : at_char ls c u o n -> runs (mret a) ls a c u o n.
Proof. intros H. by exists ls. Qed.
Lemma runs_cur ls c u o n : at_char ls c u o n -> runs cur ls c c u o n.
Proof. intros H. exists ls. unfold cur. by rewrite (ac_c _ _ _ _ _ H). Qed.

Lemma runs_next_end ls c u o n : at_char ls c u o n ->
  runs (lex_next piece_reader) ls (default LEX_EOF (head u)) (default LEX_EOF (head u)) (tail u) o n.
Proof.
  intros [P C U B O N]. destruct (next_unread ls P) as (p & r & Q & E & T). cbv zeta in E. rewrite U in *.
  eexists. split; [exact E|]. by split.
Qed.
Lemma runs_next ls c d u o n : at_char ls c (d :: u) o n -> runs (lex_next piece_reader) ls d d u o n.
Proof. intros H. by apply runs_next_end in H. Qed.

Lemma runs_save x ls c u o n : at_char ls c u o n -> is_u8 x -> len o < LJ_MAX_BUF ->
  runs (lex_save raw x) ls tt c u (o ++ [x]) n.
Proof.
  intros [P C U B O N] Hx Hl. unfold runs, lex_save, lj_buf_putb, sb_put. rewrite u8_id by done.
  assert (Hp : sb_p (ls_sb ls) = len o) by (rewrite <- O; symmetry; by apply sb_str_len).
  destruct (lj_buf_more_ok raw (ls_sb ls) 1 B ltac:(lia)) as [[_ H]|(sb & -> & B1 & P1 & S1 & L1)]; [lia|].
  cbn [mbind res_bind]. destruct (sb_write_ok sb [x] B1) as (sb2 & -> & B2 & S2 & _); [unfold len; cbn; lia|].
  eexists. split; [reflexivity|]. split; try done. cbn. by rewrite S2, S1, O.
Qed.

Lemma runs_savenext ls c d u o n : at_char ls c (d :: u) o n -> is_u8 c -> len o < LJ_MAX_BUF ->
  runs (lex_savenext piece_reader raw) ls d d u (o ++ [c]) n.
Proof.
  intros H Hc Hl. unfold lex_savenext. eapply runs_bind; [by apply runs_cur|]. intros l1 H1.
  eapply runs_bind; [by apply runs_save|]. intros l2 H2. by eapply runs_next.
Qed.

Lemma runs_count ls c u o n : at_char ls c u o n -> n + 1 < LJ_MAX_LINE ->
  runs (count_line raw sprintf BIONIC) ls tt c u o (n + 1).
Proof.
  intros [P C U B O N] H. exists (set_line (n + 1) ls). unfold count_line. rewrite N. cbv zeta. cbn [ls_linenumber set_line].
  rewrite (proj2 (Z.leb_gt LJ_MAX_LINE (n + 1))) by done. split; [done|]. by split.
Qed.

Lemma runs_newline ls c d u o n : at_char ls c (d :: u) o n -> iseol d = false -> n + 1 < LJ_MAX_LINE ->
  runs (lex_newline piece_reader raw sprintf BIONIC) ls tt d u o (n + 1).
Proof.
  intros H Hd Hn. unfold lex_newline. eapply runs_bind; [by apply runs_cur|]. intros l1 H1.
  eapply runs_bind; [by eapply runs_next|]. intros l2 H2. rewrite Hd. cbn [andb].
  eapply runs_bind; [by apply runs_ret|]. intros l3 H3. by apply runs_count.
Qed.

(** ** Decimal escapes *)

Definition dec_val (ds : list Z) : Z := fold_left (fun x c => x * 10 + (c - 48)) ds 0.

Lemma digit_is c : digit_char c -> is_digit c = true.
Proof. apply digit_isa. Qed.

Lemma runs_decimal ds : forall ls c d u o n, Forall digit_char (c :: ds) -> (length ds <= 2)%nat ->
  (length ds = 2%nat \/ is_digit d = false) -> dec_val (c :: ds) <= 255 -> len o < LJ_MAX_BUF ->
  at_char ls c (ds ++ d :: u) o n ->
  runs (esc_decimal piece_reader raw sprintf BIONIC c) ls tt d u (o ++ [dec_val (c :: ds)]) n.
Proof.
  intros ls c d u o n F L3 Hd V Hl H. apply Forall_cons_1 in F as [Fc F]. unfold esc_decimal, dec_val in *.
  rewrite digit_is by done. cbn [negb]. unfold digit_char in Fc.
  destruct ds as [|c1 [|c2 [|? ?]]]; cbn [app] in H; [| | |cbn in L3; lia]; cbn [fold_left] in *.
  - destruct Hd as [?|Hd]; [done|]. eapply runs_bind; [by eapply runs_next|]. intros l1 H1. rewrite Hd.
    eapply runs_bind; [by apply runs_ret|]. intros l2 H2. apply runs_save; [done|widths; lia|done].
  - apply Forall_cons_1 in F as [F1 _]. destruct Hd as [?|Hd]; [done|].
    eapply runs_bind; [by eapply runs_next|]. intros l1 H1. rewrite digit_is by done. unfold digit_char in F1.
    eapply runs_bind; [eapply runs_bind; [by eapply runs_next|]; intros l2 H2; rewrite Hd; by apply runs_ret|].
    intros l2 H2. apply runs_save; [done|widths; lia|done].
  - apply Forall_cons_1 in F as [F1 F]. apply Forall_cons_1 in F as [F2 _].
    eapply runs_bind; [by eapply runs_next|]. intros l1 H1. rewrite digit_is by done.
    eapply runs_bind.
    { eapply runs_bind; [by eapply runs_next|]. intros l2 H2. rewrite digit_is by done.
      rewrite (proj2 (Z.ltb_ge 255 _)) by lia.
      eapply runs_bind; [by eapply runs_next|]. intros l3 H3. by apply runs_ret. }
    intros l2 H2. unfold digit_char in *. apply runs_save; [done|widths; lia|done].
Qed.

(** ** The quoted characters *)

(** The escape of a control character depends on whether a digit follows. *)
Lemma quote_char_digit c nc : quote_char c nc = quote_char c (if is_digit nc then 48 else 0).
Proof. unfold quote_char, is_digit. destruct (nz (lj_char_isdigit nc)); reflexivity. Qed.

Definition control (c : Z) : bool := negb ((c =? 34) || (c =? 92) || (c =? 10)) && nz (lj_char_iscntrl c).

(** The escape of [c]: a backslash and up to three digits with the value of
    [c]; three when a digit follows. *)
Definition escape_ok (c : Z) (digit : bool) : bool :=
  match quote_char c (if digit then 48 else 0) with
  | b :: c1 :: ds =>
      (b =? 92) && forallb (fun d => (48 <=? d) && (d <=? 57)) (c1 :: ds) && (length ds <=? 2)%nat &&
      ((length ds =? 2)%nat || negb digit) && (dec_val (c1 :: ds) =? c)
  | _ => false
  end.

Lemma escape_control c nc : 0 <= c < 256 -> control c = true -> exists c1 ds,
  quote_char c nc = 92 :: c1 :: ds /\ Forall digit_char (c1 :: ds) /\ (length ds <= 2)%nat /\
  (length ds = 2%nat \/ is_digit nc = false) /\ dec_val (c1 :: ds) = c.
Proof.
  intros Hc Hk.
  assert (E : escape_ok c (is_digit nc) = true).
  { pose proof (forall_below 256 (fun c => implb (control c) (escape_ok c true && escape_ok c false)) ltac:(by vm_compute) c Hc) as G.
    cbv beta in G. rewrite Hk in G. cbn [implb] in G. apply andb_true_iff in G as [G1 G2]. by destruct (is_digit nc). }
  unfold escape_ok in E. rewrite quote_char_digit. destruct (quote_char _ _) as [|b [|c1 ds]]; try done.
  rewrite !andb_true_iff, Z.eqb_eq, Nat.leb_le, orb_true_iff, Nat.eqb_eq, Z.eqb_eq, negb_true_iff in E.
  destruct E as [[[[-> F] L] D] V]. exists c1, ds. split; [done|]. split; [|done].
  apply List.Forall_forall. intros d Hd. rewrite forallb_forall in F. specialize (F d Hd).
  unfold digit_char. lia.
Qed.

(** What follows a quoted character is no line break, and a digit only if the
    string has one there. *)
Lemma quoted_next s rest : bytes s -> exists d u, quoted_body s ++ 34 :: rest = d :: u /\ iseol d = false /\
  (is_digit (byte_at s 0) = false -> is_digit d = false).
Proof.
  intros Hs. destruct s as [|c s]; [by exists 34, rest|]. cbn [quoted_body].
  apply Forall_cons_1 in Hs as [Hc _]. change (byte_at (c :: s) 0) with c.
  destruct ((c =? 34) || (c =? 92) || (c =? 10)) eqn:E.
  { unfold quote_char at 1. rewrite E. by exists 92, (c :: quoted_body s ++ 34 :: rest). }
  destruct (nz (lj_char_iscntrl c)) eqn:K.
  - destruct (escape_control c (byte_at s 0)) as (c1 & ds & -> & _); [widths; lia|unfold control; by rewrite E, K|].
    by eexists 92, _.
  - unfold quote_char. rewrite E, K. eexists c, _. split; [reflexivity|]. split; [|done].
    unfold iseol. destruct (Z.eqb_spec c 10) as [->|]; [done|]. by destruct (Z.eqb_spec c 13) as [->|].
Qed.

(** The lines a string spans. *)
Definition newlines (s : list Z) : Z := Z.of_nat (length (filter (fun c => c = 10) s)).

Lemma newlines_cons c s : newlines (c :: s) = (if c =? 10 then 1 else 0) + newlines s.
Proof.
  unfold newlines. rewrite filter_cons. destruct (Z.eqb_spec c 10), (decide (c = 10)); try done; cbn [length]; lia.
Qed.

(** One quoted character in the loop of the lexer. *)
Lemma runs_quoted f c s rest ls d u d' u' o n : is_u8 c -> bytes s ->
  quote_char c (byte_at s 0) ++ quoted_body s ++ 34 :: rest = d :: u -> quoted_body s ++ 34 :: rest = d' :: u' ->
  len o < LJ_MAX_BUF -> n + newlines [c] < LJ_MAX_LINE -> at_char ls d u o n ->
  d <> 34 /\ d <> LEX_EOF /\ iseol d = false /\
  runs (if d =? 92 then lex_escape piece_reader raw sprintf BIONIC f else _ ← lex_savenext piece_reader raw; mret tt)
    ls tt d' u' (o ++ [c]) (n + newlines [c]).
Proof.
  intros Hc Hs Q E Hl Hn H. destruct (quoted_next s rest Hs) as (d0 & u0 & E0 & El & Ed).
  rewrite E in Q, E0. injection E0 as <- <-. rewrite newlines_cons in *. change (newlines []) with 0 in *. rewrite Z.add_0_r in *.
  destruct ((c =? 34) || (c =? 92) || (c =? 10)) eqn:Ec.
  { unfold quote_char in Q. rewrite Ec in Q. injection Q as <- <-. do 3 (split; [done|]). cbn [Z.eqb Pos.eqb].
    unfold lex_escape. eapply runs_bind; [by eapply runs_next|]. intros l1 H1.
    destruct (Z.eqb_spec c 10) as [->|N10].
    - cbn -[lex_newline lex_save]. eapply runs_bind; [by apply runs_save|]. intros l2 H2. eapply runs_newline; [exact H2|done|lia].
    - assert (simple_escape c = Some c) as ->.
      { rewrite orb_false_r in Ec. apply orb_true_iff in Ec as [->%Z.eqb_eq| ->%Z.eqb_eq]; done. }
      rewrite Z.add_0_r. eapply runs_bind; [by apply runs_save|]. intros l2 H2.
      eapply runs_bind; [by eapply runs_next|]. intros l3 H3. by apply runs_ret. }
  assert (N10 : (c =? 10) = false) by (apply orb_false_iff in Ec; tauto). rewrite N10, Z.add_0_r.
  destruct (nz (lj_char_iscntrl c)) eqn:K.
  - destruct (escape_control c (byte_at s 0)) as (c1 & ds & Eq & F & L & D & V); [widths; lia|unfold control; by rewrite Ec, K|].
    rewrite Eq in Q. injection Q as <- <-. do 3 (split; [done|]). cbn [Z.eqb Pos.eqb].
    unfold lex_escape. eapply runs_bind; [by eapply runs_next|]. intros l1 H1.
    assert (Hc1 : digit_char c1) by (by apply Forall_cons_1 in F as [? _]).
    assert (simple_escape c1 = None /\ (c1 =? 120) = false /\ (c1 =? 117) = false /\ (c1 =? 122) = false /\
      iseol c1 = false /\ (c1 =? LEX_EOF) = false) as (-> & -> & -> & -> & -> & ->).
    { unfold digit_char in Hc1. unfold simple_escape, iseol, LEX_EOF.
      repeat match goal with |- context [c1 =? ?k] => rewrite (proj2 (Z.eqb_neq c1 k)) by lia end. done. }
    rewrite <- V. apply (runs_decimal ds); [done|done| |rewrite V; widths; lia|done|done].
    destruct D as [D|D]; [by left|right; auto].
  - unfold quote_char in Q. rewrite Ec, K in Q. injection Q as <- <-.
    apply orb_false_iff in Ec as [Ec _]. apply orb_false_iff in Ec as [E1 E2]. rewrite E2.
    split; [by apply Z.eqb_neq|]. split; [widths; unfold LEX_EOF; lia|]. split.
    { unfold iseol. rewrite N10. by destruct (Z.eqb_spec c 13) as [->|]. }
    eapply runs_bind; [eapply runs_savenext; [exact H|done|done]|]. intros l1 H1. by apply runs_ret.
Qed.

Lemma newlines_nonneg s : 0 <= newlines s.
Proof. unfold newlines. lia. Qed.

Lemma runs_string_loop s : forall fuel rest ls d u o n, bytes s -> quoted_body s ++ 34 :: rest = d :: u ->
  (length s < fuel)%nat -> len o + len s <= LJ_MAX_BUF -> n + newlines s < LJ_MAX_LINE -> at_char ls d u o n ->
  runs (string_loop piece_reader raw sprintf BIONIC fuel 34) ls tt 34 rest (o ++ s) (n + newlines s).
Proof.
  induction s as [|c s IH]; intros fuel rest ls d u o n Hs Q F Hl Hn H; (destruct fuel as [|f]; [cbn in F; lia|]); cbn [string_loop].
  - cbn in Q. injection Q as <- <-. rewrite app_nil_r. change (newlines []) with 0. rewrite Z.add_0_r.
    eapply runs_bind; [by apply runs_cur|]. intros l1 H1. by apply runs_ret.
  - apply Forall_cons_1 in Hs as [Hc Hs]. cbn [quoted_body] in Q. rewrite <- app_assoc in Q.
    assert (N : newlines (c :: s) = newlines [c] + newlines s).
    { rewrite !newlines_cons. change (newlines []) with 0. lia. }
    rewrite N in *. pose proof (newlines_nonneg s) as Pn. rewrite len_cons in Hl. pose proof (len_nonneg s) as Pl.
    destruct (quoted_next s rest Hs) as (d' & u' & E & _).
    eapply runs_bind; [by apply runs_cur|]. intros l1 H1.
    destruct (runs_quoted f c s rest l1 d u d' u' o n Hc Hs Q E ltac:(lia) ltac:(lia) H1) as (D1 & D2 & D3 & R).
    rewrite (proj2 (Z.eqb_neq d 34) D1), (proj2 (Z.eqb_neq d LEX_EOF) D2), D3. cbn [negb].
    eapply runs_bind; [exact R|]. intros l2 H2.
    replace (o ++ c :: s) with ((o ++ [c]) ++ s) by (by rewrite <- app_assoc). rewrite Z.add_assoc.
    apply (IH f rest l2 d' u'); [done|done|cbn in F; lia|rewrite len_app, len_cons, len_nil; lia|lia|done].
Qed.

(** A string token: the value, and what follows it. *)
Lemma runs_string s fuel rest ls u o n : bytes s -> quoted_body s ++ 34 :: rest = u -> o = [] ->
  (length s < fuel)%nat -> 2 + len s <= LJ_MAX_BUF -> n + newlines s < LJ_MAX_LINE -> at_char ls 34 u o n ->
  runs (lex_string piece_reader raw sprintf BIONIC fuel) ls (TvStr s) (default LEX_EOF (head rest)) (tail rest)
    (34 :: s ++ [34]) (n + newlines s).
Proof.
  intros Hs Q -> F Hl Hn H. destruct (quoted_next s rest Hs) as (d & u' & E & _). rewrite E in Q. subst u.
  pose proof (len_nonneg s) as Pl. unfold LJ_MAX_BUF in *. unfold lex_string.
  eapply runs_bind; [by apply runs_cur|]. intros l1 H1.
  eapply runs_bind; [eapply runs_savenext; [exact H1|done|done]|]. intros l2 H2. cbn [app] in H2.
  eapply runs_bind; [eapply (runs_string_loop s); [done|exact E|done|rewrite len_cons, len_nil; unfold LJ_MAX_BUF; lia|done|exact H2]|].
  intros l3 H3. eapply runs_bind.
  { unfold lex_savenext. eapply runs_bind; [by apply runs_cur|]. intros l4 H4.
    eapply runs_bind; [apply (runs_save 34 l4 _ _ _ _ H4); [done|rewrite len_app, len_cons, len_nil; unfold LJ_MAX_BUF; lia]|].
    intros l5 H5. eapply runs_next_end. exact H5. }
  intros l6 H6. cbn [app] in H6. exists l6. split; [|exact H6].
  unfold mbind, lm_bind, buffer, mret, lm_ret, mbind, res_bind. do 3 f_equal.
  assert (P : sbuflen (ls_sb l6) - 2 = len s).
  { unfold sbuflen. rewrite <- (sb_str_len _ (ac_buf _ _ _ _ _ H6)), (ac_str _ _ _ _ _ H6).
    rewrite len_cons, len_app, len_cons, len_nil. lia. }
  rewrite P, u32_id by (widths; lia). rewrite (ac_str _ _ _ _ _ H6). cbn [drop]. unfold len. rewrite Nat2Z.id.
  by rewrite drop_0, take_app_length.
Qed.

Lemma runs_reset ls c u o n : at_char ls c u o n -> runs buf_reset ls tt c u [] n.
Proof.
  intros [P C U B O N]. eexists. split; [reflexivity|]. destruct B as [Bp Bs]. split; try done.
  split; cbn; [unfold sbufsz in *; cbn; lia|done].
Qed.

Lemma scan_quoted s fuel rest ls o n : bytes s -> (length s + 1 < fuel)%nat -> 2 + len s <= LJ_MAX_BUF ->
  n + newlines s < LJ_MAX_LINE -> at_char ls 34 (quoted_body s ++ 34 :: rest) o n ->
  runs (lex_scan piece_reader raw stk LJ_DUALNUM LJ_HASFFI LONG8 sprintf BIONIC fuel) ls (TK_string, Some (TvStr s))
    (default LEX_EOF (head rest)) (tail rest) (34 :: s ++ [34]) (n + newlines s).
Proof.
  intros Hs F Hl Hn H. unfold lex_scan. eapply runs_bind; [by eapply runs_reset|]. intros l1 H1.
  destruct fuel as [|f]; [lia|]. cbn [scan_loop].
  apply (runs_bind _ _ _ (Some (TK_string, Some (TvStr s))) _ (default LEX_EOF (head rest)) (tail rest)
    (34 :: s ++ [34]) (n + newlines s)); [|intros l2 H2; by apply runs_ret].
  unfold lex_step. eapply runs_bind; [by apply runs_cur|]. intros l2 H2.
  change (isident 34) with false. change (iseol 34) with false. cbn [Z.eqb Pos.eqb orb].
  eapply runs_bind; [eapply (runs_string s f rest); [done|reflexivity|reflexivity|lia|done|done|exact H2]|].
  intros l3 H3. by apply runs_ret.
Qed.
End Read.
