(* ===== verification/TextProps.v ===== *)
(** * Buffers, formatting, number scanning and the lexer: the properties

    What [lj_buf.c], [lj_strfmt.c], [lj_strscan.c] and [lj_lex.c] promise, and
    how they fit together, with concrete witnesses. *)

From Stdlib Require Import Strings.String.
From S2P Require Import Prelude Machine Num Chars Buf Strfmt StrfmtNum StrfmtBuf StrfmtParse Strscan StrscanInt StrscanEnds StrscanType Lex LexInv LexPieces LexString.

(** ** Buffers *)

Section BufOps.
Context (raw : nat -> Z).

Lemma cat2str_ok tmp s1 s2 : buf_ok tmp -> len s1 + len s2 < 2 ^ 32 ->
  lj_buf_cat2str raw tmp s1 s2 = Err BUF_MEM \/
  exists tmp', lj_buf_cat2str raw tmp s1 s2 = Ok (tmp', s1 ++ s2).
Proof.
  intros B Hl. pose proof (len_nonneg s1). pose proof (len_nonneg s2). unfold lj_buf_cat2str. rewrite u32_id by (widths; lia).
  destruct (lj_buf_need_ok raw tmp (len s1 + len s2) B ltac:(lia)) as [[-> _]|(t0 & -> & B0 & L0 & _)]; [by left|]. right.
  cbn [mbind res_bind]. destruct (reset_ok t0 B0) as [B1 S1].
  destruct (sb_write_ok (lj_buf_reset t0) s1 B1) as (t1 & -> & B2 & S2 & Z2 & P2).
  { change (sbufsz (lj_buf_reset t0)) with (sbufsz t0). cbn [sb_p lj_buf_reset]. lia. }
  cbn [mbind res_bind]. change (sbufsz (lj_buf_reset t0)) with (sbufsz t0) in Z2. cbn [sb_p lj_buf_reset] in P2.
  destruct (sb_write_ok t1 s2 B2) as (t2 & -> & _ & S3 & _); [lia|]. cbn [mbind res_bind].
  eexists. by rewrite S3, S2, S1.
Qed.

(** Every store to a string buffer appends exactly the characters of the
    operation and keeps the buffer's invariant, or reports that the buffer
    would exceed its limit; no store leaves the reserved memory.  This holds
    for strings, reversed strings (the loop with two pointers), lower and
    upper case, repetition (whose 64-bit length is checked before it is
    truncated), and for the concatenation of two strings. *)
Theorem lj_buf_put_appends sb s rep : buf_ok sb -> len s <= LJ_MAX_BUF -> is_i32 rep ->
  appended 0 sb s (lj_buf_putmem raw sb s) /\
  appended 0 sb s (lj_buf_putstr raw sb s) /\
  appended 0 sb (reverse s) (lj_buf_putstr_reverse raw sb s) /\
  appended 0 sb (lower_char <$> s) (lj_buf_putstr_lower raw sb s) /\
  appended 0 sb (upper_char <$> s) (lj_buf_putstr_upper raw sb s) /\
  appended 0 sb (concat (replicate (Z.to_nat rep) s)) (lj_buf_putstr_rep raw sb s rep) /\
  (forall s2, len s2 <= LJ_MAX_BUF -> lj_buf_cat2str raw sb s s2 = Err BUF_MEM \/
    exists tmp', lj_buf_cat2str raw sb s s2 = Ok (tmp', s ++ s2)).
Proof.
  intros B Hs Hr. pose proof (len_nonneg s) as Hp. unfold LJ_MAX_BUF in Hs.
  assert (P : forall t, len t = len s -> appended 0 sb t (sb_put raw sb (len s) t)).
  { intros t Ht. apply sb_put_ok; [done|lia|lia]. }
  assert (M : forall f : Z -> Z, len (f <$> s) = len s) by (intros f; unfold len; by rewrite length_fmap).
  do 2 (split; [by apply P|]). split.
  { unfold lj_buf_putstr_reverse. rewrite copy_back_rev. apply P. unfold len. by rewrite length_reverse. }
  do 2 (split; [apply P, M|]). split.
  - rewrite <- rep_loop_concat. unfold lj_buf_putstr_rep.
    assert (L : len (rep_loop s (Z.to_nat rep)) = Z.of_nat (Z.to_nat rep) * len s).
    { unfold len. rewrite rep_loop_length. lia. }
    destruct (Z.ltb_spec 0 rep); cbn [andb].
    + destruct (Z.eqb_spec (len s) 0) as [E|E]; cbn [negb].
      * right. exists sb. rewrite E, Z.mul_0_r in L. unfold len in L.
        destruct (rep_loop s (Z.to_nat rep)) as [|]; [|cbn in L; lia].
        rewrite app_nil_r, len_nil. by rewrite Z.add_0_r.
      * rewrite u64_id by (widths; nia). unfold LJ_MAX_BUF. destruct (Z.ltb_spec 0x7fffff00 (rep * len s)) as [Big|].
        { left. split; [done|]. rewrite L, Z2Nat.id by lia. destruct B. unfold LJ_MAX_BUF. lia. }
        rewrite u32_id by (widths; nia). apply sb_put_ok; [done|nia|lia].
    + right. exists sb. replace (Z.to_nat rep) with 0%nat by lia. cbn [rep_loop].
      rewrite app_nil_r, len_nil. by rewrite Z.add_0_r.
  - intros s2 Hs2. unfold LJ_MAX_BUF in Hs2. apply cat2str_ok; [done|lia].
Qed.
End BufOps.

Lemma init_ok : buf_ok lj_buf_init.
Proof. split; cbn; [done|by left]. Qed.

Lemma lj_buf_put_appends_witness :
  appended 0 lj_buf_init [2; 1] (lj_buf_putstr_reverse (fun _ => 0) lj_buf_init [1; 2]) /\
  appended 0 lj_buf_init [1; 2; 1; 2] (lj_buf_putstr_rep (fun _ => 0) lj_buf_init [1; 2] 2).
Proof.
  destruct (lj_buf_put_appends (fun _ => 0) lj_buf_init [1; 2] 2 init_ok) as (_ & _ & H1 & _ & _ & H2 & _);
    [by vm_compute|widths; lia|]. split; [exact H1|exact H2].
Defined.

(** ** Conversions of numbers *)

(** [lj_strfmt_wint], which takes its digits by multiplication with
    rounded reciprocals and jumps into the middle of the sequence, writes the
    plain decimal notation of every 32-bit integer, in at most
    [STRFMT_MAXBUF_INT] characters. *)
Theorem lj_strfmt_wint_decimal k : is_i32 k ->
  lj_strfmt_wint k = decimal k /\ len (lj_strfmt_wint k) <= STRFMT_MAXBUF_INT.
Proof. intros Hk. split; [by apply wint_decimal|by apply wint_len]. Qed.

Lemma lj_strfmt_wint_decimal_witness : lj_strfmt_wint (-2147483648) = [45; 50; 49; 52; 55; 52; 56; 51; 54; 52; 56].
Proof. destruct (lj_strfmt_wint_decimal (-2147483648)) as [-> _]; [widths; lia|]. by vm_compute. Defined.

(** A 32-bit number written by [lj_strfmt_wuleb128] is read back by
    [lj_buf_ruleb128], whatever follows it; the reader stops behind it and
    never shifts by the width of the type. *)
Theorem uleb128_roundtrip v rest : is_u32 v ->
  lj_buf_ruleb128 (lj_strfmt_wuleb128 v ++ rest) = Some (v, rest) /\ len (lj_strfmt_wuleb128 v) <= 5.
Proof. intros Hv. split; [by apply ruleb_wuleb|apply wuleb_len]. Qed.

Lemma uleb128_roundtrip_witness : lj_buf_ruleb128 (lj_strfmt_wuleb128 0xffffffff ++ [7]) = Some (0xffffffff, [7]).
Proof. apply (uleb128_roundtrip 0xffffffff [7]). widths; lia. Defined.

(** ** Conversions to a buffer *)

(** A format of [printf] in the notation of the C standard: flags, width (0
    when there is none), precision and conversion. *)
Record fspec := mkSpec {
  sp_left : bool; sp_plus : bool; sp_zero : bool; sp_space : bool; sp_alt : bool;
  sp_width : Z; sp_prec : option Z; sp_conv : Z
}.
Definition spec_text (f : fspec) : list Z :=
  [37] ++ (if sp_left f then [45] else []) ++ (if sp_plus f then [43] else []) ++ (if sp_zero f then [48] else []) ++
  (if sp_space f then [32] else []) ++ (if sp_alt f then [35] else []) ++
  (if sp_width f =? 0 then [] else decimal (sp_width f)) ++
  (match sp_prec f with Some p => 46 :: decimal p | None => [] end) ++ [sp_conv f].

(** The formats of finite numbers with at most two digits for the width and
    the precision, under one of [aefgAEFG]. *)
Definition spec_ok (f : fspec) : Prop :=
  0 <= sp_width f <= 99 /\ (forall p, sp_prec f = Some p -> 0 <= p <= 99) /\ sp_conv f ∈ zs "aefgAEFG".
Definition finite (n : Z) : Prop := u32 (hi32 n << 1) < 0xffe00000.

(** The size of the result: the width, or what the conversion stores.  Under
    [g] a sign, the digits and a point with an exponent of five characters
    (or up to four zeros in front); under [f] a sign, at most 309 digits, a
    point and the digits of the precision; less than that under [e] and [a].
    The precision is 6 when it is left out, and 1 at least under [g]. *)
Definition spec_max (f : fspec) : Z :=
  let p := default 6 (sp_prec f) in
  Z.max (sp_width f) (if bool_decide (sp_conv f ∈ zs "gG") then Z.max p 1 + 7 else p + 311).

(** The format that a word stands for. *)
Definition word_spec (sf : Z) : fspec :=
  let c := byte_at (zs "aefg") (STRFMT_FP sf) in
  mkSpec (flag sf STRFMT_F_LEFT) (flag sf STRFMT_F_PLUS) (flag sf STRFMT_F_ZERO) (flag sf STRFMT_F_SPACE) (flag sf STRFMT_F_ALT)
    (STRFMT_WIDTH sf) (if STRFMT_PREC sf =? 2 ^ 32 - 1 then None else Some (STRFMT_PREC sf))
    (if flag sf STRFMT_F_UPPER then c - 32 else c).

Lemma decimal_two w : 0 <= w <= 99 -> decimal w = fmt_num2 w.
Proof.
  intros Hw. unfold decimal, fmt_num2. rewrite (proj2 (Z.ltb_ge w 0)), Z.abs_eq by lia. cbn [app].
  destruct (Z.eqb_spec (w / 10) 0) as [E|E]; cbn [negb app].
  - rewrite dec_nat_small, u8_id by (widths; Z.div_mod_to_equations; lia). rewrite Z.mod_small by (Z.div_mod_to_equations; lia). done.
  - rewrite dec_nat_step, dec_nat_small, !u8_id by (widths; Z.div_mod_to_equations; lia). done.
Qed.

(** The conversion character, taken from a word of four bytes. *)
Lemma conv_char sf : let c := byte_at (zs "aefg") (STRFMT_FP sf) in
  u8 ((0x67666561 >> (STRFMT_FP sf << 3)) .^ (if flag sf STRFMT_F_UPPER then 0x20 else 0)) = (if flag sf STRFMT_F_UPPER then c - 32 else c) /\
  (if flag sf STRFMT_F_UPPER then c - 32 else c) ∈ zs "aefgAEFG".
Proof.
  unfold STRFMT_FP. pose proof (land_bound (sf >> 4) 3 2 eq_refl ltac:(lia)) as R. set (k := _ .& 3) in *. clearbody k.
  assert (k = 0 \/ k = 1 \/ k = 2 \/ k = 3) as [-> |[-> |[-> | ->]]] by lia; destruct (flag _ _);
    (split; [done|apply (bool_decide_eq_true_1 _); by vm_compute]).
Qed.

(** [putfnum_fmt] builds the format of the word, in the 13 bytes it has. *)
Lemma putfnum_fmt_spec sf : word_ok sf ->
  putfnum_fmt sf = spec_text (word_spec sf) /\ spec_ok (word_spec sf) /\ len (putfnum_fmt sf) < 1 + 5 + 2 + 3 + 1 + 1.
Proof.
  intros [Hw Hp]. pose proof (width_range sf) as Rw. destruct (conv_char sf) as [Ec Hc]. cbv zeta in *.
  assert (Ew : u8 (STRFMT_WIDTH sf) = STRFMT_WIDTH sf) by (apply u8_id; widths; lia).
  assert (Ep : STRFMT_PREC sf = 2 ^ 32 - 1 \/ 0 <= STRFMT_PREC sf <= 99) by (destruct (prec_range sf); lia).
  assert (L2 : forall w, len (fmt_num2 w) <= 2) by (intros w; unfold fmt_num2; by destruct (negb _)).
  split; [|split].
  - unfold putfnum_fmt, spec_text, word_spec. cbn [sp_left sp_plus sp_zero sp_space sp_alt sp_width sp_prec sp_conv]. rewrite Ew, Ec.
    rewrite decimal_two by lia. do 6 f_equal. f_equal; [by destruct (_ =? 0)|]. f_equal. destruct Ep as [-> |Ep]; [done|].
    rewrite u8_id by (widths; lia). rewrite (proj2 (Z.eqb_neq _ 255)), (proj2 (Z.eqb_neq _ (2 ^ 32 - 1))) by lia. cbn [negb]. by rewrite decimal_two.
  - split; [cbn; lia|]. split; [|exact Hc]. unfold word_spec. cbn [sp_prec]. intros p. destruct (Z.eqb_spec (STRFMT_PREC sf) (2 ^ 32 - 1)) as [E|E]; [done|]. intros [= <-]. by destruct Ep as [Ep|Ep].
  - unfold putfnum_fmt. pose proof (L2 (u8 (STRFMT_WIDTH sf))). pose proof (L2 (u8 (STRFMT_PREC sf))).
    repeat match goal with |- context [if ?b then _ else _] => destruct b end; autorewrite with strlen; lia.
Qed.

Lemma spec_max_small f : spec_ok f -> spec_max f <= 410.
Proof.
  intros (W & P & _). unfold spec_max. assert (0 <= default 6 (sp_prec f) <= 99) by (destruct (sp_prec f); cbn; [by apply P|lia]).
  case_bool_decide; lia.
Qed.

Section Safe.
Context (raw : nat -> Z) (sprintf : list Z -> Z -> list Z) (BIONIC : bool).

(** What the C standard says of [sprintf] on finite numbers, for the formats
    the program uses. *)
Definition sprintf_spec : Prop := forall f n, spec_ok f -> finite n -> len (sprintf (spec_text f) n) <= spec_max f.

Lemma wnum_len n : sprintf_spec -> len (lj_strfmt_wnum sprintf BIONIC n) < STRFMT_MAXBUF_NUM.
Proof.
  intros F. unfold lj_strfmt_wnum, STRFMT_MAXBUF_NUM. destruct (Z.ltb_spec (u32 (hi32 n << 1)) 0xffe00000) as [Hn|]; [|by repeat case_match].
  destruct (_ && _); [done|]. unfold lua_number2str. specialize (F (mkSpec false false false false false 0 (Some 14) 103) n). 
  change (spec_text _) with [37; 46; 49; 52; 103] in F. change (spec_max _) with 21 in F.
  enough (len (sprintf [37; 46; 49; 52; 103] n) <= 21) by lia. apply F; [|done].
  split; [done|]. split; [by intros p [= <-]|]. apply (bool_decide_eq_true_1 _). by vm_compute.
Qed.

(** Infinities and NaNs: three letters and a sign, padded. *)
Definition nonfinite_text (sf n : Z) : list Z :=
  let nan := negb (((hi32 n .& 0x000fffff) .| u32 n) =? 0) in
  let sign :=
    if nan then (if flag sf STRFMT_F_SPACE then [32] else [])
    else if negb ((hi32 n .& 0x80000000) =? 0) then [45]
    else if flag sf STRFMT_F_PLUS then [43] else if flag sf STRFMT_F_SPACE then [32] else [] in
  let letters := if nan then (if flag sf STRFMT_F_UPPER then zs "NAN" else zs "nan")
                 else (if flag sf STRFMT_F_UPPER then zs "INF" else zs "inf") in
  let spaces := pad (STRFMT_WIDTH sf) (len sign + 3) 32 in
  if flag sf STRFMT_F_LEFT then sign ++ letters ++ spaces else spaces ++ sign ++ letters.

(** The characters of a formatted number. *)
Definition fnum_text (sf n : Z) : list Z :=
  if 0xffe00000 <=? u32 (hi32 n << 1) then nonfinite_text sf n else sprintf (spec_text (word_spec sf)) n.

Lemma nonfinite_ok sb sf n : buf_ok sb -> 0xffe00000 <= u32 (hi32 n << 1) ->
  appended 0 sb (nonfinite_text sf n) (lj_strfmt_putfnum raw sprintf sb sf n).
Proof.
  intros B Hn. unfold lj_strfmt_putfnum, nonfinite_text. rewrite (proj2 (Z.leb_le _ _)) by done. pose proof (width_range sf) as W. cbv zeta.
  assert (L1 : len (zs "NAN") = 3) by done. assert (L2 : len (zs "nan") = 3) by done.
  assert (L3 : len (zs "INF") = 3) by done. assert (L4 : len (zs "inf") = 3) by done.
  destruct (negb ((_ .| _) =? 0)), (flag sf STRFMT_F_UPPER), (flag sf STRFMT_F_SPACE), (flag sf STRFMT_F_PLUS),
    (negb ((hi32 n .& 0x80000000) =? 0)), (flag sf STRFMT_F_LEFT);
    rewrite ?app_nil_r; cbn [negb Z.eqb Pos.eqb app]; 
    match goal with |- appended _ _ ?s (sb_put _ _ ?k ?t) => replace t with s by (reflexivity || (cbn [app]; reflexivity)) end;
    (apply sb_put_ok; [done|case_match; lia|]); autorewrite with strlen; rewrite ?L1, ?L2, ?L3, ?L4; case_match; lia.
Qed.

Lemma putfnum_ok sb sf n : sprintf_spec -> word_ok sf -> buf_ok sb ->
  appended STRFMT_FMTNUMBUF sb (fnum_text sf n) (lj_strfmt_putfnum raw sprintf sb sf n) /\
  (finite n -> len (fnum_text sf n) < STRFMT_FMTNUMBUF).
Proof.
  intros F Hw B. destruct (putfnum_fmt_spec sf Hw) as (Ef & Hs & _). unfold fnum_text, finite.
  destruct (Z.leb_spec 0xffe00000 (u32 (hi32 n << 1))) as [Hn|Hn].
  - split; [|lia]. eapply appended_le; [by apply nonfinite_ok|done].
  - unfold lj_strfmt_putfnum. rewrite (proj2 (Z.leb_gt _ _)), Ef by done. pose proof (F _ n Hs Hn). pose proof (spec_max_small _ Hs).
    unfold STRFMT_FMTNUMBUF. split; [|lia]. pose proof (len_nonneg (sprintf (spec_text (word_spec sf)) n)). apply sb_put_ok; [done|done|lia].
Qed.

(** C23: no conversion overruns the space it reserves.  Each one appends its
    characters (the decimal notation, the pointer, the quoted string, the
    padded string, character or integer, the number), or they and the number
    of bytes stated, which it may reserve without need, would exceed the
    largest buffer.  Strings, characters and integers are formatted for every
    word, numbers for the words with at most two digits for the width and the
    precision, and [lj_strfmt_parse] returns no others.  For finite numbers
    [sprintf] is assumed to obey the C standard: then its result and the
    terminator fit in the space, and so does the format in its array. *)
Theorem strfmt_put_safe sb sf : buf_ok sb -> sprintf_spec ->
  (forall k, is_i32 k -> appended 10 sb (decimal k) (lj_strfmt_putint raw sb k)) /\
  (forall v, appended STRFMT_MAXBUF_PTR sb (lj_strfmt_wptr v) (lj_strfmt_putptr raw sb v)) /\
  (forall s, appended 3 sb (quoted s) (lj_strfmt_putquoted raw sb s)) /\
  (forall c, appended 0 sb (fchar_str sf c) (lj_strfmt_putfchar raw sb sf c)) /\
  (forall s, len s < 2 ^ 31 -> appended 0 sb (fstr_str sf s) (lj_strfmt_putfstr raw sb sf s)) /\
  (forall k, appended 0 sb (fxint_str sf k) (lj_strfmt_putfxint raw sb sf k)) /\
  (forall n, appended STRFMT_MAXBUF_NUM sb (lj_strfmt_wnum sprintf BIONIC n) (lj_strfmt_putnum raw sprintf BIONIC sb n) /\
     len (lj_strfmt_wnum sprintf BIONIC n) < STRFMT_MAXBUF_NUM) /\
  (word_ok sf -> len (putfnum_fmt sf) < 1 + 5 + 2 + 3 + 1 + 1 /\
     forall n, appended STRFMT_FMTNUMBUF sb (fnum_text sf n) (lj_strfmt_putfnum raw sprintf sb sf n) /\
       (finite n -> len (fnum_text sf n) < STRFMT_FMTNUMBUF)) /\
  (forall fs fs' sf', bytes (fs_s fs) -> lj_strfmt_parse fs = Some (fs', sf') -> word_ok sf').
Proof.
  intros B F. split_and!; intros.
  - pose proof (decimal_length k ltac:(done)). pose proof (decimal_pos k). unfold lj_strfmt_putint. rewrite wint_decimal by done.
    unfold STRFMT_MAXBUF_INT in *. apply sb_put_ok; [done|done|lia].
  - pose proof (wptr_len v). pose proof (len_nonneg (lj_strfmt_wptr v)). apply sb_put_ok; [done|done|lia].
  - by apply putquoted_ok.
  - by apply putfchar_ok.
  - by apply putfstr_ok.
  - by apply putfxint_ok.
  - pose proof (wnum_len n F) as L. pose proof (len_nonneg (lj_strfmt_wnum sprintf BIONIC n)). split; [|done]. apply sb_put_ok; [done|done|lia].
  - split; [by apply putfnum_fmt_spec|]. intros n. by apply putfnum_ok.
  - by eapply lj_strfmt_parse_word.
Qed.

(** The format parser always returns, and moves past what it parsed or
    reports the end, within the format string; so [lj_strfmt_pushvf] ends
    for every format string and argument list. *)
Theorem lj_strfmt_pushvf_ends tmpbuf fmt argp : bytes fmt ->
  lj_strfmt_pushvf raw sprintf BIONIC tmpbuf fmt argp <> Err FMT_FUEL /\
  forall fs, fs_ok fs -> exists fs' sf, lj_strfmt_parse fs = Some (fs', sf) /\
    (sf = STRFMT_EOF \/ (fs_ok fs' /\ fs_p fs < fs_p fs' /\ fs_e fs' = fs_e fs)).
Proof. intros Hb. split; [by apply pushvf_ends|exact lj_strfmt_parse_ok]. Qed.
End Safe.

Definition raw0 : nat -> Z := fun _ => 0.
Definition sprintf0 : list Z -> Z -> list Z := fun _ _ => [48].
Definition stk0 : list Z := replicate 512 0.

Lemma stk0_ok : xi_ok stk0.
Proof. split; [by vm_compute|]. apply Forall_replicate. widths; lia. Qed.

Lemma sprintf0_spec : sprintf_spec sprintf0.
Proof. intros f n H _. unfold spec_max. destruct H as (W & P & _). assert (0 <= default 6 (sp_prec f)) by (destruct (sp_prec f); cbn; [by apply P|lia]). change (len _) with 1. case_bool_decide; lia. Qed.

(** [%+6.2f] *)
Definition word0 : Z := STRFMT_F .| STRFMT_F_PLUS .| (6 << 16) .| (3 << 24).

Lemma strfmt_put_safe_witness :
  appended 10 lj_buf_init [45; 53] (lj_strfmt_putint raw0 lj_buf_init (-5)) /\
  appended 0 lj_buf_init [32; 32; 32; 48; 120; 102; 102] (lj_strfmt_putfxint raw0 lj_buf_init (STRFMT_X .| STRFMT_F_ALT .| (7 << 16)) 255) /\
  appended 512 lj_buf_init (zs "  +inf") (lj_strfmt_putfnum raw0 sprintf0 lj_buf_init word0 0x7ff0000000000000) /\
  spec_text (word_spec word0) = zs "%+6.2f".
Proof.
  destruct (strfmt_put_safe raw0 sprintf0 false lj_buf_init (STRFMT_X .| STRFMT_F_ALT .| (7 << 16)) init_ok sprintf0_spec)
    as (H1 & _ & _ & _ & _ & H2 & _).
  destruct (strfmt_put_safe raw0 sprintf0 false lj_buf_init word0 init_ok sprintf0_spec) as (_ & _ & _ & _ & _ & _ & _ & H3 & _).
  split; [apply (H1 (-5)); widths; lia|]. split; [exact (H2 255)|]. split; [|by vm_compute].
  destruct H3 as [_ H3]; [split; [done|by left]|]. apply (H3 0x7ff0000000000000).
Defined.

Lemma lj_strfmt_pushvf_ends_witness :
  lj_strfmt_pushvf raw0 sprintf0 false lj_buf_init (zs "%5d%%%s") [ArgInt 42; ArgStr None] <> Err FMT_FUEL.
Proof.
  apply (lj_strfmt_pushvf_ends raw0 sprintf0 false lj_buf_init (zs "%5d%%%s") [ArgInt 42; ArgStr None]).
  unfold bytes, zs. repeat (constructor; [done|]). constructor.
Defined.

(** ** Scanning numbers *)

(** C24: [tostring] and [tonumber] of integers are inverse: the number scanner
    reads what [lj_strfmt_wint] writes as the same integer, in each mode of
    the VM. *)
Theorem strscan_wint_roundtrip LONG8 stk k : is_i32 k ->
  lj_strscan_num (lj_strfmt_wint k) LONG8 stk = Some (true, SVn (int2num k)) /\
  lj_strscan_number (lj_strfmt_wint k) LONG8 stk = Some (true, SVi k).
Proof.
  intros Hk. rewrite wint_decimal by done. unfold lj_strscan_num, lj_strscan_number.
  rewrite !scan_decimal by done. split; reflexivity.
Qed.

Lemma strscan_wint_roundtrip_witness : lj_strscan_number (lj_strfmt_wint (-2147483648)) true stk0 = Some (true, SVi (-2147483648)).
Proof. apply (strscan_wint_roundtrip true stk0 (-2147483648)). widths; lia. Defined.

(** The options that exclude each other. *)
Definition opt_ok (opt : Z) : Prop :=
  opt_has opt STRSCAN_OPT_TONUM = true -> opt_has opt STRSCAN_OPT_C = false /\ opt_has opt STRSCAN_OPT_TOINT = false.

(** C25: the number scanner returns for every string and exponent, whatever
    its uninitialised array holds: no loop over the characters or around the
    circular buffer goes on for ever.  The format says which member of the
    result is stored, and only the formats that the options ask for occur; so
    the lexer can use every number that was not refused. *)
Theorem lj_strscan_scan_typed s LONG8 stk opt : xi_ok stk -> opt_ok opt ->
  (exists fmt o, lj_strscan_scan s LONG8 stk opt = Some (fmt, o) /\ fmt_out opt fmt o) /\
  forall LJ_DUALNUM LJ_HASFFI, exists fmt o, lj_strscan_scan s LONG8 stk (number_opt LJ_DUALNUM LJ_HASFFI) = Some (fmt, o) /\
    (fmt <> STRSCAN_ERROR -> exists v, number_val LJ_DUALNUM LJ_HASFFI fmt o = Some v).
Proof.
  intros X O. split.
  - destruct (scan_some s LONG8 stk opt X) as ([fmt o] & E). exists fmt, o. split; [done|]. by apply scan_typed in E.
  - intros D F. destruct (scan_some s LONG8 stk (number_opt D F) X) as ([fmt o] & E). exists fmt, o. split; [done|].
    apply scan_typed in E; [|by destruct D, F]. intros N. unfold fmt_out, number_val in *.
    destruct o, D, F; repeat match goal with H : _ \/ _ |- _ => destruct H | H : _ /\ _ |- _ => destruct H end; subst; done || by eexists.
Qed.

Lemma lj_strscan_scan_typed_witness : exists fmt o,
  lj_strscan_scan (zs "0x1p-1074") true stk0 (STRSCAN_OPT_TONUM .| STRSCAN_OPT_IMAG) = Some (fmt, o) /\
  fmt_out (STRSCAN_OPT_TONUM .| STRSCAN_OPT_IMAG) fmt o.
Proof.
  destruct (lj_strscan_scan_typed (zs "0x1p-1074") true stk0 (STRSCAN_OPT_TONUM .| STRSCAN_OPT_IMAG) stk0_ok) as [H _]; [by intros _|exact H].
Defined.

(** The same number in two notations: 17 digits, and 800 digits with an
    exponent that takes the additional zeros back. *)
Definition short_tie : list Z := zs "72057594037927944".
Definition long_tie : list Z := zs "72057594037927944" ++ replicate 783 48 ++ zs "e-783".

(** C37: [strscan_dec] misrounds a number of exactly [STRSCAN_MAXDIG] digits
    with an odd exponent.  Realigning the last digit counts it twice, and the
    loop over the excess digits then reads the character behind the last
    digit; it is no zero digit and sets the sticky bit.  A tie between two
    doubles is rounded up instead of to even. *)
Theorem strscan_excess_digit :
  lj_strscan_scan short_tie true stk0 0 = Some (STRSCAN_NUM, SVn 0x4370000000000000) /\
  lj_strscan_scan long_tie true stk0 0 = Some (STRSCAN_NUM, SVn 0x4370000000000001).
Proof. split; by vm_compute. Qed.

(** 2 ^ 60 * 10 ^ 20, with an exponent and written out. *)
Definition exp_power : list Z := zs "1152921504606846976e20".
Definition plain_power : list Z := zs "1152921504606846976" ++ replicate 20 48.

(** C36: scaling down can use up all digits of the buffer, when the value is a
    power of 64 times the power of 100 that is implied behind the digits.  The
    test for a full buffer, [hi == lo], then holds for the empty one, the
    remainder is dropped, and the next round goes through the whole array with
    bytes that were never written: the same number scans to different values,
    none of them right, depending on what the stack holds; written without an
    exponent it is exact. *)
Theorem strscan_empty_buffer :
  lj_strscan_scan plain_power true stk0 0 = Some (STRSCAN_NUM, SVn 0x47d5af1d78b58c40) /\
  lj_strscan_scan exp_power true stk0 0 = Some (STRSCAN_NUM, SVn 4926937992343322624) /\
  lj_strscan_scan exp_power true (replicate 512 170) 0 = Some (STRSCAN_NUM, SVn 5206897961816205708).
Proof. split_and!; by vm_compute. Qed.

(** ** The lexer *)

Section Lexer.
Context (raw : nat -> Z) (stk : list Z) (LJ_DUALNUM LJ_HASFFI LONG8 : bool).
Context (sprintf : list Z -> Z -> list Z) (BIONIC : bool).

(** C9: the lexer ends on every input, well-formed or not: taking token after
    token reaches the end of the input or an error after at most one token
    per character; no loop takes more rounds than there are characters, and
    the number scanner ends, too, whatever its uninitialised array holds. *)
Theorem lex_tokens_end n fuel ls : xi_ok stk -> lex_inv (ls_lookahead ls) ls -> (left ls < n)%nat -> (size ls + 1 < fuel)%nat ->
  finished (lex_tokens raw stk LJ_DUALNUM LJ_HASFFI LONG8 sprintf BIONIC n fuel ls).
Proof. intros X. by apply tokens_end. Qed.

(** C8: the tokens, their values, their lines and the error do not depend on
    how the reader splits the input into pieces. *)
Theorem lex_tokens_pieces n fuel ls p1 p2 : pieces_ok p1 -> pieces_ok p2 -> concat p1 = concat p2 ->
  lex_tokens raw stk LJ_DUALNUM LJ_HASFFI LONG8 sprintf BIONIC n fuel (set_input [] p1 ls) =
  lex_tokens raw stk LJ_DUALNUM LJ_HASFFI LONG8 sprintf BIONIC n fuel (set_input [] p2 ls).
Proof. intros H1 H2 E. apply tokens_eqv. by split. Qed.

(** C7: a string written by [lj_strfmt_putquoted] is read back by the lexer:
    where the input goes on with the quoted string, the next token is the
    string itself, with every quote, backslash, line break, control and NUL
    character; the lexer stops behind the closing quote and has counted the
    lines. *)
Theorem quoted_reads_back s sb0 sb fuel rest ls : bytes s ->
  buf_ok sb0 -> sb_p sb0 = 0 -> lj_strfmt_putquoted raw sb0 s = Ok sb ->
  pieces_ok (ls_rdata ls) -> buf_ok (ls_sb ls) -> ls_c ls :: unread ls = sb_str sb ++ rest ->
  (length s + 1 < fuel)%nat -> 2 + len s <= LJ_MAX_BUF -> ls_linenumber ls + newlines s < LJ_MAX_LINE ->
  exists ls', lex_scan piece_reader raw stk LJ_DUALNUM LJ_HASFFI LONG8 sprintf BIONIC fuel ls =
      Ok ((TK_string, Some (TvStr s)), ls') /\
    ls_c ls' = default LEX_EOF (head rest) /\ unread ls' = tail rest /\
    ls_linenumber ls' = ls_linenumber ls + newlines s.
Proof.
  intros Hs B0 P0 Hput Hp Hb Hu F Hl Hn.
  destruct (putquoted_ok raw sb0 s B0) as [[E _]|(sb' & E & _ & S & _)]; [congruence|].
  rewrite Hput in E. injection E as <-.
  assert (S0 : sb_str sb0 = []) by (unfold sb_str; rewrite P0; done).
  rewrite S0 in S. rewrite S in Hu. unfold quoted in Hu. cbn [app] in Hu. injection Hu as Hc Hu.
  rewrite <- app_assoc in Hu. cbn [app] in Hu.
  destruct (scan_quoted raw stk LJ_DUALNUM LJ_HASFFI LONG8 sprintf BIONIC s fuel rest ls (sb_str (ls_sb ls)) (ls_linenumber ls))
    as (ls' & -> & [_ C U _ _ L]); [done|done|done|done|by split|].
  by exists ls'.
Qed.
End Lexer.

(** The state before the first token, over the pieces of an input. *)
Definition lex_demo (c : Z) (r : list (list Z)) : PState := mkLS [] r c 0 TvNil TK_eof TvNil lj_buf_init 1 1.

Lemma lex_tokens_end_witness :
  finished (lex_tokens raw0 stk0 false true true sprintf0 false 40 40 (lex_demo 32 [zs "x = [==[a"; zs "]]]==] --"])).
Proof.
  apply (lex_tokens_end raw0 stk0 false true true sprintf0 false 40 40 (lex_demo 32 [zs "x = [==[a"; zs "]]]==] --"])).
  - exact stk0_ok.
  - split; [done|by repeat constructor| |done]. vm_compute. repeat (constructor; [done|]). constructor.
  - vm_compute. lia.
  - vm_compute. lia.
Defined.

Lemma lex_tokens_pieces_witness :
  lex_tokens raw0 stk0 false true true sprintf0 false 9 20 (set_input [] [zs "1.5"; zs "e3 .."] (lex_demo 32 [])) =
  lex_tokens raw0 stk0 false true true sprintf0 false 9 20 (set_input [] [zs "1.5e"; zs "3 "; zs ".."] (lex_demo 32 [])).
Proof. apply (lex_tokens_pieces raw0 stk0 false true true sprintf0 false); [by repeat constructor|by repeat constructor|done]. Defined.

Lemma quoted_reads_back_witness : exists ls',
  lex_scan piece_reader raw0 stk0 false true true sprintf0 false 9 (lex_demo 34 [[92; 48; 97; 92]; [10; 34; 59]]) =
    Ok ((TK_string, Some (TvStr [0; 97; 10])), ls') /\ ls_c ls' = 59 /\ unread ls' = [] /\ ls_linenumber ls' = 2.
Proof.
  destruct (lj_strfmt_putquoted raw0 lj_buf_init [0; 97; 10]) as [sb|] eqn:E; [|vm_compute in E; discriminate].
  apply (quoted_reads_back raw0 stk0 false true true sprintf0 false [0; 97; 10] lj_buf_init sb 9 [59]);
    [unfold bytes; by repeat constructor|exact init_ok|done|exact E|by repeat constructor|exact init_ok| |cbn; lia|by vm_compute|by vm_compute].
  vm_compute in E. injection E as <-. by vm_compute.
Defined.
