(* ===== verification/Patt.v ===== *)
(** * Pattern matching ([lib_string.c])

    The matcher behind [string.find], [string.match], [string.gmatch] and
    [string.gsub].  The subject and the pattern are lists of bytes behind which
    a NUL follows; a pointer into either is an index, and a read outside of
    them is the error [OOB].  [NULL] is [None].  The matcher calls itself, and
    jumps to its start, with a longer prefix of the pattern behind it, so the
    number of bytes left in the pattern is enough fuel. *)

From S2P Require Import Prelude Machine Chars Strs Num Buf Strfmt.

(** [ErrMsg], as far as the matcher raises it, and the exits of the model. *)
Inductive PattErr :=
| STRCAPI | STRPATC | STRPATE | STRPATM | STRPATU | STRCAPN | STRPATX | STRPATB | STRCAPU | STRGSRV
| OOB | FUEL.
Abbreviation pres := (res PattErr).

Definition LUA_MAXCAPTURES : Z := 32.
Definition LJ_MAX_XLEVEL : Z := 200.
Definition CAP_UNFINISHED : Z := -1.
Definition CAP_POSITION : Z := -2.
Definition L_ESC : Z := 37.

Record Capture := mkCap { cap_init : Z; cap_len : Z }.

(** The array of captures is not initialized by the code. *)
Record MatchState := mkMS { level : Z; depth : Z; capture : list Capture }.

Definition set_level (ms : MatchState) (l : Z) : MatchState := mkMS l (depth ms) (capture ms).
Definition set_depth (ms : MatchState) (d : Z) : MatchState := mkMS (level ms) d (capture ms).
Definition set_capture (ms : MatchState) (l : Z) (c : Capture) : MatchState :=
  mkMS (level ms) (depth ms) (<[Z.to_nat l := c]> (capture ms)).

(** [ms->capture[l]] *)
Definition get_capture (ms : MatchState) (l : Z) : pres Capture :=
  if l <? 0 then Err OOB else match capture ms !! Z.to_nat l with Some c => Ok c | None => Err OOB end.

(** [*p], where a NUL follows the bytes of [str]. *)
Definition rd (str : list Z) (i : Z) : pres Z :=
  if i <? 0 then Err OOB
  else if i =? Z.of_nat (length str) then Ok 0
  else match str !! Z.to_nat i with Some c => Ok c | None => Err OOB end.

(** The [n] bytes from [i] on, for [memcmp] and for copies. *)
Definition rdmem (str : list Z) (i n : Z) : pres (list Z) :=
  if (0 <=? i) && (0 <=? n) && (i + n <=? Z.of_nat (length str) + 1)
  then Ok (take (Z.to_nat n) (drop (Z.to_nat i) (str ++ [0])))
  else Err OOB.

(** ** Captures *)

(** A capture without an end. *)
Definition is_open (c : Capture) : bool := cap_len c =? CAP_UNFINISHED.

Definition check_capture (ms : MatchState) (l : Z) : pres Z :=
  let l := l - 49 in
  if (l <? 0) || (level ms <=? l) then Err STRCAPI
  else
    c ← get_capture ms l;
    if cap_len c =? CAP_UNFINISHED then Err STRCAPI else Ok l.

(** [for (level--; level>=0; level--)], from [level = n]. *)
Fixpoint capture_to_close_loop (ms : MatchState) (n : nat) : pres Z :=
  match n with
  | O => Err STRPATC
  | S n =>
      c ← get_capture ms (Z.of_nat n);
      if cap_len c =? CAP_UNFINISHED then Ok (Z.of_nat n) else capture_to_close_loop ms n
  end.

Definition capture_to_close (ms : MatchState) : pres Z := capture_to_close_loop ms (Z.to_nat (level ms)).

(** ** Character classes *)

Section Matcher.
(** The subject and the pattern. *)
Context (src pat : list Z).

Definition src_init : Z := 0.
Definition src_end : Z := Z.of_nat (length src).

(** [do ... while ( *p != ']')] *)
Fixpoint classend_loop (fuel : nat) (p : Z) : pres Z :=
  match fuel with
  | O => Err FUEL
  | S fuel =>
      c ← rd pat p;
      if c =? 0 then Err STRPATM
      else
        let p := p + 1 in
        d ← rd pat p;
        let p := if (c =? L_ESC) && negb (d =? 0) then p + 1 else p in
        e ← rd pat p;
        if e =? 93 then Ok (p + 1) else classend_loop fuel p
  end.

Definition classend (p : Z) : pres Z :=
  c ← rd pat p;
  let p := p + 1 in
  if c =? L_ESC then
    d ← rd pat p;
    if d =? 0 then Err STRPATE else Ok (p + 1)
  else if c =? 91 then
    d ← rd pat p;
    let p := if d =? 94 then p + 1 else p in
    classend_loop (S (length pat)) p
  else Ok p.

Definition match_class_map : list Z :=
  [0; LJ_CHAR_ALPHA; 0; LJ_CHAR_CNTRL; LJ_CHAR_DIGIT; 0; 0; LJ_CHAR_GRAPH; 0; 0; 0; 0;
   LJ_CHAR_LOWER; 0; 0; 0; LJ_CHAR_PUNCT; 0; 0; LJ_CHAR_SPACE; 0;
   LJ_CHAR_UPPER; 0; LJ_CHAR_ALNUM; LJ_CHAR_XDIGIT; 0; 0; 0; 0; 0; 0; 0].

Definition match_class (c cl : Z) : bool :=
  let t := default 0 (match_class_map !! Z.to_nat (cl .& 0x1f)) in
  if ((cl .& 0xc0) =? 0x40) && nz t then
    let t := lj_char_isa c t in
    if nz (cl .& 0x20) then nz t else negb (nz t)
  else if ((cl .& 0xc0) =? 0x40) && (cl =? 122) then c =? 0
  else if ((cl .& 0xc0) =? 0x40) && (cl =? 90) then negb (c =? 0)
  else cl =? c.

(** [while (++p < ec)] *)
Fixpoint bracket_loop (fuel : nat) (c p ec : Z) (sig : bool) : pres bool :=
  match fuel with
  | O => Err FUEL
  | S fuel =>
      let p := p + 1 in
      if p <? ec then
        d ← rd pat p;
        if d =? L_ESC then
          let p := p + 1 in
          d ← rd pat p;
          if match_class c d then Ok sig else bracket_loop fuel c p ec sig
        else
          e ← rd pat (p + 1);
          if (e =? 45) && (p + 2 <? ec) then
            let p := p + 2 in
            lo ← rd pat (p - 2);
            hi ← rd pat p;
            if (lo <=? c) && (c <=? hi) then Ok sig else bracket_loop fuel c p ec sig
          else if d =? c then Ok sig
          else bracket_loop fuel c p ec sig
      else Ok (negb sig)
  end.

Definition matchbracketclass (c p ec : Z) : pres bool :=
  d ← rd pat (p + 1);
  if d =? 94 then bracket_loop (S (length pat)) c (p + 1) ec false
  else bracket_loop (S (length pat)) c p ec true.

Definition singlematch (c p ep : Z) : pres bool :=
  d ← rd pat p;
  if d =? 46 then Ok true
  else if d =? L_ESC then d ← rd pat (p + 1); Ok (match_class c d)
  else if d =? 91 then matchbracketclass c p (ep - 1)
  else Ok (d =? c).

(** [s<ms->src_end && singlematch(uchar( *s), p, ep)] *)
Definition single_here (s p ep : Z) : pres bool :=
  if s <? src_end then c ← rd src s; singlematch c p ep else Ok false.

(** [while (++s < ms->src_end)] *)
Fixpoint balance_loop (fuel : nat) (b e cont s : Z) : pres (option Z) :=
  match fuel with
  | O => Err FUEL
  | S fuel =>
      let s := s + 1 in
      if s <? src_end then
        c ← rd src s;
        if c =? e then
          let cont := cont - 1 in
          if cont =? 0 then Ok (Some (s + 1)) else balance_loop fuel b e cont s
        else if c =? b then balance_loop fuel b e (cont + 1) s
        else balance_loop fuel b e cont s
      else Ok None
  end.

Definition matchbalance (s p : Z) : pres (option Z) :=
  b ← rd pat p;
  if b =? 0 then Err STRPATU
  else
    e ← rd pat (p + 1);
    if e =? 0 then Err STRPATU
    else
      c ← rd src s;
      if negb (c =? b) then Ok None
      else balance_loop (S (length src)) b e 1 s.

Definition match_capture (ms : MatchState) (s l : Z) : pres (option Z) :=
  l ← check_capture ms l;
  c ← get_capture ms l;
  let len := u64 (cap_len c) in
  if len <=? src_end - s then
    a ← rdmem src (cap_init c) len;
    b ← rdmem src s len;
    Ok (if bool_decide (a = b) then Some (s + len) else None)
  else Ok None.

(** ** Repetition and captures, over the matcher *)

Section Rec.
Context (match_ : MatchState -> Z -> Z -> pres (option Z * MatchState)).

(** [while ((s+i)<ms->src_end && ...) i++;] *)
Fixpoint max_count (fuel : nat) (s p ep i : Z) : pres Z :=
  match fuel with
  | O => Err FUEL
  | S fuel => m ← single_here (s + i) p ep; if (m : bool) then max_count fuel s p ep (i + 1) else Ok i
  end.

(** [while (i>=0)], from [i = n - 1]. *)
Fixpoint max_try (ms : MatchState) (s ep : Z) (n : nat) : pres (option Z * MatchState) :=
  match n with
  | O => Ok (None, ms)
  | S n =>
      '(r, ms) ← match_ ms (s + Z.of_nat n) (ep + 1);
      match r with Some e => Ok (Some e, ms) | None => max_try ms s ep n end
  end.

Definition max_expand (ms : MatchState) (s p ep : Z) : pres (option Z * MatchState) :=
  i ← max_count (S (length src)) s p ep 0;
  max_try ms s ep (Z.to_nat (i + 1)).

Fixpoint min_expand_loop (fuel : nat) (ms : MatchState) (s p ep : Z) : pres (option Z * MatchState) :=
  match fuel with
  | O => Err FUEL
  | S fuel =>
      '(r, ms) ← match_ ms s (ep + 1);
      match r with
      | Some e => Ok (Some e, ms)
      | None =>
          m ← single_here s p ep;
          if (m : bool) then min_expand_loop fuel ms (s + 1) p ep else Ok (None, ms)
      end
  end.

Definition min_expand (ms : MatchState) (s p ep : Z) : pres (option Z * MatchState) :=
  min_expand_loop (S (length src)) ms s p ep.

Definition start_capture (ms : MatchState) (s p what : Z) : pres (option Z * MatchState) :=
  let l := level ms in
  if LUA_MAXCAPTURES <=? l then Err STRCAPN
  else
    let ms := set_level (set_capture ms l (mkCap s what)) (l + 1) in
    '(r, ms) ← match_ ms s p;
    match r with
    | None => Ok (None, set_level ms (level ms - 1))
    | Some e => Ok (Some e, ms)
    end.

Definition end_capture (ms : MatchState) (s p : Z) : pres (option Z * MatchState) :=
  l ← capture_to_close ms;
  c ← get_capture ms l;
  let ms := set_capture ms l (mkCap (cap_init c) (s - cap_init c)) in
  '(r, ms) ← match_ ms s p;
  match r with
  | None =>
      c ← get_capture ms l;
      Ok (None, set_capture ms l (mkCap (cap_init c) CAP_UNFINISHED))
  | Some e => Ok (Some e, ms)
  end.
End Rec.

(** ** The matcher *)

(** [break] out of the [switch]: [ms->depth--; return s;] *)
Definition leave (r : option Z * MatchState) : pres (option Z * MatchState) :=
  Ok (r.1, set_depth r.2 (depth r.2 - 1)).

Section Body.
(** The rest of [match] from the label [init] on. *)
Context (go : MatchState -> Z -> Z -> pres (option Z * MatchState)).

(** A call of [match]. *)
Definition call_match (ms : MatchState) (s p : Z) : pres (option Z * MatchState) :=
  if LJ_MAX_XLEVEL <? depth ms + 1 then Err STRPATX
  else go (set_depth ms (depth ms + 1)) s p.

(** From the label [dflt] on. *)
Definition match_dflt (ms : MatchState) (s p : Z) : pres (option Z * MatchState) :=
  ep ← classend p;
  m ← single_here s p ep;
  q ← rd pat ep;
  if q =? 63 then
    '(r, ms) ← (if (m : bool) then call_match ms (s + 1) (ep + 1) else Ok (None, ms));
    match r with
    | Some e => leave (Some e, ms)
    | None => go ms s (ep + 1)
    end
  else if q =? 42 then r ← max_expand call_match ms s p ep; leave r
  else if q =? 43 then
    r ← (if (m : bool) then max_expand call_match ms (s + 1) p ep else Ok (None, ms)); leave r
  else if q =? 45 then r ← min_expand call_match ms s p ep; leave r
  else if (m : bool) then go ms (s + 1) ep
  else leave (None, ms).

(** [case 'f'], where [p] is behind it. *)
Definition match_frontier (ms : MatchState) (s p : Z) : pres (option Z * MatchState) :=
  b ← rd pat p;
  if negb (b =? 91) then Err STRPATB
  else
    ep ← classend p;
    previous ← (if s =? src_init then Ok 0 else rd src (s - 1));
    m ← matchbracketclass previous p (ep - 1);
    if (m : bool) then leave (None, ms)
    else
      c ← rd src s;
      m ← matchbracketclass c p (ep - 1);
      if (m : bool) then go ms s ep else leave (None, ms).

(** The [switch]. *)
Definition match_body (ms : MatchState) (s p : Z) : pres (option Z * MatchState) :=
  c ← rd pat p;
  if c =? 40 then
    d ← rd pat (p + 1);
    r ← (if d =? 41 then start_capture call_match ms s (p + 2) CAP_POSITION
         else start_capture call_match ms s (p + 1) CAP_UNFINISHED);
    leave r
  else if c =? 41 then r ← end_capture call_match ms s (p + 1); leave r
  else if c =? L_ESC then
    d ← rd pat (p + 1);
    if d =? 98 then
      r ← matchbalance s (p + 2);
      match r with None => leave (None, ms) | Some s => go ms s (p + 4) end
    else if d =? 102 then match_frontier ms s (p + 2)
    else if nz (lj_char_isdigit d) then
      r ← match_capture ms s d;
      match r with None => leave (None, ms) | Some s => go ms s (p + 2) end
    else match_dflt ms s p
  else if c =? 0 then leave (Some s, ms)
  else if c =? 36 then
    d ← rd pat (p + 1);
    if negb (d =? 0) then match_dflt ms s p
    else leave (if s =? src_end then Some s else None, ms)
  else match_dflt ms s p.
End Body.

(** [match] from the label [init] on. *)
Fixpoint match_init (fuel : nat) (ms : MatchState) (s p : Z) : pres (option Z * MatchState) :=
  match fuel with
  | O => Err FUEL
  | S fuel => match_body (match_init fuel) ms s p
  end.

Definition match_ : MatchState -> Z -> Z -> pres (option Z * MatchState) := call_match (match_init (S (length pat))).
End Matcher.

(** ** Captures as values *)

(** A Lua value, as far as the functions below tell values apart; a number is
    an integer or the bits of a double. *)
Inductive LuaVal := VNil | VFalse | VInt (i : Z) | VNum (n : Z) | VStr (s : list Z) | VOther.

Definition push_onecapture (src : list Z) (ms : MatchState) (i s e : Z) : pres LuaVal :=
  if level ms <=? i then
    if i =? 0 then VStr <$> rdmem src s (e - s)
    else Err STRCAPI
  else
    c ← get_capture ms i;
    let l := cap_len c in
    if l =? CAP_UNFINISHED then Err STRCAPU
    else if l =? CAP_POSITION then Ok (VInt (cap_init c - src_init + 1))
    else VStr <$> rdmem src (cap_init c) l.

(** [for (i = 0; i < nlevels; i++)], from [i] on, [n] rounds. *)
Fixpoint push_captures_loop (src : list Z) (ms : MatchState) (s e i : Z) (n : nat) : pres (list LuaVal) :=
  match n with
  | O => Ok []
  | S n =>
      v ← push_onecapture src ms i s e;
      l ← push_captures_loop src ms s e (i + 1) n;
      Ok (v :: l)
  end.

(** The arguments [s] and [e], [None] for [NULL]. *)
Definition push_captures (src : list Z) (ms : MatchState) (se : option (Z * Z)) : pres (list LuaVal) :=
  let '(s, e) := default (0, 0) se in
  let nlevels := if (level ms =? 0) && bool_decide (is_Some se) then 1 else level ms in
  push_captures_loop src ms s e 0 (Z.to_nat nlevels).

(** ** [string.find] and [string.match] *)

(** A new [MatchState] whose array holds [caps]; [ms.level = ms.depth = 0]. *)
Definition ms_init (caps : list Capture) : MatchState := mkMS 0 0 caps.

(** [do ... while (sstr++ < ms.src_end && !anchor)]; the place and the end of
    the first match, and the captures. *)
Fixpoint find_loop (src pat : list Z) (fuel : nat) (caps : list Capture) (sstr pstr : Z) (anchor : bool)
  : pres (option (Z * Z * MatchState)) :=
  match fuel with
  | O => Err FUEL
  | S fuel =>
      '(q, ms) ← match_ src pat (ms_init caps) sstr pstr;
      match q with
      | Some q => Ok (Some (sstr, q, ms))
      | None =>
          if (sstr <? src_end src) && negb anchor
          then find_loop src pat fuel (capture ms) (sstr + 1) pstr anchor
          else Ok None
      end
  end.

Definition pattern_find (src pat : list Z) (caps : list Capture) (st : Z) : pres (option (Z * Z * MatchState)) :=
  c ← rd pat 0;
  let anchor := c =? 94 in
  find_loop src pat (S (length src)) caps st (if anchor then 1 else 0) anchor.

(** [st], and [None] for the [nil] of Lua 5.2. *)
Definition find_start (LJ_52 : bool) (len start : Z) : option Z :=
  let start := if start <? 0 then i32 (start + i32 len) else start - 1 in
  let start := if start <? 0 then 0 else start in
  if len <? start then if LJ_52 then None else Some len
  else Some start.

(** [start] is the third argument, [plain] whether the fourth is true; [caps]
    what the array of captures holds before it is written. *)
Definition str_find_aux (LJ_52 : bool) (caps : list Capture) (s p : GCstr) (start : Z) (plain find : bool)
  : pres (list LuaVal) :=
  match find_start LJ_52 (str_len s) start with
  | None => Ok [VNil]
  | Some st =>
      if find && (plain || negb (nz (lj_str_haspattern p))) then
        match lj_str_find (drop (Z.to_nat st) (str_data s)) (str_data p) (str_len s - st) (str_len p) with
        | None => Err FUEL
        | Some (Some q) => Ok [VInt (i32 (st + q) + 1); VInt (i32 (i32 (st + q) + i32 (str_len p)))]
        | Some None => Ok [VNil]
        end
      else
        r ← pattern_find (content s) (content p) caps st;
        match r with
        | None => Ok [VNil]
        | Some (sstr, q, ms) =>
            if find then
              l ← push_captures (content s) ms None;
              Ok (VInt (i32 (sstr + 1)) :: VInt (i32 q) :: l)
            else push_captures (content s) ms (Some (sstr, q))
        end
  end.

(** ** [string.gmatch] *)

(** [for (; src <= ms.src_end; src++)] *)
Fixpoint gmatch_loop (str pat : list Z) (fuel : nat) (caps : list Capture) (src : Z)
  : pres (option (Z * Z * MatchState)) :=
  match fuel with
  | O => Err FUEL
  | S fuel =>
      if src <=? src_end str then
        '(e, ms) ← match_ str pat (ms_init caps) src 0;
        match e with
        | Some e => Ok (Some (src, e, ms))
        | None => gmatch_loop str pat fuel (capture ms) (src + 1)
        end
      else Ok None
  end.

(** The iterator: the position in its upvalue, and the values it returns. *)
Definition string_gmatch_aux (str pat : list Z) (caps : list Capture) (tvpos : Z) : pres (list LuaVal * Z) :=
  r ← gmatch_loop str pat (S (S (length str))) caps tvpos;
  match r with
  | Some (src, e, ms) =>
      let pos := i32 e in
      let pos := if e =? src then i32 (pos + 1) else pos in
      l ← push_captures str ms (Some (src, e));
      Ok (l, u32 pos)
  | None => Ok ([], tvpos)
  end.

(** ** [string.gsub] *)

(** The replacement: a string or a number, which is read as a string; a
    table; a function. *)
Inductive Repl := RString (news : list Z) | RTable | RFunction.

Section Gsub.
(** The state of the Lua program; an access to the table or a call of the
    function, which may be a metamethod, given the key or the arguments; and
    the text of a double. *)
Context {St : Type} (ask : St -> list LuaVal -> pres (St * LuaVal)) (num_text : Z -> list Z).
Context (src pat : list Z) (repl : Repl).

(** [luaL_addvalue]; [None] if the value is neither a string nor a number. *)
Definition value_text (v : LuaVal) : option (list Z) :=
  match v with
  | VStr s => Some s
  | VInt i => Some (lj_strfmt_wint i)
  | VNum n => Some (num_text n)
  | _ => None
  end.

(** [for (i = 0; i < l; i++)]; the text is the list [b] of the buffer. *)
Fixpoint add_s_loop (fuel : nat) (ms : MatchState) (news b : list Z) (i s e : Z) : pres (list Z) :=
  match fuel with
  | O => Err FUEL
  | S fuel =>
      if i <? Z.of_nat (length news) then
        c ← rd news i;
        if negb (c =? L_ESC) then add_s_loop fuel ms news (b ++ [c]) (i + 1) s e
        else
          let i := i + 1 in
          c ← rd news i;
          if negb (nz (lj_char_isdigit c)) then add_s_loop fuel ms news (b ++ [c]) (i + 1) s e
          else if c =? 48 then
            t ← rdmem src s (e - s);
            add_s_loop fuel ms news (b ++ t) (i + 1) s e
          else
            v ← push_onecapture src ms (c - 49) s e;
            match value_text v with
            | Some t => add_s_loop fuel ms news (b ++ t) (i + 1) s e
            | None => Err STRGSRV
            end
      else Ok b
  end.

Definition add_s (ms : MatchState) (news b : list Z) (s e : Z) : pres (list Z) :=
  add_s_loop (S (length news)) ms news b 0 s e.

(** What is added for the result [v] of the table or the function. *)
Definition add_result (b : list Z) (s e : Z) (v : LuaVal) : pres (list Z) :=
  match v with
  | VNil | VFalse => t ← rdmem src s (e - s); Ok (b ++ t)
  | _ => match value_text v with Some t => Ok (b ++ t) | None => Err STRGSRV end
  end.

Definition add_value (L : St) (ms : MatchState) (b : list Z) (s e : Z) : pres (St * list Z) :=
  match repl with
  | RString news => b ← add_s ms news b s e; Ok (L, b)
  | RFunction =>
      l ← push_captures src ms (Some (s, e));
      '(L, v) ← ask L l;
      b ← add_result b s e v; Ok (L, b)
  | RTable =>
      k ← push_onecapture src ms 0 s e;
      '(L, v) ← ask L [k];
      b ← add_result b s e v; Ok (L, b)
  end.

(** [while (n < max_s)]; the number of substitutions, the place reached, and
    the text. *)
Fixpoint gsub_loop (fuel : nat) (L : St) (caps : list Capture) (b : list Z) (n max_s s p : Z) (anchor : bool)
  : pres (St * list Z * Z * Z) :=
  match fuel with
  | O => Err FUEL
  | S fuel =>
      if n <? max_s then
        '(e, ms) ← match_ src pat (ms_init caps) s p;
        '(L, b, n) ← (match e with
                      | Some e => '(L, b) ← add_value L ms b s e; Ok (L, b, n + 1)
                      | None => Ok (L, b, n)
                      end);
        match (match e with Some e => if s <? e then Some e else None | None => None end) with
        | Some e =>
            if anchor then Ok (L, b, n, e)
            else gsub_loop fuel L (capture ms) b n max_s e p anchor
        | None =>
            if s <? src_end src then
              c ← rd src s;
              if anchor then Ok (L, b ++ [c], n, s + 1)
              else gsub_loop fuel L (capture ms) (b ++ [c]) n max_s (s + 1) p anchor
            else Ok (L, b, n, s)
        end
      else Ok (L, b, n, s)
  end.

(** [max_s] is the fourth argument, if it is given. *)
Definition string_gsub (L : St) (caps : list Capture) (max_s : option Z) : pres (St * list Z * Z) :=
  c ← rd pat 0;
  let anchor := c =? 94 in
  let max_s := default (i32 (src_end src + 1)) max_s in
  '(L, b, n, s) ← gsub_loop (S (length src)) L caps [] 0 max_s 0 (if anchor then 1 else 0) anchor;
  t ← rdmem src s (src_end src - s);
  Ok (L, b ++ t, n).
End Gsub.
