(* ===== verification/PattSafe.v ===== *)
(** * Pattern matching: memory and state

    The matcher reads inside its strings, ends, and leaves captures that lie
    in the subject; a failed attempt leaves the state as it was.  The lemmas
    are about [safe], which says that a computation does not leave with [OOB]
    or [FUEL] and what holds of its result. *)

From S2P Require Import Prelude Machine Chars Strs Num Buf Strfmt Patt.

Definition lawful (e : PattErr) : bool := match e with OOB | FUEL => false | _ => true end.

Definition safe {A} (r : pres A) (Q : A -> Prop) : Prop :=
  match r with Ok a => Q a | Err e => lawful e = true end.

Lemma safe_bind {A B} (m : pres A) (f : A -> pres B) (R : A -> Prop) Q :
  safe m R -> (forall a, R a -> safe (f a) Q) -> safe (m ≫= f) Q.
Proof. destruct m; cbn; auto. Qed.

Lemma safe_mono {A} (m : pres A) (R Q : A -> Prop) : safe m R -> (forall a, R a -> Q a) -> safe m Q.
Proof. destruct m; cbn; auto. Qed.

Lemma safe_fmap {A B} (m : pres A) (f : A -> B) (Q : B -> Prop) : safe m (fun a => Q (f a)) -> safe (f <$> m) Q.
Proof. by destruct m. Qed.

Lemma safe_Err {A} e (Q : A -> Prop) : lawful e = true -> safe (Err e) Q.
Proof. done. Qed.

Ltac step_with H := eapply safe_bind; [eapply H; try lia|cbn beta; intros ? ?].

(** ** Reads *)

Lemma rd_safe str i : 0 <= i <= Z.of_nat (length str) ->
  safe (rd str i) (fun c => str !! Z.to_nat i = Some c /\ i < Z.of_nat (length str) \/ c = 0 /\ i = Z.of_nat (length str)).
Proof.
  intros Hi. unfold rd. destruct (Z.ltb_spec i 0); [lia|]. destruct (Z.eqb_spec i (Z.of_nat (length str))) as [->|].
  - right. by split.
  - destruct (lookup_lt_is_Some_2 str (Z.to_nat i)) as [c E]; [lia|]. rewrite E. left. split; [done|lia].
Qed.

Lemma rd_in str i : 0 <= i <= Z.of_nat (length str) -> safe (rd str i) (fun c => c <> 0 -> i < Z.of_nat (length str)).
Proof. intros Hi. eapply safe_mono; [by apply rd_safe|]. cbn. intros c [[_ ?]|[-> _]]; [done|by intros []]. Qed.

Lemma rd_safe_bytes str i : bytes str -> 0 <= i <= Z.of_nat (length str) -> safe (rd str i) is_u8.
Proof.
  intros Hb Hi. eapply safe_mono; [by apply rd_safe|]. cbn. intros c [[E _]|[-> _]].
  - eapply Forall_lookup_1; [exact Hb|done].
  - widths. lia.
Qed.

Lemma rdmem_safe str i n : 0 <= i -> 0 <= n -> i + n <= Z.of_nat (length str) ->
  rdmem str i n = Ok (slice str i n).
Proof.
  intros. unfold rdmem, slice. rewrite (proj2 (Z.leb_le 0 i)), (proj2 (Z.leb_le 0 n)), (proj2 (Z.leb_le _ _)) by lia. cbn [andb].
  f_equal. rewrite drop_app_le by lia. apply take_app_le. rewrite length_drop. lia.
Qed.

(** ** States *)

Section Safe.
Context (src pat : list Z).
Abbreviation slen := (Z.of_nat (length src)).
Abbreviation plen := (Z.of_nat (length pat)).

(** A capture that may be open when the matcher is at [s]. *)
Definition cap_ok (s : Z) (c : Capture) : Prop :=
  0 <= cap_init c <= slen /\
  (cap_len c = CAP_UNFINISHED /\ cap_init c <= s \/ cap_len c = CAP_POSITION \/
   0 <= cap_len c /\ cap_init c + cap_len c <= slen).

Record ms_ok (s : Z) (ms : MatchState) : Prop := {
  ms_len : length (capture ms) = Z.to_nat LUA_MAXCAPTURES;
  ms_level : 0 <= level ms <= LUA_MAXCAPTURES;
  ms_caps : forall l, 0 <= l < level ms -> exists c, capture ms !! Z.to_nat l = Some c /\ cap_ok s c
}.

(** The same captures. *)
Definition ms_same (ms ms' : MatchState) : Prop :=
  level ms' = level ms /\ length (capture ms') = length (capture ms) /\
  forall l, 0 <= l < level ms -> capture ms' !! Z.to_nat l = capture ms !! Z.to_nat l.

(** More captures, some of the open ones closed. *)
Definition ms_grow (ms ms' : MatchState) : Prop :=
  level ms <= level ms' /\
  forall l c, 0 <= l < level ms -> capture ms !! Z.to_nat l = Some c ->
    exists c', capture ms' !! Z.to_nat l = Some c' /\ cap_init c' = cap_init c /\
      (cap_len c' = cap_len c \/ cap_len c = CAP_UNFINISHED /\ 0 <= cap_len c').

Definition post (d : Z) (ms : MatchState) (s : Z) (r : option Z * MatchState) : Prop :=
  depth r.2 = d /\
  match r.1 with
  | None => ms_same ms r.2
  | Some e => s <= e <= slen /\ ms_ok e r.2 /\ ms_grow ms r.2
  end.

Lemma cap_ok_mono s s' c : cap_ok s c -> s <= s' -> cap_ok s' c.
Proof. intros [H1 H2] ?. split; [done|]. destruct H2 as [[? ?]|H2]; [left; split; [done|lia]|by right]. Qed.

Lemma ms_ok_mono s s' ms : ms_ok s ms -> s <= s' -> ms_ok s' ms.
Proof.
  intros [? ? H] ?. split; [done..|]. intros l Hl. destruct (H l Hl) as (c & ? & ?). exists c. split; [done|]. by eapply cap_ok_mono.
Qed.

Lemma ms_same_refl ms : ms_same ms ms.
Proof. done. Qed.

Lemma ms_same_trans ms1 ms2 ms3 : ms_same ms1 ms2 -> ms_same ms2 ms3 -> ms_same ms1 ms3.
Proof. intros (H1 & H2 & H3) (K1 & K2 & K3). split_and!; [congruence..|]. intros l Hl. rewrite K3 by lia. by apply H3. Qed.

Lemma ms_same_ok s ms ms' : ms_same ms ms' -> ms_ok s ms -> ms_ok s ms'.
Proof.
  intros (H1 & H2 & H3) [? ? H]. split; [congruence..|]. intros l Hl. rewrite H3 by lia. apply H. lia.
Qed.

Lemma ms_grow_refl ms : ms_grow ms ms.
Proof. split; [done|]. intros l c ? ?. exists c. auto. Qed.

Lemma ms_same_grow ms1 ms2 ms3 : ms_same ms1 ms2 -> ms_grow ms2 ms3 -> ms_grow ms1 ms3.
Proof. intros (H1 & H2 & H3) (K1 & K2). split; [lia|]. intros l c Hl E. apply K2; [lia|]. by rewrite H3. Qed.

Lemma set_depth_ok s ms d : ms_ok s ms -> ms_ok s (set_depth ms d).
Proof. by intros []. Qed.

Lemma post_weaken d ms ms' s s' r : post d ms' s' r -> ms_same ms ms' -> s <= s' -> post d ms s r.
Proof.
  intros [H1 H2] Hs Hle. split; [done|]. destruct r.1 as [e|].
  - destruct H2 as (? & ? & ?). split_and!; [lia..|done|]. by eapply ms_same_grow.
  - by eapply ms_same_trans.
Qed.

Lemma leave_safe d ms s r : post d ms s r -> safe (leave r) (post (d - 1) ms s).
Proof. intros [H1 H2]. cbn. split; [cbn; lia|]. cbn. destruct r.1; [|done]. destruct H2 as (? & ? & ?). split_and!; try done; lia || by apply set_depth_ok. Qed.

Lemma get_capture_safe s ms l : ms_ok s ms -> 0 <= l < level ms ->
  exists c, get_capture ms l = Ok c /\ capture ms !! Z.to_nat l = Some c /\ cap_ok s c.
Proof.
  intros [_ _ H] Hl. destruct (H l Hl) as (c & E & Hc). exists c. unfold get_capture. destruct (Z.ltb_spec l 0); [lia|]. by rewrite E.
Qed.

Lemma check_capture_safe s ms l : ms_ok s ms ->
  safe (check_capture ms l) (fun l' => 0 <= l' < level ms /\
    exists c, get_capture ms l' = Ok c /\ cap_ok s c /\ cap_len c <> CAP_UNFINISHED).
Proof.
  intros H. unfold check_capture. destruct (Z.ltb_spec (l - 49) 0); [done|]. destruct (Z.leb_spec (level ms) (l - 49)); [done|]. cbn [orb].
  destruct (get_capture_safe s ms (l - 49) H) as (c & E & _ & Hc); [lia|]. rewrite E. cbn.
  destruct (Z.eqb_spec (cap_len c) CAP_UNFINISHED); [done|]. cbn. split; [lia|]. by exists c.
Qed.

Lemma capture_to_close_loop_safe s ms n : ms_ok s ms -> Z.of_nat n <= level ms ->
  safe (capture_to_close_loop ms n) (fun l => 0 <= l < level ms /\
    exists c, get_capture ms l = Ok c /\ capture ms !! Z.to_nat l = Some c /\ cap_ok s c /\ cap_len c = CAP_UNFINISHED).
Proof.
  intros H. induction n as [|n IH]; intros Hn; [done|]. cbn [capture_to_close_loop].
  destruct (get_capture_safe s ms (Z.of_nat n) H) as (c & E & El & Hc); [lia|]. rewrite E. cbn.
  destruct (Z.eqb_spec (cap_len c) CAP_UNFINISHED); [|apply IH; lia]. cbn. split; [lia|]. by exists c.
Qed.

(** ** Character classes *)

Lemma classend_loop_safe fuel : forall p, plen - p < Z.of_nat fuel -> 0 <= p <= plen ->
  safe (classend_loop pat fuel p) (fun ep => p + 1 < ep <= plen).
Proof.
  induction fuel as [|fuel IH]; intros p Hf Hp; [lia|]. cbn [classend_loop].
  step_with (rd_in pat). destruct (Z.eqb_spec a 0); [done|].
  step_with (rd_in pat). set (p' := if _ : bool then p + 1 + 1 else p + 1).
  assert (p + 1 <= p' <= plen) as Hp'.
  { subst p'. destruct (Z.eqb_spec a L_ESC), (Z.eqb_spec a0 0); cbn [andb negb]; lia. }
  clearbody p'. step_with (rd_in pat). destruct (Z.eqb_spec a1 93) as [->|].
  - cbn. specialize (H1 ltac:(done)). lia.
  - eapply safe_mono; [apply IH; lia|]. cbn. lia.
Qed.

(** An item ends behind its start; a bracketed one has at least three bytes. *)
Lemma classend_safe p : 0 <= p < plen ->
  safe (classend pat p) (fun ep => p < ep <= plen).
Proof.
  intros Hp. unfold classend. step_with (rd_in pat). destruct (Z.eqb_spec a L_ESC).
  { step_with (rd_in pat). destruct (Z.eqb_spec a0 0); [done|]. cbn. specialize (H0 n). lia. }
  destruct (Z.eqb_spec a 91); [|cbn; lia].
  step_with (rd_in pat). set (p' := if _ : bool then p + 1 + 1 else p + 1).
  assert (p + 1 <= p' <= plen). { subst p'. destruct (Z.eqb_spec a0 94) as [->|]; [|lia]. specialize (H0 ltac:(done)). lia. }
  clearbody p'. eapply safe_mono; [apply classend_loop_safe; lia|]. cbn. lia.
Qed.

Lemma bracket_loop_safe fuel : forall c p ec sig, ec - p <= Z.of_nat fuel -> 0 < Z.of_nat fuel -> 0 <= p -> ec < plen ->
  safe (bracket_loop pat fuel c p ec sig) (fun _ => True).
Proof.
  induction fuel as [|fuel IH]; intros c p ec sig Hf H0 Hp He; [lia|]. cbn [bracket_loop].
  destruct (Z.ltb_spec (p + 1) ec); [|done]. step_with (rd_in pat). destruct (Z.eqb_spec a L_ESC).
  { step_with (rd_in pat). destruct (match_class c a0); [done|]. apply IH; lia. }
  step_with (rd_in pat). destruct ((a0 =? 45) && (p + 1 + 2 <? ec)) eqn:E.
  - apply andb_true_iff in E as [_ E%Z.ltb_lt]. step_with (rd_in pat). step_with (rd_in pat).
    destruct ((a1 <=? c) && (c <=? a2)); [done|]. apply IH; lia.
  - destruct (Z.eqb_spec a c); [done|]. apply IH; lia.
Qed.

Lemma matchbracketclass_safe c p ec : 0 <= p < plen -> ec < plen ->
  safe (matchbracketclass pat c p ec) (fun _ => True).
Proof. intros Hp He. unfold matchbracketclass. step_with (rd_in pat). destruct (Z.eqb_spec a 94); apply bracket_loop_safe; lia. Qed.

Lemma singlematch_safe c p ep : 0 <= p < plen -> ep <= plen -> safe (singlematch pat c p ep) (fun _ => True).
Proof.
  intros Hp He. unfold singlematch. step_with (rd_in pat). destruct (Z.eqb_spec a 46); [done|]. destruct (Z.eqb_spec a L_ESC).
  - by step_with (rd_in pat).
  - destruct (Z.eqb_spec a 91); [|done]. apply matchbracketclass_safe; lia.
Qed.

Lemma single_here_safe s p ep : 0 <= s <= slen -> 0 <= p < plen -> ep <= plen ->
  safe (single_here src pat s p ep) (fun m => m = true -> s < slen).
Proof.
  intros Hs Hp He. unfold single_here, src_end. destruct (Z.ltb_spec s slen); [|done].
  step_with (rd_in src). eapply safe_mono; [by apply singlematch_safe|]. by cbn.
Qed.

(** ** Balance and references *)

Lemma balance_loop_safe fuel : forall b e cont s, slen - s <= Z.of_nat fuel -> 0 < Z.of_nat fuel -> 0 <= s ->
  safe (balance_loop src fuel b e cont s) (fun r => match r with Some s' => s < s' <= slen | None => True end).
Proof.
  induction fuel as [|fuel IH]; intros b e cont s Hf H0 Hs; [lia|]. cbn [balance_loop]. unfold src_end in *.
  destruct (Z.ltb_spec (s + 1) slen); [|done]. step_with (rd_in src).
  assert (forall cont', safe (balance_loop src fuel b e cont' (s + 1)) (fun r => match r with Some s' => s < s' <= slen | None => True end)) as K.
  { intros cont'. eapply safe_mono; [apply IH; lia|]. cbn. intros [s'|]; [lia|done]. }
  destruct (Z.eqb_spec a e); [|destruct (Z.eqb_spec a b); apply K]. destruct (Z.eqb_spec (cont - 1) 0); [cbn; lia|apply K].
Qed.

Lemma matchbalance_safe s p : 0 <= s <= slen -> 0 <= p <= plen ->
  safe (matchbalance src pat s p) (fun r => p + 2 <= plen /\ match r with Some s' => s <= s' <= slen | None => True end).
Proof.
  intros Hs Hp. unfold matchbalance. step_with (rd_in pat). destruct (Z.eqb_spec a 0) as [|Ha]; [done|]. specialize (H Ha).
  step_with (rd_in pat). destruct (Z.eqb_spec a0 0) as [|Ha0]; [done|]. specialize (H0 Ha0). step_with (rd_in src).
  destruct (negb (a1 =? a)); [cbn; lia|]. eapply safe_mono; [apply balance_loop_safe; lia|]. cbn. intros [s'|]; lia.
Qed.

Lemma match_capture_safe ms s l : slen < 2 ^ 32 -> 0 <= s <= slen -> ms_ok s ms ->
  safe (match_capture src ms s l) (fun r => match r with Some s' => s <= s' <= slen | None => True end).
Proof.
  intros Hlen Hs H. unfold match_capture. step_with check_capture_safe; [done|]. destruct H0 as (Hl & c & E & [Hi Hc] & Hu). rewrite E.
  cbn [mbind res_bind]. unfold src_end. destruct Hc as [[? _]|[Hc|[Hc1 Hc2]]]; [done| |].
  - rewrite Hc. change (u64 CAP_POSITION) with (2 ^ 64 - 2). destruct (Z.leb_spec (2 ^ 64 - 2) (slen - s)); [lia|done].
  - rewrite u64_id by (widths; lia). destruct (Z.leb_spec (cap_len c) (slen - s)); [|done]. rewrite !rdmem_safe by lia.
    cbn. destruct (bool_decide _); [lia|done].
Qed.

(** ** Repetition and captures *)

Section Rec.
Context (m : MatchState -> Z -> Z -> pres (option Z * MatchState)).

(** What the operations need of the matcher at [p]. *)
Definition rec_ok (p : Z) : Prop := forall ms s, ms_ok s ms -> 0 <= s <= slen -> safe (m ms s p) (post (depth ms) ms s).

Lemma max_count_safe fuel : forall s p ep i, 0 <= s + i <= slen -> 0 <= p < plen -> ep <= plen -> slen - (s + i) < Z.of_nat fuel ->
  safe (max_count src pat fuel s p ep i) (fun i' => i <= i' /\ s + i' <= slen).
Proof.
  induction fuel as [|fuel IH]; intros s p ep i Hi Hp He Hf; [lia|]. cbn [max_count].
  step_with single_here_safe. destruct a; [|cbn; lia]. specialize (H eq_refl).
  eapply safe_mono; [apply IH; lia|]. cbn. lia.
Qed.

Lemma max_try_safe ms s ep n : rec_ok (ep + 1) -> ms_ok s ms -> 0 <= s -> s + Z.of_nat n - 1 <= slen ->
  safe (max_try m ms s ep n) (post (depth ms) ms s).
Proof.
  intros R. revert ms. induction n as [|n IH]; intros ms H Hs Hn.
  { cbn. split; [done|]. apply ms_same_refl. }
  cbn [max_try]. eapply safe_bind; [apply (R ms (s + Z.of_nat n)); [|lia]; eapply ms_ok_mono; [done|lia]|].
  intros [[e|] ms'] [D P]; cbn in D, P.
  - eapply post_weaken; [split; [done|exact P]|apply ms_same_refl|lia].
  - eapply safe_mono; [apply IH; [by eapply ms_same_ok|lia..]|]. rewrite D. intros r Hr. eapply post_weaken; [done..|lia].
Qed.

Lemma max_expand_safe ms s p ep : rec_ok (ep + 1) -> ms_ok s ms -> 0 <= s <= slen -> 0 <= p < plen -> ep <= plen ->
  safe (max_expand src pat m ms s p ep) (post (depth ms) ms s).
Proof. intros R H Hs Hp He. unfold max_expand. step_with max_count_safe. apply max_try_safe; [done..|lia|lia]. Qed.

Lemma min_expand_safe fuel : forall ms s p ep, rec_ok (ep + 1) -> ms_ok s ms -> 0 <= s <= slen -> 0 <= p < plen -> ep <= plen ->
  slen - s < Z.of_nat fuel -> safe (min_expand_loop src pat m fuel ms s p ep) (post (depth ms) ms s).
Proof.
  induction fuel as [|fuel IH]; intros ms s p ep R H Hs Hp He Hf; [lia|]. cbn [min_expand_loop].
  eapply safe_bind; [by apply R|]. intros [[e|] ms'] [D P]; cbn in D, P; [done|].
  step_with single_here_safe. destruct a.
  - specialize (H0 eq_refl). eapply safe_mono; [apply IH; try done; try lia; eapply ms_ok_mono; [by eapply ms_same_ok|lia]|].
    rewrite D. intros r Hr. eapply post_weaken; [done..|lia].
  - by split.
Qed.

Lemma push_ok ms s what : ms_ok s ms -> 0 <= s <= slen -> what = CAP_UNFINISHED \/ what = CAP_POSITION -> level ms < LUA_MAXCAPTURES ->
  ms_ok s (set_level (set_capture ms (level ms) (mkCap s what)) (level ms + 1)).
Proof.
  intros [Hn Hl Hc] Hs Hw Hlt. split; cbn; [by rewrite length_insert|lia|]. intros l Hll. destruct (Z.eq_dec l (level ms)) as [->|].
  - rewrite list_lookup_insert_eq by lia. exists (mkCap s what). split; [done|]. split; cbn; [lia|]. destruct Hw as [-> | ->]; [by left|auto].
  - rewrite list_lookup_insert_ne by lia. apply Hc. lia.
Qed.

Lemma close_ok ms s l c : ms_ok s ms -> 0 <= s <= slen -> 0 <= l < level ms -> capture ms !! Z.to_nat l = Some c -> is_open c = true ->
  ms_ok s (set_capture ms l (mkCap (cap_init c) (s - cap_init c))).
Proof.
  intros [Hn Hl Hc] Hs Hll E Eu%Z.eqb_eq. split; cbn; [by rewrite length_insert|done|]. intros k Hk. destruct (Z.eq_dec k l) as [->|].
  - rewrite list_lookup_insert_eq by lia. eexists. split; [done|]. destruct (Hc l Hll) as (c' & E' & [Hi Hu]). rewrite E in E'. injection E' as <-.
    split; cbn; [lia|]. right. right. unfold CAP_UNFINISHED, CAP_POSITION in *. lia.
  - rewrite list_lookup_insert_ne by lia. by apply Hc.
Qed.

Lemma start_capture_safe ms s p what : rec_ok p -> ms_ok s ms -> 0 <= s <= slen -> what = CAP_UNFINISHED \/ what = CAP_POSITION ->
  safe (start_capture m ms s p what) (post (depth ms) ms s).
Proof.
  intros R H Hs Hw. pose proof H as [Hn Hl Hc]. unfold start_capture. destruct (Z.leb_spec LUA_MAXCAPTURES (level ms)); [done|].
  set (ms1 := set_level _ _). assert (ms_ok s ms1) as H1 by by apply push_ok.
  assert (forall l, 0 <= l < level ms -> capture ms1 !! Z.to_nat l = capture ms !! Z.to_nat l) as E.
  { intros l Hlt. cbn. apply list_lookup_insert_ne. lia. }
  eapply safe_bind; [by apply R|]. intros [[e|] ms'] [D P]; cbn in D, P.
  - destruct P as (Pe & Po & Pl & Pg). cbn. split; [done|]. split_and!; [lia|lia|done|]. change (level ms1) with (level ms + 1) in Pl, Pg. cbn [fst snd]. split; [lia|].
    intros l c Hlt Ec. apply Pg; [lia|]. by rewrite E.
  - destruct P as (Pl & Pn & Pc). cbn. split; [done|]. cbn. change (level ms1) with (level ms + 1) in Pl, Pc. split_and!; [cbn; lia|cbn; rewrite Pn; apply length_insert|].
    intros l Hlt. cbn. rewrite Pc by lia. apply E. lia.
Qed.

Lemma end_capture_safe ms s p : rec_ok p -> ms_ok s ms -> 0 <= s <= slen ->
  safe (end_capture m ms s p) (post (depth ms) ms s).
Proof.
  intros R H Hs. pose proof H as [Hn Hl Hc]. unfold end_capture, capture_to_close.
  step_with capture_to_close_loop_safe; [done|]. destruct H0 as (Ha & c & E & El & [Hi Hk] & Eu). rewrite E. cbn [mbind res_bind].
  assert (cap_init c <= s) as Hcs. { rewrite Eu in Hk. unfold CAP_UNFINISHED, CAP_POSITION in Hk. lia. }
  set (ms1 := set_capture _ _ _).
  assert (length (capture ms1) = length (capture ms)) as E1 by apply length_insert.
  assert (capture ms1 !! Z.to_nat a = Some (mkCap (cap_init c) (s - cap_init c))) as Ea by (apply list_lookup_insert_eq; lia).
  assert (forall l, 0 <= l -> l <> a -> capture ms1 !! Z.to_nat l = capture ms !! Z.to_nat l) as Eb by (intros; apply list_lookup_insert_ne; lia).
  assert (ms_ok s ms1) as H1 by (apply close_ok; [done..|by apply Z.eqb_eq]).
  eapply safe_bind; [by apply R|]. intros [[e|] ms'] [D P]; cbn [fst snd] in D, P.
  - destruct P as (Pe & Po & Pl & Pg). cbn. split; [done|]. split_and!; [lia|lia|done|]. split; [done|].
    intros l c0 Hlt Ec. destruct (Z.eq_dec l a) as [->|].
    + destruct (Pg a _ Hlt Ea) as (c' & Ec' & I' & L').
      rewrite El in Ec. injection Ec as <-. exists c'. split; [done|]. split; [done|]. right. split; [done|]. cbn in L'. unfold CAP_UNFINISHED in L'. lia.
    + apply Pg; [done|]. by rewrite Eb by lia.
  - destruct P as (Pl & Pn & Pc). unfold get_capture. destruct (Z.ltb_spec a 0); [lia|].
    rewrite Pc, Ea by done. cbn. split; [done|]. split_and!; [done|cbn; rewrite length_insert; congruence|].
    intros l Hlt. cbn. destruct (Z.eq_dec l a) as [->|].
    + rewrite list_lookup_insert_eq by lia. rewrite El. f_equal. rewrite <- Eu. by destruct c.
    + rewrite list_lookup_insert_ne, Pc by first [exact Hlt|lia]. apply Eb; lia.
Qed.
End Rec.

(** ** The matcher *)

Section Body.
Context (go : MatchState -> Z -> Z -> pres (option Z * MatchState)).

(** Jumps to places behind [p] are safe. *)
Context (p : Z) (Hp : 0 <= p <= plen) (Hlen : slen < 2 ^ 32).
Hypothesis Hgo : forall ms s q, p < q <= plen -> ms_ok s ms -> 0 <= s <= slen -> safe (go ms s q) (post (depth ms - 1) ms s).

Lemma call_match_safe q : p < q <= plen -> rec_ok (call_match go) q.
Proof.
  intros Hq ms s H Hs. unfold call_match. destruct (_ <? _); [done|]. eapply safe_mono; [apply Hgo; [done|by apply set_depth_ok|done]|].
  intros r Hr. cbn in Hr. replace (depth ms + 1 - 1) with (depth ms) in Hr by lia. exact Hr.
Qed.

Lemma leave_none ms s : safe (leave (None, ms)) (post (depth ms - 1) ms s).
Proof. eapply leave_safe. by split. Qed.

Lemma leave_after (m : pres (option Z * MatchState)) ms s : safe m (post (depth ms) ms s) ->
  safe (r ← m; leave r) (post (depth ms - 1) ms s).
Proof. intros H. eapply safe_bind; [exact H|]. intros r. apply leave_safe. Qed.

Lemma go_on ms s s' q : ms_ok s ms -> s <= s' <= slen -> 0 <= s -> p < q <= plen -> safe (go ms s' q) (post (depth ms - 1) ms s).
Proof.
  intros H Hs H0 Hq. eapply safe_mono; [apply Hgo; [done| |lia]; eapply ms_ok_mono; [done|lia]|].
  intros r Hr. eapply post_weaken; [done|apply ms_same_refl|lia].
Qed.

Lemma match_dflt_safe ms s : ms_ok s ms -> 0 <= s <= slen -> p < plen ->
  safe (match_dflt src pat go ms s p) (post (depth ms - 1) ms s).
Proof using Hp Hlen Hgo.
  intros H Hs Hlt. unfold match_dflt. step_with classend_safe. rename a into ep.
  step_with single_here_safe. step_with (rd_in pat). rename a into m, a0 into q.
  assert (q <> 0 -> rec_ok (call_match go) (ep + 1)) as R. { intros Hq. apply call_match_safe. lia. }
  destruct (Z.eqb_spec q 63).
  { eapply (safe_bind _ _ (post (depth ms) ms s)).
    - destruct m; [specialize (H1 eq_refl)|by split]. eapply safe_mono; [apply R; [lia|eapply ms_ok_mono; [done|lia]|lia]|].
      intros r Hr. eapply post_weaken; [done|apply ms_same_refl|lia].
    - intros [[e'|] ms'] P; [by eapply leave_safe|]. destruct P as [D P]. cbn in D, P. rewrite <- D.
      eapply safe_mono; [apply (go_on ms' s s); [by eapply ms_same_ok|lia..]|]. intros r Hr. eapply post_weaken; [done|done|lia]. }
  destruct (Z.eqb_spec q 42).
  { apply leave_after, max_expand_safe; try done; lia || (apply R; lia). }
  destruct (Z.eqb_spec q 43).
  { apply leave_after. destruct m; [|by split]. specialize (H1 eq_refl).
    eapply safe_mono; [apply max_expand_safe; try lia; [apply R; lia|eapply ms_ok_mono; [done|lia]]|].
    intros r Hr. eapply post_weaken; [done|apply ms_same_refl|lia]. }
  destruct (Z.eqb_spec q 45).
  { apply leave_after. unfold min_expand. apply min_expand_safe; try done; lia || (apply R; lia). }
  destruct m; [|apply leave_none]. apply go_on; [done|lia..].
Qed.

Lemma match_frontier_safe ms s : ms_ok s ms -> 0 <= s <= slen -> p + 2 <= plen ->
  safe (match_frontier src pat go ms s (p + 2)) (post (depth ms - 1) ms s).
Proof using Hp Hlen Hgo.
  intros H Hs Hlt. unfold match_frontier. step_with (rd_in pat). destruct (Z.eqb_spec a 91) as [->|]; [|done]. cbn [negb].
  specialize (H0 ltac:(done)). step_with classend_safe. rename a into ep. unfold src_init.
  eapply (safe_bind _ _ (fun _ => True)); [destruct (Z.eqb_spec s 0); [done|by eapply safe_mono; [apply rd_in; lia|]]|]. intros c _.
  step_with matchbracketclass_safe. destruct a; [apply leave_none|]. step_with (rd_in src).
  step_with matchbracketclass_safe. destruct a0; [|apply leave_none]. apply go_on; [done|lia..].
Qed.

Lemma match_body_safe ms s : ms_ok s ms -> 0 <= s <= slen -> safe (match_body src pat go ms s p) (post (depth ms - 1) ms s).
Proof using Hp Hlen Hgo.
  intros H Hs. unfold match_body. step_with (rd_in pat). rename a into c. destruct (Z.eqb_spec c 40) as [->|].
  { specialize (H0 ltac:(done)). step_with (rd_in pat). apply leave_after. destruct (Z.eqb_spec a 41) as [->|].
    - apply start_capture_safe; auto. apply call_match_safe. specialize (H1 ltac:(done)). lia.
    - apply start_capture_safe; auto. apply call_match_safe. lia. }
  destruct (Z.eqb_spec c 41) as [->|].
  { specialize (H0 ltac:(done)). apply leave_after, end_capture_safe; auto. apply call_match_safe. lia. }
  destruct (Z.eqb_spec c L_ESC) as [->|].
  { specialize (H0 ltac:(done)). step_with (rd_in pat). destruct (Z.eqb_spec a 98) as [->|].
    { specialize (H1 ltac:(done)). step_with matchbalance_safe. destruct H2 as [K1 K2]. destruct a as [s'|]; [|apply leave_none]. apply go_on; [done|lia..]. }
    destruct (Z.eqb_spec a 102) as [->|]. { specialize (H1 ltac:(done)). apply match_frontier_safe; [done..|lia]. }
    destruct (nz (lj_char_isdigit a)) eqn:Hd; [|apply match_dflt_safe; [done..|lia]].
    assert (p + 1 < plen). { apply H1. intros ->. by vm_compute in Hd. }
    step_with match_capture_safe; [done|]. destruct a0 as [s'|]; [|apply leave_none]. apply go_on; [done|lia..]. }
  destruct (Z.eqb_spec c 0) as [->|].
  { eapply leave_safe. split; [done|]. cbn. split_and!; [lia..|done|apply ms_grow_refl]. }
  specialize (H0 n2). destruct (Z.eqb_spec c 36); [|apply match_dflt_safe; [done..|lia]].
  step_with (rd_in pat). destruct (negb (a =? 0)); [apply match_dflt_safe; [done..|lia]|].
  destruct (s =? src_end src); [|apply leave_none]. eapply leave_safe. split; [done|]. cbn. split_and!; [lia..|done|apply ms_grow_refl].
Qed.
End Body.

Lemma match_init_safe fuel : slen < 2 ^ 32 -> forall ms s p, plen - p < Z.of_nat fuel -> 0 <= p <= plen -> ms_ok s ms -> 0 <= s <= slen ->
  safe (match_init src pat fuel ms s p) (post (depth ms - 1) ms s).
Proof.
  intros Hlen. induction fuel as [|fuel IH]; intros ms s p Hf Hp H Hs; [lia|]. cbn [match_init].
  apply match_body_safe; try done. intros ms' s' q Hq H' Hs'. apply IH; try done; lia.
Qed.

Lemma match_safe ms s p : slen < 2 ^ 32 -> 0 <= p <= plen -> ms_ok s ms -> 0 <= s <= slen ->
  safe (match_ src pat ms s p) (post (depth ms) ms s).
Proof.
  intros Hlen Hp H Hs. unfold match_, call_match. destruct (_ <? _); [done|].
  eapply safe_mono; [apply match_init_safe; try done; lia || by apply set_depth_ok|].
  intros r Hr. cbn in Hr. replace (depth ms + 1 - 1) with (depth ms) in Hr by lia. exact Hr.
Qed.
End Safe.
