(* ===== verification/PattSem.v ===== *)
(** * Pattern matching: what patterns mean

    A pattern is parsed into a list of items, and a list of items means, at a
    place of the subject and with the captures made so far, the list of all
    ways to match it, in the order in which the language prefers them.  Nothing
    here refers to the matcher: there are no pointers into the pattern, no
    state that is undone and no limit on the depth. *)

From S2P Require Import Prelude Machine Chars Strs Num Buf Strfmt Patt.

(** ** Patterns *)

Inductive SetItem := SI_class (cl : Z) | SI_range (lo hi : Z) | SI_char (c : Z).
Inductive Single := SAny | SChar (c : Z) | SClass (cl : Z) | SSet (neg : bool) (l : list SetItem).
Inductive Quant := QOne | QOpt | QStar | QPlus | QMin.
Inductive Item :=
| IOpen | IPos | IClose | IBalance (b e : Z) | IFrontier (neg : bool) (l : list SetItem)
| IBack (l : Z) | IEnd | ISingle (x : Single) (q : Quant).

(** The classes that letters stand for, in the C locale. *)
Definition letter_class (l : Z) : option (Z -> bool) :=
  if l =? 97 then Some c_isalpha else if l =? 99 then Some c_iscntrl else if l =? 100 then Some c_isdigit
  else if l =? 103 then Some c_isgraph else if l =? 108 then Some c_islower else if l =? 112 then Some c_ispunct
  else if l =? 115 then Some c_isspace else if l =? 117 then Some c_isupper else if l =? 119 then Some c_isalnum
  else if l =? 120 then Some c_isxdigit else if l =? 122 then Some (fun c => c =? 0) else None.

(** A lower-case letter is its class, an upper-case letter the complement;
    every other character stands for itself. *)
Definition class_in (cl c : Z) : bool :=
  match (if c_islower cl then letter_class cl else None), (if c_isupper cl then letter_class (cl + 32) else None) with
  | Some f, _ => f c
  | _, Some f => negb (f c)
  | None, None => cl =? c
  end.

Definition set_item_in (c : Z) (it : SetItem) : bool :=
  match it with
  | SI_class cl => class_in cl c
  | SI_range lo hi => (lo <=? c) && (c <=? hi)
  | SI_char d => d =? c
  end.

Definition set_in (neg : bool) (l : list SetItem) (c : Z) : bool := xorb neg (existsb (set_item_in c) l).

Definition single_in (x : Single) (c : Z) : bool :=
  match x with
  | SAny => true
  | SChar d => d =? c
  | SClass cl => class_in cl c
  | SSet neg l => set_in neg l c
  end.

(** ** Parsing *)

(** The items of a set up to its closing bracket, which is an item itself in
    the first place.  What a range with [%] as its end means is not defined. *)
Fixpoint set_items (first : bool) (t : list Z) : option (list SetItem * list Z) :=
  match t with
  | [] => None
  | c :: t1 =>
      if c =? 0 then None
      else if (c =? 93) && negb first then Some ([], t1)
      else if c =? 37 then
        match t1 with
        | d :: t2 =>
            if d =? 0 then None
            else match set_items false t2 with Some (l, t') => Some (SI_class d :: l, t') | None => None end
        | [] => None
        end
      else
        let plain := match set_items false t1 with Some (l, t') => Some (SI_char c :: l, t') | None => None end in
        match t1 with
        | d :: hi :: t3 =>
            if (d =? 45) && negb (hi =? 93) then
              if (hi =? 0) || (hi =? 37) then None
              else match set_items false t3 with Some (l, t') => Some (SI_range c hi :: l, t') | None => None end
            else plain
        | _ => plain
        end
  end.

(** A set, behind its opening bracket. *)
Definition parse_set (t : list Z) : option (bool * list SetItem * list Z) :=
  match t with
  | c :: t1 =>
      if c =? 94 then match set_items true t1 with Some (l, t') => Some (true, l, t') | None => None end
      else match set_items true t with Some (l, t') => Some (false, l, t') | None => None end
  | [] => None
  end.

Definition parse_single (t : list Z) : option (Single * list Z) :=
  match t with
  | [] => None
  | c :: t1 =>
      if c =? 37 then
        match t1 with d :: t2 => if d =? 0 then None else Some (SClass d, t2) | [] => None end
      else if c =? 91 then match parse_set t1 with Some (neg, l, t') => Some (SSet neg l, t') | None => None end
      else if c =? 46 then Some (SAny, t1)
      else Some (SChar c, t1)
  end.

(** The suffix of an item. *)
Definition parse_quant (t : list Z) : Quant * list Z :=
  match t with
  | c :: t1 =>
      if c =? 63 then (QOpt, t1) else if c =? 42 then (QStar, t1) else if c =? 43 then (QPlus, t1)
      else if c =? 45 then (QMin, t1) else (QOne, t)
  | [] => (QOne, [])
  end.

(** The end of the text: a NUL ends a pattern. *)
Definition at_end (t : list Z) : bool := match t with c :: _ => c =? 0 | [] => true end.

(** One item. *)
Definition parse_item (t : list Z) : option (Item * list Z) :=
  let single :=
    match parse_single t with
    | Some (x, t1) => let '(q, t2) := parse_quant t1 in Some (ISingle x q, t2)
    | None => None
    end in
  match t with
  | [] => None
  | c :: t1 =>
      if c =? 40 then
        match t1 with d :: t2 => if d =? 41 then Some (IPos, t2) else Some (IOpen, t1) | [] => Some (IOpen, t1) end
      else if c =? 41 then Some (IClose, t1)
      else if c =? 37 then
        match t1 with
        | d :: t2 =>
            if d =? 98 then
              match t2 with
              | b :: e :: t3 => if (b =? 0) || (e =? 0) then None else Some (IBalance b e, t3)
              | _ => None
              end
            else if d =? 102 then
              match t2 with
              | o :: t3 =>
                  if o =? 91 then match parse_set t3 with Some (neg, l, t') => Some (IFrontier neg l, t') | None => None end
                  else None
              | [] => None
              end
            else if c_isdigit d then Some (IBack (d - 49), t2)
            else single
        | [] => None
        end
      else if (c =? 36) && at_end t1 then Some (IEnd, t1)
      else single
  end.

Fixpoint parse (fuel : nat) (t : list Z) : option (list Item) :=
  match fuel with
  | O => None
  | S fuel =>
      if at_end t then Some []
      else match parse_item t with
      | Some (it, t') => cons it <$> parse fuel t'
      | None => None
      end
  end.

Definition parse_pattern (t : list Z) : option (list Item) := parse (S (length t)) t.

(** ** Captures *)

Fixpoint last_index {A} (P : A -> bool) (l : list A) : option nat :=
  match l with
  | [] => None
  | a :: l => match last_index P l with Some i => Some (S i) | None => if P a then Some O else None end
  end.

(** ** Matches *)

Section Sem.
Context (src : list Z).
Abbreviation slen := (Z.of_nat (length src)).

(** How many of the characters at the start of [l] are in [P]. *)
Fixpoint run_len (P : Z -> bool) (l : list Z) : nat :=
  match l with c :: l => if P c then S (run_len P l) else O | [] => O end.

Definition run (x : Single) (s : Z) : nat := run_len (single_in x) (drop (Z.to_nat s) src).

(** The numbers of repetitions to try, if at most [n] are possible. *)
Definition counts (q : Quant) (n : nat) : list nat :=
  match q with
  | QOne => if n is O then [] else [1%nat]
  | QOpt => if n is O then [0%nat] else [1%nat; 0%nat]
  | QStar => rev (seq 0 (S n))
  | QPlus => rev (seq 1 n)
  | QMin => seq 0 (S n)
  end.

(** [%b]: each [e] closes one [b]. *)
Definition weight (b e c : Z) : Z := if c =? e then -1 else if c =? b then 1 else 0.
Definition nesting (b e : Z) (l : list Z) : Z := foldr (fun c n => weight b e c + n) 0 l.

(** The end of the shortest balanced text at [s]. *)
Definition balance_end (b e s : Z) : option Z :=
  if (s <? slen) && (byte_at src s =? b) then
    (fun k => s + 1 + Z.of_nat k) <$>
      find (fun k => nesting b e (slice src (s + 1) (Z.of_nat k)) =? -1) (seq 1 (length src - Z.to_nat s - 1))
  else None.

(** The character before [s], and the one at [s]; both NUL outside. *)
Definition prev_char (s : Z) : Z := if s =? 0 then 0 else byte_at src (s - 1).

(** The text of a capture, if it occurs at [s]. *)
Definition back_end (c : Capture) (s : Z) : option Z :=
  if (0 <=? cap_len c) && (s + cap_len c <=? slen) &&
     bool_decide (slice src s (cap_len c) = slice src (cap_init c) (cap_len c))
  then Some (s + cap_len c) else None.

(** All matches of the items at [s], best first: where they end, and the
    captures. *)
Fixpoint sem (l : list Item) (s : Z) (caps : list Capture) : list (Z * list Capture) :=
  match l with
  | [] => [(s, caps)]
  | IOpen :: l => sem l s (caps ++ [mkCap s CAP_UNFINISHED])
  | IPos :: l => sem l s (caps ++ [mkCap s CAP_POSITION])
  | IClose :: l =>
      match last_index is_open caps with
      | Some i =>
          match caps !! i with
          | Some c => sem l s (<[i := mkCap (cap_init c) (s - cap_init c)]> caps)
          | None => []
          end
      | None => []
      end
  | IBalance b e :: l => match balance_end b e s with Some s' => sem l s' caps | None => [] end
  | IFrontier neg st :: l =>
      if negb (set_in neg st (prev_char s)) && set_in neg st (byte_at src s) then sem l s caps else []
  | IBack i :: l =>
      match caps !! Z.to_nat i with
      | Some c => match back_end c s with Some s' => sem l s' caps | None => [] end
      | None => []
      end
  | IEnd :: l => if s =? slen then sem l s caps else []
  | ISingle x q :: l => flat_map (fun k => sem l (s + Z.of_nat k) caps) (counts q (run x s))
  end.
End Sem.

(** ** Well-formed patterns *)

(** [open] says which of the captures made so far are open. *)
Fixpoint well_formed (open : list bool) (l : list Item) : bool :=
  match l with
  | [] => true
  | IOpen :: l => (Z.of_nat (length open) <? LUA_MAXCAPTURES) && well_formed (open ++ [true]) l
  | IPos :: l => (Z.of_nat (length open) <? LUA_MAXCAPTURES) && well_formed (open ++ [false]) l
  | IClose :: l =>
      match last_index id open with Some i => well_formed (<[i := false]> open) l | None => false end
  | IBack i :: l =>
      (0 <=? i) && match open !! Z.to_nat i with Some false => true | _ => false end && well_formed open l
  | _ :: l => well_formed open l
  end.

(** The items for which the matcher calls itself. *)
Definition calls_itself (it : Item) : bool :=
  match it with IOpen | IPos | IClose => true | ISingle _ QOne => false | ISingle _ _ => true | _ => false end.

Definition nested_calls (l : list Item) : Z := foldr (fun it n => (if calls_itself it then 1 else 0) + n) 0 l.
