(* ===== verification/PattMatch.v ===== *)
(** * Pattern matching: the matcher finds the best match

    The matcher, started at a parsed pattern, gives the first of the matches
    of [PattSem]: for character classes, items, the operations of the matcher,
    and the whole pattern. *)

From S2P Require Import Prelude Machine Chars Strs Num Buf Strfmt Patt PattSafe PattSem.

(** ** Classes *)

Lemma match_class_spec cl c : is_u8 cl -> is_u8 c -> match_class c cl = class_in cl c.
Proof.
  intros Hcl Hc. apply eqb_prop.
  pose (P := fun cl => forallb (fun n => eqb (match_class (Z.of_nat n) cl) (class_in cl (Z.of_nat n))) (seq 0 256)).
  assert (P cl = true) as H. { apply (forall_chars P); [by vm_compute|]. widths. lia. }
  unfold P in H. rewrite forallb_forall in H. specialize (H (Z.to_nat c)). widths. rewrite Z2Nat.id in H by lia.
  apply H, in_seq. lia.
Qed.

(** ** Places in the pattern *)

Section Text.
Context (pat : list Z).
Abbreviation plen := (Z.of_nat (length pat)).

(** The rest of the pattern at [p] is [t]. *)
Definition text_at (p : Z) (t : list Z) : Prop := 0 <= p <= plen /\ drop (Z.to_nat p) pat = t.

Lemma text_len p t : text_at p t -> p + Z.of_nat (length t) = plen.
Proof. intros [H <-]. rewrite length_drop. lia. Qed.

Lemma text_nil p : text_at p [] -> rd pat p = Ok 0.
Proof. intros H. pose proof (text_len _ _ H). destruct H. unfold rd. destruct (Z.ltb_spec p 0); [lia|]. cbn in *. by rewrite (proj2 (Z.eqb_eq _ _)) by lia. Qed.

Lemma text_cons p c t : text_at p (c :: t) -> rd pat p = Ok c /\ text_at (p + 1) t.
Proof.
  intros H. pose proof (text_len _ _ H) as L. destruct H as [Hp E]. cbn in L.
  assert (pat !! Z.to_nat p = Some c) as El.
  { rewrite <- (Nat.add_0_r (Z.to_nat p)), <- lookup_drop, E. done. }
  split.
  - unfold rd. destruct (Z.ltb_spec p 0); [lia|]. destruct (Z.eqb_spec p plen); [lia|]. by rewrite El.
  - split; [lia|]. replace (Z.to_nat (p + 1)) with (Z.to_nat p + 1)%nat by lia. by rewrite <- drop_drop, E.
Qed.

Lemma text_u8 p t : bytes pat -> text_at p t -> bytes t.
Proof. intros Hb [_ <-]. by apply Forall_drop. Qed.

(** The byte behind [p]. *)
Definition peek (t : list Z) : Z := match t with c :: _ => c | [] => 0 end.

Lemma text_peek p t : text_at p t -> rd pat p = Ok (peek t).
Proof. destruct t; intros H; [by apply text_nil|]. by apply text_cons in H as [-> _]. Qed.

Lemma bytes_cons c t : bytes (c :: t) -> is_u8 c /\ bytes t.
Proof. intros H. by inversion H. Qed.

(** ** Sets *)

Lemma set_items_head c t : c <> 93 -> set_items true (c :: t) = set_items false (c :: t).
Proof. intros H. cbn. by rewrite (proj2 (Z.eqb_neq _ _) H). Qed.

Lemma set_items_ind (P : bool -> list Z -> list SetItem -> list Z -> Prop) :
  (forall t, P false (93 :: t) [] t) ->
  (forall first d t l t', d <> 0 -> set_items false t = Some (l, t') -> P false t l t' ->
     P first (37 :: d :: t) (SI_class d :: l) t') ->
  (forall first c hi t l t', c <> 0 -> c <> 37 -> (first = false -> c <> 93) -> hi <> 0 -> hi <> 37 -> hi <> 93 ->
     set_items false t = Some (l, t') -> P false t l t' -> P first (c :: 45 :: hi :: t) (SI_range c hi :: l) t') ->
  (forall first c t l t', c <> 0 -> c <> 37 -> (first = false -> c <> 93) -> (peek t = 45 -> peek (tail t) = 93) ->
     set_items false t = Some (l, t') -> P false t l t' -> P first (c :: t) (SI_char c :: l) t') ->
  forall t first l t', set_items first t = Some (l, t') -> P first t l t'.
Proof.
  intros Hend Hesc Hrange Hchar t. induction t as [t IH] using (induction_ltof1 _ (@length Z)). unfold ltof in IH.
  intros first l t'. destruct t as [|c t1]; [done|]. cbn [set_items].
  destruct (Z.eqb_spec c 0); [done|]. destruct ((c =? 93) && negb first) eqn:Hf.
  { apply andb_true_iff in Hf as [->%Z.eqb_eq Hf]. destruct first; [done|]. intros [= <- <-]. apply Hend. }
  assert (first = false -> c <> 93) as Hc. { intros -> ->. done. }
  destruct (Z.eqb_spec c 37) as [->|H37].
  { destruct t1 as [|d t2]; [done|]. destruct (Z.eqb_spec d 0); [done|]. destruct (set_items false t2) as [[l' t'']|] eqn:E; [|done].
    intros [= <- <-]. apply Hesc; [done..|]. apply IH; [cbn; lia|done]. }
  assert ((peek t1 = 45 -> peek (tail t1) = 93) -> match set_items false t1 with Some (l, t') => Some (SI_char c :: l, t') | None => None end = Some (l, t') ->
    P first (c :: t1) l t') as Hplain.
  { intros Hp. destruct (set_items false t1) as [[l' t'']|] eqn:E; [|done]. intros [= <- <-]. apply Hchar; try done. apply IH; [cbn; lia|done]. }
  destruct t1 as [|d [|hi t3]]; [done| |].
  { destruct (Z.eqb_spec d 45) as [->|]; [done|]. apply Hplain. cbn. lia. }
  destruct (Z.eqb_spec d 45) as [->|]; cbn [andb]; [|apply Hplain; cbn; lia].
  destruct (Z.eqb_spec hi 93) as [->|]; cbn [negb]; [by apply Hplain|].
  destruct (Z.eqb_spec hi 0); [done|]. destruct (Z.eqb_spec hi 37); [done|]. cbn [orb].
  destruct (set_items false t3) as [[l' t'']|] eqn:E; [|done]. intros [= <- <-]. apply Hrange; try done. apply IH; [cbn; lia|done].
Qed.

Lemma set_items_len t first l t' : set_items first t = Some (l, t') -> (length t' < length t)%nat.
Proof. revert t first l t'. apply (set_items_ind (fun _ t _ t' => (length t' < length t)%nat)); cbn; intros; lia. Qed.

(** The search from behind an item of the set, where it may have ended. *)
Definition classend_next (f : nat) (p : Z) : pres Z :=
  e ← rd pat p; if e =? 93 then Ok (p + 1) else classend_loop pat f p.

Lemma classend_unroll f p c t : text_at p (c :: t) -> c <> 0 ->
  classend_loop pat (S f) p =
    if (c =? 37) && negb (peek t =? 0) then classend_next f (p + 2) else classend_next f (p + 1).
Proof.
  intros H H0. apply text_cons in H as [E H]. cbn [classend_loop]. rewrite E. cbn [mbind res_bind].
  rewrite (proj2 (Z.eqb_neq c 0)), (text_peek _ _ H) by done. cbn [mbind res_bind]. unfold L_ESC.
  replace (p + 1 + 1) with (p + 2) by lia. by destruct ((c =? 37) && _).
Qed.

Lemma classend_char f p c t : text_at p (c :: t) -> c <> 0 -> c <> 37 -> peek t <> 93 -> classend_loop pat (S f) p = classend_loop pat f (p + 1).
Proof.
  intros H H0 H37 Hd. rewrite (classend_unroll _ _ _ _ H H0), (proj2 (Z.eqb_neq _ _) H37). unfold classend_next.
  apply text_cons in H as [_ H]. rewrite (text_peek _ _ H). cbn. by rewrite (proj2 (Z.eqb_neq _ _) Hd).
Qed.

Lemma classend_loop_spec t first l t' : set_items first t = Some (l, t') ->
  forall f p, text_at p t -> plen - p < Z.of_nat f ->
    (if first then classend_loop pat f p else classend_next f p) = Ok (plen - Z.of_nat (length t')).
Proof.
  revert t first l t'.
  apply (set_items_ind (fun first t _ t' => forall f p, text_at p t -> plen - p < Z.of_nat f ->
    (if first then classend_loop pat f p else classend_next f p) = Ok (plen - Z.of_nat (length t')))).
  - intros t f p H Hf. pose proof (text_len _ _ H). apply text_cons in H as [E _]. unfold classend_next. rewrite E. cbn in *. f_equal. lia.
  - intros first d t l t' Hd _ IH f p H Hf.
    assert (classend_loop pat f p = Ok (plen - Z.of_nat (length t'))) as K.
    { pose proof (text_len _ _ H) as L. cbn in L. destruct f as [|f]; [lia|]. rewrite (classend_unroll _ _ _ _ H) by done. cbn.
      rewrite (proj2 (Z.eqb_neq d 0)) by done. cbn. replace (p + 2) with (p + 1 + 1) by lia.
      apply text_cons in H as [_ H]. apply text_cons in H as [_ H]. apply IH; [done|lia]. }
    destruct first; [done|]. unfold classend_next. apply text_cons in H as [E _]. rewrite E. exact K.
  - intros first c hi t l t' H0 H37 Hc Hhi Hhi37 Hhi93 _ IH f p H Hf.
    assert (classend_loop pat f p = Ok (plen - Z.of_nat (length t'))) as K.
    { pose proof (text_len _ _ H) as L. cbn in L. destruct f as [|[|[|f]]]; [lia..|]. rewrite (classend_char _ _ _ _ H) by done.
      apply text_cons in H as [_ H]. rewrite (classend_char _ _ _ _ H) by done. apply text_cons in H as [_ H].
      rewrite (classend_unroll _ _ _ _ H) by done. rewrite (proj2 (Z.eqb_neq hi 37)) by done. cbn [andb].
      apply text_cons in H as [_ H]. apply IH; [done|lia]. }
    destruct first; [done|]. unfold classend_next. apply text_cons in H as [E _]. rewrite E. cbn. rewrite (proj2 (Z.eqb_neq c 93)) by auto. exact K.
  - intros first c t l t' H0 H37 Hc _ _ IH f p H Hf.
    assert (classend_loop pat f p = Ok (plen - Z.of_nat (length t'))) as K.
    { pose proof (text_len _ _ H) as L. cbn in L. destruct f as [|f]; [lia|]. rewrite (classend_unroll _ _ _ _ H) by done.
      rewrite (proj2 (Z.eqb_neq c 37)) by done. cbn [andb]. apply text_cons in H as [_ H]. apply IH; [done|lia]. }
    destruct first; [done|]. unfold classend_next. apply text_cons in H as [E _]. rewrite E. cbn. rewrite (proj2 (Z.eqb_neq c 93)) by auto. exact K.
Qed.

Lemma bracket_loop_spec t first l t' : set_items first t = Some (l, t') -> bytes t ->
  forall f c p sig, is_u8 c -> text_at (p + 1) t -> plen - p < Z.of_nat f ->
    bracket_loop pat f c p (plen - Z.of_nat (length t') - 1) sig = Ok (if existsb (set_item_in c) l then sig else negb sig).
Proof.
  revert t first l t'.
  apply (set_items_ind (fun first t l t' => bytes t -> forall f c p sig, is_u8 c -> text_at (p + 1) t -> plen - p < Z.of_nat f ->
    bracket_loop pat f c p (plen - Z.of_nat (length t') - 1) sig = Ok (if existsb (set_item_in c) l then sig else negb sig))).
  - intros t _ f c p sig Hc H Hf. pose proof (text_len _ _ H) as L. cbn in L. destruct f as [|f]; [lia|]. cbn [bracket_loop].
    by rewrite (proj2 (Z.ltb_ge _ _)) by lia.
  - intros first d t l t' Hd El IH [_ [Hdb Hb]%bytes_cons]%bytes_cons f c p sig Hc H Hf. pose proof (text_len _ _ H) as L. cbn in L.
    pose proof (set_items_len _ _ _ _ El). destruct f as [|f]; [lia|]. cbn [bracket_loop]. rewrite (proj2 (Z.ltb_lt _ _)) by lia.
    apply text_cons in H as [E H]. rewrite E. cbn. apply text_cons in H as [E' H]. rewrite E'. cbn. rewrite match_class_spec by done.
    destruct (class_in d c); [done|]. apply IH; [done..|lia].
  - intros first a hi t l t' H0 H37 _ _ _ _ El IH [Ha [_ [Hhi Hb]%bytes_cons]%bytes_cons]%bytes_cons f c p sig Hc H Hf.
    pose proof (text_len _ _ H) as L. cbn in L. pose proof (set_items_len _ _ _ _ El). destruct f as [|f]; [lia|]. cbn [bracket_loop].
    rewrite (proj2 (Z.ltb_lt _ _)) by lia. apply text_cons in H as [E H]. rewrite E. cbn. rewrite (proj2 (Z.eqb_neq a L_ESC)) by done.
    apply text_cons in H as [E' H]. rewrite E'. cbn. rewrite (proj2 (Z.ltb_lt _ _)) by lia.
    apply text_cons in H as [E'' H]. replace (p + 1 + 2 - 2) with (p + 1) by lia. rewrite E. cbn.
    replace (p + 1 + 2) with (p + 1 + 1 + 1) by lia. rewrite E''. cbn. destruct ((a <=? c) && (c <=? hi)); [done|]. apply IH; [done..|lia].
  - intros first a t l t' H0 H37 _ Hr El IH [Ha Hb]%bytes_cons f c p sig Hc H Hf.
    pose proof (text_len _ _ H) as L. cbn in L. pose proof (set_items_len _ _ _ _ El). destruct f as [|f]; [lia|]. cbn [bracket_loop].
    rewrite (proj2 (Z.ltb_lt _ _)) by lia. apply text_cons in H as [E H]. rewrite E. cbn. rewrite (proj2 (Z.eqb_neq a L_ESC)) by done.
    rewrite (text_peek _ _ H). cbn. destruct (Z.eqb_spec (peek t) 45) as [Ep|]; cbn [andb].
    + specialize (Hr Ep). destruct t as [|d [|e t]]; cbn in Ep, Hr; [done..|]. subst d e. assert (l = [SI_char 45] /\ t' = t) as [-> ->] by (destruct t; cbn in El; by injection El as <- <-).
      cbn in L. rewrite (proj2 (Z.ltb_ge _ _)) by lia. destruct (a =? c); [done|]. apply IH; [done..|lia].
    + destruct (a =? c); [done|]. apply IH; [done..|lia].
Qed.

Lemma set_items_suffix t first l t' : set_items first t = Some (l, t') -> t' `suffix_of` t.
Proof.
  revert t first l t'. apply (set_items_ind (fun _ t _ t' => t' `suffix_of` t)); intros; by repeat apply suffix_cons_r.
Qed.

Lemma text_suffix p t t' : text_at p t -> t' `suffix_of` t -> text_at (plen - Z.of_nat (length t')) t' /\ p <= plen - Z.of_nat (length t').
Proof.
  intros H [k ->]. pose proof (text_len _ _ H) as L. rewrite length_app in L. destruct H as [Hp E]. split; [split; [lia|]|lia].
  replace (Z.to_nat (plen - Z.of_nat (length t'))) with (Z.to_nat p + length k)%nat by lia. by rewrite <- drop_drop, E, drop_app_length.
Qed.

(** ** Items *)

(** [p] is behind the opening bracket. *)
Lemma parse_set_spec p t neg l t' : bytes pat -> rd pat p = Ok 91 -> 0 <= p -> text_at (p + 1) t -> parse_set t = Some (neg, l, t') ->
  let ep := plen - Z.of_nat (length t') in
  classend pat p = Ok ep /\ p + 1 < ep /\ text_at ep t' /\
  forall c, is_u8 c -> matchbracketclass pat c p (ep - 1) = Ok (set_in neg l c).
Proof.
  intros Hb E Hp H Hs. pose proof (text_u8 _ _ Hb H) as Hbt. destruct t as [|c0 t1]; [done|]. cbn [parse_set] in Hs.
  pose proof (text_len _ _ H) as L. cbn in L. unfold classend, matchbracketclass. rewrite E.
  remember (S (length pat)) as f eqn:Ef. cbn. pose proof H as H'. apply text_cons in H' as [Ec H'].
  rewrite Ec. cbn. destruct (Z.eqb_spec c0 94) as [->|].
  - destruct (set_items true t1) as [[l1 t2]|] eqn:Es; [|done]. injection Hs as <- <- <-. pose proof (set_items_len _ _ _ _ Es).
    destruct (text_suffix _ _ _ H' (set_items_suffix _ _ _ _ Es)) as [Ht Hle]. split_and!; [|lia|done|].
    + by apply (classend_loop_spec _ _ _ _ Es); [|lia].
    + intros c Hc. rewrite (bracket_loop_spec _ _ _ _ Es) by (done || lia || by apply bytes_cons in Hbt as []). unfold set_in. by destruct (existsb _ _).
  - destruct (set_items true (c0 :: t1)) as [[l1 t2]|] eqn:Es; [|done]. injection Hs as <- <- <-. pose proof (set_items_len _ _ _ _ Es).
    destruct (text_suffix _ _ _ H (set_items_suffix _ _ _ _ Es)) as [Ht Hle]. cbn [length] in *. split_and!; [|lia|done|].
    + by apply (classend_loop_spec _ _ _ _ Es); [|lia].
    + intros c Hc. rewrite (bracket_loop_spec _ _ _ _ Es) by (done || lia). unfold set_in. by destruct (existsb _ _).
Qed.

Lemma parse_single_spec p t x t' : bytes pat -> text_at p t -> at_end t = false -> parse_single t = Some (x, t') ->
  let ep := plen - Z.of_nat (length t') in
  classend pat p = Ok ep /\ p < ep /\ text_at ep t' /\ forall c, is_u8 c -> singlematch pat c p ep = Ok (single_in x c).
Proof.
  intros Hb H He Hs. pose proof (text_u8 _ _ Hb H) as Hbt. destruct t as [|a t1]; [done|]. cbn in He. apply bytes_cons in Hbt as [_ Hbt].
  pose proof (text_len _ _ H) as L. cbn in L. pose proof H as [Hp _]. apply text_cons in H as [E H]. cbn [parse_single] in Hs.
  destruct (Z.eqb_spec a 37) as [->|].
  { destruct t1 as [|d t2]; [done|]. destruct (Z.eqb_spec d 0); [done|]. injection Hs as <- <-. cbn in L. apply text_cons in H as [Ed H]. apply bytes_cons in Hbt as [Hd _].
    unfold classend, singlematch. rewrite E. cbn. rewrite Ed. cbn. rewrite (proj2 (Z.eqb_neq d 0)) by done.
    replace (plen - Z.of_nat (length t2)) with (p + 1 + 1) by lia. split_and!; [done|lia|done|]. intros c Hc. by rewrite match_class_spec. }
  destruct (Z.eqb_spec a 91) as [->|].
  { destruct (parse_set t1) as [[[neg l] t2]|] eqn:Es; [|done]. injection Hs as <- <-.
    destruct (parse_set_spec p t1 neg l t2) as (K1 & K2 & K3 & K4); try done; [lia|]. split_and!; [done|lia|done|].
    intros c Hc. unfold singlematch. rewrite E. cbn. by apply K4. }
  assert (classend pat p = Ok (p + 1)) as Ec.
  { unfold classend, L_ESC. rewrite E. cbn. rewrite (proj2 (Z.eqb_neq a 37)), (proj2 (Z.eqb_neq a 91)) by done. done. }
  destruct (Z.eqb_spec a 46) as [->|]; injection Hs as <- <-; replace (plen - Z.of_nat (length t1)) with (p + 1) by lia; (split_and!; [done|lia|done|]).
  - intros c Hc. unfold singlematch. by rewrite E.
  - intros c Hc. unfold singlematch, L_ESC. rewrite E. cbn. by rewrite (proj2 (Z.eqb_neq a 46)), (proj2 (Z.eqb_neq a 37)), (proj2 (Z.eqb_neq a 91)).
Qed.
End Text.

(** The captures made so far. *)
Definition abs (ms : MatchState) : list Capture := take (Z.to_nat (level ms)) (capture ms).

(** The result is the first of [l]. *)
Definition returns (r : pres (option Z * MatchState)) (l : list (Z * list Capture)) : Prop :=
  match head l with
  | Some (e, caps) => exists ms', r = Ok (Some e, ms') /\ abs ms' = caps
  | None => exists ms', r = Ok (None, ms')
  end.

Section Ref.
Context (src pat : list Z).
Abbreviation slen := (Z.of_nat (length src)).
Abbreviation plen := (Z.of_nat (length pat)).
Context (Hsrc : bytes src) (Hpat : bytes pat) (Hlen : slen < 2 ^ 32).

(** ** Captures *)

Lemma abs_length s ms : ms_ok src s ms -> Z.of_nat (length (abs ms)) = level ms.
Proof. intros [H1 H2 _]. unfold abs. rewrite length_take. lia. Qed.

Lemma abs_lookup ms i : (i < Z.to_nat (level ms))%nat -> abs ms !! i = capture ms !! i.
Proof. intros H. unfold abs. by apply lookup_take_lt. Qed.

Lemma abs_same ms ms' : ms_same ms ms' -> abs ms' = abs ms.
Proof.
  intros (H1 & H2 & H3). unfold abs. rewrite H1. apply list_eq. intros i. destruct (decide (i < Z.to_nat (level ms))%nat).
  - rewrite !lookup_take_lt by done. specialize (H3 (Z.of_nat i)). rewrite Nat2Z.id in H3. apply H3. lia.
  - by rewrite !lookup_take_ge by lia.
Qed.

Lemma abs_push ms c s : ms_ok src s ms -> level ms < LUA_MAXCAPTURES ->
  abs (set_level (set_capture ms (level ms) c) (level ms + 1)) = abs ms ++ [c].
Proof.
  intros [H1 H2 _] H. unfold abs. cbn. replace (Z.to_nat (level ms + 1)) with (S (Z.to_nat (level ms))) by lia.
  rewrite (take_S_r _ _ c) by (apply list_lookup_insert_eq; lia). by rewrite take_insert_ge by lia.
Qed.

Lemma abs_set ms l c : abs (set_capture ms l c) = <[Z.to_nat l := c]> (abs ms).
Proof.
  unfold abs. cbn. rewrite take_insert. case_decide; [done|]. rewrite list_insert_ge; [done|]. rewrite length_take. lia.
Qed.

Lemma last_index_snoc {A} (P : A -> bool) l a :
  last_index P (l ++ [a]) = if P a then Some (length l) else last_index P l.
Proof.
  induction l as [|b l IH]; cbn; [by destruct (P a)|]. rewrite IH. by destruct (P a).
Qed.

Lemma last_index_fmap {A} (P : A -> bool) l : last_index id (P <$> l) = last_index P l.
Proof. induction l as [|a l IH]; cbn; [done|]. by rewrite IH. Qed.

Lemma last_index_Some {A} (P : A -> bool) l i : last_index P l = Some i -> exists a, l !! i = Some a /\ P a = true.
Proof.
  revert i. induction l as [|a l IH]; intros i; cbn; [done|]. destruct (last_index P l) as [j|].
  - intros [= <-]. by apply IH.
  - destruct (P a) eqn:E; [|done]. intros [= <-]. by exists a.
Qed.

Lemma capture_to_close_spec ms n : (n <= length (capture ms))%nat ->
  capture_to_close_loop ms n = match last_index is_open (take n (capture ms)) with Some i => Ok (Z.of_nat i) | None => Err STRPATC end.
Proof.
  induction n as [|n IH]; intros Hn; [done|]. cbn [capture_to_close_loop]. unfold get_capture.
  destruct (Z.ltb_spec (Z.of_nat n) 0); [lia|]. rewrite Nat2Z.id. destruct (lookup_lt_is_Some_2 (capture ms) n) as [c E]; [lia|].
  rewrite E, (take_S_r _ _ _ E), last_index_snoc, length_take_le by lia. cbn. unfold is_open. destruct (_ =? _); [done|]. apply IH. lia.
Qed.

(** ** Repetition *)

Definition hit (x : Single) (s : Z) : bool := (s <? slen) && single_in x (byte_at src s).

Lemma run_step x s : 0 <= s <= slen -> run src x s = if hit x s then S (run src x (s + 1)) else O.
Proof.
  intros Hs. unfold run, hit. destruct (Z.ltb_spec s slen) as [Hlt|]; cbn [andb].
  - destruct (lookup_lt_is_Some_2 src (Z.to_nat s)) as [c E]; [lia|]. rewrite (drop_S _ _ _ E). cbn. unfold byte_at. rewrite E. cbn.
    by replace (Z.to_nat (s + 1)) with (S (Z.to_nat s)) by lia.
  - by rewrite drop_ge by lia.
Qed.

Lemma run_bound x s : 0 <= s <= slen -> s + Z.of_nat (run src x s) <= slen.
Proof.
  intros Hs. unfold run. assert (forall P l, (run_len P l <= length l)%nat) as H.
  { intros P l. induction l as [|c l IH]; cbn; [lia|]. destruct (P c); lia. }
  specialize (H (single_in x) (drop (Z.to_nat s) src)). rewrite length_drop in H. lia.
Qed.

(** ** Balance and references *)

Lemma rd_src s : 0 <= s <= slen -> rd src s = Ok (byte_at src s).
Proof.
  intros Hs. unfold rd, byte_at. destruct (Z.ltb_spec s 0); [lia|]. destruct (Z.eqb_spec s slen) as [->|].
  - by rewrite lookup_ge_None_2 by lia.
  - destruct (lookup_lt_is_Some_2 src (Z.to_nat s)) as [c E]; [lia|]. by rewrite E.
Qed.

Lemma find_S (P : nat -> bool) a n : find P (seq (S a) n) = S <$> find (fun k => P (S k)) (seq a n).
Proof.
  rewrite <- fmap_S_seq. induction (seq a n) as [|k l IH]; cbn; [done|]. destruct (P (S k)); [done|exact IH].
Qed.

Lemma find_ext_seq (P Q : nat -> bool) a n : (forall k, (a <= k < a + n)%nat -> P k = Q k) -> find P (seq a n) = find Q (seq a n).
Proof.
  revert a. induction n as [|n IH]; intros a H; [done|]. cbn. rewrite H by lia. destruct (Q a); [done|]. apply IH. intros k Hk. apply H. lia.
Qed.

Lemma balance_loop_spec b e fuel : forall cont s, 0 <= s < slen -> 1 <= cont -> slen - s <= Z.of_nat fuel ->
  balance_loop src fuel b e cont s =
    Ok ((fun k => s + 1 + Z.of_nat k) <$>
        find (fun k => nesting b e (slice src (s + 1) (Z.of_nat k)) =? - cont) (seq 1 (length src - Z.to_nat s - 1))).
Proof.
  induction fuel as [|fuel IH]; intros cont s Hs Hc Hf; [lia|]. cbn [balance_loop]. unfold src_end.
  destruct (Z.ltb_spec (s + 1) slen) as [Hlt|].
  2: { by replace (length src - Z.to_nat s - 1)%nat with O by lia. }
  rewrite rd_src by lia. cbn [mbind res_bind]. set (c := byte_at src (s + 1)).
  replace (length src - Z.to_nat s - 1)%nat with (S (length src - Z.to_nat (s + 1) - 1)) by lia. cbn [seq find].
  assert (forall k, (k <= length src - Z.to_nat (s + 1) - 1)%nat ->
    nesting b e (slice src (s + 1) (Z.of_nat (S k))) = weight b e c + nesting b e (slice src (s + 1 + 1) (Z.of_nat k))) as N.
  { intros k Hk. rewrite slice_S by lia. by replace (Z.of_nat (S k) - 1) with (Z.of_nat k) by lia. }
  change (Z.of_nat 1) with (Z.of_nat (S 0)). rewrite N by lia. change (nesting b e (slice src (s + 1 + 1) (Z.of_nat 0))) with 0.
  rewrite find_S. rewrite (find_ext_seq _ (fun k => nesting b e (slice src (s + 1 + 1) (Z.of_nat k)) =? - (cont + weight b e c))).
  2: { intros k Hk. rewrite N by lia. apply eq_true_iff_eq. rewrite !Z.eqb_eq. lia. }
  assert (forall (o : option nat), (fun k => s + 1 + Z.of_nat k) <$> (S <$> o) = (fun k => s + 1 + 1 + Z.of_nat k) <$> o) as F.
  { intros [k|]; cbn; [f_equal; lia|done]. }
  unfold weight in *. destruct (Z.eqb_spec c e) as [He|].
  - destruct (Z.eqb_spec (cont - 1) 0).
    + rewrite (proj2 (Z.eqb_eq (-1 + 0) _)) by lia. cbn. done.
    + rewrite (proj2 (Z.eqb_neq (-1 + 0) _)), F by lia. apply IH; lia.
  - destruct (Z.eqb_spec c b).
    + rewrite (proj2 (Z.eqb_neq (1 + 0) _)), F by lia. apply IH; lia.
    + rewrite (proj2 (Z.eqb_neq (0 + 0) _)), F by lia. replace (- (cont + 0)) with (- cont) by lia. apply IH; lia.
Qed.

Lemma matchbalance_spec s p b e : 0 <= s <= slen -> rd pat p = Ok b -> rd pat (p + 1) = Ok e -> b <> 0 -> e <> 0 ->
  matchbalance src pat s p = Ok (balance_end src b e s).
Proof.
  intros Hs Eb Ee Hb He. unfold matchbalance, balance_end. rewrite Eb. cbn [mbind res_bind]. rewrite (proj2 (Z.eqb_neq b 0)), Ee by done.
  cbn [mbind res_bind]. rewrite (proj2 (Z.eqb_neq e 0)), rd_src by done. cbn [mbind res_bind].
  destruct (Z.eqb_spec (byte_at src s) b) as [E|]; cbn [negb]; [|by rewrite andb_false_r].
  destruct (Z.ltb_spec s slen); cbn [andb].
  - apply balance_loop_spec; lia.
  - unfold byte_at in E. rewrite lookup_ge_None_2 in E by lia. by destruct Hb.
Qed.

Lemma match_capture_spec ms s i c : 0 <= s <= slen -> ms_ok src s ms -> 0 <= i -> abs ms !! Z.to_nat i = Some c -> is_open c = false ->
  match_capture src ms s (i + 49) = Ok (back_end src c s).
Proof.
  intros Hs H Hi E Ho. pose proof (lookup_lt_Some _ _ _ E) as Hl. pose proof (abs_length _ _ H) as L. rewrite abs_lookup in E by lia.
  unfold match_capture, check_capture. replace (i + 49 - 49) with i by lia. rewrite (proj2 (Z.ltb_ge i 0)), (proj2 (Z.leb_gt _ i)) by lia. cbn [orb].
  destruct (get_capture_safe _ _ _ i H) as (c' & Eg & Ec & [Hci Hk]); [lia|]. rewrite E in Ec. injection Ec as <-. rewrite Eg. cbn [mbind res_bind].
  unfold is_open in Ho. rewrite Ho. cbn [mbind res_bind]. rewrite Eg. cbn [mbind res_bind]. apply Z.eqb_neq in Ho. unfold back_end, src_end.
  destruct Hk as [[? _]|[Hk|[Hk1 Hk2]]]; [done| |].
  - rewrite Hk. change (u64 CAP_POSITION) with (2 ^ 64 - 2). by destruct (Z.leb_spec (2 ^ 64 - 2) (slen - s)); [lia|].
  - rewrite u64_id, (proj2 (Z.leb_le 0 _)) by (widths; lia). cbn [andb].
    destruct (Z.leb_spec (cap_len c) (slen - s)), (Z.leb_spec (s + cap_len c) slen); try lia; [|done]. cbn [andb].
    rewrite !rdmem_safe by lia. cbn. do 2 f_equal. repeat case_bool_decide; congruence.
Qed.

Lemma find_in {P : nat -> bool} {a n k} : find P (seq a n) = Some k -> (a <= k < a + n)%nat.
Proof. intros H%find_some. destruct H as [H _]. by apply in_seq. Qed.

Lemma balance_end_bound b e s s' : 0 <= s -> balance_end src b e s = Some s' -> s <= s' <= slen.
Proof.
  intros Hs. unfold balance_end. destruct (Z.ltb_spec s slen); [|done]. destruct (_ =? _); [|done]. cbn [andb].
  destruct (find _ _) as [k|] eqn:E; [|done]. intros [= <-]. apply find_in in E. lia.
Qed.

Lemma back_end_bound c s s' : back_end src c s = Some s' -> s <= s' <= slen.
Proof. unfold back_end. destruct (Z.leb_spec 0 (cap_len c)), (Z.leb_spec (s + cap_len c) slen); cbn [andb]; try done. case_bool_decide; [intros [= <-]; lia|done]. Qed.

(** ** Repetition and captures *)

Section Rec.
Context (m : MatchState -> Z -> Z -> pres (option Z * MatchState)) (D : Z).

(** The matcher at [q], with the captures [caps], gives the first of [F s]. *)
Definition rec_ref (q : Z) (caps : list Capture) (F : Z -> list (Z * list Capture)) : Prop :=
  forall ms s, ms_ok src s ms -> 0 <= s <= slen -> abs ms = caps -> depth ms <= D -> returns (m ms s q) (F s).

Lemma flat_map_shift (F : Z -> list (Z * list Capture)) s a n :
  flat_map (fun k => F (s + Z.of_nat k)) (seq (S a) n) = flat_map (fun k => F (s + 1 + Z.of_nat k)) (seq a n).
Proof.
  revert a. induction n as [|n IH]; intros a; [done|]. cbn [seq flat_map]. rewrite IH. by replace (s + Z.of_nat (S a)) with (s + 1 + Z.of_nat a) by lia.
Qed.

Lemma flat_map_rev_shift (F : Z -> list (Z * list Capture)) s n :
  flat_map (fun k => F (s + Z.of_nat k)) (rev (seq 1 n)) = flat_map (fun k => F (s + 1 + Z.of_nat k)) (rev (seq 0 n)).
Proof.
  rewrite <- (fmap_S_seq 0). change (S <$> seq 0 n) with (map S (seq 0 n)). rewrite <- map_rev. induction (rev (seq 0 n)) as [|k l IH]; [done|].
  cbn [map flat_map]. rewrite IH. by replace (s + Z.of_nat (S k)) with (s + 1 + Z.of_nat k) by lia.
Qed.

(** What comes after a failed attempt. *)
Lemma returns_or ms s q F l k : rec_ok src m q -> rec_ref q (abs ms) F -> ms_ok src s ms -> 0 <= s <= slen -> depth ms <= D ->
  (forall ms', ms_same ms ms' -> depth ms' = depth ms -> returns (k ms') l) ->
  returns ('(r, ms') ← m ms s q; match r with Some e => Ok (Some e, ms') | None => k ms' end) (F s ++ l).
Proof.
  intros R RF H Hs Hd Hk. specialize (R ms s H Hs). specialize (RF ms s H Hs eq_refl Hd). unfold returns in RF.
  destruct (F s) as [|[e caps] l']; cbn [head app] in *.
  - destruct RF as (ms' & E). rewrite E in R |- *. destruct R as [D' S]. by apply Hk.
  - destruct RF as (ms' & -> & E). cbn. by exists ms'.
Qed.

Context (x : Single) (p ep : Z).
Hypothesis Hsingle : forall c, is_u8 c -> singlematch pat c p ep = Ok (single_in x c).

Lemma single_here_spec s : 0 <= s <= slen -> single_here src pat s p ep = Ok (hit x s).
Proof using Hsrc Hsingle.
  intros Hs. unfold single_here, hit, src_end. destruct (Z.ltb_spec s slen); [|done]. rewrite rd_src by done. cbn. apply Hsingle. by apply byte_at_u8.
Qed.

Lemma max_count_spec fuel : forall s i, 0 <= s + i <= slen -> slen - (s + i) < Z.of_nat fuel ->
  max_count src pat fuel s p ep i = Ok (i + Z.of_nat (run src x (s + i))).
Proof using Hsrc Hsingle.
  induction fuel as [|fuel IH]; intros s i Hs Hf; [lia|]. cbn [max_count]. rewrite single_here_spec, run_step by done. cbn.
  destruct (hit x (s + i)) eqn:E; [|f_equal; lia]. apply andb_true_iff in E as [E%Z.ltb_lt _].
  rewrite IH by lia. replace (s + (i + 1)) with (s + i + 1) by lia. f_equal. lia.
Qed.

Lemma max_try_spec ms s F n : rec_ok src m (ep + 1) -> rec_ref (ep + 1) (abs ms) F -> ms_ok src s ms -> 0 <= s -> s + Z.of_nat n - 1 <= slen -> depth ms <= D ->
  returns (max_try m ms s ep n) (flat_map (fun k => F (s + Z.of_nat k)) (rev (seq 0 n))).
Proof using.
  intros R. revert ms. induction n as [|n IH]; intros ms RF H Hs Hn Hd; [by exists ms|].
  rewrite seq_S, rev_app_distr. cbn [rev app flat_map max_try]. apply returns_or; try done; [eapply ms_ok_mono; [done|lia]|lia|].
  intros ms' S D'. apply IH; [by rewrite (abs_same _ _ S)|by eapply ms_same_ok|lia..].
Qed.

Lemma max_expand_spec ms s F : rec_ok src m (ep + 1) -> rec_ref (ep + 1) (abs ms) F -> ms_ok src s ms -> 0 <= s <= slen -> depth ms <= D ->
  returns (max_expand src pat m ms s p ep) (flat_map (fun k => F (s + Z.of_nat k)) (rev (seq 0 (S (run src x s))))).
Proof using Hsrc Hsingle.
  intros R RF H Hs Hd. unfold max_expand. rewrite max_count_spec by lia. cbn [mbind res_bind].
  replace (s + 0) with s by lia. replace (Z.to_nat (0 + Z.of_nat (run src x s) + 1)) with (S (run src x s)) by lia.
  pose proof (run_bound x s Hs). apply max_try_spec; try done; lia.
Qed.

Lemma min_expand_spec fuel F : rec_ok src m (ep + 1) -> forall ms s, rec_ref (ep + 1) (abs ms) F -> ms_ok src s ms -> 0 <= s <= slen -> depth ms <= D ->
  slen - s < Z.of_nat fuel ->
  returns (min_expand_loop src pat m fuel ms s p ep) (flat_map (fun k => F (s + Z.of_nat k)) (seq 0 (S (run src x s)))).
Proof using Hsrc Hsingle.
  intros R. induction fuel as [|fuel IH]; intros ms s RF H Hs Hd Hf; [lia|]. cbn [min_expand_loop seq flat_map].
  replace (s + Z.of_nat 0) with s by lia. apply returns_or; try done. intros ms' Sm D'.
  rewrite single_here_spec, run_step by done. cbn [mbind res_bind]. destruct (hit x s) eqn:E; [|by exists ms'].
  apply andb_true_iff in E as [E%Z.ltb_lt _].
  rewrite (flat_map_shift F). apply IH; try lia; [by rewrite (abs_same _ _ Sm)|].
  eapply ms_ok_mono; [by eapply ms_same_ok|lia].
Qed.

(** ** Captures *)

Lemma start_capture_spec ms s q what F : rec_ok src m q -> rec_ref q (abs ms ++ [mkCap s what]) F -> ms_ok src s ms -> 0 <= s <= slen -> depth ms <= D ->
  what = CAP_UNFINISHED \/ what = CAP_POSITION -> level ms < LUA_MAXCAPTURES ->
  returns (start_capture m ms s q what) (F s).
Proof using.
  intros R RF H Hs Hd Hw Hl. unfold start_capture. rewrite (proj2 (Z.leb_gt _ _)) by lia. cbn zeta. rewrite <- (abs_push ms _ s) in RF by done.
  set (ms1 := set_level _ _) in *. assert (ms_ok src s ms1) as H1 by by apply push_ok.
  specialize (RF ms1 s H1 Hs eq_refl Hd). unfold returns in *. destruct (head (F s)) as [[e caps]|].
  - destruct RF as (ms' & -> & E). by exists ms'.
  - destruct RF as (ms' & ->). cbn. by eexists.
Qed.

Lemma end_capture_spec ms s q i c F : rec_ok src m q -> last_index is_open (abs ms) = Some i -> abs ms !! i = Some c ->
  rec_ref q (<[i := mkCap (cap_init c) (s - cap_init c)]> (abs ms)) F -> ms_ok src s ms -> 0 <= s <= slen -> depth ms <= D ->
  returns (end_capture m ms s q) (F s).
Proof using.
  intros R Ei Ec RF H Hs Hd. destruct (last_index_Some _ _ _ Ei) as (c0 & Ec0 & Eo). rewrite Ec in Ec0. injection Ec0 as <-.
  pose proof (end_capture_safe src m ms s q R H Hs) as Safe. unfold end_capture in *.
  pose proof (abs_length _ _ H) as L. pose proof (lookup_lt_Some _ _ _ Ec) as Hi. pose proof H as [Hn Hl _].
  unfold capture_to_close in *. rewrite capture_to_close_spec in Safe |- * by lia. fold (abs ms) in *. rewrite Ei in *. cbn [mbind res_bind] in *.
  destruct (get_capture_safe src s ms (Z.of_nat i) H) as (c' & Eg & El & Hc); [lia|]. rewrite Nat2Z.id in El. rewrite abs_lookup in Ec by lia.
  rewrite Ec in El. injection El as <-. rewrite Eg in *. cbn [mbind res_bind] in *.
  rewrite <- (Nat2Z.id i), <- abs_set in RF at 1. set (ms1 := set_capture _ _ _) in *.
  assert (ms_ok src s ms1) as H1.
  { apply close_ok; [done|done|lia|by rewrite Nat2Z.id|done]. }
  specialize (RF ms1 s H1 Hs eq_refl Hd). unfold returns in *. destruct (head (F s)) as [[e caps]|].
  - destruct RF as (ms' & -> & E). by exists ms'.
  - destruct RF as (ms' & E). rewrite E in *. cbn in *. destruct (get_capture ms' (Z.of_nat i)) as [c0|e] eqn:Eg'; cbn in *; [by eexists|].
    exfalso. assert (e = OOB) as ->; [|done].
    unfold get_capture in Eg'. destruct (_ <? 0); [by injection Eg'|]. destruct (capture ms' !! _); [done|by injection Eg'].
Qed.
End Rec.

(** ** The matcher *)

Lemma nested_calls_cons it l : nested_calls (it :: l) = (if calls_itself it then 1 else 0) + nested_calls l.
Proof. done. Qed.

Lemma nested_calls_nonneg l : 0 <= nested_calls l.
Proof. induction l as [|it l IH]; [done|]. rewrite nested_calls_cons. destruct (calls_itself it); lia. Qed.

Lemma returns_leave r l : returns r l -> returns (r ← r; leave r) l.
Proof.
  unfold returns. destruct (head l) as [[e caps]|].
  - intros (ms' & -> & E). by exists (set_depth ms' (depth ms' - 1)).
  - intros (ms' & ->). by eexists.
Qed.

Lemma parse_quant_one t t' : parse_quant t = (QOne, t') -> t' = t /\ peek t <> 63 /\ peek t <> 42 /\ peek t <> 43 /\ peek t <> 45.
Proof.
  destruct t as [|c t]; cbn; [by intros [= <-]|]. destruct (Z.eqb_spec c 63), (Z.eqb_spec c 42), (Z.eqb_spec c 43), (Z.eqb_spec c 45); try done.
  by intros [= <-].
Qed.

Definition quant_char (q : Quant) : Z := match q with QOpt => 63 | QStar => 42 | QPlus => 43 | QMin => 45 | QOne => 0 end.

Lemma parse_quant_some t q t' : parse_quant t = (q, t') -> q <> QOne -> t = quant_char q :: t'.
Proof.
  destruct t as [|c t]; cbn; [by intros [= <- <-]|].
  destruct (Z.eqb_spec c 63) as [->|]; [by intros [= <- <-]|]. destruct (Z.eqb_spec c 42) as [->|]; [by intros [= <- <-]|].
  destruct (Z.eqb_spec c 43) as [->|]; [by intros [= <- <-]|]. destruct (Z.eqb_spec c 45) as [->|]; by intros [= <- <-].
Qed.

(** The rest [t] of the pattern is the items [l]. *)
Definition parsed (t : list Z) (l : list Item) : Prop := exists n, parse n t = Some l.

(** What the matcher does at the text [t], from [init] on. *)
Definition good_at (go : MatchState -> Z -> Z -> pres (option Z * MatchState)) (q : Z) : Prop :=
  forall t l ms s, text_at pat q t -> parsed t l -> ms_ok src s ms -> 0 <= s <= slen -> well_formed (is_open <$> abs ms) l = true ->
    depth ms + nested_calls l <= LJ_MAX_XLEVEL -> returns (go ms s q) (sem src l s (abs ms)).

Section Body.
Context (go : MatchState -> Z -> Z -> pres (option Z * MatchState)) (p : Z) (Hp : 0 <= p <= plen).
Hypothesis Hsafe : forall ms s q, p < q <= plen -> ms_ok src s ms -> 0 <= s <= slen -> safe (go ms s q) (post src (depth ms - 1) ms s).
Hypothesis Hgo : forall q, p < q -> good_at go q.

Lemma call_rec q t l caps : p < q -> text_at pat q t -> parsed t l -> well_formed (is_open <$> caps) l = true ->
  rec_ok src (call_match go) q /\ rec_ref (call_match go) (LJ_MAX_XLEVEL - 1 - nested_calls l) q caps (fun s => sem src l s caps).
Proof using Hp Hlen Hsafe Hgo.
  intros Hq Ht Hl Hw. pose proof (text_len _ _ _ Ht). split; [apply (call_match_safe src pat go p); try done; lia|].
  intros ms s H0 Hs <- Hd. unfold call_match. pose proof (nested_calls_nonneg l). rewrite (proj2 (Z.ltb_ge _ _)) by lia.
  apply (Hgo q Hq t l (set_depth ms (depth ms + 1)) s); try done; [by apply set_depth_ok|cbn; lia].
Qed.

Lemma match_opt_spec ms s ep l t (b : bool) : p < ep -> text_at pat (ep + 1) t -> parsed t l -> (b = true -> s < slen) ->
  ms_ok src s ms -> 0 <= s <= slen -> well_formed (is_open <$> abs ms) l = true -> depth ms + 1 + nested_calls l <= LJ_MAX_XLEVEL ->
  returns ('(r, ms) ← (if b then call_match go ms (s + 1) (ep + 1) else Ok (None, ms));
           match r with Some e => leave (Some e, ms) | None => go ms s (ep + 1) end)
    ((if b then sem src l (s + 1) (abs ms) else []) ++ sem src l s (abs ms)).
Proof using Hp Hlen Hsafe Hgo.
  intros Hep Ht Hl Hb H Hs Hw Hd. destruct b; [specialize (Hb eq_refl)|apply (Hgo (ep + 1) ltac:(lia) t); try done; lia].
  destruct (call_rec (ep + 1) t l (abs ms)) as [R RF]; try done; [lia|]. assert (ms_ok src (s + 1) ms) as H1 by (eapply ms_ok_mono; [done|lia]).
  specialize (R ms (s + 1) H1 ltac:(lia)). specialize (RF ms (s + 1) H1 ltac:(lia) eq_refl ltac:(lia)). unfold returns in RF |- *.
  destruct (sem src l (s + 1) (abs ms)) as [|[e caps] l']; cbn [head app] in *.
  - destruct RF as (ms' & E). rewrite E in R |- *. cbn [mbind res_bind]. destruct R as [D S]. cbn in D, S. rewrite <- (abs_same _ _ S) in Hw |- *.
    apply (Hgo (ep + 1) ltac:(lia) t); try done; [by eapply ms_same_ok|lia].
  - destruct RF as (ms' & -> & E). by eexists.
Qed.

Lemma match_dflt_spec t x t1 qu t2 l ms s : text_at pat p t -> at_end t = false -> parse_single t = Some (x, t1) -> parse_quant t1 = (qu, t2) -> parsed t2 l ->
  ms_ok src s ms -> 0 <= s <= slen -> well_formed (is_open <$> abs ms) l = true -> depth ms + nested_calls (ISingle x qu :: l) <= LJ_MAX_XLEVEL ->
  returns (match_dflt src pat go ms s p) (sem src (ISingle x qu :: l) s (abs ms)).
Proof using Hsrc Hpat Hp Hlen Hsafe Hgo.
  intros Ht He Ex Eq Hl H Hs Hw Hd. rewrite nested_calls_cons in Hd.
  destruct (parse_single_spec pat p t x t1 Hpat Ht He Ex) as (Ec & Hep & Ht1 & Hx). set (ep := plen - Z.of_nat (length t1)) in *. clearbody ep.
  unfold match_dflt. rewrite Ec. cbn [mbind res_bind]. rewrite (single_here_spec x p ep Hx) by done. cbn [mbind res_bind].
  rewrite (text_peek _ _ _ Ht1). cbn [mbind res_bind sem]. pose proof (run_step x s Hs) as Hr.
  assert (hit x s = true -> s < slen) as Hh by by intros [?%Z.ltb_lt _]%andb_true_iff.
  destruct qu.
  1: {
    apply parse_quant_one in Eq as [-> (K1 & K2 & K3 & K4)].
    rewrite (proj2 (Z.eqb_neq _ _) K1), (proj2 (Z.eqb_neq _ _) K2), (proj2 (Z.eqb_neq _ _) K3), (proj2 (Z.eqb_neq _ _) K4), Hr.
    destruct (hit x s); cbn [counts flat_map]; [|by eexists]. rewrite app_nil_r. specialize (Hh eq_refl).
    apply (Hgo ep Hep t1); try done; [eapply ms_ok_mono; [done|lia]|lia]. }
  all: apply parse_quant_some in Eq; [|done]; cbn [quant_char] in Eq; subst t1; pose proof (text_cons _ _ _ _ Ht1) as [_ Ht2]; cbn [peek calls_itself] in *.
  all: pose proof (text_len _ _ _ Ht2) as Hl2; destruct (call_rec (ep + 1) t2 l (abs ms)) as [R RF]; try done; [lia|].
  - cbn -[counts]. rewrite Hr. assert ((counts QOpt (if hit x s then S (run src x (s + 1)) else 0%nat)) = if hit x s then [1%nat; 0%nat] else [0%nat]) as -> by by destruct (hit x s).
    eapply eq_ind; [eapply (match_opt_spec ms s ep l t2 (hit x s)); try done; lia|]. destruct (hit x s); cbn; by rewrite app_nil_r, Z.add_0_r.
  - cbn -[counts max_expand]. apply returns_leave. cbn [counts].
    eapply (max_expand_spec _ _ x p ep Hx ms s (fun s => sem src l s (abs ms))); try done; lia.
  - cbn -[counts max_expand]. apply returns_leave. rewrite Hr. destruct (hit x s); [|by eexists]. specialize (Hh eq_refl). cbn [counts].
    rewrite (flat_map_rev_shift (fun s => sem src l s (abs ms))).
    eapply (max_expand_spec _ _ x p ep Hx ms (s + 1) (fun s => sem src l s (abs ms))); try done; try lia. eapply ms_ok_mono; [done|lia].
  - cbn -[counts min_expand]. apply returns_leave. cbn [counts]. unfold min_expand.
    eapply (min_expand_spec _ _ x p ep Hx _ (fun s => sem src l s (abs ms))); try done; lia.
Qed.

Lemma match_frontier_spec q t neg st t' l ms s : p < q -> text_at pat q (91 :: t) -> parse_set t = Some (neg, st, t') -> parsed t' l ->
  ms_ok src s ms -> 0 <= s <= slen -> well_formed (is_open <$> abs ms) l = true -> depth ms + nested_calls l <= LJ_MAX_XLEVEL ->
  returns (match_frontier src pat go ms s q) (sem src (IFrontier neg st :: l) s (abs ms)).
Proof using Hsrc Hpat Hp Hgo.
  intros Hq Ht Es Hl H Hs Hw Hd. destruct (text_cons _ _ _ _ Ht) as [E Ht'].
  destruct (parse_set_spec pat q t neg st t' Hpat E ltac:(lia) Ht' Es) as (Ec & Hep & Hte & Hx). set (ep := plen - _) in *. clearbody ep.
  unfold match_frontier. rewrite E. cbn [mbind res_bind]. change (negb (91 =? 91)) with false. cbn iota. rewrite Ec. cbn [mbind res_bind].
  assert ((if s =? src_init then Ok 0 else rd src (s - 1)) = @Ok PattErr _ (prev_char src s)) as ->.
  { unfold prev_char, src_init. destruct (Z.eqb_spec s 0); [done|]. apply rd_src. lia. }
  cbn [mbind res_bind]. rewrite Hx by (unfold prev_char; destruct (s =? 0); [widths; lia|by apply byte_at_u8]). cbn [mbind res_bind sem].
  destruct (set_in neg st (prev_char src s)); [by eexists|]. cbn [negb andb]. rewrite rd_src by done. cbn [mbind res_bind].
  rewrite Hx by by apply byte_at_u8. cbn [mbind res_bind]. destruct (set_in neg st (byte_at src s)); [|by eexists].
  apply (Hgo ep ltac:(lia) t'); try done; lia.
Qed.

Lemma match_body_single t it t' l ms s : text_at pat p t -> at_end t = false ->
  match parse_single t with Some (x, t1) => let '(q, t2) := parse_quant t1 in Some (ISingle x q, t2) | None => None end = Some (it, t') -> parsed t' l ->
  ms_ok src s ms -> 0 <= s <= slen -> well_formed (is_open <$> abs ms) (it :: l) = true -> depth ms + nested_calls (it :: l) <= LJ_MAX_XLEVEL ->
  returns (match_dflt src pat go ms s p) (sem src (it :: l) s (abs ms)).
Proof using Hsrc Hpat Hp Hlen Hsafe Hgo.
  intros Ht He E Hl H Hs Hw Hd. destruct (parse_single t) as [[x t1]|] eqn:Ex; [|done]. destruct (parse_quant t1) as [q t2] eqn:Eq.
  injection E as <- <-. by eapply match_dflt_spec.
Qed.

(** A percent sign and what is behind it. *)
Lemma match_escape_spec d t2 it t' l ms s : text_at pat p (37 :: d :: t2) -> parse_item (37 :: d :: t2) = Some (it, t') -> parsed t' l ->
  ms_ok src s ms -> 0 <= s <= slen -> well_formed (is_open <$> abs ms) (it :: l) = true -> depth ms + nested_calls (it :: l) <= LJ_MAX_XLEVEL ->
  returns (match_body src pat go ms s p) (sem src (it :: l) s (abs ms)).
Proof using Hsrc Hpat Hp Hlen Hsafe Hgo.
  intros Ht Ei Hl H Hs Hw Hd. destruct (text_cons _ _ _ _ Ht) as [E Ht1]. destruct (text_cons _ _ _ _ Ht1) as [Ed Ht2].
  assert (is_u8 d) as Hd8. { pose proof (text_u8 _ _ _ Hpat Ht1) as K. by apply bytes_cons in K as []. }
  unfold match_body. rewrite E. cbn [mbind res_bind]. change (37 =? 40) with false. change (37 =? 41) with false. change (37 =? L_ESC) with true. cbn iota.
  rewrite Ed. cbn [mbind res_bind]. cbn [parse_item] in Ei. change (37 =? 40) with false in Ei. change (37 =? 41) with false in Ei. change (37 =? 37) with true in Ei. cbn iota in Ei.
  destruct (Z.eqb_spec d 98) as [->|].
  { destruct t2 as [|b [|e t3]]; [done..|]. destruct (Z.eqb_spec b 0), (Z.eqb_spec e 0); cbn [orb] in Ei; try done. injection Ei as <- <-.
    destruct (text_cons _ _ _ _ Ht2) as [Eb Ht3]. destruct (text_cons _ _ _ _ Ht3) as [Ee Ht4].
    replace (p + 1 + 1) with (p + 2) in * by lia. rewrite (matchbalance_spec s (p + 2) b e) by done. cbn [mbind res_bind sem].
    destruct (balance_end src b e s) as [s'|] eqn:Eb'; [|by eexists]. apply balance_end_bound in Eb'; [|lia].
    replace (p + 2 + 1 + 1) with (p + 4) in Ht4 by lia. apply (Hgo (p + 4) ltac:(lia) t3); try done; [eapply ms_ok_mono; [done|lia]|lia]. }
  destruct (Z.eqb_spec d 102) as [->|].
  { destruct t2 as [|o t3]; [done|]. destruct (Z.eqb_spec o 91) as [->|]; [|done]. destruct (parse_set t3) as [[[neg st] t4]|] eqn:Es; [|done].
    injection Ei as <- <-. replace (p + 1 + 1) with (p + 2) in Ht2 by lia. eapply (match_frontier_spec (p + 2)); try done. lia. }
  assert (nz (lj_char_isdigit d) = c_isdigit d) as Edig by (apply (lj_char_correct d); widths; lia). rewrite Edig.
  destruct (c_isdigit d); [|by apply (match_body_single _ it t' l ms s Ht eq_refl Ei)]. injection Ei as <- <-.
  cbn [well_formed] in Hw. apply andb_true_iff in Hw as [Hw1 Hw]. apply andb_true_iff in Hw1 as [Hi%Z.leb_le Ho]. rewrite list_lookup_fmap in Ho.
  destruct (abs ms !! Z.to_nat (d - 49)) as [c|] eqn:Ec; [|done]. cbn in Ho. destruct (is_open c) eqn:Eo; [done|].
  replace d with (d - 49 + 49) at 1 by lia. rewrite (match_capture_spec ms s (d - 49) c) by done. cbn [mbind res_bind sem]. rewrite Ec.
  destruct (back_end src c s) as [s'|] eqn:Eb; [|by eexists]. apply back_end_bound in Eb.
  replace (p + 1 + 1) with (p + 2) in Ht2 by lia. apply (Hgo (p + 2) ltac:(lia) t2); try done; [eapply ms_ok_mono; [done|lia]|lia].
Qed.

Lemma match_end_spec t ms s : text_at pat p t -> at_end t = true -> returns (match_body src pat go ms s p) [(s, abs ms)].
Proof using.
  intros Ht He. assert (peek t = 0) as E. { destruct t; [done|]. by apply Z.eqb_eq. }
  unfold match_body. rewrite (text_peek _ _ _ Ht), E. cbn. by eexists.
Qed.

Lemma match_open_spec t1 it t' l ms s : text_at pat p (40 :: t1) -> parse_item (40 :: t1) = Some (it, t') -> parsed t' l ->
  ms_ok src s ms -> 0 <= s <= slen -> well_formed (is_open <$> abs ms) (it :: l) = true -> depth ms + nested_calls (it :: l) <= LJ_MAX_XLEVEL ->
  returns (match_body src pat go ms s p) (sem src (it :: l) s (abs ms)).
Proof using Hp Hlen Hsafe Hgo.
  intros Ht Ei Hl H Hs Hw Hd. destruct (text_cons _ _ _ _ Ht) as [E Ht1]. unfold match_body. rewrite E. cbn [mbind res_bind].
  change (40 =? 40) with true. cbn iota. rewrite (text_peek _ _ _ Ht1). cbn [mbind res_bind]. apply returns_leave.
  pose proof (abs_length _ _ H) as L. rewrite nested_calls_cons in Hd. cbn [parse_item] in Ei. change (40 =? 40) with true in Ei. cbn iota in Ei.
  assert (forall what q t, p < q -> text_at pat q t -> parsed t l -> what = CAP_UNFINISHED \/ what = CAP_POSITION -> calls_itself it = true ->
    Z.of_nat (length (is_open <$> abs ms)) < LUA_MAXCAPTURES -> well_formed ((is_open <$> abs ms) ++ [is_open (mkCap s what)]) l = true ->
    returns (start_capture (call_match go) ms s q what) (sem src l s (abs ms ++ [mkCap s what]))) as K.
  { intros what q t Hq Htq Hpt Hwh Hci Hlt Hwf. rewrite length_fmap in Hlt.
    destruct (call_rec q t l (abs ms ++ [mkCap s what]) Hq Htq Hpt) as [R RF]; [by rewrite fmap_app|].
    eapply (start_capture_spec _ _ ms s q what (fun s => sem src l s _) R RF); try done; [rewrite Hci in Hd; lia|lia]. }
  destruct (Z.eqb_spec (peek t1) 41) as [E1|E1].
  - destruct t1 as [|d t2]; [done|]. cbn in E1. subst d. injection Ei as <- <-. cbn [well_formed] in Hw. apply andb_true_iff in Hw as [Hw1%Z.ltb_lt Hw].
    destruct (text_cons _ _ _ _ Ht1) as [_ Ht2]. replace (p + 1 + 1) with (p + 2) in Ht2 by lia. cbn [sem]. apply (K _ _ t2); auto. lia.
  - assert (it = IOpen /\ t' = t1) as [-> ->].
    { destruct t1 as [|d t2]; [by injection Ei as <- <-|]. cbn in E1. destruct (Z.eqb_spec d 41); [done|]. by injection Ei as <- <-. }
    cbn [well_formed] in Hw. apply andb_true_iff in Hw as [Hw1%Z.ltb_lt Hw]. cbn [sem]. apply (K _ _ t1); auto. lia.
Qed.

Lemma match_close_spec t1 l ms s : text_at pat p (41 :: t1) -> parsed t1 l ->
  ms_ok src s ms -> 0 <= s <= slen -> well_formed (is_open <$> abs ms) (IClose :: l) = true -> depth ms + nested_calls (IClose :: l) <= LJ_MAX_XLEVEL ->
  returns (match_body src pat go ms s p) (sem src (IClose :: l) s (abs ms)).
Proof using Hp Hlen Hsafe Hgo.
  intros Ht Hl H Hs Hw Hd. destruct (text_cons _ _ _ _ Ht) as [E Ht1]. unfold match_body. rewrite E. cbn [mbind res_bind].
  change (41 =? 40) with false. change (41 =? 41) with true. cbn iota. apply returns_leave. cbn [sem well_formed] in *. rewrite nested_calls_cons in Hd. cbn [calls_itself] in Hd.
  rewrite last_index_fmap in Hw. destruct (last_index is_open (abs ms)) as [i|] eqn:Ei; [|done].
  destruct (last_index_Some _ _ _ Ei) as (c & Ec & _). rewrite Ec.
  destruct (call_rec (p + 1) t1 l (<[i := mkCap (cap_init c) (s - cap_init c)]> (abs ms))) as [R RF]; try done; [lia| |].
  - rewrite list_fmap_insert. replace (is_open (mkCap (cap_init c) (s - cap_init c))) with false; [done|].
    pose proof H as [_ Hlv Hcaps]. pose proof (lookup_lt_Some _ _ _ Ec) as Hi. pose proof (abs_length _ _ H) as L. rewrite abs_lookup in Ec by lia.
    destruct (Hcaps (Z.of_nat i)) as (c' & E' & [Hc1 Hc2]); [lia|]. rewrite Nat2Z.id, Ec in E'. injection E' as <-.
    destruct (last_index_Some _ _ _ Ei) as (c' & Ec' & Eo). rewrite abs_lookup, Ec in Ec' by lia. injection Ec' as <-. apply Z.eqb_eq in Eo.
    symmetry. apply Z.eqb_neq. cbn. unfold CAP_UNFINISHED, CAP_POSITION in *. lia.
  - eapply (end_capture_spec _ _ ms s (p + 1) i c (fun s => sem src l s _) R Ei Ec RF); try done. lia.
Qed.

Lemma match_body_spec : good_at (match_body src pat go) p.
Proof using Hsrc Hpat Hp Hlen Hsafe Hgo.
  intros t l ms s Ht [n Hn] H Hs Hw Hd. destruct n as [|n]; [done|]. cbn [parse] in Hn.
  destruct (at_end t) eqn:He; [injection Hn as <-; by eapply match_end_spec|].
  destruct (parse_item t) as [[it t']|] eqn:Ei; [|done]. destruct (parse n t') as [l'|] eqn:El; [|done]. injection Hn as <-.
  assert (parsed t' l') as Hl by by exists n. destruct t as [|c t1]; [done|].
  destruct (decide (c = 40)) as [->|N40]; [by eapply match_open_spec|]. destruct (decide (c = 41)) as [->|N41].
  { injection Ei as <- <-. by eapply match_close_spec. }
  destruct (decide (c = 37)) as [->|N37]. { destruct t1 as [|d t2]; [done|]. by eapply match_escape_spec. }
  destruct (text_cons _ _ _ _ Ht) as [E Ht1]. cbn in He. apply Z.eqb_neq in He. cbn [parse_item] in Ei.
  rewrite (proj2 (Z.eqb_neq _ _) N40), (proj2 (Z.eqb_neq _ _) N41), (proj2 (Z.eqb_neq _ _) N37) in Ei.
  unfold match_body, L_ESC. rewrite E. cbn [mbind res_bind].
  rewrite (proj2 (Z.eqb_neq _ _) N40), (proj2 (Z.eqb_neq _ _) N41), (proj2 (Z.eqb_neq _ _) N37), (proj2 (Z.eqb_neq _ _) He).
  assert (match parse_single (c :: t1) with Some (x, t1) => let '(q, t2) := parse_quant t1 in Some (ISingle x q, t2) | None => None end = Some (it, t') ->
    returns (match_dflt src pat go ms s p) (sem src (it :: l') s (abs ms))) as K.
  { intros Ex. apply (match_body_single (c :: t1) it t' l' ms s); try done. by apply Z.eqb_neq. }
  destruct (Z.eqb_spec c 36) as [->|]; [|by apply K]. rewrite (text_peek _ _ _ Ht1). cbn [mbind res_bind andb] in *.
  assert (at_end t1 = (peek t1 =? 0)) as Ee by by destruct t1. rewrite Ee in Ei. destruct (peek t1 =? 0); cbn [negb]; [|by apply K].
  injection Ei as <- <-. destruct n as [|n]; [done|]. cbn [parse] in El. rewrite Ee in El.
  injection El as <-. cbn [sem]. unfold src_end. destruct (s =? slen); by eexists.
Qed.
End Body.

Lemma match_init_spec fuel p : 0 <= p <= plen -> plen - p < Z.of_nat fuel -> good_at (match_init src pat fuel) p.
Proof using Hsrc Hpat Hlen.
  revert p. induction fuel as [|fuel IH]; intros p Hp Hf; [lia|]. apply (match_body_spec (match_init src pat fuel) p Hp).
  - intros ms s q Hq H Hs. apply match_init_safe; try done; lia.
  - intros q Hq t l ms s Ht. pose proof (text_len _ _ _ Ht). apply IH; [lia..|done].
Qed.

Lemma match_spec p t l ms s : text_at pat p t -> parsed t l -> ms_ok src s ms -> 0 <= s <= slen -> well_formed (is_open <$> abs ms) l = true ->
  depth ms + 1 + nested_calls l <= LJ_MAX_XLEVEL -> returns (match_ src pat ms s p) (sem src l s (abs ms)).
Proof using Hsrc Hpat Hlen.
  intros Ht Hl H Hs Hw Hd. pose proof (nested_calls_nonneg l). pose proof (text_len _ _ _ Ht). unfold match_, call_match.
  rewrite (proj2 (Z.ltb_ge _ _)) by lia. destruct Ht as [Hp Ht].
  apply (match_init_spec (S (length pat)) p Hp ltac:(lia) t l (set_depth ms (depth ms + 1)) s); try done; [by apply set_depth_ok].
Qed.
End Ref.
