(* ===== verification/PattProps.v ===== *)
(** * Pattern matching: the statements *)

From S2P Require Import Prelude Machine Chars Strs Num Buf Strfmt Patt PattSafe PattSem PattMatch.

(** ** Values *)

(** A value that [push_captures] may give: an integer, or text of the subject. *)
Definition text_of (src : list Z) (v : LuaVal) : Prop :=
  match v with
  | VInt _ => True
  | VStr t => exists i n, 0 <= i /\ 0 <= n /\ i + n <= Z.of_nat (length src) /\ t = slice src i n
  | _ => False
  end.

Section Values.
Context (src : list Z).
Abbreviation slen := (Z.of_nat (length src)).

Lemma rdmem_text i n : 0 <= i -> 0 <= n -> i + n <= slen -> safe (rdmem src i n) (fun t => text_of src (VStr t)).
Proof. intros. rewrite rdmem_safe by done. cbn. by exists i, n. Qed.

Lemma push_onecapture_safe ms i s e s' : ms_ok src s' ms -> 0 <= s <= e -> e <= slen -> 0 <= i ->
  safe (push_onecapture src ms i s e) (text_of src).
Proof.
  intros H Hs He Hi. unfold push_onecapture. destruct (Z.leb_spec (level ms) i).
  - destruct (i =? 0); [|done]. apply safe_fmap, rdmem_text; lia.
  - destruct (get_capture_safe src s' ms i H) as (c & E & _ & [Hc1 Hc2]); [lia|]. rewrite E. cbn [mbind res_bind].
    destruct (Z.eqb_spec (cap_len c) CAP_UNFINISHED); [done|]. destruct (Z.eqb_spec (cap_len c) CAP_POSITION); [done|].
    apply safe_fmap, rdmem_text; lia.
Qed.

Lemma push_captures_loop_safe ms s e s' n : ms_ok src s' ms -> 0 <= s <= e -> e <= slen -> forall i, 0 <= i ->
  safe (push_captures_loop src ms s e i n) (fun l => Forall (text_of src) l /\ length l = n).
Proof.
  intros H Hs He. induction n as [|n IH]; intros i Hi; [done|]. cbn [push_captures_loop].
  eapply safe_bind; [by eapply push_onecapture_safe|]. intros v Hv. eapply safe_bind; [apply IH; lia|]. intros l [Hl En]. cbn. split; [by constructor|congruence].
Qed.

(** [push_captures] gives at least one value for a match. *)
Lemma push_captures_safe ms se s' : ms_ok src s' ms -> (forall s e, se = Some (s, e) -> 0 <= s <= e /\ e <= slen) ->
  safe (push_captures src ms se) (fun l => Forall (text_of src) l /\ (is_Some se -> l <> [])).
Proof.
  intros H Hse. unfold push_captures. destruct (default (0, 0) se) as [s e] eqn:E.
  assert (0 <= s <= e /\ e <= slen) as [Hs He]. { destruct se as [[s1 e1]|]; injection E as <- <-; [by apply Hse|lia]. }
  pose proof H as [_ Hl _]. eapply safe_mono; [by eapply (push_captures_loop_safe ms s e s')|]. cbn. intros l [Hf Hn]. split; [done|].
  intros Hsome ->. rewrite bool_decide_true, andb_true_r in Hn by done. cbn in Hn. destruct (Z.eqb_spec (level ms) 0); lia.
Qed.

(** ** Searching *)

Context (pat : list Z) (Hlen : slen < 2 ^ 32).
Abbreviation plen := (Z.of_nat (length pat)).

Lemma ms_init_ok s caps : length caps = Z.to_nat LUA_MAXCAPTURES -> ms_ok src s (ms_init caps).
Proof. intros H. split; [done|done|]. cbn. lia. Qed.

Lemma ms_init_same caps ms : ms_same (ms_init caps) ms -> length (capture ms) = length caps.
Proof. by intros (_ & H & _). Qed.

(** One attempt, with a new state. *)
Lemma attempt_safe caps s p : length caps = Z.to_nat LUA_MAXCAPTURES -> 0 <= p <= plen -> 0 <= s <= slen ->
  safe (match_ src pat (ms_init caps) s p) (fun r => length (capture r.2) = Z.to_nat LUA_MAXCAPTURES /\
    match r.1 with Some e => s <= e <= slen /\ ms_ok src e r.2 | None => True end).
Proof using Hlen.
  intros Hc Hp Hs. eapply safe_mono; [apply match_safe; try done; by apply ms_init_ok|]. cbn. intros [[e|] ms] [_ P]; cbn in *.
  - destruct P as (? & K & _). by destruct K.
  - split; [|done]. apply ms_init_same in P. congruence.
Qed.

Lemma find_loop_safe fuel : forall caps s p anchor, length caps = Z.to_nat LUA_MAXCAPTURES -> 0 <= p <= plen -> 0 <= s <= slen -> slen - s < Z.of_nat fuel ->
  safe (find_loop src pat fuel caps s p anchor) (fun r => match r with Some (i, e, ms) => s <= i <= e /\ e <= slen /\ ms_ok src e ms | None => True end).
Proof using Hlen.
  induction fuel as [|fuel IH]; intros caps s p anchor Hc Hp Hs Hf; [lia|]. cbn [find_loop].
  eapply safe_bind; [by apply attempt_safe|]. intros [[e|] ms] [Hcm P]; cbn in P, Hcm; [cbn; split_and!; try lia; tauto|].
  unfold src_end. destruct (Z.ltb_spec s slen); [|done]. destruct anchor; [done|]. cbn [andb negb].
  eapply safe_mono; [apply IH; try done; lia|]. cbn. intros [[[i e] ms']|]; [|done]. intros (? & ? & ?). split_and!; [lia..|done].
Qed.

Lemma pattern_find_safe caps st : length caps = Z.to_nat LUA_MAXCAPTURES -> 0 <= st <= slen ->
  safe (pattern_find src pat caps st) (fun r => match r with Some (i, e, ms) => st <= i <= e /\ e <= slen /\ ms_ok src e ms | None => True end).
Proof using Hlen.
  intros Hc Hs. unfold pattern_find. step_with (rd_in pat). apply find_loop_safe; try done; [|lia]. destruct (Z.eqb_spec a 94) as [->|]; [|lia].
  specialize (H ltac:(done)). lia.
Qed.
End Values.

(** C16: an attempt to match ends with a legal error, or with the depth it
    was started with.  If it fails, the captures are those it was started with;
    if it succeeds, it ends in the subject and not before its start, all
    captures made so far are kept, except that open ones may be closed, and
    every capture lies in the subject. *)
Theorem match_restores src pat ms s p :
  Z.of_nat (length src) < 2 ^ 32 -> 0 <= p <= Z.of_nat (length pat) -> 0 <= s <= Z.of_nat (length src) -> ms_ok src s ms ->
  safe (match_ src pat ms s p) (fun '(o, ms') => depth ms' = depth ms /\
    match o with
    | None => ms_same ms ms'
    | Some e => s <= e <= Z.of_nat (length src) /\ ms_grow ms ms' /\ ms_ok src e ms'
    end).
Proof.
  intros Hl Hp Hs H. eapply safe_mono; [by apply match_safe|]. intros [[e|] ms'] [D P]; cbn in *; [|done]. split; [done|]. tauto.
Qed.

Lemma match_restores_witness :
  let src := [97; 98] in let pat := [40; 97; 41; 120] in let ms := mkMS 0 7 (repeat (mkCap 7 7) 32) in
  safe (match_ src pat ms 0 0) (fun '(o, ms') => depth ms' = depth ms /\
    match o with
    | None => ms_same ms ms'
    | Some e => 0 <= e <= Z.of_nat (length src) /\ ms_grow ms ms' /\ ms_ok src e ms'
    end).
Proof. intros src pat ms. apply (match_restores src pat ms 0 0); [done|cbn; lia|cbn; lia|]. split; [done|done|cbn; lia]. Defined.

(** ** [string.find] and [string.match] *)

Lemma content_bytes s : str_wf s -> bytes (content s).
Proof. intros (Hb & _). by apply Forall_take. Qed.

Lemma find_start_bounds LJ_52 len start st : 0 <= len < 2 ^ 31 -> is_i32 start -> find_start LJ_52 len start = Some st -> 0 <= st <= len.
Proof.
  intros Hl Hs. unfold find_start. rewrite (i32_id len) by (widths; lia). set (a := if start <? 0 then _ else _).
  assert (a <= 2 ^ 31) as Ha. { subst a. destruct (Z.ltb_spec start 0); [rewrite i32_id by (widths; lia)|]; unfold is_i32 in Hs; lia. }
  destruct (Z.ltb_spec a 0); [destruct (Z.ltb_spec len 0); [lia|intros [= <-]; lia]|].
  destruct (Z.ltb_spec len a); [destruct LJ_52; [done|]|]; intros [= <-]; lia.
Qed.

Lemma plain_find_ends s p st : str_wf s -> str_wf p -> 0 <= st <= str_len s ->
  exists r, lj_str_find (drop (Z.to_nat st) (str_data s)) (str_data p) (str_len s - st) (str_len p) = Some r /\
    match r with
    | Some q => occurs (drop (Z.to_nat st) (str_data s)) (str_data p) (str_len s - st) (str_len p) q /\
        forall j, j < q -> ~ occurs (drop (Z.to_nat st) (str_data s)) (str_data p) (str_len s - st) (str_len p) j
    | None => forall j, ~ occurs (drop (Z.to_nat st) (str_data s)) (str_data p) (str_len s - st) (str_len p) j
    end.
Proof.
  intros (_ & Hl & Hd) (_ & Hlp & Hdp) Hst. unfold LJ_MAX_STR in *. apply lj_str_find_first; rewrite ?length_drop; lia.
Qed.

(** C11: [string.find] and [string.match] end for every subject, every pattern,
    well-formed or not, and every start: they never read outside of the two
    strings or of the array of captures, and give at least one value, which is
    nil alone, or integers and pieces of the subject. *)
Theorem str_find_aux_safe LJ_52 caps s p start plain fnd :
  str_wf s -> str_wf p -> is_i32 start -> length caps = Z.to_nat LUA_MAXCAPTURES ->
  safe (str_find_aux LJ_52 caps s p start plain fnd) (fun l => l <> [] /\ (l = [VNil] \/ Forall (text_of (content s)) l)).
Proof.
  intros Hs Hp Hst Hc. pose proof Hs as (_ & Hl & _). unfold LJ_MAX_STR in Hl. unfold str_find_aux. destruct (find_start _ _ _) as [st|] eqn:Est; [|by cbn; auto].
  apply find_start_bounds in Est; [|lia|done]. pose proof (length_content s Hs) as L. destruct (fnd && _).
  { destruct (plain_find_ends s p st Hs Hp Est) as (r & -> & _). destruct r; cbn; [|by auto]. split; [done|]. right. repeat constructor. }
  eapply safe_bind; [apply pattern_find_safe; [lia|done|lia]|]. intros [[[i e] ms]|] K; [|by cbn; auto]. destruct K as (K1 & K2 & K3). destruct fnd.
  - eapply safe_bind; [eapply push_captures_safe; done|]. intros l [Hf _]. cbn. split; [done|]. right. by repeat constructor.
  - eapply safe_mono; [eapply push_captures_safe; [done|]|].
    + intros s1 e1 [= <- <-]. lia.
    + cbn. intros l [Hf Hn]. split; [by apply Hn|by right].
Qed.

Lemma str_find_aux_safe_witness :
  let s := mkGCstr 0 0 0 3 [97; 98; 97; 0] in let p := mkGCstr 0 0 0 4 [40; 91; 37; 43; 0] in
  safe (str_find_aux false (repeat (mkCap 7 7) 32) s p 1 false true) (fun l => l <> [] /\ (l = [VNil] \/ Forall (text_of (content s)) l)).
Proof.
  intros s p. apply (str_find_aux_safe false (repeat (mkCap 7 7) 32) s p 1 false true); [| |widths; lia|done].
  all: split_and!; [repeat (constructor; [widths; lia|]); constructor|done|done|cbn; lia].
Defined.

(** ** The first match *)

Section Best.
Context (src pat : list Z).
Abbreviation slen := (Z.of_nat (length src)).
Context (Hsrc : bytes src) (Hpat : bytes pat) (Hlen : slen < 2 ^ 32).

(** The places where a match may start. *)
Definition starts (anchor : bool) (st : Z) : list Z := if anchor then [st] else seqZ st (slen - st + 1).

(** All matches from [st] on, best first: start, end and captures. *)
Definition matches (l : list Item) (anchor : bool) (st : Z) : list (Z * (Z * list Capture)) :=
  flat_map (fun i => pair i <$> sem src l i []) (starts anchor st).

Definition found (r : pres (option (Z * Z * MatchState))) (o : option (Z * (Z * list Capture))) : Prop :=
  match o with
  | Some (i, (e, caps)) => exists ms, r = Ok (Some (i, e, ms)) /\ abs ms = caps
  | None => r = Ok None
  end.

Lemma matches_cons l anchor s : 0 <= s <= slen ->
  matches l anchor s = (pair s <$> sem src l s []) ++ (if anchor then [] else if s <? slen then matches l anchor (s + 1) else []).
Proof.
  intros Hs. unfold matches, starts. destruct anchor; [done|]. rewrite seqZ_cons by lia. cbn [flat_map]. f_equal. destruct (Z.ltb_spec s slen).
  - do 2 f_equal; lia.
  - by rewrite (seqZ_nil (Z.succ s)) by lia.
Qed.

Lemma find_loop_spec l p t anchor fuel : text_at pat p t -> parsed t l -> well_formed [] l = true -> 1 + nested_calls l <= LJ_MAX_XLEVEL ->
  forall caps s, length caps = Z.to_nat LUA_MAXCAPTURES -> 0 <= s <= slen -> slen - s < Z.of_nat fuel ->
  found (find_loop src pat fuel caps s p anchor) (head (matches l anchor s)).
Proof using Hsrc Hpat Hlen.
  intros Ht Hp Hw Hn. induction fuel as [|fuel IH]; intros caps s Hc Hs Hf; [lia|]. cbn [find_loop].
  pose proof (match_spec src pat Hsrc Hpat Hlen p t l (ms_init caps) s Ht Hp (ms_init_ok _ _ _ Hc) Hs Hw Hn) as R.
  pose proof (attempt_safe src pat Hlen caps s p Hc (proj1 Ht) Hs) as Sf. change (abs (ms_init caps)) with (@nil Capture) in R.
  rewrite matches_cons by done.
  unfold returns in R. destruct (sem src l s []) as [|[e c] l'] eqn:E; cbn [fmap list_fmap app head] in *.
  - destruct R as (ms' & Em). rewrite Em in Sf |- *. cbn in Sf |- *. destruct Sf as [Hc' _]. unfold src_end.
    destruct anchor; [by rewrite andb_false_r|]. rewrite andb_true_r. destruct (Z.ltb_spec s slen); [|done]. apply IH; [done|lia..].
  - destruct R as (ms' & -> & Ea). by exists ms'.
Qed.

Lemma parse_pattern_parsed t l : parse_pattern t = Some l -> parsed t l.
Proof. intros H. by eexists. Qed.

Lemma pattern_find_spec l caps st : parse_pattern (if peek pat =? 94 then tail pat else pat) = Some l -> well_formed [] l = true ->
  1 + nested_calls l <= LJ_MAX_XLEVEL -> length caps = Z.to_nat LUA_MAXCAPTURES -> 0 <= st <= slen ->
  found (pattern_find src pat caps st) (head (matches l (peek pat =? 94) st)).
Proof using Hsrc Hpat Hlen.
  intros Hl%parse_pattern_parsed Hw Hn Hc Hs. unfold pattern_find.
  assert (text_at pat 0 pat) as Ht by (split; [lia|done]). rewrite (text_peek _ _ _ Ht). cbn [mbind res_bind].
  eapply find_loop_spec; try done; [|lia]. destruct (peek pat =? 94) eqn:E; [|done]. destruct pat as [|c t]; [done|]. by apply text_cons in Ht as [_ Ht].
Qed.
End Best.

(** C5: the search for a well-formed pattern with at most 199 nested calls
    raises no error and gives the first of all matches of the pattern: the
    leftmost start, and there the match that the repetitions prefer, with its
    captures; and it finds nothing if there is no match at all.  An anchor
    allows the first place only. *)
Theorem pattern_find_first src pat l caps st :
  bytes src -> bytes pat -> Z.of_nat (length src) < 2 ^ 32 ->
  parse_pattern (if peek pat =? 94 then tail pat else pat) = Some l -> well_formed [] l = true -> 1 + nested_calls l <= LJ_MAX_XLEVEL ->
  length caps = Z.to_nat LUA_MAXCAPTURES -> 0 <= st <= Z.of_nat (length src) ->
  match head (matches src l (peek pat =? 94) st) with
  | Some (i, (e, c)) => exists ms, pattern_find src pat caps st = Ok (Some (i, e, ms)) /\ abs ms = c
  | None => pattern_find src pat caps st = Ok None
  end.
Proof. intros. by apply pattern_find_spec. Qed.

(** "(%w-)%1-$" on "-abab-" *)
Lemma pattern_find_first_witness :
  let src := [45; 97; 98; 97; 98; 45] in let pat := [40; 37; 119; 45; 41; 37; 49; 45; 36] in
  exists ms, pattern_find src pat (repeat (mkCap 7 7) 32) 0 = Ok (Some (1, 6, ms)) /\ abs ms = [mkCap 1 2].
Proof.
  intros src pat.
  exact (pattern_find_first src pat
    [IOpen; ISingle (SClass 119) QMin; IClose; IBack 0; ISingle (SChar 45) QOne; IEnd] (repeat (mkCap 7 7) 32) 0
    ltac:(repeat (constructor; [widths; lia|]); constructor) ltac:(repeat (constructor; [widths; lia|]); constructor)
    ltac:(done) ltac:(by vm_compute) ltac:(by vm_compute) ltac:(by vm_compute) ltac:(done) ltac:(done)).
Defined.

(** One more nested call is too many: "a?" 200 times, on as many letters. *)
Example nested_calls_limit :
  let pat := concat (repeat [97; 63] 200) in
  nested_calls <$> parse_pattern pat = Some 200 /\
  match_ (repeat 97 200) pat (ms_init (repeat (mkCap 7 7) 32)) 0 0 = Err STRPATX.
Proof. by vm_compute. Qed.

(** ** Plain patterns *)

Definition literal (t : list Z) : list Item := (fun c => ISingle (SChar c) QOne) <$> t.

(** No character of [t] has a meaning in a pattern, nor is it NUL. *)
Definition plain (t : list Z) : Prop := forall c, c ∈ t -> (c ∉ pattern_chars) /\ c <> 41 /\ c <> 0.

Lemma plain_cons c t : plain (c :: t) -> ((c ∉ pattern_chars) /\ c <> 41 /\ c <> 0) /\ plain t.
Proof. intros H. split; [apply H; by left|]. intros d Hd. apply H. by right. Qed.

Lemma parse_quant_plain t : plain t -> parse_quant t = (QOne, t).
Proof.
  destruct t as [|c t]; [done|]. intros [[H [H1 H2]] _]%plain_cons. cbn. unfold pattern_chars in H. rewrite !not_elem_of_cons in H.
  by rewrite !(proj2 (Z.eqb_neq c _)) by tauto.
Qed.

Lemma parse_item_plain c t : plain (c :: t) -> parse_item (c :: t) = Some (ISingle (SChar c) QOne, t).
Proof.
  intros [[H [H1 H2]] Ht]%plain_cons. unfold pattern_chars in H. rewrite !not_elem_of_cons in H.
  cbn [parse_item parse_single]. rewrite !(proj2 (Z.eqb_neq c _)) by tauto. cbn [andb]. by rewrite parse_quant_plain.
Qed.

Lemma parse_plain t : plain t -> parse_pattern t = Some (literal t).
Proof.
  unfold parse_pattern. induction t as [|c t IH]; [done|]. intros H. pose proof (plain_cons _ _ H) as [[_ [_ H0]] Ht]. cbn [length].
  remember (S (length t)) as n. cbn [parse at_end]. rewrite (proj2 (Z.eqb_neq c 0)), parse_item_plain, IH by done. done.
Qed.

Lemma well_formed_literal t : well_formed [] (literal t) = true.
Proof. by induction t. Qed.

Lemma nested_calls_literal t : nested_calls (literal t) = 0.
Proof. induction t as [|c t IH]; [done|]. unfold literal in *. rewrite fmap_cons, nested_calls_cons, IH. done. Qed.

Lemma sem_literal src t : forall s caps, 0 <= s <= Z.of_nat (length src) ->
  sem src (literal t) s caps =
    if bool_decide (s + Z.of_nat (length t) <= Z.of_nat (length src) /\ slice src s (Z.of_nat (length t)) = t)
    then [(s + Z.of_nat (length t), caps)] else [].
Proof.
  induction t as [|c t IH]; intros s caps Hs.
  { cbn. rewrite bool_decide_true by (split; [lia|done]). do 2 f_equal. lia. }
  cbn [literal fmap list_fmap sem]. rewrite (run_step src (SChar c) s Hs). unfold hit. cbn [single_in length].
  destruct (Z.ltb_spec s (Z.of_nat (length src))); cbn [andb].
  2: { rewrite bool_decide_false; [done|]. lia. }
  rewrite slice_S by lia. replace (Z.of_nat (S (length t)) - 1) with (Z.of_nat (length t)) by lia.
  destruct (Z.eqb_spec c (byte_at src s)) as [E|]; cbn [counts flat_map].
  2: { rewrite bool_decide_false; [done|]. intros [_ [= ? _]]. congruence. }
  rewrite app_nil_r. change (Z.of_nat 1) with 1. rewrite IH by lia. rewrite <- E.
  rewrite (bool_decide_ext _ (s + Z.of_nat (S (length t)) <= Z.of_nat (length src) /\ c :: slice src (s + 1) (Z.of_nat (length t)) = c :: t)).
  - case_bool_decide; [do 2 f_equal; lia|done].
  - split; intros [? K]; (split; [lia|congruence]).
Qed.

(** The text [t] is in the subject at [i]. *)
Definition text_here (src t : list Z) (i : Z) : Prop :=
  i + Z.of_nat (length t) <= Z.of_nat (length src) /\ slice src i (Z.of_nat (length t)) = t.

Lemma matches_literal_step src t s : 0 <= s <= Z.of_nat (length src) ->
  matches src (literal t) false s =
    (if bool_decide (text_here src t s) then [(s, (s + Z.of_nat (length t), []))] else []) ++
    (if s <? Z.of_nat (length src) then matches src (literal t) false (s + 1) else []).
Proof. intros Hs. rewrite matches_cons, sem_literal by done. unfold text_here. by case_bool_decide. Qed.

Lemma matches_literal_first src t n : forall s, 0 <= s -> s + Z.of_nat n <= Z.of_nat (length src) ->
  text_here src t (s + Z.of_nat n) -> (forall j, s <= j < s + Z.of_nat n -> ~ text_here src t j) ->
  head (matches src (literal t) false s) = Some (s + Z.of_nat n, (s + Z.of_nat n + Z.of_nat (length t), [])).
Proof.
  induction n as [|n IH]; intros s Hs Hn Ht Hno; rewrite matches_literal_step by lia.
  - rewrite Z.add_0_r in *. by rewrite bool_decide_true.
  - rewrite bool_decide_false by (apply Hno; lia). rewrite (proj2 (Z.ltb_lt _ _)) by lia. cbn [app].
    replace (s + Z.of_nat (S n)) with (s + 1 + Z.of_nat n) in * by lia. apply IH; try done; try lia. intros j Hj. apply Hno. lia.
Qed.

Lemma matches_literal_none src t n : forall s, 0 <= s -> s + Z.of_nat n = Z.of_nat (length src) ->
  (forall j, s <= j <= Z.of_nat (length src) -> ~ text_here src t j) -> matches src (literal t) false s = [].
Proof.
  induction n as [|n IH]; intros s Hs Hn Hno; rewrite matches_literal_step, bool_decide_false by (lia || (apply Hno; lia)).
  - by rewrite (proj2 (Z.ltb_ge _ _)) by lia.
  - rewrite (proj2 (Z.ltb_lt _ _)) by lia. apply IH; try lia. intros j Hj. apply Hno. lia.
Qed.

Lemma occurs_here s p st q : str_wf s -> str_wf p -> 0 <= st -> 0 <= q ->
  occurs (drop (Z.to_nat st) (str_data s)) (str_data p) (str_len s - st) (str_len p) q <-> text_here (content s) (content p) (st + q).
Proof.
  intros Hs Hp Hst Hq. unfold occurs, text_here. rewrite !length_content by done. pose proof Hs as (_ & Hl & Hd). pose proof Hp as (_ & Hlp & Hdp).
  assert (slice (drop (Z.to_nat st) (str_data s)) q (str_len p) = slice (str_data s) (st + q) (str_len p)) as ->.
  { unfold slice. rewrite drop_drop. do 2 f_equal. lia. }
  assert (slice (str_data p) 0 (str_len p) = content p) as -> by done.
  split.
  - intros (_ & H1 & H2). split; [lia|]. unfold content at 1. by rewrite slice_take by lia.
  - intros (H1 & H2). split_and!; [done|lia|]. unfold content in H2 at 1. by rewrite slice_take in H2 by lia.
Qed.

Lemma literal_find s p caps st : str_wf s -> str_wf p -> plain (content p) -> length caps = Z.to_nat LUA_MAXCAPTURES -> 0 <= st <= str_len s ->
  found (pattern_find (content s) (content p) caps st) (head (matches (content s) (literal (content p)) false st)).
Proof.
  intros Hs Hp Hpl Hc Hst. pose proof Hs as (_ & Hl & _). unfold LJ_MAX_STR in Hl. pose proof (length_content s Hs) as L.
  assert ((peek (content p) =? 94) = false) as E.
  { destruct (content p) as [|c t]; [done|]. apply plain_cons in Hpl as [[H _] _]. apply Z.eqb_neq. intros E. cbn in E. subst c. apply H. by left. }
  pose proof (pattern_find_spec (content s) (content p) (content_bytes s Hs) (content_bytes p Hp) ltac:(lia) (literal (content p)) caps st) as F.
  rewrite E in F. apply F; try done; [by apply parse_plain|apply well_formed_literal|by rewrite nested_calls_literal|lia].
Qed.

(** C20: for a pattern without characters that have a meaning the search for a
    fixed string, which [string.find] uses instead of the matcher, gives what
    the matcher gives: the same place, the end of the string there, and no
    captures; or nothing, as the matcher does. *)
Theorem find_plain_agrees s p caps st :
  str_wf s -> str_wf p -> plain (content p) -> length caps = Z.to_nat LUA_MAXCAPTURES -> 0 <= st <= str_len s ->
  exists r, lj_str_find (drop (Z.to_nat st) (str_data s)) (str_data p) (str_len s - st) (str_len p) = Some r /\
    match r with
    | Some q => exists ms, pattern_find (content s) (content p) caps st = Ok (Some (st + q, st + q + str_len p, ms)) /\ level ms = 0
    | None => pattern_find (content s) (content p) caps st = Ok None
    end.
Proof.
  intros Hs Hp Hpl Hc Hst. destruct (plain_find_ends s p st Hs Hp Hst) as (r & E & Hr). exists r. split; [done|].
  pose proof (literal_find s p caps st Hs Hp Hpl Hc Hst) as F. pose proof (length_content s Hs) as L. pose proof Hs as (_ & Hl & _). unfold LJ_MAX_STR in Hl.
  pose proof (pattern_find_safe (content s) (content p) ltac:(lia) caps st Hc ltac:(lia)) as Sf. destruct r as [q|].
  - destruct Hr as [Ho Hno]. assert (0 <= q) as Hq by apply Ho. pose proof Ho as (_ & Hb & _). pose proof Hp as (_ & Hlp & _).
    rewrite occurs_here in Ho by (done || lia). replace q with (Z.of_nat (Z.to_nat q)) in Ho by lia.
    rewrite (matches_literal_first (content s) (content p) (Z.to_nat q) st ltac:(lia) ltac:(lia) Ho) in F.
    2: { intros j Hj Hj'. apply (Hno (j - st)); [lia|]. apply occurs_here; [done..|lia|lia|]. by replace (st + (j - st)) with j by lia. }
    rewrite Z2Nat.id, length_content in F by done. destruct F as (ms & Ef & Ea). exists ms. split; [done|]. rewrite Ef in Sf. destruct Sf as (_ & _ & K).
    pose proof (abs_length _ _ _ K) as La. rewrite Ea in La. cbn in La. lia.
  - rewrite (matches_literal_none _ _ (Z.to_nat (str_len s - st)) st) in F; [done|lia|lia|].
    intros j Hj Hj'. apply (Hr (j - st)). apply occurs_here; [done..|lia|lia|]. by replace (st + (j - st)) with j by lia.
Qed.

Lemma find_plain_agrees_witness :
  let s := mkGCstr 0 0 0 4 [120; 97; 93; 97; 0] in let p := mkGCstr 0 0 0 2 [97; 93; 0] in
  exists r, lj_str_find (drop (Z.to_nat 0) (str_data s)) (str_data p) (str_len s - 0) (str_len p) = Some r /\
    match r with
    | Some q => exists ms, pattern_find (content s) (content p) (repeat (mkCap 7 7) 32) 0 = Ok (Some (0 + q, 0 + q + str_len p, ms)) /\ level ms = 0
    | None => pattern_find (content s) (content p) (repeat (mkCap 7 7) 32) 0 = Ok None
    end.
Proof.
  intros s p. apply (find_plain_agrees s p (repeat (mkCap 7 7) 32) 0).
  - split_and!; [repeat (constructor; [widths; lia|]); constructor|done|done|cbn; lia].
  - split_and!; [repeat (constructor; [widths; lia|]); constructor|done|done|cbn; lia].
  - intros c Hc. change (content p) with [97; 93] in Hc. rewrite !elem_of_cons in Hc. destruct Hc as [->|[->|Hc]]; [..|by apply elem_of_nil in Hc].
    all: split_and!; [apply (bool_decide_eq_false_1 _); by vm_compute|done|done].
  - done.
  - done.
Defined.
