(* ===== verification/PattGsub.v ===== *)
(** * Pattern matching: [string.gmatch] and [string.gsub]

    Iteration and substitution end, and a substitution replaces matches and
    nothing else. *)

From S2P Require Import Prelude Machine Chars Strs Num Buf Strfmt Patt PattSafe PattSem PattMatch PattProps.

(** ** [string.gmatch] *)

Section Gmatch.
Context (str pat : list Z) (Hlen : Z.of_nat (length str) < LJ_MAX_STR).
Abbreviation slen := (Z.of_nat (length str)).

Lemma gmatch_loop_safe fuel : forall caps src, length caps = Z.to_nat LUA_MAXCAPTURES -> 0 <= src -> slen + 1 - src < Z.of_nat fuel ->
  0 < Z.of_nat fuel ->
  safe (gmatch_loop str pat fuel caps src) (fun r => match r with Some (i, e, ms) => src <= i <= e /\ e <= slen /\ ms_ok str e ms | None => True end).
Proof using Hlen.
  induction fuel as [|fuel IH]; intros caps src Hc Hs Hf H0; [lia|]. cbn [gmatch_loop]. unfold src_end, LJ_MAX_STR in *.
  destruct (Z.leb_spec src slen); [|done].
  eapply safe_bind; [apply attempt_safe; try done; lia|]. intros [[e|] ms] [Hcm P]; cbn in P, Hcm; [cbn; split_and!; try lia; tauto|].
  eapply safe_mono; [apply IH; try done; lia|]. cbn. intros [[[i e] ms']|]; [|done]. intros (? & ? & ?). split_and!; [lia..|done].
Qed.

(** One call of the iterator: the values of a match, and the position moves
    on; or no values. *)
Lemma gmatch_aux_safe caps pos : length caps = Z.to_nat LUA_MAXCAPTURES -> 0 <= pos ->
  safe (string_gmatch_aux str pat caps pos) (fun r =>
    Forall (text_of str) r.1 /\ (r.1 <> [] -> pos < r.2 <= slen + 1)).
Proof using Hlen.
  intros Hc Hp. unfold string_gmatch_aux. eapply safe_bind; [apply gmatch_loop_safe; try done; lia|].
  intros [[[i e] ms]|] K; [|by cbn]. destruct K as (K1 & K2 & K3). unfold LJ_MAX_STR in *.
  eapply safe_bind; [eapply push_captures_safe; [done|]; intros s1 e1 [= <- <-]; lia|]. intros l [Hf _]. cbn. split; [done|]. intros _.
  rewrite (i32_id e) by (widths; lia). destruct (Z.eqb_spec e i); [rewrite (i32_id (e + 1)) by (widths; lia)|]; rewrite u32_id by (widths; lia); lia.
Qed.

(** The [for] loop of a Lua program: calls of the iterator until it gives no
    values, the values of all calls. *)
Fixpoint gmatch_all (fuel : nat) (caps : list Capture) (pos : Z) : pres (list (list LuaVal)) :=
  match fuel with
  | O => Err FUEL
  | S fuel =>
      '(l, pos) ← string_gmatch_aux str pat caps pos;
      match l with
      | [] => Ok []
      | _ => cons l <$> gmatch_all fuel caps pos
      end
  end.

Lemma gmatch_all_safe fuel caps : forall pos, length caps = Z.to_nat LUA_MAXCAPTURES -> 0 <= pos -> slen + 1 - pos < Z.of_nat fuel -> 0 < Z.of_nat fuel ->
  safe (gmatch_all fuel caps pos) (fun ls => Forall (Forall (text_of str)) ls /\ Z.of_nat (length ls) <= Z.max 0 (slen + 1 - pos)).
Proof using Hlen.
  induction fuel as [|fuel IH]; intros pos Hc Hp Hf H0; [lia|]. cbn [gmatch_all]. eapply safe_bind; [by apply gmatch_aux_safe|].
  intros [[|v l] pos'] [Hl Hpos]; cbn in Hl, Hpos; [cbn; split; [done|lia]|]. specialize (Hpos ltac:(done)).
  apply safe_fmap. eapply safe_mono; [apply IH; try done; lia|]. cbn. intros ls [K1 K2]. split; [by constructor|lia].
Qed.
End Gmatch.

(** C19: a loop over the matches of any pattern ends after at most one round
    for every place of the subject, the end included, whether the matches are
    empty or not. *)
Theorem gmatch_ends str pat caps :
  Z.of_nat (length str) < LJ_MAX_STR -> length caps = Z.to_nat LUA_MAXCAPTURES ->
  safe (gmatch_all str pat (S (S (length str))) caps 0) (fun ls =>
    Forall (Forall (text_of str)) ls /\ Z.of_nat (length ls) <= Z.of_nat (length str) + 1).
Proof.
  intros Hl Hc. eapply safe_mono; [apply gmatch_all_safe; try done; lia|]. cbn. intros ls [K1 K2]. split; [done|lia].
Qed.

Lemma gmatch_ends_witness :
  gmatch_all [97; 98; 98] [98; 42] 5 (repeat (mkCap 7 7) 32) 0 = Ok [[VStr []]; [VStr [98; 98]]; [VStr []]] /\
  safe (gmatch_all [97; 98; 98] [98; 42] 5 (repeat (mkCap 7 7) 32) 0) (fun ls =>
    Forall (Forall (text_of [97; 98; 98])) ls /\ Z.of_nat (length ls) <= 3 + 1).
Proof. split; [by vm_compute|]. by apply (gmatch_ends [97; 98; 98] [98; 42] (repeat (mkCap 7 7) 32)). Defined.

(** ** [string.gsub] *)

Section Gsub.
Context {St : Type} (ask : St -> list LuaVal -> pres (St * LuaVal)) (num_text : Z -> list Z).
Context (src pat : list Z) (repl : Repl) (Hlen : Z.of_nat (length src) < LJ_MAX_STR).
Abbreviation slen := (Z.of_nat (length src)).
Abbreviation plen := (Z.of_nat (length pat)).
Hypothesis Hask : forall L l, safe (ask L l) (fun _ => True).

(** An attempt to match the pattern from [p] on at [s]. *)
Definition attempt (p s : Z) (o : option Z) (ms : MatchState) : Prop :=
  exists caps, length caps = Z.to_nat LUA_MAXCAPTURES /\ match_ src pat (ms_init caps) s p = Ok (o, ms).

(** There is a match from [s] to [e], for which [new] is added. *)
Definition replacement (p : Z) (L : St) (s e : Z) (L' : St) (new : list Z) : Prop :=
  exists ms, attempt p s (Some e) ms /\ s <= e <= slen /\ add_value ask num_text src repl L ms [] s e = Ok (L', new).

(** What a substitution means: [gsub_run p L m s L' v n] if the text from [s]
    on becomes [v] with [n] replacements, of which [m] are allowed.  Matches
    are replaced from the left to the right, and do not overlap; a character
    is kept if there is no match, or an empty one, in front of it. *)
Inductive gsub_run (p : Z) : St -> Z -> Z -> St -> list Z -> Z -> Prop :=
| run_limit L m s : m <= 0 -> gsub_run p L m s L (drop (Z.to_nat s) src) 0
| run_end L m ms : attempt p slen None ms -> gsub_run p L m slen L [] 0
| run_last L m L' new : 0 < m -> replacement p L slen slen L' new -> gsub_run p L m slen L' new 1
| run_keep L m s ms L' v n : s < slen -> attempt p s None ms -> gsub_run p L m (s + 1) L' v n ->
    gsub_run p L m s L' (byte_at src s :: v) n
| run_empty L m s L1 new L' v n : 0 < m -> s < slen -> replacement p L s s L1 new -> gsub_run p L1 (m - 1) (s + 1) L' v n ->
    gsub_run p L m s L' (new ++ byte_at src s :: v) (n + 1)
| run_match L m s e L1 new L' v n : 0 < m -> s < e -> replacement p L s e L1 new -> gsub_run p L1 (m - 1) e L' v n ->
    gsub_run p L m s L' (new ++ v) (n + 1).

(** With an anchor there is one attempt, at the start. *)
Inductive gsub_once (p : Z) : St -> Z -> St -> list Z -> Z -> Prop :=
| once_limit L m : m <= 0 -> gsub_once p L m L src 0
| once_none L m ms : attempt p 0 None ms -> gsub_once p L m L src 0
| once_match L m e L' new : 0 < m -> replacement p L 0 e L' new -> gsub_once p L m L' (new ++ drop (Z.to_nat e) src) 1.

(** A digit other than 0 in the replacement names a capture that has a text. *)
Lemma capture_text ms s e s' c : ms_ok src s' ms -> 0 <= s <= e -> e <= slen -> nz (lj_char_isdigit c) = true -> c <> 48 -> -1 <= c <= 255 ->
  safe (push_onecapture src ms (c - 49) s e) (fun v => is_Some (value_text num_text v)).
Proof using.
  intros H Hs He Hd H48 Hc. assert (49 <= c). { rewrite (proj1 (proj2 (proj2 (proj2 (lj_char_correct c Hc))))) in Hd. unfold c_isdigit, between in Hd. lia. }
  eapply safe_mono; [eapply push_onecapture_safe; [done|lia..]|]. intros v Hv. by destruct v.
Qed.

Lemma fmap_bind_res {A B C} (g : B -> C) (m : pres A) (f : A -> pres B) : g <$> (m ≫= f) = m ≫= fun a => g <$> f a.
Proof. by destruct m. Qed.

Lemma bind_ext_res {A B} (m : pres A) (f g : A -> pres B) : (forall a, f a = g a) -> m ≫= f = m ≫= g.
Proof. intros H. destruct m; [apply H|done]. Qed.

(** The text is added behind what is there. *)
Lemma add_s_loop_app fuel ms news s e : forall b0 b i,
  add_s_loop num_text src fuel ms news (b0 ++ b) i s e = app b0 <$> add_s_loop num_text src fuel ms news b i s e.
Proof using.
  induction fuel as [|fuel IH]; intros b0 b i; [done|]. cbn [add_s_loop]. destruct (i <? _); [|done].
  rewrite fmap_bind_res. apply bind_ext_res. intros c. destruct (negb (c =? L_ESC)); [by rewrite <- app_assoc, IH|].
  rewrite fmap_bind_res. apply bind_ext_res. intros d. destruct (negb (nz (lj_char_isdigit d))); [by rewrite <- app_assoc, IH|].
  destruct (d =? 48); rewrite fmap_bind_res; apply bind_ext_res; intros t; [by rewrite <- app_assoc, IH|].
  destruct (value_text num_text t); [by rewrite <- app_assoc, IH|done].
Qed.

Lemma add_result_app b s e v : add_result num_text src b s e v = app b <$> add_result num_text src [] s e v.
Proof. unfold add_result. destruct v; try (destruct (value_text _ _)); try done; by destruct (rdmem src s (e - s)). Qed.

Lemma add_value_app L ms b s e : add_value ask num_text src repl L ms b s e = prod_map id (app b) <$> add_value ask num_text src repl L ms [] s e.
Proof.
  unfold add_value. destruct repl as [news| |].
  - unfold add_s. rewrite <- (app_nil_r b) at 1. rewrite add_s_loop_app. by destruct (add_s_loop _ _ _ _ _ [] _ _ _).
  - rewrite fmap_bind_res. apply bind_ext_res. intros k. rewrite fmap_bind_res. apply bind_ext_res. intros [L' v]. rewrite add_result_app. by destruct (add_result _ _ [] _ _ _).
  - rewrite fmap_bind_res. apply bind_ext_res. intros k. rewrite fmap_bind_res. apply bind_ext_res. intros [L' v]. rewrite add_result_app. by destruct (add_result _ _ [] _ _ _).
Qed.

Lemma add_s_loop_safe fuel ms news s e s' : bytes news -> ms_ok src s' ms -> 0 <= s <= e -> e <= slen ->
  forall b i, 0 <= i -> Z.of_nat (length news) - i < Z.of_nat fuel -> 0 < Z.of_nat fuel -> safe (add_s_loop num_text src fuel ms news b i s e) (fun _ => True).
Proof using.
  intros Hb H Hs He. induction fuel as [|fuel IH]; intros b i Hi Hf H0; [lia|]. cbn [add_s_loop]. destruct (Z.ltb_spec i (Z.of_nat (length news))); [|done].
  eapply safe_bind; [apply rd_in; lia|]. intros c _. destruct (negb (c =? L_ESC)); [apply IH; lia|].
  eapply safe_bind; [apply rd_safe_bytes; [done|lia]|]. intros d Hd. destruct (nz (lj_char_isdigit d)) eqn:Edig; cbn [negb]; [|apply IH; lia].
  destruct (Z.eqb_spec d 48).
  - rewrite rdmem_safe by lia. cbn [mbind res_bind]. apply IH; lia.
  - eapply safe_bind; [eapply capture_text; try done; widths; lia|]. intros v [t ->]. apply IH; lia.
Qed.

Lemma add_result_safe b s e v : 0 <= s <= e -> e <= slen -> safe (add_result num_text src b s e v) (fun _ => True).
Proof using. intros Hs He. unfold add_result. destruct v; try done; rewrite rdmem_safe by lia; done. Qed.

Hypothesis Hrepl : match repl with RString news => bytes news | _ => True end.

Lemma add_value_safe L ms b s e s' : ms_ok src s' ms -> 0 <= s <= e -> e <= slen -> safe (add_value ask num_text src repl L ms b s e) (fun _ => True).
Proof using Hask Hrepl.
  intros H Hs He. unfold add_value. destruct repl as [news| |].
  - eapply safe_bind; [eapply add_s_loop_safe; try done; lia|]. done.
  - eapply safe_bind; [eapply push_onecapture_safe; try done; lia|]. intros k _. eapply safe_bind; [apply Hask|]. intros [L' v] _.
    by eapply safe_bind; [by apply add_result_safe|].
  - eapply safe_bind; [eapply push_captures_safe; [done|]; intros s1 e1 [= <- <-]; lia|]. intros k _. eapply safe_bind; [apply Hask|]. intros [L' v] _.
    by eapply safe_bind; [by apply add_result_safe|].
Qed.

Lemma drop_byte s : 0 <= s < slen -> drop (Z.to_nat s) src = byte_at src s :: drop (Z.to_nat (s + 1)) src.
Proof.
  intros Hs. destruct (lookup_lt_is_Some_2 src (Z.to_nat s)) as [c E]; [lia|]. rewrite (drop_S _ _ _ E). unfold byte_at. rewrite E. cbn.
  by replace (Z.to_nat (s + 1)) with (S (Z.to_nat s)) by lia.
Qed.

(** What the loop leaves, with the rest of the subject. *)
Definition loop_post (Q : St -> list Z -> Z -> Prop) (b : list Z) (n : Z) (r : St * list Z * Z * Z) : Prop :=
  let '(L', b', n', s') := r in
  0 <= s' <= slen /\ exists v, b' ++ drop (Z.to_nat s') src = b ++ v /\ Q L' v (n' - n).

Lemma loop_post_mono (Q R : St -> list Z -> Z -> Prop) b b' n n' u r : loop_post Q b' n' r -> b' = b ++ u ->
  (forall L v k, Q L v k -> R L (u ++ v) (k + (n' - n))) -> loop_post R b n r.
Proof.
  destruct r as [[[L b1] n1] s1]. intros [H (v & E & HQ)] -> HR. split; [done|]. exists (u ++ v). split; [by rewrite E, app_assoc|].
  replace (n1 - n) with (n1 - n' + (n' - n)) by lia. by apply HR.
Qed.

Lemma attempt_cases caps s p : length caps = Z.to_nat LUA_MAXCAPTURES -> 0 <= p <= plen -> 0 <= s <= slen ->
  safe (match_ src pat (ms_init caps) s p) (fun '(e, ms) => length (capture ms) = Z.to_nat LUA_MAXCAPTURES /\ attempt p s e ms /\
    match e with Some e => s <= e <= slen /\ ms_ok src e ms | None => True end).
Proof using Hlen.
  intros Hc Hp Hs. pose proof (attempt_safe src pat ltac:(unfold LJ_MAX_STR in Hlen; lia) caps s p Hc Hp Hs) as A.
  destruct (match_ src pat (ms_init caps) s p) as [[e ms]|err] eqn:E; cbn in A |- *; [|done]. destruct A as [A1 A2].
  split; [done|]. split; [by exists caps|done].
Qed.

Lemma replacement_cases L ms b s e p : attempt p s (Some e) ms -> ms_ok src e ms -> 0 <= s <= e -> e <= slen ->
  safe (add_value ask num_text src repl L ms b s e) (fun '(L', b') => exists new, b' = b ++ new /\ replacement p L s e L' new).
Proof using Hask Hrepl.
  intros Ha H Hs He. pose proof (add_value_safe L ms [] s e e H Hs He) as A. rewrite add_value_app.
  destruct (add_value ask num_text src repl L ms [] s e) as [[L' new]|err] eqn:E; [|done]. cbn. exists new. split; [done|]. exists ms. split_and!; try done; lia.
Qed.

Lemma gsub_loop_safe p max_s fuel : 0 <= p <= plen -> forall L caps b n s, length caps = Z.to_nat LUA_MAXCAPTURES -> 0 <= s <= slen ->
  slen - s < Z.of_nat fuel ->
  safe (gsub_loop ask num_text src pat repl fuel L caps b n max_s s p false) (loop_post (gsub_run p L (max_s - n) s) b n).
Proof using Hlen Hask Hrepl.
  intros Hp. induction fuel as [|fuel IH]; intros L caps b n s Hc Hs Hf; [lia|]. cbn [gsub_loop]. destruct (Z.ltb_spec n max_s).
  2: { cbn. split; [done|]. eexists. split; [done|]. rewrite Z.sub_diag. apply run_limit. lia. }
  eapply safe_bind; [by apply attempt_cases|]. intros [[e|] ms] (Hcm & Ha & He).
  - eapply (safe_bind _ _ (fun '(L', b', n') => n' = n + 1 /\ exists new, b' = b ++ new /\ replacement p L s e L' new)).
    { eapply safe_bind; [eapply replacement_cases; try done; lia || tauto|]. intros [L' b'] K. by cbn. }
    intros [[L' b'] n'] (-> & new & -> & Hr). destruct (Z.ltb_spec s e) as [Hlt|].
    + eapply safe_mono; [apply IH; try done; lia|]. intros r Hl. eapply loop_post_mono; [exact Hl|done|]. intros L2 v k Hk.
      replace (n + 1 - n) with 1 by lia. eapply run_match; [lia|done|done|]. by replace (max_s - n - 1) with (max_s - (n + 1)) by lia.
    + destruct He as [He _]. assert (e = s) as -> by lia. unfold src_end. destruct (Z.ltb_spec s slen).
      * rewrite rd_src by lia. cbn [mbind res_bind]. eapply safe_mono; [apply IH; try done; lia|]. intros r Hl.
        eapply loop_post_mono; [exact Hl|by rewrite <- app_assoc|]. intros L2 v k Hk. rewrite <- app_assoc. replace (n + 1 - n) with 1 by lia.
        eapply run_empty; [lia|done|done|]. by replace (max_s - n - 1) with (max_s - (n + 1)) by lia.
      * assert (s = slen) as -> by lia. cbn. split; [done|]. exists new. rewrite drop_ge, app_nil_r by lia. split; [done|].
        replace (n + 1 - n) with 1 by lia. apply run_last; [lia|done].
  - cbn [mbind res_bind]. unfold src_end. destruct (Z.ltb_spec s slen).
    + rewrite rd_src by lia. cbn [mbind res_bind]. eapply safe_mono; [apply IH; try done; lia|]. intros r Hl.
      eapply loop_post_mono; [exact Hl|done|]. intros L2 v k Hk. replace (k + (n - n)) with k by lia. by eapply run_keep.
    + assert (s = slen) as -> by lia. cbn. split; [done|]. exists []. rewrite drop_ge, app_nil_r by lia. split; [done|]. rewrite Z.sub_diag. by eapply run_end.
Qed.

Lemma gsub_once_safe p max_s fuel L caps : 0 <= p <= plen -> length caps = Z.to_nat LUA_MAXCAPTURES ->
  safe (gsub_loop ask num_text src pat repl (S fuel) L caps [] 0 max_s 0 p true) (loop_post (gsub_once p L max_s) [] 0).
Proof using Hlen Hask Hrepl.
  intros Hp Hc. cbn [gsub_loop]. destruct (Z.ltb_spec 0 max_s).
  2: { cbn. split; [lia|]. exists src. split; [done|]. apply once_limit. lia. }
  eapply safe_bind; [apply attempt_cases; try done; lia|]. intros [[e|] ms] (Hcm & Ha & He).
  - eapply (safe_bind _ _ (fun '(L', b', n') => n' = 1 /\ replacement p L 0 e L' b')).
    { eapply safe_bind; [eapply replacement_cases; try done; lia || tauto|]. intros [L' b'] (new & -> & K). by cbn. }
    intros [[L' b'] n'] (-> & Hr). destruct He as [He _]. destruct (Z.ltb_spec 0 e).
    + cbn. split; [done|]. eexists. split; [done|]. by apply once_match.
    + assert (e = 0) as -> by lia. unfold src_end. destruct (Z.ltb_spec 0 slen).
      * rewrite rd_src by lia. cbn [mbind res_bind safe loop_post]. split; [lia|]. exists (b' ++ drop (Z.to_nat 0) src).
        split; [by rewrite <- app_assoc, (drop_byte 0) by lia|by apply once_match].
      * cbn. split; [lia|]. eexists. split; [done|]. by apply once_match.
  - cbn [mbind res_bind]. unfold src_end. destruct (Z.ltb_spec 0 slen).
    + rewrite rd_src by lia. cbn [mbind res_bind safe loop_post]. split; [lia|]. exists (drop (Z.to_nat 0) src). split; [by rewrite (drop_byte 0) by lia|by eapply once_none].
    + cbn. split; [lia|]. eexists. split; [done|]. by eapply once_none.
Qed.
End Gsub.

Section Gsub_count.
Context {St : Type} (ask : St -> list LuaVal -> pres (St * LuaVal)) (num_text : Z -> list Z) (src pat : list Z) (repl : Repl).
Abbreviation slen := (Z.of_nat (length src)).

Lemma gsub_run_count p L m s L' v n : gsub_run ask num_text src pat repl p L m s L' v n -> 0 <= s <= slen -> 0 <= n <= Z.max 0 m /\ n <= slen - s + 1.
Proof.
  induction 1 as [L m s|L m ms Ha|L m L' new Hm Hr|L m s ms L' v n Hs Ha Hrun IH|L m s L1 new L' v n Hm Hs Hr Hrun IH|L m s e L1 new L' v n Hm Hs Hr Hrun IH]; intros Hb; try lia.
  destruct Hr as (_ & _ & He & _). specialize (IH ltac:(lia)). lia.
Qed.

Lemma gsub_once_count p L m L' v n : gsub_once ask num_text src pat repl p L m L' v n -> 0 <= n <= Z.max 0 m /\ n <= 1.
Proof. intros H. inversion H; lia. Qed.
End Gsub_count.

Lemma gsub_spec {St : Type} (ask : St -> list LuaVal -> pres (St * LuaVal)) num_text src pat repl L caps max_s :
  (forall L l, safe (ask L l) (fun _ => True)) -> match repl with RString news => bytes news | _ => True end ->
  Z.of_nat (length src) < LJ_MAX_STR -> length caps = Z.to_nat LUA_MAXCAPTURES ->
  safe (string_gsub ask num_text src pat repl L caps max_s) (fun '(L', text, n) =>
    let m := default (Z.of_nat (length src) + 1) max_s in
    0 <= n <= Z.max 0 m /\
    if peek pat =? 94 then gsub_once ask num_text src pat repl 1 L m L' text n
    else gsub_run ask num_text src pat repl 0 L m 0 L' text n).
Proof.
  intros Hask Hrepl Hlen Hc. unfold string_gsub. assert (text_at pat 0 pat) as Ht by (split; [lia|done]). rewrite (text_peek _ _ _ Ht). cbn [mbind res_bind].
  assert (default (i32 (src_end src + 1)) max_s = default (Z.of_nat (length src) + 1) max_s) as ->.
  { destruct max_s; [done|]. unfold src_end, LJ_MAX_STR in *. by rewrite i32_id by (widths; lia). }
  set (m := default _ _). cbn zeta. pose proof (text_len _ _ _ Ht) as Lp.
  eapply (safe_bind _ _ (loop_post src (fun L' v n => 0 <= n <= Z.max 0 m /\ if peek pat =? 94 then gsub_once ask num_text src pat repl 1 L m L' v n else gsub_run ask num_text src pat repl 0 L m 0 L' v n) [] 0)).
  - destruct (Z.eqb_spec (peek pat) 94) as [E|].
    + eapply safe_mono; [apply gsub_once_safe; try done; destruct pat; cbn in *; [done|lia]|]. intros [[[L1 b1] n1] s1] (Hs & v & Ev & Hv).
      split; [done|]. exists v. split; [done|]. split; [|done]. apply gsub_once_count in Hv; lia.
    + eapply safe_mono; [apply gsub_loop_safe; try done; lia|]. intros [[[L1 b1] n1] s1] (Hs & v & Ev & Hv). rewrite !Z.sub_0_r in Hv.
      split; [done|]. exists v. rewrite Z.sub_0_r. split; [done|]. split; [|done]. apply gsub_run_count in Hv; lia.
  - intros [[[L1 b1] n1] s1] (Hs & v & Ev & Hn & Hv). unfold src_end. rewrite rdmem_safe by lia. cbn [mbind res_bind safe]. rewrite Z.sub_0_r in *.
    assert (b1 ++ slice src s1 (Z.of_nat (length src) - s1) = v) as ->.
    { cbn [app] in Ev. rewrite <- Ev. f_equal. unfold slice. apply take_ge. rewrite length_drop. lia. }
    by split.
Qed.

(** C12: a substitution ends, whatever the pattern and the replacement; it
    replaces the matches from the left to the right, each one once, up to the
    number allowed, and keeps every other character; with an anchor only a
    match at the start is replaced.  The number it returns counts the
    replacements. *)
Theorem gsub_replaces {St : Type} (ask : St -> list LuaVal -> pres (St * LuaVal)) num_text src pat repl L caps max_s :
  (forall L l, safe (ask L l) (fun _ => True)) -> match repl with RString news => bytes news | _ => True end ->
  Z.of_nat (length src) < LJ_MAX_STR -> length caps = Z.to_nat LUA_MAXCAPTURES ->
  safe (string_gsub ask num_text src pat repl L caps max_s) (fun '(L', text, n) =>
    let m := default (Z.of_nat (length src) + 1) max_s in
    0 <= n <= Z.max 0 m /\
    if peek pat =? 94 then gsub_once ask num_text src pat repl 1 L m L' text n
    else gsub_run ask num_text src pat repl 0 L m 0 L' text n).
Proof. apply gsub_spec. Qed.

(** The substitution of "b*" by "<%0>" in "abc", and a function as replacement. *)
Lemma gsub_replaces_witness :
  let ask := fun (L : Z) (l : list LuaVal) => Ok (L + 1, match l with VStr [98] :: _ => VInt L | _ => VNil end) in
  string_gsub ask (fun _ => []) [97; 98; 99] [98; 42] (RString [60; 37; 48; 62]) 5 (repeat (mkCap 7 7) 32) None =
    Ok (5, [60; 62; 97; 60; 98; 62; 60; 62; 99; 60; 62], 4) /\
  safe (string_gsub ask (fun _ => []) [97; 98; 99] [46] RFunction 5 (repeat (mkCap 7 7) 32) (Some 2)) (fun '(L', text, n) =>
    let m := default (Z.of_nat (length [97; 98; 99]) + 1) (Some 2) in
    0 <= n <= Z.max 0 m /\
    if peek [46] =? 94 then gsub_once ask (fun _ => []) [97; 98; 99] [46] RFunction 1 5 m L' text n
    else gsub_run ask (fun _ => []) [97; 98; 99] [46] RFunction 0 5 m 0 L' text n).
Proof.
  intros ask. split; [by vm_compute|].
  by apply (gsub_replaces ask (fun _ => []) [97; 98; 99] [46] RFunction 5 (repeat (mkCap 7 7) 32) (Some 2)).
Defined.

(** ** The identity *)

Section Identity.
Context {St : Type} (ask : St -> list LuaVal -> pres (St * LuaVal)) (num_text : Z -> list Z) (src pat : list Z).
Abbreviation slen := (Z.of_nat (length src)).

Lemma replacement_whole p L s e L' new : 0 <= s -> replacement ask num_text src pat (RString [37; 48]) p L s e L' new ->
  s <= e <= slen /\ L' = L /\ new ++ drop (Z.to_nat e) src = drop (Z.to_nat s) src.
Proof.
  intros Hs (ms & _ & He & E). split; [done|].
  change (add_value ask num_text src (RString [37; 48]) L ms [] s e)
    with (b ← (t ← rdmem src s (e - s); Ok ([] ++ t)); @Ok PattErr _ (L, b)) in E.
  rewrite rdmem_safe in E by lia. injection E as <- <-. split; [done|]. unfold slice.
  replace (drop (Z.to_nat e) src) with (drop (Z.to_nat (e - s)) (drop (Z.to_nat s) src)); [apply take_drop|]. rewrite drop_drop. f_equal. lia.
Qed.

Lemma gsub_run_same p L m s L' v n : gsub_run ask num_text src pat (RString [37; 48]) p L m s L' v n -> 0 <= s <= slen -> L' = L /\ v = drop (Z.to_nat s) src.
Proof.
  induction 1 as [L m s|L m ms Ha|L m L' new Hm Hr|L m s ms L' v n Hs Ha Hrun IH|L m s L1 new L' v n Hm Hs Hr Hrun IH|L m s e L1 new L' v n Hm Hs Hr Hrun IH]; intros Hb.
  - done.
  - split; [done|]. by rewrite drop_ge by lia.
  - apply replacement_whole in Hr as (_ & -> & E); [|lia]. split; [done|]. rewrite drop_ge, app_nil_r in E by lia. by rewrite drop_ge by lia.
  - destruct IH as [-> ->]; [lia|]. split; [done|]. symmetry. apply drop_byte. lia.
  - apply replacement_whole in Hr as (_ & -> & E); [|lia]. destruct IH as [-> ->]; [lia|]. split; [done|]. by rewrite <- drop_byte by lia.
  - apply replacement_whole in Hr as (He & -> & E); [|lia]. by destruct IH as [-> ->]; [lia|].
Qed.

Lemma gsub_once_same p L m L' v n : gsub_once ask num_text src pat (RString [37; 48]) p L m L' v n -> L' = L /\ v = src.
Proof. intros H. inversion H; subst; try done. by apply replacement_whole in H1 as (_ & -> & E). Qed.
End Identity.

(** C17: replacing every match by itself gives the subject back, for every
    pattern that raises no error, and for every number of replacements. *)
Theorem gsub_identity {St : Type} (ask : St -> list LuaVal -> pres (St * LuaVal)) num_text src pat L caps max_s :
  (forall L l, safe (ask L l) (fun _ => True)) -> Z.of_nat (length src) < LJ_MAX_STR -> length caps = Z.to_nat LUA_MAXCAPTURES ->
  safe (string_gsub ask num_text src pat (RString [37; 48]) L caps max_s) (fun '(L', text, _) => L' = L /\ text = src).
Proof.
  intros Hask Hl Hc. assert (bytes [37; 48]) as Hb by (repeat constructor; widths; lia).
  eapply safe_mono; [exact (gsub_spec ask num_text src pat (RString [37; 48]) L caps max_s Hask Hb Hl Hc)|]. intros [[L' text] n]. cbn zeta. intros [_ H].
  destruct (peek pat =? 94); [by apply gsub_once_same in H|]. apply gsub_run_same in H; [|lia]. done.
Qed.

Lemma gsub_identity_witness :
  let ask := fun (L : Z) (l : list LuaVal) => Ok (L, VNil) in
  safe (string_gsub ask (fun _ => []) [97; 98; 99] [98; 42] (RString [37; 48]) 5 (repeat (mkCap 7 7) 32) None) (fun '(L', text, _) => L' = 5 /\ text = [97; 98; 99]) /\
  string_gsub ask (fun _ => []) [97; 98; 99] [98; 42] (RString [37; 48]) 5 (repeat (mkCap 7 7) 32) None = Ok (5, [97; 98; 99], 4).
Proof.
  intros ask. split; [|by vm_compute]. by apply (gsub_identity ask (fun _ => []) [97; 98; 99] [98; 42] 5 (repeat (mkCap 7 7) 32) None).
Defined.
