(* ===== verification/Tsort.v ===== *)
(** * Sorting ([lib_table.c])

    [table.sort]: a quicksort over the integer keys of a table, with an order
    that may be a Lua function.  The Lua stack holds the elements that are
    compared and swapped; here they are variables.  The recursion of [auxsort]
    and its loop take fuel of their own, so that the depth of the recursion
    can be bounded. *)

From S2P Require Import Prelude Machine.

(** [lj_err_caller(L, LJ_ERR_TABSORT)], the errors of the operations below, and
    the exit of the model. *)
Inductive SortErr (E : Type) := TABSORT | SORT_ENV (e : E) | SORT_FUEL.
Arguments TABSORT {E}.
Arguments SORT_ENV {E} e.
Arguments SORT_FUEL {E}.

(** What the sort needs: the elements of the table at index 1 of the stack, the
    operator [<], and the call of the order function at index 2, if it is not
    nil, with its result as a truth value.  [W] is the state of the program,
    with the table. *)
Class SortEnv (W V E : Type) := {
  lua_rawgeti : W -> Z -> res E V;
  lua_rawseti : W -> Z -> V -> res E W;
  lua_lessthan : W -> V -> V -> res E (W * bool);
  order_call : option (W -> V -> V -> res E (W * bool))
}.

Section Sort.
Context {W V E : Type} `{SE : !SortEnv W V E}.
Abbreviation sres := (res (SortErr E)).

Definition env {A} (r : res E A) : sres A := match r with Ok a => Ok a | Err e => Err (SORT_ENV e) end.
Definition rawgeti (w : W) (i : Z) : sres V := env (lua_rawgeti w i).
Definition rawseti (w : W) (i : Z) (v : V) : sres W := env (lua_rawseti w i v).

(** The two topmost values of the stack are [a] and, on top, [b]. *)
Definition set2 (w : W) (i j : Z) (a b : V) : sres W :=
  w ← rawseti w i b;
  rawseti w j a.

Definition sort_comp (w : W) (a b : V) : sres (W * bool) :=
  match order_call with
  | Some f => env (f w a b)
  | None => env (lua_lessthan w a b)
  end.

(** [while (lua_rawgeti(L, 1, ++i), sort_comp(L, -1, -2))]; the index and the
    element at which it stops. *)
Fixpoint sort_up (fuel : nat) (w : W) (i u : Z) (P : V) : sres (W * Z * V) :=
  match fuel with
  | O => Err SORT_FUEL
  | S fuel =>
      let i := i + 1 in
      v ← rawgeti w i;
      '(w, b) ← sort_comp w v P;
      if (b : bool) then
        if u <=? i then Err TABSORT else sort_up fuel w i u P
      else Ok (w, i, v)
  end.

(** [while (lua_rawgeti(L, 1, --j), sort_comp(L, -3, -1))] *)
Fixpoint sort_down (fuel : nat) (w : W) (j l : Z) (P : V) : sres (W * Z * V) :=
  match fuel with
  | O => Err SORT_FUEL
  | S fuel =>
      let j := j - 1 in
      v ← rawgeti w j;
      '(w, b) ← sort_comp w P v;
      if (b : bool) then
        if j <=? l then Err TABSORT else sort_down fuel w j l P
      else Ok (w, j, v)
  end.

(** [for (;;)]; the place of the pivot. *)
Fixpoint sort_partition (fuel : nat) (w : W) (i j l u : Z) (P : V) : sres (W * Z) :=
  match fuel with
  | O => Err SORT_FUEL
  | S fuel =>
      '(w, i, vi) ← sort_up (S (Z.to_nat (u - i))) w i u P;
      '(w, j, vj) ← sort_down (S (Z.to_nat (j - l))) w j l P;
      if j <? i then Ok (w, i)
      else
        w ← set2 w i j vi vj;
        sort_partition fuel w i j l u P
  end.

(** Sort [a[l]], [a[(l+u)/2]] and [a[u]]; false for [break]. *)
Definition sort_median (w : W) (l u : Z) : sres (W * bool) :=
  vl ← rawgeti w l;
  vu ← rawgeti w u;
  '(w, b) ← sort_comp w vu vl;
  w ← (if (b : bool) then set2 w l u vl vu else Ok w);
  if u - l =? 1 then Ok (w, false)
  else
    let i := Z.quot (i32 (l + u)) 2 in
    vi ← rawgeti w i;
    vl ← rawgeti w l;
    '(w, b) ← sort_comp w vi vl;
    w ← (if (b : bool) then set2 w i l vi vl
         else
           vu ← rawgeti w u;
           '(w, b) ← sort_comp w vu vi;
           if (b : bool) then set2 w i u vi vu else Ok w);
    if u - l =? 2 then Ok (w, false) else Ok (w, true).

(** From the choice of the pivot to its final place. *)
Definition sort_pivot (w : W) (l u : Z) : sres (W * Z) :=
  let i := Z.quot (i32 (l + u)) 2 in
  P ← rawgeti w i;
  v ← rawgeti w (u - 1);
  w ← set2 w i (u - 1) P v;
  '(w, i) ← sort_partition (S (Z.to_nat (u - l))) w l (u - 1) l u P;
  a ← rawgeti w (u - 1);
  b ← rawgeti w i;
  w ← set2 w (u - 1) i a b;
  Ok (w, i).

(** [while (l < u)]; [rec] is the recursive call. *)
Fixpoint sort_loop (rec : W -> Z -> Z -> sres W) (fuel : nat) (w : W) (l u : Z) : sres W :=
  match fuel with
  | O => Err SORT_FUEL
  | S fuel =>
      if l <? u then
        '(w, more) ← sort_median w l u;
        if (more : bool) then
          '(w, i) ← sort_pivot w l u;
          let '(j, i, l, u) := if i - l <? u - i then (l, i - 1, i + 1, u) else (i + 1, u, l, i - 1) in
          w ← rec w j i;
          sort_loop rec fuel w l u
        else Ok w
      else Ok w
  end.

(** [depth] bounds the recursion. *)
Fixpoint auxsort (depth : nat) (w : W) (l u : Z) : sres W :=
  match depth with
  | O => Err SORT_FUEL
  | S depth => sort_loop (auxsort depth) (S (Z.to_nat (u - l))) w l u
  end.

(** [n] is the length of the table, a 32-bit integer. *)
Definition table_sort (w : W) (n : Z) : sres W := auxsort 32 w 1 n.
End Sort.
