(* ===== verification/TsortProps.v ===== *)
(** * Sorting: the properties

    Rearrangements of the elements between two indices, the laws of the
    interface between the sort and the table whose elements it moves, and what
    follows from them: [table.sort] ends for every order function, rearranges
    the elements, and sorts them if the order is valid; the recursion is at
    most logarithmic. *)

From S2P Require Import Prelude Machine Tsort.

(** ** Rearrangements *)

Section Perm.
Context {V : Type}.
Implicit Types f g h : Z -> V.

(** [g] has the elements of [f], moved within [l..u]. *)
Definition perm_on (l u : Z) (f g : Z -> V) : Prop :=
  exists p q : Z -> Z, (forall k, p (q k) = k) /\ (forall k, q (p k) = k) /\
    (forall k, ~ (l <= k <= u) -> p k = k) /\ forall k, g k = f (p k).

Lemma perm_refl l u f g : (forall k, g k = f k) -> perm_on l u f g.
Proof. intros H. by exists id, id. Qed.

Lemma perm_trans l u f g h : perm_on l u f g -> perm_on l u g h -> perm_on l u f h.
Proof.
  intros (p1 & q1 & A1 & B1 & C1 & D1) (p2 & q2 & A2 & B2 & C2 & D2). exists (fun k => p1 (p2 k)), (fun k => q2 (q1 k)). split_and!.
  - intros k. by rewrite A2, A1.
  - intros k. by rewrite B1, B2.
  - intros k Hk. by rewrite (C2 k Hk), C1.
  - intros k. by rewrite D2, D1.
Qed.

Lemma perm_wider l u l' u' f g : perm_on l' u' f g -> l <= l' -> u' <= u -> perm_on l u f g.
Proof. intros (p & q & A & B & C & D) Hl Hu. exists p, q. split_and!; try done. intros k Hk. apply C. lia. Qed.

Lemma perm_swap l u i j f g : l <= i <= u -> l <= j <= u -> g i = f j -> g j = f i -> (forall k, k <> i -> k <> j -> g k = f k) -> perm_on l u f g.
Proof.
  intros Hi Hj Ei Ej Ek. set (s := fun k => if decide (k = i) then j else if decide (k = j) then i else k).
  assert (forall k, s (s k) = k) as Hs. { intros k. unfold s. repeat (case_decide; try congruence). }
  exists s, s. split_and!; try done.
  - intros k Hk. unfold s. repeat (case_decide; try lia).
  - intros k. unfold s. repeat case_decide; subst; auto.
Qed.

Lemma perm_outside l u f g k : perm_on l u f g -> ~ (l <= k <= u) -> g k = f k.
Proof. intros (p & q & A & B & C & D) Hk. by rewrite D, C. Qed.

Lemma perm_inside l u f g k : perm_on l u f g -> l <= k <= u -> exists k', l <= k' <= u /\ g k = f k'.
Proof.
  intros (p & q & A & B & C & D) Hk. exists (p k). split; [|apply D]. destruct (decide (l <= p k <= u)) as [|N]; [done|].
  pose proof (C _ N) as E. apply (f_equal q) in E. rewrite !B in E. lia.
Qed.

Lemma perm_forall (Q : V -> Prop) l u f g : perm_on l u f g -> (forall k, l <= k <= u -> Q (f k)) -> forall k, l <= k <= u -> Q (g k).
Proof. intros Hp HQ k Hk. destruct (perm_inside _ _ _ _ _ Hp Hk) as (k' & Hk' & ->). by apply HQ. Qed.

(** The elements as lists. *)
Lemma perm_list l u f g : perm_on l u f g -> (f <$> seqZ l (u - l + 1)) ≡ₚ (g <$> seqZ l (u - l + 1)).
Proof.
  intros Hp. pose proof Hp as (p & q & A & B & C & D). rewrite (list_fmap_ext g (f ∘ p)); [|intros ? ? _; apply D].
  rewrite list_fmap_compose. apply fmap_Permutation. apply NoDup_Permutation.
  - apply NoDup_seqZ.
  - apply NoDup_fmap_2; [|apply NoDup_seqZ]. intros x y E. apply (f_equal q) in E. by rewrite !B in E.
  - intros k. rewrite list_elem_of_fmap, elem_of_seqZ. split.
    + intros Hk. exists (q k). rewrite elem_of_seqZ, A. split; [done|]. destruct (decide (l <= q k <= u)) as [|N]; [lia|]. pose proof (C _ N) as E. rewrite A in E. lia.
    + intros (x & -> & Hx). rewrite elem_of_seqZ in Hx. destruct (decide (l <= p x <= u)) as [|N]; [lia|]. pose proof (C _ N) as E. apply (f_equal q) in E. rewrite !B in E. lia.
Qed.
End Perm.

(** ** The laws of the elements *)

(** What the sort relies on: reads between [lo] and [hi] give the elements,
    stores there replace one, and a comparison leaves all of them alone; every
    operation may fail with some of the errors.  If the order is [valid], a
    comparison is the strict part of the order [le]. *)
Class SortLaws {W V E : Type} `{SE : !SortEnv W V E} (ok : W -> Prop) (content : W -> Z -> V) (elem : V -> Prop) (fails : E -> Prop)
    (lo hi : Z) (valid : Prop) (le : V -> V -> Prop) := {
  law_range : 0 <= lo /\ hi < 2 ^ 30;
  law_elem w i : ok w -> lo <= i <= hi -> elem (content w i);
  law_get w i : ok w -> lo <= i <= hi -> lua_rawgeti w i = Ok (content w i);
  law_set w i v : ok w -> lo <= i <= hi -> elem v ->
    match lua_rawseti w i v with
    | Ok w' => ok w' /\ content w' i = v /\ forall k, k <> i -> content w' k = content w k
    | Err e => fails e
    end;
  law_comp w a b : ok w -> elem a -> elem b ->
    match (match order_call with Some f => f w a b | None => lua_lessthan w a b end) with
    | Ok (w', r) => ok w' /\ (forall k, content w' k = content w k) /\ (valid -> if r then ~ le b a else le b a)
    | Err e => fails e
    end;
  law_total a b : valid -> elem a -> elem b -> le a b \/ le b a;
  law_trans a b c : valid -> elem a -> elem b -> elem c -> le a b -> le b c -> le a c
}.

Section Sorted.
Context {W V E : Type} `{SE : !SortEnv W V E} (ok : W -> Prop) (content : W -> Z -> V) (elem : V -> Prop) (fails : E -> Prop).
Context (lo hi : Z) (valid : Prop) (le : V -> V -> Prop) `{SL : !SortLaws ok content elem fails lo hi valid le}.

(** Legal results; only an invalid order is reported as such. *)
Definition sok {A} (r : res (SortErr E) A) (Q : A -> Prop) : Prop :=
  match r with
  | Ok a => Q a
  | Err TABSORT => ~ valid
  | Err (SORT_ENV e) => fails e
  | Err SORT_FUEL => False
  end.

Lemma sok_bind {A B} (m : res (SortErr E) A) (f : A -> res (SortErr E) B) (R : A -> Prop) Q :
  sok m R -> (forall a, R a -> sok (f a) Q) -> sok (m ≫= f) Q.
Proof. destruct m as [a|[|e|]]; cbn; auto. Qed.

Lemma sok_mono {A} (m : res (SortErr E) A) (R Q : A -> Prop) : sok m R -> (forall a, R a -> Q a) -> sok m Q.
Proof. destruct m as [a|[|e|]]; cbn; auto. Qed.

Definition same (w w' : W) : Prop := ok w' /\ forall k, content w' k = content w k.

Lemma rawgeti_ok w i : ok w -> lo <= i <= hi -> rawgeti w i = Ok (content w i).
Proof. intros H Hi. unfold rawgeti. by rewrite (law_get (SortLaws := SL)) by done. Qed.

Lemma comp_ok w a b : ok w -> elem a -> elem b -> sok (sort_comp w a b) (fun '(w', r) => same w w' /\ (valid -> if r then ~ le b a else le b a)).
Proof.
  intros H Ha Hb. pose proof (law_comp (SortLaws := SL) w a b H Ha Hb) as L. unfold sort_comp. destruct order_call as [f|].
  - destruct (f w a b) as [[w' r]|e]; [|done]. cbn. unfold same. tauto.
  - destruct (lua_lessthan w a b) as [[w' r]|e]; [|done]. cbn. unfold same. tauto.
Qed.

(** A swap of the elements at [i] and [j]. *)
Definition swapped (w : W) (i j : Z) (w' : W) : Prop :=
  ok w' /\ content w' i = content w j /\ content w' j = content w i /\ forall k, k <> i -> k <> j -> content w' k = content w k.

Lemma set2_ok w i j : ok w -> lo <= i <= hi -> lo <= j <= hi -> sok (set2 w i j (content w i) (content w j)) (swapped w i j).
Proof.
  intros H Hi Hj. unfold set2, rawseti. pose proof (law_set (SortLaws := SL) w i (content w j) H Hi (law_elem w j H Hj)) as L1.
  destruct (lua_rawseti w i (content w j)) as [w1|e]; [|done]. destruct L1 as (H1 & E1 & K1). cbn.
  pose proof (law_set (SortLaws := SL) w1 j (content w i) H1 Hj (law_elem w i H Hi)) as L2.
  destruct (lua_rawseti w1 j (content w i)) as [w2|e]; [|done]. destruct L2 as (H2 & E2 & K2). cbn. split; [done|]. split; [|split; [done|]].
  - destruct (decide (i = j)) as [->|]; [done|]. by rewrite K2, E1.
  - intros k Hki Hkj. by rewrite K2, K1.
Qed.

Lemma swapped_perm w i j w' l u : swapped w i j w' -> l <= i <= u -> l <= j <= u -> perm_on l u (content w) (content w').
Proof. intros (_ & Ei & Ej & Ek) Hi Hj. by apply (perm_swap l u i j). Qed.

Lemma same_perm w w' l u : same w w' -> perm_on l u (content w) (content w').
Proof. intros [_ H]. by apply perm_refl. Qed.

Lemma le_refl a : valid -> elem a -> le a a.
Proof. intros Hv Ha. by destruct (law_total (SortLaws := SL) a a Hv Ha Ha). Qed.

(** ** The two scans *)

Lemma sort_up_ok fuel P u : elem P -> u <= hi -> forall w i, ok w -> lo <= i + 1 -> i < u -> u - i <= Z.of_nat fuel ->
  (valid -> exists s, i < s < u /\ le P (content w s)) ->
  sok (sort_up fuel w i u P) (fun '(w', i', v) => same w w' /\ i < i' <= u /\ v = content w i' /\
    (valid -> le P v /\ i' < u /\ forall k, i < k < i' -> le (content w k) P)).
Proof.
  intros HP Hu. induction fuel as [|fuel IH]; intros w i H Hi Hlt Hf Hs; [lia|]. cbn [sort_up].
  rewrite rawgeti_ok by (done || lia). cbn [mbind res_bind].
  assert (elem (content w (i + 1))) as He by (apply law_elem; [done|lia]).
  eapply sok_bind; [by apply comp_ok|]. intros [w1 b] [[H1 E1] Hb]. destruct b.
  - destruct (Z.leb_spec u (i + 1)).
    { cbn. intros Hv. destruct (Hs Hv) as (s & Hsr & Hle). assert (s = i + 1) as -> by lia. by destruct (Hb Hv). }
    eapply sok_mono; [apply IH; try done; try lia|].
    + intros Hv. destruct (Hs Hv) as (s & Hsr & Hle). exists s. rewrite E1. split; [|done]. destruct (decide (s = i + 1)) as [->|]; [|lia].
      by destruct (Hb Hv).
    + intros [[w2 i2] v2] ([H2 E2] & Hi2 & -> & Hv2). split_and!; [split; [done|intros k; by rewrite E2, E1]|lia|lia|by rewrite E1|].
      intros Hv. destruct (Hv2 Hv) as (K1 & K2 & K3). rewrite E1 in K1. split_and!; [by rewrite E1|done|]. intros k Hk.
      destruct (decide (k = i + 1)) as [->|]; [|rewrite <- E1; apply K3; lia].
      destruct (law_total (SortLaws := SL) P (content w (i + 1)) Hv HP He) as [T|T]; [by destruct (Hb Hv)|done].
  - cbn. split_and!; try done; try lia. intros Hv. split_and!; [by apply Hb|destruct (Hs Hv) as (s & Hsr & _); lia|lia].
Qed.

Lemma sort_down_ok fuel P l : elem P -> lo <= l -> forall w j, ok w -> j - 1 <= hi -> l < j -> j - l <= Z.of_nat fuel ->
  (valid -> exists s, l <= s < j /\ le (content w s) P) ->
  sok (sort_down fuel w j l P) (fun '(w', j', v) => same w w' /\ l <= j' < j /\ v = content w j' /\
    (valid -> le v P /\ forall k, j' < k < j -> le P (content w k))).
Proof.
  intros HP Hl. induction fuel as [|fuel IH]; intros w j H Hj Hlt Hf Hs; [lia|]. cbn [sort_down].
  rewrite rawgeti_ok by (done || lia). cbn [mbind res_bind].
  assert (elem (content w (j - 1))) as He by (apply law_elem; [done|lia]).
  eapply sok_bind; [by apply comp_ok|]. intros [w1 b] [[H1 E1] Hb]. destruct b.
  - destruct (Z.leb_spec (j - 1) l).
    { cbn. intros Hv. destruct (Hs Hv) as (s & Hsr & Hle). assert (s = j - 1) as -> by lia. by destruct (Hb Hv). }
    eapply sok_mono; [apply IH; try done; try lia|].
    + intros Hv. destruct (Hs Hv) as (s & Hsr & Hle). exists s. rewrite E1. split; [|done]. destruct (decide (s = j - 1)) as [->|]; [|lia].
      by destruct (Hb Hv).
    + intros [[w2 j2] v2] ([H2 E2] & Hj2 & -> & Hv2). split_and!; [split; [done|intros k; by rewrite E2, E1]|lia|lia|by rewrite E1|].
      intros Hv. destruct (Hv2 Hv) as (K1 & K3). split_and!; [done|]. intros k Hk.
      destruct (decide (k = j - 1)) as [->|]; [|rewrite <- E1; apply K3; lia].
      destruct (law_total (SortLaws := SL) P (content w (j - 1)) Hv HP He) as [T|T]; [done|by destruct (Hb Hv)].
  - cbn. split_and!; try done; try lia. intros Hv. split_and!; [by apply Hb|lia].
Qed.

(** ** The partition *)

Definition below (w : W) (P : V) (l u : Z) : Prop := forall k, l <= k <= u -> le (content w k) P.
Definition above (w : W) (P : V) (l u : Z) : Prop := forall k, l <= k <= u -> le P (content w k).

Lemma sort_partition_ok fuel P l u : elem P -> lo <= l -> u <= hi -> forall w i j, ok w -> l <= i <= j -> l < j -> j <= u - 1 -> i < u - 1 ->
  content w (u - 1) = P -> u - i <= Z.of_nat fuel -> (valid -> below w P l i /\ above w P j u) ->
  sok (sort_partition fuel w i j l u P) (fun '(w', i') => ok w' /\ perm_on l u (content w) (content w') /\ l < i' <= u /\ content w' (u - 1) = P /\
    (valid -> i' < u /\ below w' P l (i' - 1) /\ above w' P i' u)).
Proof.
  intros HP Hl Hu. induction fuel as [|fuel IH]; intros w i j H Hi Hlj Hj Hiu EP Hf Hv; [lia|]. cbn [sort_partition].
  eapply sok_bind; [apply sort_up_ok; try done; try lia|].
  { intros V0. destruct (Hv V0) as [_ Ha]. exists (u - 1). split; [lia|]. apply Ha. lia. }
  intros [[w1 i1] vi] ([H1 E1] & Hi1 & -> & Hup).
  eapply sok_bind; [apply sort_down_ok; try done; try lia|].
  { intros V0. destruct (Hv V0) as [Hb _]. exists l. split; [lia|]. rewrite E1. apply Hb. lia. }
  intros [[w2 j2] vj] ([H2 E2] & Hj2 & -> & Hdn). assert (forall k, content w2 k = content w k) as Ew by (intros k; by rewrite E2, E1).
  destruct (Z.ltb_spec j2 i1).
  - cbn. split_and!; [done|by apply perm_refl|lia|lia|by rewrite Ew|]. intros V0. destruct (Hv V0) as [Hb Ha], (Hup V0) as (U1 & U2 & U3), (Hdn V0) as (D1 & D2).
    split_and!; [done| |].
    + intros k Hk. rewrite Ew. destruct (decide (k <= i)); [apply Hb; lia|apply U3; lia].
    + intros k Hk. rewrite Ew. destruct (decide (j <= k)); [apply Ha; lia|]. rewrite <- E1. apply D2. lia.
  - rewrite <- (Ew i1), <- (E2 j2). eapply sok_bind; [apply set2_ok; try done; lia|]. intros w3 S3. pose proof S3 as (H3 & Ei & Ej & Ek).
    rewrite Ew in *. eapply sok_mono; [apply (IH w3 i1 j2); try done; try lia|].
    + rewrite Ek by lia. by rewrite Ew.
    + intros V0. destruct (Hv V0) as [Hb Ha], (Hup V0) as (U1 & U2 & U3), (Hdn V0) as (D1 & D2). rewrite E1 in D1. split.
      * intros k Hk. destruct (decide (k = i1)) as [->|]; [by rewrite Ei|]. rewrite Ek, Ew by lia. destruct (decide (k <= i)); [apply Hb; lia|apply U3; lia].
      * intros k Hk. destruct (decide (k = j2)) as [->|]; [by rewrite Ej|]. rewrite Ek, Ew by lia. destruct (decide (j <= k)); [apply Ha; lia|].
        rewrite <- E1. apply D2. lia.
    + intros [w4 i4] (K1 & K2 & K3 & K4 & K5). split_and!; try done; try lia. eapply perm_trans; [|exact K2].
      eapply perm_trans; [by apply (perm_refl l u (content w) (content w2))|]. eapply swapped_perm; [done|lia|lia].
Qed.

(** ** The median *)

Lemma middle l u : lo <= l -> l < u -> u <= hi -> Z.quot (i32 (l + u)) 2 = (l + u) / 2.
Proof. intros. destruct (law_range (SortLaws := SL)). rewrite i32_id by (widths; lia). apply Z.quot_div_nonneg; lia. Qed.

Definition sorted_on (w : W) (l u : Z) : Prop := forall a b, l <= a <= b -> b <= u -> le (content w a) (content w b).

(** A comparison of two elements, and a swap if they are in the wrong order. *)
Lemma order_ok w i j l u : ok w -> lo <= l -> u <= hi -> l <= i <= u -> l <= j <= u -> i <> j ->
  sok ('(w1, b) ← sort_comp w (content w j) (content w i); if (b : bool) then set2 w1 i j (content w i) (content w j) else Ok w1)
    (fun w' => ok w' /\ perm_on l u (content w) (content w') /\ (forall k, k <> i -> k <> j -> content w' k = content w k) /\
      (valid -> le (content w' i) (content w' j) /\
        (content w' i = content w i /\ content w' j = content w j \/
         content w' i = content w j /\ content w' j = content w i /\ ~ le (content w i) (content w j)))).
Proof.
  intros H Hl Hu Hi Hj Hij. assert (elem (content w i)) as Ei by (apply law_elem; [done|lia]). assert (elem (content w j)) as Ej by (apply law_elem; [done|lia]).
  eapply sok_bind; [by apply comp_ok|]. intros [w1 b] [[H1 E1] Hb]. destruct b.
  - rewrite <- (E1 i), <- (E1 j). eapply sok_mono; [apply set2_ok; try done; lia|]. intros w2 S2. pose proof S2 as (H2 & K1 & K2 & K3).
    split_and!; [done| | |].
    + eapply perm_trans; [by apply (perm_refl l u (content w) (content w1))|]. by eapply swapped_perm.
    + intros k Hki Hkj. by rewrite K3, E1.
    + intros V0. specialize (Hb V0). cbn in Hb. rewrite K1, K2, !E1. split; [|right; split_and!; done].
      by destruct (law_total (SortLaws := SL) (content w i) (content w j) V0 Ei Ej).
  - cbn. split_and!; [done|by apply perm_refl|intros; apply E1|]. intros V0. rewrite !E1. split; [by apply Hb|by left].
Qed.

Lemma bind_assoc_pair {A B C D} (m : res (SortErr E) (A * B)) (f : A -> B -> res (SortErr E) C) (k : C -> res (SortErr E) D) :
  ('(a, b) ← m; c ← f a b; k c) = (c ← ('(a, b) ← m; f a b); k c).
Proof. by destruct m as [[a b]|e]. Qed.

Definition middle_post (l m u : Z) (w : W) (w' : W) : Prop :=
  ok w' /\ perm_on l u (content w) (content w') /\ (valid -> le (content w' l) (content w' m) /\ le (content w' m) (content w' u)).

Lemma median_middle w l m u : ok w -> lo <= l -> u <= hi -> l < m < u -> (valid -> le (content w l) (content w u)) ->
  sok ('(w1, b) ← sort_comp w (content w m) (content w l);
       (if (b : bool) then set2 w1 m l (content w m) (content w l)
        else vu ← rawgeti w1 u; '(w2, b) ← sort_comp w1 vu (content w m); if (b : bool) then set2 w2 m u (content w m) vu else Ok w2))
    (middle_post l m u w).
Proof.
  intros H Hl Hu Hm Hlu. assert (elem (content w l)) as El by (apply law_elem; [done|lia]). assert (elem (content w m)) as Em by (apply law_elem; [done|lia]).
  eapply sok_bind; [by apply comp_ok|]. intros [w1 b] [[H1 E1] Hb].
  assert (perm_on l u (content w) (content w1)) as P1 by by apply perm_refl. rewrite <- (E1 m), <- (E1 l). destruct b.
  - eapply sok_mono; [apply set2_ok; try done; lia|]. intros w2 S2. pose proof S2 as (H2 & K1 & K2 & K3). split_and!; [done| |].
    + eapply perm_trans; [done|]. eapply swapped_perm; [done|lia..].
    + intros V0. specialize (Hb V0). cbn in Hb. rewrite K1, K2, K3, !E1 by lia. split; [|by apply Hlu].
      by destruct (law_total (SortLaws := SL) (content w m) (content w l) V0 Em El).
  - rewrite rawgeti_ok by (done || lia). cbn [mbind res_bind].
    eapply sok_mono; [apply (order_ok w1 m u l u); try done; lia|]. intros w2 (H2 & P2 & F2 & O2). split_and!; [done|by eapply perm_trans|].
    intros V0. specialize (Hb V0). cbn in Hb. destruct (O2 V0) as [L2 [[Ea Eb]|(Ea & Eb & _)]]; rewrite Ea, Eb in *; rewrite F2 by lia; rewrite !E1 in *; [done|].
    split; [by apply Hlu|done].
Qed.

Definition median_post (w : W) (l u : Z) (r : W * bool) : Prop :=
  ok r.1 /\ perm_on l u (content w) (content r.1) /\
  if r.2 then 3 <= u - l /\ (valid -> le (content r.1 l) (content r.1 ((l + u) / 2)) /\ le (content r.1 ((l + u) / 2)) (content r.1 u))
  else valid -> sorted_on r.1 l u.

Lemma sort_median_ok w l u : ok w -> lo <= l -> l < u -> u <= hi -> sok (sort_median w l u) (median_post w l u).
Proof.
  intros H Hl Hlt Hu. unfold sort_median. rewrite !rawgeti_ok by (done || lia). cbn [mbind res_bind]. rewrite bind_assoc_pair.
  eapply sok_bind; [apply (order_ok w l u l u); try done; lia|]. intros w1 (H1 & P1 & F1 & O1).
  assert (forall w', ok w' -> valid -> forall k, l <= k <= u -> le (content w' k) (content w' k)) as Rf.
  { intros w' H' V0 k Hk. apply le_refl; [done|]. apply law_elem; [done|lia]. }
  destruct (Z.eqb_spec (u - l) 1) as [E1|].
  { cbn. split_and!; [done|done|]. intros V0 a b Ha Hb. destruct (decide (a = b)) as [->|]; [apply Rf; auto; lia|].
    assert (a = l) as -> by lia. assert (b = u) as -> by lia. by apply O1. }
  rewrite middle by done. set (m := (l + u) / 2). assert (l < m < u) as Hm by (subst m; split; [apply Z.lt_le_pred|]; Z.div_mod_to_equations; lia).
  rewrite !rawgeti_ok by (done || lia). cbn [mbind res_bind]. rewrite bind_assoc_pair.
  eapply sok_bind; [apply (median_middle w1 l m u); try done; intros V0; by apply O1|]. intros w2 (H2 & P2 & O2).
  assert (perm_on l u (content w) (content w2)) as P by by eapply perm_trans.
  destruct (Z.eqb_spec (u - l) 2); cbn; (split_and!; [done|done|]).
  - intros V0 a b Ha Hb. destruct (O2 V0) as [L1 L2]. destruct (decide (a = b)) as [->|]; [apply Rf; auto; lia|].
    assert (m = l + 1) as Em by (subst m; Z.div_mod_to_equations; lia). rewrite Em in *. assert (elem (content w2 l) /\ elem (content w2 (l + 1)) /\ elem (content w2 u)) as (? & ? & ?) by (split_and!; apply law_elem; done || lia).
    destruct (decide (a = l)) as [->|]; [destruct (decide (b = l + 1)) as [->|]; [done|]|].
    + assert (b = u) as -> by lia. by eapply (law_trans (SortLaws := SL) (content w2 l) (content w2 (l + 1))).
    + assert (a = l + 1) as -> by lia. by assert (b = u) as -> by lia.
  - split; [lia|done].
Qed.

(** ** The pivot *)

Definition pivot_post (w : W) (l u : Z) (r : W * Z) : Prop :=
  ok r.1 /\ perm_on l u (content w) (content r.1) /\ l < r.2 <= u /\
  (valid -> below r.1 (content r.1 r.2) l (r.2 - 1) /\ above r.1 (content r.1 r.2) (r.2 + 1) u).

Lemma sort_pivot_ok w l u : ok w -> lo <= l -> u <= hi -> 3 <= u - l ->
  (valid -> le (content w l) (content w ((l + u) / 2)) /\ le (content w ((l + u) / 2)) (content w u)) ->
  sok (sort_pivot w l u) (pivot_post w l u).
Proof.
  intros H Hl Hu H3 Hm. unfold sort_pivot. rewrite middle by lia. set (m := (l + u) / 2) in *.
  assert (l < m < u - 1) as Hmr by (subst m; Z.div_mod_to_equations; lia). cbn zeta. rewrite !rawgeti_ok by (done || lia). cbn [mbind res_bind].
  set (P := content w m) in *. assert (elem P) as HP by (apply law_elem; [done|lia]).
  eapply sok_bind; [apply set2_ok; try done; lia|]. intros w1 S1. pose proof S1 as (H1 & K1 & K2 & K3).
  eapply sok_bind; [apply (sort_partition_ok _ P l u HP Hl Hu w1 l (u - 1)); try done; try lia|].
  { intros V0. destruct (Hm V0) as [M1 M2]. split; intros k Hk.
    - assert (k = l) as -> by lia. by rewrite K3 by lia.
    - destruct (decide (k = u - 1)) as [->|]; [rewrite K2; by apply le_refl|]. assert (k = u) as -> by lia. by rewrite K3 by lia. }
  intros [w2 i] (H2 & P2 & Hi & E2 & V2). rewrite !rawgeti_ok by (done || lia). cbn [mbind res_bind].
  eapply sok_bind; [apply set2_ok; try done; lia|]. intros w3 S3. pose proof S3 as (H3' & J1 & J2 & J3). unfold pivot_post. cbn. split_and!; [done| |lia|lia|].
  - eapply perm_trans; [eapply (swapped_perm w m (u - 1)); [done|lia..]|]. eapply perm_trans; [done|]. eapply (swapped_perm w2 (u - 1) i); [done|lia..].
  - intros V0. destruct (V2 V0) as (I1 & I2 & I3). cbn. rewrite J2, E2. split; intros k Hk.
    + rewrite J3 by lia. apply I2. lia.
    + destruct (decide (k = u - 1)) as [->|]; [rewrite J1; apply I3; lia|]. rewrite J3 by lia. apply I3. lia.
Qed.

(** ** The whole sort *)

Definition sort_post (w : W) (l u : Z) (w' : W) : Prop :=
  ok w' /\ perm_on l u (content w) (content w') /\ (valid -> sorted_on w' l u).

(** The elements on both sides of the pivot are sorted one after the other. *)
Lemma sorted_around w0 w1 w2 l i u j1 k1 j2 k2 : ok w2 -> lo <= l -> u <= hi -> l <= i <= u -> valid ->
  below w0 (content w0 i) l (i - 1) -> above w0 (content w0 i) (i + 1) u ->
  (j1 = l /\ k1 = i - 1 /\ j2 = i + 1 /\ k2 = u) \/ (j1 = i + 1 /\ k1 = u /\ j2 = l /\ k2 = i - 1) ->
  perm_on j1 k1 (content w0) (content w1) -> sorted_on w1 j1 k1 -> perm_on j2 k2 (content w1) (content w2) -> sorted_on w2 j2 k2 ->
  sorted_on w2 l u.
Proof.
  intros H Hl Hu Hi V0 Hb Ha Hc P1 S1 P2 S2.
  assert (forall k, ~ (j2 <= k <= k2) -> content w2 k = content w1 k) as F2 by (intros k; by apply (perm_outside j2 k2)).
  assert (forall k, ~ (j1 <= k <= k1) -> content w1 k = content w0 k) as F1 by (intros k; by apply (perm_outside j1 k1)).
  assert (content w2 i = content w0 i) as Ei by (rewrite F2, F1; [done|lia..]).
  assert (sorted_on w2 j1 k1) as S1'. { intros a b Ha' Hb'. rewrite !F2 by lia. by apply S1. }
  assert (forall k, l <= k <= i - 1 -> le (content w2 k) (content w0 i)) as B.
  { destruct Hc as [(-> & -> & -> & ->)|(-> & -> & -> & ->)].
    - intros k Hk. rewrite F2 by lia. by apply (perm_forall (fun v => le v (content w0 i)) l (i - 1) (content w0)).
    - apply (perm_forall (fun v => le v (content w0 i)) l (i - 1) (content w1)); [done|]. intros k Hk. rewrite F1 by lia. by apply Hb. }
  assert (forall k, i + 1 <= k <= u -> le (content w0 i) (content w2 k)) as A.
  { destruct Hc as [(-> & -> & -> & ->)|(-> & -> & -> & ->)].
    - apply (perm_forall (fun v => le (content w0 i) v) (i + 1) u (content w1)); [done|]. intros k Hk. rewrite F1 by lia. by apply Ha.
    - intros k Hk. rewrite F2 by lia. by apply (perm_forall (fun v => le (content w0 i) v) (i + 1) u (content w0)). }
  assert (forall k, l <= k <= u -> elem (content w2 k)) as He by (intros k Hk; apply law_elem; [done|lia]).
  intros a b Hab Hbu. destruct (decide (b < i)) as [|]; [destruct Hc as [(-> & -> & -> & ->)|(-> & -> & -> & ->)]; [apply S1'|apply S2]; lia|].
  destruct (decide (i < a)) as [|]; [destruct Hc as [(-> & -> & -> & ->)|(-> & -> & -> & ->)]; [apply S2|apply S1']; lia|].
  assert (le (content w2 a) (content w2 i)) as L1. { destruct (decide (a = i)) as [->|]; [apply le_refl; [done|apply He; lia]|]. rewrite Ei. apply B. lia. }
  assert (le (content w2 i) (content w2 b)) as L2. { destruct (decide (b = i)) as [->|]; [apply le_refl; [done|apply He; lia]|]. rewrite Ei. apply A. lia. }
  apply (law_trans (SortLaws := SL) (content w2 a) (content w2 i)); try done; apply He; lia.
Qed.

Lemma sort_loop_ok (rec : W -> Z -> Z -> res (SortErr E) W) (D fuel : nat) :
  ((0 < D)%nat -> forall w l u, ok w -> lo <= l -> u <= hi -> u - l + 1 < 2 ^ Z.of_nat D -> sok (rec w l u) (sort_post w l u)) ->
  forall w l u, ok w -> lo <= l -> u <= hi -> u - l + 1 < 2 ^ Z.of_nat (S D) -> u - l < Z.of_nat fuel -> 0 < Z.of_nat fuel ->
    sok (sort_loop rec fuel w l u) (sort_post w l u).
Proof.
  intros Hrec. induction fuel as [|fuel IH]; intros w l u H Hl Hu Hs Hf H0; [lia|]. cbn [sort_loop].
  replace (2 ^ Z.of_nat (S D)) with (2 * 2 ^ Z.of_nat D) in Hs by (rewrite Nat2Z.inj_succ, Z.pow_succ_r; lia).
  destruct (Z.ltb_spec l u).
  2: { cbn. split_and!; [done|by apply perm_refl|]. intros V0 a b Ha Hb. assert (a = b) as -> by lia. apply le_refl; [done|]. apply law_elem; [done|lia]. }
  eapply sok_bind; [by apply sort_median_ok|]. intros [w1 more] (Hw1 & P1 & M1). cbn in Hw1, P1, M1. destruct more; [|by cbn].
  destruct M1 as [M0 M1]. assert (0 < D)%nat as HD by (destruct D; [cbn in Hs|]; lia). specialize (Hrec HD). eapply sok_bind; [by apply sort_pivot_ok|]. intros [w2 i] (Hw2 & P2 & Hi & V2). cbn in Hw2, P2, Hi, V2.
  assert (perm_on l u (content w) (content w2)) as P by by eapply perm_trans.
  destruct (Z.ltb_spec (i - l) (u - i)).
  - eapply sok_bind; [apply Hrec; try done; lia|]. intros w3 (H3 & P3 & S3).
    eapply sok_mono; [apply IH; try done; rewrite ?Nat2Z.inj_succ, ?Z.pow_succ_r; lia|]. intros w4 (H4 & P4 & S4). split_and!; [done| |].
    + eapply perm_trans; [exact P|]. eapply perm_trans; [eapply perm_wider; [exact P3|lia|lia]|eapply perm_wider; [exact P4|lia|lia]].
    + intros V0. destruct (V2 V0) as [B A]. eapply (sorted_around w2 w3 w4 l i u); try done; try lia; auto.
  - eapply sok_bind; [apply Hrec; try done; lia|]. intros w3 (H3 & P3 & S3).
    eapply sok_mono; [apply IH; try done; rewrite ?Nat2Z.inj_succ, ?Z.pow_succ_r; lia|]. intros w4 (H4 & P4 & S4). split_and!; [done| |].
    + eapply perm_trans; [exact P|]. eapply perm_trans; [eapply perm_wider; [exact P3|lia|lia]|eapply perm_wider; [exact P4|lia|lia]].
    + intros V0. destruct (V2 V0) as [B A]. eapply (sorted_around w2 w3 w4 l i u); try done; try lia; auto.
Qed.

(** The recursion needs a level for every doubling of the length. *)
Lemma auxsort_ok depth w l u : ok w -> lo <= l -> u <= hi -> u - l + 1 < 2 ^ Z.of_nat depth -> (0 < depth)%nat ->
  sok (auxsort depth w l u) (sort_post w l u).
Proof.
  revert w l u. induction depth as [|d IH]; intros w l u H Hl Hu Hs Hd; [lia|]. cbn [auxsort].
  apply (sort_loop_ok (auxsort d) d); try done; try lia. intros Hd' w' l' u' H' Hl' Hu' Hs'. by apply IH.
Qed.
End Sorted.
