(* ===== verification/TsortTab.v ===== *)
(** * Sorting: tables

    The sort over the tables of [Tab]: [lua_rawgeti] and [lua_rawseti] of
    [lj_api.c], and [table.sort] from the length of the table on. *)

From S2P Require Import Prelude Machine Num Tab TabKey TabHash TabInv TabPut TabSize TabResize TabRehash TabMap TabWalk TabProps Tsort TsortProps.

(** An error of the table, or of the order: of a function, or of [<] on values
    that have no order. *)
Inductive TsortErr (X : Type) := SE_TAB (e : TabErr) | SE_LUA (x : X).
Arguments SE_TAB {X} e.
Arguments SE_LUA {X} x.

Definition tab_err {X A} (r : tres A) : res (TsortErr X) A := match r with Ok a => Ok a | Err e => Err (SE_TAB e) end.
Definition lua_err {X A} (r : res X A) : res (TsortErr X) A := match r with Ok a => Ok a | Err e => Err (SE_LUA e) end.

Section Tab.
Context `{TE : TabEnv} {St X : Type}.

(** The operator [<] and the order function, over the state of the program
    apart from the table; the order leaves the table alone. *)
Context (lessthan : St -> TValue -> TValue -> res X (St * bool)) (order : option (St -> TValue -> TValue -> res X (St * bool))).

(** [lua_rawgeti] *)
Definition tab_rawgeti (t : GCtab) (n : Z) : tres TValue := default Tnil <$> lj_tab_getint t n.

(** [lua_rawseti]; the write barrier is part of [Gc]. *)
Definition tab_rawseti (t : GCtab) (n : Z) (v : TValue) : tres GCtab :=
  '(t, dst) ← lj_tab_setint t n; Ok (slot_put t dst v).

Definition with_tab (f : St -> TValue -> TValue -> res X (St * bool)) (w : GCtab * St) (a b : TValue) : res (TsortErr X) (GCtab * St * bool) :=
  '(L, r) ← lua_err (f w.2 a b); Ok (w.1, L, r).

#[local] Instance tab_sort_env : SortEnv (GCtab * St) TValue (TsortErr X) := {
  lua_rawgeti w i := tab_err (tab_rawgeti w.1 i);
  lua_rawseti w i v := tab_err (t ← tab_rawseti w.1 i v; Ok (t, w.2));
  lua_lessthan := with_tab lessthan;
  order_call := with_tab <$> order
}.

(** [table.sort] *)
Definition tab_sort (t : GCtab) (L : St) : res (SortErr (TsortErr X)) (GCtab * St) :=
  n ← env (tab_err (lj_tab_len t));
  table_sort (t, L) (i32 n).

(** ** The elements of a table *)

Definition int_get (t : GCtab) (k : Z) : TValue := ref_get t (int_key k).

(** The elements from 1 to [n]. *)
Definition elements (t : GCtab) (n : Z) : list TValue := int_get t <$> seqZ 1 n.

Lemma rawgeti_tab t i : wf_tab t -> is_i32 i -> tab_rawgeti t i = Ok (int_get t i).
Proof. intros Hwf Hi. unfold tab_rawgeti. destruct (getint_ok t i Hwf Hi) as (o & -> & E). cbn. by rewrite E. Qed.

Lemma absent_nil t c : wf_tab t -> canon c -> absent (node t) c -> ~ in_arr t c -> ref_get t c = Tnil.
Proof.
  intros Hwf Hc Ha Hn. rewrite ref_get_hash by done. eapply scan_nil; [apply Hwf|intros ->; by destruct Hc|].
  intros v (i & nd & E & K & _). by apply (Ha i nd E).
Qed.

(** A store to an element that is there does not move the table. *)
Lemma rawseti_tab t i v : wf_tab t -> is_i32 i -> wf_tv v -> int_get t i <> Tnil ->
  exists t', tab_rawseti t i v = Ok t' /\ wf_tab t' /\ forall c, canon c -> ref_get t' c = if decide (c = int_key i) then v else ref_get t c.
Proof.
  intros Hwf Hi Hv Hn. pose proof (canon_int i Hi) as Hc. unfold tab_rawseti, lj_tab_setint.
  destruct (setint_ok (tab_retry rehash_fuel) t i Hwf Hi) as [(_ & _ & Ha & Hna)|(t1 & s & -> & Sl)]; [by destruct Hn; apply absent_nil|].
  destruct (stored_slot _ _ _ _ v Hwf Hc Hv Sl) as [W2 _ G2 _ _]. cbn. eauto.
Qed.

(** ** The laws *)

Section Laws.
Context (t0 : GCtab) (n : Z) (Hn : 0 <= n < 2 ^ 30) (F : X -> Prop) (valid : Prop) (le : TValue -> TValue -> Prop).

Definition elem_ok (v : TValue) : Prop := wf_tv v /\ v <> Tnil.

Definition other_key (c : TValue) : Prop := canon c /\ forall i, 1 <= i <= n -> c <> int_key i.

Definition tab_ok (w : GCtab * St) : Prop :=
  wf_tab w.1 /\ (forall i, 1 <= i <= n -> int_get w.1 i <> Tnil) /\ forall c, other_key c -> ref_get w.1 c = ref_get t0 c.

Definition tab_content (w : GCtab * St) (k : Z) : TValue := if (1 <=? k) && (k <=? n) then int_get w.1 k else Tnil.

Definition tab_fails (e : TsortErr X) : Prop := match e with SE_TAB _ => False | SE_LUA x => F x end.

(** What is known of the order. *)
Definition order_laws : Prop :=
  (forall L a b, elem_ok a -> elem_ok b -> match default lessthan order L a b with Ok (_, r) => valid -> if r then ~ le b a else le b a | Err x => F x end) /\
  (forall a b, valid -> elem_ok a -> elem_ok b -> le a b \/ le b a) /\
  (forall a b c, valid -> elem_ok a -> elem_ok b -> elem_ok c -> le a b -> le b c -> le a c).

Lemma tab_content_in w i : 1 <= i <= n -> tab_content w i = int_get w.1 i.
Proof. intros Hi. unfold tab_content. by rewrite (proj2 (Z.leb_le 1 i)), (proj2 (Z.leb_le i n)) by lia. Qed.

#[local] Instance tab_sort_laws : order_laws -> SortLaws tab_ok tab_content elem_ok tab_fails 1 n valid le.
Proof using Hn.
  intros (O1 & O2 & O3). assert (forall i, 1 <= i <= n -> is_i32 i) as I by (intros; widths; lia). split; [lia| | | | |done|done].
  - intros w i (W & N & _) Hi. rewrite tab_content_in by done. split; [|by apply N]. apply ref_get_wf; [done|]. apply canon_int; auto.
  - intros w i (W & N & _) Hi. rewrite tab_content_in by done. cbn. by rewrite rawgeti_tab by auto.
  - intros w i v (W & N & K) Hi [Hv Hvn]. cbn. destruct (rawseti_tab w.1 i v W (I i Hi) Hv (N i Hi)) as (t' & -> & W' & G). cbn.
    assert (forall k, 1 <= k <= n -> int_get t' k = if decide (k = i) then v else int_get w.1 k) as G'.
    { intros k Hk. unfold int_get. rewrite G by (apply canon_int; auto). destruct (decide (k = i)) as [->|Hne]; [by rewrite decide_True|].
      rewrite decide_False; [done|]. intros [= E]. apply int2num_inj in E; auto. }
    split_and!; [split_and!; [done| |]| |].
    + intros k Hk. cbn [fst]. rewrite G' by done. case_decide; [done|by apply N].
    + intros c [Hc Ho]. cbn. rewrite G by done. rewrite decide_False by by apply Ho. by apply K.
    + rewrite tab_content_in by done. cbn [fst]. rewrite G' by done. by rewrite decide_True.
    + intros k Hk. unfold tab_content. destruct ((1 <=? k) && (k <=? n)) eqn:E; [|done]. cbn [fst]. rewrite G' by lia. by rewrite decide_False.
  - intros w a b (W & N & K) Ha Hb. cbn. pose proof (O1 w.2 a b Ha Hb) as O. unfold with_tab.
    destruct order as [f|]; cbn in *; [destruct (f w.2 a b) as [[L r]|x]|destruct (lessthan w.2 a b) as [[L r]|x]]; cbn; done.
Qed.

(** What the sort of the elements means for the table. *)
Definition tab_sorted (t' : GCtab) : Prop :=
  wf_tab t' /\ elements t0 n ≡ₚ elements t' n /\ (forall c, other_key c -> ref_get t' c = ref_get t0 c) /\
  (valid -> forall a b, 1 <= a <= b -> b <= n -> le (int_get t' a) (int_get t' b)).

Definition sort_result (r : res (SortErr (TsortErr X)) (GCtab * St)) : Prop :=
  match r with
  | Ok (t', _) => tab_sorted t'
  | Err TABSORT => ~ valid
  | Err (SORT_ENV (SE_LUA x)) => F x
  | Err (SORT_ENV (SE_TAB _)) | Err SORT_FUEL => False
  end.

Lemma elements_content w : elements w.1 n = tab_content w <$> seqZ 1 (n - 1 + 1).
Proof.
  unfold elements. replace (n - 1 + 1) with n by lia. apply list_fmap_ext. intros i k H. apply lookup_seqZ in H as [-> Hi].
  symmetry. apply tab_content_in. lia.
Qed.

Lemma tab_sort_spec L : order_laws -> wf_tab t0 -> lj_tab_len t0 = Ok n -> (forall i, 1 <= i <= n -> int_get t0 i <> Tnil) -> sort_result (tab_sort t0 L).
Proof using Hn.
  intros O W En Hne. pose proof (tab_sort_laws O) as SL. unfold tab_sort. rewrite En. cbn [tab_err env mbind res_bind].
  rewrite i32_id by (widths; lia). assert (tab_ok (t0, L)) as H0 by by split.
  pose proof (auxsort_ok tab_ok tab_content elem_ok tab_fails 1 n valid le 32 (t0, L) 1 n H0 ltac:(lia) ltac:(lia) ltac:(lia) ltac:(lia)) as R.
  unfold table_sort. destruct (auxsort 32 (t0, L) 1 n) as [[t' L']|[|[e|x]|]]; cbn in R |- *; try done.
  destruct R as ((W' & N' & K') & P & S). split_and!; [done| |done|].
  - pose proof (elements_content (t0, L)) as E0. pose proof (elements_content (t', L')) as E1. cbn [fst] in E0, E1. rewrite E0, E1. by apply perm_list.
  - intros V0 a b Ha Hb. specialize (S V0 a b Ha Hb). by rewrite !tab_content_in in S by lia.
Qed.
End Laws.
End Tab.

(** C10: [table.sort] on a table whose elements 1 to n are not nil ends for every
    order function.  If it returns, the elements are the old ones in another
    order, nothing else in the table has changed, and they are sorted if the
    order is valid (a strict weak order); the message about an invalid order
    appears for invalid orders only, and every other error comes from the
    order. *)
Theorem tab_sort_sorts `{TE : TabEnv} {St X : Type} (lessthan : St -> TValue -> TValue -> res X (St * bool)) order t n L F valid le :
  wf_tab t -> lj_tab_len t = Ok n -> 0 <= n < 2 ^ 30 -> (forall i, 1 <= i <= n -> int_get t i <> Tnil) ->
  order_laws lessthan order F valid le -> sort_result t n F valid le (tab_sort lessthan order t L).
Proof. intros. by apply tab_sort_spec. Qed.

(** C18: for a range shorter than [2 ^ depth] and every order, valid or not, the
    sort ends with [depth] levels of recursion, so the recursion is at most as
    deep as the length has binary digits; it reads and stores within the range
    only, and what it leaves there is a rearrangement. *)
Theorem auxsort_depth {W V E : Type} `{SE : !SortEnv W V E} ok content elem fails lo hi valid le `{SL : !SortLaws ok content elem fails lo hi valid le} depth w l u :
  ok w -> lo <= l -> u <= hi -> u - l + 1 < 2 ^ Z.of_nat depth -> (0 < depth)%nat ->
  match auxsort depth w l u with
  | Ok w' => ok w' /\ perm_on l u (content w) (content w')
  | Err TABSORT => ~ valid
  | Err (SORT_ENV e) => fails e
  | Err SORT_FUEL => False
  end.
Proof.
  intros H Hl Hu Hs Hd. pose proof (auxsort_ok ok content elem fails lo hi valid le depth w l u H Hl Hu Hs Hd) as R.
  destruct (auxsort depth w l u) as [w'|[|e|]]; cbn in R; [|done..]. by destruct R as (? & ? & _).
Qed.

(** ** Witnesses *)

#[local] Existing Instance env1.

Definition num_key (v : TValue) : Z := match v with Tint i => i | _ => 0 end.
Definition num_less (L : Z) (a b : TValue) : res unit (Z * bool) := Ok (L + 1, num_key a <? num_key b).
Definition num_le (a b : TValue) : Prop := num_key a <= num_key b.

(** [{3, 1, 5, 2, 4, x = true}] *)
Definition unsorted_ops : list tab_op :=
  [OpSet (int_key 1) (Tint 3); OpSet (int_key 2) (Tint 1); OpSet (int_key 3) (Tint 5); OpSet (int_key 4) (Tint 2);
   OpSet (int_key 5) (Tint 4); OpSet (Tstr 0x1000) Ttrue].
Definition unsorted : GCtab := get_ok (t ← @lj_tab_new env1 0 1; @tab_run env1 t unsorted_ops).

Lemma unsorted_wf : @wf_tab env1 unsorted.
Proof.
  assert (H : forall i, is_i32 i -> wf_tv (int_key i)) by (intros i Hi; apply (canon_int i Hi)).
  apply (@built_wf env1 0 1 unsorted_ops); [done|done| |vm_compute; reflexivity].
  repeat apply Forall_cons_2; try apply Forall_nil_2; split; try (apply H); try (widths; lia); by vm_compute.
Qed.

Lemma num_order_laws : order_laws num_less None (fun _ => False) True num_le.
Proof.
  split_and!.
  - intros L a b _ _. cbn. intros _. unfold num_le. destruct (Z.ltb_spec (num_key a) (num_key b)); lia.
  - intros a b _ _ _. unfold num_le. lia.
  - intros a b c _ _ _ _. unfold num_le. lia.
Qed.

Lemma tab_sort_sorts_witness :
  sort_result unsorted 5 (fun _ : unit => False) True num_le (@tab_sort env1 Z unit num_less None unsorted 0) /\
  match @tab_sort env1 Z unit num_less None unsorted 0 with Ok (t', _) => elements t' 5 = [Tint 1; Tint 2; Tint 3; Tint 4; Tint 5] | Err _ => False end.
Proof.
  split; [|by vm_compute].
  apply (@tab_sort_sorts env1 Z unit num_less None unsorted 5 0 (fun _ => False) True num_le).
  - apply unsorted_wf.
  - by vm_compute.
  - lia.
  - intros i Hi. assert (i = 1 \/ i = 2 \/ i = 3 \/ i = 4 \/ i = 5) as [->|[->|[->|[->| ->]]]] by lia; by vm_compute.
  - apply num_order_laws.
Defined.

(** Lists of numbers, where a read or a store outside of the list fails. *)
Definition list_index (w : list Z) (i : Z) : option nat := if (1 <=? i) && (i <=? Z.of_nat (length w)) then Some (Z.to_nat (i - 1)) else None.

#[local] Instance list_env : SortEnv (list Z) Z unit := {
  lua_rawgeti w i := match list_index w i with Some k => Ok (default 0 (w !! k)) | None => Err tt end;
  lua_rawseti w i v := match list_index w i with Some k => Ok (<[k := v]> w) | None => Err tt end;
  lua_lessthan w a b := Ok (w, a <? b);
  order_call := None
}.

Definition list_content (w : list Z) (i : Z) : Z := match list_index w i with Some k => default 0 (w !! k) | None => 0 end.

#[local] Instance list_laws n : 0 <= n < 2 ^ 30 ->
  SortLaws (fun w : list Z => Z.of_nat (length w) = n) list_content (fun _ => True) (fun _ => False) 1 n True Z.le.
Proof.
  intros Hn. assert (forall w : list Z, Z.of_nat (length w) = n -> forall i, 1 <= i <= n -> list_index w i = Some (Z.to_nat (i - 1))) as I.
  { intros w Hw i Hi. unfold list_index. by rewrite (proj2 (Z.leb_le 1 i)), (proj2 (Z.leb_le i _)) by lia. }
  split; [lia|done| | | | |].
  - intros w i Hw Hi. cbn. unfold list_content. by rewrite I.
  - intros w i v Hw Hi _. cbn. rewrite I by done. assert (length (<[Z.to_nat (i - 1) := v]> w) = length w) as E by apply length_insert. split_and!; [by rewrite E| |].
    + unfold list_content. rewrite I by (rewrite ?E; done). by rewrite list_lookup_insert_eq by lia.
    + intros k Hk. unfold list_content, list_index. rewrite E. destruct ((1 <=? k) && (k <=? _)) eqn:B; [|done]. by rewrite list_lookup_insert_ne by lia.
  - intros w a b Hw _ _. cbn. split_and!; [done|done|]. intros _. destruct (Z.ltb_spec a b); lia.
  - intros; lia.
  - intros; lia.
Qed.

Lemma auxsort_depth_witness :
  match auxsort 3 [3; 1; 2; 5; 4; 7; 6] 1 7 with
  | Ok w' => Z.of_nat (length w') = 7 /\ perm_on 1 7 (list_content [3; 1; 2; 5; 4; 7; 6]) (list_content w')
  | Err TABSORT => ~ True
  | Err (SORT_ENV e) => False
  | Err SORT_FUEL => False
  end /\ auxsort 3 [3; 1; 2; 5; 4; 7; 6] 1 7 = Ok [1; 2; 3; 4; 5; 6; 7].
Proof.
  split; [|by vm_compute]. pose proof (list_laws 7 ltac:(lia)) as SL.
  by apply (auxsort_depth (fun w : list Z => Z.of_nat (length w) = 7) list_content (fun _ => True) (fun _ => False) 1 7 True Z.le 3 [3; 1; 2; 5; 4; 7; 6] 1 7);
    [|lia|lia|lia|lia].
Defined.
