(* ===== verification/Bcdump.v ===== *)
(** * The bytecode dump format and its writer ([lj_bcdump.h], [lj_bcwrite.c])

    A function prototype with its constants, and [lj_bcwrite], which writes it
    to a string buffer and hands the buffer to a writer function, one call for
    the header, one per prototype (children first) and one for the footer.

    The arrays of a prototype are lists: the instructions and the upvalue
    references are numbers, as the machine reads them; they are written in
    the byte order of the target.  A number constant is a [TValue]; a string
    constant is the address of its object. *)

From S2P Require Import Prelude Machine Num Tab Buf Strfmt.

(** What the dumps rely on from the string table: the object for a string,
    and the string of an object.  A string whose object exists is not
    duplicated. *)
Class StrTab := {
  str_new : list Z -> Z;
  strdata : Z -> list Z;
  is_str : Z -> Prop;
  is_str_addr s : is_str s -> is_u32 s;
  strdata_bytes s : is_str s -> bytes (strdata s);
  strdata_len s : is_str s -> len (strdata s) < 0x7fffff00;
  str_new_strdata s : is_str s -> str_new (strdata s) = s
}.

(** ** The format ([lj_bcdump.h]) *)

Definition BCDUMP_HEAD1 : Z := 0x1b.
Definition BCDUMP_HEAD2 : Z := 0x4c.
Definition BCDUMP_HEAD3 : Z := 0x4a.
Definition BCDUMP_VERSION : Z := 2.

Definition BCDUMP_F_BE : Z := 0x01.
Definition BCDUMP_F_STRIP : Z := 0x02.
Definition BCDUMP_F_FFI : Z := 0x04.
Definition BCDUMP_F_FR2 : Z := 0x08.
Definition BCDUMP_F_KNOWN : Z := BCDUMP_F_FR2 * 2 - 1.

Definition BCDUMP_KGC_CHILD : Z := 0.
Definition BCDUMP_KGC_TAB : Z := 1.
Definition BCDUMP_KGC_I64 : Z := 2.
Definition BCDUMP_KGC_U64 : Z := 3.
Definition BCDUMP_KGC_COMPLEX : Z := 4.
Definition BCDUMP_KGC_STR : Z := 5.

Definition BCDUMP_KTAB_NIL : Z := 0.
Definition BCDUMP_KTAB_FALSE : Z := 1.
Definition BCDUMP_KTAB_TRUE : Z := 2.
Definition BCDUMP_KTAB_INT : Z := 3.
Definition BCDUMP_KTAB_NUM : Z := 4.
Definition BCDUMP_KTAB_STR : Z := 5.

(** ** Prototypes ([GCproto] of [lj_obj.h]) *)

Definition PROTO_CHILD : Z := 0x01.
Definition PROTO_VARARG : Z := 0x02.
Definition PROTO_FFI : Z := 0x04.
Definition PROTO_ILOOP : Z := 0x10.

(** A collectable constant; the data of a [cdata] object are 64-bit words. *)
Inductive KGC (P : Type) :=
| KStr (s : Z)
| KChild (pt : P)
| KTab (t : GCtab)
| KI64 (u : Z)
| KU64 (u : Z)
| KComplex (re im : Z).
Arguments KStr {P} s.
Arguments KChild {P} pt.
Arguments KTab {P} t.
Arguments KI64 {P} u.
Arguments KU64 {P} u.
Arguments KComplex {P} re im.

(** The debug info: the bytes from [lineinfo] to the end of the object, and
    the offsets of [uvinfo] and [varinfo] among them. *)
Record ProtoDbg := mkDbg { dbg_info : list Z; dbg_uvinfo : Z; dbg_varinfo : Z }.

Inductive GCproto := mkPT {
  pt_flags : Z;
  pt_numparams : Z;
  pt_framesize : Z;
  pt_trace : Z;
  pt_bc : list Z;                  (* the header instruction first *)
  pt_uv : list Z;
  pt_kgc : list (KGC GCproto);     (* from the lowest address, [k - sizekgc] *)
  pt_kn : list TValue;
  pt_chunkname : Z;
  pt_firstline : Z;
  pt_numline : Z;
  pt_dbg : option ProtoDbg
}.

Definition sizebc (pt : GCproto) : Z := Z.of_nat (length (pt_bc pt)).
Definition sizeuv (pt : GCproto) : Z := Z.of_nat (length (pt_uv pt)).
Definition sizekgc (pt : GCproto) : Z := Z.of_nat (length (pt_kgc pt)).
Definition sizekn (pt : GCproto) : Z := Z.of_nat (length (pt_kn pt)).
Definition has_flag (x f : Z) : bool := negb ((x .& f) =? 0).

(** ** Instructions ([lj_bc.h]) *)

Definition BC_FORI : Z := 77.
Definition BC_JFORI : Z := 78.
Definition BC_FORL : Z := 79.
Definition BC_IFORL : Z := 80.
Definition BC_JFORL : Z := 81.
Definition BC_IITERL : Z := 83.
Definition BC_JITERL : Z := 84.
Definition BC_ILOOP : Z := 86.
Definition BC_JLOOP : Z := 87.
Definition BC_FUNCF : Z := 89.
Definition BC_FUNCV : Z := 92.

Definition BCINS_AD (o a d : Z) : Z := o .| (a << 8) .| (d << 16).
Definition bc_op (i : Z) : Z := i .& 0xff.
Definition bc_b (i : Z) : Z := i >> 24.
Definition bc_c (i : Z) : Z := (i >> 16) .& 0xff.
Definition bc_d (i : Z) : Z := i >> 16.
Definition setbc_byte (i x ofs : Z) : Z := (i .& Z.lnot (0xff << (8 * ofs))) .| (u8 x << (8 * ofs)).

(** The bytes of a 32-bit and of a 16-bit word in memory. *)
Definition word_bytes (BE : bool) (w : Z) : list Z :=
  let l := [u8 w; u8 (w >> 8); u8 (w >> 16); u8 (w >> 24)] in if BE then reverse l else l.
Definition half_bytes (BE : bool) (w : Z) : list Z :=
  let l := [u8 w; u8 (w >> 8)] in if BE then reverse l else l.

(** ** The writer *)

Section Write.
Context `{TE : TabEnv} `{ST : StrTab}.
(** Fresh memory; the target; the first instruction of a trace. *)
Context (raw : nat -> Z) (LJ_BE LJ_FR2 LJ_HASJIT : bool) (startins : Z -> Z).

Definition wuleb (sb : SBuf) (v : Z) : bres SBuf := sb_write sb (lj_strfmt_wuleb128 v).

(** A constant key or value of a template table. *)
Definition bcwrite_ktabk (sb : SBuf) (o : TValue) (narrow : bool) : bres SBuf :=
  sb ← lj_buf_more raw sb (1 + 10);
  if tvisstr o then
    let str := strdata (gcr o) in
    sb ← lj_buf_more raw sb (u32 (5 + len str));
    sb ← wuleb sb (u32 (BCDUMP_KTAB_STR + len str));
    sb_write sb str
  else if tvisint o then
    sb ← sb_write sb [BCDUMP_KTAB_INT];
    wuleb sb (gcr o)
  else if tvisnum o then
    let num := numberVnum o in
    let k := lj_num2int num in
    if negb LJ_DUALNUM && narrow && deq num (int2num k) then
      sb ← sb_write sb [BCDUMP_KTAB_INT];
      wuleb sb (u32 k)
    else
      sb ← sb_write sb [BCDUMP_KTAB_NUM];
      sb ← wuleb sb (gcr o);
      wuleb sb (itype o)
  else sb_write sb [u8 (BCDUMP_KTAB_NIL + u32 (Z.lnot (itype o)))].

(** [for (i = asize-1; i >= 0; i--) if (!tvisnil(&array[i])) break;]: [i+1]
    from [n = i+1] on. *)
Fixpoint narray_loop (t : GCtab) (n : nat) : Z :=
  match n with
  | O => 0
  | S i => if negb (tvisnil (arrayslot t (Z.of_nat i))) then Z.of_nat n else narray_loop t i
  end.

Fixpoint nhash_loop (ns : list Node) : Z :=
  match ns with [] => 0 | n :: ns => (if negb (tvisnil (val n)) then 1 else 0) + nhash_loop ns end.

Fixpoint write_array (sb : SBuf) (os : list TValue) : bres SBuf :=
  match os with [] => Ok sb | o :: os => sb ← bcwrite_ktabk sb o true; write_array sb os end.

(** [for (;; node--)], downwards until [i] entries are written. *)
Fixpoint write_hash (sb : SBuf) (ns : list Node) (i : Z) : bres SBuf :=
  match ns with
  | [] => Ok sb
  | n :: ns =>
      if negb (tvisnil (val n)) then
        sb ← bcwrite_ktabk sb (key n) false;
        sb ← bcwrite_ktabk sb (val n) true;
        if i - 1 =? 0 then Ok sb else write_hash sb ns (i - 1)
      else write_hash sb ns i
  end.

Definition bcwrite_ktab (sb : SBuf) (t : GCtab) : bres SBuf :=
  let narray := if 0 <? asize t then narray_loop t (Z.to_nat (asize t)) else 0 in
  let nhash := if 0 <? hmask t then nhash_loop (node t) else 0 in
  sb ← wuleb sb narray;
  sb ← wuleb sb nhash;
  sb ← (if negb (narray =? 0) then write_array sb (take (Z.to_nat narray) (array t)) else Ok sb);
  if negb (nhash =? 0) then write_hash sb (reverse (node t)) nhash else Ok sb.

(** The type code and the space for a constant. *)
Definition kgc_type {P} (o : KGC P) : Z * Z :=
  match o with
  | KStr s => (u32 (BCDUMP_KGC_STR + len (strdata s)), u32 (5 + len (strdata s)))
  | KChild _ => (BCDUMP_KGC_CHILD, 1)
  | KI64 _ => (BCDUMP_KGC_I64, 1 + 4 * 5)
  | KU64 _ => (BCDUMP_KGC_U64, 1 + 4 * 5)
  | KComplex _ _ => (BCDUMP_KGC_COMPLEX, 1 + 4 * 5)
  | KTab _ => (BCDUMP_KGC_TAB, 1 + 2 * 5)
  end.

Definition write_u64 (sb : SBuf) (u : Z) : bres SBuf := sb ← wuleb sb (u32 u); wuleb sb (u >> 32).

Definition kgc_data {P} (sb : SBuf) (o : KGC P) : bres SBuf :=
  match o with
  | KStr s => sb_write sb (strdata s)
  | KTab t => bcwrite_ktab sb t
  | KChild _ => Ok sb
  | KI64 u | KU64 u => write_u64 sb u
  | KComplex re im => sb ← write_u64 sb re; write_u64 sb im
  end.

Fixpoint bcwrite_kgc {P} (sb : SBuf) (os : list (KGC P)) : bres SBuf :=
  match os with
  | [] => Ok sb
  | o :: os =>
      let '(tp, need) := kgc_type o in
      sb ← lj_buf_more raw sb need;
      sb ← wuleb sb tp;
      sb ← kgc_data sb o;
      bcwrite_kgc sb os
  end.

(** [p[-1] = (p[-1] & 7) | (x & 0x18)] *)
Definition patch_last (s : list Z) (x : Z) : list Z :=
  alter (fun c => u8 ((c .& 7) .| (x .& 0x18))) (length s - 1)%nat s.

(** 33 bits: an integer with the lowest bit clear, the low word of a double
    with the lowest bit set. *)
Definition wuleb33_int (k : Z) : list Z :=
  let s := lj_strfmt_wuleb128 (u32 (2 * u32 k) .| (u32 k .& 0x80000000)) in
  if k <? 0 then patch_last s (k >> 27) else s.
Definition wuleb33_lo (lo : Z) : list Z :=
  let s := lj_strfmt_wuleb128 (u32 (1 + (u32 (2 * lo) .| (lo .& 0x80000000)))) in
  if 0x80000000 <=? lo then patch_last s (lo >> 27) else s.

Definition write_knum (sb : SBuf) (o : TValue) : bres SBuf :=
  if tvisint o then sb_write sb (wuleb33_int (i32 (gcr o)))
  else
    let num := numberVnum o in
    let k := lj_num2int num in
    if negb LJ_DUALNUM && deq num (int2num k) then sb_write sb (wuleb33_int k)
    else
      sb ← sb_write sb (wuleb33_lo (gcr o));
      wuleb sb (itype o).

Fixpoint write_knums (sb : SBuf) (os : list TValue) : bres SBuf :=
  match os with [] => Ok sb | o :: os => sb ← write_knum sb o; write_knums sb os end.

Definition bcwrite_knum (sb : SBuf) (pt : GCproto) : bres SBuf :=
  sb ← lj_buf_more raw sb (u32 (10 * sizekn pt));
  write_knums sb (pt_kn pt).

(** Undo the patches of the JIT compiler in a copied instruction. *)
Definition unpatch_ins (ins : Z) : Z :=
  let op := bc_op ins in
  if (op =? BC_IFORL) || (op =? BC_IITERL) || (op =? BC_ILOOP) || (op =? BC_JFORI) then
    setbc_byte ins (op - BC_IFORL + BC_FORL) 0
  else if (op =? BC_JFORL) || (op =? BC_JITERL) || (op =? BC_JLOOP) then
    let rd := bc_d ins in
    let ins' := startins rd in
    setbc_byte (setbc_byte (setbc_byte ins (op - BC_JFORL + BC_FORL) 0) (bc_c ins') 2) (bc_b ins') 3
  else ins.

(** The instructions after the header, as they are written. *)
Definition dump_bc (pt : GCproto) : list Z :=
  let bc := tail (pt_bc pt) in
  if LJ_HASJIT && (has_flag (pt_flags pt) PROTO_ILOOP || negb (pt_trace pt =? 0)) then unpatch_ins <$> bc else bc.

Definition bcwrite_bytecode (sb : SBuf) (pt : GCproto) : bres SBuf :=
  sb_write sb (concat (word_bytes LJ_BE <$> dump_bc pt)).

(** *** The context and the callback *)

Context {W : Type} (wfunc : W -> list Z -> W * Z).

Record BCWriteCtx := mkCtx { ctx_sb : SBuf; ctx_w : W; ctx_status : Z; ctx_strip : bool }.

Definition call_wfunc (ctx : BCWriteCtx) (s : list Z) : BCWriteCtx :=
  let '(w, st) := wfunc (ctx_w ctx) s in mkCtx (ctx_sb ctx) w st (ctx_strip ctx).
Definition set_ctx_sb (ctx : BCWriteCtx) (sb : SBuf) : BCWriteCtx :=
  mkCtx sb (ctx_w ctx) (ctx_status ctx) (ctx_strip ctx).

(** The size of the debug info that is written. *)
Definition sizedbg (strip : bool) (pt : GCproto) : Z :=
  if strip then 0 else match pt_dbg pt with Some d => len (dbg_info d) | None => 0 end.

Definition proto_head (strip : bool) (pt : GCproto) (sb : SBuf) : bres SBuf :=
  sb ← sb_write sb [pt_flags pt .& (PROTO_CHILD .| PROTO_VARARG .| PROTO_FFI); pt_numparams pt; pt_framesize pt; u8 (sizeuv pt)];
  sb ← wuleb sb (sizekgc pt);
  sb ← wuleb sb (sizekn pt);
  sb ← wuleb sb (u32 (sizebc pt - 1));
  if negb strip then
    sb ← wuleb sb (sizedbg strip pt);
    if negb (sizedbg strip pt =? 0) then sb ← wuleb sb (u32 (pt_firstline pt)); wuleb sb (u32 (pt_numline pt))
    else Ok sb
  else Ok sb.

(** The prototype itself, with room for five bytes of size in front. *)
Definition proto_body (strip : bool) (pt : GCproto) (sb : SBuf) : bres SBuf :=
  sb ← lj_buf_need raw sb (u32 (5 + 4 + 6 * 5 + (sizebc pt - 1) * 4 + sizeuv pt * 2));
  let sb := mkSBuf (sb_b sb) 5 in
  sb ← proto_head strip pt sb;
  sb ← bcwrite_bytecode sb pt;
  sb ← sb_write sb (concat (half_bytes LJ_BE <$> pt_uv pt));
  sb ← bcwrite_kgc sb (pt_kgc pt);
  sb ← bcwrite_knum sb pt;
  match pt_dbg pt with
  | Some d => if negb (sizedbg strip pt =? 0) then sb_put raw sb (sizedbg strip pt) (dbg_info d) else Ok sb
  | None => Ok sb
  end.

(** Fill in the final size in front, and pass the buffer on. *)
Definition proto_flush (ctx : BCWriteCtx) : BCWriteCtx :=
  if ctx_status ctx =? 0 then
    let sb := ctx_sb ctx in
    let n := sb_p sb - 5 in
    let nn := ((lj_fls n + 8) * 9) >> 6 in
    let q := Z.to_nat (5 - nn) in
    let s := lj_strfmt_wuleb128 n in
    let mem := take q (sb_b sb) ++ s ++ drop (q + length s) (sb_b sb) in
    call_wfunc (set_ctx_sb ctx (mkSBuf mem (sb_p sb))) (take (Z.to_nat (nn + n)) (drop q mem))
  else ctx.

Fixpoint bcwrite_proto (ctx : BCWriteCtx) (pt : GCproto) {struct pt} : bres BCWriteCtx :=
  ctx ← (if has_flag (pt_flags pt) PROTO_CHILD then
           (* from the last constant to the first *)
           (fix children (os : list (KGC GCproto)) : bres BCWriteCtx :=
              match os with
              | [] => Ok ctx
              | o :: os =>
                  ctx ← children os;
                  match o with KChild c => bcwrite_proto ctx c | _ => Ok ctx end
              end) (pt_kgc pt)
         else Ok ctx);
  sb ← proto_body (ctx_strip ctx) pt (ctx_sb ctx);
  Ok (proto_flush (set_ctx_sb ctx sb)).

Definition bcwrite_header (ctx : BCWriteCtx) (pt : GCproto) : bres BCWriteCtx :=
  let name := strdata (pt_chunkname pt) in
  sb ← lj_buf_need raw (ctx_sb ctx) (u32 (5 + 5 + len name));
  let flags := (if ctx_strip ctx then BCDUMP_F_STRIP else 0) + (if LJ_BE then BCDUMP_F_BE else 0) +
               (if has_flag (pt_flags pt) PROTO_FFI then BCDUMP_F_FFI else 0) + (if LJ_FR2 then BCDUMP_F_FR2 else 0) in
  sb ← sb_write (lj_buf_reset sb) [BCDUMP_HEAD1; BCDUMP_HEAD2; BCDUMP_HEAD3; BCDUMP_VERSION; flags];
  sb ← (if negb (ctx_strip ctx) then sb ← wuleb sb (len name); sb_write sb name else Ok sb);
  (* the position is not stored in the buffer *)
  let ctx' := call_wfunc (set_ctx_sb ctx sb) (sb_str sb) in
  Ok (set_ctx_sb ctx' (mkSBuf (sb_b sb) (sb_p (ctx_sb ctx)))).

Definition bcwrite_footer (ctx : BCWriteCtx) : BCWriteCtx :=
  if ctx_status ctx =? 0 then call_wfunc ctx [0] else ctx.

Definition cpwriter (ctx : BCWriteCtx) (pt : GCproto) : bres BCWriteCtx :=
  sb ← lj_buf_need raw (ctx_sb ctx) 1024;
  ctx ← bcwrite_header (set_ctx_sb ctx sb) pt;
  ctx ← bcwrite_proto ctx pt;
  Ok (bcwrite_footer ctx).

(** The writer's data and the status; an error of the buffer is thrown and
    caught by [lj_vm_cpcall]. *)
Definition lj_bcwrite (pt : GCproto) (w : W) (strip : bool) : bres (W * Z) :=
  ctx ← cpwriter (mkCtx lj_buf_init w 0 strip) pt;
  Ok (ctx_w ctx, ctx_status ctx).
End Write.
