(* ===== verification/Bcread.v ===== *)
(** * The bytecode dump reader ([lj_bcread.c])

    The reader takes the dump in the pieces its callback delivers.  Only the
    header and the size of a prototype make it ask for input ([bcread_need],
    [bcread_want]); everything else is read from the current buffer, without
    a check but an assertion: reading past the end is the error [DUMP_UB].

    [RM] is the monad of the functions that only move the pointer [ls->p]:
    its state are the characters from [p] to [pe]. *)

From S2P Require Import Prelude Machine Num Tab Buf Strfmt Bcdump.

Inductive DumpErr :=
| BCBAD | BCFMT              (* thrown by [bcread_error] *)
| DUMP_MEM                   (* a buffer that would be too big *)
| DUMP_TAB (e : TabErr)      (* thrown by a table function *)
| DUMP_UB                    (* outside of the buffer, or of a table's array *)
| DUMP_FUEL.
Abbreviation dres := (res DumpErr).

Definition lift_buf {A} (r : bres A) : dres A :=
  match r with Ok a => Ok a | Err BUF_MEM => Err DUMP_MEM | Err BUF_OVERFLOW => Err DUMP_UB | Err BUF_FUEL => Err DUMP_FUEL end.
Definition lift_tab {A} (r : tres A) : dres A := match r with Ok a => Ok a | Err e => Err (DUMP_TAB e) end.

Definition RM (A : Type) : Type := list Z -> dres (A * list Z).
#[export] Instance rm_ret : MRet RM := fun A a p => Ok (a, p).
#[export] Instance rm_bind : MBind RM := fun A B f m p => '(a, p) ← m p; f a p.
Definition rm_lift {A} (r : dres A) : RM A := fun p => a ← r; Ok (a, p).

Section Read.
Context `{TE : TabEnv} `{ST : StrTab}.
Context (raw : nat -> Z) (LJ_BE LJ_FR2 LJ_HASFFI : bool).

(** ** Input buffer handling *)

(** The reader callback and its data: the next piece of input, [[]] for none. *)
Context {R : Type} (rfunc : R -> list Z * R).

Record BCIn := mkIn {
  in_p : list Z;      (* from [p] to [pe] *)
  in_data : R;
  in_eof : bool;      (* [c < 0] *)
  in_sb : SBuf
}.
Definition set_p (i : BCIn) (p : list Z) : BCIn := mkIn p (in_data i) (in_eof i) (in_sb i).

(** Keep the remainder at the start of the buffer: it is moved down in the
    buffer, or copied from the memory of the reader. *)
Definition keep_rest (i : BCIn) (n : Z) : dres SBuf :=
  if negb (len (in_p i) =? 0) then
    sb ← (if negb (sbuflen (in_sb i) =? 0) then Ok (in_sb i) else lift_buf (lj_buf_need raw (in_sb i) n));
    lift_buf (sb_write (lj_buf_reset sb) (in_p i))
  else Ok (lj_buf_reset (in_sb i)).

Fixpoint fill_loop (fuel : nat) (i : BCIn) (n : Z) (need : bool) : dres BCIn :=
  match fuel with
  | O => Err DUMP_FUEL
  | S f =>
      sb ← keep_rest i n;
      let '(buf, rd) := rfunc (in_data i) in
      if len buf =? 0 then
        if need then Err BCBAD else Ok (mkIn (in_p i) rd true sb)
      else
        i ← (if negb (len (in_p i) =? 0) then
               let n' := u32 (len (in_p i) + len buf) in
               sb ← lift_buf (lj_buf_need raw sb (if n' <? n then n else n'));
               sb ← lift_buf (sb_write sb buf);
               Ok (mkIn (in_p i ++ buf) rd (in_eof i) sb)
             else Ok (mkIn buf rd (in_eof i) sb));
        if len (in_p i) <? n then fill_loop f i n need else Ok i
  end.

Definition bcread_fill (i : BCIn) (n : Z) (need : bool) : dres BCIn :=
  if (LJ_MAX_BUF <? n) || in_eof i then Err BCBAD else fill_loop (S (Z.to_nat n)) i n need.

Definition bcread_need (i : BCIn) (n : Z) : dres BCIn := if len (in_p i) <? n then bcread_fill i n true else Ok i.
Definition bcread_want (i : BCIn) (n : Z) : dres BCIn := if len (in_p i) <? n then bcread_fill i n false else Ok i.

(** A function of [RM] on the current buffer. *)
Definition on_p {A} (m : RM A) (i : BCIn) : dres (A * BCIn) := '(a, p) ← m (in_p i); Ok (a, set_p i p).

(** [bcread_mem] and [bcread_block]: [n] bytes. *)
Definition bcread_mem (n : Z) : RM (list Z) := fun p =>
  if n <=? len p then Ok (take (Z.to_nat n) p, drop (Z.to_nat n) p) else Err DUMP_UB.

Definition bcread_byte : RM Z := fun p => match p with c :: p => Ok (c, p) | [] => Err DUMP_UB end.

Definition bcread_uleb128 : RM Z := fun p => match lj_buf_ruleb128 p with Some r => Ok r | None => Err DUMP_UB end.

(** The top 32 bits of a 33-bit value.  A fifth group of seven bits shifted by
    27 loses its upper two bits. *)
Fixpoint uleb33_loop (p : list Z) (v sh : Z) : dres (Z * list Z) :=
  match p with
  | [] => Err DUMP_UB
  | c :: p =>
      let sh := sh + 7 in
      if 32 <=? sh then Err DUMP_UB
      else
        let v := v .| u32 ((c .& 0x7f) << sh) in
        if 0x80 <=? c then uleb33_loop p v sh else Ok (v, p)
  end.

Definition bcread_uleb128_33 : RM Z := fun p =>
  match p with
  | [] => Err DUMP_UB
  | c :: p => let v := c >> 1 in if 0x40 <=? v then uleb33_loop p (v .& 0x3f) (-1) else Ok (v, p)
  end.

(** ** Constants *)

(** The value is stored as two words; a dump from the writer has a number
    there. *)
Definition num_value (lo hi : Z) : TValue := Tnum (lo .| (hi << 32)).

Definition bcread_ktabk : RM TValue :=
  tp ← bcread_uleb128;
  if BCDUMP_KTAB_STR <=? tp then
    s ← bcread_mem (tp - BCDUMP_KTAB_STR);
    mret (Tstr (str_new s))
  else if tp =? BCDUMP_KTAB_INT then v ← bcread_uleb128; mret (setintV (i32 v))
  else if tp =? BCDUMP_KTAB_NUM then lo ← bcread_uleb128; hi ← bcread_uleb128; mret (num_value lo hi)
  else mret (if tp =? BCDUMP_KTAB_NIL then Tnil else if tp =? BCDUMP_KTAB_FALSE then Tfalse else Ttrue).

Fixpoint read_array (t : GCtab) (i k : nat) : RM GCtab :=
  match k with
  | O => mret t
  | S k => v ← bcread_ktabk; read_array (set_array t (<[i := v]> (array t))) (S i) k
  end.

Fixpoint read_hash (t : GCtab) (k : nat) : RM GCtab :=
  match k with
  | O => mret t
  | S k =>
      key ← bcread_ktabk;
      '(t, s) ← rm_lift (lift_tab (lj_tab_set t key));
      v ← bcread_ktabk;
      read_hash (slot_put t s v) k
  end.

Definition bcread_ktab : RM GCtab :=
  narray ← bcread_uleb128;
  nhash ← bcread_uleb128;
  t ← rm_lift (lift_tab (lj_tab_new narray (hsize2hbits nhash)));
  t ← (if negb (narray =? 0) then read_array t 0 (Z.to_nat narray) else mret t);
  if negb (nhash =? 0) then read_hash t (Z.to_nat nhash) else mret t.

Definition read_u64 : RM Z := lo ← bcread_uleb128; hi ← bcread_uleb128; mret (lo .| (hi << 32)).

(** A child prototype is taken from the stack of prototypes read before. *)
Definition pop_child (stack : list GCproto) : RM (GCproto * list GCproto) :=
  match stack with [] => rm_lift (Err BCBAD) | pt :: stack => mret (pt, stack) end.

Definition read_kgc (stack : list GCproto) : RM (KGC GCproto * list GCproto) :=
  tp ← bcread_uleb128;
  if BCDUMP_KGC_STR <=? tp then s ← bcread_mem (tp - BCDUMP_KGC_STR); mret (KStr (str_new s), stack)
  else if tp =? BCDUMP_KGC_TAB then t ← bcread_ktab; mret (KTab t, stack)
  else if LJ_HASFFI && negb (tp =? BCDUMP_KGC_CHILD) then
    re ← read_u64;
    if tp =? BCDUMP_KGC_COMPLEX then im ← read_u64; mret (KComplex re im, stack)
    else mret (if tp =? BCDUMP_KGC_I64 then KI64 re else KU64 re, stack)
  else '(pt, stack) ← pop_child stack; mret (KChild pt, stack).

Fixpoint bcread_kgc (stack : list GCproto) (k : nat) : RM (list (KGC GCproto) * list GCproto) :=
  match k with
  | O => mret ([], stack)
  | S k =>
      '(o, stack) ← read_kgc stack;
      '(os, stack) ← bcread_kgc stack k;
      mret (o :: os, stack)
  end.

(** [ls->p[0] & 1] *)
Definition peek_isnum : RM bool := fun p => match p with c :: _ => Ok (negb ((c .& 1) =? 0), p) | [] => Err DUMP_UB end.

Definition read_knum : RM TValue :=
  isnum ← peek_isnum;
  lo ← bcread_uleb128_33;
  if (isnum : bool) then hi ← bcread_uleb128; mret (num_value lo hi) else mret (setintV (i32 lo)).

Fixpoint bcread_knum (k : nat) : RM (list TValue) :=
  match k with O => mret [] | S k => o ← read_knum; os ← bcread_knum k; mret (o :: os) end.

(** ** Instructions, upvalues, debug info *)

Definition bcread_swap (flags : Z) : bool := negb ((flags .& BCDUMP_F_BE) =? if LJ_BE then BCDUMP_F_BE else 0).

(** Words in memory. *)
Fixpoint mem_words (s : list Z) : list Z :=
  match s with
  | a :: b :: c :: d :: s => (if LJ_BE then word4 d c b a else word4 a b c d) :: mem_words s
  | _ => []
  end.
Fixpoint mem_halfs (s : list Z) : list Z :=
  match s with
  | a :: b :: s => (if LJ_BE then b + a * 2 ^ 8 else a + b * 2 ^ 8) :: mem_halfs s
  | _ => []
  end.
Definition swap_half (x : Z) : Z := u16 ((x >> 8) .| (x << 8)).

Definition bcread_bytecode (swap : bool) (flags framesize nbc : Z) : RM (list Z) :=
  s ← bcread_mem (u32 (nbc * 4));
  let bc := if swap then lj_bswap <$> mem_words s else mem_words s in
  mret (BCINS_AD (if has_flag flags PROTO_VARARG then BC_FUNCV else BC_FUNCF) framesize 0 :: bc).

Definition bcread_uv (swap : bool) (nuv : Z) : RM (list Z) :=
  if negb (nuv =? 0) then
    s ← bcread_mem (nuv * 2);
    mret (if swap then swap_half <$> mem_halfs s else mem_halfs s)
  else mret [].

(** Swap the bytes of the first [n] words of the line info. *)
Fixpoint swap_lines (sz : nat) (n : nat) (s : list Z) : dres (list Z) :=
  match n with
  | O => Ok s
  | S n => if (length s <? sz)%nat then Err DUMP_UB
           else r ← swap_lines sz n (drop sz s); Ok (reverse (take sz s) ++ r)
  end.

Definition bcread_dbg (swap : bool) (numline nbc n : Z) : RM (list Z) :=
  s ← bcread_mem n;
  if swap && (256 <=? numline) then
    rm_lift (swap_lines (if numline <? 65536 then 2 else 4) (Z.to_nat nbc) s)
  else mret s.

(** The loop of [bcread_varinfo] over [n] names: the number of bytes passed. *)
Fixpoint varinfo_loop (p : list Z) (n : Z) : dres Z :=
  match p with
  | [] => Err DUMP_UB
  | c :: p =>
      if negb (c =? 0) then k ← varinfo_loop p n; Ok (k + 1)
      else if negb (n - 1 =? 0) then k ← varinfo_loop p (n - 1); Ok (k + 1)
      else Ok 1
  end.

(** The offset of [varinfo], behind the names of the upvalues. *)
Definition bcread_varinfo (info : list Z) (uvinfo nuv : Z) : dres Z :=
  if negb (nuv =? 0) then k ← varinfo_loop (drop (Z.to_nat uvinfo) info) nuv; Ok (uvinfo + k) else Ok uvinfo.

Definition lineinfo_size (numline nbc : Z) : Z := nbc << (if numline <? 256 then 0 else if numline <? 65536 then 1 else 2).

(** ** Prototypes *)

Definition read_dbg_size (strip : bool) : RM (Z * Z * Z) :=
  if strip then mret (0, 0, 0)
  else
    sizedbg ← bcread_uleb128;
    if negb (sizedbg =? 0) then
      firstline ← bcread_uleb128;
      numline ← bcread_uleb128;
      mret (sizedbg, i32 firstline, i32 numline)
    else mret (0, 0, 0).

Definition read_dbg_info (swap : bool) (sizedbg numline nbc nuv : Z) : RM (option ProtoDbg) :=
  if negb (sizedbg =? 0) then
    info ← bcread_dbg swap numline nbc sizedbg;
    let uvinfo := lineinfo_size numline nbc in
    varinfo ← rm_lift (bcread_varinfo info uvinfo nuv);
    mret (Some (mkDbg info uvinfo varinfo))
  else mret None.

(** The flags are those of the dump.  The sizes of the object and of its parts
    follow from the lengths of the lists. *)
Definition lj_bcread_proto (dflags chunkname : Z) (stack : list GCproto) : RM (GCproto * list GCproto) :=
  let swap := bcread_swap dflags in
  flags ← bcread_byte;
  numparams ← bcread_byte;
  framesize ← bcread_byte;
  nuv ← bcread_byte;
  nkgc ← bcread_uleb128;
  nkn ← bcread_uleb128;
  nbc ← bcread_uleb128;
  '(sizedbg, firstline, numline) ← read_dbg_size (has_flag dflags BCDUMP_F_STRIP);
  bc ← bcread_bytecode swap flags framesize nbc;
  uv ← bcread_uv swap nuv;
  '(kgc, stack) ← bcread_kgc stack (Z.to_nat nkgc);
  kn ← bcread_knum (Z.to_nat nkn);
  dbg ← read_dbg_info swap sizedbg numline nbc nuv;
  mret (mkPT flags numparams framesize 0 bc uv kgc kn chunkname firstline numline dbg, stack).

(** ** The dump *)

(** The flags and the name of the chunk, unless the header is refused. *)
Definition bcread_header (chunkarg : list Z) (i : BCIn) : dres (option (Z * Z) * BCIn) :=
  i ← bcread_want i (3 + 5 + 5);
  '(b1, i) ← on_p bcread_byte i;
  if negb (b1 =? BCDUMP_HEAD2) then Ok (None, i) else
  '(b2, i) ← on_p bcread_byte i;
  if negb (b2 =? BCDUMP_HEAD3) then Ok (None, i) else
  '(b3, i) ← on_p bcread_byte i;
  if negb (b3 =? BCDUMP_VERSION) then Ok (None, i) else
  '(flags, i) ← on_p bcread_uleb128 i;
  if negb ((flags .& Z.lnot BCDUMP_F_KNOWN) =? 0) then Ok (None, i)
  else if negb ((flags .& BCDUMP_F_FR2) =? if LJ_FR2 then BCDUMP_F_FR2 else 0) then Ok (None, i)
  else if has_flag flags BCDUMP_F_FFI && negb LJ_HASFFI then Ok (None, i)
  else if has_flag flags BCDUMP_F_STRIP then Ok (Some (flags, str_new chunkarg), i)
  else
    '(n, i) ← on_p bcread_uleb128 i;
    i ← bcread_need i n;
    '(s, i) ← on_p (bcread_mem n) i;
    Ok (Some (flags, str_new s), i).

(** [for (;;)]: one prototype per round. *)
Fixpoint bcread_loop (fuel : nat) (flags chunkname : Z) (stack : list GCproto) (i : BCIn) : dres (list GCproto * BCIn) :=
  match fuel with
  | O => Err DUMP_FUEL
  | S f =>
      match in_p i with
      | 0 :: p => Ok (stack, set_p i p)
      | _ =>
          i ← bcread_want i 5;
          '(n, i) ← on_p bcread_uleb128 i;
          if n =? 0 then Ok (stack, i)
          else
            i ← bcread_need i n;
            '(r, i') ← on_p (lj_bcread_proto flags chunkname stack) i;
            let '(pt, stack) := (r : GCproto * list GCproto) in
            if negb (len (in_p i) - len (in_p i') =? n) then Err BCBAD
            else bcread_loop f flags chunkname (pt :: stack) i'
      end
  end.

Definition lj_bcread (fuel : nat) (chunkarg : list Z) (i : BCIn) : dres (GCproto * BCIn) :=
  let i := mkIn (in_p i) (in_data i) (in_eof i) (lj_buf_reset (in_sb i)) in
  '(h, i) ← bcread_header chunkarg i;
  match h with
  | None => Err BCFMT
  | Some (flags, chunkname) =>
      '(stack, i) ← bcread_loop fuel flags chunkname [] i;
      if 0 <? i32 (u32 (2 * u32 (len (in_p i)))) then Err BCBAD
      else match stack with [pt] => Ok (pt, i) | _ => Err BCBAD end
  end.
End Read.
