(* ===== verification/BcdumpNum.v ===== *)
(** * Numbers in a bytecode dump

    ULEB128 numbers of 32 and of 33 bits, words in either byte order, and
    doubles that are written as integers: what the writer stores, the reader
    reads back.  [reads m s a] says that [m] reads [a] from [s], whatever
    follows. *)

From S2P Require Import Prelude Machine Num Tab TabKey Buf Strfmt StrfmtNum StrfmtBuf Bcdump Bcread.

Definition reads {A} (m : RM A) (s : list Z) (a : A) : Prop := forall rest, m (s ++ rest) = Ok (a, rest).

Lemma reads_ret {A} (a : A) : reads (mret a) [] a.
Proof. done. Qed.
Lemma reads_bind {A B} (m : RM A) (f : A -> RM B) s1 s2 a b :
  reads m s1 a -> reads (f a) s2 b -> reads (m ≫= f) (s1 ++ s2) b.
Proof. intros H1 H2 rest. rewrite <- app_assoc. unfold mbind, rm_bind. rewrite H1. cbn. apply H2. Qed.
Lemma reads_lift {A B} (r : dres A) (f : A -> RM B) s a b : r = Ok a -> reads (f a) s b -> reads (rm_lift r ≫= f) s b.
Proof. intros -> H rest. unfold mbind, rm_bind, rm_lift. cbn. apply H. Qed.
Lemma reads_bind_ret {A B} (m : RM A) (f : A -> B) s a : reads m s a -> reads (m ≫= fun x => mret (f x)) s (f a).
Proof. intros H. rewrite <- (app_nil_r s). eapply reads_bind; [done|]. apply reads_ret. Qed.

Lemma reads_eq {A} (m : RM A) s a b : reads m s a -> a = b -> reads m s b.
Proof. by intros H <-. Qed.

Lemma reads_mem s : reads (bcread_mem (len s)) s s.
Proof.
  intros rest. unfold bcread_mem, len. rewrite length_app, (proj2 (Z.leb_le _ _)) by lia.
  by rewrite Nat2Z.id, take_app_length, drop_app_length.
Qed.
Lemma reads_mem_n n s : n = len s -> reads (bcread_mem n) s s.
Proof. intros ->. apply reads_mem. Qed.
Lemma reads_byte c : reads bcread_byte [c] c.
Proof. done. Qed.
Lemma reads_uleb v : is_u32 v -> reads bcread_uleb128 (lj_strfmt_wuleb128 v) v.
Proof. intros Hv rest. unfold bcread_uleb128. by rewrite ruleb_wuleb. Qed.

(** ** 33 bits *)

Lemma uleb33_ruleb p : forall v sh, uleb33_loop p v sh = match ruleb128_loop p v sh with Some r => Ok r | None => Err DUMP_UB end.
Proof.
  induction p as [|c p IH]; intros v sh; [done|]. cbn [uleb33_loop ruleb128_loop]. destruct (32 <=? sh + 7); [done|].
  destruct (0x80 <=? c); [apply IH|done].
Qed.

Lemma half_groups v : 0 <= v -> ((v .& 0x7f) >> 1) .| ((v >> 7) << 6) = v >> 1.
Proof.
  intros Hv. apply Z.bits_inj'. intros i Hi. change 0x7f with (Z.ones 7).
  rewrite Z.lor_spec, Z.shiftl_spec, !Z.shiftr_spec, Z.land_spec, Z.testbit_ones by lia.
  rewrite (proj2 (Z.leb_le 0 (i + 1))) by lia. cbn [andb]. destruct (Z.ltb_spec (i + 1) 7).
  - by rewrite (Z.testbit_neg_r (v >> 7)), andb_true_r, orb_false_r, Z.shiftr_spec by lia.
  - rewrite andb_false_r, !Z.shiftr_spec by lia. cbn. f_equal. lia.
Qed.

Lemma first_byte v : 0x80 <= v -> let c := (v .& 0x7f) .| 0x80 in 0x40 <= c >> 1 /\ (c >> 1) .& 0x3f = (v .& 0x7f) >> 1.
Proof.
  intros Hv c. assert (L : 0 <= v .& 0x7f < 128) by (change 127 with (2 ^ 7 - 1); rewrite land_ones_mod by lia; apply Z.mod_pos_bound; lia).
  subst c. set (w := v .& 0x7f) in *. clearbody w.
  assert (K : (0x40 <=? (w .| 0x80) >> 1) && (((w .| 0x80) >> 1) .& 0x3f =? w >> 1) = true).
  { apply (forall_below 128 (fun w => (0x40 <=? (w .| 0x80) >> 1) && (((w .| 0x80) >> 1) .& 0x3f =? w >> 1))); [by vm_compute|lia]. }
  lia.
Qed.

Lemma reads_uleb33 v : 0 <= v < 2 ^ 33 -> reads bcread_uleb128_33 (wuleb128_loop 5 v) (v >> 1).
Proof.
  intros Hv rest. unfold bcread_uleb128_33. cbn [wuleb128_loop]. destruct (Z.leb_spec 0x80 v) as [Hl|Hl].
  - fold (wuleb128_loop 4 (v >> 7)). cbn [app]. destruct (first_byte v Hl) as [Hc E]. cbv zeta in Hc, E.
    rewrite (proj2 (Z.leb_le _ _) Hc), E, uleb33_ruleb.
    change (wuleb128_loop 4 (v >> 7)) with (wuleb128_loop 4 (v >> 7)).
    rewrite (ruleb_wuleb_loop 4); [|lia| |lia| |lia].
    + change (-1 + 7) with 6. by rewrite half_groups by lia.
    + rewrite Z.shiftr_div_pow2 by lia. split; [apply Z.div_pos; lia|apply Z.div_lt_upper_bound; lia].
    + change (-1 + 7) with 6. rewrite Z.shiftr_div_pow2, Z.shiftl_mul_pow2 by lia. Z.div_mod_to_equations; lia.
  - cbn [app]. rewrite Z.shiftr_div_pow2 by lia. rewrite (proj2 (Z.leb_gt _ _)) by (Z.div_mod_to_equations; lia). done.
Qed.

Lemma shr28 v k : 2 ^ 28 <= v -> 0 <= k <= 21 -> 0x80 <= v >> k.
Proof.
  intros Hv Hk. rewrite Z.shiftr_div_pow2 by lia. apply Z.div_le_lower_bound; [lia|].
  transitivity (2 ^ 28); [|done]. change 0x80 with (2 ^ 7). rewrite <- Z.pow_add_r by lia. apply Z.pow_le_mono_r; lia.
Qed.

Definition group (v k : Z) : Z := ((v >> k) .& 0x7f) .| 0x80.

Lemma wuleb_five v : 2 ^ 28 <= v < 2 ^ 35 -> wuleb128_loop 5 v = [group v 0; group v 7; group v 14; group v 21; v >> 28].
Proof.
  intros Hv. cbn [wuleb128_loop]. rewrite !Z.shiftr_shiftr by lia.
  change (7 + 7 + 7 + 7) with 28. change (7 + 7 + 7) with 21. change (7 + 7) with 14.
  rewrite (proj2 (Z.leb_le 128 v)) by lia. do 3 rewrite (proj2 (Z.leb_le 128 (v >> _))) by (apply shr28; lia).
  rewrite (proj2 (Z.leb_gt 128 (v >> 28))) by (rewrite Z.shiftr_div_pow2 by lia; apply Z.div_lt_upper_bound; lia).
  unfold group. by rewrite Z.shiftr_0_r.
Qed.

Lemma group_mod v w k : v mod 2 ^ 28 = w mod 2 ^ 28 -> 0 <= k <= 21 -> group v k = group w k.
Proof.
  intros E Hk. unfold group. f_equal. apply Z.bits_inj'. intros i Hi. change 0x7f with (Z.ones 7).
  rewrite !Z.land_spec, Z.testbit_ones, !Z.shiftr_spec by lia. destruct (Z.ltb_spec i 7); [|by rewrite !andb_false_r].
  f_equal. rewrite <- (Z.mod_pow2_bits_low v 28), <- (Z.mod_pow2_bits_low w 28) by lia. by rewrite E.
Qed.

(** The patch of the last byte makes a number of 33 bits. *)
Lemma land_top k : 2 ^ 31 <= k < 2 ^ 32 -> k .& 0x80000000 = 2 ^ 31.
Proof.
  intros Hk. change 0x80000000 with (2 ^ 31). apply Z.bits_inj'. intros i Hi. rewrite Z.land_spec, Z.pow2_bits_eqb by lia.
  destruct (Z.eqb_spec 31 i) as [<-|]; [|by rewrite andb_false_r]. rewrite andb_true_r. apply Z.testbit_true; [lia|].
  replace (k / 2 ^ 31) with 1; [done|]. apply Z.div_unique with (k - 2 ^ 31); lia.
Qed.
Lemma lor_top m : 0 <= m < 2 ^ 32 -> m .| 2 ^ 31 = if m <? 2 ^ 31 then m + 2 ^ 31 else m.
Proof.
  intros Hm. pose proof (lor_shiftl_add (m mod 2 ^ 31) 1 31) as L. change (1 << 31) with (2 ^ 31) in L.
  rewrite Z.mul_1_l in L. destruct (Z.ltb_spec m (2 ^ 31)).
  - rewrite Z.mod_small in L by lia. apply L; lia.
  - assert (E : m = m mod 2 ^ 31 + 2 ^ 31) by (Z.div_mod_to_equations; lia). rewrite E at 1. rewrite <- L; [|apply Z.mod_pos_bound; lia|lia].
    rewrite <- Z.lor_assoc, Z.lor_diag. rewrite L; [lia|apply Z.mod_pos_bound; lia|lia].
Qed.

Lemma word_33 k b : 2 ^ 31 <= k < 2 ^ 32 -> 0 <= b <= 1 ->
  let w := u32 (b + (u32 (2 * k) .| (k .& 0x80000000))) in
  2 ^ 28 <= w < 2 ^ 32 /\ exists e, w = 2 * k + b - 2 ^ 32 + e * 2 ^ 31 /\ 0 <= e.
Proof.
  intros Hk Hb w. subst w. rewrite land_top by done.
  assert (E : u32 (2 * k) = 2 * k - 2 ^ 32) by (unfold u32; Z.div_mod_to_equations; lia). rewrite E, lor_top by lia.
  destruct (Z.ltb_spec (2 * k - 2 ^ 32) (2 ^ 31)).
  - rewrite u32_id by (widths; lia). split; [lia|]. exists 1. lia.
  - rewrite u32_id by (widths; lia). split; [lia|]. exists 0. lia.
Qed.

Lemma patch_33 k b x : 2 ^ 31 <= k < 2 ^ 32 -> 0 <= b <= 1 -> x .& 0x18 = (k >> 27) .& 0x18 ->
  patch_last (lj_strfmt_wuleb128 (u32 (b + (u32 (2 * k) .| (k .& 0x80000000))))) x = wuleb128_loop 5 (2 * k + b).
Proof.
  intros Hk Hb Hx. destruct (word_33 k b Hk Hb) as (Hw & e & E & He). set (w := u32 _) in *. clearbody w.
  unfold patch_last, lj_strfmt_wuleb128. rewrite !wuleb_five by lia. cbn [length Nat.sub alter list_alter].
  assert (M : forall j, 0 <= j <= 21 -> group w j = group (2 * k + b) j).
  { intros j Hj. apply group_mod; [|done]. subst w. replace (2 * k + b - 2 ^ 32 + e * 2 ^ 31) with (2 * k + b + (8 * e - 16) * 2 ^ 28) by lia.
    apply Z.mod_add. lia. }
  rewrite !M by lia. do 4 f_equal. rewrite Hx.
  assert (Q : (2 * k + b) >> 28 = k >> 27) by (rewrite !Z.shiftr_div_pow2 by lia; Z.div_mod_to_equations; lia).
  assert (R : 16 <= k >> 27 < 32) by (rewrite !Z.shiftr_div_pow2 by lia; Z.div_mod_to_equations; lia).
  assert (C : (w >> 28) .& 7 = (k >> 27) .& 7).
  { change 7 with (2 ^ 3 - 1). rewrite !land_ones_mod, <- Q by lia. rewrite !Z.shiftr_div_pow2 by lia. subst w.
    replace (2 * k + b - 2 ^ 32 + e * 2 ^ 31) with (2 * k + b + (8 * e - 16) * 2 ^ 28) by lia.
    rewrite Z.div_add by lia. replace (8 * e - 16) with ((e - 2) * 2 ^ 3) by lia. apply Z.mod_add. lia. }
  rewrite C, Q. clear -R. set (q := k >> 27) in *. clearbody q. f_equal. apply Z.eqb_eq.
  apply (forall_below 32 (fun q => u8 ((q .& 7) .| (q .& 0x18)) =? q)); [by vm_compute|lia].
Qed.

Lemma no_top k : 0 <= k < 2 ^ 31 -> u32 (2 * k) .| (k .& 0x80000000) = 2 * k.
Proof.
  intros Hk. assert (T : k .& 0x80000000 = 0).
  { change 0x80000000 with (2 ^ 31). apply Z.bits_inj'. intros i Hi. rewrite Z.land_spec, Z.pow2_bits_eqb, Z.testbit_0_l by lia.
    destruct (Z.eqb_spec 31 i) as [<-|]; [|by rewrite andb_false_r]. by rewrite (testbit_high k 31) by lia. }
  rewrite T, Z.lor_0_r. apply u32_id. widths; lia.
Qed.

(** Both writers store the 33-bit number. *)
Lemma wuleb33_lo_eq lo : is_u32 lo -> wuleb33_lo lo = wuleb128_loop 5 (2 * lo + 1).
Proof.
  intros Hl. unfold wuleb33_lo. destruct (Z.leb_spec 0x80000000 lo).
  - apply (patch_33 lo 1 (lo >> 27)); [widths; lia|lia|done].
  - rewrite no_top, u32_id by (widths; lia). unfold lj_strfmt_wuleb128. f_equal. lia.
Qed.

Lemma land_24 a : (a + 32) .& 0x18 = a .& 0x18.
Proof.
  change 0x18 with (31 .& 0x18). rewrite !Z.land_assoc. change 31 with (2 ^ 5 - 1). rewrite !land_ones_mod by lia.
  f_equal. change 32 with (1 * 2 ^ 5). apply Z.mod_add. lia.
Qed.
Lemma wuleb33_int_eq k : is_i32 k -> wuleb33_int k = wuleb128_loop 5 (2 * u32 k).
Proof.
  intros Hk. unfold wuleb33_int. destruct (Z.ltb_spec k 0) as [N|N].
  - assert (E : u32 k = k + 2 ^ 32) by (unfold u32; widths; Z.div_mod_to_equations; lia).
    assert (R : 2 ^ 31 <= u32 k < 2 ^ 32) by (widths; lia). destruct (word_33 (u32 k) 0 R ltac:(lia)) as (W & _).
    pose proof (patch_33 (u32 k) 0 (k >> 27) R ltac:(lia)) as P. rewrite Z.add_0_l in P, W.
    assert (Id : u32 (u32 (2 * u32 k) .| (u32 k .& 0x80000000)) = u32 (2 * u32 k) .| (u32 k .& 0x80000000)).
    { rewrite land_top, lor_top by (done || apply u32_range). pose proof (u32_range (2 * u32 k)).
      destruct (Z.ltb_spec (u32 (2 * u32 k)) (2 ^ 31)); apply u32_id; widths; lia. }
    rewrite Id, Z.add_0_r in P. apply P. rewrite E, !Z.shiftr_div_pow2 by lia.
    replace (k + 2 ^ 32) with (k + 32 * 2 ^ 27) by lia. by rewrite Z.div_add, land_24 by lia.
  - rewrite (u32_id k) by (widths; lia). by rewrite no_top by (widths; lia).
Qed.

Lemma reads_int33 k : is_i32 k -> reads bcread_uleb128_33 (wuleb33_int k) (u32 k).
Proof.
  intros Hk. rewrite wuleb33_int_eq by done. pose proof (u32_range k).
  replace (u32 k) with ((2 * u32 k) >> 1) at 2; [apply reads_uleb33; widths; lia|].
  rewrite Z.shiftr_div_pow2 by lia. change (2 ^ 1) with 2. rewrite Z.mul_comm. by apply Z.div_mul.
Qed.
Lemma reads_lo33 lo : is_u32 lo -> reads bcread_uleb128_33 (wuleb33_lo lo) lo.
Proof.
  intros Hl. rewrite wuleb33_lo_eq by done. replace lo with ((2 * lo + 1) >> 1) at 2; [apply reads_uleb33; widths; lia|].
  rewrite Z.shiftr_div_pow2 by lia. change (2 ^ 1) with 2. Z.div_mod_to_equations; lia.
Qed.

(** The lowest bit tells the two kinds apart. *)
Lemma wuleb33_head v : 0 <= v -> exists c s, wuleb128_loop 5 v = c :: s /\ c .& 1 = v .& 1.
Proof.
  intros Hv. cbn [wuleb128_loop]. destruct (Z.leb_spec 0x80 v); eexists _, _; (split; [done|]); [|done].
  rewrite Z.land_lor_distr_l, <- Z.land_assoc. cbn. by rewrite Z.lor_0_r.
Qed.
Lemma peek_isnum_ok v (b : bool) rest : 0 <= v -> v mod 2 = (if b then 1 else 0) -> peek_isnum (wuleb128_loop 5 v ++ rest) = Ok (b, wuleb128_loop 5 v ++ rest).
Proof.
  intros Hv Hb. destruct (wuleb33_head v Hv) as (c & s & E & L). unfold peek_isnum. rewrite E. cbn [app].
  rewrite L. change 1 with (2 ^ 1 - 1). rewrite land_ones_mod by lia. change (2 ^ 1) with 2. rewrite Hb. by destruct b.
Qed.

(** ** Words *)

Lemma u8_parts w : is_u32 w -> word4 (u8 w) (u8 (w >> 8)) (u8 (w >> 16)) (u8 (w >> 24)) = w.
Proof. intros Hw. unfold word4, u8. rewrite !Z.shiftr_div_pow2 by lia. widths. Z.div_mod_to_equations; lia. Qed.

Lemma mem_words_app BE a s : length a = 4%nat -> exists w, mem_words BE (a ++ s) = w :: mem_words BE s /\
  forall v BE1, is_u32 v -> a = word_bytes BE1 v -> w = if Bool.eqb BE BE1 then v else lj_bswap v.
Proof.
  intros L. destruct a as [|b0 [|b1 [|b2 [|b3 [|]]]]]; try done. cbn [app mem_words]. eexists. split; [done|].
  intros v BE1 Hv E. pose proof (u8_parts v Hv) as P.
  pose proof (u8_range v). pose proof (u8_range (v >> 8)). pose proof (u8_range (v >> 16)). pose proof (u8_range (v >> 24)).
  assert (S : lj_bswap v = word4 (u8 (v >> 24)) (u8 (v >> 16)) (u8 (v >> 8)) (u8 v)) by (rewrite <- P at 1; by apply lj_bswap_word4).
  unfold word_bytes in E. destruct BE1; cbn in E; injection E as -> -> -> ->; destruct BE; cbn [Bool.eqb]; by rewrite ?P, ?S.
Qed.

Lemma words_read BE BE1 ws : Forall is_u32 ws ->
  mem_words BE (concat (word_bytes BE1 <$> ws)) = if Bool.eqb BE BE1 then ws else lj_bswap <$> ws.
Proof.
  induction 1 as [|w ws Hw Hws IH]; [by destruct (Bool.eqb _ _)|]. cbn [fmap list_fmap concat].
  destruct (mem_words_app BE (word_bytes BE1 w) (concat (word_bytes BE1 <$> ws))) as (x & E & X); [by destruct BE1|].
  rewrite E, IH, (X w BE1) by done. by destruct (Bool.eqb _ _).
Qed.

Lemma words_swapped BE BE1 ws : Forall is_u32 ws ->
  (if negb (Bool.eqb BE BE1) then lj_bswap <$> mem_words BE (concat (word_bytes BE1 <$> ws)) else mem_words BE (concat (word_bytes BE1 <$> ws))) = ws.
Proof.
  intros H. rewrite words_read by done. destruct (Bool.eqb _ _); cbn [negb]; [done|]. rewrite <- list_fmap_compose.
  rewrite <- (list_fmap_id ws) at 2. apply list_fmap_ext. intros i w Ew. cbn. apply lj_bswap_invol. by apply (Forall_lookup_1 _ _ _ _ H Ew).
Qed.

Lemma half_parts v : is_u16 v -> u8 v + u8 (v >> 8) * 2 ^ 8 = v.
Proof. intros Hw. unfold u8. rewrite !Z.shiftr_div_pow2 by lia. widths. Z.div_mod_to_equations; lia. Qed.
Lemma swap_half_parts a b : is_u8 a -> is_u8 b -> swap_half (b + a * 2 ^ 8) = a + b * 2 ^ 8.
Proof.
  intros Ha Hb. unfold swap_half. rewrite Z.shiftr_div_pow2 by lia.
  replace ((b + a * 2 ^ 8) / 2 ^ 8) with a by (widths; Z.div_mod_to_equations; lia).
  rewrite lor_shiftl_add by (widths; lia). unfold u16. symmetry. apply Z.mod_unique with a; [widths; lia|]. lia.
Qed.

Lemma halfs_swapped BE BE1 ws : Forall is_u16 ws -> let s := concat (half_bytes BE1 <$> ws) in
  (if negb (Bool.eqb BE BE1) then swap_half <$> mem_halfs BE s else mem_halfs BE s) = ws.
Proof.
  cbv zeta. induction 1 as [|w ws Hw Hws IH]; [by destruct (Bool.eqb _ _)|]. cbn [fmap list_fmap concat].
  pose proof (half_parts w Hw) as P. pose proof (u8_range w) as A. pose proof (u8_range (w >> 8)) as B.
  pose proof (swap_half_parts _ _ A B) as S.
  destruct BE, BE1; cbn [Bool.eqb negb half_bytes reverse rev_append app mem_halfs fmap list_fmap] in *; unfold half_bytes in *; cbn in *;
    rewrite ?S, ?P, IH; done.
Qed.
