(* ===== verification/BcdumpWrite.v ===== *)
(** * What the bytecode writer appends

    Rules for functions that write into a string buffer: [writes k s m] for
    stores into reserved space of [k] bytes, [wputs k s m] for functions that
    start in such space and may reserve more, [puts s m] for those that need
    none.  With them, each writer appends the text that a pure function
    computes, and never stores outside of the buffer. *)

From S2P Require Import Prelude Machine Num Tab Buf Strfmt StrfmtNum StrfmtBuf Bcdump.

(** ** Rules *)

Definition room (k : Z) (sb : SBuf) : Prop := sb_p sb + k <= sbufsz sb.

Definition writes (k : Z) (s : list Z) (m : SBuf -> bres SBuf) : Prop :=
  len s <= k /\ forall sb, buf_ok sb -> room k sb ->
  exists sb', m sb = Ok sb' /\ buf_ok sb' /\ sb_str sb' = sb_str sb ++ s /\ sbufsz sb' = sbufsz sb /\ sb_p sb' = sb_p sb + len s.

(** The most that is reserved without need: the writer asks for ten bytes for
    each of the [BCMAX_D + 1] number constants that a prototype can have. *)
Definition SPARE : Z := 10 * 65536.

Definition wputs (k : Z) (s : list Z) (m : SBuf -> bres SBuf) : Prop :=
  0 <= k /\ forall sb, buf_ok sb -> room k sb -> appended SPARE sb s (m sb).
Definition puts : list Z -> (SBuf -> bres SBuf) -> Prop := wputs 0.

Lemma writes_write k s : len s <= k -> writes k s (fun sb => sb_write sb s).
Proof.
  intros L. split; [done|]. intros sb B R. unfold room in R.
  destruct (sb_write_ok sb s B) as (sb' & E & B' & S & Z' & P); [lia|]. by exists sb'.
Qed.
Lemma writes_le k k' s m : writes k s m -> k <= k' -> writes k' s m.
Proof. intros [L H] K. split; [lia|]. intros sb B R. apply H; [done|]. unfold room in *. lia. Qed.
Lemma writes_ret : writes 0 [] Ok.
Proof. split; [done|]. intros sb B R. exists sb. rewrite app_nil_r, len_nil, Z.add_0_r. by split_and!. Qed.
Lemma writes_bind k1 k2 s t f g : writes k1 s f -> writes k2 t g -> writes (k1 + k2) (s ++ t) (fun sb => f sb ≫= g).
Proof.
  intros [L1 H1] [L2 H2]. rewrite <- ?len_app in *. split; [rewrite len_app; lia|]. intros sb B R. unfold room in *.
  pose proof (len_nonneg t). destruct (H1 sb B) as (sb1 & -> & B1 & S1 & Z1 & P1); [lia|]. cbn [mbind res_bind].
  destruct (H2 sb1 B1) as (sb2 & -> & B2 & S2 & Z2 & P2); [lia|]. exists sb2. rewrite S2, S1, <- app_assoc, len_app.
  split; [done|]. split; [done|]. split; [done|]. split; [congruence|lia].
Qed.
Lemma writes_wputs k s m : writes k s m -> wputs k s m.
Proof.
  intros [L H]. pose proof (len_nonneg s). split; [lia|]. intros sb B R. destruct (H sb B R) as (sb' & -> & B' & S & _ & P). right. by exists sb'.
Qed.
Lemma wputs_le k k' s m : wputs k s m -> k <= k' -> wputs k' s m.
Proof. intros [K H] L. split; [lia|]. intros sb B R. apply H; [done|]. unfold room in *. lia. Qed.
Lemma wputs_writes k1 k2 s t f g : writes k1 s f -> wputs k2 t g -> wputs (k1 + k2) (s ++ t) (fun sb => f sb ≫= g).
Proof.
  intros [L1 H1] [L2 H2]. pose proof (len_nonneg s). split; [lia|]. intros sb B R. unfold room in *.
  destruct (H1 sb B) as (sb1 & -> & B1 & S1 & Z1 & P1); [lia|]. cbn [mbind res_bind].
  destruct (H2 sb1 B1) as [[-> M]|(sb2 & -> & B2 & S2 & P2)]; [lia|left; split; [done|rewrite len_app; lia]|]. right. exists sb2.
  rewrite S2, S1, <- app_assoc, len_app. split; [done|]. split; [done|]. split; [done|lia].
Qed.
Lemma puts_all s m : puts s m -> forall sb, buf_ok sb -> appended SPARE sb s (m sb).
Proof. intros [_ H] sb B. apply H; [done|]. unfold room. destruct B. lia. Qed.
Lemma wputs_puts k s t f g : wputs k s f -> puts t g -> wputs k (s ++ t) (fun sb => f sb ≫= g).
Proof. intros [K H] G. split; [done|]. intros sb B R. apply appended_bind; [by apply H|]. by apply puts_all. Qed.
Lemma puts_ret : puts [] Ok.
Proof. split; [done|]. intros sb B _. right. exists sb. by rewrite app_nil_r, len_nil, Z.add_0_r. Qed.
Lemma wputs_ext k s s' m m' : (forall sb, m sb = m' sb) -> s = s' -> wputs k s m -> wputs k s' m'.
Proof. intros E -> [K H]. split; [done|]. intros sb B R. rewrite <- E. by apply H. Qed.

Lemma puts_more raw n k s f : 0 <= n < 2 ^ 31 -> k <= n <= len s + SPARE -> wputs k s f -> puts s (fun sb => lj_buf_more raw sb n ≫= f).
Proof.
  intros Hn Hk [K H]. split; [done|]. intros sb B _. destruct (lj_buf_more_ok raw sb n B Hn) as [[-> M]|(sb' & -> & B' & P & S & L)]; [left; split; [done|lia]|].
  cbn [mbind res_bind]. assert (R : room k sb') by (unfold room; lia).
  destruct (H sb' B' R) as [[-> M]|(sb2 & -> & B2 & S2 & P2)]; [left; split; [done|lia]|]. right. exists sb2. rewrite <- S, <- P. done.
Qed.

(** Comparing reserved space with the text. *)
Ltac spare := unfold SPARE; rewrite ?len_app;
  repeat match goal with |- context [len ?s] => lazymatch goal with H : 0 <= len s |- _ => fail | _ => pose proof (len_nonneg s) end end; lia.

Lemma writes_uleb v : writes 5 (lj_strfmt_wuleb128 v) (fun sb => wuleb sb v).
Proof. apply writes_write, wuleb_len. Qed.

(** ** Constants *)

Section Consts.
Context `{TE : TabEnv} `{ST : StrTab}.
Context (raw : nat -> Z).

Definition ktabk_text (o : TValue) (narrow : bool) : list Z :=
  if tvisstr o then lj_strfmt_wuleb128 (BCDUMP_KTAB_STR + len (strdata (gcr o))) ++ strdata (gcr o)
  else if tvisint o then [BCDUMP_KTAB_INT] ++ lj_strfmt_wuleb128 (gcr o)
  else if tvisnum o then
    let num := numberVnum o in
    let k := lj_num2int num in
    if negb LJ_DUALNUM && narrow && deq num (int2num k) then [BCDUMP_KTAB_INT] ++ lj_strfmt_wuleb128 (u32 k)
    else [BCDUMP_KTAB_NUM] ++ lj_strfmt_wuleb128 (gcr o) ++ lj_strfmt_wuleb128 (itype o)
  else [u8 (BCDUMP_KTAB_NIL + u32 (Z.lnot (itype o)))].

(** A string of a constant is not too long. *)
Definition str_fits (o : TValue) : Prop := tvisstr o = true -> len (strdata (gcr o)) < 0x7fffff00.

Lemma puts_str tp s : 0 <= tp <= 5 -> len s < 0x7fffff00 ->
  puts (lj_strfmt_wuleb128 (tp + len s) ++ s) (fun sb => sb ← lj_buf_more raw sb (u32 (5 + len s)); sb ← wuleb sb (u32 (tp + len s)); sb_write sb s).
Proof.
  intros Ht L. pose proof (len_nonneg s). rewrite !u32_id by (widths; lia). apply puts_more with (5 + len s); [lia|spare|].
  apply writes_wputs. apply (writes_bind 5 (len s)); [apply writes_uleb|by apply writes_write].
Qed.

Lemma puts_ktabk o narrow : str_fits o -> puts (ktabk_text o narrow) (fun sb => bcwrite_ktabk raw sb o narrow).
Proof.
  intros F. unfold bcwrite_ktabk, ktabk_text. apply puts_more with 11; [lia|spare|].
  assert (W1 : forall c, writes 1 [c] (fun sb => sb_write sb [c])) by (intros; by apply writes_write).
  destruct (tvisstr o) eqn:S; [eapply wputs_le; [apply puts_str; [done|by apply F]|lia]|]. apply writes_wputs.
  destruct (tvisint o); [apply (writes_le 6); [|lia]; apply (writes_bind 1 5); [done|apply writes_uleb]|].
  destruct (tvisnum o); [|by eapply writes_le].
  cbv zeta. destruct (_ && _).
  - apply (writes_le 6); [|lia]; apply (writes_bind 1 5); [done|apply writes_uleb].
  - apply (writes_bind 1 10); [done|]. apply (writes_bind 5 5); apply writes_uleb.
Qed.

Definition knum_text (o : TValue) : list Z :=
  if tvisint o then wuleb33_int (i32 (gcr o))
  else
    let num := numberVnum o in
    let k := lj_num2int num in
    if negb LJ_DUALNUM && deq num (int2num k) then wuleb33_int k
    else wuleb33_lo (gcr o) ++ lj_strfmt_wuleb128 (itype o).

Lemma patch_len s x : len (patch_last s x) = len s.
Proof. unfold patch_last, len. by rewrite length_alter. Qed.
Lemma wuleb33_len k lo : len (wuleb33_int k) <= 5 /\ len (wuleb33_lo lo) <= 5.
Proof. unfold wuleb33_int, wuleb33_lo. split; case_match; rewrite ?patch_len; apply wuleb_len. Qed.

Lemma writes_knum o : writes 10 (knum_text o) (fun sb => write_knum sb o).
Proof.
  unfold write_knum, knum_text. cbv zeta. pose proof (fun k => proj1 (wuleb33_len k 0)) as L1. pose proof (fun lo => proj2 (wuleb33_len 0 lo)) as L2.
  destruct (tvisint o); [apply writes_write; specialize (L1 (i32 (gcr o))); lia|].
  destruct (_ && _); [apply writes_write; specialize (L1 (lj_num2int (numberVnum o))); lia|].
  apply (writes_bind 5 5); [by apply writes_write|apply writes_uleb].
Qed.
Lemma writes_knums os : writes (10 * Z.of_nat (length os)) (concat (knum_text <$> os)) (fun sb => write_knums sb os).
Proof.
  induction os as [|o os IH]; [apply writes_ret|]. cbn [write_knums fmap list_fmap concat].
  replace (10 * Z.of_nat (length (o :: os))) with (10 + 10 * Z.of_nat (length os)) by (cbn [length]; lia).
  apply (writes_bind 10); [apply writes_knum|done].
Qed.

(** ** Tables *)

Definition live_nodes (t : GCtab) : list Node := if 0 <? hmask t then filter (fun n => tvisnil (val n) = false) (reverse (node t)) else [].
Definition live_array (t : GCtab) : list TValue := take (Z.to_nat (if 0 <? asize t then narray_loop t (Z.to_nat (asize t)) else 0)) (array t).

Definition node_text (n : Node) : list Z := ktabk_text (key n) false ++ ktabk_text (val n) true.
Definition ktab_text (t : GCtab) : list Z :=
  lj_strfmt_wuleb128 (Z.of_nat (length (live_array t))) ++ lj_strfmt_wuleb128 (Z.of_nat (length (live_nodes t))) ++
  concat ((fun o => ktabk_text o true) <$> live_array t) ++ concat (node_text <$> live_nodes t).

Definition tab_fits (t : GCtab) : Prop :=
  (Z.to_nat (asize t) <= length (array t))%nat /\ Forall str_fits (live_array t) /\
  Forall (fun n => str_fits (key n) /\ str_fits (val n)) (live_nodes t).

Lemma narray_range t n : 0 <= narray_loop t n <= Z.of_nat n.
Proof. induction n as [|n IH]; cbn [narray_loop]; [lia|]. destruct (negb _); lia. Qed.

Lemma nhash_count ns : nhash_loop ns = Z.of_nat (length (filter (fun n => tvisnil (val n) = false) ns)).
Proof.
  induction ns as [|n ns IH]; [done|]. cbn [nhash_loop]. rewrite IH, filter_cons. destruct (tvisnil (val n)) eqn:E; cbn [negb].
  - rewrite decide_False by congruence. lia.
  - rewrite decide_True by done. cbn [length]. lia.
Qed.

Lemma puts_array os : Forall str_fits os -> puts (concat ((fun o => ktabk_text o true) <$> os)) (fun sb => write_array raw sb os).
Proof.
  induction 1 as [|o os Ho Hos IH]; [apply puts_ret|]. cbn [write_array fmap list_fmap concat]. apply wputs_puts; [by apply puts_ktabk|done].
Qed.

Lemma puts_hash ns : forall i, i = Z.of_nat (length (filter (fun n => tvisnil (val n) = false) ns)) ->
  Forall (fun n => str_fits (key n) /\ str_fits (val n)) (filter (fun n => tvisnil (val n) = false) ns) ->
  puts (concat (node_text <$> filter (fun n => tvisnil (val n) = false) ns)) (fun sb => write_hash raw sb ns i).
Proof.
  induction ns as [|n ns IH]; intros i Hi F; [apply puts_ret|]. cbn [write_hash]. rewrite filter_cons in *.
  destruct (tvisnil (val n)) eqn:E; cbn [negb].
  - rewrite decide_False in * by congruence. by apply IH.
  - rewrite decide_True in * by done. apply Forall_cons_1 in F as [[Fk Fv] F]. cbn [fmap list_fmap concat length] in *.
    unfold node_text at 1. rewrite <- app_assoc. apply wputs_puts; [by apply puts_ktabk|]. apply wputs_puts; [by apply puts_ktabk|].
    destruct (Z.eqb_spec (i - 1) 0) as [E0|E0]; [|apply IH; [lia|done]].
    destruct (filter _ ns); [apply puts_ret|cbn [length] in Hi; lia].
Qed.

Lemma filter_length_reverse (P : Node -> Prop) `{forall n, Decision (P n)} ns : length (filter P (reverse ns)) = length (filter P ns).
Proof. by rewrite reverse_Permutation. Qed.

Lemma wputs_ktab t : tab_fits t -> wputs 10 (ktab_text t) (fun sb => bcwrite_ktab raw sb t).
Proof.
  intros (La & Fa & Fn). unfold bcwrite_ktab, ktab_text. cbv zeta.
  set (na := if 0 <? asize t then _ else 0). set (nh := if 0 <? hmask t then _ else 0).
  assert (Ea : na = Z.of_nat (length (live_array t))).
  { unfold live_array. fold na. rewrite length_take. pose proof (narray_range t (Z.to_nat (asize t))) as R.
    subst na. destruct (0 <? asize t); lia. }
  assert (En : nh = Z.of_nat (length (live_nodes t))).
  { subst nh. unfold live_nodes. destruct (0 <? hmask t); [|done]. by rewrite filter_length_reverse, nhash_count. }
  change (take (Z.to_nat na) (array t)) with (live_array t). rewrite <- Ea, <- En.
  apply (wputs_writes 5 5); [apply writes_uleb|]. apply (wputs_writes 5 0); [apply writes_uleb|]. apply wputs_puts.
  - destruct (Z.eqb_spec na 0) as [Z0|]; cbn [negb]; [|by apply puts_array].
    replace (live_array t) with (@nil TValue); [apply puts_ret|]. symmetry. apply nil_length_inv. lia.
  - destruct (Z.eqb_spec nh 0) as [Z0|Z0]; cbn [negb].
    + replace (live_nodes t) with (@nil Node); [apply puts_ret|]. symmetry. apply nil_length_inv. lia.
    + unfold live_nodes in *. destruct (0 <? hmask t); [|by subst nh]. by apply puts_hash.
Qed.
End Consts.
