(* ===== verification/BcdumpTab.v ===== *)
(** * Template tables in a bytecode dump

    A constant that is written is read back, and a template table is rebuilt
    with the same pairs: the reader's table has room for all of them, so that
    no store needs a rehash. *)

From S2P Require Import Prelude Machine Num Tab TabKey TabHash TabInv TabPut TabSize TabResize TabRehash TabMap Buf Strfmt StrfmtNum StrfmtBuf Bcdump Bcread BcdumpNum BcdumpWrite.

#[local] Arguments lj_num2int : simpl never.
#[local] Arguments int2num : simpl never.
#[local] Arguments deq : simpl never.
#[local] Arguments nkeyed : simpl never.

(** Elements that are told apart by [f] among those with [P]. *)
Lemma nodup_fmap_filter {A B} (f : A -> B) (P : A -> Prop) `{forall x, Decision (P x)} l :
  (forall i j a b, l !! i = Some a -> l !! j = Some b -> P a -> P b -> f a = f b -> i = j) -> NoDup (f <$> filter P l).
Proof.
  induction l as [|x l IH]; intros U; [constructor|].
  assert (N : NoDup (f <$> filter P l)).
  { apply IH. intros i j a b Ea Eb Pa Pb E. by injection (U (S i) (S j) a b Ea Eb Pa Pb E). }
  rewrite filter_cons. case_decide as Px; [|done]. cbn. constructor; [|done].
  intros (y & E & [Py I]%list_elem_of_filter)%list_elem_of_fmap. apply list_elem_of_lookup in I as [k I].
  by pose proof (U 0%nat (S k) x y eq_refl I Px Py E).
Qed.

Section Consts.
Context `{TE : TabEnv} `{ST : StrTab}.

(** The constants that can appear in a dump.  An integer is one of the
    dual-number VM. *)
Definition const_ok (o : TValue) : Prop :=
  match o with
  | Tnil | Tfalse | Ttrue => True
  | Tstr s => is_str s
  | Tint k => LJ_DUALNUM = true /\ is_i32 k
  | Tnum u => is_u64 u /\ u >> 32 < LJ_TISNUM
  | _ => False
  end.

(** The negative zero is never a constant where numbers are narrowed. *)
Definition no_mzero (o : TValue) : Prop := LJ_DUALNUM = false -> o <> Tnum (2 ^ 63).

Lemma const_wf o : const_ok o -> wf_tv o.
Proof. destruct o; cbn; try done; [apply is_str_addr|by intros []]. Qed.
Lemma const_fits o : const_ok o -> str_fits o.
Proof. intros C S. rewrite tvisstr_spec in S by (by apply const_wf). destruct o; try done. by apply strdata_len. Qed.

Lemma num_words u : is_u64 u -> is_u32 (u32 u) /\ is_u32 (u >> 32) /\ num_value (u32 u) (u >> 32) = Tnum u.
Proof.
  intros Hu. split; [apply u32_range|]. rewrite Z.shiftr_div_pow2 by lia. split; [widths; Z.div_mod_to_equations; lia|].
  unfold num_value. f_equal. rewrite lor_shiftl_add; [|apply u32_range|lia]. unfold u32. widths. Z.div_mod_to_equations; lia.
Qed.

(** A double that was narrowed to an integer. *)
Lemma narrowed u : is_u64 u -> no_mzero (Tnum u) -> negb LJ_DUALNUM && deq u (int2num (lj_num2int u)) = true ->
  setintV (lj_num2int u) = Tnum u.
Proof.
  intros Hu N H. apply andb_true_iff in H as [D E]. apply negb_true_iff in D. unfold setintV. rewrite D.
  f_equal. symmetry. apply deq_int_canon; [done| |done]. intros ->. by apply N.
Qed.

Lemma i32_u32_id k : is_i32 k -> i32 (u32 k) = k.
Proof. intros Hk. rewrite i32_u32. by apply i32_id. Qed.

Lemma reads_ktabk o narrow : const_ok o -> (narrow = true -> no_mzero o) -> reads bcread_ktabk (ktabk_text o narrow) o.
Proof.
  intros C N. pose proof (const_wf o C) as W. unfold ktabk_text. rewrite tvisstr_spec, tvisnum_spec by done. unfold bcread_ktabk.
  destruct o as [| | |p|s|it p|k|u]; try done.
  - cbn [gcr]. pose proof (strdata_len s C). pose proof (len_nonneg (strdata s)).
    eapply reads_bind; [apply reads_uleb; unfold BCDUMP_KTAB_STR; widths; lia|]. unfold BCDUMP_KTAB_STR.
    rewrite (proj2 (Z.leb_le _ _)) by lia. replace (5 + len (strdata s) - 5) with (len (strdata s)) by lia.
    eapply reads_eq; [apply (reads_bind_ret _ (fun x => Tstr (str_new x))); apply reads_mem|]. by rewrite str_new_strdata.
  - destruct C as [D Hk]. change (tvisint (Tint k)) with true. cbv iota. cbn [gcr].
    change [BCDUMP_KTAB_INT] with (lj_strfmt_wuleb128 BCDUMP_KTAB_INT).
    eapply reads_bind; [by apply reads_uleb|]. change (BCDUMP_KTAB_STR <=? BCDUMP_KTAB_INT) with false.
    change (BCDUMP_KTAB_INT =? BCDUMP_KTAB_INT) with true. cbv iota.
    eapply reads_eq; [apply (reads_bind_ret _ (fun v => setintV (i32 v))); apply reads_uleb, u32_range|].
    unfold setintV. by rewrite D, i32_u32_id.
  - destruct C as [Hu Hh]. destruct (num_words u Hu) as (L & H & V).
    assert (I : tvisint (Tnum u) = false) by (unfold tvisint; cbn [itype]; apply Z.eqb_neq; lia). rewrite I. cbn [numberVnum gcr itype]. cbv zeta.
    destruct (negb LJ_DUALNUM && narrow && deq u (int2num (lj_num2int u))) eqn:E.
    + assert (narrow = true) as -> by (destruct narrow; [done|]; rewrite andb_false_r in E; done). rewrite andb_true_r in E.
      change [BCDUMP_KTAB_INT] with (lj_strfmt_wuleb128 BCDUMP_KTAB_INT).
      eapply reads_bind; [by apply reads_uleb|]. change (BCDUMP_KTAB_STR <=? BCDUMP_KTAB_INT) with false.
      change (BCDUMP_KTAB_INT =? BCDUMP_KTAB_INT) with true. cbv iota.
      eapply reads_eq; [apply (reads_bind_ret _ (fun v => setintV (i32 v))); apply reads_uleb, u32_range|].
      rewrite i32_u32_id by apply num2int_i32. by apply narrowed; [|apply N|].
    + change [BCDUMP_KTAB_NUM] with (lj_strfmt_wuleb128 BCDUMP_KTAB_NUM).
      eapply reads_bind; [by apply reads_uleb|]. change (BCDUMP_KTAB_STR <=? BCDUMP_KTAB_NUM) with false.
      change (BCDUMP_KTAB_NUM =? BCDUMP_KTAB_INT) with false. change (BCDUMP_KTAB_NUM =? BCDUMP_KTAB_NUM) with true. cbv iota.
      eapply reads_bind; [by apply reads_uleb|]. 
      eapply reads_eq; [apply (reads_bind_ret _ (fun hi => num_value (u32 u) hi)); by apply reads_uleb|exact V].
Qed.

Lemma reads_knum o : const_ok o -> tvisnumber o = true -> no_mzero o -> reads read_knum (knum_text o) o.
Proof.
  intros C T N rest. unfold read_knum, mbind, rm_bind. pose proof (const_wf o C) as W. unfold knum_text. destruct o as [| | |p|s|it p|k|u]; try done.
  - destruct C as [D Hk]. change (tvisint (Tint k)) with true. cbv iota. cbn [gcr]. rewrite i32_u32_id by done.
    pose proof (u32_range k) as R. rewrite wuleb33_int_eq by done.
    rewrite (peek_isnum_ok (2 * u32 k) false); [|widths; lia|rewrite Z.mul_comm; by apply Z.mod_mul]. cbn [mbind res_bind].
    rewrite <- wuleb33_int_eq, (reads_int33 k) by done. cbn [mbind res_bind]. unfold mret, rm_ret, setintV. by rewrite D, i32_u32_id.
  - destruct C as [Hu Hh]. destruct (num_words u Hu) as (L & H & V).
    assert (I : tvisint (Tnum u) = false) by (unfold tvisint; cbn [itype]; apply Z.eqb_neq; lia). rewrite I. cbn [numberVnum gcr itype]. cbv zeta.
    destruct (negb LJ_DUALNUM && deq u (int2num (lj_num2int u))) eqn:E.
    + pose proof (num2int_i32 u) as Hk. set (k := lj_num2int u) in *. pose proof (u32_range k) as R. rewrite wuleb33_int_eq by done.
      rewrite (peek_isnum_ok (2 * u32 k) false); [|widths; lia|rewrite Z.mul_comm; by apply Z.mod_mul]. cbn [mbind res_bind].
      rewrite <- wuleb33_int_eq, (reads_int33 k) by done. cbn [mbind res_bind]. rewrite i32_u32_id by done. subst k. by rewrite (narrowed u Hu N E).
    + rewrite wuleb33_lo_eq by done. rewrite <- app_assoc.
      rewrite (peek_isnum_ok (2 * u32 u + 1) true); [|widths; lia|Z.div_mod_to_equations; lia]. cbn [mbind res_bind].
      rewrite <- wuleb33_lo_eq, (reads_lo33 (u32 u)) by done. cbn [mbind res_bind]. rewrite (reads_uleb (u >> 32)) by done.
      cbn [mbind res_bind]. by rewrite V.
Qed.

Lemma reads_knums os : Forall (fun o => const_ok o /\ tvisnumber o = true /\ no_mzero o) os ->
  reads (bcread_knum (length os)) (concat (knum_text <$> os)) os.
Proof.
  induction 1 as [|o os (C & T & N) Hos IH]; [apply reads_ret|]. cbn [length bcread_knum fmap list_fmap concat].
  eapply reads_bind; [by apply reads_knum|]. by apply (reads_bind_ret _ (fun os => o :: os)).
Qed.

(** ** Tables *)

(** A template table: well formed, with constants in its live slots. *)
Record tab_const (t : GCtab) : Prop := {
  tc_wf : wf_tab t;
  tc_array : forall i, 0 <= i < asize t -> const_ok (arrayslot t i) /\ no_mzero (arrayslot t i);
  tc_nodes : forall i nd, node t !! i = Some nd -> val nd <> Tnil -> const_ok (key nd) /\ const_ok (val nd) /\ no_mzero (val nd)
}.

Definition tab_eq (t t' : GCtab) : Prop := wf_tab t' /\ forall k, wf_tv k -> lj_tab_get t' k = lj_tab_get t k.

Lemma new_room n h t : 0 <= n -> 0 <= h -> lj_tab_new n h = Ok t -> cap t = hsize h /\ nkeyed (node t) = 0%nat.
Proof.
  intros Hn Hh E. pose proof (new_ok n h Hn Hh) as N. rewrite E in N. destruct N as (_ & Hm & _).
  unfold lj_tab_new in E. destruct (Z.eq_dec h 0) as [->|Hz].
  - pose proof (newtab_array n Hn) as A. destruct (newtab n 0) as [t0|e]; cbn [mbind res_bind] in E; [|done].
    destruct A as (_ & (En & Em & Ef) & _). change (hmask (clearapart t0)) with (hmask t0) in E. rewrite Em in E.
    change (0 <? (if decide (0 = 0) then 0 else 2 ^ 0 - 1)) with false in E. injection E as <-. unfold cap. cbn [hmask node clearapart set_array].
    rewrite Em, En, nkeyed_empty. done.
  - rewrite newtab_split in E by done. destruct (newtab n 0) as [t0|e]; cbn [mbind res_bind] in E; [|done].
    destruct (newhpart_ok t0 h ltac:(lia)) as (t1 & E1 & M1 & (N1 & _) & _). change (newhpart t0 h) with (newhpart t0 h) in E.
    rewrite E1 in E. cbn [mbind res_bind] in E. change (hmask (clearapart t1)) with (hmask t1) in E. pose proof (pow2_size h ltac:(lia)) as P.
    rewrite M1, (proj2 (Z.ltb_lt _ _)) in E by lia. injection E as <-. unfold cap. cbn [hmask node clearapart set_array clearhpart set_node] in *.
    rewrite N1, M1, nkeyed_empty, length_replicate. rewrite decide_False by lia. unfold hsize. rewrite decide_False by done. split; [lia|done].
Qed.

Lemma read_array_ok os : forall t i, wf_tab t -> Forall (fun o => const_ok o /\ no_mzero o) os -> Z.of_nat (i + length os) <= asize t ->
  exists t', reads (read_array t i (length os)) (concat ((fun o => ktabk_text o true) <$> os)) t' /\
    wf_tab t' /\ same_shape t t' /\ node t' = node t /\
    (forall j v, os !! j = Some v -> ref_get t' (int_key (Z.of_nat (i + j))) = v) /\
    (forall c, canon c -> (forall j, (j < length os)%nat -> c <> int_key (Z.of_nat (i + j))) -> ref_get t' c = ref_get t c).
Proof.
  induction os as [|o os IH]; intros t i W F L; cbn [length] in L.
  { exists t. split; [apply reads_ret|]. by split_and!. }
  apply Forall_cons_1 in F as [[C N] F].
  destruct (put_array t (Z.of_nat i) o W (const_wf o C) ltac:(lia)) as [W1 S1 G1 _ _].
  rewrite Nat2Z.id in *. cbn [slot_put] in *. set (t1 := set_array t (<[i := o]> (array t))) in *.
  destruct (IH t1 (S i) W1 F) as (t' & R & W' & S' & N' & A' & B'); [rewrite (sh_asize _ _ S1); lia|].
  assert (Ki : forall j, (j < length (o :: os))%nat -> canon (int_key (Z.of_nat (i + j)))).
  { intros j Hj. apply canon_int. apply (asize_i32 t); [done|]. cbn [length] in Hj. lia. }
  assert (Kn : forall j, (j < length os)%nat -> int_key (Z.of_nat i) <> int_key (Z.of_nat (S i + j))).
  { intros j Hj E. apply int_key_inj with (t := t) in E; [lia|done|lia|lia]. }
  exists t'. split; [|split; [done|split; [by transitivity t1|split; [by rewrite N'|split]]]].
  - cbn [length read_array fmap list_fmap concat]. eapply reads_bind; [by apply reads_ktabk|exact R].
  - intros [|j] v E; cbn in E.
    + injection E as ->. rewrite Nat.add_0_r. rewrite B'; [|specialize (Ki 0%nat); rewrite Nat.add_0_r in Ki; apply Ki; cbn; lia|by apply Kn].
      rewrite G1 by (specialize (Ki 0%nat); rewrite Nat.add_0_r in Ki; apply Ki; cbn; lia). by rewrite decide_True.
    + replace (i + S j)%nat with (S i + j)%nat by lia. by apply A'.
  - intros c Hc Nc. rewrite B'; [|done|intros j Hj; replace (S i + j)%nat with (i + S j)%nat by lia; apply Nc; cbn; lia].
    rewrite G1 by done. rewrite decide_False; [done|]. specialize (Nc 0%nat). rewrite Nat.add_0_r in Nc. apply Nc. cbn. lia.
Qed.

Lemma read_hash_ok ns : forall t t', Forall (fun nd => tvisnil (val nd) = false /\ const_ok (key nd) /\ const_ok (val nd) /\ no_mzero (val nd)) ns ->
  reinsert_hash (tab_retry rehash_fuel) t ns = Ok t' -> reads (read_hash t (length ns)) (concat (node_text <$> ns)) t'.
Proof.
  induction ns as [|nd ns IH]; intros t t' F E; cbn [reinsert_hash] in E.
  { injection E as <-. apply reads_ret. }
  apply Forall_cons_1 in F as [(V & Ck & Cv & Nv) F]. rewrite V in E. cbn [negb] in E.
  cbn [length read_hash fmap list_fmap concat]. unfold node_text at 1. rewrite <- app_assoc.
  eapply reads_bind; [by apply reads_ktabk|]. change (lj_tab_set t (key nd)) with (set_ (tab_retry rehash_fuel) t (key nd)).
  destruct (set_ (tab_retry rehash_fuel) t (key nd)) as [[t1 s]|e]; cbn [mbind res_bind] in E; [|done].
  eapply reads_lift; [done|]. cbn beta iota. eapply reads_bind; [by apply reads_ktabk|]. by apply IH.
Qed.

Section Template.
Context (t : GCtab) (T : tab_const t).

Lemma narray_spec n : (n <= Z.to_nat (asize t))%nat -> forall i, narray_loop t n <= i < Z.of_nat n -> arrayslot t i = Tnil.
Proof.
  induction n as [|n IH]; intros L i Hi; cbn [narray_loop] in Hi; [lia|].
  destruct (tvisnil (arrayslot t (Z.of_nat n))) eqn:E; cbn [negb] in Hi; [|lia].
  destruct (Z.eq_dec i (Z.of_nat n)) as [->|]; [|apply IH; lia].
  rewrite tvisnil_spec in E; [by apply bool_decide_eq_true in E|]. apply const_wf, (tc_array t T). lia.
Qed.

Lemma live_array_len : Z.of_nat (length (live_array t)) <= asize t.
Proof.
  unfold live_array. rewrite length_take. pose proof (w_asize t (tc_wf t T)). pose proof (narray_range t (Z.to_nat (asize t))).
  destruct (0 <? asize t); lia.
Qed.
Lemma live_array_lookup j v : live_array t !! j = Some v -> v = arrayslot t (Z.of_nat j).
Proof.
  unfold live_array. intros [E _]%lookup_take_Some. unfold arrayslot. by rewrite Nat2Z.id, E.
Qed.
Lemma live_array_rest i : Z.of_nat (length (live_array t)) <= i < asize t -> arrayslot t i = Tnil.
Proof.
  intros Hi. pose proof (tc_wf t T) as W. pose proof (w_array t W) as L. revert Hi. unfold live_array. rewrite length_take.
  destruct (Z.ltb_spec 0 (asize t)); [|lia]. pose proof (narray_range t (Z.to_nat (asize t))). intros Hi.
  apply (narray_spec (Z.to_nat (asize t))); [done|]. lia.
Qed.
Lemma live_array_const : Forall (fun o => const_ok o /\ no_mzero o) (live_array t).
Proof.
  apply Forall_lookup_2. intros j v E. pose proof (lookup_lt_Some _ _ _ E). pose proof live_array_len.
  apply live_array_lookup in E as ->. apply (tc_array t T). lia.
Qed.

Lemma hmask_nodes : hmask t = 0 /\ node t = [nil_node] \/ 0 < hmask t /\ Z.of_nat (length (node t)) <= 2 ^ 26.
Proof.
  destruct (w_size t (tc_wf t T)) as [(H & N & _)|(h & Hh & Hm & L & _)]; [by left|right].
  pose proof (pow2_size h ltac:(lia)). unfold LJ_MAX_HBITS in Hh. pose proof (Z.pow_le_mono_r 2 h 26). lia.
Qed.

Lemma live_nodes_in nd : nd ∈ live_nodes t -> nd ∈ node t /\ tvisnil (val nd) = false.
Proof.
  unfold live_nodes. destruct (0 <? hmask t); [|by intros ?%elem_of_nil]. rewrite list_elem_of_filter, elem_of_reverse. tauto.
Qed.
Lemma live_nodes_len : Z.of_nat (length (live_nodes t)) <= 2 ^ 26.
Proof.
  unfold live_nodes. destruct hmask_nodes as [[-> _]|[H L]]; [done|]. rewrite (proj2 (Z.ltb_lt _ _)) by done.
  rewrite filter_length_reverse. pose proof (length_filter (fun n => tvisnil (val n) = false) (node t)). lia.
Qed.
Lemma node_nonnil nd : nd ∈ node t -> tvisnil (val nd) = false <-> val nd <> Tnil.
Proof.
  intros [i E]%list_elem_of_lookup. rewrite tvisnil_spec by (eapply w_nvals; [apply T|done]). apply bool_decide_eq_false.
Qed.

Lemma live_nodes_const : Forall (fun nd => tvisnil (val nd) = false /\ const_ok (key nd) /\ const_ok (val nd) /\ no_mzero (val nd)) (live_nodes t).
Proof.
  apply Forall_lookup_2. intros k nd [I V]%list_elem_of_lookup_2%live_nodes_in. split; [done|]. pose proof (proj1 (node_nonnil nd I) V).
  apply list_elem_of_lookup in I as [i E]. by apply (tc_nodes t T i).
Qed.

Lemma live_nodes_has c v : has (live_nodes t) c v <-> has (node t) c v.
Proof.
  unfold has. split; intros (i & nd & E & K & V & N).
  - apply list_elem_of_lookup_2 in E. apply live_nodes_in in E as [I _]. apply list_elem_of_lookup in I as [j E]. by exists j, nd.
  - assert (I : nd ∈ node t) by (by apply list_elem_of_lookup_2 in E). enough (L : nd ∈ live_nodes t) by (apply list_elem_of_lookup in L as [j L]; by exists j, nd).
    unfold live_nodes. destruct hmask_nodes as [[Hm Hn]|[Hm _]].
    + exfalso. rewrite Hn in I. apply list_elem_of_singleton in I as ->. by subst v.
    + rewrite (proj2 (Z.ltb_lt _ _)) by done. rewrite list_elem_of_filter, elem_of_reverse. split; [|done]. apply node_nonnil; [done|congruence].
Qed.

(** The nodes are visited once: no key twice. *)
Lemma live_nodes_uniq i j a b : live_nodes t !! i = Some a -> live_nodes t !! j = Some b -> val a <> Tnil -> val b <> Tnil -> key a = key b -> i = j.
Proof.
  assert (N : NoDup (key <$> live_nodes t)).
  { unfold live_nodes. destruct hmask_nodes as [[-> _]|[Hm _]]; [constructor|]. rewrite (proj2 (Z.ltb_lt _ _)) by done.
    assert (P : filter (fun n => tvisnil (val n) = false) (reverse (node t)) ≡ₚ filter (fun n => tvisnil (val n) = false) (node t)) by by rewrite reverse_Permutation.
    rewrite P. apply nodup_fmap_filter. intros k l x y Ex Ey Vx _ K.
    apply (h_uniq _ _ (w_hash t (tc_wf t T)) _ _ _ _ Ex Ey); [|done]. intros K0.
    destruct (h_free _ _ (w_hash t (tc_wf t T)) k x Ex K0) as [V _]. by rewrite V in Vx. }
  intros Ea Eb _ _ K. apply (NoDup_lookup (key <$> live_nodes t) i j (key a)); [done| |]; rewrite list_lookup_fmap, ?Ea, ?Eb; cbn; congruence.
Qed.

Lemma hsize_bits n : 0 <= n <= 2 ^ 26 -> 0 <= hsize2hbits n <= LJ_MAX_HBITS.
Proof.
  intros Hn. destruct (hsize2hbits_ok n ltac:(lia)) as [L _]. split; [done|]. unfold hsize2hbits, LJ_MAX_HBITS, lj_fls in *.
  destruct (negb (n =? 0)) eqn:E; [|lia]. destruct (Z.eqb_spec n 1); [lia|]. apply negb_true_iff, Z.eqb_neq in E.
  rewrite u32_id by (widths; lia). pose proof (Z.log2_le_mono (n - 1) (2 ^ 26 - 1) ltac:(lia)) as M.
  change (Z.log2 (2 ^ 26 - 1)) with 25 in M. lia.
Qed.

Lemma hneed_le n ns : (hneed n ns <= length ns)%nat.
Proof. induction ns as [|nd ns IH]; [done|]. cbn [hneed length]. repeat case_match; lia. Qed.

Lemma get_same t' : wf_tab t' -> (forall c, canon c -> ref_get t' c = ref_get t c) -> tab_eq t t'.
Proof.
  intros W' G. split; [done|]. intros k Hk. pose proof (tc_wf t T). rewrite !get_ref by done. destruct (norm k) as [c|] eqn:N; [|done].
  by rewrite G by (by eapply canon_norm).
Qed.

Lemma reads_ktab : exists t', reads bcread_ktab (ktab_text t) t' /\ tab_eq t t'.
Proof.
  pose proof (tc_wf t T) as W. pose proof live_array_len as La. pose proof live_nodes_len as Ln. pose proof (w_asize t W) as Wa.
  change LJ_MAX_ASIZE with (2 ^ 27 + 1) in Wa.
  set (na := Z.of_nat (length (live_array t))) in *. set (nh := Z.of_nat (length (live_nodes t))) in *.
  assert (Una : is_u32 na) by (widths; lia). assert (Unh : is_u32 nh) by (widths; lia).
  destruct (hsize_bits nh ltac:(lia)) as [H1 H2]. destruct (hsize2hbits_ok nh ltac:(lia)) as [_ H3].
  pose proof (new_ok na (hsize2hbits nh) ltac:(lia) H1) as N. destruct (lj_tab_new na (hsize2hbits nh)) as [t0|e] eqn:E0;
    [|exfalso; destruct N as [_ [N|N]]; [change LJ_MAX_ASIZE with (2 ^ 27 + 1) in N|]; lia].
  destruct N as (_ & _ & W0 & A0 & G0). destruct (new_room na (hsize2hbits nh) t0 ltac:(lia) H1 E0) as [C0 K0].
  destruct (read_array_ok (live_array t) t0 0 W0 live_array_const) as (t1 & R1 & W1 & S1 & N1 & P1 & Q1); [rewrite A0; lia|].
  destruct (reinsert_hash_ok (tab_retry rehash_fuel) (live_nodes t) t1 W1) as (t2 & E2 & [W2 S2 _] & P2 & Q2).
  { intros i nd E%list_elem_of_lookup_2%live_nodes_in. destruct E as [I _]. apply list_elem_of_lookup in I as [j I]. by apply (hash_pairs t j). }
  { apply live_nodes_uniq. }
  { rewrite N1, K0, (cap_shape _ _ S1), C0. pose proof (hneed_le (asize t1) (live_nodes t)). lia. }
  exists t2. split.
  - unfold bcread_ktab, ktab_text. fold na nh.
    eapply reads_bind; [by apply reads_uleb|]. eapply reads_bind; [by apply reads_uleb|]. eapply reads_lift; [by rewrite E0|].
    assert (X : reads (if negb (na =? 0) then read_array t0 0 (Z.to_nat na) else mret t0) (concat ((fun o => ktabk_text o true) <$> live_array t)) t1).
    { unfold na. rewrite Nat2Z.id. destruct (live_array t) as [|o os] eqn:El; [|exact R1]. intros rest. by rewrite <- (R1 rest). }
    eapply reads_bind; [exact X|]. unfold nh. rewrite Nat2Z.id. pose proof (read_hash_ok _ t1 t2 live_nodes_const E2) as R2.
    destruct (live_nodes t) as [|o os]; [|exact R2]. intros rest. by rewrite <- (R2 rest).
  - apply get_same; [done|]. intros c Hc.
    assert (G1 : forall i, 0 <= i < asize t -> ref_get t1 (int_key i) = arrayslot t i).
    { intros i Hi. destruct (Z.lt_ge_cases i na) as [Hl|Hl].
      - destruct (lookup_lt_is_Some_2 (live_array t) (Z.to_nat i)) as [v Ev]; [lia|]. pose proof (P1 _ _ Ev) as P.
        cbn [plus] in P. rewrite Z2Nat.id in P by lia. rewrite P. apply live_array_lookup in Ev as ->. by rewrite Z2Nat.id by lia.
      - rewrite live_array_rest by lia. rewrite Q1.
        + apply G0, canon_int. by apply (asize_i32 t).
        + apply canon_int. by apply (asize_i32 t).
        + intros j Hj E. apply (int_key_inj t) in E; [lia|done|lia|lia]. }
    assert (Out : (forall i, 0 <= i < asize t -> c <> int_key i) -> ref_get t1 c = Tnil).
    { intros O. rewrite Q1; [by apply G0|done|]. intros j Hj. apply O. lia. }
    destruct (in_arr_cases t c W Hc) as [(i & Hi & ->)|Na].
    + rewrite Q2; [|done|]; [by rewrite G1, ref_get_arr|]. intros v Hv. apply live_nodes_has in Hv. destruct Hv as (j & nd & E & K & _).
      by destruct (w_noint t W j nd i E Hi).
    + rewrite (ref_get_hash t c W Hc Na). assert (Nc : c <> Tnil) by by (intros ->; destruct Hc).
      destruct (decide (scan (node t) c = Tnil)) as [S|S].
      * rewrite S, Q2; [|done|].
        -- apply Out. intros i Hi ->. apply Na. by exists i.
        -- intros v Hv%live_nodes_has. destruct (Hv) as (_ & _ & _ & _ & _ & Nv). apply (scan_has _ _ (w_hash t W)) in Hv; congruence.
      * apply P2; [done|]. apply live_nodes_has. by apply (scan_has _ _ (w_hash t W)).
Qed.
End Template.
End Consts.
