(* ===== verification/BcdumpIn.v ===== *)
(** * The input of the bytecode reader

    [bcread_need] and [bcread_want] collect the pieces of the input in the
    buffer without losing a byte: the bytes that are left, in the buffer and
    in the pieces to come, stay the same, and afterwards the current buffer
    holds as many as were asked for. *)

From S2P Require Import Prelude Machine Num Tab Buf Strfmt StrfmtNum StrfmtBuf Bcdump Bcread BcdumpNum.

Abbreviation PIn := (@BCIn (list (list Z))).

(** The bytes that are left. *)
Definition total (i : PIn) : list Z := in_p i ++ concat (in_data i).

Record in_ok (i : PIn) : Prop := {
  io_sb : buf_ok (in_sb i);
  io_fit : sbuflen (in_sb i) = 0 \/ len (in_p i) <= sbufsz (in_sb i);
  io_pieces : pieces_ok (in_data i);
  io_eof : in_eof i = true -> in_data i = [];
  io_max : len (total i) <= LJ_MAX_BUF
}.

Section Input.
Context (raw : nat -> Z).

Abbreviation fill := (fill_loop raw piece_reader).

Lemma keep_rest_ok i n : in_ok i -> len (in_p i) < n -> n <= LJ_MAX_BUF ->
  exists sb, keep_rest raw i n = Ok sb /\ buf_ok sb /\ sb_p sb = len (in_p i).
Proof.
  intros [B F _ _ _] Hl Hn. pose proof (len_nonneg (in_p i)). unfold keep_rest. destruct (Z.eqb_spec (len (in_p i)) 0) as [E|E]; cbn [negb].
  - rewrite E. exists (lj_buf_reset (in_sb i)). split; [done|]. split; [by apply reset_ok|done].
  - assert (R : exists sb, (if negb (sbuflen (in_sb i) =? 0) then Ok (in_sb i) else lift_buf (lj_buf_need raw (in_sb i) n)) = Ok sb /\
      buf_ok sb /\ len (in_p i) <= sbufsz sb).
    { destruct (Z.eqb_spec (sbuflen (in_sb i)) 0) as [Z0|Z0]; cbn [negb].
      - destruct (lj_buf_need_ok raw (in_sb i) n B ltac:(lia)) as [[_ M]|(sb & -> & B' & L & _)]; [lia|].
        exists sb. split; [done|]. split; [done|lia].
      - exists (in_sb i). split; [done|]. split; [done|]. destruct F; [done|lia]. }
    destruct R as (sb & -> & B' & L). cbn [mbind res_bind]. destruct (reset_ok sb B') as [B0 _].
    destruct (sb_write_ok (lj_buf_reset sb) (in_p i) B0) as (sb' & -> & B1 & _ & _ & P); [exact L|].
    exists sb'. split; [done|]. split; [done|]. rewrite P. cbn. lia.
Qed.

(** What filling achieves: the same bytes, and enough of them unless the
    input has ended. *)
Definition filled (i : PIn) (n : Z) (i' : PIn) : Prop :=
  in_ok i' /\ total i' = total i /\ (n <= len (in_p i') \/ in_p i' = total i).

Lemma fill_loop_ok fuel : forall i n need, in_ok i -> in_eof i = false -> len (in_p i) < n -> n <= LJ_MAX_BUF ->
  n - len (in_p i) < Z.of_nat fuel ->
  if need && (len (total i) <? n) then fill fuel i n need = Err BCBAD
  else exists i', fill fuel i n need = Ok i' /\ filled i n i'.
Proof.
  induction fuel as [|f IH]; intros i n need I E Hl Hn F; [lia|]. cbn [fill_loop].
  destruct (keep_rest_ok i n I Hl Hn) as (sb & -> & B & P). cbn [mbind res_bind]. destruct I as [Bi Fi Pi Ei Mi].
  destruct i as [p [|x rd] eof isb]; cbn [in_p in_data in_eof in_sb piece_reader] in *; unfold total in *; cbn [in_p in_data concat] in *.
  - rewrite len_nil, app_nil_r. change (0 =? 0) with true. cbv iota. rewrite (proj2 (Z.ltb_lt _ _)) by done. destruct need; cbn [andb]; [done|].
    eexists. split; [done|]. split; [|split; [by unfold total; cbn; rewrite app_nil_r|right; by unfold total; cbn; rewrite app_nil_r]].
    split; cbn; [done|right; destruct B; lia|done|done|unfold total; cbn; by rewrite app_nil_r in *].
  - apply Forall_cons_1 in Pi as [Nx Pi]. pose proof (len_nonneg p). pose proof (len_nonneg (concat rd)).
    assert (Lx : 0 < len x) by (destruct x; [done|unfold len; cbn; lia]). rewrite !len_app in Mi. unfold LJ_MAX_BUF in *.
    rewrite (proj2 (Z.eqb_neq _ _)) by lia.
    assert (R : exists i1, (if negb (len p =? 0) then
        sb ← lift_buf (lj_buf_need raw sb (if u32 (len p + len x) <? n then n else u32 (len p + len x)));
        sb ← lift_buf (sb_write sb x); Ok (mkIn (p ++ x) rd eof sb)
      else Ok (mkIn x rd eof sb)) = Ok i1 /\ in_ok i1 /\ in_p i1 = p ++ x /\ in_data i1 = rd /\ in_eof i1 = eof).
    { destruct (Z.eqb_spec (len p) 0) as [Z0|Z0]; cbn [negb].
      - assert (p = []) as -> by (destruct p; [done|unfold len in Z0; cbn in Z0; lia]). eexists. split; [done|]. split; [|done].
        split; cbn [in_p in_data in_eof in_sb]; [done|left; exact P|done|intros Et; congruence|unfold total, LJ_MAX_BUF; cbn; rewrite len_app; lia].
      - rewrite u32_id by (widths; lia). set (m := if _ <? n then n else _).
        assert (Hm : len p + len x <= m <= 0x7fffff00) by (subst m; destruct (Z.ltb_spec (len p + len x) n); lia).
        destruct (lj_buf_need_ok raw sb m B ltac:(lia)) as [[_ M]|(sb1 & -> & B1 & L1 & P1 & _)]; [unfold LJ_MAX_BUF in M; lia|]. cbn [mbind res_bind lift_buf].
        destruct (sb_write_ok sb1 x B1) as (sb2 & -> & B2 & _ & Z2 & P2); [lia|]. cbn [mbind res_bind lift_buf]. eexists. split; [done|]. split; [|done].
        split; cbn [in_p in_data in_eof in_sb]; [done|right; rewrite len_app; lia|done|intros Et; congruence|].
        unfold total, LJ_MAX_BUF. cbn [in_p in_data]. rewrite !len_app. lia. }
    destruct R as (i1 & -> & I1 & P1 & D1 & E1). cbn [mbind res_bind]. rewrite P1.
    assert (T1 : total i1 = p ++ x ++ concat rd) by (unfold total; rewrite P1, D1, app_assoc; done).
    destruct (Z.ltb_spec (len (p ++ x)) n) as [Hlt|Hge].
    + pose proof (IH i1 n need I1) as G. fold (total i1) in G. unfold LJ_MAX_BUF in *. rewrite P1, T1, E1 in G. specialize (G E Hlt Hn). rewrite len_app in G. specialize (G ltac:(lia)).
      destruct (need && _); [done|]. destruct G as (i' & -> & I' & T' & Q). exists i'. split; [done|]. unfold filled. rewrite T', T1. rewrite T1 in Q.
      split; [done|]. split; [done|]. exact Q.
    + rewrite len_app in Hge. rewrite !len_app. rewrite (proj2 (Z.ltb_ge _ _)) by lia. rewrite andb_false_r. exists i1. split; [done|].
      split; [done|]. split; [exact T1|]. left. rewrite P1, len_app. lia.
Qed.

Lemma total_p i : in_ok i -> in_eof i = true -> total i = in_p i.
Proof. intros [_ _ _ E _] H. unfold total. by rewrite (E H), app_nil_r. Qed.

(** Asking for bytes that exist. *)
Lemma need_ok i n : in_ok i -> n <= len (total i) -> exists i', bcread_need raw piece_reader i n = Ok i' /\ filled i n i'.
Proof.
  intros I L. pose proof (io_max i I) as M. unfold bcread_need. destruct (Z.ltb_spec (len (in_p i)) n) as [H|H]; [|exists i; split; [done|]; split; [done|]; auto].
  unfold bcread_fill. rewrite (proj2 (Z.ltb_ge _ _)) by lia. cbn [orb].
  destruct (in_eof i) eqn:E; [pose proof (total_p i I E) as T; rewrite T in L; lia|].
  pose proof (fill_loop_ok (S (Z.to_nat n)) i n true I E H ltac:(lia)) as G. rewrite (proj2 (Z.ltb_ge _ _)) in G by lia. apply G.
  pose proof (len_nonneg (in_p i)). lia.
Qed.

(** Asking for bytes that need not exist, before the end was seen. *)
Lemma want_ok i n : in_ok i -> n <= LJ_MAX_BUF -> (in_eof i = true -> n <= len (total i)) ->
  exists i', bcread_want raw piece_reader i n = Ok i' /\ filled i n i'.
Proof.
  intros I L O. unfold bcread_want. destruct (Z.ltb_spec (len (in_p i)) n) as [H|H]; [|exists i; split; [done|]; split; [done|]; auto].
  unfold bcread_fill. rewrite (proj2 (Z.ltb_ge _ _)) by lia. cbn [orb].
  destruct (in_eof i) eqn:E; [pose proof (total_p i I E) as T; rewrite T in O; specialize (O eq_refl); lia|].
  pose proof (fill_loop_ok (S (Z.to_nat n)) i n false I E H ltac:(lia)) as G. apply G. pose proof (len_nonneg (in_p i)). lia.
Qed.

(** Input that ends before the needed bytes is refused. *)
Lemma need_short i n : in_ok i -> len (total i) < n -> bcread_need raw piece_reader i n = Err BCBAD.
Proof.
  intros I L. unfold bcread_need. assert (H : len (in_p i) < n).
  { unfold total in L. rewrite len_app in L. pose proof (len_nonneg (concat (in_data i))). lia. }
  rewrite (proj2 (Z.ltb_lt _ _)) by done. unfold bcread_fill. destruct (Z.ltb_spec LJ_MAX_BUF n); [done|]. cbn [orb].
  destruct (in_eof i) eqn:E; [done|]. pose proof (fill_loop_ok (S (Z.to_nat n)) i n true I E H ltac:(lia)) as G.
  rewrite (proj2 (Z.ltb_lt _ _)) in G by lia. apply G. pose proof (len_nonneg (in_p i)). lia.
Qed.

(** Reading from the current buffer. *)
Lemma prefix_split {A} (p q a b : list A) : p ++ q = a ++ b -> (length a <= length p)%nat -> exists r, p = a ++ r /\ r ++ q = b.
Proof.
  intros E L. exists (drop (length a) p). assert (Pa : take (length a) p = a).
  { transitivity (take (length a) (p ++ q)); [by rewrite take_app_le|]. by rewrite E, take_app_length. }
  split; [by rewrite <- Pa at 1; rewrite take_drop|]. transitivity (drop (length a) (p ++ q)); [by rewrite drop_app_le|]. by rewrite E, drop_app_length.
Qed.

Lemma set_p_ok i s r : in_ok i -> in_p i = s ++ r -> in_ok (set_p i r) /\ (forall t, total i = s ++ t -> total (set_p i r) = t).
Proof.
  intros [B F P E M] Hp. split.
  - split; cbn; try done.
    + destruct F as [F|F]; [by left|right]. rewrite Hp, len_app in F. pose proof (len_nonneg s). lia.
    + unfold total in *. cbn. rewrite Hp, <- app_assoc, len_app in M. pose proof (len_nonneg s). lia.
  - intros t T. unfold total in *. cbn. rewrite Hp, <- app_assoc in T. by apply app_inv_head in T.
Qed.

(** Text of [k] bytes lies in the buffer, or all that is left does. *)
Definition avail (k : Z) (i : PIn) : Prop := k <= len (in_p i) \/ in_p i = total i.

Lemma on_p_reads {A} (m : RM A) i s t (a : A) k : in_ok i -> reads m s a -> total i = s ++ t -> avail k i -> len s <= k ->
  exists i', on_p m i = Ok (a, i') /\ in_ok i' /\ total i' = t /\ in_p i = s ++ in_p i' /\ avail (k - len s) i' /\ in_eof i' = in_eof i.
Proof.
  intros I R T L K. destruct (prefix_split (in_p i) (concat (in_data i)) s t) as (r & Hp & Hr); [exact T| |].
  { destruct L as [L|L]; [unfold len in *; lia|]. rewrite L, T, length_app. lia. }
  exists (set_p i r). destruct (set_p_ok i s r I Hp) as [I' T']. specialize (T' t T). unfold on_p. rewrite Hp, R. cbn [mbind res_bind].
  split; [done|]. split; [done|]. split; [done|]. split; [done|]. split; [|done]. unfold avail. rewrite T'. cbn [set_p in_p].
  destruct L as [L|L]; [left|right]. { rewrite Hp, len_app in L. lia. } rewrite L, T in Hp. by apply app_inv_head in Hp.
Qed.
End Input.
