(* ===== verification/BcdumpText.v ===== *)
(** * The text of a bytecode dump

    The bytes of a dump as pure functions of the prototype ([kgc_text],
    [body_text], [proto_chunks], [dump_chunks]), and that [lj_bcwrite] hands
    exactly these chunks to its writer function, until that reports an
    error. *)

From S2P Require Import Prelude Machine Num Tab TabKey TabHash TabInv Buf Strfmt StrfmtNum StrfmtBuf Bcdump Bcread BcdumpNum BcdumpWrite BcdumpTab.

Definition LJ_MAX_BCINS : Z := 2 ^ 26.
Definition BCMAX_D1 : Z := 65536.      (* [BCMAX_D + 1], the number of constants *)
Definition LJ_MAX_UPVAL : Z := 60.

Section Text.
Context `{TE : TabEnv} `{ST : StrTab}.
Context (raw : nat -> Z) (LJ_BE LJ_FR2 LJ_HASJIT : bool) (startins : Z -> Z).

Definition u64_text (u : Z) : list Z := lj_strfmt_wuleb128 (u32 u) ++ lj_strfmt_wuleb128 (u >> 32).

Definition kgc_text {P} (o : KGC P) : list Z :=
  match o with
  | KStr s => lj_strfmt_wuleb128 (BCDUMP_KGC_STR + len (strdata s)) ++ strdata s
  | KChild _ => lj_strfmt_wuleb128 BCDUMP_KGC_CHILD
  | KTab t => lj_strfmt_wuleb128 BCDUMP_KGC_TAB ++ ktab_text t
  | KI64 u => lj_strfmt_wuleb128 BCDUMP_KGC_I64 ++ u64_text u
  | KU64 u => lj_strfmt_wuleb128 BCDUMP_KGC_U64 ++ u64_text u
  | KComplex re im => lj_strfmt_wuleb128 BCDUMP_KGC_COMPLEX ++ u64_text re ++ u64_text im
  end.

Definition dbg_text (strip : bool) (pt : GCproto) : list Z :=
  if strip then [] else match pt_dbg pt with Some d => dbg_info d | None => [] end.

Definition head_text (strip : bool) (pt : GCproto) : list Z :=
  [pt_flags pt .& (PROTO_CHILD .| PROTO_VARARG .| PROTO_FFI); pt_numparams pt; pt_framesize pt; u8 (sizeuv pt)] ++
  lj_strfmt_wuleb128 (sizekgc pt) ++ lj_strfmt_wuleb128 (sizekn pt) ++ lj_strfmt_wuleb128 (u32 (sizebc pt - 1)) ++
  (if strip then [] else
     lj_strfmt_wuleb128 (sizedbg strip pt) ++
     if sizedbg strip pt =? 0 then [] else lj_strfmt_wuleb128 (u32 (pt_firstline pt)) ++ lj_strfmt_wuleb128 (u32 (pt_numline pt))).

Abbreviation dump_bc := (dump_bc LJ_HASJIT startins).

Definition body_text (strip : bool) (pt : GCproto) : list Z :=
  head_text strip pt ++ concat (word_bytes LJ_BE <$> dump_bc pt) ++ concat (half_bytes LJ_BE <$> pt_uv pt) ++
  concat (kgc_text <$> pt_kgc pt) ++ concat (knum_text <$> pt_kn pt) ++ dbg_text strip pt.

(** The size and the body. *)
Definition own_chunk (strip : bool) (pt : GCproto) : list Z :=
  let s := body_text strip pt in lj_strfmt_wuleb128 (len s) ++ s.

Fixpoint proto_chunks (strip : bool) (pt : GCproto) {struct pt} : list (list Z) :=
  (if has_flag (pt_flags pt) PROTO_CHILD then
     (fix children (os : list (KGC GCproto)) : list (list Z) :=
        match os with
        | [] => []
        | o :: os => children os ++ match o with KChild c => proto_chunks strip c | _ => [] end
        end) (pt_kgc pt)
   else []) ++ [own_chunk strip pt].

Definition dump_flags (strip : bool) (pt : GCproto) : Z :=
  (if strip then BCDUMP_F_STRIP else 0) + (if LJ_BE then BCDUMP_F_BE else 0) +
  (if has_flag (pt_flags pt) PROTO_FFI then BCDUMP_F_FFI else 0) + (if LJ_FR2 then BCDUMP_F_FR2 else 0).
Definition header_text (strip : bool) (pt : GCproto) : list Z :=
  [BCDUMP_HEAD1; BCDUMP_HEAD2; BCDUMP_HEAD3; BCDUMP_VERSION; dump_flags strip pt] ++
  (if strip then [] else lj_strfmt_wuleb128 (len (strdata (pt_chunkname pt))) ++ strdata (pt_chunkname pt)).

Definition dump_chunks (strip : bool) (pt : GCproto) : list (list Z) :=
  header_text strip pt :: proto_chunks strip pt ++ [[0]].

(** ** Prototypes that the parser makes *)

Context (LJ_HASFFI : bool).

Definition kgc_ok {P} (o : KGC P) : Prop :=
  match o with
  | KStr s => is_str s
  | KTab t => tab_const t
  | KI64 u | KU64 u => LJ_HASFFI = true /\ is_u64 u
  | KComplex re im => LJ_HASFFI = true /\ is_u64 re /\ is_u64 im
  | KChild _ => True
  end.

(** The number of bytes of the line info, and the offset of the names of the
    variables, behind those of the upvalues. *)
Record dbg_ok (pt : GCproto) (d : ProtoDbg) : Prop := {
  do_bytes : 0 < len (dbg_info d) < LJ_MAX_BUF;
  do_uvinfo : dbg_uvinfo d = lineinfo_size (pt_numline pt) (sizebc pt - 1);
  do_fits : dbg_uvinfo d <= len (dbg_info d);
  do_varinfo : bcread_varinfo (dbg_info d) (dbg_uvinfo d) (sizeuv pt) = Ok (dbg_varinfo d)
}.

Record local_ok (pt : GCproto) : Prop := {
  lo_numparams : is_u8 (pt_numparams pt);
  lo_framesize : is_u8 (pt_framesize pt);
  lo_bc : 1 <= sizebc pt <= LJ_MAX_BCINS;
  lo_words : Forall is_u32 (pt_bc pt);
  lo_nuv : sizeuv pt <= LJ_MAX_UPVAL;
  lo_uv : Forall is_u16 (pt_uv pt);
  lo_nkgc : sizekgc pt <= BCMAX_D1;
  lo_kgc : Forall kgc_ok (pt_kgc pt);
  lo_nkn : sizekn pt <= BCMAX_D1;
  lo_kn : Forall (fun o => const_ok o /\ tvisnumber o = true /\ no_mzero o) (pt_kn pt);
  lo_child : has_flag (pt_flags pt) PROTO_CHILD = false -> forall c, ~ In (KChild c) (pt_kgc pt);
  lo_ffi : has_flag (pt_flags pt) PROTO_FFI = true -> LJ_HASFFI = true;
  lo_name : is_str (pt_chunkname pt);
  lo_first : is_i32 (pt_firstline pt);
  lo_numline : is_i32 (pt_numline pt);
  lo_dbg : forall d, pt_dbg pt = Some d -> dbg_ok pt d
}.

(** ... and so do their children; the induction principle is that on the
    depth of the prototype. *)
Inductive wf_proto (pt : GCproto) : Prop :=
| wf_proto_intro : local_ok pt -> (forall c, In (KChild c) (pt_kgc pt) -> wf_proto c) -> wf_proto pt.

(** ** Constants *)

Lemma writes_uleb1 v : v < 0x80 -> writes 1 (lj_strfmt_wuleb128 v) (fun sb => wuleb sb v).
Proof. intros H. apply writes_write. unfold lj_strfmt_wuleb128. cbn [wuleb128_loop]. by rewrite (proj2 (Z.leb_gt _ _)) by lia. Qed.
Lemma writes_u64 u : writes 10 (u64_text u) (fun sb => write_u64 sb u).
Proof. apply (writes_bind 5 5); apply writes_uleb. Qed.

Lemma ktab_fits t : tab_const t -> tab_fits t.
Proof.
  intros T. pose proof (w_array t (tc_wf t T)). split; [lia|]. split.
  - pose proof (live_array_const t T) as F. induction F as [|o os [C _] _ IH]; constructor; [by apply const_fits|done].
  - pose proof (live_nodes_const t T) as F. induction F as [|nd ns (_ & K & V & _) _ IH]; constructor; [split; by apply const_fits|done].
Qed.

Lemma puts_kgc {P} (os : list (KGC P)) : Forall kgc_ok os -> puts (concat (kgc_text <$> os)) (fun sb => bcwrite_kgc raw sb os).
Proof.
  induction 1 as [|o os Ho Hos IH]; [apply puts_ret|]. cbn [bcwrite_kgc fmap list_fmap concat].
  assert (U : puts (kgc_text o) (fun sb => sb ← lj_buf_more raw sb (snd (kgc_type o)); sb ← wuleb sb (fst (kgc_type o)); kgc_data raw sb o)).
  { destruct o as [s|c|t|u|u|re im]; cbn [kgc_type kgc_text fst snd kgc_data].
    - apply puts_str; [done|]. by apply strdata_len.
    - apply puts_more with 1; [lia|spare|]. rewrite <- (app_nil_r (lj_strfmt_wuleb128 _)). apply wputs_puts; [apply writes_wputs, writes_uleb1; done|apply puts_ret].
    - apply puts_more with 11; [lia|spare|]. apply (wputs_writes 1 10); [by apply writes_uleb1|]. by apply wputs_ktab, ktab_fits.
    - apply puts_more with 11; [lia|spare|]. apply writes_wputs, (writes_bind 1 10); [by apply writes_uleb1|apply writes_u64].
    - apply puts_more with 11; [lia|spare|]. apply writes_wputs, (writes_bind 1 10); [by apply writes_uleb1|apply writes_u64].
    - apply puts_more with 21; [lia|spare|]. apply writes_wputs, (writes_bind 1 20); [by apply writes_uleb1|]. apply (writes_bind 10 10); apply writes_u64. }
  pose proof (wputs_puts _ _ _ _ _ U IH) as W. eapply wputs_ext; [|done|exact W]. intros sb. destruct (kgc_type o) as [tp need]. cbn [fst snd].
  destruct (lj_buf_more raw sb need) as [sb1|e]; cbn; [|done]. by destruct (wuleb sb1 tp).
Qed.

(** ** Instructions *)

Lemma land_range i m w : 0 <= w -> 0 <= i < 2 ^ w -> 0 <= i .& m < 2 ^ w.
Proof.
  intros Hw Hi. assert (E : i .& m = (i .& m) mod 2 ^ w).
  { rewrite <- Z.land_ones, <- Z.land_assoc, (Z.land_comm m), Z.land_assoc, Z.land_ones by done. by rewrite Z.mod_small. }
  rewrite E. by apply Z.mod_pos_bound, Z.pow_pos_nonneg.
Qed.
Lemma setbc_u32 i x ofs : is_u32 i -> 0 <= ofs <= 3 -> is_u32 (setbc_byte i x ofs).
Proof.
  intros Hi Ho. unfold setbc_byte, is_u32. apply lor_range; [lia| |].
  - by apply land_range.
  - rewrite Z.shiftl_mul_pow2 by lia. pose proof (u8_range x) as R. pose proof (Z.pow_le_mono_r 2 (8 * ofs) 24 ltac:(lia) ltac:(lia)).
    pose proof (Z.pow_pos_nonneg 2 (8 * ofs)). widths. nia.
Qed.

Lemma dump_words pt : local_ok pt -> Forall is_u32 (dump_bc pt).
Proof.
  intros L. assert (F : Forall is_u32 (tail (pt_bc pt))) by (destruct (lo_words pt L); [constructor|done]).
  unfold Bcdump.dump_bc. destruct (_ && _); [|done]. apply Forall_fmap. eapply Forall_impl; [|done]. intros i Hi. cbn. unfold unpatch_ins.
  destruct (_ || _); [by apply setbc_u32|]. destruct (_ || _); [|done]. by repeat apply setbc_u32.
Qed.
Lemma dump_length pt : local_ok pt -> length (dump_bc pt) = Z.to_nat (sizebc pt - 1).
Proof.
  intros L. unfold Bcdump.dump_bc. assert (E : length (tail (pt_bc pt)) = Z.to_nat (sizebc pt - 1)) by (unfold sizebc; destruct (pt_bc pt); cbn; lia).
  destruct (_ && _); [by rewrite length_fmap|done].
Qed.
End Text.
