(* ===== verification/BcdumpFlush.v ===== *)
(** * The chunks that the bytecode writer passes on

    [bcwrite_proto] appends the body of a prototype behind five bytes of
    space, and [proto_flush] stores the size so that it ends where the body
    starts.  The whole writer hands [dump_chunks] to its callback, one by
    one. *)

From S2P Require Import Prelude Machine Num Tab Buf Strfmt StrfmtNum StrfmtBuf Bcdump Bcread BcdumpNum BcdumpWrite BcdumpTab BcdumpText.

(** ** The size of a ULEB128 number *)

Lemma uleb_size n : 0 < n < 2 ^ 31 -> ((lj_fls n + 8) * 9) >> 6 = len (lj_strfmt_wuleb128 n).
Proof.
  intros Hn. destruct (lj_fls_spec n ltac:(lia)) as [L1 L2]. assert (L0 : 0 <= lj_fls n) by apply Z.log2_nonneg. set (k := lj_fls n) in *. clearbody k.
  assert (Lt : forall j, 0 <= j -> n < 2 ^ j -> k < j) by (intros j Hj H; apply (Z.pow_lt_mono_r_iff 2); lia).
  assert (Ge : forall j, 0 <= j -> 2 ^ j <= n -> j <= k).
  { intros j Hj H. enough (j < k + 1) by lia. apply (Z.pow_lt_mono_r_iff 2); lia. }
  rewrite Z.shiftr_div_pow2 by lia. unfold lj_strfmt_wuleb128. cbn [wuleb128_loop]. rewrite !Z.shiftr_shiftr, !Z.shiftr_div_pow2 by lia.
  change (7 + 7 + 7 + 7) with 28. change (7 + 7 + 7) with 21. change (7 + 7) with 14.
  specialize (Lt 31 ltac:(lia) ltac:(lia)) as K31.
  destruct (Z.leb_spec 0x80 n) as [H1|H1]; [specialize (Ge 7 ltac:(lia) ltac:(lia)) as K7|specialize (Lt 7 ltac:(lia) ltac:(lia))].
  2:{ unfold len. cbn [length]. Z.div_mod_to_equations; lia. }
  destruct (Z.leb_spec 0x80 (n / 2 ^ 7)) as [H2|H2]; [specialize (Ge 14 ltac:(lia) ltac:(Z.div_mod_to_equations; lia)) as K14|specialize (Lt 14 ltac:(lia) ltac:(Z.div_mod_to_equations; lia))].
  2:{ unfold len. cbn [length]. Z.div_mod_to_equations; lia. }
  destruct (Z.leb_spec 0x80 (n / 2 ^ 14)) as [H3|H3]; [specialize (Ge 21 ltac:(lia) ltac:(Z.div_mod_to_equations; lia)) as K21|specialize (Lt 21 ltac:(lia) ltac:(Z.div_mod_to_equations; lia))].
  2:{ unfold len. cbn [length]. Z.div_mod_to_equations; lia. }
  destruct (Z.leb_spec 0x80 (n / 2 ^ 21)) as [H4|H4]; [specialize (Ge 28 ltac:(lia) ltac:(Z.div_mod_to_equations; lia)) as K28|specialize (Lt 28 ltac:(lia) ltac:(Z.div_mod_to_equations; lia))].
  2:{ unfold len. cbn [length]. Z.div_mod_to_equations; lia. }
  destruct (Z.leb_spec 0x80 (n / 2 ^ 28)) as [H5|H5]; [exfalso; Z.div_mod_to_equations; lia|].
  unfold len. cbn [length]. Z.div_mod_to_equations; lia.
Qed.

Section Flush.
Context `{TE : TabEnv} `{ST : StrTab}.
Context (raw : nat -> Z) (LJ_BE LJ_FR2 LJ_HASJIT : bool) (startins : Z -> Z) (LJ_HASFFI : bool).

Abbreviation body_text := (body_text LJ_BE LJ_HASJIT startins).
Abbreviation proto_body := (proto_body raw LJ_BE LJ_HASJIT startins).
Abbreviation local_ok := (local_ok LJ_HASFFI).
Abbreviation wf_proto := (wf_proto LJ_HASFFI).

(** ** The body *)

Lemma sizedbg_text strip pt : sizedbg strip pt = len (dbg_text strip pt).
Proof. unfold sizedbg, dbg_text. destruct strip; [done|]. by destruct (pt_dbg pt). Qed.

Lemma writes_head strip pt : writes 34 (head_text strip pt) (proto_head strip pt).
Proof.
  unfold head_text, proto_head. apply (writes_bind 4 30); [by apply writes_write|]. apply (writes_bind 5 25); [apply writes_uleb|].
  apply (writes_bind 5 20); [apply writes_uleb|]. apply (writes_bind 5 15); [apply writes_uleb|].
  destruct strip; cbn [negb]; [eapply writes_le; [apply writes_ret|lia]|]. apply (writes_bind 5 10); [apply writes_uleb|].
  destruct (_ =? 0); cbn [negb]; [eapply writes_le; [apply writes_ret|lia]|]. apply (writes_bind 5 5); apply writes_uleb.
Qed.

Lemma concat_len {A} (f : A -> list Z) k l : (forall x, length (f x) = k) -> length (concat (f <$> l)) = (length l * k)%nat.
Proof. intros H. induction l as [|x l IH]; [done|]. cbn. by rewrite length_app, IH, H. Qed.

Lemma proto_body_ok strip pt sb : local_ok pt -> buf_ok sb ->
  (proto_body strip pt sb = Err BUF_MEM /\ LJ_MAX_BUF < 5 + len (body_text strip pt) + SPARE) \/
  exists sb' gap, proto_body strip pt sb = Ok sb' /\ buf_ok sb' /\ length gap = 5%nat /\ sb_str sb' = gap ++ body_text strip pt.
Proof.
  intros L B. pose proof (lo_bc _ pt L) as Lb. pose proof (lo_nuv _ pt L) as Lu. pose proof (lo_nkn _ pt L) as Ln.
  assert (Nu : 0 <= sizeuv pt) by (unfold sizeuv; lia). assert (Nn : 0 <= sizekn pt) by (unfold sizekn; lia).
  unfold LJ_MAX_BCINS, LJ_MAX_UPVAL, BCMAX_D1 in *. unfold Bcdump.proto_body.
  rewrite u32_id by (widths; lia). set (room0 := 5 + 4 + 6 * 5 + (sizebc pt - 1) * 4 + sizeuv pt * 2).
  destruct (lj_buf_need_ok raw sb room0 B ltac:(lia)) as [[_ M]|(sb1 & -> & B1 & L1 & P1 & _)]; [exfalso; unfold LJ_MAX_BUF in M; lia|].
  cbn [mbind res_bind]. set (sb2 := mkSBuf (sb_b sb1) 5). assert (B2 : buf_ok sb2) by (destruct B1 as [_ Bs]; split; [unfold sbufsz in *; cbn; lia|done]).
  assert (W : wputs (34 + ((sizebc pt - 1) * 4 + sizeuv pt * 2)) (body_text strip pt) (fun sb =>
    sb ← proto_head strip pt sb; sb ← bcwrite_bytecode LJ_BE LJ_HASJIT startins sb pt; sb ← sb_write sb (concat (half_bytes LJ_BE <$> pt_uv pt));
    sb ← bcwrite_kgc raw sb (pt_kgc pt); sb ← bcwrite_knum raw sb pt;
    match pt_dbg pt with
    | Some d => if negb (sizedbg strip pt =? 0) then sb_put raw sb (sizedbg strip pt) (dbg_info d) else Ok sb
    | None => Ok sb
    end)).
  { unfold BcdumpText.body_text. apply wputs_writes; [apply writes_head|]. apply wputs_writes.
    { apply writes_write. unfold len. rewrite (concat_len _ 4) by (intros; by destruct LJ_BE). rewrite (dump_length _ _ _ _ L). lia. }
    rewrite <- (Z.add_0_r (sizeuv pt * 2)). apply wputs_writes.
    { apply writes_write. unfold len. rewrite (concat_len _ 2) by (intros; by destruct LJ_BE). unfold sizeuv. lia. }
    apply wputs_puts; [eapply puts_kgc, lo_kgc; exact L|]. apply wputs_puts.
    { unfold bcwrite_knum. rewrite u32_id by (widths; lia). apply puts_more with (10 * sizekn pt); [lia|spare|]. apply writes_wputs, writes_knums. }
    rewrite sizedbg_text. unfold dbg_text. destruct (pt_dbg pt) as [d|] eqn:D; [|destruct strip; apply puts_ret].
    destruct strip; [apply puts_ret|]. pose proof (do_bytes _ _ (lo_dbg _ pt L d D)) as Ld. unfold LJ_MAX_BUF in *. rewrite (proj2 (Z.eqb_neq _ _)) by lia.
    apply puts_more with (len (dbg_info d)); [lia|spare|]. by apply writes_wputs, writes_write. }
  destruct W as [_ W]. destruct (W sb2 B2) as [[-> M]|(sb' & -> & B' & S & P)]; [unfold room; change (sbufsz sb2) with (sbufsz sb1); cbn; lia|by left|].
  right. exists sb', (sb_str sb2). split; [done|]. split; [done|]. split; [|done].
  pose proof (sb_str_len sb2 B2) as E. unfold len in E. cbn in E. lia.
Qed.

(** ** The size in front *)

Context {W : Type} (wfunc : W -> list Z -> W * Z).

Definition feed (st : W * Z) (s : list Z) : W * Z := if snd st =? 0 then wfunc (fst st) s else st.
Definition out (ctx : BCWriteCtx) : W * Z := (ctx_w ctx, ctx_status ctx).

Lemma flush_text (b gap body : list Z) p : take (Z.to_nat p) b = gap ++ body -> length gap = 5%nat -> p = 5 + len body -> 0 < len body < 2 ^ 31 ->
  p <= Z.of_nat (length b) ->
  let s := lj_strfmt_wuleb128 (len body) in let q := Z.to_nat (5 - len s) in
  let mem := take q b ++ s ++ drop (q + length s) b in
  length mem = length b /\ take (Z.to_nat (len s + len body)) (drop q mem) = s ++ body.
Proof.
  intros E G P Hb Hp s q mem. pose proof (wuleb_len (len body)) as Ls. fold s in Ls. unfold len in *.
  assert (Q : (q + length s = 5)%nat) by lia. subst mem. rewrite Q. split; [rewrite !length_app, length_take, length_drop; lia|].
  rewrite drop_app_length' by (rewrite length_take; lia). rewrite Z2Nat.inj_add, Nat2Z.id, Nat2Z.id by lia.
  rewrite take_app_add. f_equal. rewrite take_drop_commute. replace (5 + length body)%nat with (Z.to_nat p) by lia.
  rewrite E. by apply drop_app_length'.
Qed.

Lemma body_pos strip pt : 0 < len (body_text strip pt).
Proof. unfold BcdumpText.body_text, head_text. rewrite !len_app. unfold len at 1. cbn [length]. pose proof (len_nonneg). unfold len. lia. Qed.

Lemma proto_flush_ok (ctx : BCWriteCtx) strip pt gap : buf_ok (ctx_sb ctx) -> length gap = 5%nat -> sb_str (ctx_sb ctx) = gap ++ body_text strip pt ->
  let ctx' := proto_flush wfunc ctx in
  buf_ok (ctx_sb ctx') /\ ctx_strip ctx' = ctx_strip ctx /\ out ctx' = feed (out ctx) (own_chunk LJ_BE LJ_HASJIT startins strip pt).
Proof.
  intros B G E. cbv zeta. unfold proto_flush, feed, out. cbn [fst snd]. destruct (ctx_status ctx =? 0); [|done].
  pose proof (body_pos strip pt) as Pb. unfold own_chunk. set (body := body_text strip pt) in *. clearbody body.
  pose proof (sb_str_len _ B) as Ls. rewrite E, len_app in Ls. unfold len at 1 in Ls. rewrite G in Ls.
  destruct B as [Bp Bs]. pose proof (size_max _ Bs) as Bm. replace (sb_p (ctx_sb ctx) - 5) with (len body) by lia.
  rewrite uleb_size by lia. destruct (flush_text (sb_b (ctx_sb ctx)) gap body (sb_p (ctx_sb ctx))) as [M T]; [done|done|lia|lia|unfold sbufsz in Bp; lia|].
  cbv zeta in M, T. match type of M with length ?m = _ => set (mem := m) in * end. clearbody mem. rewrite T. unfold call_wfunc. cbn [set_ctx_sb ctx_w ctx_sb ctx_status ctx_strip]. destruct (wfunc _ _) as [w st].
  cbn. split; [|done]. split; unfold sbufsz in *; cbn; rewrite M; [lia|done].
Qed.

(** ** The whole dump *)

Abbreviation bcwrite_proto := (bcwrite_proto raw LJ_BE LJ_HASJIT startins wfunc).
Abbreviation proto_chunks := (proto_chunks LJ_BE LJ_HASJIT startins).

(** A chunk that may not fit in the largest buffer, with five bytes for its
    size and the spare space. *)
Definition too_big (s : list Z) : Prop := LJ_MAX_BUF < len s + 5 + SPARE.

(** A step of the writer that passes [cs] on, and fails only under [F]. *)
Definition passes (F : Prop) (cs : list (list Z)) (ctx : BCWriteCtx) (r : bres BCWriteCtx) : Prop :=
  (r = Err BUF_MEM /\ F) \/ exists ctx', r = Ok ctx' /\ buf_ok (ctx_sb ctx') /\ ctx_strip ctx' = ctx_strip ctx /\ out ctx' = fold_left feed cs (out ctx).

Lemma passes_mono (F F' : Prop) cs ctx r : passes F cs ctx r -> (F -> F') -> passes F' cs ctx r.
Proof. intros [[E H]|H] I; [left; auto|by right]. Qed.
Lemma passes_bind F cs1 cs2 ctx r f : passes F cs1 ctx r ->
  (forall ctx', buf_ok (ctx_sb ctx') -> ctx_strip ctx' = ctx_strip ctx -> passes F cs2 ctx' (f ctx')) -> passes F (cs1 ++ cs2) ctx (r ≫= f).
Proof.
  intros [[-> M]|(c1 & -> & B1 & S1 & O1)] H; [by left|]. cbn [mbind res_bind]. destruct (H c1 B1 S1) as [[-> M]|(c2 & -> & B2 & S2 & O2)]; [by left|].
  right. exists c2. split; [done|]. split; [done|]. split; [congruence|]. by rewrite fold_left_app, O2, O1.
Qed.
Lemma passes_ret F ctx : buf_ok (ctx_sb ctx) -> passes F [] ctx (Ok ctx).
Proof. intros B. right. by exists ctx. Qed.

Lemma bcwrite_proto_ok pt : wf_proto pt -> forall ctx, buf_ok (ctx_sb ctx) ->
  passes (Exists too_big (proto_chunks (ctx_strip ctx) pt)) (proto_chunks (ctx_strip ctx) pt) ctx (bcwrite_proto ctx pt).
Proof.
  induction 1 as [pt L _ IH]. intros ctx B. destruct pt as [fl np fs tr bc uv kgc kn cn fi nl db]. cbn [Bcdump.bcwrite_proto BcdumpText.proto_chunks pt_flags pt_kgc].
  apply passes_bind.
  - eapply passes_mono; [|intros H; apply Exists_app; left; exact H]. destruct (has_flag fl PROTO_CHILD); [|by apply passes_ret]. cbn [pt_kgc] in IH. clear L. induction kgc as [|o os IHo]; [by apply passes_ret|].
    apply passes_bind; [eapply passes_mono; [apply IHo; intros c Hc; by apply IH; right|intros H; apply Exists_app; by left]|]. intros ctx' B' S'. rewrite <- S'.
    eapply passes_mono; [|intros H; apply Exists_app; right; exact H].
    destruct o as [s|c|t|u|u|re im]; try by apply passes_ret. apply IH; [by left|done].
  - intros ctx' B' S'. destruct (proto_body_ok (ctx_strip ctx') _ (ctx_sb ctx') L B') as [[-> M]|(sb & gap & -> & Bs & G & E)].
    { left. split; [done|]. apply Exists_app. right. apply Exists_cons_hd. rewrite <- S'. unfold too_big, own_chunk. cbv zeta. rewrite len_app.
      pose proof (len_nonneg (lj_strfmt_wuleb128 (len (body_text (ctx_strip ctx') (mkPT fl np fs tr bc uv kgc kn cn fi nl db))))). lia. }
    cbn [mbind res_bind]. right. eexists. split; [done|].
    destruct (proto_flush_ok (set_ctx_sb ctx' sb) (ctx_strip ctx') _ gap Bs G E) as (Bf & Sf & Of).
    split; [done|]. split; [done|]. rewrite Of. cbn [fold_left]. unfold out. cbn. by rewrite S'.
Qed.

Abbreviation lj_bcwrite := (lj_bcwrite raw LJ_BE LJ_FR2 LJ_HASJIT startins wfunc).
Abbreviation dump_chunks := (dump_chunks LJ_BE LJ_FR2 LJ_HASJIT startins).

Lemma bcwrite_header_ok ctx pt : local_ok pt -> buf_ok (ctx_sb ctx) -> ctx_status ctx = 0 ->
  passes (LJ_MAX_BUF < 5 + 5 + len (strdata (pt_chunkname pt))) [header_text LJ_BE LJ_FR2 (ctx_strip ctx) pt] ctx (bcwrite_header raw LJ_BE LJ_FR2 wfunc ctx pt).
Proof.
  intros L B St. unfold bcwrite_header. cbv zeta. set (name := strdata (pt_chunkname pt)).
  assert (Ln : 0 <= len name < 0x7fffff00) by (split; [apply len_nonneg|apply strdata_len, L]). rewrite u32_id by (widths; lia).
  destruct (lj_buf_need_ok raw (ctx_sb ctx) (5 + 5 + len name) B ltac:(lia)) as [[-> M]|(sb1 & -> & B1 & L1 & P1 & _)]; [by left|].
  cbn [mbind res_bind]. destruct (reset_ok sb1 B1) as [B2 S2].
  assert (H : writes (5 + (5 + len name)) (header_text LJ_BE LJ_FR2 (ctx_strip ctx) pt) (fun sb =>
    sb ← sb_write sb [BCDUMP_HEAD1; BCDUMP_HEAD2; BCDUMP_HEAD3; BCDUMP_VERSION; dump_flags LJ_BE LJ_FR2 (ctx_strip ctx) pt];
    if negb (ctx_strip ctx) then sb ← wuleb sb (len name); sb_write sb name else Ok sb)).
  { apply writes_bind; [by apply writes_write|]. destruct (ctx_strip ctx); cbn [negb]; [eapply writes_le; [apply writes_ret|lia]|].
    apply writes_bind; [apply writes_uleb|by apply writes_write]. }
  destruct H as [_ H]. destruct (H (lj_buf_reset sb1) B2) as (sb3 & E & B3 & S3 & Z3 & _); [unfold room; cbn; change (sbufsz (lj_buf_reset sb1)) with (sbufsz sb1); lia|].
  unfold dump_flags in E. destruct (sb_write (lj_buf_reset sb1) _) as [sb4|]; cbn [mbind res_bind] in *; [|done]. rewrite E. cbn [mbind res_bind].
  right. rewrite S3, S2. unfold call_wfunc. cbn [set_ctx_sb ctx_w ctx_sb ctx_status ctx_strip app]. destruct (wfunc _ _) as [w st] eqn:Ew.
  eexists. split; [done|]. unfold feed, out. cbn [fold_left fst snd ctx_w ctx_status ctx_sb ctx_strip set_ctx_sb]. rewrite St, Z.eqb_refl, Ew.
  split; [|done].
  destruct B as [Bp _], B1 as [Bp1 _], B3 as [_ Bs3]. change (sbufsz (lj_buf_reset sb1)) with (sbufsz sb1) in Z3.
  split; unfold sbufsz in *; cbn; [lia|done].
Qed.

Lemma lj_bcwrite_ok pt w strip : wf_proto pt ->
  (lj_bcwrite pt w strip = Err BUF_MEM /\
    (LJ_MAX_BUF < 5 + 5 + len (strdata (pt_chunkname pt)) \/ Exists too_big (proto_chunks strip pt))) \/
  lj_bcwrite pt w strip = Ok (fold_left feed (dump_chunks strip pt) (w, 0)).
Proof.
  intros Wf. assert (L : local_ok pt) by by destruct Wf. unfold Bcdump.lj_bcwrite, cpwriter. cbn [ctx_sb].
  assert (B0 : buf_ok lj_buf_init) by (split; [done|by left]).
  destruct (lj_buf_need_ok raw lj_buf_init 1024 B0 ltac:(lia)) as [[_ M]|(sb & -> & B & _)]; [done|]. cbn [mbind res_bind].
  set (ctx0 := set_ctx_sb _ sb).
  set (F := _ \/ Exists too_big _).
  assert (P : passes F (dump_chunks strip pt) ctx0 (ctx ← bcwrite_header raw LJ_BE LJ_FR2 wfunc ctx0 pt; ctx ← bcwrite_proto ctx pt; Ok (bcwrite_footer wfunc ctx))).
  { apply (passes_bind _ [_]); [eapply passes_mono; [by apply bcwrite_header_ok|intros H; by left]|]. intros c1 B1 S1. apply passes_bind.
    - pose proof (bcwrite_proto_ok pt Wf c1 B1) as G. rewrite S1 in G. eapply passes_mono; [exact G|intros H; by right].
    - intros c2 B2 S2. right. eexists. split; [done|]. unfold bcwrite_footer, call_wfunc, out, feed. cbn [fold_left fst snd].
      destruct (ctx_status c2 =? 0); [|done]. by destruct (wfunc (ctx_w c2) [0]). }
  destruct P as [[E HF]|(c & E & _ & _ & O)]; [left; split; [|exact HF]|right].
  - clear F HF. destruct (bcwrite_header raw LJ_BE LJ_FR2 wfunc ctx0 pt) as [c1|]; cbn [mbind res_bind] in *; [|by injection E as ->]. 
    destruct (bcwrite_proto c1 pt) as [c2|]; cbn [mbind res_bind] in *; [done|by injection E as ->].
  - destruct (bcwrite_header raw LJ_BE LJ_FR2 wfunc ctx0 pt) as [c1|]; cbn [mbind res_bind] in *; [|done].
    destruct (bcwrite_proto c1 pt) as [c2|]; cbn [mbind res_bind] in *; [|done]. injection E as ->. f_equal. exact O.
Qed.
End Flush.
