(* ===== verification/BcdumpProto.v ===== *)
(** * Prototypes in a bytecode dump

    What a prototype becomes when it is loaded ([proto_rel]), and that the
    reader makes it from the body that the writer appended, in either byte
    order. *)

From S2P Require Import Prelude Machine Num Tab TabKey TabMap Buf Strfmt StrfmtNum StrfmtBuf Bcdump Bcread BcdumpNum BcdumpWrite BcdumpTab BcdumpText BcdumpFlush.

Lemma reads_byte_bind {A} c (f : Z -> RM A) s a : reads (f c) s a -> reads (bcread_byte ≫= f) (c :: s) a.
Proof. intros H. apply (reads_bind _ _ [c] s c a); [apply reads_byte|done]. Qed.

Lemma reads_text {A} s s' (m : RM A) a : s = s' -> reads m s a -> reads m s' a.
Proof. by intros <-. Qed.

(** ** Line info *)

(** The line numbers, as the machine reads them. *)
Definition line_words (BE : bool) (numline nbc : Z) (info : list Z) : list Z :=
  let s := take (Z.to_nat (lineinfo_size numline nbc)) info in
  if numline <? 256 then s else if numline <? 65536 then mem_halfs BE s else mem_words BE s.

Lemma lineinfo_bytes numline nbc : 0 <= nbc ->
  lineinfo_size numline nbc = nbc * (if numline <? 256 then 1 else if numline <? 65536 then 2 else 4).
Proof. intros H. unfold lineinfo_size. rewrite Z.shiftl_mul_pow2 by (repeat case_match; lia). by repeat case_match. Qed.

Lemma cut_group (sz n : nat) (s : list Z) : (sz * S n <= length s)%nat -> exists a r, s = a ++ r /\ length a = sz /\ (sz * n <= length r)%nat.
Proof. intros L. exists (take sz s), (drop sz s). rewrite take_drop, length_take, length_drop. split; [done|]. lia. Qed.

(** Words of two and of four bytes in the other byte order. *)
Lemma swap_lines_ok (sz : nat) (view : bool -> list Z -> list Z) BE n :
  (forall a, length a = sz -> exists w, forall t, view BE (a ++ t) = w :: view BE t /\ view (negb BE) (reverse a ++ t) = w :: view (negb BE) t) ->
  (view BE [] = view (negb BE) []) ->
  forall s, (sz * n <= length s)%nat -> exists s', swap_lines sz n s = Ok s' /\ length s' = length s /\
    drop (sz * n) s' = drop (sz * n) s /\ view (negb BE) (take (sz * n) s') = view BE (take (sz * n) s).
Proof.
  intros V V0. induction n as [|n IH]; intros s L.
  { exists s. rewrite Nat.mul_0_r. by cbn. }
  destruct (cut_group sz n s L) as (a & r & -> & La & Lr). cbn [swap_lines]. rewrite (proj2 (Nat.ltb_ge _ _)) by (rewrite length_app; lia).
  rewrite take_app_length', drop_app_length' by done. destruct (IH r Lr) as (r' & -> & Ll & D & W). cbn [mbind res_bind]. eexists. split; [done|].
  destruct (V a La) as [w Hw]. replace (sz * S n)%nat with (sz + sz * n)%nat by lia.
  assert (Lra : length (reverse a) = sz) by by rewrite length_reverse.
  split; [by rewrite !length_app, Lra, La, Ll|]. rewrite <- !drop_drop, !drop_app_length', D by done. split; [done|].
  rewrite !take_app_ge, Lra, La by lia. replace (sz + sz * n - sz)%nat with (sz * n)%nat by lia.
  destruct (Hw (take (sz * n) r)) as [-> _]. destruct (Hw (take (sz * n) r')) as [_ ->]. by rewrite W.
Qed.

Lemma halfs_view BE a : length a = 2%nat -> exists w, forall t,
  mem_halfs BE (a ++ t) = w :: mem_halfs BE t /\ mem_halfs (negb BE) (reverse a ++ t) = w :: mem_halfs (negb BE) t.
Proof. intros L. destruct a as [|x [|y [|]]]; try done. destruct BE; eexists; intros t; split; reflexivity. Qed.
Lemma words_view BE a : length a = 4%nat -> exists w, forall t,
  mem_words BE (a ++ t) = w :: mem_words BE t /\ mem_words (negb BE) (reverse a ++ t) = w :: mem_words (negb BE) t.
Proof. intros L. destruct a as [|x [|y [|z [|v [|]]]]]; try done. destruct BE; eexists; intros t; split; reflexivity. Qed.

Section Proto.
Context `{TE : TabEnv} `{ST : StrTab}.
(** The byte orders of the writer and of the reader. *)
Context (W_BE R_BE LJ_HASJIT LJ_HASFFI : bool) (startins : Z -> Z).

Definition swap : bool := negb (Bool.eqb R_BE W_BE).

(** ** What is loaded *)

Record dbg_rel (numline nbc : Z) (d d' : ProtoDbg) : Prop := {
  dr_lines : line_words R_BE numline nbc (dbg_info d') = line_words W_BE numline nbc (dbg_info d);
  dr_rest : drop (Z.to_nat (lineinfo_size numline nbc)) (dbg_info d') = drop (Z.to_nat (lineinfo_size numline nbc)) (dbg_info d);
  dr_uvinfo : dbg_uvinfo d' = dbg_uvinfo d;
  dr_varinfo : dbg_varinfo d' = dbg_varinfo d
}.

Record head_rel (strip : bool) (name : Z) (pt pt' : GCproto) : Prop := {
  hr_flags : pt_flags pt' = pt_flags pt .& (PROTO_CHILD .| PROTO_VARARG .| PROTO_FFI);
  hr_numparams : pt_numparams pt' = pt_numparams pt;
  hr_framesize : pt_framesize pt' = pt_framesize pt;
  hr_trace : pt_trace pt' = 0;
  hr_bc : pt_bc pt' = BCINS_AD (if has_flag (pt_flags pt) PROTO_VARARG then BC_FUNCV else BC_FUNCF) (pt_framesize pt) 0 ::
                      dump_bc LJ_HASJIT startins pt;
  hr_uv : pt_uv pt' = pt_uv pt;
  hr_kn : pt_kn pt' = pt_kn pt;
  hr_name : pt_chunkname pt' = name;
  hr_lines : (pt_firstline pt', pt_numline pt') = if sizedbg strip pt =? 0 then (0, 0) else (pt_firstline pt, pt_numline pt);
  hr_dbg : match pt_dbg pt' with
           | None => sizedbg strip pt = 0
           | Some d' => exists d, pt_dbg pt = Some d /\ strip = false /\ dbg_rel (pt_numline pt) (sizebc pt - 1) d d'
           end
}.

Inductive kgc_rel (R : GCproto -> GCproto -> Prop) : KGC GCproto -> KGC GCproto -> Prop :=
| kr_str s : kgc_rel R (KStr s) (KStr s)
| kr_child c c' : R c c' -> kgc_rel R (KChild c) (KChild c')
| kr_tab t t' : tab_eq t t' -> kgc_rel R (KTab t) (KTab t')
| kr_i64 u : kgc_rel R (KI64 u) (KI64 u)
| kr_u64 u : kgc_rel R (KU64 u) (KU64 u)
| kr_complex re im : kgc_rel R (KComplex re im) (KComplex re im).

Inductive proto_rel (strip : bool) (name : Z) : GCproto -> GCproto -> Prop :=
| proto_rel_intro pt pt' : head_rel strip name pt pt' ->
    Forall2 (kgc_rel (proto_rel strip name)) (pt_kgc pt) (pt_kgc pt') -> proto_rel strip name pt pt'.

(** ** Constants *)

Lemma reads_u64 u : is_u64 u -> reads read_u64 (u64_text u) u.
Proof.
  intros Hu. destruct (num_words u Hu) as (L & H & V). unfold read_u64, u64_text. eapply reads_bind; [by apply reads_uleb|].
  eapply reads_eq; [apply (reads_bind_ret _ (fun hi => u32 u .| (hi << 32))); by apply reads_uleb|]. unfold num_value in V. congruence.
Qed.

Definition children (os : list (KGC GCproto)) : list GCproto := omap (fun o => match o with KChild c => Some c | _ => None end) os.

(** The children that a constant takes from the stack. *)
Lemma reads_kgc1 (R : GCproto -> GCproto -> Prop) o ch stk : kgc_ok LJ_HASFFI o -> Forall2 R (children [o]) ch ->
  exists o', reads (read_kgc LJ_HASFFI (ch ++ stk)) (kgc_text o) (o', stk) /\ kgc_rel R o o'.
Proof.
  intros K F. unfold read_kgc. destruct o as [s|c|t|u|u|re im]; cbn in F; cbn [kgc_text kgc_ok] in *.
  2:{ apply Forall2_cons_inv_l in F as (c' & l & Hc & F & ->). apply Forall2_nil_inv_l in F as ->.
      exists (KChild c'). split; [|by constructor]. rewrite <- (app_nil_r (lj_strfmt_wuleb128 _)). eapply reads_bind; [by apply reads_uleb|].
      unfold BCDUMP_KGC_CHILD. change (BCDUMP_KGC_STR <=? 0) with false. change (0 =? BCDUMP_KGC_TAB) with false. change (0 =? 0) with true.
      cbn [negb]. rewrite andb_false_r. apply reads_ret. }
  all: apply Forall2_nil_inv_l in F as ->; cbn [app].
  - exists (KStr s). split; [|by constructor]. pose proof (strdata_len s K). pose proof (len_nonneg (strdata s)).
    eapply reads_bind; [apply reads_uleb; unfold BCDUMP_KGC_STR; widths; lia|]. unfold BCDUMP_KGC_STR.
    rewrite (proj2 (Z.leb_le _ _)) by lia. replace (5 + len (strdata s) - 5) with (len (strdata s)) by lia.
    eapply reads_eq; [apply (reads_bind_ret _ (fun s => (KStr (str_new s), stk))), reads_mem|]. by rewrite str_new_strdata.
  - destruct (reads_ktab t K) as (t' & Rt & Et). exists (KTab t'). split; [|by constructor]. eapply reads_bind; [by apply reads_uleb|].
    by apply (reads_bind_ret _ (fun t => (KTab t, stk))).
  - destruct K as [-> Hu]. exists (KI64 u). split; [|constructor]. eapply reads_bind; [by apply reads_uleb|].
    by apply (reads_bind_ret _ (fun re => (KI64 re, stk))), reads_u64.
  - destruct K as [-> Hu]. exists (KU64 u). split; [|constructor]. eapply reads_bind; [by apply reads_uleb|].
    by apply (reads_bind_ret _ (fun re => (KU64 re, stk))), reads_u64.
  - destruct K as (-> & Hr & Hi). exists (KComplex re im). split; [|constructor]. eapply reads_bind; [by apply reads_uleb|].
    eapply reads_bind; [by apply reads_u64|]. by apply (reads_bind_ret _ (fun im => (KComplex re im, stk))), reads_u64.
Qed.

Lemma reads_kgc (R : GCproto -> GCproto -> Prop) os : forall ch stk, Forall (kgc_ok LJ_HASFFI) os -> Forall2 R (children os) ch ->
  exists os', reads (bcread_kgc LJ_HASFFI (ch ++ stk) (length os)) (concat (kgc_text <$> os)) (os', stk) /\ Forall2 (kgc_rel R) os os'.
Proof.
  induction os as [|o os IH]; intros ch stk K F.
  { apply Forall2_nil_inv_l in F as ->. exists []. split; [apply reads_ret|constructor]. }
  apply Forall_cons_1 in K as [Ko K]. assert (E : children (o :: os) = children [o] ++ children os) by (destruct o; done).
  rewrite E in F. apply Forall2_app_inv_l in F as (ch1 & ch2 & F1 & F2 & ->).
  destruct (reads_kgc1 R o ch1 (ch2 ++ stk) Ko F1) as (o' & R1 & Q1). destruct (IH ch2 stk K F2) as (os' & R2 & Q2).
  exists (o' :: os'). split; [|by constructor]. cbn [length bcread_kgc fmap list_fmap concat]. rewrite <- app_assoc.
  eapply reads_bind; [exact R1|]. rewrite <- (app_nil_r (concat _)). eapply reads_bind; [exact R2|]. apply reads_ret.
Qed.

(** ** Debug info *)

Lemma reads_dbg d numline nbc nuv : 0 <= nbc -> dbg_uvinfo d = lineinfo_size numline nbc -> dbg_uvinfo d <= len (dbg_info d) ->
  bcread_varinfo (dbg_info d) (dbg_uvinfo d) nuv = Ok (dbg_varinfo d) -> 0 < len (dbg_info d) ->
  exists d', reads (read_dbg_info swap (len (dbg_info d)) numline nbc nuv) (dbg_info d) (Some d') /\ dbg_rel numline nbc d d'.
Proof.
  intros Hb Eu Hf Hv Hl. unfold read_dbg_info. rewrite (proj2 (Z.eqb_neq _ _)) by lia. cbn [negb].
  assert (X : exists info', reads (bcread_dbg swap numline nbc (len (dbg_info d))) (dbg_info d) info' /\
    line_words R_BE numline nbc info' = line_words W_BE numline nbc (dbg_info d) /\
    drop (Z.to_nat (lineinfo_size numline nbc)) info' = drop (Z.to_nat (lineinfo_size numline nbc)) (dbg_info d)).
  { unfold bcread_dbg. destruct (swap && (256 <=? numline)) eqn:S.
    - apply andb_true_iff in S as [S N]. assert (R_BE = negb W_BE) as -> by (unfold swap in S; by destruct R_BE, W_BE).
      assert (Y : exists s', swap_lines (if numline <? 65536 then 2 else 4) (Z.to_nat nbc) (dbg_info d) = Ok s' /\
        line_words (negb W_BE) numline nbc s' = line_words W_BE numline nbc (dbg_info d) /\
        drop (Z.to_nat (lineinfo_size numline nbc)) s' = drop (Z.to_nat (lineinfo_size numline nbc)) (dbg_info d)).
      { rewrite Eu in Hf. unfold line_words, len in *. rewrite lineinfo_bytes in * by done. rewrite (proj2 (Z.ltb_ge numline 256)) in * by lia.
        destruct (numline <? 65536).
        - destruct (swap_lines_ok 2 mem_halfs W_BE (Z.to_nat nbc) (halfs_view W_BE) eq_refl (dbg_info d)) as (s' & E & _ & D & V); [lia|].
          exists s'. replace (Z.to_nat (nbc * 2)) with (2 * Z.to_nat nbc)%nat by lia. done.
        - destruct (swap_lines_ok 4 mem_words W_BE (Z.to_nat nbc) (words_view W_BE) eq_refl (dbg_info d)) as (s' & E & _ & D & V); [lia|].
          exists s'. replace (Z.to_nat (nbc * 4)) with (4 * Z.to_nat nbc)%nat by lia. done. }
      destruct Y as (s' & E & V). exists s'. split; [|done]. intros rest. pose proof (reads_mem (dbg_info d) rest) as M.
      unfold mbind, rm_bind. rewrite M. cbn [mbind res_bind]. unfold rm_lift. by rewrite E.
    - exists (dbg_info d). split; [eapply reads_eq; [apply (reads_bind_ret _ (fun s => s)), reads_mem|done]|]. split; [|done].
      unfold line_words. destruct (Z.ltb_spec numline 256); [done|]. rewrite (proj2 (Z.leb_le _ _)), andb_true_r in S by lia.
      assert (R_BE = W_BE) as -> by (unfold swap in S; by destruct R_BE, W_BE). done. }
  destruct X as (info' & Ri & El & Er). exists (mkDbg info' (dbg_uvinfo d) (dbg_varinfo d)). split; [|by constructor].
  apply (reads_text (dbg_info d ++ [])); [by rewrite app_nil_r|]. eapply reads_bind; [exact Ri|]. cbv zeta. rewrite <- Eu.
  eapply reads_lift; [|apply reads_ret]. rewrite <- Hv. unfold bcread_varinfo. rewrite Eu. by rewrite Er.
Qed.
Lemma reads_dbg_size strip pt : local_ok LJ_HASFFI pt -> let n := sizedbg strip pt in
  reads (read_dbg_size strip)
    (if strip then [] else lj_strfmt_wuleb128 n ++ if n =? 0 then [] else lj_strfmt_wuleb128 (u32 (pt_firstline pt)) ++ lj_strfmt_wuleb128 (u32 (pt_numline pt)))
    (n, if n =? 0 then 0 else pt_firstline pt, if n =? 0 then 0 else pt_numline pt).
Proof.
  intros L. cbv zeta. unfold read_dbg_size. destruct strip; [apply reads_ret|].
  assert (Hn : is_u32 (sizedbg false pt)).
  { unfold sizedbg. destruct (pt_dbg pt) as [d|] eqn:D; [|done]. pose proof (do_bytes _ _ (lo_dbg _ pt L d D)). unfold LJ_MAX_BUF in *. widths; lia. }
  set (n := sizedbg false pt) in *. clearbody n. eapply reads_bind; [by apply reads_uleb|]. destruct (Z.eqb_spec n 0) as [->|]; cbn [negb]; [apply reads_ret|].
  eapply reads_bind; [apply reads_uleb, u32_range|].
  eapply reads_eq; [apply (reads_bind_ret _ (fun x => (n, i32 (u32 (pt_firstline pt)), i32 x))), reads_uleb, u32_range|].
  by rewrite !i32_u32_id by apply L.
Qed.

Lemma reads_bytecode flags framesize nbc (ws : list Z) : Forall is_u32 ws -> nbc = Z.of_nat (length ws) -> nbc * 4 < 2 ^ 32 ->
  reads (bcread_bytecode R_BE swap flags framesize nbc) (concat (word_bytes W_BE <$> ws))
    (BCINS_AD (if has_flag flags PROTO_VARARG then BC_FUNCV else BC_FUNCF) framesize 0 :: ws).
Proof.
  intros F -> Hn. unfold bcread_bytecode. rewrite u32_id by (widths; lia).
  eapply reads_eq; [apply (reads_bind_ret _ (fun s => _ :: (if swap then lj_bswap <$> mem_words R_BE s else mem_words R_BE s))), reads_mem_n|].
  - unfold len. rewrite (concat_len _ 4) by (intros; by destruct W_BE). lia.
  - cbv beta. f_equal. by apply words_swapped.
Qed.

Lemma reads_uv (ws : list Z) nuv : Forall is_u16 ws -> nuv = Z.of_nat (length ws) ->
  reads (bcread_uv R_BE swap nuv) (concat (half_bytes W_BE <$> ws)) ws.
Proof.
  intros F ->. unfold bcread_uv. destruct (Z.eqb_spec (Z.of_nat (length ws)) 0) as [E|E]; cbn [negb].
  { destruct ws; [apply reads_ret|done]. }
  eapply reads_eq; [apply (reads_bind_ret _ (fun s => if swap then swap_half <$> mem_halfs R_BE s else mem_halfs R_BE s)), reads_mem_n|].
  - unfold len. rewrite (concat_len _ 2) by (intros; by destruct W_BE). lia.
  - cbv beta. by apply halfs_swapped.
Qed.

Lemma reads_dbg_info strip pt : local_ok LJ_HASFFI pt ->
  exists d', reads (read_dbg_info swap (sizedbg strip pt) (if sizedbg strip pt =? 0 then 0 else pt_numline pt) (sizebc pt - 1) (sizeuv pt)) (dbg_text strip pt) d' /\
    match d' with
    | None => sizedbg strip pt = 0
    | Some d' => exists d, pt_dbg pt = Some d /\ strip = false /\ dbg_rel (pt_numline pt) (sizebc pt - 1) d d'
    end.
Proof.
  intros L. unfold sizedbg, dbg_text. destruct strip; [exists None; split; [apply reads_ret|done]|].
  destruct (pt_dbg pt) as [d|] eqn:D; [|exists None; split; [apply reads_ret|done]]. pose proof (lo_bc _ pt L).
  destruct (lo_dbg _ pt L d D) as [B U F V]. destruct (reads_dbg d (pt_numline pt) (sizebc pt - 1) (sizeuv pt)) as (d' & R & Q); [lia|done|done|done|lia|].
  exists (Some d'). rewrite (proj2 (Z.eqb_neq _ _)) by lia. split; [done|]. by exists d.
Qed.

Lemma flag_land f x k : 0 <= k -> x .& (2 ^ k) = 2 ^ k -> has_flag (f .& x) (2 ^ k) = has_flag f (2 ^ k).
Proof. intros Hk E. unfold has_flag. by rewrite <- Z.land_assoc, E. Qed.

(** ** The reader of a prototype *)

Lemma reads_proto dflags strip name pt ch stk : bcread_swap R_BE dflags = swap -> has_flag dflags BCDUMP_F_STRIP = strip ->
  local_ok LJ_HASFFI pt -> Forall2 (proto_rel strip name) (children (pt_kgc pt)) ch ->
  exists pt', reads (lj_bcread_proto R_BE LJ_HASFFI dflags name (ch ++ stk)) (body_text W_BE LJ_HASJIT startins strip pt) (pt', stk) /\
    proto_rel strip name pt pt'.
Proof.
  intros Sw St L F. pose proof (lo_bc _ pt L) as Lb. pose proof (lo_nuv _ pt L) as Lu. pose proof (lo_nkn _ pt L) as Ln. pose proof (lo_nkgc _ pt L) as Lk.
  assert (Nu : 0 <= sizeuv pt) by (unfold sizeuv; lia). assert (Nn : 0 <= sizekn pt) by (unfold sizekn; lia). assert (Nk : 0 <= sizekgc pt) by (unfold sizekgc; lia).
  unfold LJ_MAX_BCINS, LJ_MAX_UPVAL, BCMAX_D1 in *.
  destruct (reads_kgc _ (pt_kgc pt) ch stk (lo_kgc _ pt L) F) as (kgc' & Rk & Fk). destruct (reads_dbg_info strip pt L) as (d' & Rd & Fd).
  pose proof (dump_words LJ_HASJIT startins LJ_HASFFI pt L) as Wb. pose proof (dump_length LJ_HASJIT startins LJ_HASFFI pt L) as Lw.
  unfold body_text, head_text, lj_bcread_proto. rewrite Sw, St. rewrite <- !app_assoc. cbn [app]. rewrite !u32_id by (widths; lia).
  set (flags := pt_flags pt .& _). eexists. split.
  - do 4 apply reads_byte_bind. rewrite (u8_id (sizeuv pt)) by (widths; lia).
    eapply reads_bind; [apply reads_uleb; widths; lia|]. eapply reads_bind; [apply reads_uleb; widths; lia|].
    eapply reads_bind; [apply reads_uleb; widths; lia|]. eapply reads_bind; [by apply reads_dbg_size|]. cbv beta iota.
    eapply reads_bind; [apply reads_bytecode; [done|rewrite Lw; lia|lia]|]. eapply reads_bind; [apply reads_uv; [apply L|done]|].
    eapply reads_bind; [unfold sizekgc; rewrite Nat2Z.id; exact Rk|]. cbv beta iota.
    eapply reads_bind; [unfold sizekn; rewrite Nat2Z.id; apply reads_knums, L|]. by apply (reads_bind_ret _ (fun dbg => (mkPT _ _ _ _ _ _ _ _ _ _ _ dbg, stk))).
  - constructor; [|done]. constructor; cbn; try done.
    + apply (f_equal (fun b : bool => BCINS_AD (if b then _ else _) _ 0 :: _)). by apply (flag_land _ _ 1).
    + by destruct (_ =? 0).
Qed.
End Proto.
