(* ===== verification/BcdumpLoop.v ===== *)
(** * Reading a bytecode dump

    The loop over the prototypes of a dump puts every prototype on the stack
    from which its parent takes it; the header is accepted; what is left at
    the end is the main prototype. *)

From S2P Require Import Prelude Machine Num Tab Buf Strfmt StrfmtNum StrfmtBuf Bcdump Bcread BcdumpNum BcdumpWrite BcdumpTab BcdumpIn BcdumpText BcdumpFlush BcdumpProto.

Section Loop.
Context `{TE : TabEnv} `{ST : StrTab}.
Context (raw : nat -> Z) (W_BE R_BE LJ_FR2 LJ_HASJIT LJ_HASFFI : bool) (startins : Z -> Z).

Abbreviation bcread_loop := (bcread_loop raw R_BE LJ_HASFFI piece_reader).
Abbreviation lj_bcread := (lj_bcread raw R_BE LJ_FR2 LJ_HASFFI piece_reader).
Abbreviation proto_rel := (proto_rel W_BE R_BE LJ_HASJIT startins).
Abbreviation own_chunk := (own_chunk W_BE LJ_HASJIT startins).
Abbreviation proto_chunks := (proto_chunks W_BE LJ_HASJIT startins).
Abbreviation wf_proto := (wf_proto LJ_HASFFI).

Lemma filled_avail i n i' : filled i n i' -> in_ok i' /\ total i' = total i /\ avail n i'.
Proof. intros (I & T & A). split; [done|]. split; [done|]. unfold avail. by rewrite T. Qed.

(** ** One prototype *)

Section Steps.
Context (dflags : Z) (strip : bool) (name : Z).
Context (Sw : bcread_swap R_BE dflags = swap W_BE R_BE) (Str : has_flag dflags BCDUMP_F_STRIP = strip).

Lemma loop_step f stk i : (forall p, in_p i <> 0 :: p) ->
  bcread_loop (S f) dflags name stk i =
    (i ← bcread_want raw piece_reader i 5;
     '(n, i) ← on_p bcread_uleb128 i;
     if n =? 0 then Ok (stk, i)
     else
       i ← bcread_need raw piece_reader i n;
       '(r, i') ← on_p (lj_bcread_proto R_BE LJ_HASFFI dflags name stk) i;
       let '(pt, stk) := (r : GCproto * list GCproto) in
       if negb (len (in_p i) - len (in_p i') =? n) then Err BCBAD
       else bcread_loop f dflags name (pt :: stk) i').
Proof. intros H. cbn [Bcread.bcread_loop]. destruct (in_p i) as [|[] p] eqn:E; try done. by destruct (H p). Qed.

Lemma uleb_head n : 0 < n < 2 ^ 31 -> exists c s, lj_strfmt_wuleb128 n = c :: s /\ c <> 0.
Proof.
  intros Hn. unfold lj_strfmt_wuleb128. cbn [wuleb128_loop]. destruct (Z.leb_spec 0x80 n); eexists _, _; (split; [done|]); [|lia].
  intros E%Z.lor_eq_0_iff. destruct E. done.
Qed.

Lemma loop_proto f stk i body t pt stk' : in_ok i -> total i = (lj_strfmt_wuleb128 (len body) ++ body) ++ t ->
  4 <= len body < 2 ^ 31 -> reads (lj_bcread_proto R_BE LJ_HASFFI dflags name stk) body (pt, stk') ->
  exists i', in_ok i' /\ total i' = t /\ bcread_loop (S f) dflags name stk i = bcread_loop f dflags name (pt :: stk') i'.
Proof.
  intros I T Hb R. destruct (uleb_head (len body)) as (c & s & Eu & Hc); [lia|].
  rewrite loop_step.
  2:{ intros p Ep. unfold total in T. rewrite Ep, Eu in T. cbn in T. by injection T as <-. }
  rewrite <- app_assoc in T. pose proof (f_equal len T) as Tl. rewrite !len_app in Tl. pose proof (len_nonneg t). pose proof (wuleb_len (len body)) as Lu.
  assert (1 <= len (lj_strfmt_wuleb128 (len body))) by (rewrite Eu; unfold len; cbn [length]; lia).
  destruct (want_ok raw i 5 I) as (i1 & -> & F1); [unfold LJ_MAX_BUF; lia|lia|]. apply filled_avail in F1 as (I1 & T1 & A1). rewrite T in T1.
  cbn [mbind res_bind]. destruct (on_p_reads bcread_uleb128 i1 _ _ (len body) 5 I1 ltac:(apply reads_uleb; widths; lia) T1 A1 Lu) as (i2 & -> & I2 & T2 & _).
  cbn [mbind res_bind]. rewrite (proj2 (Z.eqb_neq _ _)) by lia. pose proof (f_equal len T2) as Tl2. rewrite len_app in Tl2.
  destruct (need_ok raw i2 (len body) I2) as (i3 & -> & F3); [lia|]. apply filled_avail in F3 as (I3 & T3 & A3). rewrite T2 in T3. cbn [mbind res_bind].
  destruct (on_p_reads _ i3 body t _ (len body) I3 R T3 A3 ltac:(lia)) as (i4 & -> & I4 & T4 & P4 & _). cbn [mbind res_bind].
  rewrite P4, len_app, (proj2 (Z.eqb_eq _ _)) by lia. by exists i4.
Qed.

(** ** All prototypes of a dump *)

Definition child_chunks (os : list (KGC GCproto)) : list (list Z) :=
  (fix children (os : list (KGC GCproto)) : list (list Z) :=
     match os with [] => [] | o :: os => children os ++ match o with KChild c => proto_chunks strip c | _ => [] end end) os.

Lemma proto_chunks_eq pt : proto_chunks strip pt = (if has_flag (pt_flags pt) PROTO_CHILD then child_chunks (pt_kgc pt) else []) ++ [own_chunk strip pt].
Proof. by destruct pt. Qed.

Lemma no_children os : (forall c, ~ In (KChild c) os) -> children os = [].
Proof.
  induction os as [|o os IH]; intros N; [done|]. assert (E : children os = []) by (apply IH; intros c Hc; by apply (N c); right).
  destruct o; try exact E. destruct (N pt). by left.
Qed.

Definition loops (pts : list GCproto) (cs : list (list Z)) : Prop := forall f stk i t, in_ok i -> total i = concat cs ++ t ->
  exists ch i', in_ok i' /\ total i' = t /\ Forall2 (proto_rel strip name) pts ch /\
    bcread_loop (length cs + f) dflags name stk i = bcread_loop f dflags name (ch ++ stk) i'.

Lemma loops_nil : loops [] [].
Proof. intros f stk i t I T. exists [], i. by split_and!. Qed.
Lemma loops_app ps1 ps2 cs1 cs2 : loops ps1 cs1 -> loops ps2 cs2 -> loops (ps1 ++ ps2) (cs2 ++ cs1).
Proof.
  intros H1 H2 f stk i t I T. rewrite concat_app, <- app_assoc in T. destruct (H2 (length cs1 + f)%nat stk i _ I T) as (ch2 & i2 & I2 & T2 & F2 & E2).
  destruct (H1 f (ch2 ++ stk) i2 t I2 T2) as (ch1 & i1 & I1 & T1 & F1 & E1). exists (ch1 ++ ch2), i1. split; [done|]. split; [done|].
  split; [by apply Forall2_app|]. by rewrite length_app, <- Nat.add_assoc, E2, E1, app_assoc.
Qed.

Lemma child_loops os : (forall c, In (KChild c) os -> loops [c] (proto_chunks strip c)) -> loops (children os) (child_chunks os).
Proof.
  induction os as [|o os IH]; intros H; [apply loops_nil|]. assert (Ho : loops (children [o]) (match o with KChild c => proto_chunks strip c | _ => [] end)).
  { destruct o; try apply loops_nil. apply H. by left. }
  assert (E : children (o :: os) = children [o] ++ children os) by by destruct o. rewrite E. change (child_chunks (o :: os)) with
    (child_chunks os ++ match o with KChild c => proto_chunks strip c | _ => [] end).
  apply loops_app; [done|]. apply IH. intros c Hc. apply H. by right.
Qed.

Lemma proto_loops pt : wf_proto pt -> loops [pt] (proto_chunks strip pt).
Proof.
  induction 1 as [pt L _ IH]. intros f stk i t I T. rewrite proto_chunks_eq in *. set (cc := if has_flag _ _ then _ else _) in *.
  assert (C : loops (children (pt_kgc pt)) cc).
  { subst cc. destruct (has_flag (pt_flags pt) PROTO_CHILD) eqn:Fl; [by apply child_loops|]. rewrite no_children; [apply loops_nil|]. by apply (lo_child _ pt L). }
  rewrite concat_app, <- app_assoc in T. destruct (C (1 + f)%nat stk i _ I T) as (ch & i1 & I1 & T1 & F1 & E1). cbn [concat] in T1. rewrite app_nil_r in T1.
  destruct (reads_proto W_BE R_BE LJ_HASJIT LJ_HASFFI startins dflags strip name pt ch stk Sw Str L F1) as (pt' & R & Q).
  pose proof (io_max i1 I1) as M. rewrite T1, !len_app in M. unfold LJ_MAX_BUF in M. pose proof (len_nonneg t). unfold BcdumpText.own_chunk in T1, M.
  pose proof (len_nonneg (lj_strfmt_wuleb128 (len (body_text W_BE LJ_HASJIT startins strip pt)))). rewrite len_app in M.
  destruct (loop_proto f (ch ++ stk) i1 _ t pt' stk I1 T1) as (i2 & I2 & T2 & E2); [|exact R|].
  { split; [|lia]. unfold body_text, head_text. rewrite !len_app. pose proof len_nonneg. unfold len. cbn [length]. lia. }
  exists [pt'], i2. split; [done|]. split; [done|]. split; [by constructor|]. rewrite length_app, <- Nat.add_assoc. cbn [length app]. by rewrite E1, <- E2.
Qed.

(** *** The first prototypes of a dump *)

Definition loops_pre (cs : list (list Z)) : Prop := forall k f stk i t, (k <= length cs)%nat -> in_ok i -> total i = concat (take k cs) ++ t ->
  exists stk' i', in_ok i' /\ total i' = t /\ bcread_loop (k + f) dflags name stk i = bcread_loop f dflags name stk' i'.

Lemma pre_nil : loops_pre [].
Proof. intros k f stk i t Hk I T. exists stk, i. assert (k = 0%nat) as -> by (cbn in Hk; lia). by split_and!. Qed.
Lemma pre_app pts cs1 cs2 : loops pts cs1 -> loops_pre cs1 -> loops_pre cs2 -> loops_pre (cs1 ++ cs2).
Proof.
  intros L P1 P2 k f stk i t Hk I T. rewrite length_app in Hk. destruct (Nat.le_gt_cases k (length cs1)) as [H|H].
  - rewrite take_app_le in T by done. by apply P1.
  - rewrite take_app_ge, concat_app, <- app_assoc in T by lia. destruct (L (k - length cs1 + f)%nat stk i _ I T) as (ch & i1 & I1 & T1 & _ & E1).
    destruct (P2 (k - length cs1)%nat f (ch ++ stk) i1 t ltac:(lia) I1 T1) as (stk' & i2 & I2 & T2 & E2). exists stk', i2. split; [done|]. split; [done|].
    rewrite <- E2, <- E1. f_equal. lia.
Qed.

Lemma proto_pre pt : wf_proto pt -> loops_pre (proto_chunks strip pt).
Proof.
  induction 1 as [pt L C IH]. intros k f stk i t Hk I T. destruct (decide (k = length (proto_chunks strip pt))) as [->|Hne].
  { rewrite firstn_all in T. destruct (proto_loops pt ltac:(by constructor) f stk i t I T) as (ch & i' & I' & T' & _ & E). by exists (ch ++ stk), i'. }
  rewrite proto_chunks_eq in *. set (cc := if has_flag _ _ then _ else _) in *. rewrite length_app in Hk, Hne. cbn [length] in Hk, Hne.
  rewrite take_app_le in T by lia. assert (P : loops_pre cc); [|apply (P k f stk i t); [lia|done|done]].
  subst cc. destruct (has_flag (pt_flags pt) PROTO_CHILD); [|apply pre_nil]. clear -C IH Sw Str.
  induction (pt_kgc pt) as [|o os IHo]; [apply pre_nil|].
  change (child_chunks (o :: os)) with (child_chunks os ++ match o with KChild c => proto_chunks strip c | _ => [] end).
  apply (pre_app (children os)); [apply child_loops; intros c Hc; apply proto_loops, C; by right|apply IHo; intros c Hc; [apply C|apply IH]; by right|].
  destruct o; try apply pre_nil. apply IH. by left.
Qed.

(** ** Input that ends early *)

Lemma want_cases i n : in_ok i -> n <= LJ_MAX_BUF ->
  bcread_want raw piece_reader i n = Err BCBAD \/ exists i', bcread_want raw piece_reader i n = Ok i' /\ filled i n i'.
Proof.
  intros I L. destruct (in_eof i) eqn:E; [|right; apply want_ok; [done|done|congruence]].
  destruct (Z.le_gt_cases n (len (total i))); [right; by apply want_ok|]. left. unfold bcread_want. rewrite (total_p i I E) in *.
  rewrite (proj2 (Z.ltb_lt _ _)) by lia. unfold bcread_fill. by rewrite E, orb_true_r.
Qed.

(** In the body of a prototype. *)
Lemma loop_short_body f stk i n s : in_ok i -> total i = lj_strfmt_wuleb128 n ++ s -> 0 < n < 2 ^ 31 -> len s < n ->
  bcread_loop (S f) dflags name stk i = Err BCBAD.
Proof.
  intros I T Hn Hs. destruct (uleb_head n) as (c & s0 & Eu & Hc); [lia|].
  rewrite loop_step.
  2:{ intros p Ep. unfold total in T. rewrite Ep, Eu in T. cbn in T. by injection T as <-. }
  destruct (want_cases i 5 I) as [->|(i1 & -> & F1)]; [unfold LJ_MAX_BUF; lia|done|]. apply filled_avail in F1 as (I1 & T1 & A1). rewrite T in T1.
  cbn [mbind res_bind]. destruct (on_p_reads bcread_uleb128 i1 _ _ n 5 I1 ltac:(apply reads_uleb; widths; lia) T1 A1 (wuleb_len n)) as (i2 & -> & I2 & T2 & _).
  cbn [mbind res_bind]. rewrite (proj2 (Z.eqb_neq _ _)) by lia. by rewrite need_short by (done || congruence).
Qed.

(** In its size, or before it. *)
Lemma ruleb_cut n r s : lj_strfmt_wuleb128 n = r ++ s -> s <> [] -> lj_buf_ruleb128 r = None.
Proof.
  unfold lj_strfmt_wuleb128. assert (G : forall fuel n r s acc sh, wuleb128_loop fuel n = r ++ s -> s <> [] -> ruleb128_loop r acc sh = None).
  { clear. induction fuel as [|f IH]; intros n r s acc sh E Hs; cbn [wuleb128_loop] in E; [by apply eq_sym, app_eq_nil in E as [_ ->]|].
    destruct r as [|c r]; [done|]. cbn [ruleb128_loop]. destruct (32 <=? sh + 7); [done|]. destruct (Z.leb_spec 0x80 n) as [H|H].
    - injection E as <- E. rewrite (proj2 (Z.leb_le _ _)); [by eapply IH|]. apply cont_byte.
    - injection E as <- E. by apply eq_sym, app_eq_nil in E as [-> ->]. }
  generalize 4%nat. intros f E Hs. destruct r as [|c r]; [done|]. cbn [wuleb128_loop lj_buf_ruleb128] in *. destruct (Z.leb_spec 0x80 n) as [H|H].
  - injection E as <- E. rewrite (proj2 (Z.leb_le _ _)); [|apply cont_byte]. by apply (G f (n >> 7) r s).
  - injection E as <- E. by apply eq_sym, app_eq_nil in E as [-> ->].
Qed.

Lemma loop_short_size f stk i n s : in_ok i -> 0 < n < 2 ^ 31 -> lj_strfmt_wuleb128 n = total i ++ s -> s <> [] ->
  bcread_loop (S f) dflags name stk i = Err BCBAD \/ bcread_loop (S f) dflags name stk i = Err DUMP_UB.
Proof.
  intros I Hn T Hs. destruct (uleb_head n) as (c & s0 & Eu & Hc); [lia|].
  rewrite loop_step.
  2:{ intros p Ep. unfold total in T. rewrite Ep, Eu in T. cbn in T. by injection T as ->. }
  destruct (want_cases i 5 I) as [->|(i1 & -> & F1)]; [unfold LJ_MAX_BUF; lia|by left|]. apply filled_avail in F1 as (I1 & T1 & A1). right.
  assert (P : in_p i1 = total i).
  { destruct A1 as [A1|A1]; [|congruence]. exfalso. pose proof (wuleb_len n) as Lu. rewrite T, len_app, <- T1 in Lu. unfold total in Lu. rewrite len_app in Lu.
    pose proof (len_nonneg (concat (in_data i1))). assert (0 < len s) by (destruct s; [done|unfold len; cbn [length]; lia]). lia. }
  cbn [mbind res_bind]. unfold on_p, bcread_uleb128. by rewrite P, (ruleb_cut n (total i) s).
Qed.

(** Where a text ends that is a part of a list of chunks. *)
Lemma cut_chunks (cs : list (list Z)) : forall q q', q ++ q' = concat cs -> q' <> [] ->
  exists k r r' c, q = concat (take k cs) ++ r /\ cs !! k = Some c /\ c = r ++ r' /\ r' <> [].
Proof.
  induction cs as [|c cs IH]; intros q q' E Hq; [by apply app_eq_nil in E as [_ ->]|]. cbn [concat] in E.
  destruct (Nat.le_gt_cases (length c) (length q)) as [H|H].
  - destruct (prefix_split q q' c (concat cs) E H) as (r & -> & E'). destruct (IH r q' E' Hq) as (k & r1 & r2 & c1 & -> & L & Ec & N).
    exists (S k), r1, r2, c1. cbn [take concat]. by rewrite <- app_assoc.
  - destruct (prefix_split c (concat cs) q q' (eq_sym E)) as (r & -> & E'); [lia|]. exists 0%nat, q, r, (q ++ r). split; [done|]. split; [done|]. split; [done|].
    intros ->. rewrite app_nil_r in H. lia.
Qed.

Definition sized (c : list Z) : Prop := exists b, c = lj_strfmt_wuleb128 (len b) ++ b /\ 0 < len b.
Lemma chunks_sized pt : wf_proto pt -> Forall sized (proto_chunks strip pt).
Proof.
  induction 1 as [pt L C IH]. rewrite proto_chunks_eq. apply Forall_app. split.
  - destruct (has_flag (pt_flags pt) _); [|constructor]. clear -IH. induction (pt_kgc pt) as [|o os IHo]; [constructor|].
    change (child_chunks (o :: os)) with (child_chunks os ++ match o with KChild c => proto_chunks strip c | _ => [] end). apply Forall_app. split.
    + apply IHo. intros c Hc. apply IH. by right.
    + destruct o; try constructor. apply IH. by left.
  - constructor; [|constructor]. eexists. split; [done|]. apply body_pos.
Qed.

(** A dump that ends after [q], which is not all of it. *)
Lemma loop_truncated pt fuel i q q' : wf_proto pt -> in_ok i -> total i = q -> q ++ q' = concat (proto_chunks strip pt) ++ [0] -> q' <> [] ->
  len (concat (proto_chunks strip pt)) < 2 ^ 31 -> (length (proto_chunks strip pt) < fuel)%nat ->
  bcread_loop fuel dflags name [] i = Err BCBAD \/
  bcread_loop fuel dflags name [] i = Err DUMP_UB /\ exists k r, q = concat (take k (proto_chunks strip pt)) ++ r /\ len r < 5.
Proof.
  intros Wf I T E Hq Hl Hf. set (cs := proto_chunks strip pt) in *.
  assert (E1 : q ++ q' = concat (cs ++ [[0]])) by (rewrite concat_app; cbn; exact E).
  destruct (cut_chunks _ q q' E1 Hq) as (k & r & r' & c & Eq & Lk & Ec & Hr). pose proof (lookup_lt_Some _ _ _ Lk) as Hk. rewrite length_app in Hk. cbn [length] in Hk.
  rewrite take_app_le in Eq by lia. destruct (proto_pre pt Wf k (S (fuel - k - 1)) [] i r ltac:(fold cs; lia) I ltac:(fold cs; congruence)) as (stk & i1 & I1 & T1 & E2).
  replace (k + S (fuel - k - 1))%nat with fuel in E2 by lia. rewrite E2. destruct (Nat.eq_dec k (length cs)) as [->|Hne].
  - rewrite lookup_app_r, Nat.sub_diag in Lk by lia. injection Lk as <-. destruct r as [|x r]; cbn in Ec; [|injection Ec as <- Ec; apply eq_sym, app_eq_nil in Ec as [_ ->]; done].
    destruct (loop_short_size (fuel - length cs - 1) stk i1 1 [1] I1) as [->| ->]; [done|by rewrite T1|done|by left|]. right. split; [done|]. exists (length cs), []. split; [done|]. unfold len; cbn; lia.
  - rewrite lookup_app_l in Lk by lia. pose proof (Forall_lookup_1 _ _ _ _ (chunks_sized pt Wf) Lk) as (b & Eb & Pb).
    assert (Lb : len c <= len (concat cs)).
    { apply list_elem_of_split_length in Lk as (l1 & l2 & -> & _). rewrite concat_app. cbn [concat]. rewrite !len_app. pose proof (len_nonneg (concat l1)). pose proof (len_nonneg (concat l2)). lia. }
    rewrite Eb, len_app in Lb. pose proof (len_nonneg (lj_strfmt_wuleb128 (len b))).
    rewrite Eb in Ec. destruct (Nat.le_gt_cases (length (lj_strfmt_wuleb128 (len b))) (length r)) as [H1|H1].
    + destruct (prefix_split r r' _ b (eq_sym Ec) H1) as (s & -> & Es). left. eapply loop_short_body; [done|exact T1|lia|].
      rewrite <- Es, len_app. assert (0 < len r') by (destruct r'; [done|unfold len; cbn [length]; lia]). lia.
    + destruct (prefix_split (lj_strfmt_wuleb128 (len b)) b r r' Ec) as (s & Eu & Es); [lia|].
      assert (Hs : s <> []) by (intros ->; rewrite Eu, app_nil_r in H1; lia).
      destruct (loop_short_size (fuel - k - 1) stk i1 (len b) s I1) as [->| ->]; [lia|by rewrite T1|done|by left|]. right. split; [done|]. exists k, r. split; [done|].
      pose proof (wuleb_len (len b)) as Lu. rewrite Eu, len_app in Lu. assert (0 < len s) by (destruct s; [done|unfold len; cbn [length]; lia]). lia.
Qed.

Lemma loop_end f stk i : in_ok i -> total i = [0] -> exists i', bcread_loop (S f) dflags name stk i = Ok (stk, i') /\ in_p i' = [].
Proof.
  intros I T. destruct (in_p i) as [|c p] eqn:Ep.
  - rewrite loop_step by (intros p; by rewrite Ep). destruct (want_ok raw i 5 I) as (i1 & -> & F1); [unfold LJ_MAX_BUF; lia| |].
    { intros E. rewrite (total_p i I E), Ep in T. done. }
    apply filled_avail in F1 as (I1 & T1 & A1). rewrite T in T1. cbn [mbind res_bind].
    destruct (on_p_reads bcread_uleb128 i1 [0] [] 0 5 I1) as (i2 & -> & I2 & T2 & _); [done|by rewrite T1|done|done|]. cbn [mbind res_bind].
    exists i2. split; [done|]. unfold total in T2. by apply app_eq_nil in T2 as [? _].
  - unfold total in T. rewrite Ep in T. cbn in T. injection T as -> T. apply app_eq_nil in T as [-> _].
    exists (set_p i []). split; [|done]. cbn [Bcread.bcread_loop]. by rewrite Ep.
Qed.
End Steps.

(** ** The header *)

Abbreviation dump_flags := (dump_flags W_BE LJ_FR2).

Lemma dump_flags_ok strip pt : let f := dump_flags strip pt in
  0 <= f < 16 /\ f .& Z.lnot BCDUMP_F_KNOWN = 0 /\ (f .& BCDUMP_F_FR2 = if LJ_FR2 then BCDUMP_F_FR2 else 0) /\
  has_flag f BCDUMP_F_FFI = has_flag (pt_flags pt) PROTO_FFI /\ has_flag f BCDUMP_F_STRIP = strip /\ bcread_swap R_BE f = swap W_BE R_BE.
Proof. cbv zeta. unfold BcdumpText.dump_flags, swap. by destruct strip, W_BE, R_BE, (has_flag (pt_flags pt) PROTO_FFI), LJ_FR2. Qed.

Definition loaded_name (strip : bool) (chunkarg : list Z) (pt : GCproto) : Z := if strip then str_new chunkarg else pt_chunkname pt.

(** The fixed bytes in front. *)
Lemma header_flags strip pt chunkarg i t : local_ok LJ_HASFFI pt -> in_ok i -> in_eof i = false ->
  total i = [BCDUMP_HEAD2; BCDUMP_HEAD3; BCDUMP_VERSION; dump_flags strip pt] ++ t ->
  exists i', in_ok i' /\ total i' = t /\ avail 9 i' /\
    bcread_header raw LJ_FR2 LJ_HASFFI piece_reader chunkarg i =
    if strip then Ok (Some (dump_flags strip pt, str_new chunkarg), i')
    else '(n, i) ← on_p bcread_uleb128 i'; i ← bcread_need raw piece_reader i n; '(s, i) ← on_p (bcread_mem n) i;
         Ok (Some (dump_flags strip pt, str_new s), i).
Proof.
  intros L I Ef T. cbn [app] in T. destruct (dump_flags_ok strip pt) as (Rf & Kf & Ff & Hf & Sf & _). cbv zeta in *.
  set (df := dump_flags strip pt) in *. clearbody df. unfold bcread_header.
  destruct (want_ok raw i (3 + 5 + 5) I) as (i1 & -> & F1); [unfold LJ_MAX_BUF; lia|congruence|]. apply filled_avail in F1 as (I1 & T1 & A1). rewrite T in T1. cbn [mbind res_bind].
  destruct (on_p_reads bcread_byte i1 [BCDUMP_HEAD2] _ BCDUMP_HEAD2 _ I1 (reads_byte _) T1 A1) as (i2 & -> & I2 & T2 & _ & A2 & _); [done|]. cbn [mbind res_bind].
  change (negb (BCDUMP_HEAD2 =? BCDUMP_HEAD2)) with false. cbv iota.
  destruct (on_p_reads bcread_byte i2 [BCDUMP_HEAD3] _ BCDUMP_HEAD3 _ I2 (reads_byte _) T2 A2) as (i3 & -> & I3 & T3 & _ & A3 & _); [done|]. cbn [mbind res_bind].
  change (negb (BCDUMP_HEAD3 =? BCDUMP_HEAD3)) with false. cbv iota.
  destruct (on_p_reads bcread_byte i3 [BCDUMP_VERSION] _ BCDUMP_VERSION _ I3 (reads_byte _) T3 A3) as (i4 & -> & I4 & T4 & _ & A4 & _); [done|]. cbn [mbind res_bind].
  change (negb (BCDUMP_VERSION =? BCDUMP_VERSION)) with false. cbv iota.
  assert (Rd : reads bcread_uleb128 [df] df).
  { apply (reads_text (lj_strfmt_wuleb128 df)); [|apply reads_uleb; widths; lia]. unfold lj_strfmt_wuleb128. cbn [wuleb128_loop]. by rewrite (proj2 (Z.leb_gt _ _)) by lia. }
  destruct (on_p_reads bcread_uleb128 i4 [df] _ df _ I4 Rd T4 A4) as (i5 & -> & I5 & T5 & _ & A5 & _); [done|]. cbn [mbind res_bind].
  rewrite Kf, Ff, Hf, Sf. do 2 rewrite Z.eqb_refl. cbn [negb].
  assert (Hx : has_flag (pt_flags pt) PROTO_FFI && negb LJ_HASFFI = false).
  { destruct (has_flag (pt_flags pt) PROTO_FFI) eqn:E; [|done]. by rewrite (lo_ffi _ pt L E). }
  rewrite Hx. by exists i5.
Qed.

Lemma header_ok strip pt chunkarg i t : local_ok LJ_HASFFI pt -> in_ok i -> in_eof i = false ->
  total i = tail (header_text W_BE LJ_FR2 strip pt) ++ t ->
  exists i', bcread_header raw LJ_FR2 LJ_HASFFI piece_reader chunkarg i = Ok (Some (dump_flags strip pt, loaded_name strip chunkarg pt), i') /\
    in_ok i' /\ total i' = t.
Proof.
  intros L I Ef T. unfold header_text in T. cbn [tail app] in T.
  destruct (header_flags strip pt chunkarg i _ L I Ef T) as (i5 & I5 & T5 & A5 & ->). unfold loaded_name. destruct strip; [by exists i5|].
  rewrite <- app_assoc in T5. pose proof (strdata_len _ (lo_name _ pt L)). pose proof (len_nonneg (strdata (pt_chunkname pt))). set (nm := strdata (pt_chunkname pt)) in *.
  destruct (on_p_reads bcread_uleb128 i5 _ _ (len nm) _ I5 ltac:(apply reads_uleb; widths; lia) T5 A5) as (i6 & -> & I6 & T6 & _); [pose proof (wuleb_len (len nm)); lia|].
  cbn [mbind res_bind]. pose proof (f_equal len T6) as Tl. rewrite len_app in Tl. pose proof (len_nonneg t).
  destruct (need_ok raw i6 (len nm) I6) as (i7 & -> & F7); [lia|]. apply filled_avail in F7 as (I7 & T7 & A7). rewrite T6 in T7. cbn [mbind res_bind].
  destruct (on_p_reads _ i7 nm t _ _ I7 (reads_mem nm) T7 A7 ltac:(lia)) as (i8 & -> & I8 & T8 & _). cbn [mbind res_bind]. exists i8.
  split; [|done]. subst nm. by rewrite str_new_strdata by apply L.
Qed.

(** Input that ends before [k] bytes are there is in the current buffer. *)
Lemma avail_all k i : avail k i -> len (total i) < k -> in_p i = total i.
Proof.
  intros [A|A] H; [|done]. unfold total in *. rewrite len_app in H. pose proof (len_nonneg (concat (in_data i))). lia.
Qed.

(** A header that ends before its flags is read past the end. *)
Lemma header_over chunkarg i q' : in_ok i -> in_eof i = false -> total i ++ q' = [BCDUMP_HEAD2; BCDUMP_HEAD3; BCDUMP_VERSION] ->
  bcread_header raw LJ_FR2 LJ_HASFFI piece_reader chunkarg i = Err DUMP_UB.
Proof.
  intros I Ef T. unfold bcread_header.
  destruct (want_ok raw i (3 + 5 + 5) I) as (i1 & -> & I1 & T1 & A1); [unfold LJ_MAX_BUF; lia|congruence|].
  assert (P : in_p i1 = total i).
  { rewrite <- T1. apply (avail_all (3 + 5 + 5)); [unfold avail; by rewrite T1|]. pose proof (f_equal len T) as Tl. rewrite len_app, <- T1 in Tl.
    pose proof (len_nonneg q'). change (len [_; _; _]) with 3 in Tl. lia. }
  cbn [mbind res_bind]. unfold on_p. rewrite P. destruct (total i) as [|a [|b [|c [|d l]]]]; cbn in T; try done.
  - by injection T as -> _.
  - by injection T as -> -> _.
  - by injection T as -> -> -> _.
Qed.

(** A header that ends early is refused only where the name is cut. *)
Lemma header_short strip pt chunkarg i q' : local_ok LJ_HASFFI pt -> in_ok i -> in_eof i = false ->
  total i ++ q' = tail (header_text W_BE LJ_FR2 strip pt) -> q' <> [] ->
  bcread_header raw LJ_FR2 LJ_HASFFI piece_reader chunkarg i = Err BCBAD \/
  bcread_header raw LJ_FR2 LJ_HASFFI piece_reader chunkarg i = Err DUMP_UB /\ len (total i) < 9.
Proof.
  intros L I Ef T Hq. unfold header_text in T. cbn [tail app] in T. change (?a :: ?b :: ?c :: ?d :: ?l) with ([a; b; c; d] ++ l) in T.
  destruct (Nat.le_gt_cases 4 (length (total i))) as [H|H].
  2:{ right. split; [|unfold len; lia]. destruct (prefix_split _ _ (total i) q' (eq_sym T)) as (r & E & _); [cbn; lia|].
      apply (header_over chunkarg i (removelast r)); [done|done|]. assert (r <> []) by (intros ->; rewrite app_nil_r in E; rewrite <- E in H; cbn in H; lia).
      rewrite <- removelast_app by done. by rewrite <- E. }
  destruct (prefix_split _ _ _ _ T H) as (r & E & Er). destruct (header_flags strip pt chunkarg i r L I Ef E) as (i5 & I5 & T5 & A5 & ->).
  destruct strip; [by apply app_eq_nil in Er as [_ ->]|]. set (nm := strdata (pt_chunkname pt)) in *. rewrite <- T5 in Er.
  pose proof (strdata_len _ (lo_name _ pt L)) as Ln. fold nm in Ln. pose proof (len_nonneg nm). pose proof (wuleb_len (len nm)) as Lu.
  destruct (Nat.le_gt_cases (length (lj_strfmt_wuleb128 (len nm))) (length (total i5))) as [H5|H5].
  - left. destruct (prefix_split _ _ _ _ Er H5) as (s & Es & En).
    destruct (on_p_reads bcread_uleb128 i5 _ _ (len nm) _ I5 ltac:(apply reads_uleb; widths; lia) Es A5) as (i6 & -> & I6 & T6 & _); [lia|].
    cbn [mbind res_bind]. rewrite need_short; [done|done|]. rewrite T6. apply (f_equal len) in En. rewrite len_app in En.
    assert (0 < len q') by (destruct q'; [done|unfold len; cbn [length]; lia]). lia.
  - right. destruct (prefix_split _ _ (total i5) q' (eq_sym Er)) as (s & Es & _); [lia|].
    assert (Hs : s <> []) by (intros ->; rewrite app_nil_r in Es; rewrite <- Es in H5; lia).
    assert (Lt : len (total i5) < 5) by (unfold len in *; lia).
    rewrite E, <- T5, len_app. change (len [_; _; _; _]) with 4. split; [|lia]. unfold on_p, bcread_uleb128.
    rewrite (avail_all 9 i5 A5) by lia. by rewrite (ruleb_cut (len nm) (total i5) s).
Qed.

(** ** The whole dump *)

Lemma reset_in (i : PIn) : in_ok i -> in_ok (mkIn (in_p i) (in_data i) (in_eof i) (lj_buf_reset (in_sb i))).
Proof. intros [B F P E M]. split; [by apply reset_ok|by left|done|done|exact M]. Qed.

Lemma bcread_dump fuel strip pt chunkarg i : wf_proto pt -> in_ok i -> in_eof i = false ->
  total i = tail (concat (dump_chunks W_BE LJ_FR2 LJ_HASJIT startins strip pt)) -> (length (proto_chunks strip pt) < fuel)%nat ->
  exists pt' i', lj_bcread fuel chunkarg i = Ok (pt', i') /\ proto_rel strip (loaded_name strip chunkarg pt) pt pt'.
Proof.
  intros Wf I Ef T Hf. assert (L : local_ok LJ_HASFFI pt) by by destruct Wf. unfold Bcread.lj_bcread. cbv zeta.
  set (i0 := mkIn _ _ _ _). assert (I0 : in_ok i0) by by apply reset_in.
  unfold dump_chunks in T. cbn [concat] in T. rewrite concat_app in T.
  destruct (header_ok strip pt chunkarg i0 (concat (proto_chunks strip pt) ++ [0]) L I0 Ef) as (i1 & -> & I1 & T1); [exact T|].
  cbn [mbind res_bind]. destruct (dump_flags_ok strip pt) as (_ & _ & _ & _ & Sf & Sw).
  destruct (proto_loops _ strip (loaded_name strip chunkarg pt) Sw Sf pt Wf (S (fuel - S (length (proto_chunks strip pt)))) [] i1 [0] I1 T1) as (ch & i2 & I2 & T2 & F2 & E2).
  replace (length (proto_chunks strip pt) + S (fuel - S (length (proto_chunks strip pt))))%nat with fuel in E2 by lia.
  apply Forall2_cons_inv_l in F2 as (pt' & ch' & Q & F2 & ->). apply Forall2_nil_inv_l in F2 as ->. rewrite E2.
  destruct (loop_end (dump_flags strip pt) (loaded_name strip chunkarg pt) (fuel - S (length (proto_chunks strip pt))) ([pt'] ++ []) i2 I2 T2) as (i3 & -> & P3).
  cbn [mbind res_bind]. rewrite P3. by exists pt', i3.
Qed.

(** A dump that ends early, anywhere. *)
Lemma bcread_truncated fuel strip pt chunkarg i q' : wf_proto pt -> in_ok i -> in_eof i = false ->
  total i ++ q' = tail (concat (dump_chunks W_BE LJ_FR2 LJ_HASJIT startins strip pt)) -> q' <> [] ->
  len (concat (proto_chunks strip pt)) < 2 ^ 31 -> (length (proto_chunks strip pt) < fuel)%nat ->
  lj_bcread fuel chunkarg i = Err BCBAD \/
  lj_bcread fuel chunkarg i = Err DUMP_UB /\
    (len (total i) < 9 \/ exists k r, total i = tail (header_text W_BE LJ_FR2 strip pt) ++ concat (take k (proto_chunks strip pt)) ++ r /\ len r < 5).
Proof.
  intros Wf I Ef T Hq Hl Hf. assert (L : local_ok LJ_HASFFI pt) by by destruct Wf. unfold Bcread.lj_bcread. cbv zeta.
  set (i0 := mkIn _ _ _ _). assert (I0 : in_ok i0) by by apply reset_in. change (total i) with (total i0) in *.
  unfold dump_chunks in T. cbn [concat] in T. rewrite concat_app in T. 
  change (tail (header_text W_BE LJ_FR2 strip pt ++ ?x)) with (tail (header_text W_BE LJ_FR2 strip pt) ++ x) in T.
  set (h := tail (header_text W_BE LJ_FR2 strip pt)) in *.
  destruct (Nat.le_gt_cases (length h) (length (total i0))) as [H|H].
  - destruct (prefix_split _ _ _ _ T H) as (q & E & Eq).
    destruct (header_ok strip pt chunkarg i0 q L I0 Ef E) as (i1 & -> & I1 & T1). cbn [mbind res_bind].
    destruct (dump_flags_ok strip pt) as (_ & _ & _ & _ & Sf & Sw).
    destruct (loop_truncated _ strip (loaded_name strip chunkarg pt) Sw Sf pt fuel i1 q q' Wf I1 T1 Eq Hq Hl Hf) as [->|[-> (k & r & -> & X)]]; [by left|].
    right. split; [done|]. right. by exists k, r.
  - destruct (prefix_split h _ (total i0) q' (eq_sym T)) as (s & E & _); [lia|].
    assert (Hs : s <> []) by (intros ->; rewrite app_nil_r in E; rewrite E in H; lia).
    destruct (header_short strip pt chunkarg i0 s L I0 Ef (eq_sym E) Hs) as [->|[-> X]]; [by left|]. right. split; [done|by left].
Qed.
End Loop.
