(* ===== verification/BcdumpPatch.v ===== *)
(** * Instructions that the JIT compiler has patched

    [trace_stop] of [lj_trace.c] redirects the instruction a root trace
    starts at to the trace, and keeps the instruction in the trace.
    [bcwrite_bytecode] undoes this in the copy that it writes. *)

From S2P Require Import Prelude Machine Num Tab Buf Strfmt StrfmtNum Bcdump Bcread BcdumpNum BcdumpText.

Definition BC_RET : Z := 74.
Definition BC_RET0 : Z := 75.
Definition BC_RET1 : Z := 76.
Definition BC_ITERL : Z := 82.
Definition BC_LOOP : Z := 85.

Definition setbc_op (i x : Z) : Z := setbc_byte i x 0.
Definition setbc_d (i x : Z) : Z := (i .& Z.lnot (0xffff << 16)) .| (u16 x << 16).

(** The instruction [*pc] after [trace_stop], for a root trace that starts at
    a loop, at the header of a function or at a return. *)
Definition trace_stop_ins (startins nslots traceno : Z) : Z :=
  let op := bc_op startins in
  if (op =? BC_FORL) || (op =? BC_LOOP) || (op =? BC_ITERL) || (op =? BC_FUNCF) then
    setbc_d (setbc_op startins (op + BC_JLOOP - BC_LOOP)) traceno
  else if (op =? BC_RET) || (op =? BC_RET0) || (op =? BC_RET1) then BCINS_AD BC_JLOOP nslots traceno
  else startins.

(** The [FORI] of a loop with a trace at its [FORL]. *)
Definition trace_stop_fori (ins : Z) : Z := setbc_op ins BC_JFORI.

Definition blacklist_pc (ins : Z) : Z := setbc_op ins (bc_op ins + BC_ILOOP - BC_LOOP).

(** ** The bytes of an instruction *)

Lemma u8_bits x j : 0 <= j -> Z.testbit (u8 x) j = (j <? 8) && Z.testbit x j.
Proof.
  intros Hj. unfold u8. destruct (Z.ltb_spec j 8); [by rewrite Z.mod_pow2_bits_low|by rewrite Z.mod_pow2_bits_high by lia].
Qed.
Lemma mask_bits w n j : 0 <= w -> 0 <= n -> 0 <= j -> Z.testbit ((2 ^ w - 1) << n) j = (n <=? j) && (j <? n + w).
Proof.
  intros Hw Hn Hj. replace (2 ^ w - 1) with (Z.ones w) by (rewrite Z.ones_equiv; lia). rewrite Z.shiftl_spec, Z.testbit_ones by lia.
  destruct (Z.leb_spec n j), (Z.leb_spec 0 (j - n)), (Z.ltb_spec (j - n) w), (Z.ltb_spec j (n + w)); done || lia.
Qed.

Lemma setbc_byte_bytes i x ofs k : 0 <= ofs <= 3 -> 0 <= k <= 3 ->
  u8 (setbc_byte i x ofs >> (8 * k)) = if k =? ofs then u8 x else u8 (i >> (8 * k)).
Proof.
  intros Ho Hk. apply Z.bits_inj'. intros j Hj. rewrite u8_bits, Z.shiftr_spec by done. unfold setbc_byte.
  rewrite Z.lor_spec, Z.land_spec, Z.lnot_spec by lia. change 0xff with (2 ^ 8 - 1). rewrite mask_bits, Z.shiftl_spec by lia.
  destruct (Z.ltb_spec j 8) as [L|L].
  2:{ cbn [andb]. destruct (k =? ofs); rewrite u8_bits by done; by rewrite (proj2 (Z.ltb_ge _ _)) by lia. }
  destruct (Z.eqb_spec k ofs) as [->|Hne].
  - rewrite (proj2 (Z.leb_le (8 * ofs) _)), (proj2 (Z.ltb_lt (j + 8 * ofs) _)) by lia. cbn [andb negb]. rewrite andb_false_r, orb_false_l. by rewrite Z.add_simpl_r.
  - replace ((8 * ofs <=? j + 8 * k) && (j + 8 * k <? 8 * ofs + 8)) with false by (destruct (Z.leb_spec (8 * ofs) (j + 8 * k)), (Z.ltb_spec (j + 8 * k) (8 * ofs + 8)); done || lia).
    cbn [andb negb]. rewrite andb_true_r, (u8_bits (i >> _)), Z.shiftr_spec by lia. rewrite (proj2 (Z.ltb_lt j 8)) by lia. cbn [andb].
    destruct (Z.neg_nonneg_cases (j + 8 * k - 8 * ofs)) as [N|N]; [by rewrite (Z.testbit_neg_r (u8 x)), orb_false_r|].
    rewrite u8_bits by done. destruct (Z.ltb_spec (j + 8 * k - 8 * ofs) 8); [exfalso; lia|by rewrite orb_false_r].
Qed.

Lemma setbc_d_bytes i x k : 0 <= k <= 3 ->
  u8 (setbc_d i x >> (8 * k)) = if k =? 2 then u8 x else if k =? 3 then u8 (x >> 8) else u8 (i >> (8 * k)).
Proof.
  intros Hk. assert (E : setbc_d i x = setbc_byte (setbc_byte i x 2) (x >> 8) 3).
  { apply Z.bits_inj'. intros j Hj. unfold setbc_d, setbc_byte. rewrite !Z.lor_spec, !Z.land_spec, !Z.lnot_spec by lia.
    rewrite !Z.lor_spec, !Z.land_spec, !Z.lnot_spec by lia.
    change 0xffff with (2 ^ 16 - 1). change 0xff with (2 ^ 8 - 1). rewrite !mask_bits, !Z.shiftl_spec by lia. change (8 * 2) with 16. change (8 * 3) with 24.
    assert (U : forall m, Z.testbit (u16 x) m = (m <? 16) && Z.testbit x m).
    { intros m. destruct (Z.neg_nonneg_cases m); [by rewrite !Z.testbit_neg_r, andb_false_r|]. unfold u16.
      destruct (Z.ltb_spec m 16); [by rewrite Z.mod_pow2_bits_low|by rewrite Z.mod_pow2_bits_high by lia]. }
    assert (V : forall y m, Z.testbit (u8 y) m = (m <? 8) && Z.testbit y m).
    { intros y m. destruct (Z.neg_nonneg_cases m); [by rewrite !Z.testbit_neg_r, andb_false_r|by apply u8_bits]. }
    rewrite U, !V.
    destruct (Z.ltb_spec j 16); [|destruct (Z.ltb_spec j 24); [|destruct (Z.ltb_spec j 32)]].
    - rewrite !(Z.testbit_neg_r x), (Z.testbit_neg_r (x >> 8)), !andb_false_r, !orb_false_r by lia.
      rewrite (proj2 (Z.leb_gt 16 j)), (proj2 (Z.leb_gt 24 j)) by lia. cbn [andb negb]. by rewrite !andb_true_r.
    - rewrite (proj2 (Z.leb_le 16 j)), (proj2 (Z.leb_gt 24 j)), (proj2 (Z.ltb_lt j (16 + 16))), (proj2 (Z.ltb_lt j (16 + 8))), (Z.testbit_neg_r (x >> 8)) by lia.
      rewrite (proj2 (Z.ltb_lt (j - 16) 16)), (proj2 (Z.ltb_lt (j - 16) 8)) by lia. cbn [andb negb]. by rewrite !andb_false_r, andb_true_r, orb_false_r.
    - rewrite (proj2 (Z.leb_le 16 j)), (proj2 (Z.leb_le 24 j)), (proj2 (Z.ltb_lt j (16 + 16))), (proj2 (Z.ltb_lt j (24 + 8))) by lia.
      rewrite (proj2 (Z.ltb_lt (j - 16) 16)), (proj2 (Z.ltb_lt (j - 24) 8)), Z.shiftr_spec by lia. cbn [andb negb]. rewrite !andb_false_r. cbn [orb].
      f_equal. lia.
    - rewrite (proj2 (Z.leb_le 16 j)), (proj2 (Z.leb_le 24 j)), (proj2 (Z.ltb_ge j (16 + 16))), (proj2 (Z.ltb_ge j (24 + 8))), (proj2 (Z.ltb_ge j (16 + 8))) by lia.
      rewrite (proj2 (Z.ltb_ge (j - 16) 16)), (proj2 (Z.ltb_ge (j - 24) 8)), (proj2 (Z.ltb_ge (j - 16) 8)) by lia. cbn [andb negb]. by rewrite !andb_true_r, !orb_false_r. }
  rewrite E, setbc_byte_bytes by lia. destruct (Z.eqb_spec k 3) as [->|]; [done|]. rewrite setbc_byte_bytes by lia. by destruct (k =? 2).
Qed.

Lemma word_eq a b : is_u32 a -> is_u32 b -> (forall k, 0 <= k <= 3 -> u8 (a >> (8 * k)) = u8 (b >> (8 * k))) -> a = b.
Proof.
  intros Ha Hb E. rewrite <- (u8_parts a), <- (u8_parts b) by done. pose proof (E 0 ltac:(lia)) as E0. rewrite !Z.shiftr_0_r in E0.
  pose proof (E 1 ltac:(lia)) as E1. pose proof (E 2 ltac:(lia)) as E2. pose proof (E 3 ltac:(lia)) as E3.
  change (8 * 1) with 8 in E1. change (8 * 2) with 16 in E2. change (8 * 3) with 24 in E3. by rewrite E0, E1, E2, E3.
Qed.

Lemma setbc_d_u32 i x : is_u32 i -> is_u32 (setbc_d i x).
Proof.
  intros Hi. unfold setbc_d, is_u32. apply lor_range; [lia|by apply land_range|]. rewrite Z.shiftl_mul_pow2 by lia. pose proof (u16_range x). widths. nia.
Qed.

(** ** Undoing the patches *)

Lemma bc_op_byte i : bc_op i = u8 (i >> (8 * 0)).
Proof. unfold bc_op. rewrite Z.shiftr_0_r. change 0xff with (2 ^ 8 - 1). by rewrite land_ones_mod by lia. Qed.

Lemma setbc_op_op i x : is_u8 x -> bc_op (setbc_op i x) = x.
Proof. intros Hx. rewrite bc_op_byte. unfold setbc_op. rewrite setbc_byte_bytes by lia. cbn. by rewrite u8_id. Qed.

(** Setting the opcode twice. *)
Lemma setbc_op_back i x : is_u32 i -> is_u8 x -> setbc_op (setbc_op i x) (bc_op i) = i.
Proof.
  intros Hi Hx. apply word_eq; [by repeat apply setbc_u32|done|]. intros k Hk. unfold setbc_op. rewrite !setbc_byte_bytes by lia.
  destruct (Z.eqb_spec k 0) as [->|]; [|done]. rewrite <- bc_op_byte. apply u8_id. rewrite bc_op_byte. apply u8_range.
Qed.

(** An instruction that was redirected to its trace. *)
Lemma unpatch_jit startins i op op' traceno : is_u32 i -> is_u16 traceno -> startins traceno = i -> bc_op i = op ->
  (op = BC_FORL /\ op' = BC_JFORL \/ op = BC_ITERL /\ op' = BC_JITERL \/ op = BC_LOOP /\ op' = BC_JLOOP) ->
  unpatch_ins startins (setbc_d (setbc_op i op') traceno) = i.
Proof.
  intros Hi Ht Hs Ho H. set (p := setbc_d (setbc_op i op') traceno).
  assert (Up : is_u32 p) by by apply setbc_d_u32, setbc_u32.
  assert (P : forall k, 0 <= k <= 3 -> u8 (p >> (8 * k)) = if k =? 2 then u8 traceno else if k =? 3 then u8 (traceno >> 8) else if k =? 0 then u8 op' else u8 (i >> (8 * k))).
  { intros k Hk. subst p. rewrite setbc_d_bytes by done. unfold setbc_op. by rewrite setbc_byte_bytes by lia. }
  assert (Op : bc_op p = op') by (rewrite bc_op_byte, P by lia; cbn; destruct H as [[_ ->]|[[_ ->]|[_ ->]]]; done).
  assert (D : bc_d p = traceno).
  { unfold bc_d. pose proof (u8_parts p Up) as W. pose proof (P 2 ltac:(lia)) as P2. pose proof (P 3 ltac:(lia)) as P3. change (8 * 2) with 16 in P2. change (8 * 3) with 24 in P3. cbn [Z.eqb Pos.eqb] in P2, P3. rewrite P2, P3 in W.
    transitivity (u8 traceno + u8 (traceno >> 8) * 2 ^ 8); [|by apply half_parts]. unfold word4 in W. rewrite Z.shiftr_div_pow2 by lia.
    pose proof (u8_range traceno). pose proof (u8_range (traceno >> 8)). pose proof (u8_range p). pose proof (u8_range (p >> 8)). clearbody p. widths.
    Z.div_mod_to_equations; lia. }
  unfold unpatch_ins. cbv zeta. rewrite Op, D, Hs. clearbody p.
  assert (G : setbc_byte (setbc_byte (setbc_byte p op 0) (bc_c i) 2) (bc_b i) 3 = i).
  { apply word_eq; [by repeat apply setbc_u32|done|]. intros k Hk. rewrite !setbc_byte_bytes by lia. unfold bc_b, bc_c. 
    destruct (Z.eqb_spec k 3) as [->|]; [done|]. destruct (Z.eqb_spec k 2) as [->|].
    { change 0xff with (2 ^ 8 - 1). rewrite land_ones_mod by lia. apply (u8_id (u8 (i >> 16))), u8_range. }
    destruct (Z.eqb_spec k 0) as [->|N0]; [rewrite <- bc_op_byte, <- Ho; rewrite bc_op_byte; apply u8_id, u8_range|].
    rewrite P by lia. assert (k = 1) as -> by lia. done. }
  destruct H as [[-> ->]|[[-> ->]|[-> ->]]]; cbn [BC_FORL BC_JFORL BC_ITERL BC_JITERL BC_LOOP BC_JLOOP] in *; exact G.
Qed.

Lemma bc_op_ad o a d : is_u8 o -> bc_op (BCINS_AD o a d) = o.
Proof.
  intros Ho. unfold bc_op, BCINS_AD. change 0xff with (2 ^ 8 - 1). rewrite !Z.land_lor_distr_l, !land_ones_mod by lia.
  rewrite !Z.shiftl_mul_pow2 by lia. change (2 ^ 16) with (2 ^ 8 * 2 ^ 8). rewrite Z.mul_assoc, !Z.mod_mul, !Z.lor_0_r by done. by apply u8_id.
Qed.
