(* ===== verification/BcdumpProps.v ===== *)
(** * Bytecode dumps: the properties

    The chunks the writer passes on, the round trip of a dump through the
    reader, dumps that end early, and the instructions that the JIT compiler
    has patched. *)

From S2P Require Import Prelude Machine Num Strs Tab TabKey TabHash TabInv TabSize TabMap TabProps Buf Strfmt StrfmtNum StrfmtBuf Bcdump Bcread BcdumpNum BcdumpWrite BcdumpTab BcdumpIn BcdumpText BcdumpFlush BcdumpProto BcdumpLoop BcdumpPatch.

Section Table.
Context (g : global_State) (I : str_inv g) (Hid : Z.pos (next_id g) <= 2 ^ 32).
(** The memory page of the characters, which selects the comparison loop. *)
Context (addr : Z).

(** The address of an object; [strempty] is at 0. *)
Definition ref_addr (r : strref) : Z := match r with strempty => 0 | strobj o => Z.pos o end.

Definition table_new (s : list Z) : Z :=
  match lj_str_new g addr s (len s) with Ok (r, _) => ref_addr r | Err _ => 0 end.
Definition table_data (a : Z) : list Z :=
  match a with Z.pos o => default [] (content_of g o) | _ => [] end.
Definition table_str (a : Z) : Prop := match a with Z0 => True | Z.pos o => interned g o | Z.neg _ => False end.

Lemma table_object o : interned g o -> Z.pos o < 2 ^ 32 /\ exists s, content_of g o = Some s /\ bytes s /\ 0 < len s < LJ_MAX_STR.
Proof.
  intros Ho. destruct (inv_ok g I o Ho) as (s & E & W & Hl & _). pose proof (inv_next g I o ltac:(by exists s)) as N. split; [lia|].
  exists (content s). unfold content_of. rewrite E. split; [done|]. pose proof (length_content s W) as L. destruct W as (B & M & _).
  split; [by apply Forall_take|]. unfold len. lia.
Qed.

Lemma has_string_uniq g' o1 o2 s : str_inv g' -> has_string g' o1 s -> has_string g' o2 s -> o1 = o2.
Proof.
  intros I' [H1 E1] [H2 E2]. unfold content_of in *. destruct (heap g' !! o1) as [s1|] eqn:L1; [|done]. destruct (heap g' !! o2) as [s2|] eqn:L2; [|done].
  apply (inv_uniq g' I' o1 o2 s1 s2); try done. cbn in *. congruence.
Qed.

Lemma table_found o s : has_string g o s -> bytes s -> 0 < len s < LJ_MAX_STR -> table_new s = Z.pos o.
Proof.
  intros H B L. unfold table_new. pose proof (lj_str_new_ok g addr s (len s) I B) as N. unfold len in *. specialize (N ltac:(lia)).
  destruct (lj_str_new g addr s _) as [[[|o'] g']|e]; [lia| |lia]. destruct N as (_ & I' & H1 & H2 & _ & _). rewrite Nat2Z.id, firstn_all in *.
  cbn. f_equal. by apply (has_string_uniq g' o' o s I' H1), H2.
Qed.

#[refine] Definition interned_strtab : StrTab := {| str_new := table_new; strdata := table_data; is_str := table_str |}.
Proof.
  - intros [|o|o] Hs; [done| |done]. destruct (table_object o Hs) as [L _]. widths; lia.
  - intros [|o|o] Hs; [constructor| |done]. destruct (table_object o Hs) as (_ & s & E & B & _). cbn. by rewrite E.
  - intros [|o|o] Hs; [done| |done]. destruct (table_object o Hs) as (_ & s & E & _ & L). cbn. rewrite E. apply L.
  - intros [|o|o] Hs; [done| |done]. destruct (table_object o Hs) as (_ & s & E & B & L). cbn. rewrite E. by apply table_found.
Defined.
End Table.

(** A callback that collects the dump. *)
Definition collect (w s : list Z) : list Z * Z := (w ++ s, 0).

Lemma collected_dump cs : forall w, fold_left (feed collect) cs (w, 0) = (w ++ concat cs, 0).
Proof. induction cs as [|c cs IH]; intros w; cbn [fold_left concat]; [by rewrite app_nil_r|].
  change (feed collect (w, 0) c) with (w ++ c, 0). by rewrite IH, app_assoc.
Qed.

Lemma chunks_length (cs : list (list Z)) : Forall sized cs -> (length cs <= length (concat cs))%nat.
Proof.
  induction 1 as [|c cs (b & -> & Pb) _ IH]; [done|]. cbn [concat length]. rewrite !length_app. unfold len in *. lia.
Qed.

Section Props.
Context `{TE : TabEnv} `{ST : StrTab}.

(** C14: [lj_bcwrite] never stores outside of its buffer, and hands to its
    callback the header, then every prototype with its size in front,
    children first, and the end mark; after the first error the callback
    reports, nothing more.  It fails only with the error of the buffer, and
    only when a prototype is too big: its chunk comes within 655,365 bytes
    (five for the size, the others reserved for number constants) of the
    largest buffer, or the name of the chunk within ten. *)
Theorem lj_bcwrite_chunks raw LJ_BE LJ_FR2 LJ_HASJIT LJ_HASFFI startins {W} (wfunc : W -> list Z -> W * Z) pt w strip :
  wf_proto LJ_HASFFI pt ->
  (lj_bcwrite raw LJ_BE LJ_FR2 LJ_HASJIT startins wfunc pt w strip = Err BUF_MEM /\
    (LJ_MAX_BUF < len (strdata (pt_chunkname pt)) + 10 \/
     exists s, s ∈ proto_chunks LJ_BE LJ_HASJIT startins strip pt /\ LJ_MAX_BUF < len s + 655365)) \/
  lj_bcwrite raw LJ_BE LJ_FR2 LJ_HASJIT startins wfunc pt w strip =
    Ok (fold_left (feed wfunc) (dump_chunks LJ_BE LJ_FR2 LJ_HASJIT startins strip pt) (w, 0)).
Proof.
  intros Wf. destruct (lj_bcwrite_ok raw LJ_BE LJ_FR2 LJ_HASJIT startins LJ_HASFFI wfunc pt w strip Wf) as [[E M]|E]; [left|by right].
  split; [exact E|]. destruct M as [M|M%Exists_exists]; [left; lia|right]. destruct M as (s & Hs & M). exists s. split; [by apply list_elem_of_In|].
  unfold too_big, SPARE in M. lia.
Qed.

(** C6: a prototype that is dumped by [lj_bcwrite] and read by [lj_bcread],
    on a machine of either byte order and in whatever pieces the reader's
    callback delivers the dump, is the same prototype again: instructions
    (with the patches of the JIT compiler undone), upvalues, constants,
    template tables with the same pairs, children in their places, and,
    unless it was stripped, its debug info. *)
Theorem dump_roundtrip raw W_BE R_BE LJ_FR2 LJ_HASJIT LJ_HASFFI startins strip pt chunkarg s st p rd sb :
  wf_proto LJ_HASFFI pt ->
  lj_bcwrite raw W_BE LJ_FR2 LJ_HASJIT startins collect pt [] strip = Ok (s, st) -> len s <= LJ_MAX_BUF ->
  p ++ concat rd = tail s -> pieces_ok rd -> buf_ok sb ->
  exists pt' i', lj_bcread raw R_BE LJ_FR2 LJ_HASFFI piece_reader (length s) chunkarg (mkIn p rd false sb) = Ok (pt', i') /\
    proto_rel W_BE R_BE LJ_HASJIT startins strip (loaded_name strip chunkarg pt) pt pt'.
Proof.
  intros Wf E M T P B. destruct (lj_bcwrite_ok raw W_BE LJ_FR2 LJ_HASJIT startins LJ_HASFFI collect pt [] strip Wf) as [[X _]|X]; rewrite X in E; [done|].
  rewrite collected_dump in E. assert (s = concat (dump_chunks W_BE LJ_FR2 LJ_HASJIT startins strip pt)) as -> by by injection E.
  change (lj_bcread raw R_BE LJ_FR2 LJ_HASFFI piece_reader (length (concat (dump_chunks W_BE LJ_FR2 LJ_HASJIT startins strip pt))) chunkarg (mkIn p rd false sb))
    with (lj_bcread raw R_BE LJ_FR2 LJ_HASFFI piece_reader (length (concat (dump_chunks W_BE LJ_FR2 LJ_HASJIT startins strip pt))) chunkarg (mkIn p rd false (lj_buf_reset sb))).
  apply bcread_dump; [done| |done|exact T|].
  - split; cbn; [by apply reset_ok|by left|done|done|]. unfold total. cbn. rewrite T. unfold len in *. destruct (concat _); cbn in *; lia.
  - unfold dump_chunks. cbn [concat]. rewrite concat_app, !length_app. pose proof (chunks_length _ (chunks_sized W_BE LJ_HASJIT LJ_HASFFI startins strip pt Wf)). cbn [header_text app length]. lia.
Qed.

(** C15: a dump that ends early, at whatever place, is never accepted.
    [lj_bcread] reports bad bytecode, or it reads beyond the input: that
    happens only where the end lies in the header before the name of the
    chunk, or within the five bytes of the size of a prototype. *)
Theorem dump_truncated raw W_BE R_BE LJ_FR2 LJ_HASJIT LJ_HASFFI startins strip pt chunkarg fuel p rd sb q q' :
  wf_proto LJ_HASFFI pt -> let cs := proto_chunks W_BE LJ_HASJIT startins strip pt in
  q ++ q' = tail (concat (dump_chunks W_BE LJ_FR2 LJ_HASJIT startins strip pt)) -> q' <> [] ->
  len (concat (dump_chunks W_BE LJ_FR2 LJ_HASJIT startins strip pt)) <= LJ_MAX_BUF -> (length cs < fuel)%nat ->
  p ++ concat rd = q -> pieces_ok rd -> buf_ok sb ->
  let r := lj_bcread raw R_BE LJ_FR2 LJ_HASFFI piece_reader fuel chunkarg (mkIn p rd false sb) in
  r = Err BCBAD \/
  r = Err DUMP_UB /\
    (len q < 9 \/ exists k e, q = tail (header_text W_BE LJ_FR2 strip pt) ++ concat (take k cs) ++ e /\ len e < 5).
Proof.
  intros Wf cs E N M F <- P B r. subst r.
  change (lj_bcread raw R_BE LJ_FR2 LJ_HASFFI piece_reader fuel chunkarg (mkIn p rd false sb))
    with (lj_bcread raw R_BE LJ_FR2 LJ_HASFFI piece_reader fuel chunkarg (mkIn p rd false (lj_buf_reset sb))).
  assert (Lt : len (p ++ concat rd) <= LJ_MAX_BUF).
  { pose proof (f_equal len E) as El. rewrite len_app in El. pose proof (len_nonneg q'). unfold dump_chunks in *. unfold len in *. destruct (concat _); cbn in *; lia. }
  apply (bcread_truncated raw W_BE R_BE LJ_FR2 LJ_HASJIT LJ_HASFFI startins fuel strip pt chunkarg (mkIn p rd false (lj_buf_reset sb)) q'); try done.
  - split; cbn; [by apply reset_ok|by left|done|done|exact Lt].
  - fold cs. unfold dump_chunks in M. cbn [concat] in M. rewrite concat_app, !len_app in M. fold cs in M.
    pose proof (len_nonneg (header_text W_BE LJ_FR2 strip pt)). change (len (concat [[0]])) with 1 in M. unfold LJ_MAX_BUF in M. lia.
Qed.

(** C35: a dump that ends before the flags of its header is read beyond its
    end: the reader asks for the header with [bcread_want], which accepts
    less, and then reads it without a check. *)
Theorem dump_header_overread raw LJ_BE LJ_FR2 LJ_HASFFI fuel chunkarg p rd sb q :
  p ++ concat rd ++ q = [BCDUMP_HEAD2; BCDUMP_HEAD3; BCDUMP_VERSION] -> pieces_ok rd -> buf_ok sb ->
  lj_bcread raw LJ_BE LJ_FR2 LJ_HASFFI piece_reader fuel chunkarg (mkIn p rd false sb) = Err DUMP_UB.
Proof.
  intros T P B. unfold lj_bcread. cbv zeta. cbn [in_p in_data in_eof in_sb]. rewrite app_assoc in T.
  rewrite (header_over raw LJ_FR2 LJ_HASFFI chunkarg _ q); [done| |done|exact T].
  split; cbn; [by apply reset_ok|by left|done|done|]. unfold total. cbn. pose proof (f_equal len T) as Tl. rewrite len_app in Tl. pose proof (len_nonneg q).
  change (len [BCDUMP_HEAD2; BCDUMP_HEAD3; BCDUMP_VERSION]) with 3 in Tl. unfold LJ_MAX_BUF. lia.
Qed.
End Props.

(** A loop instruction that the JIT compiler has redirected to a trace or
    blacklisted, and the [FORI] of such a loop, are written to a dump as the
    instruction that the parser made. *)
Theorem unpatch_restores startins i nslots traceno : is_u32 i -> is_u16 traceno -> startins traceno = i ->
  (bc_op i ∈ [BC_FORL; BC_ITERL; BC_LOOP] ->
     unpatch_ins startins (trace_stop_ins i nslots traceno) = i /\ unpatch_ins startins (blacklist_pc i) = i) /\
  (bc_op i = BC_FORI -> unpatch_ins startins (trace_stop_fori i) = i).
Proof.
  intros Hi Ht Hs. assert (B : forall x, is_u8 x -> setbc_op (setbc_op i x) (bc_op i) = i) by (intros; by apply setbc_op_back).
  split.
  - intros H. assert (Ho : bc_op i = BC_FORL \/ bc_op i = BC_ITERL \/ bc_op i = BC_LOOP) by by rewrite !elem_of_cons, elem_of_nil in H; tauto. clear H.
    split.
    + unfold trace_stop_ins. cbv zeta. replace (_ || _) with true by (by destruct Ho as [E|[E|E]]; rewrite E).
      apply (unpatch_jit startins i (bc_op i)); try done. destruct Ho as [E|[E|E]]; rewrite E; auto.
    + unfold blacklist_pc, unpatch_ins. cbv zeta. rewrite setbc_op_op by (destruct Ho as [E|[E|E]]; by rewrite E).
      specialize (B (bc_op i + BC_ILOOP - BC_LOOP)). destruct Ho as [E|[E|E]]; rewrite E in *; by apply B.
  - intros Ho. unfold trace_stop_fori, unpatch_ins. cbv zeta. rewrite setbc_op_op by done. specialize (B BC_JFORI). rewrite Ho in B. by apply B.
Qed.

(** C34: a return at which a root trace starts is not restored: the dump has
    a [LOOP] in its place. *)
Theorem unpatch_loses_return startins i nslots traceno : is_u32 i -> is_u8 nslots -> is_u16 traceno -> startins traceno = i ->
  bc_op i ∈ [BC_RET; BC_RET0; BC_RET1] -> bc_op (unpatch_ins startins (trace_stop_ins i nslots traceno)) = BC_LOOP.
Proof.
  intros Hi Hn Ht Hs H. assert (Ho : bc_op i = BC_RET \/ bc_op i = BC_RET0 \/ bc_op i = BC_RET1) by by rewrite !elem_of_cons, elem_of_nil in H; tauto. clear H.
  assert (E : trace_stop_ins i nslots traceno = BCINS_AD BC_JLOOP nslots traceno) by (unfold trace_stop_ins; by destruct Ho as [->|[->| ->]]).
  rewrite E. unfold unpatch_ins. cbv zeta. rewrite bc_op_ad by done. 
  rewrite bc_op_byte. change (BC_JLOOP =? BC_IFORL) with false.
  cbn [BC_JLOOP BC_IFORL BC_IITERL BC_ILOOP BC_JFORI BC_JFORL BC_JITERL Z.eqb Pos.eqb orb].
  by rewrite !setbc_byte_bytes by lia.
Qed.

(** ** A concrete dump *)

(** Two strings in the table: "a" is object 1, "hi" is object 2. *)
Definition demo_new (g : global_State) (s : list Z) : global_State :=
  match lj_str_new g 4096 s (len s) with Ok (_, g') => g' | Err _ => g end.
Definition demo_g : global_State := demo_new (demo_new str_table_init [97]) [104; 105].

Lemma demo_new_inv g s : str_inv g -> bytes s -> str_inv (demo_new g s).
Proof.
  intros I B. unfold demo_new. pose proof (lj_str_new_ok g 4096 s (len s) I B) as N. unfold len in *. specialize (N ltac:(lia)).
  destruct (lj_str_new g 4096 s _) as [[[|o] g']|e]; [destruct N as [_ ->]; done|apply N|done].
Qed.
Lemma demo_g_inv : str_inv demo_g.
Proof. apply demo_new_inv; [apply demo_new_inv; [apply str_table_init_inv|]|]; by repeat (apply Forall_cons_2; [unfold is_u8; lia|]). Qed.
Definition demo_str : StrTab.
Proof. refine (interned_strtab demo_g demo_g_inv _ 4096). by vm_compute. Defined.

(** [{true, a = "hi"}] *)
Definition demo_tab_ops : list tab_op := [OpSet (int_key 1) Ttrue; OpSet (Tstr 1) (Tstr 2)].
Definition demo_tab : GCtab := get_ok (t ← @lj_tab_new env1 2 1; @tab_run env1 t demo_tab_ops).

Lemma demo_tab_wf : @wf_tab env1 demo_tab.
Proof.
  apply (@built_wf env1 2 1 demo_tab_ops); [done|done| |vm_compute; reflexivity].
  repeat apply Forall_cons_2; try apply Forall_nil_2; split; by vm_compute.
Qed.

Lemma demo_is_str o : bool_decide (o ∈ concat (Strs.strhash demo_g)) = true -> @is_str demo_str (Z.pos o).
Proof. apply bool_decide_eq_true. Qed.

Lemma demo_tab_const : @tab_const env1 demo_str demo_tab.
Proof.
  assert (A : asize demo_tab = 2) by by vm_compute. split; [apply demo_tab_wf| |].
  - intros i Hi. rewrite A in Hi. assert (i = 0 \/ i = 1) as [-> | ->] by lia.
    + replace (arrayslot demo_tab 0) with Tnil by by vm_compute. by split.
    + replace (arrayslot demo_tab 1) with Ttrue by by vm_compute. by split.
  - assert (N : exists nd1 nd2, node demo_tab = [nd1; nd2] /\ key nd1 = Tstr 1 /\ val nd1 = Tstr 2 /\ val nd2 = Tnil).
    { eexists _, _. split; [vm_compute; reflexivity|]. do 2 (split; [reflexivity|]). reflexivity. }
    destruct N as (nd1 & nd2 & N & K1 & V1 & V2). intros i nd E Hv. rewrite N in E. clear N A. destruct i as [|[|i]]; [| |done]; injection E as <-; [|done].
    rewrite K1, V1. split; [by apply (demo_is_str 1); vm_compute|]. split; [by apply (demo_is_str 2); vm_compute|done].
Qed.

(** A child with one constant, and a vararg function with two upvalues,
    children and constants of all kinds but [cdata], with debug info of
    300 lines. *)
Definition demo_child : GCproto :=
  mkPT 0 1 2 0 [BCINS_AD BC_FUNCF 2 0; BCINS_AD BC_RET0 0 1] [] [] [Tnum 0x3ff8000000000000] 2 3 4 None.
Definition demo_dbg : ProtoDbg := mkDbg [1; 2; 3; 4; 120; 0; 121; 0; 0] 4 8.
Definition demo_proto : GCproto :=
  mkPT (PROTO_CHILD .| PROTO_VARARG) 0 3 0 [BCINS_AD BC_FUNCV 3 0; BCINS_AD BC_LOOP 1 0x8002; BCINS_AD BC_RET0 0 1]
    [0x8001; 2] [KChild demo_child; KStr 1; KTab demo_tab; KChild demo_child] [int_key 7; Tnum 0x3ff8000000000000] 2 1 300 (Some demo_dbg).

Lemma no_dbg_ok pt : pt_dbg pt = None -> forall d, pt_dbg pt = Some d -> dbg_ok pt d.
Proof. intros E d. by rewrite E. Qed.

Ltac demo_nums := repeat first [apply Forall_nil_2 | apply Forall_cons_2; [unfold is_u32, is_u16; by split; vm_compute|]].

Lemma demo_knum u : is_u64 u -> u >> 32 < LJ_TISNUM -> u <> 2 ^ 63 -> @const_ok env1 demo_str (Tnum u) /\ @tvisnumber (Tnum u) = true /\ @no_mzero env1 (Tnum u).
Proof.
  intros H1 H2 H3. split; [done|]. split; [|intros _; congruence]. unfold tvisnumber. cbn [itype]. apply Z.leb_le. lia.
Qed.

Lemma demo_child_ok : @local_ok env1 demo_str false demo_child.
Proof.
  split; cbn [demo_child pt_numparams pt_framesize pt_bc pt_uv pt_kgc pt_kn pt_chunkname pt_firstline pt_numline].
  - by split.
  - by split.
  - by split; vm_compute.
  - by demo_nums.
  - done.
  - by demo_nums.
  - done.
  - apply Forall_nil_2.
  - done.
  - apply Forall_cons_2; [by apply demo_knum|apply Forall_nil_2].
  - by intros _ c [].
  - done.
  - by apply (demo_is_str 2); vm_compute.
  - by split.
  - by split.
  - by apply no_dbg_ok.
Qed.

Lemma demo_proto_ok : @local_ok env1 demo_str false demo_proto.
Proof.
  split; cbn [demo_proto pt_numparams pt_framesize pt_bc pt_uv pt_kgc pt_kn pt_chunkname pt_firstline pt_numline].
  - by split.
  - by split.
  - by split; vm_compute.
  - by demo_nums.
  - done.
  - by demo_nums.
  - done.
  - apply Forall_cons_2; [done|]. apply Forall_cons_2; [by apply (demo_is_str 1); vm_compute|].
    apply Forall_cons_2; [apply demo_tab_const|]. apply Forall_cons_2; [done|apply Forall_nil_2].
  - done.
  - repeat (apply Forall_cons_2; [by apply demo_knum; vm_compute|]). apply Forall_nil_2.
  - done.
  - done.
  - by apply (demo_is_str 2); vm_compute.
  - by split.
  - by split.
  - intros d E. assert (d = demo_dbg) as -> by by injection E. by split; vm_compute.
Qed.

Lemma demo_wf_proto : @wf_proto env1 demo_str false demo_proto.
Proof.
  assert (C : @wf_proto env1 demo_str false demo_child) by (constructor; [apply demo_child_ok|by intros c []]).
  constructor; [apply demo_proto_ok|]. intros c [E|[E|[E|[E|[]]]]]; try discriminate E; by injection E as <-.
Qed.

Definition no_trace (d : Z) : Z := 0.
Definition zeroes (i : nat) : Z := 0.
(** The dump of a big-endian machine. *)
Definition demo_chunks : list (list Z) := @proto_chunks env1 demo_str true true no_trace false demo_proto.
Definition demo_dump : list Z := concat (@dump_chunks env1 demo_str true false true no_trace false demo_proto).

Lemma lj_bcwrite_chunks_witness :
  @lj_bcwrite env1 demo_str zeroes true false true no_trace _ collect demo_proto [] false = Ok (demo_dump, 0).
Proof.
  destruct (@lj_bcwrite_chunks env1 demo_str zeroes true false true false no_trace _ collect demo_proto [] false demo_wf_proto) as [[E _]|E].
  - vm_compute in E. discriminate E.
  - rewrite E. vm_compute. reflexivity.
Defined.

Lemma dump_roundtrip_witness :
  exists pt' i', @lj_bcread env1 demo_str zeroes false false false _ piece_reader (length demo_dump) []
      (mkIn (take 3 (tail demo_dump)) [take 4 (drop 3 (tail demo_dump)); drop 7 (tail demo_dump)] false lj_buf_init) = Ok (pt', i') /\
    @proto_rel env1 true false true no_trace false (pt_chunkname demo_proto) demo_proto pt'.
Proof.
  apply (@dump_roundtrip env1 demo_str zeroes true false false true false no_trace false demo_proto [] demo_dump 0).
  - apply demo_wf_proto.
  - vm_compute. reflexivity.
  - vm_compute. discriminate.
  - vm_compute. reflexivity.
  - repeat apply Forall_cons_2; [vm_compute; discriminate|vm_compute; discriminate|apply Forall_nil_2].
  - split; [split; vm_compute; discriminate|left; reflexivity].
Defined.

Lemma dump_truncated_witness :
  let q := tail (take 40 demo_dump) in
  let r := @lj_bcread env1 demo_str zeroes false false false _ piece_reader 4 [] (mkIn q [] false lj_buf_init) in
  r = Err BCBAD \/
  r = Err DUMP_UB /\ (len q < 9 \/ exists k e, q = tail (@header_text demo_str true false false demo_proto) ++ concat (take k demo_chunks) ++ e /\ len e < 5).
Proof.
  apply (@dump_truncated env1 demo_str zeroes true false false true false no_trace false demo_proto [] 4
    (tail (take 40 demo_dump)) [] lj_buf_init (tail (take 40 demo_dump)) (drop 40 demo_dump) demo_wf_proto).
  - vm_compute. reflexivity.
  - vm_compute. discriminate.
  - vm_compute. discriminate.
  - vm_compute. lia.
  - vm_compute. reflexivity.
  - apply Forall_nil_2.
  - split; [split; vm_compute; discriminate|left; reflexivity].
Defined.

Lemma dump_header_overread_witness :
  @lj_bcread env1 demo_str zeroes false false false _ piece_reader 9 [] (mkIn [0x4c] [[0x4a]] false lj_buf_init) = Err DUMP_UB.
Proof.
  apply (@dump_header_overread env1 demo_str zeroes false false false 9 [] [0x4c] [[0x4a]] lj_buf_init [2]).
  - reflexivity.
  - apply Forall_cons_2; [discriminate|apply Forall_nil_2].
  - split; [split; vm_compute; discriminate|left; reflexivity].
Defined.

(** The loop at the end of [for i=1,10 do end], whose trace has number 5. *)
Lemma unpatch_restores_witness :
  let i := BCINS_AD BC_FORL 3 0x7fff in
  unpatch_ins (fun _ => i) (trace_stop_ins i 0 5) = i /\ trace_stop_ins i 0 5 <> i.
Proof.
  split; [|vm_compute; discriminate].
  apply (unpatch_restores (fun _ => BCINS_AD BC_FORL 3 0x7fff) (BCINS_AD BC_FORL 3 0x7fff) 0 5); [by split|by split|reflexivity|].
  apply (bool_decide_eq_true_1 (bc_op (BCINS_AD BC_FORL 3 0x7fff) ∈ [BC_FORL; BC_ITERL; BC_LOOP])). vm_compute. reflexivity.
Defined.

Lemma unpatch_loses_return_witness :
  let i := BCINS_AD BC_RET1 3 2 in bc_op (unpatch_ins (fun _ => i) (trace_stop_ins i 7 5)) = BC_LOOP.
Proof.
  apply (unpatch_loses_return (fun _ => BCINS_AD BC_RET1 3 2) (BCINS_AD BC_RET1 3 2) 7 5); [by split|by split|by split|reflexivity|].
  apply (bool_decide_eq_true_1 (bc_op (BCINS_AD BC_RET1 3 2) ∈ [BC_RET; BC_RET0; BC_RET1])). vm_compute. reflexivity.
Defined.
