(* ===== verification/Gc.v ===== *)
(** * The garbage collector: objects and marking ([lj_gc.c], [lj_gc.h])

    The heap maps the address of an object to the object: its [marked] byte,
    its [gclist] link and its contents.  The gray lists are chains through
    [gclist], as in the code; the lists of all objects are lists.  Sizes and
    the estimates made from them are left out.  [LJ_FR2] = 0, as [LJ_GC64] = 0.

    Reading an address without an object, or an object of another type, is
    the error [GC_UB]. *)

From S2P Require Import Prelude Machine Num Tab Buf.

(** ** Colors ([lj_gc.h]) *)

Inductive gcstate := GCSpause | GCSpropagate | GCSatomic | GCSsweepstring | GCSsweep | GCSfinalize.
#[export] Instance gcstate_eq_dec : EqDecision gcstate.
Proof. solve_decision. Defined.

Definition LJ_GC_WHITE0 : Z := 0x01.
Definition LJ_GC_WHITE1 : Z := 0x02.
Definition LJ_GC_BLACK : Z := 0x04.
Definition LJ_GC_FINALIZED : Z := 0x08.
Definition LJ_GC_WEAKKEY : Z := 0x08.
Definition LJ_GC_WEAKVAL : Z := 0x10.
Definition LJ_GC_FIXED : Z := 0x20.
Definition LJ_GC_WHITES : Z := LJ_GC_WHITE0 .| LJ_GC_WHITE1.
Definition LJ_GC_COLORS : Z := LJ_GC_WHITES .| LJ_GC_BLACK.
Definition LJ_GC_WEAK : Z := LJ_GC_WEAKKEY .| LJ_GC_WEAKVAL.

(** On the [marked] byte. *)
Definition has (m f : Z) : bool := negb ((m .& f) =? 0).
Definition iswhite (m : Z) : bool := has m LJ_GC_WHITES.
Definition isblack (m : Z) : bool := has m LJ_GC_BLACK.
Definition isgray (m : Z) : bool := negb (has m (LJ_GC_BLACK .| LJ_GC_WHITES)).
Definition flipwhite (m : Z) : Z := m .^ LJ_GC_WHITES.
Definition white2gray (m : Z) : Z := m .& Z.lnot LJ_GC_WHITES.
Definition gray2black (m : Z) : Z := m .| LJ_GC_BLACK.
Definition black2gray (m : Z) : Z := m .& Z.lnot LJ_GC_BLACK.
Definition markfinalized (m : Z) : Z := m .| LJ_GC_FINALIZED.
Definition isfinalized (m : Z) : bool := has m LJ_GC_FINALIZED.

(** ** Objects ([lj_obj.h], [lj_jit.h]) *)

(** Slots are counted from the bottom of the stack; a frame is the slot and
    the function of a frame above the bottom, innermost first. *)
Record lua_State := mkTh {
  th_stack : list TValue;
  th_top : nat;
  th_frames : list (nat * Z);
  th_openupval : list Z;
  th_env : Z
}.

Record GCtrace := mkTrace {
  traceno : Z;
  tr_kgc : list Z;                 (* the objects of its [IR_KGC] constants *)
  tr_link : Z; tr_nextroot : Z; tr_nextside : Z;
  tr_startpt : Z
}.

Inductive GCbody :=
| BStr (s : list Z)
| BUpval (closed : bool) (tv : TValue) (th : Z) (slot : nat)   (* open: a slot of a thread *)
| BThread (th : lua_State)
| BProto (chunkname : Z) (kgc : list Z) (trace framesize : Z) (uv : list Z)
| BFuncL (env pt : Z) (uvptr : list Z)
| BFuncC (env : Z) (upvalue : list TValue)
| BTrace (T : GCtrace)
| BCdata
| BTab (t : GCtab) (metatable : Z)
| BUdata (metatable env : Z).

Record GCobj := mkObj { marked : Z; gclist : Z; body : GCbody }.

Definition LJ_TUPVAL : Z := 0xfffffffa.
Definition LJ_TTHREAD : Z := 0xfffffff9.
Definition LJ_TPROTO : Z := 0xfffffff8.
Definition LJ_TFUNC : Z := 0xfffffff7.
Definition LJ_TTRACE : Z := 0xfffffff6.
Definition LJ_TCDATA : Z := 0xfffffff5.
Definition LJ_TTAB : Z := 0xfffffff4.
Definition LJ_TUDATA : Z := 0xfffffff3.
Definition LJ_TISGCV : Z := LJ_TSTR + 1.

(** [~gct] *)
Definition otype (b : GCbody) : Z :=
  match b with
  | BStr _ => LJ_TSTR | BUpval _ _ _ _ => LJ_TUPVAL | BThread _ => LJ_TTHREAD | BProto _ _ _ _ _ => LJ_TPROTO
  | BFuncL _ _ _ | BFuncC _ _ => LJ_TFUNC | BTrace _ => LJ_TTRACE | BCdata => LJ_TCDATA | BTab _ _ => LJ_TTAB
  | BUdata _ _ => LJ_TUDATA
  end.

Definition tvisgcv (o : TValue) : bool := u32 (LJ_TNUMX - LJ_TISGCV) <? u32 (itype o - LJ_TISGCV).
Definition tvisudata (o : TValue) : bool := itype o =? LJ_TUDATA.

(** ** The global state *)

Definition MM_gc : Z := 2.
Definition MM_mode : Z := 3.

Record global_State := mkG {
  heap : gmap Z GCobj;
  gc_state : gcstate;
  currentwhite : Z;
  gc_gray : Z; gc_grayagain : Z; gc_weak : Z;      (* chains through [gclist], 0 at the end *)
  gc_mmudata : list Z;        (* the circular list, from the next to be finalized to the anchor *)
  gc_root : list Z;           (* all other objects, the main thread last *)
  gc_udata : list Z;          (* behind the main thread *)
  mainthread : Z;
  registrytv : TValue;
  gcroot : list Z;
  uvhead : list Z;            (* all open upvalues, by [uvnext] *)
  strempty : Z;               (* the address of [g->strempty] *)
  tmpbuf : SBuf;
  jit_trace : gmap Z Z;       (* [J->trace] *)
  jit_cur : GCtrace;          (* [J->cur] *)
  jit_base : bool;            (* running machine code *)
  cur_L : Z
}.

Definition set_heap (g : global_State) x := mkG x (gc_state g) (currentwhite g) (gc_gray g) (gc_grayagain g) (gc_weak g) (gc_mmudata g)
  (gc_root g) (gc_udata g) (mainthread g) (registrytv g) (gcroot g) (uvhead g) (strempty g) (tmpbuf g) (jit_trace g) (jit_cur g) (jit_base g) (cur_L g).
Definition set_state (g : global_State) x := mkG (heap g) x (currentwhite g) (gc_gray g) (gc_grayagain g) (gc_weak g) (gc_mmudata g)
  (gc_root g) (gc_udata g) (mainthread g) (registrytv g) (gcroot g) (uvhead g) (strempty g) (tmpbuf g) (jit_trace g) (jit_cur g) (jit_base g) (cur_L g).
Definition set_gray (g : global_State) x := mkG (heap g) (gc_state g) (currentwhite g) x (gc_grayagain g) (gc_weak g) (gc_mmudata g)
  (gc_root g) (gc_udata g) (mainthread g) (registrytv g) (gcroot g) (uvhead g) (strempty g) (tmpbuf g) (jit_trace g) (jit_cur g) (jit_base g) (cur_L g).
Definition set_grayagain (g : global_State) x := mkG (heap g) (gc_state g) (currentwhite g) (gc_gray g) x (gc_weak g) (gc_mmudata g)
  (gc_root g) (gc_udata g) (mainthread g) (registrytv g) (gcroot g) (uvhead g) (strempty g) (tmpbuf g) (jit_trace g) (jit_cur g) (jit_base g) (cur_L g).
Definition set_weak (g : global_State) x := mkG (heap g) (gc_state g) (currentwhite g) (gc_gray g) (gc_grayagain g) x (gc_mmudata g)
  (gc_root g) (gc_udata g) (mainthread g) (registrytv g) (gcroot g) (uvhead g) (strempty g) (tmpbuf g) (jit_trace g) (jit_cur g) (jit_base g) (cur_L g).
Definition set_udata (g : global_State) u m := mkG (heap g) (gc_state g) (currentwhite g) (gc_gray g) (gc_grayagain g) (gc_weak g) m
  (gc_root g) u (mainthread g) (registrytv g) (gcroot g) (uvhead g) (strempty g) (tmpbuf g) (jit_trace g) (jit_cur g) (jit_base g) (cur_L g).
Definition set_lists (g : global_State) rt uv := mkG (heap g) (gc_state g) (currentwhite g) (gc_gray g) (gc_grayagain g) (gc_weak g) (gc_mmudata g)
  rt (gc_udata g) (mainthread g) (registrytv g) (gcroot g) uv (strempty g) (tmpbuf g) (jit_trace g) (jit_cur g) (jit_base g) (cur_L g).
(** The end of [atomic]: the current white is flipped, also for the empty string. *)
Definition flip_white (g : global_State) w b := mkG (alter (fun x => mkObj w (gclist x) (body x)) (strempty g) (heap g)) (gc_state g) w
  (gc_gray g) (gc_grayagain g) (gc_weak g) (gc_mmudata g) (gc_root g) (gc_udata g) (mainthread g) (registrytv g) (gcroot g) (uvhead g)
  (strempty g) b (jit_trace g) (jit_cur g) (jit_base g) (cur_L g).

Definition otherwhite (g : global_State) : Z := currentwhite g .^ LJ_GC_WHITES.
Definition curwhite (g : global_State) : Z := currentwhite g .& LJ_GC_WHITES.
Definition isdead (g : global_State) (m : Z) : bool := has m (otherwhite g .& LJ_GC_WHITES).
Definition makewhite (g : global_State) (m : Z) : Z := (m .& Z.lnot LJ_GC_COLORS) .| curwhite g.

Inductive GcErr := GC_UB | GC_FUEL | GC_TAB (e : TabErr).
Abbreviation gres := (res GcErr).

Definition obj_at (g : global_State) (o : Z) : gres GCobj := match heap g !! o with Some x => Ok x | None => Err GC_UB end.

Definition set_marked (f : Z -> Z) (x : GCobj) : GCobj := mkObj (f (marked x)) (gclist x) (body x).
Definition set_gclist (l : Z) (x : GCobj) : GCobj := mkObj (marked x) l (body x).
Definition set_body (b : GCbody) (x : GCobj) : GCobj := mkObj (marked x) (gclist x) b.
Definition upd (g : global_State) (o : Z) (f : GCobj -> GCobj) : global_State := set_heap g (alter f o (heap g)).
Definition recolor (g : global_State) (o : Z) (f : Z -> Z) : global_State := upd g o (set_marked f).

(** [setgcrefr(o->gclist, list); setgcref(list, o)] *)
Definition push_gray (g : global_State) (o : Z) : global_State := set_gray (upd g o (set_gclist (gc_gray g))) o.
Definition push_grayagain (g : global_State) (o : Z) : global_State := set_grayagain (upd g o (set_gclist (gc_grayagain g))) o.
Definition push_weak (g : global_State) (o : Z) : global_State := set_weak (upd g o (set_gclist (gc_weak g))) o.

Fixpoint gfold {A} (f : global_State -> A -> gres global_State) (g : global_State) (l : list A) : gres global_State :=
  match l with [] => Ok g | x :: l => g ← f g x; gfold f g l end.

Section Gc.
Context `{TE : TabEnv}.

(** ** Mark phase *)

Definition tab_at (g : global_State) (o : Z) : gres (GCtab * Z) :=
  x ← obj_at g o; match body x with BTab t mt => Ok (t, mt) | _ => Err GC_UB end.
Definition th_at (g : global_State) (o : Z) : gres lua_State :=
  x ← obj_at g o; match body x with BThread th => Ok th | _ => Err GC_UB end.
Definition put_tab (g : global_State) (o : Z) (t : GCtab) (mt : Z) : global_State := upd g o (set_body (BTab t mt)).
Definition put_th (g : global_State) (o : Z) (th : lua_State) : global_State := upd g o (set_body (BThread th)).

Definition stack_at (g : global_State) (th : Z) (slot : nat) : gres TValue :=
  th ← th_at g th; match th_stack th !! slot with Some v => Ok v | None => Err GC_UB end.

(** Marking a userdata or an upvalue marks what it refers to: at most an
    upvalue, a userdata in it, and its tables. *)
Fixpoint gc_mark (fuel : nat) (g : global_State) (o : Z) : gres global_State :=
  match fuel with
  | O => Err GC_FUEL
  | S f =>
      let markobj g o := x ← obj_at g o; if iswhite (marked x) then gc_mark f g o else Ok g in
      let marktv g tv := if tvisgcv tv then markobj g (gcr tv) else Ok g in
      x ← obj_at g o;
      let g := recolor g o white2gray in
      match body x with
      | BUdata mt env =>
          let g := recolor g o gray2black in
          g ← (if negb (mt =? 0) then markobj g mt else Ok g);
          markobj g env
      | BUpval closed tv th slot =>
          v ← (if closed then Ok tv else stack_at g th slot);
          g ← marktv g v;
          Ok (if closed then recolor g o gray2black else g)
      | BStr _ | BCdata => Ok g
      | _ => Ok (push_gray g o)
      end
  end.

Definition mark_depth : nat := 3.
Definition gc_markobj (g : global_State) (o : Z) : gres global_State :=
  x ← obj_at g o; if iswhite (marked x) then gc_mark mark_depth g o else Ok g.
Definition gc_marktv (g : global_State) (tv : TValue) : gres global_State :=
  if tvisgcv tv then gc_markobj g (gcr tv) else Ok g.

(** Mark the object of a reference that may be [NULL]. *)
Definition gc_markref (g : global_State) (o : Z) : gres global_State :=
  if negb (o =? 0) then gc_markobj g o else Ok g.

Definition gc_mark_gcroot (g : global_State) : gres global_State := gfold gc_markref g (gcroot g).

Definition gc_mark_start (g : global_State) : gres global_State :=
  let g := set_weak (set_grayagain (set_gray g 0) 0) 0 in
  g ← gc_markobj g (mainthread g);
  th ← th_at g (mainthread g);
  g ← gc_markobj g (th_env th);
  g ← gc_marktv g (registrytv g);
  g ← gc_mark_gcroot g;
  Ok (set_state g GCSpropagate).

Definition gc_mark_uv (g : global_State) : gres global_State :=
  gfold (fun g uv =>
    x ← obj_at g uv;
    if isgray (marked x) then
      match body x with
      | BUpval closed tv th slot => v ← (if closed then Ok tv else stack_at g th slot); gc_marktv g v
      | _ => Err GC_UB
      end
    else Ok g) g (uvhead g).

Definition gc_mark_mmudata (g : global_State) : gres global_State :=
  gfold (fun g u => gc_mark mark_depth (recolor g u (makewhite g)) u) g (gc_mmudata g).

(** *** Metamethods ([lj_meta.c], [lj_meta.h]) *)

Definition lj_meta_cache (g : global_State) (mt mm name : Z) : gres (global_State * option TValue) :=
  '(t, mtmt) ← tab_at g mt;
  match lj_tab_getstr t name with
  | Err e => Err (GC_TAB e)
  | Ok mo =>
      if tvisnil (default Tnil mo) then Ok (put_tab g mt (set_nomm t (nomm t .| (1 << mm))) mtmt, None)
      else Ok (g, mo)
  end.

Definition lj_meta_fastg (g : global_State) (mt mm : Z) : gres (global_State * option TValue) :=
  if mt =? 0 then Ok (g, None)
  else
    '(t, _) ← tab_at g mt;
    if has (nomm t) (1 << mm) then Ok (g, None)
    else match gcroot g !! Z.to_nat mm with
         | Some name => lj_meta_cache g mt mm name
         | None => Err GC_UB
         end.

(** *** Userdata *)

(** The rest of the list of userdata, and those moved, in the order they have
    in [mmudata]. *)
Fixpoint separate_loop (g : global_State) (all : bool) (l : list Z) : gres (global_State * list Z * list Z) :=
  match l with
  | [] => Ok (g, [], [])
  | o :: l =>
      x ← obj_at g o;
      if negb (iswhite (marked x) || all) || isfinalized (marked x) then
        '(g, u, m) ← separate_loop g all l; Ok (g, o :: u, m)
      else
        match body x with
        | BUdata mt _ =>
            '(g, mo) ← lj_meta_fastg g mt MM_gc;
            let g := recolor g o markfinalized in
            '(g, u, m) ← separate_loop g all l;
            match mo with None => Ok (g, o :: u, m) | Some _ => Ok (g, u, o :: m) end
        | _ => Err GC_UB
        end
  end.

Definition lj_gc_separateudata (g : global_State) (all : bool) : gres global_State :=
  '(g, u, m) ← separate_loop g all (gc_udata g); Ok (set_udata g u (gc_mmudata g ++ m)).

(** ** Propagation phase *)

(** The characters of a [__mode] field, up to the terminating zero. *)
Fixpoint mode_loop (weak : Z) (s : list Z) : Z :=
  match s with
  | [] => weak
  | c :: s =>
      if c =? 0 then weak
      else mode_loop (if c =? 107 (* k *) then weak .| LJ_GC_WEAKKEY
                      else if c =? 118 (* v *) then weak .| LJ_GC_WEAKVAL
                      else if c =? 75 (* K *) then i32 (u32 (Z.lnot 0) .& u32 (Z.lnot LJ_GC_WEAKVAL))
                      else weak) s
  end.

(** [mode && tvisstr(mode)] and the loop over the string. *)
Definition mode_weak (g : global_State) (mode : option TValue) : gres Z :=
  match mode with
  | Some v =>
      if tvisstr v then
        x ← obj_at g (gcr v); match body x with BStr s => Ok (mode_loop 0 s) | _ => Err GC_UB end
      else Ok 0
  | None => Ok 0
  end.

Definition tab_avals (t : GCtab) : list TValue := (fun i => arrayslot t (Z.of_nat i)) <$> seq 0 (Z.to_nat (asize t)).
Definition tab_hnodes (t : GCtab) : list Node := if 0 <? hmask t then take (Z.to_nat (hmask t + 1)) (node t) else [].

Definition gc_traverse_tab (g : global_State) (o : Z) : gres (global_State * Z) :=
  '(t, mt) ← tab_at g o;
  g ← gc_markref g mt;
  '(g, mode) ← lj_meta_fastg g mt MM_mode;
  weak ← mode_weak g mode;
  let g := if 0 <? weak then push_weak (recolor g o (fun m => u8 ((m .& Z.lnot LJ_GC_WEAK) .| weak))) o else g in
  if weak =? LJ_GC_WEAK then Ok (g, 1)
  else
    g ← (if negb (has weak LJ_GC_WEAKVAL) then gfold gc_marktv g (tab_avals t) else Ok g);
    g ← gfold (fun g n =>
          if negb (tvisnil (val n)) then
            g ← (if negb (has weak LJ_GC_WEAKKEY) then gc_marktv g (key n) else Ok g);
            if negb (has weak LJ_GC_WEAKVAL) then gc_marktv g (val n) else Ok g
          else Ok g) g (tab_hnodes t);
    Ok (g, weak).

Definition gc_traverse_func (g : global_State) (o : Z) : gres global_State :=
  x ← obj_at g o;
  match body x with
  | BFuncL env pt uvptr => g ← gc_markobj g env; g ← gc_markobj g pt; gfold gc_markobj g uvptr
  | BFuncC env upvalue => g ← gc_markobj g env; gfold gc_marktv g upvalue
  | _ => Err GC_UB
  end.

Definition gc_marktrace (g : global_State) (traceno : Z) : gres global_State :=
  match jit_trace g !! traceno with
  | None => Err GC_UB
  | Some o => x ← obj_at g o; Ok (if iswhite (marked x) then push_gray (recolor g o white2gray) o else g)
  end.
Definition gc_marklink (g : global_State) (n : Z) : gres global_State :=
  if negb (n =? 0) then gc_marktrace g n else Ok g.

Definition gc_traverse_trace (g : global_State) (T : GCtrace) : gres global_State :=
  if traceno T =? 0 then Ok g
  else
    g ← gfold gc_markobj g (tr_kgc T);
    g ← gc_marklink g (tr_link T);
    g ← gc_marklink g (tr_nextroot T);
    g ← gc_marklink g (tr_nextside T);
    gc_markobj g (tr_startpt T).

Definition gc_traverse_curtrace (g : global_State) : gres global_State := gc_traverse_trace g (jit_cur g).

Definition gc_mark_str (g : global_State) (s : Z) : gres global_State := x ← obj_at g s; Ok (recolor g s white2gray).

Definition gc_traverse_proto (g : global_State) (o : Z) : gres global_State :=
  x ← obj_at g o;
  match body x with
  | BProto chunkname kgc trace _ _ =>
      g ← gc_mark_str g chunkname;
      g ← gfold gc_markobj g kgc;
      gc_marklink g trace
  | _ => Err GC_UB
  end.

(** The size of the frame of a Lua function. *)
Definition fn_framesize (g : global_State) (fn : Z) : gres Z :=
  x ← obj_at g fn;
  match body x with
  | BFuncL _ pt _ => y ← obj_at g pt; match body y with BProto _ _ _ fs _ => Ok fs | _ => Err GC_UB end
  | _ => Ok 0
  end.

Definition LJ_STACK_EXTRA : Z := 5.
Definition LUAI_MAXSTACK : Z := 65500.
Definition LUA_MINSTACK : Z := 20.
Definition LJ_STACK_START : Z := 2 * LUA_MINSTACK.
Definition LJ_STACK_MAXEX : Z := LUAI_MAXSTACK + 1 + LJ_STACK_EXTRA.

Definition stacksize (th : lua_State) : Z := Z.of_nat (length (th_stack th)).

(** [top] and the frames, as offsets from the bottom of the stack. *)
Fixpoint traverse_frames_loop (g : global_State) (top : Z) (frames : list (nat * Z)) : gres (global_State * Z) :=
  match frames with
  | [] => Ok (g, top)
  | (frame, fn) :: frames =>
      fs ← fn_framesize g fn;
      let ftop := Z.of_nat frame + fs in
      g ← gc_markobj g fn;
      traverse_frames_loop g (if top <? ftop then ftop else top) frames
  end.

Definition gc_traverse_frames (g : global_State) (th : lua_State) : gres (global_State * Z) :=
  '(g, top) ← traverse_frames_loop g (Z.of_nat (th_top th) - 1) (th_frames th);
  let top := top + 1 in
  let maxstack := stacksize th - LJ_STACK_EXTRA - 1 in
  Ok (g, if maxstack <? top then maxstack else top).

(** *** Thread stacks ([lj_state.c]) *)

Definition set_stack (th : lua_State) (s : list TValue) : lua_State :=
  mkTh s (th_top th) (th_frames th) (th_openupval th) (th_env th).

(** The copy of the stack, with new slots cleared. *)
Definition resizestack (th : lua_State) (n : Z) : lua_State :=
  let realsize := Z.to_nat (n + 1 + LJ_STACK_EXTRA) in
  set_stack th (take realsize (th_stack th) ++ replicate (realsize - length (th_stack th)) Tnil).

Definition lj_state_shrinkstack (g : global_State) (o used : Z) (th : lua_State) : lua_State :=
  if LJ_STACK_MAXEX <? stacksize th then th
  else if (4 * used <? stacksize th) && (2 * (LJ_STACK_START + LJ_STACK_EXTRA) <? stacksize th) &&
          (negb (jit_base g) || negb (o =? cur_L g))
  then resizestack th (stacksize th >> 1)
  else th.

(** [o < top] starts above the bottom slot; the rest of the stack is cleared
    from where the loop stopped. *)
Definition gc_traverse_thread (g : global_State) (o : Z) : gres global_State :=
  th ← th_at g o;
  g ← gfold gc_marktv g (take (th_top th - 1) (drop 1 (th_stack th)));
  let th := if decide (gc_state g = GCSatomic) then
              let n := Nat.max 1 (th_top th) in
              set_stack th (take n (th_stack th) ++ replicate (length (th_stack th) - n) Tnil)
            else th in
  let g := put_th g o th in
  g ← gc_markobj g (th_env th);
  '(g, used) ← gc_traverse_frames g th;
  Ok (put_th g o (lj_state_shrinkstack g o used th)).

Definition propagatemark (g : global_State) : gres global_State :=
  let o := gc_gray g in
  x ← obj_at g o;
  let g := recolor g o gray2black in
  let g := set_gray g (gclist x) in
  match body x with
  | BTab _ _ =>
      '(g, weak) ← gc_traverse_tab g o;
      Ok (if 0 <? weak then recolor g o black2gray else g)
  | BFuncL _ _ _ | BFuncC _ _ => gc_traverse_func g o
  | BProto _ _ _ _ _ => gc_traverse_proto g o
  | BThread _ => gc_traverse_thread (recolor (push_grayagain g o) o black2gray) o
  | BTrace T => gc_traverse_trace g T
  | _ => Err GC_UB
  end.

Fixpoint propagate_loop (fuel : nat) (g : global_State) : gres global_State :=
  match fuel with
  | O => Err GC_FUEL
  | S f => if negb (gc_gray g =? 0) then g ← propagatemark g; propagate_loop f g else Ok g
  end.

(** An object is turned black at most once, and a gray one is in the list once. *)
Definition gc_propagate_gray (g : global_State) : gres global_State := propagate_loop (2 * size (heap g) + 1) g.

(** ** Weak tables *)

(** The state with the string marked, and whether the slot can be cleared. *)
Definition gc_mayclear (g : global_State) (o : TValue) (val : bool) : gres (global_State * bool) :=
  if tvisgcv o then
    if tvisstr o then g ← gc_mark_str g (gcr o); Ok (g, false)
    else
      x ← obj_at g (gcr o);
      Ok (g, iswhite (marked x) || (tvisudata o && val && isfinalized (marked x)))
  else Ok (g, false).

Fixpoint clear_array (g : global_State) (vs : list TValue) : gres (global_State * list TValue) :=
  match vs with
  | [] => Ok (g, [])
  | tv :: vs =>
      '(g, c) ← gc_mayclear g tv true;
      '(g, vs) ← clear_array g vs;
      Ok (g, (if (c : bool) then Tnil else tv) :: vs)
  end.

Fixpoint clear_hash (g : global_State) (ns : list Node) : gres (global_State * list Node) :=
  match ns with
  | [] => Ok (g, [])
  | n :: ns =>
      '(g, c) ← (if negb (tvisnil (val n)) then
                   '(g, c) ← gc_mayclear g (key n) false;
                   if (c : bool) then Ok (g, true) else gc_mayclear g (val n) true
                 else Ok (g, false));
      '(g, ns) ← clear_hash g ns;
      Ok (g, (if (c : bool) then set_val Tnil n else n) :: ns)
  end.

Definition clear_table (g : global_State) (o : Z) : gres global_State :=
  x ← obj_at g o;
  match body x with
  | BTab t mt =>
      let n := Z.to_nat (asize t) in
      '(g, vs) ← (if has (marked x) LJ_GC_WEAKVAL then clear_array g (take n (array t)) else Ok (g, take n (array t)));
      let t := set_array t (vs ++ drop n (array t)) in
      '(g, ns) ← clear_hash g (tab_hnodes t);
      Ok (put_tab g o (set_node t (ns ++ drop (length ns) (node t))) mt)
  | _ => Err GC_UB
  end.

Fixpoint clearweak_loop (fuel : nat) (g : global_State) (o : Z) : gres global_State :=
  match fuel with
  | O => Err GC_FUEL
  | S f =>
      if negb (o =? 0) then
        g ← clear_table g o;
        x ← obj_at g o;
        clearweak_loop f g (gclist x)
      else Ok g
  end.
Definition gc_clearweak (g : global_State) (o : Z) : gres global_State := clearweak_loop (size (heap g) + 1) g o.

(** ** The atomic phase *)

(** All of [atomic] before the weak tables are cleared. *)
Definition atomic_mark (g : global_State) (L : Z) : gres global_State :=
  g ← gc_mark_uv g;
  g ← gc_propagate_gray g;
  let g := set_weak (set_gray g (gc_weak g)) 0 in
  g ← gc_markobj g L;
  g ← gc_traverse_curtrace g;
  g ← gc_mark_gcroot g;
  g ← gc_propagate_gray g;
  let g := set_grayagain (set_gray g (gc_grayagain g)) 0 in
  g ← gc_propagate_gray g;
  g ← lj_gc_separateudata g false;
  g ← gc_mark_mmudata g;
  gc_propagate_gray g.

Definition atomic (g : global_State) (L : Z) : gres global_State :=
  g ← atomic_mark g L;
  g ← gc_clearweak g (gc_weak g);
  Ok (flip_white g (otherwhite g) (lj_buf_shrink (tmpbuf g))).

(** ** Write barriers *)

Definition tviswhite (g : global_State) (tv : TValue) : gres bool :=
  if tvisgcv tv then x ← obj_at g (gcr tv); Ok (iswhite (marked x)) else Ok false.

Definition marking (g : global_State) : bool :=
  bool_decide (gc_state g = GCSpropagate) || bool_decide (gc_state g = GCSatomic).

Definition lj_gc_barrierback (g : global_State) (t : Z) : global_State := push_grayagain (recolor g t black2gray) t.

Definition lj_gc_anybarriert (g : global_State) (t : Z) : gres global_State :=
  x ← obj_at g t; Ok (if isblack (marked x) then lj_gc_barrierback g t else g).
Definition lj_gc_barriert (g : global_State) (t : Z) (tv : TValue) : gres global_State :=
  w ← tviswhite g tv;
  x ← obj_at g t; Ok (if (w : bool) && isblack (marked x) then lj_gc_barrierback g t else g).
Definition lj_gc_objbarriert (g : global_State) (t o : Z) : gres global_State :=
  y ← obj_at g o;
  x ← obj_at g t; Ok (if iswhite (marked y) && isblack (marked x) then lj_gc_barrierback g t else g).

Definition lj_gc_barrierf (g : global_State) (o v : Z) : gres global_State :=
  if marking g then gc_mark mark_depth g v else Ok (recolor g o (makewhite g)).
Definition lj_gc_barrier (g : global_State) (p : Z) (tv : TValue) : gres global_State :=
  w ← tviswhite g tv;
  x ← obj_at g p; if (w : bool) && isblack (marked x) then lj_gc_barrierf g p (gcr tv) else Ok g.
Definition lj_gc_objbarrier (g : global_State) (p o : Z) : gres global_State :=
  y ← obj_at g o;
  x ← obj_at g p; if iswhite (marked y) && isblack (marked x) then lj_gc_barrierf g p o else Ok g.

(** [uv] is the upvalue whose value [tv] points to. *)
Definition lj_gc_barrieruv (g : global_State) (uv : Z) (tv : TValue) : gres global_State :=
  if marking g then gc_mark mark_depth g (gcr tv) else Ok (recolor g uv (makewhite g)).

Definition link_root (g : global_State) (o : Z) : global_State := set_lists g (o :: gc_root g) (uvhead g).

(** [unlinkuv] of [lj_func.c] *)
Definition unlinkuv (g : global_State) (uv : Z) : global_State := set_lists g (gc_root g) (filter (fun o => o <> uv) (uvhead g)).

Definition lj_gc_closeuv (g : global_State) (uv : Z) : gres global_State :=
  x ← obj_at g uv;
  match body x with
  | BUpval closed tv th slot =>
      v ← (if closed then Ok tv else stack_at g th slot);
      let g := link_root (upd g uv (set_body (BUpval true v th slot))) uv in
      if isgray (marked x) then
        if marking g then
          let g := recolor g uv gray2black in
          w ← tviswhite g v; if (w : bool) then lj_gc_barrierf g uv (gcr v) else Ok g
        else Ok (recolor g uv (makewhite g))
      else Ok g
  | _ => Err GC_UB
  end.

Definition lj_gc_barriertrace (g : global_State) (traceno : Z) : gres global_State :=
  if marking g then gc_marktrace g traceno else Ok g.

(** A new object at the address [o] of the allocator, with the contents its
    creator gives it. *)
Definition lj_mem_newgco (g : global_State) (o : Z) (b : GCbody) : global_State :=
  link_root (set_heap g (<[o := mkObj (curwhite g) 0 b]> (heap g))) o.

End Gc.
