(* ===== verification/GcFunc.v ===== *)
(** * The garbage collector: functions, upvalues and userdata

    [lj_func.c] and [lj_udata.c], as the collector sees them: which objects are
    created, linked and freed.  The address of a new object is an argument.
    What the JIT compiler keeps in an upvalue ([immutable], [dhash]) and the
    counter of created closures in a prototype are left out. *)

From S2P Require Import Prelude Machine Num Tab Gc.

Definition delete_obj (g : global_State) (o : Z) : global_State := set_heap g (delete o (heap g)).
Definition set_openupval (th : lua_State) l := mkTh (th_stack th) (th_top th) (th_frames th) l (th_env th).

(** A new object, without a list. *)
Definition newobj (g : global_State) (a : Z) (b : GCbody) : global_State := set_heap g (<[a := mkObj (curwhite g) 0 b]> (heap g)).

(** ** Upvalues *)

Definition lj_func_freeuv (g : global_State) (uv : Z) (closed : bool) : global_State :=
  delete_obj (if negb closed then unlinkuv g uv else g) uv.

Definition open_slot (g : global_State) (uv : Z) : gres nat :=
  x ← obj_at g uv; match body x with BUpval false _ _ slot => Ok slot | _ => Err GC_UB end.

(** The upvalue for the slot, and the parts of the list before and after it or
    the place where it belongs. *)
Fixpoint finduv_loop (g : global_State) (slot : nat) (uvs : list Z) : gres (option Z * list Z * list Z) :=
  match uvs with
  | [] => Ok (None, [], [])
  | p :: uvs' =>
      s ← open_slot g p;
      if (slot <=? s)%nat then
        if (s =? slot)%nat then Ok (Some p, [], uvs)
        else '(r, pre, post) ← finduv_loop g slot uvs'; Ok (r, p :: pre, post)
      else Ok (None, [], uvs)
  end.

Definition func_finduv (g : global_State) (o : Z) (slot : nat) (a : Z) : gres (global_State * Z) :=
  th ← th_at g o;
  '(r, pre, post) ← finduv_loop g slot (th_openupval th);
  match r with
  | Some p =>
      x ← obj_at g p;
      Ok (if isdead g (marked x) then recolor g p flipwhite else g, p)
  | None =>
      let g := newobj g a (BUpval false Tnil o slot) in
      let g := put_th g o (set_openupval th (pre ++ a :: post)) in
      Ok (set_lists g (gc_root g) (a :: uvhead g), a)
  end.

Definition func_emptyuv (g : global_State) (a : Z) : global_State := lj_mem_newgco g a (BUpval true Tnil 0 0).

Fixpoint closeuv_loop (g : global_State) (level : nat) (uvs : list Z) : gres (global_State * list Z) :=
  match uvs with
  | [] => Ok (g, [])
  | uv :: uvs' =>
      s ← open_slot g uv;
      if (level <=? s)%nat then
        x ← obj_at g uv;
        g ← (if isdead g (marked x) then Ok (lj_func_freeuv g uv false) else lj_gc_closeuv (unlinkuv g uv) uv);
        closeuv_loop g level uvs'
      else Ok (g, uvs)
  end.

Definition lj_func_closeuv (g : global_State) (o : Z) (level : nat) : gres global_State :=
  th ← th_at g o;
  '(g, l) ← closeuv_loop g level (th_openupval th);
  th ← th_at g o;
  Ok (put_th g o (set_openupval th l)).

(** ** Functions *)

Definition PROTO_UV_LOCAL : Z := 0x8000.

(** [mem]: the contents of the new memory. *)
Definition lj_func_newC (g : global_State) (a env : Z) (mem : list TValue) : global_State := lj_mem_newgco g a (BFuncC env mem).

(** The upvalues are not counted before they are initialized. *)
Definition func_newL (g : global_State) (a pt env : Z) : global_State := lj_mem_newgco g a (BFuncL env pt []).

Definition proto_uv (g : global_State) (pt : Z) : gres (list Z) :=
  x ← obj_at g pt; match body x with BProto _ _ _ _ uv => Ok uv | _ => Err GC_UB end.

Definition set_uvptr (g : global_State) (fn env pt : Z) (l : list Z) : global_State := upd g fn (set_body (BFuncL env pt l)).

(** The address of the upvalue [i] is [addr i]. *)
Definition lj_func_newL_empty (g : global_State) (a : Z) (addr : nat -> Z) (pt env : Z) : gres global_State :=
  let g := func_newL g a pt env in
  uv ← proto_uv g pt;
  let l := addr <$> seq 0 (length uv) in
  Ok (set_uvptr (foldl func_emptyuv g l) a env pt l).

Fixpoint newL_gc_loop (g : global_State) (o : Z) (base : nat) (puv : list Z) (addr : nat -> Z) (i : nat) (uv : list Z) :
    gres (global_State * list Z) :=
  match uv with
  | [] => Ok (g, [])
  | v :: uv =>
      '(g, p) ← (if has v PROTO_UV_LOCAL then func_finduv g o (base + Z.to_nat (v .& 0xff)) (addr i)
                 else match puv !! Z.to_nat v with Some p => Ok (g, p) | None => Err GC_UB end);
      '(g, l) ← newL_gc_loop g o base puv addr (S i) uv;
      Ok (g, p :: l)
  end.

(** After the check of the collector; [o] is the running thread. *)
Definition lj_func_newL_gc (g : global_State) (o : Z) (base : nat) (a : Z) (addr : nat -> Z) (pt parent : Z) : gres global_State :=
  x ← obj_at g parent;
  match body x with
  | BFuncL env _ puv =>
      let g := func_newL g a pt env in
      uv ← proto_uv g pt;
      '(g, l) ← newL_gc_loop g o base puv addr 0 uv;
      Ok (set_uvptr g a env pt l)
  | _ => Err GC_UB
  end.

(** ** Userdata ([lj_udata.c]) and strings ([lj_str.c]) *)

Definition lj_udata_new (g : global_State) (a env : Z) : global_State :=
  set_udata (newobj g a (BUdata 0 env)) (a :: gc_udata g) (gc_mmudata g).

(** The object of a new string; its hash chain is the matter of [Strs]. *)
Definition new_str (g : global_State) (a : Z) (s : list Z) : global_State := newobj g a (BStr s).
