(* ===== verification/GcInv.v ===== *)
(** * The garbage collector: the tri-color invariant

    [shape] is what marking does not change: the contents of the objects, up
    to the negative metamethod caches and the unused parts of the stacks.
    [refs] are the references the collector follows, [wf] tells that they
    lead to objects of the right types, and [J] is the invariant of the mark
    phase: the gray objects are exactly those in the three lists, and no
    black object refers to a white one; white objects have the current white.

    [J] has two lists of exceptions: [X], the objects being traversed, and
    [U], the open upvalues whose values may be white, since nothing is done
    when a stack slot is written. *)

From S2P Require Import Prelude Machine Num Tab TabKey TabHash TabInv Buf Gc.

(** ** Colors *)

Lemma iswhite_bits m : iswhite m = Z.testbit m 0 || Z.testbit m 1.
Proof.
  unfold iswhite, has. change LJ_GC_WHITES with (Z.ones 2). rewrite Z.land_ones by lia.
  destruct (Z.eqb_spec (m mod 2 ^ 2) 0) as [E|E].
  - rewrite <- (Z.mod_pow2_bits_low m 2 0), <- (Z.mod_pow2_bits_low m 2 1), E by lia. done.
  - destruct (Z.testbit m 0) eqn:E0, (Z.testbit m 1) eqn:E1; try done.
    exfalso. apply E. apply Z.bits_inj'. intros n Hn. rewrite mod_pow2_testbit, Z.bits_0 by lia.
    destruct (Z.ltb_spec n 2); [|done]. by assert (n = 0 \/ n = 1) as [-> | ->] by lia.
Qed.

Lemma has_bit m k : 0 <= k -> has m (2 ^ k) = Z.testbit m k.
Proof.
  intros Hk. unfold has. destruct (Z.testbit m k) eqn:E.
  - destruct (Z.eqb_spec (m .& 2 ^ k) 0) as [E'|]; [|done].
    assert (Z.testbit (m .& 2 ^ k) k = false) by (by rewrite E', Z.bits_0).
    rewrite Z.land_spec, Z.pow2_bits_true, E in H by done. done.
  - destruct (Z.eqb_spec (m .& 2 ^ k) 0) as [|E']; [done|]. exfalso. apply E'.
    apply Z.bits_inj'. intros n Hn. rewrite Z.land_spec, Z.bits_0, Z.pow2_bits_eqb by done.
    destruct (Z.eqb_spec k n) as [<-|]; [by rewrite E | apply andb_false_r].
Qed.

Lemma isblack_bits m : isblack m = Z.testbit m 2.
Proof. apply (has_bit m 2). lia. Qed.

Lemma isgray_bits m : isgray m = negb (iswhite m) && negb (isblack m).
Proof.
  unfold isgray, has. rewrite negb_involutive. change (LJ_GC_BLACK .| LJ_GC_WHITES) with (Z.ones 3).
  rewrite Z.land_ones, iswhite_bits, isblack_bits by lia. destruct (Z.eqb_spec (m mod 2 ^ 3) 0) as [E|E].
  - rewrite <- (Z.mod_pow2_bits_low m 3 0), <- (Z.mod_pow2_bits_low m 3 1), <- (Z.mod_pow2_bits_low m 3 2), E by lia. done.
  - destruct (Z.testbit m 0) eqn:E0, (Z.testbit m 1) eqn:E1, (Z.testbit m 2) eqn:E2; try done.
    exfalso. apply E. apply Z.bits_inj'. intros n Hn. rewrite mod_pow2_testbit, Z.bits_0 by lia.
    destruct (Z.ltb_spec n 3); [|done]. by assert (n = 0 \/ n = 1 \/ n = 2) as [-> | [-> | ->]] by lia.
Qed.

#[local] Ltac colors :=
  unfold white2gray, gray2black, black2gray, markfinalized, makewhite, curwhite;
  rewrite ?iswhite_bits, ?isblack_bits;
  repeat match goal with |- context [currentwhite ?g] => generalize (currentwhite g); intro end; tbits;
  repeat match goal with |- context [Z.testbit ?m ?k] => is_var m; generalize (Z.testbit m k); intro end;
  cbv -[xorb andb orb negb]; btauto.

Lemma iswhite_white2gray m : iswhite (white2gray m) = false.
Proof. colors. Qed.
Lemma isblack_white2gray m : isblack (white2gray m) = isblack m.
Proof. colors. Qed.
Lemma iswhite_gray2black m : iswhite (gray2black m) = iswhite m.
Proof. colors. Qed.
Lemma isblack_gray2black m : isblack (gray2black m) = true.
Proof. colors. Qed.
Lemma iswhite_black2gray m : iswhite (black2gray m) = iswhite m.
Proof. colors. Qed.
Lemma isblack_black2gray m : isblack (black2gray m) = false.
Proof. colors. Qed.
Lemma iswhite_markfinalized m : iswhite (markfinalized m) = iswhite m.
Proof. colors. Qed.
Lemma isblack_markfinalized m : isblack (markfinalized m) = isblack m.
Proof. colors. Qed.
Lemma isblack_makewhite g m : isblack (makewhite g m) = false.
Proof. colors. Qed.

Lemma isdead_bits g m : isdead g m = Z.testbit m 0 && negb (Z.testbit (currentwhite g) 0) || Z.testbit m 1 && negb (Z.testbit (currentwhite g) 1).
Proof.
  transitivity (iswhite (m .& otherwhite g)).
  - unfold isdead, iswhite, has. by rewrite Z.land_assoc.
  - rewrite iswhite_bits. unfold otherwhite. rewrite !Z.land_spec, !Z.lxor_spec.
    change (Z.testbit LJ_GC_WHITES 0) with true. change (Z.testbit LJ_GC_WHITES 1) with true. by rewrite !xorb_true_r.
Qed.

#[local] Ltac dead :=
  rewrite !isdead_bits; unfold markfinalized, makewhite, curwhite, white2gray, flipwhite;
  repeat match goal with |- context [currentwhite ?g] => generalize (currentwhite g); intro end; tbits;
  repeat match goal with |- context [Z.testbit ?m ?k] => is_var m; generalize (Z.testbit m k); intro end;
  cbv -[xorb andb orb negb]; btauto.

Lemma isdead_markfinalized g m : isdead g (markfinalized m) = isdead g m.
Proof. dead. Qed.
Lemma isdead_makewhite g m : isdead g (makewhite g m) = false.
Proof. dead. Qed.
Lemma isdead_curwhite g : isdead g (curwhite g) = false.
Proof. dead. Qed.
Lemma isdead_notwhite g m : iswhite m = false -> isdead g m = false.
Proof. rewrite iswhite_bits, isdead_bits. by intros [-> ->]%orb_false_iff. Qed.

(** A white object that is not dead has the current white. *)
Lemma white_current g m : iswhite m = true -> isdead g m = false -> has m (curwhite g) = true.
Proof.
  intros W D. assert (has m (curwhite g) = iswhite (m .& currentwhite g)) as ->.
  { unfold curwhite, iswhite, has. by rewrite Z.land_assoc. }
  rewrite iswhite_bits, !Z.land_spec. rewrite iswhite_bits in W. rewrite isdead_bits in D.
  by destruct (Z.testbit m 0), (Z.testbit m 1), (Z.testbit (currentwhite g) 0), (Z.testbit (currentwhite g) 1).
Qed.

(** The current white is one of the two. *)
Definition one_white (g : global_State) : Prop := curwhite g = LJ_GC_WHITE0 \/ curwhite g = LJ_GC_WHITE1.

Lemma iswhite_curwhite g : one_white g -> iswhite (curwhite g) = true /\ isblack (curwhite g) = false.
Proof. by intros [-> | ->]. Qed.

Lemma one_white_bits g : one_white g -> Z.testbit (currentwhite g) 1 = negb (Z.testbit (currentwhite g) 0).
Proof.
  intros Hw. assert (forall n, 0 <= n < 2 -> Z.testbit (currentwhite g) n = Z.testbit (curwhite g) n) as Hc.
  { intros n Hn. unfold curwhite. rewrite Z.land_spec. change LJ_GC_WHITES with (Z.ones 2). rewrite Z.ones_spec_low by lia. by rewrite andb_true_r. }
  rewrite !Hc by lia. by destruct Hw as [-> | ->].
Qed.

Create Rewrite HintDb color.
#[export] Hint Rewrite iswhite_white2gray isblack_white2gray iswhite_gray2black isblack_gray2black
  iswhite_black2gray isblack_black2gray iswhite_markfinalized isblack_markfinalized isblack_makewhite : color.

(** ** Shapes and references *)

Section Inv.
Context `{TE : TabEnv}.

Definition norm (b : GCbody) : GCbody :=
  match b with
  | BTab t mt => BTab (set_nomm t 0) mt
  | BThread th => BThread (set_stack th (take (th_top th) (th_stack th)))
  | _ => b
  end.

Abbreviation shapes := (gmap Z GCbody).
Definition shape (g : global_State) : shapes := (fun x => norm (body x)) <$> heap g.

(** What marking does not change at all. *)
Definition rest (g : global_State) : global_State := set_weak (set_grayagain (set_gray (set_heap g empty) 0) 0) 0.

Definition tvref (tv : TValue) : list Z := if tvisgcv tv then [gcr tv] else [].
Definition optref (o : Z) : list Z := if negb (o =? 0) then [o] else [].

Section Refs.
Context (r : global_State) (S : shapes).

Definition trref (n : Z) : list Z := if negb (n =? 0) then option_list (jit_trace r !! n) else [].

(** The mode of a table with this metatable. *)
Definition str_mode (v : TValue) : Z :=
  if tvisstr v then match S !! gcr v with Some (BStr s) => mode_loop 0 s | _ => 0 end else 0.
Definition mode_of (mt : Z) : Z :=
  if negb (mt =? 0) then
    match S !! mt, gcroot r !! Z.to_nat MM_mode with
    | Some (BTab t _), Some name =>
        match lj_tab_getstr t name with Ok (Some v) => str_mode v | _ => 0 end
    | _, _ => 0
    end
  else 0.

Definition node_refs (weak : Z) (n : Node) : list Z :=
  if negb (tvisnil (val n)) then
    (if negb (has weak LJ_GC_WEAKKEY) then tvref (key n) else []) ++
    (if negb (has weak LJ_GC_WEAKVAL) then tvref (val n) else [])
  else [].
Definition tab_refs (weak : Z) (t : GCtab) : list Z :=
  (if negb (has weak LJ_GC_WEAKVAL) then flat_map tvref (tab_avals t) else []) ++
  flat_map (node_refs weak) (tab_hnodes t).

Definition uv_val (closed : bool) (tv : TValue) (th : Z) (slot : nat) : TValue :=
  if closed then tv else
    match S !! th with Some (BThread t) => default Tnil (th_stack t !! slot) | _ => Tnil end.

Definition trace_refs (T : GCtrace) : list Z :=
  if traceno T =? 0 then []
  else tr_kgc T ++ trref (tr_link T) ++ trref (tr_nextroot T) ++ trref (tr_nextside T) ++ [tr_startpt T].

(** The strong references of an object. *)
Definition refs (b : GCbody) : list Z :=
  match b with
  | BStr _ | BCdata => []
  | BUpval closed tv th slot => tvref (uv_val closed tv th slot)
  | BThread th =>
      flat_map tvref (take (th_top th - 1) (drop 1 (th_stack th))) ++ [th_env th] ++ (snd <$> th_frames th)
  | BProto chunkname kgc trace _ _ => [chunkname] ++ kgc ++ trref trace
  | BFuncL env pt uvptr => [env] ++ [pt] ++ uvptr
  | BFuncC env upvalue => [env] ++ flat_map tvref upvalue
  | BTrace T => trace_refs T
  | BTab t mt => optref mt ++ tab_refs (mode_of mt) t
  | BUdata mt env => optref mt ++ [env]
  end.

(** All references of an object, those of a weak table too; only the keys
    (or more) of a table with [K] in its mode do not count. *)
Definition held (b : GCbody) : list Z :=
  match b with
  | BTab t mt => optref mt ++ tab_refs (if 0 <? mode_of mt then 0 else mode_of mt) t
  | _ => refs b
  end.

(** *** Well-formed heaps *)

Definition live (o : Z) : Prop := is_Some (S !! o).
Definition typed (it o : Z) : Prop := exists b, S !! o = Some b /\ otype b = it.
Definition tv_ok (tv : TValue) : Prop :=
  tvisgcv tv = true -> typed (itype tv) (gcr tv) /\ itype tv <> LJ_TUPVAL.
Definition tr_ok (n : Z) : Prop := n = 0 \/ exists o, jit_trace r !! n = Some o /\ typed LJ_TTRACE o.
Definition mt_ok (mt : Z) : Prop := mt = 0 \/ typed LJ_TTAB mt.

Definition trace_ok (T : GCtrace) : Prop :=
  traceno T = 0 \/
  (Forall live (tr_kgc T) /\ tr_ok (tr_link T) /\ tr_ok (tr_nextroot T) /\ tr_ok (tr_nextside T) /\ live (tr_startpt T)).

Definition body_ok (b : GCbody) : Prop :=
  match b with
  | BStr _ | BCdata => True
  | BUpval true tv _ _ => tv_ok tv
  | BUpval false _ th slot => exists t, S !! th = Some (BThread t) /\ (1 <= slot < th_top t)%nat /\ (slot < length (th_stack t))%nat
  | BThread th =>
      (th_top th <= length (th_stack th))%nat /\ Forall tv_ok (drop 1 (th_stack th)) /\ typed LJ_TTAB (th_env th) /\
      Forall (fun f => typed LJ_TFUNC f.2 \/ typed LJ_TTHREAD f.2) (th_frames th)
  | BProto chunkname kgc trace _ _ => typed LJ_TSTR chunkname /\ Forall live kgc /\ tr_ok trace
  | BFuncL env pt uvptr => typed LJ_TTAB env /\ typed LJ_TPROTO pt /\ Forall (typed LJ_TUPVAL) uvptr
  | BFuncC env upvalue => typed LJ_TTAB env /\ Forall tv_ok upvalue
  | BTrace T => trace_ok T
  | BTab t mt =>
      mt_ok mt /\ wf_tab t /\ Forall tv_ok (tab_avals t) /\
      Forall (fun n => tvisnil (val n) = false -> tv_ok (key n) /\ tv_ok (val n)) (tab_hnodes t)
  | BUdata mt env => mt_ok mt /\ typed LJ_TTAB env
  end.

Definition is_open (b : GCbody) : bool := match b with BUpval false _ _ _ => true | _ => false end.

Record wf : Prop := {
  w_null : S !! 0 = None;
  w_body : forall o b, S !! o = Some b -> body_ok b;
  w_names : forall mm, mm = MM_gc \/ mm = MM_mode -> exists name, gcroot r !! Z.to_nat mm = Some name /\ is_u32 name;
  w_gcroot : Forall (fun o => o = 0 \/ live o) (gcroot r);
  w_main : typed LJ_TTHREAD (mainthread r);
  w_registry : tv_ok (registrytv r);
  w_strempty : typed LJ_TSTR (strempty r);
  w_cur : trace_ok (jit_cur r);
  w_uvhead : Forall (typed LJ_TUPVAL) (uvhead r);
  w_open : forall o b, S !! o = Some b -> is_open b = true -> o ∈ uvhead r;
  w_udata : Forall (typed LJ_TUDATA) (gc_udata r);
  w_mmudata : Forall (fun o => typed LJ_TUDATA o \/ typed LJ_TCDATA o) (gc_mmudata r)
}.

End Refs.

(** The negative metamethod caches are right. *)
Definition nomm_ok (r : global_State) (b : GCbody) : Prop :=
  match b with
  | BTab t _ => forall mm name, mm = MM_gc \/ mm = MM_mode -> has (nomm t) (1 << mm) = true ->
      gcroot r !! Z.to_nat mm = Some name -> exists mo, lj_tab_getstr t name = Ok mo /\ tvisnil (default Tnil mo) = true
  | _ => True
  end.

(** ** The invariant *)

Fixpoint chain (h : gmap Z GCobj) (o : Z) (l : list Z) : Prop :=
  match l with
  | [] => o = 0
  | p :: l => o = p /\ o <> 0 /\ exists x, h !! o = Some x /\ chain h (gclist x) l
  end.

(** Not white. *)
Definition nw (h : gmap Z GCobj) (o : Z) : Prop := exists x, h !! o = Some x /\ iswhite (marked x) = false.

Definition listable (b : GCbody) : bool :=
  match b with BThread _ | BProto _ _ _ _ _ | BFuncL _ _ _ | BFuncC _ _ | BTrace _ | BTab _ _ => true | _ => false end.
Definition blackable (b : GCbody) : bool :=
  match b with BStr _ | BCdata | BThread _ | BUpval false _ _ _ => false | _ => true end.
Definition grayable (b : GCbody) : bool :=
  match b with BUdata _ _ | BUpval true _ _ _ => false | _ => true end.

(** All strong references are to objects that are not white. *)
Definition done (r : global_State) (S : shapes) (h : gmap Z GCobj) (o : Z) : Prop :=
  exists b, S !! o = Some b /\ Forall (nw h) (refs r S b).
Definition hdone (r : global_State) (S : shapes) (h : gmap Z GCobj) (o : Z) : Prop :=
  exists b, S !! o = Some b /\ Forall (nw h) (held r S b).

Definition color_ok (r : global_State) (S : shapes) (h : gmap Z GCobj) (X U l : list Z) (ws : list Z) (o : Z) (x : GCobj) : Prop :=
  if iswhite (marked x) then isdead r (marked x) = false /\ isblack (marked x) = false /\ (o ∉ X) /\ (o ∉ l) /\ (o ∉ ws)
  else ((o ∈ X) /\ (o ∉ l)) \/
    ((o ∉ X) /\
     if isblack (marked x) then (o ∉ l) /\ (o ∉ ws) /\ blackable (body x) = true /\ hdone r S h o
     else grayable (body x) = true /\ (listable (body x) = true <-> (o ∈ l) \/ (o ∈ ws)) /\
          (is_open (body x) = true -> o ∉ U -> done r S h o)).

Record J (X U : list Z) (g : global_State) (gs ga ws : list Z) : Prop := {
  j_wf : wf (rest g) (shape g);
  j_nomm : forall o x, heap g !! o = Some x -> nomm_ok (rest g) (body x);
  j_gray : chain (heap g) (gc_gray g) gs;
  j_again : chain (heap g) (gc_grayagain g) ga;
  j_weak : chain (heap g) (gc_weak g) ws;
  j_nodup : NoDup (gs ++ ga ++ ws);
  j_color : forall o x, heap g !! o = Some x -> color_ok (rest g) (shape g) (heap g) X U (gs ++ ga) ws o x
}.

End Inv.

(** ** Changing one object *)

Section Step.
Context `{TE : TabEnv}.

Lemma shape_lookup g o : shape g !! o = (fun x => norm (body x)) <$> heap g !! o.
Proof. apply lookup_fmap. Qed.

Lemma shape_upd g o x x' : heap g !! o = Some x -> norm (body x') = norm (body x) ->
  (fun y => norm (body y)) <$> <[o := x']> (heap g) = shape g.
Proof.
  intros Hx E. rewrite fmap_insert, E. apply insert_id. by rewrite shape_lookup, Hx.
Qed.

Lemma chain_fun h l : forall a o x, chain h a l -> h !! o = Some x ->
  forall x', (o ∉ l) \/ gclist x' = gclist x -> chain (<[o := x']> h) a l.
Proof.
  induction l as [|p l IH]; intros a o x C Hx x' E; [done|].
  destruct C as (-> & Hp & y & Hy & C). split; [done|]. split; [done|].
  destruct (decide (o = p)) as [->|N].
  - rewrite lookup_insert_eq. exists x'. split; [done|]. assert (y = x) as -> by congruence.
    destruct E as [E|E]; [by exfalso; apply E; left|]. rewrite E. apply IH with x; auto.
  - rewrite lookup_insert_ne by done. exists y. split; [done|]. apply IH with x; auto.
    destruct E as [E|E]; [left|by right]. intros H. apply E. by right.
Qed.

Lemma chain_in h l : forall a o, chain h a l -> o ∈ l -> exists x, h !! o = Some x.
Proof.
  induction l as [|p l IH]; intros a o C H; [by apply elem_of_nil in H|].
  destruct C as (-> & _ & x & Hx & C). apply elem_of_cons in H as [->|H]; eauto.
Qed.

Lemma nw_upd h o x x' p : h !! o = Some x -> (iswhite (marked x) = false -> iswhite (marked x') = false) ->
  nw h p -> nw (<[o := x']> h) p.
Proof.
  intros Hx E (y & Hy & W). destruct (decide (o = p)) as [->|N].
  - exists x'. rewrite lookup_insert_eq. split; [done|]. apply E. congruence.
  - exists y. by rewrite lookup_insert_ne.
Qed.

Lemma done_mono r S h h' o : (forall p, nw h p -> nw h' p) -> done r S h o -> done r S h' o.
Proof. intros H (b & Hb & F). exists b. split; [done|]. eapply Forall_impl; [|exact F]; apply H. Qed.

Lemma hdone_mono r S h h' o : (forall p, nw h p -> nw h' p) -> hdone r S h o -> hdone r S h' o.
Proof. intros H (b & Hb & F). exists b. split; [done|]. eapply Forall_impl; [|exact F]; apply H. Qed.

Lemma color_ok_mono r S h h' X X' U l l' ws ws' o x :
  (forall p, nw h p -> nw h' p) -> (o ∈ X <-> o ∈ X') -> (o ∈ l <-> o ∈ l') -> (o ∈ ws <-> o ∈ ws') ->
  color_ok r S h X U l ws o x -> color_ok r S h' X' U l' ws' o x.
Proof.
  intros Hm HX Hl Hw. unfold color_ok.
  destruct (iswhite (marked x)); [tauto|].
  intros [H|[H1 H2]]; [left; tauto|right]. split; [tauto|].
  destruct (isblack (marked x)).
  - destruct H2 as (? & ? & ? & H2). apply (hdone_mono r S h h') in H2; tauto.
  - destruct H2 as (? & ? & H2). split; [done|]. split; [tauto|]. intros ? HU. by apply (done_mono r S h h'), H2.
Qed.

(** One object is replaced, and moved between the lists. *)
Lemma J_set X X' U g g' gs ga ws gs' ga' ws' o x x' :
  J X U g gs ga ws -> heap g !! o = Some x -> heap g' = <[o := x']> (heap g) -> rest g' = rest g ->
  norm (body x') = norm (body x) -> nomm_ok (rest g) (body x') ->
  (iswhite (marked x) = false -> iswhite (marked x') = false) ->
  chain (heap g') (gc_gray g') gs' -> chain (heap g') (gc_grayagain g') ga' -> chain (heap g') (gc_weak g') ws' ->
  NoDup (gs' ++ ga' ++ ws') ->
  (forall p, p <> o -> ((p ∈ X) <-> (p ∈ X')) /\ ((p ∈ gs ++ ga) <-> (p ∈ gs' ++ ga')) /\ ((p ∈ ws) <-> (p ∈ ws'))) ->
  color_ok (rest g) (shape g) (heap g') X' U (gs' ++ ga') ws' o x' ->
  J X' U g' gs' ga' ws'.
Proof.
  intros HJ Hx Hh Hr Hn Hnm Hw Hc1 Hc2 Hc3 Hnd Hl Hco.
  assert (shape g' = shape g) as Hs by (unfold shape at 1; rewrite Hh; by apply shape_upd with x).
  split; try done.
  - rewrite Hr, Hs. apply HJ.
  - rewrite Hr, Hh. intros p y Hy. destruct (decide (p = o)) as [->|N].
    + rewrite lookup_insert_eq in Hy. by injection Hy as <-.
    + rewrite lookup_insert_ne in Hy by done. by apply (j_nomm _ _ _ _ _ _ HJ) in Hy.
  - rewrite Hr, Hs. intros p y Hy. rewrite Hh in Hy. destruct (decide (p = o)) as [->|N].
    + rewrite lookup_insert_eq in Hy. by injection Hy as <-.
    + rewrite lookup_insert_ne in Hy by done. destruct (Hl p N) as (H1 & H2 & H3).
      eapply color_ok_mono; [..|apply (j_color _ _ _ _ _ _ HJ p y Hy)]; [|done..].
      intros q Hq. rewrite Hh. by apply nw_upd with x.
Qed.

End Step.
