(* ===== verification/GcMark.v ===== *)
(** * The garbage collector: marking keeps the invariant

    [mk] is what marking does to the state: shapes stay, objects that are not
    white keep their color, and the number of white objects plus the length
    of the gray list does not grow.  [marks] is the specification of the
    marking actions: whatever state of the given shape they start in, they
    succeed, keep the invariant and leave their targets not white. *)

From S2P Require Import Prelude Machine Num Tab TabKey TabHash TabInv Buf Gc GcInv.

Section Mark.
Context `{TE : TabEnv}.

(** ** Counting white objects *)

Definition is_white_at (p : Z * GCobj) : Prop := iswhite (marked p.2) = true.
#[local] Instance is_white_dec p : Decision (is_white_at p).
Proof. unfold is_white_at. apply _. Defined.
Definition whites (h : gmap Z GCobj) : gmap Z GCobj := filter is_white_at h.
Definition nwhite (g : global_State) : nat := size (whites (heap g)).

Lemma whites_mark h o x x' : h !! o = Some x -> iswhite (marked x) = true -> iswhite (marked x') = false ->
  S (size (whites (<[o := x']> h))) = size (whites h).
Proof.
  intros Hx W W'. unfold whites. rewrite map_filter_insert_False by (unfold is_white_at; cbn; congruence).
  rewrite map_filter_delete. assert (filter is_white_at h !! o = Some x) as E by by apply map_lookup_filter_Some.
  rewrite map_size_delete_Some by done. assert (size (filter is_white_at h) <> 0)%nat; [|lia].
  rewrite map_size_ne_0_lookup. eauto.
Qed.

Lemma whites_keep h o x x' : h !! o = Some x -> (iswhite (marked x) = false -> iswhite (marked x') = false) ->
  (size (whites (<[o := x']> h)) <= size (whites h))%nat.
Proof.
  intros Hx W. destruct (iswhite (marked x)) eqn:E, (iswhite (marked x')) eqn:E'.
  - unfold whites. rewrite map_filter_insert_True by done.
    rewrite map_size_insert_Some; [done|]. exists x. by apply map_lookup_filter_Some.
  - rewrite <- (whites_mark h o x x') by done. lia.
  - specialize (W eq_refl). congruence.
  - unfold whites. rewrite map_filter_insert_False by (unfold is_white_at; cbn; congruence).
    rewrite map_filter_delete, map_size_delete. destruct (filter is_white_at h !! o); cbn; lia.
Qed.

(** ** What marking does *)

Record mk (g : global_State) (gs : list Z) (g' : global_State) (gs' : list Z) : Prop := {
  mk_rest : rest g' = rest g;
  mk_shape : shape g' = shape g;
  mk_keep : forall o x, heap g !! o = Some x -> iswhite (marked x) = false ->
    exists x', heap g' !! o = Some x' /\ marked x' = marked x;
  mk_count : (nwhite g' + length gs' <= nwhite g + length gs)%nat
}.

Lemma mk_refl g gs : mk g gs g gs.
Proof. split; eauto. Qed.

Lemma mk_trans g gs g1 gs1 g2 gs2 : mk g gs g1 gs1 -> mk g1 gs1 g2 gs2 -> mk g gs g2 gs2.
Proof.
  intros [R1 S1 K1 C1] [R2 S2 K2 C2]. split; [congruence|congruence| |lia].
  intros o x Hx W. destruct (K1 o x Hx W) as (x1 & Hx1 & E1).
  destruct (K2 o x1 Hx1) as (x2 & Hx2 & E2); [congruence|]. exists x2. split; congruence.
Qed.

Lemma mk_nw g gs g' gs' o : mk g gs g' gs' -> nw (heap g) o -> nw (heap g') o.
Proof. intros M (x & Hx & W). destruct (mk_keep _ _ _ _ M o x Hx W) as (x' & Hx' & E). exists x'. split; congruence. Qed.

Lemma mk_done g gs g' gs' r S o : mk g gs g' gs' -> done r S (heap g) o -> done r S (heap g') o.
Proof. intros M. apply done_mono. intros p. by eapply mk_nw. Qed.

(** ** Single steps *)

Lemma alter_Some {A} (f : A -> A) (h : gmap Z A) o x : h !! o = Some x -> alter f o h = <[o := f x]> h.
Proof.
  intros Hx. apply map_eq. intros p. destruct (decide (p = o)) as [->|N].
  - by rewrite lookup_alter_eq, lookup_insert_eq, Hx.
  - by rewrite lookup_alter_ne, lookup_insert_ne.
Qed.

Lemma heap_upd g o f x : heap g !! o = Some x -> heap (upd g o f) = <[o := f x]> (heap g).
Proof. apply alter_Some. Qed.

Lemma rest_upd g o f : rest (upd g o f) = rest g.
Proof. done. Qed.

(** The object was white, or keeps its mark. *)
Lemma mk_upd g gs g' gs' o x x' :
  heap g !! o = Some x -> heap g' = <[o := x']> (heap g) -> rest g' = rest g -> norm (body x') = norm (body x) ->
  (iswhite (marked x) = false -> marked x' = marked x) ->
  (length gs' <= length gs \/ length gs' <= S (length gs) /\ iswhite (marked x) = true /\ iswhite (marked x') = false)%nat ->
  mk g gs g' gs'.
Proof.
  intros Hx Hh Hr Hn Hk Hc. split; [done|by unfold shape at 1; rewrite Hh; apply shape_upd with x| |].
  - intros p y Hy W. rewrite Hh. destruct (decide (p = o)) as [->|N].
    + rewrite lookup_insert_eq. exists x'. split; [done|]. assert (y = x) as -> by congruence. by apply Hk.
    + rewrite lookup_insert_ne by done. eauto.
  - unfold nwhite. rewrite Hh. destruct Hc as [Hc|(Hc & W & W')].
    + assert (size (whites (<[o := x']> (heap g))) <= size (whites (heap g)))%nat; [|lia].
      apply whites_keep with x; [done|]. intros W. by rewrite Hk.
    + rewrite <- (whites_mark (heap g) o x x') by done. lia.
Qed.

(** An object that was white at the start is changed once more. *)
Lemma mk_again g gs g1 gs1 o x x1 f :
  mk g gs g1 gs1 -> heap g !! o = Some x -> iswhite (marked x) = true ->
  heap g1 !! o = Some x1 -> iswhite (marked x1) = false -> iswhite (f (marked x1)) = false -> mk g gs (recolor g1 o f) gs1.
Proof.
  intros [R S K C] Hx W Hx1 W1 W1'. pose proof (heap_upd g1 o (set_marked f) x1 Hx1) as Hh. fold (recolor g1 o f) in Hh.
  split; [done|rewrite <- S; unfold shape at 1; rewrite Hh; by apply shape_upd with x1| |].
  - intros p y Hy Wy. rewrite Hh. destruct (decide (p = o)) as [->|N]; [congruence|].
    rewrite lookup_insert_ne by done. eauto.
  - unfold nwhite in *. rewrite Hh.
    assert (size (whites (<[o := set_marked f x1]> (heap g1))) <= size (whites (heap g1)))%nat; [|lia].
    by apply whites_keep with x1.
Qed.

Lemma J_recolor X X' U g gs ga ws o x f :
  J X U g gs ga ws -> heap g !! o = Some x -> (iswhite (marked x) = false -> iswhite (f (marked x)) = false) ->
  (forall p, p <> o -> (p ∈ X) <-> (p ∈ X')) ->
  color_ok (rest g) (shape g) (heap (recolor g o f)) X' U (gs ++ ga) ws o (set_marked f x) ->
  J X' U (recolor g o f) gs ga ws.
Proof.
  intros HJ Hx W HX Hc. pose proof (heap_upd g o (set_marked f) x Hx) as Hh. fold (recolor g o f) in Hh.
  eapply J_set with (X := X) (x := x) (o := o); eauto; try apply HJ.
  - apply (j_nomm _ _ _ _ _ _ HJ o x Hx).
  - rewrite Hh. apply chain_fun with x; [apply HJ|done|by right].
  - rewrite Hh. apply chain_fun with x; [apply HJ|done|by right].
  - rewrite Hh. apply chain_fun with x; [apply HJ|done|by right].
Qed.

(** A white object in no list is marked, and looked after for the time being. *)
Lemma J_white X U g gs ga ws o x : J X U g gs ga ws -> heap g !! o = Some x -> iswhite (marked x) = true ->
  isblack (marked x) = false /\ (o ∉ X) /\ (o ∉ gs ++ ga) /\ (o ∉ ws).
Proof. intros HJ Hx W. pose proof (j_color _ _ _ _ _ _ HJ o x Hx) as C. unfold color_ok in C. rewrite W in C. tauto. Qed.

Lemma J_exempt X U g gs ga ws o x f :
  J X U g gs ga ws -> heap g !! o = Some x -> iswhite (f (marked x)) = false -> (o ∉ gs ++ ga) ->
  J (o :: X) U (recolor g o f) gs ga ws.
Proof.
  intros HJ Hx W Hl. apply J_recolor with (X := X) (x := x); try done.
  - intros p Hp. rewrite elem_of_cons. tauto.
  - unfold color_ok. cbn [set_marked marked]. rewrite W. left. split; [by left|done].
Qed.

(** *** Strings and cdata, and objects pushed on the gray list *)

Lemma J_mark_leaf X U g gs ga ws o x :
  J X U g gs ga ws -> heap g !! o = Some x -> listable (body x) = false -> grayable (body x) = true ->
  is_open (body x) = false -> iswhite (marked x) = true \/ (o ∉ X) ->
  J X U (recolor g o white2gray) gs ga ws.
Proof.
  intros HJ Hx Hl Hg Ho Hw. pose proof (j_color _ _ _ _ _ _ HJ o x Hx) as C. unfold color_ok in C.
  apply J_recolor with (X := X) (x := x); try done.
  - intros. autorewrite with color. done.
  - unfold color_ok. cbn [set_marked marked body]. autorewrite with color. right.
    rewrite Hg, Hl, Ho. destruct (iswhite (marked x)).
    + destruct C as (_ & -> & HX & H1 & H2). repeat split; try done. intros [?|?]; done.
    + destruct Hw as [|Hw]; [done|]. split; [done|]. destruct C as [[? _]|[_ C]]; [done|].
      destruct (isblack (marked x)).
      * destruct C as (_ & _ & Hb & _). by destruct (body x) as [|[]| | | | | | | |].
      * rewrite Hl in C. destruct C as (_ & C & _). by split.
Qed.

Lemma J_push X U g gs ga ws o x :
  J X U g gs ga ws -> heap g !! o = Some x -> listable (body x) = true -> iswhite (marked x) = true ->
  J X U (push_gray (recolor g o white2gray) o) (o :: gs) ga ws.
Proof.
  intros HJ Hx Hl W. destruct (J_white _ _ _ _ _ _ _ _ HJ Hx W) as (B & HX & Hg & Hw).
  pose proof (heap_upd g o (set_marked white2gray) x Hx) as H1. fold (recolor g o white2gray) in H1.
  assert (heap (push_gray (recolor g o white2gray) o) = <[o := set_gclist (gc_gray g) (set_marked white2gray x)]> (heap g)) as Hh.
  { unfold push_gray. cbn [set_gray heap]. rewrite heap_upd with (x := set_marked white2gray x).
    - rewrite H1. apply insert_insert_eq.
    - rewrite H1. apply lookup_insert_eq. }
  assert (o <> 0) as Ho. { intros ->. pose proof (w_null _ _ (j_wf _ _ _ _ _ _ HJ)) as N. by rewrite shape_lookup, Hx in N. }
  rewrite elem_of_app in Hg.
  eapply J_set with (X := X) (x := x) (o := o); try done.
  - apply (j_nomm _ _ _ _ _ _ HJ o x Hx).
  - intros. cbn. autorewrite with color. done.
  - rewrite Hh. split; [done|]. split; [done|]. eexists. split; [apply lookup_insert_eq|].
    apply chain_fun with x; [apply HJ|done|left; tauto].
  - rewrite Hh. apply chain_fun with x; [apply HJ|done|left; tauto].
  - rewrite Hh. apply chain_fun with x; [apply HJ|done|left; tauto].
  - cbn. apply NoDup_cons_2; [|apply HJ]. rewrite !elem_of_app. tauto.
  - intros p Hp. cbn. rewrite elem_of_cons. tauto.
  - unfold color_ok. cbn [set_gclist set_marked marked body]. autorewrite with color. rewrite B, Hl. right.
    split; [done|]. split; [by destruct (body x)|]. split; [|by destruct (body x)].
    split; [intros _; left; cbn; by left|done].
Qed.

(** *** Objects being traversed *)

Lemma J_change X X' U g gs ga ws o x :
  J X U g gs ga ws -> heap g !! o = Some x -> (forall p, p <> o -> (p ∈ X) <-> (p ∈ X')) ->
  color_ok (rest g) (shape g) (heap g) X' U (gs ++ ga) ws o x -> J X' U g gs ga ws.
Proof.
  intros HJ Hx HX Hc. split; try apply HJ. intros p y Hy. destruct (decide (p = o)) as [->|N].
  - by assert (y = x) as -> by congruence.
  - eapply color_ok_mono; [..|apply (j_color _ _ _ _ _ _ HJ p y Hy)]; try done. by apply HX.
Qed.

Lemma J_exempt_lists X U g gs ga ws o : J (o :: X) U g gs ga ws -> nw (heap g) o -> (o ∉ gs ++ ga).
Proof.
  intros HJ (x & Hx & W). pose proof (j_color _ _ _ _ _ _ HJ o x Hx) as C. unfold color_ok in C. rewrite W in C.
  destruct C as [[_ C]|[C _]]; [done|]. exfalso. apply C. by left.
Qed.

Lemma J_release_black X U g gs ga ws o x f :
  J (o :: X) U g gs ga ws -> (o ∉ X) -> (o ∉ ws) -> heap g !! o = Some x -> iswhite (marked x) = false ->
  iswhite (f (marked x)) = false -> isblack (f (marked x)) = true ->
  blackable (body x) = true -> hdone (rest g) (shape g) (heap g) o -> J X U (recolor g o f) gs ga ws.
Proof.
  intros HJ HX Hw Hx W W' B Hb Hd. apply J_recolor with (X := o :: X) (x := x); try done.
  - intros p Hp. rewrite elem_of_cons. tauto.
  - unfold color_ok. cbn [set_marked marked body]. rewrite W', B. right. split; [done|].
    split; [by apply J_exempt_lists with X U g ws; [|exists x]|]. split; [done|]. split; [done|].
    eapply hdone_mono; [|exact Hd]. intros p Hp. unfold recolor. rewrite heap_upd with (x := x) by done.
    apply nw_upd with x; try done.
Qed.

Lemma recolor_recolor g o f f' : recolor (recolor g o f) o f' = recolor g o (fun m => f' (f m)).
Proof. unfold recolor, upd. cbn [set_heap heap]. by rewrite alter_alter_eq. Qed.

Lemma recolor_keep g o x f : heap g !! o = Some x -> f (marked x) = marked x -> recolor g o f = g.
Proof.
  intros Hx E. unfold recolor, upd. rewrite alter_id; [by destruct g|].
  intros y Hy. assert (y = x) as -> by congruence. unfold set_marked. rewrite E. by destruct x.
Qed.

(** ** Marking actions *)

Section Marks.
Context (r : global_State) (S : gmap Z GCbody).

Definition marks (F : global_State -> gres global_State) (ts : list Z) : Prop :=
  forall X U g gs ga ws, rest g = r -> shape g = S -> J X U g gs ga ws ->
  exists g' gs', F g = Ok g' /\ J X U g' gs' ga ws /\ mk g gs g' gs' /\ Forall (nw (heap g')) ts.

Lemma marks_ret : marks (fun g => Ok g) [].
Proof. intros X U g gs ga ws _ _ HJ. exists g, gs. by split_and!; [done|done|apply mk_refl|]. Qed.

Lemma marks_bind F G ts us : marks F ts -> marks G us -> marks (fun g => g ← F g; G g) (ts ++ us).
Proof.
  intros HF HG X U g gs ga ws Hr HS HJ. destruct (HF _ _ _ _ _ _ Hr HS HJ) as (g1 & gs1 & E1 & J1 & M1 & N1).
  destruct (HG X U g1 gs1 ga ws) as (g2 & gs2 & E2 & J2 & M2 & N2).
  { by rewrite (mk_rest _ _ _ _ M1). } { by rewrite (mk_shape _ _ _ _ M1). } { done. }
  exists g2, gs2. split; [cbn; by rewrite E1|]. split; [done|]. split; [by apply mk_trans with g1 gs1|].
  apply Forall_app. split; [|done]. eapply Forall_impl; [|exact N1]. intros o. by apply mk_nw with gs1 gs2.
Qed.

Lemma marks_ext F G ts us : (forall g, rest g = r -> shape g = S -> F g = G g) -> ts = us -> marks F ts -> marks G us.
Proof.
  intros E <- H X U g gs ga ws Hr HS HJ. destruct (H _ _ _ _ _ _ Hr HS HJ) as (g' & gs' & E' & ?).
  exists g', gs'. by rewrite <- E.
Qed.

Lemma marks_if (b : bool) F ts : (b = true -> marks F ts) -> marks (fun g => if b then F g else Ok g) (if b then ts else []).
Proof. destruct b; intros H; [by apply H|apply marks_ret]. Qed.

Lemma marks_gfold {A} (f : global_State -> A -> gres global_State) (ts : A -> list Z) l :
  Forall (fun a => marks (fun g => f g a) (ts a)) l -> marks (fun g => gfold f g l) (flat_map ts l).
Proof.
  induction 1 as [|a l Ha _ IH]; [apply marks_ret|]. cbn [gfold flat_map].
  by apply (marks_bind (fun g => f g a) (fun g => gfold f g l)).
Qed.

(** *** Marking one object *)

Definition markobj (f : nat) (g : global_State) (o : Z) : gres global_State :=
  x ← obj_at g o; if iswhite (marked x) then gc_mark f g o else Ok g.
Definition marktv (f : nat) (g : global_State) (tv : TValue) : gres global_State :=
  if tvisgcv tv then markobj f g (gcr tv) else Ok g.

Lemma obj_at_ok g o x : heap g !! o = Some x -> obj_at g o = Ok x.
Proof. unfold obj_at. by intros ->. Qed.

Lemma gc_mark_S f g o x : heap g !! o = Some x ->
  gc_mark (Datatypes.S f) g o =
    let g := recolor g o white2gray in
    match body x with
    | BUdata mt env =>
        let g := recolor g o gray2black in
        g ← (if negb (mt =? 0) then markobj f g mt else Ok g); markobj f g env
    | BUpval closed tv th slot =>
        v ← (if closed then Ok tv else stack_at g th slot);
        g ← marktv f g v;
        Ok (if closed then recolor g o gray2black else g)
    | BStr _ | BCdata => Ok g
    | _ => Ok (push_gray g o)
    end.
Proof. intros Hx. cbn [gc_mark]. by rewrite (obj_at_ok _ _ _ Hx). Qed.

(** Marking the white object [o] with fuel [f]. *)
Definition markable (f : nat) (o : Z) : Prop :=
  forall X U g gs ga ws x, rest g = r -> shape g = S -> J X U g gs ga ws ->
  heap g !! o = Some x -> iswhite (marked x) = true ->
  exists g' gs', gc_mark f g o = Ok g' /\ J X U g' gs' ga ws /\ mk g gs g' gs' /\ nw (heap g') o.

Lemma live_heap g o : shape g = S -> live S o -> exists x, heap g !! o = Some x /\ S !! o = Some (norm (body x)).
Proof. intros <- (b & Hb). rewrite shape_lookup in *. destruct (heap g !! o) as [x|]; [by exists x|done]. Qed.

Lemma marks_markobj f o : live S o -> markable f o -> marks (fun g => markobj f g o) [o].
Proof.
  intros Ho Hm X U g gs ga ws Hr HS HJ. destruct (live_heap g o HS Ho) as (x & Hx & _).
  unfold markobj, obj_at. rewrite Hx. cbn [mbind res_bind]. destruct (iswhite (marked x)) eqn:W.
  - destruct (Hm _ _ _ _ _ _ _ Hr HS HJ Hx W) as (g' & gs' & E & J' & M & N). exists g', gs'. auto.
  - exists g, gs. split_and!; [done|done|apply mk_refl|]. constructor; [by exists x|done].
Qed.

Lemma marks_marktv f tv : (tvisgcv tv = true -> live S (gcr tv) /\ markable f (gcr tv)) -> marks (fun g => marktv f g tv) (tvref tv).
Proof. intros H. unfold marktv, tvref. apply marks_if. intros E. by apply marks_markobj; apply H. Qed.

Lemma norm_inv g o x b : shape g = S -> S !! o = Some b -> heap g !! o = Some x -> norm (body x) = b.
Proof. intros <- Hb Hx. rewrite shape_lookup, Hx in Hb. by injection Hb. Qed.

Lemma mark_leaf f o b : S !! o = Some b -> grayable b = true -> is_open b = false -> markable (Datatypes.S f) o.
Proof.
  intros Hb Hg Ho X U g gs ga ws y Hr HSg HJ Hy W. rewrite (gc_mark_S _ _ _ _ Hy).
  pose proof (norm_inv g o y b HSg Hb Hy) as <-.
  assert (grayable (body y) = true) as Hg' by (by destruct (body y) as [|[]| | | | | | | |]).
  assert (is_open (body y) = false) as Ho' by (by destruct (body y) as [|[]| | | | | | | |]).
  destruct (listable (body y)) eqn:Hl.
  - exists (push_gray (recolor g o white2gray) o), (o :: gs).
    split; [by destruct (body y)|]. split; [by apply J_push with y|]. pose proof (heap_upd g o (set_marked white2gray) y Hy) as H1.
    fold (recolor g o white2gray) in H1.
    assert (heap (push_gray (recolor g o white2gray) o) = <[o := set_gclist (gc_gray g) (set_marked white2gray y)]> (heap g)) as Hh.
    { unfold push_gray. cbn [set_gray heap]. rewrite heap_upd with (x := set_marked white2gray y).
      - rewrite H1. apply insert_insert_eq.
      - rewrite H1. apply lookup_insert_eq. }
    split.
    + eapply mk_upd; [exact Hy|exact Hh|done|done|congruence|]. right. cbn. autorewrite with color. by split.
    + eexists. rewrite Hh, lookup_insert_eq. split; [done|]. cbn. by autorewrite with color.
  - exists (recolor g o white2gray), gs. split; [by destruct (body y) as [|[]| | | | | | | |]|].
    split; [apply J_mark_leaf with y; auto|]. split.
    + eapply mk_upd; [exact Hy|by apply heap_upd|done|done|congruence|by left].
    + eexists. unfold recolor. rewrite heap_upd with (x := y) by done. rewrite lookup_insert_eq. split; [done|].
      cbn. by autorewrite with color.
Qed.

Lemma mark_typed f it o : typed S it o -> it <> LJ_TUPVAL -> it <> LJ_TUDATA -> markable (Datatypes.S f) o.
Proof. intros (b & Hb & <-) Hu Hd. by apply mark_leaf with b; destruct b as [|[]| | | | | | | |]. Qed.

Lemma typed_live it o : typed S it o -> live S o.
Proof. intros (b & Hb & _). by exists b. Qed.

Lemma marks_typed f it o : typed S it o -> it <> LJ_TUPVAL -> it <> LJ_TUDATA -> marks (fun g => markobj (Datatypes.S f) g o) [o].
Proof. intros H Hu Hd. apply marks_markobj; [by apply typed_live in H|by apply mark_typed with it]. Qed.

(** *** Userdata and upvalues *)

(** What a userdata that has been turned black refers to. *)
Lemma udata_children f o mt env X U g gs ga ws x :
  rest g = r -> shape g = S -> S !! o = Some (BUdata mt env) -> J (o :: X) U g gs ga ws -> (o ∉ X) -> (o ∉ ws) ->
  heap g !! o = Some x -> iswhite (marked x) = false -> isblack (marked x) = true ->
  exists g' gs', (g ← (if negb (mt =? 0) then markobj (Datatypes.S f) g mt else Ok g); markobj (Datatypes.S f) g env) = Ok g' /\
    J X U g' gs' ga ws /\ mk g gs g' gs' /\ nw (heap g') o.
Proof.
  intros Hr HS Hb HJ HX Hw Hx W B. pose proof (j_wf _ _ _ _ _ _ HJ) as Wf. rewrite Hr, HS in Wf.
  pose proof (w_body _ _ Wf o _ Hb) as (Hmt & Henv).
  assert (marks (fun g => g ← (if negb (mt =? 0) then markobj (Datatypes.S f) g mt else Ok g); markobj (Datatypes.S f) g env)
            (optref mt ++ [env])) as HM.
  { apply (marks_bind (fun g => if negb (mt =? 0) then markobj (Datatypes.S f) g mt else Ok g)).
    - unfold optref. apply (marks_if (negb (mt =? 0)) (fun g => markobj (Datatypes.S f) g mt)). intros E.
      destruct Hmt as [->|Hmt]; [done|]. by apply marks_typed with LJ_TTAB.
    - by apply marks_typed with LJ_TTAB. }
  destruct (HM (o :: X) U g gs ga ws Hr HS HJ) as (g2 & gs2 & E2 & J2 & M2 & N2).
  destruct (mk_keep _ _ _ _ M2 o x Hx W) as (x2 & Hx2 & Em).
  assert (rest g2 = r) as Hr2 by by rewrite (mk_rest _ _ _ _ M2).
  assert (shape g2 = S) as HS2 by by rewrite (mk_shape _ _ _ _ M2).
  exists g2, gs2. split; [done|]. split; [|split; [done|exists x2; by rewrite Em]].
  rewrite <- (recolor_keep g2 o x2 id) by done.
  apply J_release_black with x2; try done; unfold id; rewrite ?Em; try done.
  - pose proof (norm_inv g2 o x2 _ HS2 Hb Hx2) as Hn2. by destruct (body x2).
  - rewrite Hr2, HS2. by exists (BUdata mt env).
Qed.

Lemma mark_udata f o mt env : S !! o = Some (BUdata mt env) -> markable (Datatypes.S (Datatypes.S f)) o.
Proof.
  intros Hb X U g gs ga ws x Hr HS HJ Hx W. pose proof (norm_inv g o x _ HS Hb Hx) as Hn.
  assert (body x = BUdata mt env) as Hbx by (by destruct (body x)).
  destruct (J_white _ _ _ _ _ _ _ _ HJ Hx W) as (B & HX & Hl & Hw).
  set (g1 := recolor g o (fun m => gray2black (white2gray m))).
  assert (heap g1 = <[o := set_marked (fun m => gray2black (white2gray m)) x]> (heap g)) as Hh by by apply heap_upd.
  assert (J (o :: X) U g1 gs ga ws) as J1 by (apply J_exempt with x; try done; by autorewrite with color).
  assert (mk g gs g1 gs) as M1 by (eapply mk_upd; [exact Hx|exact Hh|done|done|congruence|by left]).
  destruct (udata_children f o mt env X U g1 gs ga ws (set_marked (fun m => gray2black (white2gray m)) x))
    as (g2 & gs2 & E2 & J2 & M2 & N2); try done; try (cbn; by autorewrite with color).
  - by rewrite (mk_shape _ _ _ _ M1).
  - rewrite Hh. apply lookup_insert_eq.
  - exists g2, gs2. split_and!; [|done|by apply mk_trans with g1 gs|done].
    rewrite (gc_mark_S _ _ _ _ Hx), Hbx. cbv zeta. rewrite recolor_recolor. exact E2.
Qed.

Lemma tv_markable f tv : tv_ok S tv -> wf r S -> tvisgcv tv = true -> live S (gcr tv) /\ markable (Datatypes.S (Datatypes.S f)) (gcr tv).
Proof.
  intros Htv Wf E. destruct (Htv E) as ((b & Hb & Hi) & N). split; [by exists b|].
  destruct (decide (itype tv = LJ_TUDATA)) as [Hd|Hd].
  - destruct b as [| | | | | | | | |mt env]; try (exfalso; rewrite <- Hi in Hd; discriminate Hd). by apply mark_udata with mt env.
  - apply mark_typed with (itype tv); [by exists b|done|done].
Qed.

Lemma th_at_ok g th t : shape g = S -> S !! th = Some (BThread t) ->
  exists t', th_at g th = Ok t' /\ set_stack t' (take (th_top t') (th_stack t')) = t.
Proof.
  intros HS Hb. destruct (live_heap g th HS) as (x & Hx & Hn); [by exists (BThread t)|].
  unfold th_at. rewrite (obj_at_ok _ _ _ Hx). rewrite Hb in Hn. injection Hn as Hn. cbn. destruct (body x); try done.
  eexists. split; [done|]. by injection Hn as ->.
Qed.

Lemma stack_at_ok g th t slot : shape g = S -> S !! th = Some (BThread t) -> (slot < length (th_stack t))%nat ->
  stack_at g th slot = Ok (default Tnil (th_stack t !! slot)).
Proof.
  intros HS Hb Hl. destruct (th_at_ok g th t HS Hb) as (t' & E & <-). unfold stack_at. rewrite E. cbn in Hl |- *.
  destruct (lookup_lt_is_Some_2 _ _ Hl) as (v & Hv). rewrite Hv.
  rewrite lookup_take_lt in Hv by (rewrite length_take in Hl; lia). by rewrite Hv.
Qed.

Definition uvval (g : global_State) (closed : bool) (tv : TValue) (th : Z) (slot : nat) : gres TValue :=
  if closed then Ok tv else stack_at g th slot.

Lemma uvval_ok g o closed tv th slot : shape g = S -> wf r S -> S !! o = Some (BUpval closed tv th slot) ->
  uvval g closed tv th slot = Ok (uv_val S closed tv th slot) /\ tv_ok S (uv_val S closed tv th slot).
Proof.
  intros HS Wf Hb. pose proof (w_body _ _ Wf o _ Hb) as Hok. destruct closed; [by split|].
  destruct Hok as (t & Ht & Hslot & Hlen). cbn. rewrite Ht. split; [by apply stack_at_ok|].
  destruct (w_body _ _ Wf th _ Ht) as (_ & Hs & _). destruct (lookup_lt_is_Some_2 _ _ Hlen) as (v & Hv). rewrite Hv. cbn.
  rewrite Forall_lookup in Hs. apply (Hs (slot - 1)%nat). rewrite lookup_drop. by replace (1 + (slot - 1))%nat with slot by lia.
Qed.

Lemma mark_upval f o closed tv th slot : S !! o = Some (BUpval closed tv th slot) ->
  markable (Datatypes.S (Datatypes.S (Datatypes.S f))) o.
Proof.
  intros Hb X U g gs ga ws x Hr HS HJ Hx W. pose proof (norm_inv g o x _ HS Hb Hx) as Hn.
  assert (body x = BUpval closed tv th slot) as Hbx by (by destruct (body x)).
  destruct (J_white _ _ _ _ _ _ _ _ HJ Hx W) as (B & HX & Hl & Hw).
  set (g1 := recolor g o white2gray).
  assert (heap g1 = <[o := set_marked white2gray x]> (heap g)) as Hh by by apply heap_upd.
  assert (J (o :: X) U g1 gs ga ws) as J1 by (apply J_exempt with x; try done; by autorewrite with color).
  assert (mk g gs g1 gs) as M1 by (eapply mk_upd; [exact Hx|exact Hh|done|done|congruence|by left]).
  assert (shape g1 = S) as HS1 by by rewrite (mk_shape _ _ _ _ M1).
  pose proof (j_wf _ _ _ _ _ _ HJ) as Wf. rewrite Hr, HS in Wf.
  destruct (uvval_ok g1 o _ _ _ _ HS1 Wf Hb) as (Ev & Hv). set (v := uv_val S closed tv th slot) in *.
  destruct (marks_marktv (Datatypes.S (Datatypes.S f)) v (tv_markable f v Hv Wf) (o :: X) U g1 gs ga ws Hr HS1 J1)
    as (g2 & gs2 & E2 & J2 & M2 & N2).
  destruct (mk_keep _ _ _ _ M2 o (set_marked white2gray x)) as (x2 & Hx2 & Em);
    [rewrite Hh; apply lookup_insert_eq|cbn; by autorewrite with color|cbn in Em].
  assert (rest g2 = r) as Hr2 by by rewrite (mk_rest _ _ _ _ M2).
  assert (shape g2 = S) as HS2 by by rewrite (mk_shape _ _ _ _ M2).
  assert (body x2 = BUpval closed tv th slot) as Hbx2.
  { pose proof (norm_inv g2 o x2 _ HS2 Hb Hx2). by destruct (body x2). }
  assert (done r S (heap g2) o) as Hd by by exists (BUpval closed tv th slot).
  assert (gc_mark (Datatypes.S (Datatypes.S (Datatypes.S f))) g o = Ok (if closed then recolor g2 o gray2black else g2)) as Eg.
  { rewrite (gc_mark_S _ _ _ _ Hx), Hbx. cbv zeta. fold g1. fold (uvval g1 closed tv th slot). rewrite Ev. cbn [mbind res_bind].
    by rewrite E2. }
  assert (mk g gs g2 gs2) as M by by apply mk_trans with g1 gs.
  destruct closed.
  - exists (recolor g2 o gray2black), gs2. split_and!; [done| | |].
    + apply J_release_black with x2; rewrite ?Em, ?Hbx2, ?Hr2, ?HS2; try done; try (by autorewrite with color).
      by exists (BUpval true tv th slot).
    + apply mk_again with x x2; rewrite ?Em; try done; by autorewrite with color.
    + eexists. unfold recolor. rewrite heap_upd with (x := x2), lookup_insert_eq by done. split; [done|].
      cbn. rewrite Em. by autorewrite with color.
  - exists g2, gs2. split_and!; [done| |done|].
    + apply J_change with (o :: X) o x2; try done.
      * intros p Hp. rewrite elem_of_cons. tauto.
      * unfold color_ok. rewrite Em, Hbx2, Hr2, HS2. autorewrite with color. rewrite B. right. split; [done|]. split; [done|].
        split; [|done]. split; [done|]. intros [H|H]; [|done].
        exfalso. revert H. apply J_exempt_lists with X U g2 ws; [done|]. exists x2. rewrite Em. by autorewrite with color.
    + exists x2. rewrite Em. by autorewrite with color.
Qed.

Lemma live_markable o : live S o -> markable mark_depth o.
Proof.
  intros (b & Hb). destruct b as [|closed tv th slot| | | | | | | |mt env].
  1,3-9: by eapply mark_typed; [eexists; split; [exact Hb|reflexivity]|..].
  - by apply mark_upval with closed tv th slot.
  - by apply mark_udata with mt env.
Qed.

Lemma marks_obj o : live S o -> marks (fun g => gc_markobj g o) [o].
Proof. intros H. by apply (marks_markobj mark_depth), live_markable. Qed.

Lemma marks_tv tv : tv_ok S tv -> marks (fun g => gc_marktv g tv) (tvref tv).
Proof.
  intros H. apply (marks_marktv mark_depth). intros E. destruct (H E) as (Ht & _).
  apply typed_live in Ht. split; [done|by apply live_markable].
Qed.

Lemma marks_ref o : o = 0 \/ live S o -> marks (fun g => gc_markref g o) (optref o).
Proof.
  intros H. unfold gc_markref, optref. apply (marks_if (negb (o =? 0)) (fun g => gc_markobj g o)).
  intros E. destruct H as [->|H]; [done|by apply marks_obj].
Qed.

Lemma marks_objs l : Forall (live S) l -> marks (fun g => gfold gc_markobj g l) l.
Proof.
  intros H. apply marks_ext with (F := fun g => gfold gc_markobj g l) (ts := flat_map (fun o => [o]) l); [done| |].
  - clear. induction l; cbn; congruence.
  - apply marks_gfold. eapply Forall_impl; [|exact H]. intros o. apply marks_obj.
Qed.

Lemma marks_tvs l : Forall (tv_ok S) l -> marks (fun g => gfold gc_marktv g l) (flat_map tvref l).
Proof. intros H. apply marks_gfold. eapply Forall_impl; [|exact H]. intros o. apply marks_tv. Qed.

End Marks.

End Mark.
