(* ===== verification/GcTrav.v ===== *)
(** * The garbage collector: traversing objects

    Each traversal marks all strong references of its object ([refs]).  For a
    table the mode comes from the metatable, through the negative metamethod
    cache. *)

From S2P Require Import Prelude Machine Num Tab TabKey TabHash TabInv Buf Gc GcInv GcMark.

Section Trav.
Context `{TE : TabEnv}.

Section Fixed.
Context (r : global_State) (S : gmap Z GCbody).
Context (Wf : wf r S).
#[local] Abbreviation marks := (marks r S).

(** ** Strings, traces and prototypes *)

Lemma white2gray_id m : iswhite m = false -> white2gray m = m.
Proof.
  rewrite iswhite_bits. intros H%orb_false_iff. unfold white2gray. apply Z.bits_inj'. intros n Hn. tbits.
  change LJ_GC_WHITES with (Z.ones 2). rewrite Z.testbit_ones_nonneg by lia.
  destruct (Z.ltb_spec n 2); [|by rewrite andb_true_r].
  assert (n = 0 \/ n = 1) as [-> | ->] by lia; [by rewrite (proj1 H)|by rewrite (proj2 H)].
Qed.

Lemma marks_str s : typed S LJ_TSTR s -> marks (fun g => gc_mark_str g s) [s].
Proof.
  intros (b & Hb & Ht) X U g gs ga ws Hr HS HJ. destruct (live_heap S g s HS) as (x & Hx & Hn); [by exists b|].
  unfold gc_mark_str. rewrite (obj_at_ok _ _ _ Hx). cbn [mbind res_bind].
  destruct (iswhite (marked x)) eqn:W.
  - assert (exists str, body x = BStr str) as (str & Hbx).
    { rewrite Hb in Hn. injection Hn as ->. destruct (body x) as [|[]| | | | | | | |]; try discriminate Ht. eauto. }
    exists (recolor g s white2gray), gs. split; [done|]. split; [by apply J_mark_leaf with x; rewrite ?Hbx; auto|]. split.
    + eapply mk_upd; [exact Hx|by apply heap_upd|done|done|congruence|by left].
    + constructor; [|done]. eexists. unfold recolor. rewrite heap_upd with (x := x), lookup_insert_eq by done. split; [done|].
      cbn. by autorewrite with color.
  - rewrite recolor_keep with (x := x) by (done || by apply white2gray_id). exists g, gs.
    split_and!; [done|done|apply mk_refl|]. constructor; [by exists x|done].
Qed.

Lemma marks_trace n : tr_ok r S n -> n <> 0 -> marks (fun g => gc_marktrace g n) (trref r n).
Proof.
  intros [->|(o & Ho & Ht)] N; [done|].
  apply marks_ext with (F := fun g => gc_markobj g o) (ts := [o]).
  - intros g Hr HS. unfold gc_markobj, gc_marktrace. replace (jit_trace g) with (jit_trace r) by by rewrite <- Hr.
    rewrite Ho. destruct Ht as (b & Hb & Ht). destruct (live_heap S g o HS) as (x & Hx & Hn); [by exists b|].
    rewrite (obj_at_ok _ _ _ Hx). cbn [mbind res_bind]. destruct (iswhite (marked x)); [|done].
    unfold mark_depth. rewrite (gc_mark_S _ _ _ _ Hx). rewrite Hb in Hn. injection Hn as ->.
    by destruct (body x) as [|[]| | | | | | | |].
  - unfold trref. by rewrite Ho, (proj2 (Z.eqb_neq n 0) N).
  - apply marks_obj. by apply typed_live with LJ_TTRACE.
Qed.

Lemma marks_link n : tr_ok r S n -> marks (fun g => gc_marklink g n) (trref r n).
Proof.
  intros H. unfold gc_marklink. apply marks_ext with (F := fun g => if negb (n =? 0) then gc_marktrace g n else Ok g)
    (ts := if negb (n =? 0) then trref r n else []); [done|unfold trref; by destruct (n =? 0)|].
  apply marks_if. intros E. apply marks_trace; [done|]. by destruct (Z.eqb_spec n 0).
Qed.

Lemma marks_proto o chunkname kgc trace fs uv : S !! o = Some (BProto chunkname kgc trace fs uv) ->
  marks (fun g => gc_traverse_proto g o) (refs r S (BProto chunkname kgc trace fs uv)).
Proof.
  intros Hb. destruct (w_body _ _ Wf o _ Hb) as (Hc & Hk & Ht).
  apply marks_ext with (F := fun g => g ← gc_mark_str g chunkname; g ← gfold gc_markobj g kgc; gc_marklink g trace)
    (ts := refs r S (BProto chunkname kgc trace fs uv)); [|done|].
  - intros g Hr HS. destruct (live_heap S g o HS) as (x & Hx & Hn); [by eexists|].
    unfold gc_traverse_proto. rewrite (obj_at_ok _ _ _ Hx). rewrite Hb in Hn. injection Hn as Hn. cbn [mbind res_bind].
    destruct (body x); try done. by injection Hn as -> -> -> ->.
  - apply (marks_bind r S (fun g => gc_mark_str g chunkname) (fun g => g ← gfold gc_markobj g kgc; gc_marklink g trace));
      [by apply marks_str|].
    apply (marks_bind r S (fun g => gfold gc_markobj g kgc) (fun g => gc_marklink g trace)); [by apply marks_objs|by apply marks_link].
Qed.

Lemma marks_traverse_trace T : trace_ok r S T -> marks (fun g => gc_traverse_trace g T) (trace_refs r T).
Proof.
  intros HT. unfold gc_traverse_trace, trace_refs. destruct (Z.eqb_spec (traceno T) 0) as [|N]; [apply marks_ret|].
  destruct HT as [|(Hk & Hl & Hr & Hs & Hp)]; [done|].
  apply (marks_bind r S (fun g => gfold gc_markobj g (tr_kgc T)) (fun g => g ← gc_marklink g (tr_link T);
    g ← gc_marklink g (tr_nextroot T); g ← gc_marklink g (tr_nextside T); gc_markobj g (tr_startpt T))); [by apply marks_objs|].
  apply (marks_bind r S (fun g => gc_marklink g (tr_link T)) (fun g =>
    g ← gc_marklink g (tr_nextroot T); g ← gc_marklink g (tr_nextside T); gc_markobj g (tr_startpt T))); [by apply marks_link|].
  apply (marks_bind r S (fun g => gc_marklink g (tr_nextroot T)) (fun g =>
    g ← gc_marklink g (tr_nextside T); gc_markobj g (tr_startpt T))); [by apply marks_link|].
  apply (marks_bind r S (fun g => gc_marklink g (tr_nextside T)) (fun g => gc_markobj g (tr_startpt T))); [by apply marks_link|].
  by apply marks_obj.
Qed.

(** ** Functions *)

Definition is_func (b : GCbody) : bool := match b with BFuncL _ _ _ | BFuncC _ _ => true | _ => false end.

Lemma marks_func o b : S !! o = Some b -> is_func b = true -> marks (fun g => gc_traverse_func g o) (refs r S b).
Proof.
  intros Hb Hf. pose proof (w_body _ _ Wf o _ Hb) as Hok. destruct b as [| | | |env pt uvptr|env upvalue| | | |]; try done.
  - apply marks_ext with (F := fun g => g ← gc_markobj g env; g ← gc_markobj g pt; gfold gc_markobj g uvptr)
      (ts := refs r S (BFuncL env pt uvptr)); [|done|].
    + intros g Hr HS. destruct (live_heap S g o HS) as (x & Hx & Hn); [by eexists|].
      unfold gc_traverse_func. rewrite (obj_at_ok _ _ _ Hx). rewrite Hb in Hn. injection Hn as Hn. cbn [mbind res_bind].
      destruct (body x); try done. by injection Hn as -> -> ->.
    + destruct Hok as (He & Hp & Hu).
      apply (marks_bind r S (fun g => gc_markobj g env) (fun g => g ← gc_markobj g pt; gfold gc_markobj g uvptr)).
      { apply marks_obj. by apply typed_live with LJ_TTAB. }
      apply (marks_bind r S (fun g => gc_markobj g pt) (fun g => gfold gc_markobj g uvptr)).
      { apply marks_obj. by apply typed_live with LJ_TPROTO. }
      apply marks_objs. eapply Forall_impl; [|exact Hu]. intros p. by apply typed_live.
  - apply marks_ext with (F := fun g => g ← gc_markobj g env; gfold gc_marktv g upvalue)
      (ts := refs r S (BFuncC env upvalue)); [|done|].
    + intros g Hr HS. destruct (live_heap S g o HS) as (x & Hx & Hn); [by eexists|].
      unfold gc_traverse_func. rewrite (obj_at_ok _ _ _ Hx). rewrite Hb in Hn. injection Hn as Hn. cbn [mbind res_bind].
      destruct (body x); try done. by injection Hn as -> ->.
    + destruct Hok as (He & Hu).
      apply (marks_bind r S (fun g => gc_markobj g env) (fun g => gfold gc_marktv g upvalue)).
      { apply marks_obj. by apply typed_live with LJ_TTAB. }
      by apply marks_tvs.
Qed.

(** ** Fast metamethods *)

Lemma has_lor a b f : has (a .| b) f = has a f || has b f.
Proof.
  unfold has. rewrite Z.land_lor_distr_l. destruct (Z.eqb_spec (a .& f) 0) as [->|Ha]; cbn; [done|].
  destruct (Z.eqb_spec ((a .& f) .| (b .& f)) 0) as [E|]; [|done]. by apply Z.lor_eq_0_iff in E as [? ?].
Qed.

Lemma tvisgcv_nil v : tvisnil v = true -> tvisgcv v = false.
Proof. unfold tvisnil, tvisgcv. intros ->%Z.eqb_eq. reflexivity. Qed.

Lemma tvisstr_nil v : tvisnil v = true -> tvisstr v = false.
Proof. unfold tvisnil, tvisstr. intros ->%Z.eqb_eq. reflexivity. Qed.

Lemma nchain_find_lookup ns p f : forall i n, nchain_find ns p f i = Ok (Some n) -> exists nd, ns !! n = Some nd.
Proof.
  induction f as [|f IH]; intros i n H; [done|]. cbn in H. destruct (ns !! i) as [nd|] eqn:E; [|done].
  destruct (p nd); [injection H as <-; eauto|]. destruct (next nd); [by apply IH in H|done].
Qed.

Lemma getstr_node t s v : lj_tab_getstr t s = Ok (Some v) -> exists nd, nd ∈ node t /\ v = val nd.
Proof.
  unfold lj_tab_getstr, nchain_search. intros (n & H1 & H2)%bind_Ok. destruct n as [n|]; [|done].
  destruct (nchain_find_lookup _ _ _ _ _ H1) as (nd & Hnd). injection H2 as H2. unfold node_val in H2. cbn in H2. rewrite Hnd in H2.
  injection H2 as <-. exists nd. split; [by apply list_elem_of_lookup_2 in Hnd|done].
Qed.

Lemma hnodes_all t nd : wf_tab t -> nd ∈ node t -> tvisnil (val nd) = false -> nd ∈ tab_hnodes t.
Proof.
  intros W H N. unfold tab_hnodes. destruct (w_size t W) as [(Hm & Hn & _)|(h & Hh & Hm & Hl & _)].
  - rewrite Hn in H. apply list_elem_of_singleton in H as ->. done.
  - pose proof (Z.pow_le_mono_r 2 1 h). rewrite (proj2 (Z.ltb_lt 0 (hmask t))) by lia.
    rewrite take_ge; [done|]. rewrite Hl. apply Z2Nat.inj_le; lia.
Qed.

(** The value of a field of a well-formed table is well-formed. *)
Lemma getstr_tv_ok t mt s v : body_ok r S (BTab t mt) -> lj_tab_getstr t s = Ok (Some v) -> tv_ok S v.
Proof.
  intros (_ & W & _ & Hh) (nd & Hnd & ->)%getstr_node. destruct (tvisnil (val nd)) eqn:N.
  - intros E. by rewrite tvisgcv_nil in E.
  - rewrite Forall_forall in Hh. apply (Hh nd); [|done]. by apply list_elem_of_In, hnodes_all.
Qed.

Definition opt_mode (mo : option TValue) : Z := match mo with Some v => str_mode S v | None => 0 end.

Lemma J_put X U g gs ga ws o x b :
  J X U g gs ga ws -> heap g !! o = Some x -> norm b = norm (body x) -> nomm_ok (rest g) b ->
  J X U (upd g o (set_body b)) gs ga ws /\ mk g gs (upd g o (set_body b)) gs.
Proof.
  intros HJ Hx Hn Hnm. pose proof (heap_upd g o (set_body b) x Hx) as Hh.
  split; [|by eapply mk_upd; [exact Hx|exact Hh|done|done|done|by left]].
  eapply J_set with (X := X) (x := x) (o := o); try done; try apply HJ.
  1-3: rewrite Hh; apply chain_fun with x; [apply HJ|done|by right].
  pose proof (j_color _ _ _ _ _ _ HJ o x Hx) as C.
  assert (listable b = listable (body x) /\ blackable b = blackable (body x) /\ grayable b = grayable (body x) /\
    is_open b = is_open (body x)) as (E1 & E2 & E3 & E4).
  { by destruct b as [|[]| | | | | | | |], (body x) as [|[]| | | | | | | |]. }
  apply color_ok_mono with (h' := heap (upd g o (set_body b))) (X' := X) (l' := gs ++ ga) (ws' := ws) in C;
    [|intros p; rewrite Hh; by apply nw_upd with x|done..].
  unfold color_ok in *. cbn [set_body marked body]. by rewrite E1, E2, E3, E4.
Qed.

Lemma tab_at_ok g o t mt : shape g = S -> S !! o = Some (BTab t mt) ->
  exists x t', heap g !! o = Some x /\ body x = BTab t' mt /\ tab_at g o = Ok (t', mt) /\ set_nomm t' 0 = t.
Proof.
  intros HS Hb. destruct (live_heap S g o HS) as (x & Hx & Hn); [by eexists|]. rewrite Hb in Hn. injection Hn as Hn.
  destruct (body x) as [| | | | | | | |t' mt'|] eqn:E; try done. injection Hn as Hn ->. exists x, t'.
  unfold tab_at. rewrite (obj_at_ok _ _ _ Hx). cbn. by rewrite E.
Qed.

Lemma has_shift mm mm' : mm = MM_gc \/ mm = MM_mode -> mm' = MM_gc \/ mm' = MM_mode ->
  has (1 << mm) (1 << mm') = true -> mm = mm'.
Proof. by intros [-> | ->] [-> | ->]. Qed.

Lemma getstr_mode mt t mtmt name mo : S !! mt = Some (BTab t mtmt) -> gcroot r !! Z.to_nat MM_mode = Some name ->
  mt <> 0 -> lj_tab_getstr t name = Ok mo -> mode_of r S mt = opt_mode mo.
Proof.
  intros Hb Hn N E. unfold mode_of. rewrite Hb, Hn, E, (proj2 (Z.eqb_neq mt 0) N). by destruct mo.
Qed.

Lemma opt_mode_nil mo : tvisnil (default Tnil mo) = true -> opt_mode mo = 0.
Proof. destruct mo as [v|]; cbn; [|done]. intros H. unfold str_mode. by rewrite tvisstr_nil. Qed.

Lemma fastg_ok X U g gs ga ws mt mm :
  rest g = r -> shape g = S -> J X U g gs ga ws -> mt_ok S mt -> mm = MM_gc \/ mm = MM_mode ->
  exists g' mo, lj_meta_fastg g mt mm = Ok (g', mo) /\ J X U g' gs ga ws /\ mk g gs g' gs /\
    (forall v, mo = Some v -> tv_ok S v) /\ (mm = MM_mode -> opt_mode mo = mode_of r S mt).
Proof.
  intros Hr HS HJ Hmt Hmm. unfold lj_meta_fastg. destruct (Z.eqb_spec mt 0) as [->|N].
  { exists g, None. split_and!; [done|done|apply mk_refl|done|done]. }
  destruct Hmt as [|(b & Hb & Ht)]; [done|]. destruct b as [|[]| | | | | | |t mtmt|]; try discriminate Ht.
  destruct (tab_at_ok g mt t mtmt HS Hb) as (x & t' & Hx & Hbx & E & <-).
  destruct (w_names _ _ Wf mm Hmm) as (name & Hname & Hu).
  assert (gcroot g = gcroot r) as Hgc by by rewrite <- Hr.
  pose proof (w_body _ _ Wf mt _ Hb) as Hok. destruct Hok as (_ & Wt & _).
  destruct (getstr_ok _ name Wt Hu) as (mo & Eget & _).
  assert (mm = MM_mode -> mode_of r S mt = opt_mode mo) as Hmode.
  { intros ->. by apply getstr_mode with (set_nomm t' 0) mtmt name. }
  pose proof (j_nomm _ _ _ _ _ _ HJ mt x Hx) as Hnm. rewrite Hbx in Hnm.
  rewrite E. cbn [mbind res_bind]. destruct (has (nomm t') (1 << mm)) eqn:Hh.
  { exists g, None. split_and!; [done|done|apply mk_refl|done|]. intros H. rewrite Hmode by done.
    destruct (Hnm mm name Hmm Hh) as (mo' & E1 & E2); [by rewrite Hr|].
    change (lj_tab_getstr t' name) with (lj_tab_getstr (set_nomm t' 0) name) in E1. rewrite E1 in Eget. injection Eget as <-.
    symmetry. by apply opt_mode_nil. }
  rewrite Hgc, Hname. unfold lj_meta_cache. rewrite E. cbn [mbind res_bind].
  change (lj_tab_getstr t' name) with (lj_tab_getstr (set_nomm t' 0) name). rewrite Eget.
  destruct (tvisnil (default Tnil mo)) eqn:Hnil.
  - destruct (J_put X U g gs ga ws mt x (BTab (set_nomm t' (nomm t' .| (1 << mm))) mtmt) HJ Hx) as (J' & M').
    + by rewrite Hbx.
    + intros mm' name' Hmm' Hh' Hname'. cbn [set_nomm nomm] in Hh'. rewrite has_lor in Hh'. apply orb_true_iff in Hh' as [Hh'|Hh'].
      * by apply (Hnm mm' name').
      * apply has_shift in Hh' as <-; try done. rewrite Hr in Hname'. assert (name' = name) as -> by congruence.
        by exists mo.
    + eexists _, None. split_and!; [done|done|done|done|]. intros H. rewrite Hmode by done. symmetry. by apply opt_mode_nil.
  - exists g, mo. split_and!; [done|done|apply mk_refl| |]; [|intros H; by rewrite Hmode].
    intros v ->. by apply getstr_tv_ok with (set_nomm t' 0) mtmt name; [apply (w_body _ _ Wf mt)|].
Qed.

(** ** Modes *)

Lemma mode_weak_ok g mo : shape g = S -> (forall v, mo = Some v -> tv_ok S v) -> mode_weak g mo = Ok (opt_mode mo).
Proof.
  intros HS Hv. destruct mo as [v|]; [|done]. cbn. unfold str_mode. destruct (tvisstr v) eqn:Hs; [|done].
  assert (tvisgcv v = true) as Hg. { unfold tvisstr in Hs. apply Z.eqb_eq in Hs. unfold tvisgcv. by rewrite Hs. }
  destruct (Hv v eq_refl Hg) as ((b & Hb & Ht) & _). destruct (live_heap S g (gcr v) HS) as (x & Hx & Hn); [by exists b|].
  rewrite (obj_at_ok _ _ _ Hx), Hn. cbn. apply Z.eqb_eq in Hs. rewrite Hs, Hb in *. injection Hn as ->.
  destruct (body x) as [|[]| | | | | | | |]; try discriminate Ht. done.
Qed.

Definition is_mode (w : Z) : Prop := w = 0 \/ w = 8 \/ w = 16 \/ w = 24 \/ w = -17 \/ w = -1.

Lemma mode_loop_range s : forall w, is_mode w -> is_mode (mode_loop w s).
Proof.
  induction s as [|c s IH]; intros w Hw; [done|]. cbn [mode_loop]. destruct (c =? 0); [done|]. apply IH. unfold is_mode in *.
  destruct (c =? 107); [|destruct (c =? 118); [|destruct (c =? 75)]]; [| |by right; right; right; right; left|done].
  - destruct Hw as [-> |[-> |[-> |[-> |[-> | ->]]]]]; vm_compute; tauto.
  - destruct Hw as [-> |[-> |[-> |[-> |[-> | ->]]]]]; vm_compute; tauto.
Qed.

Lemma mode_of_range mt : is_mode (mode_of r S mt).
Proof.
  assert (is_mode 0) as H0 by by left. unfold mode_of, str_mode. repeat case_match; try done. by apply mode_loop_range.
Qed.

Definition weak_mark (weak m : Z) : Z := u8 ((m .& Z.lnot LJ_GC_WEAK) .| weak).

Lemma weak_mark_bits weak m : is_mode weak -> 0 < weak ->
  iswhite (weak_mark weak m) = iswhite m /\ isblack (weak_mark weak m) = isblack m /\
  has (weak_mark weak m) LJ_GC_WEAKVAL = has weak LJ_GC_WEAKVAL.
Proof.
  intros Hm Hw. rewrite !iswhite_bits, !isblack_bits. change LJ_GC_WEAKVAL with (2 ^ 4). rewrite !has_bit by lia.
  unfold weak_mark, u8. rewrite !mod_pow2_testbit by lia. tbits.
  repeat match goal with |- context [Z.testbit m ?k] => generalize (Z.testbit m k); intro end.
  destruct Hm as [-> |[-> |[-> |[-> |[-> | ->]]]]]; try lia; cbv -[xorb andb orb negb]; repeat split; btauto.
Qed.

End Fixed.
End Trav.
