(* ===== verification/GcProp.v ===== *)
(** * The garbage collector: propagation

    [propagatemark] keeps the invariant, and what it puts into the lists for
    the atomic phase is done: its strong references are not white.  Every step
    lowers the number of white objects plus the length of the gray list, so
    the loop ends. *)

From S2P Require Import Prelude Machine Num Tab TabKey TabHash TabInv Buf Gc GcInv GcMark GcTrav.

Section Propagate.
Context `{TE : TabEnv}.

(** ** What traversing the object [o] does *)

Record pm (o : Z) (g : global_State) (gs : list Z) (g' : global_State) (gs' : list Z) : Prop := {
  pm_rest : rest g' = rest g;
  pm_shape : shape g' = shape g;
  pm_keep : forall p x, p <> o -> heap g !! p = Some x -> iswhite (marked x) = false ->
    exists x', heap g' !! p = Some x' /\ marked x' = marked x;
  pm_self : nw (heap g) o -> nw (heap g') o;
  pm_count : (nwhite g' + length gs' <= nwhite g + length gs)%nat
}.

Lemma mk_pm o g gs g' gs' : mk g gs g' gs' -> pm o g gs g' gs'.
Proof. intros M. pose proof (mk_nw g gs g' gs' o M). destruct M. split; eauto. Qed.

Lemma pm_trans o g gs g1 gs1 g2 gs2 : pm o g gs g1 gs1 -> pm o g1 gs1 g2 gs2 -> pm o g gs g2 gs2.
Proof.
  intros [R1 S1 K1 N1 C1] [R2 S2 K2 N2 C2]. split; [congruence|congruence| |auto|lia].
  intros p x Hp Hx W. destruct (K1 p x Hp Hx W) as (x1 & Hx1 & E1).
  destruct (K2 p x1 Hp Hx1) as (x2 & Hx2 & E2); [congruence|]. exists x2. split; congruence.
Qed.

Lemma pm_nw o g gs g' gs' p : pm o g gs g' gs' -> nw (heap g) p -> nw (heap g') p.
Proof.
  intros M H. destruct (decide (p = o)) as [->|N]; [by apply (pm_self _ _ _ _ _ M)|].
  destruct H as (x & Hx & W). destruct (pm_keep _ _ _ _ _ M p x N Hx W) as (x' & Hx' & E). exists x'. split; congruence.
Qed.

Lemma pm_upd o g gs g' gs' x x' :
  heap g !! o = Some x -> heap g' = <[o := x']> (heap g) -> rest g' = rest g -> norm (body x') = norm (body x) ->
  (iswhite (marked x) = false -> iswhite (marked x') = false) -> (length gs' <= length gs)%nat -> pm o g gs g' gs'.
Proof.
  intros Hx Hh Hr Hn Hw Hl. split; [done|unfold shape at 1; rewrite Hh; by apply shape_upd with x| | |].
  - intros p y Hp Hy W. rewrite Hh, lookup_insert_ne by done. eauto.
  - intros H. rewrite Hh. by apply nw_upd with x.
  - unfold nwhite. rewrite Hh. pose proof (whites_keep (heap g) o x x' Hx Hw). lia.
Qed.

(** ** Tables *)

Lemma J_push_weak X U g gs ga ws o x f :
  J (o :: X) U g gs ga ws -> heap g !! o = Some x -> (o ∉ ws) -> iswhite (marked x) = false -> iswhite (f (marked x)) = false ->
  J (o :: X) U (push_weak (recolor g o f) o) gs ga (o :: ws) /\
  heap (push_weak (recolor g o f) o) = <[o := set_gclist (gc_weak g) (set_marked f x)]> (heap g).
Proof.
  intros HJ Hx Hw W W'. assert (o ∉ gs ++ ga) as Hl by (apply J_exempt_lists with X U g ws; [done|by exists x]).
  assert (heap (push_weak (recolor g o f) o) = <[o := set_gclist (gc_weak g) (set_marked f x)]> (heap g)) as Hh.
  { pose proof (heap_upd g o (set_marked f) x Hx) as H1. fold (recolor g o f) in H1.
    unfold push_weak. cbn [set_weak heap]. rewrite heap_upd with (x := set_marked f x).
    - rewrite H1. apply insert_insert_eq.
    - rewrite H1. apply lookup_insert_eq. }
  split; [|done].
  assert (o <> 0) as Ho. { intros ->. pose proof (w_null _ _ (j_wf _ _ _ _ _ _ HJ)) as N. by rewrite shape_lookup, Hx in N. }
  rewrite elem_of_app in Hl.
  eapply J_set with (X := o :: X) (x := x) (o := o); try done.
  - apply (j_nomm _ _ _ _ _ _ HJ o x Hx).
  - rewrite Hh. apply chain_fun with x; [apply HJ|done|left; tauto].
  - rewrite Hh. apply chain_fun with x; [apply HJ|done|left; tauto].
  - rewrite Hh. split; [done|]. split; [done|]. eexists. split; [apply lookup_insert_eq|].
    apply chain_fun with x; [apply HJ|done|left; tauto].
  - pose proof (j_nodup _ _ _ _ _ _ HJ) as N. rewrite app_assoc in N |- *. apply list.NoDup_app in N as (N1 & N2 & N3).
    apply list.NoDup_app. split; [done|]. split; [|by apply NoDup_cons_2].
    intros p Hp [->|Hp']%elem_of_cons; [rewrite elem_of_app in Hp; tauto|by apply (N2 p)].
  - intros p Hp. rewrite (elem_of_cons ws). tauto.
  - unfold color_ok. cbn [set_gclist set_marked marked]. rewrite W'. left. split; [by left|]. rewrite elem_of_app. tauto.
Qed.

Section Fixed.
Context (r : global_State) (S : gmap Z GCbody).
Context (Wf : wf r S).

Lemma tab_refs_weak t : tab_refs LJ_GC_WEAK t = [].
Proof.
  unfold tab_refs. cbn [has]. assert (forall l, flat_map (node_refs LJ_GC_WEAK) l = []) as ->; [|done].
  induction l as [|n l IH]; [done|]. cbn [flat_map]. rewrite IH. unfold node_refs. by destruct (negb (tvisnil (val n))).
Qed.

Definition tab_body (weak : Z) (t : GCtab) (g : global_State) : gres global_State :=
  g ← (if negb (has weak LJ_GC_WEAKVAL) then gfold gc_marktv g (tab_avals t) else Ok g);
  gfold (fun g n =>
    if negb (tvisnil (val n)) then
      g ← (if negb (has weak LJ_GC_WEAKKEY) then gc_marktv g (key n) else Ok g);
      if negb (has weak LJ_GC_WEAKVAL) then gc_marktv g (val n) else Ok g
    else Ok g) g (tab_hnodes t).

Lemma marks_tab_body weak t mt : body_ok r S (BTab t mt) -> marks r S (tab_body weak t) (tab_refs weak t).
Proof.
  intros (_ & _ & Ha & Hh). unfold tab_body, tab_refs.
  apply (marks_bind r S (fun g => if negb (has weak LJ_GC_WEAKVAL) then gfold gc_marktv g (tab_avals t) else Ok g)).
  { apply (marks_if r S (negb (has weak LJ_GC_WEAKVAL)) (fun g => gfold gc_marktv g (tab_avals t))). intros _. by apply marks_tvs. }
  apply marks_gfold. eapply Forall_impl; [|exact Hh]. intros n Hn. unfold node_refs.
  apply (marks_if r S (negb (tvisnil (val n))) (fun g => g ← (if negb (has weak LJ_GC_WEAKKEY) then gc_marktv g (key n) else Ok g);
      if negb (has weak LJ_GC_WEAKVAL) then gc_marktv g (val n) else Ok g)). intros E. apply negb_true_iff in E.
  destruct (Hn E) as (Hk & Hv). apply (marks_bind r S (fun g => if negb (has weak LJ_GC_WEAKKEY) then gc_marktv g (key n) else Ok g)).
  - apply (marks_if r S _ (fun g => gc_marktv g (key n))). intros _. by apply marks_tv.
  - apply (marks_if r S _ (fun g => gc_marktv g (val n))). intros _. by apply marks_tv.
Qed.

Lemma traverse_tab_ok U g gs ga ws o t mt x :
  rest g = r -> shape g = S -> J [o] U g gs ga ws -> (o ∉ ws) -> S !! o = Some (BTab t mt) ->
  heap g !! o = Some x -> iswhite (marked x) = false -> isblack (marked x) = true ->
  exists g' gs' w x' ws', gc_traverse_tab g o = Ok (g', w) /\ J [o] U g' gs' ga ws' /\ pm o g gs g' gs' /\
    Forall (nw (heap g')) (refs r S (BTab t mt)) /\
    heap g' !! o = Some x' /\ iswhite (marked x') = false /\ isblack (marked x') = true /\
    if 0 <? w then 0 < mode_of r S mt /\ ws' = o :: ws /\ has (marked x') LJ_GC_WEAKVAL = has (mode_of r S mt) LJ_GC_WEAKVAL
    else mode_of r S mt <= 0 /\ ws' = ws.
Proof.
  intros Hr HS HJ Hw Hb Hx W B. pose proof (w_body _ _ Wf o _ Hb) as Hok.
  destruct (tab_at_ok S g o t mt HS Hb) as (x0 & t' & Hx0 & Hbx & Et & Ht).
  assert (x0 = x) as -> by congruence.
  destruct (marks_ref r S mt) with (X := [o]) (U := U) (g := g) (gs := gs) (ga := ga) (ws := ws)
    as (g1 & gs1 & E1 & J1 & M1 & N1); [|done|done|done|].
  { destruct Hok as ([->|Hmt] & _); [by left|right]. by apply typed_live with LJ_TTAB. }
  assert (rest g1 = r) as Hr1 by by rewrite (mk_rest _ _ _ _ M1). assert (shape g1 = S) as HS1 by by rewrite (mk_shape _ _ _ _ M1).
  destruct (fastg_ok r S Wf [o] U g1 gs1 ga ws mt MM_mode Hr1 HS1 J1) as (g2 & mo & E2 & J2 & M2 & Hv & Hm);
    [apply Hok|by right|].
  assert (rest g2 = r) as Hr2 by by rewrite (mk_rest _ _ _ _ M2). assert (shape g2 = S) as HS2 by by rewrite (mk_shape _ _ _ _ M2).
  pose proof (mode_weak_ok S g2 mo HS2 Hv) as E3. rewrite Hm in E3 by done.
  set (w := mode_of r S mt) in *. pose proof (mode_of_range r S mt : is_mode w) as Hrange.
  pose proof (mk_trans _ _ _ _ _ _ M1 M2) as M.
  destruct (mk_keep _ _ _ _ M o x Hx W) as (x2 & Hx2 & Em).
  (* the table is linked if it is weak *)
  set (g3 := if 0 <? w then push_weak (recolor g2 o (weak_mark w)) o else g2).
  assert (exists x3 ws', J [o] U g3 gs1 ga ws' /\ pm o g2 gs1 g3 gs1 /\ heap g3 !! o = Some x3 /\
    iswhite (marked x3) = false /\ isblack (marked x3) = true /\
    if 0 <? w then ws' = o :: ws /\ has (marked x3) LJ_GC_WEAKVAL = has w LJ_GC_WEAKVAL else ws' = ws)
    as (x3 & ws' & J3 & M3 & Hx3 & W3 & B3 & H3).
  { unfold g3. destruct (Z.ltb_spec 0 w) as [L|L].
    - destruct (weak_mark_bits w (marked x2) Hrange L) as (F1 & F2 & F3).
      destruct (J_push_weak [] U g2 gs1 ga ws o x2 (weak_mark w) J2 Hx2 Hw) as (J3 & Hh3); [congruence|congruence|].
      eexists _, (o :: ws). split; [exact J3|]. split; [|split; [rewrite Hh3; apply lookup_insert_eq|]].
      + eapply pm_upd; [exact Hx2|exact Hh3|done|done| |done]. cbn. by rewrite F1.
      + cbn. rewrite F1, F2, F3, Em. by split_and!.
    - exists x2, ws. rewrite Em. split_and!; try done. by apply mk_pm, mk_refl. }
  assert (rest g3 = r) as Hr3 by by rewrite (pm_rest _ _ _ _ _ M3). assert (shape g3 = S) as HS3 by by rewrite (pm_shape _ _ _ _ _ M3).
  destruct (marks_tab_body w t mt Hok [o] U g3 gs1 ga ws' Hr3 HS3 J3) as (g4 & gs4 & E4 & J4 & M4 & N4).
  assert (gc_traverse_tab g o = if w =? LJ_GC_WEAK then Ok (g3, 1) else g4 ← tab_body w t g3; Ok (g4, w)) as E.
  { unfold gc_traverse_tab. rewrite Et. cbn [mbind res_bind]. rewrite E1. cbn [mbind res_bind]. rewrite E2. cbn [mbind res_bind].
    rewrite E3. cbn [mbind res_bind]. fold (weak_mark w). fold g3.
    destruct (w =? LJ_GC_WEAK); [done|]. subst t. unfold tab_body.
    change (tab_avals (set_nomm t' 0)) with (tab_avals t'). change (tab_hnodes (set_nomm t' 0)) with (tab_hnodes t').
    by destruct (if negb (has w LJ_GC_WEAKVAL) then gfold gc_marktv g3 (tab_avals t') else Ok g3). }
  assert (Forall (nw (heap g3)) (optref mt)) as N3.
  { eapply Forall_impl; [|exact N1]. intros p Hp. apply (pm_nw _ _ _ _ _ _ M3). by apply (mk_nw _ _ _ _ _ M2). }
  assert (pm o g gs g3 gs1) as M03 by (apply pm_trans with g2 gs1; [by apply mk_pm|done]).
  destruct (Z.eqb_spec w LJ_GC_WEAK) as [Ew|Ew].
  - exists g3, gs1, 1, x3, ws'. split_and!; try done.
    + cbn [refs]. fold w. by rewrite Ew, tab_refs_weak, app_nil_r.
    + rewrite Ew in H3 |- *. cbn in H3 |- *. by destruct H3 as (-> & ->).
  - destruct (mk_keep _ _ _ _ M4 o x3 Hx3 W3) as (x4 & Hx4 & Em4).
    exists g4, gs4, w, x4, ws'. rewrite E, E4. split_and!; try done; try congruence.
    + apply pm_trans with g3 gs1; [done|by apply mk_pm].
    + cbn [refs]. apply Forall_app. split; [|done]. eapply Forall_impl; [|exact N3]. intros p. by apply (mk_nw _ _ _ _ _ M4).
    + destruct (Z.ltb_spec 0 w); [|done]. rewrite Em4. tauto.
Qed.
(** ** Threads *)

Lemma framesize_ok g fn : shape g = S -> typed S LJ_TFUNC fn \/ typed S LJ_TTHREAD fn -> exists fs, fn_framesize g fn = Ok fs.
Proof.
  intros HS H. assert (exists b, S !! fn = Some b /\ (is_func b = true \/ exists th, b = BThread th)) as (b & Hb & H').
  { destruct H as [(b & Hb & Ht)|(b & Hb & Ht)]; exists b; (split; [done|]);
      destruct b as [|[]| | | | | | | |]; try discriminate Ht; eauto. }
  clear H. destruct (live_heap S g fn HS) as (x & Hx & Hn); [by exists b|]. rewrite Hb in Hn. injection Hn as ->.
  unfold fn_framesize. rewrite (obj_at_ok _ _ _ Hx). cbn [mbind res_bind].
  pose proof (w_body _ _ Wf fn _ Hb) as Hok. destruct (body x) as [|[]| | |env pt uvptr| | | | |] eqn:E;
    try (by eexists); try (by destruct H' as [?|(? & ?)]).
  destruct Hok as (_ & (b & Hpt & Ht) & _). destruct (live_heap S g pt HS) as (y & Hy & Hn); [by exists b|].
  rewrite (obj_at_ok _ _ _ Hy). rewrite Hpt in Hn. injection Hn as ->. cbn [mbind res_bind].
  destruct (body y) as [|[]| | | | | | | |]; try discriminate Ht. by eexists.
Qed.

Lemma frames_ok frames : Forall (fun f => typed S LJ_TFUNC f.2 \/ typed S LJ_TTHREAD f.2) frames ->
  forall top X U g gs ga ws, rest g = r -> shape g = S -> J X U g gs ga ws ->
  exists g' gs' top', traverse_frames_loop g top frames = Ok (g', top') /\ top <= top' /\
    J X U g' gs' ga ws /\ mk g gs g' gs' /\ Forall (nw (heap g')) (snd <$> frames).
Proof.
  induction 1 as [|[frame fn] frames Hf _ IH]; intros top X U g gs ga ws Hr HS HJ.
  { exists g, gs, top. split_and!; [done|done|done|apply mk_refl|constructor]. }
  cbn [traverse_frames_loop]. destruct (framesize_ok g fn HS Hf) as (fs & ->). cbn [mbind res_bind].
  destruct (marks_obj r S fn) with (X := X) (U := U) (g := g) (gs := gs) (ga := ga) (ws := ws)
    as (g1 & gs1 & E1 & J1 & M1 & N1); [|done|done|done|].
  { destruct Hf as [Hf|Hf]; by apply typed_live in Hf. }
  set (ftop := Z.of_nat frame + fs).
  destruct (IH (if top <? ftop then ftop else top) X U g1 gs1 ga ws) as (g2 & gs2 & top' & E2 & Ht & J2 & M2 & N2);
    [by rewrite (mk_rest _ _ _ _ M1)|by rewrite (mk_shape _ _ _ _ M1)|done|].
  exists g2, gs2, top'. rewrite E1. cbn [mbind res_bind]. split; [done|]. split; [destruct (Z.ltb_spec top ftop); lia|].
  split; [done|]. split; [by apply mk_trans with g1 gs1|]. rewrite fmap_cons. constructor; [|done].
  apply (mk_nw _ _ _ _ _ M2). by apply Forall_inv in N1.
Qed.

(** Shrinking keeps the slots in use. *)
Lemma shrink_take g o used th : (th_top th <= length (th_stack th))%nat ->
  (Z.min (Z.of_nat (th_top th)) (stacksize th - LJ_STACK_EXTRA - 1) <= used) ->
  exists s, lj_state_shrinkstack g o used th = set_stack th s /\ take (th_top th) s = take (th_top th) (th_stack th).
Proof.
  intros Hl Hu. assert (exists s, th = set_stack th s /\ take (th_top th) s = take (th_top th) (th_stack th)) as Hid.
  { exists (th_stack th). split; [by destruct th|done]. }
  unfold lj_state_shrinkstack. destruct (LJ_STACK_MAXEX <? stacksize th); [done|].
  destruct (Z.ltb_spec (4 * used) (stacksize th)) as [H4|]; [|done].
  destruct (Z.ltb_spec (2 * (LJ_STACK_START + LJ_STACK_EXTRA)) (stacksize th)) as [H90|]; [|done].
  destruct (negb (jit_base g) || negb (o =? cur_L g)); [|done]. cbn [andb].
  unfold resizestack. eexists. split; [reflexivity|].
  change (2 * (LJ_STACK_START + LJ_STACK_EXTRA)) with 90 in H90. unfold LJ_STACK_EXTRA in *. unfold stacksize in *.
  rewrite Z.shiftr_div_pow2 by lia. change (2 ^ 1) with 2. rewrite take_app_le.
  - rewrite take_take. f_equal. apply Nat.min_l. Z.div_mod_to_equations. lia.
  - rewrite length_take. Z.div_mod_to_equations. lia.
Qed.

Lemma clear_take (th : lua_State) (n k : nat) : (th_top th <= n)%nat -> (th_top th <= length (th_stack th))%nat ->
  take (th_top th) (take n (th_stack th) ++ replicate k Tnil) = take (th_top th) (th_stack th).
Proof.
  intros Hn Hl. rewrite take_app_le by (rewrite length_take; lia). rewrite take_take. f_equal. lia.
Qed.

Lemma slots_take {A} (n : nat) (s : list A) : take (n - 1) (drop 1 (take n s)) = take (n - 1) (drop 1 s).
Proof. rewrite skipn_firstn_comm, take_take. f_equal. lia. Qed.

(** A thread is not looked after while it is traversed: it is gray already. *)
Lemma traverse_thread_ok U g gs ga ws o th :
  rest g = r -> shape g = S -> J [] U g gs ga ws -> S !! o = Some (BThread th) ->
  exists g' gs', gc_traverse_thread g o = Ok g' /\ J [] U g' gs' ga ws /\ mk g gs g' gs' /\
    Forall (nw (heap g')) (refs r S (BThread th)).
Proof.
  intros Hr HS HJ Hb. destruct (w_body _ _ Wf o _ Hb) as (Hlen & Hsl & Henv & Hfr).
  destruct (th_at_ok S g o th HS Hb) as (t & Et & Ht). subst th. cbn [set_stack th_top th_stack th_env th_frames] in *.
  rewrite length_take in Hlen. assert (th_top t <= length (th_stack t))%nat as Hl by lia. clear Hlen.
  destruct (marks_tvs r S (take (th_top t - 1) (drop 1 (th_stack t)))) with (X := @nil Z) (U := U) (g := g) (gs := gs)
    (ga := ga) (ws := ws) as (g1 & gs1 & E1 & J1 & M1 & N1); [|done|done|done|].
  { rewrite <- slots_take. rewrite Forall_forall in Hsl |- *. intros v Hv. apply Hsl. apply list_elem_of_In.
    apply list_elem_of_In in Hv. by apply elem_of_take in Hv as (i & Hv & _); apply list_elem_of_lookup_2 in Hv. }
  set (n := Nat.max 1 (th_top t)).
  set (t1 := if decide (gc_state g = GCSatomic) then
     set_stack t (take n (th_stack t) ++ replicate (length (th_stack t) - n) Tnil) else t).
  assert (exists s1, t1 = set_stack t s1 /\ take (th_top t) s1 = take (th_top t) (th_stack t) /\ length s1 = length (th_stack t))
    as (s1 & Es1 & Ht1 & Hl1).
  { unfold t1. destruct (decide (gc_state g = GCSatomic)).
    - eexists. split; [reflexivity|]. split; [apply clear_take; lia|]. rewrite length_app, length_take, length_replicate. lia.
    - exists (th_stack t). split; [by destruct t|done]. }
  assert (forall g', shape g' = S -> exists x, heap g' !! o = Some x /\ norm (body x) = norm (BThread t)) as Hobj.
  { intros g' HS'. destruct (live_heap S g' o HS') as (x & Hx & Hn); [by eexists|]. exists x. split; [done|].
    rewrite Hb in Hn. by injection Hn as <-. }
  assert (shape g1 = S) as HS1 by by rewrite (mk_shape _ _ _ _ M1).
  destruct (Hobj g1 HS1) as (x1 & Hx1 & Hn1).
  destruct (J_put [] U g1 gs1 ga ws o x1 (BThread t1) J1 Hx1) as (J2 & M2); [by rewrite Hn1, Es1; cbn; rewrite Ht1|done|].
  fold (put_th g1 o t1) in J2, M2. set (g2 := put_th g1 o t1) in *.
  pose proof (mk_trans _ _ _ _ _ _ M1 M2) as M12.
  destruct (marks_obj r S (th_env t)) with (X := @nil Z) (U := U) (g := g2) (gs := gs1) (ga := ga) (ws := ws)
    as (g3 & gs3 & E3 & J3 & M3 & N3);
    [by apply typed_live in Henv|by rewrite (mk_rest _ _ _ _ M12)|by rewrite (mk_shape _ _ _ _ M12)|done|].
  pose proof (mk_trans _ _ _ _ _ _ M12 M3) as M13.
  destruct (frames_ok (th_frames t) Hfr (Z.of_nat (th_top t) - 1) [] U g3 gs3 ga ws) as (g4 & gs4 & top & E4 & Htop & J4 & M4 & N4);
    [by rewrite (mk_rest _ _ _ _ M13)|by rewrite (mk_shape _ _ _ _ M13)|done|].
  pose proof (mk_trans _ _ _ _ _ _ M13 M4) as M14.
  set (used := if stacksize t1 - LJ_STACK_EXTRA - 1 <? top + 1 then stacksize t1 - LJ_STACK_EXTRA - 1 else top + 1).
  destruct (shrink_take g4 o used t1) as (s5 & Es5 & Ht5).
  { rewrite Es1. cbn. lia. }
  { unfold used. assert (th_top t1 = th_top t) as -> by by rewrite Es1. destruct (Z.ltb_spec (stacksize t1 - LJ_STACK_EXTRA - 1) (top + 1)); lia. }
  assert (shape g4 = S) as HS4 by by rewrite (mk_shape _ _ _ _ M14).
  destruct (Hobj g4 HS4) as (x4 & Hx4 & Hn4).
  destruct (J_put [] U g4 gs4 ga ws o x4 (BThread (set_stack t1 s5)) J4 Hx4) as (J5 & M5).
  { rewrite Hn4. rewrite Es1 in Ht5 |- *. cbn in Ht5 |- *. by rewrite Ht5, Ht1. } { done. }
  fold (put_th g4 o (set_stack t1 s5)) in J5, M5. rewrite <- Es5 in J5, M5.
  eexists _, gs4. split; [|split; [exact J5|]].
  - unfold gc_traverse_thread. rewrite Et. cbn [mbind res_bind]. rewrite E1. cbn [mbind res_bind].
    assert (gc_state g1 = gc_state g) as -> by by apply (f_equal gc_state (mk_rest _ _ _ _ M1)).
    fold n. fold t1. fold g2. assert (th_env t1 = th_env t) as -> by by rewrite Es1. rewrite E3. cbn [mbind res_bind].
    unfold gc_traverse_frames. assert (th_top t1 = th_top t) as -> by by rewrite Es1.
    assert (th_frames t1 = th_frames t) as -> by by rewrite Es1. rewrite E4. cbn [mbind res_bind]. done.
  - split; [by apply mk_trans with g4 gs4|]. cbn [refs set_stack th_top th_stack th_env th_frames].
    rewrite slots_take. apply Forall_app. split; [|apply Forall_app; split].
    + eapply Forall_impl; [|exact N1]. intros p Hp. apply (mk_nw _ _ _ _ _ M5), (mk_nw _ _ _ _ _ M4), (mk_nw _ _ _ _ _ M3).
      by apply (mk_nw _ _ _ _ _ M2).
    + eapply Forall_impl; [|exact N3]. intros p Hp. by apply (mk_nw _ _ _ _ _ M5), (mk_nw _ _ _ _ _ M4).
    + eapply Forall_impl; [|exact N4]. intros p Hp. by apply (mk_nw _ _ _ _ _ M5).
Qed.

(** ** One gray object *)

(** A weak table in the list of weak tables: its strong references are not
    white, and its mark tells what to clear. *)
Definition weak_ok (h : gmap Z GCobj) (o : Z) : Prop :=
  exists x t mt, h !! o = Some x /\ S !! o = Some (BTab t mt) /\ iswhite (marked x) = false /\
    0 < mode_of r S mt /\ has (marked x) LJ_GC_WEAKVAL = has (mode_of r S mt) LJ_GC_WEAKVAL /\ done r S h o.

Lemma pop_gray U g o gs ga ws : J [] U g (o :: gs) ga ws ->
  exists x, gc_gray g = o /\ heap g !! o = Some x /\ iswhite (marked x) = false /\ isblack (marked x) = false /\
    listable (body x) = true /\ (o ∉ gs ++ ga) /\ (o ∉ ws) /\
    let g1 := set_gray (recolor g o gray2black) (gclist x) in
    J [o] U g1 gs ga ws /\ pm o g gs g1 gs /\ heap g1 = <[o := set_marked gray2black x]> (heap g).
Proof.
  intros HJ. destruct (j_gray _ _ _ _ _ _ HJ) as (<- & Ho & x & Hx & Hc). exists x.
  pose proof (j_color _ _ _ _ _ _ HJ _ x Hx) as C. unfold color_ok in C.
  assert (gc_gray g ∈ (gc_gray g :: gs) ++ ga) as Hin by (cbn; left).
  destruct (iswhite (marked x)) eqn:W; [tauto|]. destruct C as [[H _]|[_ C]]; [by apply elem_of_nil in H|].
  destruct (isblack (marked x)) eqn:B; [tauto|]. destruct C as (_ & Hl & _). apply or_introl with (B := gc_gray g ∈ ws) in Hin as Hin'.
  apply Hl in Hin'. pose proof (j_nodup _ _ _ _ _ _ HJ) as N. cbn in N. apply list.NoDup_cons in N as (Nin & N).
  rewrite !elem_of_app in Nin. assert (gc_gray g ∉ gs ++ ga) as Hni by (rewrite elem_of_app; tauto).
  pose proof (heap_upd g (gc_gray g) (set_marked gray2black) x Hx) as Hh.
  set (o := gc_gray g) in *. set (g1 := set_gray (recolor g o gray2black) (gclist x)).
  assert (heap g1 = <[o := set_marked gray2black x]> (heap g)) as Hh1 by exact Hh.
  cbv zeta. fold g1. split_and!; try done; [tauto| |by eapply pm_upd; [exact Hx|exact Hh1|done|done|cbn; by autorewrite with color|]].
  eapply J_set with (X := []) (x := x) (o := o); try done.
  - apply (j_nomm _ _ _ _ _ _ HJ o x Hx).
  - cbn. by autorewrite with color.
  - rewrite Hh1. apply chain_fun with x; [done|done|by right].
  - rewrite Hh1. apply chain_fun with x; [apply HJ|done|by right].
  - rewrite Hh1. apply chain_fun with x; [apply HJ|done|by right].
  - intros p Hp. rewrite list_elem_of_singleton. cbn [app]. rewrite elem_of_cons, elem_of_nil. tauto.
  - unfold color_ok. cbn [set_marked marked]. autorewrite with color. rewrite W. left. split; [by left|done].
Qed.

(** A black object whose strong references are all marked. *)
Lemma finish_black U g gs ga ws o x : rest g = r -> shape g = S ->
  J [o] U g gs ga ws -> (o ∉ ws) -> heap g !! o = Some x -> iswhite (marked x) = false -> isblack (marked x) = true ->
  blackable (body x) = true -> hdone r S (heap g) o -> J [] U g gs ga ws.
Proof.
  intros Hr HS HJ Hw Hx W B Hb Hd. apply J_change with [o] o x; try done.
  - intros p Hp. rewrite list_elem_of_singleton, elem_of_nil. tauto.
  - unfold color_ok. rewrite W, B. right. split; [apply not_elem_of_nil|]. split; [|by rewrite Hr, HS].
    apply J_exempt_lists with [] U g ws; [done|by exists x].
Qed.

Definition prop_ok (U : list Z) (g : global_State) (o : Z) (gs ga ws : list Z) (F : gres global_State) : Prop :=
  exists g' gs' da dw, F = Ok g' /\ J [] U g' gs' (da ++ ga) (dw ++ ws) /\ pm o g gs g' gs' /\
    Forall (hdone r S (heap g')) da /\ Forall (weak_ok (heap g')) dw.

Lemma prop_marks U g gs ga ws o x b F : rest g = r -> shape g = S ->
  J [o] U g gs ga ws -> (o ∉ ws) -> heap g !! o = Some x -> iswhite (marked x) = false -> isblack (marked x) = true ->
  S !! o = Some b -> blackable b = true -> held r S b = refs r S b -> marks r S F (refs r S b) -> prop_ok U g o gs ga ws (F g).
Proof.
  intros Hr HS HJ Hw Hx W B Hb Hbl Hhe HF. destruct (HF _ _ _ _ _ _ Hr HS HJ) as (g' & gs' & E & J' & M & N).
  exists g', gs', [], []. split; [done|]. split; [|by split; [apply mk_pm|split; constructor]].
  destruct (mk_keep _ _ _ _ M o x Hx W) as (x' & Hx' & Em).
  assert (shape g' = S) as HS' by by rewrite (mk_shape _ _ _ _ M).
  apply finish_black with o x'; try done; try congruence.
  - by rewrite (mk_rest _ _ _ _ M).
  - pose proof (norm_inv S g' o x' b HS' Hb Hx') as Hn. rewrite <- Hn in Hbl. by destruct (body x') as [|[]| | | | | | | |].
  - exists b. by rewrite Hhe.
Qed.

Lemma prop_thread U g gs ga ws o x th : rest g = r -> shape g = S ->
  J [o] U g gs ga ws -> (o ∉ ws) -> (o ∉ ga) -> heap g !! o = Some x -> iswhite (marked x) = false ->
  S !! o = Some (BThread th) -> prop_ok U g o gs ga ws (gc_traverse_thread (recolor (push_grayagain g o) o black2gray) o).
Proof.
  intros Hr HS HJ Hw Hga Hx W Hb. set (g1 := recolor (push_grayagain g o) o black2gray).
  assert (heap g1 = <[o := set_marked black2gray (set_gclist (gc_grayagain g) x)]> (heap g)) as Hh.
  { unfold g1, push_grayagain. pose proof (heap_upd g o (set_gclist (gc_grayagain g)) x Hx) as H1. unfold recolor.
    rewrite heap_upd with (x := set_gclist (gc_grayagain g) x).
    - cbn [set_grayagain heap]. rewrite H1. apply insert_insert_eq.
    - cbn [set_grayagain heap]. rewrite H1. apply lookup_insert_eq. }
  assert (o <> 0) as Ho. { intros ->. pose proof (w_null _ _ Wf) as N. congruence. }
  assert (o ∉ gs ++ ga) as Hl by (apply J_exempt_lists with [] U g ws; [done|by exists x]). rewrite elem_of_app in Hl.
  assert (exists th', body x = BThread th') as (th' & Hbx).
  { pose proof (norm_inv S g o x _ HS Hb Hx) as Hn. destruct (body x); try done. eauto. }
  assert (J [] U g1 gs (o :: ga) ws) as J1.
  { eapply J_set with (X := [o]) (x := x) (o := o); try done.
    - apply (j_nomm _ _ _ _ _ _ HJ o x Hx).
    - cbn. by autorewrite with color.
    - rewrite Hh. apply chain_fun with x; [apply HJ|done|left; tauto].
    - rewrite Hh. split; [done|]. split; [done|]. eexists. split; [apply lookup_insert_eq|].
      apply chain_fun with x; [apply HJ|done|left; tauto].
    - rewrite Hh. apply chain_fun with x; [apply HJ|done|left; tauto].
    - pose proof (j_nodup _ _ _ _ _ _ HJ) as N. apply list.NoDup_app in N as (N1 & N2 & N3).
      apply list.NoDup_app. split; [done|]. split; [|apply NoDup_cons_2; [rewrite elem_of_app; tauto|done]].
      intros p Hp [->|Hp']%elem_of_cons; [tauto|by apply (N2 p)].
    - intros p Hp. rewrite list_elem_of_singleton, elem_of_nil, !elem_of_app, elem_of_cons. tauto.
    - unfold color_ok. cbn [set_marked set_gclist marked body]. autorewrite with color. rewrite W, Hbx. right.
      split; [apply not_elem_of_nil|]. split; [done|]. split; [|done]. rewrite elem_of_app, elem_of_cons. tauto. }
  assert (pm o g gs g1 gs) as M1 by (eapply pm_upd; [exact Hx|exact Hh|done|done|cbn; by autorewrite with color|done]).
  destruct (traverse_thread_ok U g1 gs (o :: ga) ws o th) as (g2 & gs2 & E2 & J2 & M2 & N2);
    [done|by rewrite (pm_shape _ _ _ _ _ M1)|done|done|].
  exists g2, gs2, [o], []. split; [done|]. split; [done|]. split; [apply pm_trans with g1 gs; [done|by apply mk_pm]|].
  split; [|constructor]. constructor; [|constructor]. by exists (BThread th).
Qed.

Lemma prop_tab U g gs ga ws o x t mt : rest g = r -> shape g = S ->
  J [o] U g gs ga ws -> (o ∉ ws) -> heap g !! o = Some x -> iswhite (marked x) = false -> isblack (marked x) = true ->
  S !! o = Some (BTab t mt) ->
  prop_ok U g o gs ga ws ('(g, weak) ← gc_traverse_tab g o; Ok (if 0 <? weak then recolor g o black2gray else g)).
Proof.
  intros Hr HS HJ Hw Hx W B Hb.
  destruct (traverse_tab_ok U g gs ga ws o t mt x Hr HS HJ Hw Hb Hx W B)
    as (g' & gs' & w & x' & ws' & E & J' & M & N & Hx' & W' & B' & H).
  assert (rest g' = r) as Hr' by by rewrite (pm_rest _ _ _ _ _ M). assert (shape g' = S) as HS' by by rewrite (pm_shape _ _ _ _ _ M).
  pose proof (norm_inv S g' o x' _ HS' Hb Hx') as Hn.
  assert (exists t', body x' = BTab t' mt) as (t' & Hbx).
  { destruct (body x'); try done. injection Hn as _ ->. eauto. }
  unfold prop_ok. rewrite E. cbn [mbind res_bind]. destruct (0 <? w).
  - destruct H as (Hm & -> & Hv). pose proof (heap_upd g' o (set_marked black2gray) x' Hx') as Hh. fold (recolor g' o black2gray) in Hh.
    assert (pm o g' gs' (recolor g' o black2gray) gs') as M2
      by (eapply pm_upd; [exact Hx'|exact Hh|done|done|cbn; by autorewrite with color|done]).
    assert (done r S (heap (recolor g' o black2gray)) o) as Hd.
    { exists (BTab t mt). split; [done|]. eapply Forall_impl; [|exact N]. intros p. by apply (pm_nw _ _ _ _ _ _ M2). }
    exists (recolor g' o black2gray), gs', [], [o]. split; [done|]. split; [|split; [by apply pm_trans with g' gs'|]].
    + apply J_recolor with [o] x'; try done.
      * by autorewrite with color.
      * intros p Hp. rewrite list_elem_of_singleton, elem_of_nil. tauto.
      * unfold color_ok. cbn [set_marked marked body]. autorewrite with color. rewrite W', Hbx. right.
        split; [apply not_elem_of_nil|]. split; [done|]. split; [|done]. split; [intros _; right; left|done].
    + split; [by constructor|]. constructor; [|constructor]. exists (set_marked black2gray x'), t, mt.
      rewrite Hh at 1. rewrite lookup_insert_eq. split_and!; try done; cbn; autorewrite with color; try done.
      rewrite <- Hv. change LJ_GC_WEAKVAL with (2 ^ 4). rewrite !has_bit by lia. unfold black2gray. tbits.
      change (negb (Z.testbit LJ_GC_BLACK 4)) with true. by rewrite andb_true_r.
  - destruct H as (Hm & ->). exists g', gs', [], []. split; [done|]. split; [|by split; [done|split; constructor]].
    apply finish_black with o x'; rewrite ?Hbx; try done. exists (BTab t mt). split; [done|]. cbn [held].
    by destruct (Z.ltb_spec 0 (mode_of r S mt)); [lia|].
Qed.

Lemma propagatemark_ok U g o gs ga ws : rest g = r -> shape g = S -> J [] U g (o :: gs) ga ws ->
  prop_ok U g o gs ga ws (propagatemark g).
Proof.
  intros Hr HS HJ. destruct (pop_gray U g o gs ga ws HJ) as (x & Ho & Hx & W & B & Hl & Hni & Hw & J1 & M1 & Hh1).
  set (g1 := set_gray (recolor g o gray2black) (gclist x)) in *.
  assert (rest g1 = r) as Hr1 by by rewrite (pm_rest _ _ _ _ _ M1). assert (shape g1 = S) as HS1 by by rewrite (pm_shape _ _ _ _ _ M1).
  assert (heap g1 !! o = Some (set_marked gray2black x)) as Hx1 by by rewrite Hh1, lookup_insert_eq.
  assert (S !! o = Some (norm (body x))) as Hb by by rewrite <- HS, shape_lookup, Hx.
  assert (iswhite (marked (set_marked gray2black x)) = false) as W1 by (cbn; by autorewrite with color).
  assert (isblack (marked (set_marked gray2black x)) = true) as B1 by (cbn; by autorewrite with color).
  unfold propagatemark. rewrite Ho, (obj_at_ok _ _ _ Hx). cbn [mbind res_bind]. fold g1.
  cut (prop_ok U g1 o gs ga ws match body x with
     | BTab _ _ => '(g, weak) ← gc_traverse_tab g1 o; Ok (if 0 <? weak then recolor g o black2gray else g)
     | BFuncL _ _ _ | BFuncC _ _ => gc_traverse_func g1 o
     | BProto _ _ _ _ _ => gc_traverse_proto g1 o
     | BThread _ => gc_traverse_thread (recolor (push_grayagain g1 o) o black2gray) o
     | BTrace T => gc_traverse_trace g1 T
     | _ => Err GC_UB end).
  { intros (g' & gs' & da & dw & E & J' & M & N). exists g', gs', da, dw. split; [done|]. split; [done|]. split; [|done].
    by apply pm_trans with g1 gs. }
  rewrite elem_of_app in Hni. destruct (body x) as [|[]|th|cn k tr fs|env pt uvs|env up|T| |t mt|]; try discriminate Hl; cbn [norm] in Hb.
  - eapply prop_thread; [done|done|done|done|tauto|done|done|exact Hb].
  - eapply prop_marks with (F := fun g => gc_traverse_proto g o); [done|done|done|done|done|done|done|exact Hb|done|done|by apply marks_proto].
  - eapply prop_marks with (F := fun g => gc_traverse_func g o); [done|done|done|done|done|done|done|exact Hb|done|done|by apply marks_func].
  - eapply prop_marks with (F := fun g => gc_traverse_func g o); [done|done|done|done|done|done|done|exact Hb|done|done|by apply marks_func].
  - eapply prop_marks with (F := fun g => gc_traverse_trace g T); [done|done|done|done|done|done|done|exact Hb|done|done|].
    apply marks_traverse_trace. apply (w_body _ _ Wf o _ Hb).
  - by eapply prop_tab; [..|exact Hb].
Qed.

(** ** All gray objects *)

(** What propagation does to the state; the objects in the other two lists
    keep their marks. *)
Record lp (l : list Z) (g g' : global_State) : Prop := {
  lp_rest : rest g' = rest g;
  lp_shape : shape g' = shape g;
  lp_nw : forall p, nw (heap g) p -> nw (heap g') p;
  lp_keep : forall p x, p ∈ l -> heap g !! p = Some x -> iswhite (marked x) = false ->
    exists x', heap g' !! p = Some x' /\ marked x' = marked x
}.

Lemma lp_refl l g : lp l g g.
Proof. split; eauto. Qed.

Lemma lp_trans l l' g g1 g2 : (forall p, p ∈ l -> p ∈ l') -> lp l g g1 -> lp l' g1 g2 -> lp l g g2.
Proof.
  intros Hl [R1 S1 N1 K1] [R2 S2 N2 K2]. split; [congruence|congruence|auto|].
  intros p x Hp Hx W. destruct (K1 p x Hp Hx W) as (x1 & Hx1 & E1).
  destruct (K2 p x1 (Hl p Hp) Hx1) as (x2 & Hx2 & E2); [congruence|]. exists x2. split; congruence.
Qed.

Lemma pm_lp l o g gs g' gs' : (o ∉ l) -> pm o g gs g' gs' -> lp l g g'.
Proof.
  intros Ho M. split; [apply M|apply M|intros p; by apply (pm_nw _ _ _ _ _ _ M)|].
  intros p x Hp. apply (pm_keep _ _ _ _ _ M). by intros ->.
Qed.

Lemma mk_lp l g gs g' gs' : mk g gs g' gs' -> lp l g g'.
Proof. intros M. split; [apply M|apply M|intros p; by apply (mk_nw _ _ _ _ _ M)|]. intros p x _. apply (mk_keep _ _ _ _ M). Qed.

Lemma lp_hdone l g g' o : lp l g g' -> hdone r S (heap g) o -> hdone r S (heap g') o.
Proof. intros L. apply hdone_mono, L. Qed.

Lemma lp_weak_ok l g g' o : lp l g g' -> (o ∈ l) -> weak_ok (heap g) o -> weak_ok (heap g') o.
Proof.
  intros L Ho (x & t & mt & Hx & Hb & W & Hm & Hv & Hd). destruct (lp_keep _ _ _ L o x Ho Hx W) as (x' & Hx' & E).
  exists x', t, mt. rewrite E. split_and!; try done. by apply done_mono with (heap g), Hd; apply L.
Qed.

Lemma propagate_loop_ok fuel : forall U g gs ga ws, rest g = r -> shape g = S -> J [] U g gs ga ws ->
  (nwhite g + length gs < fuel)%nat ->
  exists g' da dw, propagate_loop fuel g = Ok g' /\ J [] U g' [] (da ++ ga) (dw ++ ws) /\ lp (ga ++ ws) g g' /\
    Forall (hdone r S (heap g')) da /\ Forall (weak_ok (heap g')) dw.
Proof.
  induction fuel as [|fuel IH]; intros U g gs ga ws Hr HS HJ Hf; [lia|]. cbn [propagate_loop].
  destruct gs as [|o gs].
  { pose proof (j_gray _ _ _ _ _ _ HJ) as ->. cbn. exists g, [], []. split_and!; [done|done|apply lp_refl|constructor|constructor]. }
  assert (gc_gray g = o /\ o <> 0) as (Ho & N0). { destruct (j_gray _ _ _ _ _ _ HJ) as (-> & N0 & _). done. }
  rewrite (proj2 (Z.eqb_neq (gc_gray g) 0)) by congruence. cbn [negb].
  assert (o ∉ ga ++ ws) as Hni.
  { pose proof (j_nodup _ _ _ _ _ _ HJ) as N. cbn in N. apply list.NoDup_cons in N as (N & _). rewrite elem_of_app in N. tauto. }
  destruct (propagatemark_ok U g o gs ga ws Hr HS HJ) as (g1 & gs1 & da1 & dw1 & E1 & J1 & M1 & D1 & W1).
  rewrite E1. cbn [mbind res_bind]. pose proof (pm_count _ _ _ _ _ M1) as Hc. cbn [length] in Hf.
  destruct (IH U g1 gs1 (da1 ++ ga) (dw1 ++ ws)) as (g2 & da2 & dw2 & E2 & J2 & L2 & D2 & W2);
    [by rewrite (pm_rest _ _ _ _ _ M1)|by rewrite (pm_shape _ _ _ _ _ M1)|done|lia|].
  exists g2, (da2 ++ da1), (dw2 ++ dw1). split; [done|]. split; [by rewrite <- !app_assoc|]. split; [|split].
  - apply lp_trans with ((da1 ++ ga) ++ dw1 ++ ws) g1; [intros p; rewrite !elem_of_app; tauto|by apply pm_lp with o gs gs1|done].
  - apply Forall_app. split; [done|]. eapply Forall_impl; [|exact D1]. intros p. by apply (lp_hdone _ _ _ _ L2).
  - apply Forall_app. split; [done|]. rewrite Forall_forall in W1 |- *. intros p Hp. apply (lp_weak_ok _ _ _ _ L2); [|by apply W1].
    apply list_elem_of_In in Hp. rewrite !elem_of_app. tauto.
Qed.

Lemma nwhite_size g : (nwhite g <= size (heap g))%nat.
Proof. apply map_subseteq_size, map_filter_subseteq. Qed.

Lemma chain_size h l a : chain h a l -> NoDup l -> (length l <= size h)%nat.
Proof.
  intros C N. rewrite <- (size_list_to_set (C := gset Z)) by done. rewrite <- (size_dom (D := gset Z)).
  apply subseteq_size. intros o Ho. apply elem_of_list_to_set in Ho. destruct (chain_in h l a o C Ho) as (x & Hx).
  by apply elem_of_dom_2 in Hx.
Qed.

Lemma propagate_gray_ok U g gs ga ws : rest g = r -> shape g = S -> J [] U g gs ga ws ->
  exists g' da dw, gc_propagate_gray g = Ok g' /\ J [] U g' [] (da ++ ga) (dw ++ ws) /\ lp (ga ++ ws) g g' /\
    Forall (hdone r S (heap g')) da /\ Forall (weak_ok (heap g')) dw.
Proof.
  intros Hr HS HJ. apply propagate_loop_ok with gs; try done. pose proof (nwhite_size g).
  pose proof (j_nodup _ _ _ _ _ _ HJ) as N. apply list.NoDup_app in N as (N & _).
  pose proof (chain_size _ _ _ (j_gray _ _ _ _ _ _ HJ) N). lia.
Qed.

End Fixed.
End Propagate.
