(* ===== verification/GcAtomic.v ===== *)
(** * The garbage collector: the atomic phase

    After the marking of the atomic phase every object that is not white has
    been traversed, as nothing runs in between; so all that the objects refer
    to is not white either. *)

From S2P Require Import Prelude Machine Num Tab TabKey TabHash TabInv Buf Gc GcInv GcMark GcTrav GcProp.

Section Atomic.
Context `{TE : TabEnv}.

Section Fixed.
Context (r : global_State) (S : gmap Z GCbody).
Context (Wf : wf r S).

(** ** Open upvalues *)

(** From here on the values of the open upvalue [o] are looked after. *)
Lemma J_uv o U g gs ga ws : J [] (o :: U) g gs ga ws ->
  (forall x, heap g !! o = Some x -> isgray (marked x) = true -> is_open (body x) = true -> done (rest g) (shape g) (heap g) o) ->
  J [] U g gs ga ws.
Proof.
  intros HJ H. split; try apply HJ. intros p x Hx. pose proof (j_color _ _ _ _ _ _ HJ p x Hx) as C. unfold color_ok in *.
  destruct (iswhite (marked x)) eqn:W; [done|]. destruct C as [C|(C1 & C)]; [by left|right]. split; [done|].
  destruct (isblack (marked x)) eqn:B; [done|]. destruct C as (C2 & C3 & C4). split; [done|]. split; [done|].
  intros Ho HU. destruct (decide (p = o)) as [->|N].
  - apply (H x Hx); [by rewrite isgray_bits, W, B|done].
  - apply C4; [done|]. rewrite elem_of_cons. tauto.
Qed.

Lemma mark_uv_ok l : Forall (typed S LJ_TUPVAL) l -> forall g gs ga ws, rest g = r -> shape g = S -> J [] l g gs ga ws ->
  exists g' gs', gfold (fun g uv =>
    x ← obj_at g uv;
    if isgray (marked x) then
      match body x with
      | BUpval closed tv th slot => v ← (if closed then Ok tv else stack_at g th slot); gc_marktv g v
      | _ => Err GC_UB
      end
    else Ok g) g l = Ok g' /\ J [] [] g' gs' ga ws /\ mk g gs g' gs'.
Proof.
  induction 1 as [|o l Ho _ IH]; intros g gs ga ws Hr HS HJ.
  { exists g, gs. split; [done|]. split; [done|apply mk_refl]. }
  cbn [gfold]. destruct Ho as (b & Hb & Ht). destruct b as [|closed tv th slot| | | | | | | |]; try discriminate Ht.
  destruct (live_heap S g o HS) as (x & Hx & Hn); [by eexists|]. rewrite Hb in Hn. injection Hn as Hn.
  assert (body x = BUpval closed tv th slot) as Hbx by (by destruct (body x)). clear Hn.
  rewrite (obj_at_ok _ _ _ Hx). cbn [mbind res_bind]. rewrite Hbx. destruct (isgray (marked x)) eqn:G.
  - destruct (uvval_ok r S g o closed tv th slot HS Wf Hb) as (Ev & Hv). fold (uvval g closed tv th slot). rewrite Ev. cbn [mbind res_bind].
    destruct (marks_tv r S _ Hv) with (X := @nil Z) (U := o :: l) (g := g) (gs := gs) (ga := ga) (ws := ws)
      as (g1 & gs1 & E1 & J1 & M1 & N1); try done.
    assert (rest g1 = r) as Hr1 by by rewrite (mk_rest _ _ _ _ M1). assert (shape g1 = S) as HS1 by by rewrite (mk_shape _ _ _ _ M1).
    destruct (IH g1 gs1 ga ws Hr1 HS1) as (g2 & gs2 & E2 & J2 & M2).
    { apply J_uv with o; [done|]. intros y _ _ _. rewrite Hr1, HS1. by exists (BUpval closed tv th slot). }
    exists g2, gs2. rewrite E1. split; [done|]. split; [done|]. by apply mk_trans with g1 gs1.
  - destruct (IH g gs ga ws Hr HS) as (g2 & gs2 & E2 & J2 & M2); [|by exists g2, gs2].
    apply J_uv with o; [done|]. intros y Hy G'. congruence.
Qed.

Lemma marks_gcroot : marks r S gc_mark_gcroot (flat_map optref (gcroot r)).
Proof.
  apply marks_ext with (F := fun g => gfold gc_markref g (gcroot r)) (ts := flat_map optref (gcroot r)); [|done|].
  - intros g Hr _. unfold gc_mark_gcroot. by replace (gcroot g) with (gcroot r) by by rewrite <- Hr.
  - apply marks_gfold. eapply Forall_impl; [|apply (w_gcroot _ _ Wf)]. intros o. apply marks_ref.
Qed.

Lemma marks_curtrace : marks r S gc_traverse_curtrace (trace_refs r (jit_cur r)).
Proof.
  apply marks_ext with (F := fun g => gc_traverse_trace g (jit_cur r)) (ts := trace_refs r (jit_cur r)); [|done|].
  - intros g Hr _. unfold gc_traverse_curtrace. by replace (jit_cur g) with (jit_cur r) by by rewrite <- Hr.
  - apply marks_traverse_trace, (w_cur _ _ Wf).
Qed.

(** ** Lists *)

(** The lists are exchanged. *)
Lemma J_lists U g g' gs ga ws gs' ga' ws' : J [] U g gs ga ws -> heap g' = heap g -> rest g' = rest g ->
  chain (heap g) (gc_gray g') gs' -> chain (heap g) (gc_grayagain g') ga' -> chain (heap g) (gc_weak g') ws' ->
  NoDup (gs' ++ ga' ++ ws') -> (forall p, (p ∈ (gs ++ ga) ++ ws) <-> (p ∈ (gs' ++ ga') ++ ws')) -> J [] U g' gs' ga' ws'.
Proof.
  intros HJ Hh Hr C1 C2 C3 N H. assert (shape g' = shape g) as HS by by (unfold shape; rewrite Hh).
  split; rewrite ?Hh, ?Hr, ?HS; try done; try apply HJ.
  intros o x Hx. pose proof (j_color _ _ _ _ _ _ HJ o x Hx) as C. specialize (H o). rewrite (elem_of_app _ ws), (elem_of_app _ ws') in H.
  unfold color_ok in *. destruct (iswhite (marked x)); [tauto|].
  destruct C as [(C & _)|(C1' & C)]; [by apply elem_of_nil in C|right]. split; [done|].
  destruct (isblack (marked x)); [tauto|]. destruct C as (? & ? & ?). split; [done|]. split; [tauto|done].
Qed.

Lemma J_weak_gray U g ga ws : J [] U g [] ga ws -> J [] U (set_weak (set_gray g (gc_weak g)) 0) ws ga [].
Proof.
  intros HJ. apply J_lists with g [] ga ws; try done; try apply HJ.
  - pose proof (j_nodup _ _ _ _ _ _ HJ) as N. cbn in N. rewrite app_nil_r. eapply NoDup_Permutation_proper; [apply Permutation_app_comm|done].
  - intros p. rewrite app_nil_r, !elem_of_app, elem_of_nil. tauto.
Qed.

Lemma J_again_gray U g ga ws : J [] U g [] ga ws -> J [] U (set_grayagain (set_gray g (gc_grayagain g)) 0) ga [] ws.
Proof.
  intros HJ. apply J_lists with g [] ga ws; try done; try apply HJ.
  intros p. rewrite app_nil_r, !elem_of_app, elem_of_nil. tauto.
Qed.

(** What is in the lists can be listed. *)
Lemma J_listed U g gs ga ws o x : J [] U g gs ga ws -> heap g !! o = Some x -> (o ∈ (gs ++ ga) ++ ws) ->
  listable (body x) = true.
Proof.
  intros HJ Hx Hl. pose proof (j_color _ _ _ _ _ _ HJ o x Hx) as C. unfold color_ok in C. rewrite elem_of_app in Hl.
  destruct (iswhite (marked x)); [tauto|]. destruct C as [(C & _)|(_ & C)]; [by apply elem_of_nil in C|].
  destruct (isblack (marked x)); [tauto|]. destruct C as (_ & C & _). tauto.
Qed.

(** ** Userdata *)

Lemma color_same X U l ws o x f h : iswhite (f (marked x)) = iswhite (marked x) -> isblack (f (marked x)) = isblack (marked x) ->
  (isdead r (marked x) = false -> isdead r (f (marked x)) = false) ->
  color_ok r S h X U l ws o x -> color_ok r S h X U l ws o (set_marked f x).
Proof. intros E1 E2 E3. unfold color_ok. cbn [set_marked marked body]. rewrite E1, E2. destruct (iswhite (marked x)); tauto. Qed.

Lemma J_finalized U g gs ga ws o x mt env : rest g = r -> shape g = S -> J [] U g gs ga ws ->
  heap g !! o = Some x -> S !! o = Some (BUdata mt env) ->
  J [] U (recolor g o markfinalized) gs ga ws /\ lp (gs ++ ga ++ ws) g (recolor g o markfinalized).
Proof.
  intros Hr HS HJ Hx Hb. pose proof (heap_upd g o (set_marked markfinalized) x Hx) as Hh. fold (recolor g o markfinalized) in Hh.
  split.
  - apply J_recolor with [] x; try done; [by autorewrite with color|]. rewrite Hr, HS. apply color_same.
    1-2: by autorewrite with color.
    + by rewrite isdead_markfinalized.
    + eapply color_ok_mono; [|done..|]; [|rewrite <- Hr, <- HS at 1; apply (j_color _ _ _ _ _ _ HJ o x Hx)].
      intros p. rewrite Hh. apply nw_upd with x; [done|]. cbn. by autorewrite with color.
  - apply pm_lp with o gs gs; [|eapply pm_upd; [exact Hx|exact Hh|done|done|cbn; by autorewrite with color|done]].
    rewrite app_assoc. intros Hl. apply (J_listed U g gs ga ws o x HJ Hx) in Hl.
    pose proof (norm_inv S g o x _ HS Hb Hx) as Hn. by destruct (body x).
Qed.

Lemma separate_loop_ok all l : Forall (typed S LJ_TUDATA) l -> forall U g gs ga ws,
  rest g = r -> shape g = S -> J [] U g gs ga ws ->
  exists g' u m, separate_loop g all l = Ok (g', u, m) /\ J [] U g' gs ga ws /\ lp (gs ++ ga ++ ws) g g' /\
    Forall (typed S LJ_TUDATA) u /\ Forall (typed S LJ_TUDATA) m /\ Permutation l (u ++ m).
Proof.
  induction 1 as [|o l Ho _ IH]; intros U g gs ga ws Hr HS HJ.
  { exists g, [], []. split_and!; [done|done|apply lp_refl|done|done|done]. }
  cbn [separate_loop]. pose proof Ho as (b & Hb & Ht). destruct b as [| | | | | | | | |mt env]; try discriminate Ht.
  destruct (live_heap S g o HS) as (x & Hx & Hn); [by eexists|]. rewrite Hb in Hn. injection Hn as Hn.
  assert (body x = BUdata mt env) as Hbx by (by destruct (body x)). clear Hn.
  rewrite (obj_at_ok _ _ _ Hx). cbn [mbind res_bind]. rewrite Hbx.
  destruct (negb (iswhite (marked x) || all) || isfinalized (marked x)).
  - destruct (IH U g gs ga ws Hr HS HJ) as (g' & u & m & E & J' & L & Hu & Hm & Hp). rewrite E. cbn [mbind res_bind].
    exists g', (o :: u), m. split_and!; [done|done|done|by constructor|done|]. cbn. by constructor.
  - destruct (w_body _ _ Wf o _ Hb) as (Hmt & _).
    destruct (fastg_ok r S Wf [] U g gs ga ws mt MM_gc Hr HS HJ Hmt) as (g1 & mo & E1 & J1 & M1 & _ & _); [by left|].
    rewrite E1. cbn [mbind res_bind].
    assert (rest g1 = r) as Hr1 by by rewrite (mk_rest _ _ _ _ M1). assert (shape g1 = S) as HS1 by by rewrite (mk_shape _ _ _ _ M1).
    destruct (live_heap S g1 o HS1) as (x1 & Hx1 & _); [by eexists|].
    destruct (J_finalized U g1 gs ga ws o x1 mt env Hr1 HS1 J1 Hx1 Hb) as (J2 & L2).
    destruct (IH U (recolor g1 o markfinalized) gs ga ws) as (g' & u & m & E & J' & L & Hu & Hm & Hp);
      [done|by rewrite (lp_shape _ _ _ L2)|done|].
    rewrite E. cbn [mbind res_bind].
    assert (lp (gs ++ ga ++ ws) g g') as L'.
    { eapply lp_trans; [|by eapply mk_lp|]; [|eapply lp_trans; [|exact L2|exact L]]; done. }
    destruct mo.
    + exists g', u, (o :: m). split_and!; [done|done|done|done|by constructor|]. rewrite Hp. apply Permutation_middle.
    + exists g', (o :: u), m. split_and!; [done|done|done|by constructor|done|]. cbn. by constructor.
Qed.

Lemma J_set_udata X U g gs ga ws u m : J X U g gs ga ws -> Forall (typed (shape g) LJ_TUDATA) u -> Forall (typed (shape g) LJ_TUDATA) m ->
  J X U (set_udata g u (gc_mmudata g ++ m)) gs ga ws.
Proof.
  intros HJ Hu Hm. split; try apply HJ. destruct (j_wf _ _ _ _ _ _ HJ). split; try done.
  apply Forall_app. split; [done|]. eapply Forall_impl; [|exact Hm]. by left.
Qed.

(** *** Marking the userdata to be finalized *)

Lemma mark_mmudata_one U g gs ga ws o : rest g = r -> shape g = S -> J [] U g gs ga ws ->
  typed S LJ_TUDATA o \/ typed S LJ_TCDATA o ->
  exists g' gs', gc_mark mark_depth (recolor g o (makewhite g)) o = Ok g' /\ J [] U g' gs' ga ws /\ lp (ga ++ ws) g g' /\ nw (heap g') o.
Proof.
  intros Hr HS HJ Ht. assert (live S o) as Ho by by destruct Ht as [Ht|Ht]; apply typed_live in Ht.
  destruct (live_heap S g o HS Ho) as (x & Hx & Hb). set (g0 := recolor g o (makewhite g)).
  assert (heap g0 !! o = Some (set_marked (makewhite g) x)) as Hx0.
  { unfold g0, recolor. rewrite heap_upd with (x := x) by done. apply lookup_insert_eq. }
  assert (listable (body x) = false /\ (grayable (body x) = true -> body x = BCdata) /\
    (grayable (body x) = false -> exists mt env, body x = BUdata mt env)) as (Hl & Hc & Hu).
  { destruct Ht as [(b & Hb' & Ht)|(b & Hb' & Ht)]; rewrite Hb in Hb'; injection Hb' as <-;
      destruct (body x) as [|[]| | | | | | | |]; try discriminate Ht; split_and!; try done; eauto. }
  assert (o ∉ (gs ++ ga) ++ ws) as Hni by (intros Hin; pose proof (J_listed U g gs ga ws o x HJ Hx Hin); congruence).
  rewrite elem_of_app in Hni. assert (o ∉ ga ++ ws) as Hni' by (rewrite !elem_of_app in Hni; rewrite elem_of_app; tauto).
  unfold mark_depth. rewrite (gc_mark_S _ _ _ _ Hx0). cbn [set_marked body]. cbv zeta. unfold g0. rewrite recolor_recolor.
  destruct (grayable (body x)) eqn:Hg.
  - rewrite (Hc eq_refl). set (f := fun m => white2gray (makewhite g m)).
    pose proof (heap_upd g o (set_marked f) x Hx) as Hh. fold (recolor g o f) in Hh.
    assert (iswhite (f (marked x)) = false /\ isblack (f (marked x)) = false) as (W & B) by (unfold f; by autorewrite with color).
    exists (recolor g o f), gs. split; [done|]. split; [|split].
    + apply J_recolor with [] x; try done. unfold color_ok. cbn [set_marked marked body]. rewrite W, B, (Hc eq_refl). right.
      split; [apply not_elem_of_nil|]. split; [done|]. split; [|done]. cbn. split; [done|tauto].
    + apply pm_lp with o gs gs; [done|]. by eapply pm_upd; [exact Hx|exact Hh|done|done|cbn; rewrite W|].
    + eexists. rewrite Hh, lookup_insert_eq. by split.
  - destruct (Hu eq_refl) as (mt & env & Hbx). rewrite Hbx, recolor_recolor. rewrite Hbx in Hb.
    set (f := fun m => gray2black (white2gray (makewhite g m))).
    pose proof (heap_upd g o (set_marked f) x Hx) as Hh. fold (recolor g o f) in Hh.
    assert (iswhite (f (marked x)) = false /\ isblack (f (marked x)) = true) as (W & B) by (unfold f; by autorewrite with color).
    assert (J [o] U (recolor g o f) gs ga ws) as J1 by (apply J_exempt with x; try done; tauto).
    assert (pm o g gs (recolor g o f) gs) as M1 by (by eapply pm_upd; [exact Hx|exact Hh|done|done|cbn; rewrite W|]).
    destruct (udata_children r S 1 o mt env [] U (recolor g o f) gs ga ws (set_marked f x))
      as (g2 & gs2 & E2 & J2 & M2 & N2); try done.
    + by rewrite (pm_shape _ _ _ _ _ M1).
    + apply not_elem_of_nil.
    + tauto.
    + rewrite Hh. apply lookup_insert_eq.
    + exists g2, gs2. split; [exact E2|]. split; [done|]. split; [|done].
      eapply lp_trans; [|by apply pm_lp with o gs gs|by eapply mk_lp]. done.
Qed.

Lemma mark_mmudata_ok l : Forall (fun o => typed S LJ_TUDATA o \/ typed S LJ_TCDATA o) l -> forall U g gs ga ws,
  rest g = r -> shape g = S -> J [] U g gs ga ws ->
  exists g' gs', gfold (fun g u => gc_mark mark_depth (recolor g u (makewhite g)) u) g l = Ok g' /\
    J [] U g' gs' ga ws /\ lp (ga ++ ws) g g' /\ Forall (nw (heap g')) l.
Proof.
  induction 1 as [|o l Ho _ IH]; intros U g gs ga ws Hr HS HJ.
  { exists g, gs. split_and!; [done|done|apply lp_refl|constructor]. }
  cbn [gfold]. destruct (mark_mmudata_one U g gs ga ws o Hr HS HJ Ho) as (g1 & gs1 & E1 & J1 & L1 & N1).
  rewrite E1. cbn [mbind res_bind].
  destruct (IH U g1 gs1 ga ws) as (g2 & gs2 & E2 & J2 & L2 & N2);
    [by rewrite (lp_rest _ _ _ L1)|by rewrite (lp_shape _ _ _ L1)|done|].
  exists g2, gs2. split; [done|]. split; [done|]. split; [by eapply lp_trans; [|exact L1|exact L2]|].
  constructor; [|done]. by apply (lp_nw _ _ _ L2).
Qed.

End Fixed.

(** ** The marking of the atomic phase *)

Section Phase.
Context (r : global_State) (S : gmap Z GCbody).
Context (Wf : wf r S).

(** Up to the traversal of the objects in the second chance list. *)
Lemma atomic_roots_ok g L gs ga ws : rest g = r -> shape g = S -> J [] (uvhead g) g gs ga ws -> live S L ->
  exists g' da dw, (g ← gc_mark_uv g; g ← gc_propagate_gray g;
      let g := set_weak (set_gray g (gc_weak g)) 0 in
      g ← gc_markobj g L; g ← gc_traverse_curtrace g; g ← gc_mark_gcroot g; g ← gc_propagate_gray g;
      let g := set_grayagain (set_gray g (gc_grayagain g)) 0 in gc_propagate_gray g) = Ok g' /\
    J [] [] g' [] da dw /\ rest g' = r /\ shape g' = S /\ (forall p, nw (heap g) p -> nw (heap g') p) /\
    Forall (hdone r S (heap g')) da /\ Forall (weak_ok r S (heap g')) dw /\
    Forall (nw (heap g')) ([L] ++ trace_refs r (jit_cur r) ++ flat_map optref (gcroot r)).
Proof.
  intros Hr HS HJ HL.
  assert (Forall (typed S LJ_TUPVAL) (uvhead g)) as Huv. { pose proof (w_uvhead _ _ Wf) as H. by rewrite <- Hr in H. }
  destruct (mark_uv_ok r S Wf (uvhead g) Huv g gs ga ws Hr HS HJ) as (g1 & gs1 & E1 & J1 & M1).
  fold (gc_mark_uv g) in E1. rewrite E1. cbn [mbind res_bind].
  assert (rest g1 = r) as Hr1 by by rewrite (mk_rest _ _ _ _ M1). assert (shape g1 = S) as HS1 by by rewrite (mk_shape _ _ _ _ M1).
  destruct (propagate_gray_ok r S Wf [] g1 gs1 ga ws Hr1 HS1 J1) as (g2 & da2 & dw2 & E2 & J2 & L2 & _ & _).
  rewrite E2. cbn [mbind res_bind]. apply J_weak_gray in J2. set (g2' := set_weak (set_gray g2 (gc_weak g2)) 0) in *.
  assert (rest g2' = r) as Hr2 by (change (rest g2 = r); by rewrite (lp_rest _ _ _ L2)).
  assert (shape g2' = S) as HS2 by (change (shape g2 = S); by rewrite (lp_shape _ _ _ L2)).
  assert (marks r S (fun g => g ← gc_markobj g L; g ← gc_traverse_curtrace g; gc_mark_gcroot g)
    ([L] ++ trace_refs r (jit_cur r) ++ flat_map optref (gcroot r))) as HM.
  { apply (marks_bind r S (fun g => gc_markobj g L) (fun g => g ← gc_traverse_curtrace g; gc_mark_gcroot g)); [by apply marks_obj|].
    apply (marks_bind r S gc_traverse_curtrace gc_mark_gcroot); [by apply marks_curtrace|by apply marks_gcroot]. }
  destruct (HM _ _ _ _ _ _ Hr2 HS2 J2) as (g3 & gs3 & E3 & J3 & M3 & N3).
  assert (rest g3 = r) as Hr3 by by rewrite (mk_rest _ _ _ _ M3). assert (shape g3 = S) as HS3 by by rewrite (mk_shape _ _ _ _ M3).
  destruct (propagate_gray_ok r S Wf [] g3 gs3 (da2 ++ ga) [] Hr3 HS3 J3) as (g4 & da4 & dw4 & E4 & J4 & L4 & D4 & W4).
  rewrite app_nil_r in J4. apply J_again_gray in J4. set (g4' := set_grayagain (set_gray g4 (gc_grayagain g4)) 0) in *.
  assert (rest g4' = r) as Hr4 by (change (rest g4 = r); by rewrite (lp_rest _ _ _ L4)).
  assert (shape g4' = S) as HS4 by (change (shape g4 = S); by rewrite (lp_shape _ _ _ L4)).
  destruct (propagate_gray_ok r S Wf [] g4' _ [] dw4 Hr4 HS4 J4) as (g5 & da5 & dw5 & E5 & J5 & L5 & D5 & W5).
  assert (forall p, nw (heap g3) p -> nw (heap g5) p) as N35.
  { intros p Hp. apply (lp_nw _ _ _ L5). change (nw (heap g4) p). by apply (lp_nw _ _ _ L4). }
  exists g5, da5, (dw5 ++ dw4). rewrite app_nil_r in J5. split_and!; try done.
  - cbv zeta. fold g2'. destruct (gc_markobj g2' L) as [h1|]; [|done]. cbn [mbind res_bind] in E3 |- *.
    destruct (gc_traverse_curtrace h1) as [h2|]; [|done]. cbn [mbind res_bind] in E3 |- *. rewrite E3. cbn [mbind res_bind].
    rewrite E4. cbn [mbind res_bind]. exact E5.
  - by rewrite (lp_rest _ _ _ L5).
  - by rewrite (lp_shape _ _ _ L5).
  - intros p Hp. apply N35, (mk_nw _ _ _ _ _ M3). change (nw (heap g2) p). by apply (lp_nw _ _ _ L2), (mk_nw _ _ _ _ _ M1).
  - apply Forall_app. split; [done|]. rewrite Forall_forall in W4 |- *. intros p Hp. apply (lp_weak_ok r S _ _ _ _ L5); [|by apply W4].
    by apply list_elem_of_In.
  - eapply Forall_impl; [|exact N3]. done.
Qed.

Lemma atomic_mark_ok g L gs ga ws : rest g = r -> shape g = S -> J [] (uvhead g) g gs ga ws -> live S L ->
  exists g' u m da dw, atomic_mark g L = Ok g' /\ J [] [] g' [] da dw /\
    rest g' = set_udata r u (gc_mmudata r ++ m) /\ shape g' = S /\ Permutation (gc_udata r) (u ++ m) /\
    (forall p, nw (heap g) p -> nw (heap g') p) /\
    Forall (hdone r S (heap g')) da /\ Forall (weak_ok r S (heap g')) dw /\
    Forall (nw (heap g')) ([L] ++ trace_refs r (jit_cur r) ++ flat_map optref (gcroot r) ++ gc_mmudata r ++ m).
Proof.
  intros Hr HS HJ HL.
  destruct (atomic_roots_ok g L gs ga ws Hr HS HJ HL) as (g5 & da5 & dw5 & E5 & J5 & Hr5 & HS5 & N5 & D5 & W5 & R5).
  assert (Forall (typed S LJ_TUDATA) (gc_udata g5)) as Hu5. { pose proof (w_udata _ _ Wf) as H. by rewrite <- Hr5 in H. }
  destruct (separate_loop_ok r S Wf false (gc_udata g5) Hu5 [] g5 [] da5 dw5 Hr5 HS5 J5) as (g6 & u & m & E6 & J6 & L6 & Hu & Hm & Hp).
  assert (rest g6 = r) as Hr6 by by rewrite (lp_rest _ _ _ L6). assert (shape g6 = S) as HS6 by by rewrite (lp_shape _ _ _ L6).
  assert (gc_mmudata g6 = gc_mmudata r) as Hmm by by rewrite <- Hr6.
  assert (J [] [] (set_udata g6 u (gc_mmudata g6 ++ m)) [] da5 dw5) as J6' by (apply J_set_udata; rewrite ?HS6; done).
  set (g6' := set_udata g6 u (gc_mmudata g6 ++ m)) in *. set (r' := set_udata r u (gc_mmudata r ++ m)).
  assert (rest g6' = r') as Hr6' by (unfold r'; by rewrite <- Hr6).
  assert (wf r' S) as Wf'. { rewrite <- Hr6'. rewrite <- HS6. apply (j_wf _ _ _ _ _ _ J6'). }
  destruct (mark_mmudata_ok r' S (gc_mmudata g6 ++ m)) with (U := @nil Z) (g := g6') (gs := @nil Z) (ga := da5) (ws := dw5)
    as (g7 & gs7 & E7 & J7 & L7 & N7); try done.
  { rewrite Hmm. apply (w_mmudata _ _ Wf'). }
  destruct (propagate_gray_ok r' S Wf' [] g7 gs7 da5 dw5) as (g8 & da8 & dw8 & E8 & J8 & L8 & D8 & W8);
    [by rewrite (lp_rest _ _ _ L7)|by rewrite (lp_shape _ _ _ L7)|done|].
  pose proof (lp_trans _ (da5 ++ dw5) _ _ _ (fun p H => H) L7 L8) as L78.
  assert (forall p, nw (heap g5) p -> nw (heap g8) p) as N58.
  { intros p Hq. apply (lp_nw _ _ _ L78). change (nw (heap g6) p). by apply (lp_nw _ _ _ L6). }
  exists g8, u, m, (da8 ++ da5), (dw8 ++ dw5). split_and!; try done.
  - unfold atomic_mark. cbv zeta. cbv zeta in E5. destruct (gc_mark_uv g) as [h1|]; [|done]. cbn [mbind res_bind] in E5 |- *.
    destruct (gc_propagate_gray h1) as [h2|]; [|done]. cbn [mbind res_bind] in E5 |- *.
    destruct (gc_markobj _ L) as [h3|]; [|done]. cbn [mbind res_bind] in E5 |- *.
    destruct (gc_traverse_curtrace h3) as [h4|]; [|done]. cbn [mbind res_bind] in E5 |- *.
    destruct (gc_mark_gcroot h4) as [h5|]; [|done]. cbn [mbind res_bind] in E5 |- *.
    destruct (gc_propagate_gray h5) as [h6|]; [|done]. cbn [mbind res_bind] in E5 |- *. rewrite E5. cbn [mbind res_bind].
    unfold lj_gc_separateudata. rewrite E6. cbn [mbind res_bind]. fold g6'. unfold gc_mark_mmudata.
    change (gc_mmudata g6') with (gc_mmudata g6 ++ m). rewrite E7. cbn [mbind res_bind]. exact E8.
  - by rewrite (lp_rest _ _ _ L78).
  - by rewrite (lp_shape _ _ _ L78).
  - replace (gc_udata r) with (gc_udata g5) by by rewrite <- Hr5. done.
  - intros p Hq. by apply N58, N5.
  - apply Forall_app. split; [done|]. eapply Forall_impl; [|exact D5]. intros p. by apply hdone_mono.
  - apply Forall_app. split; [done|]. rewrite Forall_forall in W5 |- *. intros p Hq. apply list_elem_of_In in Hq as Hq'.
    apply (lp_weak_ok r S _ _ _ _ L78); [rewrite elem_of_app; by right|].
    apply (lp_weak_ok r S _ g5 g6 _ L6); [rewrite !elem_of_app; tauto|by apply W5].
  - rewrite !app_assoc, <- (app_assoc (_ ++ _)). apply Forall_app. split.
    + rewrite <- app_assoc. by eapply Forall_impl; [|exact R5].
    + rewrite <- Hmm. eapply Forall_impl; [|exact N7]. intros p. apply (lp_nw _ _ _ L8).
Qed.

(** Everything that is not white has been traversed. *)
Lemma all_done g da ws : rest g = r -> shape g = S -> J [] [] g [] da ws -> Forall (hdone r S (heap g)) da ->
  forall o, nw (heap g) o -> o ∈ ws \/ hdone r S (heap g) o.
Proof.
  intros Hr HS HJ Hd o (x & Hx & W). pose proof (j_color _ _ _ _ _ _ HJ o x Hx) as C. unfold color_ok in C. rewrite W, Hr, HS in C.
  destruct C as [(C & _)|(_ & C)]; [by apply elem_of_nil in C|]. destruct (isblack (marked x)); [tauto|].
  destruct C as (Hg & Hl & Hu). assert (S !! o = Some (norm (body x))) as Hb by by rewrite <- HS, shape_lookup, Hx.
  destruct (listable (body x)) eqn:Hli.
  - destruct (proj1 Hl eq_refl) as [H|H]; [right|by left]. rewrite Forall_forall in Hd. apply Hd. by apply list_elem_of_In.
  - right. exists (norm (body x)). split; [done|]. destruct (is_open (body x)) eqn:Ho.
    + destruct (Hu eq_refl (not_elem_of_nil _)) as (b & Hb' & F). rewrite Hb in Hb'. injection Hb' as <-. by destruct (body x) as [|[]| | | | | | | |].
    + destruct (body x) as [|[]| | | | | | | |]; try done; constructor.
Qed.

End Phase.
End Atomic.
