(* ===== verification/GcWeak.v ===== *)
(** * The garbage collector: clearing weak tables

    [cleared] relates a table to what the clearing leaves of it: some values
    have become nil, but never one of a pair of strings, so the modes of the
    tables stay.  Clearing marks the strings it meets and nothing else. *)

From S2P Require Import Prelude Machine Num Tab TabKey TabHash TabInv Buf Gc GcInv GcMark GcTrav GcProp GcAtomic.

Section Weak.
Context `{TE : TabEnv}.

(** ** What clearing does to the tables and to the heap *)

Definition cleared_node (n n' : Node) : Prop :=
  key n' = key n /\ next n' = next n /\
  (val n' = val n \/ val n' = Tnil /\ ~ (tvisstr (key n) = true /\ tvisstr (val n) = true)).

Definition cleared (t t' : GCtab) : Prop :=
  hmask t' = hmask t /\ asize t' = asize t /\ Forall2 cleared_node (node t) (node t').

Inductive cleared_body : GCbody -> GCbody -> Prop :=
| cleared_same b : cleared_body b b
| cleared_tab t t' mt : cleared t t' -> cleared_body (BTab t mt) (BTab t' mt).

#[export] Instance cleared_node_preorder : PreOrder cleared_node.
Proof.
  split; [intros n; split_and!; auto|].
  intros n1 n2 n3 (K1 & X1 & V1) (K2 & X2 & V2). split; [congruence|]. split; [congruence|].
  destruct V2 as [V2|(V2 & H2)]; [by rewrite V2|]. destruct V1 as [V1|V1]; [|right; by split; [|apply V1]].
  right. split; [done|]. by rewrite <- K1, <- V1.
Qed.

Lemma cleared_trans t1 t2 t3 : cleared t1 t2 -> cleared t2 t3 -> cleared t1 t3.
Proof.
  intros (M1 & A1 & N1) (M2 & A2 & N2). split; [congruence|]. split; [congruence|].
  by transitivity (node t2).
Qed.

Lemma cleared_body_trans b1 b2 b3 : cleared_body b1 b2 -> cleared_body b2 b3 -> cleared_body b1 b3.
Proof. intros [b|t t' mt H] H2; [done|]. inversion H2 as [|t1 t2 mt' H']; subst; constructor; [done|]. by apply cleared_trans with t'. Qed.

Lemma cleared_body_otype b b' : cleared_body b b' -> otype b' = otype b.
Proof. by intros []. Qed.

(** The marks: only strings are marked. *)
Definition str_marked (x x' : GCobj) : Prop :=
  marked x' = marked x \/ (exists s, body x = BStr s) /\ marked x' = white2gray (marked x).

Record cw (l : list Z) (g g' : global_State) : Prop := {
  cw_rest : rest g' = rest g;
  cw_obj : forall p x, heap g !! p = Some x -> exists x', heap g' !! p = Some x' /\ gclist x' = gclist x /\ str_marked x x' /\
    cleared_body (body x) (body x') /\ (p ∉ l -> body x' = body x);
  cw_none : forall p, heap g !! p = None -> heap g' !! p = None
}.

Lemma cw_refl g : cw [] g g.
Proof. split; [done| |done]. intros p x Hx. exists x. split_and!; try done; [by left|constructor]. Qed.

Lemma cw_trans l1 l2 g g1 g2 : cw l1 g g1 -> cw l2 g1 g2 -> cw (l1 ++ l2) g g2.
Proof.
  intros [R1 O1 N1] [R2 O2 N2]. split; [congruence| |auto]. intros p x Hx.
  destruct (O1 p x Hx) as (x1 & Hx1 & C1 & M1 & B1 & S1). destruct (O2 p x1 Hx1) as (x2 & Hx2 & C2 & M2 & B2 & S2).
  exists x2. split; [done|]. split; [congruence|]. split; [|split; [by apply cleared_body_trans with (body x1)|]].
  - destruct M1 as [M1|((s & Hs) & M1)]; unfold str_marked in *; rewrite M1 in M2.
    + destruct M2 as [M2|((s & Hs) & M2)]; [by left|right]. split; [|done]. exists s. rewrite Hs in B1. by inversion B1.
    + right. split; [by exists s|]. destruct M2 as [M2|(_ & M2)]; rewrite M2; [done|].
      apply white2gray_id. by autorewrite with color.
  - rewrite elem_of_app. intros H. rewrite S2, S1; tauto.
Qed.

Lemma cw_nw l g g' p : cw l g g' -> nw (heap g) p -> nw (heap g') p.
Proof.
  intros C (x & Hx & W). destruct (cw_obj _ _ _ C p x Hx) as (x' & Hx' & _ & M & _). exists x'. split; [done|].
  destruct M as [->|(_ & ->)]; [done|]. by autorewrite with color.
Qed.

(** Objects of the types the shape tells. *)
Definition agrees (S : gmap Z GCbody) (g : global_State) : Prop :=
  forall p b, S !! p = Some b -> exists x, heap g !! p = Some x /\ otype (body x) = otype b.

Lemma agrees_shape g : agrees (shape g) g.
Proof.
  intros p b Hb. rewrite shape_lookup in Hb. destruct (heap g !! p) as [x|]; [|done]. injection Hb as <-.
  exists x. split; [done|]. by destruct (body x).
Qed.

Lemma agrees_cw S l g g' : cw l g g' -> agrees S g -> agrees S g'.
Proof.
  intros C A p b Hb. destruct (A p b Hb) as (x & Hx & Ht). destruct (cw_obj _ _ _ C p x Hx) as (x' & Hx' & _ & _ & B & _).
  exists x'. split; [done|]. rewrite <- Ht. by apply cleared_body_otype.
Qed.

(** ** Clearing one table *)

Section Fixed.
Context (S : gmap Z GCbody).

Lemma mark_str_cw g s : agrees S g -> typed S LJ_TSTR s ->
  exists g', gc_mark_str g s = Ok g' /\ cw [] g g' /\ nw (heap g') s.
Proof.
  intros A (b & Hb & Ht). destruct (A s b Hb) as (x & Hx & Ht'). unfold gc_mark_str. rewrite (obj_at_ok _ _ _ Hx). cbn [mbind res_bind].
  pose proof (heap_upd g s (set_marked white2gray) x Hx) as Hh. fold (recolor g s white2gray) in Hh.
  eexists. split; [done|]. split; [split; [done| |]|].
  - intros p y Hy. rewrite Hh. destruct (decide (p = s)) as [->|N].
    + rewrite lookup_insert_eq. assert (y = x) as -> by congruence. eexists. split; [done|]. split; [done|]. split; [right|split; [constructor|done]].
      split; [|done]. rewrite Ht in Ht'. destruct (body x) as [|[]| | | | | | | |]; try discriminate Ht'. eauto.
    + rewrite lookup_insert_ne by done. exists y. split_and!; try done; [by left|constructor].
  - intros p Hp. rewrite Hh. rewrite lookup_insert_ne; [done|]. intros ->. congruence.
  - eexists. rewrite Hh, lookup_insert_eq. split; [done|]. cbn. by autorewrite with color.
Qed.

Lemma mayclear_ok g o v : agrees S g -> tv_ok S o ->
  exists g' c, gc_mayclear g o v = Ok (g', c) /\ cw [] g g' /\ (c = false -> Forall (nw (heap g')) (tvref o)) /\
    (tvisstr o = true -> c = false).
Proof.
  intros A Ho. unfold gc_mayclear, tvref. destruct (tvisgcv o) eqn:E.
  2: { exists g, false. split_and!; [done|apply cw_refl|by constructor|done]. }
  destruct (Ho E) as (Ht & _). destruct (tvisstr o) eqn:Es.
  - unfold tvisstr in Es. apply Z.eqb_eq in Es. rewrite Es in Ht. destruct (mark_str_cw g (gcr o) A Ht) as (g' & Eg & C & N).
    exists g', false. rewrite Eg. split_and!; [done|done|by constructor|done].
  - destruct Ht as (b & Hb & _). destruct (A _ b Hb) as (x & Hx & _). rewrite (obj_at_ok _ _ _ Hx). cbn [mbind res_bind].
    eexists g, _. split; [done|]. split; [apply cw_refl|]. split; [|done]. intros [W _]%orb_false_iff.
    constructor; [by exists x|done].
Qed.

Lemma cw_nil_trans g g1 g2 : cw [] g g1 -> cw [] g1 g2 -> cw [] g g2.
Proof. apply (cw_trans [] []). Qed.

Lemma clear_array_ok vs : Forall (tv_ok S) vs -> forall g, agrees S g ->
  exists g' vs', clear_array g vs = Ok (g', vs') /\ cw [] g g' /\ length vs' = length vs /\ Forall (nw (heap g')) (flat_map tvref vs').
Proof.
  induction 1 as [|v vs Hv _ IH]; intros g A.
  { exists g, []. split_and!; [done|apply cw_refl|done|constructor]. }
  cbn [clear_array]. destruct (mayclear_ok g v true A Hv) as (g1 & c & E1 & C1 & N1 & _). rewrite E1. cbn [mbind res_bind].
  destruct (IH g1) as (g2 & vs' & E2 & C2 & L2 & N2); [by eapply agrees_cw|]. rewrite E2. cbn [mbind res_bind].
  eexists g2, _. split; [done|]. split; [by eapply cw_nil_trans|]. split; [cbn; by rewrite L2|].
  cbn [flat_map]. apply Forall_app. split; [|done]. destruct c; [constructor|].
  eapply Forall_impl; [|apply N1; done]. intros p. by apply (cw_nw _ _ _ _ C2).
Qed.

Definition node_ok (n : Node) : Prop := tvisnil (val n) = false -> tv_ok S (key n) /\ tv_ok S (val n).

Lemma node_refs_full n h : Forall (nw h) (tvref (key n) ++ tvref (val n)) -> Forall (nw h) (node_refs 0 n).
Proof. intros H. unfold node_refs. destruct (negb (tvisnil (val n))); [exact H|constructor]. Qed.

(** The part of the loop that decides about a node. *)
Definition clear_node (g : global_State) (n : Node) : gres (global_State * bool) :=
  if negb (tvisnil (val n)) then
    '(g, c) ← gc_mayclear g (key n) false;
    if (c : bool) then Ok (g, true) else gc_mayclear g (val n) true
  else Ok (g, false).

Lemma clear_node_ok g n : agrees S g -> node_ok n ->
  exists g' c, clear_node g n = Ok (g', c) /\ cw [] g g' /\ cleared_node n (if (c : bool) then set_val Tnil n else n) /\
    Forall (nw (heap g')) (node_refs 0 (if c then set_val Tnil n else n)).
Proof.
  intros A Hn. unfold clear_node. destruct (tvisnil (val n)) eqn:Hnil; cbn [negb].
  { exists g, false. split_and!; [done|apply cw_refl|reflexivity|]. unfold node_refs. rewrite Hnil. constructor. }
  destruct (Hn Hnil) as (Hk & Hv).
  destruct (mayclear_ok g (key n) false A Hk) as (g1 & c1 & E1 & C1 & N1 & S1). rewrite E1. cbn [mbind res_bind].
  destruct c1.
  { exists g1, true. split_and!; [done|done| |constructor]. split_and!; [done|done|right]. split; [done|].
    intros (H & _). by apply S1 in H. }
  destruct (mayclear_ok g1 (val n) true (agrees_cw _ _ _ _ C1 A) Hv) as (g2 & c2 & E2 & C2 & N2 & S2).
  exists g2, c2. split; [done|]. split; [by eapply cw_nil_trans|]. destruct c2; split.
  - split_and!; [done|done|right]. split; [done|]. intros (_ & H). by apply S2 in H.
  - constructor.
  - reflexivity.
  - apply node_refs_full, Forall_app. split; [|by apply N2]. eapply Forall_impl; [|by apply N1]. intros p. by apply (cw_nw _ _ _ _ C2).
Qed.

Lemma clear_hash_ok ns : Forall node_ok ns -> forall g, agrees S g ->
  exists g' ns', clear_hash g ns = Ok (g', ns') /\ cw [] g g' /\ Forall2 cleared_node ns ns' /\
    Forall (nw (heap g')) (flat_map (node_refs 0) ns').
Proof.
  induction 1 as [|n ns Hn _ IH]; intros g A.
  { exists g, []. split_and!; [done|apply cw_refl|constructor|constructor]. }
  cbn [clear_hash]. destruct (clear_node_ok g n A Hn) as (g1 & c & E1 & C1 & D1 & N1). fold (clear_node g n). rewrite E1. cbn [mbind res_bind].
  destruct (IH g1) as (g2 & ns' & E2 & C2 & D2 & N2); [by eapply agrees_cw|]. rewrite E2. cbn [mbind res_bind].
  eexists g2, _. split; [done|]. split; [by eapply cw_nil_trans|]. split; [by constructor|].
  cbn [flat_map]. apply Forall_app. split; [|done]. eapply Forall_impl; [|exact N1]. intros p. by apply (cw_nw _ _ _ _ C2).
Qed.

Lemma avals_take t : (Z.to_nat (asize t) <= length (array t))%nat -> tab_avals t = take (Z.to_nat (asize t)) (array t).
Proof.
  intros H. apply list_eq. intros i. unfold tab_avals. rewrite list_lookup_fmap.
  destruct (decide (i < Z.to_nat (asize t))%nat) as [L|L].
  - rewrite lookup_seq_lt, lookup_take_lt by done. cbn. unfold arrayslot. rewrite Nat2Z.id.
    destruct (lookup_lt_is_Some_2 (array t) i) as (v & ->); [lia|done].
  - rewrite lookup_seq_ge, lookup_take_ge by lia. done.
Qed.

Lemma take_length_take {A} k (l : list A) : take (length (take k l)) l = take k l.
Proof. rewrite length_take. destruct (Nat.min_spec k (length l)) as [(? & ->)|(? & ->)]; [done|]. by rewrite firstn_all, take_ge. Qed.

(** The nodes put back in front of the rest. *)
Lemma hnodes_put t ns : Forall2 cleared_node (tab_hnodes t) ns ->
  Forall2 cleared_node (node t) (ns ++ drop (length ns) (node t)) /\
  (if 0 <? hmask t then take (Z.to_nat (hmask t + 1)) (ns ++ drop (length ns) (node t)) else []) = ns.
Proof.
  unfold tab_hnodes. destruct (0 <? hmask t).
  - set (k := Z.to_nat (hmask t + 1)). intros H. pose proof (Forall2_length H) as L. split.
    + rewrite <- (take_drop (length ns) (node t)) at 1. apply Forall2_app; [|reflexivity]. by rewrite <- L, take_length_take.
    + rewrite length_take in L. destruct (decide (k <= length (node t))%nat) as [Hk|Hk].
      * rewrite take_app_length'; [done|lia].
      * rewrite drop_ge, app_nil_r, take_ge; [done|lia|lia].
  - intros H. inversion H. split; [|done]. cbn. rewrite drop_0. reflexivity.
Qed.

Lemma clear_table_ok r g o x t mt : agrees S g -> heap g !! o = Some x -> body x = BTab t mt ->
  body_ok r S (BTab (set_nomm t 0) mt) -> Forall (nw (heap g)) (optref mt) ->
  (has (marked x) LJ_GC_WEAKVAL = false -> Forall (nw (heap g)) (flat_map tvref (tab_avals t))) ->
  exists g' x' t', clear_table g o = Ok g' /\ cw [o] g g' /\ heap g' !! o = Some x' /\ body x' = BTab t' mt /\
    Forall (nw (heap g')) (optref mt ++ tab_refs 0 t').
Proof.
  intros A Hx Hbx (_ & Wt & Hav & Hhn) Hmt Harr. set (n := Z.to_nat (asize t)).
  assert (n <= length (array t))%nat as Hn by apply (w_array _ Wt).
  assert (tab_avals t = take n (array t)) as Eav by by apply avals_take.
  change (tab_avals (set_nomm t 0)) with (tab_avals t) in Hav. rewrite Eav in Hav, Harr.
  assert (exists g1 vs, (if has (marked x) LJ_GC_WEAKVAL then clear_array g (take n (array t)) else Ok (g, take n (array t))) = Ok (g1, vs) /\
    cw [] g g1 /\ length vs = n /\ Forall (nw (heap g1)) (flat_map tvref vs)) as (g1 & vs & E1 & C1 & L1 & N1).
  { destruct (has (marked x) LJ_GC_WEAKVAL).
    - destruct (clear_array_ok _ Hav g A) as (g1 & vs & E & C & L & N). exists g1, vs. split_and!; try done.
      rewrite L, length_take. lia.
    - exists g, (take n (array t)). split_and!; [done|apply cw_refl|rewrite length_take; lia|by apply Harr]. }
  set (t1 := set_array t (vs ++ drop n (array t))).
  destruct (clear_hash_ok (tab_hnodes t1) Hhn g1 (agrees_cw _ _ _ _ C1 A)) as (g2 & ns & E2 & C2 & D2 & N2).
  destruct (hnodes_put t1 ns D2) as (D & Ens). set (t2 := set_node t1 (ns ++ drop (length ns) (node t1))) in *.
  pose proof (cw_nil_trans _ _ _ C1 C2) as C12. destruct (cw_obj _ _ _ C12 o x Hx) as (x2 & Hx2 & Cx2 & Mx2 & _ & Bx2).
  specialize (Bx2 (not_elem_of_nil _)). rewrite Hbx in Bx2.
  pose proof (heap_upd g2 o (set_body (BTab t2 mt)) x2 Hx2) as Hh. fold (put_tab g2 o t2 mt) in Hh.
  assert (cw [o] g2 (put_tab g2 o t2 mt)) as C3.
  { split; [done| |].
    - intros p y Hy. rewrite Hh. destruct (decide (p = o)) as [->|Np].
      + rewrite lookup_insert_eq. assert (y = x2) as -> by congruence. eexists. split; [done|]. split; [done|]. split; [by left|].
        split; [|intros H; exfalso; apply H; by left]. rewrite Bx2. constructor. by split_and!.
      + rewrite lookup_insert_ne by done. exists y. split_and!; try done; [by left|constructor].
    - intros p Hp. rewrite Hh, lookup_insert_ne; [done|]. intros ->. congruence. }
  assert (forall p, nw (heap g2) p -> nw (heap (put_tab g2 o t2 mt)) p) as N3 by (intros p; by apply (cw_nw _ _ _ _ C3)).
  exists (put_tab g2 o t2 mt), (set_body (BTab t2 mt) x2), t2. split; [|split; [|split; [by rewrite Hh, lookup_insert_eq|split; [done|]]]].
  - unfold clear_table. rewrite (obj_at_ok _ _ _ Hx). cbn [mbind res_bind]. rewrite Hbx. fold n. rewrite E1. cbn [mbind res_bind].
    fold t1. rewrite E2. done.
  - apply (cw_trans [] [o] _ _ _ C12 C3).
  - apply Forall_app. split; [|unfold tab_refs; cbn [has negb]; apply Forall_app; split].
    + eapply Forall_impl; [|exact Hmt]. intros p Hp. by apply N3, (cw_nw _ _ _ _ C12).
    + change (negb (has 0 LJ_GC_WEAKVAL)) with true. cbv iota.
      assert (tab_avals t2 = vs) as ->.
      { rewrite avals_take; cbn [t2 t1 set_node set_array asize array]; fold n; [|rewrite length_app; lia]. by rewrite take_app_length'. }
      eapply Forall_impl; [|exact N1]. intros p Hp. by apply N3, (cw_nw _ _ _ _ C2).
    + unfold tab_hnodes. cbn [t2 set_node hmask node]. rewrite Ens. eapply Forall_impl; [|exact N2]. intros p. apply N3.
Qed.

(** ** Clearing all weak tables *)

Definition full (g : global_State) (o : Z) : Prop :=
  exists x t mt, heap g !! o = Some x /\ body x = BTab t mt /\ Forall (nw (heap g)) (optref mt ++ tab_refs 0 t).

Lemma full_cw l g g' o : cw l g g' -> (o ∉ l) -> full g o -> full g' o.
Proof.
  intros C Ho (x & t & mt & Hx & Hbx & F). destruct (cw_obj _ _ _ C o x Hx) as (x' & Hx' & _ & _ & _ & B).
  exists x', t, mt. split; [done|]. split; [by rewrite B|]. eapply Forall_impl; [|exact F]. intros p. by apply (cw_nw _ _ _ _ C).
Qed.

(** What the clearing needs of a table. *)
Definition clearable (r : global_State) (g : global_State) (o : Z) : Prop :=
  exists x t mt, heap g !! o = Some x /\ body x = BTab t mt /\ body_ok r S (BTab (set_nomm t 0) mt) /\
    Forall (nw (heap g)) (optref mt) /\
    (has (marked x) LJ_GC_WEAKVAL = false -> Forall (nw (heap g)) (flat_map tvref (tab_avals t))).

Lemma clearable_cw l r g g' o : cw l g g' -> (o ∉ l) -> clearable r g o -> clearable r g' o.
Proof.
  intros C Ho (x & t & mt & Hx & Hbx & Hok & F & Fa). destruct (cw_obj _ _ _ C o x Hx) as (x' & Hx' & _ & M & _ & B).
  exists x', t, mt. split; [done|]. split; [by rewrite B|]. split; [done|]. split.
  - eapply Forall_impl; [|exact F]. intros p. by apply (cw_nw _ _ _ _ C).
  - destruct M as [M|((s & Hs) & _)]; [|congruence]. rewrite M. intros H. eapply Forall_impl; [|by apply Fa].
    intros p. by apply (cw_nw _ _ _ _ C).
Qed.

Lemma chain_cw l k g g' : cw k g g' -> forall a, chain (heap g) a l -> chain (heap g') a l.
Proof.
  intros C. induction l as [|p l IH]; intros a H; [done|]. destruct H as (-> & N & x & Hx & H).
  destruct (cw_obj _ _ _ C p x Hx) as (x' & Hx' & Eg & _). split; [done|]. split; [done|]. exists x'. split; [done|].
  rewrite Eg. by apply IH.
Qed.

Lemma clearweak_loop_ok r l : forall fuel g o, agrees S g -> chain (heap g) o l -> NoDup l -> (length l < fuel)%nat ->
  Forall (clearable r g) l ->
  exists g', clearweak_loop fuel g o = Ok g' /\ cw l g g' /\ Forall (full g') l.
Proof.
  induction l as [|p l IH]; intros fuel g o A C N Hf Hl; (destruct fuel as [|fuel]; [cbn in Hf; lia|]); cbn [clearweak_loop].
  { cbn in C. subst o. exists g. split; [done|]. split; [apply cw_refl|constructor]. }
  destruct C as (-> & N0 & x & Hx & C). rewrite (proj2 (Z.eqb_neq p 0) N0). cbn [negb].
  apply list.NoDup_cons in N as (Np & N). pose proof (Forall_inv Hl) as (x0 & t & mt & Hx0 & Hbx & Hok & Hmt & Ha).
  assert (x0 = x) as -> by congruence. destruct (clear_table_ok r g p x t mt A Hx Hbx Hok Hmt Ha) as (g1 & x1 & t1 & E1 & C1 & Hx1 & Hb1 & F1).
  rewrite E1. cbn [mbind res_bind]. rewrite (obj_at_ok _ _ _ Hx1). cbn [mbind res_bind].
  destruct (cw_obj _ _ _ C1 p x Hx) as (x1' & Hx1' & Eg & _). assert (x1' = x1) as -> by congruence. rewrite Eg.
  destruct (IH fuel g1 (gclist x)) as (g2 & E2 & C2 & F2).
  - by apply (agrees_cw S [p] g).
  - by apply (chain_cw l [p] g).
  - done.
  - cbn in Hf. lia.
  - apply Forall_inv_tail in Hl. rewrite Forall_forall in Hl |- *. intros q Hq.
    apply (clearable_cw [p] r g); [done| |by apply Hl]. rewrite list_elem_of_singleton. intros ->. apply Np. by apply list_elem_of_In.
  - exists g2. split; [done|]. split; [apply (cw_trans [p] l _ _ _ C1 C2)|]. constructor; [|done].
    apply (full_cw l g1); [done|done|]. by exists x1, t1, mt.
Qed.

End Fixed.

(** ** Modes do not change *)

Lemma nchain_find_cleared p ns ns' : (forall n n', key n' = key n -> p n' = p n) -> Forall2 cleared_node ns ns' ->
  forall f i, nchain_find ns' p f i = nchain_find ns p f i.
Proof.
  intros Hp H. rewrite Forall2_lookup in H. induction f as [|f IH]; intros i; [done|]. cbn [nchain_find].
  destruct (H i) as [n n' (K & X & _)|]; [|done]. rewrite (Hp n n' K), X. destruct (p n); [done|]. destruct (next n); [apply IH|done].
Qed.

Lemma nchain_find_true ns p f : forall i n, nchain_find ns p f i = Ok (Some n) -> exists nd, ns !! n = Some nd /\ p nd = true.
Proof.
  induction f as [|f IH]; intros i n H; [done|]. cbn in H. destruct (ns !! i) as [nd|] eqn:E; [|done].
  destruct (p nd) eqn:P; [injection H as <-; eauto|]. destruct (next nd); [by apply IH in H|done].
Qed.

Lemma getstr_cleared t t' s : cleared t t' ->
  (exists e, lj_tab_getstr t s = Err e /\ lj_tab_getstr t' s = Err e) \/
  (lj_tab_getstr t s = Ok None /\ lj_tab_getstr t' s = Ok None) \/
  (exists v v', lj_tab_getstr t s = Ok (Some v) /\ lj_tab_getstr t' s = Ok (Some v') /\ (v' = v \/ v' = Tnil /\ tvisstr v = false)).
Proof.
  intros (Hm & _ & H). unfold lj_tab_getstr, nchain_search, hashstr, hashmask. rewrite Hm, <- (Forall2_length H).
  rewrite nchain_find_cleared with (ns := node t) (ns' := node t'); [|by intros n n' K; unfold is_strkey; rewrite K|done].
  destruct (nchain_find (node t) (is_strkey s) (length (node t)) (Z.to_nat (strhash s .& hmask t))) as [[n|]|e] eqn:E;
    [right; right|by right; left|left; by exists e].
  apply nchain_find_true in E as (nd & Hnd & Hk). rewrite Forall2_lookup in H. pose proof (H n) as Hn. rewrite Hnd in Hn.
  inversion Hn as [nd1 nd' (K & _ & V) E1 E2|]; subst. exists (val nd), (val nd'). cbn. rewrite Hnd, <- E2. split_and!; try done.
  destruct V as [V|(V & Hs)]; [by left|right]. split; [done|]. apply not_true_iff_false. intros Hv. apply Hs. split; [|done].
  by apply andb_true_iff in Hk as [Hk _].
Qed.

Lemma shape_cw l g g' p : cw l g g' -> option_Forall2 cleared_body (shape g !! p) (shape g' !! p).
Proof.
  intros C. rewrite !shape_lookup. destruct (heap g !! p) as [x|] eqn:Hx.
  - destruct (cw_obj _ _ _ C p x Hx) as (x' & -> & _ & _ & B & _). constructor. destruct B; [constructor|]. by constructor.
  - rewrite (cw_none _ _ _ C p Hx). constructor.
Qed.

Lemma mode_of_cw l r g g' mt : cw l g g' -> mode_of r (shape g') mt = mode_of r (shape g) mt.
Proof.
  intros C. unfold mode_of. destruct (negb (mt =? 0)); [|done].
  assert (forall v, str_mode (shape g') v = str_mode (shape g) v) as Hs.
  { intros v. unfold str_mode. destruct (tvisstr v); [|done].
    destruct (shape_cw l g g' (gcr v) C) as [b b' B|]; [by destruct B|done]. }
  destruct (shape_cw l g g' mt C) as [b0 b' B|]; [|done]. destruct B as [b|t t' mt' B].
  - destruct b as [| | | | | | | |t mt'|]; try done. destruct (gcroot r !! Z.to_nat MM_mode) as [name|]; [|done].
    destruct (lj_tab_getstr t name) as [[v|]|]; [apply Hs|done|done].
  - destruct (gcroot r !! Z.to_nat MM_mode) as [name|]; [|done].
    destruct (getstr_cleared t t' name B) as [(e & -> & ->)|[(-> & ->)|(v & v' & -> & -> & [->|(-> & Hv)])]]; [done|done|apply Hs|].
    unfold str_mode. by rewrite Hv.
Qed.

(** Only tables are changed, so the references of other objects stay. *)
Lemma held_cw l r g g' b : cw l g g' -> held r (shape g') b = held r (shape g) b.
Proof.
  intros C. destruct b as [|closed tv th slot| | | | | | |t mt|]; try done.
  - cbn. f_equal. unfold uv_val. destruct closed; [done|]. destruct (shape_cw l g g' th C) as [b b' B|]; [by destruct B|done].
  - cbn [held]. by rewrite (mode_of_cw l r g g' mt C).
Qed.

End Weak.
