(* ===== verification/GcSafe.v ===== *)
(** * The garbage collector: what the atomic phase guarantees

    After [atomic] nothing that is still referred to is dead, so the sweep
    frees garbage only. *)

From S2P Require Import Prelude Machine Num Tab TabKey TabHash TabInv Buf Gc GcInv GcMark GcTrav GcProp GcAtomic GcWeak.

Section Safe.
Context `{TE : TabEnv}.

Definition alive (g : global_State) (o : Z) : Prop := exists x, heap g !! o = Some x /\ isdead g (marked x) = false.

Definition roots (g : global_State) (L : Z) : list Z :=
  [L; mainthread g] ++ tvref (registrytv g) ++ trace_refs g (jit_cur g) ++ flat_map optref (gcroot g) ++ gc_mmudata g.

(** All references count here, those of weak tables too. *)
Inductive reachable (g : global_State) (L : Z) : Z -> Prop :=
| reach_root o : o ∈ roots g L -> reachable g L o
| reach_ref o b p : reachable g L o -> shape g !! o = Some b -> p ∈ held g (shape g) b -> reachable g L p.

(** ** Colors after the flip *)

Lemma has_land m a b : has m b = false -> has m (a .& b) = false.
Proof.
  unfold has. rewrite !negb_false_iff, !Z.eqb_eq. intros H. rewrite (Z.land_comm a), Z.land_assoc, H. apply Z.land_0_l.
Qed.

Lemma isdead_flip g b m : isdead (flip_white g (otherwhite g) b) m = has m (curwhite g).
Proof.
  unfold isdead, curwhite. f_equal. unfold otherwhite. cbn [flip_white currentwhite].
  by rewrite Z.lxor_assoc, Z.lxor_nilpotent, Z.lxor_0_r.
Qed.

Lemma has_other m : has (m .^ LJ_GC_WHITES) (m .& LJ_GC_WHITES) = false.
Proof.
  unfold has. apply negb_false_iff, Z.eqb_eq, Z.bits_inj'. intros n Hn. tbits.
  by destruct (Z.testbit m n), (Z.testbit LJ_GC_WHITES n).
Qed.

Lemma nw_alive g b o : nw (heap g) o -> alive (flip_white g (otherwhite g) b) o.
Proof.
  intros (x & Hx & W). unfold alive. cbn [flip_white heap]. destruct (decide (o = strempty g)) as [->|N].
  - rewrite lookup_alter_eq, Hx. eexists. split; [done|]. rewrite isdead_flip. apply has_other.
  - rewrite lookup_alter_ne by done. exists x. split; [done|]. rewrite isdead_flip. by apply has_land.
Qed.

Lemma shape_flip g w b : shape (flip_white g w b) = shape g.
Proof.
  apply map_eq. intros p. rewrite !shape_lookup. cbn [flip_white heap]. destruct (decide (p = strempty g)) as [->|N].
  - rewrite lookup_alter_eq. by destruct (heap g !! strempty g).
  - by rewrite lookup_alter_ne.
Qed.

(** ** The weak tables can be cleared *)

Lemma weak_clearable r S g o : wf r S -> shape g = S -> weak_ok r S (heap g) o -> clearable S r g o.
Proof.
  intros Wf HS (x & t & mt & Hx & Hb & W & Hm & Hv & (b & Hb' & F)).
  assert (b = BTab t mt) as -> by congruence. cbn [refs] in F. apply Forall_app in F as (F1 & F2).
  destruct (tab_at_ok S g o t mt HS Hb) as (x' & t' & Hx' & Hbx & _ & <-). assert (x' = x) as -> by congruence.
  exists x, t', mt. split_and!; try done; [apply (w_body _ _ Wf o _ Hb)|].
  rewrite Hv. intros E. unfold tab_refs in F2. rewrite E in F2. by apply Forall_app in F2 as (F2 & _).
Qed.

Lemma tab_refs_incl w t p : p ∈ tab_refs w t -> p ∈ tab_refs 0 t.
Proof.
  unfold tab_refs. change (negb (has 0 LJ_GC_WEAKVAL)) with true. cbv iota. rewrite !elem_of_app. intros [H|H].
  - left. destruct (negb (has w LJ_GC_WEAKVAL)); [done|by apply elem_of_nil in H].
  - right. apply list_elem_of_In, in_flat_map in H as (n & Hn & H). apply list_elem_of_In, in_flat_map. exists n. split; [done|].
    unfold node_refs in *. destruct (negb (tvisnil (val n))); [|done]. change (negb (has 0 LJ_GC_WEAKVAL)) with true.
    change (negb (has 0 LJ_GC_WEAKKEY)) with true. cbv iota.
    apply in_app_iff in H as [H|H]; apply in_app_iff; [left|right]; by destruct (negb _).
Qed.

(** ** After the marking and the clearing *)

(** The lists and the shapes: userdata is moved to be finalized, entries of weak
    tables are cleared. *)
Definition atomic_same (g g' : global_State) : Prop :=
  gc_root g' = gc_root g /\ gc_udata g' ++ gc_mmudata g' ≡ₚ gc_udata g ++ gc_mmudata g /\ mainthread g' = mainthread g /\
  forall p, option_Forall2 cleared_body (shape g !! p) (shape g' !! p).

Lemma atomic_nw g L gs ga ws : J [] (uvhead g) g gs ga ws -> live (shape g) L ->
  exists g', (g ← atomic_mark g L; gc_clearweak g (gc_weak g)) = Ok g' /\
    mainthread g' = mainthread g /\ registrytv g' = registrytv g /\ currentwhite g' = currentwhite g /\
    (forall o, nw (heap g) o -> nw (heap g') o) /\
    Forall (nw (heap g')) ([L] ++ trace_refs g' (jit_cur g') ++ flat_map optref (gcroot g') ++ gc_mmudata g') /\
    (forall o b, nw (heap g') o -> shape g' !! o = Some b -> Forall (nw (heap g')) (held g' (shape g') b)) /\
    (forall o x, heap g' !! o = Some x -> iswhite (marked x) = true -> has (marked x) (curwhite g') = true) /\
    (exists s, shape g' !! strempty g' = Some (BStr s)) /\ atomic_same g g'.
Proof.
  intros HJ HL. pose proof (j_wf _ _ _ _ _ _ HJ) as Wf.
  destruct (atomic_mark_ok (rest g) (shape g) Wf g L gs ga ws eq_refl eq_refl HJ HL)
    as (g1 & u & m & da & dw & E1 & J1 & R1 & S1 & Hp & N1 & Dd & Dw & Nr).
  rewrite E1. cbn [mbind res_bind]. pose proof (j_wf _ _ _ _ _ _ J1) as Wf1. rewrite S1 in Wf1.
  assert (gcroot g1 = gcroot g /\ jit_cur g1 = jit_cur g /\ jit_trace g1 = jit_trace g /\ mainthread g1 = mainthread g /\
    registrytv g1 = registrytv g /\ currentwhite g1 = currentwhite g /\ gc_mmudata g1 = gc_mmudata g ++ m) as (Q1 & Q2 & Q3 & Q4 & Q5 & Q6 & Q7).
  { split_and!; [exact (f_equal gcroot R1)|exact (f_equal jit_cur R1)|exact (f_equal jit_trace R1)|exact (f_equal mainthread R1)|
      exact (f_equal registrytv R1)|exact (f_equal currentwhite R1)|exact (f_equal gc_mmudata R1)]. }
  assert (forall o, weak_ok (rest g) (shape g) (heap g1) o -> weak_ok (rest g1) (shape g) (heap g1) o) as Hwk.
  { intros o. rewrite R1. done. }
  assert (forall o, hdone (rest g) (shape g) (heap g1) o -> hdone (rest g1) (shape g) (heap g1) o) as Hhd.
  { intros o. rewrite R1. done. }
  pose proof (j_nodup _ _ _ _ _ _ J1) as Nd. cbn in Nd. apply list.NoDup_app in Nd as (_ & _ & Nd).
  destruct (clearweak_loop_ok (shape g) (rest g1) dw (size (heap g1) + 1) g1 (gc_weak g1)) as (g2 & E2 & C2 & F2).
  { rewrite <- S1. apply agrees_shape. } { apply J1. } { done. }
  { pose proof (chain_size _ _ _ (j_weak _ _ _ _ _ _ J1) Nd). lia. }
  { eapply Forall_impl; [|exact Dw]. intros o Ho. apply weak_clearable; [done|done|by apply Hwk]. }
  fold (gc_clearweak g1 (gc_weak g1)) in E2. exists g2. split; [done|].
  assert (forall {A} (f : global_State -> A), f (rest g2) = f (rest g1)) as Hf by (intros A f; by rewrite (cw_rest _ _ _ C2)).
  assert (mainthread g2 = mainthread g1 /\ registrytv g2 = registrytv g1 /\ currentwhite g2 = currentwhite g1 /\
    jit_cur g2 = jit_cur g1 /\ gcroot g2 = gcroot g1 /\ gc_mmudata g2 = gc_mmudata g1 /\ jit_trace g2 = jit_trace g1) as (P1 & P2 & P3 & P4 & P5 & P6 & P7).
  { split_and!; [exact (Hf _ mainthread)|exact (Hf _ registrytv)|exact (Hf _ currentwhite)|exact (Hf _ jit_cur)|
      exact (Hf _ gcroot)|exact (Hf _ gc_mmudata)|exact (Hf _ jit_trace)]. }
  assert (forall o, nw (heap g1) o -> nw (heap g2) o) as N2 by (intros o; by apply (cw_nw _ _ _ _ C2)).
  split; [congruence|]. split; [congruence|]. split; [congruence|]. split; [auto|]. split; [|split; [|split; [|split]]].
  - rewrite P4, P5, P6, Q1, Q2, Q7. replace (trace_refs g2 (jit_cur g)) with (trace_refs (rest g) (jit_cur g)).
    + eapply Forall_impl; [|exact Nr]. done.
    + unfold trace_refs, trref. by rewrite P7, Q3.
  - intros o b (x2 & Hx2 & W2) Hb. rewrite shape_lookup, Hx2 in Hb. injection Hb as <-.
    destruct (heap g1 !! o) as [x1|] eqn:Hx1; [|by rewrite (cw_none _ _ _ C2 o Hx1) in Hx2].
    destruct (cw_obj _ _ _ C2 o x1 Hx1) as (x2' & Hx2' & _ & M & B & Bs). assert (x2' = x2) as -> by congruence.
    destruct (decide (o ∈ dw)) as [Ho|Ho].
    + rewrite Forall_forall in F2. destruct (F2 o) as (x2' & t & mt & Hx & Hbx & F); [by apply list_elem_of_In|].
      assert (x2' = x2) as -> by congruence. rewrite Hbx. cbn [norm held]. rewrite Forall_forall in F |- *. intros p Hin.
      apply F. apply in_app_iff in Hin as [Hin|Hin]; apply in_app_iff; [by left|right]. apply list_elem_of_In.
      apply list_elem_of_In in Hin. by apply tab_refs_incl in Hin.
    + rewrite (Bs Ho). destruct (iswhite (marked x1)) eqn:W1.
      * destruct M as [M|((s & Hs) & _)]; [congruence|]. rewrite Hs. constructor.
      * destruct (all_done (rest g1) (shape g) g1 da dw eq_refl S1 J1) with (o := o) as [H|(b & Hb & F)]; [|by exists x1|done|].
        { eapply Forall_impl; [|exact Dd]. done. }
        rewrite <- S1, shape_lookup, Hx1 in Hb. injection Hb as <-. rewrite (held_cw dw _ g1 g2 _ C2), S1.
        replace (held g2 (shape g) (norm (body x1))) with (held (rest g1) (shape g) (norm (body x1))).
        -- eapply Forall_impl; [|exact F]. done.
        -- rewrite <- (cw_rest _ _ _ C2). done.
  - intros o x2 Hx2 W2. destruct (heap g1 !! o) as [x1|] eqn:Hx1; [|by rewrite (cw_none _ _ _ C2 o Hx1) in Hx2].
    destruct (cw_obj _ _ _ C2 o x1 Hx1) as (x2' & Hx2' & _ & M & _). assert (x2' = x2) as -> by congruence.
    destruct M as [M|(_ & M)]; rewrite M in W2 |- *; [|by autorewrite with color in W2].
    pose proof (j_color _ _ _ _ _ _ J1 o x1 Hx1) as C. unfold color_ok in C. rewrite W2 in C. destruct C as (C & _).
    apply (white_current (rest g1) _ W2) in C. unfold curwhite in *. rewrite P3. exact C.
  - replace (strempty g2) with (strempty g1) by (symmetry; exact (Hf _ strempty)).
    destruct (w_strempty _ _ Wf1) as (b & Hb & Ht). change (strempty (rest g1)) with (strempty g1) in Hb.
    pose proof (shape_cw dw g1 g2 (strempty g1) C2) as B. rewrite S1, Hb in B. inversion B as [b1 b' B' E3 E4|]; subst.
    destruct b as [s|[]| | | | | | | |]; try discriminate Ht. exists s. by inversion B'.
  - split; [transitivity (gc_root g1); [exact (Hf _ gc_root)|exact (f_equal gc_root R1)]|]. split; [|split; [congruence|]].
    + rewrite P6, Q7. replace (gc_udata g2) with u by (symmetry; transitivity (gc_udata g1); [exact (Hf _ gc_udata)|exact (f_equal gc_udata R1)]).
      change (gc_udata (rest g)) with (gc_udata g) in Hp. rewrite Hp, (Permutation_app_comm (gc_mmudata g)), app_assoc. done.
    + intros p. rewrite <- S1. by apply shape_cw with dw.
Qed.

(** It is enough that the tri-color invariant holds before, with the values of
    open upvalues not looked after, and that the main thread and the registry
    are marked. *)
Lemma atomic_keeps g L gs ga ws :
  J [] (uvhead g) g gs ga ws -> live (shape g) L -> nw (heap g) (mainthread g) -> Forall (nw (heap g)) (tvref (registrytv g)) ->
  exists g', atomic g L = Ok g' /\ currentwhite g' = otherwhite g /\
    (forall o, reachable g' L o -> alive g' o) /\
    (forall o b p, alive g' o -> shape g' !! o = Some b -> p ∈ held g' (shape g') b -> alive g' p) /\ atomic_same g g'.
Proof.
  intros HJ HL Hm Hreg. destruct (atomic_nw g L gs ga ws HJ HL) as (g1 & E & P1 & P2 & P3 & N1 & Nr & Nh & Nc & (s & Hse) & Hsame).
  unfold atomic. destruct (atomic_mark g L) as [g0|]; [|done]. cbn [mbind res_bind] in E |- *. rewrite E. cbn [mbind res_bind].
  set (g' := flip_white g1 (otherwhite g1) (lj_buf_shrink (tmpbuf g1))).
  assert (forall o, nw (heap g1) o -> alive g' o) as Ha by (intros o; apply nw_alive).
  assert (forall o, alive g' o -> o <> strempty g1 -> nw (heap g1) o) as Hn.
  { intros o (x & Hx & D) N. unfold g' in Hx. cbn [flip_white heap] in Hx. rewrite lookup_alter_ne in Hx by done.
    exists x. split; [done|]. unfold g' in D. rewrite isdead_flip in D. apply not_true_iff_false. intros W.
    apply (Nc o x Hx) in W. congruence. }
  assert (shape g' = shape g1) as Hsh by apply shape_flip.
  assert (forall o b p, alive g' o -> shape g' !! o = Some b -> p ∈ held g' (shape g') b -> alive g' p) as Hc.
  { intros o b p Ho Hb Hp. apply Ha. rewrite Hsh in Hb, Hp. destruct (decide (o = strempty g1)) as [->|N].
    - rewrite Hse in Hb. injection Hb as <-. by apply elem_of_nil in Hp.
    - specialize (Nh o b (Hn o Ho N) Hb). rewrite Forall_forall in Nh. apply Nh. by apply list_elem_of_In. }
  exists g'. split; [done|]. split; [unfold g', otherwhite; cbn; by rewrite P3|].
  split; [|split; [done|]]. 2: { unfold atomic_same in *. rewrite Hsh. exact Hsame. }
  induction 1 as [o Ho|o b p _ IH Hb Hp]; [|by apply Hc with o b]. apply Ha.
  assert (Forall (nw (heap g1)) (roots g1 L)) as F.
  { unfold roots. rewrite P1, P2. apply Forall_app in Nr as (N0 & Nr). apply Forall_app. split.
    - constructor; [by apply Forall_inv in N0|]. constructor; [by apply N1|done].
    - apply Forall_app. split; [|done]. by eapply Forall_impl; [|exact Hreg]. }
  rewrite Forall_forall in F. apply F. by apply list_elem_of_In.
Qed.

End Safe.
