(* ===== verification/GcMut.v ===== *)
(** * The garbage collector: the mutator between the steps

    Between two steps of the collector the program changes objects.  What the
    write barriers do keeps the tri-color invariant. *)

From S2P Require Import Prelude Machine Num Tab TabKey TabHash TabInv Buf Gc GcInv GcMark GcTrav GcProp GcAtomic GcWeak GcSafe.

Section Mut.
Context `{TE : TabEnv}.

(** ** References of the other objects *)

Lemma held_rest r r' S b : gcroot r' = gcroot r -> jit_trace r' = jit_trace r -> held r' S b = held r S b.
Proof.
  intros E1 E2. destruct b; try done; cbn; unfold mode_of, trace_refs, trref; by rewrite ?E1, ?E2.
Qed.

Definition tab_or_str (b : GCbody) : bool := match b with BTab _ _ | BStr _ => true | _ => false end.

(** An object that is neither a table nor a string has no part in the references
    of others (but open upvalues). *)
Lemma mode_frame r S S' o mt : (forall p, p <> o -> S' !! p = S !! p) ->
  (forall b, S !! o = Some b -> tab_or_str b = false) -> (forall b, S' !! o = Some b -> tab_or_str b = false) ->
  mode_of r S' mt = mode_of r S mt.
Proof.
  intros Hne Ho Ho'. unfold mode_of. destruct (negb (mt =? 0)); [|done]. destruct (decide (mt = o)) as [->|N].
  - destruct (S !! o) as [b|], (S' !! o) as [b'|]; try specialize (Ho _ eq_refl); try specialize (Ho' _ eq_refl);
      try (by destruct b); try (by destruct b'); try done. by destruct b, b'.
  - rewrite (Hne mt N). destruct (S !! mt) as [b|]; [|done]. destruct b; try done. destruct (gcroot r !! Z.to_nat MM_mode); [|done].
    destruct (lj_tab_getstr t z) as [[v|]|]; [|done|done]. unfold str_mode. destruct (tvisstr v); [|done].
    destruct (decide (gcr v = o)) as [->|Nv]; [|by rewrite (Hne _ Nv)].
    destruct (S !! o) as [b|], (S' !! o) as [b'|]; try specialize (Ho _ eq_refl); try specialize (Ho' _ eq_refl);
      try (by destruct b); try (by destruct b'); try done. by destruct b, b'.
Qed.

Lemma held_frame r S S' o b : (forall p, p <> o -> S' !! p = S !! p) ->
  (forall b, S !! o = Some b -> tab_or_str b = false) -> (forall b, S' !! o = Some b -> tab_or_str b = false) ->
  is_open b = false -> held r S' b = held r S b.
Proof.
  intros Hne Ho Ho' Hb. destruct b as [|[]| | | | | | |t mt|]; try done. cbn [held]. by rewrite (mode_frame r S S' o).
Qed.

(** A table may change the modes of the tables it is the metatable of, but
    not from a mode with [K]. *)
Definition K_fixed (r : global_State) (S S' : gmap Z GCbody) : Prop :=
  forall mt, mode_of r S mt < 0 -> mode_of r S' mt = mode_of r S mt.

Lemma held_modes r S S' b p : K_fixed r S S' -> is_open b = false -> p ∈ held r S' b -> p ∈ held r S b.
Proof.
  intros HK Hb. destruct b as [|[]| | | | | | |t mt|]; try done. cbn [held]. rewrite !elem_of_app. intros [H|H]; [by left|right].
  destruct (Z.ltb_spec (mode_of r S mt) 0) as [L|L].
  - by rewrite (HK mt L) in H.
  - assert ((if 0 <? mode_of r S mt then 0 else mode_of r S mt) = 0) as ->; [|by apply tab_refs_incl in H].
    destruct (Z.ltb_spec 0 (mode_of r S mt)); lia.
Qed.

(** ** Changing the contents of an object *)

Definition same_env (r r' : global_State) : Prop :=
  gcroot r' = gcroot r /\ jit_trace r' = jit_trace r /\ currentwhite r' = currentwhite r.

Lemma J_store X' U U' g g' gs ga ws gs' ga' ws' o x' :
  J [] U g gs ga ws -> heap g' = <[o := x']> (heap g) -> same_env (rest g) (rest g') ->
  wf (rest g') (shape g') -> nomm_ok (rest g') (body x') -> (nw (heap g) o -> iswhite (marked x') = false) ->
  chain (heap g') (gc_gray g') gs' -> chain (heap g') (gc_grayagain g') ga' -> chain (heap g') (gc_weak g') ws' ->
  NoDup (gs' ++ ga' ++ ws') ->
  (forall p, p <> o -> (p ∉ X') /\ ((p ∈ gs ++ ga) <-> (p ∈ gs' ++ ga')) /\ ((p ∈ ws) <-> (p ∈ ws'))) ->
  (forall p b q, p <> o -> shape g !! p = Some b -> is_open b = false -> q ∈ held (rest g) (shape g') b -> q ∈ held (rest g) (shape g) b) ->
  (forall p b, p <> o -> shape g !! p = Some b -> is_open b = true -> p ∈ U') ->
  color_ok (rest g') (shape g') (heap g') X' U' (gs' ++ ga') ws' o x' -> J X' U' g' gs' ga' ws'.
Proof.
  intros HJ Hh (He1 & He2 & He3) Hwf Hnm Hw C1 C2 C3 N Hl Hheld Hopen Hc.
  assert (forall p, nw (heap g) p -> nw (heap g') p) as Hnw.
  { intros p (y & Hy & W). rewrite Hh. destruct (decide (p = o)) as [->|Np].
    - exists x'. rewrite lookup_insert_eq. split; [done|]. apply Hw. by exists y.
    - exists y. by rewrite lookup_insert_ne. }
  split; try done.
  - intros p y Hy. rewrite Hh in Hy. destruct (decide (p = o)) as [->|Np].
    + rewrite lookup_insert_eq in Hy. by injection Hy as <-.
    + rewrite lookup_insert_ne in Hy by done. pose proof (j_nomm _ _ _ _ _ _ HJ p y Hy) as H. destruct (body y); try done.
      intros mm name. rewrite He1. apply H.
  - intros p y Hy. rewrite Hh in Hy. destruct (decide (p = o)) as [->|Np].
    { rewrite lookup_insert_eq in Hy. by injection Hy as <-. }
    rewrite lookup_insert_ne in Hy by done. destruct (Hl p Np) as (HX & H1 & H2).
    assert (shape g !! p = Some (norm (body y))) as Hb by by rewrite shape_lookup, Hy.
    pose proof (j_color _ _ _ _ _ _ HJ p y Hy) as C. unfold color_ok in *.
    rewrite (isdead_bits (rest g')), He3, <- isdead_bits.
    destruct (iswhite (marked y)); [tauto|]. destruct C as [(C & _)|(_ & C)]; [by apply elem_of_nil in C|right]. split; [done|].
    destruct (isblack (marked y)).
    + destruct C as (C4 & C5 & C6 & (b & Hb' & F)). rewrite Hb in Hb'. injection Hb' as <-.
      split; [tauto|]. split; [tauto|]. split; [done|]. exists (norm (body y)).
      split; [by rewrite shape_lookup, Hh, lookup_insert_ne, Hy|]. rewrite (held_rest (rest g)) by done.
      rewrite Forall_forall in F |- *. intros q Hq. apply Hnw, F. apply list_elem_of_In in Hq. apply list_elem_of_In.
      eapply Hheld; [exact Np|exact Hb| |done]. by destruct (body y) as [|[]| | | | | | | |].
    + destruct C as (C4 & C5 & _). split; [done|]. split; [tauto|]. intros Ho HU. exfalso. apply HU.
      eapply Hopen; [exact Np|exact Hb|]. by destruct (body y) as [|[]| | | | | | | |].
Qed.

Lemma J_open_in U g gs ga ws p b : J [] U g gs ga ws -> shape g !! p = Some b -> is_open b = true -> p ∈ uvhead g.
Proof. intros HJ Hb Ho. apply (w_open _ _ (j_wf _ _ _ _ _ _ HJ) p b Hb Ho). Qed.

Lemma shape_insert_ne g g' o x' p : heap g' = <[o := x']> (heap g) -> p <> o -> shape g' !! p = shape g !! p.
Proof. intros Hh N. by rewrite !shape_lookup, Hh, lookup_insert_ne. Qed.

Lemma black_facts g gs ga ws U o x : J [] U g gs ga ws -> heap g !! o = Some x -> isblack (marked x) = true ->
  iswhite (marked x) = false /\ (o ∉ gs ++ ga) /\ (o ∉ ws) /\ blackable (body x) = true /\ hdone (rest g) (shape g) (heap g) o.
Proof.
  intros HJ Hx B. pose proof (j_color _ _ _ _ _ _ HJ o x Hx) as C. unfold color_ok in C. rewrite B in C.
  destruct (iswhite (marked x)); [destruct C as (_ & C & _); done|]. destruct C as [(C & _)|(_ & C)]; [by apply elem_of_nil in C|]. tauto.
Qed.

(** *** Stores to tables *)

(** The store is right when its barrier is taken or the new references are
    not white. *)
Definition table_store (g : global_State) (o : Z) (t' : GCtab) (mt' : Z) (new : list Z) : Prop :=
  exists x t mt, heap g !! o = Some x /\ body x = BTab t mt /\
  let g1 := put_tab g o t' mt' in
  wf (rest g1) (shape g1) /\ nomm_ok (rest g1) (BTab t' mt') /\ K_fixed (rest g) (shape g) (shape g1) /\
  (forall p, p ∈ held (rest g) (shape g1) (norm (BTab t' mt')) ->
     p ∈ held (rest g) (shape g) (norm (BTab t mt)) ++ new).

Lemma table_back_ok g gs ga ws o t' mt' new (back : bool) : J [] (uvhead g) g gs ga ws -> table_store g o t' mt' new ->
  (back = false -> Forall (nw (heap g)) new) ->
  exists x ga', heap (put_tab g o t' mt') !! o = Some x /\
    J [] (uvhead g) (if back && isblack (marked x) then lj_gc_barrierback (put_tab g o t' mt') o else put_tab g o t' mt') gs ga' ws.
Proof.
  intros HJ (x & t & mt & Hx & Hbx & Hwf & Hnm & HK & Hheld) Hnew. set (g1 := put_tab g o t' mt') in *.
  pose proof (heap_upd g o (set_body (BTab t' mt')) x Hx) as Hh. fold (put_tab g o t' mt') in Hh. fold g1 in Hh.
  exists (set_body (BTab t' mt') x), (if back && isblack (marked x) then o :: ga else ga).
  split; [by rewrite Hh, lookup_insert_eq|]. cbn [set_body marked].
  assert (forall p b q, p <> o -> shape g !! p = Some b -> is_open b = false ->
    q ∈ held (rest g) (shape g1) b -> q ∈ held (rest g) (shape g) b) as Hother.
  { intros p b q _ _ Hb. by apply held_modes. }
  destruct (isblack (marked x)) eqn:B; [destruct (black_facts g gs ga ws _ o x HJ Hx B) as (W & Hl & Hw & _ & Hd)|];
    [destruct back|]; rewrite ?andb_false_r; cbn [andb].
  - set (g2 := lj_gc_barrierback g1 o).
    assert (heap g2 = <[o := mkObj (black2gray (marked x)) (gc_grayagain g) (BTab t' mt')]> (heap g)) as Hh2.
    { unfold g2, lj_gc_barrierback, push_grayagain, recolor. cbn [set_grayagain heap].
      rewrite heap_upd with (x := set_marked black2gray (set_body (BTab t' mt') x)).
      - rewrite heap_upd with (x := set_body (BTab t' mt') x) by (by rewrite Hh, lookup_insert_eq). by rewrite insert_insert_eq, Hh, insert_insert_eq.
      - rewrite heap_upd with (x := set_body (BTab t' mt') x) by (by rewrite Hh, lookup_insert_eq). apply lookup_insert_eq. }
    assert (shape g2 = shape g1) as Hs2.
    { unfold shape. rewrite Hh2, Hh, !fmap_insert. done. }
    assert (o <> 0) as N0. { intros ->. pose proof (w_null _ _ (j_wf _ _ _ _ _ _ HJ)) as N. by rewrite shape_lookup, Hx in N. }
    rewrite elem_of_app in Hl.
    eapply J_store with (g := g) (o := o); try exact Hh2; try done.
    + by rewrite Hs2.
    + cbn. by autorewrite with color.
    + rewrite Hh2. apply chain_fun with x; [apply HJ|done|left; tauto].
    + rewrite Hh2. split; [done|]. split; [done|]. eexists. split; [apply lookup_insert_eq|]. apply chain_fun with x; [apply HJ|done|left; tauto].
    + rewrite Hh2. apply chain_fun with x; [apply HJ|done|left; tauto].
    + pose proof (j_nodup _ _ _ _ _ _ HJ) as N. apply list.NoDup_app in N as (N1 & N2 & N3).
      apply list.NoDup_app. split; [done|]. split; [|apply NoDup_cons_2; [rewrite elem_of_app; tauto|done]].
      intros p Hp [->|Hp']%elem_of_cons; [tauto|by apply (N2 p)].
    + intros p Hp. split; [apply not_elem_of_nil|]. rewrite !elem_of_app, elem_of_cons. tauto.
    + intros p b q Hp Hb Hob. rewrite Hs2. by apply (Hother p).
    + intros p b _ Hb Ho. eapply J_open_in; [exact HJ|exact Hb|exact Ho].
    + unfold color_ok. cbn [marked body]. autorewrite with color. rewrite W. right. split; [apply not_elem_of_nil|]. split; [done|].
      split; [|done]. rewrite elem_of_app, elem_of_cons. tauto.
  - eapply J_store with (g := g) (o := o); try exact Hh; try done; try apply HJ.
    1-3: rewrite Hh; apply chain_fun with x; [apply HJ|done|by right].
    + intros p Hp. split; [apply not_elem_of_nil|done].
    + intros p b _ Hb Ho. eapply J_open_in; [exact HJ|exact Hb|exact Ho].
    + unfold color_ok. cbn [set_body marked body]. rewrite W, B. right. split; [apply not_elem_of_nil|]. split; [done|]. split; [done|]. split; [done|].
      exists (norm (BTab t' mt')). split; [by rewrite shape_lookup, Hh, lookup_insert_eq|]. rewrite (held_rest (rest g)) by done.
      rewrite Forall_forall. intros p Hp. apply list_elem_of_In in Hp. apply Hheld in Hp. rewrite Hh. apply nw_upd with x; [done|done|].
      apply elem_of_app in Hp as [Hp|Hp].
      * destruct Hd as (b & Hb & F). rewrite shape_lookup, Hx in Hb. injection Hb as <-. rewrite Hbx in F. rewrite Forall_forall in F. apply F.
        by apply list_elem_of_In.
      * pose proof (Hnew eq_refl) as F. rewrite Forall_forall in F. apply F. by apply list_elem_of_In.
  - eapply J_store with (g := g) (o := o); try exact Hh; try done; try apply HJ.
    + intros (y & Hy & W). cbn. congruence.
    + rewrite Hh; apply chain_fun with x; [apply HJ|done|by right].
    + rewrite Hh; apply chain_fun with x; [apply HJ|done|by right].
    + rewrite Hh; apply chain_fun with x; [apply HJ|done|by right].
    + intros p Hp. split; [apply not_elem_of_nil|done].
    + intros p b _ Hb Ho. eapply J_open_in; [exact HJ|exact Hb|exact Ho].
    + pose proof (j_color _ _ _ _ _ _ HJ o x Hx) as C. unfold color_ok in *. cbn [set_body marked body]. rewrite B in *.
      destruct (iswhite (marked x)); [exact C|]. destruct C as [(C & _)|(_ & C)]; [by apply elem_of_nil in C|right].
      rewrite Hbx in C. split; [apply not_elem_of_nil|]. destruct C as (C1 & C2 & C3). split; [done|]. by split.
Qed.

Lemma iswhite_nw g o x : heap g !! o = Some x -> iswhite (marked x) = false -> nw (heap g) o.
Proof. by exists x. Qed.

(** The store does not change the color of any object. *)
Lemma put_marked g o b p x : heap (upd g o (set_body b)) !! p = Some x ->
  exists x0, heap g !! p = Some x0 /\ marked x0 = marked x.
Proof.
  cbn [upd set_heap heap]. destruct (decide (p = o)) as [->|N].
  - rewrite lookup_alter_eq. destruct (heap g !! o) as [x0|]; [|done]. intros [= <-]. by exists x0.
  - rewrite lookup_alter_ne by done. intros Hx. by exists x.
Qed.

Lemma tviswhite_ok g tv w : tviswhite g tv = Ok w -> w = false -> Forall (nw (heap g)) (tvref tv).
Proof.
  unfold tviswhite, tvref. destruct (tvisgcv tv); [|by constructor]. intros (x & Hx & [= <-])%bind_Ok W.
  unfold obj_at in Hx. destruct (heap g !! gcr tv) as [y|] eqn:Hy; [|done]. injection Hx as ->. constructor; [by exists x|done].
Qed.

(** The three barriers of table stores. *)
Inductive table_barrier (g : global_State) (o : Z) : list Z -> gres global_State -> Prop :=
| tb_any new : table_barrier g o new (lj_gc_anybarriert g o)
| tb_tv tv : table_barrier g o (tvref tv) (lj_gc_barriert g o tv)
| tb_obj v : table_barrier g o [v] (lj_gc_objbarriert g o v).

Lemma table_barrier_ok g gs ga ws o t' mt' new F : J [] (uvhead g) g gs ga ws -> table_store g o t' mt' new ->
  table_barrier (put_tab g o t' mt') o new F -> forall g', F = Ok g' -> exists ga', J [] (uvhead g) g' gs ga' ws.
Proof.
  intros HJ Hst HF g' E. set (g1 := put_tab g o t' mt') in *.
  assert (forall p, nw (heap g1) p -> nw (heap g) p) as Hnw.
  { intros p (x & Hx & W). apply put_marked in Hx as (x0 & Hx0 & Em). exists x0. split; congruence. }
  assert (forall new, Forall (nw (heap g1)) new -> Forall (nw (heap g)) new) as Hnws by (intros l; by apply Forall_impl).
  assert (exists x (back : bool), heap g1 !! o = Some x /\ g' = (if back && isblack (marked x) then lj_gc_barrierback g1 o else g1) /\
    (back = false -> Forall (nw (heap g)) new)) as (x & back & Hx & -> & Hb).
  { destruct HF as [new|tv|v].
    - apply bind_Ok in E as (x & Hx & [= <-]). exists x, true. unfold obj_at in Hx. destruct (heap g1 !! o); [|done].
      injection Hx as ->. by split_and!.
    - apply bind_Ok in E as (w & Hw & E). apply bind_Ok in E as (x & Hx & [= <-]). exists x, w. unfold obj_at in Hx.
      destruct (heap g1 !! o); [|done]. injection Hx as ->. split_and!; [done|done|]. intros W. apply Hnws. by apply tviswhite_ok with w.
    - apply bind_Ok in E as (y & Hy & E). apply bind_Ok in E as (x & Hx & [= <-]). exists x, (iswhite (marked y)). unfold obj_at in Hx, Hy.
      destruct (heap g1 !! o); [|done]. destruct (heap g1 !! v) eqn:Ev; [|done]. injection Hx as ->. injection Hy as ->. split_and!; [done|done|].
      intros W. apply Hnws. constructor; [by exists y|done]. }
  destruct (table_back_ok g gs ga ws o t' mt' new back HJ Hst Hb) as (x' & ga' & Hx' & HJ'). fold g1 in Hx', HJ'.
  assert (x' = x) as -> by congruence. by exists ga'.
Qed.

(** *** Stores to other objects *)

(** The new contents are of the same kind. *)
Definition same_kind (b b' : GCbody) : Prop :=
  otype b' = otype b /\ listable b' = listable b /\ blackable b' = blackable b /\ grayable b' = grayable b /\ is_open b' = is_open b.

Definition object_store (g : global_State) (o : Z) (b' : GCbody) (new : list Z) : Prop :=
  exists x, heap g !! o = Some x /\ same_kind (body x) b' /\ tab_or_str (body x) = false /\
  let g1 := upd g o (set_body b') in
  wf (rest g1) (shape g1) /\
  (forall p, p ∈ held (rest g) (shape g1) (norm b') -> p ∈ held (rest g) (shape g) (norm (body x)) ++ new).

Lemma tab_or_str_norm b : tab_or_str (norm b) = tab_or_str b.
Proof. by destruct b. Qed.

Lemma same_kind_tab b b' : same_kind b b' -> tab_or_str b = false -> tab_or_str b' = false.
Proof. intros (Ht & _). by destruct b as [|[]| | | | | | | |], b' as [|[]| | | | | | | |]. Qed.

Lemma nomm_ok_other r b : tab_or_str b = false -> nomm_ok r b.
Proof. by destruct b. Qed.

(** The object is changed; it may be black with white references for now. *)
Lemma object_put_ok X' g gs ga ws o x b' new : J [] (uvhead g) g gs ga ws -> heap g !! o = Some x -> object_store g o b' new ->
  (forall p, p ∈ X' -> p = o) -> (isblack (marked x) = true -> o ∈ X' \/ Forall (nw (heap g)) new) ->
  (o ∈ X' -> isblack (marked x) = true) -> J X' (uvhead g) (upd g o (set_body b')) gs ga ws.
Proof.
  intros HJ Hx (x0 & Hx0 & Hk & Htab & Hwf & Hheld) HX Hb HbX. assert (x0 = x) as -> by congruence. clear Hx0. set (g1 := upd g o (set_body b')) in *.
  pose proof (heap_upd g o (set_body b') x Hx) as Hh. fold g1 in Hh.
  assert (forall p, nw (heap g) p -> nw (heap g1) p) as Hnw by (intros p; rewrite Hh; by apply nw_upd with x).
  destruct Hk as (Hk1 & Hk2 & Hk3 & Hk4 & Hk5).
  assert (tab_or_str b' = false) as Htab' by by apply same_kind_tab with (body x).
  eapply J_store with (g := g) (o := o); try exact Hh; try done; try apply HJ.
  - by apply nomm_ok_other.
  - intros (y & Hy & W). cbn. congruence.
  - rewrite Hh. apply chain_fun with x; [apply HJ|done|by right].
  - rewrite Hh. apply chain_fun with x; [apply HJ|done|by right].
  - rewrite Hh. apply chain_fun with x; [apply HJ|done|by right].
  - intros p Hp. split; [|done]. by intros H%HX.
  - intros p b q Hp _ Ho. rewrite (held_frame _ (shape g) (shape g1) o); try done.
    + intros p' Hp'. by apply (shape_insert_ne g g1 o (set_body b' x)).
    + intros b0 Hb0. rewrite shape_lookup, Hx in Hb0. injection Hb0 as <-. by rewrite tab_or_str_norm.
    + intros b0 Hb0. rewrite shape_lookup, Hh, lookup_insert_eq in Hb0. injection Hb0 as <-. by rewrite tab_or_str_norm.
  - intros p b _ Hpb Ho. eapply J_open_in; [exact HJ|exact Hpb|exact Ho].
  - pose proof (j_color _ _ _ _ _ _ HJ o x Hx) as C. unfold color_ok in *. cbn [set_body marked body]. rewrite Hk2, Hk3, Hk4, Hk5.
    destruct (iswhite (marked x)) eqn:W.
    { split; [apply C|]. split; [apply C|]. split; [|apply C]. intros H%HbX. destruct C as (_ & C & _). congruence. }
    destruct C as [(C & _)|(_ & C)]; [by apply elem_of_nil in C|].
    destruct (isblack (marked x)) eqn:B.
    + destruct C as (C1 & C2 & C3 & (b & Hpb & F)). destruct (decide (o ∈ X')) as [HoX|HoX]; [by left|right].
      destruct (Hb eq_refl) as [H|Hnew]; [done|]. split_and!; try done. exists (norm b').
      split; [by rewrite shape_lookup, Hh, lookup_insert_eq|]. rewrite (held_rest (rest g)) by done.
      rewrite shape_lookup, Hx in Hpb. injection Hpb as <-. rewrite Forall_forall in F, Hnew |- *. intros p Hp. apply list_elem_of_In, Hheld in Hp.
      apply Hnw. apply elem_of_app in Hp as [Hp|Hp]; [apply F|apply Hnew]; by apply list_elem_of_In.
    + right. split; [intros H%HbX; congruence|]. destruct C as (C1 & C2 & C3). split; [done|]. split; [done|].
      intros Ho HU. exfalso. apply HU. eapply J_open_in; [exact HJ|by rewrite shape_lookup, Hx|].
      by destruct (body x) as [|[]| | | | | | | |].
Qed.

(** The forward barriers. *)
Inductive object_barrier (g : global_State) (o : Z) : list Z -> gres global_State -> Prop :=
| ob_tv tv : object_barrier g o (tvref tv) (lj_gc_barrier g o tv)
| ob_obj v : object_barrier g o [v] (lj_gc_objbarrier g o v).

Lemma forward_ok g gs ga ws o x b' v : J [] (uvhead g) g gs ga ws -> heap g !! o = Some x -> object_store g o b' [v] ->
  isblack (marked x) = true -> live (shape g) v ->
  let g1 := upd g o (set_body b') in forall y, heap g1 !! v = Some y -> iswhite (marked y) = true ->
  exists g' gs', gc_mark mark_depth g1 v = Ok g' /\ J [] (uvhead g) g' gs' ga ws /\ mk g1 gs g' gs'.
Proof.
  intros HJ Hx Hst B Hv g1 y Hy Wy.
  assert (J [o] (uvhead g) g1 gs ga ws) as J1.
  { apply object_put_ok with x [v]; try done; [intros p H; by apply list_elem_of_singleton in H|]. intros _. left. by left. }
  destruct Hst as (x0 & Hx0 & Hk & Htab & Hwf & Hheld). assert (x0 = x) as -> by congruence.
  pose proof (heap_upd g o (set_body b') x Hx) as Hh. fold g1 in Hh.
  assert (live (shape g1) v) as Hv1. { unfold live. rewrite shape_lookup, Hy. by eexists. }
  destruct (live_markable (rest g1) (shape g1) v Hv1 [o] (uvhead g) g1 gs ga ws y eq_refl eq_refl J1 Hy Wy)
    as (g2 & gs2 & E2 & J2 & M2 & N2).
  exists g2, gs2. split; [done|]. split; [|done].
  destruct (black_facts g gs ga ws _ o x HJ Hx B) as (W & Hl & Hw & Hbl & (b & Hb & F)).
  destruct (mk_keep _ _ _ _ M2 o (set_body b' x)) as (x2 & Hx2 & Em); [by rewrite Hh, lookup_insert_eq|done|].
  assert (shape g1 !! o = Some (norm b')) as Hb1 by by rewrite shape_lookup, Hh, lookup_insert_eq.
  apply (finish_black (rest g1) (shape g1)) with o x2; try done; rewrite ?Em; try done; try apply M2.
  - pose proof (norm_inv (shape g1) g2 o x2 _ (mk_shape _ _ _ _ M2) Hb1 Hx2) as Hn.
    destruct Hk as (_ & _ & Hk3 & _). rewrite Hbl in Hk3.
    assert (forall c, blackable (norm c) = blackable c) as Hbn by by destruct c as [|[]| | | | | | | |].
    by rewrite <- Hbn, Hn, Hbn.
  - exists (norm b'). split; [done|]. change (held (rest g1)) with (held (rest g)).
    rewrite shape_lookup, Hx in Hb. injection Hb as <-. rewrite Forall_forall in F |- *. intros p Hp. apply list_elem_of_In, Hheld in Hp.
    apply elem_of_app in Hp as [Hp|Hp%list_elem_of_singleton]; [|by subst].
    apply (mk_nw _ _ _ _ _ M2). rewrite Hh. apply nw_upd with x; [done|done|]. apply F. by apply list_elem_of_In.
Qed.

Lemma object_barrier_ok g gs ga ws o b' new F : marking g = true -> J [] (uvhead g) g gs ga ws -> object_store g o b' new ->
  object_barrier (upd g o (set_body b')) o new F ->
  forall g', F = Ok g' -> exists gs', J [] (uvhead g) g' gs' ga ws /\ mk (upd g o (set_body b')) gs g' gs'.
Proof.
  intros Hm HJ Hst HF g' E. pose proof Hst as (x & Hx & Hk & Htab & Hwf & Hheld). set (g1 := upd g o (set_body b')) in *.
  pose proof (heap_upd g o (set_body b') x Hx) as Hh. fold g1 in Hh.
  assert (obj_at g1 o = Ok (set_body b' x)) as Ho by (apply obj_at_ok; by rewrite Hh, lookup_insert_eq).
  assert (forall p, nw (heap g1) p -> nw (heap g) p) as Hnw.
  { intros p (y & Hy & W). apply put_marked in Hy as (y0 & Hy0 & Em). exists y0. split; congruence. }
  assert ((isblack (marked x) = true -> Forall (nw (heap g)) new) -> g' = g1 ->
    exists gs', J [] (uvhead g) g' gs' ga ws /\ mk g1 gs g' gs') as Hkeep.
  { intros Hn ->. exists gs. split; [|apply mk_refl]. apply object_put_ok with x new; try done.
    - intros p H. by apply elem_of_nil in H.
    - intros B. right. by apply Hn.
    - intros H. by apply elem_of_nil in H. }
  assert (forall v y, new = [v] -> heap g1 !! v = Some y -> iswhite (marked y) = true -> isblack (marked x) = true ->
    lj_gc_barrierf g1 o v = Ok g' -> exists gs', J [] (uvhead g) g' gs' ga ws /\ mk g1 gs g' gs') as Hfwd.
  { intros v y -> Hy W B Ef. unfold lj_gc_barrierf in Ef. change (marking g1) with (marking g) in Ef. rewrite Hm in Ef.
    destruct (forward_ok g gs ga ws o x b' v HJ Hx Hst B) with (y := y) as (g2 & gs2 & E2 & J2 & M2); [|done|done|].
    - apply put_marked in Hy as (y0 & Hy0 & _). unfold live. rewrite shape_lookup, Hy0. by eexists.
    - fold g1 in E2. assert (g2 = g') as <- by congruence. by exists gs2. }
  destruct HF as [tv|v].
  - apply bind_Ok in E as (w & Hw & E). rewrite Ho in E. cbn in E. destruct w; cbn [andb] in E.
    + unfold tviswhite, tvref in Hw, Hfwd, Hkeep. destruct (tvisgcv tv); [|done]. apply bind_Ok in Hw as (y & Hy & [= W]).
      unfold obj_at in Hy. destruct (heap g1 !! gcr tv) eqn:Ey; [|done]. injection Hy as ->.
      destruct (isblack (marked x)); [by apply (Hfwd (gcr tv) y)|]. injection E as <-. by apply Hkeep.
    + injection E as <-. apply Hkeep; [|done]. intros _. eapply Forall_impl; [exact Hnw|]. by apply tviswhite_ok with false.
  - apply bind_Ok in E as (y & Hy & E). rewrite Ho in E. cbn in E. unfold obj_at in Hy. destruct (heap g1 !! v) eqn:Ey; [|done]. injection Hy as ->.
    destruct (iswhite (marked y)) eqn:W; cbn [andb] in E.
    + destruct (isblack (marked x)); [by apply (Hfwd v y)|]. injection E as <-. by apply Hkeep.
    + injection E as <-. apply Hkeep; [|done]. intros _. constructor; [|done]. apply Hnw. by exists y.
Qed.

(** Stores to threads need no barrier, as threads are never black. *)
Lemma plain_store_ok g gs ga ws o x b' new : J [] (uvhead g) g gs ga ws -> heap g !! o = Some x -> object_store g o b' new ->
  isblack (marked x) = false -> J [] (uvhead g) (upd g o (set_body b')) gs ga ws.
Proof.
  intros HJ Hx Hst B. apply object_put_ok with x new; try done; [intros p H; by apply elem_of_nil in H|congruence|].
  intros H. by apply elem_of_nil in H.
Qed.

Lemma thread_not_black g gs ga ws U o x th : J [] U g gs ga ws -> heap g !! o = Some x -> body x = BThread th -> isblack (marked x) = false.
Proof.
  intros HJ Hx Hb. destruct (isblack (marked x)) eqn:B; [|done].
  destruct (black_facts g gs ga ws U o x HJ Hx B) as (_ & _ & _ & H & _). by rewrite Hb in H.
Qed.

(** *** New objects *)

Lemma mode_fresh r S S' o mt : wf r S -> (forall p, p <> o -> S' !! p = S !! p) -> S !! o = None -> mt_ok S mt ->
  mode_of r S' mt = mode_of r S mt.
Proof.
  intros Wf Hne Ho Hmt. unfold mode_of. destruct (Z.eqb_spec mt 0) as [|N]; [done|]. cbn [negb].
  destruct Hmt as [|(b & Hb & Ht)]; [done|]. rewrite (Hne mt) by congruence. rewrite Hb.
  destruct b as [|[]| | | | | | |t mtmt|]; try discriminate Ht.
  destruct (gcroot r !! Z.to_nat MM_mode) as [name|]; [|done].
  destruct (lj_tab_getstr t name) as [[v|]|] eqn:E; [|done|done].
  unfold str_mode. destruct (tvisstr v) eqn:Hs; [|done].
  assert (tvisgcv v = true) as Hg. { unfold tvisstr in Hs. apply Z.eqb_eq in Hs. unfold tvisgcv. by rewrite Hs. }
  destruct (getstr_tv_ok r S t mtmt name v (w_body _ _ Wf mt _ Hb) E Hg) as ((b' & Hb' & _) & _).
  by rewrite (Hne (gcr v)) by congruence.
Qed.

Lemma held_fresh r S S' o p b : wf r S -> (forall p, p <> o -> S' !! p = S !! p) -> S !! o = None ->
  S !! p = Some b -> is_open b = false -> held r S' b = held r S b.
Proof.
  intros Wf Hne Ho Hp Hb. destruct b as [|[]| | | | | | |t mt|]; try done. cbn [held].
  destruct (w_body _ _ Wf p _ Hp) as (Hmt & _). by rewrite (mode_fresh r S S' o).
Qed.

Lemma chain_new h o x' l : h !! o = None -> forall a, chain h a l -> chain (<[o := x']> h) a l.
Proof.
  intros Ho. induction l as [|p l IH]; intros a C; [done|]. destruct C as (-> & N & x & Hx & C).
  split; [done|]. split; [done|]. exists x. split; [|by apply IH]. rewrite lookup_insert_ne; [done|]. intros ->. congruence.
Qed.

(** A new object, wherever it is linked. *)
Lemma new_object_ok g g' gs ga ws o b : J [] (uvhead g) g gs ga ws -> heap g !! o = None ->
  heap g' = <[o := mkObj (curwhite g) 0 b]> (heap g) ->
  gc_gray g' = gc_gray g /\ gc_grayagain g' = gc_grayagain g /\ gc_weak g' = gc_weak g -> same_env (rest g) (rest g') ->
  wf (rest g') (shape g') -> nomm_ok (rest g') b -> one_white g -> (forall p, p ∈ uvhead g -> p ∈ uvhead g') ->
  J [] (uvhead g') g' gs ga ws.
Proof.
  intros HJ Ho Hh (G1 & G2 & G3) He Hwf Hnm Hcw Huv. set (x' := mkObj (curwhite g) 0 b) in *.
  assert (forall l a, chain (heap g) a l -> o ∉ l) as Hnin.
  { intros l a C Hin. destruct (chain_in _ _ _ _ C Hin) as (x & Hx). congruence. }
  destruct (iswhite_curwhite g Hcw) as (W & B).
  eapply J_store with (g := g) (o := o) (x' := x'); try exact Hh; try done.
  - intros (x & Hx & _). congruence.
  - rewrite Hh, G1. apply chain_new, HJ. done.
  - rewrite Hh, G2. apply chain_new, HJ. done.
  - rewrite Hh, G3. apply chain_new, HJ. done.
  - apply HJ.
  - intros p Hp. split; [apply not_elem_of_nil|done].
  - intros p c q Hp Hc Hop. rewrite (held_fresh _ (shape g) (shape g') o p c); try done.
    + apply HJ.
    + intros p' Hp'. by apply (shape_insert_ne g g' o x').
    + by rewrite shape_lookup, Ho.
  - intros p c _ Hc Hop. eapply Huv, J_open_in; [exact HJ|exact Hc|exact Hop].
  - unfold color_ok. cbn [marked x']. rewrite W. split.
    + rewrite isdead_bits. destruct He as (_ & _ & ->). rewrite <- isdead_bits. apply (isdead_curwhite g).
    + split; [exact B|]. split; [apply not_elem_of_nil|]. split; [|by eapply Hnin, HJ].
      rewrite elem_of_app. intros [H|H]; revert H; eapply Hnin, HJ.
Qed.

(** *** Closing an upvalue *)

Section Retype.
Context (r : global_State) (S S' : gmap Z GCbody).
Context (Ht : forall it p, typed S it p -> typed S' it p).
Context (Hth : forall p t, S !! p = Some (BThread t) ->
  exists t', S' !! p = Some (BThread t') /\ th_top t' = th_top t /\ th_stack t' = th_stack t).
Context (Hl : forall p, live S p -> live S' p).

Lemma tv_ok_retype v : tv_ok S v -> tv_ok S' v.
Proof. intros H E. destruct (H E) as (H1 & H2). auto. Qed.

Lemma tr_ok_retype n : tr_ok r S n -> tr_ok r S' n.
Proof. intros [H|(o & H1 & H2)]; [by left|right]. eauto. Qed.

Lemma mt_ok_retype mt : mt_ok S mt -> mt_ok S' mt.
Proof. intros [H|H]; [by left|right]. auto. Qed.

Lemma trace_ok_retype T : trace_ok r S T -> trace_ok r S' T.
Proof.
  intros [H|(H1 & H2 & H3 & H4 & H5)]; [by left|right]. split_and!; auto using tr_ok_retype. by eapply Forall_impl; [exact Hl|].
Qed.

Lemma body_ok_retype b : body_ok r S b -> body_ok r S' b.
Proof.
  destruct b as [|[] tv th slot|th|cn kgc tr fs uv|env pt uvs|env up|T| |t mt|mt env]; cbn.
  - done.
  - apply tv_ok_retype.
  - intros (t & H1 & H2). destruct (Hth _ _ H1) as (t' & H3 & E1 & E2). exists t'. by rewrite E1, E2.
  - intros (H0 & H1 & H2 & H'). split; [done|]. split; [by eapply Forall_impl; [exact tv_ok_retype|]|]. split; [auto|].
    eapply Forall_impl; [|exact H']. intros f [Hf|Hf]; auto.
  - intros (H0 & H1 & H2). split; [auto|]. split; [by eapply Forall_impl; [exact Hl|]|by apply tr_ok_retype].
  - intros (H0 & H1 & H2). split; [auto|]. split; [auto|]. by eapply Forall_impl; [apply Ht|].
  - intros (H0 & H1). split; [auto|]. by eapply Forall_impl; [exact tv_ok_retype|].
  - apply trace_ok_retype.
  - done.
  - intros (H0 & H3 & H1 & H2). split; [by apply mt_ok_retype|]. split; [done|]. split; [by eapply Forall_impl; [exact tv_ok_retype|]|].
    eapply Forall_impl; [|exact H2]. intros n Hn N. destruct (Hn N) as (H5 & H4). split; by apply tv_ok_retype.
  - intros (H0 & H1). split; [by apply mt_ok_retype|auto].
Qed.

(** A heap with other objects, and old objects of the same types. *)
Lemma wf_retype r' : wf r S -> S' !! 0 = None -> (forall o b, S' !! o = Some b -> body_ok r S b \/ body_ok r S' b) ->
  gcroot r' = gcroot r /\ mainthread r' = mainthread r /\ registrytv r' = registrytv r /\ strempty r' = strempty r /\
    jit_cur r' = jit_cur r /\ jit_trace r' = jit_trace r ->
  Forall (typed S' LJ_TUPVAL) (uvhead r') -> (forall o b, S' !! o = Some b -> is_open b = true -> o ∈ uvhead r') ->
  Forall (typed S' LJ_TUDATA) (gc_udata r') -> gc_mmudata r' = gc_mmudata r -> wf r' S'.
Proof.
  intros [W1 W2 W3 W4 W5 W6 W12 W7 W8 W9 W10 W11] H0 Hb (E1 & E2 & E3 & E4 & E5 & E6) Huv Hop Hud Hmm.
  assert (forall T, trace_ok r' S' T <-> trace_ok r S' T) as HT by (intros T; unfold trace_ok, tr_ok; by rewrite E6).
  split; rewrite ?E1, ?E2, ?E3, ?E4, ?E5, ?Hmm; auto using tv_ok_retype.
  - intros o b Ho. assert (body_ok r S' b) as H by (destruct (Hb o b Ho); auto using body_ok_retype).
    destruct b; try done; cbn in *; by rewrite ?HT; unfold tr_ok; rewrite ?E6.
  - eapply Forall_impl; [|exact W4]. intros p [H|H]; auto.
  - rewrite HT. by apply trace_ok_retype.
  - eapply Forall_impl; [|exact W11]. intros p [?|?]; auto.
Qed.

End Retype.

(** One object is replaced by one of its type. *)
Section Replace.
Context (S : gmap Z GCbody) (o : Z) (b b' : GCbody).
Context (Ho : S !! o = Some b) (Htype : otype b' = otype b).
Context (Hthr : forall t, b = BThread t -> exists t', b' = BThread t' /\ th_top t' = th_top t /\ th_stack t' = th_stack t).

Lemma typed_replace it p : typed S it p -> typed (<[o := b']> S) it p.
Proof.
  intros (c & Hc & Hit). destruct (decide (p = o)) as [->|N].
  - exists b'. rewrite lookup_insert_eq. split; [done|]. assert (c = b) as -> by congruence. congruence.
  - exists c. by rewrite lookup_insert_ne.
Qed.
Lemma thread_replace p t : S !! p = Some (BThread t) ->
  exists t', <[o := b']> S !! p = Some (BThread t') /\ th_top t' = th_top t /\ th_stack t' = th_stack t.
Proof.
  intros Hp. destruct (decide (p = o)) as [->|N].
  - rewrite lookup_insert_eq. destruct (Hthr t) as (t' & -> & H); [congruence|]. by exists t'.
  - rewrite lookup_insert_ne by done. by exists t.
Qed.
Lemma live_replace p : live S p -> live (<[o := b']> S) p.
Proof. intros H. unfold live. rewrite lookup_insert_is_Some'. by right. Qed.
End Replace.

Lemma wf_close g o v th slot : wf (rest g) (shape g) -> (exists tv, shape g !! o = Some (BUpval false tv th slot)) -> tv_ok (shape g) v ->
  let g1 := link_root (upd (unlinkuv g o) o (set_body (BUpval true v th slot))) o in wf (rest g1) (shape g1).
Proof.
  intros W (tv & Ho) Hv g1. assert (exists x, heap g !! o = Some x) as (x & Hx).
  { rewrite shape_lookup in Ho. destruct (heap g !! o) as [x|]; [by exists x|done]. }
  set (b' := BUpval true v th slot) in *.
  assert (shape g1 = <[o := b']> (shape g)) as Hs.
  { unfold shape, g1. change (heap (link_root _ _)) with (heap (upd g o (set_body b'))). rewrite heap_upd with (x := x) by done. by rewrite fmap_insert. }
  assert (forall it p, typed (shape g) it p -> typed (shape g1) it p) as Ht by (rewrite Hs; by apply (typed_replace _ _ _ _ Ho)).
  apply (wf_retype (rest g) (shape g) (shape g1)); try done.
  - rewrite Hs. by apply (thread_replace _ _ _ _ Ho).
  - rewrite Hs. apply live_replace.
  - rewrite Hs, lookup_insert_ne; [apply W|]. intros ->. by rewrite (w_null _ _ W) in Ho.
  - rewrite Hs. intros p b [(-> & <-)|(_ & Hb)]%lookup_insert_Some; left; [done|by apply (w_body _ _ W p)].
  - change (Forall (typed (shape g1) LJ_TUPVAL) (filter (fun p => p <> o) (uvhead g))).
    pose proof (w_uvhead _ _ W) as H. rewrite Forall_forall in H |- *. intros p Hp. apply list_elem_of_In, list_elem_of_filter in Hp as (_ & Hp).
    apply Ht, H. by apply list_elem_of_In.
  - change (forall p b, shape g1 !! p = Some b -> is_open b = true -> p ∈ filter (fun p => p <> o) (uvhead g)).
    rewrite Hs. intros p b [(-> & <-)|(N & Hb)]%lookup_insert_Some Hop; [done|]. apply list_elem_of_filter. split; [done|].
    by apply (w_open _ _ W p b).
  - eapply Forall_impl; [apply Ht|apply W].
Qed.

Lemma barrierf_tv g o v : marking g = true ->
  (w ← tviswhite g v; if (w : bool) then lj_gc_barrierf g o (gcr v) else Ok g) = gc_marktv g v.
Proof.
  intros Hm. unfold tviswhite, gc_marktv, gc_markobj, lj_gc_barrierf. rewrite Hm. destruct (tvisgcv v); [|done].
  by destruct (obj_at g (gcr v)).
Qed.

Lemma closeuv_ok g gs ga ws o tv th slot : marking g = true -> J [] (uvhead g) g gs ga ws ->
  shape g !! o = Some (BUpval false tv th slot) ->
  exists g' gs' v, lj_gc_closeuv (unlinkuv g o) o = Ok g' /\ J [] (uvhead g') g' gs' ga ws /\
    (forall p, nw (heap g) p -> nw (heap g') p) /\ rest g' = rest (link_root (unlinkuv g o) o) /\
    stack_at g th slot = Ok v /\ shape g' = <[o := BUpval true v th slot]> (shape g).
Proof.
  intros Hm HJ Ho. pose proof (j_wf _ _ _ _ _ _ HJ) as Wf.
  destruct (live_heap (shape g) g o eq_refl) as (x & Hx & Hn); [by eexists|]. rewrite Ho in Hn. injection Hn as Hn.
  assert (body x = BUpval false tv th slot) as Hbx by by destruct (body x).
  assert (exists v, stack_at (unlinkuv g o) th slot = Ok v /\ tv_ok (shape g) v) as (v & Ev & Hv).
  { destruct (uvval_ok (rest g) (shape g) g o _ _ _ _ eq_refl Wf Ho) as (E & H). eexists. split; [exact E|done]. }
  set (b' := BUpval true v th slot). set (g1 := link_root (upd (unlinkuv g o) o (set_body b')) o).
  assert (wf (rest g1) (shape g1)) as Wf1 by (apply wf_close; [done|by exists tv|done]).
  assert (shape g1 = <[o := b']> (shape g)) as Hs1.
  { unfold shape at 1. change (heap g1) with (heap (upd g o (set_body b'))). rewrite heap_upd with (x := x) by done. by rewrite fmap_insert. }
  assert (forall p c q, p <> o -> shape g !! p = Some c -> is_open c = false -> q ∈ held (rest g) (shape g1) c -> q ∈ held (rest g) (shape g) c) as Hheld.
  { intros p c q Hp _ Hc. rewrite (held_frame _ (shape g) (shape g1) o); try done; rewrite ?Hs1.
    - intros p' Hp'. by rewrite lookup_insert_ne.
    - intros b0 Hb0. rewrite Ho in Hb0. by injection Hb0 as <-.
    - intros b0 Hb0. rewrite lookup_insert_eq in Hb0. by injection Hb0 as <-. }
  assert (forall p c, p <> o -> shape g !! p = Some c -> is_open c = true -> p ∈ uvhead g1) as Hopen.
  { intros p c Hp Hc Hop. change (p ∈ filter (fun p => p <> o) (uvhead g)). apply list_elem_of_filter. split; [done|].
    eapply J_open_in; [exact HJ|exact Hc|exact Hop]. }
  pose proof (j_color _ _ _ _ _ _ HJ o x Hx) as C. unfold color_ok in C. rewrite Hbx in C.
  unfold lj_gc_closeuv. rewrite (obj_at_ok (unlinkuv g o) o x Hx). cbn [mbind res_bind]. rewrite Hbx, Ev. cbn [mbind res_bind].
  fold b' g1. rewrite isgray_bits. destruct (iswhite (marked x)) eqn:W.
  - cbn [negb andb]. assert (heap g1 = <[o := set_body b' x]> (heap g)) as Hh by by apply (heap_upd g o (set_body b') x).
    exists g1, gs, v. split; [done|]. split; [|split; [intros p; rewrite Hh; by apply nw_upd with x|split; [done|split; [exact Ev|done]]]].
    eapply J_store with (g := g) (o := o); try exact Hh; try done; try apply HJ.
    + intros (y & Hy & W'). congruence.
    + rewrite Hh. apply chain_fun with x; [apply HJ|done|by right].
    + rewrite Hh. apply chain_fun with x; [apply HJ|done|by right].
    + rewrite Hh. apply chain_fun with x; [apply HJ|done|by right].
    + intros p Hp. split; [apply not_elem_of_nil|done].
    + unfold color_ok. cbn [set_body marked]. rewrite W. exact C.
  - destruct C as [(C & _)|(_ & C)]; [by apply elem_of_nil in C|]. destruct (isblack (marked x)) eqn:B; [by destruct C as (_ & _ & C & _)|].
    destruct C as (_ & Cl & _). cbn [negb andb]. change (marking g1) with (marking g). rewrite Hm.
    assert (o ∉ gs ++ ga) as Hni by (intros H; by assert (listable (BUpval false tv th slot) = true) by tauto).
    set (g2 := recolor g1 o gray2black). set (x2 := set_marked gray2black (set_body b' x)).
    assert (heap g2 = <[o := x2]> (heap g)) as Hh2.
    { unfold g2, recolor. rewrite heap_upd with (x := set_body b' x).
      - change (heap g1) with (heap (upd g o (set_body b'))). rewrite heap_upd with (x := x) by done. apply insert_insert_eq.
      - change (heap g1) with (heap (upd g o (set_body b'))). rewrite heap_upd with (x := x) by done. apply lookup_insert_eq. }
    assert (shape g2 = shape g1) as Hs2 by (rewrite Hs1; unfold shape at 1; by rewrite Hh2, fmap_insert).
    assert (iswhite (marked x2) = false /\ isblack (marked x2) = true) as (W2 & B2) by (unfold x2; cbn; by autorewrite with color).
    assert (J [o] (uvhead g2) g2 gs ga ws) as J2.
    { eapply J_store with (g := g) (o := o); try exact Hh2; try done; try apply HJ.
      - by rewrite Hs2.
      - rewrite Hh2. apply chain_fun with x; [apply HJ|done|by right].
      - rewrite Hh2. apply chain_fun with x; [apply HJ|done|by right].
      - rewrite Hh2. apply chain_fun with x; [apply HJ|done|by right].
      - intros p Hp. split; [by rewrite list_elem_of_singleton|done].
      - intros p c q. rewrite Hs2. apply Hheld.
      - unfold color_ok. rewrite W2. left. split; [by left|done]. }
    rewrite (barrierf_tv g2 o v Hm).
    destruct (marks_tv (rest g2) (shape g2) v) with (X := [o]) (U := uvhead g2) (g := g2) (gs := gs) (ga := ga) (ws := ws)
      as (g3 & gs3 & E3 & J3 & M3 & N3); try done.
    { rewrite Hs2. apply (tv_ok_retype (shape g) (shape g1)); [|done]. intros it p (b & Hb & Hit). destruct (decide (p = o)) as [->|N].
      - exists b'. rewrite Hs1, lookup_insert_eq. split; [done|]. rewrite Ho in Hb. by injection Hb as <-.
      - exists b. by rewrite Hs1, lookup_insert_ne. }
    destruct (mk_keep _ _ _ _ M3 o x2) as (x3 & Hx3 & Em); [by rewrite Hh2, lookup_insert_eq|done|].
    exists g3, gs3, v. split; [done|]. split.
    + assert (uvhead g3 = uvhead g2) as -> by exact (f_equal uvhead (mk_rest _ _ _ _ M3)).
      assert (shape g2 !! o = Some b') as Hb2 by by rewrite Hs2, Hs1, lookup_insert_eq.
      apply (finish_black (rest g2) (shape g2)) with o x3; try done; rewrite ?Em; try done; try apply M3.
      * intros H. by assert (listable (BUpval false tv th slot) = true) by tauto.
      * pose proof (norm_inv (shape g2) g3 o x3 _ (mk_shape _ _ _ _ M3) Hb2 Hx3) as Hn3. by destruct (body x3) as [|[]| | | | | | | |].
      * by exists b'.
    + split; [intros p Hp; apply (mk_nw _ _ _ _ _ M3); rewrite Hh2; by apply nw_upd with x|].
      split; [rewrite (mk_rest _ _ _ _ M3); done|]. split; [exact Ev|]. by rewrite (mk_shape _ _ _ _ M3), Hs2.
Qed.

End Mut.
