(* ===== verification/GcFuncInv.v ===== *)
(** * The garbage collector: upvalue operations in the mark phase

    [func_finduv] and [lj_func_closeuv] keep the tri-color invariant. *)

From S2P Require Import Prelude Machine Num Tab TabKey TabHash TabInv Buf Gc GcFunc GcInv GcMark GcTrav GcProp GcAtomic GcWeak GcSafe GcMut.

Section FuncInv.
Context `{TE : TabEnv}.

(** In the mark phase nothing is dead. *)
Lemma J_not_dead U g gs ga ws o x : J [] U g gs ga ws -> heap g !! o = Some x -> isdead g (marked x) = false.
Proof.
  intros HJ Hx. pose proof (j_color _ _ _ _ _ _ HJ o x Hx) as C. unfold color_ok in C.
  destruct (iswhite (marked x)) eqn:W; [apply C|by apply isdead_notwhite].
Qed.

Lemma th_at_inv g o t : th_at g o = Ok t -> exists x, heap g !! o = Some x /\ body x = BThread t.
Proof.
  unfold th_at, obj_at. destruct (heap g !! o) as [x|]; [|done]. cbn. destruct (body x) eqn:E; try done. intros [= <-]. by exists x.
Qed.

Lemma open_slot_inv g uv s : open_slot g uv = Ok s -> exists x tv th, heap g !! uv = Some x /\ body x = BUpval false tv th s.
Proof.
  unfold open_slot, obj_at. destruct (heap g !! uv) as [x|]; [|done]. cbn. destruct (body x) as [|[]| | | | | | | |] eqn:E; try done.
  intros [= <-]. by exists x, tv, th.
Qed.

(** ** The list of open upvalues of a thread *)

Lemma shape_upd_insert g o b x : heap g !! o = Some x -> shape (upd g o (set_body b)) = <[o := norm b]> (shape g).
Proof. intros Hx. unfold shape. rewrite heap_upd with (x := x) by done. by rewrite fmap_insert. Qed.

Lemma wf_openupval g o t l : wf (rest g) (shape g) -> th_at g o = Ok t ->
  let g1 := put_th g o (set_openupval t l) in wf (rest g1) (shape g1).
Proof.
  intros W Ht g1. apply th_at_inv in Ht as (x & Hx & Hb). set (b' := BThread (set_openupval t l)).
  assert (shape g !! o = Some (norm (BThread t))) as Ho by (rewrite shape_lookup, Hx; cbn; by rewrite Hb).
  assert (shape g1 = <[o := norm b']> (shape g)) as Hs by by apply (shape_upd_insert g o b' x).
  assert (forall it p, typed (shape g) it p -> typed (shape g1) it p) as Hty by (rewrite Hs; by apply (typed_replace _ _ _ _ Ho)).
  apply (wf_retype (rest g) (shape g) (shape g1)); try done.
  - rewrite Hs. apply (thread_replace _ _ _ _ Ho); [done|]. intros t' [= <-]. by eexists.
  - rewrite Hs. apply live_replace.
  - rewrite Hs, lookup_insert_ne; [apply W|]. intros ->. by rewrite (w_null _ _ W) in Ho.
  - rewrite Hs. intros p b [(-> & <-)|(_ & Hpb)]%lookup_insert_Some; left; [|by apply (w_body _ _ W p)]. exact (w_body _ _ W p _ Ho).
  - eapply Forall_impl; [apply Hty|apply W].
  - rewrite Hs. intros p b [(-> & <-)|(N & Hpb)]%lookup_insert_Some Hop; [done|]. by apply (w_open _ _ W p b).
  - eapply Forall_impl; [apply Hty|apply W].
Qed.

Lemma openupval_ok g gs ga ws o t l : J [] (uvhead g) g gs ga ws -> th_at g o = Ok t ->
  J [] (uvhead g) (put_th g o (set_openupval t l)) gs ga ws.
Proof.
  intros HJ Ht. pose proof (wf_openupval g o t l (j_wf _ _ _ _ _ _ HJ) Ht) as Hwf. apply th_at_inv in Ht as (x & Hx & Hb).
  apply plain_store_ok with x []; [done|done| |by apply (thread_not_black g gs ga ws (uvhead g) o x t)].
  exists x. rewrite Hb. split; [done|]. split; [done|]. split; [done|]. split; [exact Hwf|].
  intros p. rewrite app_nil_r. done.
Qed.

(** ** [func_finduv] *)

Lemma wf_new r r' (S : gmap Z GCbody) a b : wf r S -> S !! a = None -> a <> 0 -> body_ok r S b ->
  gcroot r' = gcroot r /\ mainthread r' = mainthread r /\ registrytv r' = registrytv r /\ strempty r' = strempty r /\
    jit_cur r' = jit_cur r /\ jit_trace r' = jit_trace r ->
  uvhead r' = (if is_open b then [a] else []) ++ uvhead r -> 
  Forall (fun o => o ∈ gc_udata r \/ (o = a /\ otype b = LJ_TUDATA)) (gc_udata r') -> gc_mmudata r' = gc_mmudata r ->
  wf r' (<[a := b]> S).
Proof.
  intros W Ha Hne Hb He Huv Hud Hmm.
  assert (forall p c, S !! p = Some c -> <[a := b]> S !! p = Some c) as Hk.
  { intros p c Hp. rewrite lookup_insert_ne; [done|]. intros ->. congruence. }
  assert (forall it p, typed S it p -> typed (<[a := b]> S) it p) as Hty by (intros it p (c & Hc & Hit); exists c; auto).
  assert (typed (<[a := b]> S) (otype b) a) as Hta by (exists b; by rewrite lookup_insert_eq).
  apply (wf_retype r S); try done.
  - intros p t Hp. exists t. auto.
  - intros p (c & Hc). exists c. auto.
  - rewrite lookup_insert_ne by done. apply W.
  - intros p c [(-> & <-)|(_ & Hpc)]%lookup_insert_Some; left; [done|by apply (w_body _ _ W p)].
  - rewrite Huv. apply Forall_app. split; [|eapply Forall_impl; [apply Hty|apply W]].
    destruct (is_open b) eqn:E; [|constructor]. constructor; [|constructor]. by destruct b as [|[]| | | | | | | |].
  - rewrite Huv. intros p c [(-> & <-)|(_ & Hpc)]%lookup_insert_Some Hop; apply elem_of_app; [left; rewrite Hop; by left|right].
    by apply (w_open _ _ W p c).
  - pose proof (w_udata _ _ W) as H. rewrite Forall_forall in Hud, H |- *. intros p Hp. destruct (Hud p Hp) as [Hin|(-> & <-)]; [|done].
    apply Hty, H. by apply list_elem_of_In.
Qed.

Lemma finduv_loop_in g slot uvs p pre post : finduv_loop g slot uvs = Ok (Some p, pre, post) -> p ∈ uvs /\ open_slot g p = Ok slot.
Proof.
  revert pre post. induction uvs as [|u uvs IH]; intros pre post E; [done|]. cbn [finduv_loop] in E.
  destruct (open_slot g u) as [s|] eqn:Es; [|done]. cbn [mbind res_bind] in E. destruct (slot <=? s)%nat; [|done].
  destruct (Nat.eqb_spec s slot) as [->|].
  - injection E as <- <- <-. split; [by left|done].
  - destruct (finduv_loop g slot uvs) as [[[r pre'] post']|]; [|done]. injection E as -> <- <-.
    destruct (IH _ _ eq_refl) as (H1 & H2). split; [by right|done].
Qed.

(** The new upvalue, before it is in the list of its thread. *)
Definition new_open (g : global_State) (o : Z) (slot : nat) (a : Z) : global_State :=
  set_lists (newobj g a (BUpval false Tnil o slot)) (gc_root g) (a :: uvhead g).

Lemma finduv_ok g gs ga ws o slot a g' uv t : J [] (uvhead g) g gs ga ws -> one_white g -> heap g !! a = None -> a <> 0 ->
  th_at g o = Ok t -> (1 <= slot < th_top t)%nat -> func_finduv g o slot a = Ok (g', uv) ->
  (g' = g /\ uv ∈ th_openupval t /\ open_slot g uv = Ok slot) \/
  (uv = a /\ exists pre post, finduv_loop g slot (th_openupval t) = Ok (None, pre, post) /\
    g' = put_th (new_open g o slot a) o (set_openupval t (pre ++ a :: post)) /\ J [] (uvhead g') g' gs ga ws).
Proof.
  intros HJ Hw Ha Hne Ht Hslot E. unfold func_finduv in E. rewrite Ht in E. cbn [mbind res_bind] in E.
  destruct (finduv_loop g slot (th_openupval t)) as [[[r pre] post]|] eqn:El; [|done]. cbn [mbind res_bind] in E. destruct r as [p|].
  - left. apply finduv_loop_in in El as (Hin & Hs). destruct (open_slot_inv g p slot Hs) as (x & tv & th & Hx & Hb).
    rewrite (obj_at_ok _ _ _ Hx) in E. cbn [mbind res_bind] in E. rewrite (J_not_dead _ _ _ _ _ _ _ HJ Hx) in E. by injection E as <- <-.
  - right. injection E as <- <-. split; [done|]. exists pre, post. split; [done|]. split; [done|].
    pose proof (j_wf _ _ _ _ _ _ HJ) as W. set (b := BUpval false Tnil o slot). set (g1 := new_open g o slot a).
    assert (heap g1 = <[a := mkObj (curwhite g) 0 b]> (heap g)) as Hh by done.
    assert (shape g1 = <[a := b]> (shape g)) as Hs by (unfold shape; rewrite Hh; by rewrite fmap_insert).
    destruct (th_at_inv g o t Ht) as (x & Hx & Hb).
    assert (J [] (uvhead g1) g1 gs ga ws) as J1.
    { apply (new_object_ok g g1 gs ga ws a b); try done; [|intros p Hp; by right]. rewrite Hs. apply (wf_new (rest g)); try done.
      - by rewrite shape_lookup, Ha.
      - exists (set_stack t (take (th_top t) (th_stack t))). split; [rewrite shape_lookup, Hx; cbn; by rewrite Hb|]. split; [done|].
        cbn [th_stack set_stack]. rewrite length_take.
        assert (body_ok (rest g) (shape g) (norm (body x))) as Hok by (apply (w_body _ _ W o); by rewrite shape_lookup, Hx).
        rewrite Hb in Hok. destruct Hok as (Hok & _). cbn in Hok. rewrite length_take in Hok. lia.
      - cbn. apply Forall_forall. intros p Hp. left. by apply list_elem_of_In. }
    apply (openupval_ok g1 gs ga ws o t); [done|]. unfold th_at, obj_at. rewrite Hh, lookup_insert_ne by congruence. rewrite Hx. cbn. by rewrite Hb.
Qed.

(** ** [lj_func_closeuv] *)

(** What closing the upvalues has done. *)
Record closed_all (uvs : list Z) (g g' : global_State) : Prop := {
  ca_rest : set_lists (rest g') [] [] = set_lists (rest g) [] [];
  ca_root : gc_root g' = rev uvs ++ gc_root g;
  ca_uvhead : forall p, p ∈ uvhead g' <-> p ∈ uvhead g /\ p ∉ uvs;
  ca_nw : forall p, nw (heap g) p -> nw (heap g') p;
  ca_shape : forall p, p ∉ uvs -> shape g' !! p = shape g !! p;
  ca_closed : forall p, p ∈ uvs -> exists tv th slot, shape g !! p = Some (BUpval false tv th slot) /\
    shape g' !! p = Some (BUpval true (uv_val (shape g) false tv th slot) th slot)
}.

Lemma closed_all_nil g : closed_all [] g g.
Proof.
  split; try done.
  - intros p. rewrite elem_of_nil. tauto.
  - intros p H. by apply elem_of_nil in H.
Qed.

Definition open_in (S : gmap Z GCbody) (uv : Z) : Prop := exists tv th slot, S !! uv = Some (BUpval false tv th slot).

Lemma closed_all_cons uv uvs g g1 g2 : (uv ∉ uvs) -> wf (rest g) (shape g) -> Forall (open_in (shape g)) uvs ->
  closed_all [uv] g g1 -> closed_all uvs g1 g2 -> closed_all (uv :: uvs) g g2.
Proof.
  intros Hni W HF H1 H2. split.
  - rewrite (ca_rest _ _ _ H2). apply H1.
  - rewrite (ca_root _ _ _ H2), (ca_root _ _ _ H1). cbn [rev app]. by rewrite <- app_assoc.
  - intros p. rewrite (ca_uvhead _ _ _ H2), (ca_uvhead _ _ _ H1), !elem_of_cons, elem_of_nil. tauto.
  - intros p Hp. by apply (ca_nw _ _ _ H2), (ca_nw _ _ _ H1).
  - intros p. rewrite elem_of_cons. intros Hp. rewrite (ca_shape _ _ _ H2) by tauto. apply (ca_shape _ _ _ H1).
    rewrite list_elem_of_singleton. tauto.
  - intros p [->|Hp]%elem_of_cons.
    + destruct (ca_closed _ _ _ H1 uv) as (tv & th & slot & Hb & Hb'); [by left|]. exists tv, th, slot. split; [done|].
      by rewrite (ca_shape _ _ _ H2).
    + assert (p <> uv) as Hne by by intros ->.
      destruct (ca_closed _ _ _ H2 p Hp) as (tv & th & slot & Hb & Hb'). exists tv, th, slot.
      rewrite (ca_shape _ _ _ H1) in Hb by by rewrite list_elem_of_singleton. split; [done|]. rewrite Hb'. do 2 f_equal.
      destruct (w_body _ _ W p _ Hb) as (t & Ht & _). cbn. rewrite (ca_shape _ _ _ H1); [done|]. rewrite list_elem_of_singleton. intros ->.
      destruct (ca_closed _ _ _ H1 uv) as (? & ? & ? & Hc & _); [by left|]. congruence.
Qed.

Lemma marking_rest g g' : set_lists (rest g') [] [] = set_lists (rest g) [] [] -> marking g' = marking g.
Proof. intros R. unfold marking. assert (gc_state g' = gc_state g) as -> by exact (f_equal gc_state R). done. Qed.

Lemma closeuv_one g gs ga ws uv : marking g = true -> J [] (uvhead g) g gs ga ws -> open_in (shape g) uv ->
  exists g' gs', lj_gc_closeuv (unlinkuv g uv) uv = Ok g' /\ J [] (uvhead g') g' gs' ga ws /\ closed_all [uv] g g'.
Proof.
  intros Hm HJ (tv & th & slot & Hb).
  destruct (closeuv_ok g gs ga ws uv tv th slot Hm HJ Hb) as (g' & gs' & v & E & J' & N & R & Ev & Hs).
  exists g', gs'. split; [done|]. split; [done|].
  destruct (uvval_ok (rest g) (shape g) g uv false tv th slot eq_refl (j_wf _ _ _ _ _ _ HJ) Hb) as (Ev' & _).
  assert (v = uv_val (shape g) false tv th slot) as -> by (cbn [uvval] in Ev'; congruence). split; try done.
  - by rewrite R.
  - exact (f_equal gc_root R).
  - intros p. rewrite list_elem_of_singleton. assert (uvhead g' = filter (fun o => o <> uv) (uvhead g)) as -> by exact (f_equal uvhead R).
    rewrite list_elem_of_filter. tauto.
  - intros p. rewrite list_elem_of_singleton. intros Hp. by rewrite Hs, lookup_insert_ne.
  - intros p ->%list_elem_of_singleton. exists tv, th, slot. split; [done|]. by rewrite Hs, lookup_insert_eq.
Qed.

(** The upvalues in front are those at the level or above it, up to the first
    one below. *)
Definition slot_of (S : gmap Z GCbody) (uv : Z) : nat := match S !! uv with Some (BUpval _ _ _ slot) => slot | _ => 0 end.
Definition level_split (S : gmap Z GCbody) (level : nat) (cl rs : list Z) : Prop :=
  Forall (fun uv => (level <= slot_of S uv)%nat) cl /\ match rs with [] => True | uv :: _ => (slot_of S uv < level)%nat end.

(** The loop closes the upvalues in front of the list, as far as the level. *)
Lemma closeuv_loop_ok level uvs : NoDup uvs -> forall g gs ga ws, marking g = true -> J [] (uvhead g) g gs ga ws ->
  Forall (open_in (shape g)) uvs ->
  exists cl rs g' gs', uvs = cl ++ rs /\ closeuv_loop g level uvs = Ok (g', rs) /\ J [] (uvhead g') g' gs' ga ws /\ closed_all cl g g' /\
    level_split (shape g) level cl rs.
Proof.
  induction 1 as [|uv uvs Hni Hnd IH]; intros g gs ga ws Hm HJ HF.
  { exists [], [], g, gs. split; [done|]. split; [done|]. split; [done|]. split; [apply closed_all_nil|]. by split; [constructor|]. }
  pose proof (Forall_inv HF) as Hop. apply Forall_inv_tail in HF. pose proof Hop as (tv & th & s & Hb).
  cbn [closeuv_loop]. rewrite shape_lookup in Hb. destruct (heap g !! uv) as [x|] eqn:Hx; [|done]. cbn in Hb. injection Hb as Hb.
  assert (body x = BUpval false tv th s) as Hbx by by destruct (body x).
  unfold open_slot. rewrite (obj_at_ok _ _ _ Hx). cbn [mbind res_bind]. rewrite Hbx. cbn [mbind res_bind].
  assert (slot_of (shape g) uv = s) as Hslot by (unfold slot_of; rewrite shape_lookup, Hx; cbn; by rewrite Hb).
  destruct (Nat.leb_spec level s) as [Hle|Hlt].
  2: { exists [], (uv :: uvs), g, gs. split; [done|]. split; [done|]. split; [done|]. split; [apply closed_all_nil|].
       split; [constructor|]. by rewrite Hslot. }
  rewrite (J_not_dead _ _ _ _ _ _ _ HJ Hx). destruct (closeuv_one g gs ga ws uv Hm HJ Hop) as (g1 & gs1 & E1 & J1 & C1).
  rewrite E1. cbn [mbind res_bind]. destruct (IH g1 gs1 ga ws) as (cl & rs & g2 & gs2 & -> & E2 & J2 & C2 & L2); [|done| |].
  - by rewrite (marking_rest _ _ (ca_rest _ _ _ C1)).
  - rewrite Forall_forall in HF |- *. intros p Hp. destruct (HF p Hp) as (tv' & th' & s' & Hb'). exists tv', th', s'.
    rewrite (ca_shape _ _ _ C1); [done|]. rewrite list_elem_of_singleton. intros ->. by apply Hni, list_elem_of_In.
  - exists (uv :: cl), rs, g2, gs2. split; [done|]. split; [done|]. split; [done|].
    assert (forall p, p ∈ cl ++ rs -> slot_of (shape g1) p = slot_of (shape g) p) as Hsame.
    { intros p Hp. unfold slot_of. rewrite (ca_shape _ _ _ C1); [done|]. rewrite list_elem_of_singleton. by intros ->. }
    split.
    + apply closed_all_cons with g1; try done.
      * intros H. apply Hni, elem_of_app. by left.
      * apply HJ.
      * by apply Forall_app in HF as (HF & _).
    + destruct L2 as (L2 & L3). split.
      * constructor; [by rewrite Hslot|]. rewrite Forall_forall in L2 |- *. intros p Hp.
        rewrite <- Hsame; [by apply L2|]. apply elem_of_app. left. by apply list_elem_of_In.
      * destruct rs as [|p rs]; [done|]. rewrite <- Hsame; [done|]. apply elem_of_app. right. by left.
Qed.

(** The level is a slot of the thread [o]. *)
Lemma closeuv_level_ok g gs ga ws o level t : marking g = true -> J [] (uvhead g) g gs ga ws -> th_at g o = Ok t ->
  NoDup (th_openupval t) -> Forall (open_in (shape g)) (th_openupval t) ->
  exists cl rs g1 gs1 t1, th_openupval t = cl ++ rs /\ level_split (shape g) level cl rs /\ closed_all cl g g1 /\ th_at g1 o = Ok t1 /\
    let g' := put_th g1 o (set_openupval t1 rs) in lj_func_closeuv g o level = Ok g' /\ J [] (uvhead g') g' gs1 ga ws.
Proof.
  intros Hm HJ Ht Hnd HF. destruct (closeuv_loop_ok level _ Hnd g gs ga ws Hm HJ HF) as (cl & rs & g1 & gs1 & Hcl & E & J1 & C & HL).
  destruct (th_at_inv g o t Ht) as (x & Hx & Hb).
  assert (shape g !! o = Some (norm (BThread t))) as Ho by (rewrite shape_lookup, Hx; cbn; by rewrite Hb).
  assert (o ∉ cl) as Hni.
  { intros H. destruct (ca_closed _ _ _ C o H) as (tv & th & s & H' & _). by rewrite Ho in H'. }
  rewrite <- (ca_shape _ _ _ C o Hni) in Ho. destruct (th_at_ok (shape g1) g1 o _ eq_refl Ho) as (t1 & E1 & _).
  exists cl, rs, g1, gs1, t1. split; [done|]. split; [done|]. split; [done|]. split; [done|]. cbv zeta. unfold lj_func_closeuv.
  rewrite Ht. cbn [mbind res_bind]. rewrite E. cbn [mbind res_bind]. rewrite E1. split; [done|]. by apply (openupval_ok g1 gs1 ga ws o t1).
Qed.

End FuncInv.
