(* ===== verification/GcLists.v ===== *)
(** * The garbage collector: the lists of all objects

    Every object but strings and open upvalues is in exactly one of the lists
    of the collector, an open upvalue in that of its thread. *)

From S2P Require Import Prelude Machine Num Tab TabKey TabHash TabInv Buf Gc GcFunc GcInv GcMark GcTrav GcProp GcAtomic GcWeak GcSafe GcMut GcFuncInv.

Section Lists.
Context `{TE : TabEnv}.

Definition all_objects (r : global_State) : list Z := gc_root r ++ gc_udata r ++ gc_mmudata r.
Definition upvals_of (b : GCbody) : list Z := match b with BThread t => th_openupval t | _ => [] end.
Definition is_thread (b : GCbody) : bool := match b with BThread _ => true | _ => false end.

Record lists_ok (r : global_State) (S : gmap Z GCbody) : Prop := {
  lk_nodup : NoDup (all_objects r);
  lk_obj : forall o, o ∈ all_objects r -> exists b, S !! o = Some b /\ is_open b = false;
  lk_thread : forall o b, S !! o = Some b -> is_thread b = true -> o ∈ gc_root r;
  lk_upvals : forall o b, S !! o = Some b -> NoDup (upvals_of b) /\
    forall uv, uv ∈ upvals_of b -> exists tv slot, S !! uv = Some (BUpval false tv o slot)
}.

Lemma upvals_thread b uv : uv ∈ upvals_of b -> is_thread b = true.
Proof. destruct b; try done; intros H; by apply elem_of_nil in H. Qed.

(** An object gets other contents. *)
Definition keeps_upvals (b b' : GCbody) : Prop :=
  upvals_of b' = upvals_of b /\ is_thread b' = is_thread b /\ is_open b' = is_open b /\ (is_open b = true -> b' = b).

Lemma keeps_upvals_other b b' : otype b' = otype b -> is_open b = false -> is_open b' = false -> upvals_of b' = upvals_of b -> keeps_upvals b b'.
Proof. intros Ht Ho Ho' Hu. unfold keeps_upvals. rewrite Ho, Ho'. by destruct b as [|[]| | | | | | | |], b' as [|[]| | | | | | | |]. Qed.

Lemma lists_replace r r' S o b b' : lists_ok r S -> S !! o = Some b -> keeps_upvals b b' ->
  gc_root r' = gc_root r -> all_objects r' ≡ₚ all_objects r -> lists_ok r' (<[o := b']> S).
Proof.
  intros [H1 H2 H3 H4] Ho (Hu & Ht & Hp & Hs) Hr Ha.
  assert (forall p c, <[o := b']> S !! p = Some c -> exists c0, S !! p = Some c0 /\ keeps_upvals c0 c) as Hk.
  { intros p c [(<- & <-)|(_ & Hc)]%lookup_insert_Some; [by exists b|by exists c]. }
  split.
  - by rewrite Ha.
  - intros p. rewrite Ha. intros Hin. destruct (H2 p Hin) as (c & Hc & Hop). destruct (decide (p = o)) as [->|N].
    + exists b'. rewrite lookup_insert_eq. split; [done|]. assert (c = b) as -> by congruence. congruence.
    + exists c. by rewrite lookup_insert_ne.
  - intros p c Hc Hth. destruct (Hk p c Hc) as (c0 & Hc0 & _ & E & _). rewrite Hr. apply (H3 p c0); congruence.
  - intros p c Hc. destruct (Hk p c Hc) as (c0 & Hc0 & E & _). rewrite E. destruct (H4 p c0 Hc0) as (Hnd & Huv). split; [done|].
    intros uv Hin. destruct (Huv uv Hin) as (tv & slot & Hb). exists tv, slot. destruct (decide (uv = o)) as [->|N].
    + rewrite lookup_insert_eq. assert (b = BUpval false tv p slot) as E' by congruence. by rewrite Hs, E' by by rewrite E'.
    + by rewrite lookup_insert_ne.
Qed.

Lemma lists_same r r' S : lists_ok r S -> gc_root r' = gc_root r -> all_objects r' ≡ₚ all_objects r -> lists_ok r' S.
Proof.
  intros [H1 H2 H3 H4] Hr Ha. split; [by rewrite Ha| |by rewrite Hr|done]. intros o. rewrite Ha. apply H2.
Qed.

(** A new object is linked, unless it is a string or an open upvalue. *)
Lemma lists_new r r' S a b l : lists_ok r S -> S !! a = None -> upvals_of b = [] ->
  (is_thread b = true -> a ∈ gc_root r') -> (forall p, p ∈ gc_root r -> p ∈ gc_root r') ->
  l = [] \/ (l = [a] /\ is_open b = false) -> all_objects r' ≡ₚ l ++ all_objects r -> lists_ok r' (<[a := b]> S).
Proof.
  intros [H1 H2 H3 H4] Ha Hu Ht Hr Hl Hall.
  assert (a ∉ all_objects r) as Hni by (intros H; destruct (H2 a H) as (c & Hc & _); congruence).
  assert (forall p c, S !! p = Some c -> <[a := b]> S !! p = Some c) as Hk by (intros p c Hc; rewrite lookup_insert_ne; [done|congruence]).
  split.
  - rewrite Hall. destruct Hl as [->|(-> & _)]; [done|]. by apply NoDup_cons_2.
  - intros p. rewrite Hall. intros [Hin|Hin]%elem_of_app.
    + destruct Hl as [->|(-> & Hop)]; [by apply elem_of_nil in Hin|]. apply list_elem_of_singleton in Hin as ->. exists b. by rewrite lookup_insert_eq.
    + destruct (H2 p Hin) as (c & Hc & Hop). exists c. auto.
  - intros p c [(<- & <-)|(_ & Hc)]%lookup_insert_Some Hth; [auto|]. eauto.
  - intros p c [(<- & <-)|(_ & Hc)]%lookup_insert_Some.
    + rewrite Hu. split; [constructor|]. intros uv H. by apply elem_of_nil in H.
    + destruct (H4 p c Hc) as (Hnd & Huv). split; [done|]. intros uv Hin. destruct (Huv uv Hin) as (tv & slot & Hb). exists tv, slot. auto.
Qed.

(** An open upvalue in the list of its thread. *)
Lemma lists_link r S o t tv slot a pre post : lists_ok r S -> S !! o = Some (BThread t) -> th_openupval t = pre ++ post ->
  S !! a = Some (BUpval false tv o slot) -> (a ∉ pre ++ post) ->
  lists_ok r (<[o := BThread (set_openupval t (pre ++ a :: post))]> S).
Proof.
  intros [H1 H2 H3 H4] Ho Hl Ha Hni. assert (a <> o) as Hne by congruence.
  assert (forall p c, S !! p = Some c -> is_thread c = false -> <[o := BThread (set_openupval t (pre ++ a :: post))]> S !! p = Some c) as Hk.
  { intros p c Hc Ht. rewrite lookup_insert_ne; [done|]. intros ->. assert (c = BThread t) as -> by congruence. done. }
  split; try done.
  - intros p Hin. destruct (H2 p Hin) as (c & Hc & Hop). destruct (decide (p = o)) as [->|N].
    + eexists. by rewrite lookup_insert_eq.
    + exists c. by rewrite lookup_insert_ne.
  - intros p c [(<- & <-)|(_ & Hc)]%lookup_insert_Some Hth; [by apply (H3 o (BThread t))|by apply (H3 p c)].
  - intros p c [(<- & <-)|(_ & Hc)]%lookup_insert_Some.
    + destruct (H4 o _ Ho) as (Hnd & Huv). cbn [upvals_of th_openupval set_openupval] in *. rewrite Hl in *. split.
      * rewrite <- Permutation_middle. by apply NoDup_cons_2.
      * intros uv. rewrite <- Permutation_middle. intros [->|Hin]%elem_of_cons; [exists tv, slot; by apply Hk|].
        destruct (Huv uv Hin) as (tv' & slot' & Hb). exists tv', slot'. by apply Hk.
    + destruct (H4 p c Hc) as (Hnd & Huv). split; [done|]. intros uv Hin. destruct (Huv uv Hin) as (tv' & slot' & Hb). exists tv', slot'. by apply Hk.
Qed.

(** Upvalues in front of the list of a thread are closed. *)
Lemma lists_close r r' S S' o t cl rs : lists_ok r S -> S !! o = Some (BThread t) -> th_openupval t = cl ++ rs ->
  gc_root r' = rev cl ++ gc_root r -> gc_udata r' = gc_udata r -> gc_mmudata r' = gc_mmudata r ->
  (forall p, (p ∉ cl) -> p <> o -> S' !! p = S !! p) -> S' !! o = Some (BThread (set_openupval t rs)) ->
  (forall p, p ∈ cl -> exists v th slot, S' !! p = Some (BUpval true v th slot)) -> lists_ok r' S'.
Proof.
  intros [H1 H2 H3 H4] Ho Hl Hr Hu Hm Hne HSo Hcl. pose proof (H4 o _ Ho) as (Hnd & Huv). cbn [upvals_of] in Hnd, Huv. rewrite Hl in Hnd, Huv.
  assert (all_objects r' ≡ₚ cl ++ all_objects r) as Ha.
  { unfold all_objects. rewrite Hr, Hu, Hm, <- app_assoc. by rewrite <- Permutation_rev. }
  assert (forall p, p ∈ cl -> exists tv slot, S !! p = Some (BUpval false tv o slot)) as Hopen by (intros p Hp; apply Huv, elem_of_app; by left).
  assert (forall p c, S !! p = Some c -> p <> o -> is_open c = false -> S' !! p = Some c) as Hk.
  { intros p c Hc N Hop. rewrite Hne; [done| |done]. intros Hin. destruct (Hopen p Hin) as (tv & slot & E).
    assert (c = BUpval false tv o slot) as -> by congruence. done. }
  split.
  - rewrite Ha. apply list.NoDup_app in Hnd as (Hnd & _ & _). apply list.NoDup_app. split; [done|]. split; [|done].
    intros p Hp Hin. destruct (Hopen p Hp) as (tv & slot & E). destruct (H2 p Hin) as (c & Hc & Hop).
    assert (c = BUpval false tv o slot) as -> by congruence. done.
  - intros p. rewrite Ha. intros [Hp|Hp]%elem_of_app.
    + destruct (Hcl p Hp) as (v & th & slot & E). by exists (BUpval true v th slot).
    + destruct (H2 p Hp) as (c & Hc & Hop). destruct (decide (p = o)) as [->|N]; [by eexists|]. exists c. auto.
  - intros p c Hc Hth. rewrite Hr. apply elem_of_app. right. destruct (decide (p = o)) as [->|N]; [by apply (H3 o (BThread t))|].
    destruct (decide (p ∈ cl)) as [Hin|Hin]; [|rewrite Hne in Hc by done; by apply (H3 p c)].
    destruct (Hcl p Hin) as (v & th & slot & E). assert (c = BUpval true v th slot) as -> by congruence. done.
  - apply list.NoDup_app in Hnd as (Hnd1 & Hdis & Hnd2).
    assert (forall p c, S !! p = Some c -> forall uv, uv ∈ upvals_of c -> (uv ∉ cl) -> exists tv slot, S' !! uv = Some (BUpval false tv p slot)) as Hkeep.
    { intros p c Hc uv Hin Hn. destruct (H4 p c Hc) as (_ & H). destruct (H uv Hin) as (tv & slot & E). exists tv, slot.
      rewrite Hne; [done|done|congruence]. }
    intros p c Hc. destruct (decide (p = o)) as [->|N].
    + assert (c = BThread (set_openupval t rs)) as -> by congruence. cbn [upvals_of set_openupval th_openupval]. split; [done|].
      intros uv Hin. apply (Hkeep o _ Ho); [|intros H; by apply Hdis in H]. cbn [upvals_of]. rewrite Hl. apply elem_of_app. by right.
    + destruct (decide (p ∈ cl)) as [Hin|Hin].
      { destruct (Hcl p Hin) as (v & th & slot & E). assert (c = BUpval true v th slot) as -> by congruence. cbn.
        split; [constructor|]. intros uv H. by apply elem_of_nil in H. }
      rewrite Hne in Hc by done. split; [by apply (H4 p c)|]. intros uv Huvin. apply (Hkeep p c Hc uv Huvin). intros Hcin.
      destruct (Hopen uv Hcin) as (tv & slot & E). destruct (proj2 (H4 p c Hc) uv Huvin) as (tv' & slot' & E'). congruence.
Qed.

End Lists.
