(* ===== verification/GcCycle.v ===== *)
(** * The garbage collector: a cycle

    The steps of the collector and of the program from the start of a cycle to
    the atomic phase, as a step relation with an invariant. *)

From S2P Require Import Prelude Machine Num Tab TabKey TabHash TabInv Buf Gc GcFunc GcInv GcMark GcTrav GcProp GcAtomic GcWeak GcSafe GcMut GcFuncInv GcLists.

Section Cycle.
Context `{TE : TabEnv}.

(** ** The invariant of the mark phase *)

Record Inv (g : global_State) : Prop := {
  i_marking : marking g = true;
  i_white : one_white g;
  i_main : nw (heap g) (mainthread g);
  i_registry : Forall (nw (heap g)) (tvref (registrytv g));
  i_lists : lists_ok (rest g) (shape g);
  i_J : exists gs ga ws, J [] (uvhead g) g gs ga ws
}.

(** The start of a cycle: every object has the current white. *)
Record cycle_start (g : global_State) : Prop := {
  s_wf : wf (rest g) (shape g);
  s_nomm : forall o x, heap g !! o = Some x -> nomm_ok (rest g) (body x);
  s_lists : lists_ok (rest g) (shape g);
  s_white : one_white g;
  s_color : forall o x, heap g !! o = Some x ->
    iswhite (marked x) = true /\ isdead g (marked x) = false /\ isblack (marked x) = false
}.

Lemma J_set_state X U g gs ga ws s : J X U g gs ga ws -> J X U (set_state g s) gs ga ws.
Proof. intros HJ. split; try apply HJ. by destruct (j_wf _ _ _ _ _ _ HJ). Qed.

Lemma J_start g : cycle_start g -> let g0 := set_weak (set_grayagain (set_gray g 0) 0) 0 in J [] (uvhead g) g0 [] [] [].
Proof.
  intros [Hw Hn _ _ Hc] g0. split; try done.
  - constructor.
  - intros o x Hx. destruct (Hc o x Hx) as (W & C & B). unfold color_ok. rewrite W. split_and!; try done; apply not_elem_of_nil.
Qed.

Lemma mark_start_ok g : cycle_start g -> exists g', gc_mark_start g = Ok g' /\ Inv g' /\ gc_state g' = GCSpropagate.
Proof.
  intros Hs. pose proof (J_start g Hs) as HJ. cbv zeta in HJ. set (g0 := set_weak (set_grayagain (set_gray g 0) 0) 0) in *.
  pose proof (s_wf g Hs) as Wf. change (wf (rest g0) (shape g0)) in Wf. pose proof (w_main _ _ Wf) as (b & Hb & Hbt).
  destruct b as [|[]|th| | | | | | |]; try discriminate Hbt. change (mainthread (rest g0)) with (mainthread g0) in Hb.
  destruct (w_body _ _ Wf _ _ Hb) as (_ & _ & Henv & _).
  destruct (marks_obj (rest g0) (shape g0) (mainthread g0)) with (X := @nil Z) (U := uvhead g) (g := g0) (gs := @nil Z) (ga := @nil Z) (ws := @nil Z)
    as (g1 & gs1 & E1 & J1 & M1 & N1); [by exists (BThread th)|done|done|done|].
  pose proof (mk_rest _ _ _ _ M1) as R1. pose proof (mk_shape _ _ _ _ M1) as S1.
  assert (mainthread g1 = mainthread g0) as Hm1 by exact (f_equal mainthread R1).
  destruct (th_at_ok (shape g0) g1 _ th S1 Hb) as (t & Et & Ht). assert (th_env t = th_env th) as He by by rewrite <- Ht.
  destruct (marks_obj (rest g0) (shape g0) (th_env th)) with (X := @nil Z) (U := uvhead g) (g := g1) (gs := gs1) (ga := @nil Z) (ws := @nil Z)
    as (g2 & gs2 & E2 & J2 & M2 & N2); [by apply typed_live in Henv|done|done|done|].
  pose proof (mk_trans _ _ _ _ _ _ M1 M2) as M12. pose proof (mk_rest _ _ _ _ M12) as R2. pose proof (mk_shape _ _ _ _ M12) as S2.
  assert (registrytv g2 = registrytv g0) as Hr2 by exact (f_equal registrytv R2).
  destruct (marks_tv (rest g0) (shape g0) (registrytv g0)) with (X := @nil Z) (U := uvhead g) (g := g2) (gs := gs2) (ga := @nil Z) (ws := @nil Z)
    as (g3 & gs3 & E3 & J3 & M3 & N3); [apply (w_registry _ _ Wf)|done|done|done|].
  pose proof (mk_trans _ _ _ _ _ _ M12 M3) as M13.
  destruct (marks_gcroot (rest g0) (shape g0) Wf) with (X := @nil Z) (U := uvhead g) (g := g3) (gs := gs3) (ga := @nil Z) (ws := @nil Z)
    as (g4 & gs4 & E4 & J4 & M4 & N4); [apply (mk_rest _ _ _ _ M13)|apply (mk_shape _ _ _ _ M13)|done|].
  pose proof (mk_trans _ _ _ _ _ _ M13 M4) as M14. pose proof (mk_rest _ _ _ _ M14) as R4.
  exists (set_state g4 GCSpropagate). split; [|split; [|done]].
  - unfold gc_mark_start. fold g0. rewrite E1. cbn [mbind res_bind]. rewrite Hm1, Et. cbn [mbind res_bind].
    rewrite He, E2. cbn [mbind res_bind]. rewrite Hr2, E3. cbn [mbind res_bind]. by rewrite E4.
  - assert (currentwhite g4 = currentwhite g) as Hcw by exact (f_equal currentwhite R4).
    assert (mainthread g4 = mainthread g) as Hm4 by exact (f_equal mainthread R4).
    assert (registrytv g4 = registrytv g) as Hr4 by exact (f_equal registrytv R4).
    assert (uvhead g4 = uvhead g) as Hu4 by exact (f_equal uvhead R4).
    split; [done| | | | |].
    + unfold one_white, curwhite. cbn [set_state currentwhite]. rewrite Hcw. apply (s_white g Hs).
    + cbn [set_state heap mainthread]. rewrite Hm4. apply (mk_nw _ _ _ _ _ M4), (mk_nw _ _ _ _ _ M3), (mk_nw _ _ _ _ _ M2).
      by apply Forall_inv in N1.
    + cbn [set_state heap registrytv]. rewrite Hr4. eapply Forall_impl; [|exact N3]. intros p. apply (mk_nw _ _ _ _ _ M4).
    + change (shape (set_state g4 GCSpropagate)) with (shape g4). rewrite (mk_shape _ _ _ _ M14).
      by apply (lists_same (rest g)); [apply (s_lists g Hs)|exact (f_equal gc_root R4)|apply Permutation_refl'; exact (f_equal all_objects R4)].
    + exists gs4, [], []. cbn [set_state uvhead]. rewrite Hu4. by apply J_set_state.
Qed.

(** ** Steps *)

(** What [lj_mem_newgco] is used for: all objects but open upvalues, userdata
    and strings; a thread has no open upvalues yet. *)
Definition fresh_body (b : GCbody) : Prop := is_open b = false /\ upvals_of b = [] /\ otype b <> LJ_TSTR /\ otype b <> LJ_TUDATA.

Inductive step (g : global_State) : global_State -> Prop :=
| st_propagate g' : gc_state g = GCSpropagate -> gc_gray g <> 0 -> propagatemark g = Ok g' -> step g g'
| st_end : gc_state g = GCSpropagate -> gc_gray g = 0 -> step g (set_state g GCSatomic)
| st_table o t' mt' new F g' :        (* a table is changed, and its barrier called *)
    table_store g o t' mt' new -> table_barrier (put_tab g o t' mt') o new F -> F = Ok g' -> step g g'
| st_object o x b' new F g' :         (* another object is changed, and its barrier called *)
    heap g !! o = Some x -> keeps_upvals (body x) b' ->
    object_store g o b' new -> object_barrier (upd g o (set_body b')) o new F -> F = Ok g' -> step g g'
| st_plain o x b' new :               (* an object that is not black, such as a stack, is changed *)
    heap g !! o = Some x -> isblack (marked x) = false -> keeps_upvals (body x) b' ->
    object_store g o b' new -> step g (upd g o (set_body b'))
| st_close o level g' :               (* upvalues are closed *)
    lj_func_closeuv g o level = Ok g' -> step g g'
| st_find o t slot a g' uv :          (* the upvalue of a slot is looked up or created *)
    th_at g o = Ok t -> (1 <= slot < th_top t)%nat -> heap g !! a = None -> a <> 0 ->
    func_finduv g o slot a = Ok (g', uv) -> step g g'
| st_new o b :                        (* an object is created *)
    heap g !! o = None -> o <> 0 -> fresh_body b -> body_ok (rest g) (shape g) (norm b) -> nomm_ok (rest g) b ->
    step g (lj_mem_newgco g o b)
| st_udata a env : heap g !! a = None -> a <> 0 -> typed (shape g) LJ_TTAB env -> step g (lj_udata_new g a env)
| st_str a s : heap g !! a = None -> a <> 0 -> step g (new_str g a s).

Lemma nw_heap_upd g o f p : (forall x, iswhite (marked x) = false -> iswhite (marked (f x)) = false) ->
  nw (heap g) p -> nw (heap (upd g o f)) p.
Proof.
  intros Hf (x & Hx & W). cbn [upd set_heap heap]. destruct (decide (p = o)) as [->|N].
  - exists (f x). rewrite lookup_alter_eq, Hx. split; [done|by apply Hf].
  - exists x. by rewrite lookup_alter_ne.
Qed.

Lemma nw_barrierback g o p : nw (heap g) p -> nw (heap (lj_gc_barrierback g o)) p.
Proof.
  intros H. unfold lj_gc_barrierback, push_grayagain. cbn [set_grayagain heap]. apply nw_heap_upd; [done|].
  apply nw_heap_upd; [|done]. intros x W. cbn. by autorewrite with color.
Qed.

Lemma shape_barrierback g o : shape (lj_gc_barrierback g o) = shape g.
Proof.
  apply map_eq. intros p. rewrite !shape_lookup. unfold lj_gc_barrierback, push_grayagain, recolor, upd. cbn.
  destruct (decide (p = o)) as [->|N]; [rewrite !lookup_alter_eq|by rewrite !lookup_alter_ne]. by destruct (heap g !! o).
Qed.

(** What a step leaves: the invariant needs it of the main thread and the
    registry. *)
Definition kept (g g' : global_State) : Prop :=
  (forall p, nw (heap g) p -> nw (heap g') p) /\ marking g' = true /\
  curwhite g' = curwhite g /\ mainthread g' = mainthread g /\ registrytv g' = registrytv g.

Lemma kept_rest g g' : marking g = true -> rest g' = rest g -> (forall p, nw (heap g) p -> nw (heap g') p) -> kept g g'.
Proof.
  intros Hm R N. split; [done|]. assert (gc_state g' = gc_state g) as Hs by exact (f_equal gc_state R).
  assert (currentwhite g' = currentwhite g) as Hw by exact (f_equal currentwhite R).
  split; [unfold marking; by rewrite Hs|]. split; [unfold curwhite; by rewrite Hw|].
  split; [exact (f_equal mainthread R)|exact (f_equal registrytv R)].
Qed.

Lemma Inv_kept g g' : Inv g -> kept g g' -> lists_ok (rest g') (shape g') -> (exists gs ga ws, J [] (uvhead g') g' gs ga ws) -> Inv g'.
Proof.
  intros [I1 I2 I3 I4 I5 I6] (N & K1 & K2 & K3 & K4) HL HJ. split; [done|unfold one_white; by rewrite K2|rewrite K3; auto| |done|done].
  rewrite K4. eapply Forall_impl; [exact N|done].
Qed.

Lemma table_barrier_kept g o t' mt' new F g' : marking g = true -> table_barrier (put_tab g o t' mt') o new F -> F = Ok g' ->
  kept g g' /\ uvhead g' = uvhead g /\ (g' = put_tab g o t' mt' \/ g' = lj_gc_barrierback (put_tab g o t' mt') o).
Proof.
  intros Hm HF E. set (g1 := put_tab g o t' mt') in *.
  assert (g' = g1 \/ g' = lj_gc_barrierback g1 o) as Hg.
  { destruct HF as [new|tv|v].
    - apply bind_Ok in E as (x & _ & [= <-]). destruct (isblack (marked x)); auto.
    - apply bind_Ok in E as (w & _ & E). apply bind_Ok in E as (x & _ & [= <-]). destruct (w && isblack (marked x)); auto.
    - apply bind_Ok in E as (y & _ & E). apply bind_Ok in E as (x & _ & [= <-]). destruct (iswhite (marked y) && isblack (marked x)); auto. }
  assert (forall p, nw (heap g) p -> nw (heap g1) p) as N1 by (intros p; by apply nw_heap_upd).
  split; [|split; [by destruct Hg as [->| ->]|done]]. destruct Hg as [->| ->]; apply kept_rest; try done. intros p Hp. by apply nw_barrierback, N1.
Qed.

Lemma norm_upvals b b' : keeps_upvals b b' -> keeps_upvals (norm b) (norm b').
Proof. intros (H1 & H2 & H3 & H4). destruct b as [|[]| | | | | | | |], b' as [|[]| | | | | | | |]; done. Qed.

Lemma object_lists g o x b' : Inv g -> heap g !! o = Some x -> keeps_upvals (body x) b' ->
  let g1 := upd g o (set_body b') in lists_ok (rest g1) (shape g1).
Proof.
  intros HI Hx Hk g1. unfold g1. rewrite (shape_upd_insert g o b' x Hx).
  apply (lists_replace (rest g) _ _ o (norm (body x))); try done; [apply HI|by rewrite shape_lookup, Hx|by apply norm_upvals].
Qed.

Lemma table_inv g o t' mt' new F g' : Inv g -> table_store g o t' mt' new -> table_barrier (put_tab g o t' mt') o new F -> F = Ok g' -> Inv g'.
Proof.
  intros HI Hs HF E. destruct (i_J g HI) as (gs & ga & ws & HJ).
  destruct (table_barrier_kept g o t' mt' new F g' (i_marking g HI) HF E) as (K & Hu & Hg).
  apply (Inv_kept g g' HI K).
  - destruct Hs as (x & t & mt & Hx & Hb & _).
    assert (lists_ok (rest (put_tab g o t' mt')) (shape (put_tab g o t' mt'))) as L by (apply (object_lists g o x); [done|done|by rewrite Hb]).
    destruct Hg as [->| ->]; [done|]. rewrite shape_barrierback. exact L.
  - rewrite Hu. destruct (table_barrier_ok g gs ga ws o t' mt' new F HJ Hs HF g' E) as (ga' & HJ'). by exists gs, ga', ws.
Qed.

Lemma object_inv g o x b' new F g' : Inv g -> heap g !! o = Some x -> keeps_upvals (body x) b' -> object_store g o b' new ->
  object_barrier (upd g o (set_body b')) o new F -> F = Ok g' -> Inv g'.
Proof.
  intros HI Hx Hk Hs HF E. destruct (i_J g HI) as (gs & ga & ws & HJ).
  destruct (object_barrier_ok g gs ga ws o b' new F (i_marking g HI) HJ Hs HF g' E) as (gs' & HJ' & M). apply (Inv_kept g g' HI).
  - apply kept_rest; [apply HI|apply M|]. intros p Hp. apply (mk_nw _ _ _ _ _ M). by apply nw_heap_upd.
  - rewrite (mk_shape _ _ _ _ M), (mk_rest _ _ _ _ M). by apply (object_lists g o x).
  - exists gs', ga, ws. by replace (uvhead g') with (uvhead g) by (symmetry; exact (f_equal uvhead (mk_rest _ _ _ _ M))).
Qed.

Lemma shape_new g g' a b : heap g' = <[a := mkObj (curwhite g) 0 b]> (heap g) -> shape g' = <[a := norm b]> (shape g).
Proof. intros Hh. unfold shape. by rewrite Hh, fmap_insert. Qed.

Lemma udata_same (g : global_State) a b : Forall (fun o => o ∈ gc_udata g \/ (o = a /\ otype b = LJ_TUDATA)) (gc_udata g).
Proof. apply Forall_forall. intros p Hp. left. by apply list_elem_of_In. Qed.

(** A new object that is linked to the lists [l] says. *)
Lemma new_inv g g' a b l : Inv g -> heap g !! a = None -> a <> 0 -> is_open b = false -> upvals_of b = [] ->
  body_ok (rest g) (shape g) (norm b) -> nomm_ok (rest g) b ->
  heap g' = <[a := mkObj (curwhite g) 0 b]> (heap g) -> set_lists (set_udata (rest g') [] []) [] [] = set_lists (set_udata (rest g) [] []) [] [] ->
  gc_gray g' = gc_gray g /\ gc_grayagain g' = gc_grayagain g /\ gc_weak g' = gc_weak g -> uvhead g' = uvhead g -> gc_mmudata g' = gc_mmudata g ->
  (is_thread b = true -> a ∈ gc_root g') -> (forall p, p ∈ gc_root g -> p ∈ gc_root g') ->
  Forall (fun o => o ∈ gc_udata g \/ (o = a /\ otype b = LJ_TUDATA)) (gc_udata g') ->
  l = [] \/ l = [a] -> all_objects g' ≡ₚ l ++ all_objects g -> Inv g'.
Proof.
  intros HI Ha Hne Hop Hu Hok Hnm Hh R Hgr Huv Hmm Hth Hroot Hud Hl Hall. destruct (i_J g HI) as (gs & ga & ws & HJ).
  pose proof (j_wf _ _ _ _ _ _ HJ) as W. pose proof (shape_new g g' a b Hh) as Hs.
  assert (shape g !! a = None) as Hsa by by rewrite shape_lookup, Ha.
  assert (is_open (norm b) = false /\ otype (norm b) = otype b /\ upvals_of (norm b) = [] /\ is_thread (norm b) = is_thread b) as (N1 & N2 & N3 & N4)
    by (by destruct b as [|[]| | | | | | | |]).
  assert (currentwhite g' = currentwhite g /\ gcroot g' = gcroot g /\ mainthread g' = mainthread g /\ registrytv g' = registrytv g /\
    strempty g' = strempty g /\ jit_cur g' = jit_cur g /\ jit_trace g' = jit_trace g /\ gc_state g' = gc_state g) as (E1 & E2 & E3 & E4 & E5 & E6 & E7 & E8).
  { split_and!; [exact (f_equal currentwhite R)|exact (f_equal gcroot R)|exact (f_equal mainthread R)|exact (f_equal registrytv R)|
      exact (f_equal strempty R)|exact (f_equal jit_cur R)|exact (f_equal jit_trace R)|exact (f_equal gc_state R)]. }
  assert (wf (rest g') (shape g')) as W'.
  { rewrite Hs. apply (wf_new (rest g)); try done; [by rewrite N1|]. by rewrite N2. }
  assert (forall p, nw (heap g) p -> nw (heap g') p) as Hnw.
  { intros p (x & Hx & Wx). exists x. split; [|done]. rewrite Hh, lookup_insert_ne; [done|]. intros ->. congruence. }
  destruct HI as [I1 I2 I3 I4 I5 _]. split.
  - unfold marking. by rewrite E8.
  - unfold one_white, curwhite. by rewrite E1.
  - rewrite E3. by apply Hnw.
  - rewrite E4. eapply Forall_impl; [exact Hnw|done].
  - rewrite Hs. apply (lists_new (rest g) (rest g') _ a _ l); try done; [by rewrite N4|]. destruct Hl as [->| ->]; [by left|by right].
  - exists gs, ga, ws. apply (new_object_ok g g' gs ga ws a b); try done.
    + destruct b; try done. intros mm name Hmn. change (gcroot (rest g')) with (gcroot g'). rewrite E2. by apply Hnm.
    + intros p. by rewrite Huv.
Qed.

(** Closing upvalues. *)
Lemma close_inv g o level g' : Inv g -> lj_func_closeuv g o level = Ok g' -> Inv g'.
Proof.
  intros HI E. destruct (i_J g HI) as (gs & ga & ws & HJ). pose proof E as E0. unfold lj_func_closeuv in E0.
  apply bind_Ok in E0 as (t & Ht & _). destruct (th_at_inv g o t Ht) as (x & Hx & Hb).
  assert (shape g !! o = Some (norm (BThread t))) as Ho by (rewrite shape_lookup, Hx; cbn; by rewrite Hb).
  destruct (lk_upvals _ _ (i_lists g HI) o _ Ho) as (Hnd & Huv). cbn [upvals_of norm th_openupval set_stack] in Hnd, Huv.
  destruct (closeuv_level_ok g gs ga ws o level t (i_marking g HI) HJ Ht Hnd) as (cl & rs & g1 & gs1 & t1 & Hl & _ & C & Ht1 & E' & J').
  { apply Forall_forall. intros uv Hin. apply list_elem_of_In in Hin. destruct (Huv uv Hin) as (tv & slot & H). by exists tv, o, slot. }
  assert (put_th g1 o (set_openupval t1 rs) = g') as <- by congruence. set (g' := put_th g1 o (set_openupval t1 rs)) in *.
  assert (forall {A} (f : global_State -> A), f (set_lists (rest g1) [] []) = f (set_lists (rest g) [] [])) as Hf by (intros A f; by rewrite (ca_rest _ _ _ C)).
  destruct (th_at_inv g1 o t1 Ht1) as (x1 & Hx1 & Hb1). pose proof (shape_upd_insert g1 o (BThread (set_openupval t1 rs)) x1 Hx1) as Hs'.
  change (upd g1 o (set_body (BThread (set_openupval t1 rs)))) with g' in Hs'.
  assert (forall p, p ∈ cl -> p <> o) as Hco.
  { intros p Hp ->. destruct (Huv o) as (tv & slot & H); [rewrite Hl; apply elem_of_app; by left|]. by rewrite Ho in H. }
  apply (Inv_kept g g' HI).
  - split; [intros p Hp; apply nw_heap_upd; [done|]; by apply (ca_nw _ _ _ C)|].
    assert (gc_state g' = gc_state g) as Es by exact (Hf _ gc_state). assert (currentwhite g' = currentwhite g) as Ec by exact (Hf _ currentwhite).
    split; [unfold marking; rewrite Es; apply (i_marking g HI)|]. unfold curwhite. rewrite Ec.
    split; [done|]. split; [exact (Hf _ mainthread)|exact (Hf _ registrytv)].
  - apply (lists_close (rest g) (rest g') (shape g) (shape g') o (set_stack t (take (th_top t) (th_stack t))) cl rs); try done.
    + apply HI.
    + apply (ca_root _ _ _ C).
    + exact (Hf _ gc_udata).
    + exact (Hf _ gc_mmudata).
    + intros p Hp N. rewrite Hs', lookup_insert_ne by done. by apply (ca_shape _ _ _ C).
    + rewrite Hs', lookup_insert_eq. assert (shape g1 !! o = shape g !! o) as Es.
      { apply (ca_shape _ _ _ C). intros H. by apply Hco in H. }
      rewrite Ho, shape_lookup, Hx1 in Es. cbn in Es. rewrite Hb1 in Es. injection Es as E1 E2 E3 E4 E5. cbn.
      unfold set_stack, set_openupval. cbn. by rewrite E1, E2, E3, E5.
    + intros p Hp. destruct (ca_closed _ _ _ C p Hp) as (tv & th & slot & _ & H). eexists _, th, slot.
      rewrite Hs', lookup_insert_ne by (intros <-; by apply (Hco o Hp)). exact H.
  - exists gs1, ga, ws. exact J'.
Qed.

(** Looking up an upvalue. *)
Lemma finduv_pre_post g slot uvs pre post : finduv_loop g slot uvs = Ok (None, pre, post) -> uvs = pre ++ post.
Proof.
  revert pre post. induction uvs as [|u uvs IH]; intros pre post E; [by injection E as <- <-|]. cbn [finduv_loop] in E.
  destruct (open_slot g u) as [s|]; [|done]. cbn [mbind res_bind] in E. destruct (slot <=? s)%nat; [|by injection E as <- <-].
  destruct (s =? slot)%nat; [done|]. destruct (finduv_loop g slot uvs) as [[[r pre'] post']|]; [|done]. injection E as -> <- <-.
  cbn [app]. f_equal. by apply IH.
Qed.

Lemma find_inv g o t slot a g' uv : Inv g -> th_at g o = Ok t -> (1 <= slot < th_top t)%nat -> heap g !! a = None -> a <> 0 ->
  func_finduv g o slot a = Ok (g', uv) -> Inv g'.
Proof.
  intros HI Ht Hslot Ha Hne E. destruct (i_J g HI) as (gs & ga & ws & HJ).
  destruct (finduv_ok g gs ga ws o slot a g' uv t HJ (i_white g HI) Ha Hne Ht Hslot E) as [(-> & _)|(-> & pre & post & El & -> & HJ')]; [done|].
  destruct (th_at_inv g o t Ht) as (x & Hx & Hb). set (g1 := new_open g o slot a) in *.
  assert (shape g !! o = Some (norm (BThread t))) as Ho by (rewrite shape_lookup, Hx; cbn; by rewrite Hb).
  assert (shape g1 = <[a := BUpval false Tnil o slot]> (shape g)) as Hs1 by exact (shape_new g g1 a (BUpval false Tnil o slot) eq_refl).
  assert (a <> o) as Hao by congruence.
  assert (heap g1 !! o = Some x) as Hx1 by by (cbn; rewrite lookup_insert_ne).
  set (g' := put_th g1 o (set_openupval t (pre ++ a :: post))) in *.
  pose proof (shape_upd_insert g1 o (BThread (set_openupval t (pre ++ a :: post))) x Hx1) as Hs'.
  change (upd g1 o (set_body (BThread (set_openupval t (pre ++ a :: post))))) with g' in Hs'.
  assert (lists_ok (rest g1) (shape g1)) as L1.
  { rewrite Hs1. apply (lists_new (rest g) (rest g1) _ a _ []); try done; [apply HI|by rewrite shape_lookup, Ha|by left]. }
  apply (Inv_kept g g' HI).
  - split; [|split; [apply (i_marking g HI)|done]]. intros p (y & Hy & W). apply nw_heap_upd; [done|]. exists y. split; [|done].
    cbn. rewrite lookup_insert_ne; [done|]. intros ->. congruence.
  - rewrite Hs'. apply (lists_link (rest g') (shape g1) o (set_stack t (take (th_top t) (th_stack t))) Tnil slot a pre post); try done.
    + rewrite Hs1, lookup_insert_ne by done. exact Ho.
    + by apply (finduv_pre_post g slot).
    + by rewrite Hs1, lookup_insert_eq.
    + rewrite <- (finduv_pre_post g slot _ _ _ El). intros Hin. destruct (lk_upvals _ _ (i_lists g HI) o _ Ho) as (_ & H).
      destruct (H a Hin) as (tv & s & H'). by rewrite shape_lookup, Ha in H'.
  - exists gs, ga, ws. change (uvhead g') with (uvhead g1). done.
Qed.

(** Every step keeps the invariant. *)
Lemma step_inv g g' : Inv g -> step g g' -> Inv g'.
Proof.
  intros HI Hst. pose proof (i_marking g HI) as Hm. destruct (i_J g HI) as (gs & ga & ws & HJ).
  destruct Hst as [g' _ Hg E|_ _|o t' mt' new F g' Hs HF E|o x b' new F g' Hx Hk Hs HF E|o x b' new Hx Hb Hk Hs|o level g' E|o t slot a g' uv Ht Hsl Ha Hne E|
    o b Ho Hne (Hop & Hu & _ & Hud) Hok Hnm|a env Ha Hne Henv|a s Ha Hne].
  - destruct gs as [|o gs]; [by pose proof (j_gray _ _ _ _ _ _ HJ)|]. pose proof (j_wf _ _ _ _ _ _ HJ) as Wf.
    destruct (propagatemark_ok (rest g) (shape g) Wf (uvhead g) g o gs ga ws eq_refl eq_refl HJ) as (g1 & gs1 & da & dw & E1 & J1 & M1 & _).
    assert (g1 = g') as -> by congruence. apply (Inv_kept g g' HI).
    + apply kept_rest; [done|apply M1|]. intros p. apply (pm_nw _ _ _ _ _ _ M1).
    + rewrite (pm_shape _ _ _ _ _ M1), (pm_rest _ _ _ _ _ M1). apply HI.
    + exists gs1, (da ++ ga), (dw ++ ws). by replace (uvhead g') with (uvhead g) by (symmetry; exact (f_equal uvhead (pm_rest _ _ _ _ _ M1))).
  - apply (Inv_kept g _ HI); [by split| |]; [by apply (lists_same (rest g)); [apply HI|..]|]. exists gs, ga, ws. by apply J_set_state.
  - by apply (table_inv g o t' mt' new F g').
  - by apply (object_inv g o x b' new F g').
  - apply (Inv_kept g _ HI).
    + apply kept_rest; [done|done|]. intros p Hp. by apply nw_heap_upd.
    + by apply (object_lists g o x b').
    + exists gs, ga, ws. by apply (plain_store_ok g gs ga ws o x b' new).
  - by apply (close_inv g o level).
  - by apply (find_inv g o t slot a g' uv).
  - apply (new_inv g _ o b [o]); try done.
    + intros _. by left.
    + intros p. by right.
    + exact (udata_same g o b).
    + by right.
  - apply (new_inv g _ a (BUdata 0 env) [a]); try done.
    + split; [by left|done].
    + constructor; [by right|exact (udata_same g a (BUdata 0 env))].
    + by right.
    + symmetry. exact (Permutation_middle (gc_root g) (gc_udata g ++ gc_mmudata g) a).
  - apply (new_inv g _ a (BStr s) []); try done; [exact (udata_same g a (BStr s))|by left].
Qed.

Lemma steps_inv g g' : Inv g -> rtc step g g' -> Inv g'.
Proof. intros HI Hst. induction Hst as [|g g1 g2 H _ IH]; [done|]. apply IH. by apply step_inv with g. Qed.

Lemma propagatemark_state g g' : Inv g -> gc_gray g <> 0 -> propagatemark g = Ok g' -> gc_state g' = gc_state g.
Proof.
  intros HI Hg E. destruct (i_J g HI) as (gs & ga & ws & HJ). destruct gs as [|o gs]; [by pose proof (j_gray _ _ _ _ _ _ HJ)|].
  destruct (propagatemark_ok (rest g) (shape g) (j_wf _ _ _ _ _ _ HJ) (uvhead g) g o gs ga ws eq_refl eq_refl HJ) as (g1 & gs1 & da & dw & E1 & _ & M & _).
  assert (g1 = g') as -> by congruence. exact (f_equal gc_state (pm_rest _ _ _ _ _ M)).
Qed.

End Cycle.
