(* ===== verification/GcUpv.v ===== *)
(** * The garbage collector: open upvalues

    The list of open upvalues of a thread is sorted by slot, the topmost first,
    with one upvalue for a slot; so closures that capture the same local share
    its upvalue, and leaving a block closes the upvalues of its slots. *)

From Stdlib Require Import Sorting.Sorted.
From S2P Require Import Prelude Machine Num Tab TabKey TabHash TabInv Buf Gc GcFunc GcInv GcMark GcTrav GcProp GcAtomic GcWeak GcSafe GcMut GcFuncInv GcLists GcCycle.

(** The slots of open upvalues. *)
Definition has_slots (g : global_State) (uvs : list Z) (ss : list nat) : Prop := Forall2 (fun uv s => open_slot g uv = Ok s) uvs ss.
Definition descending (ss : list nat) : Prop := StronglySorted (fun s s' => (s' < s)%nat) ss.
Definition upvals_sorted (g : global_State) (t : lua_State) : Prop := exists ss, has_slots g (th_openupval t) ss /\ descending ss.

Lemma descending_insert slot sp sq : descending (sp ++ sq) -> Forall (fun s => (slot < s)%nat) sp -> Forall (fun s => (s < slot)%nat) sq ->
  descending (sp ++ slot :: sq).
Proof.
  unfold descending. induction sp as [|s sp IH]; cbn [app]; intros Hs Hp Hq; [by constructor|].
  inversion Hs as [|? ? Hs' HF]; subst. inversion Hp as [|? ? Hlt Hp']; subst. constructor; [by apply IH|].
  apply Forall_app in HF as (HF1 & HF2). apply Forall_app. split; [done|]. by constructor.
Qed.

Lemma descending_r sp sq : descending (sp ++ sq) -> descending sq.
Proof. unfold descending. induction sp as [|s sp IH]; [done|]. cbn. inversion 1; subst. by apply IH. Qed.

Lemma descending_head s ss level : descending (s :: ss) -> (s < level)%nat -> Forall (fun s => (s < level)%nat) (s :: ss).
Proof.
  intros Hd Hs. inversion Hd as [|? ? _ HF]; subst. constructor; [done|]. eapply Forall_impl; [|exact HF]. cbn. lia.
Qed.

(** ** [func_finduv] *)

Lemma finduv_loop_spec g slot uvs ss : has_slots g uvs ss -> descending ss ->
  exists r pre post sp sq, finduv_loop g slot uvs = Ok (r, pre, post) /\ uvs = pre ++ post /\ ss = sp ++ sq /\
    has_slots g pre sp /\ has_slots g post sq /\ Forall (fun s => (slot < s)%nat) sp /\
    match r with
    | Some p => exists post' sq', post = p :: post' /\ sq = slot :: sq'
    | None => Forall (fun s => (s < slot)%nat) sq
    end.
Proof.
  induction 1 as [|uv s uvs ss Hs HF IH]; intros Hd; [exists None, [], [], [], []; split_and!; try done; constructor|].
  inversion Hd as [|? ? Hd' Hlt]; subst. cbn [finduv_loop]. rewrite Hs. cbn [mbind res_bind].
  destruct (Nat.leb_spec slot s) as [L|L].
  - destruct (Nat.eqb_spec s slot) as [->|N].
    + exists (Some uv), [], (uv :: uvs), [], (slot :: ss). split_and!; try done; try constructor; try done. by exists uvs, ss.
    + destruct (IH Hd') as (r & pre & post & sp & sq & E & -> & -> & H1 & H2 & H3 & H4). rewrite E. cbn [mbind res_bind].
      exists r, (uv :: pre), post, (s :: sp), sq. split_and!; try done; (constructor; [done || lia|done]).
  - exists None, [], (uv :: uvs), [], (s :: ss). split_and!; try done; try constructor; try done.
    eapply Forall_impl; [|exact Hlt]. cbn. lia.
Qed.

Lemma slot_free g slot pre post sp sq p : has_slots g pre sp -> has_slots g post sq -> Forall (fun s => (slot < s)%nat) sp ->
  Forall (fun s => (s < slot)%nat) sq -> p ∈ pre ++ post -> open_slot g p <> Ok slot.
Proof.
  intros H1 H2 H3 H4 Hp Es. assert (has_slots g (pre ++ post) (sp ++ sq)) as H12 by by apply Forall2_app.
  apply list_elem_of_lookup in Hp as (i & Hi). destruct (Forall2_lookup_l _ _ _ _ _ H12 Hi) as (s & Hsl & Es').
  assert (s = slot) as -> by congruence. apply list_elem_of_lookup_2, elem_of_app in Hsl. rewrite Forall_forall in H3, H4.
  destruct Hsl as [Hsl|Hsl]; apply list_elem_of_In in Hsl; [specialize (H3 _ Hsl)|specialize (H4 _ Hsl)]; lia.
Qed.

(** The lookup of an upvalue that is there and not dead changes nothing. *)
Lemma finduv_again g o t slot b uv x ss : th_at g o = Ok t -> has_slots g (th_openupval t) ss -> descending ss ->
  uv ∈ th_openupval t -> open_slot g uv = Ok slot -> heap g !! uv = Some x -> isdead g (marked x) = false -> func_finduv g o slot b = Ok (g, uv).
Proof.
  intros Ht Hs Hd Hin Huv Hx D. unfold func_finduv. rewrite Ht. cbn [mbind res_bind].
  destruct (finduv_loop_spec g slot _ _ Hs Hd) as (r & pre & post & sp & sq & E & Hl & -> & H1 & H2 & H3 & H4). rewrite E. cbn [mbind res_bind].
  assert (exists i, (pre ++ post) !! i = Some uv) as (i & Hi) by (rewrite <- Hl; by apply list_elem_of_lookup).
  assert (has_slots g (pre ++ post) (sp ++ sq)) as H12 by by apply Forall2_app.
  destruct (Forall2_lookup_l _ _ _ _ _ H12 Hi) as (s & Hsl & Es). assert (s = slot) as -> by congruence.
  destruct r as [p|].
  - destruct H4 as (post' & sq' & -> & ->). assert (p = uv) as ->.
    { assert (i = length sp) as ->.
      { destruct (Nat.lt_trichotomy i (length sp)) as [L|[L|L]]; [|done|].
        - rewrite lookup_app_l in Hsl by done. rewrite Forall_lookup in H3. specialize (H3 i slot Hsl). lia.
        - rewrite lookup_app_r in Hsl by lia. apply descending_r in Hd. inversion Hd as [|? ? _ HF]; subst.
          destruct (i - length sp)%nat as [|k] eqn:Ek; [lia|]. cbn in Hsl. rewrite Forall_lookup in HF. specialize (HF k slot Hsl). cbn in HF. lia. }
      rewrite <- (Forall2_length H1) in Hi. rewrite lookup_app_r, Nat.sub_diag in Hi by lia. by injection Hi. }
    rewrite (obj_at_ok _ _ _ Hx). cbn [mbind res_bind]. by rewrite D.
  - exfalso. by apply (slot_free g slot pre post sp sq uv H1 H2 H3 H4); rewrite <- ?Hl.
Qed.

Lemma isdead_flipwhite g m : one_white g -> isdead g m = true -> isdead g (flipwhite m) = false.
Proof.
  intros Hw. rewrite !isdead_bits. unfold flipwhite. rewrite !Z.lxor_spec. change (Z.testbit LJ_GC_WHITES 0) with true. change (Z.testbit LJ_GC_WHITES 1) with true.
  rewrite (one_white_bits g Hw).
  by destruct (Z.testbit m 0), (Z.testbit m 1), (Z.testbit (currentwhite g) 0).
Qed.

Lemma slots_same g g' uvs ss : (forall uv x, uv ∈ uvs -> heap g !! uv = Some x -> exists x', heap g' !! uv = Some x' /\ body x' = body x) ->
  has_slots g uvs ss -> has_slots g' uvs ss.
Proof.
  intros H HF. unfold has_slots in *. induction HF as [|uv s uvs ss Hs HF IH]; [constructor|]. constructor.
  - destruct (open_slot_inv g uv s Hs) as (x & tv & th & Hx & Hb). destruct (H uv x ltac:(left) Hx) as (x' & Hx' & Hb').
    unfold open_slot. rewrite (obj_at_ok _ _ _ Hx'). cbn. by rewrite Hb', Hb.
  - apply IH. intros u x Hu. apply H. by right.
Qed.

(** ** Leaving a block *)

Section Upv.
Context `{TE : TabEnv}.

Lemma th_at_put g o t x : heap g !! o = Some x -> th_at (put_th g o t) o = Ok t.
Proof. intros Hx. unfold th_at, obj_at, put_th. rewrite heap_upd with (x := x) by done. by rewrite lookup_insert_eq. Qed.

(** What the lookup of the upvalue [uv] of a slot leaves. *)
Definition shares (g : global_State) (o : Z) (t : lua_State) (slot : nat) (a : Z) (g' : global_State) (uv : Z) : Prop :=
  exists t' x, th_at g' o = Ok t' /\ upvals_sorted g' t' /\
    uv ∈ th_openupval t' /\ open_slot g' uv = Ok slot /\ heap g' !! uv = Some x /\ isdead g' (marked x) = false /\
    (uv ∈ th_openupval t /\ t' = t \/ uv = a /\ (forall p, p ∈ th_openupval t -> open_slot g p <> Ok slot)) /\
    (forall p, p <> o -> p <> uv -> heap g' !! p = heap g !! p) /\
    forall b, func_finduv g' o slot b = Ok (g', uv).

Lemma finduv_found g o t x slot a p y ss : one_white g -> heap g !! o = Some x -> body x = BThread t ->
  has_slots g (th_openupval t) ss -> descending ss -> p ∈ th_openupval t -> open_slot g p = Ok slot -> heap g !! p = Some y ->
  shares g o t slot a (if isdead g (marked y) then recolor g p flipwhite else g) p.
Proof.
  intros Hw Hx Hb Hs Hd Hin Hp Hy. destruct (open_slot_inv g p slot Hp) as (y0 & tv & th & Hy0 & Hby). assert (y0 = y) as -> by congruence.
  set (g' := if isdead g (marked y) then recolor g p flipwhite else g).
  set (y' := if isdead g (marked y) then set_marked flipwhite y else y).
  assert (heap g' = <[p := y']> (heap g) /\ currentwhite g' = currentwhite g) as (Hh & Hc).
  { unfold g', y'. destruct (isdead g (marked y)); (split; [|done]); [by apply heap_upd|by rewrite insert_id]. }
  assert (heap g' !! p = Some y' /\ body y' = body y /\ isdead g' (marked y') = false) as (Hy' & Hby' & D).
  { split; [by rewrite Hh, lookup_insert_eq|]. split; [unfold y'; by destruct (isdead g (marked y))|].
    rewrite isdead_bits, Hc, <- isdead_bits. unfold y'. destruct (isdead g (marked y)) eqn:D; [by apply isdead_flipwhite|done]. }
  assert (p <> o) as Hne by (intros ->; congruence).
  assert (th_at g' o = Ok t) as Ht'. { unfold th_at, obj_at. rewrite Hh, lookup_insert_ne, Hx by done. cbn. by rewrite Hb. }
  assert (has_slots g' (th_openupval t) ss) as Hs'.
  { apply (slots_same g); [|done]. intros u z _ Hz. destruct (decide (u = p)) as [->|N].
    - exists y'. split; [done|]. congruence.
    - exists z. by rewrite Hh, lookup_insert_ne. }
  assert (open_slot g' p = Ok slot) as Hp'. { unfold open_slot. rewrite (obj_at_ok _ _ _ Hy'). cbn. by rewrite Hby', Hby. }
  exists t, y'. split_and!; try done; [by exists ss|by left| |].
  - intros q _ N. by rewrite Hh, lookup_insert_ne.
  - intros b. by apply finduv_again with t y' ss.
Qed.

Lemma finduv_new g o t x slot a pre post sp sq : heap g !! o = Some x -> body x = BThread t -> heap g !! a = None ->
  th_openupval t = pre ++ post -> has_slots g pre sp -> has_slots g post sq -> descending (sp ++ sq) ->
  Forall (fun s => (slot < s)%nat) sp -> Forall (fun s => (s < slot)%nat) sq ->
  shares g o t slot a (put_th (new_open g o slot a) o (set_openupval t (pre ++ a :: post))) a.
Proof.
  intros Hx Hb Ha Hl H1 H2 Hd H3 H4. set (t' := set_openupval t (pre ++ a :: post)). set (b0 := BUpval false Tnil o slot).
  set (g' := put_th (new_open g o slot a) o t'). assert (a <> o) as Hao by congruence.
  assert (heap g' = <[o := set_body (BThread t') x]> (<[a := mkObj (curwhite g) 0 b0]> (heap g))) as Hh.
  { apply heap_upd. cbn. by rewrite lookup_insert_ne. }
  assert (heap g' !! a = Some (mkObj (curwhite g) 0 b0)) as Hya by (by rewrite Hh, lookup_insert_ne, lookup_insert_eq by done).
  assert (th_at g' o = Ok t') as Ht' by (unfold th_at, obj_at; by rewrite Hh, lookup_insert_eq).
  assert (forall uvs l, has_slots g uvs l -> has_slots g' uvs l) as Hsame.
  { intros uvs l HF. apply (slots_same g); [|done]. intros u z Hu Hz. exists z. split; [|done].
    destruct (decide (u = o)) as [->|N]; [|rewrite Hh, !lookup_insert_ne; [done|congruence|done]].
    exfalso. apply list_elem_of_lookup in Hu as (i & Hi). destruct (Forall2_lookup_l _ _ _ _ _ HF Hi) as (s & _ & Es).
    destruct (open_slot_inv g o s Es) as (y & tv & th & Hy & Hby). congruence. }
  assert (open_slot g' a = Ok slot) as Hp' by (unfold open_slot; by rewrite (obj_at_ok _ _ _ Hya)).
  assert (has_slots g' (th_openupval t') (sp ++ slot :: sq)) as Hs'.
  { apply Forall2_app; [by apply Hsame|]. constructor; [done|by apply Hsame]. }
  assert (descending (sp ++ slot :: sq)) as Hd' by by apply descending_insert.
  assert (a ∈ th_openupval t') as Hin by (apply elem_of_app; right; by left).
  assert (isdead g' (curwhite g) = false) as D by apply (isdead_curwhite g).
  eexists t', _. split_and!; try done; [by exists (sp ++ slot :: sq)| | |].
  - right. split; [done|]. intros p Hp. rewrite Hl in Hp. by apply (slot_free g slot pre post sp sq).
  - intros p N1 N2. by rewrite Hh, !lookup_insert_ne.
  - intros b. by eapply finduv_again.
Qed.

Lemma slot_of_open g uv s : open_slot g uv = Ok s -> slot_of (shape g) uv = s.
Proof.
  intros Es. destruct (open_slot_inv g uv s Es) as (x & tv & th & Hx & Hb). unfold slot_of. rewrite shape_lookup, Hx. cbn. by rewrite Hb.
Qed.

Lemma open_slot_shape g g' uv s : shape g' !! uv = shape g !! uv -> open_slot g uv = Ok s -> open_slot g' uv = Ok s.
Proof.
  intros Hs Es. destruct (open_slot_inv g uv s Es) as (x & tv & th & Hx & Hb). rewrite !shape_lookup, Hx in Hs.
  destruct (heap g' !! uv) as [x'|] eqn:Hx'; [|done]. cbn in Hs. rewrite Hb in Hs. injection Hs as Hs.
  unfold open_slot. rewrite (obj_at_ok _ _ _ Hx'). cbn. by destruct (body x') as [|[]| | | | | | | |]; try discriminate Hs; injection Hs as _ _ ->.
Qed.

Lemma slots_shape g g' uvs ss : (forall uv, uv ∈ uvs -> shape g' !! uv = shape g !! uv) -> has_slots g uvs ss -> has_slots g' uvs ss.
Proof.
  intros H HF. induction HF as [|u s us xs Es _ IH]; constructor; [apply (open_slot_shape g); [apply H; by left|done]|].
  apply IH. intros p Hp. apply H. by right.
Qed.

(** The split of the list at the level. *)
Lemma filter_split (P : Z -> Prop) `{!forall z, Decision (P z)} cl rs :
  Forall (fun uv => ~ P uv) cl -> Forall P rs -> filter P (cl ++ rs) = rs.
Proof.
  intros Hc Hr. induction Hc as [|uv cl N _ IH]; cbn [app]; [|by rewrite filter_cons_False].
  induction Hr as [|uv rs Y _ IH]; [done|]. by rewrite filter_cons_True, IH.
Qed.

Lemma level_filter g level cl rs ss : has_slots g (cl ++ rs) ss -> descending ss -> level_split (shape g) level cl rs ->
  Forall (fun uv => (slot_of (shape g) uv < level)%nat) rs /\ exists ss', has_slots g rs ss' /\ descending ss'.
Proof.
  intros HF Hd (_ & Hrs). apply Forall2_app_inv_l in HF as (sc & sr & Hc & Hr & ->). apply descending_r in Hd.
  split; [|by exists sr]. inversion Hr as [|uv s rs' ss' Es Hr']; subst; [constructor|]. rewrite (slot_of_open g uv s Es) in Hrs.
  pose proof (descending_head s ss' level Hd Hrs) as HF. clear -Hr HF. induction Hr as [|u x us xs Ex _ IH]; [constructor|].
  inversion HF; subst. constructor; [by rewrite (slot_of_open g u x Ex)|by apply IH].
Qed.

End Upv.
