(* ===== verification/GcSweep.v ===== *)
(** * The garbage collector: the sweep

    [gc_sweep] walks a list of objects: what is not dead gets the current
    white again, the rest is freed by the function for its type.  The objects
    before the sweep position are those of [gc_root], where closing an upvalue
    adds to the front, the objects behind it are an argument. *)

From S2P Require Import Prelude Machine Num Tab TabKey TabHash TabInv Buf Gc GcFunc GcInv GcMark.

Definition LJ_GC_CDATA_FIN : Z := 0x10.

Definition set_jit_trace (g : global_State) x := mkG (heap g) (gc_state g) (currentwhite g) (gc_gray g) (gc_grayagain g) (gc_weak g) (gc_mmudata g)
  (gc_root g) (gc_udata g) (mainthread g) (registrytv g) (gcroot g) (uvhead g) (strempty g) (tmpbuf g) x (jit_cur g) (jit_base g) (cur_L g).
Definition set_cur_L (g : global_State) x := mkG (heap g) (gc_state g) (currentwhite g) (gc_gray g) (gc_grayagain g) (gc_weak g) (gc_mmudata g)
  (gc_root g) (gc_udata g) (mainthread g) (registrytv g) (gcroot g) (uvhead g) (strempty g) (tmpbuf g) (jit_trace g) (jit_cur g) (jit_base g) x.

(** ** Freeing ([lj_state.c], [lj_trace.c], [lj_cdata.c]) *)

Definition lj_state_free (g : global_State) (o : Z) : gres global_State :=
  let g := if o =? cur_L g then set_cur_L g 0 else g in
  g ← lj_func_closeuv g o 0;
  Ok (delete_obj g o).

Definition lj_trace_free (g : global_State) (o : Z) (T : GCtrace) : global_State :=
  delete_obj (if negb (traceno T =? 0) then set_jit_trace g (delete (traceno T) (jit_trace g)) else g) o.

(** A cdata with a finalizer goes to the list of objects to be finalized. *)
Definition lj_cdata_free (g : global_State) (o m : Z) : global_State :=
  if has m LJ_GC_CDATA_FIN then
    let g := recolor (recolor g o (makewhite g)) o markfinalized in
    set_udata g (gc_udata g) (gc_mmudata g ++ [o])
  else delete_obj g o.

(** [gc_freefunc] *)
Definition gc_free (g : global_State) (o : Z) (x : GCobj) : gres global_State :=
  match body x with
  | BUpval closed _ _ _ => Ok (lj_func_freeuv g o closed)
  | BThread _ => lj_state_free g o
  | BTrace T => Ok (lj_trace_free g o T)
  | BCdata => Ok (lj_cdata_free g o (marked x))
  | _ => Ok (delete_obj g o)
  end.

(** ** Sweeping *)

(** Black or current white? *)
Definition sweep_keeps (g : global_State) (m : Z) : bool := has (m .^ LJ_GC_WHITES) (otherwhite g).

(** The full sweep of the open upvalues of a thread, with those that stay. *)
Fixpoint sweep_openupval (g : global_State) (uvs : list Z) : gres (global_State * list Z) :=
  match uvs with
  | [] => Ok (g, [])
  | uv :: uvs =>
      x ← obj_at g uv;
      if sweep_keeps g (marked x) then
        '(g, l) ← sweep_openupval (recolor g uv (makewhite g)) uvs; Ok (g, uv :: l)
      else g ← gc_free g uv x; sweep_openupval g uvs
  end.

(** Sweep the open upvalues of a thread, too. *)
Definition sweep_thread (g : global_State) (o : Z) (x : GCobj) : gres (global_State * GCobj) :=
  match body x with
  | BThread th =>
      '(g, uvs) ← sweep_openupval g (th_openupval th);
      let th := set_openupval th uvs in
      Ok (put_th g o th, set_body (BThread th) x)
  | _ => Ok (g, x)
  end.

Fixpoint gc_sweep (fuel : nat) (g : global_State) (l : list Z) (lim : Z) : gres (global_State * list Z) :=
  match fuel with
  | O => Err GC_FUEL
  | S f =>
      match l with
      | [] => Ok (g, [])
      | o :: l' =>
          if 0 <? lim then
            x ← obj_at g o;
            '(g, x) ← sweep_thread g o x;
            if sweep_keeps g (marked x) then
              gc_sweep f (set_lists (recolor g o (makewhite g)) (gc_root g ++ [o]) (uvhead g)) l' (lim - 1)
            else
              h ← gc_free g o x;
              match gc_root g with
              | [] => gc_sweep f (set_lists h [] (uvhead h)) (gc_root h ++ l') (lim - 1)    (* at the anchor *)
              | _ => gc_sweep f h l' (lim - 1)
              end
          else Ok (g, l)
      end
  end.

(** The sweep of all objects; the main thread stays, with the userdata behind it. *)
Fixpoint split_main (main : Z) (l : list Z) : list Z * list Z :=
  match l with
  | [] => ([], [])
  | o :: l => if o =? main then ([o], l) else let (a, b) := split_main main l in (o :: a, b)
  end.

Definition gc_fullsweep (g : global_State) : gres global_State :=
  '(g', _) ← gc_sweep (2 * size (heap g) + 1) (set_lists g [] (uvhead g)) (gc_root g ++ gc_udata g) 0xffffffff;
  let (a, b) := split_main (mainthread g) (gc_root g') in
  Ok (set_udata (set_lists g' a (uvhead g')) b (gc_mmudata g')).

(** ** What a sweep does *)

Section Sweep.

(** The object has just the current white as its color. *)
Definition fresh (w : Z) (x : GCobj) : Prop := marked x .& LJ_GC_COLORS = w.

Lemma makewhite_color g m : makewhite g m .& LJ_GC_COLORS = curwhite g.
Proof.
  unfold makewhite, curwhite. apply Z.bits_inj'. intros n Hn. tbits.
  assert (Z.testbit LJ_GC_WHITES n = true -> Z.testbit LJ_GC_COLORS n = true) as H.
  { change LJ_GC_COLORS with (LJ_GC_WHITES .| LJ_GC_BLACK). rewrite Z.lor_spec. by intros ->. }
  destruct (Z.testbit LJ_GC_WHITES n), (Z.testbit LJ_GC_COLORS n), (Z.testbit m n), (Z.testbit (currentwhite g) n); try done;
    by specialize (H eq_refl).
Qed.

Lemma finalized_color m : markfinalized m .& LJ_GC_COLORS = m .& LJ_GC_COLORS.
Proof.
  unfold markfinalized. apply Z.bits_inj'. intros n Hn. tbits.
  assert (Z.testbit LJ_GC_FINALIZED n && Z.testbit LJ_GC_COLORS n = false) as H.
  { rewrite <- Z.land_spec. apply Z.bits_0. }
  by destruct (Z.testbit LJ_GC_FINALIZED n), (Z.testbit LJ_GC_COLORS n), (Z.testbit m n).
Qed.

Lemma color_bits m w n : m .& LJ_GC_COLORS = w -> 0 <= n < 3 -> Z.testbit m n = Z.testbit w n.
Proof.
  intros <- Hn. rewrite Z.land_spec. change LJ_GC_COLORS with (Z.ones 3). rewrite Z.ones_spec_low by lia. by rewrite andb_true_r.
Qed.

Lemma fresh_facts g x : one_white g -> fresh (curwhite g) x ->
  iswhite (marked x) = true /\ isblack (marked x) = false /\ isdead g (marked x) = false /\ sweep_keeps g (marked x) = true.
Proof.
  intros Hw Hf. unfold fresh in Hf.
  assert (forall n, 0 <= n < 3 -> Z.testbit (marked x) n = Z.testbit (curwhite g) n) as Hb by (intros n; by apply color_bits).
  rewrite iswhite_bits, isblack_bits, !Hb by lia. unfold isdead, sweep_keeps.
  assert (forall n, 0 <= n < 2 -> Z.testbit (currentwhite g) n = Z.testbit (curwhite g) n) as Hc.
  { intros n Hn. unfold curwhite. rewrite Z.land_spec. change LJ_GC_WHITES with (Z.ones 2). rewrite Z.ones_spec_low by lia. by rewrite andb_true_r. }
  assert (forall n, 2 <= n -> Z.testbit LJ_GC_WHITES n = false) as Hh.
  { intros n Hn. change LJ_GC_WHITES with (Z.ones 2). apply Z.ones_spec_high. lia. }
  split; [|split; [|split]].
  - by destruct Hw as [-> | ->].
  - by destruct Hw as [-> | ->].
  - unfold has. apply negb_false_iff, Z.eqb_eq, Z.bits_inj'. intros n Hn. unfold otherwhite. tbits.
    destruct (Z.ltb_spec n 2) as [L|L]; [|by rewrite Hh, !andb_false_r by lia].
    rewrite Hb, Hc by lia. change LJ_GC_WHITES with (Z.ones 2). rewrite Z.ones_spec_low by lia. by destruct (Z.testbit (curwhite g) n).
  - unfold has. apply negb_true_iff, Z.eqb_neq. intros E.
    assert (forall n, 0 <= n < 2 -> xorb (Z.testbit (curwhite g) n) true && xorb (Z.testbit (curwhite g) n) true = false) as H.
    { intros n Hn. apply (f_equal (fun z => Z.testbit z n)) in E. unfold otherwhite in E. rewrite Z.land_spec, !Z.lxor_spec, Z.bits_0 in E.
      rewrite Hb, Hc in E by lia. change LJ_GC_WHITES with (Z.ones 2) in E. by rewrite Z.ones_spec_low in E by lia. }
    pose proof (H 0 ltac:(lia)) as H0. pose proof (H 1 ltac:(lia)) as H1. by destruct Hw as [Hw|Hw]; rewrite Hw in H0, H1.
Qed.

(** Only the objects in [P] and the lists change. *)
Record sw (P : list Z) (g g' : global_State) : Prop := {
  sw_heap : forall p, (p ∉ P) -> heap g' !! p = heap g !! p;
  sw_white : currentwhite g' = currentwhite g
}.

Lemma sw_refl P g : sw P g g.
Proof. by split. Qed.

Lemma sw_trans P Q R g g1 g2 : (forall p, p ∉ R -> (p ∉ P) /\ (p ∉ Q)) -> sw P g g1 -> sw Q g1 g2 -> sw R g g2.
Proof.
  intros H [H1 W1] [H2 W2]. split; [|congruence]. intros p Hp. destruct (H p Hp). rewrite H2, H1; done.
Qed.

Definition is_cdata (b : GCbody) : bool := match b with BCdata => true | _ => false end.

(** An open upvalue may be closed with the value of its slot, a thread loses
    open upvalues. *)
Definition same_body (g : global_State) (b b' : GCbody) : Prop :=
  match b, b' with
  | BUpval false _ th slot, BUpval closed v th' slot' =>
      th' = th /\ slot' = slot /\ (closed = true -> stack_at g th slot = Ok v)
  | BThread th, BThread th' => set_openupval th' [] = set_openupval th []
  | _, _ => b' = b
  end.

(** The object after the sweep: gone, or with the current white. *)
Definition swept (g : global_State) (x : GCobj) (r : option GCobj) : Prop :=
  if sweep_keeps g (marked x) || (is_cdata (body x) && has (marked x) LJ_GC_CDATA_FIN)
  then exists x', r = Some x' /\ fresh (curwhite g) x' /\ same_body g (body x) (body x')
  else r = None.

Lemma heap_recolor_ne g o f p : p <> o -> heap (recolor g o f) !! p = heap g !! p.
Proof. intros N. unfold recolor, upd. cbn. by rewrite lookup_alter_ne. Qed.

Lemma sweep_openupval_ok uvs : NoDup uvs -> forall g, one_white g ->
  Forall (fun uv => exists x tv th slot, heap g !! uv = Some x /\ body x = BUpval false tv th slot) uvs ->
  exists g' l, sweep_openupval g uvs = Ok (g', l) /\ sw uvs g g' /\ gc_root g' = gc_root g /\
    (forall uv, uv ∈ l -> uv ∈ uvs) /\ NoDup l /\ (length l <= length uvs)%nat /\
    (forall uv x, uv ∈ uvs -> heap g !! uv = Some x ->
       if sweep_keeps g (marked x) then uv ∈ l /\ heap g' !! uv = Some (set_marked (makewhite g) x)
       else (uv ∉ l) /\ heap g' !! uv = None).
Proof.
  induction 1 as [|uv uvs Hni Hnd IH]; intros g Hw HF.
  { exists g, []. split_and!; try done; [constructor|]. intros uv x H. by apply elem_of_nil in H. }
  pose proof (Forall_inv HF) as (x & tv & th & slot & Hx & Hb). apply Forall_inv_tail in HF.
  cbn [sweep_openupval]. rewrite (obj_at_ok _ _ _ Hx). cbn [mbind res_bind].
  set (g1 := if sweep_keeps g (marked x) then recolor g uv (makewhite g) else delete_obj (unlinkuv g uv) uv).
  assert (sw [uv] g g1 /\ gc_root g1 = gc_root g) as (S1 & R1).
  { unfold g1. destruct (sweep_keeps g (marked x)); (split; [split; [|done]|done]); intros p Hp; rewrite list_elem_of_singleton in Hp.
    - by apply heap_recolor_ne.
    - cbn. by rewrite lookup_delete_ne. }
  assert (one_white g1) as Hw1 by (unfold one_white, curwhite; by rewrite (sw_white _ _ _ S1)).
  assert (forall m, sweep_keeps g1 m = sweep_keeps g m) as Hk by (intros m; unfold sweep_keeps, otherwhite; by rewrite (sw_white _ _ _ S1)).
  assert (forall m, makewhite g1 m = makewhite g m) as Hmw by (intros m; unfold makewhite, curwhite; by rewrite (sw_white _ _ _ S1)).
  assert (forall u, u ∈ uvs -> heap g1 !! u = heap g !! u) as Hsame.
  { intros u Hu. apply (sw_heap _ _ _ S1). rewrite list_elem_of_singleton. by intros ->. }
  destruct (IH g1 Hw1) as (g' & l & E & S2 & R2 & Hl & Hndl & Hlen & Hout).
  { rewrite Forall_forall in HF |- *. intros u Hu. rewrite Hsame by (by apply list_elem_of_In). by apply HF. }
  assert (sw (uv :: uvs) g g') as S12.
  { apply sw_trans with [uv] uvs g1; [|done|done]. intros p Hp. rewrite elem_of_cons in Hp. rewrite list_elem_of_singleton. tauto. }
  assert (heap g' !! uv = heap g1 !! uv) as Huv by by apply (sw_heap _ _ _ S2).
  assert (forall u y, u ∈ uvs -> heap g !! u = Some y -> if sweep_keeps g (marked y) then u ∈ l /\ heap g' !! u = Some (set_marked (makewhite g) y)
    else (u ∉ l) /\ heap g' !! u = None) as Hout'.
  { intros u y Hu Hy. rewrite <- Hsame in Hy by done. pose proof (Hout u y Hu Hy) as H. rewrite Hk in H.
    destruct (sweep_keeps g (marked y)); [|done]. destruct H as (H1 & H2). split; [done|]. rewrite H2. unfold set_marked. by rewrite Hmw. }
  unfold gc_free. rewrite Hb. destruct (sweep_keeps g (marked x)) eqn:K; unfold g1 in *.
  - rewrite E. cbn [mbind res_bind]. exists g', (uv :: l). split_and!; try done.
    + intros u. rewrite !elem_of_cons. intros [->|Hu]; auto.
    + constructor; [|done]. intros H. by apply Hni, Hl.
    + cbn. lia.
    + intros u y [->|Hu]%elem_of_cons Hy.
      * assert (y = x) as -> by congruence. rewrite K. split; [by left|]. rewrite Huv. unfold recolor. rewrite heap_upd with (x := x) by done.
        apply lookup_insert_eq.
      * pose proof (Hout' u y Hu Hy) as H. destruct (sweep_keeps g (marked y)); rewrite elem_of_cons; [tauto|].
        destruct H as (H1 & H2). split; [|done]. intros [->|H]; [by apply Hni|done].
  - cbn [mbind res_bind]. unfold lj_func_freeuv. cbn [negb]. rewrite E. exists g', l. split_and!; try done.
    + intros u Hu. right. by apply Hl.
    + cbn. lia.
    + intros u y [->|Hu]%elem_of_cons Hy; [|by apply Hout'].
      assert (y = x) as -> by congruence. rewrite K. split; [intros H; by apply Hni, Hl|]. rewrite Huv. cbn. apply lookup_delete_eq.
Qed.

(** An open upvalue of the thread [o], with the current white. *)
Definition open_of (g : global_State) (o uv : Z) : Prop :=
  exists x tv slot xo th, heap g !! uv = Some x /\ body x = BUpval false tv o slot /\
    heap g !! o = Some xo /\ body xo = BThread th /\ (slot < length (th_stack th))%nat.

Lemma stack_at_same g g' o slot : heap g' !! o = heap g !! o -> stack_at g' o slot = stack_at g o slot.
Proof. intros H. unfold stack_at, th_at, obj_at. by rewrite H. Qed.

(** What closing does to an open upvalue of the thread [o]. *)
Definition closed_at (g : global_State) (o : Z) (x : GCobj) (r : option GCobj) : Prop :=
  exists tv slot v, body x = BUpval false tv o slot /\ stack_at g o slot = Ok v /\ r = Some (set_body (BUpval true v o slot) x).

Lemma closeuv_fresh g o uv x : one_white g -> open_of g o uv -> heap g !! uv = Some x -> fresh (curwhite g) x ->
  exists x', lj_gc_closeuv (unlinkuv g uv) uv = Ok (link_root (upd (unlinkuv g uv) uv (set_body (body x'))) uv) /\
    closed_at g o x (Some x') /\ x' = set_body (body x') x.
Proof.
  intros Hw (y & tv & slot & xo & th & Hy & Hb & Hxo & Hbo & Hs) Hx Hf. assert (y = x) as -> by congruence.
  destruct (lookup_lt_is_Some_2 _ _ Hs) as (v & Hv).
  assert (stack_at g o slot = Ok v) as Hst.
  { unfold stack_at, th_at. rewrite (obj_at_ok g o xo Hxo). cbn [mbind res_bind]. rewrite Hbo. cbn [mbind res_bind]. by rewrite Hv. }
  exists (set_body (BUpval true v o slot) x). split; [|split; [by exists tv, slot, v|done]].
  unfold lj_gc_closeuv. rewrite (obj_at_ok (unlinkuv g uv) uv x Hx). cbn [mbind res_bind]. rewrite Hb.
  rewrite (stack_at_same g (unlinkuv g uv)), Hst by done.
  cbn [mbind res_bind]. rewrite isgray_bits. destruct (fresh_facts g x Hw Hf) as (-> & _). done.
Qed.

Lemma closeuv_list_ok o uvs : NoDup uvs -> (o ∉ uvs) -> forall g, one_white g ->
  Forall (fun uv => open_of g o uv /\ forall x, heap g !! uv = Some x -> fresh (curwhite g) x) uvs ->
  exists g', closeuv_loop g 0 uvs = Ok (g', []) /\ sw uvs g g' /\ gc_root g' = rev uvs ++ gc_root g /\
    (forall uv x, uv ∈ uvs -> heap g !! uv = Some x -> closed_at g o x (heap g' !! uv)).
Proof.
  induction 1 as [|uv uvs Hni Hnd IH]; intros Ho g Hw HF.
  { exists g. split_and!; try done. intros uv x H. by apply elem_of_nil in H. }
  pose proof (Forall_inv HF) as (Hop & Hf). apply Forall_inv_tail in HF. rewrite elem_of_cons in Ho.
  pose proof Hop as (x & tv & slot0 & xo & th & Hx & Hb & Hxo & Hbo & Hs).
  destruct (closeuv_fresh g o uv x Hw Hop Hx (Hf x Hx)) as (x' & E1 & Hcl & Hx').
  set (g1 := link_root (upd (unlinkuv g uv) uv (set_body (body x'))) uv) in *.
  assert (heap g1 = <[uv := x']> (heap g)) as Hh by (rewrite Hx'; by apply (heap_upd g uv (set_body (body x')) x)).
  assert (forall p, p <> uv -> heap g1 !! p = heap g !! p) as Hne by (intros p Hp; by rewrite Hh, lookup_insert_ne).
  destruct (IH ltac:(tauto) g1) as (g' & E2 & S2 & R2 & H2).
  { done. }
  { rewrite Forall_forall in HF |- *. intros u Hu. destruct (HF u Hu) as ((y & tvy & sl & yo & thy & Hy & Hby & Hyo & Hbyo & Hsl) & Hfy).
    assert (u <> uv) as Hn by (intros ->; by apply Hni, list_elem_of_In). split.
    - exists y, tvy, sl, yo, thy. rewrite !Hne by (done || intros ->; tauto). done.
    - intros z. rewrite Hne by done. apply Hfy. }
  exists g'. cbn [closeuv_loop]. unfold open_slot. rewrite (obj_at_ok _ _ _ Hx). cbn [mbind res_bind]. rewrite Hb. cbn [mbind res_bind Nat.leb].
  destruct (fresh_facts g x Hw (Hf x Hx)) as (_ & _ & -> & _). rewrite E1. cbn [mbind res_bind]. split; [done|]. split; [|split].
  - apply sw_trans with [uv] uvs g1; [|split; [|done]|done].
    + intros p Hp. rewrite elem_of_cons in Hp. rewrite list_elem_of_singleton. tauto.
    + intros p Hp. rewrite list_elem_of_singleton in Hp. by apply Hne.
  - rewrite R2. cbn [rev]. by rewrite <- app_assoc.
  - intros u y [->|Hu]%elem_of_cons Hy.
    + assert (y = x) as -> by congruence. rewrite (sw_heap _ _ _ S2) by done. by rewrite Hh, lookup_insert_eq.
    + assert (u <> uv) as Hn by by intros ->.
      destruct (H2 u y Hu) as (tvu & sl & v & Hbu & Hst & Hr); [by rewrite Hne|]. exists tvu, sl, v. split; [done|]. split; [|done].
      rewrite <- Hst. symmetry. apply stack_at_same, Hne. intros ->. tauto.
Qed.

(** *** The sweep of a list *)

Definition owned (g : global_State) (o : Z) : list Z :=
  match heap g !! o with
  | Some x => match body x with BThread th => th_openupval th | _ => [] end
  | None => []
  end.

(** What the sweep of the list concerns. *)
Definition pending (g : global_State) (l : list Z) : list Z := l ++ flat_map (owned g) l.

Lemma pending_cons g o l p : p ∈ pending g (o :: l) <-> p = o \/ p ∈ owned g o \/ p ∈ pending g l.
Proof. unfold pending. cbn [flat_map app]. rewrite !elem_of_cons, !elem_of_app. tauto. Qed.

Lemma pending_same g g' l : (forall o, o ∈ l -> heap g' !! o = heap g !! o) -> pending g' l = pending g l.
Proof.
  intros H. unfold pending. f_equal. induction l as [|o l IH]; [done|]. cbn [flat_map].
  rewrite IH by (intros; apply H; by right). unfold owned. rewrite H by left. done.
Qed.

Record sweepable (g : global_State) (l : list Z) : Prop := {
  p_nodup : NoDup (pending g l);
  p_obj : forall o, o ∈ l -> exists x, heap g !! o = Some x /\ is_open (body x) = false;
  p_open : forall o uv, o ∈ l -> uv ∈ owned g o -> open_of g o uv
}.

Lemma swept_fresh g x : one_white g -> fresh (curwhite g) x -> forall r, swept g x r -> exists x', r = Some x' /\ fresh (curwhite g) x'.
Proof.
  intros Hw Hf r. unfold swept. destruct (fresh_facts g x Hw Hf) as (_ & _ & _ & ->). cbn. intros (x' & ? & ? & _). eauto.
Qed.

End Sweep.
