(* ===== verification/GcFull.v ===== *)
(** * The garbage collector: a whole cycle

    The sweep of a list frees what is dead and recolors the rest; the full
    sweep of the lists after the atomic phase. *)

From S2P Require Import Prelude Machine Num Tab TabKey TabHash TabInv Buf Gc GcFunc GcInv GcMark GcTrav GcProp GcAtomic GcWeak GcSafe GcMut GcFuncInv GcLists GcCycle GcSweep.

(** ** One object *)

Lemma sw_one_white P g g' : sw P g g' -> one_white g -> one_white g'.
Proof. intros S. unfold one_white, curwhite. by rewrite (sw_white _ _ _ S). Qed.
Lemma sw_keeps P g g' m : sw P g g' -> sweep_keeps g' m = sweep_keeps g m.
Proof. intros S. unfold sweep_keeps, otherwhite. by rewrite (sw_white _ _ _ S). Qed.
Lemma sw_curwhite P g g' : sw P g g' -> curwhite g' = curwhite g.
Proof. intros S. unfold curwhite. by rewrite (sw_white _ _ _ S). Qed.

Lemma open_of_same g g' o uv : open_of g o uv ->
  (forall x, heap g !! uv = Some x -> exists x', heap g' !! uv = Some x' /\ body x' = body x) ->
  (forall th x, heap g !! o = Some x -> body x = BThread th ->
     exists x' th', heap g' !! o = Some x' /\ body x' = BThread th' /\ th_stack th' = th_stack th) -> open_of g' o uv.
Proof.
  intros (x & tv & slot & xo & th & Hx & Hb & Hxo & Hbo & Hs) Hu Ho.
  destruct (Hu x Hx) as (x' & Hx' & Hb'). destruct (Ho th xo Hxo Hbo) as (xo' & th' & Hxo' & Hbo' & Hst).
  exists x', tv, slot, xo', th'. rewrite Hst. split_and!; try done. congruence.
Qed.

Lemma same_body_refl g b : same_body g b b.
Proof. destruct b as [|[] | | | | | | | |]; done. Qed.

Lemma owned_none g o x : heap g !! o = Some x -> otype (body x) <> LJ_TTHREAD -> owned g o = [].
Proof. intros Hx Hn. unfold owned. rewrite Hx. by destruct (body x). Qed.

(** What the sweep of the upvalues of the object [o] leaves. *)
Record thread_swept (g g1 : global_State) (o : Z) (x x1 : GCobj) : Prop := {
  ts_obj : heap g1 !! o = Some x1;
  ts_marked : marked x1 = marked x;
  ts_body : same_body g (body x) (body x1);
  ts_type : otype (body x1) = otype (body x) /\ is_open (body x1) = is_open (body x);
  ts_sw : sw (o :: owned g o) g g1;
  ts_root : gc_root g1 = gc_root g;
  ts_stack : forall slot, stack_at g1 o slot = stack_at g o slot;
  ts_nodup : NoDup (o :: owned g1 o);
  ts_owned : forall uv, uv ∈ owned g1 o -> uv ∈ owned g o /\ open_of g1 o uv;
  ts_length : (length (owned g1 o) <= length (owned g o))%nat;
  ts_kept : forall uv y, uv ∈ owned g o -> heap g !! uv = Some y ->
    if sweep_keeps g (marked y) then uv ∈ owned g1 o /\ heap g1 !! uv = Some (set_marked (makewhite g) y)
    else (uv ∉ owned g1 o) /\ heap g1 !! uv = None
}.

Lemma thread_swept_none g o x : heap g !! o = Some x -> otype (body x) <> LJ_TTHREAD -> thread_swept g g o x x.
Proof.
  intros Hx Hn. pose proof (owned_none g o x Hx Hn) as Ho. split; rewrite ?Ho; try done.
  - apply same_body_refl.
  - apply NoDup_singleton.
  - intros uv H. by apply elem_of_nil in H.
  - intros uv y H. by apply elem_of_nil in H.
Qed.

Lemma sweep_thread_ok g o x : one_white g -> heap g !! o = Some x -> NoDup (o :: owned g o) -> (forall uv, uv ∈ owned g o -> open_of g o uv) ->
  exists g1 x1, sweep_thread g o x = Ok (g1, x1) /\ thread_swept g g1 o x x1.
Proof.
  intros Hw Hx (Hni & Hnd)%list.NoDup_cons Hop. unfold sweep_thread.
  destruct (body x) as [| |th| | | | | | |] eqn:Hb; try (exists g, x; split; [done|]; apply thread_swept_none; [done|by rewrite Hb]).
  assert (owned g o = th_openupval th) as Ho by (unfold owned; by rewrite Hx, Hb). rewrite Ho in *.
  destruct (sweep_openupval_ok (th_openupval th) Hnd g Hw) as (g' & l & E & S & R & Hl & Hndl & Hlen & Hout).
  { apply Forall_forall. intros uv Hu. apply list_elem_of_In in Hu.
    destruct (Hop uv Hu) as (y & tv & slot & _ & _ & Hy & Hby & _). by exists y, tv, o, slot. }
  rewrite E. cbn [mbind res_bind]. set (x1 := set_body (BThread (set_openupval th l)) x).
  exists (put_th g' o (set_openupval th l)), x1. split; [done|].
  assert (heap g' !! o = Some x) as Hx' by by rewrite (sw_heap _ _ _ S).
  assert (heap (put_th g' o (set_openupval th l)) = <[o := x1]> (heap g')) as Hh by by apply heap_upd.
  set (g1 := put_th g' o (set_openupval th l)) in *.
  assert (heap g1 !! o = Some x1) as Hx1 by (rewrite Hh; apply lookup_insert_eq).
  assert (owned g1 o = l) as Ho1 by (unfold owned; by rewrite Hx1).
  assert (forall p, p <> o -> heap g1 !! p = heap g' !! p) as Hne by (intros p Hp; by rewrite Hh, lookup_insert_ne).
  assert (forall uv, uv ∈ th_openupval th -> uv <> o) as Hno by (intros uv Hu ->; done).
  split; rewrite ?Ho, ?Ho1; try done.
  - rewrite Hb. done.
  - rewrite Hb. done.
  - split; [|apply S]. intros p Hp. rewrite elem_of_cons in Hp. rewrite Hne by tauto. apply (sw_heap _ _ _ S). tauto.
  - intros slot. unfold stack_at, th_at, obj_at. rewrite Hx1, Hx. cbn [mbind res_bind]. by rewrite Hb.
  - apply NoDup_cons_2; [|done]. intros H. by apply Hni, Hl.
  - intros uv Hu. pose proof (Hl uv Hu) as Hu'. split; [done|].
    destruct (Hop uv Hu') as (y & tv & slot & xo & tho & Hy & Hby & Hxo & Hbo & Hs).
    pose proof (Hout uv y Hu' Hy) as H. destruct (sweep_keeps g (marked y)); [|tauto]. destruct H as (_ & H).
    exists (set_marked (makewhite g) y), tv, slot, x1, (set_openupval th l). rewrite Hne by auto. split_and!; try done.
    assert (xo = x) as -> by congruence. rewrite Hb in Hbo. by injection Hbo as <-.
  - intros uv y Hu Hy. specialize (Hout uv y Hu Hy). rewrite Hne by auto. done.
Qed.

(** Freeing an object that is not an open upvalue, after its own upvalues
    were swept. *)
Lemma gc_free_ok g o x : one_white g -> heap g !! o = Some x -> is_open (body x) = false -> NoDup (o :: owned g o) ->
  (forall uv, uv ∈ owned g o -> open_of g o uv /\ forall y, heap g !! uv = Some y -> fresh (curwhite g) y) ->
  exists h, gc_free g o x = Ok h /\ sw (o :: owned g o) g h /\ gc_root h = rev (owned g o) ++ gc_root g /\
    (if is_cdata (body x) && has (marked x) LJ_GC_CDATA_FIN
     then exists x', heap h !! o = Some x' /\ fresh (curwhite g) x' /\ body x' = body x else heap h !! o = None) /\
    (forall uv y, uv ∈ owned g o -> heap g !! uv = Some y -> closed_at g o y (heap h !! uv)).
Proof.
  intros Hw Hx Hop (Hni & Hnd)%list.NoDup_cons Huv.
  assert (otype (body x) <> LJ_TTHREAD -> forall h, heap h = delete o (heap g) -> currentwhite h = currentwhite g -> gc_root h = gc_root g ->
    sw (o :: owned g o) g h /\ gc_root h = rev (owned g o) ++ gc_root g /\ heap h !! o = None /\
    (forall uv y, uv ∈ owned g o -> heap g !! uv = Some y -> closed_at g o y (heap h !! uv))) as Hdel.
  { intros Hn h Hh Hc Hr. rewrite (owned_none g o x Hx Hn). split; [split; [|done]|split; [done|split; [|intros uv y H; by apply elem_of_nil in H]]].
    - intros p Hp. rewrite Hh, lookup_delete_ne; [done|]. intros ->. apply Hp. by left.
    - rewrite Hh. apply lookup_delete_eq. }
  unfold gc_free. destruct (body x) as [|closed| th | | | | | | |] eqn:Hb; cbn [is_cdata andb] in *;
    try (eexists; split; [reflexivity|]; by apply Hdel).
  - destruct closed; [|done]. eexists. split; [reflexivity|]. by apply Hdel.
  - clear Hdel. assert (owned g o = th_openupval th) as Ho by (unfold owned; by rewrite Hx, Hb). rewrite Ho in *.
    unfold lj_state_free, lj_func_closeuv. set (g0 := if o =? cur_L g then set_cur_L g 0 else g).
    assert (heap g0 = heap g /\ currentwhite g0 = currentwhite g /\ gc_root g0 = gc_root g) as (Hh & Hc & Hr) by (unfold g0; by destruct (o =? cur_L g)).
    destruct (closeuv_list_ok o (th_openupval th) Hnd Hni g0) as (g' & E & S & R & H).
    { unfold one_white, curwhite in *. by rewrite Hc. }
    { apply Forall_forall. intros uv Hu. apply list_elem_of_In in Hu. unfold curwhite, open_of in *. rewrite Hh, Hc. by apply Huv. }
    assert (th_at g0 o = Ok th /\ th_at g' o = Ok th) as (Et0 & Et).
    { unfold th_at, obj_at. by rewrite (sw_heap _ _ _ S), Hh, Hx by done; cbn; rewrite Hb. }
    rewrite Et0. cbn [mbind res_bind]. rewrite E. cbn [mbind res_bind]. rewrite Et. cbn [mbind res_bind].
    assert (forall p, p <> o -> heap (put_th g' o (set_openupval th [])) !! p = heap g' !! p) as Hput by (intros p Hp; unfold put_th, upd; cbn; by rewrite lookup_alter_ne).
    eexists. split; [reflexivity|]. split; [|split; [|split]].
    + split; [|by rewrite <- Hc, <- (sw_white _ _ _ S)]. intros p Hp. rewrite elem_of_cons in Hp. unfold delete_obj. cbn [heap set_heap].
      rewrite lookup_delete_ne, Hput by (intros ->; tauto).
      rewrite (sw_heap _ _ _ S), Hh by tauto. done.
    + change (gc_root g' = rev (th_openupval th) ++ gc_root g). by rewrite R, Hr.
    + cbn. apply lookup_delete_eq.
    + intros uv y Hu Hy. unfold delete_obj. cbn [heap set_heap]. rewrite lookup_delete_ne, Hput by by intros ->. rewrite <- Hh in Hy. specialize (H uv y Hu Hy).
      destruct H as (tv & slot & v & Hby & Hst & Hr'). exists tv, slot, v. split; [done|]. split; [|done]. rewrite <- Hst. apply stack_at_same. by rewrite Hh.
  - eexists. split; [reflexivity|]. unfold lj_trace_free. destruct (negb (traceno T =? 0)); by apply Hdel.
  - unfold lj_cdata_free. destruct (has (marked x) LJ_GC_CDATA_FIN).
    + clear Hdel. rewrite (owned_none g o x Hx) by by rewrite Hb. eexists. split; [reflexivity|].
      set (x' := set_marked markfinalized (set_marked (makewhite g) x)).
      set (g2 := recolor (recolor g o (makewhite g)) o markfinalized). assert (heap g2 = <[o := x']> (heap g)) as Hh.
      { unfold g2, recolor. rewrite heap_upd with (x := set_marked (makewhite g) x).
        - rewrite heap_upd with (x := x) by done. apply insert_insert_eq.
        - rewrite heap_upd with (x := x) by done. apply lookup_insert_eq. }
      split; [split; [|done]|split; [done|split]].
      * intros p Hp. change (heap g2 !! p = heap g !! p). rewrite Hh, lookup_insert_ne; [done|]. intros ->. apply Hp. by left.
      * exists x'. change (heap (set_udata _ _ _)) with (heap g2). rewrite Hh. split; [apply lookup_insert_eq|]. split; [|done]. unfold fresh, x', set_marked. cbn. rewrite finalized_color. apply makewhite_color.
      * intros uv y H. by apply elem_of_nil in H.
    + eexists. split; [reflexivity|]. by apply Hdel.
Qed.

(** ** Lists *)

Lemma sweepable_tail g o l : sweepable g (o :: l) ->
  NoDup (o :: owned g o) /\ (forall p, p ∈ o :: owned g o -> p ∉ pending g l) /\ sweepable g l.
Proof.
  intros [Hnd Hobj Hop].
  assert (pending g (o :: l) ≡ₚ (o :: owned g o) ++ pending g l) as Hp.
  { unfold pending. cbn [flat_map app]. by rewrite (Permutation_app_comm l), <- app_assoc, (Permutation_app_comm _ l). }
  rewrite Hp in Hnd. apply list.NoDup_app in Hnd as (H1 & H2 & H3). split; [done|]. split; [done|]. split; [done| |].
  - intros p Hin. apply Hobj. by right.
  - intros p uv Hin. apply Hop. by right.
Qed.

Lemma pending_perm g o l : pending g (o :: l) ≡ₚ (o :: owned g o) ++ pending g l.
Proof. unfold pending. cbn [flat_map app]. by rewrite (Permutation_app_comm l), <- app_assoc, (Permutation_app_comm _ l). Qed.

Lemma in_owned_pending g l o uv : o ∈ l -> uv ∈ owned g o -> uv ∈ pending g l.
Proof.
  intros Ho Hu. unfold pending. apply elem_of_app. right. apply list_elem_of_In, in_flat_map. exists o. split; by apply list_elem_of_In.
Qed.

Lemma sweepable_same g g' l : (forall p, p ∈ pending g l -> heap g' !! p = heap g !! p) -> sweepable g l ->
  sweepable g' l /\ pending g' l = pending g l.
Proof.
  intros H [Hnd Hobj Hop].
  assert (forall o, o ∈ l -> heap g' !! o = heap g !! o) as Hl by (intros o Ho; apply H, elem_of_app; by left).
  assert (forall o, o ∈ l -> owned g' o = owned g o) as Ho by (intros o Ho; unfold owned; by rewrite Hl).
  pose proof (pending_same g g' l Hl) as Hp. split; [|done]. split; rewrite ?Hp; [done| |].
  - intros o Hin. rewrite Hl by done. by apply Hobj.
  - intros o uv Hin Hu. rewrite Ho in Hu by done. eapply open_of_same; [by apply Hop| |].
    + intros x Hx. exists x. rewrite H by by apply in_owned_pending with o. done.
    + intros th x Hx Hb. exists x, th. rewrite Hl by done. done.
Qed.

(** Closed upvalues in front of the list. *)
Lemma sweepable_add g us l : sweepable g l -> NoDup (us ++ pending g l) ->
  (forall u, u ∈ us -> exists x v th slot, heap g !! u = Some x /\ body x = BUpval true v th slot) ->
  sweepable g (us ++ l) /\ pending g (us ++ l) = us ++ pending g l.
Proof.
  intros [Hnd Hobj Hop] Hnd' Hus.
  assert (forall u, u ∈ us -> owned g u = []) as Ho.
  { intros u Hu. destruct (Hus u Hu) as (x & v & th & slot & Hx & Hb). unfold owned. by rewrite Hx, Hb. }
  assert (pending g (us ++ l) = us ++ pending g l) as Hp.
  { unfold pending. rewrite <- app_assoc. f_equal. f_equal. clear - Ho. induction us as [|u us IH]; [done|].
    cbn [app flat_map]. rewrite Ho by left. apply IH. intros p Hp. apply Ho. by right. }
  split; [|done]. split; rewrite ?Hp; [done| |].
  - intros o [Hin|Hin]%elem_of_app; [|by apply Hobj]. destruct (Hus o Hin) as (x & v & th & slot & Hx & Hb). exists x. by rewrite Hb.
  - intros o uv [Hin|Hin]%elem_of_app Hu; [|by apply Hop]. rewrite Ho in Hu by done. by apply elem_of_nil in Hu.
Qed.

(** What the round of the sweep for the object [o] leaves. *)
Record swept_one (g : global_State) (o : Z) (l : list Z) (g2 : global_State) (l2 : list Z) : Prop := {
  so_sweepable : sweepable g2 l2;
  so_less : (length (pending g2 l2) < length (pending g (o :: l)))%nat;
  so_rest : forall p, p ∈ pending g l -> p ∈ pending g2 l2;
  so_tail : forall p, p ∈ l -> p ∈ l2;
  so_new : forall p, p ∈ pending g2 l2 -> p ∈ pending g l \/
    (p ∈ owned g o /\ exists x v th slot, heap g2 !! p = Some x /\ fresh (curwhite g) x /\ body x = BUpval true v th slot);
  so_sw : sw (o :: owned g o) g g2;
  so_swept : forall p x, p ∈ o :: owned g o -> heap g !! p = Some x -> swept g x (heap g2 !! p);
  so_root : gc_root g2 ++ pending g2 l2 ⊆+ gc_root g ++ pending g (o :: l);
  so_grows : forall p, p ∈ gc_root g -> p ∈ gc_root g2;
  so_keeps : forall x, heap g !! o = Some x -> sweep_keeps g (marked x) = true -> o ∈ gc_root g2;
  so_alive : forall p, p ∈ gc_root g2 -> p ∈ gc_root g \/ is_Some (heap g2 !! p)
}.

Section Round.
Context (g : global_State) (o : Z) (l : list Z) (x : GCobj).
Context (Hw : one_white g) (Hs : sweepable g (o :: l)) (Hx : heap g !! o = Some x).
Context (g1 : global_State) (x1 : GCobj) (HT : thread_swept g g1 o x x1).

Lemma owned_sub : owned g1 o ⊆+ owned g o.
Proof.
  apply NoDup_submseteq; [|intros p Hp; by apply (ts_owned _ _ _ _ _ HT)]. pose proof (ts_nodup _ _ _ _ _ HT) as H.
  by apply list.NoDup_cons in H as (_ & H).
Qed.

Lemma owned_swept uv y : uv ∈ owned g o -> heap g !! uv = Some y -> swept g y (heap g1 !! uv).
Proof.
  intros Hu Hy. pose proof (ts_kept _ _ _ _ _ HT uv y Hu Hy) as H. unfold swept.
  destruct Hs as [_ _ Hop]. destruct (Hop o uv ltac:(left) Hu) as (y' & tv & slot & _ & _ & Hy' & Hb & _).
  assert (y' = y) as -> by congruence. destruct (sweep_keeps g (marked y)); cbn [orb].
  - destruct H as (_ & ->). eexists. split; [reflexivity|]. split; [apply makewhite_color|]. apply same_body_refl.
  - destruct H as (_ & ->). by rewrite Hb.
Qed.

Lemma pending_tail p : p ∈ pending g l -> heap g1 !! p = heap g !! p.
Proof. intros Hp. apply (sw_heap _ _ _ (ts_sw _ _ _ _ _ HT)). intros H. by apply (proj1 (proj2 (sweepable_tail _ _ _ Hs))) in H. Qed.

Lemma round_kept : sweep_keeps g (marked x1) = true ->
  swept_one g o l (set_lists (recolor g1 o (makewhite g1)) (gc_root g1 ++ [o]) (uvhead g1)) l.
Proof.
  intros K. set (g2 := set_lists _ _ _). destruct (sweepable_tail _ _ _ Hs) as (Hnd & Hdis & Hs').
  assert (heap g2 = <[o := set_marked (makewhite g1) x1]> (heap g1)) as Hh by (apply heap_upd, HT).
  assert (forall p, p <> o -> heap g2 !! p = heap g1 !! p) as Hne by (intros p Hp; by rewrite Hh, lookup_insert_ne).
  destruct (sweepable_same g g2 l) as (Hs2 & Hp2); [|done|].
  { intros p Hp. rewrite Hne, pending_tail; [done..|]. intros ->. by apply (Hdis o ltac:(left)). }
  assert (marked x1 = marked x) as Hm by apply HT.
  assert (sw (o :: owned g o) g g2) as Hsw.
  { split; [|apply (sw_white _ _ _ (ts_sw _ _ _ _ _ HT))]. intros p Hp. rewrite Hne by (intros ->; apply Hp; left). by apply (sw_heap _ _ _ (ts_sw _ _ _ _ _ HT)). }
  assert (gc_root g2 = gc_root g ++ [o]) as Hr by (cbn; by rewrite (ts_root _ _ _ _ _ HT)).
  split; rewrite ?Hp2, ?Hr; try done.
  - rewrite pending_perm, length_app. cbn. lia.
  - by left.
  - intros p y [->|Hp]%elem_of_cons Hy.
    + assert (y = x) as -> by congruence. rewrite Hh, lookup_insert_eq. unfold swept. rewrite <- Hm, K. cbn [orb]. eexists. split; [reflexivity|].
      split; [|apply HT]. unfold fresh, set_marked. cbn [marked]. rewrite makewhite_color. apply (sw_curwhite _ _ _ (ts_sw _ _ _ _ _ HT)).
    + rewrite Hne by (intros ->; by apply list.NoDup_cons in Hnd as (Hnd & _)). by apply owned_swept.
  - rewrite <- app_assoc, pending_perm. apply submseteq_app; [done|]. apply submseteq_app; [|done]. apply submseteq_skip, submseteq_nil_l.
  - intros p Hp. apply elem_of_app. by left.
  - intros y _ _. apply elem_of_app. right. by apply list_elem_of_singleton.
  - intros p [Hp|Hp]%elem_of_app; [by left|right]. apply list_elem_of_singleton in Hp as ->. rewrite Hh, lookup_insert_eq. eauto.
Qed.

(** The upvalues that stay are open, with the current white. *)
Lemma owned_fresh uv : uv ∈ owned g1 o -> open_of g1 o uv /\ forall y, heap g1 !! uv = Some y -> fresh (curwhite g1) y.
Proof.
  intros Hu. destruct (ts_owned _ _ _ _ _ HT uv Hu) as (Hu' & Hop). split; [done|]. intros y Hy.
  destruct Hs as [_ _ Hopen]. destruct (Hopen o uv ltac:(left) Hu') as (y0 & _ & _ & _ & _ & Hy0 & _).
  pose proof (ts_kept _ _ _ _ _ HT uv y0 Hu' Hy0) as H. destruct (sweep_keeps g (marked y0)); [|tauto]. destruct H as (_ & H).
  assert (y = set_marked (makewhite g) y0) as -> by congruence. unfold fresh. rewrite (sw_curwhite _ _ _ (ts_sw _ _ _ _ _ HT)). apply makewhite_color.
Qed.

(** A surviving upvalue of a dead thread, closed. *)
Lemma owned_closed uv r : uv ∈ owned g1 o -> (forall y, heap g1 !! uv = Some y -> closed_at g1 o y r) ->
  exists x v th slot, r = Some x /\ fresh (curwhite g) x /\ body x = BUpval true v th slot /\
    forall y, heap g !! uv = Some y -> swept g y r.
Proof.
  intros Hu Hr. destruct (ts_owned _ _ _ _ _ HT uv Hu) as (Hu' & Hop).
  destruct Hs as [_ _ Hopen]. destruct (Hopen o uv ltac:(left) Hu') as (y0 & tv0 & slot0 & _ & _ & Hy0 & Hb0 & _).
  pose proof (ts_kept _ _ _ _ _ HT uv y0 Hu' Hy0) as H. destruct (sweep_keeps g (marked y0)) eqn:K; [|tauto]. destruct H as (_ & H).
  destruct (Hr _ H) as (tv & slot & v & Hb & Hst & ->). cbn [body set_marked] in Hb. rewrite Hb0 in Hb. injection Hb as <- <-.
  eexists _, v, o, slot0. split; [reflexivity|]. split; [apply makewhite_color|]. split; [done|]. intros y Hy.
  assert (y = y0) as -> by congruence. unfold swept. rewrite K. cbn [orb]. eexists. split; [reflexivity|]. split; [apply makewhite_color|].
  cbn [body set_body]. rewrite Hb0. cbn. split; [done|]. split; [done|]. intros _. by rewrite <- (ts_stack _ _ _ _ _ HT).
Qed.

Section Freed.
Context (h : global_State) (K : sweep_keeps g (marked x1) = false).
Context (Hsw : sw (o :: owned g1 o) g1 h) (Hroot : gc_root h = rev (owned g1 o) ++ gc_root g1).
Context (Hobj : if is_cdata (body x1) && has (marked x1) LJ_GC_CDATA_FIN
  then exists x', heap h !! o = Some x' /\ fresh (curwhite g1) x' /\ body x' = body x1 else heap h !! o = None).
Context (Hclosed : forall uv y, uv ∈ owned g1 o -> heap g1 !! uv = Some y -> closed_at g1 o y (heap h !! uv)).

Lemma freed_closed uv : uv ∈ owned g1 o ->
  exists y v th slot, heap h !! uv = Some y /\ fresh (curwhite g) y /\ body y = BUpval true v th slot /\
    forall z, heap g !! uv = Some z -> swept g z (heap h !! uv).
Proof. intros Hu. apply (owned_closed uv (heap h !! uv) Hu). intros y. by apply Hclosed. Qed.

Lemma freed_sw : sw (o :: owned g o) g h.
Proof.
  apply sw_trans with (o :: owned g o) (o :: owned g1 o) g1; [|apply HT|done]. intros p Hp. split; [done|]. intros H. apply Hp.
  apply elem_of_cons in H as [->|H]; [left|right]. by apply (ts_owned _ _ _ _ _ HT).
Qed.

Lemma freed_swept p y : p ∈ o :: owned g o -> heap g !! p = Some y -> swept g y (heap h !! p).
Proof.
  destruct (sweepable_tail _ _ _ Hs) as ((Hni & _)%list.NoDup_cons & _).
  intros [->|Hp]%elem_of_cons Hy.
  - assert (y = x) as -> by congruence. unfold swept. rewrite <- (ts_marked _ _ _ _ _ HT), K. cbn [orb].
    pose proof (ts_body _ _ _ _ _ HT) as Hsb.
    destruct (is_cdata (body x)) eqn:E.
    + assert (body x1 = body x) as Hb by (destruct (body x); try done). rewrite Hb, E in Hobj. cbn [andb] in Hobj |- *.
      destruct (has (marked x1) LJ_GC_CDATA_FIN); [|done]. destruct Hobj as (x' & -> & Hf & Hb').
      exists x'. split; [done|]. rewrite <- (sw_curwhite _ _ _ (ts_sw _ _ _ _ _ HT)). split; [done|]. rewrite Hb'. apply same_body_refl.
    + assert (is_cdata (body x1) = false) as E1.
      { pose proof (proj1 (ts_type _ _ _ _ _ HT)) as Ht. destruct (body x), (body x1); done. }
      rewrite E1 in Hobj. done.
  - destruct (decide (p ∈ owned g1 o)) as [Hin|Hin].
    + destruct (freed_closed p Hin) as (_ & _ & _ & _ & _ & _ & _ & H). by apply H.
    + rewrite (sw_heap _ _ _ Hsw) by (rewrite elem_of_cons; intros [->|]; done). by apply owned_swept.
Qed.

Lemma freed_tail : sweepable h l /\ pending h l = pending g l.
Proof.
  destruct (sweepable_tail _ _ _ Hs) as (_ & Hdis & Hs'). apply sweepable_same; [|done].
  intros p Hp. apply (sw_heap _ _ _ freed_sw). intros H. by apply Hdis in H.
Qed.

Lemma freed_length : (length (pending g (o :: l)) = S (length (owned g o) + length (pending g l)))%nat.
Proof. rewrite pending_perm, length_app. done. Qed.

(** In the middle of the list the closed upvalues are in front of the sweep. *)
Lemma round_freed : swept_one g o l h l.
Proof.
  destruct freed_tail as (Hs2 & Hp2). split; rewrite ?Hp2; try done.
  - rewrite freed_length. lia.
  - by left.
  - apply freed_sw.
  - apply freed_swept.
  - rewrite Hroot, (ts_root _ _ _ _ _ HT), pending_perm, (Permutation_app_comm (rev _)), <- app_assoc.
    apply submseteq_app; [done|]. apply submseteq_app; [|done]. rewrite <- Permutation_rev. apply submseteq_cons, owned_sub.
  - intros p Hp. rewrite Hroot, (ts_root _ _ _ _ _ HT). apply elem_of_app. by right.
  - intros y Hy Hk. assert (y = x) as -> by congruence. rewrite <- (ts_marked _ _ _ _ _ HT) in Hk. congruence.
  - intros p. rewrite Hroot, (ts_root _ _ _ _ _ HT), elem_of_app. intros [Hp|Hp]; [right|by left].
    apply list_elem_of_In, in_rev, list_elem_of_In in Hp. destruct (freed_closed p Hp) as (y & _ & _ & _ & -> & _). eauto.
Qed.

(** At the anchor they are swept once more. *)
Lemma round_anchor : gc_root g1 = [] -> swept_one g o l (set_lists h [] (uvhead h)) (gc_root h ++ l).
Proof.
  intros Hr. rewrite Hroot, Hr, app_nil_r. destruct freed_tail as (Hs2 & Hp2).
  destruct (sweepable_tail _ _ _ Hs) as (_ & Hdis & _).
  assert (forall u, u ∈ rev (owned g1 o) -> u ∈ owned g1 o) as Hrev by (intros u Hu; by apply list_elem_of_In, in_rev, list_elem_of_In in Hu).
  destruct (sweepable_add h (rev (owned g1 o)) l Hs2) as (Hs3 & Hp3).
  { rewrite Hp2. apply list.NoDup_app. split; [|split; [|rewrite <- Hp2; apply Hs2]].
    - apply NoDup_ListNoDup, NoDup_rev, NoDup_ListNoDup. pose proof (ts_nodup _ _ _ _ _ HT) as H. by apply list.NoDup_cons in H as (_ & H).
    - intros u Hu. apply Hdis. right. by apply (ts_owned _ _ _ _ _ HT), Hrev. }
  { intros u Hu. destruct (freed_closed u (Hrev u Hu)) as (y & v & th & slot & Hy & _ & Hb & _). by exists y, v, th, slot. }
  change (pending (set_lists h [] (uvhead h))) with (pending h).
  assert (gc_root g = []) as Hg by (by rewrite <- (ts_root _ _ _ _ _ HT)).
  split; change (pending (set_lists h [] (uvhead h))) with (pending h); change (gc_root (set_lists h [] (uvhead h))) with (@nil Z);
    change (heap (set_lists h [] (uvhead h))) with (heap h); rewrite ?Hp3, ?Hp2, ?Hg; try done.
  - by apply (sweepable_same h (set_lists h [] (uvhead h))).
  - rewrite freed_length, length_app, length_rev. pose proof (ts_length _ _ _ _ _ HT). lia.
  - intros p Hp. apply elem_of_app. by right.
  - intros p Hp. apply elem_of_app. by right.
  - intros p [Hp|Hp]%elem_of_app; [right|by left].
    destruct (freed_closed p (Hrev p Hp)) as (y & v & th & slot & Hy & Hf & Hb & _). split; [|by exists y, v, th, slot].
    by apply (ts_owned _ _ _ _ _ HT), Hrev.
  - split; apply freed_sw.
  - apply freed_swept.
  - cbn [app]. rewrite pending_perm. apply submseteq_app; [|done]. rewrite <- Permutation_rev. apply submseteq_cons, owned_sub.
  - intros y Hy Hk. assert (y = x) as -> by congruence. rewrite <- (ts_marked _ _ _ _ _ HT) in Hk. congruence.
  - intros p Hp. by apply elem_of_nil in Hp.
Qed.

End Freed.
End Round.

(** *** All rounds *)

Lemma NoDup_submset {A} (l k : list A) : l ⊆+ k -> NoDup k -> NoDup l.
Proof. intros (k' & E)%submseteq_Permutation H. rewrite E in H. by apply list.NoDup_app in H as (? & _). Qed.

Lemma sweep_round g o l f lim : one_white g -> sweepable g (o :: l) -> 0 < lim ->
  exists g2 l2, gc_sweep (S f) g (o :: l) lim = gc_sweep f g2 l2 (lim - 1) /\ swept_one g o l g2 l2.
Proof.
  intros Hw Hs Hlim. destruct (sweepable_tail _ _ _ Hs) as (Hnd & _). pose proof (p_open _ _ Hs o) as Hop.
  destruct (p_obj _ _ Hs o) as (x & Hx & Hopen); [by left|].
  destruct (sweep_thread_ok g o x Hw Hx Hnd) as (g1 & x1 & E & HT); [intros uv; apply Hop; by left|].
  cbn [gc_sweep]. rewrite (proj2 (Z.ltb_lt _ _) Hlim), (obj_at_ok _ _ _ Hx). cbn [mbind res_bind]. rewrite E. cbn [mbind res_bind].
  rewrite (sw_keeps _ _ _ _ (ts_sw _ _ _ _ _ HT)). destruct (sweep_keeps g (marked x1)) eqn:K.
  { eexists _, _. split; [reflexivity|]. by eapply round_kept. }
  destruct (gc_free_ok g1 o x1) as (h & Ef & Hsw & Hr & Hobj & Hcl).
  - by apply (sw_one_white _ _ _ (ts_sw _ _ _ _ _ HT)).
  - apply HT.
  - by rewrite (proj2 (ts_type _ _ _ _ _ HT)).
  - apply HT.
  - intros uv. by eapply owned_fresh.
  - rewrite Ef. cbn [mbind res_bind]. destruct (gc_root g1) as [|r rs] eqn:Er.
    + eexists _, _. split; [reflexivity|]. eapply round_anchor; try done. by rewrite Hr, Er.
    + eexists _, _. split; [reflexivity|]. eapply round_freed; try done. by rewrite Hr, Er.
Qed.

(** The sweep of the list from [g] to [g']. *)
Record swept_all (g : global_State) (l : list Z) (g' : global_State) : Prop := {
  sa_sw : sw (pending g l) g g';
  sa_swept : forall p x, p ∈ pending g l -> heap g !! p = Some x -> swept g x (heap g' !! p);
  sa_root : gc_root g' ⊆+ gc_root g ++ pending g l;
  sa_grows : forall p, p ∈ gc_root g -> p ∈ gc_root g';
  sa_keeps : forall o x, o ∈ l -> heap g !! o = Some x -> sweep_keeps g (marked x) = true -> o ∈ gc_root g';
  sa_alive : forall p, p ∈ gc_root g' -> p ∈ gc_root g \/ is_Some (heap g' !! p)
}.

Lemma same_body_later g g2 P b b' : sw P g g2 ->
  (forall tv th slot, b = BUpval false tv th slot -> th ∉ P) -> same_body g2 b b' -> same_body g b b'.
Proof.
  intros Hsw Ho. destruct b as [|[] tv th slot| | | | | | | |]; try done. destruct b' as [|closed v th' slot'| | | | | | | |]; try done.
  intros (-> & -> & H). split; [done|]. split; [done|]. intros Hc. rewrite <- (H Hc). symmetry. apply stack_at_same, (sw_heap _ _ _ Hsw).
  by apply (Ho tv th slot).
Qed.

(** Objects of the rest of the list: what the later rounds do is what the
    sweep does. *)
Lemma swept_later g o l g2 p x r : sweepable g (o :: l) -> sw (o :: owned g o) g g2 ->
  p ∈ pending g l -> heap g !! p = Some x -> swept g2 x r -> swept g x r.
Proof.
  intros Hs Hsw Hp Hx. unfold swept. rewrite (sw_keeps _ _ _ _ Hsw), (sw_curwhite _ _ _ Hsw). destruct (_ || _); [|done].
  intros (x' & -> & Hf & Hb). exists x'. split; [done|]. split; [done|]. apply (same_body_later g g2 (o :: owned g o)); [done| |done].
  intros tv th slot E. destruct (sweepable_tail _ _ _ Hs) as (_ & Hdis & Hs'). unfold pending in Hp. apply elem_of_app in Hp as [Hp|Hp].
  { destruct (p_obj _ _ Hs' p Hp) as (y & Hy & Ho). assert (y = x) as -> by congruence. by rewrite E in Ho. }
  apply list_elem_of_In, in_flat_map in Hp as (q & Hq & Hp). apply list_elem_of_In in Hq, Hp.
  destruct (p_open _ _ Hs' q p Hq Hp) as (y & tv' & slot' & _ & _ & Hy & Hby & _). assert (y = x) as -> by congruence.
  rewrite E in Hby. injection Hby as <- <- <-. intros Hin. apply Hdis in Hin. apply Hin. unfold pending. apply elem_of_app. by left.
Qed.

(** What a round did to its object and the upvalues of it stays. *)
Lemma swept_redo g o l g2 l2 g' p x : one_white g -> sweepable g (o :: l) -> swept_one g o l g2 l2 -> swept_all g2 l2 g' ->
  p ∈ o :: owned g o -> heap g !! p = Some x -> swept g x (heap g' !! p).
Proof.
  intros Hw Hs H1 H2 Hin Hx. pose proof (so_swept _ _ _ _ _ H1 p x Hin Hx) as H. pose proof (so_sw _ _ _ _ _ H1) as Hsw.
  destruct (decide (p ∈ pending g2 l2)) as [Hin2|Hn]; [|by rewrite (sw_heap _ _ _ (sa_sw _ _ _ H2))].
  destruct (so_new _ _ _ _ _ H1 p Hin2) as [Hin'|(_ & y & v & th & slot & Hy & Hf & Hb)].
  { exfalso. by apply (proj1 (proj2 (sweepable_tail _ _ _ Hs)) p). }
  pose proof (sa_swept _ _ _ H2 p y Hin2 Hy) as H3. rewrite Hy in H. unfold swept in H3.
  rewrite <- (sw_curwhite _ _ _ Hsw) in Hf. destruct (fresh_facts g2 y (sw_one_white _ _ _ Hsw Hw) Hf) as (_ & _ & _ & K).
  rewrite K in H3. cbn [orb] in H3. destruct H3 as (y' & -> & Hf' & Hb'). rewrite Hb in Hb'. cbn in Hb'. revert H. unfold swept.
  destruct (_ || _); [|done]. intros (y0 & [= <-] & _ & Hsb). exists y'. split; [done|]. split; [by rewrite <- (sw_curwhite _ _ _ Hsw)|].
  by rewrite Hb', <- Hb.
Qed.

Lemma swept_all_step g o l g2 l2 g' : one_white g -> sweepable g (o :: l) -> NoDup (gc_root g ++ pending g (o :: l)) ->
  swept_one g o l g2 l2 -> swept_all g2 l2 g' -> swept_all g (o :: l) g'.
Proof.
  intros Hw Hs Hnd H1 H2. pose proof (so_sw _ _ _ _ _ H1) as Hsw. destruct (sweepable_tail _ _ _ Hs) as (_ & Hdis & Hs').
  assert (forall p, p ∈ pending g (o :: l) <-> p ∈ o :: owned g o \/ p ∈ pending g l) as Hp by (intros p; rewrite pending_cons, elem_of_cons; tauto).
  assert (forall p, p ∈ gc_root g2 -> p ∉ pending g2 l2) as Hroot.
  { intros p. apply (NoDup_submset _ _ (so_root _ _ _ _ _ H1)), list.NoDup_app in Hnd. by apply Hnd. }
  assert (forall p, p ∈ pending g l -> heap g2 !! p = heap g !! p) as Hsame.
  { intros p Hin. apply (sw_heap _ _ _ Hsw). intros H. by apply Hdis in H. }
  split.
  - apply sw_trans with (o :: owned g o) (pending g2 l2) g2; [|done|apply H2]. intros p Hn. rewrite Hp in Hn. split; [tauto|]. intros Hin.
    apply Hn. destruct (so_new _ _ _ _ _ H1 p Hin) as [|(? & _)]; [by right|left; by right].
  - intros p x [Hin|Hin]%Hp Hx.
    + by apply swept_redo with o l g2 l2.
    + apply (swept_later g o l g2 p); [done..|]. apply H2; [by apply (so_rest _ _ _ _ _ H1)|by rewrite Hsame].
  - etrans; [apply H2|apply H1].
  - intros p Hin. by apply (sa_grows _ _ _ H2), (so_grows _ _ _ _ _ H1).
  - intros p x [->|Hin]%elem_of_cons Hx K; [by apply (sa_grows _ _ _ H2), (so_keeps _ _ _ _ _ H1 x)|].
    apply (sa_keeps _ _ _ H2 p x); [by apply (so_tail _ _ _ _ _ H1)| |by rewrite (sw_keeps _ _ _ _ Hsw)].
    rewrite Hsame; [done|]. unfold pending. apply elem_of_app. by left.
  - intros p Hin. destruct (sa_alive _ _ _ H2 p Hin) as [Hin'|]; [|by right].
    destruct (so_alive _ _ _ _ _ H1 p Hin') as [|Hsome]; [by left|right]. by rewrite (sw_heap _ _ _ (sa_sw _ _ _ H2)) by by apply Hroot.
Qed.

(** The whole list; a round for every object and every upvalue of a thread is
    enough. *)
Lemma gc_sweep_ok fuel : forall g l lim, one_white g -> sweepable g l -> NoDup (gc_root g ++ pending g l) ->
  (length (pending g l) < fuel)%nat -> Z.of_nat (length (pending g l)) <= lim ->
  exists g', gc_sweep fuel g l lim = Ok (g', []) /\ swept_all g l g'.
Proof.
  induction fuel as [|f IH]; intros g l lim Hw Hs Hnd Hf Hlim; [lia|]. destruct l as [|o l].
  { exists g. split; [done|]. split; try done; try (intros ? ? H; by apply elem_of_nil in H).
    - by rewrite app_nil_r.
    - by left. }
  assert (0 < Z.of_nat (length (pending g (o :: l)))) as Hpos by (cbn; lia).
  destruct (sweep_round g o l f lim Hw Hs ltac:(lia)) as (g2 & l2 & E & H1). pose proof (so_less _ _ _ _ _ H1) as Hl.
  destruct (IH g2 l2 (lim - 1)) as (g' & E' & H2); [|apply H1| |lia|lia|].
  - by apply (sw_one_white _ _ _ (so_sw _ _ _ _ _ H1)).
  - exact (NoDup_submset _ _ (so_root _ _ _ _ _ H1) Hnd).
  - exists g'. rewrite E. split; [done|]. by apply swept_all_step with g2 l2.
Qed.

(** ** Which colors stay *)

Lemma lxor_whites_bit m n : 0 <= n -> Z.testbit (m .^ LJ_GC_WHITES) n = xorb (Z.testbit m n) (n <? 2).
Proof. intros Hn. rewrite Z.lxor_spec. f_equal. change LJ_GC_WHITES with (Z.ones 2). by rewrite Z.testbit_ones_nonneg by lia. Qed.

Lemma keeps_alive g m : one_white g -> isdead g m = false -> sweep_keeps g m = true.
Proof.
  intros Hw D. apply one_white_bits in Hw. rewrite isdead_bits, Hw in D. unfold sweep_keeps, has. apply negb_true_iff, Z.eqb_neq. intros E.
  assert (forall n, 0 <= n < 2 -> Z.testbit m n || Z.testbit (currentwhite g) n = true) as H.
  { intros n Hn. apply (f_equal (fun z => Z.testbit z n)) in E. unfold otherwhite in E. rewrite Z.land_spec, !lxor_whites_bit, Z.bits_0 in E by lia.
    rewrite (proj2 (Z.ltb_lt n 2)) in E by lia. by destruct (Z.testbit m n), (Z.testbit (currentwhite g) n). }
  pose proof (H 0 ltac:(lia)) as H0. pose proof (H 1 ltac:(lia)) as H1. rewrite Hw in H1.
  by destruct (Z.testbit m 0), (Z.testbit m 1), (Z.testbit (currentwhite g) 0).
Qed.

(** The other bits of [currentwhite] are the marks that protect objects. *)
Lemma keeps_dead g m : one_white g -> isdead g m = true -> has m (currentwhite g .& Z.lnot LJ_GC_WHITES) = false -> sweep_keeps g m = false.
Proof.
  intros Hw D Hf. apply one_white_bits in Hw. rewrite isdead_bits, Hw in D. unfold sweep_keeps, has in *.
  apply negb_false_iff, Z.eqb_eq in Hf. apply negb_false_iff, Z.eqb_eq, Z.bits_inj'. intros n Hn. unfold otherwhite.
  rewrite Z.land_spec, !lxor_whites_bit, Z.bits_0 by lia. destruct (Z.ltb_spec n 2) as [L|L].
  - assert (n = 0 \/ n = 1) as [-> | ->] by lia; rewrite ?Hw;
      by destruct (Z.testbit m 0), (Z.testbit m 1), (Z.testbit (currentwhite g) 0).
  - apply (f_equal (fun z => Z.testbit z n)) in Hf. rewrite !Z.land_spec, Z.lnot_spec, Z.bits_0 in Hf by lia.
    change LJ_GC_WHITES with (Z.ones 2) in Hf. rewrite Z.ones_spec_high in Hf by lia. cbn in Hf. rewrite andb_true_r in Hf. by rewrite !xorb_false_r.
Qed.

Lemma curwhite_other g g' : currentwhite g' = otherwhite g -> curwhite g' = curwhite g .^ LJ_GC_WHITES.
Proof.
  intros E. unfold curwhite. rewrite E. unfold otherwhite. apply Z.bits_inj'. intros n Hn. tbits.
  by destruct (Z.testbit (currentwhite g) n), (Z.testbit LJ_GC_WHITES n).
Qed.

(** ** The full sweep *)

Lemma split_main_ok main l a b : split_main main l = (a, b) -> main ∈ l -> a ++ b = l /\ main ∈ a.
Proof.
  revert a b. induction l as [|o l IH]; intros a b E Hin; [by apply elem_of_nil in Hin|]. cbn [split_main] in E.
  destruct (Z.eqb_spec o main) as [->|N]; [injection E as <- <-; split; [done|by left]|].
  destruct (split_main main l) as [a' b']. injection E as <- <-. apply elem_of_cons in Hin as [->|Hin]; [done|].
  destruct (IH a' b' eq_refl Hin) as (<- & H). split; [done|by right].
Qed.

Lemma pending_size g l : sweepable g l -> (length (pending g l) <= size (heap g))%nat.
Proof.
  intros [Hnd Hobj Hop]. rewrite <- size_dom.
  assert (list_to_set (pending g l) ⊆ dom (heap g)) as H.
  { intros p Hp%elem_of_list_to_set. apply elem_of_dom. unfold pending in Hp. apply elem_of_app in Hp as [Hp|Hp].
    - destruct (Hobj p Hp) as (x & Hx & _). eauto.
    - apply list_elem_of_In, in_flat_map in Hp as (o & Ho & Hp). apply list_elem_of_In in Ho, Hp.
      destruct (Hop o p Ho Hp) as (x & _ & _ & _ & _ & Hx & _). eauto. }
  apply subseteq_size in H. by rewrite size_list_to_set in H.
Qed.

Record swept_full (g g' : global_State) : Prop := {
  sf_others : forall p, (p ∉ pending g (gc_root g ++ gc_udata g)) -> heap g' !! p = heap g !! p;
  sf_swept : forall p x, p ∈ pending g (gc_root g ++ gc_udata g) -> heap g !! p = Some x -> swept g x (heap g' !! p);
  sf_nodup : NoDup (gc_root g' ++ gc_udata g');
  sf_alive : forall p, p ∈ gc_root g' ++ gc_udata g' -> is_Some (heap g' !! p);
  sf_listed : forall p x, p ∈ gc_root g ++ gc_udata g -> heap g !! p = Some x -> sweep_keeps g (marked x) = true -> p ∈ gc_root g' ++ gc_udata g';
  sf_main : mainthread g ∈ gc_root g'
}.

Lemma gc_fullsweep_ok g x : one_white g -> sweepable g (gc_root g ++ gc_udata g) -> Z.of_nat (size (heap g)) <= 0xffffffff ->
  mainthread g ∈ gc_root g -> heap g !! mainthread g = Some x -> sweep_keeps g (marked x) = true ->
  exists g', gc_fullsweep g = Ok g' /\ swept_full g g'.
Proof.
  intros Hw Hs Hsize Hm Hx K. set (l := gc_root g ++ gc_udata g) in *. set (g0 := set_lists g [] (uvhead g)).
  destruct (sweepable_same g g0 l ltac:(done) Hs) as (Hs0 & Hp0). pose proof (pending_size g l Hs) as Hsz.
  destruct (gc_sweep_ok (2 * size (heap g) + 1) g0 l 0xffffffff Hw Hs0) as (g1 & E & A); rewrite ?Hp0; [|lia|lia|].
  { apply Hs. }
  destruct A as [A1 A2 A3 A4 A5 A6]. rewrite Hp0 in A1, A2, A3. change (gc_root g0) with (@nil Z) in *.
  unfold gc_fullsweep. fold g0 l. rewrite E. cbn [mbind res_bind]. 
  assert (mainthread g ∈ gc_root g1) as Hm1.
  { apply (A5 _ x); [apply elem_of_app; by left|done|]. by rewrite <- K. }
  destruct (split_main (mainthread g) (gc_root g1)) as [a b] eqn:Em. destruct (split_main_ok _ _ _ _ Em Hm1) as (Hab & Ha).
  eexists. split; [reflexivity|].
  split; change (gc_root (set_udata (set_lists g1 a (uvhead g1)) b (gc_mmudata g1))) with a;
    change (gc_udata (set_udata (set_lists g1 a (uvhead g1)) b (gc_mmudata g1))) with b; rewrite ?Hab.
  - apply A1.
  - exact A2.
  - apply (NoDup_submset _ _ A3). apply Hs.
  - intros p Hp. destruct (A6 p Hp) as [H|H]; [by apply elem_of_nil in H|exact H].
  - exact A5.
  - exact Ha.
Qed.


(** ** From the atomic phase to the sweep *)

Section Full.
Context `{TE : TabEnv}.

Lemma heap_of_shape g o b : shape g !! o = Some b -> exists x, heap g !! o = Some x /\ norm (body x) = b.
Proof. rewrite shape_lookup. destruct (heap g !! o) as [x|]; [|done]. intros [= <-]. by exists x. Qed.

Lemma owned_upvals g o : owned g o = match shape g !! o with Some b => upvals_of b | None => [] end.
Proof. unfold owned. rewrite shape_lookup. destruct (heap g !! o) as [x|]; [|done]. cbn. by destruct (body x). Qed.

(** Lists in order can be swept. *)
Lemma lists_sweepable g : lists_ok (rest g) (shape g) ->
  (forall o tv th slot, shape g !! o = Some (BUpval false tv th slot) -> exists t, shape g !! th = Some (BThread t) /\ (slot < length (th_stack t))%nat) ->
  sweepable g (gc_root g ++ gc_udata g).
Proof.
  intros [H1 H2 H3 H4] Hslot. set (l := gc_root g ++ gc_udata g).
  assert (forall o, o ∈ l -> o ∈ all_objects (rest g)) as Hl.
  { intros o. unfold l, all_objects. rewrite !elem_of_app. cbn. tauto. }
  assert (NoDup l) as Hnd. { unfold all_objects in H1. rewrite app_assoc in H1. by apply list.NoDup_app in H1 as (H1 & _). }
  assert (forall o uv, uv ∈ owned g o -> exists b, shape g !! o = Some b /\ uv ∈ upvals_of b /\ exists tv slot, shape g !! uv = Some (BUpval false tv o slot)) as Hown.
  { intros o uv. rewrite owned_upvals. destruct (shape g !! o) as [b|] eqn:Hb; [|intros H; by apply elem_of_nil in H]. intros H.
    exists b. split; [done|]. split; [done|]. by apply (proj2 (H4 o b Hb)). }
  split.
  - unfold pending. apply list.NoDup_app. split; [done|]. split.
    + intros p Hp Hin. destruct (H2 p (Hl p Hp)) as (b & Hb & Hop).
      apply list_elem_of_In, in_flat_map in Hin as (o & _ & Hin). apply list_elem_of_In in Hin.
      destruct (Hown o p Hin) as (_ & _ & _ & tv & slot & E). assert (b = BUpval false tv o slot) as -> by congruence. done.
    + clearbody l. clear Hl. induction Hnd as [|o l Hni Hnd IH]; [constructor|]. cbn [flat_map]. apply list.NoDup_app. split; [|split; [|exact IH]].
      * rewrite owned_upvals. destruct (shape g !! o) as [b|] eqn:Hb; [|constructor]. apply (H4 o b Hb).
      * intros uv Hu Hin. apply list_elem_of_In, in_flat_map in Hin as (p & Hp & Hin). apply list_elem_of_In in Hp, Hin.
        destruct (Hown o uv Hu) as (_ & _ & _ & tv & slot & E). destruct (Hown p uv Hin) as (_ & _ & _ & tv' & slot' & E').
        apply Hni. congruence.
  - intros o Ho. destruct (H2 o (Hl o Ho)) as (b & Hb & Hop). destruct (heap_of_shape g o b Hb) as (x & Hx & Hn). exists x. split; [done|].
    rewrite <- Hn in Hop. by destruct (body x) as [|[]| | | | | | | |].
  - intros o uv _ Hu. destruct (Hown o uv Hu) as (_ & _ & _ & tv & slot & E). destruct (Hslot _ _ _ _ E) as (t & Ht & Hlen).
    destruct (heap_of_shape g uv _ E) as (x & Hx & Hn). destruct (heap_of_shape g o _ Ht) as (xo & Hxo & Hno).
    destruct (body xo) as [| |th| | | | | | |] eqn:Hb; try discriminate Hno. cbn in Hno. injection Hno as <-. cbn in Hlen. rewrite length_take in Hlen.
    exists x, tv, slot, xo, th. split; [done|]. split; [by destruct (body x) as [|[]| | | | | | | |]|]. split; [done|]. split; [done|]. lia.
Qed.

Lemma cleared_upvals b b' : cleared_body b b' -> keeps_upvals b b' /\ (is_thread b = true \/ is_open b = true -> b' = b).
Proof. intros []; (split; [by split_and!|]); [done|by intros []]. Qed.

Lemma lists_atomic g g' : lists_ok (rest g) (shape g) -> atomic_same g g' -> lists_ok (rest g') (shape g').
Proof.
  intros [H1 H2 H3 H4] (Hr & Hu & _ & Hsh).
  assert (all_objects (rest g') ≡ₚ all_objects (rest g)) as Ha by (unfold all_objects; cbn; by rewrite Hr, Hu).
  assert (forall o b, shape g !! o = Some b -> exists b', shape g' !! o = Some b' /\ cleared_body b b') as Hto.
  { intros o b Hb. specialize (Hsh o). rewrite Hb in Hsh. inversion Hsh as [? b' H|]; subst. by exists b'. }
  assert (forall o b', shape g' !! o = Some b' -> exists b, shape g !! o = Some b /\ cleared_body b b') as Hof.
  { intros o b' Hb. specialize (Hsh o). rewrite Hb in Hsh. inversion Hsh as [b ? H|]; subst. by exists b. }
  split.
  - by rewrite Ha.
  - intros o. rewrite Ha. intros Hin. destruct (H2 o Hin) as (b & Hb & Hop). destruct (Hto o b Hb) as (b' & Hb' & C). exists b'. split; [done|].
    apply cleared_upvals in C as ((_ & _ & -> & _) & _). done.
  - intros o b' Hb' Hth. destruct (Hof o b' Hb') as (b & Hb & C). change (gc_root (rest g')) with (gc_root g'). rewrite Hr.
    apply cleared_upvals in C as ((_ & E & _) & _). apply (H3 o b); congruence.
  - intros o b' Hb'. destruct (Hof o b' Hb') as (b & Hb & C). apply cleared_upvals in C as ((-> & _) & _). destruct (H4 o b Hb) as (Hnd & H). split; [done|].
    intros uv Hin. destruct (H uv Hin) as (tv & slot & E). exists tv, slot. destruct (Hto uv _ E) as (b2 & Hb2 & C2).
    apply cleared_upvals in C2 as (_ & H'). by rewrite H' in Hb2 by (by right).
Qed.

Lemma atomic_sweepable g g' : wf (rest g) (shape g) -> lists_ok (rest g) (shape g) -> atomic_same g g' ->
  sweepable g' (gc_root g' ++ gc_udata g') /\ mainthread g' ∈ gc_root g' /\ size (heap g') = size (heap g).
Proof.
  intros W HL A. pose proof (lists_atomic g g' HL A) as HL'. destruct A as (Hr & Hu & Hm & Hsh). split; [|split].
  - apply lists_sweepable; [done|]. intros o tv th slot Ho. pose proof (Hsh o) as E. rewrite Ho in E. inversion E as [b ? C Eb|]; subst.
    assert (b = BUpval false tv th slot) as -> by (inversion C; by subst).
    destruct (w_body _ _ W o _ (eq_sym Eb)) as (t & Ht & _ & Hlen). exists t. split; [|done].
    specialize (Hsh th). rewrite Ht in Hsh. inversion Hsh as [? b' C'|]; subst. apply cleared_upvals in C' as (_ & ->); [done|by left].
  - rewrite Hm, Hr. destruct (w_main _ _ W) as (b & Hb & Ht). apply (lk_thread _ _ HL _ b Hb). by destruct b as [|[]| | | | | | | |].
  - assert (forall g : global_State, size (shape g) = size (heap g)) as Hs by (intros g0; apply map_size_fmap).
    rewrite <- !Hs, <- !size_dom. f_equal. apply set_eq. intros p. rewrite !elem_of_dom. specialize (Hsh p). by inversion Hsh.
Qed.

(** What is reachable outlives the cycle, what is dead is freed. *)
Lemma cycle_collects g L gs ga ws : J [] (uvhead g) g gs ga ws -> lists_ok (rest g) (shape g) -> one_white g -> live (shape g) L ->
  nw (heap g) (mainthread g) -> Forall (nw (heap g)) (tvref (registrytv g)) -> Z.of_nat (size (heap g)) <= 0xffffffff ->
  exists g1 g2, atomic g L = Ok g1 /\ gc_fullsweep g1 = Ok g2 /\ swept_full g1 g2 /\
    (forall o b p, alive g1 o -> shape g1 !! o = Some b -> p ∈ held g1 (shape g1) b -> alive g1 p) /\
    (forall o, reachable g1 L o -> exists x x', heap g1 !! o = Some x /\ heap g2 !! o = Some x' /\ same_body g1 (body x) (body x')) /\
    (forall o x, o ∈ gc_root g1 ++ gc_udata g1 -> heap g1 !! o = Some x -> isdead g1 (marked x) = true ->
       has (marked x) (currentwhite g1 .& Z.lnot LJ_GC_WHITES) = false -> is_cdata (body x) && has (marked x) LJ_GC_CDATA_FIN = false ->
       heap g2 !! o = None).
Proof.
  intros HJ HL Hw HLv Hm Hreg Hsz. destruct (atomic_keeps g L gs ga ws HJ HLv Hm Hreg) as (g1 & E & Hcw & Hre & Hal & A).
  pose proof (j_wf _ _ _ _ _ _ HJ) as W. destruct (atomic_sweepable g g1 W HL A) as (Hs & Hm1 & Hsize).
  assert (one_white g1) as Hw1.
  { unfold one_white in *. rewrite (curwhite_other g g1 Hcw). by destruct Hw as [-> | ->]; [right|left]. }
  assert (forall o x, heap g1 !! o = Some x -> reachable g1 L o -> sweep_keeps g1 (marked x) = true) as Hkeep.
  { intros o x Hx Ho. destruct (Hre o Ho) as (y & Hy & D). assert (y = x) as -> by congruence. by apply keeps_alive. }
  assert (reachable g1 L (mainthread g1)) as Hrm by (apply reach_root, elem_of_app; left; right; by left).
  destruct (Hre _ Hrm) as (xm & Hxm & _).
  destruct (gc_fullsweep_ok g1 xm Hw1 Hs ltac:(lia) Hm1 Hxm (Hkeep _ _ Hxm Hrm)) as (g2 & E2 & F).
  exists g1, g2. split; [done|]. split; [done|]. split; [done|]. split; [done|]. split.
  - intros o Ho. destruct (Hre o Ho) as (x & Hx & _). exists x. destruct (decide (o ∈ pending g1 (gc_root g1 ++ gc_udata g1))) as [Hin|Hn].
    + pose proof (sf_swept _ _ F o x Hin Hx) as H. unfold swept in H. rewrite (Hkeep o x Hx Ho) in H. destruct H as (x' & Hx' & _ & Hb). by exists x'.
    + exists x. rewrite (sf_others _ _ F o Hn). split; [done|]. split; [done|]. apply same_body_refl.
  - intros o x Ho Hx D Hf Hc. assert (o ∈ pending g1 (gc_root g1 ++ gc_udata g1)) as Hin by (unfold pending; apply elem_of_app; by left).
    pose proof (sf_swept _ _ F o x Hin Hx) as H. unfold swept in H. by rewrite (keeps_dead g1 _ Hw1 D Hf), Hc in H.
Qed.

End Full.
