(* ===== verification/GcProps.v ===== *)
(** * The garbage collector: properties

    The claims about [lj_gc.c], and a small heap for their witnesses. *)

From S2P Require Import Prelude Machine Num Tab TabKey TabHash TabInv TabMap TabProps Buf Gc GcFunc GcInv GcMark GcTrav GcProp GcAtomic GcWeak GcSafe GcMut GcFuncInv GcLists GcCycle GcUpv GcSweep GcFull.

Section Props.
Context `{TE : TabEnv}.

(** C3: the write barriers and the incremental steps of the collector work
    together, and a cycle collects garbage and nothing else: start a cycle in
    any well-formed heap; let the program and the collector take steps in any
    order - the collector propagates marks; the program stores to tables,
    functions, userdata, prototypes, closed upvalues and stacks with the
    barriers of [lj_gc.h], looks up, creates and closes upvalues and creates
    objects -; then run [atomic] and the full sweep of the lists.  Both return.
    What an object that is not dead after [atomic] refers to is not dead, also
    for entries left in weak tables, excepted only the keys of tables with [K]
    in their mode.  Every object that can be reached from the roots outlives
    the sweep with its contents - an upvalue of a dead thread closed with the
    value of its slot, a thread without its dead upvalues -; every object of
    the lists that is dead, not fixed and no cdata with a finalizer is freed;
    what stays has just the current white, objects outside the lists are not
    touched, and the lists hold existing objects, each once, all survivors
    among them. *)
Theorem gc_cycle_collects g0 g1 g L : cycle_start g0 -> gc_mark_start g0 = Ok g1 -> rtc step g1 g -> live (shape g) L ->
  Z.of_nat (size (heap g)) <= 0xffffffff ->
  exists g' g'', atomic g L = Ok g' /\ gc_fullsweep g' = Ok g'' /\ swept_full g' g'' /\
    (forall o b p, alive g' o -> shape g' !! o = Some b -> p ∈ held g' (shape g') b -> alive g' p) /\
    (forall o, reachable g' L o -> exists x x', heap g' !! o = Some x /\ heap g'' !! o = Some x' /\ same_body g' (body x) (body x')) /\
    (forall o x, o ∈ gc_root g' ++ gc_udata g' -> heap g' !! o = Some x -> isdead g' (marked x) = true ->
       has (marked x) (currentwhite g' .& Z.lnot LJ_GC_WHITES) = false -> is_cdata (body x) && has (marked x) LJ_GC_CDATA_FIN = false ->
       heap g'' !! o = None).
Proof.
  intros Hs E Hst HL Hsz. destruct (mark_start_ok g0 Hs) as (g1' & E' & HI & _). assert (g1' = g1) as -> by congruence.
  pose proof (steps_inv g1 g HI Hst) as [_ Hw Hm Hr Hls (gs & ga & ws & HJ)]. by apply (cycle_collects g L gs ga ws).
Qed.

(** C13: the tri-color invariant: the start of a cycle returns, and in all
    states that follow no black object refers to a white one, the gray objects
    are those in the gray, the second chance and the weak list, no list is
    cyclic or shares an object with another, threads and open upvalues are
    never black, userdata and closed upvalues never gray, and white objects
    have the current white. *)
Theorem gc_mark_invariant g0 : cycle_start g0 ->
  exists g1, gc_mark_start g0 = Ok g1 /\ forall g, rtc step g1 g -> Inv g.
Proof.
  intros Hs. destruct (mark_start_ok g0 Hs) as (g1 & E & HI & _). exists g1. split; [done|]. intros g. by apply steps_inv.
Qed.

(** C26: propagation ends: from every state of the mark phase [gc_propagate_gray]
    returns with an empty gray list and the invariant, the objects already
    marked stay marked, and as many steps as there are objects, twice, are
    enough. *)
Theorem gc_propagate_gray_ends g : Inv g ->
  exists g', gc_propagate_gray g = Ok g' /\ Inv g' /\ gc_gray g' = 0 /\ (forall o, nw (heap g) o -> nw (heap g') o).
Proof.
  intros HI. destruct (i_J g HI) as (gs & ga & ws & HJ).
  destruct (propagate_gray_ok (rest g) (shape g) (j_wf _ _ _ _ _ _ HJ) (uvhead g) g gs ga ws eq_refl eq_refl HJ)
    as (g' & da & dw & E & J' & L & _). exists g'. split; [done|].
  assert (uvhead g' = uvhead g) as Hu by exact (f_equal uvhead (lp_rest _ _ _ L)).
  split; [|split; [apply (j_gray _ _ _ _ _ _ J')|apply L]].
  apply (Inv_kept g g' HI); [|rewrite (lp_shape _ _ _ L), (lp_rest _ _ _ L); apply HI|rewrite Hu; by exists [], (da ++ ga), (dw ++ ws)]. apply kept_rest; [apply HI|apply L|apply L].
Qed.

(** C27: closures that capture the same local variable share its upvalue: for
    every slot of a thread whose open upvalues are sorted, [func_finduv] returns
    an upvalue of the slot that is in the list of the thread and not dead - one
    that was dead is resurrected -; it is new only if there was none; the list
    stays sorted, other objects are not touched, and the next lookup of the slot
    returns the same upvalue and changes nothing. *)
Theorem finduv_shares g o t slot a : one_white g -> th_at g o = Ok t -> upvals_sorted g t -> heap g !! a = None ->
  exists g' uv, func_finduv g o slot a = Ok (g', uv) /\ shares g o t slot a g' uv.
Proof.
  intros Hw Ht (ss & Hs & Hd) Ha. destruct (th_at_inv g o t Ht) as (x & Hx & Hb).
  destruct (finduv_loop_spec g slot _ _ Hs Hd) as (r & pre & post & sp & sq & E & Hl & -> & H1 & H2 & H3 & H4).
  unfold func_finduv. rewrite Ht. cbn [mbind res_bind]. rewrite E. cbn [mbind res_bind]. destruct r as [p|].
  - destruct H4 as (post' & sq' & -> & ->). assert (open_slot g p = Ok slot) as Hp by by inversion H2.
    destruct (open_slot_inv g p slot Hp) as (y & tv & th & Hy & Hby). rewrite (obj_at_ok _ _ _ Hy). cbn [mbind res_bind].
    eexists _, p. split; [reflexivity|]. apply finduv_found with x (sp ++ slot :: sq'); try done.
    rewrite Hl. apply elem_of_app. right. by left.
  - eexists _, a. split; [reflexivity|]. by apply finduv_new with x sp sq.
Qed.

(** C28: leaving a block closes its upvalues: in the mark phase [lj_func_closeuv]
    returns and keeps the invariant; the upvalues of the slots from the level on
    are closed with the values of their slots, leave the list of the thread and
    that of all open upvalues and join the list of all objects; those below the
    level stay open, and the list stays sorted. *)
Theorem closeuv_closes g o level t : Inv g -> th_at g o = Ok t -> upvals_sorted g t ->
  exists g' t', lj_func_closeuv g o level = Ok g' /\ Inv g' /\ th_at g' o = Ok t' /\ upvals_sorted g' t' /\
    th_openupval t' = filter (fun uv => (slot_of (shape g) uv < level)%nat) (th_openupval t) /\
    forall uv, uv ∈ th_openupval t -> let s := slot_of (shape g) uv in
      if (s <? level)%nat then shape g' !! uv = shape g !! uv
      else uv ∈ gc_root g' /\ (uv ∉ uvhead g') /\ exists v, stack_at g o s = Ok v /\ shape g' !! uv = Some (BUpval true v o s).
Proof.
  intros HI Ht (ss & Hss & Hd). destruct (i_J g HI) as (gs & ga & ws & HJ). destruct (th_at_inv g o t Ht) as (x & Hx & Hb).
  assert (shape g !! o = Some (norm (BThread t))) as Ho by (rewrite shape_lookup, Hx; cbn; by rewrite Hb).
  destruct (lk_upvals _ _ (i_lists g HI) o _ Ho) as (Hnd & Huv). cbn [upvals_of norm th_openupval set_stack] in Hnd, Huv.
  destruct (closeuv_level_ok g gs ga ws o level t (i_marking g HI) HJ Ht Hnd) as (cl & rs & g1 & gs1 & t1 & Hl & HLv & C & Ht1 & E & J').
  { apply Forall_forall. intros uv Hin. apply list_elem_of_In in Hin. destruct (Huv uv Hin) as (tv & slot & H). by exists tv, o, slot. }
  pose proof (close_inv g o level _ HI E) as HI'. set (g' := put_th g1 o (set_openupval t1 rs)) in *.
  destruct (th_at_inv g1 o t1 Ht1) as (x1 & Hx1 & _). rewrite Hl in Hss, Hnd, Huv.
  destruct (level_filter g level cl rs ss Hss Hd HLv) as (Hbelow & ss' & Hss' & Hd'). destruct HLv as (Habove & _).
  assert (forall p, p <> o -> shape g' !! p = shape g1 !! p) as Hne.
  { intros p N. rewrite !shape_lookup. unfold g', put_th, upd. cbn. by rewrite lookup_alter_ne. }
  assert (forall uv, uv ∈ cl ++ rs -> uv <> o) as Hno.
  { intros uv Hin ->. destruct (Huv o Hin) as (tv & slot & H). by rewrite Ho in H. }
  assert (forall uv, uv ∈ rs -> shape g' !! uv = shape g !! uv) as Hrs.
  { intros uv Hin. rewrite Hne by (apply Hno, elem_of_app; by right). apply (ca_shape _ _ _ C). intros H.
    apply list.NoDup_app in Hnd as (_ & Hnd & _). by apply Hnd in H. }
  exists g', (set_openupval t1 rs). split; [done|]. split; [done|]. split; [by apply th_at_put with x1|]. split; [|split].
  - exists ss'. split; [|done]. by apply (slots_shape g).
  - rewrite Hl. symmetry. apply filter_split; [|done]. eapply Forall_impl; [|exact Habove]. cbn. lia.
  - rewrite Hl. intros uv [Hin|Hin]%elem_of_app s.
    + rewrite Forall_forall in Habove. rewrite (proj2 (Nat.ltb_ge _ _)) by (apply Habove; by apply list_elem_of_In).
      destruct (ca_closed _ _ _ C uv Hin) as (tv & th & slot & Hbu & Hbc).
      destruct (Huv uv ltac:(apply elem_of_app; by left)) as (tv' & slot' & Hbu'). rewrite Hbu in Hbu'. injection Hbu' as <- -> <-.
      assert (s = slot) as -> by (unfold s, slot_of; by rewrite Hbu).
      split; [change (gc_root g') with (gc_root g1); rewrite (ca_root _ _ _ C); apply elem_of_app; left; apply list_elem_of_In; rewrite <- in_rev; by apply list_elem_of_In|].
      split; [change (uvhead g') with (uvhead g1); rewrite (ca_uvhead _ _ _ C); tauto|]. eexists. split; [|by rewrite Hne by (apply Hno, elem_of_app; by left)].
      destruct (uvval_ok (rest g) (shape g) g uv false tv o slot eq_refl (j_wf _ _ _ _ _ _ HJ) Hbu) as (Ev & _). exact Ev.
    + rewrite Forall_forall in Hbelow. rewrite (proj2 (Nat.ltb_lt _ _)) by (apply Hbelow; by apply list_elem_of_In). by apply Hrs.
Qed.

End Props.

(** ** A small heap

    The main thread has two tables on its stack: the table 3, whose array
    refers to the table 9 or to another, and the table 5 with a metatable with
    a [__mode] and with the table 7, which nothing else refers to, as a key. *)

Definition gc_env : TabEnv := hash_env (fun _ => 0).

Definition ops_arr (v : TValue) : list tab_op := [OpSet (int_key 1) v].
Definition ops_weak : list tab_op := [OpSet (Tgc LJ_TTAB 7) Ttrue].
Definition ops_mode : list tab_op := [OpSet (Tstr 11) (Tstr 12)].
Definition built (asz h : Z) (ops : list tab_op) : GCtab := get_ok (t ← @lj_tab_new gc_env asz h; @tab_run gc_env t ops).
Definition t_empty : GCtab := Eval vm_compute in built 0 0 [].
Definition t_arr9 : GCtab := Eval vm_compute in built 2 0 (ops_arr (Tgc LJ_TTAB 9)).
Definition t_arr7 : GCtab := Eval vm_compute in built 2 0 (ops_arr (Tgc LJ_TTAB 7)).
Definition t_weak : GCtab := Eval vm_compute in built 0 1 ops_weak.
Definition t_mode : GCtab := Eval vm_compute in built 0 1 ops_mode.

Lemma built_ok asz h ops t : 0 <= asz -> 0 <= h -> Forall op_wf ops ->
  (t ← @lj_tab_new gc_env asz h; @tab_run gc_env t ops) = Ok t -> @wf_tab gc_env t.
Proof. apply (@built_wf gc_env). Qed.

Lemma wf_t_empty : @wf_tab gc_env t_empty.
Proof. apply (built_ok 0 0 []); [done|done|constructor|vm_compute; reflexivity]. Qed.
Lemma wf_t_arr9 : @wf_tab gc_env t_arr9.
Proof. apply (built_ok 2 0 (ops_arr (Tgc LJ_TTAB 9))); [done|done|constructor; [split; by vm_compute|constructor]|vm_compute; reflexivity]. Qed.
Lemma wf_t_arr7 : @wf_tab gc_env t_arr7.
Proof. apply (built_ok 2 0 (ops_arr (Tgc LJ_TTAB 7))); [done|done|constructor; [split; by vm_compute|constructor]|vm_compute; reflexivity]. Qed.
Lemma wf_t_weak : @wf_tab gc_env t_weak.
Proof. apply (built_ok 0 1 ops_weak); [done|done|constructor; [split; by vm_compute|constructor]|vm_compute; reflexivity]. Qed.
Lemma wf_t_mode : @wf_tab gc_env t_mode.
Proof. apply (built_ok 0 1 ops_mode); [done|done|constructor; [split; by vm_compute|constructor]|vm_compute; reflexivity]. Qed.

(** The contents of the objects; [m] is the mode. *)
Definition demo_bodies (m : list Z) (t3 : GCtab) : list (Z * GCbody) :=
  [(1, BThread (mkTh ([Tnil; Tgc LJ_TTAB 3; Tgc LJ_TTAB 5] ++ replicate 7 Tnil) 3 [] [] 2));
   (2, BTab t_empty 0); (3, BTab t3 0); (4, BTab t_empty 0); (5, BTab t_weak 6); (6, BTab t_mode 0); (7, BTab t_empty 0);
   (9, BTab t_empty 0); (10, BStr [95; 95; 103; 99]); (11, BStr [95; 95; 109; 111; 100; 101]); (12, BStr m); (13, BStr [])].

Definition demo_state (h : gmap Z GCobj) : global_State :=
  mkG h GCSpause 0x21 0 0 0 [] [7; 6; 5; 4; 3; 2; 9; 1] [] 1 (Tgc LJ_TTAB 4) [0; 0; 10; 11] [] 13 (mkSBuf [] 0) empty
    (mkTrace 0 [] 0 0 0 0) false 1.
Definition demo_gc (m : list Z) : global_State :=
  demo_state (list_to_map ((fun p => (p.1, mkObj 1 0 p.2)) <$> demo_bodies m t_arr9)).

Lemma wf_set_nomm {TE : TabEnv} t n : wf_tab t -> wf_tab (set_nomm t n).
Proof. by intros []. Qed.

(** All shapes of the demonstration are well-formed. *)
Section Demo.
#[local] Existing Instance gc_env.
Context (m : list Z) (t3 : GCtab) (Ht : t3 = t_arr9 \/ t3 = t_arr7).
Let S : gmap Z GCbody := list_to_map ((fun p => (p.1, norm p.2)) <$> demo_bodies m t3).

Lemma demo_tabs o : bool_decide (o ∈ [2; 3; 4; 5; 6; 7; 9]) = true -> typed S LJ_TTAB o.
Proof.
  intros Ho%bool_decide_eq_true. repeat (apply elem_of_cons in Ho as [->|Ho]; [eexists; split; [vm_compute; reflexivity|reflexivity]|]).
  by apply elem_of_nil in Ho.
Qed.

Lemma demo_tv v : v = Tnil \/ v = Ttrue \/ v = Tstr 11 \/ v = Tstr 12 \/ (exists o, v = Tgc LJ_TTAB o /\ bool_decide (o ∈ [2; 3; 4; 5; 6; 7; 9]) = true) -> tv_ok S v.
Proof.
  intros [->|[->|[->|[->|(o & -> & Ho)]]]] E; try discriminate E.
  - split; [|done]. eexists. split; [vm_compute; reflexivity|reflexivity].
  - split; [|done]. eexists. split; [vm_compute; reflexivity|reflexivity].
  - split; [by apply demo_tabs|done].
Qed.

Lemma demo_body o b : (o, b) ∈ ((fun p => (p.1, norm p.2)) <$> demo_bodies m t3) -> body_ok (demo_gc m) S b.
Proof.
  assert (wf_tab (set_nomm t3 0)) as W3 by (apply wf_set_nomm; destruct Ht as [-> | ->]; [apply wf_t_arr9|apply wf_t_arr7]).
  assert (forall o, bool_decide (o ∈ [2; 3; 4; 5; 6; 7; 9]) = true -> tv_ok S (Tgc LJ_TTAB o)) as Hg.
  { intros p Hp. apply demo_tv. right; right; right; right. by exists p. }
  assert (tv_ok S Tnil /\ tv_ok S Ttrue /\ tv_ok S (Tstr 11) /\ tv_ok S (Tstr 12)) as (Hnil & Htrue & H11 & H12) by (split_and!; apply demo_tv; tauto).
  assert (forall t, t = t_arr9 \/ t = t_arr7 -> Forall (tv_ok S) (tab_avals (set_nomm t 0))) as Ha.
  { intros t [-> | ->].
    - change (Forall (tv_ok S) [Tnil; Tgc LJ_TTAB 9]). apply Forall_cons_2; [done|]. apply Forall_cons_2; [by apply Hg|apply Forall_nil_2].
    - change (Forall (tv_ok S) [Tnil; Tgc LJ_TTAB 7]). apply Forall_cons_2; [done|]. apply Forall_cons_2; [by apply Hg|apply Forall_nil_2]. }
  intros H. cbn [demo_bodies fmap list_fmap fst snd norm] in H.
  repeat (apply elem_of_cons in H as [[= -> ->]|H]; [|]); try (by apply elem_of_nil in H); try exact I.
  - split; [cbn; lia|]. split; [|split; [by apply demo_tabs|constructor]]. cbn [drop take th_stack set_stack th_top replicate app].
    apply Forall_cons_2; [by apply Hg|]. apply Forall_cons_2; [by apply Hg|apply Forall_nil_2].
  - split; [by left|]. split; [apply wf_set_nomm, wf_t_empty|]. split; constructor.
  - split; [by left|]. split; [done|]. split; [by apply Ha|]. destruct Ht as [-> | ->]; constructor.
  - split; [by left|]. split; [apply wf_set_nomm, wf_t_empty|]. split; constructor.
  - split; [by right; apply demo_tabs|]. split; [apply wf_set_nomm, wf_t_weak|]. split; [constructor|].
    apply Forall_forall. intros n Hn. vm_compute in Hn. repeat destruct Hn as [<-|Hn]; try done; intros _; split; try done; by apply Hg.
  - split; [by left|]. split; [apply wf_set_nomm, wf_t_mode|]. split; [constructor|]. 
    apply Forall_forall. intros n Hn. vm_compute in Hn. repeat destruct Hn as [<-|Hn]; try done; intros _; by split.
  - split; [by left|]. split; [apply wf_set_nomm, wf_t_empty|]. split; constructor.
  - split; [by left|]. split; [apply wf_set_nomm, wf_t_empty|]. split; constructor.
Qed.

Lemma demo_wf_shape : wf (rest (demo_gc m)) S.
Proof.
  split.
  - done.
  - intros o b Hb. apply elem_of_list_to_map_2 in Hb. by apply demo_body in Hb.
  - intros mm [-> | ->]; [exists 10|exists 11]; by split.
  - repeat (apply Forall_cons_2; [first [by left|right; eexists; vm_compute; reflexivity]|]). apply Forall_nil_2.
  - eexists. split; [vm_compute; reflexivity|done].
  - apply demo_tv. right; right; right; right. exists 4. by split.
  - eexists. split; [vm_compute; reflexivity|done].
  - by left.
  - constructor.
  - intros o b Hb Ho. apply elem_of_list_to_map_2 in Hb. exfalso. cbn [demo_bodies fmap list_fmap fst snd norm] in Hb.
    repeat (apply elem_of_cons in Hb as [[= -> ->]|Hb]; [done|]). by apply elem_of_nil in Hb.
  - constructor.
  - constructor.
Qed.
End Demo.

Lemma demo_lists m : lists_ok (rest (demo_gc m)) (list_to_map ((fun p => (p.1, norm p.2)) <$> demo_bodies m t_arr9)).
Proof.
  split.
  - by apply (bool_decide_unpack _).
  - intros o Ho. change (o ∈ [7; 6; 5; 4; 3; 2; 9; 1]) in Ho.
    repeat (apply elem_of_cons in Ho as [->|Ho]; [eexists; split; [vm_compute; reflexivity|reflexivity]|]). by apply elem_of_nil in Ho.
  - intros o b Hb Ht. apply elem_of_list_to_map_2 in Hb. cbn [demo_bodies fmap list_fmap fst snd norm] in Hb.
    repeat (apply elem_of_cons in Hb as [[= -> ->]|Hb]; [first [discriminate Ht|by apply (bool_decide_unpack _)]|]). by apply elem_of_nil in Hb.
  - intros o b Hb. apply elem_of_list_to_map_2 in Hb. cbn [demo_bodies fmap list_fmap fst snd norm] in Hb.
    repeat (apply elem_of_cons in Hb as [[= -> ->]|Hb]; [split; [constructor|intros uv H; by apply elem_of_nil in H]|]). by apply elem_of_nil in Hb.
Qed.

Lemma demo_start m : @cycle_start gc_env (demo_gc m).
Proof.
  split.
  - replace (shape (demo_gc m)) with (list_to_map ((fun p => (p.1, norm p.2)) <$> demo_bodies m t_arr9) : gmap Z GCbody)
      by (vm_compute; reflexivity).
    apply demo_wf_shape. by left.
  - intros o x Hx. apply elem_of_list_to_map_2 in Hx. cbn [demo_bodies fmap list_fmap fst snd norm] in Hx.
    repeat (apply elem_of_cons in Hx as [[= -> ->]|Hx]; [cbn [body nomm_ok]; try exact I|]); try (by apply elem_of_nil in Hx).
    all: intros mm name Hmm Hh Hn; destruct Hmm as [-> | ->]; try discriminate Hh; vm_compute in Hn; injection Hn as <-;
      eexists; (split; [vm_compute; reflexivity|reflexivity]).
  - replace (shape (demo_gc m)) with (list_to_map ((fun p => (p.1, norm p.2)) <$> demo_bodies m t_arr9) : gmap Z GCbody)
      by (vm_compute; reflexivity).
    apply demo_lists.
  - by left.
  - intros o x Hx. apply elem_of_list_to_map_2 in Hx. cbn [demo_bodies fmap list_fmap fst snd norm] in Hx.
    repeat (apply elem_of_cons in Hx as [[= -> ->]|Hx]; [by split_and!|]). by apply elem_of_nil in Hx.
Qed.


(** Steps of the collector. *)
Fixpoint run_steps (n : nat) (g : global_State) : gres global_State :=
  match n with
  | O => Ok g
  | S n => if gc_gray g =? 0 then Ok g else g ← @propagatemark gc_env g; run_steps n g
  end.

Lemma run_steps_rtc n : forall g g', @Inv gc_env g -> gc_state g = GCSpropagate -> run_steps n g = Ok g' -> rtc (@step gc_env) g g'.
Proof.
  induction n as [|n IH]; intros g g' HI Hs E; [injection E as <-; apply rtc_refl|]. cbn [run_steps] in E.
  destruct (Z.eqb_spec (gc_gray g) 0) as [|N]; [injection E as <-; apply rtc_refl|].
  apply bind_Ok in E as (g1 & E1 & E). pose proof (@st_propagate gc_env g g1 Hs N E1) as Hst.
  apply rtc_l with g1; [done|]. apply IH; [by apply (@step_inv gc_env) with g| |done]. rewrite <- Hs. by apply (@propagatemark_state gc_env).
Qed.

Definition colors (g : global_State) : list (Z * (bool * bool)) :=
  (fun p => (p.1, (iswhite (marked p.2), isblack (marked p.2)))) <$> map_to_list (heap g).
Definition get_g (r : gres global_State) : global_State := match r with Ok g => g | Err _ => demo_gc [] end.

(** After the start and all propagation; with [n] = 4 it is under way. *)
Definition demo_run (m : list Z) (n : nat) : global_State := get_g (g ← gc_mark_start (demo_gc m); run_steps n g).

Lemma demo_run_ok m n g1 g : gc_mark_start (demo_gc m) = Ok g1 -> run_steps n g1 = Ok g -> rtc (@step gc_env) g1 g.
Proof.
  intros E1 E. destruct (@mark_start_ok gc_env (demo_gc m) (demo_start m)) as (g1' & E' & HI & Hs).
  assert (g1' = g1) as -> by congruence. by apply run_steps_rtc with n.
Qed.

(** The table 7, a weak key so far, is stored to the black table 3. *)
Definition demo_store (m : list Z) : global_State :=
  get_g (@lj_gc_barriert (put_tab (demo_run m 7) 3 t_arr7 0) 3 (Tgc LJ_TTAB 7)).

Lemma wf_set_state {TE : TabEnv} g s S : wf (rest g) S -> wf (rest (set_state g s)) S.
Proof. by intros []. Qed.

Lemma demo_table_store : @table_store gc_env (demo_run [107] 7) 3 t_arr7 0 (tvref (Tgc LJ_TTAB 7)).
Proof.
  eexists _, t_arr9, 0. split; [vm_compute; reflexivity|]. split; [reflexivity|]. cbv zeta.
  set (g1 := put_tab (demo_run [107] 7) 3 t_arr7 0).
  assert (rest g1 = rest (set_state (demo_gc [107]) GCSpropagate)) as Hr by (vm_compute; reflexivity).
  assert (shape g1 = list_to_map ((fun p => (p.1, norm p.2)) <$> demo_bodies [107] t_arr7)) as HS by (vm_compute; reflexivity).
  split_and!.
  - rewrite Hr, HS. apply wf_set_state, demo_wf_shape. by right.
  - intros mm name [-> | ->] Hh; discriminate Hh.
  - intros mt Hm. exfalso. assert (0 <= @mode_of gc_env (rest (demo_run [107] 7)) (shape (demo_run [107] 7)) mt); [|lia]. clear Hm.
    assert (shape (demo_run [107] 7) = list_to_map ((fun p => (p.1, norm p.2)) <$> demo_bodies [107] t_arr9)) as ->
      by (vm_compute; reflexivity).
    unfold mode_of. destruct (negb (mt =? 0)); [|done]. destruct (_ !! mt) as [b|] eqn:Hb; [|done].
    apply elem_of_list_to_map_2 in Hb. cbn [demo_bodies fmap list_fmap fst snd norm] in Hb.
    repeat (apply elem_of_cons in Hb as [[= -> ->]|Hb]; [clear; vm_compute; discriminate|]). clear -Hb. by apply elem_of_nil in Hb.
  - intros p. change (p ∈ [7] -> p ∈ [9; 7]). rewrite !elem_of_cons, elem_of_nil. tauto.
Qed.

Lemma demo_store_steps : rtc (@step gc_env) (get_g (gc_mark_start (demo_gc [107]))) (set_state (demo_store [107]) GCSatomic).
Proof.
  transitivity (demo_run [107] 7).
  - apply demo_run_ok with [107] 7%nat; vm_compute; reflexivity.
  - apply rtc_l with (demo_store [107]); [|apply rtc_l with (set_state (demo_store [107]) GCSatomic); [|apply rtc_refl]].
    + eapply (@st_table gc_env); [apply demo_table_store|apply tb_tv|]. vm_compute. reflexivity.
    + apply (@st_end gc_env); vm_compute; reflexivity.
Qed.

(** The store saves the table 7. *)
Lemma store_saves : exists g', @atomic gc_env (set_state (demo_store [107]) GCSatomic) 1 = Ok g' /\ alive g' 7.
Proof. eexists. split; [vm_compute; reflexivity|]. eexists. split; [vm_compute; reflexivity|reflexivity]. Qed.

(** Without the store the table 7 is freed. *)
Lemma demo_run_steps : rtc (@step gc_env) (get_g (gc_mark_start (demo_gc [107]))) (set_state (demo_run [107] 7) GCSatomic).
Proof.
  transitivity (demo_run [107] 7).
  - apply demo_run_ok with [107] 7%nat; vm_compute; reflexivity.
  - apply rtc_l with (set_state (demo_run [107] 7) GCSatomic); [|apply rtc_refl]. apply (@st_end gc_env); vm_compute; reflexivity.
Qed.

Lemma gc_cycle_collects_witness : exists g' g'',
  @atomic gc_env (set_state (demo_run [107] 7) GCSatomic) 1 = Ok g' /\ gc_fullsweep g' = Ok g'' /\ swept_full g' g'' /\
  heap g'' !! 7 = None /\ gc_root g'' = [6; 5; 4; 3; 2; 9; 1].
Proof.
  destruct (@gc_cycle_collects gc_env (demo_gc [107]) (get_g (gc_mark_start (demo_gc [107]))) (set_state (demo_run [107] 7) GCSatomic) 1)
    as (g' & g'' & E & E' & F & _ & _).
  - apply demo_start.
  - vm_compute. reflexivity.
  - apply demo_run_steps.
  - eexists. vm_compute. reflexivity.
  - vm_compute. intros H. discriminate H.
  - exists g', g''. split; [exact E|]. split; [exact E'|]. split; [exact F|]. clear F. vm_compute in E. injection E as <-. vm_compute in E'.
    injection E' as <-. split; vm_compute; reflexivity.
Defined.

Lemma gc_mark_invariant_witness : exists g1, gc_mark_start (demo_gc [107]) = Ok g1 /\ @Inv gc_env (set_state (demo_store [107]) GCSatomic).
Proof.
  destruct (@gc_mark_invariant gc_env (demo_gc [107]) (demo_start [107])) as (g1 & E & H). exists g1. split; [exact E|].
  apply H. assert (g1 = get_g (gc_mark_start (demo_gc [107]))) as -> by (rewrite E; reflexivity). apply demo_store_steps.
Defined.

Lemma gc_propagate_gray_ends_witness : exists g', @gc_propagate_gray gc_env (demo_run [107] 4) = Ok g' /\ gc_gray g' = 0.
Proof.
  destruct (@gc_propagate_gray_ends gc_env (demo_run [107] 4)) as (g' & E & _ & H & _).
  - destruct (@gc_mark_invariant gc_env (demo_gc [107]) (demo_start [107])) as (g1 & E & H). apply H.
    assert (g1 = get_g (gc_mark_start (demo_gc [107]))) as -> by (rewrite E; reflexivity). apply demo_run_ok with [107] 4%nat; vm_compute; reflexivity.
  - exists g'. split; [exact E|exact H].
Defined.

(** An upvalue of the slot 1 of the main thread is looked up, and closed. *)
Definition demo_up : global_State := get_g (r ← func_finduv (demo_run [107] 7) 1 1 20; Ok r.1).

Lemma demo_up_inv : @Inv gc_env demo_up.
Proof.
  destruct (@mark_start_ok gc_env (demo_gc [107]) (demo_start [107])) as (g1 & E & HI & _).
  apply (@find_inv gc_env (demo_run [107] 7) 1 (mkTh ([Tnil; Tgc LJ_TTAB 3; Tgc LJ_TTAB 5] ++ replicate 7 Tnil) 3 [] [] 2) 1 20 _ 20).
  - apply (@steps_inv gc_env g1); [done|]. apply demo_run_ok with [107] 7%nat; [done|].
    assert (g1 = get_g (gc_mark_start (demo_gc [107]))) as -> by (rewrite E; reflexivity). vm_compute. reflexivity.
  - vm_compute. reflexivity.
  - cbn. lia.
  - vm_compute. reflexivity.
  - done.
  - vm_compute. reflexivity.
Qed.

Lemma finduv_shares_witness : exists g' uv, func_finduv demo_up 1 2 21 = Ok (g', uv) /\ uv = 21 /\
  shares demo_up 1 (mkTh ([Tnil; Tgc LJ_TTAB 3; Tgc LJ_TTAB 5] ++ replicate 7 Tnil) 3 [] [20] 2) 2 21 g' uv.
Proof.
  destruct (finduv_shares demo_up 1 (mkTh ([Tnil; Tgc LJ_TTAB 3; Tgc LJ_TTAB 5] ++ replicate 7 Tnil) 3 [] [20] 2) 2 21) as (g' & uv & E & H).
  - left. vm_compute. reflexivity.
  - vm_compute. reflexivity.
  - exists [1%nat]. split; [constructor; [vm_compute; reflexivity|constructor]|]. constructor; constructor.
  - vm_compute. reflexivity.
  - exists g', uv. split; [exact E|]. split; [|exact H]. vm_compute in E. injection E as _ <-. reflexivity.
Defined.

Lemma closeuv_closes_witness : exists g', lj_func_closeuv demo_up 1 1 = Ok g' /\ @Inv gc_env g' /\
  shape g' !! 20 = Some (BUpval true (Tgc LJ_TTAB 3) 1 1).
Proof.
  destruct (@closeuv_closes gc_env demo_up 1 1 (mkTh ([Tnil; Tgc LJ_TTAB 3; Tgc LJ_TTAB 5] ++ replicate 7 Tnil) 3 [] [20] 2))
    as (g' & t' & E & HI & _).
  - apply demo_up_inv.
  - vm_compute. reflexivity.
  - exists [1%nat]. split; [constructor; [vm_compute; reflexivity|constructor]|]. constructor; constructor.
  - exists g'. split; [exact E|]. split; [exact HI|]. vm_compute in E. injection E as <-. vm_compute. reflexivity.
Defined.

(** C33: a mode with [K], which the code keeps for the table of cdata
    finalizers but lets any program set, leaves dangling references: after the
    atomic phase a table that can be reached has a live entry whose key is
    dead, so the sweep frees an object the table still refers to. *)
Theorem K_mode_dangles : exists g g' t mt n,
  rtc (@step gc_env) (get_g (gc_mark_start (demo_gc [75]))) g /\ @atomic gc_env g 1 = Ok g' /\
  @reachable gc_env g' 1 5 /\ body <$> heap g' !! 5 = Some (BTab t mt) /\
  n ∈ tab_hnodes t /\ tvisnil (val n) = false /\ key n = Tgc LJ_TTAB 7 /\ ~ alive g' 7.
Proof.
  exists (set_state (demo_run [75] 7) GCSatomic), (get_g (@atomic gc_env (set_state (demo_run [75] 7) GCSatomic) 1)).
  eexists _, _, (mkNode Ttrue (Tgc LJ_TTAB 7) None). split; [|split; [|split; [|split; [|split_and!]]]].
  - transitivity (demo_run [75] 7); [apply demo_run_ok with [75] 7%nat; vm_compute; reflexivity|].
    apply rtc_l with (set_state (demo_run [75] 7) GCSatomic); [|apply rtc_refl]. apply (@st_end gc_env); vm_compute; reflexivity.
  - vm_compute. reflexivity.
  - apply (@reach_ref gc_env _ 1 1 (BThread (mkTh [Tnil; Tgc LJ_TTAB 3; Tgc LJ_TTAB 5] 3 [] [] 2))).
    + apply reach_root, elem_of_app. left. left.
    + vm_compute. reflexivity.
    + apply elem_of_app. left. right. left.
  - vm_compute. reflexivity.
  - vm_compute. left.
  - reflexivity.
  - reflexivity.
  - intros (x & Hx & D). vm_compute in Hx. injection Hx as <-. vm_compute in D. discriminate D.
Qed.
